(* ===== verification/_CoqProject ===== *)
-Q . S2P
Prelude.v
HcopProto.v
BarrierState.v
LockState.v
LockSafety.v
PaxosState.v
PaxosInv.v
PaxosNet.v
BaseIf.v
BaseChannel.v
TypedIf.v
NetSwitch.v
NetSwitchInv.v
BasicMem.v
RemoteMem.v
MemSwitch.v
Interconnect.v
BaseConn.v
BaseHandshake.v
ParamParser.v
ConnSetup.v
AxiStream.v
AxiSub.v
AxiSubWrite.v
AxiLite.v
DistSock.v
DistSetup.v
DistProxy.v
DistProxyInv.v
DistProxyRun.v
DpuResources.v
DpuConfig.v
NicRunner.v
NicRunnerInv.v
DpuHandlers.v
DpuDevice.v
DpuSystem.v
SwitchConfig.v
PrimitiveEngine.v
EngineSafety.v
HcopSwitch.v
HcopSwitchInv.v
HcopSwitchTime.v
I40eRss.v
I40eXsum.v
I40ePtp.v
I40eHmc.v
I40eQueue.v
I40eQueueInv.v
I40eQueueRun.v
I40eLan.v
I40eRx.v
I40eRxMem.v
I40eTx.v
I40eTxData.v
I40eTxTerm.v
I40eTxExample.v
I40eAdminq.v
I40eRegs.v
I40eDev.v
I40eDevInv.v
