(* ===== verification/Prelude.v ===== *)
(** * SimBricks with in-network coordination (HCOP): a verification library

    The program is a set of simulators that run as separate processes, exchange timestamped
    messages over shared-memory rings, and together simulate hosts, NICs, a DPU and a
    programmable switch.  HCOP runs coordination primitives (Paxos, locks, barriers) on the
    tiers of that system: the switch serves what it can, and hands exceptions to a fallback
    tier, the DPU or a host.

    ** Parts and how they interact

    - lib/hcop: the primitives as state machines over byte messages.  [PaxosNode],
      [LockManager] and [BarrierManager] take a message and return a status and outgoing
      messages; a common HCOP header (hcop_proto.h) frames them and records the tiers a
      packet crossed.
    - lib/simbricks/base: the rings that connect simulators, and the timestamps by which a
      simulator knows how far it may advance.  Two ends of a ring find each other over a socket
      and exchange intros; lib/simbricks/parser reads the URLs that say where, and
      lib/simbricks/nicif opens the two interfaces of a NIC.
    - lib/simbricks/axi: adapters between the clocked AXI buses of hardware models and these
      interfaces.
    - lib/simbricks/nicbm: the runner that drives a NIC model over a PCIe and a network ring.
    - sims/nic/dpu_bm: the DPU, a device of that runner, with ARM cores as a limited resource
      and one handler per primitive.
    - sims/net/hcop_switch: the switch, with ports on network rings, a pipeline latency, and
      the primitive engine.
    - sims/nic/i40e_bm: a NIC, another device of the runner: descriptor rings in host memory
      for receiving and transmitting, with steering by hash, checksum offload, TCP
      segmentation and a clock for time stamps; its registers and its admin queue are how the
      driver configures it.
    - sims/net/switch: a learning Ethernet switch over network rings.
    - sims/mem: a memory behind a memory ring (basicmem), and memory over the network: memnic
      turns requests into packets, memswitch translates their addresses, netmem executes them;
      interconnect connects hosts to several memories.
    - dist: proxies that connect simulators on different machines, a pair of rings and a TCP
      connection in place of one ring.

    ** Files

    - Prelude.v (this file): machine integers ([wrap], [fits]), bytes and packed structs
      ([le], [field], [struct_fields]), [memcpy], bit sets in a word, the sum monad.
    - HcopProto.v, module [hcop]: hcop_proto.h and DecodeTierPath of hcop_telemetry.h.
    - BarrierState.v [barrier]: barrier_proto.h, barrier_state.{h,cc}.
    - LockState.v [lock]: lock_proto.h, lock_state.{h,cc}; LockSafety.v [lock_safety]: its
      executions.
    - PaxosState.v [paxos]: paxos_proto.h, paxos_state.{h,cc}; PaxosInv.v [paxos_inv]: one
      replica; PaxosNet.v [paxos_net]: replicas over a network.
    - BaseIf.v [base]: the inline operations of base/if.h and Init of if.c; BaseChannel.v
      [channel]: a producer and a consumer on one ring; TypedIf.v [typed]: the wrappers of
      base/generic.h, as an interface with its two rings and the process at their other end.
    - BaseConn.v [conn]: connection set-up in base/if.c; BaseHandshake.v [handshake]: a listener
      and a connector; ParamParser.v [params]: the URLs of parser.c; ConnSetup.v [setup]: its
      SimbricksParametersEstablish, and nicif.{h,c}.
    - AxiStream.v [axis]: axi_s.hpp; AxiSub.v [axi_sub] and AxiSubWrite.v [axi_sub_write]: the two
      parts of axi_subordinate.hh; AxiLite.v [axil]: axil_manager.hh.
    - DistSetup.v [proxy_setup]: the set-up functions of dist/common/base.c and the intros of
      net_sockets.c; DistSock.v [sock]: its messages on the stream; DistProxy.v [proxy]: polling,
      reports and entries; DistProxyInv.v [proxy_inv]: one direction of one peer; DistProxyRun.v
      [proxy_run]: executions of two proxies.
    - NetSwitch.v [net_switch]: net_switch.cc; NetSwitchInv.v [net_switch_inv]: its guarantees.
    - BasicMem.v [basicmem]: basicmem.c and mem/proto.h; RemoteMem.v [remote_mem]: memnic.c,
      netmem.c, and the translation of memswitch.cc; MemSwitch.v [mem_switch]: the rest of
      memswitch.cc, and a request there and back; Interconnect.v [interconnect]: interconnect.cc.
    - DpuResources.v [dpu]: arm_core_pool.cc, dram_store.cc; DpuConfig.v [dpu_config]:
      dpu_config.{h,cc}.
    - NicRunner.v [nicbm]: nicbm.{h,cc}, with the class [Device] for [Runner::Device];
      NicRunnerInv.v [nicbm_inv]: what holds for every device.
    - DpuHandlers.v [dpu_handlers]: the class [PrimitiveHandler] for the interface of
      dpu_bm.h, the three handlers, and the class [HandlerLaws] the device relies on;
      DpuDevice.v [dpu_device]: dpu_bm.{h,cc} for any handlers; DpuSystem.v [dpu_system]: the
      device under the runner.
    - SwitchConfig.v [switch_config]: switch_config.{h,cc}; PrimitiveEngine.v [engine]:
      primitive_engine.{h,cc}; EngineSafety.v [engine_safety]: its guarantees.
    - HcopSwitch.v [hswitch]: device.cc, net_port.cc; HcopSwitchInv.v [hswitch_inv]: its
      guarantees, for any priority queue; HcopSwitchTime.v [hswitch_time]: its latency.
    - I40eRss.v [rss]: rss.cc; I40eXsum.v [xsums]: xsums.cc; I40ePtp.v [ptp]: i40e_ptp.cc;
      I40eHmc.v [hmc]: i40e_hmc.cc.
    - I40eQueue.v [queue]: i40e_queues.cc, with the class [QueueClass] for the virtual methods
      of a queue; I40eQueueInv.v [queue_inv]: the class [QueueLaws] of what the engine relies
      on, and its invariant; I40eQueueRun.v [queue_run]: its runs.
    - I40eLan.v [lan]: what the queues of i40e_lan.cc share, and interrupts of i40e_bm.cc;
      I40eRx.v [rx] and I40eTx.v [tx]: [lan_queue_rx] and [lan_queue_tx], instances of both
      classes; I40eRxMem.v [rx_mem]: what a receive queue writes to host memory;
      I40eTxData.v [tx_data]: what is sent; I40eTxTerm.v [tx_term]: the loop over
      packets ends; I40eTxExample.v [tx_example]: examples.
    - I40eAdminq.v [adminq]: i40e_adminq.cc, a third instance; I40eRegs.v [regs]: the registers
      and their decoders in i40e_bm.cc; I40eDev.v [i40e_dev]: the device, i40e_bm.cc;
      I40eDevInv.v [i40e_dev_inv]: its guarantees.

    ** How the code is modelled

    Integers are [Z] with the wrap-around of their C++ type written out.  Packets and struct
    images are lists of bytes (as [Z] below 256), read by offset; encoders give the packed
    little-endian layout.  A method is a function from the object's record and its arguments
    to the new record and the results, in the order of the source; the vector of outgoing
    messages is threaded through.  [None] is a failed assertion or undefined behaviour (a
    read or write outside a buffer, an undefined shift or conversion), so a theorem that a
    function returns [Some] says that the code is defined there.  Errors that the code
    reports are status values or the left of a sum.  Hash tables are [gmap]s, and where the
    code walks one, the order is an argument; [std::priority_queue] is any function with its
    documented law; the JSON library is a set of parameters.  Doubles are binary64.

    A descriptor queue is a state with a list of DMA operations in flight; a run is a list of
    events (a post by the driver, the completion of any operation in flight, a packet), so the
    theorems cover every order of completions.  Its faults tell an assertion or an index of the
    engine ([Engine]) from what a derived class does with descriptors it does not support
    ([Derived]).

    The programs on rings (the learning switch, the memories) are machines that take one step
    between accesses to a ring, and that stay in place where the code spins; a run interleaves
    their steps with those of the peers at the other ends, so the theorems cover every
    interleaving.  [typed.linked] ties an interface to the channel invariant of BaseChannel.v,
    and the specifications of TypedIf.v are what these programs are proved against.

    System calls are inputs: a function that makes some takes their results, and a run of
    connection set-up is a list of passes with them.  An adapter to a bus has its outputs as driven
    and as computed for the next cycle; a run is a list of cycles with what the other side drives,
    and of calls and completions between them, so the theorems cover every delay.

    Loops over a container are structural.  The loops of [ProcessEvents] and [PollPorts] take
    the length of the queue they empty as fuel, and [process_loop_spec] and [drain_fuel] show
    that it is enough; the transmit loop takes a fuel that [tx_loop_terminates] shows to
    suffice for descriptors that are not empty.  Main loops are functions of the list of what each pass reads, so a
    theorem for every list covers every finite run; that they return is part of each theorem.

    ** What is shown

    - Locks: acquire, release and timeouts refine a FIFO queue per key ([acquire_refines],
      [release_refines], [check_timeouts_spec]); mutual exclusion as clients observe it
      as long as no client has the identifier 255 ([mutual_exclusion]); service in order
      ([fifo_service]); table bounds.
    - Barriers: bitmap and counter refine a set of arrivals, for senders below 64
      ([arrive_refines]); a round is
      released by the last participant ([barrier_round]); the table invariant.
    - Paxos: no undefined behaviour ([handle_message_safe]); the acceptor rules; over a
      lossy network what is committed was proposed, or is the empty value of an election
      ([network_validity]); and an execution in which agreement fails.
    - Rings: a FIFO under every interleaving ([channel_fifo]); soundness of the lookahead
      ([lookahead_sound]); progress of synchronization.
    - Connections: the two ends agree on rings and synchronization, and if they are compatible the
      connection opens ([handshake_agreement]); set-up never aborts and its pool is large enough
      ([establish_never_aborts], [pool_suffices]); URLs survive printing and parsing, and the
      parser agrees with a reference on every string ([url_roundtrip]).
    - AXI: streams deliver packets ([axis_delivers]); read and write bursts are answered as AXI
      prescribes ([axi_read_correct], [axi_write_correct]); the AXI-Lite manager refines
      operations executed at once ([axil_refines]).
    - Proxies: between up to 32 pairs of simulators on two machines they are transparent
      ([proxy_transparent]) and do not stall if rings are long enough ([proxy_never_stalls]);
      their set-up introduces the simulators to each other and makes matching rings, which do
      not overlap ([proxy_setup_correct]); messages are handled whole and in order ([sock_delivers]).
    - Runner: DMA in order and at most 64 outstanding ([dma_fifo]); events on time.
    - DPU: cores and memory against abstract allocators; the whole device under the runner, on
      well-formed input ([dpu_runs]); the fate of a packet ([packet_fate]); response frames; configuration.
    - Switch: every well-formed packet handled ([engine_total]); answers reach their addressees
      and nobody else ([switch_delivers]); transparency of forwarding; exact latency, no loss, flooding
      ([switch_on_time], [switch_no_loss], [flood_once]); and the failure of mutual exclusion
      across tiers ([two_tier_lock_not_exclusive]).
    - i40e: under every order of completions the engine keeps its assertions, processes the
      ring in order and, with a ring length that is a power of two, does not stall
      ([ring_in_order], [ring_never_stalls]); received packets are written to the buffers of the
      driver complete and in order ([rx_delivers_in_order]); packets and TCP segments
      are sent as posted, with valid headers and checksums ([tx_packet_sent], [tso_unit_sent]); the loop ends
      ([tx_loop_terminates]); the cached hash is the Toeplitz hash ([rss_hash_toeplitz]); the
      lazy clock is the clock of the hardware while no adjustment is active
      ([phc_refines_hardware]); checksums
      ([l4_checksum_valid]); segment descriptors ([sd_register_file]); every admin command is
      answered as specified and completes ([admin_answers], [admin_completes_all]).  On the whole
      device registers are memory ([registers_are_memory]) and received packets reach the driver
      whatever else happens short of a reset ([device_rx_delivers]).
    - Learning switch: it refines an ideal one as long as each port has one address
      ([learning_switch_refines]).
    - Memory: over its rings basicmem is an array of bytes that executes requests within it in order
      ([basicmem_refines]), and memory over the network, through the memory switch and back, is
      that memory at the translated address ([remote_memory_refines]); the interconnect answers every request once and refines one
      without pointers ([interconnect_refines]).
    Theorems without a claim number exhibit single defects: reads past a short packet or a
    truncated message, untracked barrier senders, the lock client 255, cancelled events, a
    dropped LEARN, clock adjustments, ring lengths, a reset with DMA in flight, an empty EOP
    descriptor, addresses forgotten by the learning switch, a memory access out of bounds,
    reordered and stalled memory requests, negative latencies, narrow streams, unaligned bursts,
    proxies with short rings or short messages.

    ** What is not modelled

    The system calls on sockets and shared-memory files; logging, statistics and telemetry
    files; command lines and signals; weak memory beyond the ownership byte of a ring entry.  Not
    modelled by choice: the memory terminal; the wire and the packet
    generator; the coroutines of the multi-NIC runner; the e1000 model, which is adapted
    gem5 code; the RDMA variant of the proxies.  Vendored, generated and Python code is outside the
    library. *)

From stdpp Require Export prelude gmap list numbers sorting.
From Stdlib Require Export Lia.

#[global] Open Scope Z_scope.

(** Exceptions as the left of a sum. *)
#[export] Instance sum_bind E : MBind (sum E) :=
  λ A B f m, match m with inl e => inl e | inr a => f a end.

(** ** Machine integers *)

Declare Scope width_scope.
Delimit Scope width_scope with width.
#[global] Open Scope width_scope.

(** [wrap w x] is the value an unsigned [w]-bit integer holds after [x] is stored into it. *)
Definition wrap (w x : Z) : Z := x mod 2 ^ w.

Abbreviation u8 := (wrap 8).
Abbreviation u16 := (wrap 16).
Abbreviation u32 := (wrap 32).
Abbreviation u64 := (wrap 64).

(** [fits w x]: [x] is a value of an unsigned [w]-bit integer. *)
Definition fits (w x : Z) : Prop := 0 ≤ x < 2 ^ w.

#[export] Instance fits_dec w x : Decision (fits w x).
Proof. unfold fits. apply _. Defined.

Notation "x ∈u w" := (fits w x) (at level 70) : width_scope.

Lemma wrap_fits w x : 0 ≤ w → wrap w x ∈u w.
Proof. intros. apply Z.mod_pos_bound. lia. Qed.

Lemma wrap_id w x : x ∈u w → wrap w x = x.
Proof. intros. by apply Z.mod_small. Qed.

Lemma wrap_wrap w x : wrap w (wrap w x) = wrap w x.
Proof. unfold wrap. by rewrite Zmod_mod. Qed.

Lemma fits_mono w v x : 0 ≤ w ≤ v → x ∈u w → x ∈u v.
Proof.
  unfold fits. intros [? ?] [? ?]. split; [done|].
  pose proof (Z.pow_le_mono_r 2 w v). lia.
Qed.

(** From an address that is a multiple of [step] there are [step] bytes up to the next boundary. *)
Lemma align_room (D : nat) a step :
  (0 < D)%nat → 0 < step → 0 ≤ a → a mod step = 0 → Z.of_nat D mod step = 0 →
  step ≤ Z.of_nat D - a mod Z.of_nat D.
Proof.
  intros HD Hs Ha Hm Hd. pose proof (Z.mod_pos_bound a (Z.of_nat D) ltac:(lia)).
  assert ((a mod Z.of_nat D) mod step = 0) as H0.
  { rewrite Z.mod_mod_divide; [done|]. by apply Z.mod_divide; [lia|]. }
  apply Z.mod_divide in H0 as [q Hq]; [|lia]. apply Z.mod_divide in Hd as [d Hd]; [|lia].
  assert (q < d) by nia. nia.
Qed.

(** Bits of machine integers. *)
Lemma fits_bits w x :
  0 ≤ w → x ∈u w ↔ 0 ≤ x ∧ ∀ m, w ≤ m → Z.testbit x m = false.
Proof.
  intros Hw. split.
  - intros [Hx Hb]. split; [done|]. by apply Z.bounded_iff_bits_nonneg.
  - intros [Hx Hb]. split; [done|]. by apply Z.bounded_iff_bits_nonneg.
Qed.

Lemma wrap_bits w x m : 0 ≤ m < w → Z.testbit (wrap w x) m = Z.testbit x m.
Proof. intros. apply Z.mod_pow2_bits_low. lia. Qed.

Lemma lxor_fits w x y : 0 ≤ w → x ∈u w → y ∈u w → Z.lxor x y ∈u w.
Proof.
  intros Hw. rewrite !fits_bits by done. intros [? Hx] [? Hy].
  split; [apply Z.lxor_nonneg; lia|]. intros. by rewrite Z.lxor_spec, Hx, Hy.
Qed.

Lemma lor_fits w x y : 0 ≤ w → x ∈u w → y ∈u w → Z.lor x y ∈u w.
Proof.
  intros Hw. rewrite !fits_bits by done. intros [? Hx] [? Hy].
  split; [apply Z.lor_nonneg; lia|]. intros. by rewrite Z.lor_spec, Hx, Hy.
Qed.

(** [(x & MASK) >> SHIFT] for a mask of [n] ones at [s], and the insertion of such a field. *)
Lemma extract_field x n s :
  0 ≤ n → 0 ≤ s → Z.shiftr (Z.land x (Z.shiftl (Z.ones n) s)) s = (x / 2 ^ s) mod 2 ^ n.
Proof.
  intros. rewrite Z.shiftr_land, Z.shiftr_shiftl_l, Z.sub_diag by lia.
  by rewrite Z.shiftl_0_r, Z.land_ones, Z.shiftr_div_pow2.
Qed.

Lemma insert_field x n s :
  0 ≤ n → 0 ≤ s → Z.land (Z.shiftl x s) (Z.shiftl (Z.ones n) s) = (x mod 2 ^ n) * 2 ^ s.
Proof. intros. by rewrite <- Z.shiftl_land, Z.land_ones, Z.shiftl_mul_pow2. Qed.

(** Disjoint fields: the disjunction is the sum. *)
Lemma lor_disjoint a b s : 0 ≤ s → 0 ≤ b < 2 ^ s → Z.lor (a * 2 ^ s) b = a * 2 ^ s + b.
Proof.
  intros Hs Hb. rewrite Z.add_nocarry_lxor, <- Z.lxor_lor; [done|..];
    rewrite <- Z.shiftl_mul_pow2 by done; apply Z.bits_inj'; intros i Hi;
    rewrite Z.land_spec, Z.bits_0, Z.shiftl_spec by done;
    (destruct (decide (i < s)); [by rewrite Z.testbit_neg_r by lia|]);
    (assert (Z.testbit b i = false) as -> by
       (apply (Z.bounded_iff_bits_nonneg s b); lia)); apply andb_false_r.
Qed.

Create HintDb width discriminated.
#[export] Hint Resolve wrap_fits : width.

(** Closes goals about concrete widths: [2 ^ 8], [2 ^ 16], ... become numerals. *)
Ltac widths :=
  unfold fits, wrap in *;
  repeat match goal with
  | |- context [2 ^ ?w] => let v := eval vm_compute in (2 ^ w) in
                           progress change (2 ^ w) with v
  | H : context [2 ^ ?w] |- _ => let v := eval vm_compute in (2 ^ w) in
                           progress change (2 ^ w) with v in H
  end;
  try (Z.div_mod_to_equations; lia).

(** ** Bytes *)

Abbreviation byte := Z (only parsing).
Abbreviation bytes := (list Z) (only parsing).

Definition is_bytes (l : bytes) : Prop := Forall (fits 8) l.

(** The [n]-byte little-endian image of an integer: how x86 lays out a packed
    struct field of [n] bytes. *)
Fixpoint le (n : nat) (x : Z) : bytes :=
  match n with
  | O => []
  | S n => x mod 256 :: le n (x / 256)
  end.

(** The integer a little-endian byte string denotes. *)
Definition le_val (l : bytes) : Z := foldr (λ b acc, b + 256 * acc) 0 l.

Lemma length_le n x : length (le n x) = n.
Proof. revert x. induction n; intros; cbn; auto. Qed.

Lemma le_val_le n x : le_val (le n x) = x mod 256 ^ Z.of_nat n.
Proof.
  revert x. induction n as [|n IH]; intros x; [by rewrite Z.mod_1_r|].
  change (le_val (le (S n) x)) with (x mod 256 + 256 * le_val (le n (x / 256))).
  rewrite IH, Nat2Z.inj_succ, Z.pow_succ_r by lia.
  rewrite Z.rem_mul_r by lia. lia.
Qed.

Lemma le_val_le_fits n w x :
  w = 8 * Z.of_nat n → x ∈u w → le_val (le n x) = x.
Proof.
  intros -> Hx. rewrite le_val_le. apply Z.mod_small.
  unfold fits in Hx. rewrite Z.pow_mul_r in Hx by lia. exact Hx.
Qed.

Lemma le_is_bytes n x : is_bytes (le n x).
Proof.
  revert x. induction n; intros; cbn; constructor; [|apply IHn].
  pose proof (Z.mod_pos_bound x 256). unfold fits. lia.
Qed.

Lemma le_le_val l : is_bytes l → le (length l) (le_val l) = l.
Proof.
  induction 1 as [|b l [Hb1 Hb2] _ IH]; [done|]. change (2 ^ 8) with 256 in Hb2.
  change (le_val (b :: l)) with (b + 256 * le_val l). cbn [le length].
  f_equal.
  - rewrite (Z.mul_comm 256), Z_mod_plus_full. by apply Z.mod_small.
  - rewrite (Z.mul_comm 256), Z.div_add, Z.div_small by lia. by rewrite Z.add_0_l.
Qed.

Lemma le_2 x : x ∈u 16 → le 2 x = [x mod 256; x / 256].
Proof.
  intros Hx. cbn [le]. unfold fits in Hx. change (2 ^ 16) with 65536 in Hx.
  f_equal. f_equal. apply Z.mod_small. split; [apply Z.div_pos; lia|].
  apply Z.div_lt_upper_bound; lia.
Qed.

Lemma le_1 x : x ∈u 8 → le 1 x = [x].
Proof. intros Hx. cbn [le]. f_equal. by apply Z.mod_small. Qed.

#[global] Opaque le.

Lemma le_val_bound l : is_bytes l → le_val l ∈u (8 * Z.of_nat (length l)).
Proof.
  unfold fits. rewrite Z.pow_mul_r by lia. change (2 ^ 8) with 256.
  induction 1 as [|b l [Hb1 Hb2] _ IH]; [simpl; lia|].
  change (le_val (b :: l)) with (b + 256 * le_val l).
  change (length (b :: l)) with (S (length l)).
  rewrite Nat2Z.inj_succ, Z.pow_succ_r by lia. change (2 ^ 8) with 256 in Hb2. lia.
Qed.

(** Decides [is_bytes] on a concrete buffer. *)
Definition is_bytesb (l : bytes) : bool := forallb (λ b, (0 <=? b) && (b <? 256)) l.

Lemma is_bytesb_sound l : is_bytesb l = true → is_bytes l.
Proof.
  unfold is_bytesb. rewrite forallb_forall. intros H. apply Forall_forall. intros b Hb.
  specialize (H b ltac:(by apply list_elem_of_In)). unfold fits. change (2 ^ 8) with 256. lia.
Qed.

Lemma is_bytes_app l k : is_bytes (l ++ k) ↔ is_bytes l ∧ is_bytes k.
Proof. apply Forall_app. Qed.

Lemma is_bytes_take n l : is_bytes l → is_bytes (take n l).
Proof. apply Forall_take. Qed.

Lemma is_bytes_drop n l : is_bytes l → is_bytes (drop n l).
Proof. apply Forall_drop. Qed.

Lemma is_bytes_zeros n : is_bytes (replicate n 0).
Proof. apply Forall_replicate. unfold fits. lia. Qed.

Create HintDb hcop discriminated.
#[export] Hint Resolve le_is_bytes is_bytes_take is_bytes_drop is_bytes_zeros : hcop.

(** ** Reading packed structs

    [field d off n] is the [n]-byte unsigned field at offset [off]. *)
Definition slice (d : bytes) (off n : nat) : bytes := take n (drop off d).
Definition field (d : bytes) (off n : nat) : Z := le_val (slice d off n).

Lemma slice_app_r l k off n :
  (length l ≤ off)%nat → slice (l ++ k) off n = slice k (off - length l) n.
Proof. intros. unfold slice. by rewrite drop_app_ge. Qed.

Lemma slice_app_l l k n :
  length l = n → slice (l ++ k) 0 n = l.
Proof. intros <-. unfold slice. by rewrite drop_0, take_app_length. Qed.

Lemma slice_all l n : length l = n → slice l 0 n = l.
Proof. intros <-. unfold slice. by rewrite drop_0, firstn_all. Qed.

Lemma length_slice d off n :
  (off + n ≤ length d)%nat → length (slice d off n) = n.
Proof. intros. unfold slice. rewrite length_take, length_drop. lia. Qed.

Lemma slice_is_bytes d off n : is_bytes d → is_bytes (slice d off n).
Proof. intros. unfold slice. auto with hcop. Qed.

Lemma field_fits d off n w :
  w = 8 * Z.of_nat n → is_bytes d → field d off n ∈u w.
Proof.
  intros -> Hd. apply (fits_mono (8 * Z.of_nat (length (slice d off n)))).
  - unfold slice. rewrite length_take, length_drop. lia.
  - by apply le_val_bound, slice_is_bytes.
Qed.

(** [l] stored at [off]. *)
Definition patch (d : bytes) (off : nat) (l : bytes) : bytes :=
  take off d ++ l ++ drop (off + length l) d.

Lemma length_patch d off l : (off + length l ≤ length d)%nat → length (patch d off l) = length d.
Proof. intros. unfold patch. rewrite !length_app, length_take, length_drop. lia. Qed.

Lemma slice_patch_before d off l o n :
  (o + n ≤ off)%nat → (off + length l ≤ length d)%nat → slice (patch d off l) o n = slice d o n.
Proof.
  intros. unfold slice, patch. rewrite drop_app_le by (rewrite length_take; lia).
  rewrite take_app_le by (rewrite length_drop, length_take; lia).
  rewrite <- (take_drop off d) at 2. rewrite drop_app_le by (rewrite length_take; lia).
  by rewrite take_app_le by (rewrite length_drop, length_take; lia).
Qed.

Lemma slice_patch_after d off l o n :
  (off + length l ≤ o)%nat → (off + length l ≤ length d)%nat →
  slice (patch d off l) o n = slice d o n.
Proof.
  intros. unfold slice, patch.
  rewrite app_assoc, drop_app_ge by (rewrite length_app, length_take; lia).
  rewrite length_app, length_take, drop_drop. do 2 f_equal. lia.
Qed.

Lemma slice_patch_same d off l n :
  n = length l → (off + length l ≤ length d)%nat → slice (patch d off l) off n = l.
Proof.
  intros -> ?. unfold slice, patch. rewrite drop_app_ge by (rewrite length_take; lia).
  rewrite length_take, Nat.min_l, Nat.sub_diag by lia. by rewrite drop_0, take_app_length.
Qed.

(** [memcpy dst src n] copies [n] bytes; [None] is undefined behaviour (a read past
    the end of [src] or a write past the end of [dst]). *)
Definition memcpy (dst src : bytes) (n : Z) : option bytes :=
  if decide (n ≤ Z.of_nat (length src) ∧ n ≤ Z.of_nat (length dst))
  then Some (take (Z.to_nat n) src ++ drop (Z.to_nat n) dst)
  else None.

Lemma memcpy_Some dst src n r :
  memcpy dst src n = Some r →
  n ≤ Z.of_nat (length src) ∧ n ≤ Z.of_nat (length dst) ∧
  r = take (Z.to_nat n) src ++ drop (Z.to_nat n) dst.
Proof. unfold memcpy. case_decide; naive_solver. Qed.

Lemma memcpy_ok dst src n :
  n ≤ Z.of_nat (length src) → n ≤ Z.of_nat (length dst) →
  memcpy dst src n = Some (take (Z.to_nat n) src ++ drop (Z.to_nat n) dst).
Proof. intros. unfold memcpy. by rewrite decide_True. Qed.

Lemma memcpy_length dst src n r : memcpy dst src n = Some r → length r = length dst.
Proof.
  intros (? & ? & ->)%memcpy_Some.
  rewrite length_app, length_take, length_drop. lia.
Qed.

(** What is copied is what is read back. *)
Lemma memcpy_take dst src n r :
  memcpy dst src n = Some r → take (Z.to_nat n) r = take (Z.to_nat n) src.
Proof.
  intros (? & ? & ->)%memcpy_Some.
  rewrite take_app_le by (rewrite length_take; lia).
  by rewrite take_take, Nat.min_id.
Qed.

Lemma memcpy_is_bytes dst src n r :
  memcpy dst src n = Some r → is_bytes dst → is_bytes src → is_bytes r.
Proof.
  intros (_ & _ & ->)%memcpy_Some ??. apply is_bytes_app; split; auto with hcop.
Qed.

(** ** Bit sets held in a 64-bit word *)

(** The positions of the bits set in a 64-bit word. *)
Definition bits64 (x : Z) : gset Z :=
  list_to_set (filter (λ i, Z.testbit x i = true) (seqZ 0 64)).

Lemma elem_of_bits64 x i : i ∈ bits64 x ↔ 0 ≤ i < 64 ∧ Z.testbit x i = true.
Proof.
  unfold bits64. rewrite elem_of_list_to_set, list_elem_of_filter, elem_of_seqZ.
  naive_solver lia.
Qed.

#[global] Opaque bits64.

Lemma bits64_0 : bits64 0 = ∅.
Proof. apply set_eq. intros i. rewrite elem_of_bits64, Z.bits_0. set_solver. Qed.

(** [1ULL << i] *)
Lemma testbit_bit i j : 0 ≤ i → Z.testbit (Z.shiftl 1 i) j = (i =? j).
Proof. intros. by rewrite Z.shiftl_1_l, Z.pow2_bits_eqb. Qed.

(** [x |= 1ULL << i] *)
Lemma bits64_set x i :
  0 ≤ i < 64 → bits64 (Z.lor x (Z.shiftl 1 i)) = {[i]} ∪ bits64 x.
Proof.
  intros Hi. apply set_eq. intros j.
  rewrite elem_of_union, elem_of_singleton, !elem_of_bits64, Z.lor_spec, testbit_bit by lia.
  rewrite orb_true_iff, Z.eqb_eq. intuition (subst; lia).
Qed.

(** [x &= ~(1ULL << i)] *)
Lemma bits64_clear x i :
  0 ≤ i → bits64 (Z.ldiff x (Z.shiftl 1 i)) = bits64 x ∖ {[i]}.
Proof.
  intros Hi. apply set_eq. intros j.
  rewrite elem_of_difference, elem_of_singleton, !elem_of_bits64, Z.ldiff_spec, testbit_bit by lia.
  rewrite andb_true_iff, negb_true_iff, Z.eqb_neq. intuition congruence.
Qed.

(** [x & (1ULL << i)] as a condition *)
Lemma land_bit_testbit x i :
  0 ≤ i → (Z.land x (Z.shiftl 1 i) =? 0) = negb (Z.testbit x i).
Proof.
  intros Hi. destruct (Z.testbit x i) eqn:E; simpl.
  - apply Z.eqb_neq. intros H0. apply (f_equal (λ z, Z.testbit z i)) in H0.
    rewrite Z.land_spec, testbit_bit, E, Z.eqb_refl, Z.bits_0 in H0 by done. done.
  - apply Z.eqb_eq, Z.bits_inj'. intros j Hj.
    rewrite Z.land_spec, testbit_bit, Z.bits_0 by done.
    destruct (Z.eqb_spec i j) as [->|]; [by rewrite E|apply andb_false_r].
Qed.

Lemma bits64_size_le x : Z.of_nat (size (bits64 x)) ≤ 64.
Proof.
  assert (bits64 x ⊆ list_to_set (seqZ 0 64)) as Hsub.
  { intros i. rewrite elem_of_bits64, elem_of_list_to_set, elem_of_seqZ. lia. }
  apply subseteq_size in Hsub.
  replace (size (list_to_set (seqZ 0 64) : gset Z)) with 64%nat in Hsub by (vm_compute; done).
  lia.
Qed.

(** ** Packed struct images

    A struct image is a concatenation of [le n x]; [struct_fields] evaluates the
    [field]s of such an image. *)

Lemma field_skip m y k off n :
  (m ≤ off)%nat → field (le m y ++ k) off n = field k (off - m) n.
Proof.
  intros. unfold field. rewrite slice_app_r by (rewrite length_le; done).
  by rewrite length_le.
Qed.

Lemma field_here n x k :
  x ∈u 8 * Z.of_nat n → field (le n x ++ k) 0 n = x.
Proof.
  intros ?. unfold field. rewrite slice_app_l by apply length_le.
  by eapply le_val_le_fits.
Qed.

Lemma field_last n x : x ∈u 8 * Z.of_nat n → field (le n x) 0 n = x.
Proof. intros. rewrite <-(app_nil_r (le n x)). by apply field_here. Qed.

Lemma slice_skip m y k off n :
  (m ≤ off)%nat → slice (le m y ++ k) off n = slice k (off - m) n.
Proof. intros. rewrite slice_app_r by (rewrite length_le; done). by rewrite length_le. Qed.

Lemma drop_skip m y k off :
  (m ≤ off)%nat → drop off (le m y ++ k) = drop (off - m) k.
Proof. intros. rewrite drop_app_ge by (rewrite length_le; done). by rewrite length_le. Qed.

Ltac struct_fits := first [assumption | cbv; done | split; lia | widths; lia].

Ltac struct_fields :=
  repeat rewrite <- app_assoc;
  repeat (rewrite field_skip by lia; cbn [Nat.sub]);
  try (rewrite field_here by struct_fits);
  try (rewrite field_last by struct_fits).
