(* ===== verification/HcopProto.v ===== *)
(** * HCOP packet header and tier paths (lib/hcop/hcop_proto.h, hcop_telemetry.h)

    The header every HCOP packet carries after the Ethernet header, the enumerations
    the tiers share, the path-recording macro, and the decoder the telemetry uses to
    print the path. *)

From stdpp Require Import strings.
From S2P Require Import Prelude.

Module hcop.

(** ** Enumerations *)

Definition kPrimitivePaxos : Z := 1.
Definition kPrimitiveLock : Z := 2.
Definition kPrimitiveBarrier : Z := 3.

Definition kPaxosNoException : Z := 0.
Definition kPaxosLeaderElection : Z := 1.
Definition kPaxosStateOverflow : Z := 2.
Definition kPaxosConflict : Z := 3.

Definition kLockNoException : Z := 0.
Definition kLockContention : Z := 1.
Definition kLockStateOverflow : Z := 2.
Definition kLockTimeoutCheck : Z := 3.

Definition kBarrierNoException : Z := 0.
Definition kBarrierGenerationOverflow : Z := 1.
Definition kBarrierLateArrival : Z := 2.

Definition kDpuCoreExhausted : Z := 256.

Definition kTierSwitch : Z := 0.
Definition kTierDpu : Z := 1.
Definition kTierHost : Z := 2.

Definition kHcopEtherType : Z := 0x88B5.

(** ** The header *)

Record HcopHeader := MkHcop {
  primitive_type : Z;      (* uint16_t *)
  exception_type : Z;      (* uint16_t *)
  operation_id : Z;        (* uint32_t *)
  source_tier : Z;         (* uint8_t *)
  num_tier_crossings : Z;  (* uint8_t *)
  tier_path : Z;           (* uint32_t *)
  payload_len : Z;         (* uint16_t *)
}.

Definition sizeof_HcopHeader : nat := 16.
Definition kMinHcopFrameLen : nat := 14 + sizeof_HcopHeader.

Definition encode (h : HcopHeader) : bytes :=
  le 2 (primitive_type h) ++ le 2 (exception_type h) ++ le 4 (operation_id h) ++
  le 1 (source_tier h) ++ le 1 (num_tier_crossings h) ++ le 4 (tier_path h) ++
  le 2 (payload_len h).

(** [reinterpret_cast<const HcopHeader *>(p)] *)
Definition decode (d : bytes) : HcopHeader :=
  MkHcop (field d 0 2) (field d 2 2) (field d 4 4) (field d 8 1) (field d 9 1)
         (field d 10 4) (field d 14 2).

Definition wf_header (h : HcopHeader) : Prop :=
  primitive_type h ∈u 16 ∧ exception_type h ∈u 16 ∧ operation_id h ∈u 32 ∧
  source_tier h ∈u 8 ∧ num_tier_crossings h ∈u 8 ∧ tier_path h ∈u 32 ∧ payload_len h ∈u 16.

(** [HCOP_APPEND_PATH(hdr, tier)] *)
Definition HCOP_APPEND_PATH (h : HcopHeader) (tier : Z) : HcopHeader :=
  MkHcop (primitive_type h) (exception_type h) (operation_id h) (source_tier h)
         (u8 (num_tier_crossings h + 1))
         (u32 (Z.lor (Z.shiftl (tier_path h) 4) (Z.land tier 15)))
         (payload_len h).

Definition set_exception (h : HcopHeader) (e : Z) : HcopHeader :=
  MkHcop (primitive_type h) e (operation_id h) (source_tier h)
         (num_tier_crossings h) (tier_path h) (payload_len h).

Definition set_payload_len (h : HcopHeader) (n : Z) : HcopHeader :=
  MkHcop (primitive_type h) (exception_type h) (operation_id h) (source_tier h)
         (num_tier_crossings h) (tier_path h) (u16 n).

(** The EtherType of a frame, and a write of the HCOP header through a pointer to offset 14. *)
Definition ethertype (frame : bytes) : Z :=
  Z.lor (Z.shiftl (field frame 12 1) 8) (field frame 13 1).
Definition put_header (frame : bytes) (h : HcopHeader) : bytes :=
  take 14 frame ++ encode h ++ drop 30 frame.

(** ** Telemetry: [DecodeTierPath] *)

Definition tier_letter (nibble : Z) : string :=
  if nibble =? 0 then "S" else if nibble =? 1 then "D" else if nibble =? 2 then "H" else "?".

(** The loop [for (int i = crossings - 1; i >= 0; --i)]; [k] is [i + 1].  Shifting
    the 32-bit [path] by 32 bits or more is undefined: [None]. *)
Fixpoint decode_loop (path : Z) (k : nat) : option string :=
  match k with
  | O => Some ""
  | S i =>
      if (32 <=? 4 * i)%nat then None
      else
        let nibble := Z.land (Z.shiftr path (4 * Z.of_nat i)) 15 in
        rest ← decode_loop path i;
        Some (String.append (tier_letter nibble)
               (String.append (if (0 <? i)%nat then "->" else "") rest))
  end.

Definition DecodeTierPath (path crossings : Z) : option string :=
  if crossings =? 0 then Some "Unknown" else decode_loop path (Z.to_nat crossings).

(** ** The header round trip *)

Lemma length_encode h : length (encode h) = sizeof_HcopHeader.
Proof. unfold encode. by rewrite !length_app, !length_le. Qed.

Lemma encode_is_bytes h : is_bytes (encode h).
Proof. unfold encode. rewrite !is_bytes_app. auto 10 with hcop. Qed.

Lemma decode_encode h rest : wf_header h → decode (encode h ++ rest) = h.
Proof.
  intros (?&?&?&?&?&?&?). unfold decode, encode. destruct h; simpl in *.
  f_equal; struct_fields; done.
Qed.

Lemma decode_wf d : is_bytes d → wf_header (decode d).
Proof. intros. split_and!; simpl; by eapply field_fits. Qed.

Lemma append_path_wf h tier : wf_header h → wf_header (HCOP_APPEND_PATH h tier).
Proof.
  intros (?&?&?&?&?&?&?). split_and!; simpl; auto; apply wrap_fits; lia.
Qed.

Lemma set_exception_wf h e : e ∈u 16 → wf_header h → wf_header (set_exception h e).
Proof. intros He (?&?&?&?&?&?&?). split_and!; done. Qed.

#[export] Hint Resolve length_encode encode_is_bytes decode_wf append_path_wf : hcop.

Lemma length_put_header f h : (30 ≤ length f)%nat → length (put_header f h) = length f.
Proof.
  intros. unfold put_header.
  rewrite !length_app, length_encode, length_take, length_drop. unfold sizeof_HcopHeader. lia.
Qed.

Lemma put_header_bytes f h : is_bytes f → is_bytes (put_header f h).
Proof.
  intros. unfold put_header. rewrite !is_bytes_app.
  split_and!; auto using is_bytes_take, is_bytes_drop, encode_is_bytes.
Qed.

Lemma drop_put_header f h : (30 ≤ length f)%nat → drop 30 (put_header f h) = drop 30 f.
Proof.
  intros. unfold put_header. rewrite app_assoc, drop_app_ge;
    rewrite length_app, length_encode, length_take; unfold sizeof_HcopHeader; [|lia].
  replace (30 - (14 `min` length f + 16))%nat with 0%nat by lia. by rewrite drop_0.
Qed.

Lemma decode_put_header f h :
  (30 ≤ length f)%nat → wf_header h → decode (drop 14 (put_header f h)) = h.
Proof.
  intros. unfold put_header. rewrite drop_app_ge; rewrite length_take; [|lia].
  rewrite Nat.min_l, Nat.sub_diag, drop_0 by lia. by apply decode_encode.
Qed.

Lemma take_put_header f h : (30 ≤ length f)%nat → take 14 (put_header f h) = take 14 f.
Proof.
  intros. unfold put_header. rewrite take_app_le by (rewrite length_take; lia).
  by rewrite take_take, Nat.min_id.
Qed.

(** ** The path a packet records is the path that is printed *)

(** The text of a path: the letters of the tiers, in order, with arrows between. *)
Fixpoint render (ts : list Z) : string :=
  match ts with
  | [] => ""
  | [t] => tier_letter t
  | t :: ts => String.append (tier_letter t) (String.append "->" (render ts))
  end.

(** The number whose base-16 digits are the tiers visited. *)
Definition path_val (p : Z) (ts : list Z) : Z := foldl (λ acc t, 16 * acc + t) p ts.

Definition is_nibble (t : Z) : Prop := 0 ≤ t < 16.

Lemma append_digit p t : is_nibble t → Z.lor (Z.shiftl p 4) (Z.land t 15) = 16 * p + t.
Proof.
  intros Ht. unfold is_nibble in Ht. change 15 with (Z.ones 4).
  rewrite Z.land_ones, Z.mod_small by lia.
  assert (Z.land (Z.shiftl p 4) t = 0) as Hland.
  { apply Z.bits_inj'. intros j Hj. rewrite Z.land_spec, Z.bits_0.
    destruct (decide (j < 4)); [by rewrite Z.shiftl_spec_low by lia|].
    rewrite <- (Z.mod_small t (2 ^ 4)), Z.mod_pow2_bits_high by lia. apply andb_false_r. }
  rewrite <- Z.lxor_lor, <- Z.add_nocarry_lxor, Z.shiftl_mul_pow2 by (done || lia). lia.
Qed.

Lemma path_val_cons p t ts : path_val p (t :: ts) = path_val (16 * p + t) ts.
Proof. done. Qed.

Lemma path_val_split p ts :
  path_val p ts = p * 16 ^ Z.of_nat (length ts) + path_val 0 ts.
Proof.
  revert p. induction ts as [|t ts IH]; intros p; [simpl; lia|].
  rewrite !path_val_cons, IH, (IH (16 * 0 + t)). simpl length.
  rewrite Nat2Z.inj_succ, Z.pow_succ_r by lia. lia.
Qed.

Lemma path_val_bound ts :
  Forall is_nibble ts → 0 ≤ path_val 0 ts < 16 ^ Z.of_nat (length ts).
Proof.
  induction 1 as [|t ts Ht _ IH]; [simpl; lia|].
  rewrite path_val_cons, path_val_split. simpl length.
  rewrite Nat2Z.inj_succ, Z.pow_succ_r by lia. unfold is_nibble in Ht. nia.
Qed.

Definition appended (h : HcopHeader) (ts : list Z) : HcopHeader :=
  foldl HCOP_APPEND_PATH h ts.

Lemma appended_path h ts :
  Forall is_nibble ts → path_val (tier_path h) ts ∈u 32 → 0 ≤ tier_path h →
  tier_path (appended h ts) = path_val (tier_path h) ts.
Proof.
  intros Hts. revert h. induction Hts as [|t ts Ht Hts IH]; intros h Hfit Hp; [done|].
  rewrite path_val_cons in *. simpl appended. unfold appended in *. simpl foldl.
  assert (16 * tier_path h + t ≤ path_val (16 * tier_path h + t) ts) as Hle.
  { rewrite path_val_split. pose proof (path_val_bound ts Hts). unfold is_nibble in Ht. nia. }
  assert (tier_path (HCOP_APPEND_PATH h t) = 16 * tier_path h + t) as Heq.
  { simpl. rewrite append_digit by done. apply wrap_id. unfold fits, is_nibble in *. lia. }
  rewrite IH; rewrite Heq; auto. unfold is_nibble in Ht. lia.
Qed.

Lemma appended_crossings h ts :
  num_tier_crossings h + Z.of_nat (length ts) < 256 → 0 ≤ num_tier_crossings h →
  num_tier_crossings (appended h ts) = num_tier_crossings h + Z.of_nat (length ts).
Proof.
  revert h. induction ts as [|t ts IH]; intros h Hlt Hp; [simpl; lia|].
  unfold appended in *. simpl foldl. simpl length in *.
  assert (num_tier_crossings (HCOP_APPEND_PATH h t) = num_tier_crossings h + 1) as Heq.
  { simpl. apply wrap_id. unfold fits. lia. }
  rewrite IH; rewrite Heq; lia.
Qed.

Lemma nibble_of_path a t p k :
  is_nibble t → 0 ≤ p < 16 ^ k → 0 ≤ k →
  Z.land (Z.shiftr (a * 16 ^ (k + 1) + (t * 16 ^ k + p)) (4 * k)) 15 = t.
Proof.
  intros Ht Hp Hk. change 15 with (Z.ones 4). rewrite Z.land_ones, Z.shiftr_div_pow2 by lia.
  rewrite Z.pow_mul_r by lia. change (2 ^ 4) with 16.
  replace (a * 16 ^ (k + 1) + (t * 16 ^ k + p)) with ((a * 16 + t) * 16 ^ k + p)
    by (rewrite Z.pow_add_r by lia; lia).
  rewrite Z.div_add_l, (Z.div_small p) by lia.
  unfold is_nibble in Ht. Z.div_mod_to_equations. lia.
Qed.

Lemma decode_loop_render a ts :
  (length ts ≤ 8)%nat → Forall is_nibble ts →
  decode_loop (a * 16 ^ Z.of_nat (length ts) + path_val 0 ts) (length ts) = Some (render ts).
Proof.
  intros Hlen Hts. revert a Hlen. induction Hts as [|t ts Ht Hts IH]; intros a Hlen; [done|].
  simpl length in *. cbn [decode_loop].
  destruct (Nat.leb_spec 32 (4 * length ts)) as [?|_]; [lia|].
  rewrite path_val_cons, path_val_split, Nat2Z.inj_succ.
  replace (Z.succ (Z.of_nat (length ts))) with (Z.of_nat (length ts) + 1) by lia.
  replace (16 * 0 + t) with t by lia.
  rewrite nibble_of_path by (auto using path_val_bound || lia).
  replace (a * 16 ^ (Z.of_nat (length ts) + 1) + (t * 16 ^ Z.of_nat (length ts) + path_val 0 ts))
    with ((a * 16 + t) * 16 ^ Z.of_nat (length ts) + path_val 0 ts)
    by (rewrite Z.pow_add_r by lia; lia).
  rewrite IH by lia. destruct ts; [|done]. simpl. f_equal. unfold tier_letter. by repeat case_match.
Qed.

Lemma decode_loop_undefined p k : (8 < k)%nat → decode_loop p k = None.
Proof.
  intros Hk. destruct k as [|k]; [lia|]. cbn [decode_loop].
  destruct (Nat.leb_spec 32 (4 * k)); [done|lia].
Qed.

(** a packet that starts with an empty path and crosses the tiers [ts] (at most
    eight of them, each appended with [HCOP_APPEND_PATH]) is reported by
    [DecodeTierPath] as exactly those tiers in order. *)
Theorem tier_path_roundtrip (h : HcopHeader) (ts : list Z) :
  ts ≠ [] → (length ts ≤ 8)%nat → Forall is_nibble ts →
  tier_path h = 0 → num_tier_crossings h = 0 →
  DecodeTierPath (tier_path (appended h ts)) (num_tier_crossings (appended h ts))
  = Some (render ts).
Proof.
  intros Hne Hlen Hts Hp Hc.
  assert (path_val 0 ts ∈u 32) as Hfit.
  { pose proof (path_val_bound ts Hts) as Hb.
    pose proof (Z.pow_le_mono_r 16 (Z.of_nat (length ts)) 8). unfold fits. lia. }
  rewrite <- Hp in Hfit. rewrite appended_path by (done || lia).
  rewrite appended_crossings by lia. rewrite Hp, Hc, Z.add_0_l. unfold DecodeTierPath.
  destruct (Z.eqb_spec (Z.of_nat (length ts)) 0); [by destruct ts|].
  rewrite Nat2Z.id. by rewrite <- (decode_loop_render 0 ts).
Qed.

Lemma tier_path_roundtrip_witness :
  let h := MkHcop 3 0 7 2 0 0 8 in
  DecodeTierPath (tier_path (appended h [0; 1; 1; 0])) (num_tier_crossings (appended h [0; 1; 1; 0]))
  = Some (render [0; 1; 1; 0]).
Proof.
  apply tier_path_roundtrip; [done|simpl; lia| |done|done].
  repeat constructor; unfold is_nibble; lia.
Defined.

(** Nine or more crossings make [DecodeTierPath] shift a 32-bit path by 32 bits or
    more, which C++ leaves undefined; up to eight crossings it always returns. *)
Theorem decode_tier_path_defined (path crossings : Z) :
  crossings ∈u 8 → is_Some (DecodeTierPath path crossings) ↔ crossings ≤ 8.
Proof.
  intros Hc. unfold fits in Hc. unfold DecodeTierPath. 
  destruct (Z.eqb_spec crossings 0); [split; [lia|done]|].
  destruct (decide (crossings ≤ 8)) as [Hle|Hgt].
  - split; [done|intros _].
    assert (Z.to_nat crossings ≤ 8)%nat as Hn by lia. clear -Hn.
    induction (Z.to_nat crossings) as [|k IH]; [done|]. cbn [decode_loop].
    destruct (Nat.leb_spec 32 (4 * k)); [lia|]. destruct IH as [r ->]; [lia|done].
  - rewrite decode_loop_undefined by lia. split; [by intros [??]|lia].
Qed.

Lemma decode_tier_path_defined_witness :
  is_Some (DecodeTierPath 0x1 9) ↔ 9 ≤ 8.
Proof. apply decode_tier_path_defined. unfold fits. lia. Defined.

End hcop.
