(* ===== verification/BarrierState.v ===== *)
(** * Barrier state machine (lib/hcop/barrier_state.{h,cc}, barrier_proto.h)

    [BarrierManager] keeps one [BarrierState] per barrier id: a generation
    counter, the number of participants, and the arrivals of the current
    generation as a count and a 64-bit bitmap.  The operations below are the
    methods of the C++ class; the abstract barrier at the end of the file is what
    they promise to the switch and the DPU. *)

From S2P Require Import Prelude.
From S2P Require Import HcopProto.

(** ** Wire format: barrier_proto.h *)

Module barrier.

Module proto.

Definition kArrive : Z := 1.
Definition kRelease : Z := 2.

Record BarrierMsgHeader := MkHeader {
  msg_type : Z;      (* uint8_t *)
  sender_id : Z;     (* uint8_t *)
  generation : Z;    (* uint16_t *)
  barrier_id : Z;    (* uint32_t *)
}.

Definition sizeof_BarrierMsgHeader : nat := 8.

(** The packed, little-endian image of the header. *)
Definition encode (h : BarrierMsgHeader) : bytes :=
  le 1 (msg_type h) ++ le 1 (sender_id h) ++ le 2 (generation h) ++ le 4 (barrier_id h).

(** [static_cast<const BarrierMsgHeader *>(data)] *)
Definition decode (d : bytes) : BarrierMsgHeader :=
  MkHeader (field d 0 1) (field d 1 1) (field d 2 2) (field d 4 4).

Definition wf_header (h : BarrierMsgHeader) : Prop :=
  msg_type h ∈u 8 ∧ sender_id h ∈u 8 ∧ generation h ∈u 16 ∧ barrier_id h ∈u 32.

End proto.

(** ** State and results: barrier_state.h *)

Inductive BarrierStatus :=
| kOk | kRelease | kLateArrival | kFutureArrival | kDuplicateArrival
| kLayoutOverflow | kInvalidMessage | kInvalidConfiguration.

#[global] Instance BarrierStatus_eq_dec : EqDecision BarrierStatus.
Proof. solve_decision. Defined.

Record BarrierState := MkBarrier {
  current_generation : Z;  (* uint16_t *)
  num_participants : Z;    (* uint16_t *)
  arrived_count : Z;       (* uint16_t *)
  arrived_bitmap : Z;      (* uint64_t *)
}.

Record OutMessage := MkOut { dest_id : Z; data : bytes }.

Definition kBroadcast : Z := 255.

Record BarrierManager := MkManager {
  max_barriers_ : Z;                     (* uint32_t *)
  default_participants_ : Z;             (* uint16_t *)
  barriers_ : gmap Z BarrierState;
  has_exception_cb_ : bool;              (* is exception_cb_ non-empty? *)
  exceptions : list (Z * Z);             (* calls made to exception_cb_, oldest first *)
}.

Definition set_barriers (m : BarrierManager) (b : gmap Z BarrierState) : BarrierManager :=
  MkManager (max_barriers_ m) (default_participants_ m) b (has_exception_cb_ m) (exceptions m).

(** [if (exception_cb_) exception_cb_(ty, id);] *)
Definition exception_cb (m : BarrierManager) (ty id : Z) : BarrierManager :=
  if has_exception_cb_ m
  then MkManager (max_barriers_ m) (default_participants_ m) (barriers_ m)
                 (has_exception_cb_ m) (exceptions m ++ [(ty, id)])
  else m.

(** ** Operations: barrier_state.cc *)

Definition new_BarrierManager (max_barriers default_participants : Z) : BarrierManager :=
  MkManager max_barriers default_participants ∅ false [].

Definition SetParticipants (m : BarrierManager) (id n : Z) : BarrierStatus * BarrierManager :=
  if bool_decide (n < 2) || bool_decide (64 < n) then (kInvalidConfiguration, m)
  else (kOk, set_barriers m (<[id := MkBarrier 0 n 0 0]> (barriers_ m))).

Definition MakeRelease (id gen : Z) : OutMessage :=
  MkOut kBroadcast (proto.encode (proto.MkHeader proto.kRelease kBroadcast gen id)).

(** The part of [Arrive] after the barrier has been found: [barrier] is
    [it->second] and the result is what is stored back through the reference. *)
Definition ArriveAt (m : BarrierManager) (barrier : BarrierState)
    (id generation sender : Z) (out : list OutMessage) :
    BarrierStatus * BarrierManager * list OutMessage :=
  if bool_decide (generation < current_generation barrier) then
    (kLateArrival, exception_cb m hcop.kBarrierLateArrival id, out)
  else if bool_decide (current_generation barrier < generation) then
    (kFutureArrival, m, out)
  else if bool_decide (sender < 64) &&
          negb (Z.land (arrived_bitmap barrier) (Z.shiftl 1 sender) =? 0) then
    (kDuplicateArrival, m, out)
  else
    let bitmap := if bool_decide (sender < 64)
                  then Z.lor (arrived_bitmap barrier) (Z.shiftl 1 sender)
                  else arrived_bitmap barrier in
    let count := u16 (arrived_count barrier + 1) in
    if bool_decide (num_participants barrier ≤ count) then
      (kRelease,
       set_barriers m (<[id := MkBarrier (u16 (current_generation barrier + 1))
                                         (num_participants barrier) 0 0]> (barriers_ m)),
       out ++ [MakeRelease id (current_generation barrier)])
    else
      (kOk,
       set_barriers m (<[id := MkBarrier (current_generation barrier)
                                         (num_participants barrier) count bitmap]> (barriers_ m)),
       out).

Definition Arrive (m : BarrierManager) (id generation sender : Z) (out : list OutMessage) :
    BarrierStatus * BarrierManager * list OutMessage :=
  match barriers_ m !! id with
  | Some barrier => ArriveAt m barrier id generation sender out
  | None =>
      if bool_decide (max_barriers_ m ≤ Z.of_nat (size (barriers_ m))) then
        (kLayoutOverflow, exception_cb m hcop.kBarrierGenerationOverflow id, out)
      else
        let '(set_status, m') := SetParticipants m id (default_participants_ m) in
        if negb (bool_decide (set_status = kOk)) then (set_status, m', out)
        else match barriers_ m' !! id with
             | None => (kInvalidConfiguration, m', out)
             | Some barrier => ArriveAt m' barrier id generation sender out
             end
  end.

Definition HandleMessage (m : BarrierManager) (d : bytes) (out : list OutMessage) :
    BarrierStatus * BarrierManager * list OutMessage :=
  if (length d <? proto.sizeof_BarrierMsgHeader)%nat then (kInvalidMessage, m, out)
  else
    let hdr := proto.decode d in
    if proto.msg_type hdr =? proto.kArrive
    then Arrive m (proto.barrier_id hdr) (proto.generation hdr) (proto.sender_id hdr) out
    else (kInvalidMessage, m, out).

Definition GetBarrier (m : BarrierManager) (id : Z) : option BarrierState := barriers_ m !! id.
Definition BarrierCount (m : BarrierManager) : Z := Z.of_nat (size (barriers_ m)).

(** [sizeof(BarrierState)]: three uint16_t, two bytes of padding, a uint64_t. *)
Definition sizeof_BarrierState : Z := 16.
Definition MemoryUsedBytes (m : BarrierManager) : Z :=
  u64 (Z.of_nat (size (barriers_ m)) * sizeof_BarrierState).

(** ** Wire round trip *)

Lemma length_encode_barrier h : length (proto.encode h) = proto.sizeof_BarrierMsgHeader.
Proof. unfold proto.encode. by rewrite !length_app, !length_le. Qed.

Lemma decode_encode_barrier h rest :
  proto.wf_header h → proto.decode (proto.encode h ++ rest) = h.
Proof.
  intros (?&?&?&?). unfold proto.decode, proto.encode. destruct h; simpl in *.
  f_equal; struct_fields; done.
Qed.

(** ** Invariants *)

(** The count of arrivals is below the number of participants, and it counts at least
    the senders the bitmap records. *)
Definition wf_barrier (b : BarrierState) : Prop :=
  2 ≤ num_participants b ≤ 64 ∧ current_generation b ∈u 16 ∧
  Z.of_nat (size (bits64 (arrived_bitmap b))) ≤ arrived_count b < num_participants b.

(** No sender outside the bitmap has been counted. *)
Definition exact (b : BarrierState) : Prop :=
  arrived_count b = Z.of_nat (size (bits64 (arrived_bitmap b))).

Definition wf (m : BarrierManager) : Prop := map_Forall (λ _, wf_barrier) (barriers_ m).

Lemma barrier_wf_new mb dp : wf (new_BarrierManager mb dp).
Proof. apply map_Forall_empty. Qed.

Lemma exception_cb_barriers m ty id : barriers_ (exception_cb m ty id) = barriers_ m.
Proof. unfold exception_cb. by case_match. Qed.

Lemma exception_cb_max m ty id : max_barriers_ (exception_cb m ty id) = max_barriers_ m.
Proof. unfold exception_cb. by case_match. Qed.

Lemma wf_fresh n : 2 ≤ n ≤ 64 → wf_barrier (MkBarrier 0 n 0 0).
Proof. unfold wf_barrier, fits; simpl. rewrite bits64_0, size_empty. lia. Qed.

Lemma SetParticipants_wf m id n st m' :
  SetParticipants m id n = (st, m') → wf m → wf m'.
Proof.
  unfold SetParticipants. intros H Hwf. case_match; simplify_eq; [done|].
  apply map_Forall_insert_2; [|done].
  rewrite orb_false_iff, !bool_decide_eq_false in H0. apply wf_fresh. lia.
Qed.

(** What [ArriveAt] computes, one case per return. *)
Inductive arrive_spec (m : BarrierManager) (b : BarrierState) (id g s : Z)
    (out : list OutMessage) : BarrierStatus * BarrierManager * list OutMessage → Prop :=
| arrive_late :
    g < current_generation b →
    arrive_spec m b id g s out (kLateArrival, exception_cb m hcop.kBarrierLateArrival id, out)
| arrive_future :
    current_generation b < g → arrive_spec m b id g s out (kFutureArrival, m, out)
| arrive_duplicate :
    g = current_generation b → s ∈ bits64 (arrived_bitmap b) →
    arrive_spec m b id g s out (kDuplicateArrival, m, out)
| arrive_release bm :
    g = current_generation b → s ∉ bits64 (arrived_bitmap b) →
    num_participants b ≤ arrived_count b + 1 → bm = MkBarrier (u16 (g + 1)) (num_participants b) 0 0 →
    arrive_spec m b id g s out
      (kRelease, set_barriers m (<[id := bm]> (barriers_ m)), out ++ [MakeRelease id g])
| arrive_partial bm :
    g = current_generation b → s ∉ bits64 (arrived_bitmap b) →
    arrived_count b + 1 < num_participants b →
    current_generation bm = g → num_participants bm = num_participants b →
    arrived_count bm = arrived_count b + 1 →
    bits64 (arrived_bitmap bm) =
      (if bool_decide (s < 64) then {[s]} ∪ bits64 (arrived_bitmap b) else bits64 (arrived_bitmap b)) →
    arrive_spec m b id g s out (kOk, set_barriers m (<[id := bm]> (barriers_ m)), out).

Lemma ArriveAt_spec m b id g s out :
  wf_barrier b → s ∈u 8 → arrive_spec m b id g s out (ArriveAt m b id g s out).
Proof.
  intros (Hn & Hg & Hc) Hs. unfold fits in Hs. unfold ArriveAt.
  case_bool_decide; [by constructor|]. case_bool_decide; [by constructor|].
  assert (g = current_generation b) as -> by lia.
  rewrite land_bit_testbit, negb_involutive by lia.
  destruct (bool_decide (s < 64) && Z.testbit (arrived_bitmap b) s) eqn:Hdup.
  { apply andb_true_iff in Hdup as [?%bool_decide_eq_true Ht].
    apply arrive_duplicate; [done|]. apply elem_of_bits64. auto with lia. }
  assert (s ∉ bits64 (arrived_bitmap b)) as Hnot.
  { rewrite elem_of_bits64. apply andb_false_iff in Hdup.
    rewrite bool_decide_eq_false in Hdup. intros [? Ht]. rewrite Ht in Hdup. naive_solver lia. }
  assert (u16 (arrived_count b + 1) = arrived_count b + 1) as Hu.
  { apply wrap_id. unfold fits. pose proof (bits64_size_le (arrived_bitmap b)). lia. }
  rewrite Hu. destruct (bool_decide (_ ≤ _)) eqn:Hrel.
  - apply bool_decide_eq_true in Hrel. by apply arrive_release.
  - apply bool_decide_eq_false in Hrel. apply arrive_partial; simpl; auto with lia.
    case_bool_decide; [apply bits64_set; lia|done].
Qed.

Lemma ArriveAt_wf_barrier b bm s :
  wf_barrier b → s ∉ bits64 (arrived_bitmap b) → arrived_count b + 1 < num_participants b →
  current_generation bm = current_generation b → num_participants bm = num_participants b →
  arrived_count bm = arrived_count b + 1 →
  bits64 (arrived_bitmap bm) =
    (if bool_decide (s < 64) then {[s]} ∪ bits64 (arrived_bitmap b) else bits64 (arrived_bitmap b)) →
  wf_barrier bm ∧ (s < 64 → exact b → exact bm).
Proof.
  unfold wf_barrier, exact. intros (Hn & Hg & Hc) Hs Hlt -> -> -> ->.
  case_bool_decide; rewrite ?size_union, ?size_singleton by set_solver;
    (split; [split_and!; [lia..|done|lia|lia]|intros; lia]).
Qed.

Lemma wf_released b g :
  wf_barrier b → wf_barrier (MkBarrier (u16 (g + 1)) (num_participants b) 0 0).
Proof.
  intros (? & ? & ?). unfold wf_barrier; simpl. rewrite bits64_0, size_empty.
  split_and!; try lia. apply wrap_fits. lia.
Qed.

(** [ArriveAt] keeps the manager well formed and only changes the barrier it is for. *)
Lemma ArriveAt_preserves m b id g s out st m' out' :
  ArriveAt m b id g s out = (st, m', out') → wf m → barriers_ m !! id = Some b → s ∈u 8 →
  wf m' ∧ max_barriers_ m' = max_barriers_ m ∧ dom (barriers_ m') = dom (barriers_ m).
Proof.
  intros HA Hwf Hb Hs. pose proof (Hwf id b Hb) as Hwb. simpl in Hwb.
  pose proof (ArriveAt_spec m b id g s out Hwb Hs) as HS. rewrite HA in HS.
  assert (id ∈ dom (barriers_ m)) by (apply elem_of_dom; eauto).
  inversion HS; subst; simpl; rewrite ?exception_cb_barriers, ?exception_cb_max; auto.
  - unfold wf. by rewrite exception_cb_barriers.
  - split_and!; [|done|rewrite dom_insert_L; set_solver].
    apply map_Forall_insert_2; [by apply wf_released|done].
  - split_and!; [|done|rewrite dom_insert_L; set_solver].
    apply map_Forall_insert_2; [|done]. by eapply ArriveAt_wf_barrier.
Qed.

Definition within_capacity (m : BarrierManager) : Prop :=
  Z.of_nat (size (barriers_ m)) ≤ max_barriers_ m.

Lemma size_same_dom (m1 m2 : gmap Z BarrierState) : dom m1 = dom m2 → size m1 = size m2.
Proof. intros H. by rewrite <- !size_dom, H. Qed.

Lemma Arrive_preserves m id g s out st m' out' :
  Arrive m id g s out = (st, m', out') → s ∈u 8 →
  wf m → within_capacity m → wf m' ∧ within_capacity m'.
Proof.
  unfold Arrive, within_capacity. intros HA Hs Hwf Hcap.
  destruct (barriers_ m !! id) as [b|] eqn:Hb.
  { destruct (ArriveAt_preserves _ _ _ _ _ _ _ _ _ HA Hwf Hb Hs) as (? & -> & Hd).
    by rewrite (size_same_dom _ _ Hd). }
  case_bool_decide.
  { simplify_eq. rewrite exception_cb_barriers, exception_cb_max.
    unfold wf. by rewrite exception_cb_barriers. }
  destruct (SetParticipants m id _) as [st1 m1] eqn:HS.
  pose proof (SetParticipants_wf _ _ _ _ _ HS Hwf) as Hwf1.
  unfold SetParticipants in HS. destruct (_ || _); simplify_eq.
  { rewrite bool_decide_eq_false_2 in HA by done. by simplify_eq/=. }
  rewrite bool_decide_eq_true_2 in HA by done. simpl in HA. rewrite lookup_insert_eq in HA.
  destruct (ArriveAt_preserves _ _ _ _ _ _ _ _ _ HA Hwf1) as (? & -> & Hd); [|done|].
  { simpl. by rewrite lookup_insert_eq. }
  rewrite (size_same_dom _ _ Hd). simpl. rewrite map_size_insert_None by done. split; [done|lia].
Qed.

(** C38: from an empty manager, every sequence of wire messages keeps each tracked barrier
    well formed (2 to 64 participants, fewer arrivals counted than participants, at least
    as many counted as recorded in the bitmap) and never tracks more than
    [max_barriers_] barriers. *)
Theorem barrier_manager_invariant (mb dp : Z) (ds : list bytes) :
  0 ≤ mb → Forall is_bytes ds →
  let m := foldl (λ m d, (HandleMessage m d []).1.2) (new_BarrierManager mb dp) ds in
  wf m ∧ within_capacity m.
Proof.
  intros Hmb Hds. cbv zeta.
  assert (wf (new_BarrierManager mb dp) ∧ within_capacity (new_BarrierManager mb dp)) as Hinit.
  { split; [apply barrier_wf_new|]. unfold within_capacity; simpl. by rewrite map_size_empty. }
  revert Hinit. generalize (new_BarrierManager mb dp).
  induction Hds as [|d ds Hd _ IH]; intros m [Hwf Hcap]; [done|]. simpl. apply IH.
  unfold HandleMessage. case_match; [done|]. case_match; [|done].
  destruct (Arrive _ _ _ _ _) as [[st m'] out'] eqn:HA. simpl.
  eapply Arrive_preserves; eauto. by apply (field_fits d 1 1).
Qed.

Lemma barrier_manager_invariant_witness :
  let m := foldl (λ m d, (HandleMessage m d []).1.2) (new_BarrierManager 4 2)
             [[1; 0; 0; 0; 9; 0; 0; 0]; [1; 1; 0; 0; 9; 0; 0; 0]; [1; 70; 1; 0; 9; 0; 0; 0]] in
  wf m ∧ within_capacity m.
Proof.
  apply barrier_manager_invariant; [lia|]. repeat constructor; cbv; done.
Defined.

(** ** The abstract barrier

    What the state machine promises: a generation and the set of participants that
    have arrived in it. *)

Record abstract_barrier := ABarrier { ab_gen : Z; ab_n : Z; ab_arrived : gset Z }.

Definition abs (b : BarrierState) : abstract_barrier :=
  ABarrier (current_generation b) (num_participants b) (bits64 (arrived_bitmap b)).

Definition spec_arrive (a : abstract_barrier) (g s : Z) : BarrierStatus * abstract_barrier :=
  if bool_decide (g < ab_gen a) then (kLateArrival, a)
  else if bool_decide (ab_gen a < g) then (kFutureArrival, a)
  else if bool_decide (s ∈ ab_arrived a) then (kDuplicateArrival, a)
  else
    let arrived := {[s]} ∪ ab_arrived a in
    if bool_decide (ab_n a ≤ Z.of_nat (size arrived))
    then (kRelease, ABarrier (u16 (ab_gen a + 1)) (ab_n a) ∅)
    else (kOk, ABarrier (ab_gen a) (ab_n a) arrived).

(** [refines st m m' out out' id b g s]: one concrete arrival is one abstract arrival. *)
Definition refines_arrive m m' out out' id b g s st : Prop :=
  ∃ b', barriers_ m' !! id = Some b' ∧ exact b' ∧
        spec_arrive (abs b) g s = (st, abs b') ∧
        out' = out ++ (if bool_decide (st = kRelease) then [MakeRelease id g] else []) ∧
        ∀ id', id' ≠ id → barriers_ m' !! id' = barriers_ m !! id'.

Lemma ArriveAt_refines m b id g s out st m' out' :
  ArriveAt m b id g s out = (st, m', out') → wf_barrier b → barriers_ m !! id = Some b →
  exact b → 0 ≤ s < 64 → refines_arrive m m' out out' id b g s st.
Proof.
  intros HA Hwb Hb Hex Hs.
  pose proof (ArriveAt_spec m b id g s out Hwb ltac:(unfold fits; lia)) as HS. rewrite HA in HS.
  unfold refines_arrive, spec_arrive, abs, exact in *. simpl.
  inversion HS as [Hg|Hg|Hg Hin|bm Hg Hin Hn Hbm|bm Hg Hin Hn Hgen Hnp Hcnt Hbits]; subst; simpl in *.
  - exists b. rewrite exception_cb_barriers, (bool_decide_eq_true_2 _ Hg), app_nil_r. auto.
  - exists b. rewrite (bool_decide_eq_false_2 (_ < _)), bool_decide_eq_true_2, app_nil_r by lia.
    auto.
  - exists b. rewrite !(bool_decide_eq_false_2 (_ < _)), (bool_decide_eq_true_2 (s ∈ _)), app_nil_r
      by (done || lia). auto.
  - eexists. rewrite lookup_insert_eq. split; [done|]. simpl. rewrite bits64_0, size_empty.
    rewrite !(bool_decide_eq_false_2 (_ < _)), (bool_decide_eq_false_2 (s ∈ _)) by (done || lia).
    rewrite size_union, size_singleton by set_solver.
    rewrite bool_decide_eq_true_2 by lia.
    split_and!; [done..|]. intros. by apply lookup_insert_ne.
  - eexists. rewrite lookup_insert_eq. split; [done|].
    rewrite (bool_decide_eq_true_2 (s < 64)) in Hbits by lia.
    rewrite !(bool_decide_eq_false_2 (_ < _)), (bool_decide_eq_false_2 (s ∈ _)) by (done || lia).
    rewrite Hbits, size_union, size_singleton, app_nil_r by set_solver.
    rewrite bool_decide_eq_false_2 by lia.
    split_and!; [lia| |done|intros; by apply lookup_insert_ne].
    destruct bm; simpl in *. by subst.
Qed.

(** C37: for a sender below 64, on a barrier whose arrivals all came from senders below 64 (so
    that the count is the number of bits set), one [Arrive] (late, future, duplicate, partial or
    completing) is one step of the abstract barrier: same status, same generation and arrival set
    afterwards, a RELEASE broadcast exactly when the abstract barrier completes, and no other
    barrier touched. (Senders of 64 and above can release a barrier alone, see
    [untracked_sender_releases_alone].) *)
Theorem arrive_refines m id b g s out st m' out' :
  wf m → barriers_ m !! id = Some b → exact b → 0 ≤ s < 64 →
  Arrive m id g s out = (st, m', out') → refines_arrive m m' out out' id b g s st.
Proof.
  intros Hwf Hb Hex Hs HA. unfold Arrive in HA. rewrite Hb in HA.
  eapply ArriveAt_refines; [exact HA|exact (Hwf id b Hb)|done..].
Qed.

Lemma arrive_refines_witness :
  let m := (SetParticipants (new_BarrierManager 4 2) 9 3).2 in
  refines_arrive m (Arrive m 9 0 5 []).1.2 [] [] 9 (MkBarrier 0 3 0 0) 0 5 kOk.
Proof.
  apply arrive_refines; [|reflexivity|reflexivity|lia|vm_compute; reflexivity].
  apply (SetParticipants_wf (new_BarrierManager 4 2) 9 3 kOk); [reflexivity|apply barrier_wf_new].
Defined.

(** ** A whole round *)

Fixpoint arrive_all (m : BarrierManager) (id g : Z) (ss : list Z) (out : list OutMessage) :
    list BarrierStatus * BarrierManager * list OutMessage :=
  match ss with
  | [] => ([], m, out)
  | s :: ss =>
      let '(st, m', out') := Arrive m id g s out in
      let '(sts, m'', out'') := arrive_all m' id g ss out' in
      (st :: sts, m'', out'')
  end.

(** Arrivals that are new (senders the bitmap can record come at most once) are counted
    until the last one, which releases. *)
Lemma arrive_all_round m id b ss out :
  wf m → within_capacity m → barriers_ m !! id = Some b →
  Forall (fits 8) ss → NoDup (filter (λ s, s < 64) ss) →
  (∀ s, s ∈ ss → s ∉ bits64 (arrived_bitmap b)) →
  ss ≠ [] → arrived_count b + Z.of_nat (length ss) = num_participants b →
  ∃ m', arrive_all m id (current_generation b) ss out =
          (replicate (length ss - 1) kOk ++ [kRelease], m',
           out ++ [MakeRelease id (current_generation b)]) ∧
        barriers_ m' !! id =
          Some (MkBarrier (u16 (current_generation b + 1)) (num_participants b) 0 0).
Proof.
  intros Hwf Hcap Hb Hss Hnd Hnew Hne Hlen. revert m b out Hwf Hcap Hb Hnew Hlen.
  induction Hss as [|s ss Hs Hss IH]; intros; [done|]. clear Hne. simpl length in *.
  simpl arrive_all. destruct (Arrive m id _ s out) as [[st m1] out1] eqn:HA.
  destruct (Arrive_preserves _ _ _ _ _ _ _ _ HA Hs Hwf Hcap) as [Hwf1 Hcap1].
  pose proof HA as HS. unfold Arrive in HS. rewrite Hb in HS.
  pose proof (ArriveAt_spec m b id (current_generation b) s out (Hwf id b Hb) Hs) as HSP.
  rewrite HS in HSP. specialize (Hnew s ltac:(set_solver)) as Hsn.
  inversion HSP as [Hg|Hg|Hg Hin|bm Hg Hin Hn Hbm|bm Hg Hin Hn Hgen Hnp Hcnt Hbits];
    subst; try done || lia.
  - destruct ss; [|simpl in *; lia]. eexists; split; [done|]. simpl. by rewrite lookup_insert_eq.
  - destruct ss as [|s' ss]; [simpl in *; lia|].
    rewrite filter_cons in Hnd.
    destruct (IH ltac:(case_decide; [by apply NoDup_cons in Hnd as [_ ?]|done]) ltac:(done)
                _ bm out1 Hwf1 Hcap1) as (m2 & HA2 & HB2).
    + simpl. by rewrite lookup_insert_eq.
    + intros t Ht. specialize (Hnew t ltac:(set_solver)). rewrite Hbits.
      case_bool_decide; [|done]. rewrite decide_True in Hnd by done.
      apply NoDup_cons in Hnd as [Hnd _]. rewrite list_elem_of_filter in Hnd. set_solver.
    + simpl length in *. lia.
    + rewrite Hgen, Hnp in *. rewrite HA2. eexists. split; [|done].
      simpl. by rewrite Nat.sub_0_r.
Qed.

(** a fresh generation of an N-participant barrier is released by the N-th of N
    distinct senders (numbered below 64), in whatever order they arrive: the first N-1
    are answered [kOk], the last one [kRelease], exactly one RELEASE for that generation
    is broadcast, and the next generation starts empty. *)
Theorem barrier_round m id n g ss :
  wf m → within_capacity m → barriers_ m !! id = Some (MkBarrier g n 0 0) →
  NoDup ss → Forall (λ s, 0 ≤ s < 64) ss → Z.of_nat (length ss) = n →
  ∃ m', arrive_all m id g ss [] =
          (replicate (length ss - 1) kOk ++ [kRelease], m', [MakeRelease id g]) ∧
        barriers_ m' !! id = Some (MkBarrier (u16 (g + 1)) n 0 0).
Proof.
  intros Hwf Hcap Hb Hnd Hss Hlen. pose proof (Hwf _ _ Hb) as (Hn & _). simpl in Hn.
  apply (arrive_all_round m id (MkBarrier g n 0 0) ss []); auto; simpl.
  - eapply Forall_impl; [exact Hss|]. intros; simpl in *. unfold fits; lia.
  - by apply NoDup_filter.
  - intros. rewrite bits64_0. set_solver.
  - intros ->. simpl in *. lia.
Qed.

Lemma barrier_round_witness :
  let m := (SetParticipants (new_BarrierManager 4 2) 9 3).2 in
  ∃ m', arrive_all m 9 0 [2; 0; 1] [] =
          (replicate (length [2; 0; 1] - 1) kOk ++ [kRelease], m', [MakeRelease 9 0]) ∧
        barriers_ m' !! 9 = Some (MkBarrier (u16 (0 + 1)) 3 0 0).
Proof.
  apply barrier_round; [|cbv; done|reflexivity| | |reflexivity].
  - apply (SetParticipants_wf (new_BarrierManager 4 2) 9 3 kOk); [reflexivity|apply barrier_wf_new].
  - apply NoDup_cons; split; [set_solver|]. apply NoDup_cons; split; [set_solver|].
    apply NoDup_singleton.
  - repeat constructor; lia.
Defined.

(** The bitmap only records senders below 64, so a sender numbered 64 or more is never
    seen as a duplicate: arriving [n] times it releases an [n]-participant barrier alone. *)
Theorem untracked_sender_releases_alone m id n g s :
  wf m → within_capacity m → barriers_ m !! id = Some (MkBarrier g n 0 0) → 64 ≤ s < 256 →
  ∃ sts m', arrive_all m id g (replicate (Z.to_nat n) s) [] =
              (sts ++ [kRelease], m', [MakeRelease id g]).
Proof.
  intros Hwf Hcap Hb Hs. pose proof (Hwf _ _ Hb) as (Hn & _). simpl in Hn.
  destruct (arrive_all_round m id (MkBarrier g n 0 0) (replicate (Z.to_nat n) s) [])
    as (m' & HA & _); eauto; simpl.
  - apply Forall_replicate. unfold fits; lia.
  - replace (filter _ _) with (@nil Z); [constructor|]. symmetry.
    induction (Z.to_nat n); [done|]. simpl. by rewrite filter_cons_False by lia.
  - intros. rewrite bits64_0. set_solver.
  - destruct (Z.to_nat n) eqn:?; [lia|done].
  - rewrite length_replicate. lia.
Qed.

Lemma untracked_sender_releases_alone_witness :
  let m := (SetParticipants (new_BarrierManager 4 2) 9 3).2 in
  ∃ sts m', arrive_all m 9 0 (replicate (Z.to_nat 3) 100) [] = (sts ++ [kRelease], m', [MakeRelease 9 0]).
Proof.
  apply (untracked_sender_releases_alone _ 9 3 0 100); [|cbv; done|reflexivity|lia].
  apply (SetParticipants_wf (new_BarrierManager 4 2) 9 3 kOk); [reflexivity|apply barrier_wf_new].
Defined.

End barrier.
