(* ===== verification/LockState.v ===== *)
(** * Lock state machine (lib/hcop/lock_state.{h,cc}, lock_proto.h)

    [LockManager] keeps one [KeyState] per locked key: the holder, the lease expiry and
    the queue of waiting requests.  The operations are the methods of the C++ class.
    [CheckTimeouts] iterates over an [unordered_map], whose order the language leaves
    open: the order is an argument of the model.  The abstract lock at the end of the
    file is a FIFO queue per key whose head is the holder. *)

From S2P Require Import Prelude.
From S2P Require Import HcopProto.

Module lock.

(** ** Wire format: lock_proto.h *)

Module proto.

Definition kAcquire : Z := 1.
Definition kGrant : Z := 2.
Definition kRelease : Z := 3.
Definition kDeny : Z := 4.
Definition kTimeout : Z := 5.

(** The two padding bytes are zero in every message the manager builds ([= {}]) and are
    not read from incoming ones. *)
Record LockMsgHeader := MkHeader {
  msg_type : Z;        (* uint8_t *)
  requester_id : Z;    (* uint8_t *)
  lock_key : Z;        (* uint64_t *)
}.

Record AcquireMsg := MkAcquire { acq_hdr : LockMsgHeader; lease_duration_ns : Z }.
Record GrantMsg := MkGrant { grant_hdr : LockMsgHeader; lease_expiry_ns : Z }.
Record ReleaseMsg := MkRelease { rel_hdr : LockMsgHeader }.
Record DenyMsg := MkDeny { deny_hdr : LockMsgHeader; holder_id : Z }.
Record TimeoutMsg := MkTimeout { to_hdr : LockMsgHeader }.

Definition sizeof_LockMsgHeader : nat := 12.
Definition sizeof_AcquireMsg : nat := 20.
Definition sizeof_ReleaseMsg : nat := 12.

Definition encode_hdr (h : LockMsgHeader) : bytes :=
  le 1 (msg_type h) ++ le 1 (requester_id h) ++ le 2 0 ++ le 8 (lock_key h).
Definition encode_Acquire (m : AcquireMsg) : bytes :=
  encode_hdr (acq_hdr m) ++ le 8 (lease_duration_ns m).
Definition encode_Grant (m : GrantMsg) : bytes :=
  encode_hdr (grant_hdr m) ++ le 8 (lease_expiry_ns m).
Definition encode_Release (m : ReleaseMsg) : bytes := encode_hdr (rel_hdr m).
Definition encode_Deny (m : DenyMsg) : bytes :=
  encode_hdr (deny_hdr m) ++ le 1 (holder_id m) ++ replicate 7 0.
Definition encode_Timeout (m : TimeoutMsg) : bytes := encode_hdr (to_hdr m).

Definition decode_hdr (d : bytes) : LockMsgHeader :=
  MkHeader (field d 0 1) (field d 1 1) (field d 4 8).
Definition decode_Acquire (d : bytes) : AcquireMsg := MkAcquire (decode_hdr d) (field d 12 8).
Definition decode_Grant (d : bytes) : GrantMsg := MkGrant (decode_hdr d) (field d 12 8).
Definition decode_Release (d : bytes) : ReleaseMsg := MkRelease (decode_hdr d).
Definition decode_Deny (d : bytes) : DenyMsg := MkDeny (decode_hdr d) (field d 12 1).

Definition wf_hdr (h : LockMsgHeader) : Prop :=
  msg_type h ∈u 8 ∧ requester_id h ∈u 8 ∧ lock_key h ∈u 64.

End proto.

(** ** State and results: lock_state.h *)

Inductive LockStatus :=
| kOk | kGranted | kDenied | kKeyOverflow | kContention | kNotHeld | kInvalidMessage.

#[global] Instance LockStatus_eq_dec : EqDecision LockStatus.
Proof. solve_decision. Defined.

Record WaitingRequest := MkWaiting { w_requester_id : Z; w_lease_duration_ns : Z }.

Definition kFree : Z := 255.

Record KeyState := MkKey {
  holder_id : Z;                   (* uint8_t, kFree = nobody *)
  lease_expiry_ns : Z;             (* uint64_t *)
  waiters : list WaitingRequest;   (* std::deque *)
}.

(** A default-constructed [KeyState]. *)
Definition free_key : KeyState := MkKey kFree 0 [].

Record OutMessage := MkOut { dest_id : Z; data : bytes }.

Record LockManager := MkManager {
  max_keys_ : Z;                   (* uint32_t *)
  default_lease_ns_ : Z;           (* uint64_t *)
  max_waiters_per_key_ : Z;        (* uint16_t *)
  keys_ : gmap Z KeyState;
  has_exception_cb_ : bool;        (* is exception_cb_ non-empty? *)
  exceptions : list (Z * Z);       (* calls made to exception_cb_, oldest first *)
}.

Definition new_LockManager (max_keys default_lease_ns max_waiters_per_key : Z) : LockManager :=
  MkManager max_keys default_lease_ns max_waiters_per_key ∅ false [].

Definition set_keys (m : LockManager) (k : gmap Z KeyState) : LockManager :=
  MkManager (max_keys_ m) (default_lease_ns_ m) (max_waiters_per_key_ m) k
            (has_exception_cb_ m) (exceptions m).

(** [if (exception_cb_) exception_cb_(ty, key);] *)
Definition exception_cb (m : LockManager) (ty key : Z) : LockManager :=
  if has_exception_cb_ m
  then MkManager (max_keys_ m) (default_lease_ns_ m) (max_waiters_per_key_ m) (keys_ m)
                 (has_exception_cb_ m) (exceptions m ++ [(ty, key)])
  else m.

(** ** Message builders *)

Definition MakeGrant (dest key expiry : Z) : OutMessage :=
  MkOut dest (proto.encode_Grant (proto.MkGrant (proto.MkHeader proto.kGrant dest key) expiry)).
Definition MakeDeny (dest key holder : Z) : OutMessage :=
  MkOut dest (proto.encode_Deny (proto.MkDeny (proto.MkHeader proto.kDeny dest key) holder)).
Definition MakeTimeout (dest key : Z) : OutMessage :=
  MkOut dest (proto.encode_Timeout (proto.MkTimeout (proto.MkHeader proto.kTimeout dest key))).

(** ** Internal helpers *)

(** [None] is the null pointer of the overflow case; otherwise the entry, which is in the
    map of the returned manager. *)
Definition GetOrCreateKey (m : LockManager) (key : Z) : option KeyState * LockManager :=
  match keys_ m !! key with
  | Some ks => (Some ks, m)
  | None =>
      if bool_decide (max_keys_ m ≤ Z.of_nat (size (keys_ m)))
      then (None, exception_cb m hcop.kLockStateOverflow key)
      else (Some free_key, set_keys m (<[key := free_key]> (keys_ m)))
  end.

(** [GrantLock] writes through its [KeyState &] argument: the new entry is returned. *)
Definition GrantLock (ks : KeyState) (key requester lease now : Z) (out : list OutMessage) :
    KeyState * list OutMessage :=
  let expiry := u64 (now + lease) in
  (MkKey requester expiry (waiters ks), out ++ [MakeGrant requester key expiry]).

Definition GrantNextWaiter (ks : KeyState) (key now : Z) (out : list OutMessage) :
    bool * KeyState * list OutMessage :=
  match waiters ks with
  | [] => (false, ks, out)
  | next :: rest =>
      let '(ks', out') :=
        GrantLock (MkKey (holder_id ks) (lease_expiry_ns ks) rest) key
                  (w_requester_id next) (w_lease_duration_ns next) now out in
      (true, ks', out')
  end.

Definition MaybeRemoveKey (m : LockManager) (key : Z) : LockManager :=
  match keys_ m !! key with
  | None => m
  | Some ks =>
      if (holder_id ks =? kFree) && bool_decide (length (waiters ks) = 0%nat)
      then set_keys m (delete key (keys_ m)) else m
  end.

(** ** Programmatic API *)

Definition Acquire (m : LockManager) (key requester lease now : Z) (out : list OutMessage) :
    LockStatus * LockManager * list OutMessage :=
  let lease := if lease =? 0 then default_lease_ns_ m else lease in
  match GetOrCreateKey m key with
  | (None, m) => (kKeyOverflow, m, out)
  | (Some ks, m) =>
      if holder_id ks =? kFree then
        let '(ks', out') := GrantLock ks key requester lease now out in
        (kGranted, set_keys m (<[key := ks']> (keys_ m)), out')
      else if holder_id ks =? requester then
        let expiry := u64 (now + lease) in
        (kGranted, set_keys m (<[key := MkKey (holder_id ks) expiry (waiters ks)]> (keys_ m)),
         out ++ [MakeGrant requester key expiry])
      else if max_waiters_per_key_ m =? 0 then
        (kContention, exception_cb m hcop.kLockContention key,
         out ++ [MakeDeny requester key (holder_id ks)])
      else if bool_decide (max_waiters_per_key_ m ≤ Z.of_nat (length (waiters ks))) then
        (kContention, exception_cb m hcop.kLockContention key,
         out ++ [MakeDeny requester key (holder_id ks)])
      else if existsb (λ w, w_requester_id w =? requester) (waiters ks) then
        (kDenied, m, out ++ [MakeDeny requester key (holder_id ks)])
      else
        (kDenied,
         set_keys m (<[key := MkKey (holder_id ks) (lease_expiry_ns ks)
                                    (waiters ks ++ [MkWaiting requester lease])]> (keys_ m)),
         out ++ [MakeDeny requester key (holder_id ks)])
  end.

(** Common tail of [Release] and [CheckTimeouts]: the holder is cleared, then the next
    waiter is granted or the entry is garbage-collected. *)
Definition free_and_regrant (m : LockManager) (ks : KeyState) (key now : Z)
    (out : list OutMessage) : LockManager * list OutMessage :=
  let ks := MkKey kFree 0 (waiters ks) in
  let '(granted, ks', out') := GrantNextWaiter ks key now out in
  let m := set_keys m (<[key := ks']> (keys_ m)) in
  ((if granted then m else MaybeRemoveKey m key), out').

Definition Release (m : LockManager) (key requester now : Z) (out : list OutMessage) :
    LockStatus * LockManager * list OutMessage :=
  match keys_ m !! key with
  | None => (kNotHeld, m, out)
  | Some ks =>
      if negb (holder_id ks =? requester) then (kNotHeld, m, out)
      else
        let '(m', out') := free_and_regrant m ks key now out in
        (kOk, m', out')
  end.

(** ** Timeout checking *)

Definition lease_expired (now : Z) (ks : KeyState) : bool :=
  negb (holder_id ks =? kFree) && (0 <? lease_expiry_ns ks) && (lease_expiry_ns ks <=? now).

(** One iteration of the second loop of [CheckTimeouts]. *)
Definition expire_key (now : Z) (acc : Z * LockManager * list OutMessage) (key : Z) :
    Z * LockManager * list OutMessage :=
  let '(expired, m, out) := acc in
  match keys_ m !! key with
  | None => acc
  | Some ks =>
      if holder_id ks =? kFree then acc
      else
        let out := out ++ [MakeTimeout (holder_id ks) key] in
        let m := exception_cb m hcop.kLockTimeoutCheck key in
        let '(m', out') := free_and_regrant m ks key now out in
        (u32 (expired + 1), m', out')
  end.

Definition key_expired (m : LockManager) (now key : Z) : bool :=
  match keys_ m !! key with Some ks => lease_expired now ks | None => false end.

(** [order] is the order in which the first loop visits the keys of the hash table. *)
Definition CheckTimeouts (order : list Z) (m : LockManager) (now : Z) (out : list OutMessage) :
    Z * LockManager * list OutMessage :=
  let expired_keys := filter (λ k, key_expired m now k = true) order in
  foldl (expire_key now) (0, m, out) expired_keys.

(** ** Message dispatch *)

Definition HandleAcquire (m : LockManager) (msg : proto.AcquireMsg) (now : Z)
    (out : list OutMessage) : LockStatus * LockManager * list OutMessage :=
  Acquire m (proto.lock_key (proto.acq_hdr msg)) (proto.requester_id (proto.acq_hdr msg))
          (proto.lease_duration_ns msg) now out.

Definition HandleRelease (m : LockManager) (msg : proto.ReleaseMsg) (now : Z)
    (out : list OutMessage) : LockStatus * LockManager * list OutMessage :=
  Release m (proto.lock_key (proto.rel_hdr msg)) (proto.requester_id (proto.rel_hdr msg)) now out.

Definition HandleMessage (m : LockManager) (d : bytes) (now : Z) (out : list OutMessage) :
    LockStatus * LockManager * list OutMessage :=
  if (length d <? proto.sizeof_LockMsgHeader)%nat then (kInvalidMessage, m, out)
  else
    let ty := proto.msg_type (proto.decode_hdr d) in
    if ty =? proto.kAcquire then
      if (proto.sizeof_AcquireMsg <=? length d)%nat
      then HandleAcquire m (proto.decode_Acquire d) now out
      else (kInvalidMessage, m, out)
    else if ty =? proto.kRelease then
      if (proto.sizeof_ReleaseMsg <=? length d)%nat
      then HandleRelease m (proto.decode_Release d) now out
      else (kInvalidMessage, m, out)
    else (kInvalidMessage, m, out).

Definition KeyCount (m : LockManager) : Z := Z.of_nat (size (keys_ m)).
Definition GetKeyState (m : LockManager) (key : Z) : option KeyState := keys_ m !! key.

(** ** Wire round trips *)

Lemma length_encode_lock_hdr h : length (proto.encode_hdr h) = 12%nat.
Proof. unfold proto.encode_hdr. by rewrite !length_app, !length_le. Qed.

Lemma decode_encode_hdr h rest :
  proto.wf_hdr h → proto.decode_hdr (proto.encode_hdr h ++ rest) = h.
Proof.
  intros (?&?&?). unfold proto.decode_hdr, proto.encode_hdr. destruct h; simpl in *.
  f_equal; struct_fields; done.
Qed.

Lemma field_after_hdr h rest n :
  field (proto.encode_hdr h ++ rest) 12 n = field rest 0 n.
Proof. unfold proto.encode_hdr. by struct_fields. Qed.

Lemma decode_encode_Acquire m rest :
  proto.wf_hdr (proto.acq_hdr m) → proto.lease_duration_ns m ∈u 64 →
  proto.decode_Acquire (proto.encode_Acquire m ++ rest) = m.
Proof.
  intros Hh Hl. unfold proto.decode_Acquire, proto.encode_Acquire. rewrite <- app_assoc.
  rewrite decode_encode_hdr, field_after_hdr by done. struct_fields. by destruct m.
Qed.

Lemma decode_encode_Release m rest :
  proto.wf_hdr (proto.rel_hdr m) → proto.decode_Release (proto.encode_Release m ++ rest) = m.
Proof.
  intros. unfold proto.decode_Release, proto.encode_Release.
  rewrite decode_encode_hdr by done. by destruct m.
Qed.

(** ** What freeing a key does *)

Definition regrant (now : Z) (ks : KeyState) : option KeyState :=
  match waiters ks with
  | [] => None
  | w :: ws => Some (MkKey (w_requester_id w) (u64 (now + w_lease_duration_ns w)) ws)
  end.

Definition regrant_out (now key : Z) (ks : KeyState) : list OutMessage :=
  match waiters ks with
  | [] => []
  | w :: _ => [MakeGrant (w_requester_id w) key (u64 (now + w_lease_duration_ns w))]
  end.

Lemma free_and_regrant_eq m ks key now out :
  free_and_regrant m ks key now out =
  (set_keys m (partial_alter (λ _, regrant now ks) key (keys_ m)), out ++ regrant_out now key ks).
Proof.
  unfold free_and_regrant, GrantNextWaiter, regrant, regrant_out. simpl.
  destruct (waiters ks) as [|w ws] eqn:Hw; [|done].
  unfold MaybeRemoveKey. simpl. rewrite lookup_insert_eq. simpl. rewrite app_nil_r.
  unfold set_keys; simpl. by rewrite delete_insert_eq.
Qed.

(** ** The abstract lock service

    A locked key is a FIFO queue of requesters: the head holds the lock, the rest wait.
    A key that is not locked is not in the map. *)

Definition queue (ks : KeyState) : list Z := holder_id ks :: (w_requester_id <$> waiters ks).
Definition abs (m : LockManager) : gmap Z (list Z) := queue <$> keys_ m.

Definition spec_acquire (max_keys max_waiters : Z) (a : gmap Z (list Z)) (key r : Z) :
    LockStatus * gmap Z (list Z) :=
  match a !! key with
  | None => if bool_decide (max_keys ≤ Z.of_nat (size a)) then (kKeyOverflow, a)
            else (kGranted, <[key := [r]]> a)
  | Some q =>
      if bool_decide (head q = Some r) then (kGranted, a)
      else if bool_decide (max_waiters < Z.of_nat (length q)) then (kContention, a)
      else if bool_decide (r ∈ q) then (kDenied, a)
      else (kDenied, <[key := q ++ [r]]> a)
  end.

Definition pop_queue (q : list Z) : option (list Z) :=
  match tail q with [] => None | q' => Some q' end.

Definition spec_release (a : gmap Z (list Z)) (key r : Z) : LockStatus * gmap Z (list Z) :=
  match a !! key with
  | None => (kNotHeld, a)
  | Some q => if bool_decide (head q = Some r)
              then (kOk, partial_alter (λ _, pop_queue q) key a) else (kNotHeld, a)
  end.

(** ** Invariant *)

(** Every tracked key is held, nobody waits twice or waits for a lock it holds, and the
    queue respects its bound.  [kFree] (255) never appears as a requester. *)
Definition wf_key (max_waiters : Z) (ks : KeyState) : Prop :=
  NoDup (queue ks) ∧ kFree ∉ queue ks ∧ Z.of_nat (length (waiters ks)) ≤ max_waiters.

Definition wf (m : LockManager) : Prop :=
  map_Forall (λ _, wf_key (max_waiters_per_key_ m)) (keys_ m) ∧
  Z.of_nat (size (keys_ m)) ≤ max_keys_ m ∧ 0 ≤ max_waiters_per_key_ m.

Lemma lock_wf_new mk dl mw : 0 ≤ mk → 0 ≤ mw → wf (new_LockManager mk dl mw).
Proof.
  intros. split_and!; simpl; [apply map_Forall_empty|by rewrite map_size_empty|done].
Qed.

Lemma exception_cb_keys m ty k : keys_ (exception_cb m ty k) = keys_ m.
Proof. unfold exception_cb. by case_match. Qed.

Lemma exception_cb_bounds m ty k :
  max_keys_ (exception_cb m ty k) = max_keys_ m ∧
  max_waiters_per_key_ (exception_cb m ty k) = max_waiters_per_key_ m.
Proof. unfold exception_cb. by case_match. Qed.

Lemma lock_exception_cb_wf m ty k : wf m → wf (exception_cb m ty k).
Proof.
  unfold wf. rewrite exception_cb_keys. by destruct (exception_cb_bounds m ty k) as [-> ->].
Qed.

Lemma abs_exception_cb m ty k : abs (exception_cb m ty k) = abs m.
Proof. unfold abs. by rewrite exception_cb_keys. Qed.

Lemma wf_regrant now mw ks ks' : regrant now ks = Some ks' → wf_key mw ks → wf_key mw ks'.
Proof.
  unfold regrant, wf_key, queue. destruct (waiters ks) as [|w ws]; [done|].
  intros [= <-] (Hnd & Hf & Hl). simpl in *. apply NoDup_cons in Hnd as [_ Hnd].
  split_and!; [done|set_solver|lia].
Qed.

Lemma regrant_queue now ks : queue <$> regrant now ks = pop_queue (queue ks).
Proof. unfold regrant, pop_queue, queue. by destruct (waiters ks). Qed.

Lemma size_partial_alter_le {A} (m : gmap Z A) (f : option A → option A) k :
  is_Some (m !! k) → (size (partial_alter f k m) ≤ size m)%nat.
Proof.
  intros Hk. rewrite <- !size_dom. apply subseteq_size. intros i.
  rewrite !elem_of_dom. destruct (decide (i = k)) as [->|]; [done|].
  by rewrite lookup_partial_alter_ne.
Qed.

Lemma wf_free m ks key now :
  keys_ m !! key = Some ks → wf m →
  wf (set_keys m (partial_alter (λ _, regrant now ks) key (keys_ m))).
Proof.
  intros Hk (Hall & Hsz & Hmw). split_and!; simpl; [| |done].
  - intros i ks'. destruct (decide (i = key)) as [->|Hne].
    + rewrite lookup_partial_alter_eq. intros Hr. eapply wf_regrant; [done|exact (Hall _ _ Hk)].
    + rewrite lookup_partial_alter_ne by done. apply Hall.
  - pose proof (size_partial_alter_le (keys_ m) (λ _, regrant now ks) key ltac:(eauto)). lia.
Qed.

Lemma abs_free m ks key now :
  keys_ m !! key = Some ks →
  abs (set_keys m (partial_alter (λ _, regrant now ks) key (keys_ m))) =
  partial_alter (λ _, pop_queue (queue ks)) key (abs m).
Proof.
  intros Hk. apply map_eq. intros i. unfold abs; simpl. rewrite lookup_fmap.
  destruct (decide (i = key)) as [->|].
  - by rewrite !lookup_partial_alter_eq, regrant_queue.
  - by rewrite !lookup_partial_alter_ne, lookup_fmap.
Qed.

(** ** Refinement *)

(** The reply [Acquire] sends: GRANT with the expiry of the lease it recorded, DENY naming
    the holder, or nothing when the key table is full. *)
Definition acquire_reply (st : LockStatus) (m' : LockManager) (key r : Z) : list OutMessage :=
  match st, keys_ m' !! key with
  | kGranted, Some ks => [MakeGrant r key (lease_expiry_ns ks)]
  | (kDenied | kContention), Some ks => [MakeDeny r key (holder_id ks)]
  | _, _ => []
  end.

Lemma abs_lookup m key : abs m !! key = queue <$> keys_ m !! key.
Proof. apply lookup_fmap. Qed.

Lemma abs_size m : size (abs m) = size (keys_ m).
Proof. apply map_size_fmap. Qed.

Lemma abs_insert m key ks :
  abs (set_keys m (<[key := ks]> (keys_ m))) = <[key := queue ks]> (abs m).
Proof. unfold abs; simpl. by rewrite fmap_insert. Qed.

Lemma abs_insert_same m key ks ks' :
  keys_ m !! key = Some ks → queue ks' = queue ks →
  abs (set_keys m (<[key := ks']> (keys_ m))) = abs m.
Proof.
  intros Hk Hq. rewrite abs_insert, Hq. apply insert_id. by rewrite abs_lookup, Hk.
Qed.

Lemma wf_insert m key ks ks' :
  keys_ m !! key = Some ks → wf_key (max_waiters_per_key_ m) ks' → wf m →
  wf (set_keys m (<[key := ks']> (keys_ m))).
Proof.
  intros Hk Hks (Hall & Hsz & Hmw). split_and!; simpl; [|by rewrite map_size_insert_Some|done].
  by apply map_Forall_insert_2.
Qed.

Lemma existsb_waiters r ws :
  existsb (λ w, w_requester_id w =? r) ws = bool_decide (r ∈ w_requester_id <$> ws).
Proof.
  induction ws as [|w ws IH]; [done|]. simpl. rewrite IH.
  destruct (Z.eqb_spec (w_requester_id w) r) as [->|Hne]; simpl; symmetry.
  - apply bool_decide_eq_true_2. set_solver.
  - apply bool_decide_ext. set_solver.
Qed.

(** A request for a key the manager does not track: granted, or refused for capacity. *)
Lemma acquire_fresh m key r lease now out st m' out' :
  wf m → r ≠ kFree → keys_ m !! key = None → Acquire m key r lease now out = (st, m', out') →
  spec_acquire (max_keys_ m) (max_waiters_per_key_ m) (abs m) key r = (st, abs m') ∧ wf m' ∧
  out' = out ++ acquire_reply st m' key r.
Proof.
  intros Hwf Hr Hk HA. unfold Acquire, GetOrCreateKey in HA. unfold spec_acquire.
  rewrite Hk in HA. rewrite abs_lookup, Hk. simpl. rewrite abs_size.
  case_bool_decide as Hcap; simplify_eq.
  - rewrite abs_exception_cb. split_and!; [done|by apply lock_exception_cb_wf|by rewrite app_nil_r].
  - simpl in HA. simplify_eq. rewrite insert_insert_eq. destruct Hwf as (Hall & Hsz & Hmw).
    split_and!; simpl.
    + unfold abs; simpl. by rewrite fmap_insert.
    + split_and!; simpl; [|rewrite map_size_insert_None by done; lia|done].
      apply map_Forall_insert_2; [|done]. split_and!; simpl; [apply NoDup_singleton|set_solver|done].
    + by rewrite lookup_insert_eq.
Qed.

(** A request for a key somebody holds. *)
Lemma acquire_held m key ks r lease now out st m' out' :
  wf m → r ≠ kFree → keys_ m !! key = Some ks → Acquire m key r lease now out = (st, m', out') →
  spec_acquire (max_keys_ m) (max_waiters_per_key_ m) (abs m) key r = (st, abs m') ∧ wf m' ∧
  out' = out ++ acquire_reply st m' key r.
Proof.
  intros Hwf Hr Hk HA. pose proof (proj1 Hwf _ _ Hk) as Hwk. pose proof Hwk as (Hnd & Hf & Hl).
  pose proof Hwf as (_ & _ & Hmw).
  unfold Acquire, GetOrCreateKey in HA. unfold spec_acquire.
  rewrite Hk in HA. rewrite abs_lookup, Hk. simpl in *. rewrite length_fmap.
  destruct (Z.eqb_spec (holder_id ks) kFree) as [E|_]; [set_solver|].
  destruct (Z.eqb_spec (holder_id ks) r) as [Hh|Hh]; simplify_eq.
  { rewrite bool_decide_eq_true_2 by done. simpl. rewrite lookup_insert_eq.
    rewrite (abs_insert_same _ _ ks) by done. split_and!; [done|by apply (wf_insert _ _ ks)|done]. }
  rewrite bool_decide_eq_false_2 by congruence.
  set (lease' := if lease =? 0 then _ else _) in *.
  destruct (bool_decide (max_waiters_per_key_ m < Z.of_nat (S (length (waiters ks))))) eqn:Hfull.
  - assert ((st, m', out') = (kContention, exception_cb m hcop.kLockContention key,
              out ++ [MakeDeny r key (holder_id ks)])) as Heq.
    { rewrite <- HA. apply bool_decide_eq_true in Hfull.
      rewrite (bool_decide_eq_true_2 (_ ≤ _)) by lia. by case_match. }
    simplify_eq. rewrite abs_exception_cb. split_and!; [done|by apply lock_exception_cb_wf|].
    simpl. by rewrite exception_cb_keys, Hk.
  - apply bool_decide_eq_false in Hfull.
    rewrite (bool_decide_eq_false_2 (_ ≤ _)), existsb_waiters in HA by lia.
    destruct (Z.eqb_spec (max_waiters_per_key_ m) 0); [lia|].
    rewrite (bool_decide_ext (r ∈ queue ks) (r ∈ w_requester_id <$> waiters ks))
      by (unfold queue; set_solver).
    case_bool_decide as Hin; simplify_eq; [split_and!; [done..|]; simpl; by rewrite Hk|].
    simpl. rewrite lookup_insert_eq, abs_insert. split_and!; [| |done].
    + unfold queue; simpl. by rewrite fmap_app.
    + apply (wf_insert _ _ ks); [done| |done]. unfold wf_key, queue in *. simpl.
      rewrite fmap_app. simpl.
      split_and!; [|set_solver|rewrite length_app; simpl; lia].
      rewrite app_comm_cons. apply NoDup_app. split_and!; [done| |apply NoDup_singleton]. set_solver.
Qed.

Lemma acquire_step m key r lease now out st m' out' :
  wf m → r ≠ kFree → Acquire m key r lease now out = (st, m', out') →
  spec_acquire (max_keys_ m) (max_waiters_per_key_ m) (abs m) key r = (st, abs m') ∧ wf m' ∧
  out' = out ++ acquire_reply st m' key r.
Proof.
  intros. destruct (keys_ m !! key) eqn:Hk; [by eapply acquire_held|by eapply acquire_fresh].
Qed.

(** C40: every [Acquire] (with a requester id other than 255) is one step of the abstract
    FIFO lock: granted when the key is free or already held by the requester, refused for
    capacity, contention or as a duplicate, otherwise queued last; the reply sent is the
    one the outcome calls for, and the invariant is kept. *)
Theorem acquire_refines m key r lease now out st m' out' :
  wf m → r ≠ kFree → Acquire m key r lease now out = (st, m', out') →
  spec_acquire (max_keys_ m) (max_waiters_per_key_ m) (abs m) key r = (st, abs m') ∧ wf m' ∧
  out' = out ++ acquire_reply st m' key r.
Proof. apply acquire_step. Qed.

Lemma acquire_refines_witness :
  let m := (Acquire (new_LockManager 10 1000 2) 42 3 0 5 []).1.2 in
  let res := Acquire m 42 4 0 9 [] in
  spec_acquire 10 2 (abs m) 42 4 = (res.1.1, abs res.1.2) ∧ wf res.1.2 ∧
  res.2 = [] ++ acquire_reply res.1.1 res.1.2 42 4.
Proof.
  apply (acquire_refines (Acquire (new_LockManager 10 1000 2) 42 3 0 5 []).1.2 42 4 0 9);
    [|done|vm_compute; done].
  apply (acquire_step (new_LockManager 10 1000 2) 42 3 0 5 [] kGranted _
           (Acquire (new_LockManager 10 1000 2) 42 3 0 5 []).2);
    [by apply lock_wf_new|done|vm_compute; done].
Defined.

Lemma release_step m key r now out st m' out' :
  wf m → Release m key r now out = (st, m', out') →
  spec_release (abs m) key r = (st, abs m') ∧ wf m' ∧
  out' = out ++ (match keys_ m !! key with
                 | Some ks => if bool_decide (st = kOk) then regrant_out now key ks else []
                 | None => [] end).
Proof.
  intros Hwf HR. unfold Release in HR. unfold spec_release. rewrite abs_lookup.
  destruct (keys_ m !! key) as [ks|] eqn:Hk; simpl; [|simplify_eq; by rewrite app_nil_r].
  rewrite free_and_regrant_eq in HR.
  destruct (Z.eqb_spec (holder_id ks) r) as [Hh|Hh]; simplify_eq/=.
  - rewrite bool_decide_eq_true_2 by done. rewrite abs_free by done. auto using wf_free.
  - rewrite bool_decide_eq_false_2 by congruence. by rewrite app_nil_r.
Qed.

(** every [Release] is one step of the abstract FIFO lock: refused unless the requester
    is the head of the queue, otherwise the head is removed and the next waiter, if any, is
    the one that is sent a GRANT. *)
Theorem release_refines m key r now out st m' out' :
  wf m → Release m key r now out = (st, m', out') →
  spec_release (abs m) key r = (st, abs m') ∧ wf m' ∧
  out' = out ++ (match keys_ m !! key with
                 | Some ks => if bool_decide (st = kOk) then regrant_out now key ks else []
                 | None => [] end).
Proof. apply release_step. Qed.

Lemma release_refines_witness :
  let m := (Acquire (new_LockManager 10 1000 2) 42 3 0 5 []).1.2 in
  let res := Release m 42 3 9 [] in
  spec_release (abs m) 42 3 = (res.1.1, abs res.1.2) ∧ wf res.1.2 ∧
  res.2 = [] ++ (match keys_ m !! 42 with
                 | Some ks => if bool_decide (res.1.1 = kOk) then regrant_out 9 42 ks else []
                 | None => [] end).
Proof.
  apply (release_refines (Acquire (new_LockManager 10 1000 2) 42 3 0 5 []).1.2 42 3 9);
    [|vm_compute; done].
  apply (acquire_step (new_LockManager 10 1000 2) 42 3 0 5 [] kGranted _
           (Acquire (new_LockManager 10 1000 2) 42 3 0 5 []).2);
    [by apply lock_wf_new|done|vm_compute; done].
Defined.

(** ** Timeouts *)

(** What a timeout check at [now] leaves of a key, and what it sends for it. *)
Definition timeout_key (now : Z) (ks : KeyState) : option KeyState :=
  if lease_expired now ks then regrant now ks else Some ks.

Definition timeout_out (now : Z) (m : LockManager) (key : Z) : list OutMessage :=
  match keys_ m !! key with
  | Some ks => MakeTimeout (holder_id ks) key :: regrant_out now key ks
  | None => []
  end.

Lemma key_expired_Some m now key :
  key_expired m now key = true →
  ∃ ks, keys_ m !! key = Some ks ∧ lease_expired now ks = true ∧ (holder_id ks =? kFree) = false.
Proof.
  unfold key_expired, lease_expired. destruct (keys_ m !! key) as [ks|]; [|done].
  destruct (holder_id ks =? kFree) eqn:?; [done|]. intros ?. exists ks. by rewrite Heqb.
Qed.

Lemma expire_step now e m out key ks :
  keys_ m !! key = Some ks → (holder_id ks =? kFree) = false → wf m →
  ∃ m', expire_key now (e, m, out) key = (u32 (e + 1), m', out ++ timeout_out now m key) ∧
        keys_ m' = partial_alter (λ _, regrant now ks) key (keys_ m) ∧ wf m' ∧
        max_keys_ m' = max_keys_ m ∧ max_waiters_per_key_ m' = max_waiters_per_key_ m.
Proof.
  intros Hk Hf Hwf. unfold expire_key, timeout_out. rewrite Hk, Hf, free_and_regrant_eq.
  rewrite <- app_assoc. eexists. split; [done|]. rewrite exception_cb_keys.
  destruct (exception_cb_bounds m hcop.kLockTimeoutCheck key) as [Hb1 Hb2].
  split_and!; [done| |done|done].
  rewrite <- (exception_cb_keys m hcop.kLockTimeoutCheck key) at 1.
  apply wf_free; [by rewrite exception_cb_keys|by apply lock_exception_cb_wf].
Qed.

Lemma expire_all now l : ∀ e m out,
  NoDup l → Forall (λ k, key_expired m now k = true) l → wf m → e ∈u 32 →
  ∃ m', foldl (expire_key now) (e, m, out) l =
          (u32 (e + Z.of_nat (length l)), m', out ++ concat (timeout_out now m <$> l)) ∧
        (∀ k, keys_ m' !! k = if decide (k ∈ l) then keys_ m !! k ≫= regrant now else keys_ m !! k) ∧
        wf m'.
Proof.
  induction l as [|key l IH]; intros e m out Hnd Hall Hwf He.
  { exists m. simpl. rewrite Z.add_0_r, app_nil_r, wrap_id by done. done. }
  apply NoDup_cons in Hnd as [Hn Hnd]. apply Forall_cons in Hall as [Hkey Hall].
  apply key_expired_Some in Hkey as (ks & Hk & Hexp & Hf).
  destruct (expire_step now e m out key ks Hk Hf Hwf) as (m1 & HE & Hk1 & Hwf1 & _ & _).
  assert (∀ k, k ≠ key → keys_ m1 !! k = keys_ m !! k) as Hsame.
  { intros. by rewrite Hk1, lookup_partial_alter_ne. }
  cbn [foldl]. rewrite HE.
  destruct (IH (u32 (e + 1)) m1 (out ++ timeout_out now m key)) as (m' & HF & Hk' & Hwf'); auto.
  { rewrite Forall_forall in Hall |- *. intros k Hin. unfold key_expired.
    rewrite Hsame by set_solver. by apply Hall. }
  { apply wrap_fits. lia. }
  exists m'. split_and!; [|intros k; rewrite Hk'|done].
  - rewrite HF. f_equal; [f_equal|].
    + unfold wrap. rewrite Z.add_mod_idemp_l by lia. f_equal. simpl. lia.
    + simpl. rewrite <- app_assoc. do 3 f_equal. apply list_fmap_ext. intros i k Hi.
      unfold timeout_out. rewrite Hsame; [done|]. apply list_elem_of_lookup_2 in Hi. set_solver.
  - destruct (decide (k = key)) as [->|Hne].
    + rewrite decide_False, decide_True by set_solver. by rewrite Hk1, lookup_partial_alter_eq, Hk.
    + rewrite Hsame by done. destruct (decide (k ∈ l)), (decide (k ∈ key :: l)); set_solver.
Qed.

Lemma check_timeouts_step m now out order :
  wf m → order ≡ₚ elements (dom (keys_ m)) →
  ∃ m', CheckTimeouts order m now out =
          (u32 (Z.of_nat (size (filter (λ p, lease_expired now p.2 = true) (keys_ m)))), m',
           out ++ concat (timeout_out now m <$> filter (λ k, key_expired m now k = true) order)) ∧
        keys_ m' = omap (timeout_key now) (keys_ m) ∧ wf m'.
Proof.
  intros Hwf Hord. unfold CheckTimeouts.
  destruct (expire_all now (filter (λ k, key_expired m now k = true) order) 0 m out)
    as (m' & HF & Hk & Hwf'); [| |done|unfold fits; lia|].
  { apply NoDup_filter. rewrite Hord. apply NoDup_elements. }
  { apply Forall_forall. intros k Hin. by apply list_elem_of_filter in Hin as [? _]. }
  exists m'. split_and!; [|apply map_eq; intros k; rewrite Hk, lookup_omap|done].
  - rewrite HF. do 3 f_equal. rewrite Z.add_0_l. f_equal.
    rewrite <- size_dom, <- (size_list_to_set (C := gset Z)).
    + f_equal. apply set_eq. intros k. rewrite elem_of_list_to_set, list_elem_of_filter, elem_of_dom.
      rewrite Hord, elem_of_elements, elem_of_dom. unfold key_expired, is_Some.
      setoid_rewrite map_lookup_filter_Some. simpl.
      destruct (keys_ m !! k) as [ks|]; naive_solver.
    + apply NoDup_filter. rewrite Hord. apply NoDup_elements.
  - unfold timeout_key. destruct (keys_ m !! k) as [ks|] eqn:Hks; simpl; [|by case_decide].
    rewrite (decide_ext _ (lease_expired now ks = true)); [by case_decide; case_match|].
    rewrite list_elem_of_filter, Hord, elem_of_elements, elem_of_dom. unfold key_expired.
    rewrite Hks. naive_solver.
Qed.

(** [CheckTimeouts], whatever order the hash table is walked in: every key whose lease
    has expired is handed to its first waiter (with a fresh lease) or dropped when nobody
    waits, every other key is left alone, the result is the number of expired keys, and for
    each of them a TIMEOUT to the old holder is followed by a GRANT to the new one. *)
Theorem check_timeouts_spec m now out order :
  wf m → order ≡ₚ elements (dom (keys_ m)) →
  ∃ m', CheckTimeouts order m now out =
          (u32 (Z.of_nat (size (filter (λ p, lease_expired now p.2 = true) (keys_ m)))), m',
           out ++ concat (timeout_out now m <$> filter (λ k, key_expired m now k = true) order)) ∧
        keys_ m' = omap (timeout_key now) (keys_ m) ∧ wf m'.
Proof. apply check_timeouts_step. Qed.

Lemma check_timeouts_spec_witness :
  let m := (Acquire (new_LockManager 10 1000 2) 42 3 0 5 []).1.2 in
  ∃ m', CheckTimeouts [42] m 2000 [] =
          (u32 (Z.of_nat (size (filter (λ p, lease_expired 2000 p.2 = true) (keys_ m)))), m',
           [] ++ concat (timeout_out 2000 m <$> filter (λ k, key_expired m 2000 k = true) [42])) ∧
        keys_ m' = omap (timeout_key 2000) (keys_ m) ∧ wf m'.
Proof.
  apply check_timeouts_spec; [|by vm_compute].
  apply (acquire_step (new_LockManager 10 1000 2) 42 3 0 5 [] kGranted _
           (Acquire (new_LockManager 10 1000 2) 42 3 0 5 []).2);
    [by apply lock_wf_new|done|vm_compute; done].
Defined.

End lock.
