(* ===== verification/LockSafety.v ===== *)
(** * Mutual exclusion of the lock manager over whole executions

    Executions of [LockManager] (LockState.v) as a step relation: any sequence of
    acquisitions, releases and timeout checks.  The theorems are about the messages the
    clients see: between a GRANT to one client and a GRANT of the same key to another,
    the first one released the key or was sent a TIMEOUT for it. *)

From S2P Require Import Prelude.
From S2P Require Import HcopProto.
From S2P Require Import LockState.

Module lock_safety.
Import lock.

(** ** Steps *)

Inductive op :=
| OpAcquire (key r lease now : Z)
| OpRelease (key r now : Z)
| OpTimeouts (now : Z).

Inductive step (m : LockManager) : op → list OutMessage → LockManager → Prop :=
| step_acquire key r lease now st m' out :
    key ∈u 64 → r ∈u 8 → r ≠ kFree → Acquire m key r lease now [] = (st, m', out) →
    step m (OpAcquire key r lease now) out m'
| step_release key r now st m' out :
    Release m key r now [] = (st, m', out) → step m (OpRelease key r now) out m'
| step_timeouts order now n m' out :
    order ≡ₚ elements (dom (keys_ m)) → CheckTimeouts order m now [] = (n, m', out) →
    step m (OpTimeouts now) out m'.

Inductive exec : LockManager → list (op * list OutMessage) → LockManager → Prop :=
| exec_nil m : exec m [] m
| exec_cons m o out m1 tr m2 : step m o out m1 → exec m1 tr m2 → exec m ((o, out) :: tr) m2.

Definition holder (m : LockManager) (key : Z) : option Z := holder_id <$> keys_ m !! key.

(** Keys and clients are in range (what the wire format can carry). *)
Definition ranged (m : LockManager) : Prop :=
  map_Forall (λ key q, key ∈u 64 ∧ Forall (fits 8) q) (abs m).

Definition inv (m : LockManager) : Prop := wf m ∧ ranged m.

Lemma holder_abs m key : holder m key = abs m !! key ≫= head.
Proof. unfold holder. rewrite abs_lookup. by destruct (keys_ m !! key). Qed.

(** Every message tells the truth about the state it is sent from. *)
Inductive truthful (m : LockManager) : OutMessage → Prop :=
| truthful_grant r key e :
    key ∈u 64 → r ∈u 8 → holder m key = Some r → truthful m (MakeGrant r key e)
| truthful_deny r key h :
    key ∈u 64 → r ∈u 8 → holder m key = Some h → r ≠ h → truthful m (MakeDeny r key h)
| truthful_timeout r key : key ∈u 64 → r ∈u 8 → truthful m (MakeTimeout r key).

(** What one step does to the holders, and what it sends. *)
Definition step_ok (m : LockManager) (o : op) (out : list OutMessage) (m' : LockManager) : Prop :=
  inv m' ∧ Forall (truthful m') out ∧
  ∀ key a, holder m key = Some a → holder m' key = Some a ∨
           (∃ now, o = OpRelease key a now) ∨ MakeTimeout a key ∈ out.

Lemma ranged_pop m key q :
  ranged m → abs m !! key = Some q → ∀ q', pop_queue q = Some q' → key ∈u 64 ∧ Forall (fits 8) q'.
Proof.
  intros Hr Hq q' Hp. destruct (Hr _ _ Hq) as [? Hall]. split; [done|].
  unfold pop_queue in Hp. destruct q as [|x [|y q]]; simplify_eq/=. by inversion Hall.
Qed.

Lemma acquire_ok m key r lease now st m' out :
  inv m → key ∈u 64 → r ∈u 8 → r ≠ kFree → Acquire m key r lease now [] = (st, m', out) →
  step_ok m (OpAcquire key r lease now) out m'.
Proof.
  intros [Hwf Hr] Hkey Hr8 Hrf HA.
  destruct (acquire_step _ _ _ _ _ _ _ _ _ Hwf Hrf HA) as (Hspec & Hwf' & ->). clear HA.
  assert (ranged m' ∧ (∀ k a, holder m k = Some a → holder m' k = Some a) ∧
          (st = kGranted → holder m' key = Some r) ∧
          (st = kDenied ∨ st = kContention → ∀ h, holder m' key = Some h → r ≠ h))
    as (Hr' & Hkeep & Hgr & Hde).
  { unfold ranged in *. setoid_rewrite holder_abs. unfold spec_acquire in Hspec.
    destruct (abs m !! key) as [q|] eqn:Hq.
    - destruct (Hr _ _ Hq) as [_ Hall].
      assert (q ≠ []) as Hqne.
      { rewrite abs_lookup in Hq. apply fmap_Some in Hq as (ks & _ & ->). done. }
      repeat case_bool_decide; simplify_eq;
        repeat match goal with H : _ = abs m' |- _ => rewrite <- H in * end;
        rewrite ?Hq; simpl; split_and!; try (first [done | by intros [] | by intros ? ? ? -> | congruence]).
      + apply map_Forall_insert_2; [|done]. split; [done|]. by apply Forall_app_2, Forall_singleton.
      + intros k a. destruct (decide (k = key)) as [->|].
        * rewrite lookup_insert_eq, Hq. by destruct q.
        * by rewrite lookup_insert_ne.
      + intros _ h. rewrite lookup_insert_eq. destruct q; [done|]. naive_solver.
    - case_bool_decide; simplify_eq;
        repeat match goal with H : _ = abs m' |- _ => rewrite <- H in * end;
        rewrite ?Hq; split_and!; try (first [done | by intros [] | by intros ? ? ? -> | congruence]).
      + apply map_Forall_insert_2; [|done]. split; [done|]. by apply Forall_singleton.
      + intros k a. destruct (decide (k = key)) as [->|]; [by rewrite Hq|by rewrite lookup_insert_ne].
      + by rewrite lookup_insert_eq. }
  split_and!; [done..| |auto]. simpl. unfold acquire_reply.
  assert (holder m' key = holder_id <$> keys_ m' !! key) as Hh by done.
  destruct st, (keys_ m' !! key) as [ks|] eqn:Hk; simpl in *; auto.
  - apply Forall_singleton. apply truthful_grant; auto.
  - apply Forall_singleton. apply truthful_deny; auto.
  - apply Forall_singleton. apply truthful_deny; auto.
Qed.

Lemma regrant_holder now ks ks' w :
  regrant now ks = Some ks' → regrant_out now w ks = [MakeGrant (holder_id ks') w (lease_expiry_ns ks')].
Proof. unfold regrant, regrant_out. by destruct (waiters ks); intros; simplify_eq. Qed.

Lemma regrant_none now ks w : regrant now ks = None → regrant_out now w ks = [].
Proof. unfold regrant, regrant_out. by destruct (waiters ks). Qed.

(** The GRANT sent when a key changes hands goes to the new holder. *)
Lemma regrant_truthful m' now key ks :
  inv m' → keys_ m' !! key = regrant now ks → Forall (truthful m') (regrant_out now key ks).
Proof.
  intros [_ Hr] Hk. destruct (regrant now ks) as [ks'|] eqn:Hg.
  - rewrite (regrant_holder _ _ ks') by done. apply Forall_singleton.
    destruct (Hr key (queue ks')) as [? Hall]; [by rewrite abs_lookup, Hk|].
    apply truthful_grant; [done| |unfold holder; by rewrite Hk]. by inversion Hall.
  - by rewrite regrant_none.
Qed.

Lemma release_ok m key r now st m' out :
  inv m → Release m key r now [] = (st, m', out) → step_ok m (OpRelease key r now) out m'.
Proof.
  intros [Hwf Hr] HR. pose proof (release_step _ _ _ _ _ _ _ _ Hwf HR) as (Hspec & Hwf' & ->).
  unfold Release in HR. unfold spec_release in Hspec. rewrite abs_lookup in Hspec.
  destruct (keys_ m !! key) as [ks|] eqn:Hk; simpl in *; [|simplify_eq; split_and!; auto; done].
  case_bool_decide as Hh; simplify_eq.
  2: { destruct (Z.eqb_spec (holder_id ks) r); simplify_eq/=. split_and!; simpl; auto; done. }
  rewrite Z.eqb_refl in HR. simpl in HR. rewrite free_and_regrant_eq in HR. simplify_eq. set (m' := set_keys _ _) in *.
  assert (keys_ m' !! key = regrant now ks) as Hk' by (simpl; by rewrite lookup_partial_alter_eq).
  assert (inv m') as Hinv.
  { split; [done|]. unfold ranged, m'. rewrite abs_free by done. intros k q. destruct (decide (k = key)) as [->|].
    - rewrite lookup_partial_alter_eq. eapply ranged_pop; [done|by rewrite abs_lookup, Hk].
    - rewrite lookup_partial_alter_ne by done. apply Hr. }
  split_and!; [done|by apply regrant_truthful|].
  intros k a Ha. destruct (decide (k = key)) as [->|].
  - right; left. exists now. unfold holder in Ha. rewrite Hk in Ha. by simplify_eq/=.
  - left. unfold holder in *. simpl. by rewrite lookup_partial_alter_ne.
Qed.

Lemma timeouts_ok m order now n m' out :
  inv m → order ≡ₚ elements (dom (keys_ m)) → CheckTimeouts order m now [] = (n, m', out) →
  step_ok m (OpTimeouts now) out m'.
Proof.
  intros [Hwf Hr] Hord HC.
  destruct (check_timeouts_step m now [] order Hwf Hord) as (m2 & HC2 & Hk' & Hwf').
  rewrite HC2 in HC. simplify_eq/=. clear HC2.
  assert (inv m') as Hinv.
  { split; [done|]. intros key q. rewrite abs_lookup, Hk', lookup_omap.
    destruct (keys_ m !! key) as [ks|] eqn:Hk; [|done]. simpl. unfold timeout_key.
    assert (abs m !! key = Some (queue ks)) as Hq by (by rewrite abs_lookup, Hk).
    case_match; simpl; [|intros [= <-]; by apply (Hr key)].
    rewrite regrant_queue. by eapply ranged_pop. }
  split_and!; [done| |].
  - apply Forall_concat, Forall_fmap, Forall_forall. intros key [Hexp _]%list_elem_of_filter. simpl.
    apply key_expired_Some in Hexp as (ks & Hk & Hexp & _). unfold timeout_out. rewrite Hk.
    destruct (Hr key (queue ks)) as [? Hall]; [by rewrite abs_lookup, Hk|].
    constructor; [apply truthful_timeout; [done|by inversion Hall]|].
    apply regrant_truthful; [done|]. rewrite Hk', lookup_omap, Hk. simpl.
    unfold timeout_key. by rewrite Hexp.
  - intros key a Ha. unfold holder in *. destruct (keys_ m !! key) as [ks|] eqn:Hk; simplify_eq/=.
    rewrite Hk', lookup_omap, Hk. simpl. unfold timeout_key.
    destruct (lease_expired now ks) eqn:Hexp; [|by left]. right; right.
    apply list_elem_of_In, in_concat. exists (timeout_out now m key).
    rewrite <- !list_elem_of_In. split.
    + apply list_elem_of_fmap_2, list_elem_of_filter. split; [unfold key_expired; by rewrite Hk|].
      rewrite Hord, elem_of_elements, elem_of_dom. eauto.
    + unfold timeout_out. rewrite Hk. constructor.
Qed.

Lemma step_preserves m o out m' : inv m → step m o out m' → step_ok m o out m'.
Proof.
  intros Hinv Hs. inversion Hs; subst;
    [eapply acquire_ok|eapply release_ok|eapply timeouts_ok]; eauto.
Qed.

Lemma inv_new mk dl mw : 0 ≤ mk → 0 ≤ mw → inv (new_LockManager mk dl mw).
Proof.
  intros. split; [by apply lock_wf_new|]. unfold ranged, abs; simpl. rewrite fmap_empty.
  apply map_Forall_empty.
Qed.

Lemma exec_inv m tr m' : exec m tr m' → inv m → inv m'.
Proof. induction 1; [done|]. intros Hi. apply IHexec. by eapply step_preserves. Qed.

(** ** Reading the messages back *)

Lemma grant_hdr r key e :
  key ∈u 64 → r ∈u 8 →
  proto.decode_hdr (data (MakeGrant r key e)) = proto.MkHeader proto.kGrant r key.
Proof. intros. apply decode_encode_hdr. split_and!; simpl; [by vm_compute|done|done]. Qed.

Lemma deny_hdr r key h :
  key ∈u 64 → r ∈u 8 →
  proto.decode_hdr (data (MakeDeny r key h)) = proto.MkHeader proto.kDeny r key.
Proof. intros. apply decode_encode_hdr. split_and!; simpl; [by vm_compute|done|done]. Qed.

Lemma timeout_hdr r key :
  key ∈u 64 → r ∈u 8 →
  proto.decode_hdr (data (MakeTimeout r key)) = proto.MkHeader proto.kTimeout r key.
Proof.
  intros. unfold MakeTimeout; simpl. unfold proto.encode_Timeout.
  rewrite <- (app_nil_r (proto.encode_hdr _)).
  apply decode_encode_hdr. split_and!; simpl; [by vm_compute|done|done].
Qed.

(** [is_msg o ty r key]: a client reading [o] sees a message of type [ty] for it about [key]. *)
Definition is_msg (o : OutMessage) (ty r key : Z) : Prop :=
  proto.decode_hdr (data o) = proto.MkHeader ty r key.

Lemma truthful_is_grant m o r key :
  truthful m o → is_msg o proto.kGrant r key → holder m key = Some r.
Proof.
  unfold is_msg. intros Ht. destruct Ht.
  - rewrite grant_hdr by done. intros [= <- <-]. done.
  - rewrite deny_hdr by done. done.
  - rewrite timeout_hdr by done. done.
Qed.

(** The client [a] gives [key] up in a trace: it releases it or is told its lease is over. *)
Definition gives_up (a key : Z) (tr : list (op * list OutMessage)) : Prop :=
  ∃ o out, (o, out) ∈ tr ∧ ((∃ now, o = OpRelease key a now) ∨
                            ∃ msg, msg ∈ out ∧ is_msg msg proto.kTimeout a key).

Lemma holder_stable m tr m' a key :
  exec m tr m' → inv m → a ∈u 8 → key ∈u 64 → holder m key = Some a →
  ¬ gives_up a key tr → holder m' key = Some a.
Proof.
  induction 1 as [|m o out m1 tr m2 Hs He IH]; intros Hinv Ha Hkey Hh Hng; [done|].
  destruct (step_preserves _ _ _ _ Hinv Hs) as (Hinv1 & _ & Hkeep).
  apply IH; auto.
  - destruct (Hkeep key a Hh) as [?|[Hr|Hto]]; [done| |]; exfalso; apply Hng; exists o, out;
      (split; [constructor|]); [by left|right; eexists; split; [done|]]. by apply timeout_hdr.
  - intros (o' & out' & Hin & Hg). apply Hng. exists o', out'. split; [by constructor|done].
Qed.

(** C1: mutual exclusion as the clients see it. In any execution of the lock manager whose
    requesters have identifiers other than 255 (the value [kFree] that marks a free key), once a
    GRANT of [key] to client [a] has been sent, every later GRANT of [key] goes to [a] until [a]
    releases the key or a TIMEOUT for it is sent to [a]. (With requester 255 this is false, see
    [requester_255_not_exclusive].) *)
Theorem mutual_exclusion m o out m1 tr m2 a key :
  inv m → step m o out m1 → exec m1 tr m2 → a ∈u 8 → key ∈u 64 →
  (∃ msg, msg ∈ out ∧ is_msg msg proto.kGrant a key) → ¬ gives_up a key tr →
  ∀ o' out' msg b, (o', out') ∈ tr → msg ∈ out' → is_msg msg proto.kGrant b key → b = a.
Proof.
  intros Hinv Hs He Ha Hkey (msg0 & Hin0 & Hg0) Hng o' out' msg b Hin Hmsg Hgr.
  destruct (step_preserves _ _ _ _ Hinv Hs) as (Hinv1 & Ht & _). rewrite Forall_forall in Ht.
  assert (holder m1 key = Some a) as Hh by (by eapply truthful_is_grant; [apply Ht|]).
  clear Hs Ht Hinv Hin0. revert Hinv1 Hh Hng Hin.
  induction He as [|m1 o1 out1 m3 tr m2 Hs He IH]; intros Hinv Hh Hng Hin; [by apply elem_of_nil in Hin|].
  pose proof (step_preserves _ _ _ _ Hinv Hs) as (Hinv3 & Ht & _). rewrite Forall_forall in Ht.
  assert (holder m3 key = Some a) as Hh3.
  { eapply (holder_stable m1 [(o1, out1)]); eauto using exec.
    intros (? & ? & Hi%list_elem_of_singleton & ?). simplify_eq. apply Hng. do 2 eexists.
    split; [constructor|done]. }
  apply elem_of_cons in Hin as [Hin|Hin].
  - simplify_eq. eapply truthful_is_grant in Hgr; [|by apply Ht]. congruence.
  - apply IH; auto. intros (? & ? & ? & ?). apply Hng. do 2 eexists. split; [by constructor|done].
Qed.

(** From an empty manager every execution keeps the invariant: tracked keys are held,
    nobody waits twice or for a lock it holds, queues and the key table stay within their
    bounds, and no step ever forges a message about the state it leaves. *)
Theorem lock_manager_invariant mk dl mw tr m o out m' :
  0 ≤ mk → 0 ≤ mw → exec (new_LockManager mk dl mw) tr m → step m o out m' →
  wf m' ∧ Forall (truthful m') out.
Proof.
  intros Hmk Hmw He Hs. pose proof (exec_inv _ _ _ He (inv_new mk dl mw Hmk Hmw)) as Hinv.
  destruct (step_preserves _ _ _ _ Hinv Hs) as ([? _] & ? & _). done.
Qed.

(** ** Witnesses: two clients contend for key 42 *)

Definition demo0 : LockManager := new_LockManager 10 1000 2.
Definition demo1 : LockManager := (Acquire demo0 42 3 0 5 []).1.2.
Definition demo2 : LockManager := (Acquire demo1 42 4 0 6 []).1.2.

Lemma demo_step1 : step demo0 (OpAcquire 42 3 0 5) [MakeGrant 3 42 1005] demo1.
Proof. eapply step_acquire; [by vm_compute..|]. by vm_compute. Qed.

Lemma demo_step2 : step demo1 (OpAcquire 42 4 0 6) [MakeDeny 4 42 3] demo2.
Proof. eapply step_acquire; [by vm_compute..|]. by vm_compute. Qed.

Lemma mutual_exclusion_witness :
  step demo0 (OpAcquire 42 3 0 5) [MakeGrant 3 42 1005] demo1 ∧
  ∀ o' out' msg b, (o', out') ∈ [(OpAcquire 42 4 0 6, [MakeDeny 4 42 3])] → msg ∈ out' →
    is_msg msg proto.kGrant b 42 → b = 3.
Proof.
  split; [apply demo_step1|].
  apply (mutual_exclusion demo0 (OpAcquire 42 3 0 5) [MakeGrant 3 42 1005] demo1
           [(OpAcquire 42 4 0 6, [MakeDeny 4 42 3])] demo2).
  - apply inv_new; lia.
  - apply demo_step1.
  - eapply exec_cons; [apply demo_step2|constructor].
  - by vm_compute.
  - by vm_compute.
  - eexists. split; [constructor|by vm_compute].
  - intros (o & out & Hin%list_elem_of_singleton & [[now ->]|(msg & Hm & Hi)]); simplify_eq.
    apply list_elem_of_singleton in Hm as ->. by vm_compute in Hi.
Defined.

Lemma lock_manager_invariant_witness : wf demo2 ∧ Forall (truthful demo2) [MakeDeny 4 42 3].
Proof.
  apply (lock_manager_invariant 10 1000 2 [(OpAcquire 42 3 0 5, [MakeGrant 3 42 1005])] demo1
           (OpAcquire 42 4 0 6)); [lia|lia| |apply demo_step2].
  eapply exec_cons; [apply demo_step1|constructor].
Defined.

(** ** First come, first served *)

Definition release_by (now key : Z) (acc : LockManager * list OutMessage) (r : Z) :
    LockManager * list OutMessage :=
  let '(_, m, out) := Release acc.1 key r now acc.2 in (m, out).

Lemma release_by_holder m key ks now out :
  keys_ m !! key = Some ks →
  release_by now key (m, out) (holder_id ks) =
  (set_keys m (partial_alter (λ _, regrant now ks) key (keys_ m)), out ++ regrant_out now key ks).
Proof.
  intros Hk. unfold release_by, Release; simpl. by rewrite Hk, Z.eqb_refl, free_and_regrant_eq.
Qed.

(** C39: if the holder and then each waiter in turn releases the key, the waiters are granted
    the lock in the order in which they queued, each with the lease it asked for, and the
    key is forgotten at the end. *)
Theorem fifo_service m key ks now out :
  keys_ m !! key = Some ks →
  ∃ m', foldl (release_by now key) (m, out) (queue ks) =
          (m', out ++ ((λ w, MakeGrant (w_requester_id w) key (u64 (now + w_lease_duration_ns w)))
                         <$> waiters ks)) ∧
        keys_ m' = delete key (keys_ m).
Proof.
  remember (waiters ks) as ws eqn:Hws. revert m ks out Hws.
  induction ws as [|w ws IH]; intros m ks out Hws Hk; unfold queue; rewrite <- Hws.
  all: cbn [foldl fmap list_fmap]; rewrite release_by_holder by done.
  all: unfold regrant, regrant_out; rewrite <- Hws.
  - eexists. split; done.
  - set (ks1 := MkKey (w_requester_id w) (u64 (now + w_lease_duration_ns w)) ws).
    destruct (IH (set_keys m (<[key := ks1]> (keys_ m))) ks1
                (out ++ [MakeGrant (w_requester_id w) key (u64 (now + w_lease_duration_ns w))]))
      as (m' & HF & Hd); [done|simpl; by rewrite lookup_insert_eq|].
    exists m'. unfold queue in HF. simpl in HF. split.
    + etrans; [exact HF|]. by rewrite <- app_assoc.
    + rewrite Hd. simpl. by rewrite delete_insert_eq.
Qed.

Lemma fifo_service_witness :
  ∃ m', foldl (release_by 9 42) (demo2, []) [3; 4] = (m', [] ++ [MakeGrant 4 42 1009]) ∧
        keys_ m' = delete 42 (keys_ demo2).
Proof. apply (fifo_service demo2 42 (MkKey 3 1005 [MkWaiting 4 1000])). by vm_compute. Defined.

(** Client id 255 is the encoding of "free": after a GRANT to it the key still counts as
    free and is granted to any other client as well, whatever the lease. *)
Theorem requester_255_not_exclusive m key r lease now st m1 out1 :
  keys_ m !! key = None → Z.of_nat (size (keys_ m)) < max_keys_ m →
  Acquire m key kFree lease now [] = (st, m1, out1) →
  st = kGranted ∧ (Acquire m1 key r lease now []).1.1 = kGranted.
Proof.
  intros Hk Hcap. unfold Acquire, GetOrCreateKey. rewrite Hk.
  rewrite bool_decide_eq_false_2 by lia. simpl. intros [= <- <- <-]. simpl.
  by rewrite !lookup_insert_eq.
Qed.

Lemma requester_255_not_exclusive_witness :
  kGranted = kGranted ∧ (Acquire (Acquire demo0 7 kFree 0 0 []).1.2 7 1 0 0 []).1.1 = kGranted.
Proof.
  apply (requester_255_not_exclusive demo0 7 1 0 0 kGranted _ (Acquire demo0 7 kFree 0 0 []).2);
    by vm_compute.
Defined.

(** ** The wire interface *)

Lemma dispatch_Acquire m now out key r lease rest :
  key ∈u 64 → r ∈u 8 → lease ∈u 64 →
  HandleMessage m (proto.encode_Acquire
    (proto.MkAcquire (proto.MkHeader proto.kAcquire r key) lease) ++ rest) now out
  = Acquire m key r lease now out.
Proof.
  intros ???. unfold HandleMessage.
  rewrite (proj2 (Nat.ltb_ge _ _)), (proj2 (Nat.leb_le _ _))
    by (unfold proto.encode_Acquire; rewrite !length_app, length_encode_lock_hdr, length_le;
        unfold proto.sizeof_LockMsgHeader, proto.sizeof_AcquireMsg; lia).
  rewrite decode_encode_Acquire by (first [done | split_and!; simpl; first [done | by vm_compute]]).
  unfold proto.encode_Acquire. rewrite <- app_assoc, decode_encode_hdr by (first [done | split_and!; simpl; first [done | by vm_compute]]).
  done.
Qed.

(** An ACQUIRE or RELEASE message built from in-range fields, with any trailing bytes, is
    handled as the operation it encodes; a message shorter than its struct or of another
    type is rejected and changes nothing. *)
Theorem handle_message_dispatch m now out :
  (∀ key r lease rest, key ∈u 64 → r ∈u 8 → lease ∈u 64 →
     HandleMessage m (proto.encode_Acquire
       (proto.MkAcquire (proto.MkHeader proto.kAcquire r key) lease) ++ rest) now out
     = Acquire m key r lease now out) ∧
  (∀ key r rest, key ∈u 64 → r ∈u 8 →
     HandleMessage m (proto.encode_Release
       (proto.MkRelease (proto.MkHeader proto.kRelease r key)) ++ rest) now out
     = Release m key r now out) ∧
  (∀ d, (length d < 12)%nat ∨ (field d 0 1 ≠ proto.kAcquire ∧ field d 0 1 ≠ proto.kRelease) ∨
        (field d 0 1 = proto.kAcquire ∧ (length d < 20)%nat) →
     HandleMessage m d now out = (kInvalidMessage, m, out)).
Proof.
  split_and!.
  - intros. by apply dispatch_Acquire.
  - intros key r rest ??. unfold HandleMessage.
    rewrite (proj2 (Nat.ltb_ge _ _)), (proj2 (Nat.leb_le proto.sizeof_ReleaseMsg _))
      by (unfold proto.encode_Release; rewrite !length_app, length_encode_lock_hdr;
          unfold proto.sizeof_LockMsgHeader, proto.sizeof_ReleaseMsg; lia).
    rewrite decode_encode_Release by (first [done | split_and!; simpl; first [done | by vm_compute]]).
    unfold proto.encode_Release. by rewrite decode_encode_hdr by (first [done | split_and!; simpl; first [done | by vm_compute]]).
  - intros d Hd. unfold HandleMessage, proto.sizeof_LockMsgHeader, proto.sizeof_AcquireMsg.
    destruct (Nat.ltb_spec (length d) 12) as [|Hlen]; [done|].
    change (proto.msg_type (proto.decode_hdr d)) with (field d 0 1).
    destruct (Z.eqb_spec (field d 0 1) proto.kAcquire) as [Ha|Ha].
    + destruct (Nat.leb_spec 20 (length d)); [|done]. exfalso. destruct Hd as [?|[[??]|[??]]]; done || lia.
    + destruct (Z.eqb_spec (field d 0 1) proto.kRelease); [|done].
      exfalso. destruct Hd as [?|[[??]|[??]]]; done || lia.
Qed.

End lock_safety.
