(* ===== verification/PaxosState.v ===== *)
(** * Paxos state machine (lib/hcop/paxos_state.{h,cc}, paxos_proto.h)

    One replica: the acceptor state per instance, the proposer state of the instances it
    drives, and the handlers for the six message types.  A handler that reads past the end
    of the message it was given, or writes past the end of an array, has no defined
    behaviour in C++: it returns [None].  Otherwise it returns the status, the new state of
    the node and the outbound messages. *)

From S2P Require Import Prelude.
From S2P Require Import HcopProto.

Module paxos.

(** ** Wire format: paxos_proto.h *)

Definition kMaxValueSize : Z := 128.

Definition kPrepare : Z := 1.
Definition kPromise : Z := 2.
Definition kAccept : Z := 3.
Definition kAccepted : Z := 4.
Definition kLearn : Z := 5.
Definition kNack : Z := 6.

Record ProposalNum := MkProposal {
  round : Z;      (* uint32_t *)
  pn_node : Z;    (* uint16_t node_id *)
  pn_pad : Z;     (* uint16_t _pad *)
}.

Definition null_proposal : ProposalNum := MkProposal 0 0 0.

(** [operator<], [operator==] and [IsNull]; the other comparisons are defined from them. *)
Definition pn_ltb (a b : ProposalNum) : bool :=
  (round a <? round b) || ((round a =? round b) && (pn_node a <? pn_node b)).
Definition pn_gtb (a b : ProposalNum) : bool := pn_ltb b a.
Definition pn_geb (a b : ProposalNum) : bool := negb (pn_ltb a b).
Definition pn_eqb (a b : ProposalNum) : bool :=
  (round a =? round b) && (pn_node a =? pn_node b).
Definition IsNull (a : ProposalNum) : bool := (round a =? 0) && (pn_node a =? 0).

Record PaxosMsgHeader := MkHeader {
  msg_type : Z;       (* uint8_t *)
  sender_id : Z;      (* uint8_t *)
  num_replicas : Z;   (* uint16_t *)
  instance_id : Z;    (* uint32_t *)
}.

(** In a received message the value array is what the buffer really holds of it: a message
    may be shorter than its struct. *)
Record PrepareMsg := MkPrepareMsg { prep_hdr : PaxosMsgHeader; prep_proposal : ProposalNum }.
Record PromiseMsg := MkPromiseMsg {
  prom_hdr : PaxosMsgHeader; promised : ProposalNum; prom_accepted : ProposalNum;
  prom_value_len : Z; prom_value : bytes }.
Record AcceptMsg := MkAcceptMsg {
  acc_hdr : PaxosMsgHeader; acc_proposal : ProposalNum; acc_value_len : Z; acc_value : bytes }.
Record LearnMsg := MkLearnMsg {
  learn_hdr : PaxosMsgHeader; learn_value_len : Z; learn_value : bytes }.
Record NackMsg := MkNackMsg { nack_hdr : PaxosMsgHeader; highest_seen : ProposalNum }.

(** [AcceptedMsg] has the layout of [AcceptMsg]. *)
Abbreviation AcceptedMsg := AcceptMsg (only parsing).

Definition sizeof_PaxosMsgHeader : nat := 8.
Definition sizeof_PrepareMsg : nat := 16.
Definition sizeof_PromiseMsg : nat := 154.
Definition sizeof_AcceptMsg : nat := 146.
Definition sizeof_LearnMsg : nat := 138.
Definition sizeof_NackMsg : nat := 16.

Definition encode_pn (p : ProposalNum) : bytes := le 4 (round p) ++ le 2 (pn_node p) ++ le 2 (pn_pad p).
Definition encode_hdr (h : PaxosMsgHeader) : bytes :=
  le 1 (msg_type h) ++ le 1 (sender_id h) ++ le 2 (num_replicas h) ++ le 4 (instance_id h).
Definition encode_Prepare (m : PrepareMsg) : bytes := encode_hdr (prep_hdr m) ++ encode_pn (prep_proposal m).
Definition encode_Promise (m : PromiseMsg) : bytes :=
  encode_hdr (prom_hdr m) ++ encode_pn (promised m) ++ encode_pn (prom_accepted m) ++
  le 2 (prom_value_len m) ++ prom_value m.
Definition encode_Accept (m : AcceptMsg) : bytes :=
  encode_hdr (acc_hdr m) ++ encode_pn (acc_proposal m) ++ le 2 (acc_value_len m) ++ acc_value m.
Definition encode_Learn (m : LearnMsg) : bytes :=
  encode_hdr (learn_hdr m) ++ le 2 (learn_value_len m) ++ learn_value m.
Definition encode_Nack (m : NackMsg) : bytes := encode_hdr (nack_hdr m) ++ encode_pn (highest_seen m).

Definition decode_pn (d : bytes) (off : nat) : ProposalNum :=
  MkProposal (field d off 4) (field d (off + 4) 2) (field d (off + 6) 2).
Definition decode_hdr (d : bytes) : PaxosMsgHeader :=
  MkHeader (field d 0 1) (field d 1 1) (field d 2 2) (field d 4 4).
Definition decode_Prepare (d : bytes) : PrepareMsg := MkPrepareMsg (decode_hdr d) (decode_pn d 8).
Definition decode_Promise (d : bytes) : PromiseMsg :=
  MkPromiseMsg (decode_hdr d) (decode_pn d 8) (decode_pn d 16) (field d 24 2) (slice d 26 128).
Definition decode_Accept (d : bytes) : AcceptMsg :=
  MkAcceptMsg (decode_hdr d) (decode_pn d 8) (field d 16 2) (slice d 18 128).
Definition decode_Learn (d : bytes) : LearnMsg :=
  MkLearnMsg (decode_hdr d) (field d 8 2) (slice d 10 128).
Definition decode_Nack (d : bytes) : NackMsg := MkNackMsg (decode_hdr d) (decode_pn d 8).

(** ** State and results: paxos_state.h *)

Inductive PaxosStatus := kOk | kInstanceOverflow | kAlreadyCommitted | kValueTooLarge | kInvalidMessage.

#[global] Instance PaxosStatus_eq_dec : EqDecision PaxosStatus.
Proof. solve_decision. Defined.

Definition zeros : bytes := replicate 128 0.

Record InstanceState := MkInstance {
  highest_promised : ProposalNum;
  accepted_proposal : ProposalNum;
  accepted_value_len : Z;       (* uint16_t *)
  accepted_value : bytes;       (* uint8_t[kMaxValueSize] *)
  is_committed : bool;
  committed_value_len : Z;      (* uint16_t *)
  committed_value : bytes;      (* uint8_t[kMaxValueSize] *)
}.

Definition new_instance : InstanceState :=
  MkInstance null_proposal null_proposal 0 zeros false 0 zeros.

Record ProposerInstanceState := MkProposer {
  proposal : ProposalNum;
  value_len : Z;                              (* uint16_t *)
  value : bytes;                              (* uint8_t[kMaxValueSize] *)
  promise_count : Z;                          (* uint16_t *)
  highest_accepted_in_promises : ProposalNum;
  highest_accepted_value_len : Z;             (* uint16_t *)
  highest_accepted_value : bytes;             (* uint8_t[kMaxValueSize] *)
  accepted_count : Z;                         (* uint16_t *)
  committed : bool;
}.

Definition new_proposer : ProposerInstanceState :=
  MkProposer null_proposal 0 zeros 0 null_proposal 0 zeros 0 false.

Record OutMessage := MkOut { dest_id : Z; data : bytes }.

Definition kBroadcast : Z := 255.

Record PaxosNode := MkNode {
  node_id_ : Z;            (* uint8_t *)
  num_replicas_ : Z;       (* uint16_t *)
  quorum_ : Z;             (* uint16_t *)
  leader_id_ : Z;          (* uint8_t *)
  current_round_ : Z;      (* uint32_t *)
  max_instances_ : Z;      (* uint32_t *)
  instances_ : gmap Z InstanceState;
  proposer_state_ : gmap Z ProposerInstanceState;
  has_exception_cb_ : bool;     (* is exception_cb_ non-empty? *)
  exceptions : list (Z * Z);    (* calls made to exception_cb_, oldest first *)
}.

Definition set_round (n : PaxosNode) (r : Z) : PaxosNode :=
  MkNode (node_id_ n) (num_replicas_ n) (quorum_ n) (leader_id_ n) r (max_instances_ n)
         (instances_ n) (proposer_state_ n) (has_exception_cb_ n) (exceptions n).
Definition set_instances (n : PaxosNode) (i : gmap Z InstanceState) : PaxosNode :=
  MkNode (node_id_ n) (num_replicas_ n) (quorum_ n) (leader_id_ n) (current_round_ n)
         (max_instances_ n) i (proposer_state_ n) (has_exception_cb_ n) (exceptions n).
Definition set_proposers (n : PaxosNode) (p : gmap Z ProposerInstanceState) : PaxosNode :=
  MkNode (node_id_ n) (num_replicas_ n) (quorum_ n) (leader_id_ n) (current_round_ n)
         (max_instances_ n) (instances_ n) p (has_exception_cb_ n) (exceptions n).
Definition SetLeader (n : PaxosNode) (l : Z) : PaxosNode :=
  MkNode (node_id_ n) (num_replicas_ n) (quorum_ n) l (current_round_ n)
         (max_instances_ n) (instances_ n) (proposer_state_ n) (has_exception_cb_ n) (exceptions n).

(** [if (exception_cb_) exception_cb_(ty, id);] *)
Definition exception_cb (n : PaxosNode) (ty id : Z) : PaxosNode :=
  if has_exception_cb_ n
  then MkNode (node_id_ n) (num_replicas_ n) (quorum_ n) (leader_id_ n) (current_round_ n)
              (max_instances_ n) (instances_ n) (proposer_state_ n) (has_exception_cb_ n)
              (exceptions n ++ [(ty, id)])
  else n.

(** The constructor; a failed [assert] is [None]. *)
Definition new_PaxosNode (node_id num_replicas max_instances : Z) : option PaxosNode :=
  if bool_decide (3 ≤ num_replicas ≤ 5) && bool_decide (node_id < num_replicas)
  then Some (MkNode node_id num_replicas (num_replicas / 2 + 1) 0 0 max_instances ∅ ∅ false [])
  else None.

Definition IsLeader (n : PaxosNode) : bool := node_id_ n =? leader_id_ n.
Definition GetInstance (n : PaxosNode) (id : Z) : option InstanceState := instances_ n !! id.
Definition InstanceCount (n : PaxosNode) : Z := Z.of_nat (size (instances_ n)).

(** [NextRound()]: pre-increment of a uint32_t. *)
Definition NextRound (n : PaxosNode) : Z * PaxosNode :=
  let r := u32 (current_round_ n + 1) in (r, set_round n r).

(** [None]: the null pointer of the overflow case; otherwise the entry, which is in the map
    of the returned node. *)
Definition GetOrCreateInstance (n : PaxosNode) (id : Z) : option InstanceState * PaxosNode :=
  match instances_ n !! id with
  | Some inst => (Some inst, n)
  | None =>
      if bool_decide (max_instances_ n ≤ Z.of_nat (size (instances_ n)))
      then (None, exception_cb n hcop.kPaxosStateOverflow id)
      else (Some new_instance, set_instances n (<[id := new_instance]> (instances_ n)))
  end.

Definition put_instance (n : PaxosNode) (id : Z) (i : InstanceState) : PaxosNode :=
  set_instances n (<[id := i]> (instances_ n)).
Definition put_proposer (n : PaxosNode) (id : Z) (p : ProposerInstanceState) : PaxosNode :=
  set_proposers n (<[id := p]> (proposer_state_ n)).

(** ** Message builders *)

Definition mk_hdr (n : PaxosNode) (ty id : Z) : PaxosMsgHeader :=
  MkHeader ty (node_id_ n) (num_replicas_ n) id.

Definition MakePromise (n : PaxosNode) (dest id : Z) (inst : InstanceState) : option OutMessage :=
  v ← memcpy zeros (accepted_value inst) (accepted_value_len inst);
  Some (MkOut dest (encode_Promise (MkPromiseMsg (mk_hdr n kPromise id) (highest_promised inst)
                      (accepted_proposal inst) (accepted_value_len inst) v))).

Definition MakeAccepted (n : PaxosNode) (dest id : Z) (p : ProposalNum) (val : bytes) (len : Z) :
    option OutMessage :=
  let len := Z.min len kMaxValueSize in
  v ← memcpy zeros val len;
  Some (MkOut dest (encode_Accept (MkAcceptMsg (mk_hdr n kAccepted id) p len v))).

Definition MakeLearn (n : PaxosNode) (dest id : Z) (val : bytes) (len : Z) : option OutMessage :=
  let len := Z.min len kMaxValueSize in
  v ← memcpy zeros val len;
  Some (MkOut dest (encode_Learn (MkLearnMsg (mk_hdr n kLearn id) len v))).

Definition MakeNack (n : PaxosNode) (dest id : Z) (highest : ProposalNum) : OutMessage :=
  MkOut dest (encode_Nack (MkNackMsg (mk_hdr n kNack id) highest)).

Definition MakeAcceptBroadcast (n : PaxosNode) (id : Z) (p : ProposalNum) (val : bytes) (len : Z) :
    option OutMessage :=
  let len := Z.min len kMaxValueSize in
  v ← memcpy zeros val len;
  Some (MkOut kBroadcast (encode_Accept (MkAcceptMsg (mk_hdr n kAccept id) p len v))).

Definition MakePrepareBroadcast (n : PaxosNode) (id : Z) (p : ProposalNum) : OutMessage :=
  MkOut kBroadcast (encode_Prepare (MkPrepareMsg (mk_hdr n kPrepare id) p)).

(** ** Proposer API *)

Abbreviation result := (option (PaxosStatus * PaxosNode * list OutMessage)) (only parsing).

Definition Propose (n : PaxosNode) (id : Z) (val : bytes) (len : Z) (out : list OutMessage) : result :=
  if bool_decide (kMaxValueSize < len) then Some (kValueTooLarge, n, out)
  else if (match instances_ n !! id with Some i => is_committed i | None => false end)
  then Some (kAlreadyCommitted, n, out)
  else
    match GetOrCreateInstance n id with
    | (None, n) => Some (kInstanceOverflow, n, out)
    | (Some _, n) =>
        let '(r, n) := NextRound n in
        let prop := MkProposal r (node_id_ n) 0 in
        let ps := default new_proposer (proposer_state_ n !! id) in
        v ← memcpy (value ps) val len;
        let n := put_proposer n id
          (MkProposer prop len v (promise_count ps) (highest_accepted_in_promises ps)
             (highest_accepted_value_len ps) (highest_accepted_value ps) 0 false) in
        msg ← MakeAcceptBroadcast n id prop val len;
        Some (kOk, n, out ++ [msg])
    end.

Definition StartLeaderElection (n : PaxosNode) (id : Z) (out : list OutMessage) : result :=
  match GetOrCreateInstance n id with
  | (None, n) => Some (kInstanceOverflow, n, out)
  | (Some _, n) =>
      let n := exception_cb n hcop.kPaxosLeaderElection id in
      let '(r, n) := NextRound n in
      let prop := MkProposal r (node_id_ n) 0 in
      let ps := default new_proposer (proposer_state_ n !! id) in
      let n := put_proposer n id
        (MkProposer prop (value_len ps) (value ps) 0 null_proposal 0 (highest_accepted_value ps) 0 false) in
      Some (kOk, n, out ++ [MakePrepareBroadcast n id prop])
  end.

(** ** Handlers *)

Definition HandlePrepare (n : PaxosNode) (msg : PrepareMsg) (out : list OutMessage) : result :=
  let id := instance_id (prep_hdr msg) in
  match GetOrCreateInstance n id with
  | (None, n) => Some (kInstanceOverflow, n, out)
  | (Some inst, n) =>
      if pn_gtb (prep_proposal msg) (highest_promised inst) then
        let inst := MkInstance (prep_proposal msg) (accepted_proposal inst) (accepted_value_len inst)
                      (accepted_value inst) (is_committed inst) (committed_value_len inst)
                      (committed_value inst) in
        let n := put_instance n id inst in
        m ← MakePromise n (sender_id (prep_hdr msg)) id inst;
        Some (kOk, n, out ++ [m])
      else
        Some (kOk, n, out ++ [MakeNack n (sender_id (prep_hdr msg)) id (highest_promised inst)])
  end.

(** [Track highest accepted value from promises.] *)
Definition track_promise (msg : PromiseMsg) (ps : ProposerInstanceState) : option ProposerInstanceState :=
  let cnt := u16 (promise_count ps + 1) in
  if negb (IsNull (prom_accepted msg)) &&
     pn_gtb (prom_accepted msg) (highest_accepted_in_promises ps)
  then
    v ← memcpy (highest_accepted_value ps) (prom_value msg) (Z.min (prom_value_len msg) kMaxValueSize);
    Some (MkProposer (proposal ps) (value_len ps) (value ps) cnt (prom_accepted msg)
            (prom_value_len msg) v (accepted_count ps) (committed ps))
  else
    Some (MkProposer (proposal ps) (value_len ps) (value ps) cnt (highest_accepted_in_promises ps)
            (highest_accepted_value_len ps) (highest_accepted_value ps) (accepted_count ps)
            (committed ps)).

Definition HandlePromise (n : PaxosNode) (msg : PromiseMsg) (out : list OutMessage) : result :=
  let id := instance_id (prom_hdr msg) in
  match proposer_state_ n !! id with
  | None => Some (kOk, n, out)
  | Some ps =>
      if negb (pn_eqb (promised msg) (proposal ps)) then Some (kOk, n, out)
      else
        ps ← track_promise msg ps;
        if bool_decide (quorum_ n ≤ promise_count ps) then
          let '(use_value, use_len) :=
            if IsNull (highest_accepted_in_promises ps) then (value ps, value_len ps)
            else (highest_accepted_value ps, highest_accepted_value_len ps) in
          let ps := MkProposer (proposal ps) (value_len ps) (value ps) (promise_count ps)
                      (highest_accepted_in_promises ps) (highest_accepted_value_len ps)
                      (highest_accepted_value ps) 0 (committed ps) in
          let n := put_proposer n id ps in
          m ← MakeAcceptBroadcast n id (proposal ps) use_value use_len;
          Some (kOk, n, out ++ [m])
        else Some (kOk, put_proposer n id ps, out)
  end.

Definition HandleAccept (n : PaxosNode) (msg : AcceptMsg) (out : list OutMessage) : result :=
  let id := instance_id (acc_hdr msg) in
  let sender := sender_id (acc_hdr msg) in
  match GetOrCreateInstance n id with
  | (None, n) => Some (kInstanceOverflow, n, out)
  | (Some inst, n) =>
      if is_committed inst then
        m ← MakeLearn n sender id (committed_value inst) (committed_value_len inst);
        Some (kAlreadyCommitted, n, out ++ [m])
      else if pn_geb (acc_proposal msg) (highest_promised inst) then
        let len := Z.min (acc_value_len msg) kMaxValueSize in
        v ← memcpy (accepted_value inst) (acc_value msg) len;
        let n := put_instance n id
          (MkInstance (acc_proposal msg) (acc_proposal msg) len v (is_committed inst)
             (committed_value_len inst) (committed_value inst)) in
        m ← MakeAccepted n sender id (acc_proposal msg) (acc_value msg) (acc_value_len msg);
        Some (kOk, n, out ++ [m])
      else
        let out := out ++ [MakeNack n sender id (highest_promised inst)] in
        Some (kOk, exception_cb n hcop.kPaxosConflict id, out)
  end.

(** [is_committed = true] with the value of the message, as [HandleAccepted] and
    [HandleLearn] record it: the length is stored as received. *)
Definition commit (inst : InstanceState) (val : bytes) (len : Z) : option InstanceState :=
  v ← memcpy (committed_value inst) val (Z.min len kMaxValueSize);
  Some (MkInstance (highest_promised inst) (accepted_proposal inst) (accepted_value_len inst)
          (accepted_value inst) true len v).

(** The loop that sends LEARN to every replica but this one; [replicas] are the values of [i]. *)
Fixpoint learn_loop (n : PaxosNode) (id : Z) (val : bytes) (len : Z) (replicas : list Z)
    (out : list OutMessage) : option (list OutMessage) :=
  match replicas with
  | [] => Some out
  | i :: replicas =>
      if i =? node_id_ n then learn_loop n id val len replicas out
      else m ← MakeLearn n (u8 i) id val len; learn_loop n id val len replicas (out ++ [m])
  end.

Definition HandleAccepted (n : PaxosNode) (msg : AcceptedMsg) (out : list OutMessage) : result :=
  let id := instance_id (acc_hdr msg) in
  match proposer_state_ n !! id with
  | None => Some (kOk, n, out)
  | Some ps =>
      if negb (pn_eqb (acc_proposal msg) (proposal ps)) then Some (kOk, n, out)
      else if committed ps then Some (kAlreadyCommitted, n, out)
      else
        let cnt := u16 (accepted_count ps + 1) in
        let ps' c := MkProposer (proposal ps) (value_len ps) (value ps) (promise_count ps)
                       (highest_accepted_in_promises ps) (highest_accepted_value_len ps)
                       (highest_accepted_value ps) cnt c in
        if bool_decide (quorum_ n ≤ cnt) then
          let n := put_proposer n id (ps' true) in
          n ← match GetOrCreateInstance n id with
              | (None, n) => Some n
              | (Some inst, n) =>
                  inst' ← commit inst (acc_value msg) (acc_value_len msg);
                  Some (put_instance n id inst')
              end;
          out ← learn_loop n id (acc_value msg) (acc_value_len msg) (seqZ 0 (num_replicas_ n)) out;
          Some (kOk, n, out)
        else Some (kOk, put_proposer n id (ps' false), out)
  end.

Definition HandleLearn (n : PaxosNode) (msg : LearnMsg) (out : list OutMessage) : result :=
  let id := instance_id (learn_hdr msg) in
  match GetOrCreateInstance n id with
  | (None, n) => Some (kInstanceOverflow, n, out)
  | (Some inst, n) =>
      if is_committed inst then Some (kOk, n, out)
      else
        inst' ← commit inst (learn_value msg) (learn_value_len msg);
        Some (kOk, put_instance n id inst', out)
  end.

Definition HandleNack (n : PaxosNode) (msg : NackMsg) (out : list OutMessage) : result :=
  let n := exception_cb n hcop.kPaxosConflict (instance_id (nack_hdr msg)) in
  let n := if bool_decide (current_round_ n ≤ round (highest_seen msg))
           then set_round n (round (highest_seen msg)) else n in
  Some (kOk, n, out).

(** ** Message dispatch *)

Definition HandleMessage (n : PaxosNode) (d : bytes) (out : list OutMessage) : result :=
  let len := length d in
  if (len <? sizeof_PaxosMsgHeader)%nat then Some (kInvalidMessage, n, out)
  else
    let ty := msg_type (decode_hdr d) in
    let when (enough : bool) (r : result) := if enough then r else Some (kInvalidMessage, n, out) in
    if ty =? kPrepare then when (sizeof_PrepareMsg <=? len)%nat (HandlePrepare n (decode_Prepare d) out)
    else if ty =? kPromise then
      when (sizeof_PromiseMsg - 128 <=? len)%nat (HandlePromise n (decode_Promise d) out)
    else if ty =? kAccept then
      when (sizeof_AcceptMsg - 128 <=? len)%nat (HandleAccept n (decode_Accept d) out)
    else if ty =? kAccepted then
      when (sizeof_AcceptMsg - 128 <=? len)%nat (HandleAccepted n (decode_Accept d) out)
    else if ty =? kLearn then
      when (sizeof_LearnMsg - 128 <=? len)%nat (HandleLearn n (decode_Learn d) out)
    else if ty =? kNack then when (sizeof_NackMsg <=? len)%nat (HandleNack n (decode_Nack d) out)
    else Some (kInvalidMessage, n, out).

End paxos.
