(* ===== verification/PaxosInv.v ===== *)
(** * Invariants of one Paxos replica

    Memory safety of the handlers of PaxosState.v, the invariant of a replica, and the
    acceptor rules: promises only grow, nothing is accepted below a promise, a committed
    instance stays committed. *)

From S2P Require Import Prelude.
From S2P Require Import HcopProto.
From S2P Require Import PaxosState.

Module paxos_inv.
Import paxos.

(** ** Proposal numbers are ordered lexicographically by (round, node) *)

Definition pn_le (a b : ProposalNum) : Prop := pn_ltb b a = false.

Lemma pn_ltb_spec a b :
  pn_ltb a b = true ↔ round a < round b ∨ (round a = round b ∧ pn_node a < pn_node b).
Proof. unfold pn_ltb. rewrite orb_true_iff, andb_true_iff, !Z.ltb_lt, Z.eqb_eq. done. Qed.

Lemma pn_le_spec a b :
  pn_le a b ↔ round a < round b ∨ (round a = round b ∧ pn_node a ≤ pn_node b).
Proof.
  unfold pn_le. pose proof (pn_ltb_spec b a) as H. destruct (pn_ltb b a).
  - split; [done|]. intros. exfalso. destruct (proj1 H eq_refl); lia.
  - split; [|done]. intros _.
    assert (¬ (round b < round a ∨ (round b = round a ∧ pn_node b < pn_node a))) by (rewrite <- H; done).
    lia.
Qed.

Lemma pn_eqb_spec a b : pn_eqb a b = true ↔ round a = round b ∧ pn_node a = pn_node b.
Proof. unfold pn_eqb. by rewrite andb_true_iff, !Z.eqb_eq. Qed.

#[export] Instance pn_le_preorder : PreOrder pn_le.
Proof.
  split.
  - intros a. apply pn_le_spec. lia.
  - intros a b c. rewrite !pn_le_spec. lia.
Qed.

Lemma pn_gtb_le a b : pn_gtb a b = true → pn_le b a.
Proof. unfold pn_gtb. rewrite pn_ltb_spec, pn_le_spec. lia. Qed.

Lemma pn_geb_le a b : pn_geb a b = true → pn_le b a.
Proof. unfold pn_geb. by rewrite negb_true_iff. Qed.

(** ** Well-formedness *)

Definition wf_pn (p : ProposalNum) : Prop := round p ∈u 32 ∧ pn_node p ∈u 16 ∧ pn_pad p ∈u 16.

(** A value buffer of [kMaxValueSize] bytes. *)
Definition is_buf (v : bytes) : Prop := length v = 128%nat ∧ is_bytes v.

Record wf_inst (i : InstanceState) : Prop := {
  wfi_promised : wf_pn (highest_promised i);
  wfi_accepted : wf_pn (accepted_proposal i);
  wfi_le : pn_le (accepted_proposal i) (highest_promised i);
  wfi_len : 0 ≤ accepted_value_len i ≤ 128;
  wfi_val : is_buf (accepted_value i);
  wfi_clen : committed_value_len i ∈u 16;
  wfi_cval : is_buf (committed_value i);
}.

Record wf_prop (p : ProposerInstanceState) : Prop := {
  wfp_proposal : wf_pn (proposal p);
  wfp_len : 0 ≤ value_len p ≤ 128;
  wfp_val : is_buf (value p);
  wfp_pcount : promise_count p ∈u 16;
  wfp_high : wf_pn (highest_accepted_in_promises p);
  wfp_hlen : highest_accepted_value_len p ∈u 16;
  wfp_hval : is_buf (highest_accepted_value p);
  wfp_acount : accepted_count p ∈u 16;
}.

Record wf (n : PaxosNode) : Prop := {
  wfn_id : node_id_ n ∈u 8;
  wfn_replicas : 3 ≤ num_replicas_ n ≤ 5;
  wfn_quorum : quorum_ n = num_replicas_ n / 2 + 1;
  wfn_round : current_round_ n ∈u 32;
  wfn_size : Z.of_nat (size (instances_ n)) ≤ max_instances_ n;
  wfn_insts : map_Forall (λ id i, id ∈u 32 ∧ wf_inst i) (instances_ n);
  wfn_props : map_Forall (λ id p, id ∈u 32 ∧ wf_prop p) (proposer_state_ n);
}.

Lemma zeros_buf : is_buf zeros.
Proof. split; [done|apply is_bytes_zeros]. Qed.

Lemma null_wf : wf_pn null_proposal.
Proof. by vm_compute. Qed.

#[export] Hint Resolve zeros_buf null_wf : hcop.

Lemma new_instance_wf : wf_inst new_instance.
Proof. split; simpl; auto with hcop; by vm_compute. Qed.

Lemma new_proposer_wf : wf_prop new_proposer.
Proof. split; simpl; auto with hcop; by vm_compute. Qed.

#[export] Hint Resolve new_instance_wf new_proposer_wf : hcop.

Lemma new_node_wf node replicas mx n :
  node ∈u 8 → 0 ≤ mx → new_PaxosNode node replicas mx = Some n → wf n.
Proof.
  intros ?? Hn. unfold new_PaxosNode in Hn. case_bool_decide; [|done].
  case_bool_decide; simplify_eq/=.
  split; simpl; first [done | by rewrite map_size_empty | apply map_Forall_empty].
Qed.

(** ** Messages *)

(** Where the value a message declares would end. *)
Definition payload_end (d : bytes) : Z :=
  let ty := field d 0 1 in
  if ty =? kPromise then 26 + Z.min (field d 24 2) 128
  else if (ty =? kAccept) || (ty =? kAccepted) then 18 + Z.min (field d 16 2) 128
  else if ty =? kLearn then 10 + Z.min (field d 8 2) 128
  else 0.

(** The buffer holds all of the value the message declares. *)
Definition complete (d : bytes) : Prop := payload_end d ≤ Z.of_nat (length d).

Definition wf_out (m : OutMessage) : Prop :=
  is_bytes (data m) ∧ complete (data m) ∧ (length (data m) ≤ sizeof_PromiseMsg)%nat.

Lemma decode_pn_wf d off : is_bytes d → wf_pn (decode_pn d off).
Proof. intros. unfold wf_pn; simpl. split_and!; by eapply field_fits. Qed.

Lemma slice_len d off : (off ≤ length d)%nat →
  Z.of_nat (length (slice d off 128)) = Z.min 128 (Z.of_nat (length d) - Z.of_nat off).
Proof. intros. unfold slice. rewrite length_take, length_drop. lia. Qed.

Lemma encode_pn_bytes p : is_bytes (encode_pn p).
Proof. unfold encode_pn. rewrite !is_bytes_app. auto with hcop. Qed.

Lemma encode_hdr_bytes h : is_bytes (encode_hdr h).
Proof. unfold encode_hdr. rewrite !is_bytes_app. auto with hcop. Qed.

#[export] Hint Resolve encode_pn_bytes encode_hdr_bytes decode_pn_wf : hcop.

Lemma length_encode_pn p : length (encode_pn p) = 8%nat.
Proof. unfold encode_pn. by rewrite !length_app, !length_le. Qed.

Lemma length_encode_hdr h : length (encode_hdr h) = 8%nat.
Proof. unfold encode_hdr. by rewrite !length_app, !length_le. Qed.

(** ** Copying a value *)

Lemma copy_ok dst src len :
  is_buf dst → is_bytes src → 0 ≤ len → Z.min len 128 ≤ Z.of_nat (length src) →
  ∃ v, memcpy dst src (Z.min len kMaxValueSize) = Some v ∧ is_buf v ∧
       take (Z.to_nat (Z.min len 128)) v = take (Z.to_nat (Z.min len 128)) src.
Proof.
  intros [Hl Hb] Hs Hlen Hsrc. unfold kMaxValueSize.
  destruct (memcpy dst src (Z.min len 128)) as [v|] eqn:Hm.
  - exists v. split_and!; [done| |by eapply memcpy_take].
    split; [by rewrite (memcpy_length _ _ _ _ Hm)|by eapply memcpy_is_bytes].
  - rewrite memcpy_ok in Hm by lia. done.
Qed.

(** ** Field updates of a node *)

Lemma exception_cb_fields n ty id :
  node_id_ (exception_cb n ty id) = node_id_ n ∧
  num_replicas_ (exception_cb n ty id) = num_replicas_ n ∧
  quorum_ (exception_cb n ty id) = quorum_ n ∧
  current_round_ (exception_cb n ty id) = current_round_ n ∧
  max_instances_ (exception_cb n ty id) = max_instances_ n ∧
  instances_ (exception_cb n ty id) = instances_ n ∧
  proposer_state_ (exception_cb n ty id) = proposer_state_ n.
Proof. unfold exception_cb. by case_match. Qed.

Lemma exception_cb_wf n ty id : wf n → wf (exception_cb n ty id).
Proof.
  destruct (exception_cb_fields n ty id) as (?&?&?&?&?&?&?).
  intros []; split;
    repeat match goal with H : _ (exception_cb _ _ _) = _ |- _ => rewrite H end; done.
Qed.

Lemma put_proposer_wf n id p : wf n → id ∈u 32 → wf_prop p → wf (put_proposer n id p).
Proof. intros [] ??. split; simpl; auto. by apply map_Forall_insert_2. Qed.

Lemma put_instance_wf n id i :
  wf n → is_Some (instances_ n !! id) → id ∈u 32 → wf_inst i → wf (put_instance n id i).
Proof.
  intros [] ???. split; simpl; auto.
  - by rewrite map_size_insert_Some.
  - by apply map_Forall_insert_2.
Qed.

Lemma set_round_wf n r : wf n → r ∈u 32 → wf (set_round n r).
Proof. intros [] ?. by split. Qed.

(** [GetOrCreateInstance]: either the table is full, or the entry is in the map. *)
Inductive get_spec (n : PaxosNode) (id : Z) : option InstanceState * PaxosNode → Prop :=
| get_overflow :
    instances_ n !! id = None → max_instances_ n ≤ Z.of_nat (size (instances_ n)) →
    get_spec n id (None, exception_cb n hcop.kPaxosStateOverflow id)
| get_found i n' :
    wf_inst i → wf n' → instances_ n' !! id = Some i →
    instances_ n' = <[id := i]> (instances_ n) → proposer_state_ n' = proposer_state_ n →
    node_id_ n' = node_id_ n → num_replicas_ n' = num_replicas_ n → quorum_ n' = quorum_ n →
    current_round_ n' = current_round_ n →
    (instances_ n !! id = Some i ∨ instances_ n !! id = None ∧ i = new_instance) →
    get_spec n id (Some i, n').

Lemma GetOrCreateInstance_spec n id : wf n → id ∈u 32 → get_spec n id (GetOrCreateInstance n id).
Proof.
  intros Hwf Hid. unfold GetOrCreateInstance. destruct (instances_ n !! id) as [i|] eqn:Hi.
  - apply get_found; auto; [exact (proj2 (wfn_insts _ Hwf _ _ Hi))|by rewrite insert_id].
  - case_bool_decide; [by constructor|].
    apply get_found; simpl; auto with hcop; [|by rewrite lookup_insert_eq].
    destruct Hwf. split; simpl; auto; [rewrite map_size_insert_None by done; lia|].
    apply map_Forall_insert_2; auto with hcop.
Qed.

(** ** Outbound messages are complete *)

Definition full_size (ty : Z) : Z :=
  if ty =? kPromise then 154 else if (ty =? kAccept) || (ty =? kAccepted) then 146
  else if ty =? kLearn then 138 else 0.

Lemma complete_full d : full_size (field d 0 1) ≤ Z.of_nat (length d) → complete d.
Proof. unfold complete, payload_end, full_size. repeat case_match; lia. Qed.

Lemma hdr_type h rest : msg_type h ∈u 8 → field (encode_hdr h ++ rest) 0 1 = msg_type h.
Proof. intros. unfold encode_hdr. struct_fields. done. Qed.

(** An encoded message is a header followed by a body; its type and length decide. *)
Lemma wf_out_intro dest h body :
  msg_type h ∈u 8 → is_bytes body →
  full_size (msg_type h) ≤ 8 + Z.of_nat (length body) ∧ (length body ≤ 146)%nat →
  wf_out (MkOut dest (encode_hdr h ++ body)).
Proof.
  intros Hty Hb [Hlen Hmax]. split_and!; simpl; [apply is_bytes_app; auto with hcop| |].
  2: { rewrite length_app, length_encode_hdr. unfold sizeof_PromiseMsg. lia. }
  apply complete_full. rewrite hdr_type, length_app, length_encode_hdr by done. lia.
Qed.

Ltac out_wf :=
  apply wf_out_intro; simpl;
  [by vm_compute | rewrite ?is_bytes_app; auto 10 with hcop
  | rewrite ?length_app, ?length_encode_pn, ?length_le; unfold full_size; simpl; lia].

Lemma MakeNack_out n dest id p : wf_out (MakeNack n dest id p).
Proof. out_wf. Qed.

Lemma MakePrepareBroadcast_out n id p : wf_out (MakePrepareBroadcast n id p).
Proof. out_wf. Qed.

Lemma MakePromise_out n dest id i :
  wf_inst i → ∃ m, MakePromise n dest id i = Some m ∧ wf_out m.
Proof.
  intros []. unfold MakePromise.
  destruct (copy_ok zeros (accepted_value i) (accepted_value_len i)) as (v & Hm & [? ?] & _);
    auto with hcop; [by destruct wfi_val0| lia | destruct wfi_val0; lia|].
  unfold kMaxValueSize in Hm. rewrite Z.min_l in Hm by lia. rewrite Hm. simpl.
  eexists. split; [done|]. out_wf.
Qed.

(** The three builders that copy a caller's value. *)
Lemma MakeAccepted_out n dest id p val len :
  is_bytes val → 0 ≤ len → Z.min len 128 ≤ Z.of_nat (length val) →
  ∃ m, MakeAccepted n dest id p val len = Some m ∧ wf_out m.
Proof.
  intros. unfold MakeAccepted.
  destruct (copy_ok zeros val len) as (v & -> & [? ?] & _); auto with hcop. simpl.
  eexists. split; [done|]. out_wf.
Qed.

Lemma MakeAcceptBroadcast_out n id p val len :
  is_bytes val → 0 ≤ len → Z.min len 128 ≤ Z.of_nat (length val) →
  ∃ m, MakeAcceptBroadcast n id p val len = Some m ∧ wf_out m.
Proof.
  intros. unfold MakeAcceptBroadcast.
  destruct (copy_ok zeros val len) as (v & -> & [? ?] & _); auto with hcop. simpl.
  eexists. split; [done|]. out_wf.
Qed.

Lemma MakeLearn_out n dest id val len :
  is_bytes val → 0 ≤ len → Z.min len 128 ≤ Z.of_nat (length val) →
  ∃ m, MakeLearn n dest id val len = Some m ∧ wf_out m.
Proof.
  intros. unfold MakeLearn.
  destruct (copy_ok zeros val len) as (v & -> & [? ?] & _); auto with hcop. simpl.
  eexists. split; [done|]. out_wf.
Qed.

Lemma learn_loop_out n id val len replicas out :
  is_bytes val → 0 ≤ len → Z.min len 128 ≤ Z.of_nat (length val) →
  ∃ new, learn_loop n id val len replicas out = Some (out ++ new) ∧ Forall wf_out new.
Proof.
  intros Hv Hl Hb. revert out. induction replicas as [|i replicas IH]; intros out; simpl.
  { exists []. by rewrite app_nil_r. }
  case_match; [apply IH|].
  destruct (MakeLearn_out n (u8 i) id val len) as (m & -> & Hm); auto. simpl.
  destruct (IH (out ++ [m])) as (new & -> & Hnew). exists (m :: new).
  rewrite <- app_assoc. split; [done|by constructor].
Qed.

(** ** Acceptor rules *)

(** How one instance may change in one step: the promise does not decrease, a committed
    instance stays committed, and a new value is accepted only at or above the promise and
    only while the instance is not committed. *)
Record acceptor_step (i i' : InstanceState) : Prop := {
  as_promise : pn_le (highest_promised i) (highest_promised i');
  as_commit : is_committed i = true → is_committed i' = true;
  as_accept :
    (accepted_proposal i' = accepted_proposal i ∧ accepted_value_len i' = accepted_value_len i ∧
     accepted_value i' = accepted_value i) ∨
    (pn_le (highest_promised i) (accepted_proposal i') ∧ is_committed i = false);
}.

#[export] Instance acceptor_step_refl : Reflexive acceptor_step.
Proof. intros i. split; auto. reflexivity. Qed.

#[export] Instance acceptor_step_trans : Transitive acceptor_step.
Proof.
  intros i j k [P1 C1 A1] [P2 C2 A2]. split; [by etrans|auto|].
  destruct A2 as [(-> & -> & ->)|[HA HC]]; [done|].
  right. split; [by etrans|]. destruct (is_committed i); [|done]. by rewrite C1 in HC.
Qed.

Record evolves (n n' : PaxosNode) : Prop := {
  ev_id : node_id_ n' = node_id_ n;
  ev_replicas : num_replicas_ n' = num_replicas_ n;
  ev_quorum : quorum_ n' = quorum_ n;
  ev_inst id i : instances_ n !! id = Some i →
                 ∃ i', instances_ n' !! id = Some i' ∧ acceptor_step i i';
}.

#[export] Instance evolves_refl : Reflexive evolves.
Proof. intros n. split; [done..|]. intros id i ?. exists i. split; [done|reflexivity]. Qed.

#[export] Instance evolves_trans : Transitive evolves.
Proof.
  intros n1 n2 n3 [A1 B1 C1 D1] [A2 B2 C2 D2]. split; [congruence..|].
  intros id i Hi. destruct (D1 _ _ Hi) as (i1 & Hi1 & ?). destruct (D2 _ _ Hi1) as (i2 & ? & ?).
  exists i2. split; [done|by etrans].
Qed.

Lemma evolves_same n n' :
  node_id_ n' = node_id_ n → num_replicas_ n' = num_replicas_ n → quorum_ n' = quorum_ n →
  instances_ n' = instances_ n → evolves n n'.
Proof. intros ??? Hi. split; [done..|]. rewrite Hi. intros id i ?. exists i. by split. Qed.

Lemma evolves_exception n ty id : evolves n (exception_cb n ty id).
Proof. destruct (exception_cb_fields n ty id) as (?&?&?&?&?&?&?). by apply evolves_same. Qed.

Lemma evolves_put_proposer n id p : evolves n (put_proposer n id p).
Proof. by apply evolves_same. Qed.

Lemma evolves_put_instance n id i i' :
  instances_ n !! id = Some i → acceptor_step i i' → evolves n (put_instance n id i').
Proof.
  intros Hi Hs. split; [done..|]. intros id' j Hj. simpl. destruct (decide (id' = id)) as [->|].
  - rewrite lookup_insert_eq. exists i'. by simplify_eq.
  - rewrite lookup_insert_ne by done. by exists j.
Qed.

Lemma evolves_get n id i n' :
  (instances_ n !! id = Some i ∨ instances_ n !! id = None ∧ i = new_instance) →
  instances_ n' = <[id := i]> (instances_ n) → node_id_ n' = node_id_ n →
  num_replicas_ n' = num_replicas_ n → quorum_ n' = quorum_ n → evolves n n'.
Proof.
  intros Hi Hins ???. split; [done..|]. intros id' j Hj. rewrite Hins.
  destruct (decide (id' = id)) as [->|].
  - rewrite lookup_insert_eq. exists i. destruct Hi as [Hi|[Hi _]]; by simplify_eq.
  - rewrite lookup_insert_ne by done. by exists j.
Qed.

(** [safe n out r]: the call returned (no undefined behaviour), the node is still well
    formed and evolved by the acceptor rules, and what it sent is complete. *)
Definition safe (n : PaxosNode) (out : list OutMessage)
    (r : option (PaxosStatus * PaxosNode * list OutMessage)) : Prop :=
  ∃ st n' new, r = Some (st, n', out ++ new) ∧ wf n' ∧ evolves n n' ∧ Forall wf_out new.

Lemma safe_quiet n out st n' : wf n' → evolves n n' → safe n out (Some (st, n', out)).
Proof. intros. exists st, n', []. by rewrite app_nil_r. Qed.

Lemma safe_send n out st n' m :
  wf n' → evolves n n' → wf_out m → safe n out (Some (st, n', out ++ [m])).
Proof. intros. exists st, n', [m]. split_and!; auto. Qed.

(** ** Every handler is safe *)

(** Cases on [GetOrCreateInstance]; the overflow case is closed. *)
Ltac get_instance Hwf Hid :=
  match goal with |- context [GetOrCreateInstance ?n ?id] =>
    destruct (GetOrCreateInstance_spec n id Hwf Hid)
      as [Hnone Hfull|i n' Hwi Hwf' Hin Hins Hps Hnid Hrep Hq Hrnd Hold];
    [by apply safe_quiet; [apply exception_cb_wf|apply evolves_exception]|];
    assert (evolves n n') as Hev by (by eapply evolves_get)
  end.

Lemma HandlePrepare_safe n msg out :
  wf n → instance_id (prep_hdr msg) ∈u 32 → wf_pn (prep_proposal msg) →
  safe n out (HandlePrepare n msg out).
Proof.
  intros Hwf Hid Hp. unfold HandlePrepare. get_instance Hwf Hid.
  destruct (pn_gtb _ _) eqn:Hgt.
  2: { apply safe_send; auto using MakeNack_out. }
  set (i' := MkInstance _ _ _ _ _ _ _).
  assert (wf_inst i') as Hwi'.
  { destruct Hwi. split; simpl; auto. etrans; [done|by apply pn_gtb_le]. }
  destruct (MakePromise_out (put_instance n' (instance_id (prep_hdr msg)) i')
              (sender_id (prep_hdr msg)) (instance_id (prep_hdr msg)) i' Hwi') as (m & -> & Hm).
  simpl. apply safe_send; [by apply put_instance_wf| |done].
  etrans; [done|]. eapply evolves_put_instance; [done|].
  split; simpl; [by apply pn_gtb_le|done|by left].
Qed.

Lemma track_promise_wf msg ps :
  wf_prop ps → wf_pn (prom_accepted msg) → prom_value_len msg ∈u 16 → is_bytes (prom_value msg) →
  Z.min (prom_value_len msg) 128 ≤ Z.of_nat (length (prom_value msg)) →
  ∃ ps', track_promise msg ps = Some ps' ∧ wf_prop ps'.
Proof.
  intros Hps Hpn Hlen Hb Hc. pose proof Hps as []. unfold track_promise.
  assert (u16 (promise_count ps + 1) ∈u 16) by (apply wrap_fits; lia).
  case_match.
  - destruct (copy_ok (highest_accepted_value ps) (prom_value msg) (prom_value_len msg))
      as (v & -> & Hv & _); auto; [unfold fits in Hlen; lia|]. simpl. eexists. split; [done|]. by split.
  - eexists. split; [done|]. by split.
Qed.

Lemma HandlePromise_safe n msg out :
  wf n → instance_id (prom_hdr msg) ∈u 32 → wf_pn (prom_accepted msg) →
  prom_value_len msg ∈u 16 → is_bytes (prom_value msg) →
  Z.min (prom_value_len msg) 128 ≤ Z.of_nat (length (prom_value msg)) →
  safe n out (HandlePromise n msg out).
Proof.
  intros Hwf Hid Hpn Hlen Hb Hc. unfold HandlePromise.
  destruct (proposer_state_ n !! _) as [ps|] eqn:Hps; [|by apply safe_quiet].
  case_match; [by apply safe_quiet|].
  destruct (track_promise_wf msg ps) as (ps' & -> & Hps');
    [exact (proj2 (wfn_props _ Hwf _ _ Hps))|done..|]. simpl.
  pose proof Hps' as [].
  case_bool_decide.
  2: { apply safe_quiet; [by apply put_proposer_wf|apply evolves_put_proposer]. }
  destruct (IsNull _); simpl;
    match goal with |- context [MakeAcceptBroadcast ?n ?id ?p ?v ?l] =>
      destruct (MakeAcceptBroadcast_out n id p v l) as (m & -> & Hm) end;
    try (by apply wfp_val0 || apply wfp_hval0); try (unfold fits in *; lia);
    try (destruct wfp_val0, wfp_hval0; lia).
  all: apply safe_send; [apply put_proposer_wf; [done|done|]|apply evolves_put_proposer|done].
  all: split; simpl; auto; by vm_compute.
Qed.

Lemma HandleAccept_safe n msg out :
  wf n → instance_id (acc_hdr msg) ∈u 32 → wf_pn (acc_proposal msg) →
  acc_value_len msg ∈u 16 → is_bytes (acc_value msg) →
  Z.min (acc_value_len msg) 128 ≤ Z.of_nat (length (acc_value msg)) →
  safe n out (HandleAccept n msg out).
Proof.
  intros Hwf Hid Hpn Hlen Hb Hc. unfold HandleAccept. get_instance Hwf Hid.
  pose proof Hwi as []. unfold fits in Hlen.
  destruct (is_committed i) eqn:Hcom.
  { destruct (MakeLearn_out n' (sender_id (acc_hdr msg)) (instance_id (acc_hdr msg))
                (committed_value i) (committed_value_len i)) as (m & -> & Hm);
      [by destruct wfi_cval0|unfold fits in *; lia|destruct wfi_cval0; lia|].
    by apply safe_send. }
  destruct (pn_geb _ _) eqn:Hge.
  2: { exists kOk. eexists _, [_]. split; [done|]. split_and!; auto using exception_cb_wf.
       - etrans; [done|apply evolves_exception].
       - constructor; [apply MakeNack_out|done]. }
  destruct (copy_ok (accepted_value i) (acc_value msg) (acc_value_len msg)) as (v & -> & Hv & _);
    auto; [lia|]. simpl.
  match goal with |- context [MakeAccepted ?n ?d ?id ?p ?v ?l] =>
    destruct (MakeAccepted_out n d id p v l) as (m & -> & Hm); auto; [lia|] end. simpl.
  apply safe_send; [apply put_instance_wf; eauto| |done].
  - split; simpl; auto; [reflexivity|unfold kMaxValueSize; lia].
  - etrans; [done|]. eapply evolves_put_instance; [done|].
    split; simpl; [by apply pn_geb_le|congruence|right; split; [by apply pn_geb_le|done]].
Qed.

Lemma commit_ok i val len :
  wf_inst i → len ∈u 16 → is_bytes val → Z.min len 128 ≤ Z.of_nat (length val) →
  ∃ i', commit i val len = Some i' ∧ wf_inst i' ∧ acceptor_step i i' ∧
        is_committed i' = true ∧ committed_value_len i' = len ∧
        take (Z.to_nat (Z.min len 128)) (committed_value i') = take (Z.to_nat (Z.min len 128)) val.
Proof.
  intros Hwi Hlen Hb Hc. pose proof Hwi as []. unfold commit.
  destruct (copy_ok (committed_value i) val len) as (v & -> & Hv & Ht); auto;
    [unfold fits in Hlen; lia|]. simpl.
  eexists. split; [done|]. simpl. split_and!; [by split|split; simpl; auto; reflexivity|done..].
Qed.

Lemma HandleLearn_safe n msg out :
  wf n → instance_id (learn_hdr msg) ∈u 32 →
  learn_value_len msg ∈u 16 → is_bytes (learn_value msg) →
  Z.min (learn_value_len msg) 128 ≤ Z.of_nat (length (learn_value msg)) →
  safe n out (HandleLearn n msg out).
Proof.
  intros Hwf Hid Hlen Hb Hc. unfold HandleLearn. get_instance Hwf Hid.
  destruct (is_committed i) eqn:Hcom; [by apply safe_quiet|].
  destruct (commit_ok i (learn_value msg) (learn_value_len msg)) as (i' & -> & ? & ? & _); auto.
  simpl. apply safe_quiet; [by apply put_instance_wf|].
  etrans; [done|]. by eapply evolves_put_instance.
Qed.

Lemma HandleNack_safe n msg out :
  wf n → wf_pn (highest_seen msg) → safe n out (HandleNack n msg out).
Proof.
  intros Hwf [Hr _]. unfold HandleNack. set (n1 := exception_cb _ _ _).
  assert (wf n1) by (by apply exception_cb_wf).
  assert (evolves n n1) by apply evolves_exception.
  apply safe_quiet; case_bool_decide; auto using set_round_wf.
  etrans; [done|]. by apply evolves_same.
Qed.

(** Recording a commit in [HandleAccepted]: a full table leaves the node as it is. *)
Lemma record_commit_ok n id val len :
  wf n → id ∈u 32 → len ∈u 16 → is_bytes val → Z.min len 128 ≤ Z.of_nat (length val) →
  ∃ n', match GetOrCreateInstance n id with
        | (None, n) => Some n
        | (Some inst, n) => inst' ← commit inst val len; Some (put_instance n id inst')
        end = Some n' ∧ wf n' ∧ evolves n n'.
Proof.
  intros Hwf Hid Hlen Hb Hc.
  destruct (GetOrCreateInstance_spec n id Hwf Hid)
    as [Hnone Hfull|i n' Hwi Hwf' Hin Hins Hps Hnid Hrep Hq Hrnd Hold].
  - eexists. split; [done|]. split; [by apply exception_cb_wf|apply evolves_exception].
  - destruct (commit_ok i val len) as (i' & -> & ? & ? & _); auto. simpl.
    eexists. split; [done|]. split; [by apply put_instance_wf|].
    etrans; [by eapply evolves_get|]. by eapply evolves_put_instance.
Qed.

Lemma HandleAccepted_safe n msg out :
  wf n → instance_id (acc_hdr msg) ∈u 32 →
  acc_value_len msg ∈u 16 → is_bytes (acc_value msg) →
  Z.min (acc_value_len msg) 128 ≤ Z.of_nat (length (acc_value msg)) →
  safe n out (HandleAccepted n msg out).
Proof.
  intros Hwf Hid Hlen Hb Hc. unfold HandleAccepted.
  destruct (proposer_state_ n !! _) as [ps|] eqn:Hps; [|by apply safe_quiet].
  case_match; [by apply safe_quiet|]. case_match; [by apply safe_quiet|].
  assert (∀ c, wf_prop (MkProposer (proposal ps) (value_len ps) (value ps) (promise_count ps)
                 (highest_accepted_in_promises ps) (highest_accepted_value_len ps)
                 (highest_accepted_value ps) (u16 (accepted_count ps + 1)) c)) as Hps'.
  { destruct (proj2 (wfn_props _ Hwf _ _ Hps)). intros c. split; simpl; auto. apply wrap_fits; lia. }
  case_bool_decide.
  2: { apply safe_quiet; [by apply put_proposer_wf|apply evolves_put_proposer]. }
  destruct (record_commit_ok (put_proposer n (instance_id (acc_hdr msg)) _)
              (instance_id (acc_hdr msg)) (acc_value msg) (acc_value_len msg)
              (put_proposer_wf _ _ _ Hwf Hid (Hps' true)) Hid Hlen Hb Hc) as (n' & -> & Hwf' & Hev').
  simpl. destruct (learn_loop_out n' (instance_id (acc_hdr msg)) (acc_value msg) (acc_value_len msg)
              (seqZ 0 (num_replicas_ n')) out) as (new & -> & Hnew); auto;
    [unfold fits in Hlen; lia|].
  simpl. exists kOk, n', new. split_and!; auto. etrans; [apply evolves_put_proposer|done].
Qed.

Lemma HandleMessage_safe n d out :
  wf n → is_bytes d → complete d → safe n out (HandleMessage n d out).
Proof.
  intros Hwf Hd Hc. unfold HandleMessage.
  destruct (Nat.ltb_spec (length d) sizeof_PaxosMsgHeader); [by apply safe_quiet|].
  change (msg_type (decode_hdr d)) with (field d 0 1).
  assert (field d 4 4 ∈u 32) by (by eapply field_fits).
  assert (∀ off, field d off 2 ∈u 16) by (intros; by eapply field_fits).
  assert (∀ off, is_bytes (slice d off 128)) by (intros; by apply slice_is_bytes).
  assert (∀ off, wf_pn (decode_pn d off)) by (intros; by apply decode_pn_wf).
  unfold complete, payload_end in Hc.
  destruct (Z.eqb_spec (field d 0 1) kPrepare) as [E|];
    [destruct (sizeof_PrepareMsg <=? _)%nat; [apply HandlePrepare_safe; simpl; auto|by apply safe_quiet]|].
  destruct (Z.eqb_spec (field d 0 1) kPromise) as [E|].
  { destruct (Nat.leb_spec (sizeof_PromiseMsg - 128) (length d)) as [Hl|]; [|by apply safe_quiet].
    rewrite ?E in Hc. simpl in Hl, Hc. apply HandlePromise_safe; simpl; auto. rewrite slice_len by lia. lia. }
  destruct (Z.eqb_spec (field d 0 1) kAccept) as [E|].
  { destruct (Nat.leb_spec (sizeof_AcceptMsg - 128) (length d)) as [Hl|]; [|by apply safe_quiet].
    rewrite ?E in Hc. simpl in Hl, Hc. apply HandleAccept_safe; simpl; auto. rewrite slice_len by lia. lia. }
  destruct (Z.eqb_spec (field d 0 1) kAccepted) as [E|].
  { destruct (Nat.leb_spec (sizeof_AcceptMsg - 128) (length d)) as [Hl|]; [|by apply safe_quiet].
    rewrite ?E in Hc. simpl in Hl, Hc. apply HandleAccepted_safe; simpl; auto. rewrite slice_len by lia. lia. }
  destruct (Z.eqb_spec (field d 0 1) kLearn) as [E|].
  { destruct (Nat.leb_spec (sizeof_LearnMsg - 128) (length d)) as [Hl|]; [|by apply safe_quiet].
    rewrite ?E in Hc. simpl in Hl, Hc. apply HandleLearn_safe; simpl; auto. rewrite slice_len by lia. lia. }
  destruct (Z.eqb_spec (field d 0 1) kNack) as [E|]; [|by apply safe_quiet].
  destruct (sizeof_NackMsg <=? _)%nat; [apply HandleNack_safe; simpl; auto|by apply safe_quiet].
Qed.

(** ** The proposer API is safe *)

Lemma fresh_proposal_wf n : wf n → wf_pn (MkProposal (u32 (current_round_ n + 1)) (node_id_ n) 0).
Proof.
  intros []. split_and!; simpl; [apply wrap_fits; lia| |by vm_compute].
  by eapply fits_mono; [|done].
Qed.

Lemma old_proposer_wf n id :
  wf n → wf_prop (default new_proposer (proposer_state_ n !! id)).
Proof.
  intros Hwf. destruct (proposer_state_ n !! id) eqn:Hp; simpl; auto with hcop.
  exact (proj2 (wfn_props _ Hwf _ _ Hp)).
Qed.

Lemma Propose_safe n id val len out :
  wf n → id ∈u 32 → is_bytes val → 0 ≤ len ≤ Z.of_nat (length val) →
  safe n out (Propose n id val len out).
Proof.
  intros Hwf Hid Hv Hlen. unfold Propose, kMaxValueSize.
  case_bool_decide; [by apply safe_quiet|]. case_match; [by apply safe_quiet|].
  get_instance Hwf Hid. simpl.
  set (ps := default _ _). assert (wf_prop ps) as Hwp by (by apply old_proposer_wf).
  pose proof Hwp as [].
  destruct (copy_ok (value ps) val len) as (v & Hm & Hbuf & _); auto; [lia..|].
  unfold kMaxValueSize in Hm. rewrite Z.min_l in Hm by lia. rewrite Hm. simpl.
  match goal with |- context [MakeAcceptBroadcast ?n ?id ?p ?v ?l] =>
    destruct (MakeAcceptBroadcast_out n id p v l) as (m & -> & Hout); auto; [lia..|] end. simpl.
  pose proof (fresh_proposal_wf n' Hwf') as Hpn.
  apply safe_send; [| |done].
  - apply put_proposer_wf; [apply set_round_wf; [done|apply wrap_fits; lia]|done|].
    split; simpl; auto; [lia|by vm_compute].
  - etrans; [done|]. by apply evolves_same.
Qed.

Lemma StartLeaderElection_safe n id out :
  wf n → id ∈u 32 → safe n out (StartLeaderElection n id out).
Proof.
  intros Hwf Hid. unfold StartLeaderElection. get_instance Hwf Hid. simpl.
  set (n1 := exception_cb n' _ _).
  assert (wf n1) as Hwf1 by (by apply exception_cb_wf).
  set (ps := default _ _). assert (wf_prop ps) as Hwp by (by apply (old_proposer_wf n1)).
  pose proof Hwp as []. pose proof (fresh_proposal_wf n1 Hwf1) as Hpn.
  apply safe_send; [| |apply MakePrepareBroadcast_out].
  - apply put_proposer_wf; [apply set_round_wf; [done|apply wrap_fits; lia]|done|].
    split; simpl; auto with hcop; by vm_compute.
  - etrans; [done|]. etrans; [apply evolves_exception|]. by apply evolves_same.
Qed.

(** ** Theorems about one replica *)

(** a well-formed replica handles any message whose buffer holds the value it declares
    without undefined behaviour; the replica stays well formed, it evolves by the acceptor
    rules, and every message it sends is again complete. *)
Theorem handle_message_safe n d out :
  wf n → is_bytes d → complete d →
  ∃ st n' new, HandleMessage n d out = Some (st, n', out ++ new) ∧ wf n' ∧ evolves n n' ∧
               Forall wf_out new.
Proof. apply HandleMessage_safe. Qed.

Definition demo_node : PaxosNode := MkNode 0 3 2 0 0 10 ∅ ∅ false [].

Lemma demo_node_wf : wf demo_node.
Proof. by apply (new_node_wf 0 3 10). Qed.

(** A PREPARE from node 1, round 4, instance 7. *)
Definition demo_prepare : bytes :=
  encode_Prepare (MkPrepareMsg (MkHeader kPrepare 1 3 7) (MkProposal 4 1 0)).

Lemma handle_message_safe_witness :
  ∃ st n' new, HandleMessage demo_node demo_prepare [] = Some (st, n', [] ++ new) ∧ wf n' ∧
               evolves demo_node n' ∧ Forall wf_out new.
Proof.
  apply handle_message_safe; [apply demo_node_wf|by apply is_bytesb_sound; vm_compute|by vm_compute].
Defined.

(** [HandleMessage] only checks the length of the fixed part: an ACCEPT for an instance
    that is not committed, at or above its promise, whose declared value runs past the end
    of the buffer makes the replica read out of bounds. *)
Theorem truncated_accept_undefined n d out i :
  is_bytes d → (18 ≤ length d)%nat → field d 0 1 = kAccept → ¬ complete d →
  instances_ n !! field d 4 4 = Some i → is_committed i = false →
  pn_geb (decode_pn d 8) (highest_promised i) = true →
  HandleMessage n d out = None.
Proof.
  intros Hd Hlen Hty Hc Hi Hcom Hge. unfold HandleMessage, sizeof_PaxosMsgHeader, sizeof_AcceptMsg.
  rewrite (proj2 (Nat.ltb_ge _ _)) by lia.
  change (msg_type (decode_hdr d)) with (field d 0 1). rewrite Hty. simpl (_ =? _). cbv iota.
  rewrite (proj2 (Nat.leb_le (146 - 128) _)) by (simpl; lia).
  unfold HandleAccept, GetOrCreateInstance. simpl instance_id. rewrite Hi, Hcom. simpl.
  rewrite Hge. unfold complete, payload_end in Hc. rewrite Hty in Hc. simpl in Hc.
  unfold memcpy. rewrite decide_False; [done|]. rewrite slice_len by lia. unfold kMaxValueSize.
  pose proof (field_fits d 16 2 16 eq_refl Hd). unfold fits in *. lia.
Qed.

Lemma truncated_accept_undefined_witness :
  HandleMessage (set_instances demo_node {[7 := new_instance]})
    ([3; 1; 3; 0; 7; 0; 0; 0] ++ [4; 0; 0; 0; 1; 0; 0; 0] ++ [5; 0]) [] = None.
Proof.
  apply (truncated_accept_undefined _ _ _ new_instance);
    [by apply is_bytesb_sound; vm_compute|simpl; lia|by vm_compute| |by vm_compute..].
  vm_compute. intros H. by apply H.
Defined.

(** One step of a replica: a message, a proposal or an election that returns. *)
Inductive node_step (n : PaxosNode) : PaxosNode → Prop :=
| node_message d st n' new :
    is_bytes d → complete d → HandleMessage n d [] = Some (st, n', new) → node_step n n'
| node_propose id val len st n' new :
    id ∈u 32 → is_bytes val → 0 ≤ len ≤ Z.of_nat (length val) →
    Propose n id val len [] = Some (st, n', new) → node_step n n'
| node_elect id st n' new :
    id ∈u 32 → StartLeaderElection n id [] = Some (st, n', new) → node_step n n'.

Lemma safe_inv n r st n' new :
  safe n [] r → r = Some (st, n', new) → wf n' ∧ evolves n n' ∧ Forall wf_out new.
Proof. intros (st' & n'' & new' & -> & Ha & Hb & Hc) Heq. by simplify_eq/=. Qed.

Lemma node_step_ok n n' : node_step n n' → wf n → wf n' ∧ evolves n n'.
Proof.
  intros Hs Hwf.
  destruct Hs as [d st n' new Hb Hc HM|id val len st n' new Hid Hv Hl HP|id st n' new Hid HE].
  - by destruct (safe_inv n _ _ _ _ (HandleMessage_safe n d [] Hwf Hb Hc) HM) as (? & ? & _).
  - by destruct (safe_inv n _ _ _ _ (Propose_safe n id val len [] Hwf Hid Hv Hl) HP) as (? & ? & _).
  - by destruct (safe_inv n _ _ _ _ (StartLeaderElection_safe n id [] Hwf Hid) HE) as (? & ? & _).
Qed.

(** over any history of messages, proposals and elections, a replica's promise for an
    instance never decreases, a committed instance stays committed, it never accepts below
    what it had promised, and its accepted proposal never exceeds its promise. *)
Theorem acceptor_rules n n' id i :
  rtc node_step n n' → wf n → instances_ n !! id = Some i →
  ∃ i', instances_ n' !! id = Some i' ∧ acceptor_step i i' ∧
        pn_le (accepted_proposal i') (highest_promised i').
Proof.
  intros Hs Hwf Hi.
  assert (wf n' ∧ evolves n n') as [Hwf' Hev].
  { clear Hi. induction Hs as [|n1 n2 n3 H1 _ IH]; [by split|].
    destruct (node_step_ok _ _ H1 Hwf) as [Hwf2 ?]. destruct (IH Hwf2). split; [done|by etrans]. }
  destruct (ev_inst _ _ Hev _ _ Hi) as (i' & Hi' & ?).
  exists i'. split_and!; auto. exact (wfi_le _ (proj2 (wfn_insts _ Hwf' _ _ Hi'))).
Qed.

(** The replica that has seen instance 7, and the state a PREPARE leaves it in. *)
Definition seen_node : PaxosNode := set_instances demo_node {[7 := new_instance]}.

Definition prepared_node : PaxosNode :=
  match HandleMessage seen_node demo_prepare [] with Some (_, n', _) => n' | None => seen_node end.

Lemma acceptor_rules_witness :
  ∃ i', instances_ prepared_node !! 7 = Some i' ∧ acceptor_step new_instance i' ∧
        pn_le (accepted_proposal i') (highest_promised i').
Proof.
  apply (acceptor_rules seen_node); [| |done].
  - eapply rtc_once, (node_message _ demo_prepare).
    + by apply is_bytesb_sound; vm_compute.
    + by vm_compute.
    + vm_compute. reflexivity.
  - destruct demo_node_wf. split; simpl; auto.
    + apply map_Forall_singleton. split; [by vm_compute|apply new_instance_wf].
Defined.

End paxos_inv.
