(* ===== verification/PaxosNet.v ===== *)
(** * A network of Paxos replicas

    Replicas of PaxosState.v joined by a network that may delay, lose, duplicate and reorder
    messages: a message once sent can be delivered to a replica it is addressed to at any
    later time, any number of times.  Shows that no execution reaches undefined behaviour,
    that only proposed values, or the empty value of an election, are committed, and an execution
    in which two replicas commit different values. *)

From S2P Require Import Prelude.
From S2P Require Import HcopProto.
From S2P Require Import PaxosState.
From S2P Require Import PaxosInv.

Module paxos_net.
Import paxos paxos_inv.

(** ** The system *)

Record sys := MkSys {
  nodes : list PaxosNode;        (* replica [k] at position [k] *)
  soup : list OutMessage;        (* every message ever sent *)
  proposed : list (Z * bytes);   (* values put forward, by a proposal or an election *)
}.

Inductive action :=
| ADeliver (k j : nat)               (* message [j] of the soup reaches replica [k] *)
| APropose (k : nat) (id : Z) (val : bytes)
| AElect (k : nat) (id : Z).

#[global] Instance action_eq_dec : EqDecision action.
Proof. solve_decision. Defined.

(** [dest_id] is a replica number or [kBroadcast]. *)
Definition addressed (m : OutMessage) (k : nat) : bool :=
  (dest_id m =? Z.of_nat k) || (dest_id m =? kBroadcast).

Definition apply_result (s : sys) (k : nat) (r : option (PaxosStatus * PaxosNode * list OutMessage))
    (props : list (Z * bytes)) : option sys :=
  '(_, n', out) ← r;
  Some (MkSys (<[k := n']> (nodes s)) (soup s ++ out) (proposed s ++ props)).

(** An election on an instance the replica never proposed for puts the empty value forward. *)
Definition election_value (n : PaxosNode) (id : Z) : list (Z * bytes) :=
  match proposer_state_ n !! id with Some _ => [] | None => [(id, [])] end.

Definition step (s : sys) (a : action) : option sys :=
  match a with
  | ADeliver k j =>
      n ← nodes s !! k; m ← soup s !! j;
      if addressed m k then apply_result s k (HandleMessage n (data m) []) [] else None
  | APropose k id val =>
      n ← nodes s !! k;
      apply_result s k (Propose n id val (Z.of_nat (length val)) []) [(id, val)]
  | AElect k id =>
      n ← nodes s !! k;
      apply_result s k (StartLeaderElection n id []) (election_value n id)
  end.

Fixpoint run (s : sys) (acts : list action) : option sys :=
  match acts with
  | [] => Some s
  | a :: acts => s' ← step s a; run s' acts
  end.

(** [num] fresh replicas. *)
Definition init_sys (num max_instances : Z) : option sys :=
  ns ← mapM (λ k, new_PaxosNode k num max_instances) (seqZ 0 num);
  Some (MkSys ns [] []).

(** ** Carried values *)

Section values.
Context (P : Z → bytes → Prop).

(** The first [len] bytes of [v] are a value of [P] for the instance. *)
Definition carries (id len : Z) (v : bytes) : Prop :=
  0 ≤ len ≤ 128 ∧ len ≤ Z.of_nat (length v) ∧ P id (take (Z.to_nat len) v).

Record good_inst (id : Z) (i : InstanceState) : Prop := {
  gi_accepted : IsNull (accepted_proposal i) = true ∨
                carries id (accepted_value_len i) (accepted_value i);
  gi_committed : is_committed i = true → carries id (committed_value_len i) (committed_value i);
}.

Record good_prop (id : Z) (p : ProposerInstanceState) : Prop := {
  gp_value : carries id (value_len p) (value p);
  gp_high : IsNull (highest_accepted_in_promises p) = true ∨
            carries id (highest_accepted_value_len p) (highest_accepted_value p);
}.

Record good_node (n : PaxosNode) : Prop := {
  gn_insts : map_Forall good_inst (instances_ n);
  gn_props : map_Forall good_prop (proposer_state_ n);
}.

Record good_msg (d : bytes) : Prop := {
  gm_accept : field d 0 1 = kAccept ∨ field d 0 1 = kAccepted →
              carries (field d 4 4) (field d 16 2) (slice d 18 128);
  gm_learn : field d 0 1 = kLearn → carries (field d 4 4) (field d 8 2) (slice d 10 128);
  gm_promise : field d 0 1 = kPromise → IsNull (decode_pn d 16) = true ∨
               carries (field d 4 4) (field d 24 2) (slice d 26 128);
}.

Definition good_out (m : OutMessage) : Prop := good_msg (data m).

Lemma good_new_inst id : good_inst id new_instance.
Proof. by split; [left|]. Qed.

(** A copy of a carried value is carried. *)
Lemma carries_copy id len v dst r :
  carries id len v → memcpy dst v len = Some r → carries id len r.
Proof.
  intros (Hl & Hv & HP) Hm. pose proof (memcpy_Some _ _ _ _ Hm) as (_ & Hd & _).
  split_and!; [lia|lia|rewrite (memcpy_length _ _ _ _ Hm); lia|].
  by rewrite (memcpy_take _ _ _ _ Hm).
Qed.

Lemma carries_copy_min id len v dst r :
  carries id len v → memcpy dst v (Z.min len kMaxValueSize) = Some r → carries id len r.
Proof.
  intros Hc. rewrite Z.min_l by (destruct Hc; unfold kMaxValueSize; lia). by apply carries_copy.
Qed.

(** *** Encoded messages *)

Lemma good_accept dest h p len v :
  msg_type h = kAccept ∨ msg_type h = kAccepted → sender_id h ∈u 8 → num_replicas h ∈u 16 →
  instance_id h ∈u 32 → length v = 128%nat → carries (instance_id h) len v →
  good_out (MkOut dest (encode_Accept (MkAcceptMsg h p len v))).
Proof.
  intros Hty Hs Hr Hid Hv Hc. unfold good_out, encode_Accept, encode_hdr, encode_pn; simpl.
  assert (msg_type h ∈u 8) by (destruct Hty as [-> | ->]; by vm_compute).
  assert (len ∈u 16) by (destruct Hc; widths).
  split; intros Hm.
  - replace (field _ 4 4) with (instance_id h) by (by struct_fields).
    replace (field _ 16 2) with len by (by struct_fields).
    replace (slice _ 18 128) with v; [done|].
    repeat rewrite <- app_assoc. repeat (rewrite slice_skip by lia; cbn [Nat.sub]).
    by rewrite slice_all.
  - exfalso. revert Hm. struct_fields. intros Hm. rewrite Hm in Hty. destruct Hty; done.
  - exfalso. revert Hm. struct_fields. intros Hm. rewrite Hm in Hty. destruct Hty; done.
Qed.

Lemma good_learn dest h len v :
  msg_type h = kLearn → sender_id h ∈u 8 → num_replicas h ∈u 16 →
  instance_id h ∈u 32 → length v = 128%nat → carries (instance_id h) len v →
  good_out (MkOut dest (encode_Learn (MkLearnMsg h len v))).
Proof.
  intros Hty Hs Hr Hid Hv Hc. unfold good_out, encode_Learn, encode_hdr; simpl.
  assert (msg_type h ∈u 8) by (rewrite Hty; by vm_compute).
  assert (len ∈u 16) by (destruct Hc; widths).
  split; intros Hm; try (exfalso; revert Hm; struct_fields; rewrite Hty; intuition done).
  replace (field _ 4 4) with (instance_id h) by (by struct_fields).
  replace (field _ 8 2) with len by (by struct_fields).
  replace (slice _ 10 128) with v; [done|].
  repeat rewrite <- app_assoc. repeat (rewrite slice_skip by lia; cbn [Nat.sub]).
  by rewrite slice_all.
Qed.

Lemma good_promise dest h p a len v :
  msg_type h = kPromise → sender_id h ∈u 8 → num_replicas h ∈u 16 →
  instance_id h ∈u 32 → wf_pn a → len ∈u 16 → length v = 128%nat →
  IsNull a = true ∨ carries (instance_id h) len v →
  good_out (MkOut dest (encode_Promise (MkPromiseMsg h p a len v))).
Proof.
  intros Hty Hs Hr Hid (Ha1 & Ha2 & _) Hlen Hv Hc.
  unfold good_out, encode_Promise, encode_hdr, encode_pn; simpl.
  assert (msg_type h ∈u 8) by (rewrite Hty; by vm_compute).
  split; intros Hm; try (exfalso; revert Hm; struct_fields; rewrite Hty; intuition done).
  replace (IsNull _) with (IsNull a).
  2: { unfold IsNull, decode_pn; simpl. f_equal; f_equal; symmetry; by struct_fields. }
  replace (field _ 4 4) with (instance_id h) by (by struct_fields).
  replace (field _ 24 2) with len by (by struct_fields).
  replace (slice _ 26 128) with v; [done|].
  repeat rewrite <- app_assoc. repeat (rewrite slice_skip by lia; cbn [Nat.sub]).
  by rewrite slice_all.
Qed.

(** PREPARE and NACK carry no value. *)
Lemma good_valueless dest h body :
  msg_type h = kPrepare ∨ msg_type h = kNack → good_out (MkOut dest (encode_hdr h ++ body)).
Proof.
  intros Hty. assert (msg_type h ∈u 8) by (destruct Hty as [-> | ->]; by vm_compute).
  split; simpl; rewrite hdr_type by done; destruct Hty as [-> | ->]; intuition done.
Qed.

(** ** Every operation keeps the values *)

Definition keeps (r : option (PaxosStatus * PaxosNode * list OutMessage)) : Prop :=
  ∀ st n' out', r = Some (st, n', out') → good_node n' ∧ Forall good_out out'.

Lemma keeps_quiet st n : good_node n → keeps (Some (st, n, [])).
Proof. intros Hg st' n' out' Heq. by simplify_eq. Qed.

Lemma keeps_send st n m : good_node n → good_out m → keeps (Some (st, n, [] ++ [m])).
Proof. intros Hg Hm st' n' out' Heq. simplify_eq/=. auto. Qed.

Lemma good_same n n' :
  instances_ n' = instances_ n → proposer_state_ n' = proposer_state_ n → good_node n → good_node n'.
Proof. intros Hi Hp []. split; [by rewrite Hi|by rewrite Hp]. Qed.

Lemma good_exception n ty id : good_node n → good_node (exception_cb n ty id).
Proof.
  destruct (exception_cb_fields n ty id) as (?&?&?&?&?&?&?). by apply good_same.
Qed.

Lemma good_put_instance n id i : good_node n → good_inst id i → good_node (put_instance n id i).
Proof. intros [] ?. split; simpl; [by apply map_Forall_insert_2|done]. Qed.

Lemma good_put_proposer n id p : good_node n → good_prop id p → good_node (put_proposer n id p).
Proof. intros [] ?. split; simpl; [done|by apply map_Forall_insert_2]. Qed.

(** The header fields of a well-formed replica fit their widths. *)
Lemma hdr_fits n : wf n → node_id_ n ∈u 8 ∧ num_replicas_ n ∈u 16.
Proof. intros []. split; [done|widths]. Qed.

Lemma copy_len (v r : bytes) len : memcpy zeros v len = Some r → length r = 128%nat.
Proof. intros ->%memcpy_length. done. Qed.

Lemma MakeAcceptBroadcast_good n id p v len m :
  wf n → id ∈u 32 → carries id len v → MakeAcceptBroadcast n id p v len = Some m → good_out m.
Proof.
  intros [??]%hdr_fits ? Hc Hm. unfold MakeAcceptBroadcast in Hm. simplify_option_eq.
  assert (Z.min len kMaxValueSize = len) as Hl by (destruct Hc; unfold kMaxValueSize; lia).
  rewrite Hl in *. eapply good_accept; simpl; eauto using copy_len, carries_copy.
Qed.

Lemma MakeAccepted_good n dest id p v len m :
  wf n → id ∈u 32 → carries id len v → MakeAccepted n dest id p v len = Some m → good_out m.
Proof.
  intros [??]%hdr_fits ? Hc Hm. unfold MakeAccepted in Hm. simplify_option_eq.
  assert (Z.min len kMaxValueSize = len) as Hl by (destruct Hc; unfold kMaxValueSize; lia).
  rewrite Hl in *. eapply good_accept; simpl; eauto using copy_len, carries_copy.
Qed.

Lemma MakeLearn_good n dest id v len m :
  wf n → id ∈u 32 → carries id len v → MakeLearn n dest id v len = Some m → good_out m.
Proof.
  intros [??]%hdr_fits ? Hc Hm. unfold MakeLearn in Hm. simplify_option_eq.
  assert (Z.min len kMaxValueSize = len) as Hl by (destruct Hc; unfold kMaxValueSize; lia).
  rewrite Hl in *. eapply good_learn; simpl; eauto using copy_len, carries_copy.
Qed.

Lemma MakePromise_good n dest id i m :
  wf n → id ∈u 32 → wf_inst i → good_inst id i → MakePromise n dest id i = Some m → good_out m.
Proof.
  intros [??]%hdr_fits ? Hwi [Ha _] Hm. unfold MakePromise in Hm. simplify_option_eq.
  destruct Hwi. eapply good_promise; simpl; eauto using copy_len; [widths|].
  destruct Ha; eauto using carries_copy.
Qed.

Lemma learn_loop_good n id v len rs : ∀ out out',
  wf n → id ∈u 32 → carries id len v → Forall good_out out →
  learn_loop n id v len rs out = Some out' → Forall good_out out'.
Proof.
  induction rs as [|r rs IH]; intros out out' Hwf Hid Hc Hout Hl; simplify_eq/=; [done|].
  case_match; [by eapply IH|]. destruct (MakeLearn _ _ _ _ _) as [m|] eqn:Hm; simplify_eq/=.
  eapply IH; [..|done]; auto. apply Forall_app; split; [done|].
  constructor; [by eapply MakeLearn_good|done].
Qed.

(** Cases on [GetOrCreateInstance]; the entry it returns is good, and the table-full case
    is closed. *)
Ltac get_good Hwf Hid Hg :=
  match goal with |- context [GetOrCreateInstance ?n ?id] =>
    destruct (GetOrCreateInstance_spec n id Hwf Hid)
      as [Hnone Hfull|i n' Hwi Hwf' Hin Hins Hps Hnid Hrep Hq Hrnd Hold];
    [by apply keeps_quiet, good_exception|];
    assert (good_inst id i) as Hgi
      by (destruct Hold as [Hold|[_ ->]]; [exact (gn_insts _ Hg _ _ Hold)|apply good_new_inst]);
    assert (good_node n') as Hg'
      by (split; [rewrite Hins; apply map_Forall_insert_2; [done|apply Hg]|rewrite Hps; apply Hg])
  end.

Lemma HandlePrepare_keeps n msg :
  wf n → good_node n → instance_id (prep_hdr msg) ∈u 32 → wf_pn (prep_proposal msg) →
  keeps (HandlePrepare n msg []).
Proof.
  intros Hwf Hg Hid Hp. unfold HandlePrepare. get_good Hwf Hid Hg.
  destruct (pn_gtb _ _) eqn:Hgt; [|apply keeps_send; [done|apply good_valueless; by right]].
  set (i' := MkInstance _ _ _ _ _ _ _).
  assert (good_inst (instance_id (prep_hdr msg)) i') as Hgi' by (destruct Hgi; by split).
  assert (wf_inst i') as Hwi'.
  { destruct Hwi. split; simpl; auto. etrans; [done|by apply pn_gtb_le]. }
  destruct (MakePromise _ _ _ _) as [m|] eqn:Hm; [|done]. simpl.
  apply keeps_send; [by apply good_put_instance|].
  eapply MakePromise_good; [| | | |exact Hm]; auto. by apply put_instance_wf.
Qed.

Lemma HandleLearn_keeps n msg :
  wf n → good_node n → instance_id (learn_hdr msg) ∈u 32 →
  carries (instance_id (learn_hdr msg)) (learn_value_len msg) (learn_value msg) →
  keeps (HandleLearn n msg []).
Proof.
  intros Hwf Hg Hid Hc. unfold HandleLearn. get_good Hwf Hid Hg.
  destruct (is_committed i); [by apply keeps_quiet|]. unfold commit.
  destruct (memcpy _ _ _) as [v|] eqn:Hm; [|done]. simpl.
  apply keeps_quiet, good_put_instance; [done|].
  destruct Hgi. split; simpl; eauto using carries_copy_min.
Qed.

Lemma HandleNack_keeps n msg : good_node n → keeps (HandleNack n msg []).
Proof.
  intros Hg. unfold HandleNack. set (n1 := exception_cb _ _ _).
  assert (good_node n1) by (by apply good_exception).
  apply keeps_quiet. case_bool_decide; [by apply (good_same n1)|done].
Qed.

Lemma HandleAccept_keeps n msg :
  wf n → good_node n → instance_id (acc_hdr msg) ∈u 32 → wf_pn (acc_proposal msg) →
  is_bytes (acc_value msg) →
  carries (instance_id (acc_hdr msg)) (acc_value_len msg) (acc_value msg) →
  keeps (HandleAccept n msg []).
Proof.
  intros Hwf Hg Hid Hp Hb Hc. unfold HandleAccept. get_good Hwf Hid Hg.
  destruct (is_committed i) eqn:Hcom.
  { destruct (MakeLearn _ _ _ _ _) as [m|] eqn:Hm; [|done]. simpl. apply keeps_send; [done|].
    eapply MakeLearn_good; [exact Hwf'|done| |exact Hm]. by apply Hgi. }
  destruct (pn_geb _ _) eqn:Hge.
  2: { intros st n'' out' Heq. simplify_eq/=. split; [by apply good_exception|].
       constructor; [apply good_valueless; by right|done]. }
  destruct (memcpy _ _ _) as [v|] eqn:Hv; [|done]. simpl.
  set (i' := MkInstance _ _ _ _ _ _ _). set (n'' := put_instance _ _ _).
  destruct (MakeAccepted n'' _ _ _ _ _) as [m|] eqn:Hm; [|done]. simpl.
  assert (Z.min (acc_value_len msg) kMaxValueSize = acc_value_len msg) as Hl
    by (destruct Hc; unfold kMaxValueSize; lia).
  apply keeps_send.
  - apply good_put_instance; [done|]. destruct Hgi.
    split; simpl; [right; rewrite Hl in *; eauto using carries_copy|congruence].
  - eapply MakeAccepted_good; [|done|exact Hc|exact Hm].
    pose proof (wfi_val _ Hwi) as [Hvl Hvb].
    apply put_instance_wf; eauto. destruct Hwi. split; simpl; auto.
    + reflexivity.
    + destruct Hc; unfold kMaxValueSize; lia.
    + split; [by rewrite (memcpy_length _ _ _ _ Hv)|].
      by eapply memcpy_is_bytes; [exact Hv| |].
Qed.

Lemma track_promise_good id msg ps ps' :
  good_prop id ps →
  IsNull (prom_accepted msg) = true ∨ carries id (prom_value_len msg) (prom_value msg) →
  track_promise msg ps = Some ps' → good_prop id ps'.
Proof.
  intros [Hv Hh] Hc Ht. unfold track_promise in Ht.
  destruct (negb _ && _) eqn:Htest; simplify_option_eq; [|by split].
  apply andb_true_iff in Htest as [Hnn%negb_true_iff _].
  destruct Hc as [Hc|Hc]; [congruence|]. split; simpl; eauto using carries_copy_min.
Qed.

Lemma HandlePromise_keeps n msg :
  wf n → good_node n → instance_id (prom_hdr msg) ∈u 32 → wf_pn (prom_accepted msg) →
  prom_value_len msg ∈u 16 → is_bytes (prom_value msg) →
  Z.min (prom_value_len msg) 128 ≤ Z.of_nat (length (prom_value msg)) →
  IsNull (prom_accepted msg) = true ∨
    carries (instance_id (prom_hdr msg)) (prom_value_len msg) (prom_value msg) →
  keeps (HandlePromise n msg []).
Proof.
  intros Hwf Hg Hid Hpn Hlen Hb Hbnd Hc. unfold HandlePromise.
  destruct (proposer_state_ n !! _) as [ps|] eqn:Hps; [|by apply keeps_quiet].
  case_match; [by apply keeps_quiet|].
  destruct (track_promise_wf msg ps) as (ps' & Ht & Hwp);
    [exact (proj2 (wfn_props _ Hwf _ _ Hps))|done..|].
  pose proof (track_promise_good _ _ _ _ (gn_props _ Hg _ _ Hps) Hc Ht) as Hgp.
  rewrite Ht. simpl. case_bool_decide; [|by apply keeps_quiet, good_put_proposer].
  destruct (IsNull (highest_accepted_in_promises ps')) eqn:Hnull; simpl;
    set (n1 := put_proposer _ _ _);
    (assert (wf n1) by (apply put_proposer_wf; [done|done|destruct Hwp; by split]));
    (assert (good_node n1) by (apply good_put_proposer; [done|destruct Hgp; by split]));
    destruct (MakeAcceptBroadcast _ _ _ _ _) as [m|] eqn:Hm; try done; simpl;
    (apply keeps_send; [done|]);
    (eapply MakeAcceptBroadcast_good; [| |  |exact Hm]; auto; destruct Hgp as [? [?|?]]; congruence || done).
Qed.

Lemma HandleAccepted_keeps n msg :
  wf n → good_node n → instance_id (acc_hdr msg) ∈u 32 → acc_value_len msg ∈u 16 →
  is_bytes (acc_value msg) → Z.min (acc_value_len msg) 128 ≤ Z.of_nat (length (acc_value msg)) →
  carries (instance_id (acc_hdr msg)) (acc_value_len msg) (acc_value msg) →
  keeps (HandleAccepted n msg []).
Proof.
  intros Hwf Hg Hid Hlen Hb Hbnd Hc. unfold HandleAccepted.
  destruct (proposer_state_ n !! _) as [ps|] eqn:Hps; [|by apply keeps_quiet].
  case_match; [by apply keeps_quiet|]. case_match; [by apply keeps_quiet|].
  pose proof (gn_props _ Hg _ _ Hps) as Hgp.
  pose proof (proj2 (wfn_props _ Hwf _ _ Hps)) as Hwp.
  case_bool_decide; [|apply keeps_quiet, good_put_proposer; [done|destruct Hgp; by split]].
  set (n1 := put_proposer _ _ _).
  assert (wf n1) as Hwf1.
  { apply put_proposer_wf; [done|done|]. destruct Hwp. split; simpl; auto. apply wrap_fits; lia. }
  assert (good_node n1) as Hg1 by (apply good_put_proposer; [done|destruct Hgp; by split]).
  destruct (record_commit_ok n1 (instance_id (acc_hdr msg)) (acc_value msg) (acc_value_len msg)
              Hwf1 Hid Hlen Hb Hbnd) as (n2 & Hn2 & Hwf2 & _).
  rewrite Hn2. simpl.
  assert (good_node n2) as Hg2.
  { revert Hn2. destruct (GetOrCreateInstance_spec n1 _ Hwf1 Hid)
      as [Hnone Hfull|i n' Hwi Hwf' Hin Hins Hps' _ _ _ _ Hold].
    - intros. simplify_eq. by apply good_exception.
    - assert (good_inst (instance_id (acc_hdr msg)) i) as Hgi
        by (destruct Hold as [Hold|[_ ->]]; [exact (gn_insts _ Hg1 _ _ Hold)|apply good_new_inst]).
      unfold commit. destruct (memcpy _ _ _) as [v|] eqn:Hm; simpl; [|done].
      intros Heq. simplify_eq. apply good_put_instance.
      + split; [rewrite Hins; apply map_Forall_insert_2; [done|apply Hg1]|rewrite Hps'; apply Hg1].
      + destruct Hgi. split; simpl; eauto using carries_copy_min. }
  destruct (learn_loop _ _ _ _ _ _) as [out|] eqn:Hl; [|done]. simpl.
  intros st n' out' Heq. simplify_eq/=. split; [done|]. by eapply learn_loop_good.
Qed.

Lemma HandleMessage_keeps n d :
  wf n → good_node n → is_bytes d → complete d → good_msg d → keeps (HandleMessage n d []).
Proof.
  intros Hwf Hg Hd Hc [Ga Gl Gp]. unfold HandleMessage.
  destruct (Nat.ltb_spec (length d) sizeof_PaxosMsgHeader); [by apply keeps_quiet|].
  change (msg_type (decode_hdr d)) with (field d 0 1).
  assert (field d 4 4 ∈u 32) by (by eapply field_fits).
  assert (∀ off, field d off 2 ∈u 16) by (intros; by eapply field_fits).
  assert (∀ off, is_bytes (slice d off 128)) by (intros; by apply slice_is_bytes).
  assert (∀ off, wf_pn (decode_pn d off)) by (intros; by apply decode_pn_wf).
  unfold complete, payload_end in Hc.
  destruct (Z.eqb_spec (field d 0 1) kPrepare) as [E|];
    [destruct (sizeof_PrepareMsg <=? _)%nat; [apply HandlePrepare_keeps; simpl; auto|by apply keeps_quiet]|].
  destruct (Z.eqb_spec (field d 0 1) kPromise) as [E|].
  { destruct (Nat.leb_spec (sizeof_PromiseMsg - 128) (length d)) as [Hl|]; [|by apply keeps_quiet].
    rewrite ?E in Hc. simpl in Hl, Hc. apply HandlePromise_keeps; simpl; auto. rewrite slice_len by lia. lia. }
  destruct (Z.eqb_spec (field d 0 1) kAccept) as [E|].
  { destruct (_ <=? _)%nat; [apply HandleAccept_keeps; simpl; auto|by apply keeps_quiet]. }
  destruct (Z.eqb_spec (field d 0 1) kAccepted) as [E|].
  { destruct (Nat.leb_spec (sizeof_AcceptMsg - 128) (length d)) as [Hl|]; [|by apply keeps_quiet].
    rewrite ?E in Hc. simpl in Hl, Hc. apply HandleAccepted_keeps; simpl; auto. rewrite slice_len by lia. lia. }
  destruct (Z.eqb_spec (field d 0 1) kLearn) as [E|].
  { destruct (_ <=? _)%nat; [apply HandleLearn_keeps; simpl; auto|by apply keeps_quiet]. }
  destruct (Z.eqb_spec (field d 0 1) kNack) as [E|]; [|by apply keeps_quiet].
  destruct (_ <=? _)%nat; [by apply HandleNack_keeps|by apply keeps_quiet].
Qed.

Lemma old_proposer_good n id :
  good_node n → let ps := default new_proposer (proposer_state_ n !! id) in
  IsNull (highest_accepted_in_promises ps) = true ∨
    carries id (highest_accepted_value_len ps) (highest_accepted_value ps).
Proof.
  intros Hg. simpl. destruct (proposer_state_ n !! id) eqn:Hp; simpl; [|by left].
  by destruct (gn_props _ Hg _ _ Hp).
Qed.

Lemma Propose_keeps n id val :
  wf n → good_node n → id ∈u 32 → is_bytes val → P id val →
  keeps (Propose n id val (Z.of_nat (length val)) []).
Proof.
  intros Hwf Hg Hid Hv HP. unfold Propose, kMaxValueSize.
  case_bool_decide; [by apply keeps_quiet|]. case_match; [by apply keeps_quiet|].
  assert (carries id (Z.of_nat (length val)) val) as Hc.
  { split_and!; [lia..|]. by rewrite Nat2Z.id, firstn_all. }
  get_good Hwf Hid Hg. simpl. pose proof (old_proposer_good n' id Hg') as Hhigh.
  pose proof (old_proposer_wf n' id Hwf') as Hwp. set (ps := default _ _) in *. simpl in Hhigh.
  destruct (memcpy _ _ _) as [v|] eqn:Hm; [|done]. simpl. set (n1 := put_proposer _ _ _).
  pose proof (wfp_val _ Hwp) as [Hvl Hvb].
  assert (wf n1).
  { apply put_proposer_wf; [apply set_round_wf; [done|apply wrap_fits; lia]|done|].
    pose proof (fresh_proposal_wf n' Hwf') as Hpn. destruct Hwp. split; simpl; auto; [lia| |by vm_compute].
    split; [by rewrite (memcpy_length _ _ _ _ Hm)|by eapply memcpy_is_bytes; [exact Hm| |]]. }
  destruct (MakeAcceptBroadcast _ _ _ _ _) as [m|] eqn:Hmk; [|done]. simpl.
  apply keeps_send; [|by eapply MakeAcceptBroadcast_good; [| | |exact Hmk]].
  apply good_put_proposer; [by apply (good_same n')|].
  split; simpl; [by eapply carries_copy|done].
Qed.

Lemma StartLeaderElection_keeps n id :
  wf n → good_node n → id ∈u 32 → (proposer_state_ n !! id = None → P id []) →
  keeps (StartLeaderElection n id []).
Proof.
  intros Hwf Hg Hid HP. unfold StartLeaderElection. get_good Hwf Hid Hg. simpl.
  apply keeps_send; [|apply good_valueless; by left].
  destruct (exception_cb_fields n' hcop.kPaxosLeaderElection id) as (_&_&_&_&_&_&Hpe).
  apply good_put_proposer; [by apply (good_same (exception_cb n' hcop.kPaxosLeaderElection id)),
    good_exception|].
  rewrite Hpe, Hps. split; simpl; [|by left].
  destruct (proposer_state_ n !! id) eqn:Hp; simpl.
  - exact (gp_value _ _ (gn_props _ Hg _ _ Hp)).
  - split_and!; [lia..|]. by apply HP.
Qed.

End values.

(** ** Executions *)

Section mono.
Context {P Q : Z → bytes → Prop} (HPQ : ∀ id v, P id v → Q id v).

Lemma carries_mono id len v : carries P id len v → carries Q id len v.
Proof. intros (? & ? & ?). split; [done|]. auto. Qed.

Lemma good_node_mono n : good_node P n → good_node Q n.
Proof.
  intros [Hi Hp]. split; (eapply map_Forall_impl; [eassumption|]).
  - intros id i [Ha Hc]. split; [destruct Ha; eauto using carries_mono|eauto using carries_mono].
  - intros id p [Ha Hc]. split; [eauto using carries_mono|destruct Hc; eauto using carries_mono].
Qed.

Lemma good_out_mono m : good_out P m → good_out Q m.
Proof.
  intros [Ha Hl Hp]. split; eauto using carries_mono.
  intros E. destruct (Hp E); eauto using carries_mono.
Qed.

End mono.

(** The invariant of a system: replicas well formed, messages complete, and every value
    anywhere was proposed. *)
Record inv (s : sys) : Prop := {
  inv_nodes : Forall (λ n, wf n ∧ good_node (λ id v, (id, v) ∈ proposed s) n) (nodes s);
  inv_soup : Forall (λ m, wf_out m ∧ good_out (λ id v, (id, v) ∈ proposed s) m) (soup s);
}.

(** Arguments of an action are values of their C++ types. *)
Definition valid_action (s : sys) (a : action) : Prop :=
  match a with
  | ADeliver k j => (k < length (nodes s))%nat ∧ ∃ m, soup s !! j = Some m ∧ addressed m k = true
  | APropose k id val => (k < length (nodes s))%nat ∧ id ∈u 32 ∧ is_bytes val
  | AElect k id => (k < length (nodes s))%nat ∧ id ∈u 32
  end.

(** One replica's result, put back into the system. *)
Lemma apply_result_inv s k n r props :
  inv s → nodes s !! k = Some n → safe n [] r →
  keeps (λ id v, (id, v) ∈ proposed s ++ props) r →
  ∃ s', apply_result s k r props = Some s' ∧ inv s' ∧ length (nodes s') = length (nodes s) ∧
        proposed s' = proposed s ++ props.
Proof.
  intros [Hn Hs] Hk (st & n' & new & -> & Hwf & _ & Hout) Hkeep. simpl.
  destruct (Hkeep _ _ _ eq_refl) as [Hg Hgo]. simpl in Hgo.
  assert (∀ id v, (id, v) ∈ proposed s → (id, v) ∈ proposed s ++ props) as Hmono
    by (intros; apply elem_of_app; by left).
  eexists. split; [done|]. split; [|split; [apply length_insert|done]]. split; simpl.
  - apply Forall_insert; [|done]. eapply Forall_impl; [exact Hn|].
    intros n0 [? Hn0]. split; [done|exact (good_node_mono Hmono _ Hn0)].
  - apply Forall_app; split.
    + eapply Forall_impl; [exact Hs|]. intros m [? Hm0]. split; [done|exact (good_out_mono Hmono _ Hm0)].
    + by apply Forall_and.
Qed.

Lemma step_inv s a :
  inv s → valid_action s a →
  ∃ s', step s a = Some s' ∧ inv s' ∧ length (nodes s') = length (nodes s) ∧
        ∃ props, proposed s' = proposed s ++ props.
Proof.
  intros Hinv Hva. assert (Hd := Hinv). destruct Hd as [Hn Hs].
  assert (∀ k, (k < length (nodes s))%nat → ∃ n, nodes s !! k = Some n ∧ wf n ∧
            good_node (λ id v, (id, v) ∈ proposed s) n) as Hget.
  { intros k Hk. destruct (lookup_lt_is_Some_2 _ _ Hk) as [n Hkn].
    destruct (Forall_lookup_1 _ _ _ _ Hn Hkn). eauto. }
  assert (∀ props id v, (id, v) ∈ proposed s → (id, v) ∈ proposed s ++ props) as Hmono
    by (intros; apply elem_of_app; by left).
  destruct a as [k j|k id val|k id]; destruct Hva as [Hk Hva]; destruct (Hget k Hk) as (n & Hkn & Hwf & Hg);
    simpl; rewrite Hkn; simpl.
  - destruct Hva as (m & Hj & Ha). rewrite Hj. simpl. rewrite Ha.
    destruct (Forall_lookup_1 _ _ _ _ Hs Hj) as [(Hb & Hc & _) Hgm].
    destruct (apply_result_inv s k n (HandleMessage n (data m) []) []) as (s' & ? & ? & ? & ?); eauto 10.
    + by apply HandleMessage_safe.
    + apply HandleMessage_keeps; auto; [exact (good_node_mono (Hmono _) _ Hg)|].
      exact (good_out_mono (Hmono _) _ Hgm).
  - destruct Hva as [Hid Hv].
    destruct (apply_result_inv s k n (Propose n id val (Z.of_nat (length val)) []) [(id, val)])
      as (s' & ? & ? & ? & ?); eauto 10.
    + apply Propose_safe; auto. lia.
    + apply Propose_keeps; auto; [exact (good_node_mono (Hmono _) _ Hg)|].
      apply elem_of_app. right. by left.
  - destruct (apply_result_inv s k n (StartLeaderElection n id []) (election_value n id))
      as (s' & ? & ? & ? & ?); eauto 10.
    + by apply StartLeaderElection_safe.
    + apply StartLeaderElection_keeps; auto; [exact (good_node_mono (Hmono _) _ Hg)|].
      intros Hp. apply elem_of_app. right. unfold election_value. rewrite Hp. by left.
Qed.

(** Every action of the sequence has in-range arguments when its turn comes. *)
Fixpoint valid_run (s : sys) (acts : list action) : Prop :=
  match acts with
  | [] => True
  | a :: acts => valid_action s a ∧ ∀ s', step s a = Some s' → valid_run s' acts
  end.

Lemma run_inv acts : ∀ s, inv s → valid_run s acts → ∃ s', run s acts = Some s' ∧ inv s'.
Proof.
  induction acts as [|a acts IH]; intros s Hinv Hv; simpl; [by eauto|].
  destruct Hv as [Ha Hv]. destruct (step_inv s a Hinv Ha) as (s' & Hs & Hinv' & _).
  rewrite Hs. simpl. by apply IH, Hv.
Qed.

Lemma init_inv num mx s : 0 ≤ mx → init_sys num mx = Some s → inv s.
Proof.
  intros Hmx Hi. unfold init_sys in Hi.
  destruct (mapM _ _) as [ns|] eqn:Hm; simplify_eq/=. split; simpl; [|done].
  apply mapM_Some_1 in Hm. apply Forall_forall. intros n [k Hk]%list_elem_of_lookup.
  destruct (Forall2_lookup_r _ _ _ _ _ Hm Hk) as (x & Hx & Hn).
  apply lookup_seqZ in Hx as [-> Hlt].
  assert (3 ≤ num ≤ 5 ∧ n = MkNode (0 + Z.of_nat k) num (num / 2 + 1) 0 0 mx ∅ ∅ false []) as [Hnum Heq].
  { unfold new_PaxosNode in Hn. case_bool_decide; [|done]. case_bool_decide; by simplify_eq/=. }
  split; [eapply new_node_wf; [|exact Hmx|exact Hn]; widths|].
  subst n. split; simpl; apply map_Forall_empty.
Qed.

(** The value a replica holds as committed. *)
Definition committed_bytes (i : InstanceState) : bytes :=
  take (Z.to_nat (committed_value_len i)) (committed_value i).

Lemma inv_committed s k n id i :
  inv s → nodes s !! k = Some n → instances_ n !! id = Some i → is_committed i = true →
  (id, committed_bytes i) ∈ proposed s.
Proof.
  intros [Hn _] Hk Hi Hc. destruct (Forall_lookup_1 _ _ _ _ Hn Hk) as [_ Hg].
  by destruct (gi_committed _ _ _ (gn_insts _ _ Hg _ _ Hi) Hc) as (_ & _ & ?).
Qed.

(** Where a value put forward came from: a proposal, or, for the empty value, an election. *)
Definition origin (acts : list action) (id : Z) (v : bytes) : Prop :=
  (∃ k, APropose k id v ∈ acts) ∨ (v = [] ∧ ∃ k, AElect k id ∈ acts).

Lemma step_proposed s a s' id v :
  step s a = Some s' → (id, v) ∈ proposed s' → (id, v) ∈ proposed s ∨ origin [a] id v.
Proof.
  assert (∀ k r props, apply_result s k r props = Some s' → proposed s' = proposed s ++ props) as Hap.
  { intros k [[[st n'] out]|] props Ha; by simplify_eq/=. }
  destruct a as [k j|k id' val|k id']; intros Hs Hin; cbn in Hs;
    destruct (nodes s !! k) as [n|]; try discriminate Hs; cbn in Hs.
  - destruct (soup s !! j) as [m|]; [|done]. cbn in Hs. destruct (addressed m k); [|done].
    apply Hap in Hs. rewrite Hs, app_nil_r in Hin. by left.
  - apply Hap in Hs. rewrite Hs in Hin. apply elem_of_app in Hin as [?|Hin]; [by left|].
    apply list_elem_of_singleton in Hin. injection Hin as -> ->. right. left. exists k. by left.
  - apply Hap in Hs. rewrite Hs in Hin. apply elem_of_app in Hin as [?|Hin]; [by left|].
    unfold election_value in Hin. destruct (proposer_state_ n !! id'); [by apply elem_of_nil in Hin|].
    apply list_elem_of_singleton in Hin. injection Hin as -> ->. right. right. split; [done|]. exists k. by left.
Qed.

Lemma origin_mono acts acts' id v : acts ⊆ acts' → origin acts id v → origin acts' id v.
Proof. intros Hsub [(k & ?)|(? & k & ?)]; [left|right]; [|split; [done|]]; exists k; by apply Hsub. Qed.

Lemma run_proposed acts : ∀ s s' id v,
  run s acts = Some s' → (id, v) ∈ proposed s' → (id, v) ∈ proposed s ∨ origin acts id v.
Proof.
  induction acts as [|a acts IH]; intros s s' id v Hr Hin; cbn in Hr; [injection Hr as <-; by left|].
  destruct (step s a) as [s1|] eqn:Hs; [|done]. cbn in Hr.
  destruct (IH s1 s' id v Hr Hin) as [H1|H1]; [|right; eapply origin_mono; [|exact H1]; set_solver].
  destruct (step_proposed s a s1 id v Hs H1) as [?|H2]; [by left|]. right. eapply origin_mono; [|exact H2]. set_solver.
Qed.

Lemma init_proposed num mx s : init_sys num mx = Some s → proposed s = [].
Proof. unfold init_sys. destruct (mapM _ _); intros ?; by simplify_eq/=. Qed.

(** C5: validity.  From fresh replicas, no sequence of proposals, elections and deliveries
    (with any delay, loss, duplication or reordering, and arguments in the range of their types)
    reaches undefined behaviour, and every value a replica then holds as committed for an
    instance was proposed for it by one of the proposals, or is the empty value and some replica
    started an election on that instance: an election on an instance the replica never proposed
    for puts forward the empty value, which no client proposed, and it can be committed. *)
Theorem network_validity num mx s0 acts :
  0 ≤ mx → init_sys num mx = Some s0 → valid_run s0 acts →
  ∃ s, run s0 acts = Some s ∧
       ∀ k n id i, nodes s !! k = Some n → instances_ n !! id = Some i → is_committed i = true →
         let v := committed_bytes i in
         (∃ k', APropose k' id v ∈ acts) ∨ (v = [] ∧ ∃ k', AElect k' id ∈ acts).
Proof.
  intros Hmx Hi Hv. destruct (run_inv acts s0 (init_inv _ _ _ Hmx Hi) Hv) as (s & Hr & Hinv).
  exists s. split; [done|]. intros k n id i Hk Hn Hc. pose proof (inv_committed s k n id i Hinv Hk Hn Hc) as Hin.
  destruct (run_proposed acts s0 s id _ Hr Hin) as [H0|H0]; [|exact H0].
  rewrite (init_proposed _ _ _ Hi) in H0. by apply elem_of_nil in H0.
Qed.

(** ** Concrete executions with three replicas *)

Definition three : sys := default (MkSys [] [] []) (init_sys 3 10).

Definition run_from_three (acts : list action) : sys := default three (run three acts).

(** What replica [k] holds as committed for an instance. *)
Definition committed_at (s : sys) (k : nat) (id : Z) : option bytes :=
  n ← nodes s !! k; i ← instances_ n !! id;
  if is_committed i then Some (committed_bytes i) else None.

(** The steady state: the leader proposes, all accept, the leader collects a quorum and the
    others learn. *)
Definition steady_state : list action :=
  [APropose 0 7 [42; 43]; ADeliver 0 0; ADeliver 1 0; ADeliver 2 0;
   ADeliver 0 1; ADeliver 0 2; ADeliver 1 4; ADeliver 2 5].

(** Decides [valid_action]. *)
Definition valid_actionb (s : sys) (a : action) : bool :=
  match a with
  | ADeliver k j => (k <? length (nodes s))%nat &&
                    match soup s !! j with Some m => addressed m k | None => false end
  | APropose k id val => (k <? length (nodes s))%nat && bool_decide (id ∈u 32) && is_bytesb val
  | AElect k id => (k <? length (nodes s))%nat && bool_decide (id ∈u 32)
  end.

Fixpoint valid_runb (s : sys) (acts : list action) : bool :=
  match acts with
  | [] => true
  | a :: acts => valid_actionb s a &&
                 match step s a with Some s' => valid_runb s' acts | None => true end
  end.

Lemma valid_actionb_sound s a : valid_actionb s a = true → valid_action s a.
Proof.
  destruct a as [k j|k id val|k id]; simpl; rewrite ?andb_true_iff, Nat.ltb_lt.
  - intros [? Hm]. split; [done|]. destruct (soup s !! j) as [m|]; [|done]. by exists m.
  - intros [[? ?%bool_decide_eq_true] ?%is_bytesb_sound]. by split_and!.
  - intros [? ?%bool_decide_eq_true]. by split.
Qed.

Lemma valid_runb_sound acts : ∀ s, valid_runb s acts = true → valid_run s acts.
Proof.
  induction acts as [|a acts IH]; intros s; simpl; [done|]. rewrite andb_true_iff.
  intros [Ha Hr]. split; [by apply valid_actionb_sound|].
  intros s' Hs. rewrite Hs in Hr. by apply IH.
Qed.

Lemma network_validity_witness :
  ∃ s, run three steady_state = Some s ∧
       ∀ k n id i, nodes s !! k = Some n → instances_ n !! id = Some i → is_committed i = true →
         (∃ k', APropose k' id (committed_bytes i) ∈ steady_state) ∨
         (committed_bytes i = [] ∧ ∃ k', AElect k' id ∈ steady_state).
Proof.
  apply (network_validity 3 10); [lia|by vm_compute|].
  apply valid_runb_sound. by vm_compute.
Defined.

(** The empty value of an election does get committed: no replica proposed anything. *)
Example election_commits_nothing :
  committed_at (run_from_three
    [AElect 0 7; ADeliver 0 0; ADeliver 1 0; ADeliver 0 1; ADeliver 0 2;
     ADeliver 0 3; ADeliver 1 3; ADeliver 0 4; ADeliver 0 5]) 0 7 = Some [].
Proof. by vm_compute. Qed.

(** In the steady state all three replicas end with the proposed value. *)
Example steady_state_commits :
  (λ k, committed_at (run_from_three steady_state) k 7) <$> [0; 1; 2]%nat =
  [Some [42; 43]; Some [42; 43]; Some [42; 43]].
Proof. by vm_compute. Qed.

(** Replicas 0 and 1 each propose a value for instance 7 and then start an election; every
    ACCEPT of the first round and replica 2's answers to replica 0's second round stay in
    the network.  Each message reaches each replica at most once. *)
Definition split_brain : list action :=
  [APropose 0 7 [1];                              (* 0: ACCEPT (1,0), delayed *)
   AElect 0 7;                                    (* 1: PREPARE (2,0) *)
   ADeliver 0 1; ADeliver 1 1; ADeliver 2 1;      (* 2, 3, 4: PROMISEs to replica 0 *)
   ADeliver 0 2; ADeliver 0 3;                    (* quorum: 5: ACCEPT (2,0) *)
   ADeliver 0 4;                                  (* third promise: 6: ACCEPT (2,0) again *)
   ADeliver 0 5; ADeliver 0 6;                    (* 7, 8: replica 0 answers ACCEPTED twice *)
   ADeliver 0 7; ADeliver 0 8;                    (* counted as two: commit; 9, 10: LEARN *)
   APropose 1 7 [2];                              (* 11: ACCEPT (1,1), delayed *)
   AElect 1 7;                                    (* 12: PREPARE (2,1) *)
   ADeliver 1 12; ADeliver 2 12;                  (* 13, 14: PROMISEs without a value *)
   ADeliver 1 13; ADeliver 1 14;                  (* 15: ACCEPT (2,1) with replica 1's value *)
   ADeliver 1 15; ADeliver 2 15;                  (* 16, 17: ACCEPTED *)
   ADeliver 1 16; ADeliver 1 17].                 (* commit *)

(** C4: agreement fails in general.  ACCEPTED answers are counted without looking at the
    sender, and each promise past the quorum broadcasts ACCEPT again, so one acceptor can
    make up a quorum: two replicas commit different values without any lost or duplicated
    message. *)
Theorem agreement_violated :
  valid_run three split_brain ∧ NoDup split_brain ∧
  committed_at (run_from_three split_brain) 0 7 = Some [1] ∧
  committed_at (run_from_three split_brain) 1 7 = Some [2].
Proof.
  split; [apply valid_runb_sound; by vm_compute|].
  split; [apply (bool_decide_unpack _); by vm_compute|split; by vm_compute].
Qed.

End paxos_net.
