(* ===== verification/BaseIf.v ===== *)
(** * The SimBricks base interface (lib/simbricks/base/if.h, proto.h)

    Two simulators exchange messages through a pair of rings in shared memory.  Each slot of
    a ring carries an ownership bit: the producer fills a slot it owns and passes it to the
    consumer with one atomic store, the consumer passes it back the same way.  A
    [SimbricksBaseIf] is one end of the channel; the ring it produces into is the ring its
    peer consumes from. *)

From S2P Require Import Prelude.

Module base.

(** ** Messages (proto.h) *)

Definition SIMBRICKS_PROTO_MSG_OWN_MASK : Z := 0x80.
Definition SIMBRICKS_PROTO_MSG_OWN_PRO : Z := 0x00.
Definition SIMBRICKS_PROTO_MSG_OWN_CON : Z := 0x80.
Definition SIMBRICKS_PROTO_MSG_TYPE_SYNC : Z := 0x00.
Definition SIMBRICKS_PROTO_MSG_TYPE_TERMINATE : Z := 0x01.
Definition UINT64_MAX : Z := 2 ^ 64 - 1.

(** One queue entry: the header's timestamp and own_type, and the other bytes of the entry. *)
Record Slot := MkSlot {
  body : bytes;
  timestamp : Z;   (* uint64_t *)
  own_type : Z;    (* uint8_t *)
}.

(** A queue is the memory [in_queue] / [out_queue] points to, entry by entry. *)
Abbreviation queue := (list Slot) (only parsing).

(** ** Interface state (if.h) *)

Inductive SyncMode := SyncDisabled | SyncOptional | SyncRequired.

Record Params := MkParams {
  link_latency : Z;    (* uint64_t, picoseconds *)
  sync_interval : Z;   (* uint64_t, picoseconds *)
  sync_mode : SyncMode;
}.

Record SimbricksBaseIf := MkIf {
  in_pos : Z;          (* size_t *)
  in_enum : Z;         (* size_t *)
  in_timestamp : Z;    (* uint64_t *)
  out_pos : Z;         (* size_t *)
  out_elen : Z;        (* size_t *)
  out_enum : Z;        (* size_t *)
  out_timestamp : Z;   (* uint64_t *)
  in_terminated : bool;
  sync : bool;
  params : Params;
}.

Definition set_in (b : SimbricksBaseIf) (pos ts : Z) : SimbricksBaseIf :=
  MkIf pos (in_enum b) ts (out_pos b) (out_elen b) (out_enum b) (out_timestamp b)
       (in_terminated b) (sync b) (params b).
Definition set_out (b : SimbricksBaseIf) (pos ts : Z) : SimbricksBaseIf :=
  MkIf (in_pos b) (in_enum b) (in_timestamp b) pos (out_elen b) (out_enum b) ts
       (in_terminated b) (sync b) (params b).
Definition terminated (b : SimbricksBaseIf) : SimbricksBaseIf :=
  MkIf (in_pos b) (in_enum b) UINT64_MAX (out_pos b) (out_elen b) (out_enum b) UINT64_MAX
       true false (params b).

(** The entry at a position; [None]: outside the queue memory. *)
Definition slot_at (q : queue) (pos : Z) : option Slot := q !! Z.to_nat pos.
Definition put_slot (q : queue) (pos : Z) (s : Slot) : queue := <[Z.to_nat pos := s]> q.

(** [(pos + 1) % num]; [None]: division by zero. *)
Definition next_pos (pos num : Z) : option Z :=
  if num =? 0 then None else Some (u64 (pos + 1) mod num).

(** ** Receiving *)

Definition SimbricksBaseIfInType (s : Slot) : Z := Z.ldiff (own_type s) SIMBRICKS_PROTO_MSG_OWN_MASK.

Definition owner (s : Slot) : Z := Z.land (own_type s) SIMBRICKS_PROTO_MSG_OWN_MASK.

(** The position of the message found, if any, and the interface afterwards.  The outer
    option is undefined behaviour. *)
Definition SimbricksBaseIfInPeek (b : SimbricksBaseIf) (q : queue) (ts : Z) :
    option (option Z * SimbricksBaseIf) :=
  s ← slot_at q (in_pos b);
  if negb (owner s =? SIMBRICKS_PROTO_MSG_OWN_CON) then Some (None, b)
  else
    let b := set_in b (in_pos b) (timestamp s) in
    if sync b && (ts <? in_timestamp b) then Some (None, b)
    else Some (Some (in_pos b), b).

Definition SimbricksBaseIfInPoll (b : SimbricksBaseIf) (q : queue) (ts : Z) :
    option (option Z * SimbricksBaseIf) :=
  '(found, b) ← SimbricksBaseIfInPeek b q ts;
  match found with
  | None => Some (None, b)
  | Some pos =>
      s ← slot_at q pos;
      np ← next_pos (in_pos b) (in_enum b);
      let b := set_in b np (in_timestamp b) in
      let b := if SimbricksBaseIfInType s =? SIMBRICKS_PROTO_MSG_TYPE_TERMINATE
               then terminated b else b in
      Some (Some pos, b)
  end.

Definition SimbricksBaseIfInDone (q : queue) (pos : Z) : option queue :=
  s ← slot_at q pos;
  Some (put_slot q pos (MkSlot (body s) (timestamp s)
          (u8 (Z.lor (Z.ldiff (own_type s) SIMBRICKS_PROTO_MSG_OWN_MASK) SIMBRICKS_PROTO_MSG_OWN_PRO)))).

Definition SimbricksBaseIfInTimestamp (b : SimbricksBaseIf) : Z := in_timestamp b.
Definition SimbricksBaseIfInTerminated (b : SimbricksBaseIf) : bool := in_terminated b.

(** ** Sending *)

Definition SimbricksBaseIfOutAlloc (b : SimbricksBaseIf) (q : queue) (ts : Z) :
    option (option Z * SimbricksBaseIf * queue) :=
  s ← slot_at q (out_pos b);
  if negb (owner s =? SIMBRICKS_PROTO_MSG_OWN_PRO) then Some (None, b, q)
  else
    let q := put_slot q (out_pos b)
               (MkSlot (body s) (u64 (ts + link_latency (params b))) (own_type s)) in
    np ← next_pos (out_pos b) (out_enum b);
    Some (Some (out_pos b), set_out b np ts, q).

Definition SimbricksBaseIfOutSend (q : queue) (pos msg_type : Z) : option queue :=
  s ← slot_at q pos;
  Some (put_slot q pos (MkSlot (body s) (timestamp s)
          (u8 (Z.lor msg_type SIMBRICKS_PROTO_MSG_OWN_CON)))).

(** What the sender writes into an allocated entry before [OutSend]. *)
Definition fill (q : queue) (pos : Z) (data : bytes) : option queue :=
  s ← slot_at q pos; Some (put_slot q pos (MkSlot data (timestamp s) (own_type s))).

(** Is a sync message due? *)
Definition sync_needed (b : SimbricksBaseIf) (ts : Z) : bool :=
  negb (negb (sync b) ||
        ((0 <? out_timestamp b) && (u64 (ts - out_timestamp b) <? sync_interval (params b)))).

(** The result is 0 or -1. *)
Definition SimbricksBaseIfOutSync (b : SimbricksBaseIf) (q : queue) (ts : Z) :
    option (Z * SimbricksBaseIf * queue) :=
  if negb (sync_needed b ts) then Some (0, b, q)
  else
    '(pos, b, q) ← SimbricksBaseIfOutAlloc b q ts;
    match pos with
    | None => Some (-1, b, q)
    | Some pos =>
        q ← SimbricksBaseIfOutSend q pos SIMBRICKS_PROTO_MSG_TYPE_SYNC;
        Some (0, b, q)
    end.

Definition SimbricksBaseIfOutNextSync (b : SimbricksBaseIf) : Z :=
  if out_timestamp b =? UINT64_MAX then UINT64_MAX
  else u64 (out_timestamp b + sync_interval (params b)).

Definition SimbricksBaseIfOutMsgLen (b : SimbricksBaseIf) : Z := out_elen b.
Definition SimbricksBaseIfSyncEnabled (b : SimbricksBaseIf) : bool := sync b.

(** ** Set-up (if.c) *)

Definition SimbricksBaseIfDefaultParams : Params := MkParams 500000 500000 SyncOptional.

(** [None]: the -1 of a sync interval above the link latency. *)
Definition SimbricksBaseIfInit (p : Params) : option SimbricksBaseIf :=
  let must_check_sync := match sync_mode p with SyncDisabled => false | _ => true end in
  if must_check_sync && (link_latency p <? sync_interval p) then None
  else Some (MkIf 0 0 0 0 0 0 0 false false p).

End base.
