(* ===== verification/BaseChannel.v ===== *)
(** * One direction of a SimBricks channel: producer, consumer and shared ring

    Every interleaving of the producer's and the consumer's calls of BaseIf.v.  The channel
    is a FIFO: what the consumer polls is what the producer sent, in order, each message
    once, with its type, timestamp and contents; and timestamps never run backwards. *)

From S2P Require Import Prelude.
From S2P Require Import BaseIf.

Module channel.
Import base.

(** ** The system *)

Record message := MkMsg { m_body : bytes; m_timestamp : Z; m_type : Z }.

Definition message_of (s : Slot) : message :=
  MkMsg (body s) (timestamp s) (SimbricksBaseIfInType s).

Record chan := MkChan {
  prod : SimbricksBaseIf;
  cons : SimbricksBaseIf;
  ring : list Slot;
  p_slot : option Z;            (* allocated and not yet sent *)
  c_slot : option Z;            (* polled and not yet done *)
  sent_log : list message;      (* everything sent, in order *)
  recv_log : list message;      (* everything polled, in order *)
}.

Inductive act :=
| PAlloc (ts : Z)                    (* producer: SimbricksBaseIfOutAlloc *)
| PSend (data : bytes) (ty : Z)      (* producer: fill the entry, SimbricksBaseIfOutSend *)
| PSync (ts : Z)                     (* producer: SimbricksBaseIfOutSync *)
| CPoll (ts : Z)                     (* consumer: SimbricksBaseIfInPoll *)
| CDone.                             (* consumer: SimbricksBaseIfInDone *)

(** One call.  [None]: undefined behaviour, or a call out of turn (the producer sends each
    entry before it allocates the next, the consumer finishes each message before the next). *)
Definition step (c : chan) (a : act) : option chan :=
  match a, p_slot c, c_slot c with
  | PAlloc ts, None, _ =>
      '(pos, b, q) ← SimbricksBaseIfOutAlloc (prod c) (ring c) ts;
      Some (MkChan b (cons c) q pos (c_slot c) (sent_log c) (recv_log c))
  | PSend data ty, Some pos, _ =>
      q ← fill (ring c) pos data;
      q ← SimbricksBaseIfOutSend q pos ty;
      s ← slot_at q pos;
      Some (MkChan (prod c) (cons c) q None (c_slot c) (sent_log c ++ [message_of s]) (recv_log c))
  | PSync ts, None, _ =>
      '(_, b, q) ← SimbricksBaseIfOutSync (prod c) (ring c) ts;
      let new := if sync_needed (prod c) ts then
                   match slot_at (ring c) (out_pos (prod c)) with
                   | Some s => if owner s =? SIMBRICKS_PROTO_MSG_OWN_PRO
                               then option_list (message_of <$> slot_at q (out_pos (prod c))) else []
                   | None => []
                   end
                 else [] in
      Some (MkChan b (cons c) q None (c_slot c) (sent_log c ++ new) (recv_log c))
  | CPoll ts, _, None =>
      '(pos, b) ← SimbricksBaseIfInPoll (cons c) (ring c) ts;
      match pos with
      | None => Some (MkChan (prod c) b (ring c) (p_slot c) None (sent_log c) (recv_log c))
      | Some pos =>
          s ← slot_at (ring c) pos;
          Some (MkChan (prod c) b (ring c) (p_slot c) (Some pos) (sent_log c)
                  (recv_log c ++ [message_of s]))
      end
  | CDone, _, Some pos =>
      q ← SimbricksBaseIfInDone (ring c) pos;
      Some (MkChan (prod c) (cons c) q (p_slot c) None (sent_log c) (recv_log c))
  | _, _, _ => None
  end.

Fixpoint run (c : chan) (acts : list act) : option chan :=
  match acts with
  | [] => Some c
  | a :: acts => c' ← step c a; run c' acts
  end.

(** ** The invariant *)

Definition pending {A} (o : option A) : nat := match o with Some _ => 1 | None => 0 end.

Definition n_sent (c : chan) : nat := length (sent_log c).
Definition n_recv (c : chan) : nat := length (recv_log c).
Definition n_alloc (c : chan) : nat := n_sent c + pending (p_slot c).
Definition n_done (c : chan) : nat := n_recv c - pending (c_slot c).

(** The ring position of the [v]-th message. *)
Definition pos_of (n : Z) (v : nat) : Z := Z.of_nat v mod n.

Definition holds (n : Z) (q : list Slot) (v : nat) (P : Slot → Prop) : Prop :=
  ∃ s, slot_at q (pos_of n v) = Some s ∧ own_type s ∈u 8 ∧ P s.

Record inv (n : Z) (c : chan) : Prop := {
  i_n : 0 < n < 2 ^ 64;
  i_ring : Z.of_nat (length (ring c)) = n;
  i_in_enum : in_enum (cons c) = n;
  i_out_enum : out_enum (prod c) = n;
  i_in_pos : in_pos (cons c) = pos_of n (n_recv c);
  i_out_pos : out_pos (prod c) = pos_of n (n_alloc c);
  i_p_slot pos : p_slot c = Some pos → pos = pos_of n (n_sent c);
  i_c_slot pos : c_slot c = Some pos → pos = pos_of n (n_done c);
  i_recv : recv_log c = take (n_recv c) (sent_log c);
  i_order : (pending (c_slot c) ≤ n_recv c)%nat ∧ (n_recv c ≤ n_sent c)%nat ∧ Z.of_nat (n_alloc c) ≤ Z.of_nat (n_done c) + n;
  i_full v : (n_done c ≤ v < n_sent c)%nat →
             holds n (ring c) v (λ s, owner s = SIMBRICKS_PROTO_MSG_OWN_CON ∧
                               sent_log c !! v = Some (message_of s));
  i_free v : (n_sent c ≤ v)%nat → Z.of_nat v < Z.of_nat (n_done c) + n →
             holds n (ring c) v (λ s, owner s = SIMBRICKS_PROTO_MSG_OWN_PRO);
}.

(** ** Ring arithmetic *)

Lemma pos_of_range n v : 0 < n → 0 ≤ pos_of n v < n.
Proof. intros. by apply Z.mod_pos_bound. Qed.

(** Two messages less than a ring apart have different positions. *)
Lemma pos_of_inj n v w :
  0 < n → pos_of n v = pos_of n w → Z.abs (Z.of_nat v - Z.of_nat w) < n → v = w.
Proof.
  unfold pos_of. intros Hn Heq Hd.
  assert ((Z.of_nat v - Z.of_nat w) mod n = 0) as Hm.
  { rewrite Zminus_mod, Heq, Z.sub_diag. apply Zmod_0_l. }
  apply Z.mod_divide in Hm as [k Hk]; [|lia].
  assert (k = 0) by nia. lia.
Qed.

Lemma next_pos_of n v : 0 < n < 2 ^ 64 → next_pos (pos_of n v) n = Some (pos_of n (S v)).
Proof.
  intros Hn. unfold next_pos. destruct (Z.eqb_spec n 0); [lia|]. f_equal.
  pose proof (pos_of_range n v ltac:(lia)).
  rewrite (wrap_id 64) by (unfold fits; lia). unfold pos_of.
  by rewrite Zplus_mod_idemp_l, Nat2Z.inj_succ.
Qed.

Lemma slot_at_put q pos s : 0 ≤ pos < Z.of_nat (length q) → slot_at (put_slot q pos s) pos = Some s.
Proof. intros. unfold slot_at, put_slot. apply list_lookup_insert_eq. lia. Qed.

Lemma slot_at_put_ne q pos pos' s :
  0 ≤ pos → 0 ≤ pos' → pos ≠ pos' → slot_at (put_slot q pos s) pos' = slot_at q pos'.
Proof. intros. unfold slot_at, put_slot. apply list_lookup_insert_ne. lia. Qed.

Lemma length_put q pos s : length (put_slot q pos s) = length q.
Proof. apply length_insert. Qed.

(** ** Ownership bits *)

(** A property of bytes below a bound, checked on all of them. *)
Lemma all_bytes (f : Z → bool) w x :
  forallb f (seqZ 0 (2 ^ w)) = true → x ∈u w → f x = true.
Proof.
  rewrite forallb_forall. intros Hf Hx. apply Hf, list_elem_of_In, elem_of_seqZ.
  unfold fits in Hx. lia.
Qed.

(** [InDone] gives the slot to the producer. *)
Lemma done_owner x : x ∈u 8 →
  u8 (Z.lor (Z.ldiff x 128) 0) ∈u 8 ∧ Z.land (u8 (Z.lor (Z.ldiff x 128) 0)) 128 = 0.
Proof.
  intros Hx. split; [by apply wrap_fits|]. apply Z.eqb_eq.
  by apply (all_bytes (λ x, Z.land (u8 (Z.lor (Z.ldiff x 128) 0)) 128 =? 0) 8); [vm_compute|].
Qed.

(** [OutSend] gives the slot to the consumer, with the type. *)
Lemma send_owner ty : ty ∈u 7 →
  u8 (Z.lor ty 128) ∈u 8 ∧ Z.land (u8 (Z.lor ty 128)) 128 = 128 ∧ Z.ldiff (u8 (Z.lor ty 128)) 128 = ty.
Proof.
  intros Hty. split; [by apply wrap_fits|].
  assert ((Z.land (u8 (Z.lor ty 128)) 128 =? 128) && (Z.ldiff (u8 (Z.lor ty 128)) 128 =? ty) = true)
    as [?%Z.eqb_eq ?%Z.eqb_eq]%andb_true_iff; [|done].
  by apply (all_bytes (λ ty, (Z.land (u8 (Z.lor ty 128)) 128 =? 128) &&
                             (Z.ldiff (u8 (Z.lor ty 128)) 128 =? ty)) 7); [vm_compute|].
Qed.

(** ** One slot changes *)

Lemma holds_put_eq n q v s (P : Slot → Prop) :
  0 < n → Z.of_nat (length q) = n → own_type s ∈u 8 → P s →
  holds n (put_slot q (pos_of n v) s) v P.
Proof.
  intros Hn Hq Hs HP. exists s. split; [|done].
  apply slot_at_put. rewrite Hq. by apply pos_of_range.
Qed.

Lemma holds_put_ne n q v u s P :
  0 < n → v ≠ u → Z.abs (Z.of_nat v - Z.of_nat u) < n →
  holds n q v P → holds n (put_slot q (pos_of n u) s) v P.
Proof.
  intros Hn Hne Hd (s' & Hs' & HP). exists s'. split; [|done].
  rewrite slot_at_put_ne; [done|apply pos_of_range; lia..|].
  intros Heq. apply Hne. symmetry. apply (pos_of_inj n); [done|done|lia].
Qed.

Lemma holds_weaken n q v (P Q : Slot → Prop) : (∀ s, P s → Q s) → holds n q v P → holds n q v Q.
Proof. intros HPQ (s & ? & ? & ?). exists s. auto. Qed.

Lemma pos_of_wrap n v : 0 < n → pos_of n (v + Z.to_nat n) = pos_of n v.
Proof.
  intros. unfold pos_of. rewrite Nat2Z.inj_add, Z2Nat.id by lia.
  rewrite <-(Z.mul_1_l n) at 1. by rewrite Z_mod_plus_full.
Qed.

(** ** Each call keeps the invariant *)

(** A call in its turn, with a message type the ownership bit does not clash with. *)
Definition in_turn (c : chan) (a : act) : Prop :=
  match a with
  | PAlloc _ | PSync _ => p_slot c = None
  | PSend _ ty => p_slot c ≠ None ∧ ty ∈u 7
  | CPoll _ => c_slot c = None
  | CDone => c_slot c ≠ None
  end.

(** The slot the producer looks at: free while the ring has room, otherwise the oldest
    message that is not done. *)
Lemma out_slot n c :
  inv n c → p_slot c = None →
  holds n (ring c) (n_sent c) (λ s, owner s =
    if Z.of_nat (n_sent c) <? Z.of_nat (n_done c) + n
    then SIMBRICKS_PROTO_MSG_OWN_PRO else SIMBRICKS_PROTO_MSG_OWN_CON).
Proof.
  intros [] Hp. destruct (Z.ltb_spec (Z.of_nat (n_sent c)) (Z.of_nat (n_done c) + n)) as [Hlt|Hge].
  - by apply i_free0.
  - unfold n_alloc in *. rewrite Hp in *. simpl in *.
    assert (n_sent c = n_done c + Z.to_nat n)%nat as -> by lia.
    destruct (i_full0 (n_done c)) as (s & Hs & Ho & Hc & _); [lia|].
    exists s. by rewrite pos_of_wrap by lia.
Qed.

Lemma alloc_inv n c ts :
  inv n c → p_slot c = None →
  ∃ c', step c (PAlloc ts) = Some c' ∧ inv n c' ∧
        p_slot c' = (if Z.of_nat (n_sent c) <? Z.of_nat (n_done c) + n
                     then Some (pos_of n (n_sent c)) else None) ∧
        sent_log c' = sent_log c ∧ recv_log c' = recv_log c ∧ c_slot c' = c_slot c.
Proof.
  intros Hinv Hp. destruct (out_slot n c Hinv Hp) as (s & Hs & Ho & Hown).
  pose proof Hinv as []. simpl. rewrite Hp. unfold SimbricksBaseIfOutAlloc.
  assert (n_alloc c = n_sent c) as Hna by (unfold n_alloc; rewrite Hp; simpl; lia).
  rewrite i_out_pos0, Hna, Hs. simpl. rewrite Hown.
  destruct (Z.ltb_spec (Z.of_nat (n_sent c)) (Z.of_nat (n_done c) + n)) as [Hlt|Hge]; simpl.
  - rewrite i_out_enum0, next_pos_of by done. simpl. eexists. split; [done|].
    split; [|done]. split; simpl; auto.
    + by rewrite length_put.
    + unfold n_alloc; simpl. f_equal. unfold n_sent; simpl. lia.
    + intros pos Heq. by simplify_eq.
    + unfold n_alloc, n_done, n_sent, n_recv in *; simpl in *. lia.
    + intros v Hv. apply holds_put_ne; [lia| | |by apply i_full0];
        unfold n_done, n_sent, n_recv, n_alloc in *; simpl in *; lia.
    + intros v Hv1 Hv2. destruct (decide (v = n_sent c)) as [->|Hne].
      * apply holds_put_eq; auto; lia.
      * apply holds_put_ne; [lia|done| |by apply i_free0].
        unfold n_done, n_sent, n_recv, n_alloc in *; simpl in *; lia.
  - eexists. split; [done|]. split; [|done].
    split; simpl; auto; unfold n_alloc in *; rewrite Hp in *; simpl in *; done.
Qed.

Lemma send_inv n c data ty :
  inv n c → p_slot c ≠ None → ty ∈u 7 →
  ∃ c' m, step c (PSend data ty) = Some c' ∧ inv n c' ∧ p_slot c' = None ∧
          sent_log c' = sent_log c ++ [m] ∧ m_body m = data ∧ m_type m = ty ∧
          recv_log c' = recv_log c ∧ c_slot c' = c_slot c.
Proof.
  intros Hinv Hp Hty. pose proof Hinv as []. destruct (p_slot c) as [pos|] eqn:Hps; [|done].
  assert (n_alloc c = S (n_sent c)) as Hna by (unfold n_alloc; rewrite Hps; simpl; lia).
  rewrite (i_p_slot0 pos eq_refl) in *.
  destruct (i_free0 (n_sent c)) as (s & Hs & Ho & Hown); [lia|lia|].
  destruct (send_owner ty Hty) as (Hfit & Hcon & Hdiff).
  pose proof (pos_of_range n (n_sent c) ltac:(lia)).
  simpl. rewrite Hps. unfold fill. rewrite Hs. simpl.
  unfold SimbricksBaseIfOutSend. rewrite slot_at_put by lia. simpl.
  rewrite slot_at_put by (rewrite length_put; lia). simpl.
  eexists _, _. split; [done|]. split; [|done].
  assert (∀ a b (q : list Slot) p, put_slot (put_slot q p a) p b = put_slot q p b) as Hpp
    by (intros; apply list_insert_insert_eq).
  rewrite Hpp. clear Hpp.
  split; simpl; auto; unfold n_alloc, n_sent, n_done, n_recv in *; simpl in *;
    rewrite ?length_app, ?length_put; simpl.
  - done.
  - by rewrite Nat.add_0_r, Nat.add_1_r, <- Hna.
  - done.
  - rewrite take_app_le by lia. done.
  - lia.
  - intros v Hv. destruct (decide (v = length (sent_log c))) as [->|Hne].
    + apply holds_put_eq; [lia|done|done|]. split; [done|].
      rewrite lookup_app_r, Nat.sub_diag by lia. done.
    + apply holds_put_ne; [lia|done|lia|]. destruct (i_full0 v) as (s' & ? & ? & ? & Hl); [lia|].
      exists s'. split_and!; try done. by rewrite lookup_app_l by lia.
  - intros v Hv1 Hv2. apply holds_put_ne; [lia|lia|lia|]. apply i_free0; lia.
Qed.

(** A sync message is an allocation followed by a send of whatever the entry holds. *)
Lemma sync_as_send n c ts :
  inv n c → p_slot c = None → sync_needed (prod c) ts = true →
  step c (PSync ts) =
    (c1 ← step c (PAlloc ts);
     match p_slot c1 with
     | None => Some c1
     | Some pos => s ← slot_at (ring c1) pos; step c1 (PSend (body s) SIMBRICKS_PROTO_MSG_TYPE_SYNC)
     end).
Proof.
  intros Hinv Hp Hneed. destruct (out_slot n c Hinv Hp) as (s & Hs & Ho & Hown).
  pose proof Hinv as []. pose proof (pos_of_range n (n_sent c) ltac:(lia)).
  assert (n_alloc c = n_sent c) as Hna by (unfold n_alloc; rewrite Hp; simpl; lia).
  simpl. rewrite Hp. unfold SimbricksBaseIfOutSync. rewrite Hneed. simpl.
  unfold SimbricksBaseIfOutAlloc. rewrite i_out_pos0, Hna, Hs. simpl. rewrite Hown.
  destruct (_ <? _); simpl; [|by rewrite app_nil_r].
  rewrite i_out_enum0, next_pos_of by done. simpl.
  unfold SimbricksBaseIfOutSend, fill. rewrite !slot_at_put by (rewrite ?length_put; lia). simpl.
  rewrite !slot_at_put by (rewrite ?length_put; lia). simpl.
  rewrite slot_at_put by (rewrite ?length_put; lia). simpl.
  unfold put_slot. by rewrite !list_insert_insert_eq.
Qed.

Lemma sync_inv n c ts :
  inv n c → p_slot c = None →
  ∃ c' new, step c (PSync ts) = Some c' ∧ inv n c' ∧ p_slot c' = None ∧
            sent_log c' = sent_log c ++ new ∧ recv_log c' = recv_log c ∧ c_slot c' = c_slot c.
Proof.
  intros Hinv Hp. destruct (sync_needed (prod c) ts) eqn:Hneed.
  2: { exists c, []. simpl. rewrite Hp. unfold SimbricksBaseIfOutSync. rewrite Hneed. simpl.
       rewrite app_nil_r. split; [|done]. destruct c; simpl in *. by rewrite Hp. }
  rewrite (sync_as_send n) by done.
  destruct (alloc_inv n c ts Hinv Hp) as (c1 & -> & Hinv1 & Hp1 & Hs1 & Hr1 & Hc1). cbn [mbind option_bind].
  destruct (p_slot c1) as [pos|] eqn:Hps.
  - pose proof Hinv1 as []. pose proof (pos_of_range n (n_sent c1) ltac:(lia)).
    rewrite (i_p_slot0 pos Hps) in *. destruct (i_free0 (n_sent c1)) as (s & Hs & _); [lia| |].
    { unfold n_alloc in *. rewrite Hps in *. simpl in *. lia. }
    rewrite Hs. cbn [mbind option_bind].
    destruct (send_inv n c1 (body s) SIMBRICKS_PROTO_MSG_TYPE_SYNC Hinv1) as
      (c' & m & Hc' & ? & ? & Hsent & _ & _ & Hrecv & Hcs); [by rewrite Hps|by vm_compute|].
    exists c', [m]. split_and!; try done; congruence.
  - exists c1, []. rewrite app_nil_r. by split_and!.
Qed.

(** The slot the consumer looks at: the oldest unread message, or free. *)
Lemma in_slot n c :
  inv n c → c_slot c = None →
  holds n (ring c) (n_recv c) (λ s,
    if (n_recv c <? n_sent c)%nat
    then owner s = SIMBRICKS_PROTO_MSG_OWN_CON ∧ sent_log c !! n_recv c = Some (message_of s)
    else owner s = SIMBRICKS_PROTO_MSG_OWN_PRO).
Proof.
  intros [] Hc. unfold n_done in *. rewrite Hc in *. simpl in *. rewrite Nat.sub_0_r in *.
  destruct (Nat.ltb_spec (n_recv c) (n_sent c)); [apply i_full0; lia|apply i_free0; lia].
Qed.

(** What a poll does: nothing is there, or the oldest unread message is read, or (only with
    synchronization on) its time has not come. *)
Definition poll_ready (c : chan) (ts : Z) : option message :=
  m ← sent_log c !! n_recv c;
  if sync (cons c) && (ts <? m_timestamp m) then None else Some m.

Lemma poll_inv n c ts :
  inv n c → c_slot c = None →
  ∃ c', step c (CPoll ts) = Some c' ∧ inv n c' ∧ sent_log c' = sent_log c ∧
        recv_log c' = recv_log c ++ option_list (poll_ready c ts) ∧ p_slot c' = p_slot c ∧
        prod c' = prod c.
Proof.
  intros Hinv Hc. destruct (in_slot n c Hinv Hc) as (s & Hs & Ho & Hown).
  pose proof Hinv as []. pose proof (pos_of_range n (n_recv c) ltac:(lia)).
  simpl. rewrite Hc. unfold SimbricksBaseIfInPoll, SimbricksBaseIfInPeek, poll_ready.
  rewrite i_in_pos0, Hs. simpl.
  destruct (Nat.ltb_spec (n_recv c) (n_sent c)) as [Hlt|Hge].
  2: { rewrite Hown. simpl. eexists. split; [done|].
       rewrite (lookup_ge_None_2 (sent_log c)) by done. simpl. rewrite app_nil_r.
       split_and!; try done. split; simpl; auto; unfold n_done in *; simpl in *; rewrite Hc in *; auto. }
  destruct Hown as [Hown Hmsg]. rewrite Hown, Hmsg. simpl.
  destruct (sync (cons c) && (ts <? timestamp s)); simpl.
  { eexists. split; [done|]. rewrite app_nil_r. split_and!; try done.
    split; simpl; auto; unfold n_done in *; simpl in *; rewrite Hc in *; auto. }
  rewrite Hs, i_in_enum0. simpl. rewrite next_pos_of by done. simpl. rewrite Hs. simpl.
  eexists. split; [done|]. split_and!; try done.
  unfold n_alloc, n_sent, n_done, n_recv in *; rewrite Hc in *; simpl in *. rewrite Nat.sub_0_r in *.
  split; simpl; unfold n_alloc, n_sent, n_done, n_recv; simpl;
    rewrite ?length_app, ?Nat.add_1_r, ?Nat.sub_0_r; simpl; rewrite ?Nat.sub_0_r; auto.
  - by destruct (_ =? _).
  - by destruct (_ =? _).
  - intros pos Heq. by simplify_eq.
  - rewrite i_recv0 at 1. by rewrite (take_S_r _ _ _ Hmsg).
  - lia.
Qed.

Lemma done_inv n c :
  inv n c → c_slot c ≠ None →
  ∃ c', step c CDone = Some c' ∧ inv n c' ∧ sent_log c' = sent_log c ∧ recv_log c' = recv_log c ∧
        p_slot c' = p_slot c ∧ c_slot c' = None.
Proof.
  intros Hinv Hc. pose proof Hinv as []. destruct (c_slot c) as [pos|] eqn:Hcs; [|done].
  pose proof (pos_of_range n (n_done c) ltac:(lia)).
  unfold n_done in *. rewrite Hcs in *. simpl in *.
  rewrite (i_c_slot0 pos eq_refl) in *.
  destruct (i_full0 (n_recv c - 1)%nat) as (s & Hs & Ho & Hown & Hmsg); [lia|].
  destruct (done_owner _ Ho) as [Hfit Hpro].
  set (s' := MkSlot (body s) (timestamp s) (u8 (Z.lor (Z.ldiff (own_type s) 128) 0))).
  exists (MkChan (prod c) (cons c) (put_slot (ring c) (pos_of n (n_recv c - 1)) s') (p_slot c) None
            (sent_log c) (recv_log c)).
  split. { simpl. unfold SimbricksBaseIfInDone. rewrite Hcs, Hs. by destruct (p_slot c). }
  split; [|by split_and!].
  unfold n_alloc, n_sent, n_recv in *.
  split; simpl; unfold n_alloc, n_sent, n_done, n_recv; simpl; rewrite ?Nat.sub_0_r; auto.
  - by rewrite length_put.
  - done.
  - lia.
  - intros v Hv. apply holds_put_ne; [lia|lia|lia|]. apply i_full0. lia.
  - intros v Hv1 Hv2. destruct (decide (pos_of n v = pos_of n (length (recv_log c) - 1))) as [Heq|Hne].
    + destruct (decide (v = length (recv_log c) - 1)%nat) as [->|Hnev].
      * by apply holds_put_eq; [lia|..].
      * unfold holds. rewrite Heq. eexists. split; [apply slot_at_put; lia|done].
    + apply holds_put_ne; [lia| |..]; try (intros ->; done).
      * destruct (decide (Z.of_nat v - Z.of_nat (length (recv_log c) - 1) < n)); [lia|].
        exfalso. apply Hne.
        replace v with ((length (recv_log c) - 1) + Z.to_nat n)%nat by lia. apply pos_of_wrap. lia.
      * apply i_free0; [done|].
        destruct (decide (Z.of_nat v < Z.of_nat (length (recv_log c) - 1) + n)); [done|].
        exfalso. apply Hne.
        replace v with ((length (recv_log c) - 1) + Z.to_nat n)%nat by lia. apply pos_of_wrap. lia.
Qed.

Lemma channel_step_inv n c a : inv n c → in_turn c a → ∃ c', step c a = Some c' ∧ inv n c'.
Proof.
  intros Hinv Hturn. destruct a; simpl in Hturn.
  - destruct (alloc_inv n c ts Hinv Hturn) as (c' & ? & ? & _). eauto.
  - destruct Hturn. destruct (send_inv n c data ty Hinv) as (c' & m & ? & ? & _); eauto.
  - destruct (sync_inv n c ts Hinv Hturn) as (c' & new & ? & ? & _). eauto.
  - destruct (poll_inv n c ts Hinv Hturn) as (c' & ? & ? & _). eauto.
  - destruct (done_inv n c Hinv Hturn) as (c' & ? & ? & _). eauto.
Qed.

(** ** Executions *)

Fixpoint in_turn_run (c : chan) (acts : list act) : Prop :=
  match acts with
  | [] => True
  | a :: acts => in_turn c a ∧ ∀ c', step c a = Some c' → in_turn_run c' acts
  end.

Lemma channel_run_inv n acts : ∀ c, inv n c → in_turn_run c acts → ∃ c', run c acts = Some c' ∧ inv n c'.
Proof.
  induction acts as [|a acts IH]; intros c Hinv Ht; simpl; [by eauto|].
  destruct Ht as [Ha Ht]. destruct (channel_step_inv n c a Hinv Ha) as (c' & Hs & Hinv').
  rewrite Hs. by apply IH, Ht.
Qed.

(** A channel as [SimbricksBaseIfListen] and the handshake leave it: zeroed memory (every
    slot owned by the producer), both positions 0. *)
Definition fresh_ring (n : nat) : list Slot := replicate n (MkSlot [] 0 0).

Definition fresh_if (n : nat) (elen : Z) (sync : bool) (p : Params) : SimbricksBaseIf :=
  MkIf 0 (Z.of_nat n) 0 0 elen (Z.of_nat n) 0 false sync p.

Definition fresh (n : nat) (prod cons : SimbricksBaseIf) : chan :=
  MkChan prod cons (fresh_ring n) None None [] [].

(** A ring of which the producer owns every entry, at position 0. *)
Lemma free_ring_inv n q b1 b2 :
  0 < n < 2 ^ 64 → Z.of_nat (length q) = n →
  Forall (λ s, own_type s ∈u 8 ∧ owner s = SIMBRICKS_PROTO_MSG_OWN_PRO) q →
  out_enum b1 = n → in_enum b2 = n → out_pos b1 = 0 → in_pos b2 = 0 →
  inv n (MkChan b1 b2 q None None [] []).
Proof.
  intros Hn Hl Hq. split; simpl; unfold n_done, n_alloc, n_sent, n_recv, pending; simpl; auto; try done.
  - lia.
  - intros v Hv. lia.
  - intros v _ Hv. pose proof (pos_of_range n v ltac:(lia)).
    destruct (lookup_lt_is_Some_2 q (Z.to_nat (pos_of n v))) as [s Hs]; [lia|].
    exists s. split; [done|]. exact (Forall_lookup_1 _ _ _ _ Hq Hs).
Qed.

Lemma fresh_inv n e1 e2 s1 s2 p1 p2 :
  0 < Z.of_nat n < 2 ^ 64 → inv (Z.of_nat n) (fresh n (fresh_if n e1 s1 p1) (fresh_if n e2 s2 p2)).
Proof.
  intros Hn. apply free_ring_inv; [done| |by apply Forall_replicate|done..].
  unfold fresh_ring. by rewrite length_replicate.
Qed.

(** C2: the shared-memory channel is a FIFO.  From a fresh ring, under every interleaving of
    the producer's and the consumer's calls, no call is undefined, what the consumer has
    received is a prefix of what the producer has sent (same order, type, timestamp and
    contents, nothing lost, duplicated or overwritten), and at most [n] messages are
    unfinished. *)
Theorem channel_fifo n e1 e2 s1 s2 p1 p2 acts :
  0 < Z.of_nat n < 2 ^ 64 →
  in_turn_run (fresh n (fresh_if n e1 s1 p1) (fresh_if n e2 s2 p2)) acts →
  ∃ c, run (fresh n (fresh_if n e1 s1 p1) (fresh_if n e2 s2 p2)) acts = Some c ∧
       recv_log c = take (length (recv_log c)) (sent_log c) ∧
       (length (recv_log c) ≤ length (sent_log c))%nat ∧
       (n_alloc c ≤ n_done c + n)%nat.
Proof.
  intros Hn Ht. destruct (channel_run_inv _ acts _ (fresh_inv n e1 e2 s1 s2 p1 p2 Hn) Ht) as (c & Hr & Hinv).
  exists c. destruct Hinv. split_and!; [done|done|apply i_order0|lia].
Qed.

(** Decides [in_turn_run]. *)
Definition in_turnb (c : chan) (a : act) : bool :=
  match a with
  | PAlloc _ | PSync _ => bool_decide (p_slot c = None)
  | PSend _ ty => negb (bool_decide (p_slot c = None)) && bool_decide (ty ∈u 7)
  | CPoll _ => bool_decide (c_slot c = None)
  | CDone => negb (bool_decide (c_slot c = None))
  end.

Fixpoint in_turn_runb (c : chan) (acts : list act) : bool :=
  match acts with
  | [] => true
  | a :: acts => in_turnb c a && match step c a with Some c' => in_turn_runb c' acts | None => true end
  end.

Lemma in_turn_runb_sound acts : ∀ c, in_turn_runb c acts = true → in_turn_run c acts.
Proof.
  induction acts as [|a acts IH]; intros c; simpl; [done|]. rewrite andb_true_iff.
  intros [Ha Hr]. split; [|intros c' Hc; rewrite Hc in Hr; by apply IH].
  destruct a; simpl in *;
    rewrite ?andb_true_iff, ?negb_true_iff, ?bool_decide_eq_true, ?bool_decide_eq_false in Ha; done.
Qed.

(** A ring of two entries, wrapping twice. *)
Definition demo_params : Params := MkParams 500 500 SyncRequired.
Definition demo_chan : chan := fresh 2 (fresh_if 2 64 true demo_params) (fresh_if 2 64 true demo_params).
Definition demo_acts : list act :=
  [PSync 1; PAlloc 10; CPoll 400; PSend [1; 2] 0x40; CPoll 501; CDone; CPoll 505; PAlloc 20;
   PSend [3] 0x41; CPoll 600; CDone; PAlloc 30; PSend [4] 0x42; PAlloc 40; CPoll 600; CDone; CPoll 600].

Example demo_received :
  (λ c, (m_body <$> recv_log c, m_timestamp <$> recv_log c)) <$> run demo_chan demo_acts =
  Some ([[]; [1; 2]; [3]; [4]], [501; 510; 520; 530]).
Proof. by vm_compute. Qed.

Lemma channel_fifo_witness :
  ∃ c, run demo_chan demo_acts = Some c ∧
       recv_log c = take (length (recv_log c)) (sent_log c) ∧
       (length (recv_log c) ≤ length (sent_log c))%nat ∧
       (n_alloc c ≤ n_done c + 2)%nat.
Proof.
  apply (channel_fifo 2 64 64 true true demo_params demo_params demo_acts); [done|].
  apply in_turn_runb_sound. by vm_compute.
Defined.

(** ** Timestamps *)

(** The producer's clock: the times it passes never decrease and stay clear of 2^64. *)
Fixpoint clock_run (latency lo : Z) (acts : list act) : Prop :=
  match acts with
  | [] => True
  | (PAlloc ts | PSync ts) :: acts => lo ≤ ts ∧ ts + latency < 2 ^ 64 ∧ clock_run latency ts acts
  | _ :: acts => clock_run latency lo acts
  end.

Definition clock_after (lo : Z) (a : act) : Z :=
  match a with PAlloc ts | PSync ts => ts | _ => lo end.

Definition sorted_log (l : list message) : Prop :=
  ∀ i j m1 m2, (i ≤ j)%nat → l !! i = Some m1 → l !! j = Some m2 → m_timestamp m1 ≤ m_timestamp m2.

Record timed (latency lo : Z) (c : chan) : Prop := {
  t_latency : link_latency (params (prod c)) = latency;
  t_sorted : sorted_log (sent_log c);
  t_bound : Forall (λ m, 0 ≤ m_timestamp m ≤ lo + latency) (sent_log c);
  t_alloc pos : p_slot c = Some pos →
                ∃ s, slot_at (ring c) pos = Some s ∧ timestamp s = lo + latency;
}.

Lemma sorted_log_snoc l m :
  sorted_log l → Forall (λ m', m_timestamp m' ≤ m_timestamp m) l → sorted_log (l ++ [m]).
Proof.
  intros Hs Hb i j m1 m2 Hij H1 H2. apply lookup_snoc_Some in H1, H2.
  destruct H1 as [[Hi H1]|[-> <-]], H2 as [[Hj H2]|[-> <-]]; try lia; [exact (Hs i j m1 m2 Hij H1 H2)|].
  exact (Forall_lookup_1 _ _ _ _ Hb H1).
Qed.

Lemma timed_mono latency lo lo' c :
  lo ≤ lo' → p_slot c = None → timed latency lo c → timed latency lo' c.
Proof.
  intros Hle Hp []. split; auto; [|congruence].
  eapply Forall_impl; [done|]. simpl. lia.
Qed.

Lemma timed_alloc n latency lo c ts c' :
  inv n c → timed latency lo c → p_slot c = None → 0 ≤ lo + latency → lo ≤ ts → ts + latency < 2 ^ 64 →
  step c (PAlloc ts) = Some c' → timed latency ts c'.
Proof.
  intros Hinv Ht Hp H0 Hlo Hhi Hstep. pose proof (timed_mono _ _ ts _ Hlo Hp Ht) as [].
  destruct (out_slot n c Hinv Hp) as (s & Hs & _ & _). pose proof Hinv as [].
  pose proof (pos_of_range n (n_sent c) ltac:(lia)).
  assert (n_alloc c = n_sent c) as Hna by (unfold n_alloc; rewrite Hp; simpl; lia).
  simpl in Hstep. rewrite Hp in Hstep. unfold SimbricksBaseIfOutAlloc in Hstep.
  rewrite i_out_pos0, Hna, Hs in Hstep. simpl in Hstep.
  destruct (negb _) in Hstep; simpl in Hstep; simplify_eq.
  - split; simpl; auto. done.
  - rewrite i_out_enum0, next_pos_of in Hstep by done. simpl in Hstep. simplify_eq.
    split; simpl; auto. intros pos Heq. simplify_eq. eexists. split; [apply slot_at_put; lia|].
    simpl. apply wrap_id. unfold fits. lia.
Qed.

Lemma timed_send n latency lo c data ty c' :
  inv n c → timed latency lo c → 0 ≤ lo + latency → step c (PSend data ty) = Some c' →
  timed latency lo c'.
Proof.
  intros Hinv [] H0 Hstep. simpl in Hstep. destruct (p_slot c) as [pos|] eqn:Hp; [|done].
  destruct (t_alloc0 pos eq_refl) as (s & Hs & Hts). pose proof Hinv as [].
  rewrite (i_p_slot0 pos Hp) in *. pose proof (pos_of_range n (n_sent c) ltac:(lia)).
  unfold fill in Hstep. rewrite Hs in Hstep. simpl in Hstep.
  unfold SimbricksBaseIfOutSend in Hstep. rewrite slot_at_put in Hstep by lia. simpl in Hstep.
  rewrite slot_at_put in Hstep by (rewrite length_put; lia). simpl in Hstep. simplify_eq.
  split; simpl; auto; [| |done].
  - apply sorted_log_snoc; [done|]. simpl. rewrite Hts. eapply Forall_impl; [done|]. simpl. lia.
  - apply Forall_app. split; [done|]. constructor; [simpl; lia|done].
Qed.

Lemma timed_step n latency lo c a c' :
  inv n c → in_turn c a → timed latency lo c → 0 ≤ lo + latency →
  lo ≤ clock_after lo a → clock_after lo a + latency < 2 ^ 64 →
  step c a = Some c' → timed latency (clock_after lo a) c'.
Proof.
  intros Hinv Hturn Ht H0 Hlo Hhi Hstep. destruct a as [ts|data ty|ts|ts|]; simpl in Hlo, Hhi, Hturn |- *.
  - by eapply (timed_alloc n).
  - by eapply (timed_send n).
  - destruct (sync_needed (prod c) ts) eqn:Hneed.
    + rewrite (sync_as_send n) in Hstep by done.
      destruct (alloc_inv n c ts Hinv Hturn) as (c1 & Hc1 & Hinv1 & _).
      rewrite Hc1 in Hstep. cbn [mbind option_bind] in Hstep.
      assert (timed latency ts c1) by (by apply (timed_alloc n latency lo c ts c1)).
      destruct (p_slot c1) as [pos|]; [|by simplify_eq].
      destruct (slot_at (ring c1) pos); [|done]. cbn [mbind option_bind] in Hstep.
      by eapply (timed_send n); [..|lia|].
    + eapply (timed_mono _ lo); [done| |].
      * simpl in Hstep. rewrite Hturn in Hstep. unfold SimbricksBaseIfOutSync in Hstep.
        rewrite Hneed in Hstep. simpl in Hstep. by simplify_eq.
      * simpl in Hstep. rewrite Hturn in Hstep. unfold SimbricksBaseIfOutSync in Hstep.
        rewrite Hneed in Hstep. simpl in Hstep. rewrite app_nil_r in Hstep. simplify_eq.
        destruct Ht. split; simpl; auto. done.
  - destruct (poll_inv n c ts Hinv Hturn) as (c1 & Hc1 & _ & Hs1 & _ & Hp1 & Hpr1).
    assert (ring c1 = ring c) as Hr1.
    { clear Hstep. simpl in Hc1. rewrite Hturn in Hc1. destruct (p_slot c);
      destruct (SimbricksBaseIfInPoll _ _ _) as [[[pos|] b]|]; simplify_eq/=; try done;
      destruct (slot_at (ring c) pos); by simplify_eq/=. }
    assert (c1 = c') as <- by congruence. destruct Ht.
    split; rewrite ?Hs1, ?Hp1, ?Hpr1, ?Hr1; auto.
  - destruct (c_slot c) as [pos|] eqn:Hcs; [|done]. simpl in Hstep. rewrite Hcs in Hstep.
    pose proof Hinv as []. pose proof (pos_of_range n (n_done c) ltac:(lia)).
    unfold n_done in *. rewrite Hcs in *. simpl in *. rewrite (i_c_slot0 pos eq_refl) in *.
    destruct (i_full0 (n_recv c - 1)%nat) as (s & Hs & _); [lia|].
    unfold SimbricksBaseIfInDone in Hstep. rewrite Hs in Hstep. simpl in Hstep.
    destruct Ht. destruct (p_slot c) as [pos'|] eqn:Hp; injection Hstep as <-; split; simpl; auto; [|done].
    intros pos0 Heq. injection Heq as ->. destruct (t_alloc0 pos0 eq_refl) as (s' & Hs' & Hts').
    rewrite (i_p_slot0 pos0 eq_refl) in *. pose proof (pos_of_range n (n_sent c) ltac:(lia)).
    exists s'. split; [|done]. rewrite slot_at_put_ne; [done|lia|lia|].
    unfold n_alloc in *. rewrite Hp in *. simpl in *.
    intros Heq2%pos_of_inj; lia.
Qed.

(** *** Lookahead *)

Lemma step_cons c a c' :
  step c a = Some c' → (∀ ts, a ≠ CPoll ts) → cons c' = cons c ∧ recv_log c' = recv_log c.
Proof.
  intros Hstep Ha. destruct a as [ts|data ty|ts|ts|]; simpl in Hstep; [| | |by destruct (Ha ts)|].
  - destruct (p_slot c); [done|]. destruct (SimbricksBaseIfOutAlloc _ _ _) as [[[? ?] ?]|]; by simplify_eq/=.
  - destruct (p_slot c); [|done].
    by repeat (match type of Hstep with context [mbind _ ?o] => destruct o end; simplify_eq/=).
  - destruct (p_slot c); [done|]. destruct (SimbricksBaseIfOutSync _ _ _) as [[[? ?] ?]|]; by simplify_eq/=.
  - destruct (p_slot c), (c_slot c); try done;
      destruct (SimbricksBaseIfInDone _ _); by simplify_eq/=.
Qed.

(** A poll records the timestamp of the oldest unread message, whether it is due or not. *)
Lemma poll_timestamp n c ts c' :
  inv n c → c_slot c = None → step c (CPoll ts) = Some c' → in_terminated (cons c') = false →
  in_terminated (cons c) = false ∧
  in_timestamp (cons c') = default (in_timestamp (cons c)) (m_timestamp <$> sent_log c !! n_recv c).
Proof.
  intros Hinv Hc Hstep. destruct (in_slot n c Hinv Hc) as (s & Hs & Ho & Hown).
  pose proof Hinv as []. simpl in Hstep. rewrite Hc in Hstep.
  unfold SimbricksBaseIfInPoll, SimbricksBaseIfInPeek in Hstep. rewrite i_in_pos0, Hs in Hstep.
  simpl in Hstep. destruct (Nat.ltb_spec (n_recv c) (n_sent c)) as [Hlt|Hge].
  2: { rewrite Hown in Hstep. rewrite (lookup_ge_None_2 (sent_log c)) by done.
       by destruct (p_slot c); simplify_eq/=. }
  destruct Hown as [Hown Hmsg]. rewrite Hmsg. rewrite Hown in Hstep. simpl in Hstep.
  destruct (sync (cons c) && _); simpl in Hstep; [by destruct (p_slot c); simplify_eq/=|].
  rewrite Hs, i_in_enum0 in Hstep. simpl in Hstep. rewrite next_pos_of in Hstep by done.
  simpl in Hstep. rewrite Hs in Hstep. simpl in Hstep.
  destruct (p_slot c); injection Hstep as <-; simpl; by destruct (_ =? _).
Qed.

Lemma sent_log_step n c a c' :
  inv n c → in_turn c a → step c a = Some c' → ∃ new, sent_log c' = sent_log c ++ new.
Proof.
  intros Hinv Ht Hs. destruct a; simpl in Ht.
  - destruct (alloc_inv n c ts Hinv Ht) as (c1 & Hc1 & _ & _ & Hl & _). exists [].
    rewrite app_nil_r. congruence.
  - destruct Ht. destruct (send_inv n c data ty Hinv) as (c1 & m & Hc1 & _ & _ & Hl & _); auto.
    exists [m]. congruence.
  - destruct (sync_inv n c ts Hinv Ht) as (c1 & new & Hc1 & _ & _ & Hl & _). exists new. congruence.
  - destruct (poll_inv n c ts Hinv Ht) as (c1 & Hc1 & _ & Hl & _). exists [].
    rewrite app_nil_r. congruence.
  - destruct (done_inv n c Hinv Ht) as (c1 & Hc1 & _ & Hl & _). exists [].
    rewrite app_nil_r. congruence.
Qed.

(** [in_timestamp] is 0 or the timestamp of a message at or before the next unread one. *)
Definition peeked (c : chan) : Prop :=
  in_terminated (cons c) = false →
  in_timestamp (cons c) = 0 ∨
  ∃ k m, (k ≤ n_recv c)%nat ∧ sent_log c !! k = Some m ∧ in_timestamp (cons c) = m_timestamp m.

Lemma peeked_step n c a c' :
  inv n c → in_turn c a → step c a = Some c' → peeked c → peeked c'.
Proof.
  intros Hinv Hturn Hstep Hp Hterm.
  assert ((∃ ts, a = CPoll ts) ∨ ∀ ts, a ≠ CPoll ts) as [[ts ->]|Hne]
    by (destruct a; try (by right); left; eauto).
  - destruct (poll_timestamp n c ts c' Hinv Hturn Hstep Hterm) as [Hterm0 Hts].
    destruct (poll_inv n c ts Hinv Hturn) as (c1 & Hc1 & _ & Hs1 & Hr1 & _).
    assert (c1 = c') as -> by congruence.
    assert (n_recv c ≤ n_recv c')%nat by (unfold n_recv; rewrite Hr1, length_app; lia).
    rewrite Hts. destruct (sent_log c !! n_recv c) as [m|] eqn:Hm; simpl.
    + right. exists (n_recv c), m. by rewrite Hs1.
    + destruct (Hp Hterm0) as [->|(k & m & Hk & Hl & ->)]; [by left|].
      right. exists k, m. rewrite Hs1. split_and!; [lia|done|done].
  - destruct (step_cons c a c' Hstep) as [Hc Hr]; [done|].
    rewrite Hc in *. destruct (sent_log_step n c a c' Hinv Hturn Hstep) as [new Hl].
    unfold n_recv. rewrite Hr, Hl. destruct (Hp Hterm) as [->|(k & m & Hk & Hm & ->)]; [by left|].
    right. exists k, m. split_and!; [done|by apply lookup_app_l_Some|done].
Qed.

(** Everything the timestamp theorems need, kept along an execution. *)
Definition clock_end (lo : Z) (acts : list act) : Z := foldl clock_after lo acts.

Lemma clock_step latency lo a acts :
  clock_run latency lo (a :: acts) → lo + latency < 2 ^ 64 →
  lo ≤ clock_after lo a ∧ clock_after lo a + latency < 2 ^ 64 ∧
  clock_run latency (clock_after lo a) acts.
Proof. destruct a; simpl; intuition lia. Qed.

Lemma run_timed n latency acts : ∀ lo c,
  inv n c → timed latency lo c → peeked c → 0 ≤ lo → 0 ≤ latency → lo + latency < 2 ^ 64 →
  in_turn_run c acts → clock_run latency lo acts →
  ∃ c' new, run c acts = Some c' ∧ inv n c' ∧ timed latency (clock_end lo acts) c' ∧ peeked c' ∧
            sent_log c' = sent_log c ++ new ∧ lo ≤ clock_end lo acts ∧
            clock_end lo acts + latency < 2 ^ 64.
Proof.
  induction acts as [|a acts IH]; intros lo c Hinv Ht Hp Hlo Hlat Hmax Hturn Hclk.
  { exists c, []. rewrite app_nil_r. split_and!; auto; simpl; lia. }
  destruct Hturn as [Ha Hturn]. destruct (channel_step_inv n c a Hinv Ha) as (c1 & Hs & Hinv1).
  destruct (clock_step _ _ _ _ Hclk Hmax) as (Hle & Hhi & Hclk1).
  assert (timed latency (clock_after lo a) c1) as Ht1
    by (apply (timed_step n latency lo c a c1); auto; lia).
  destruct (sent_log_step n c a c1 Hinv Ha Hs) as [new1 Hnew1].
  destruct (IH (clock_after lo a) c1) as (c' & new & Hr & ? & ? & ? & Hnew & ? & ?); auto;
    [by apply (peeked_step n c a)|lia|].
  exists c', (new1 ++ new). simpl. rewrite Hs. simpl.
  split_and!; auto; [by rewrite Hnew, Hnew1, app_assoc|unfold clock_end in *; simpl; lia].
Qed.

Lemma clock_run_app latency acts1 acts2 : ∀ lo,
  clock_run latency lo (acts1 ++ acts2) → lo + latency < 2 ^ 64 →
  clock_run latency lo acts1 ∧ clock_run latency (clock_end lo acts1) acts2.
Proof.
  induction acts1 as [|a acts1 IH]; intros lo Hclk Hmax; [done|].
  destruct (clock_step _ _ _ _ Hclk Hmax) as (Hle & Hhi & Hclk1).
  destruct (IH (clock_after lo a) Hclk1 Hhi) as [H1 H2]. split; [|exact H2].
  destruct a; simpl in *; intuition lia.
Qed.

Lemma in_turn_run_app acts1 acts2 : ∀ c,
  in_turn_run c (acts1 ++ acts2) →
  in_turn_run c acts1 ∧ ∀ c1, run c acts1 = Some c1 → in_turn_run c1 acts2.
Proof.
  induction acts1 as [|a acts1 IH]; intros c Ht; simpl in *; [split; [done|by intros ? [= ->]]|].
  destruct Ht as [Ha Ht]. split.
  - split; [done|]. intros c1 Hs. by apply IH, Ht.
  - intros c1 Hr. destruct (step c a) as [c'|] eqn:Hs; [|done]. by apply (IH c' (Ht c' eq_refl)).
Qed.

Lemma timed_fresh n e1 e2 s1 s2 p1 p2 :
  timed (link_latency p1) 0 (fresh n (fresh_if n e1 s1 p1) (fresh_if n e2 s2 p2)).
Proof. intros. split; simpl; auto; done. Qed.

(** C3: conservative synchronization is sound.  If the producer's clock does not run
    backwards, then in any reachable state (the channel not terminated) every message the
    consumer receives later carries a timestamp at least [in_timestamp], the time the
    consumer may therefore advance to. *)
Theorem lookahead_sound n e1 e2 s1 s2 p1 p2 acts1 acts2 c1 c2 j m :
  0 < Z.of_nat n < 2 ^ 64 → link_latency p1 ∈u 64 →
  let c0 := fresh n (fresh_if n e1 s1 p1) (fresh_if n e2 s2 p2) in
  in_turn_run c0 (acts1 ++ acts2) → clock_run (link_latency p1) 0 (acts1 ++ acts2) →
  run c0 acts1 = Some c1 → run c1 acts2 = Some c2 →
  in_terminated (cons c1) = false →
  (length (recv_log c1) ≤ j)%nat → recv_log c2 !! j = Some m →
  in_timestamp (cons c1) ≤ m_timestamp m.
Proof.
  intros Hn [HL1 HL2] c0 Hturn Hclk Hr1 Hr2 Hterm Hj Hm.
  apply in_turn_run_app in Hturn as [Ht1 Ht2]. specialize (Ht2 _ Hr1).
  apply clock_run_app in Hclk as [Hc1 Hc2]; [|lia].
  destruct (run_timed (Z.of_nat n) (link_latency p1) acts1 0 c0) as
    (c1' & _ & Hr1' & Hinv1 & Htm1 & Hp1 & _ & Hle1 & Hmax1); auto;
    [by apply fresh_inv|apply timed_fresh|by left|lia|].
  assert (c1' = c1) as -> by congruence.
  destruct (run_timed (Z.of_nat n) (link_latency p1) acts2 (clock_end 0 acts1) c1) as
    (c2' & new & Hr2' & Hinv2 & Htm2 & _ & Hnew & _ & _); auto.
  assert (c2' = c2) as -> by congruence.
  assert (sent_log c2 !! j = Some m) as Hs2.
  { rewrite (i_recv _ _ Hinv2) in Hm. by apply lookup_take_Some in Hm as [? _]. }
  destruct (Hp1 Hterm) as [->|(k & m1 & Hk & Hm1 & ->)].
  - exact (proj1 (Forall_lookup_1 _ _ _ _ (t_bound _ _ _ Htm2) Hs2)).
  - apply (t_sorted _ _ _ Htm2 k j); [unfold n_recv in Hk; lia| |done].
    rewrite Hnew. by apply lookup_app_l_Some.
Qed.

(** The consumer of [demo_chan] has received one message, holds the one of time 510, and
    goes on. *)
Definition demo_mid : chan := default demo_chan (run demo_chan (take 7 demo_acts)).
Definition demo_end : chan := default demo_chan (run demo_mid (drop 7 demo_acts)).

Lemma lookahead_sound_witness :
  in_timestamp (cons demo_mid) = 510 ∧ in_timestamp (cons demo_mid) ≤ m_timestamp (MkMsg [3] 520 0x41).
Proof.
  split; [by vm_compute|].
  apply (lookahead_sound 2 64 64 true true demo_params demo_params (take 7 demo_acts) (drop 7 demo_acts)
           demo_mid demo_end 2).
  - done.
  - by vm_compute.
  - apply in_turn_runb_sound. by vm_compute.
  - simpl. lia.
  - by vm_compute.
  - by vm_compute.
  - by vm_compute.
  - vm_compute. lia.
  - by vm_compute.
Defined.

(** synchronization makes progress.  On an interface [SimbricksBaseIfInit] accepted in a
    synchronizing mode, after a sync attempt at time [ts] that succeeds, the next message is
    due strictly later and at most one interval from now, and the peer has been promised a
    time strictly beyond [ts]: of two synchronized peers, the one that is behind can always
    advance. *)
Theorem out_sync_progress p i b q ts b' q' :
  SimbricksBaseIfInit p = Some i → sync_mode p ≠ SyncDisabled → params b = p → sync b = true →
  0 < sync_interval p → 0 ≤ out_timestamp b ≤ ts → ts + link_latency p < 2 ^ 64 - 1 →
  SimbricksBaseIfOutSync b q ts = Some (0, b', q') →
  ts < SimbricksBaseIfOutNextSync b' ≤ ts + sync_interval p ∧
  ts < out_timestamp b' + link_latency p ∧ out_timestamp b' ≤ ts.
Proof.
  intros Hi Hmode Hp Hsync Hint Hts Hmax Hs.
  assert (sync_interval p ≤ link_latency p) as Hle.
  { unfold SimbricksBaseIfInit in Hi. destruct (sync_mode p); [done|..];
      simpl in Hi; destruct (Z.ltb_spec (link_latency p) (sync_interval p)); try done; lia. }
  assert (ts < out_timestamp b' + sync_interval p ∧ out_timestamp b' ≤ ts ∧ params b' = p ∧
          0 ≤ out_timestamp b') as (H1 & H2 & H3 & H4).
  { unfold SimbricksBaseIfOutSync in Hs. destruct (sync_needed b ts) eqn:Hneed; simpl in Hs.
    - unfold SimbricksBaseIfOutAlloc in Hs. destruct (slot_at q (out_pos b)) as [s|]; [|done].
      simpl in Hs. destruct (negb _); [done|]. destruct (next_pos _ _); [|done]. simpl in Hs.
      destruct (SimbricksBaseIfOutSend _ _ _); [|done]. simplify_eq/=. split_and!; auto; lia.
    - simplify_eq. unfold sync_needed in Hneed. rewrite Hsync in Hneed. simpl in Hneed.
      apply negb_false_iff, andb_true_iff in Hneed as [_ Hlt%Z.ltb_lt].
      rewrite (wrap_id 64) in Hlt by (unfold fits; lia). split_and!; auto; lia. }
  split; [|lia]. unfold SimbricksBaseIfOutNextSync. rewrite H3. unfold UINT64_MAX.
  destruct (Z.eqb_spec (out_timestamp b') (2 ^ 64 - 1)); [lia|].
  rewrite (wrap_id 64) by (unfold fits; lia). lia.
Qed.

Lemma out_sync_progress_witness :
  ∃ b' q', SimbricksBaseIfOutSync (fresh_if 2 64 true demo_params) (fresh_ring 2) 1000 = Some (0, b', q') ∧
  1000 < SimbricksBaseIfOutNextSync b' ≤ 1000 + 500 ∧
  1000 < out_timestamp b' + 500 ∧ out_timestamp b' ≤ 1000.
Proof.
  destruct (SimbricksBaseIfOutSync (fresh_if 2 64 true demo_params) (fresh_ring 2) 1000)
    as [[[r b'] q']|] eqn:Hs; [|vm_compute in Hs; discriminate].
  exists b', q'. assert (r = 0) as -> by (vm_compute in Hs; congruence). split; [done|].
  apply (out_sync_progress demo_params (MkIf 0 0 0 0 0 0 0 false false demo_params)
           (fresh_if 2 64 true demo_params) (fresh_ring 2) 1000 b' q'); try done.
Defined.

End channel.
