(* ===== verification/TypedIf.v ===== *)
(** * Interfaces with their queues (lib/simbricks/base/generic.h, and its instances network/if.h,
    pcie/if.h, mem/if.h)

    The functions that [SIMBRICKS_BASEIF_GENERIC] generates: the operations of BaseIf.v on an
    interface together with the memory of its two rings.  The peer at the other end of both
    rings acts between any two of them; what is proved here turns the invariant of one ring
    (BaseChannel.v) into specifications of the operations of an interface, which the simulators
    built on it use. *)

From S2P Require Import Prelude.
From S2P Require Import BaseIf.
From S2P Require Import BaseChannel.

Module typed.
Import base channel.

(** An interface and its shared memory.  [taken] and [sent] are history: the messages polled and
    the messages sent so far. *)
Record iface := MkIface {
  base_if : SimbricksBaseIf;
  in_q : list Slot;
  out_q : list Slot;
  taken : list message;
  sent : list message;
}.

(** ** The generated operations *)

Definition InPeek (i : iface) (ts : Z) : option (option Z * iface) :=
  '(pos, b) ← SimbricksBaseIfInPeek (base_if i) (in_q i) ts;
  Some (pos, MkIface b (in_q i) (out_q i) (taken i) (sent i)).

Definition InPoll (i : iface) (ts : Z) : option (option Z * iface) :=
  '(pos, b) ← SimbricksBaseIfInPoll (base_if i) (in_q i) ts;
  match pos with
  | None => Some (None, MkIface b (in_q i) (out_q i) (taken i) (sent i))
  | Some p =>
      s ← slot_at (in_q i) p;
      Some (Some p, MkIface b (in_q i) (out_q i) (taken i ++ [message_of s]) (sent i))
  end.

Definition InType (i : iface) (pos : Z) : option Z :=
  s ← slot_at (in_q i) pos; Some (SimbricksBaseIfInType s).

(** The bytes of a message. *)
Definition in_body (i : iface) (pos : Z) : option bytes := s ← slot_at (in_q i) pos; Some (body s).

Definition InDone (i : iface) (pos : Z) : option iface :=
  q ← SimbricksBaseIfInDone (in_q i) pos;
  Some (MkIface (base_if i) q (out_q i) (taken i) (sent i)).

Definition InTimestamp (i : iface) : Z := SimbricksBaseIfInTimestamp (base_if i).

Definition OutAlloc (i : iface) (ts : Z) : option (option Z * iface) :=
  '(pos, b, q) ← SimbricksBaseIfOutAlloc (base_if i) (out_q i) ts;
  Some (pos, MkIface b (in_q i) q (taken i) (sent i)).

Definition out_body (i : iface) (pos : Z) : option bytes := s ← slot_at (out_q i) pos; Some (body s).

(** The sender writes into the entry it allocated. *)
Definition out_fill (i : iface) (pos : Z) (data : bytes) : option iface :=
  q ← fill (out_q i) pos data;
  Some (MkIface (base_if i) (in_q i) q (taken i) (sent i)).

Definition OutSend (i : iface) (pos ty : Z) : option iface :=
  q ← SimbricksBaseIfOutSend (out_q i) pos ty;
  s ← slot_at q pos;
  Some (MkIface (base_if i) (in_q i) q (taken i) (sent i ++ [message_of s])).

(** The message [OutSync] sends, if any. *)
Definition synced (b : SimbricksBaseIf) (q q' : list Slot) (ts : Z) : list message :=
  if sync_needed b ts then
    match slot_at q (out_pos b) with
    | Some s => if owner s =? SIMBRICKS_PROTO_MSG_OWN_PRO
                then option_list (message_of <$> slot_at q' (out_pos b)) else []
    | None => []
    end
  else [].

Definition OutSync (i : iface) (ts : Z) : option (Z * iface) :=
  '(r, b, q) ← SimbricksBaseIfOutSync (base_if i) (out_q i) ts;
  Some (r, MkIface b (in_q i) q (taken i) (sent i ++ synced (base_if i) (out_q i) q ts)).

Definition OutNextSync (i : iface) : Z := SimbricksBaseIfOutNextSync (base_if i).
Definition OutMsgLen (i : iface) : Z := SimbricksBaseIfOutMsgLen (base_if i).

(** ** The peer *)

Record peer := MkPeer {
  pif : SimbricksBaseIf;
  p_alloc : option Z;         (* allocated and not yet sent *)
  p_poll : option Z;          (* polled and not yet done *)
  arrived : list message;     (* history: what it sent us *)
  picked : list message;      (* history: what it polled of ours *)
}.

(** The two rings, as channels of BaseChannel.v. *)
Definition rx_chan (i : iface) (rx : option Z) (g : peer) : chan :=
  MkChan (pif g) (base_if i) (in_q i) (p_alloc g) rx (arrived g) (taken i).
Definition tx_chan (i : iface) (tx : option Z) (g : peer) : chan :=
  MkChan (base_if i) (pif g) (out_q i) tx (p_poll g) (sent i) (picked g).

(** A call of the peer, while the interface has the entries [rx] and [tx] in hand. *)
Definition peer_step (i : iface) (rx tx : option Z) (g : peer) (a : act) : option (iface * peer) :=
  match a with
  | PAlloc _ | PSend _ _ | PSync _ =>
      c ← step (rx_chan i rx g) a;
      Some (MkIface (base_if i) (ring c) (out_q i) (taken i) (sent i),
            MkPeer (prod c) (p_slot c) (p_poll g) (sent_log c) (picked g))
  | CPoll _ | CDone =>
      c ← step (tx_chan i tx g) a;
      Some (MkIface (base_if i) (in_q i) (ring c) (taken i) (sent i),
            MkPeer (cons c) (p_alloc g) (c_slot c) (arrived g) (recv_log c))
  end.

(** What its calls must respect. *)
Definition peer_turn (g : peer) (a : act) : Prop :=
  match a with
  | PAlloc _ | PSync _ => p_alloc g = None
  | PSend _ ty => p_alloc g ≠ None ∧ ty ∈u 7
  | CPoll _ => p_poll g = None
  | CDone => p_poll g ≠ None
  end.

(** ** The operations are calls of the channels *)

Lemma InPoll_step i g ts :
  step (rx_chan i None g) (CPoll ts) = ('(r, i') ← InPoll i ts; Some (rx_chan i' r g)).
Proof.
  unfold InPoll, rx_chan; simpl. destruct (p_alloc g);
    (destruct (SimbricksBaseIfInPoll _ _ _) as [[[pos|] b]|]; [|done..]; simpl; by destruct (slot_at _ _)).
Qed.

Lemma InDone_step i g pos :
  step (rx_chan i (Some pos) g) CDone = (i' ← InDone i pos; Some (rx_chan i' None g)).
Proof. unfold InDone, rx_chan; simpl. destruct (p_alloc g); by destruct (SimbricksBaseIfInDone _ _). Qed.

Lemma OutAlloc_step i g ts :
  step (tx_chan i None g) (PAlloc ts) = ('(r, i') ← OutAlloc i ts; Some (tx_chan i' r g)).
Proof. unfold OutAlloc; simpl. by destruct (SimbricksBaseIfOutAlloc _ _ _) as [[[r b] q]|]. Qed.

Lemma OutSend_step i g pos data ty :
  step (tx_chan i (Some pos) g) (PSend data ty) =
  (i1 ← out_fill i pos data; i2 ← OutSend i1 pos ty; Some (tx_chan i2 None g)).
Proof.
  unfold out_fill, OutSend; simpl. destruct (fill _ _ _) as [q|]; simpl; [|done].
  destruct (SimbricksBaseIfOutSend _ _ _) as [q'|]; simpl; [|done]. by destruct (slot_at _ _).
Qed.

Lemma OutSync_step i g ts :
  step (tx_chan i None g) (PSync ts) = ('(_, i') ← OutSync i ts; Some (tx_chan i' None g)).
Proof. unfold OutSync; simpl. by destruct (SimbricksBaseIfOutSync _ _ _) as [[[r b] q]|]. Qed.

(** ** What the operations leave alone *)

(** The invariant of a ring looks at the positions and lengths of its own direction only. *)
Lemma inv_fields n c c' :
  inv n c → ring c' = ring c → p_slot c' = p_slot c → c_slot c' = c_slot c →
  sent_log c' = sent_log c → recv_log c' = recv_log c →
  in_enum (cons c') = in_enum (cons c) → in_pos (cons c') = in_pos (cons c) →
  out_enum (prod c') = out_enum (prod c) → out_pos (prod c') = out_pos (prod c) → inv n c'.
Proof.
  destruct c, c'; simpl. intros [] -> -> -> -> -> Hie Hip Hoe Hop. simpl in *.
  split; unfold n_alloc, n_sent, n_done, n_recv in *; simpl in *; auto; congruence.
Qed.

(** The bytes of the messages in a ring. *)
Definition bodies (q : list Slot) : list bytes := body <$> q.

Lemma bodies_put q pos s s' :
  slot_at q pos = Some s → body s' = body s → bodies (put_slot q pos s') = bodies q.
Proof.
  intros Hs Hb. unfold bodies, put_slot. rewrite list_fmap_insert, Hb.
  apply list_insert_id. unfold slot_at in Hs. by rewrite list_lookup_fmap, Hs.
Qed.

Lemma in_done_bodies q pos q' : SimbricksBaseIfInDone q pos = Some q' → bodies q' = bodies q.
Proof.
  unfold SimbricksBaseIfInDone. destruct (slot_at q pos) as [s|] eqn:E; [|done]. intros [= <-].
  by eapply bodies_put.
Qed.

Lemma out_send_bodies q pos ty q' : SimbricksBaseIfOutSend q pos ty = Some q' → bodies q' = bodies q.
Proof.
  unfold SimbricksBaseIfOutSend. destruct (slot_at q pos) as [s|] eqn:E; [|done]. intros [= <-].
  by eapply bodies_put.
Qed.

Lemma fill_bodies q pos data q' :
  fill q pos data = Some q' → bodies q' = <[Z.to_nat pos := data]> (bodies q).
Proof.
  unfold fill. destruct (slot_at q pos); [|done]. intros [= <-].
  unfold bodies, put_slot. by rewrite list_fmap_insert.
Qed.

(** [OutAlloc] and [OutSync] keep the bytes of the ring and the receiving side. *)
Definition same_in (b b' : SimbricksBaseIf) : Prop :=
  in_pos b' = in_pos b ∧ in_enum b' = in_enum b ∧ in_timestamp b' = in_timestamp b ∧
  in_terminated b' = in_terminated b ∧ sync b' = sync b ∧ params b' = params b.

Lemma out_alloc_keeps b q ts r b' q' :
  SimbricksBaseIfOutAlloc b q ts = Some (r, b', q') → bodies q' = bodies q ∧ same_in b b'.
Proof.
  unfold SimbricksBaseIfOutAlloc. destruct (slot_at q (out_pos b)) as [s|] eqn:E; [|done]. simpl.
  destruct (negb _); [intros [= <- <- <-]; by repeat split|].
  destruct (next_pos _ _); [|done]. intros [= <- <- <-]. split; [by eapply bodies_put|by repeat split].
Qed.

Lemma out_sync_keeps b q ts r b' q' :
  SimbricksBaseIfOutSync b q ts = Some (r, b', q') → bodies q' = bodies q ∧ same_in b b'.
Proof.
  unfold SimbricksBaseIfOutSync. destruct (negb _); [intros [= <- <- <-]; by repeat split|].
  destruct (SimbricksBaseIfOutAlloc b q ts) as [[[pos b1] q1]|] eqn:E; [|done]. simpl.
  apply out_alloc_keeps in E as [Hb Hs]. destruct pos as [pos|]; [|by intros [= <- <- <-]].
  destruct (SimbricksBaseIfOutSend _ _ _) as [q2|] eqn:E2; [|done]. intros [= <- <- <-].
  apply out_send_bodies in E2. by rewrite E2.
Qed.

(** [InPoll] keeps the sending side. *)
Definition same_out (b b' : SimbricksBaseIf) : Prop :=
  out_pos b' = out_pos b ∧ out_enum b' = out_enum b ∧ params b' = params b.

Lemma in_poll_keeps b q ts r b' : SimbricksBaseIfInPoll b q ts = Some (r, b') → same_out b b'.
Proof.
  unfold SimbricksBaseIfInPoll, SimbricksBaseIfInPeek.
  destruct (slot_at q (in_pos b)) as [s|]; [|done]. simpl.
  destruct (negb _); simpl; [by intros [= <- <-]|].
  destruct (_ && _); simpl; [by intros [= <- <-]|].
  destruct (slot_at q (in_pos b)) as [s'|]; [|done]. simpl.
  destruct (next_pos _ _); [|done]. simpl. intros [= <- <-]. by destruct (_ =? _).
Qed.

(** ** Specifications *)

(** The interface and its peer are at consistent places of both rings, with the entries [rx] and
    [tx] in hand. *)
Record linked (n m : Z) (i : iface) (rx tx : option Z) (g : peer) : Prop := {
  l_in : inv n (rx_chan i rx g);
  l_out : inv m (tx_chan i tx g);
}.

Section specs.
Context (n m : Z).

(** Moves the invariant of the ring an operation did not touch. *)
Local Ltac frame_inv := eapply inv_fields; [eassumption|done..].

Lemma InPoll_spec i tx g ts :
  linked n m i None tx g →
  ∃ r i', InPoll i ts = Some (r, i') ∧ linked n m i' r tx g ∧
    in_q i' = in_q i ∧ out_q i' = out_q i ∧ sent i' = sent i ∧ same_out (base_if i) (base_if i') ∧
    match r with
    | None => taken i' = taken i
    | Some pos => ∃ s, slot_at (in_q i) pos = Some s ∧ taken i' = taken i ++ [message_of s] ∧
                       poll_ready (rx_chan i None g) ts = Some (message_of s)
    end.
Proof.
  intros [Hin Hout]. destruct (poll_inv n _ ts Hin eq_refl) as (c & Hc & Hinv & _ & Hr & _).
  rewrite InPoll_step in Hc. unfold InPoll in *.
  destruct (SimbricksBaseIfInPoll _ _ _) as [[r b]|] eqn:Hp; [|done]. simpl in Hc |- *.
  pose proof (in_poll_keeps _ _ _ _ _ Hp) as Hso.
  destruct r as [pos|]; simpl in Hc |- *.
  - destruct (slot_at (in_q i) pos) as [s|] eqn:Hs; [|done]. simpl in Hc |- *. injection Hc as <-.
    eexists _, _. split; [done|]. split_and!; try done.
    + split; [done|]. destruct Hso as (? & ? & ?). frame_inv.
    + exists s. split_and!; [done..|]. simpl in Hr. apply app_inv_head in Hr.
      destruct (poll_ready _ _); [by injection Hr as <-|done].
  - injection Hc as <-. eexists _, _. split; [done|]. split_and!; try done.
    split; [done|]. destruct Hso as (? & ? & ?). frame_inv.
Qed.

(** The entry in hand holds the message polled last. *)
Lemma in_hand i pos tx g :
  linked n m i (Some pos) tx g →
  ∃ s l, slot_at (in_q i) pos = Some s ∧ taken i = l ++ [message_of s].
Proof.
  intros [[] _]. specialize (i_c_slot0 pos eq_refl) as ->.
  unfold n_done, n_recv, n_sent, n_alloc in *. simpl in *.
  destruct (i_full0 (length (taken i) - 1)%nat) as (s & Hs & _ & _ & Hm); [lia|].
  exists s, (take (length (taken i) - 1) (taken i)). split; [done|].
  rewrite <- (take_drop (length (taken i) - 1) (taken i)) at 1. f_equal.
  rewrite (drop_S _ (message_of s)); [f_equal; apply drop_ge; lia|].
  pose proof (f_equal (λ l, l !! (length (taken i) - 1)%nat) i_recv0) as E. simpl in E.
  by rewrite E, lookup_take_lt by lia.
Qed.

(** What was taken is a prefix of what arrived. *)
Lemma taken_prefix i rx tx g :
  linked n m i rx tx g → taken i = take (length (taken i)) (arrived g).
Proof. intros [[] _]. exact i_recv0. Qed.

Lemma InDone_spec i pos tx g :
  linked n m i (Some pos) tx g →
  ∃ i', InDone i pos = Some i' ∧ linked n m i' None tx g ∧ base_if i' = base_if i ∧
    bodies (in_q i') = bodies (in_q i) ∧ out_q i' = out_q i ∧ taken i' = taken i ∧ sent i' = sent i.
Proof.
  intros [Hin Hout]. destruct (done_inv n _ Hin ltac:(done)) as (c & Hc & Hinv & _).
  rewrite InDone_step in Hc. unfold InDone in *.
  destruct (SimbricksBaseIfInDone _ _) as [q|] eqn:Hq; [|done]. simpl in Hc |- *. injection Hc as <-.
  apply in_done_bodies in Hq. eexists. split; [done|]. by split_and!.
Qed.

Lemma OutAlloc_spec i rx g ts :
  linked n m i rx None g →
  ∃ r i', OutAlloc i ts = Some (r, i') ∧ linked n m i' rx r g ∧ in_q i' = in_q i ∧
    bodies (out_q i') = bodies (out_q i) ∧ taken i' = taken i ∧ sent i' = sent i ∧
    same_in (base_if i) (base_if i') ∧
    match r with
    | None => i' = i
    | Some pos => ∃ s, slot_at (out_q i') pos = Some s ∧
                       timestamp s = u64 (ts + link_latency (params (base_if i)))
    end.
Proof.
  intros [Hin Hout]. destruct (alloc_inv m _ ts Hout eq_refl) as (c & Hc & Hinv & _).
  rewrite OutAlloc_step in Hc. unfold OutAlloc in *.
  destruct (SimbricksBaseIfOutAlloc _ _ _) as [[[r b] q]|] eqn:Ha; [|done]. simpl in Hc |- *.
  injection Hc as <-. pose proof (out_alloc_keeps _ _ _ _ _ _ Ha) as [Hb Hs].
  eexists _, _. split; [done|]. split_and!; try done.
  - split; [|done]. destruct Hs as (? & ? & _). frame_inv.
  - unfold SimbricksBaseIfOutAlloc in Ha. destruct (slot_at (out_q i) _) as [s|] eqn:Es; [|done].
    simpl in Ha. destruct (negb _); [injection Ha as <- <- <-; by destruct i|].
    destruct (next_pos _ _) as [np|]; [|done]. simpl in Ha. injection Ha as <- <- <-.
    simpl. eexists. split; [apply slot_at_put|done].
    destruct Hout. simpl in *. rewrite i_ring0, i_out_pos0. apply pos_of_range. lia.
Qed.

Lemma OutSend_spec i rx pos g data ty :
  linked n m i rx (Some pos) g → ty ∈u 7 →
  ∃ s i1 i2, slot_at (out_q i) pos = Some s ∧ out_fill i pos data = Some i1 ∧
    OutSend i1 pos ty = Some i2 ∧ linked n m i2 rx None g ∧ in_q i2 = in_q i ∧
    bodies (out_q i2) = <[Z.to_nat pos := data]> (bodies (out_q i)) ∧ taken i2 = taken i ∧
    sent i2 = sent i ++ [MkMsg data (timestamp s) ty] ∧ base_if i2 = base_if i.
Proof.
  intros [Hin Hout] Hty.
  destruct (send_inv m _ data ty Hout ltac:(done) Hty) as (c & msg & Hc & Hinv & _ & Hs & Hb & Ht & _).
  rewrite OutSend_step in Hc. unfold out_fill, OutSend, fill in *.
  destruct (slot_at (out_q i) pos) as [s|] eqn:Es; [|done]. simpl in Hc |- *.
  destruct (SimbricksBaseIfOutSend _ _ _) as [q|] eqn:Eq; [|done]. simpl in Hc |- *.
  destruct (slot_at q pos) as [s'|] eqn:Es'; [|done]. simpl in Hc |- *. injection Hc as <-.
  eexists s, _, _. split; [done|]. split; [done|]. simpl. rewrite Eq. simpl. rewrite Es'. simpl.
  split; [done|]. split_and!; try done.
  - simpl. apply out_send_bodies in Eq. rewrite Eq. unfold bodies, put_slot. by rewrite list_fmap_insert.
  - simpl in *. f_equal. f_equal. unfold SimbricksBaseIfOutSend in Eq.
    assert (0 ≤ pos < Z.of_nat (length (out_q i))) as Hpos.
    { destruct Hout. simpl in *. rewrite i_ring0, (i_p_slot0 pos eq_refl). apply pos_of_range. lia. }
    rewrite slot_at_put in Eq by done. simpl in Eq. injection Eq as <-.
    rewrite slot_at_put in Es' by (rewrite length_put; lia). injection Es' as <-.
    apply app_inv_head in Hs. injection Hs as Hs. subst msg. unfold message_of in *. simpl in *. by f_equal.
Qed.

Lemma slot_at_put_some q pos s s' : slot_at q pos = Some s → slot_at (put_slot q pos s') pos = Some s'.
Proof. intros ?%lookup_lt_Some. by apply list_lookup_insert_eq. Qed.

Lemma synced_type b q ts r b' q' :
  SimbricksBaseIfOutSync b q ts = Some (r, b', q') →
  Forall (λ x, m_type x = SIMBRICKS_PROTO_MSG_TYPE_SYNC) (synced b q q' ts).
Proof.
  unfold SimbricksBaseIfOutSync, synced. destruct (sync_needed b ts); simpl; [|by intros; constructor].
  unfold SimbricksBaseIfOutAlloc. destruct (slot_at q (out_pos b)) as [s|] eqn:Es; [|done]. simpl.
  destruct (owner s =? _); simpl; [|by intros; constructor].
  destruct (next_pos _ _); [|done]. simpl. unfold SimbricksBaseIfOutSend.
  erewrite slot_at_put_some by done. simpl. intros [= <- <- <-].
  erewrite slot_at_put_some by (by eapply slot_at_put_some). simpl. by repeat constructor.
Qed.

Lemma OutSync_spec i rx g ts :
  linked n m i rx None g →
  ∃ r i' new, OutSync i ts = Some (r, i') ∧ linked n m i' rx None g ∧ in_q i' = in_q i ∧
    bodies (out_q i') = bodies (out_q i) ∧ taken i' = taken i ∧ sent i' = sent i ++ new ∧
    Forall (λ x, m_type x = SIMBRICKS_PROTO_MSG_TYPE_SYNC) new ∧ same_in (base_if i) (base_if i').
Proof.
  intros [Hin Hout]. destruct (sync_inv m _ ts Hout eq_refl) as (c & ? & Hc & Hinv & _).
  rewrite OutSync_step in Hc. unfold OutSync in *.
  destruct (SimbricksBaseIfOutSync _ _ _) as [[[r b] q]|] eqn:Ho; [|done]. simpl in Hc |- *.
  injection Hc as <-. pose proof (out_sync_keeps _ _ _ _ _ _ Ho) as [Hb Hk].
  eexists _, _, (synced (base_if i) (out_q i) q ts). split_and!; try done.
  - split; [|done]. destruct Hk as (? & ? & _). frame_inv.
  - by eapply synced_type.
Qed.

(** The peer acts: it may fill an entry it allocated, and change nothing else of our memory. *)
Lemma peer_spec i rx tx g a :
  linked n m i rx tx g → peer_turn g a →
  ∃ i' g', peer_step i rx tx g a = Some (i', g') ∧ linked n m i' rx tx g' ∧
    base_if i' = base_if i ∧ taken i' = taken i ∧ sent i' = sent i ∧
    bodies (out_q i') = bodies (out_q i) ∧
    match a with
    | PSend data ty =>
        ∃ pos x, p_alloc g = Some pos ∧ bodies (in_q i') = <[Z.to_nat pos := data]> (bodies (in_q i)) ∧
          arrived g' = arrived g ++ [x] ∧ m_body x = data ∧ m_type x = ty
    | PSync _ =>
        bodies (in_q i') = bodies (in_q i) ∧
        ∃ new, arrived g' = arrived g ++ new ∧ Forall (λ x, m_type x = SIMBRICKS_PROTO_MSG_TYPE_SYNC) new
    | _ => bodies (in_q i') = bodies (in_q i) ∧ arrived g' = arrived g
    end.
Proof.
  intros [Hin Hout] Ht. unfold peer_step. destruct a as [ts|data ty|ts|ts|]; simpl in Ht.
  - destruct (alloc_inv n _ ts Hin Ht) as (c & Hc & Hinv & Hp & Hsl & Hrl & Hcs). rewrite Hc. simpl.
    simpl in Hc. rewrite Ht in Hc.
    destruct (SimbricksBaseIfOutAlloc _ _ _) as [[[r b] q]|] eqn:Ha; [|done]. simpl in Hc. injection Hc as <-.
    apply out_alloc_keeps in Ha as [Hb (? & ? & _)].
    eexists _, _. split; [done|]. split_and!; try done. split; [done|]. frame_inv.
  - destruct Ht as [Hp Hty].
    destruct (send_inv n _ data ty Hin Hp Hty) as (c & x & Hc & Hinv & _ & Hsl & Hbd & Hmt & Hrl & Hcs).
    rewrite Hc. simpl. simpl in Hc. destruct (p_alloc g) as [pos|] eqn:Hpa; [|done].
    destruct (fill _ _ _) as [q1|] eqn:E1; [|done]. simpl in Hc.
    destruct (SimbricksBaseIfOutSend _ _ _) as [q2|] eqn:E2; [|done]. simpl in Hc.
    destruct (slot_at q2 pos) as [s|]; [|done]. simpl in Hc. injection Hc as <-.
    apply fill_bodies in E1. apply out_send_bodies in E2.
    eexists _, _. split; [done|]. split_and!; try done.
    exists pos, x. simpl in *. split_and!; try done. congruence.
  - destruct (sync_inv n _ ts Hin Ht) as (c & new & Hc & Hinv & Hp & Hsl & Hrl & Hcs). rewrite Hc. simpl.
    simpl in Hc. rewrite Ht in Hc.
    destruct (SimbricksBaseIfOutSync _ _ _) as [[[r b] q]|] eqn:Ho; [|done]. simpl in Hc. injection Hc as <-.
    pose proof (out_sync_keeps _ _ _ _ _ _ Ho) as [Hb (? & ? & _)].
    eexists _, _. split; [done|]. split_and!; try done; [split; [done|frame_inv]|].
    exists (synced (pif g) (in_q i) q ts). split; [done|]. by eapply synced_type.
  - destruct (poll_inv m _ ts Hout Ht) as (c & Hc & Hinv & Hsl & _ & Hp & Hpr). rewrite Hc. simpl.
    assert (ring c = out_q i ∧ same_out (pif g) (cons c)) as [Hr (? & ? & ?)].
    { simpl in Hc. rewrite Ht in Hc.
      destruct tx; (destruct (SimbricksBaseIfInPoll _ _ _) as [[[pos|] b]|] eqn:Hpl; [..|done]; simpl in Hc;
        [destruct (slot_at _ _); [|done]|]; injection Hc as <-;
        (split; [done|by eapply in_poll_keeps])). }
    eexists _, _. split; [done|]. rewrite Hr. split_and!; try done. split; [frame_inv|].
    simpl in *. eapply inv_fields; [exact Hinv|simpl; congruence..].
  - destruct (done_inv m _ Hout Ht) as (c & Hc & Hinv & Hsl & Hrl & Hp & Hcs). rewrite Hc. simpl.
    assert (bodies (ring c) = bodies (out_q i) ∧ cons c = pif g ∧ prod c = base_if i) as (Hr & Hcn & Hpr).
    { simpl in Hc. destruct (p_poll g) as [pos|]; [|done].
      destruct tx; (destruct (SimbricksBaseIfInDone _ _) as [q|] eqn:Hq; [|done]; injection Hc as <-;
        apply in_done_bodies in Hq; done). }
    eexists _, _. split; [done|]. split_and!; try done. rewrite Hcn. split; [frame_inv|].
    simpl in *. eapply inv_fields; [exact Hinv|simpl; congruence..].
Qed.

End specs.

(** ** Start *)

(** Rings of [n] zeroed entries, the bytes of each as many as given. *)
Definition zero_ring (n sz : nat) : list Slot := replicate n (MkSlot (replicate sz 0) 0 0).

Definition new_iface (n sz : nat) (sync : bool) (p : Params) : iface :=
  MkIface (fresh_if n (Z.of_nat sz + 16) sync p) (zero_ring n sz) (zero_ring n sz) [] [].
Definition new_peer (n sz : nat) (sync : bool) (p : Params) : peer :=
  MkPeer (fresh_if n (Z.of_nat sz + 16) sync p) None None [] [].

Lemma new_linked n sz s1 s2 p1 p2 :
  0 < Z.of_nat n < 2 ^ 64 →
  linked (Z.of_nat n) (Z.of_nat n) (new_iface n sz s1 p1) None None (new_peer n sz s2 p2).
Proof.
  intros Hn. split; (apply free_ring_inv; [done| |by apply Forall_replicate|done..]);
    simpl; unfold zero_ring; by rewrite length_replicate.
Qed.

Lemma bodies_zero_ring n sz : bodies (zero_ring n sz) = replicate n (replicate sz 0).
Proof. unfold bodies, zero_ring. by rewrite fmap_replicate. Qed.

End typed.
