(* ===== verification/NetSwitch.v ===== *)
(** * The learning switch (sims/net/switch/net_switch.cc)

    An Ethernet switch whose ports are network interfaces.  The program is one loop over its
    ports; it is modelled as a machine that takes one step between any two accesses to shared
    memory, so that the peers of its ports can act in between, and so that the two places where
    it spins (a full outgoing ring) are states in which it stays.

    A key of [mac_table] is a pointer into the ring of the port the packet came from, and not a
    copy of the address: what the key is equal to changes when the entry is used again.  The
    model keeps the pointer and reads the ring at every comparison. *)

From S2P Require Import Prelude.
From S2P Require Import BaseIf.
From S2P Require Import BaseChannel.
From S2P Require Import TypedIf.

Module net_switch.
Import base typed.

(** ** Packets in the rings (network/proto.h) *)

Definition SIMBRICKS_PROTO_NET_MSG_PACKET : Z := 0x40.

(** The bytes of a message without timestamp, padding and own_type: [len] in bytes 0 and 1,
    [port] in byte 2, [data] after the 48 bytes of the header. *)
Definition HDR : nat := 48.
Definition packet_len (b : bytes) : Z := field b 0 2.

(** [rx->len = len; rx->port = 0; memcpy(rx->data, data, len)]; [data] points to [src]. *)
Definition write_packet (b src : bytes) (len : Z) : option bytes :=
  d ← memcpy (drop HDR b) src len;
  Some (le 2 len ++ [0] ++ take (HDR - 3) (drop 3 b) ++ d).

(** ** Addresses *)

(** A pointer to an address: into entry [m_pos] of the incoming ring of port [m_port], at offset
    [m_off] of the packet. *)
Record MAC := MkMac { m_port : nat; m_pos : Z; m_off : nat }.

(** [std::hash<MAC>], on 64 bits. *)
Definition mac_hash (a : bytes) : Z :=
  foldl (λ res b, Z.lor (u64 (Z.shiftl res 4)) (Z.lxor res b)) 0 a.

Definition bcast : bytes := [0xFF; 0; 0; 0; 0; 0].

(** ** Ports *)

Inductive RxPollState := kRxPollSuccess | kRxPollFail | kRxPollSync.

Record NetPort := MkPort { netif_ : iface; rx_ : option Z; sync_ : bool }.

Definition IsSync (p : NetPort) : bool := sync_ p.
Definition NextTimestamp (p : NetPort) : Z := InTimestamp (netif_ p).

(** One turn of the loop of [Sync]; true: the loop goes on. *)
Definition Sync (p : NetPort) (cur_ts : Z) : option (bool * NetPort) :=
  '(r, i) ← OutSync (netif_ p) cur_ts;
  Some (negb (r =? 0), MkPort i (rx_ p) (sync_ p)).

(** [None]: a failed assertion, or [abort()] for a message of another type. *)
Definition RxPacket (p : NetPort) (cur_ts : Z) : option (RxPollState * NetPort) :=
  match rx_ p with
  | Some _ => None
  | None =>
      '(r, i) ← InPoll (netif_ p) cur_ts;
      let p := MkPort i r (sync_ p) in
      match r with
      | None => Some (kRxPollFail, p)
      | Some pos =>
          ty ← InType i pos;
          if ty =? SIMBRICKS_PROTO_NET_MSG_PACKET then Some (kRxPollSuccess, p)
          else if ty =? SIMBRICKS_PROTO_MSG_TYPE_SYNC then Some (kRxPollSync, p)
          else None
      end
  end.

Definition RxDone (p : NetPort) : option NetPort :=
  pos ← rx_ p;
  i ← InDone (netif_ p) pos;
  Some (MkPort i None (sync_ p)).

(** What an attempt to send ends with: the loop of a synchronized port goes on. *)
Inductive TxResult := TxSent | TxDropped | TxSpins.

Definition TxPacket (p : NetPort) (src : bytes) (len cur_ts : Z) : option (TxResult * NetPort) :=
  '(msg_to, i) ← OutAlloc (netif_ p) cur_ts;
  match msg_to with
  | None => Some (if sync_ p then TxSpins else TxDropped, MkPort i (rx_ p) (sync_ p))
  | Some pos =>
      b ← out_body i pos;
      b ← write_packet b src len;
      i ← out_fill i pos b;
      i ← OutSend i pos SIMBRICKS_PROTO_NET_MSG_PACKET;
      Some (TxSent, MkPort i (rx_ p) (sync_ p))
  end.

(** ** The table *)

(** [std::unordered_map<MAC, int>]: an entry keeps the hash its key had when it was inserted,
    and a lookup compares first the hashes and then the keys.  [mac_table[src] = iport] keeps
    the key of an entry that is there. *)
Record node := MkNode { key : MAC; code : Z; value : nat }.

(** The address a pointer points to. *)
Definition mac_data (ports : list NetPort) (a : MAC) : option bytes :=
  p ← ports !! m_port a;
  b ← in_body (netif_ p) (m_pos a);
  if (HDR + m_off a + 6 <=? length b)%nat then Some (slice b (HDR + m_off a) 6) else None.

Definition node_matches (ports : list NetPort) (a : bytes) (x : node) : option bool :=
  k ← mac_data ports (key x);
  Some ((code x =? mac_hash a) && bool_decide (k = a)).

(** [mac_table.find(a)]: the index of the entry found. *)
Fixpoint mac_find (ports : list NetPort) (t : list node) (a : bytes) : option (option nat) :=
  match t with
  | [] => Some None
  | x :: t =>
      found ← node_matches ports a x;
      if (found : bool) then Some (Some 0%nat)
      else r ← mac_find ports t a; Some (option_map S r)
  end.

Definition set_value (v : nat) (x : node) : node := MkNode (key x) (code x) v.

(** [mac_table[src] = iport] *)
Definition mac_learn (ports : list NetPort) (t : list node) (src : MAC) (iport : nat) : option (list node) :=
  a ← mac_data ports src;
  r ← mac_find ports t a;
  match r with
  | Some k => Some (alter (set_value iport) k t)
  | None => Some (MkNode src (mac_hash a) iport :: t)
  end.

(** ** The machine *)

(** Where the program is: in the loop that synchronizes the ports, about to poll a port, or
    with the ports it still has to send the packet of a port to. *)
Inductive pc := Syncing (i : nat) | Polling (i : nat) | Forwarding (i : nat) (todo : list nat).

Record state := MkState {
  ports : list NetPort;
  mac_table : list node;
  cur_ts : Z;     (* uint64_t *)
  min_ts : Z;     (* uint64_t *)
  at_ : pc;
}.

Definition set_port (s : state) (i : nat) (p : NetPort) (c : pc) : state :=
  MkState (<[i := p]> (ports s)) (mac_table s) (cur_ts s) (min_ts s) c.

(** The end of the body of the loop over the ports: [min_ts], and the next port. *)
Definition port_done (s : state) (i : nat) (p : NetPort) : state :=
  let ts := NextTimestamp p in
  MkState (<[i := p]> (ports s)) (mac_table s) (cur_ts s)
    (if IsSync p then (if ts <? min_ts s then ts else min_ts s) else min_ts s) (Polling (S i)).

(** The ports [switch_pkt] sends a packet to, once the table is known. *)
Definition egress (n : nat) (found : option nat) (iport : nat) : list nat :=
  match found with
  | Some eport => if decide (eport = iport) then [] else [eport]
  | None => filter (λ e, e ≠ iport) (seq 0 n)
  end.

(** [switch_pkt] up to the sending: learning and lookup. *)
Definition switch_pkt (s : state) (iport : nat) (p : NetPort) (pos : Z) : option state :=
  let ps := <[iport := p]> (ports s) in
  let dst := MkMac iport pos 0 in
  let src := MkMac iport pos 6 in
  a ← mac_data ps src;
  t ← (if decide (a = bcast) then Some (mac_table s) else mac_learn ps (mac_table s) src iport);
  d ← mac_data ps dst;
  r ← mac_find ps t d;
  let found := r ≫= λ k, value <$> t !! k in
  Some (MkState ps t (cur_ts s) (min_ts s) (Forwarding iport (egress (length ps) found iport))).

(** [forward_pkt]: the packet is read from the ring of the port it came in on. *)
Definition forward_pkt (s : state) (iport eport : nat) : option (TxResult * NetPort) :=
  p ← ports s !! iport;
  pos ← rx_ p;
  b ← in_body (netif_ p) pos;
  dest_port ← ports s !! eport;
  TxPacket dest_port (drop HDR b) (packet_len b) (cur_ts s).

Definition step (s : state) : option state :=
  match at_ s with
  | Syncing i =>
      match ports s !! i with
      | None => Some (MkState (ports s) (mac_table s) (cur_ts s) UINT64_MAX (Polling 0))
      | Some p =>
          '(again, p) ← Sync p (cur_ts s);
          Some (set_port s i p (Syncing (if again : bool then i else S i)))
      end
  | Polling i =>
      match ports s !! i with
      | None =>
          if min_ts s <=? cur_ts s
          then Some (MkState (ports s) (mac_table s) (cur_ts s) UINT64_MAX (Polling 0))
          else Some (MkState (ports s) (mac_table s)
                       (if min_ts s <? UINT64_MAX then min_ts s else cur_ts s) (min_ts s) (Syncing 0))
      | Some p =>
          '(poll, p) ← RxPacket p (cur_ts s);
          match poll, rx_ p with
          | kRxPollSuccess, Some pos => switch_pkt s i p pos
          | kRxPollSync, _ => p ← RxDone p; Some (port_done s i p)
          | _, _ => Some (port_done s i p)
          end
      end
  | Forwarding i [] =>
      p ← ports s !! i;
      p ← RxDone p;
      Some (port_done s i p)
  | Forwarding i (e :: es) =>
      '(r, p) ← forward_pkt s i e;
      Some (set_port s e p (Forwarding i (match r with TxSpins => e :: es | _ => es end)))
  end.

End net_switch.
