(* ===== verification/NetSwitchInv.v ===== *)
(** * The learning switch against an ideal one

    The machine of NetSwitch.v runs with the peers of its ports acting between any two of its
    steps.  As long as the packets a port receives all carry one source address (one host per
    port), it forwards exactly what an ideal learning switch, with a table of addresses, would
    forward.  With several hosts behind a port, the keys of its table change under it. *)

From S2P Require Import Prelude.
From S2P Require Import BaseIf.
From S2P Require Import BaseChannel.
From S2P Require Import TypedIf.
From S2P Require Import NetSwitch.

Module net_switch_inv.
Import base channel typed net_switch.

(** ** The ideal switch *)

(** The table learns the source of every packet; a packet goes to the port of its destination,
    or to all ports when that is not known, but never back. *)
Definition learn (T : gmap bytes nat) (x : nat * bytes) : gmap bytes nat :=
  let a := slice x.2 6 6 in
  if decide (a = bcast) then T else <[a := x.1]> T.

Definition goes_to (n : nat) (T : gmap bytes nat) (x : nat * bytes) (e : nat) : bool :=
  let dst := learn T x !! slice x.2 0 6 in
  bool_decide ((e < n)%nat ∧ e ≠ x.1 ∧ (dst = None ∨ dst = Some e)).

Definition learned (l : list (nat * bytes)) : gmap bytes nat := foldl learn ∅ l.

(** What it sends out of port [e] for the packets [l], with their ports, in order. *)
Fixpoint ideal (n : nat) (T : gmap bytes nat) (l : list (nat * bytes)) (e : nat) : list bytes :=
  match l with
  | [] => []
  | x :: l => (if goes_to n T x e then [x.2] else []) ++ ideal n (learn T x) l e
  end.

Lemma ideal_snoc n e l x : ∀ T,
  ideal n T (l ++ [x]) e = ideal n T l e ++ (if goes_to n (foldl learn T l) x e then [x.2] else []).
Proof.
  induction l as [|y l IH]; intros T; simpl; [by rewrite app_nil_r|]. by rewrite IH, app_assoc.
Qed.

(** ** The system *)

Record world := MkWorld {
  sw : state;
  peers : list peer;
  handled : list (nat * bytes);    (* history: the packets taken, with their ports *)
}.

Inductive event := Step | Peer (k : nat) (a : act).

Definition payload (b : bytes) : bytes := take (Z.to_nat (packet_len b)) (drop HDR b).

(** The packet of the port at hand, when a step of the switch took one. *)
Definition new_packet (s s' : state) : list (nat * bytes) :=
  match at_ s, at_ s' with
  | Polling i, Forwarding _ _ =>
      match ports s' !! i with
      | Some p => (λ x, (i, payload (m_body x))) <$> option_list (last (taken (netif_ p)))
      | None => []
      end
  | _, _ => []
  end.

Definition world_step (w : world) (e : event) : option world :=
  match e with
  | Step => s ← step (sw w); Some (MkWorld s (peers w) (handled w ++ new_packet (sw w) s))
  | Peer k a =>
      p ← ports (sw w) !! k; g ← peers w !! k;
      '(i, g) ← peer_step (netif_ p) (rx_ p) None g a;
      Some (MkWorld (set_port (sw w) k (MkPort i (rx_ p) (sync_ p)) (at_ (sw w)))
                    (<[k := g]> (peers w)) (handled w))
  end.

Fixpoint world_run (w : world) (es : list event) : option world :=
  match es with
  | [] => Some w
  | e :: es => w ← world_step w e; world_run w es
  end.

(** The packets among messages. *)
Definition is_packet (x : message) : Prop := m_type x = SIMBRICKS_PROTO_NET_MSG_PACKET.
#[export] Instance is_packet_dec x : Decision (is_packet x).
Proof. unfold is_packet. apply _. Defined.

Definition packets (l : list message) : list bytes := (payload ∘ m_body) <$> filter is_packet l.

Lemma ns_packets_app l k : packets (l ++ k) = packets l ++ packets k.
Proof. unfold packets. by rewrite filter_app, fmap_app. Qed.

Section one_host.

(** [sz]: the bytes of a ring entry.  [addr]: the address behind each port. *)
Context (sz : nat) (addr : nat → bytes).

(** A packet as a peer puts it into the ring: it fits, it has an Ethernet header, and it comes
    from the host behind the port. *)
Definition good_body (k : nat) (b : bytes) : Prop :=
  length b = sz ∧ 12 ≤ packet_len b ≤ Z.of_nat sz - Z.of_nat HDR ∧ slice b (HDR + 6) 6 = addr k.

Definition good_act (k : nat) (g : peer) (a : act) : Prop :=
  peer_turn g a ∧
  match a with PSend b ty => ty = SIMBRICKS_PROTO_NET_MSG_PACKET ∧ good_body k b | _ => True end.

Definition good_event (w : world) (e : event) : Prop :=
  match e with
  | Step => True
  | Peer k a => ∃ g, peers w !! k = Some g ∧ good_act k g a
  end.

Fixpoint good_run (w : world) (es : list event) : Prop :=
  match es with
  | [] => True
  | e :: es => good_event w e ∧ ∀ w', world_step w e = Some w' → good_run w' es
  end.

(** ** Packets in memory *)

Lemma in_body_bodies i pos : in_body i pos = bodies (in_q i) !! Z.to_nat pos.
Proof. unfold in_body, slot_at, bodies. rewrite list_lookup_fmap. by destruct (in_q i !! _). Qed.

Lemma out_body_bodies i pos : out_body i pos = bodies (out_q i) !! Z.to_nat pos.
Proof. unfold out_body, slot_at, bodies. rewrite list_lookup_fmap. by destruct (out_q i !! _). Qed.

Lemma slice_payload b off n :
  Z.of_nat (off + n) ≤ packet_len b → slice (payload b) off n = slice b (HDR + off) n.
Proof.
  intros Hl. unfold slice, payload. rewrite skipn_firstn_comm, drop_drop, firstn_firstn.
  f_equal. lia.
Qed.

(** What is copied into an entry is what was in the other. *)
Lemma write_packet_spec b src len :
  Z.of_nat sz < 2 ^ 16 → length b = sz → (Z.to_nat len ≤ length src)%nat →
  0 ≤ len ≤ Z.of_nat sz - Z.of_nat HDR →
  ∃ b', write_packet b src len = Some b' ∧ length b' = sz ∧ payload b' = take (Z.to_nat len) src.
Proof.
  intros Hsz Hb Hs Hl. unfold write_packet.
  rewrite memcpy_ok by (rewrite ?length_drop; lia). simpl. eexists. split; [done|].
  unfold HDR in *. split.
  { rewrite !length_app, length_le. simpl. rewrite !length_app, !length_take, !length_drop. lia. }
  unfold payload, packet_len. rewrite field_here by (widths; lia).
  rewrite app_comm_cons, app_assoc, drop_app_length'.
  2: { rewrite length_app, length_le. simpl. rewrite length_take, length_drop. unfold HDR. lia. }
  rewrite take_app_le by (rewrite length_take; lia). by rewrite take_take, Nat.min_id.
Qed.

(** ** The table *)

(** The host a key stands for. *)
Definition host_of (x : node) : bytes := addr (m_port (key x)).

Definition node_ok (ps : list NetPort) (x : node) : Prop :=
  m_off (key x) = 6%nat ∧ mac_data ps (key x) = Some (host_of x) ∧ code x = mac_hash (host_of x) ∧
  (value x < length ps)%nat.

Record table_ok (ps : list NetPort) (t : list node) : Prop := {
  t_nodes : Forall (node_ok ps) t;
  t_hosts : NoDup (host_of <$> t);
}.

Definition table_map (t : list node) : gmap bytes nat :=
  list_to_map ((λ x, (host_of x, value x)) <$> t).

Definition host_index (t : list node) (a : bytes) : option nat :=
  fst <$> list_find (λ x, host_of x = a) t.

Lemma mac_find_spec ps t a : Forall (node_ok ps) t → mac_find ps t a = Some (host_index t a).
Proof.
  induction 1 as [|x t (_ & Hd & Hc & _) _ IH]; [done|]. cbn [mac_find].
  unfold node_matches. rewrite Hd, Hc. unfold host_index in *. cbn.
  destruct (decide (host_of x = a)) as [->|Hne].
  - by rewrite Z.eqb_refl, bool_decide_true.
  - rewrite bool_decide_false by done. rewrite andb_false_r, IH. cbn.
    by destruct (list_find _ t) as [[]|].
Qed.

Lemma host_index_value t a :
  (host_index t a ≫= λ k, value <$> t !! k) = table_map t !! a.
Proof.
  unfold host_index, table_map. induction t as [|x t IH]; [done|]. cbn.
  destruct (decide (host_of x = a)) as [->|Hne]; [by rewrite lookup_insert_eq|].
  rewrite lookup_insert_ne, <- IH by done. by destruct (list_find _ t) as [[]|].
Qed.

Lemma table_map_bound ps t a e :
  Forall (node_ok ps) t → table_map t !! a = Some e → (e < length ps)%nat.
Proof.
  intros Ht. rewrite <- host_index_value. destruct (host_index t a) as [k|]; [|done]. simpl.
  destruct (t !! k) as [x|] eqn:Hk; [|done]. intros [= <-].
  by apply (Forall_lookup_1 _ _ _ _ Ht) in Hk as (_ & _ & _ & ?).
Qed.

(** An entry that is there gets the new port. *)
Lemma alter_host_of i (k : nat) (t : list node) : host_of <$> alter (set_value i) k t = host_of <$> t.
Proof. revert k. induction t as [|x t IH]; intros [|k]; [done..|]. cbn. f_equal. apply IH. Qed.

Lemma alter_table_map i t a k :
  host_index t a = Some k → table_map (alter (set_value i) k t) = <[a := i]> (table_map t).
Proof.
  unfold host_index, table_map. revert k. induction t as [|x t IH]; intros k; [done|]. cbn.
  destruct (decide (host_of x = a)) as [Ha|Hne].
  - intros [= <-]. cbn. unfold host_of in *. simpl. by rewrite Ha, insert_insert_eq.
  - destruct (list_find _ t) as [[k' y]|] eqn:E; [|done]. cbn. intros [= <-]. cbn.
    change (alter (set_value i) (S k') (x :: t)) with (x :: alter (set_value i) k' t). cbn.
    rewrite (IH k' eq_refl). by apply insert_insert_ne.
Qed.

Lemma mac_learn_spec ps t i pos :
  table_ok ps t → (i < length ps)%nat → mac_data ps (MkMac i pos 6) = Some (addr i) →
  ∃ t', mac_learn ps t (MkMac i pos 6) i = Some t' ∧ table_ok ps t' ∧
        table_map t' = <[addr i := i]> (table_map t).
Proof.
  intros [Hn Hh] Hi Hd. unfold mac_learn. rewrite Hd. cbn. rewrite mac_find_spec by done. cbn.
  destruct (host_index t (addr i)) as [k|] eqn:Hk.
  - eexists. split; [done|]. split; [|by apply alter_table_map]. split.
    + apply Forall_alter; [done|]. intros x _ (? & ? & ? & _). by split_and!.
    + by rewrite alter_host_of.
  - eexists. split; [done|]. split; [|done]. split; [by constructor|].
    cbn. constructor; [|done]. rewrite list_elem_of_fmap. intros (x & Hx & Hin).
    unfold host_index in Hk. destruct (list_find _ t) as [|] eqn:E; [done|].
    apply list_find_None in E. rewrite Forall_forall in E. by apply (E x Hin).
Qed.

(** ** The ports a packet goes to *)

Lemma elem_of_egress n found i e :
  (∀ e', found = Some e' → (e' < n)%nat) →
  e ∈ egress n found i ↔ (e < n)%nat ∧ e ≠ i ∧ (found = None ∨ found = Some e).
Proof.
  intros Hf. unfold egress. destruct found as [e'|].
  - specialize (Hf e' eq_refl). case_decide as He; [subst|]; set_solver by lia.
  - rewrite list_elem_of_filter, elem_of_seq. naive_solver lia.
Qed.

Lemma NoDup_egress n found i : NoDup (egress n found i).
Proof.
  unfold egress. destruct found; [case_decide; [constructor|apply NoDup_singleton]|].
  apply NoDup_filter, NoDup_seq.
Qed.

(** ** The invariant *)

Definition good_msg (k : nat) (x : message) : Prop :=
  (is_packet x ∧ good_body k (m_body x)) ∨ m_type x = SIMBRICKS_PROTO_MSG_TYPE_SYNC.

Definition sized (q : list Slot) : Prop := Forall (λ b, length b = sz) (bodies q).

Record port_ok (k : nat) (p : NetPort) (g : peer) : Prop := {
  p_linked : ∃ n m, linked n m (netif_ p) (rx_ p) None g;
  p_in : sized (in_q (netif_ p));
  p_out : sized (out_q (netif_ p));
  p_arrived : Forall (good_msg k) (arrived g);
}.

(** Where the program is, and the entry it has in hand. *)
Definition at_ok (ps : list NetPort) (c : pc) (h : list (nat * bytes)) : Prop :=
  match c with
  | Forwarding i todo =>
      NoDup todo ∧ Forall (λ e, (e < length ps)%nat ∧ e ≠ i) todo ∧
      (∀ k p, ps !! k = Some p → k ≠ i → rx_ p = None) ∧
      ∃ p l x h', ps !! i = Some p ∧ rx_ p ≠ None ∧ taken (netif_ p) = l ++ [x] ∧ is_packet x ∧
                  h = h' ++ [(i, payload (m_body x))]
  | _ => ∀ k p, ps !! k = Some p → rx_ p = None
  end.

(** What is still to be sent out of a port. *)
Definition pending (c : pc) (h : list (nat * bytes)) (e : nat) : list bytes :=
  match c with
  | Forwarding _ todo => if decide (e ∈ todo) then snd <$> option_list (last h) else []
  | _ => []
  end.

(** A synchronized port sends all that the ideal switch sends, in order; another may lose some. *)
Definition out_ok (n : nat) (c : pc) (h : list (nat * bytes)) (e : nat) (p : NetPort) : Prop :=
  packets (sent (netif_ p)) ++ pending c h e `sublist_of` ideal n ∅ h e ∧
  (sync_ p = true → packets (sent (netif_ p)) ++ pending c h e = ideal n ∅ h e).

Record winv (w : world) : Prop := {
  w_len : length (peers w) = length (ports (sw w));
  w_ports k p g : ports (sw w) !! k = Some p → peers w !! k = Some g → port_ok k p g;
  w_table : table_ok (ports (sw w)) (mac_table (sw w));
  w_map : table_map (mac_table (sw w)) = learned (handled w);
  w_at : at_ok (ports (sw w)) (at_ (sw w)) (handled w);
  w_taken k p : ports (sw w) !! k = Some p →
                packets (taken (netif_ p)) = snd <$> filter (λ x, x.1 = k) (handled w);
  w_sent e p : ports (sw w) !! e = Some p →
               out_ok (length (ports (sw w))) (at_ (sw w)) (handled w) e p;
}.

(** Entries of the ring of a port keep their bytes, or get a packet of the same host. *)
Definition ring_keeps (k : nat) (p p' : NetPort) : Prop :=
  ∀ j b, bodies (in_q (netif_ p)) !! j = Some b →
  ∃ b', bodies (in_q (netif_ p')) !! j = Some b' ∧ (b' = b ∨ good_body k b').

Lemma ring_keeps_same k p p' :
  bodies (in_q (netif_ p')) = bodies (in_q (netif_ p)) → ring_keeps k p p'.
Proof. intros E j b Hb. exists b. rewrite E. auto. Qed.

Lemma mac_data_body ps a p :
  ps !! m_port a = Some p →
  mac_data ps a = (b ← bodies (in_q (netif_ p)) !! Z.to_nat (m_pos a);
                   if (HDR + m_off a + 6 <=? length b)%nat then Some (slice b (HDR + m_off a) 6) else None).
Proof. intros Hp. unfold mac_data. by rewrite Hp, <- in_body_bodies. Qed.

Lemma good_body_src k b : good_body k b → (HDR + 6 + 6 <=? length b)%nat = true ∧ slice b (HDR + 6) 6 = addr k.
Proof. intros (Hl & Hp & Hs). split; [|done]. apply Nat.leb_le. unfold HDR in *. lia. Qed.

Lemma node_ok_insert ps k p p' x :
  node_ok ps x → ps !! k = Some p → ring_keeps k p p' → node_ok (<[k := p']> ps) x.
Proof.
  intros (Ho & Hd & Hc & Hv) Hp Hr. split_and!; [done| |done|by rewrite length_insert].
  destruct (decide (m_port (key x) = k)) as [Hk|Hne].
  2: { unfold mac_data in *. by rewrite list_lookup_insert_ne by congruence. }
  rewrite <- Hk in Hp. rewrite (mac_data_body _ _ p Hp) in Hd.
  rewrite (mac_data_body _ _ p'); [|rewrite <- Hk; apply list_lookup_insert_eq; by eapply lookup_lt_Some].
  destruct (bodies (in_q (netif_ p)) !! _) as [b|] eqn:Hb; [|done].
  destruct (Hr _ _ Hb) as (b' & -> & [->|Hg]); [done|]. cbn [mbind option_bind]. rewrite Ho.
  apply good_body_src in Hg as [-> ->]. by rewrite <- Hk.
Qed.

Lemma table_ok_insert ps k p p' t :
  table_ok ps t → ps !! k = Some p → ring_keeps k p p' → table_ok (<[k := p']> ps) t.
Proof.
  intros [Hn Hh] Hp Hr. split; [|done]. eapply Forall_impl; [exact Hn|]. intros x Hx. by eapply node_ok_insert.
Qed.

Lemma at_ok_insert ps c h k p p' :
  at_ok ps c h → ps !! k = Some p → rx_ p' = rx_ p → taken (netif_ p') = taken (netif_ p) →
  at_ok (<[k := p']> ps) c h.
Proof.
  intros Ha Hp Hrx Htk.
  assert (∀ j q, <[k := p']> ps !! j = Some q → ∃ q0, ps !! j = Some q0 ∧ rx_ q0 = rx_ q) as Hlk.
  { intros j q. rewrite list_lookup_insert. case_decide as Hj; [|eauto]. destruct Hj as [-> _].
    intros [= <-]. eauto. }
  destruct c as [i|i|i todo]; cbn in *;
    [by intros j q (q0 & Hq & <-)%Hlk; eauto|by intros j q (q0 & Hq & <-)%Hlk; eauto|].
  destruct Ha as (Hnd & Hf & Hrest & q & l & x & h' & Hq & Hr & Ht & Hx & Hh).
  rewrite length_insert. split_and!; try done.
  - intros j q' (q0 & Hq0 & <-)%Hlk. eauto.
  - destruct (decide (i = k)) as [->|Hne].
    + rewrite list_lookup_insert_eq by (by eapply lookup_lt_Some). simplify_eq.
      exists p', l, x, h'. rewrite Hrx, Htk. by split_and!.
    + rewrite list_lookup_insert_ne by done. by exists q, l, x, h'.
Qed.

(** One port changes. *)
Lemma winv_update w k p g p' g' ts mt c :
  winv w → ports (sw w) !! k = Some p → peers w !! k = Some g → port_ok k p' g' → ring_keeps k p p' →
  packets (taken (netif_ p')) = packets (taken (netif_ p)) →
  (∀ e q, <[k := p']> (ports (sw w)) !! e = Some q → out_ok (length (ports (sw w))) c (handled w) e q) →
  at_ok (<[k := p']> (ports (sw w))) c (handled w) →
  winv (MkWorld (MkState (<[k := p']> (ports (sw w))) (mac_table (sw w)) ts mt c)
                (<[k := g']> (peers w)) (handled w)).
Proof.
  intros [Hlen Hps Ht Hm _ Htk _] Hp Hg Hok Hr Htk' Hout Hat.
  split; cbn; rewrite ?length_insert; try done.
  - intros j q h. destruct (decide (k = j)) as [<-|Hne].
    + rewrite !list_lookup_insert_eq by (by eapply lookup_lt_Some). by intros [= <-] [= <-].
    + rewrite !list_lookup_insert_ne by done. apply Hps.
  - by eapply table_ok_insert.
  - intros j q. rewrite list_lookup_insert. case_decide as Hj; [|apply Htk].
    destruct Hj as [-> _]. intros [= <-]. rewrite Htk'. by apply Htk.
Qed.

(** What was sent and is to be sent does not change. *)
Lemma out_ok_same w k p p' c :
  winv w → ports (sw w) !! k = Some p →
  packets (sent (netif_ p')) = packets (sent (netif_ p)) → sync_ p' = sync_ p →
  (∀ e, pending c (handled w) e = pending (at_ (sw w)) (handled w) e) →
  ∀ e q, <[k := p']> (ports (sw w)) !! e = Some q → out_ok (length (ports (sw w))) c (handled w) e q.
Proof.
  intros Hw Hp Hst Hsy Hpe e q. unfold out_ok. rewrite Hpe, list_lookup_insert.
  case_decide as Hj; [|by apply w_sent]. destruct Hj as [-> _]. intros [= <-].
  rewrite Hst, Hsy. by apply w_sent.
Qed.

(** ** The operations of a port *)

Lemma packets_sync l : Forall (λ x, m_type x = SIMBRICKS_PROTO_MSG_TYPE_SYNC) l → packets l = [].
Proof.
  intros Hl. unfold packets. induction Hl as [|x l Hx _ IH]; [done|].
  rewrite filter_cons_False; [done|]. unfold is_packet. by rewrite Hx.
Qed.

Lemma Sync_spec k p g ts :
  port_ok k p g →
  ∃ again p', Sync p ts = Some (again, p') ∧ port_ok k p' g ∧
    in_q (netif_ p') = in_q (netif_ p) ∧ taken (netif_ p') = taken (netif_ p) ∧
    packets (sent (netif_ p')) = packets (sent (netif_ p)) ∧ rx_ p' = rx_ p ∧ sync_ p' = sync_ p.
Proof.
  intros [(n & m & Hl) Hi Ho Ha]. unfold Sync.
  destruct (OutSync_spec n m _ _ _ ts Hl) as (r & i' & new & -> & Hl' & Hiq & Hb & Htk & Hst & Hnew & _).
  cbn. eexists _, _. split; [done|]. split_and!; try done.
  - split; [by exists n, m| | |done]; unfold sized; cbn; [by rewrite Hiq|by rewrite Hb].
  - cbn. by rewrite Hst, ns_packets_app, (packets_sync new), app_nil_r.
Qed.

Lemma taken_good k p g x l :
  port_ok k p g → taken (netif_ p) = l ++ [x] → good_msg k x.
Proof.
  intros [(n & m & Hl) _ _ Ha] Ht. rewrite Forall_forall in Ha. apply Ha.
  apply taken_prefix in Hl. rewrite Ht in Hl.
  rewrite <- (take_drop (length (l ++ [x])) (arrived g)), <- Hl. set_solver.
Qed.

Lemma ns_RxPacket_spec k p g ts :
  port_ok k p g → rx_ p = None →
  ∃ st p', RxPacket p ts = Some (st, p') ∧ port_ok k p' g ∧ in_q (netif_ p') = in_q (netif_ p) ∧
    sent (netif_ p') = sent (netif_ p) ∧ sync_ p' = sync_ p ∧
    match st with
    | kRxPollFail => rx_ p' = None ∧ taken (netif_ p') = taken (netif_ p)
    | kRxPollSync => rx_ p' ≠ None ∧ packets (taken (netif_ p')) = packets (taken (netif_ p))
    | kRxPollSuccess =>
        ∃ pos x, rx_ p' = Some pos ∧ taken (netif_ p') = taken (netif_ p) ++ [x] ∧ is_packet x ∧
          good_body k (m_body x) ∧ bodies (in_q (netif_ p')) !! Z.to_nat pos = Some (m_body x)
    end.
Proof.
  intros Hok Hrx. pose proof Hok as [(n & m & Hl) Hi Ho Ha]. unfold RxPacket. rewrite Hrx in *.
  destruct (InPoll_spec n m _ _ _ ts Hl) as (r & i' & -> & Hl' & Hiq & Hoq & Hst & _ & Hr). cbn.
  assert (port_ok k (MkPort i' r (sync_ p)) g) as Hok'.
  { split; cbn; [by exists n, m|by rewrite Hiq|by rewrite Hoq|done]. }
  destruct r as [pos|]; [|eexists _, _; split; [done|]; by split_and!].
  destruct Hr as (s & Hs & Htk & _). pose proof (taken_good _ _ _ _ _ Hok' Htk) as Hg.
  unfold InType. rewrite Hiq, Hs. cbn. unfold message_of in *. cbn in *.
  destruct Hg as [[Hp Hb]|Hsy]; cbn in *.
  - unfold is_packet in Hp. cbn in Hp. rewrite Hp. cbn. eexists _, _. split; [done|].
    split_and!; try done. eexists pos, _. split_and!; try done. cbn. rewrite Hiq.
    unfold bodies, slot_at in *. by rewrite list_lookup_fmap, Hs.
  - rewrite Hsy. cbn. eexists _, _. split; [done|]. split_and!; try done. cbn.
    rewrite Htk, ns_packets_app, (packets_sync [_]), app_nil_r; [done|]. by repeat constructor.
Qed.

Lemma RxDone_spec k p g :
  port_ok k p g → rx_ p ≠ None →
  ∃ p', RxDone p = Some p' ∧ port_ok k p' g ∧
    bodies (in_q (netif_ p')) = bodies (in_q (netif_ p)) ∧ taken (netif_ p') = taken (netif_ p) ∧
    sent (netif_ p') = sent (netif_ p) ∧ rx_ p' = None ∧ sync_ p' = sync_ p.
Proof.
  intros [(n & m & Hl) Hi Ho Ha] Hrx. unfold RxDone. destruct (rx_ p) as [pos|]; [|done]. cbn.
  destruct (InDone_spec n m _ _ _ _ Hl) as (i' & -> & Hl' & _ & Hb & Hoq & Htk & Hst). cbn.
  eexists. split; [done|]. split_and!; try done.
  split; cbn; [by exists n, m|unfold sized; by rewrite Hb|by rewrite Hoq|done].
Qed.

Lemma ns_TxPacket_spec k p g src len ts :
  Z.of_nat sz < 2 ^ 16 → port_ok k p g → (Z.to_nat len ≤ length src)%nat →
  0 ≤ len ≤ Z.of_nat sz - Z.of_nat HDR →
  ∃ r p', TxPacket p src len ts = Some (r, p') ∧ port_ok k p' g ∧
    in_q (netif_ p') = in_q (netif_ p) ∧ taken (netif_ p') = taken (netif_ p) ∧ rx_ p' = rx_ p ∧
    sync_ p' = sync_ p ∧
    match r with
    | TxSent => packets (sent (netif_ p')) = packets (sent (netif_ p)) ++ [take (Z.to_nat len) src]
    | TxDropped => sync_ p = false ∧ sent (netif_ p') = sent (netif_ p)
    | TxSpins => sync_ p = true ∧ sent (netif_ p') = sent (netif_ p)
    end.
Proof.
  intros Hsz [(n & m & Hl) Hi Ho Ha] Hsrc Hlen. unfold TxPacket.
  destruct (OutAlloc_spec n m _ _ _ ts Hl) as (r & i1 & -> & Hl1 & Hiq & Hb & Htk & Hst & _ & Hr). cbn.
  assert (sized (out_q i1)) as Ho1 by (unfold sized; by rewrite Hb).
  destruct r as [pos|].
  2: { subst i1. eexists _, _. split; [done|].
       assert (port_ok k (MkPort (netif_ p) (rx_ p) (sync_ p)) g) by (split; eauto).
       destruct (sync_ p) eqn:?; by split_and!. }
  destruct Hr as (s & Hs & _).
  assert (bodies (out_q i1) !! Z.to_nat pos = Some (body s)) as Hbs.
  { unfold bodies, slot_at in *. by rewrite list_lookup_fmap, Hs. }
  rewrite out_body_bodies, Hbs. cbn.
  destruct (write_packet_spec (body s) src len) as (b' & -> & Hb' & Hpl); [done| |done..|].
  { exact (Forall_lookup_1 _ _ _ _ Ho1 Hbs). }
  cbn. destruct (OutSend_spec n m _ _ _ _ b' SIMBRICKS_PROTO_NET_MSG_PACKET Hl1) as
    (s' & i2 & i3 & _ & Hf & Hsd & Hl3 & Hiq3 & Hb3 & Htk3 & Hst3 & _); [by vm_compute|].
  rewrite Hf. cbn. rewrite Hsd. cbn.
  rewrite Hiq in Hiq3. rewrite Htk in Htk3. rewrite Hst in Hst3.
  eexists _, _. split; [done|]. split_and!; try done.
  - split; cbn; [by exists n, m|by rewrite Hiq3| |done]. unfold sized. rewrite Hb3.
    by apply Forall_insert.
  - cbn. rewrite Hst3, ns_packets_app. f_equal. unfold packets.
    rewrite filter_cons_True by done. cbn. by rewrite Hpl.
Qed.

(** ** Steps of the peers *)

Lemma peer_world w k a :
  winv w → good_event w (Peer k a) → ∃ w', world_step w (Peer k a) = Some w' ∧ winv w'.
Proof.
  intros Hw (g & Hg & Ht & Ha). cbn.
  destruct (lookup_lt_is_Some_2 (ports (sw w)) k) as [p Hp].
  { rewrite <- (w_len w Hw). by eapply lookup_lt_Some. }
  rewrite Hp, Hg. cbn. pose proof (w_ports w Hw k p g Hp Hg) as [(n & m & Hl) Hi Ho Har].
  destruct (peer_spec n m _ _ _ _ _ Hl Ht) as (i' & g' & -> & Hl' & _ & Htk & Hst & Hob & Hcase). cbn.
  eexists. split; [done|]. unfold set_port.
  assert (sized (in_q i') ∧ Forall (good_msg k) (arrived g') ∧
          ring_keeps k p (MkPort i' (rx_ p) (sync_ p))) as (Hi' & Har' & Hr).
  { unfold sized. destruct a as [ts|b ty|ts|ts|].
    1, 4, 5: destruct Hcase as [Hb ->]; rewrite Hb; by split_and!; try apply ring_keeps_same.
    - destruct Hcase as (pos & x & _ & Hb & -> & Hbx & Htx). destruct Ha as [-> Hgb].
      split_and!.
      + rewrite Hb. apply Forall_insert; [done|]. apply Hgb.
      + apply Forall_app. split; [done|]. constructor; [|done]. left. by rewrite Hbx.
      + intros j b0 Hj. cbn. rewrite Hb, list_lookup_insert. case_decide; [|by exists b0; auto].
        exists b. auto.
    - destruct Hcase as (Hb & new & -> & Hnew). rewrite Hb. split_and!; [done| |by apply ring_keeps_same].
      apply Forall_app. split; [done|]. eapply Forall_impl; [done|]. intros x Hx. by right. }
  eapply winv_update; [done..| | | | |]; cbn.
  - split; cbn; [by exists n, m|done|unfold sized; by rewrite Hob|done].
  - done.
  - by rewrite Htk.
  - eapply out_ok_same; cbn; [done..|by rewrite Hst|done|done].
  - eapply at_ok_insert; [by apply w_at|done|done|done].
Qed.

(** ** Steps of the switch *)

(** The peer of a port. *)
Lemma port_peer w k p : winv w → ports (sw w) !! k = Some p → ∃ g, peers w !! k = Some g ∧ port_ok k p g.
Proof.
  intros Hw Hp. destruct (lookup_lt_is_Some_2 (peers w) k) as [g Hg].
  { rewrite (w_len w Hw). by eapply lookup_lt_Some. }
  exists g. split; [done|]. by eapply w_ports.
Qed.

(** A step of the switch in which one port changes. *)
Lemma winv_step w k p p' ts mt c :
  winv w → ports (sw w) !! k = Some p → (∀ g, port_ok k p g → port_ok k p' g) → ring_keeps k p p' →
  packets (taken (netif_ p')) = packets (taken (netif_ p)) →
  (∀ e q, <[k := p']> (ports (sw w)) !! e = Some q → out_ok (length (ports (sw w))) c (handled w) e q) →
  at_ok (<[k := p']> (ports (sw w))) c (handled w) →
  winv (MkWorld (MkState (<[k := p']> (ports (sw w))) (mac_table (sw w)) ts mt c)
                (peers w) (handled w)).
Proof.
  intros Hw Hp Hok Hr Htk Hout Hat. destruct (port_peer w k p Hw Hp) as (g & Hg & Hpg).
  rewrite <- (list_insert_id (peers w) k g) by done. eapply winv_update; eauto.
Qed.

(** A step in which only the program moves. *)
Lemma winv_jump w ts mt c :
  winv w → (∀ e, pending c (handled w) e = pending (at_ (sw w)) (handled w) e) →
  at_ok (ports (sw w)) c (handled w) →
  winv (MkWorld (MkState (ports (sw w)) (mac_table (sw w)) ts mt c) (peers w) (handled w)).
Proof.
  intros [] Hpe Hat. split; cbn; auto. intros e p Hp. unfold out_ok. rewrite Hpe. by apply w_sent0.
Qed.

(** With no entry in hand before and after. *)
Lemma at_ok_polling (ps : list NetPort) (k : nat) p p' :
  (∀ j q, ps !! j = Some q → j ≠ k → rx_ q = None) → ps !! k = Some p → rx_ p' = None →
  ∀ j q, <[k := p']> ps !! j = Some q → rx_ q = None.
Proof.
  intros Ha Hp Hrx j q. rewrite list_lookup_insert. case_decide as Hj.
  - intros [= <-]. done.
  - destruct (decide (k = j)) as [<-|]; [|eauto]. destruct Hj. split; [done|]. by eapply lookup_lt_Some.
Qed.

Definition sw_step_ok (w : world) : Prop :=
  ∃ s, step (sw w) = Some s ∧ winv (MkWorld s (peers w) (handled w ++ new_packet (sw w) s)).

Lemma syncing_step w i : winv w → at_ (sw w) = Syncing i → sw_step_ok w.
Proof.
  intros Hw Hat. pose proof (w_at w Hw) as Ha. unfold sw_step_ok, step. rewrite Hat in *. cbn in Ha.
  unfold new_packet. rewrite Hat. destruct (ports (sw w) !! i) as [p|] eqn:Hp.
  - destruct (port_peer w i p Hw Hp) as (g & _ & Hok).
    destruct (Sync_spec i p g (cur_ts (sw w)) Hok) as (again & p' & E & _ & Hiq & Htk & Hst & Hrx & Hsy).
    rewrite E. cbn. eexists. split; [done|]. cbn. rewrite app_nil_r. unfold set_port.
    eapply winv_step; [done..| | | | |].
    + intros g' Hok'. destruct (Sync_spec i p g' (cur_ts (sw w)) Hok') as (? & ? & E' & ? & _). by simplify_eq.
    + apply ring_keeps_same. by rewrite Hiq.
    + by rewrite Htk.
    + eapply out_ok_same; [done..|]. intros e. by rewrite Hat.
    + cbn. eapply at_ok_polling; [eauto|done|]. rewrite Hrx. by eapply Ha.
  - eexists. split; [done|]. cbn. rewrite app_nil_r. apply winv_jump; [done| |done]. intros e. by rewrite Hat.
Qed.

(** The end of a port's turn. *)
Lemma port_done_step w i p p' :
  winv w → ports (sw w) !! i = Some p → (∀ g, port_ok i p g → port_ok i p' g) → ring_keeps i p p' →
  packets (taken (netif_ p')) = packets (taken (netif_ p)) →
  packets (sent (netif_ p')) = packets (sent (netif_ p)) → sync_ p' = sync_ p → rx_ p' = None →
  (∀ j q, ports (sw w) !! j = Some q → j ≠ i → rx_ q = None) →
  (∀ e, pending (at_ (sw w)) (handled w) e = []) →
  winv (MkWorld (port_done (sw w) i p') (peers w) (handled w)).
Proof.
  intros Hw Hp Hok Hr Htk Hst Hsy Hrx Ha Hpe. unfold port_done. eapply winv_step; [done..| |].
  - eapply out_ok_same; [done..|]. intros e. by rewrite Hpe.
  - cbn. by eapply at_ok_polling.
Qed.

Lemma mac_data_at ps i p pos b off :
  ps !! i = Some p → bodies (in_q (netif_ p)) !! Z.to_nat pos = Some b → good_body i b → (off ≤ 6)%nat →
  mac_data ps (MkMac i pos off) = Some (slice (payload b) off 6).
Proof.
  intros Hp Hb (Hl & Hpl & _) Hoff. rewrite (mac_data_body ps _ p) by done. cbn [m_pos m_off].
  rewrite Hb. cbn [mbind option_bind].
  rewrite (proj2 (Nat.leb_le _ _)) by (unfold HDR in *; lia). by rewrite slice_payload by lia.
Qed.

(** Learning and lookup follow the ideal table. *)
Lemma switch_pkt_spec s i p pos b h :
  table_ok (<[i := p]> (ports s)) (mac_table s) → table_map (mac_table s) = learned h →
  (i < length (ports s))%nat → bodies (in_q (netif_ p)) !! Z.to_nat pos = Some b → good_body i b →
  ∃ t, table_ok (<[i := p]> (ports s)) t ∧ table_map t = learned (h ++ [(i, payload b)]) ∧
    switch_pkt s i p pos =
      Some (MkState (<[i := p]> (ports s)) t (cur_ts s) (min_ts s)
        (Forwarding i (egress (length (ports s)) (table_map t !! slice (payload b) 0 6) i))).
Proof.
  intros Ht Hm Hi Hb Hg. unfold switch_pkt.
  assert (<[i := p]> (ports s) !! i = Some p) as Hp by (by apply list_lookup_insert_eq).
  assert (slice (payload b) 6 6 = addr i) as Ha.
  { destruct Hg as (_ & ? & <-). apply slice_payload. lia. }
  rewrite !(mac_data_at _ i p pos b) by (done || lia). rewrite Ha. cbn [mbind option_bind].
  assert (∃ t, (if decide (addr i = bcast) then Some (mac_table s)
                else mac_learn (<[i := p]> (ports s)) (mac_table s) (MkMac i pos 6) i) = Some t ∧
               table_ok (<[i := p]> (ports s)) t ∧ table_map t = learned (h ++ [(i, payload b)]))
    as (t & -> & Ht' & Hm').
  { unfold learned. rewrite foldl_snoc. unfold learn at 1. cbn [fst snd]. rewrite Ha. fold (learned h).
    case_decide as Hbc; [by eexists|]. rewrite <- Hm. apply mac_learn_spec; [done|by rewrite length_insert|].
    by rewrite (mac_data_at _ i p pos b), Ha by (done || lia). }
  cbn [mbind option_bind]. rewrite mac_find_spec by apply Ht'. cbn [mbind option_bind].
  exists t. split; [done|]. split; [done|]. by rewrite length_insert, host_index_value.
Qed.

(** A packet is taken: what the ideal switch sends for it is what there is to send. *)
Lemma out_ok_taken w i p x T e q :
  winv w → (∀ e, pending (at_ (sw w)) (handled w) e = []) →
  T = learned (handled w ++ [(i, payload (m_body x))]) →
  (∀ a e', T !! a = Some e' → (e' < length (ports (sw w)))%nat) →
  sent (netif_ p) = sent (netif_ q) → sync_ p = sync_ q → ports (sw w) !! e = Some q →
  out_ok (length (ports (sw w)))
    (Forwarding i (egress (length (ports (sw w))) (T !! slice (payload (m_body x)) 0 6) i))
    (handled w ++ [(i, payload (m_body x))]) e p.
Proof.
  intros Hw Hpe HT Hb Hst Hsy Hq. destruct (w_sent w Hw e q Hq) as [Hsub Heq].
  unfold out_ok. rewrite ideal_snoc. cbn [pending]. rewrite Hpe, app_nil_r in Hsub, Heq.
  rewrite last_snoc, Hst, Hsy.
  change (snd <$> option_list (Some (i, payload (m_body x)))) with [payload (m_body x)].
  set (todo := egress _ _ _).
  assert ((if decide (e ∈ todo) then [payload (m_body x)] else []) =
          (if goes_to (length (ports (sw w))) (foldl learn ∅ (handled w)) (i, payload (m_body x)) e
           then [payload (m_body x)] else [])) as ->.
  { unfold goes_to. fold (learned (handled w)). cbn [fst snd].
    replace (learn (learned (handled w)) (i, payload (m_body x))) with T
      by (rewrite HT; unfold learned; by rewrite foldl_snoc).
    subst todo. pose proof (elem_of_egress _ (T !! slice (payload (m_body x)) 0 6) i e (Hb _)) as He.
    case_decide as H1; case_bool_decide as H2; tauto. }
  split; [by apply sublist_app|]. intros Hs. by rewrite Heq.
Qed.

Lemma handled_from k i b (h : list (nat * bytes)) :
  snd <$> filter (λ x, x.1 = k) (h ++ [(i, b)]) =
  (snd <$> filter (λ x, x.1 = k) h) ++ (if decide (i = k) then [b] else []).
Proof.
  rewrite filter_app, fmap_app. f_equal. case_decide; [by rewrite filter_cons_True|by rewrite filter_cons_False].
Qed.

Lemma packet_step w i p p' pos x :
  winv w → at_ (sw w) = Polling i → ports (sw w) !! i = Some p →
  (∀ g, port_ok i p g → port_ok i p' g) → in_q (netif_ p') = in_q (netif_ p) →
  sent (netif_ p') = sent (netif_ p) → sync_ p' = sync_ p → rx_ p' = Some pos →
  taken (netif_ p') = taken (netif_ p) ++ [x] → is_packet x → good_body i (m_body x) →
  bodies (in_q (netif_ p')) !! Z.to_nat pos = Some (m_body x) →
  ∃ s, switch_pkt (sw w) i p' pos = Some s ∧
       winv (MkWorld s (peers w) (handled w ++ new_packet (sw w) s)).
Proof.
  intros Hw Hat Hp Hok Hiq Hst Hsy Hrx Htk Hx Hg Hb.
  pose proof (w_at w Hw) as Ha. rewrite Hat in Ha. cbn in Ha.
  assert (i < length (ports (sw w)))%nat as Hi by (by eapply lookup_lt_Some).
  assert (∀ e, pending (at_ (sw w)) (handled w) e = []) as Hpe by (intros e; by rewrite Hat).
  destruct (switch_pkt_spec (sw w) i p' pos (m_body x) (handled w)) as (t & Ht & Hm & ->);
    [|by apply w_map|done..|].
  { eapply table_ok_insert; [by apply w_table|done|]. apply ring_keeps_same. by rewrite Hiq. }
  eexists. split; [done|]. unfold new_packet. rewrite Hat. cbn.
  rewrite list_lookup_insert_eq, Htk, last_snoc by done. cbn.
  split; cbn; rewrite ?length_insert; try done.
  - by apply w_len.
  - intros k q g. rewrite list_lookup_insert. case_decide as Hk; [|by apply w_ports].
    destruct Hk as [-> _]. intros [= <-] Hg'. apply Hok. by eapply w_ports.
  - split_and!.
    + apply NoDup_egress.
    + apply Forall_forall. intros e He. apply elem_of_egress in He as (? & ? & _); [done|].
      intros e' He'. eapply table_map_bound in He'; [|apply Ht]. by rewrite length_insert in He'.
    + intros k q. rewrite list_lookup_insert. case_decide as Hk; [|by eauto].
      destruct Hk as [-> _]. by intros _ ?.
    + exists p', (taken (netif_ p)), x, (handled w). rewrite list_lookup_insert_eq by done.
      rewrite Hrx. by split_and!.
  - intros k q Hq. rewrite handled_from. rewrite list_lookup_insert in Hq. case_decide as Hk.
    + destruct Hk as [-> _]. injection Hq as <-. rewrite decide_True by done.
      rewrite Htk, ns_packets_app. f_equal; [by apply w_taken|].
      unfold packets. by rewrite filter_cons_True.
    + rewrite decide_False by naive_solver. rewrite app_nil_r. by apply w_taken.
  - intros e q Hq. assert (∃ q0, ports (sw w) !! e = Some q0 ∧ sent (netif_ q) = sent (netif_ q0) ∧ sync_ q = sync_ q0)
      as (q0 & Hq0 & ? & ?).
    { rewrite list_lookup_insert in Hq. case_decide as Hk; [|by eauto]. destruct Hk as [-> _].
      injection Hq as <-. eauto. }
    eapply (out_ok_taken w i q x _ e q0); try done. intros a e' He'.
    eapply table_map_bound in He'; [|apply Ht]. by rewrite length_insert in He'.
Qed.

Lemma polling_step w i : winv w → at_ (sw w) = Polling i → sw_step_ok w.
Proof.
  intros Hw Hat. pose proof (w_at w Hw) as Ha. unfold sw_step_ok, step. rewrite Hat in *. cbn in Ha.
  assert (∀ e, pending (at_ (sw w)) (handled w) e = []) as Hpe by (intros e; by rewrite Hat).
  destruct (ports (sw w) !! i) as [p|] eqn:Hp.
  2: { destruct (_ <=? _); (eexists; split; [done|]; unfold new_packet; rewrite Hat; cbn; rewrite app_nil_r;
         apply winv_jump; [done|intros e; by rewrite Hpe|done]). }
  destruct (port_peer w i p Hw Hp) as (g & _ & Hok).
  destruct (ns_RxPacket_spec i p g (cur_ts (sw w)) Hok (Ha _ _ Hp)) as (st & p' & E & Hok' & Hiq & Hst & Hsy & Hcase).
  assert (∀ g, port_ok i p g → port_ok i p' g) as Hall.
  { intros g' Hg'. destruct (ns_RxPacket_spec i p g' (cur_ts (sw w)) Hg' (Ha _ _ Hp)) as (? & ? & E' & ? & _).
    by simplify_eq. }
  rewrite E. cbn. destruct st.
  - destruct Hcase as (pos & x & Hrx & Htk & Hx & Hgb & Hb). rewrite Hrx. by eapply packet_step.
  - destruct Hcase as [Hrx Htk]. eexists. split; [done|]. unfold new_packet. rewrite Hat.
    cbn. rewrite app_nil_r. eapply port_done_step; [done..| | | | | | |done];
      [apply ring_keeps_same; by rewrite Hiq|by rewrite Htk|by rewrite Hst|done|done|by eauto].
  - destruct Hcase as [Hrx Htk].
    destruct (RxDone_spec i p' g Hok' Hrx) as (p'' & E2 & _ & Hbd & Htk2 & Hst2 & Hrx2 & Hsy2).
    assert (∀ g, port_ok i p g → port_ok i p'' g) as Hall2.
    { intros g' Hg'%Hall. destruct (RxDone_spec i p' g' Hg' Hrx) as (? & E' & ? & _). by simplify_eq. }
    rewrite E2. cbn. eexists. split; [destruct (rx_ p'); done|]. unfold new_packet. rewrite Hat.
    cbn. rewrite app_nil_r. eapply port_done_step; [done..| | | | | | |done];
      [apply ring_keeps_same; by rewrite Hbd, Hiq|by rewrite Htk2|by rewrite Hst2, Hst|congruence|done|by eauto].
Qed.

Lemma forward_pkt_spec w i e es :
  Z.of_nat sz < 2 ^ 16 → winv w → at_ (sw w) = Forwarding i (e :: es) →
  ∃ q r q' h b, ports (sw w) !! e = Some q ∧ forward_pkt (sw w) i e = Some (r, q') ∧
    handled w = h ++ [(i, b)] ∧ (∀ g, port_ok e q g → port_ok e q' g) ∧
    in_q (netif_ q') = in_q (netif_ q) ∧ taken (netif_ q') = taken (netif_ q) ∧ rx_ q' = rx_ q ∧
    sync_ q' = sync_ q ∧
    match r with
    | TxSent => packets (sent (netif_ q')) = packets (sent (netif_ q)) ++ [b]
    | TxDropped => sync_ q = false ∧ sent (netif_ q') = sent (netif_ q)
    | TxSpins => sync_ q = true ∧ sent (netif_ q') = sent (netif_ q)
    end.
Proof.
  intros Hsz Hw Hat. pose proof (w_at w Hw) as Ha. rewrite Hat in Ha. cbn in Ha.
  destruct Ha as (_ & [Hlt _]%Forall_cons & _ & p & l & x & h & Hp & Hrx & Htk & Hx & Hh).
  destruct (lookup_lt_is_Some_2 (ports (sw w)) e) as [q Hq]; [apply Hlt|].
  destruct (port_peer w i p Hw Hp) as (g & _ & Hok). destruct (port_peer w e q Hw Hq) as (g' & _ & Hok').
  unfold forward_pkt. rewrite Hp. cbn. destruct (rx_ p) as [pos|] eqn:Hpos; [|done]. cbn.
  assert (in_body (netif_ p) pos = Some (m_body x)) as ->.
  { destruct Hok as [(n & m & Hl) _ _ _]. rewrite Hpos in Hl.
    destruct (in_hand n m _ _ _ _ Hl) as (s & l' & Hs & Ht). unfold in_body. rewrite Hs. cbn.
    rewrite Htk in Ht. by apply app_inj_tail in Ht as [_ ->]. }
  assert (good_body i (m_body x)) as (Hlen & Hpl & _).
  { destruct (taken_good i p g x l Hok Htk) as [[_ ?]|Hsy]; [done|]. unfold is_packet in Hx.
    by rewrite Hx in Hsy. }
  cbn. rewrite Hq. cbn.
  pose proof (λ g0 H, ns_TxPacket_spec e q g0 (drop HDR (m_body x)) (packet_len (m_body x)) (cur_ts (sw w))
                Hsz H ltac:(rewrite length_drop; unfold HDR in *; lia) ltac:(lia)) as Hspec.
  destruct (Hspec g' Hok') as (r & q' & E & _ & Hiq & Htk' & Hrx' & Hsy' & Hr).
  exists q, r, q', h, (payload (m_body x)). split_and!; try done.
  intros g0 Hg0. destruct (Hspec g0 Hg0) as (? & ? & E' & ? & _). rewrite E in E'. by simplify_eq.
Qed.

(** One packet less to send. *)
Lemma out_ok_sent w i e es q q' h b :
  winv w → at_ (sw w) = Forwarding i (e :: es) → e ∉ es → ports (sw w) !! e = Some q →
  handled w = h ++ [(i, b)] → sync_ q' = sync_ q →
  (packets (sent (netif_ q')) = packets (sent (netif_ q)) ++ [b] ∨
   sync_ q = false ∧ sent (netif_ q') = sent (netif_ q)) →
  ∀ e' p, <[e := q']> (ports (sw w)) !! e' = Some p →
    out_ok (length (ports (sw w))) (Forwarding i es) (handled w) e' p.
Proof.
  intros Hw Hat Hnin Hq Hh Hsy Hst e' p Hp. rewrite list_lookup_insert in Hp.
  assert (e < length (ports (sw w)))%nat as He by (by eapply lookup_lt_Some).
  destruct (decide (e = e')) as [<-|Hne].
  - rewrite decide_True in Hp by done. injection Hp as <-. destruct (w_sent w Hw e q Hq) as [Hsub Heq].
    unfold out_ok. rewrite Hat in Hsub, Heq. cbn [pending] in *.
    rewrite decide_True in Hsub, Heq by set_solver. rewrite decide_False by done.
    rewrite Hsy, app_nil_r. rewrite Hh, last_snoc in Hsub, Heq. rewrite Hh. destruct Hst as [Hst|[Hs Hst]].
    + rewrite Hst. split; [exact Hsub|]. intros Hs. exact (Heq Hs).
    + rewrite Hst. split; [|by rewrite Hs]. etrans; [|exact Hsub]. by apply sublist_inserts_r.
  - rewrite decide_False in Hp by naive_solver. destruct (w_sent w Hw e' p Hp) as [Hsub Heq].
    unfold out_ok. rewrite Hat in Hsub, Heq. cbn [pending] in *.
    rewrite (decide_ext (e' ∈ es) (e' ∈ e :: es)) by set_solver. done.
Qed.

Lemma forwarding_step w i todo :
  Z.of_nat sz < 2 ^ 16 → winv w → at_ (sw w) = Forwarding i todo → sw_step_ok w.
Proof.
  intros Hsz Hw Hat. unfold sw_step_ok, step. rewrite Hat.
  pose proof (w_at w Hw) as Ha. rewrite Hat in Ha. destruct todo as [|e es].
  - destruct Ha as (_ & _ & Hrest & p & l & x & h & Hp & Hrx & Htk & Hx & Hh). rewrite Hp. cbn.
    destruct (port_peer w i p Hw Hp) as (g & _ & Hok).
    destruct (RxDone_spec i p g Hok Hrx) as (p' & E & _ & Hbd & Htk' & Hst & Hrx' & Hsy).
    rewrite E. cbn. eexists. split; [done|]. unfold new_packet. rewrite Hat. rewrite app_nil_r.
    eapply port_done_step; [done..| | | | | | | |].
    + intros g' Hg'. destruct (RxDone_spec i p g' Hg' Hrx) as (? & E' & ? & _). by simplify_eq.
    + by apply ring_keeps_same.
    + by rewrite Htk'.
    + by rewrite Hst.
    + done.
    + done.
    + done.
    + intros e. rewrite Hat. cbn. by rewrite decide_False by set_solver.
  - destruct (forward_pkt_spec w i e es Hsz Hw Hat) as (q & r & q' & h & b & Hq & E & Hh & Hok & Hiq & Htk & Hrx & Hsy & Hr).
    rewrite E. cbn. eexists. split; [done|]. unfold new_packet. rewrite Hat, app_nil_r. unfold set_port.
    pose proof (at_ok_insert _ _ _ _ _ q' Ha Hq Hrx Htk) as Ha'.
    eapply winv_step; [done..| | | |]; [by apply ring_keeps_same; rewrite Hiq|by rewrite Htk| |].
    + assert (e ∉ es) as Hnin by (destruct Ha as (?%NoDup_cons & _); tauto).
      destruct r; [by eapply out_ok_sent; eauto|by eapply out_ok_sent; eauto|].
      eapply out_ok_same; [done..|by destruct Hr as [_ ->]|done|by rewrite Hat].
    + destruct r; [| |exact Ha']; destruct Ha' as ([_ Hnd]%NoDup_cons & [_ Hf]%Forall_cons & Hrest); done.
Qed.

Lemma world_step_inv w e :
  Z.of_nat sz < 2 ^ 16 → winv w → good_event w e → ∃ w', world_step w e = Some w' ∧ winv w'.
Proof.
  intros Hsz Hw He. destruct e as [|k a]; [|by apply peer_world].
  assert (sw_step_ok w) as (s & E & Hw').
  { destruct (at_ (sw w)) eqn:Hat; [by eapply syncing_step|by eapply polling_step|by eapply forwarding_step]. }
  cbn. rewrite E. by eexists.
Qed.

Lemma world_run_inv es : ∀ w,
  Z.of_nat sz < 2 ^ 16 → winv w → good_run w es → ∃ w', world_run w es = Some w' ∧ winv w'.
Proof.
  induction es as [|e es IH]; intros w Hsz Hw Hr; cbn; [by eauto|]. destruct Hr as [He Hr].
  destruct (world_step_inv w e Hsz Hw He) as (w' & E & Hw'). rewrite E. by apply IH, Hr.
Qed.

End one_host.

(** ** Start *)

(** A port: the entries of its rings, whether it is synchronized, its parameters. *)
Definition new_port (sz : nat) (c : nat * bool * Params) : NetPort :=
  MkPort (new_iface c.1.1 sz c.1.2 c.2) None c.1.2.

Definition init_world (sz : nat) (cfg : list (nat * bool * Params)) : world :=
  MkWorld (MkState (new_port sz <$> cfg) [] 0 0 (Syncing 0))
          ((λ c, new_peer c.1.1 sz c.1.2 c.2) <$> cfg) [].

Lemma init_winv sz addr cfg :
  Forall (λ c, 0 < Z.of_nat c.1.1 < 2 ^ 64) cfg → winv sz addr (init_world sz cfg).
Proof.
  intros Hc. split; cbn; try done.
  - by rewrite !length_fmap.
  - intros k p g. rewrite !list_lookup_fmap. destruct (cfg !! k) as [c|] eqn:Hk; [|done].
    intros [= <-] [= <-]. apply (Forall_lookup_1 _ _ _ _ Hc) in Hk.
    split; cbn; [eexists _, _; by apply new_linked| | |done];
      unfold sized; rewrite bodies_zero_ring; apply Forall_replicate, length_replicate.
  - split; constructor.
  - intros k p. rewrite list_lookup_fmap. destruct (cfg !! k); [|done]. by intros [= <-].
  - intros k p. rewrite list_lookup_fmap. destruct (cfg !! k); [|done]. by intros [= <-].
  - intros e p. rewrite list_lookup_fmap. destruct (cfg !! e); [|done]. by intros [= <-].
Qed.

Lemma packets_prefix l k : l `prefix_of` k → packets l `prefix_of` packets k.
Proof. intros [r ->]. rewrite ns_packets_app. by eexists. Qed.

(** C20: The learning switch is one.  Let the packets that arrive at each port carry one source
    address.  Then, under every interleaving of the switch's accesses to the rings with those of
    its peers, nothing is undefined or aborts, the packets it handles from a port are those its
    peer sent, in order, and out of each port goes what an ideal learning switch sends for the
    packets handled: all of it, each packet once and in order, on a synchronized port, and a
    subsequence of it on another. *)
Theorem learning_switch_refines sz addr cfg es :
  Z.of_nat sz < 2 ^ 16 → Forall (λ c, 0 < Z.of_nat c.1.1 < 2 ^ 64) cfg →
  good_run sz addr (init_world sz cfg) es →
  ∃ w, world_run (init_world sz cfg) es = Some w ∧
  ∀ k p g, ports (sw w) !! k = Some p → peers w !! k = Some g →
    (snd <$> filter (λ x, x.1 = k) (handled w)) `prefix_of` packets (arrived g) ∧
    packets (picked g) `prefix_of` packets (sent (netif_ p)) ∧
    packets (sent (netif_ p)) ++ pending (at_ (sw w)) (handled w) k `sublist_of`
      ideal (length (ports (sw w))) ∅ (handled w) k ∧
    (sync_ p = true →
     packets (sent (netif_ p)) ++ pending (at_ (sw w)) (handled w) k =
       ideal (length (ports (sw w))) ∅ (handled w) k).
Proof.
  intros Hsz Hc Hr. destruct (world_run_inv sz addr es _ Hsz (init_winv sz addr cfg Hc) Hr) as (w & E & Hw).
  exists w. split; [done|]. intros k p g Hp Hg.
  destruct (w_ports _ _ w Hw k p g Hp Hg) as [(n & m & Hl) _ _ _].
  destruct (w_sent _ _ w Hw k p Hp) as [Hsub Heq]. split_and!; [| |done..].
  - rewrite <- (w_taken _ _ w Hw k p Hp). apply packets_prefix. rewrite (taken_prefix n m _ _ _ _ Hl).
    apply prefix_take.
  - apply packets_prefix. destruct Hl as [_ []]. cbn in *. rewrite i_recv0. apply prefix_take.
Qed.

(** ** Examples *)

Definition good_eventb (sz : nat) (addr : nat → bytes) (w : world) (e : event) : bool :=
  match e with
  | Step => true
  | Peer k a =>
      match peers w !! k with
      | None => false
      | Some g =>
          match a with
          | PAlloc _ | PSync _ => bool_decide (p_alloc g = None)
          | PSend b ty =>
              negb (bool_decide (p_alloc g = None)) && (ty =? SIMBRICKS_PROTO_NET_MSG_PACKET) &&
              bool_decide (length b = sz ∧ 12 ≤ packet_len b ≤ Z.of_nat sz - Z.of_nat HDR ∧
                           slice b (HDR + 6) 6 = addr k)
          | CPoll _ => bool_decide (p_poll g = None)
          | CDone => negb (bool_decide (p_poll g = None))
          end
      end
  end.

Lemma good_eventb_sound sz addr w e : good_eventb sz addr w e = true → good_event sz addr w e.
Proof.
  destruct e as [|k a]; [done|]. cbn. destruct (peers w !! k) as [g|]; [|done]. intros H.
  exists g. split; [done|]. unfold good_act, good_body.
  destruct a; cbn in *; rewrite ?andb_true_iff, ?negb_true_iff, ?bool_decide_eq_true, ?bool_decide_eq_false in H;
    [done| |done..]. destruct H as [[? ->%Z.eqb_eq] Hb].
  split; [split; [done|by vm_compute]|]. split; [done|exact Hb].
Qed.

Fixpoint good_runb (sz : nat) (addr : nat → bytes) (w : world) (es : list event) : bool :=
  match es with
  | [] => true
  | e :: es => good_eventb sz addr w e &&
               match world_step w e with Some w => good_runb sz addr w es | None => true end
  end.

Lemma good_runb_sound sz addr es : ∀ w, good_runb sz addr w es = true → good_run sz addr w es.
Proof.
  induction es as [|e es IH]; intros w; cbn; [done|]. rewrite andb_true_iff.
  intros [He%good_eventb_sound Hr]. split; [done|]. intros w' Hw. rewrite Hw in Hr. by apply IH.
Qed.

(** Three ports with rings of three entries, and the host behind each. *)
Definition demo_cfg : list (nat * bool * Params) :=
  [(3%nat, true, MkParams 500 500 SyncOptional); (3%nat, true, MkParams 500 500 SyncOptional);
   (3%nat, false, MkParams 500 500 SyncOptional)].
Definition demo_size : nat := 64.
Definition demo_addr (k : nat) : bytes := [2; 0; 0; 0; 0; Z.of_nat k].

(** A packet of 14 bytes, in an entry. *)
Definition demo_packet (dst src : bytes) : bytes :=
  le 2 14 ++ replicate 46 0 ++ dst ++ src ++ [8; 0; 0; 0].

Definition demo_events : list event :=
  [Peer 0 (PAlloc 0); Peer 0 (PSend (demo_packet [255; 255; 255; 255; 255; 255] (demo_addr 0)) 0x40);
   Peer 1 (PSync 0)] ++ replicate 40 Step ++
  [Peer 1 (CPoll 2000); Peer 1 CDone; Peer 1 (CPoll 2000); Peer 1 (PAlloc 600);
   Peer 1 (PSend (demo_packet (demo_addr 0) (demo_addr 1)) 0x40); Peer 0 (PSync 600)] ++
  replicate 40 Step ++ [Peer 0 (CPoll 2000); Peer 0 CDone; Step].

Lemma demo_good : good_run demo_size demo_addr (init_world demo_size demo_cfg) demo_events.
Proof. apply good_runb_sound. by vm_compute. Qed.

(** The first packet is flooded; the answer goes to the port that was learned only. *)
Lemma demo_result :
  (λ w, (handled w, (λ p, packets (sent (netif_ p))) <$> ports (sw w))) <$>
    world_run (init_world demo_size demo_cfg) demo_events =
  let p1 := [255; 255; 255; 255; 255; 255; 2; 0; 0; 0; 0; 0; 8; 0] in
  let p2 := [2; 0; 0; 0; 0; 0; 2; 0; 0; 0; 0; 1; 8; 0] in
  Some ([(0%nat, p1); (1%nat, p2)], [[p2]; [p1]; [p1]]).
Proof. by vm_compute. Qed.

Lemma learning_switch_refines_witness :
  ∃ w, world_run (init_world demo_size demo_cfg) demo_events = Some w ∧
  ∀ k p g, ports (sw w) !! k = Some p → peers w !! k = Some g →
    (snd <$> filter (λ x, x.1 = k) (handled w)) `prefix_of` packets (arrived g) ∧
    packets (picked g) `prefix_of` packets (sent (netif_ p)) ∧
    packets (sent (netif_ p)) ++ pending (at_ (sw w)) (handled w) k `sublist_of`
      ideal (length (ports (sw w))) ∅ (handled w) k ∧
    (sync_ p = true →
     packets (sent (netif_ p)) ++ pending (at_ (sw w)) (handled w) k =
       ideal (length (ports (sw w))) ∅ (handled w) k).
Proof.
  apply (learning_switch_refines demo_size demo_addr demo_cfg demo_events);
    [done|by repeat constructor|exact demo_good].
Defined.

(** *** Two hosts behind a port *)

(** Hosts [a] and [b] behind port 0, each sending once; then a packet for [a] comes from port
    1.  Its entry of the table is a pointer to the ring entry that now holds the packet of
    [b], so the packet is flooded, to port 2 as well, where the ideal switch sends nothing. *)
Definition host_a : bytes := [2; 0; 0; 0; 0; 10].
Definition host_b : bytes := [2; 0; 0; 0; 0; 11].
Definition unsync_cfg : list (nat * bool * Params) :=
  replicate 3 (1%nat, false, MkParams 500 500 SyncDisabled).
Definition send_from (k : nat) (b : bytes) : list event :=
  [Peer k (PAlloc 0); Peer k (PSend b 0x40)] ++ replicate 12 Step.
Definition pick_up (k : nat) : list event := [Peer k (CPoll 0); Peer k CDone].

Definition two_hosts : list event :=
  send_from 0 (demo_packet (demo_addr 9) host_a) ++ pick_up 1 ++ pick_up 2 ++
  send_from 0 (demo_packet (demo_addr 9) host_b) ++ pick_up 1 ++ pick_up 2 ++
  send_from 1 (demo_packet host_a (demo_addr 1)).

Theorem two_hosts_flooded :
  (λ w, (packets ∘ sent ∘ netif_ <$> ports (sw w) !! 2%nat, ideal 3 ∅ (handled w) 2)) <$>
    world_run (init_world demo_size unsync_cfg) two_hosts =
  let p k := [2; 0; 0; 0; 0; 9; 2; 0; 0; 0; 0; k; 8; 0] in
  Some (Some [p 10; p 11; [2; 0; 0; 0; 0; 10; 2; 0; 0; 0; 0; 1; 8; 0]], [p 10; p 11]).
Proof. by vm_compute. Qed.

(** The constant that stands for the broadcast address is FF:00:00:00:00:00: the source
    FF:FF:FF:FF:FF:FF is learned, and later broadcasts go to one port only. *)
Definition broadcast : bytes := [255; 255; 255; 255; 255; 255].

Theorem broadcast_source_learned :
  (λ w, (packets ∘ sent ∘ netif_ <$> ports (sw w))) <$>
    world_run (init_world demo_size unsync_cfg)
      (send_from 0 (demo_packet (demo_addr 9) broadcast) ++ pick_up 1 ++ pick_up 2 ++
       send_from 1 (demo_packet broadcast (demo_addr 1))) =
  let p := [2; 0; 0; 0; 0; 9; 255; 255; 255; 255; 255; 255; 8; 0] in
  Some [[[255; 255; 255; 255; 255; 255; 2; 0; 0; 0; 0; 1; 8; 0]]; [p]; [p]].
Proof. by vm_compute. Qed.

End net_switch_inv.
