(* ===== verification/BasicMem.v ===== *)
(** * The memory simulator (sims/mem/basicmem/basicmem.c)

    A memory behind a memory interface (lib/simbricks/mem/proto.h): it takes read and write
    requests from the host and answers them.  As in NetSwitch.v the program is a machine that
    takes one step between accesses to the rings, and that stays in place where the code spins.

    The theorem at the end: over the rings, and under every interleaving with the host, it is an
    array of bytes that executes the requests in the order in which they were sent. *)

From S2P Require Import Prelude.
From S2P Require Import BaseIf.
From S2P Require Import BaseChannel.
From S2P Require Import TypedIf.

Module basicmem.
Import base channel typed.

(** ** Messages (mem/proto.h) *)

Definition SIMBRICKS_PROTO_MEM_M2H_MSG_READCOMP : Z := 0x40.
Definition SIMBRICKS_PROTO_MEM_M2H_MSG_WRITECOMP : Z := 0x41.
Definition SIMBRICKS_PROTO_MEM_H2M_MSG_READ : Z := 0x60.
Definition SIMBRICKS_PROTO_MEM_H2M_MSG_WRITE : Z := 0x61.
Definition SIMBRICKS_PROTO_MEM_H2M_MSG_WRITE_POSTED : Z := 0x62.

(** The bytes of a message without timestamp, padding and own_type. *)
Definition HDR : nat := 48.
Definition msg_req_id (b : bytes) : Z := field b 0 8.
Definition msg_addr (b : bytes) : Z := field b 16 8.
Definition msg_len (b : bytes) : Z := field b 24 2.
Definition msg_data (b : bytes) : bytes := drop HDR b.

(** ** The memory *)

(** [memcpy(dst, &mem_array[addr], len)] and [memcpy(&mem_array[addr], src, len)], [None] when
    the access leaves the array. *)
Definition mem_load (mem dst : bytes) (addr len : Z) : option bytes :=
  if addr + len <=? Z.of_nat (length mem) then memcpy dst (drop (Z.to_nat addr) mem) len else None.

Definition mem_store (mem src : bytes) (addr len : Z) : option bytes :=
  if addr + len <=? Z.of_nat (length mem)
  then d ← memcpy (drop (Z.to_nat addr) mem) src len; Some (take (Z.to_nat addr) mem ++ d)
  else None.

(** ** The program *)

Inductive pc := Syncing | Polling | Answering (pos : Z).

Record state := MkState {
  memif : iface;
  mem_array : bytes;
  cur_ts : Z;     (* uint64_t *)
  next_ts : Z;    (* uint64_t *)
  at_ : pc;
}.

(** The condition of the inner loop, after [PollH2M]. *)
Definition polled (s : state) (i : iface) (mem : bytes) : state :=
  let ts := InTimestamp i in
  if ts <=? cur_ts s then MkState i mem (cur_ts s) ts Polling
  else MkState i mem ts ts Syncing.

Definition finish (s : state) (i : iface) (mem : bytes) (pos : Z) : option state :=
  i ← InDone i pos; Some (polled s i mem).

(** [PollH2M] up to the allocation of an answer. *)
Definition PollH2M (s : state) : option state :=
  '(r, i) ← InPoll (memif s) (cur_ts s);
  match r with
  | None => Some (polled s i (mem_array s))
  | Some pos =>
      type ← InType i pos;
      b ← in_body i pos;
      if type =? SIMBRICKS_PROTO_MEM_H2M_MSG_READ then
        Some (MkState i (mem_array s) (cur_ts s) (next_ts s) (Answering pos))
      else if type =? SIMBRICKS_PROTO_MEM_H2M_MSG_WRITE then
        mem ← mem_store (mem_array s) (msg_data b) (msg_addr b) (msg_len b);
        Some (MkState i mem (cur_ts s) (next_ts s) (Answering pos))
      else if type =? SIMBRICKS_PROTO_MEM_H2M_MSG_WRITE_POSTED then
        mem ← mem_store (mem_array s) (msg_data b) (msg_addr b) (msg_len b);
        finish s i mem pos
      else finish s i (mem_array s) pos
  end.

(** The answer to the request at [pos]: the bytes written into the entry with bytes [to], and
    the type. *)
Definition answer_body (s : state) (type : Z) (b to : bytes) : option (bytes * Z) :=
  if type =? SIMBRICKS_PROTO_MEM_H2M_MSG_READ then
    d ← mem_load (mem_array s) (drop HDR to) (msg_addr b) (msg_len b);
    Some (le 8 (msg_req_id b) ++ take (HDR - 8) (drop 8 to) ++ d, SIMBRICKS_PROTO_MEM_M2H_MSG_READCOMP)
  else Some (le 8 (msg_req_id b) ++ drop 8 to, SIMBRICKS_PROTO_MEM_M2H_MSG_WRITECOMP).

(** [M2HAlloc], which waits for an entry, the answer, and the end of [PollH2M]. *)
Definition send_answer (s : state) (pos : Z) : option state :=
  '(msg_to, i) ← OutAlloc (memif s) (cur_ts s);
  match msg_to with
  | None => Some (MkState i (mem_array s) (cur_ts s) (next_ts s) (Answering pos))
  | Some p =>
      type ← InType i pos;
      b ← in_body i pos;
      to ← out_body i p;
      '(b', ty) ← answer_body s type b to;
      i ← out_fill i p b';
      i ← OutSend i p ty;
      finish s i (mem_array s) pos
  end.

Definition step (s : state) : option state :=
  match at_ s with
  | Syncing =>
      '(r, i) ← OutSync (memif s) (cur_ts s);
      Some (MkState i (mem_array s) (cur_ts s) (next_ts s) (if r =? 0 then Polling else Syncing))
  | Polling => PollH2M s
  | Answering pos => send_answer s pos
  end.

(** ** The abstract memory *)

Inductive request :=
| Read (id addr len : Z)
| Write (id addr : Z) (data : bytes) (posted : bool)
| Ignored.

Inductive response := ReadComp (id : Z) (data : bytes) | WriteComp (id : Z).

Definition request_of (x : message) : request :=
  let b := m_body x in
  if m_type x =? SIMBRICKS_PROTO_MEM_H2M_MSG_READ then Read (msg_req_id b) (msg_addr b) (msg_len b)
  else if m_type x =? SIMBRICKS_PROTO_MEM_H2M_MSG_WRITE then
    Write (msg_req_id b) (msg_addr b) (slice b HDR (Z.to_nat (msg_len b))) false
  else if m_type x =? SIMBRICKS_PROTO_MEM_H2M_MSG_WRITE_POSTED then
    Write (msg_req_id b) (msg_addr b) (slice b HDR (Z.to_nat (msg_len b))) true
  else Ignored.

(** Byte [j] after a write of [data] at [addr]. *)
Definition written (mem : bytes) (addr : Z) (data : bytes) : bytes :=
  imap (λ j x, if (Z.to_nat addr <=? j)%nat then nth (j - Z.to_nat addr) data x else x) mem.

Definition exec (mem : bytes) (r : request) : bytes * list response :=
  match r with
  | Read id addr len => (mem, [ReadComp id (slice mem (Z.to_nat addr) (Z.to_nat len))])
  | Write id addr data posted => (written mem addr data, if posted then [] else [WriteComp id])
  | Ignored => (mem, [])
  end.

Fixpoint exec_all (mem : bytes) (l : list request) : bytes * list response :=
  match l with
  | [] => (mem, [])
  | r :: l => let '(mem, out) := exec mem r in let '(mem, outs) := exec_all mem l in (mem, out ++ outs)
  end.

(** A message on the ring that is the given response. *)
Definition conveys (r : response) (x : message) : Prop :=
  match r with
  | ReadComp id data =>
      m_type x = SIMBRICKS_PROTO_MEM_M2H_MSG_READCOMP ∧ msg_req_id (m_body x) = id ∧
      take (length data) (msg_data (m_body x)) = data
  | WriteComp id => m_type x = SIMBRICKS_PROTO_MEM_M2H_MSG_WRITECOMP ∧ msg_req_id (m_body x) = id
  end.

Lemma exec_all_snoc l r : ∀ mem,
  exec_all mem (l ++ [r]) =
  let '(mem1, out) := exec_all mem l in let '(mem2, o) := exec mem1 r in (mem2, out ++ o).
Proof.
  induction l as [|x l IH]; intros mem; cbn; [by destruct (exec mem r); rewrite app_nil_r|].
  destruct (exec mem x) as [m1 o1]. rewrite IH. destruct (exec_all m1 l) as [m2 o2].
  destruct (exec m2 r). by rewrite app_assoc.
Qed.

Lemma length_written mem addr data : length (written mem addr data) = length mem.
Proof. apply length_imap. Qed.

(** The code's copy is the abstract write. *)
Lemma mem_store_spec mem src addr len :
  0 ≤ addr → 0 ≤ len ≤ Z.of_nat (length src) → addr + len ≤ Z.of_nat (length mem) →
  mem_store mem src addr len = Some (written mem addr (take (Z.to_nat len) src)).
Proof.
  intros Ha Hl Hb. unfold mem_store. rewrite (proj2 (Z.leb_le _ _)) by done.
  rewrite memcpy_ok by (rewrite ?length_drop; lia). cbn. f_equal.
  apply list_eq. intros j. unfold written. rewrite list_lookup_imap.
  destruct (decide (j < Z.to_nat addr)%nat) as [Hj|Hj].
  - rewrite lookup_app_l by (rewrite length_take; lia). rewrite lookup_take_lt by lia.
    rewrite (proj2 (Nat.leb_gt _ _)) by lia. by destruct (mem !! j).
  - rewrite lookup_app_r by (rewrite length_take; lia). rewrite length_take_le by lia.
    rewrite (proj2 (Nat.leb_le (Z.to_nat addr) j)) by lia.
    destruct (decide (j - Z.to_nat addr < Z.to_nat len)%nat) as [Hk|Hk].
    + rewrite lookup_app_l by (rewrite length_take; lia).
      destruct (lookup_lt_is_Some_2 mem j) as [x Hx]; [lia|]. rewrite Hx. cbn.
      destruct (lookup_lt_is_Some_2 (take (Z.to_nat len) src) (j - Z.to_nat addr)) as [y Hy];
        [rewrite length_take; lia|]. rewrite Hy. f_equal. symmetry. by apply nth_lookup_Some.
    + rewrite lookup_app_r by (rewrite length_take; lia). rewrite length_take_le by lia.
      rewrite drop_drop, lookup_drop.
      replace (Z.to_nat addr + Z.to_nat len + (j - Z.to_nat addr - Z.to_nat len))%nat with j by lia.
      destruct (mem !! j) as [x|]; [|done]. cbn. f_equal. symmetry. apply nth_overflow.
      rewrite length_take. lia.
Qed.

(** ** The system *)

Record world := MkWorld { st : state; host : peer }.

Inductive event := Step | Host (a : act).

Definition rx_of (c : pc) : option Z := match c with Answering pos => Some pos | _ => None end.

Definition world_step (w : world) (e : event) : option world :=
  match e with
  | Step => s ← step (st w); Some (MkWorld s (host w))
  | Host a =>
      let s := st w in
      '(i, g) ← peer_step (memif s) (rx_of (at_ s)) None (host w) a;
      Some (MkWorld (MkState i (mem_array s) (cur_ts s) (next_ts s) (at_ s)) g)
  end.

Fixpoint world_run (w : world) (es : list event) : option world :=
  match es with
  | [] => Some w
  | e :: es => w ← world_step w e; world_run w es
  end.

(** All but the messages that only carry time. *)
Definition not_sync (x : message) : Prop := m_type x ≠ SIMBRICKS_PROTO_MSG_TYPE_SYNC.
#[export] Instance not_sync_dec x : Decision (not_sync x).
Proof. unfold not_sync. apply _. Defined.

Definition answers (l : list message) : list message := filter not_sync l.

Lemma answers_app l k : answers (l ++ k) = answers l ++ answers k.
Proof. apply filter_app. Qed.

Lemma answers_sync l : Forall (λ x, m_type x = SIMBRICKS_PROTO_MSG_TYPE_SYNC) l → answers l = [].
Proof.
  unfold answers. induction 1 as [|x l Hx _ IH]; [done|]. rewrite filter_cons_False; [done|].
  unfold not_sync. tauto.
Qed.

Section correct.

(** [sz]: the bytes of a ring entry.  [size]: the bytes of the memory.  [mem0]: its contents at
    the start. *)
Context (sz size : nat) (mem0 : bytes).

Definition is_request (ty : Z) : Prop :=
  ty = SIMBRICKS_PROTO_MEM_H2M_MSG_READ ∨ ty = SIMBRICKS_PROTO_MEM_H2M_MSG_WRITE ∨
  ty = SIMBRICKS_PROTO_MEM_H2M_MSG_WRITE_POSTED.

(** A request within the memory whose data fits the entry. *)
Definition good_request (b : bytes) : Prop :=
  is_bytes b ∧ length b = sz ∧ msg_addr b + msg_len b ≤ Z.of_nat size ∧
  Z.of_nat HDR + msg_len b ≤ Z.of_nat sz.

Definition good_event (w : world) (e : event) : Prop :=
  match e with
  | Step => True
  | Host a => peer_turn (host w) a ∧
              match a with PSend b ty => length b = sz ∧ (is_request ty → good_request b) | _ => True end
  end.

Fixpoint good_run (w : world) (es : list event) : Prop :=
  match es with
  | [] => True
  | e :: es => good_event w e ∧ ∀ w', world_step w e = Some w' → good_run w' es
  end.

Definition good_msg (x : message) : Prop := is_request (m_type x) → good_request (m_body x).

Definition sized (q : list Slot) : Prop := Forall (λ b, length b = sz) (bodies q).

(** What is still to be answered: the request in hand. *)
Definition owed (s : state) : list response :=
  match at_ s with
  | Answering _ => match last (taken (memif s)) with
                   | Some x => (exec (mem_array s) (request_of x)).2
                   | None => []
                   end
  | _ => []
  end.

(** The request in hand is one that is answered. *)
Definition in_hand_ok (s : state) : Prop :=
  match at_ s with
  | Answering _ => ∃ l x, taken (memif s) = l ++ [x] ∧
      (m_type x = SIMBRICKS_PROTO_MEM_H2M_MSG_READ ∨ m_type x = SIMBRICKS_PROTO_MEM_H2M_MSG_WRITE)
  | _ => True
  end.

Record winv (w : world) : Prop := {
  w_linked : ∃ n m, linked n m (memif (st w)) (rx_of (at_ (st w))) None (host w);
  w_in : sized (in_q (memif (st w)));
  w_out : sized (out_q (memif (st w)));
  w_arrived : Forall good_msg (arrived (host w));
  w_size : length (mem_array (st w)) = size;
  w_hand : in_hand_ok (st w);
  w_mem : ∃ out, exec_all mem0 (request_of <$> taken (memif (st w))) =
                   (mem_array (st w), out ++ owed (st w)) ∧
                 Forall2 conveys out (answers (sent (memif (st w))));
}.

(** ** Steps *)

Lemma bm_taken_good w x l : winv w → taken (memif (st w)) = l ++ [x] → good_msg x.
Proof.
  intros [(n & m & Hl) _ _ Ha _ _ _] Ht. rewrite Forall_forall in Ha. apply Ha.
  apply taken_prefix in Hl. rewrite Ht in Hl.
  rewrite <- (take_drop (length (l ++ [x])) (arrived (host w))), <- Hl. set_solver.
Qed.

Lemma host_world w a :
  winv w → good_event w (Host a) → ∃ w', world_step w (Host a) = Some w' ∧ winv w'.
Proof.
  intros [(n & m & Hl) Hi Ho Har Hs Hh Hm] [Ht Ha]. cbn.
  destruct (peer_spec n m _ _ _ _ _ Hl Ht) as (i' & g' & -> & Hl' & _ & Htk & Hst & Hob & Hcase). cbn.
  eexists. split; [done|].
  assert (sized (in_q i') ∧ Forall good_msg (arrived g')) as [Hi' Har'].
  { unfold sized. destruct a as [ts|b ty|ts|ts|].
    1, 4, 5: destruct Hcase as [Hb ->]; by rewrite Hb.
    - destruct Hcase as (pos & x & _ & Hb & -> & Hbx & Htx). destruct Ha as [Hlen Hgb]. split.
      + rewrite Hb. by apply Forall_insert.
      + apply Forall_app. split; [done|]. constructor; [|done]. unfold good_msg. by rewrite Hbx, Htx.
    - destruct Hcase as (Hb & new & -> & Hnew). rewrite Hb. split; [done|].
      apply Forall_app. split; [done|]. eapply Forall_impl; [done|]. intros x Hx. unfold good_msg.
      rewrite Hx. by intros [?|[?|?]]. }
  split; cbn; try done.
  - by exists n, m.
  - unfold sized. by rewrite Hob.
  - unfold in_hand_ok in *. cbn. by rewrite Htk.
  - unfold owed in *. cbn. by rewrite Htk, Hst.
Qed.

(** The state after the inner loop's body, with nothing in hand. *)
Lemma polled_inv s g n m i mem out :
  linked n m i None None g → sized (in_q i) → sized (out_q i) → Forall good_msg (arrived g) →
  length mem = size → exec_all mem0 (request_of <$> taken i) = (mem, out) →
  Forall2 conveys out (answers (sent i)) → winv (MkWorld (polled s i mem) g).
Proof.
  intros. unfold polled. destruct (_ <=? _); (split; cbn; try done; [by exists n, m|]);
    exists out; unfold owed; cbn; by rewrite app_nil_r.
Qed.

Lemma finish_inv s g n m i mem out pos :
  linked n m i (Some pos) None g → sized (in_q i) → sized (out_q i) → Forall good_msg (arrived g) →
  length mem = size → exec_all mem0 (request_of <$> taken i) = (mem, out) →
  Forall2 conveys out (answers (sent i)) →
  ∃ s', finish s i mem pos = Some s' ∧ winv (MkWorld s' g).
Proof.
  intros Hl Hi Ho Ha Hs He Hf. unfold finish.
  destruct (InDone_spec n m _ _ _ _ Hl) as (i' & -> & Hl' & _ & Hb & Hoq & Htk & Hst). cbn.
  eexists. split; [done|]. eapply polled_inv; unfold sized; rewrite ?Hb, ?Hoq, ?Htk, ?Hst; done.
Qed.

Lemma good_request_fields b :
  good_request b → 0 ≤ msg_addr b ∧ 0 ≤ msg_len b ≤ Z.of_nat (length (msg_data b)) ∧
  msg_addr b + msg_len b ≤ Z.of_nat size ∧ msg_req_id b ∈u 64.
Proof.
  intros (Hb & Hl & Hs & Hd). unfold msg_addr, msg_len, msg_req_id, msg_data in *.
  pose proof (field_fits b 16 8 64 ltac:(done) Hb) as [? _].
  pose proof (field_fits b 24 2 16 ltac:(done) Hb) as [? _].
  pose proof (field_fits b 0 8 64 ltac:(done) Hb). rewrite length_drop. unfold HDR in *.
  split_and!; try done; lia.
Qed.

Lemma bm_polling_step w :
  winv w → at_ (st w) = Polling → ∃ s, step (st w) = Some s ∧ winv (MkWorld s (host w)).
Proof.
  intros Hw Hat. pose proof Hw as [(n & m & Hl) Hi Ho Ha Hs _ (out & He & Hf)].
  unfold owed in He. unfold step, PollH2M. rewrite Hat in *. cbn in Hl. rewrite app_nil_r in He.
  destruct (InPoll_spec n m _ _ _ (cur_ts (st w)) Hl) as (r & i & -> & Hl' & Hiq & Hoq & Hst & _ & Hr).
  cbn [mbind option_bind].
  rewrite <- Hiq in Hi. rewrite <- Hoq in Ho. rewrite <- Hst in Hf. destruct r as [pos|].
  2: { eexists. split; [done|]. eapply polled_inv; try done. by rewrite Hr. }
  destruct Hr as (sl & Hsl & Htk & _). rewrite <- Hiq in Hsl. unfold InType, in_body. rewrite Hsl. cbn [mbind option_bind].
  assert (good_msg (message_of sl)) as Hg.
  { apply taken_prefix in Hl'. rewrite Forall_forall in Ha. apply Ha.
    rewrite <- (take_drop (length (taken i)) (arrived (host w))), <- Hl', Htk. set_solver. }
  assert (exec_all mem0 (request_of <$> taken i) =
          let '(mem2, o) := exec (mem_array (st w)) (request_of (message_of sl)) in (mem2, out ++ o)) as He'.
  { rewrite Htk, fmap_app. cbn [fmap list_fmap]. by rewrite exec_all_snoc, He. }
  remember (request_of (message_of sl)) as rq eqn:Hrq. unfold request_of in Hrq.
  unfold good_msg, is_request, message_of in *. cbn [m_type m_body] in *.
  destruct (Z.eqb_spec (SimbricksBaseIfInType sl) SIMBRICKS_PROTO_MEM_H2M_MSG_READ) as [Hrd|Hrd].
  { eexists. split; [done|]. split; cbn; try done; [by exists n, m|rewrite Htk; eauto 6|].
    exists out. split; [|done]. rewrite He', Hrq. unfold owed. cbn. rewrite Htk, last_snoc.
    unfold request_of. cbn [m_type m_body]. by rewrite (proj2 (Z.eqb_eq _ _) Hrd). }
  destruct (Z.eqb_spec (SimbricksBaseIfInType sl) SIMBRICKS_PROTO_MEM_H2M_MSG_WRITE) as [Hwr|Hwr].
  { destruct (good_request_fields _ (Hg ltac:(auto))) as (? & ? & ? & ?).
    rewrite mem_store_spec by lia. cbn [mbind option_bind]. eexists. split; [done|].
    split; cbn; try done; [by exists n, m|by rewrite length_written|rewrite Htk; eauto 6|].
    exists out. split; [|done]. rewrite He', Hrq. unfold owed. cbn. rewrite Htk, last_snoc.
    unfold request_of. cbn [m_type m_body]. by rewrite (proj2 (Z.eqb_neq _ _) Hrd), (proj2 (Z.eqb_eq _ _) Hwr). }
  destruct (Z.eqb_spec (SimbricksBaseIfInType sl) SIMBRICKS_PROTO_MEM_H2M_MSG_WRITE_POSTED) as [Hpo|Hpo].
  { destruct (good_request_fields _ (Hg ltac:(auto))) as (? & ? & ? & ?).
    rewrite mem_store_spec by lia. cbn [mbind option_bind].
    eapply finish_inv; try done; [by rewrite length_written|]. rewrite He', Hrq. cbn. by rewrite app_nil_r. }
  eapply finish_inv; try done. rewrite He', Hrq. cbn. by rewrite app_nil_r.
Qed.

Lemma bm_syncing_step w :
  winv w → at_ (st w) = Syncing → ∃ s, step (st w) = Some s ∧ winv (MkWorld s (host w)).
Proof.
  intros [(n & m & Hl) Hi Ho Ha Hs _ (out & He & Hf)] Hat. unfold owed in He. unfold step.
  rewrite Hat in *. cbn in Hl. rewrite app_nil_r in He.
  destruct (OutSync_spec n m _ _ _ (cur_ts (st w)) Hl) as (r & i & new & -> & Hl' & Hiq & Hb & Htk & Hst & Hn & _).
  cbn. eexists. split; [done|]. split; cbn.
  - exists n, m. by destruct (r =? 0).
  - by rewrite Hiq.
  - unfold sized. by rewrite Hb.
  - done.
  - done.
  - unfold in_hand_ok. cbn. by destruct (r =? 0).
  - exists out. rewrite Htk, Hst, answers_app, (answers_sync new Hn), app_nil_r. split; [|done].
    unfold owed. cbn. rewrite He. destruct (r =? 0); by rewrite app_nil_r.
Qed.

(** The answer conveys the response of the abstract memory. *)
Lemma answer_body_spec s x to ts :
  length (mem_array s) = size → length to = sz → good_request (m_body x) →
  m_type x = SIMBRICKS_PROTO_MEM_H2M_MSG_READ ∨ m_type x = SIMBRICKS_PROTO_MEM_H2M_MSG_WRITE →
  ∃ b' ty r, answer_body s (m_type x) (m_body x) to = Some (b', ty) ∧ length b' = sz ∧ ty ∈u 7 ∧
    (exec (mem_array s) (request_of x)).2 = [r] ∧ conveys r (MkMsg b' ts ty) ∧
    ty ≠ SIMBRICKS_PROTO_MSG_TYPE_SYNC.
Proof.
  intros Hs Hto Hg Hty. pose proof Hg as (_ & Hl & _ & Hd).
  destruct (good_request_fields _ Hg) as (Ha & Hlen & Hb & Hid).
  assert (HDR ≤ sz)%nat as Hsz by (unfold HDR in *; lia).
  unfold answer_body, request_of. destruct Hty as [->| ->]; cbn.
  - unfold mem_load. rewrite (proj2 (Z.leb_le _ _)) by lia.
    unfold HDR in *. rewrite memcpy_ok by (rewrite !length_drop; lia). cbn.
    eexists _, _, _. split; [done|]. split_and!; try done.
    + rewrite !length_app, length_le, !length_take, !length_drop. lia.
    + unfold conveys, msg_data, msg_req_id, slice, HDR in *. cbn [m_body m_type]. split; [done|].
      split; [by rewrite field_here|]. rewrite app_assoc, drop_app_length'.
      2: { rewrite length_app, length_le, length_take, length_drop. lia. }
      rewrite !length_take, length_drop, Hs, take_app_le by (rewrite length_take, length_drop; lia).
      rewrite take_take. f_equal. lia.
  - eexists _, _, _. split; [done|]. split_and!; try done.
    + rewrite length_app, length_le, length_drop. unfold HDR in *. lia.
    + unfold conveys, msg_req_id in *. cbn [m_body]. split; [done|]. by rewrite field_here.
Qed.

Lemma answering_step w pos :
  winv w → at_ (st w) = Answering pos → ∃ s, step (st w) = Some s ∧ winv (MkWorld s (host w)).
Proof.
  intros Hw Hat. pose proof Hw as [(n & m & Hl) Hi Ho Ha Hs Hh (out & He & Hf)].
  unfold owed, in_hand_ok, step in *. rewrite Hat in *. cbn in Hl. unfold send_answer.
  destruct Hh as (l & x & Htk & Hty). rewrite Htk, last_snoc in He.
  assert (good_request (m_body x)) as Hg.
  { apply (bm_taken_good w x l Hw Htk). unfold is_request. tauto. }
  destruct (OutAlloc_spec n m _ _ _ (cur_ts (st w)) Hl) as (r & i & -> & Hl1 & Hiq & Hb & Htk1 & Hst1 & _ & Hr).
  cbn. assert (sized (out_q i)) as Ho1 by (unfold sized; by rewrite Hb). destruct r as [p|].
  2: { subst i. eexists. split; [done|]. split; cbn; try done; [by exists n, m|unfold in_hand_ok; cbn; by exists l, x|].
       exists out. unfold owed. cbn. by rewrite Htk, last_snoc. }
  destruct Hr as (sl & Hsl & _).
  destruct (in_hand n m _ _ _ _ Hl1) as (sx & l' & Hsx & Htx). rewrite Htk1, Htk in Htx.
  apply app_inj_tail in Htx as [_ Hx]. unfold InType, in_body, out_body. rewrite Hsx, Hsl. cbn.
  assert (length (body sl) = sz) as Hlb.
  { eapply (Forall_lookup_1 _ _ (Z.to_nat p) _ Ho1). unfold bodies, slot_at in *. by rewrite list_lookup_fmap, Hsl. }
  destruct (answer_body_spec (st w) x (body sl) (timestamp sl) Hs Hlb Hg Hty) as
    (b' & ty & resp & Hab & Hlb' & Hty7 & Hresp & Hconv & Hns).
  rewrite Hx in Hab. cbn in Hab. rewrite Hab. cbn.
  destruct (OutSend_spec n m _ _ _ _ b' ty Hl1 Hty7) as
    (s2 & i2 & i3 & Hs2 & Hfl & Hsd & Hl3 & Hiq3 & Hb3 & Htk3 & Hst3 & _).
  rewrite Hfl. cbn. rewrite Hsd. cbn. assert (s2 = sl) as -> by congruence.
  eapply (finish_inv _ _ _ _ _ _ (out ++ [resp])); try done.
  - by rewrite Hiq3, Hiq.
  - unfold sized. rewrite Hb3. by apply Forall_insert.
  - by rewrite Htk3, Htk1, Htk, He, Hresp.
  - rewrite Hst3, Hst1, answers_app. apply Forall2_app; [done|]. unfold answers.
    rewrite filter_cons_True by done. by repeat constructor.
Qed.

Lemma bm_world_run_inv es : ∀ w, winv w → good_run w es → ∃ w', world_run w es = Some w' ∧ winv w'.
Proof.
  induction es as [|e es IH]; intros w Hw Hr; cbn; [by eauto|]. destruct Hr as [He Hr].
  assert (∃ w', world_step w e = Some w' ∧ winv w') as (w' & E & Hw').
  { destruct e as [|a]; [|by apply host_world]. cbn.
    assert (∃ s, step (st w) = Some s ∧ winv (MkWorld s (host w))) as (s & -> & Hs); [|by eexists].
    destruct (at_ (st w)) eqn:Hat; [by apply bm_syncing_step|by apply bm_polling_step|by eapply answering_step]. }
  rewrite E. by apply IH, Hr.
Qed.

End correct.

(** ** The theorem *)

(** Rings of [n] entries, and the memory at the start. *)
Definition init_world (sz n : nat) (sync : bool) (p : Params) (mem0 : bytes) : world :=
  MkWorld (MkState (new_iface n sz sync p) mem0 0 0 Syncing) (new_peer n sz sync p).

Lemma bm_init_winv sz n sync p mem0 :
  0 < Z.of_nat n < 2 ^ 64 → winv sz (length mem0) mem0 (init_world sz n sync p mem0).
Proof.
  intros Hn. split; cbn; try done; [eexists _, _; by apply new_linked| | |by exists []];
    unfold sized; rewrite bodies_zero_ring; apply Forall_replicate, length_replicate.
Qed.

(** C21: The memory simulator is a memory, for requests that lie within the memory and whose data
    fits a ring entry (others are undefined behaviour, see [read_outside_undefined]). Over the
    shared-memory rings and under every interleaving with the host nothing is undefined; the
    requests taken are those sent, in order; the array is what executing them one after the other
    makes of it; and the host gets their responses, each once and in order, every read with the
    bytes of the array at its place in the order. At most the answer to the request in hand is
    outstanding. *)
Theorem basicmem_refines sz n sync p mem0 es :
  0 < Z.of_nat n < 2 ^ 64 →
  good_run sz (length mem0) (init_world sz n sync p mem0) es →
  ∃ w, world_run (init_world sz n sync p mem0) es = Some w ∧
    taken (memif (st w)) `prefix_of` arrived (host w) ∧
    picked (host w) `prefix_of` sent (memif (st w)) ∧
    ∃ out, exec_all mem0 (request_of <$> taken (memif (st w))) = (mem_array (st w), out ++ owed (st w)) ∧
           Forall2 conveys out (answers (sent (memif (st w)))).
Proof.
  intros Hn Hr.
  destruct (bm_world_run_inv sz (length mem0) mem0 es _ (bm_init_winv sz n sync p mem0 Hn) Hr) as (w & E & Hw).
  exists w. split; [done|]. pose proof Hw as [(k & m & Hl) _ _ _ _ _ Hm]. split_and!; [| |done].
  - rewrite (taken_prefix k m _ _ _ _ Hl). apply prefix_take.
  - destruct Hl as [_ []]. cbn in *. rewrite i_recv0. apply prefix_take.
Qed.

(** The abstract memory keeps what was written until something is written over it. *)
Lemma written_lookup mem addr data j :
  written mem addr data !! j =
  (λ x, if (Z.to_nat addr <=? j)%nat then nth (j - Z.to_nat addr) data x else x) <$> mem !! j.
Proof. unfold written. by rewrite list_lookup_imap. Qed.

Definition disjoint_from (addr len : Z) (r : request) : Prop :=
  match r with
  | Write _ a d _ => 0 ≤ a ∧ (a + Z.of_nat (length d) ≤ addr ∨ addr + len ≤ a)
  | _ => True
  end.

Lemma exec_all_keeps l addr len : ∀ mem j,
  0 ≤ addr → Forall (disjoint_from addr len) l → addr ≤ Z.of_nat j < addr + len →
  (exec_all mem l).1 !! j = mem !! j.
Proof.
  induction l as [|r l IH]; intros mem j Ha Hl Hj; cbn; [done|]. apply Forall_cons in Hl as [Hr Hl].
  destruct (exec mem r) as [mem1 o] eqn:E. specialize (IH mem1 j Ha Hl Hj).
  destruct (exec_all mem1 l) as [mem2 os]. cbn in *. rewrite IH.
  destruct r as [id a k|id a d po|]; cbn in E; simplify_eq; try done. rewrite written_lookup.
  destruct (mem !! j) as [x|]; [|done]. cbn. f_equal. cbn in Hr.
  destruct (Nat.leb_spec (Z.to_nat a) j); [|done]. apply nth_overflow. lia.
Qed.

Theorem read_back mem id addr data posted l id' :
  0 ≤ addr → addr + Z.of_nat (length data) ≤ Z.of_nat (length mem) →
  Forall (disjoint_from addr (Z.of_nat (length data))) l →
  last (exec_all mem (Write id addr data posted :: l ++ [Read id' addr (Z.of_nat (length data))])).2 =
  Some (ReadComp id' data).
Proof.
  intros Ha Hb Hl. cbn. set (mem1 := written mem addr data).
  pose proof (exec_all_keeps l addr (Z.of_nat (length data)) mem1) as Hk.
  rewrite exec_all_snoc. destruct (exec_all mem1 l) as [mem2 os]. cbn in *.
  rewrite app_assoc, last_snoc. do 2 f_equal. apply list_eq. intros k. unfold slice.
  destruct (decide (k < length data)%nat) as [Hlt|Hge].
  - rewrite lookup_take_lt, lookup_drop by lia. rewrite Hk; [|done|done|lia].
    subst mem1. rewrite written_lookup.
    destruct (lookup_lt_is_Some_2 mem (Z.to_nat addr + k)) as [x ->]; [lia|]. cbn.
    rewrite (proj2 (Nat.leb_le _ _)) by lia.
    destruct (lookup_lt_is_Some_2 data k Hlt) as [y Hy]. rewrite Hy. f_equal.
    apply nth_lookup_Some. rewrite <- Hy. f_equal. lia.
  - rewrite lookup_take_ge, (lookup_ge_None_2 data) by lia. done.
Qed.

(** ** Examples *)

Definition good_eventb (sz size : nat) (w : world) (e : event) : bool :=
  match e with
  | Step => true
  | Host a =>
      match a with
      | PAlloc _ | PSync _ => bool_decide (p_alloc (host w) = None)
      | PSend b ty =>
          negb (bool_decide (p_alloc (host w) = None)) && bool_decide (ty ∈u 7) &&
          is_bytesb b && bool_decide (length b = sz) &&
          bool_decide (msg_addr b + msg_len b ≤ Z.of_nat size) &&
          bool_decide (Z.of_nat HDR + msg_len b ≤ Z.of_nat sz)
      | CPoll _ => bool_decide (p_poll (host w) = None)
      | CDone => negb (bool_decide (p_poll (host w) = None))
      end
  end.

Lemma bm_good_eventb_sound sz size w e : good_eventb sz size w e = true → good_event sz size w e.
Proof.
  destruct e as [|a]; [done|]. cbn. intros H.
  destruct a; rewrite ?andb_true_iff, ?negb_true_iff, ?bool_decide_eq_true, ?bool_decide_eq_false in H;
    [done| |done..]. destruct H as [[[[[? ?] ?%is_bytesb_sound] ?] ?] ?].
  split; [done|]. split; [done|]. by intros _.
Qed.

Fixpoint good_runb (sz size : nat) (w : world) (es : list event) : bool :=
  match es with
  | [] => true
  | e :: es => good_eventb sz size w e &&
               match world_step w e with Some w => good_runb sz size w es | None => true end
  end.

Lemma bm_good_runb_sound sz size es : ∀ w, good_runb sz size w es = true → good_run sz size w es.
Proof.
  induction es as [|e es IH]; intros w; cbn; [done|]. rewrite andb_true_iff.
  intros [He%bm_good_eventb_sound Hr]. split; [done|]. intros w' Hw. rewrite Hw in Hr. by apply IH.
Qed.

Definition demo_size : nat := 56.
Definition demo_mem : bytes := replicate 32 0.
Definition demo_params : Params := MkParams 500 500 SyncOptional.
Definition demo_world : world := init_world demo_size 4 true demo_params demo_mem.

(** A request with its data, in an entry. *)
Definition demo_request (id addr len : Z) (data : bytes) : bytes :=
  le 8 id ++ le 8 0 ++ le 8 addr ++ le 2 len ++ replicate 22 0 ++ data ++ replicate (8 - length data) 0.

(** A write, a posted write over part of it, and a read of both. *)
Definition demo_events : list event :=
  [Host (PAlloc 0); Host (PSend (demo_request 7 10 4 [1; 2; 3; 4]) 0x61)] ++ replicate 12 Step ++
  [Host (CPoll 1000); Host CDone; Host (CPoll 1000); Host CDone;
   Host (PAlloc 600); Host (PSend (demo_request 8 12 1 [9]) 0x62);
   Host (PAlloc 700); Host (PSend (demo_request 9 10 4 []) 0x60)] ++ replicate 20 Step ++
  [Host (CPoll 2000); Host CDone] ++ replicate 8 Step.

Lemma demo_answers :
  (λ w, (λ x, (m_type x, msg_req_id (m_body x), take 4 (msg_data (m_body x)))) <$>
        answers (sent (memif (st w)))) <$> world_run demo_world demo_events =
  Some [(SIMBRICKS_PROTO_MEM_M2H_MSG_WRITECOMP, 7, [0; 0; 0; 0]);
        (SIMBRICKS_PROTO_MEM_M2H_MSG_READCOMP, 9, [1; 2; 9; 4])].
Proof. by vm_compute. Qed.

Lemma basicmem_refines_witness :
  ∃ w, world_run demo_world demo_events = Some w ∧
    taken (memif (st w)) `prefix_of` arrived (host w) ∧
    picked (host w) `prefix_of` sent (memif (st w)) ∧
    ∃ out, exec_all demo_mem (request_of <$> taken (memif (st w))) =
             (mem_array (st w), out ++ owed (st w)) ∧
           Forall2 conveys out (answers (sent (memif (st w)))).
Proof.
  apply (basicmem_refines demo_size 4 true demo_params demo_mem demo_events); [done|].
  apply bm_good_runb_sound. by vm_compute.
Defined.

(** An address is not checked: a read past the end of the array is undefined. *)
Theorem read_outside_undefined :
  world_run demo_world
    ([Host (PAlloc 0); Host (PSend (demo_request 7 30 4 []) 0x60)] ++ replicate 12 Step) = None.
Proof. by vm_compute. Qed.

End basicmem.
