(* ===== verification/RemoteMem.v ===== *)
(** * Memory over the network (sims/mem/memnic/memnic.c, netmem/netmem.c, memswitch/memswitch.cc)

    A memory NIC turns the requests of a host into packets, the memory switch translates the
    address of a request and chooses the node, and a network memory executes it and answers with
    a packet that the memory NIC turns into a completion.  Here are the packets, what each of the
    programs makes of one, and the loops of the two ends; MemSwitch.v has the ports of the switch
    and the whole way there and back.  The two theorems at the end show how the rings are left
    when a message cannot be passed on. *)

From S2P Require Import Prelude.
From S2P Require Import BaseIf.
From S2P Require Import BaseChannel.
From S2P Require Import TypedIf.
From S2P Require Import BasicMem.

Module remote_mem.
Import base channel typed basicmem.

(** ** Stores into a message *)

(** What an assignment stores: an integer of [n] bytes, the result of [htons], or [n] bytes
    copied from [src]. *)
Inductive val := LE (n : nat) (x : Z) | BE16 (x : Z) | Copy (n : nat) (src : bytes).

Definition size (v : val) : nat := match v with LE n _ => n | BE16 _ => 2 | Copy n _ => n end.

Definition val_bytes (v : val) : bytes :=
  match v with
  | LE n x => le n x
  | BE16 x => [u8 (x / 256); u8 x]
  | Copy n src => take n src
  end.

Definition readable (v : val) : bool := match v with Copy n src => (n <=? length src)%nat | _ => true end.

(** [None]: outside the message, or a copy that reads past its source. *)
Definition store (b : bytes) (x : nat * val) : option bytes :=
  if readable x.2 && (x.1 + size x.2 <=? length b)%nat then Some (patch b x.1 (val_bytes x.2)) else None.

Fixpoint stores (b : bytes) (l : list (nat * val)) : option bytes :=
  match l with [] => Some b | x :: l => b ← store b x; stores b l end.

(** ** Packets: Ethernet, IP, UDP, [struct MemOp] (netproto.h), data *)

(** Offsets in the message, after its header of 48 bytes. *)
Definition ETH : nat := 48.
Definition IPH : nat := 62.
Definition UDP : nat := 82.
Definition MEMOP : nat := 90.
Definition DATA : nat := 154.

Definition pkt_len_off : nat := 0.
Definition h_dest : nat := ETH.
Definition h_source : nat := ETH + 6.
Definition h_proto : nat := ETH + 12.
Definition tot_len : nat := IPH + 2.
Definition saddr : nat := IPH + 12.
Definition daddr : nat := IPH + 16.
Definition uh_sport : nat := UDP.
Definition uh_dport : nat := UDP + 2.
Definition uh_ulen : nat := UDP + 4.
Definition uh_sum : nat := UDP + 6.
Definition op_type : nat := MEMOP.
Definition op_req_id : nat := MEMOP + 1.
Definition op_addr : nat := MEMOP + 9.
Definition op_len : nat := MEMOP + 17.
Definition op_as_id : nat := MEMOP + 19.

Definition ETH_P_IP : Z := 0x0800.
Definition msg_as_id (b : bytes) : Z := field b 8 8.

(** ** The memory NIC *)

(** [ForwardToETH]: the packet written into the entry [to] for the request [b]. *)
Definition ForwardToETH (mac : bytes) (ip_addr src_port dest_port : Z) (b : bytes) (type : Z)
    (to : bytes) : option bytes :=
  let len := msg_len b in
  let extra := if type =? SIMBRICKS_PROTO_MEM_H2M_MSG_WRITE then len else 0 in
  stores to
    ([(h_source, Copy 6 mac); (h_dest, LE 6 0xFFFFFFFFFFFF); (h_proto, BE16 ETH_P_IP);
      (daddr, LE 4 0xFFFFFFFF); (saddr, LE 4 ip_addr); (tot_len, BE16 (u16 (20 + 8 + 64 + extra)));
      (uh_sport, LE 2 src_port); (uh_dport, LE 2 dest_port); (uh_ulen, LE 2 (8 + 64 + extra));
      (uh_sum, LE 2 0); (pkt_len_off, LE 2 (14 + 20 + 8 + 64))] ++
     (if (type =? SIMBRICKS_PROTO_MEM_H2M_MSG_READ) || (type =? SIMBRICKS_PROTO_MEM_H2M_MSG_WRITE) then
        [(op_type, LE 1 type); (op_req_id, LE 8 (msg_req_id b)); (op_as_id, LE 8 (msg_as_id b));
         (op_addr, LE 8 (msg_addr b)); (op_len, LE 2 len)]
      else []) ++
     (if type =? SIMBRICKS_PROTO_MEM_H2M_MSG_WRITE then
        [(DATA, Copy (Z.to_nat len) (msg_data b)); (pkt_len_off, LE 2 (14 + 20 + 8 + 64 + len))]
      else [])).

(** [ForwardToMEM]: the completion written into the entry [to] for the packet [p], with its type.
    [Some None]: the type is not known and the entry is not sent. *)
Definition ForwardToMEM (p to : bytes) : option (option (bytes * Z)) :=
  let type := field p op_type 1 in
  if type =? SIMBRICKS_PROTO_MEM_M2H_MSG_READCOMP then
    b ← stores to [(0%nat, LE 8 (field p op_req_id 8));
                   (HDR, Copy (Z.to_nat (field p op_len 2)) (drop DATA p))];
    Some (Some (b, type))
  else if type =? SIMBRICKS_PROTO_MEM_M2H_MSG_WRITECOMP then
    b ← stores to [(0%nat, LE 8 (field p op_req_id 8))];
    Some (Some (b, type))
  else Some None.

(** ** The memory switch *)

Record table_entry := MkEntry {
  as_id : Z; vaddr_start : Z; vaddr_end : Z; node_mac : bytes; phys_start : Z }.

Definition entry_matches (e : table_entry) (as' addr : Z) : bool :=
  (as' =? as_id e) && (vaddr_start e <=? addr) && (addr <=? vaddr_end e).

Definition phys_addr (e : table_entry) (addr : Z) : Z := u64 (phys_start e + u64 (addr - vaddr_start e)).

Definition find_entry (t : list table_entry) (as' addr : Z) : option table_entry :=
  snd <$> list_find (λ e, entry_matches e as' addr = true) t.

(** The loop of [switch_pkt] over [map_table]: the packet is changed in place.  [Some None]: no
    entry, and nothing is sent. *)
Definition translate (t : list table_entry) (p : bytes) : option (option bytes) :=
  match find_entry t (field p op_as_id 8) (field p op_addr 8) with
  | None => Some None
  | Some e => p ← stores p [(op_addr, LE 8 (phys_addr e (field p op_addr 8))); (h_dest, Copy 6 (node_mac e))];
              Some (Some p)
  end.

(** ** The network memory *)

(** [HandleRequest]: the answer written into the entry [to] for the packet [p], and the
    memory.  For another type the type of the answer is what the entry held before. *)
Definition HandleRequest (mem mac : bytes) (ip_addr : Z) (p to : bytes) : option (bytes * bytes) :=
  let type := field p op_type 1 in
  let len := field p op_len 2 in
  let addr := field p op_addr 8 in
  let extra := if type =? SIMBRICKS_PROTO_MEM_H2M_MSG_READ then len else 0 in
  to ← stores to
    [(h_proto, Copy 2 (drop h_proto p)); (h_dest, Copy 6 (drop h_source p)); (h_source, Copy 6 mac);
     (saddr, LE 4 ip_addr); (daddr, Copy 4 (drop saddr p)); (tot_len, BE16 (u16 (20 + 8 + 64 + extra)));
     (uh_sport, Copy 2 (drop uh_dport p)); (uh_dport, Copy 2 (drop uh_sport p));
     (uh_ulen, LE 2 (8 + 64 + extra)); (pkt_len_off, LE 2 (14 + 20 + 8 + 64));
     (op_req_id, LE 8 (field p op_req_id 8)); (op_as_id, LE 8 (field p op_as_id 8));
     (op_addr, LE 8 addr); (op_len, LE 2 len)];
  if type =? SIMBRICKS_PROTO_MEM_H2M_MSG_READ then
    if addr + len <=? Z.of_nat (length mem) then
      to ← stores to [(op_type, LE 1 SIMBRICKS_PROTO_MEM_M2H_MSG_READCOMP);
                      (DATA, Copy (Z.to_nat len) (drop (Z.to_nat addr) mem));
                      (pkt_len_off, LE 2 (14 + 20 + 8 + 64 + len))];
      Some (to, mem)
    else None
  else if type =? SIMBRICKS_PROTO_MEM_H2M_MSG_WRITE then
    mem ← mem_store mem (drop DATA p) addr len;
    to ← stores to [(op_type, LE 1 SIMBRICKS_PROTO_MEM_M2H_MSG_WRITECOMP)];
    Some (to, mem)
  else Some (to, mem).

(** ** The programs on their rings *)

(** [netmem.c]: [None] is undefined behaviour. *)
Record netmem := MkNetmem {
  nm_if : iface; nm_mem : bytes; nm_mac : bytes; nm_ip : Z;
  nm_sync : bool; nm_cur_ts : Z; nm_next_ts : Z; nm_syncing : bool }.

Definition nm_set (s : netmem) (i : iface) (mem : bytes) : netmem :=
  MkNetmem i mem (nm_mac s) (nm_ip s) (nm_sync s) (nm_cur_ts s) (nm_next_ts s) (nm_syncing s).

(** [PollN2M]: without an entry for the answer, [HandleRequest] returns 0 and the request is
    neither executed nor handed back. *)
Definition netmem_PollN2M (s : netmem) : option netmem :=
  '(r, i) ← InPoll (nm_if s) (nm_cur_ts s);
  match r with
  | None => Some (nm_set s i (nm_mem s))
  | Some pos =>
      type ← InType i pos;
      if type =? 0x40 then
        p ← in_body i pos;
        '(msg_to, i) ← OutAlloc i (nm_cur_ts s);
        match msg_to with
        | None => Some (nm_set s i (nm_mem s))
        | Some o =>
            to ← out_body i o;
            '(b, mem) ← HandleRequest (nm_mem s) (nm_mac s) (nm_ip s) p to;
            i ← out_fill i o b;
            i ← OutSend i o 0x40;
            i ← InDone i pos;
            Some (nm_set s i mem)
        end
      else i ← InDone i pos; Some (nm_set s i (nm_mem s))
  end.

(** One turn of the loops of [main]. *)
Definition netmem_step (s : netmem) : option netmem :=
  if nm_syncing s then
    '(r, i) ← OutSync (nm_if s) (nm_cur_ts s);
    Some (MkNetmem i (nm_mem s) (nm_mac s) (nm_ip s) (nm_sync s) (nm_cur_ts s) (nm_next_ts s) (negb (r =? 0)))
  else
    s ← netmem_PollN2M s;
    let next := if nm_sync s then InTimestamp (nm_if s) else nm_next_ts s in
    let again := next <=? nm_cur_ts s in
    Some (MkNetmem (nm_if s) (nm_mem s) (nm_mac s) (nm_ip s) (nm_sync s)
            (if again then nm_cur_ts s else next) next (negb again)).

(** [memnic.c] *)
Record memnic := MkMemnic {
  mn_mem : iface; mn_net : iface; mn_mac : bytes; mn_ip : Z; mn_src_port : Z; mn_dest_port : Z;
  mn_cur_ts : Z; mn_syncing : bool }.

Definition mn_set (s : memnic) (m n : iface) : memnic :=
  MkMemnic m n (mn_mac s) (mn_ip s) (mn_src_port s) (mn_dest_port s) (mn_cur_ts s) (mn_syncing s).

(** [ForwardToETH] with its entry: without one the request is dropped. *)
Definition forward_eth (s : memnic) (n : iface) (b : bytes) (type : Z) : option iface :=
  '(r, n) ← OutAlloc n (mn_cur_ts s);
  match r with
  | None => Some n
  | Some o =>
      to ← out_body n o;
      p ← ForwardToETH (mn_mac s) (mn_ip s) (mn_src_port s) (mn_dest_port s) b type to;
      n ← out_fill n o p;
      OutSend n o 0x40
  end.

Definition memnic_PollH2M (s : memnic) : option memnic :=
  '(r, m) ← InPoll (mn_mem s) (mn_cur_ts s);
  match r with
  | None => Some (mn_set s m (mn_net s))
  | Some pos =>
      type ← InType m pos;
      b ← in_body m pos;
      n ← (if (type =? SIMBRICKS_PROTO_MEM_H2M_MSG_READ) || (type =? SIMBRICKS_PROTO_MEM_H2M_MSG_WRITE)
           then forward_eth s (mn_net s) b type else Some (mn_net s));
      m ← InDone m pos;
      Some (mn_set s m n)
  end.

(** [ForwardToMEM] with its entry: an entry for a packet of an unknown type is never sent. *)
Definition forward_mem (s : memnic) (m : iface) (p : bytes) : option iface :=
  '(r, m) ← OutAlloc m (mn_cur_ts s);
  match r with
  | None => Some m
  | Some o =>
      to ← out_body m o;
      c ← ForwardToMEM p to;
      match c with
      | Some (b, ty) => m ← out_fill m o b; OutSend m o ty
      | None => Some m
      end
  end.

Definition memnic_PollN2M (s : memnic) : option memnic :=
  '(r, n) ← InPoll (mn_net s) (mn_cur_ts s);
  match r with
  | None => Some (mn_set s (mn_mem s) n)
  | Some pos =>
      type ← InType n pos;
      p ← in_body n pos;
      m ← (if type =? 0x40 then forward_mem s (mn_mem s) p else Some (mn_mem s));
      n ← InDone n pos;
      Some (mn_set s m n)
  end.

(** [SimbricksMemNicIfSync] *)
Definition memnic_sync (s : memnic) : option (bool * memnic) :=
  '(r, m) ← OutSync (mn_mem s) (mn_cur_ts s);
  if r =? 0 then
    '(r, n) ← OutSync (mn_net s) (mn_cur_ts s);
    Some (r =? 0, mn_set s m n)
  else Some (false, mn_set s m (mn_net s)).

Definition memnic_step (s : memnic) : option memnic :=
  if mn_syncing s then
    '(ok, s) ← memnic_sync s;
    Some (MkMemnic (mn_mem s) (mn_net s) (mn_mac s) (mn_ip s) (mn_src_port s) (mn_dest_port s)
            (mn_cur_ts s) (negb ok))
  else
    s ← memnic_PollH2M s;
    s ← memnic_PollN2M s;
    let ts_mem := InTimestamp (mn_mem s) in
    let ts_net := InTimestamp (mn_net s) in
    let again := (ts_mem <=? mn_cur_ts s) || (ts_net <=? mn_cur_ts s) in
    Some (MkMemnic (mn_mem s) (mn_net s) (mn_mac s) (mn_ip s) (mn_src_port s) (mn_dest_port s)
            (if again then mn_cur_ts s else Z.min ts_mem ts_net) (negb again)).

(** ** Reading back what was stored *)

Lemma length_val_bytes v : readable v = true → length (val_bytes v) = size v.
Proof.
  destruct v as [n x|x|n src]; cbn [readable val_bytes size]; intros H; [apply length_le|done|].
  apply Nat.leb_le in H. by apply length_take_le.
Qed.

Lemma rm_store_Some b x b' :
  store b x = Some b' →
  readable x.2 = true ∧ (x.1 + size x.2 ≤ length b)%nat ∧ b' = patch b x.1 (val_bytes x.2) ∧
  length b' = length b.
Proof.
  unfold store. destruct (readable x.2) eqn:Hr; [|done].
  destruct (Nat.leb_spec (x.1 + size x.2) (length b)); [|done]. cbn. intros [= <-].
  split_and!; try done. apply length_patch. by rewrite length_val_bytes.
Qed.

Lemma stores_length l : ∀ b b', stores b l = Some b' → length b' = length b.
Proof.
  induction l as [|x l IH]; intros b b'; cbn [stores]; [by intros [= <-]|].
  destruct (store b x) as [b1|] eqn:E; [|done]. cbn. intros H%IH. apply rm_store_Some in E as (_ & _ & _ & ?).
  congruence.
Qed.

Lemma stores_defined l : ∀ b,
  Forall (λ x, readable x.2 = true ∧ (x.1 + size x.2 ≤ length b)%nat) l → ∃ b', stores b l = Some b'.
Proof.
  induction l as [|x l IH]; intros b Hl; cbn [stores]; [by eexists|].
  apply Forall_cons in Hl as [[Hr Hb] Hl]. unfold store. rewrite Hr, (proj2 (Nat.leb_le _ _) Hb). cbn.
  apply IH. eapply Forall_impl; [done|]. cbn. intros y [? ?]. rewrite length_patch; [done|].
  by rewrite length_val_bytes.
Qed.

(** The value at [o], if the last store that touches the [n] bytes there is one of just them. *)
Inductive seen := Untouched | Stored (v : val) | Mixed.

Fixpoint look (l : list (nat * val)) (o n : nat) : seen :=
  match l with
  | [] => Untouched
  | (off, v) :: l =>
      match look l o n with
      | Untouched =>
          if (off =? o)%nat && (size v =? n)%nat then Stored v
          else if (o + n <=? off)%nat || (off + size v <=? o)%nat then Untouched else Mixed
      | r => r
      end
  end.

Lemma look_spec l o n : ∀ b b',
  stores b l = Some b' →
  match look l o n with
  | Untouched => slice b' o n = slice b o n
  | Stored v => slice b' o n = val_bytes v
  | Mixed => True
  end.
Proof.
  induction l as [|[off v] l IH]; intros b b'; cbn [stores look]; [by intros [= <-]|].
  destruct (store b (off, v)) as [b1|] eqn:E; [|done]. cbn [mbind option_bind]. intros H%IH.
  apply rm_store_Some in E as (Hr & Hb & -> & Hl). cbn in *. pose proof (length_val_bytes v Hr) as Hv.
  destruct (look l o n); [|done..]. rewrite H.
  destruct (Nat.eqb_spec off o) as [->|Ho]; cbn [andb].
  - destruct (Nat.eqb_spec (size v) n) as [<-|Hn]; [apply slice_patch_same; lia|].
    destruct (_ || _) eqn:Hd; [|done]. apply orb_true_iff in Hd as [Hd|Hd]; apply Nat.leb_le in Hd;
      [apply slice_patch_before|apply slice_patch_after]; lia.
  - destruct (_ || _) eqn:Hd; [|done]. apply orb_true_iff in Hd as [Hd|Hd]; apply Nat.leb_le in Hd;
      [apply slice_patch_before|apply slice_patch_after]; lia.
Qed.

Lemma look_stored b l b' o n v : stores b l = Some b' → look l o n = Stored v → slice b' o n = val_bytes v.
Proof. intros Hs Hlk. pose proof (look_spec l o n b b' Hs) as H. by rewrite Hlk in H. Qed.

Lemma look_field b l b' o n x w :
  stores b l = Some b' → look l o n = Stored (LE n x) → w = 8 * Z.of_nat n → x ∈u w → field b' o n = x.
Proof.
  intros Hs Hlk -> Hx. unfold field. rewrite (look_stored _ _ _ _ _ _ Hs Hlk). cbn. by apply le_val_le_fits with (8 * Z.of_nat n).
Qed.

Lemma look_slice b l b' o n : stores b l = Some b' → look l o n = Untouched → slice b' o n = slice b o n.
Proof. intros Hs Hlk. pose proof (look_spec l o n b b' Hs) as H. by rewrite Hlk in H. Qed.

Lemma look_untouched b l b' o n : stores b l = Some b' → look l o n = Untouched → field b' o n = field b o n.
Proof.
  intros Hs Hlk. unfold field. by rewrite (look_slice _ _ _ _ _ Hs Hlk).
Qed.

(** ** Stage by stage *)

(** The operation a packet carries. *)
Record op := MkOp { o_type : Z; o_id : Z; o_as : Z; o_addr : Z; o_len : Z }.

Definition op_of (p : bytes) : op :=
  MkOp (field p op_type 1) (field p op_req_id 8) (field p op_as_id 8) (field p op_addr 8) (field p op_len 2).

(** The operation of a request on the ring of the host. *)
Definition op_of_request (b : bytes) (type : Z) : op :=
  MkOp type (msg_req_id b) (msg_as_id b) (msg_addr b) (msg_len b).

Definition rw (type : Z) : Prop :=
  type = SIMBRICKS_PROTO_MEM_H2M_MSG_READ ∨ type = SIMBRICKS_PROTO_MEM_H2M_MSG_WRITE.

(** Ethernet, IP and UDP headers and [struct MemOp]. *)
Definition headers : Z := 14 + 20 + 8 + 64.
(** The destination of a request before the switch has chosen a node. *)
Definition everyone : bytes := le 6 0xFFFFFFFFFFFF.

(** Every store of a list is within a message of the given length. *)
Local Ltac in_bounds :=
  unfold pkt_len_off, h_dest, h_source, h_proto, tot_len, saddr, daddr, uh_sport, uh_dport, uh_ulen, uh_sum,
    op_type, op_req_id, op_addr, op_len, op_as_id, ETH, IPH, UDP, MEMOP, DATA, HDR in *;
  cbn [fst snd size readable] in *;
  first [reflexivity | match goal with |- _ = true => apply Nat.leb_le | _ => idtac end; rewrite ?length_drop; lia].

Local Ltac defined :=
  apply stores_defined; unfold SIMBRICKS_PROTO_MEM_H2M_MSG_READ, SIMBRICKS_PROTO_MEM_H2M_MSG_WRITE;
  cbn [Z.eqb Pos.eqb orb app];
  repeat (apply Forall_cons; split; [split; in_bounds|]); apply Forall_nil; done.

Lemma ForwardToETH_spec mac ip sp dp b type to :
  is_bytes b → rw type → (6 ≤ length mac)%nat → Z.of_nat DATA + msg_len b ≤ Z.of_nat (length to) →
  Z.of_nat HDR + msg_len b ≤ Z.of_nat (length b) → headers + msg_len b ∈u 16 →
  ∃ p, ForwardToETH mac ip sp dp b type to = Some p ∧ length p = length to ∧
    op_of p = op_of_request b type ∧
    field p pkt_len_off 2 = headers + (if type =? SIMBRICKS_PROTO_MEM_H2M_MSG_WRITE then msg_len b else 0) ∧
    slice p h_source 6 = take 6 mac ∧ slice p h_dest 6 = everyone ∧
    (type = SIMBRICKS_PROTO_MEM_H2M_MSG_WRITE →
     slice p DATA (Z.to_nat (msg_len b)) = slice b HDR (Z.to_nat (msg_len b))).
Proof.
  intros Hb Hty Hm Hto Hd Hn.
  pose proof (field_fits b 0 8 64 ltac:(done) Hb : msg_req_id b ∈u 64) as H1.
  pose proof (field_fits b 8 8 64 ltac:(done) Hb : msg_as_id b ∈u 64) as H2.
  pose proof (field_fits b 16 8 64 ltac:(done) Hb : msg_addr b ∈u 64) as H3.
  pose proof (field_fits b 24 2 16 ltac:(done) Hb : msg_len b ∈u 16) as H4.
  pose proof H4 as [H5 _]. unfold ForwardToETH. unfold msg_data in *.
  destruct Hty as [->| ->].
  - match goal with |- context [stores to ?l] => assert (∃ p, stores to l = Some p) as [p Hp] by defined end.
    exists p. split; [done|]. split; [by eapply stores_length|].
    split; [unfold op_of, op_of_request; f_equal; by eapply look_field|].
    split; [by eapply look_field|]. split; [by apply (look_stored _ _ _ _ _ (Copy 6 mac) Hp)|].
    split; [by apply (look_stored _ _ _ _ _ (LE 6 0xFFFFFFFFFFFF) Hp)|done].
  - match goal with |- context [stores to ?l] => assert (∃ p, stores to l = Some p) as [p Hp] by defined end.
    exists p. split; [done|]. split; [by eapply stores_length|].
    split; [unfold op_of, op_of_request; f_equal; by eapply look_field|].
    split; [by eapply look_field|]. split; [by apply (look_stored _ _ _ _ _ (Copy 6 mac) Hp)|].
    split; [by apply (look_stored _ _ _ _ _ (LE 6 0xFFFFFFFFFFFF) Hp)|].
    intros _. apply (look_stored _ _ _ _ _ (Copy (Z.to_nat (msg_len b)) (drop HDR b)) Hp).
      cbn. by rewrite Nat.eqb_refl.
Qed.

Lemma phys_addr_fits e a : phys_addr e a ∈u 64.
Proof. by apply wrap_fits. Qed.

(** The switch changes the address and the destination only. *)
Lemma translate_spec t p o e :
  op_of p = o → find_entry t (o_as o) (o_addr o) = Some e → (6 ≤ length (node_mac e))%nat →
  (DATA ≤ length p)%nat →
  ∃ p', translate t p = Some (Some p') ∧ length p' = length p ∧
    op_of p' = MkOp (o_type o) (o_id o) (o_as o) (phys_addr e (o_addr o)) (o_len o) ∧
    field p' pkt_len_off 2 = field p pkt_len_off 2 ∧
    slice p' h_source 6 = slice p h_source 6 ∧ slice p' h_dest 6 = take 6 (node_mac e) ∧
    (∀ n, slice p' DATA n = slice p DATA n).
Proof.
  intros <- Hf Hm Hl. cbn [op_of o_as o_addr o_type o_id o_len] in *. unfold translate. rewrite Hf.
  match goal with |- context [stores p ?l] => assert (∃ p', stores p l = Some p') as [p' Hp] by defined end.
  rewrite Hp. exists p'. split; [done|]. split; [by eapply stores_length|]. split.
  - unfold op_of. f_equal; [by eapply look_untouched..| |by eapply look_untouched].
    eapply (look_field _ _ _ _ 8 _ 64 Hp); [done|done|apply phys_addr_fits].
  - split; [by eapply look_untouched|]. split; [apply (look_spec _ h_source 6 _ _ Hp)|].
    split; [by apply (look_stored _ _ _ _ _ (Copy 6 (node_mac e)) Hp)|]. intros n. apply (look_spec _ DATA n _ _ Hp).
Qed.

(** The node answers with the response of the abstract memory. *)
Lemma HandleRequest_spec mem mac ip p to o :
  op_of p = o → rw (o_type o) → (6 ≤ length mac)%nat →
  o_id o ∈u 64 → o_as o ∈u 64 → o_addr o ∈u 64 → o_len o ∈u 16 →
  o_addr o + o_len o ≤ Z.of_nat (length mem) →
  Z.of_nat DATA + o_len o ≤ Z.of_nat (length to) → Z.of_nat DATA + o_len o ≤ Z.of_nat (length p) →
  headers + o_len o ∈u 16 →
  ∃ p' mem', HandleRequest mem mac ip p to = Some (p', mem') ∧ length p' = length to ∧
    o_id (op_of p') = o_id o ∧ o_len (op_of p') = o_len o ∧
    field p' pkt_len_off 2 = headers + (if o_type o =? SIMBRICKS_PROTO_MEM_H2M_MSG_READ then o_len o else 0) ∧
    slice p' h_source 6 = take 6 mac ∧ slice p' h_dest 6 = slice p h_source 6 ∧
    if o_type o =? SIMBRICKS_PROTO_MEM_H2M_MSG_READ
    then o_type (op_of p') = SIMBRICKS_PROTO_MEM_M2H_MSG_READCOMP ∧ mem' = mem ∧
         slice p' DATA (Z.to_nat (o_len o)) = slice mem (Z.to_nat (o_addr o)) (Z.to_nat (o_len o))
    else o_type (op_of p') = SIMBRICKS_PROTO_MEM_M2H_MSG_WRITECOMP ∧
         mem' = written mem (o_addr o) (slice p DATA (Z.to_nat (o_len o))).
Proof.
  intros <- Hty Hmac. cbn [op_of o_type o_id o_as o_addr o_len]. unfold rw. cbn [op_of o_type] in *.
  intros H1 H2 H3 H4 Hb Hto Hp Hn. pose proof H4 as [H4' _]. pose proof H3 as [H3' _].
  unfold HandleRequest.
  match goal with |- context [stores to ?l] => assert (∃ q, stores to l = Some q) as [q Hq] by defined end.
  rewrite Hq. cbn [mbind option_bind]. pose proof (stores_length _ _ _ Hq) as Hl.
  destruct Hty as [Ht|Ht]; rewrite Ht in *; cbn [Z.eqb Pos.eqb SIMBRICKS_PROTO_MEM_H2M_MSG_READ SIMBRICKS_PROTO_MEM_H2M_MSG_WRITE] in *.
  - rewrite (proj2 (Z.leb_le _ _)) by done.
    match goal with |- context [stores q ?l] => assert (∃ r, stores q l = Some r) as [r Hr] by defined end.
    rewrite Hr. exists r, mem. split; [done|]. split; [rewrite (stores_length _ _ _ Hr); done|].
    rewrite !(look_untouched _ _ _ _ _ Hr) by done.
    rewrite (look_slice _ _ _ h_source 6 Hr), (look_slice _ _ _ h_dest 6 Hr) by done.
    split; [by eapply look_field|]. split; [by eapply look_field|]. split; [by eapply look_field|].
    split; [by apply (look_stored _ _ _ _ _ (Copy 6 mac) Hq)|].
    split; [by apply (look_stored _ _ _ _ _ (Copy 6 (drop h_source p)) Hq)|].
    split; [by eapply look_field|]. split; [done|].
    apply (look_stored _ _ _ _ _ (Copy (Z.to_nat (field p op_len 2)) (drop (Z.to_nat (field p op_addr 8)) mem)) Hr).
    cbn. by rewrite Nat.eqb_refl.
  - rewrite mem_store_spec by (rewrite ?length_drop; unfold DATA in *; lia). cbn [mbind option_bind].
    match goal with |- context [stores q ?l] => assert (∃ r, stores q l = Some r) as [r Hr] by defined end.
    rewrite Hr. eexists r, _. split; [done|]. split; [rewrite (stores_length _ _ _ Hr); done|].
    rewrite !(look_untouched _ _ _ _ _ Hr) by done.
    rewrite (look_slice _ _ _ h_source 6 Hr), (look_slice _ _ _ h_dest 6 Hr) by done.
    split; [by eapply look_field|]. split; [by eapply look_field|]. split; [by eapply look_field|].
    split; [by apply (look_stored _ _ _ _ _ (Copy 6 mac) Hq)|].
    split; [by apply (look_stored _ _ _ _ _ (Copy 6 (drop h_source p)) Hq)|].
    split; [by eapply look_field|]. done.
Qed.

Lemma ForwardToMEM_spec p to o :
  op_of p = o → o_id o ∈u 64 → 0 ≤ o_len o →
  Z.of_nat HDR + o_len o ≤ Z.of_nat (length to) → Z.of_nat DATA + o_len o ≤ Z.of_nat (length p) →
  o_type o = SIMBRICKS_PROTO_MEM_M2H_MSG_READCOMP ∨ o_type o = SIMBRICKS_PROTO_MEM_M2H_MSG_WRITECOMP →
  ∃ b, ForwardToMEM p to = Some (Some (b, o_type o)) ∧ msg_req_id b = o_id o ∧
    (o_type o = SIMBRICKS_PROTO_MEM_M2H_MSG_READCOMP →
     take (Z.to_nat (o_len o)) (msg_data b) = slice p DATA (Z.to_nat (o_len o))).
Proof.
  intros <-. cbn [op_of o_type o_id o_len]. intros H1 H2 Hto Hp Hty. unfold ForwardToMEM.
  destruct Hty as [Ht|Ht]; rewrite Ht;
    cbn [Z.eqb Pos.eqb SIMBRICKS_PROTO_MEM_M2H_MSG_READCOMP SIMBRICKS_PROTO_MEM_M2H_MSG_WRITECOMP].
  - match goal with |- context [stores to ?l] => assert (∃ b, stores to l = Some b) as [b Hb] by defined end.
    rewrite Hb. exists b. split; [done|]. unfold msg_req_id. split; [by apply (look_field _ _ _ _ 8 _ 64 Hb)|]. intros _.
    apply (look_stored _ _ _ _ _ (Copy (Z.to_nat (field p op_len 2)) (drop DATA p)) Hb).
    cbn. by rewrite Nat.eqb_refl.
  - match goal with |- context [stores to ?l] => assert (∃ b, stores to l = Some b) as [b Hb] by defined end.
    rewrite Hb. exists b. split; [done|]. unfold msg_req_id.
    split; [by apply (look_field _ _ _ _ 8 _ 64 Hb)|done].
Qed.

(** Without overflow the address is translated by the distance between the ranges. *)
Lemma phys_addr_spec t as' addr e :
  find_entry t as' addr = Some e → vaddr_start e ∈u 64 →
  phys_start e + (addr - vaddr_start e) ∈u 64 → addr ∈u 64 →
  phys_addr e addr = phys_start e + (addr - vaddr_start e).
Proof.
  unfold find_entry. rewrite fmap_Some. intros ([i x] & H & ->) [? ?] ? [? ?].
  apply list_find_Some in H as (_ & H & _). unfold entry_matches in H. cbn in *.
  rewrite !andb_true_iff, !Z.leb_le in H. unfold phys_addr.
  rewrite (wrap_id 64 (addr - _)) by (unfold fits; lia). by apply wrap_id.
Qed.

(** ** Examples *)

Definition demo_request (id addr len : Z) (data : bytes) : bytes :=
  le 8 id ++ le 8 3 ++ le 8 addr ++ le 2 len ++ replicate 22 0 ++ data.
Definition demo_entry : table_entry := MkEntry 3 0x1000 0x1FFF [2; 0; 0; 0; 0; 9] 8.
Definition demo_mac (k : Z) : bytes := [2; 0; 0; 0; 0; k].
Definition demo_to (n : nat) : bytes := replicate n 0.

(** A run of the network memory with its peer. *)
Inductive nm_event := NmStep | NmPeer (a : act).

Fixpoint nm_run (s : netmem) (g : peer) (es : list nm_event) : option (netmem * peer) :=
  match es with
  | [] => Some (s, g)
  | NmStep :: es => s ← netmem_step s; nm_run s g es
  | NmPeer a :: es => '(i, g) ← peer_step (nm_if s) None None g a; nm_run (nm_set s i (nm_mem s)) g es
  end.

(** The packet for a request of one byte of data. *)
Definition demo_packet (type id addr : Z) (x : Z) : bytes :=
  default [] (ForwardToETH (demo_mac 1) 1 1 1 (demo_request id addr 1 [x]) type (demo_to 160)).

Definition nm_send (type id addr x : Z) : list nm_event :=
  [NmPeer (PAlloc 0); NmPeer (PSend (demo_packet type id addr x) 0x40); NmStep; NmStep].
Definition nm_pick : list nm_event := [NmPeer (CPoll 0); NmPeer CDone].

Definition demo_netmem : netmem :=
  MkNetmem (new_iface 2 160 false (MkParams 500 500 SyncDisabled)) (demo_to 4) (demo_mac 9) 2
    false 0 0 false.
Definition demo_peer : peer := new_peer 2 160 false (MkParams 500 500 SyncDisabled).

(** Two reads are answered and fill the outgoing ring; the write of 11 then finds no entry for
    its answer.  Its ring entry is polled again when the ring has gone round, after the later
    write of 22 to the same address: the memory ends with 11, and the two writes are answered
    in the wrong order. *)
Theorem netmem_reorders :
  (λ '(s, g), (nm_mem s, (λ x, field (m_body x) op_req_id 8) <$> sent (nm_if s))) <$>
    nm_run demo_netmem demo_peer
      (nm_send 0x60 1 0 0 ++ nm_send 0x60 2 0 0 ++ nm_send 0x61 3 0 11 ++ nm_pick ++ nm_pick ++
       nm_send 0x61 4 0 22 ++ nm_pick ++ [NmStep; NmStep]) =
  Some ([11; 0; 0; 0], [1; 2; 4; 3]).
Proof. by vm_compute. Qed.

(** The memory NIC gives an entry away for a packet it cannot use: the completion sent after it
    is in the next entry, and the host, which waits at the first, does not see it. *)
Definition demo_memnic (p : bytes) : option memnic :=
  let par := MkParams 500 500 SyncDisabled in
  '(n, g) ← peer_step (new_iface 4 160 false par) None None (new_peer 4 160 false par) (PAlloc 0);
  '(n, g) ← peer_step n None None g (PSend p 0x40);
  '(n, g) ← peer_step n None None g (PAlloc 0);
  '(n, g) ← peer_step n None None g
              (PSend (default [] (fst <$> HandleRequest (demo_to 4) (demo_mac 9) 2
                                            (demo_packet 0x60 7 0 0) (demo_to 160))) 0x40);
  Some (MkMemnic (new_iface 4 56 false par) n (demo_mac 1) 1 1 1 0 false).

Theorem memnic_stalls :
  (s ← demo_memnic (demo_packet 0x60 6 0 0);
   s ← memnic_step s;
   s ← memnic_step s;
   '(i, g) ← peer_step (mn_mem s) None None (new_peer 4 56 false (MkParams 500 500 SyncDisabled)) (CPoll 0);
   Some ((λ x, msg_req_id (m_body x)) <$> sent i, picked g)) = Some ([7], []).
Proof. by vm_compute. Qed.

End remote_mem.
