(* ===== verification/MemSwitch.v ===== *)
(** * The memory switch (sims/mem/memswitch/memswitch.cc)

    A learning switch like that of NetSwitch.v, with the same ports, that treats a packet for an
    address it does not know as a memory operation: it translates the address of the operation and
    sends the packet to the node that has the memory.  The theorem follows a request of a host from
    the memory NIC through the switch to the node, and the answer back through the switch: what the
    host sees is the memory of BasicMem.v at the translated address.  Between two programs only the
    [len] bytes of a packet are copied, and only to the ports the switch chooses. *)

From S2P Require Import Prelude.
From S2P Require Import BaseIf.
From S2P Require Import BaseChannel.
From S2P Require Import TypedIf.
From S2P Require Import BasicMem.
From S2P Require Import NetSwitch.
From S2P Require Import RemoteMem.

Module mem_switch.
Import base channel typed basicmem remote_mem.
Import net_switch (write_packet, packet_len, mac_hash, bcast, egress, NetPort, MkPort, netif_, rx_, sync_,
  IsSync, NextTimestamp, Sync, RxPacket, RxDone, TxPacket, TxResult(..), RxPollState(..), pc(..)).

(** ** The table *)

(** The entries of the incoming rings, by port and position. *)
Definition rings : Type := nat → Z → option bytes.

(** A key of [mac_table]: the copy of an address made for an option [-m], or a pointer to the
    source address of a packet in an incoming ring. *)
Inductive mac_key := Copied (a : bytes) | InRing (port : nat) (pos : Z).

Record entry := MkNode { key : mac_key; code : Z; value : nat }.

Definition key_data (rd : rings) (k : mac_key) : option bytes :=
  match k with
  | Copied a => Some a
  | InRing i pos =>
      b ← rd i pos;
      if (h_source + 6 <=? length b)%nat then Some (slice b h_source 6) else None
  end.

(** [mac_table.find(a)] *)
Fixpoint table_find (rd : rings) (t : list entry) (a : bytes) : option (option nat) :=
  match t with
  | [] => Some None
  | x :: t =>
      k ← key_data rd (key x);
      if (code x =? mac_hash a) && bool_decide (k = a) then Some (Some 0%nat)
      else r ← table_find rd t a; Some (option_map S r)
  end.

Definition set_value (v : nat) (x : entry) : entry := MkNode (key x) (code x) v.

(** [mac_table[src] = iport] *)
Definition table_learn (rd : rings) (t : list entry) (k : mac_key) (iport : nat) : option (list entry) :=
  a ← key_data rd k;
  r ← table_find rd t a;
  Some (match r with
        | Some n => alter (set_value iport) n t
        | None => MkNode k (mac_hash a) iport :: t
        end).

Definition port_of (t : list entry) (r : option nat) : option nat := n ← r; value <$> t !! n.

(** ** A packet *)

(** [b] written to an entry. *)
Definition enter (rd : rings) (i : nat) (pos : Z) (b : bytes) : rings :=
  λ j q, if decide (j = i ∧ q = pos) then Some b else rd j q.

(** [switch_pkt] for the packet at [pos] of port [iport], up to the sending: the table, the packet,
    which may have been changed in place, and the ports it goes to.  A packet for an address that
    is not in the table is a memory operation, and is dropped if no mapping has its address. *)
Definition route (rd : rings) (t : list entry) (map_table : list table_entry) (nports iport : nat) (pos : Z) :
    option (list entry * bytes * list nat) :=
  p ← rd iport pos;
  a ← key_data rd (InRing iport pos);
  t ← (if decide (a = bcast) then Some t else table_learn rd t (InRing iport pos) iport);
  r ← table_find rd t (slice p h_dest 6);
  match r with
  | Some n => Some (t, p, egress nports (port_of t (Some n)) iport)
  | None =>
      q ← translate map_table p;
      match q with
      | None => Some (t, p, [])
      | Some p =>
          r ← table_find (enter rd iport pos p) t (slice p h_dest 6);
          Some (t, p, egress nports (port_of t r) iport)
      end
  end.

(** ** The program *)

Record state := MkState {
  ports : list NetPort;
  mac_table : list entry;
  map_table : list table_entry;
  cur_ts : Z;     (* uint64_t *)
  min_ts : Z;     (* uint64_t *)
  at_ : pc;
}.

Definition set_port (s : state) (i : nat) (p : NetPort) (c : pc) : state :=
  MkState (<[i := p]> (ports s)) (mac_table s) (map_table s) (cur_ts s) (min_ts s) c.

Definition in_rings (ps : list NetPort) : rings :=
  λ i pos, p ← ps !! i; in_body (netif_ p) pos.

(** The switch writes into the entry of a packet it has received. *)
Definition in_fill (p : NetPort) (pos : Z) (b : bytes) : option NetPort :=
  let i := netif_ p in
  q ← fill (in_q i) pos b;
  Some (MkPort (MkIface (base_if i) q (out_q i) (taken i) (sent i)) (rx_ p) (sync_ p)).

Definition switch_pkt (s : state) (iport : nat) (p : NetPort) (pos : Z) : option state :=
  let ps := <[iport := p]> (ports s) in
  '(t, b, out) ← route (in_rings ps) (mac_table s) (map_table s) (length ps) iport pos;
  p ← in_fill p pos b;
  Some (MkState (<[iport := p]> ps) t (map_table s) (cur_ts s) (min_ts s) (Forwarding iport out)).

Definition forward_pkt (s : state) (iport eport : nat) : option (TxResult * NetPort) :=
  p ← ports s !! iport;
  pos ← rx_ p;
  b ← in_body (netif_ p) pos;
  dest_port ← ports s !! eport;
  TxPacket dest_port (drop HDR b) (packet_len b) (cur_ts s).

Definition port_done (s : state) (i : nat) (p : NetPort) : state :=
  let ts := NextTimestamp p in
  MkState (<[i := p]> (ports s)) (mac_table s) (map_table s) (cur_ts s)
    (if IsSync p then (if ts <? min_ts s then ts else min_ts s) else min_ts s) (Polling (S i)).

(** The loops of [main], one step between two accesses to shared memory. *)
Definition step (s : state) : option state :=
  match at_ s with
  | Syncing i =>
      match ports s !! i with
      | None => Some (MkState (ports s) (mac_table s) (map_table s) (cur_ts s) UINT64_MAX (Polling 0))
      | Some p =>
          '(again, p) ← Sync p (cur_ts s);
          Some (set_port s i p (Syncing (if again : bool then i else S i)))
      end
  | Polling i =>
      match ports s !! i with
      | None =>
          if min_ts s <=? cur_ts s
          then Some (MkState (ports s) (mac_table s) (map_table s) (cur_ts s) UINT64_MAX (Polling 0))
          else Some (MkState (ports s) (mac_table s) (map_table s)
                       (if min_ts s <? UINT64_MAX then min_ts s else cur_ts s) (min_ts s) (Syncing 0))
      | Some p =>
          '(poll, p) ← RxPacket p (cur_ts s);
          match poll, rx_ p with
          | kRxPollSuccess, Some pos => switch_pkt s i p pos
          | kRxPollSync, _ => p ← RxDone p; Some (port_done s i p)
          | _, _ => Some (port_done s i p)
          end
      end
  | Forwarding i [] =>
      p ← ports s !! i;
      p ← RxDone p;
      Some (port_done s i p)
  | Forwarding i (e :: es) =>
      '(r, p) ← forward_pkt s i e;
      Some (set_port s e p (Forwarding i (match r with TxSpins => e :: es | _ => es end)))
  end.

(** ** The table, read by address *)

(** Every key of the table can be read: nothing but a copy, or a packet of its port, which carries
    the address of the neighbour at that port. *)
Definition own_key (owner : nat → bytes) (rd : rings) (k : mac_key) : Prop :=
  match k with Copied _ => True | InRing i _ => key_data rd k = Some (owner i) end.

Definition own_keys (owner : nat → bytes) (rd : rings) (t : list entry) : Prop :=
  Forall (λ x, own_key owner rd (key x)) t.

(** The port of an address. *)
Definition key_addr (owner : nat → bytes) (k : mac_key) : bytes :=
  match k with Copied a => a | InRing i _ => owner i end.

Fixpoint port_for (owner : nat → bytes) (t : list entry) (a : bytes) : option nat :=
  match t with
  | [] => None
  | x :: t =>
      if (code x =? mac_hash a) && bool_decide (key_addr owner (key x) = a) then Some (value x)
      else port_for owner t a
  end.

Section table.
Context (owner : nat → bytes).

Lemma own_key_data rd k : own_key owner rd k → key_data rd k = Some (key_addr owner k).
Proof. by destruct k. Qed.

Lemma table_find_spec rd t a :
  own_keys owner rd t → ∃ r, table_find rd t a = Some r ∧ port_of t r = port_for owner t a ∧
    (r = None ↔ port_for owner t a = None).
Proof.
  induction 1 as [|x t Hx Ht (r & E & Hp & Hn)]; cbn [table_find port_for]; [by exists None|].
  rewrite (own_key_data _ _ Hx). cbn [mbind option_bind]. destruct (_ && _).
  - exists (Some 0%nat). split; [done|]. split; [done|]. split; done.
  - rewrite E. exists (option_map S r). split; [done|]. split; [rewrite <- Hp; by destruct r|].
    rewrite <- Hn. destruct r; split; done.
Qed.

Lemma table_find_none rd t a :
  own_keys owner rd t → port_for owner t a = None → table_find rd t a = Some None.
Proof. intros Hk Hp. destruct (table_find_spec rd t a Hk) as (r & -> & _ & [_ H]). by rewrite H. Qed.

Lemma table_find_port rd t a v :
  own_keys owner rd t → port_for owner t a = Some v →
  ∃ n, table_find rd t a = Some (Some n) ∧ port_of t (Some n) = Some v.
Proof.
  intros Hk Hp. destruct (table_find_spec rd t a Hk) as (r & -> & Hr & [H _]). rewrite Hp in Hr, H.
  destruct r as [n|]; [by exists n|]. by specialize (H eq_refl).
Qed.

(** After an entry was set, its address has the port, and every other address the port it had. *)
Lemma set_found rd t a n v b :
  own_keys owner rd t → table_find rd t a = Some (Some n) →
  port_for owner (alter (set_value v) n t) b = (if decide (b = a) then Some v else port_for owner t b).
Proof.
  intros Hk. revert n. induction Hk as [|x t Hx Ht IH]; intros n; cbn [table_find]; [done|].
  rewrite (own_key_data _ _ Hx). cbn [mbind option_bind]. destruct (_ && _) eqn:E.
  - intros [= <-]. apply andb_true_iff in E as [Hc%Z.eqb_eq Hd%bool_decide_eq_true].
    cbn [alter list_alter port_for set_value key code value]. rewrite Hd, Hc.
    case_decide as Hb; [subst b; by rewrite Z.eqb_refl, bool_decide_true|].
    by rewrite (bool_decide_false (a = b)), andb_false_r by congruence.
  - destruct (table_find rd t a) as [[m|]|] eqn:Ef; try done. intros [= <-].
    change (alter (set_value v) (S m) (x :: t)) with (x :: alter (set_value v) m t). cbn [port_for].
    rewrite (IH m eq_refl). destruct (decide (b = a)) as [->|]; [|done]. by rewrite E.
Qed.

Lemma own_keys_set rd t n v : own_keys owner rd t → own_keys owner rd (alter (set_value v) n t).
Proof. intros H. by apply Forall_alter. Qed.

Lemma table_learn_spec rd t i pos :
  own_keys owner rd t → key_data rd (InRing i pos) = Some (owner i) →
  ∃ t', table_learn rd t (InRing i pos) i = Some t' ∧ 
    (∀ b, port_for owner t' b = (if decide (b = owner i) then Some i else port_for owner t b)) ∧
    (∀ rd', own_keys owner rd' t → own_key owner rd' (InRing i pos) → own_keys owner rd' t').
Proof.
  intros Hk Hd. unfold table_learn. rewrite Hd. cbn [mbind option_bind].
  destruct (table_find_spec rd t (owner i) Hk) as ([n|] & E & _ & Hn); rewrite E; cbn [mbind option_bind];
    eexists; (split; [done|]); split.
  - intros b. by apply (set_found rd).
  - intros rd' Hk' _. by apply own_keys_set.
  - intros b. cbn [port_for key code value key_addr]. destruct (decide (b = owner i)) as [->|];
      [by rewrite Z.eqb_refl, bool_decide_true|]. by rewrite (bool_decide_false (owner i = b)), andb_false_r by congruence.
  - intros rd' Hk' Ho. by constructor.
Qed.

Lemma own_keys_enter rd t i pos b :
  own_keys owner rd t → (h_source + 6 ≤ length b)%nat → slice b h_source 6 = owner i →
  own_keys owner (enter rd i pos b) t.
Proof.
  intros Hk Hl Hs. eapply Forall_impl; [exact Hk|]. intros x. cbn. destruct (key x) as [a|j q]; [done|].
  cbn [own_key key_data]. unfold enter. case_decide as Hj; [|done]. destruct Hj as [-> ->]. intros _.
  cbn [mbind option_bind]. by rewrite (proj2 (Nat.leb_le _ _) Hl), Hs.
Qed.

Lemma enter_key rd i pos b :
  (h_source + 6 ≤ length b)%nat → key_data (enter rd i pos b) (InRing i pos) = Some (slice b h_source 6).
Proof.
  intros Hl. cbn [key_data]. unfold enter. rewrite decide_True by done. cbn [mbind option_bind].
  by rewrite (proj2 (Nat.leb_le _ _) Hl).
Qed.

(** ** One packet *)

(** What the switch has learned when the packet [b] of port [i] is looked up. *)
Lemma learn_spec rd t i pos b :
  own_keys owner rd t → (h_source + 6 ≤ length b)%nat → slice b h_source 6 = owner i →
  let rd1 := enter rd i pos b in
  ∃ t', key_data rd1 (InRing i pos) = Some (owner i) ∧
    (if decide (owner i = bcast) then Some t else table_learn rd1 t (InRing i pos) i) = Some t' ∧
    (∀ c, c ≠ owner i → port_for owner t' c = port_for owner t c) ∧
    (owner i ≠ bcast → port_for owner t' (owner i) = Some i) ∧
    own_keys owner rd1 t' ∧
    (∀ rd', own_keys owner rd' t → own_key owner rd' (InRing i pos) → own_keys owner rd' t').
Proof.
  intros Hk Hl Hs rd1. pose proof (own_keys_enter rd t i pos b Hk Hl Hs) as Hk1. fold rd1 in Hk1.
  pose proof (enter_key rd i pos b Hl) as Hd. fold rd1 in Hd. rewrite Hs in Hd.
  case_decide as Hb; [by exists t|].
  destruct (table_learn_spec rd1 t i pos Hk1 Hd) as (t' & E & Hp & Hk'). exists t'. split; [done|]. split; [done|].
  split; [intros c Hc; by rewrite Hp, decide_False|]. split; [intros _; by rewrite Hp, decide_True|].
  split; [by apply Hk'|done].
Qed.

(** A packet for an address in the table goes to its port, unchanged. *)
Lemma route_known rd t mt n i pos b v :
  own_keys owner rd t → (h_source + 6 ≤ length b)%nat → slice b h_source 6 = owner i →
  slice b h_dest 6 ≠ owner i → port_for owner t (slice b h_dest 6) = Some v → v ≠ i →
  ∃ t', route (enter rd i pos b) t mt n i pos = Some (t', b, [v]) ∧
    (∀ c, c ≠ owner i → port_for owner t' c = port_for owner t c) ∧
    (owner i ≠ bcast → port_for owner t' (owner i) = Some i).
Proof.
  intros Hk Hl Hs Hd Hv Hi. destruct (learn_spec rd t i pos b Hk Hl Hs) as (t' & Ek & E & Hp & Hq & Hk' & _).
  exists t'. split; [|done]. unfold route. rewrite <- (Hp _ Hd) in Hv.
  destruct (table_find_port _ _ _ _ Hk' Hv) as (m & Ef & Ep).
  replace (enter rd i pos b i pos) with (Some b) by (unfold enter; by rewrite decide_True).
  cbn [mbind option_bind]. rewrite Ek. cbn [mbind option_bind]. rewrite E. cbn [mbind option_bind]. rewrite Ef. cbn [mbind option_bind].
  rewrite Ep. unfold egress. by rewrite decide_False.
Qed.

(** A memory operation goes to the node of its mapping. *)
Lemma route_memop rd t mt n i pos b b' v :
  own_keys owner rd t → (h_source + 6 ≤ length b)%nat → slice b h_source 6 = owner i →
  slice b h_dest 6 ≠ owner i → port_for owner t (slice b h_dest 6) = None →
  translate mt b = Some (Some b') → length b' = length b → slice b' h_source 6 = slice b h_source 6 →
  slice b' h_dest 6 ≠ owner i → port_for owner t (slice b' h_dest 6) = Some v → v ≠ i →
  ∃ t', route (enter rd i pos b) t mt n i pos = Some (t', b', [v]) ∧
    (∀ c, c ≠ owner i → port_for owner t' c = port_for owner t c) ∧
    (owner i ≠ bcast → port_for owner t' (owner i) = Some i) ∧
    (∀ rd', own_keys owner rd' t → own_key owner rd' (InRing i pos) → own_keys owner rd' t').
Proof.
  intros Hk Hl Hs Hd Hn Htr Hl' Hs' Hd' Hv Hi.
  destruct (learn_spec rd t i pos b Hk Hl Hs) as (t' & Ek & E & Hp & Hq & Hk' & Hr).
  exists t'. split; [|done]. unfold route. rewrite <- (Hp _ Hd') in Hv. rewrite <- (Hp _ Hd) in Hn.
  assert (own_keys owner (enter (enter rd i pos b) i pos b') t') as Hk2.
  { apply own_keys_enter; [done|congruence..]. }
  destruct (table_find_port _ _ _ _ Hk2 Hv) as (m & Ef & Ep).
  replace (enter rd i pos b i pos) with (Some b) by (unfold enter; by rewrite decide_True).
  cbn [mbind option_bind]. rewrite Ek. cbn [mbind option_bind]. rewrite E. cbn [mbind option_bind].
  rewrite (table_find_none _ _ _ Hk' Hn). cbn [mbind option_bind]. rewrite Htr. cbn [mbind option_bind].
  rewrite Ef. cbn [mbind option_bind]. rewrite Ep. unfold egress. by rewrite decide_False.
Qed.

End table.

(** ** From entry to entry *)

(** What [TxPacket] copies: the bytes of the packet, and none after them. *)
Lemma mem_write_packet p to :
  (HDR ≤ length to)%nat → 0 ≤ packet_len p → Z.of_nat HDR + packet_len p ≤ Z.of_nat (length p) →
  Z.of_nat HDR + packet_len p ≤ Z.of_nat (length to) →
  ∃ x, write_packet to (drop HDR p) (packet_len p) = Some x ∧ length x = length to ∧
    ∀ o n, (HDR ≤ o)%nat → Z.of_nat (o + n) ≤ Z.of_nat HDR + packet_len p → slice x o n = slice p o n.
Proof.
  intros Hto H0 Hp Ht. unfold write_packet. unfold HDR, net_switch.HDR in *. set (l := packet_len p) in *.
  rewrite memcpy_ok by (rewrite length_drop; lia). cbn [mbind option_bind]. eexists. split; [done|].
  set (pre := le 2 l ++ [0] ++ take (48 - 3) (drop 3 to)).
  assert (length pre = 48%nat) as Hpre.
  { unfold pre. rewrite !length_app, length_le, length_take, length_drop. cbn [length]. lia. }
  rewrite (app_assoc [0]), (app_assoc (le 2 l)). fold pre. split.
  { rewrite !length_app, Hpre, length_take, !length_drop. lia. }
  intros o n Ho Hn. rewrite slice_app_r, Hpre by lia. unfold slice.
  rewrite drop_app_le by (rewrite length_take, length_drop; lia).
  rewrite take_app_le by (rewrite length_drop, length_take, length_drop; lia).
  rewrite skipn_firstn_comm, firstn_firstn, drop_drop. f_equal; [lia|]. f_equal. lia.
Qed.

(** The operation, the data and the addresses reach the other side if the length says so. *)
Lemma packet_copied p to d :
  packet_len p = headers + d → 0 ≤ d →
  Z.of_nat DATA + d ≤ Z.of_nat (length p) → Z.of_nat DATA + d ≤ Z.of_nat (length to) →
  ∃ x, write_packet to (drop HDR p) (packet_len p) = Some x ∧ length x = length to ∧
    op_of x = op_of p ∧ slice x h_source 6 = slice p h_source 6 ∧
    slice x DATA (Z.to_nat d) = slice p DATA (Z.to_nat d).
Proof.
  intros Hl Hd Hp Hto. unfold headers, DATA in *.
  destruct (mem_write_packet p to) as (x & E & Hx & Hs); [unfold HDR; lia..|].
  rewrite Hl in Hs. unfold HDR in Hs. exists x. split; [done|]. split; [done|].
  split; [unfold op_of, field; f_equal; f_equal; apply Hs;
    unfold op_type, op_req_id, op_as_id, op_addr, op_len, MEMOP; lia|].
  split; apply Hs; unfold h_source, ETH; lia.
Qed.

(** ** There and back *)

Definition retarget (a : Z) (r : request) : request :=
  match r with
  | Read id _ len => Read id a len
  | Write id _ data posted => Write id a data posted
  | Ignored => Ignored
  end.

Section end_to_end.
(** The memory NIC at port [nic] and the node at port [node] of the switch, with their addresses,
    and the mapping of the switch for the address of the request. *)
Context (nic node nports : nat) (owner : nat → bytes) (ip1 ip2 sp dp : Z) (e : table_entry).
Notation mac1 := (owner nic).
Notation mac2 := (owner node).

Record addresses : Prop := Addresses {
  ad_ports : nic ≠ node;
  ad_mac1 : length mac1 = 6%nat;
  ad_mac2 : length mac2 = 6%nat;
  ad_node : length (node_mac e) = 6%nat;
  ad_nic : mac1 ≠ bcast ∧ mac1 ≠ everyone ∧ mac1 ≠ mac2 ∧ mac1 ≠ node_mac e;
  ad_mem : mac2 ≠ bcast ∧ mac2 ≠ everyone
}.

(** The switch knows the port of the node, and [everyone] is no address in its table. *)
Definition routed (t : list entry) : Prop :=
  port_for owner t (node_mac e) = Some node ∧ port_for owner t everyone = None.

(** C22: Memory over the network is memory.  A read or write of the host, put into a packet by
    the memory NIC, is translated by the switch and sent to the port of the node that has the
    memory and to no other; executed by the network memory; and its answer sent by the switch to
    the port of the memory NIC and to no other, and turned into a completion there.  It has the
    effect and the response of the abstract memory at the physical address, as far from the start
    of the physical range as the virtual address is from that of the virtual range.  Of each packet
    only its [len] bytes are copied from ring to ring.  Afterwards the switch is ready for the next
    request.

    The physical address and the data lie within the memory of the node, the data fits the ring
    entries and a 16-bit packet length, the node is in the table of the switch (as it is for every
    option [-m]), the two ends have addresses of their own, and the ring entries to which keys of
    the table point carry the address of the neighbour at their port. *)
Theorem remote_memory_refines b type mem rd rd2 t mt pos pos2 to1 to2 to3 to4 to5 ts :
  let a := phys_start e + (msg_addr b - vaddr_start e) in
  let room := λ to : bytes, Z.of_nat DATA + msg_len b ≤ Z.of_nat (length to) in
  addresses → routed t → own_keys owner rd t →
  own_keys owner rd2 t → own_key owner rd2 (InRing nic pos) →
  is_bytes b → rw type → Z.of_nat HDR + msg_len b ≤ Z.of_nat (length b) →
  find_entry mt (msg_as_id b) (msg_addr b) = Some e → vaddr_start e ∈u 64 → a ∈u 64 →
  a + msg_len b ≤ Z.of_nat (length mem) → headers + msg_len b ∈u 16 →
  room to1 → room to2 → room to3 → room to4 → Z.of_nat HDR + msg_len b ≤ Z.of_nat (length to5) →
  ∃ p t1 p' x q mem' t2 y c ty r,
    ForwardToETH mac1 ip1 sp dp b type to1 = Some p ∧
    route (enter rd nic pos p) t mt nports nic pos = Some (t1, p', [node]) ∧
    write_packet to2 (drop HDR p') (packet_len p') = Some x ∧
    HandleRequest mem mac2 ip2 x to3 = Some (q, mem') ∧
    route (enter rd2 node pos2 q) t1 mt nports node pos2 = Some (t2, q, [nic]) ∧
    write_packet to4 (drop HDR q) (packet_len q) = Some y ∧
    ForwardToMEM y to5 = Some (Some (c, ty)) ∧
    exec mem (retarget a (request_of (MkMsg b ts type))) = (mem', [r]) ∧
    conveys r (MkMsg c ts ty) ∧ routed t2.
Proof.
  intros a room Had [Hrn Hre] Hk Hk2 Hkn Hb Hty Hd He Hva Ha. unfold a in *.
  rewrite <- (phys_addr_spec mt _ _ e He Hva Ha (field_fits b 16 8 64 ltac:(done) Hb)) in *. clear a Ha.
  intros Hph Hn H1 H2 H3 H4 H5. destruct Had as [Hpn L1 L2 L3 (Nb & Ne & N2 & Nn) [N2b N2e]]. unfold room in *.
  pose proof (field_fits b 0 8 64 ltac:(done) Hb : msg_req_id b ∈u 64) as Fid.
  pose proof (field_fits b 8 8 64 ltac:(done) Hb : msg_as_id b ∈u 64) as Fas.
  pose proof (field_fits b 24 2 16 ltac:(done) Hb : msg_len b ∈u 16) as Flen. pose proof Flen as [Flen0 _].
  destruct (ForwardToETH_spec mac1 ip1 sp dp b type to1) as (p & Ep & Lp & Op & Np & Sp & Dp & Wp);
    [done|done|lia|done..|].
  destruct (translate_spec mt p _ e Op He ltac:(lia)) as (p' & Ep' & Lp' & Op' & Np' & Sp' & Dp' & Wp').
  { unfold DATA in *. lia. }
  unfold op_of_request in Op'. cbn [o_type o_id o_as o_addr o_len] in Op'.
  rewrite take_ge in Sp, Dp' by lia.
  assert (h_source + 6 ≤ length p)%nat as Hlp by (unfold h_source, ETH, DATA in *; lia).
  destruct (route_memop owner rd t mt nports nic pos p p' node) as (t1 & Er & Hoth & Hnic & Hkeys);
    try done; try congruence.
  set (d := if type =? SIMBRICKS_PROTO_MEM_H2M_MSG_WRITE then msg_len b else 0) in *.
  assert (0 ≤ d ≤ msg_len b) as Hdl by (unfold d; destruct (_ =? _); lia).
  destruct (packet_copied p' to2 d) as (x & Ex & Lx & Ox & Sx & Wx);
    [change (field p' pkt_len_off 2 = headers + d); congruence|lia..|].
  rewrite <- Ox in Op'.
  destruct (HandleRequest_spec mem mac2 ip2 x to3 _ Op') as (q & mem' & Eq & Lq & Iq & Mq & Nq & Sq & Dq & Cq);
    cbn [o_type o_id o_as o_addr o_len] in *; [done|lia|done|done|apply phys_addr_fits|done|done|done|lia|done|].
  rewrite take_ge in Sq by lia. rewrite Sx, Sp', Sp in Dq.
  assert (h_source + 6 ≤ length q)%nat as Hlq by (unfold h_source, ETH, DATA in *; lia).
  assert (port_for owner t1 (slice q h_dest 6) = Some nic) as Hback by (rewrite Dq; by apply Hnic).
  destruct (route_known owner rd2 t1 mt nports node pos2 q nic) as (t2 & Er2 & Hoth2 & Hnode);
    [by apply Hkeys|done|done|congruence|done|done|].
  assert (0 ≤ (if type =? SIMBRICKS_PROTO_MEM_H2M_MSG_READ then msg_len b else 0) ≤ msg_len b) as Hd2
    by (clear -Flen0; destruct (_ =? _); lia).
  set (d2 := if type =? SIMBRICKS_PROTO_MEM_H2M_MSG_READ then msg_len b else 0) in *.
  destruct (packet_copied q to4 d2) as (y & Ey & Ly & Oy & Sy & Wy); [done|lia..|].
  destruct (ForwardToMEM_spec y to5 (op_of y) eq_refl) as (c & Ec & Ic & Dc);
    rewrite ?Oy, ?Iq, ?Mq, ?Ly; [done|done|done|done| |].
  { destruct (type =? SIMBRICKS_PROTO_MEM_H2M_MSG_READ); [left|right]; apply Cq. }
  exists p, t1, p', x, q, mem', t2, y, c, (o_type (op_of y)). unfold request_of. cbn [m_type m_body].
  rewrite Oy, Iq in Ic. rewrite Oy, Mq in Dc.
  assert (routed t2) as Hrt.
  { unfold routed. split; [|by rewrite Hoth2, Hoth]. destruct (decide (node_mac e = mac2)) as [Hm|Hm].
    - rewrite Hm. by apply Hnode.
    - by rewrite Hoth2, Hoth. }
  destruct Hty as [-> | ->]; cbn [Z.eqb Pos.eqb SIMBRICKS_PROTO_MEM_H2M_MSG_READ SIMBRICKS_PROTO_MEM_H2M_MSG_WRITE] in *.
  - destruct Cq as (Tq & -> & Dq'). eexists. split_and!; try done. rewrite Oy. cbn [conveys m_type m_body].
    split; [done|]. split; [done|]. destruct (phys_addr_fits e (msg_addr b)) as [? _].
    rewrite length_slice by lia. rewrite (Dc Tq). by etransitivity; [exact Wy|].
  - destruct Cq as [Tq ->]. exists (WriteComp (msg_req_id b)). split_and!; try done; [|by rewrite Oy].
    cbn [retarget exec]. assert (slice x DATA (Z.to_nat (msg_len b)) = slice b HDR (Z.to_nat (msg_len b))) as ->; [|done].
    etransitivity; [exact Wx|]. etransitivity; [apply Wp'|]. by apply Wp.
Qed.

End end_to_end.

(** ** An example *)

Definition demo_owner (i : nat) : bytes := match i with 1%nat => demo_mac 1 | 2%nat => demo_mac 9 | _ => demo_mac 5 end.

(** The node is known from the option [-m], the memory NIC is not known yet. *)
Definition demo_table : list entry := [MkNode (Copied (demo_mac 9)) (mac_hash (demo_mac 9)) 2].
Definition demo_mapping : table_entry := MkEntry 3 0x1000 0x1FFF (demo_mac 9) 8.
Definition no_rings : rings := λ _ _, None.

Lemma remote_memory_refines_witness :
  let b := demo_request 77 0x1002 2 [5; 6] in
  let rd2 := enter no_rings 1 0 (demo_to 54 ++ demo_mac 1) in
  ∃ p t1 p' x q mem' t2 y c ty r,
    ForwardToETH (demo_mac 1) 1 1 1 b 0x61 (demo_to 200) = Some p ∧
    route (enter no_rings 1 0 p) demo_table [demo_mapping] 4 1 0 = Some (t1, p', [2%nat]) ∧
    write_packet (demo_to 200) (drop HDR p') (packet_len p') = Some x ∧
    HandleRequest (demo_to 32) (demo_mac 9) 2 x (demo_to 200) = Some (q, mem') ∧
    route (enter rd2 2 0 q) t1 [demo_mapping] 4 2 0 = Some (t2, q, [1%nat]) ∧
    write_packet (demo_to 200) (drop HDR q) (packet_len q) = Some y ∧
    ForwardToMEM y (demo_to 60) = Some (Some (c, ty)) ∧
    exec (demo_to 32) (retarget 10 (request_of (MkMsg b 0 0x61))) = (mem', [r]) ∧
    conveys r (MkMsg c 0 ty) ∧ routed 2 demo_owner demo_mapping t2.
Proof.
  apply (remote_memory_refines 1 2 4 demo_owner 1 2 1 1 demo_mapping); try (cbn; lia); try by vm_compute.
  - constructor; [done|constructor].
  - constructor; [done|constructor].
  - apply is_bytesb_sound. by vm_compute.
  - by right.
Defined.

(** The program on its rings: the packet of port 1 for address 0x1002 leaves at port 2 for address
    10 of the node, and at no other port. *)
Definition demo_port : iface := new_iface 4 200 false (MkParams 500 500 SyncDisabled).
Definition demo_switch : option state :=
  '(i, _) ← peer_step demo_port None None (new_peer 4 200 false (MkParams 500 500 SyncDisabled)) (PAlloc 0);
  q ← fill (in_q i) 0 (default [] (ForwardToETH (demo_mac 1) 1 1 1 (demo_request 77 0x1002 1 [6]) 0x61 (demo_to 200)));
  q ← SimbricksBaseIfOutSend q 0 0x40;
  let i := MkIface (base_if i) q (out_q i) (taken i) (sent i) in
  Some (MkState [MkPort demo_port None false; MkPort i None false; MkPort demo_port None false]
          demo_table [demo_mapping] 0 UINT64_MAX (Polling 0)).

Fixpoint steps (n : nat) (s : state) : option state :=
  match n with O => Some s | S n => s ← step s; steps n s end.

Example switch_sends_to_node :
  (s ← demo_switch; s ← steps 6 s;
   Some ((λ p, (λ m, (field (m_body m) op_addr 8, slice (m_body m) h_dest 6)) <$> sent (netif_ p)) <$> ports s)) =
  Some [[]; []; [(10, demo_mac 9)]].
Proof. by vm_compute. Qed.

End mem_switch.
