(* ===== verification/Interconnect.v ===== *)
(** * Memory interconnect (sims/mem/interconnect/interconnect.cc)

    Hosts send memory requests, and devices answer them.  The interconnect finds the device for
    the address of a request, translates the address and passes the request on under an
    identifier of its own: the address of a heap-allocated [Pending], which it gets back with the
    answer.

    The routines of ports, tables and pending requests, and any number of hosts and devices around
    them, which use their rings as bounded queues (BaseChannel.v).  The ideal interconnect has no
    heap: its messages to devices carry the [Pending] itself.  The code refines it, so no answer
    is taken for another, no pointer is used after it was freed, and none is leaked. *)

From S2P Require Import Prelude.

Module interconnect.

(** ** Messages (mem/proto.h) *)

(** To a device, and from it; [T] is the type of identifiers.  The length of a write is that of
    its data, and the identifier of a posted write is not used. *)
Inductive h2m (T : Type) :=
| Read (req_id : T) (addr len as_id : Z)
| Write (req_id : T) (addr as_id : Z) (data : bytes)
| WritePosted (addr as_id : Z) (data : bytes)
| HSync
| HOther (ty : Z).
Arguments Read {T}. Arguments Write {T}. Arguments WritePosted {T}. Arguments HSync {T}. Arguments HOther {T}.

Inductive m2h (T : Type) :=
| Readcomp (req_id : T) (data : bytes)
| Writecomp (req_id : T)
| MSync
| MOther (ty : Z).
Arguments Readcomp {T}. Arguments Writecomp {T}. Arguments MSync {T}. Arguments MOther {T}.

(** ** State *)

(** [dev] is [None] for a null pointer: the name of the device is not known. *)
Record TableEntry := MkEntry { vaddr_start : Z; vaddr_end : Z; phys_start : Z; dev : option nat }.

Record Pending := MkPending { host : nat; write : bool; preq_id : Z; paddr : Z; plen : Z }.

(** A port to a host, with the history of what the host took; and one to a device, which holds the
    requests it took. *)
Record Host := MkHost { h_in : list (h2m Z); h_out : list (m2h Z); h_got : list (m2h Z) }.
Record Device (T : Type) := MkDevice { d_out : list (h2m T); d_held : list (h2m T); d_in : list (m2h T) }.
Arguments MkDevice {T}. Arguments d_out {T}. Arguments d_held {T}. Arguments d_in {T}.

(** [abort], an exception that nobody catches, an access through a null pointer or past the end
    of a message, and an access through a pointer that is not that of a pending request. *)
Inductive fault := Aborted | Thrown | Undefined | Dangling.

(** The table, the number of entries of a ring and of data bytes in an entry. *)
Record config := MkConfig { map_table : list TableEntry; cap : nat; max_data : Z }.

Section interconnect.
Context (c : config).

(** ** Routing *)

(** [Lookup]: the device, and the address there. *)
Fixpoint Lookup (table : list TableEntry) (addr len : Z) : fault + (option nat * Z) :=
  match table with
  | [] => inl Thrown
  | te :: table =>
      if (vaddr_start te <=? addr) && (addr <? vaddr_end te) then
        if vaddr_end te <? u64 (addr + len) then inl Aborted
        else inr (dev te, u64 (phys_start te + u64 (addr - vaddr_start te)))
      else Lookup table addr len
  end.

(** [OutAlloc] and [OutSend] of a device port: the ring may be full. *)
Definition dev_send {T} (x : Device T) (m : h2m T) : fault + Device T :=
  if (cap c <=? length (d_out x))%nat then inl Thrown else inr (MkDevice (d_out x ++ [m]) (d_held x) (d_in x)).

Definition host_send (h : Host) (m : m2h Z) : fault + Host :=
  if (cap c <=? length (h_out h))%nat then inl Thrown else inr (MkHost (h_in h) (h_out h ++ [m]) (h_got h)).

(** [memcpy] of [n] bytes into a message, out of one that holds [data]. *)
Definition copy (data : bytes) (n : Z) : fault + bytes :=
  if (max_data c <? n) || (Z.of_nat (length data) <? n) then inl Undefined else inr (take (Z.to_nat n) data).

(** [Device::Read] and [Device::Write], with the identifier used for the pending request. *)
Definition Device_Read {T} (x : Device T) (id : T) (p : Pending) : fault + Device T := dev_send x (Read id (paddr p) (plen p) 0).
Definition Device_Write {T} (x : Device T) (id : T) (p : Pending) (data : bytes) (posted : bool) : fault + Device T :=
  if (cap c <=? length (d_out x))%nat then inl Thrown
  else
    data ← copy data (plen p);
    dev_send x (if posted then WritePosted (paddr p) 0 data else Write id (paddr p) 0 data).

(** What [Host::Poll] does with a message of host [h]: [None], or the device to use, the request to
    keep in mind, and the data of a write with whether it is posted. *)
Definition route (h : nat) (m : h2m Z) : fault + option (option nat * Pending * option (bytes * bool)) :=
  match m with
  | Read id addr len _ => '(d, a) ← Lookup (map_table c) addr len; inr (Some (d, MkPending h false id a len, None))
  | Write id addr _ data =>
      '(d, a) ← Lookup (map_table c) addr (Z.of_nat (length data));
      inr (Some (d, MkPending h false id a (Z.of_nat (length data)), Some (data, false)))
  | WritePosted addr _ data =>
      '(d, a) ← Lookup (map_table c) addr (Z.of_nat (length data));
      inr (Some (d, MkPending h false 0 a (Z.of_nat (length data)), Some (data, true)))
  | HSync => inr None
  | HOther _ => inl Aborted
  end.

(** The call of [Device::Read] or [Device::Write] through [d]. *)
Definition to_device {T} (ds : list (Device T)) (d : option nat) (id : T) (p : Pending) (w : option (bytes * bool)) : fault + list (Device T) :=
  match d ≫= λ d, x ← ds !! d; Some (d, x) with
  | None => inl Undefined
  | Some (d, x) =>
      x ← match w with None => Device_Read x id p | Some (data, posted) => Device_Write x id p data posted end;
      inr (<[d := x]> ds)
  end.

Definition is_posted (w : option (bytes * bool)) : bool := match w with Some (_, b) => b | None => false end.

(** [Host::CompletePendingR] and [Host::CompletePendingW] *)
Definition CompletePendingR (hs : list Host) (p : Pending) (data : bytes) : fault + list Host :=
  match hs !! host p with
  | None => inl Undefined
  | Some h =>
      if (cap c <=? length (h_out h))%nat then inl Thrown
      else
        data ← copy data (plen p);
        h ← host_send h (Readcomp (preq_id p) data);
        inr (<[host p := h]> hs)
  end.
Definition CompletePendingW (hs : list Host) (p : Pending) : fault + list Host :=
  match hs !! host p with
  | None => inl Undefined
  | Some h => h ← host_send h (Writecomp (preq_id p)); inr (<[host p := h]> hs)
  end.

(** ** The interconnect *)

Record state := MkState { heap : gmap Z Pending; hosts : list Host; devs : list (Device Z) }.

(** [Host::Poll]; [ptr] is what [new Pending] returns. *)
Definition Host_Poll (s : state) (i : nat) (ptr : Z) : fault + state :=
  match hosts s !! i with
  | Some (MkHost (m :: ms) out got) =>
      r ← route i m;
      let hs := <[i := MkHost ms out got]> (hosts s) in
      match r with
      | None => inr (MkState (heap s) hs (devs s))
      | Some (d, p, w) =>
          ds ← to_device (devs s) d ptr p w;
          inr (MkState (if is_posted w then delete ptr (<[ptr := p]> (heap s)) else <[ptr := p]> (heap s)) hs ds)
      end
  | _ => inr s
  end.

(** [Device::Poll] *)
Definition Device_Poll (s : state) (d : nat) : fault + state :=
  match devs s !! d with
  | Some (MkDevice out held (m :: ms)) =>
      let ds := <[d := MkDevice out held ms]> (devs s) in
      match m with
      | Readcomp ptr data =>
          match heap s !! ptr with
          | None => inl Dangling
          | Some p => hs ← CompletePendingR (hosts s) p data; inr (MkState (delete ptr (heap s)) hs ds)
          end
      | Writecomp ptr =>
          match heap s !! ptr with
          | None => inl Dangling
          | Some p => hs ← CompletePendingW (hosts s) p; inr (MkState (delete ptr (heap s)) hs ds)
          end
      | MSync => inr (MkState (heap s) (hosts s) ds)
      | MOther _ => inl Aborted
      end
  | _ => inr s
  end.

(** ** Hosts and devices *)

(** A device takes the next request, and answers one of those it holds; posted writes are not
    answered. *)
Definition dev_take {T} (x : Device T) : Device T :=
  match d_out x with
  | (Read _ _ _ _ | Write _ _ _ _) as m :: ms => MkDevice ms (d_held x ++ [m]) (d_in x)
  | _ :: ms => MkDevice ms (d_held x) (d_in x)
  | [] => x
  end.

Definition dev_answer {T} (x : Device T) (k : nat) (data : bytes) : Device T :=
  match d_held x !! k with
  | Some (Read id _ _ _) => MkDevice (d_out x) (delete k (d_held x)) (d_in x ++ [Readcomp id data])
  | Some (Write id _ _ _) => MkDevice (d_out x) (delete k (d_held x)) (d_in x ++ [Writecomp id])
  | _ => x
  end.

Inductive ev :=
| EHostSend (i : nat) (m : h2m Z)               (* host [i] sends a request *)
| EHostTake (i : nat)                           (* host [i] takes an answer *)
| EHostPoll (i : nat) (ptr : Z)                 (* the interconnect polls host [i] *)
| EDevTake (d : nat)                            (* device [d] takes a request *)
| EDevAnswer (d k : nat) (data : bytes)         (* device [d] answers the [k]-th it holds *)
| EDevSync (d : nat)                            (* device [d] synchronizes *)
| EDevPoll (d : nat).                           (* the interconnect polls device [d] *)

Definition host_put (m : h2m Z) (h : Host) : Host := MkHost (h_in h ++ [m]) (h_out h) (h_got h).
Definition host_take (h : Host) : Host := MkHost (h_in h) (drop 1 (h_out h)) (h_got h ++ take 1 (h_out h)).
Definition dev_sync {T} (x : Device T) : Device T := MkDevice (d_out x) (d_held x) (d_in x ++ [MSync]).

Definition step (s : state) (v : ev) : fault + state :=
  match v with
  | EHostSend i m => inr (MkState (heap s) (alter (host_put m) i (hosts s)) (devs s))
  | EHostTake i => inr (MkState (heap s) (alter host_take i (hosts s)) (devs s))
  | EHostPoll i ptr => Host_Poll s i ptr
  | EDevTake d => inr (MkState (heap s) (hosts s) (alter dev_take d (devs s)))
  | EDevAnswer d k data => inr (MkState (heap s) (hosts s) (alter (λ x, dev_answer x k data) d (devs s)))
  | EDevSync d => inr (MkState (heap s) (hosts s) (alter dev_sync d (devs s)))
  | EDevPoll d => Device_Poll s d
  end.

Fixpoint run (s : state) (vs : list ev) : fault + state :=
  match vs with [] => inr s | v :: vs => s ← step s v; run s vs end.

(** ** The ideal interconnect *)

Record ideal := MkIdeal { i_hosts : list Host; i_devs : list (Device Pending) }.

Definition ideal_step (s : ideal) (v : ev) : fault + ideal :=
  match v with
  | EHostSend i m => inr (MkIdeal (alter (host_put m) i (i_hosts s)) (i_devs s))
  | EHostTake i => inr (MkIdeal (alter host_take i (i_hosts s)) (i_devs s))
  | EHostPoll i _ =>
      match i_hosts s !! i with
      | Some (MkHost (m :: ms) out got) =>
          r ← route i m;
          let hs := <[i := MkHost ms out got]> (i_hosts s) in
          match r with
          | None => inr (MkIdeal hs (i_devs s))
          | Some (d, p, w) => ds ← to_device (i_devs s) d p p w; inr (MkIdeal hs ds)
          end
      | _ => inr s
      end
  | EDevTake d => inr (MkIdeal (i_hosts s) (alter dev_take d (i_devs s)))
  | EDevAnswer d k data => inr (MkIdeal (i_hosts s) (alter (λ x, dev_answer x k data) d (i_devs s)))
  | EDevSync d => inr (MkIdeal (i_hosts s) (alter dev_sync d (i_devs s)))
  | EDevPoll d =>
      match i_devs s !! d with
      | Some (MkDevice out held (m :: ms)) =>
          let ds := <[d := MkDevice out held ms]> (i_devs s) in
          match m with
          | Readcomp p data => hs ← CompletePendingR (i_hosts s) p data; inr (MkIdeal hs ds)
          | Writecomp p => hs ← CompletePendingW (i_hosts s) p; inr (MkIdeal hs ds)
          | MSync => inr (MkIdeal (i_hosts s) ds)
          | MOther _ => inl Aborted
          end
      | _ => inr s
      end
  end.

Fixpoint ideal_run (s : ideal) (vs : list ev) : fault + ideal :=
  match vs with [] => inr s | v :: vs => s ← ideal_step s v; ideal_run s vs end.


(** ** Identifiers on the way *)

Definition h2m_ids {T} (m : h2m T) : list T := match m with Read p _ _ _ | Write p _ _ _ => [p] | _ => [] end.
Definition m2h_ids {T} (m : m2h T) : list T := match m with Readcomp p _ | Writecomp p => [p] | _ => [] end.
Definition dev_ids {T} (x : Device T) : list T := (d_out x ≫= h2m_ids) ++ (d_held x ≫= h2m_ids) ++ (d_in x ≫= m2h_ids).

Lemma bind_insert_perm {A B} (f : A → list B) l i x y k :
  l !! i = Some x → f y ≡ₚ k ++ f x → <[i := y]> l ≫= f ≡ₚ k ++ (l ≫= f).
Proof.
  intros Hi Hf. revert i Hi. induction l as [|z l IH]; intros [|i] Hi; try done.
  - injection Hi as ->. change (<[0%nat := y]> (x :: l)) with (y :: l). cbn. rewrite Hf. by rewrite app_assoc.
  - change (<[S i := y]> (z :: l)) with (z :: <[i := y]> l). cbn. rewrite (IH i Hi). by rewrite !app_assoc, (Permutation_app_comm (f z) k).
Qed.

Lemma bind_alter_perm {A B} (f : A → list B) g l i : (∀ x, f (g x) ≡ₚ f x) → alter g i l ≫= f ≡ₚ l ≫= f.
Proof.
  intros Hg. revert i. induction l as [|z l IH]; intros [|i]; try done.
  - change (alter g 0%nat (z :: l)) with (g z :: l). cbn. by rewrite Hg.
  - change (alter g (S i) (z :: l)) with (z :: alter g i l). cbn. by rewrite IH.
Qed.

Section ids.
Context {T : Type}.
Implicit Types x : Device T.

Lemma perm_held (a h n : list T) p : a ++ (h ++ [p]) ++ n ≡ₚ p :: a ++ h ++ n.
Proof. rewrite <- app_assoc, (app_assoc a h). cbn. by rewrite <- Permutation_middle, app_assoc. Qed.

Lemma perm_answer (a h n : list T) p : a ++ h ++ n ++ [p] ≡ₚ a ++ (p :: h) ++ n.
Proof. apply Permutation_app_head. rewrite (Permutation_app_comm n). cbn. by rewrite <- Permutation_middle. Qed.

Lemma dev_take_ids x : dev_ids (dev_take x) ≡ₚ dev_ids x.
Proof.
  unfold dev_take. destruct x as [[|m ms] held ans]; [done|]. destruct m; cbn [d_out]; try done.
  all: unfold dev_ids; cbn [d_out d_held d_in]; rewrite bind_app; apply perm_held.
Qed.

Lemma dev_answer_ids x k data : dev_ids (dev_answer x k data) ≡ₚ dev_ids x.
Proof.
  unfold dev_answer. destruct (d_held x !! k) as [m|] eqn:E; [|done]. pose proof (delete_Permutation _ _ _ E) as Hp.
  destruct m; try done; unfold dev_ids; cbn [d_out d_held d_in]; rewrite Hp at 2; rewrite bind_app; apply perm_answer.
Qed.

Lemma dev_sync_ids x : dev_ids (dev_sync x) = dev_ids x.
Proof. unfold dev_ids. cbn. by rewrite bind_app, app_nil_r. Qed.

(** A request passed on. *)
Lemma to_device_ids (ds ds' : list (Device T)) d id p w :
  to_device ds d id p w = inr ds' → ds' ≫= dev_ids ≡ₚ (if is_posted w then [] else [id]) ++ (ds ≫= dev_ids).
Proof.
  unfold to_device. destruct d as [d|]; [|done]. cbn [mbind option_bind]. destruct (ds !! d) as [x|] eqn:Ex; [|done]. cbn [mbind option_bind].
  assert (∀ m, h2m_ids m = (if is_posted w then [] else [id]) → (x ← dev_send x m; inr (<[d := x]> ds)) = inr ds' →
    ds' ≫= dev_ids ≡ₚ (if is_posted w then [] else [id]) ++ (ds ≫= dev_ids)) as Hsend.
  { intros m <-. unfold dev_send. destruct (_ <=? _)%nat; [done|]. cbn [mbind sum_bind]. intros [= <-]. eapply bind_insert_perm; [done|].
    unfold dev_ids. cbn [d_out d_held d_in]. rewrite bind_app. cbn. rewrite app_nil_r, (Permutation_app_comm (d_out x ≫= h2m_ids)). by rewrite <- !app_assoc. }
  destruct w as [[data posted]|]; [|by apply Hsend]. unfold Device_Write. destruct (_ <=? _)%nat; [done|].
  destruct (copy data (plen p)) as [|b]; [done|]. cbn [mbind sum_bind]. destruct posted; by apply Hsend.
Qed.

(** An answer taken. *)
Lemma dev_pop_ids (ds : list (Device T)) d o h m ms :
  ds !! d = Some (MkDevice o h (m :: ms)) → ds ≫= dev_ids ≡ₚ m2h_ids m ++ (<[d := MkDevice o h ms]> ds ≫= dev_ids).
Proof.
  intros Ex. rewrite <- (list_insert_id ds d _ Ex) at 1. rewrite <- (list_insert_insert_eq ds d (MkDevice o h (m :: ms)) (MkDevice o h ms)).
  eapply bind_insert_perm; [apply list_lookup_insert_eq; by eapply lookup_lt_Some|]. unfold dev_ids. cbn [d_out d_held d_in mbind list_bind].
  by rewrite (app_assoc (o ≫= h2m_ids)), Permutation_app_swap_app, <- app_assoc.
Qed.

End ids.

(** ** Refinement *)

(** A message with a pointer, and one with the request it points to. *)
Definition h2m_rel (hp : gmap Z Pending) (m : h2m Z) (M : h2m Pending) : Prop :=
  match m, M with
  | Read p a l x, Read P a' l' x' => hp !! p = Some P ∧ a = a' ∧ l = l' ∧ x = x'
  | Write p a x b, Write P a' x' b' => hp !! p = Some P ∧ a = a' ∧ x = x' ∧ b = b'
  | WritePosted a x b, WritePosted a' x' b' => a = a' ∧ x = x' ∧ b = b'
  | HSync, HSync => True
  | HOther t, HOther t' => t = t'
  | _, _ => False
  end.
Definition m2h_rel (hp : gmap Z Pending) (m : m2h Z) (M : m2h Pending) : Prop :=
  match m, M with
  | Readcomp p b, Readcomp P b' => hp !! p = Some P ∧ b = b'
  | Writecomp p, Writecomp P => hp !! p = Some P
  | MSync, MSync => True
  | MOther t, MOther t' => t = t'
  | _, _ => False
  end.

Definition dev_rel (hp : gmap Z Pending) (x : Device Z) (X : Device Pending) : Prop :=
  Forall2 (h2m_rel hp) (d_out x) (d_out X) ∧ Forall2 (h2m_rel hp) (d_held x) (d_held X) ∧ Forall2 (m2h_rel hp) (d_in x) (d_in X).

Record related (s : state) (S : ideal) : Prop := {
  r_hosts : hosts s = i_hosts S;
  r_devs : Forall2 (dev_rel (heap s)) (devs s) (i_devs S);
  r_nodup : NoDup (devs s ≫= dev_ids);
  r_heap p : p ∈ devs s ≫= dev_ids ↔ is_Some (heap s !! p);
}.

(** Both fail in the same way, or get to related states. *)
Definition same_outcome {A B} (R : A → B → Prop) (r : fault + A) (r' : fault + B) : Prop :=
  match r, r' with inr a, inr b => R a b | inl f, inl g => f = g | _, _ => False end.

Lemma h2m_rel_ext hp hp' m M : (∀ p, p ∈ h2m_ids m → hp' !! p = hp !! p) → h2m_rel hp m M → h2m_rel hp' m M.
Proof. intros H. destruct m, M; cbn in *; try done; rewrite H by set_solver; done. Qed.
Lemma m2h_rel_ext hp hp' m M : (∀ p, p ∈ m2h_ids m → hp' !! p = hp !! p) → m2h_rel hp m M → m2h_rel hp' m M.
Proof. intros H. destruct m, M; cbn in *; try done; rewrite H by set_solver; done. Qed.

Lemma Forall2_ids {A B} (f : A → list Z) (P : Z → Prop) (R R' : A → B → Prop) l k :
  (∀ x y, (∀ p, p ∈ f x → P p) → R x y → R' x y) → (∀ p, p ∈ l ≫= f → P p) → Forall2 R l k → Forall2 R' l k.
Proof.
  intros HR Hl H. induction H as [|x y l k Hxy H IH]; constructor.
  - apply HR; [|done]. intros p Hp. apply Hl. cbn. set_solver.
  - apply IH. intros p Hp. apply Hl. cbn. set_solver.
Qed.

Lemma dev_rel_ext hp hp' x X : (∀ p, p ∈ dev_ids x → hp' !! p = hp !! p) → dev_rel hp x X → dev_rel hp' x X.
Proof.
  unfold dev_ids. intros H (H1 & H2 & H3).
  split_and!; (eapply (Forall2_ids _ (λ p, hp' !! p = hp !! p)); [|intros p Hp; apply H|eassumption]).
  1, 3: by intros; eapply h2m_rel_ext. 3: by intros; eapply m2h_rel_ext. all: set_solver.
Qed.

Lemma devs_rel_ext hp hp' ds Ds :
  (∀ p, p ∈ ds ≫= dev_ids → hp' !! p = hp !! p) → Forall2 (dev_rel hp) ds Ds → Forall2 (dev_rel hp') ds Ds.
Proof. intros H. apply (Forall2_ids dev_ids (λ p, hp' !! p = hp !! p)); [|done]. intros x X. apply dev_rel_ext. Qed.

(** What a device does by itself. *)
Lemma related_dev s S g G d :
  related s S → (∀ x, dev_ids (g x) ≡ₚ dev_ids x) → (∀ x X, dev_rel (heap s) x X → dev_rel (heap s) (g x) (G X)) →
  related (MkState (heap s) (hosts s) (alter g d (devs s))) (MkIdeal (i_hosts S) (alter G d (i_devs S))).
Proof.
  intros [] Hi Hr. pose proof (bind_alter_perm dev_ids g (devs s) d Hi) as Hp. constructor; cbn [heap hosts devs i_hosts i_devs]; try done.
  - apply Forall2_alter; [done|]. intros. by apply Hr.
  - by rewrite Hp.
  - intros p. by rewrite Hp.
Qed.

Lemma dev_take_rel hp x X : dev_rel hp x X → dev_rel hp (dev_take x) (dev_take X).
Proof.
  intros (H1 & H2 & H3). unfold dev_take. destruct (d_out x) as [|m ms] eqn:E, (d_out X) as [|M Ms] eqn:E'; try by inversion H1.
  { split_and!; try done. by rewrite E, E'. }
  apply Forall2_cons in H1 as [Hm H1].
  destruct m, M; cbn in Hm; try done; repeat split; try done; cbn; by apply Forall2_app; [|constructor].
Qed.

Lemma dev_answer_rel hp x X k data : dev_rel hp x X → dev_rel hp (dev_answer x k data) (dev_answer X k data).
Proof.
  intros (H1 & H2 & H3). unfold dev_answer. destruct (d_held x !! k) as [m|] eqn:Em.
  - destruct (Forall2_lookup_l _ _ _ _ _ H2 Em) as (M & -> & Hm). destruct m, M; cbn in Hm; try done; repeat split; cbn; try done.
    all: first [by apply Forall2_delete|apply Forall2_app; [done|constructor; [|done]; cbn; naive_solver]].
  - assert (d_held X !! k = None) as ->; [|done]. apply lookup_ge_None. rewrite <- (Forall2_length _ _ _ H2). by apply lookup_ge_None.
Qed.

Lemma dev_sync_rel hp x X : dev_rel hp x X → dev_rel hp (dev_sync x) (dev_sync X).
Proof. intros (H1 & H2 & H3). repeat split; try done. cbn. apply Forall2_app; [done|by constructor]. Qed.


(** A request passed on. *)
Lemma dev_send_rel hp x X m M : dev_rel hp x X → h2m_rel hp m M → same_outcome (dev_rel hp) (dev_send x m) (dev_send X M).
Proof.
  intros (H1 & H2 & H3) Hm. unfold dev_send. rewrite <- (Forall2_length _ _ _ H1). destruct (_ <=? _)%nat; [done|].
  split_and!; try done. apply Forall2_app; [done|by constructor].
Qed.

Lemma to_device_rel hp ptr p ds Ds d w :
  Forall2 (dev_rel hp) ds Ds → hp !! ptr = Some p → same_outcome (Forall2 (dev_rel hp)) (to_device ds d ptr p w) (to_device Ds d p p w).
Proof.
  intros H Hp. unfold to_device. destruct d as [d|]; [|done]. cbn [mbind option_bind]. destruct (ds !! d) as [x|] eqn:Ex; cycle 1.
  { assert (Ds !! d = None) as ->; [|done]. apply lookup_ge_None. rewrite <- (Forall2_length _ _ _ H). by apply lookup_ge_None. }
  destruct (Forall2_lookup_l _ _ _ _ _ H Ex) as (X & EX & Hx). rewrite EX. cbn [mbind option_bind].
  assert (∀ m M, h2m_rel hp m M → same_outcome (Forall2 (dev_rel hp)) (x ← dev_send x m; inr (<[d := x]> ds)) (x ← dev_send X M; inr (<[d := x]> Ds))) as Hsend.
  { intros m M Hm. pose proof (dev_send_rel hp x X m M Hx Hm) as Ho. destruct (dev_send x m), (dev_send X M); try done. by apply Forall2_insert. }
  destruct w as [[data posted]|]; [|by apply Hsend]. unfold Device_Write. rewrite <- (Forall2_length _ _ _ (proj1 Hx)).
  destruct (_ <=? _)%nat; [done|]. destruct (copy data (plen p)) as [|b]; [done|]. cbn [mbind sum_bind]. destruct posted; by apply Hsend.
Qed.

(** The pointer [new] returns is not in use. *)
Definition fresh (s : state) (v : ev) : Prop := match v with EHostPoll _ ptr => heap s !! ptr = None | _ => True end.

Lemma poll_host_rel s S i ptr :
  related s S → heap s !! ptr = None → same_outcome related (Host_Poll s i ptr) (ideal_step S (EHostPoll i ptr)).
Proof.
  intros H Hf. pose proof H as [Hh Hd Hn Hp]. unfold Host_Poll. cbn [ideal_step]. rewrite <- Hh.
  destruct (hosts s !! i) as [[[|m ms] out got]|]; [done| |done]. destruct (route i m) as [|[[[d p] w]|]]; [done| |by constructor]. cbn [mbind sum_bind].
  assert (∀ q, q ∈ devs s ≫= dev_ids → <[ptr := p]> (heap s) !! q = heap s !! q) as Hq.
  { intros q Hq. apply lookup_insert_ne. intros ->. apply Hp in Hq as [? ?]. congruence. }
  assert (ptr ∉ devs s ≫= dev_ids) as Hnew by (rewrite Hp; by rewrite Hf; intros []).
  pose proof (to_device_rel (<[ptr := p]> (heap s)) ptr p (devs s) (i_devs S) d w (devs_rel_ext _ _ _ _ Hq Hd) (lookup_insert_eq _ _ _)) as Ho.
  destruct (to_device (devs s) d ptr p w) as [|ds] eqn:E, (to_device (i_devs S) d p p w) as [|Ds]; try done. rename Ho into Hr.
  apply to_device_ids in E as Hi. destruct (is_posted w).
  - rewrite delete_insert_id by done. constructor; cbn [heap hosts devs i_hosts i_devs]; rewrite ?Hi; try done.
    + eapply devs_rel_ext; [|exact Hr]. intros q Hqd. rewrite Hi in Hqd. symmetry. by apply Hq.
    + intros q. by rewrite Hi.
  - constructor; cbn [heap hosts devs i_hosts i_devs]; rewrite ?Hi; try done.
    + by constructor.
    + intros q. rewrite Hi, lookup_insert_is_Some. cbn. rewrite elem_of_cons, Hp. destruct (decide (q = ptr)); naive_solver.
Qed.

(** An answer. *)
Lemma poll_dev_rel s S d : related s S → same_outcome related (Device_Poll s d) (ideal_step S (EDevPoll d)).
Proof.
  intros H. pose proof H as [Hh Hd Hn Hp]. unfold Device_Poll. cbn [ideal_step]. rewrite <- Hh. destruct (devs s !! d) as [x|] eqn:Ex; cycle 1.
  { assert (i_devs S !! d = None) as ->; [|done]. apply lookup_ge_None. rewrite <- (Forall2_length _ _ _ Hd). by apply lookup_ge_None. }
  destruct (Forall2_lookup_l _ _ _ _ _ Hd Ex) as (X & EX & Hx1 & Hx2 & Hx3). rewrite EX.
  destruct x as [o h [|m ms]], X as [o' h' [|M Ms]]; cbn [d_out d_held d_in] in *; try done; [by apply Forall2_nil_cons_inv in Hx3|by apply Forall2_cons_nil_inv in Hx3|].
  apply Forall2_cons in Hx3 as [Hm Hx3].
  assert (∀ hp q, (∀ p, p ∈ <[d := MkDevice o h ms]> (devs s) ≫= dev_ids → hp !! p = heap s !! p) →
    (∀ p, p ∈ <[d := MkDevice o h ms]> (devs s) ≫= dev_ids ↔ is_Some (hp !! p)) → NoDup (<[d := MkDevice o h ms]> (devs s) ≫= dev_ids) →
    related (MkState hp q (<[d := MkDevice o h ms]> (devs s))) (MkIdeal q (<[d := MkDevice o' h' Ms]> (i_devs S)))) as Hrel.
  { intros hp q He Hhp Hnd. constructor; cbn [heap hosts devs i_hosts i_devs]; try done. eapply devs_rel_ext; [exact He|]. by apply Forall2_insert. }
  pose proof (dev_pop_ids (devs s) d o h m ms Ex) as Hids.
  rewrite Hids in Hn. setoid_rewrite Hids in Hp.
  assert (∀ p q P, m2h_ids m = [p] → heap s !! p = Some P →
    related (MkState (delete p (heap s)) q (<[d := MkDevice o h ms]> (devs s))) (MkIdeal q (<[d := MkDevice o' h' Ms]> (i_devs S)))) as Hdel.
  { intros p q P Em EP. rewrite Em in Hn, Hp. cbn in Hn. apply NoDup_cons in Hn as [Hnp Hn]. apply Hrel; [| |done].
    - intros p' Hp'. apply lookup_delete_ne. by intros ->.
    - intros p'. rewrite lookup_delete_is_Some, <- Hp. cbn. rewrite elem_of_cons. naive_solver. }
  destruct m, M; cbn in Hm; try done.
  - destruct Hm as [EP ->]. rewrite EP. destruct (CompletePendingR _ _ _); [done|]. by eapply Hdel.
  - rewrite Hm. destruct (CompletePendingW _ _); [done|]. by eapply Hdel.
  - cbn. by apply Hrel.
Qed.

Lemma step_rel s S v : related s S → fresh s v → same_outcome related (step s v) (ideal_step S v).
Proof.
  intros H Hf. destruct v as [i m|i|i ptr|d|d k data|d|d]; cbn [step].
  - destruct H as [Hh ? ? ?]. cbn. rewrite <- Hh. by constructor.
  - destruct H as [Hh ? ? ?]. cbn. rewrite <- Hh. by constructor.
  - by apply poll_host_rel.
  - apply related_dev; [done|apply dev_take_ids|intros; by apply dev_take_rel].
  - apply related_dev; [done|intros; apply dev_answer_ids|intros; by apply dev_answer_rel].
  - apply related_dev; [done|intros; by rewrite dev_sync_ids|intros; by apply dev_sync_rel].
  - by apply poll_dev_rel.
Qed.

Fixpoint fresh_run (s : state) (vs : list ev) : Prop :=
  match vs with [] => True | v :: vs => fresh s v ∧ ∀ s', step s v = inr s' → fresh_run s' vs end.

Definition new_state (hs ds : nat) : state := MkState ∅ (replicate hs (MkHost [] [] [])) (replicate ds (MkDevice [] [] [])).
Definition new_ideal (hs ds : nat) : ideal := MkIdeal (replicate hs (MkHost [] [] [])) (replicate ds (MkDevice [] [] [])).

Lemma new_related hs ds : related (new_state hs ds) (new_ideal hs ds).
Proof.
  assert (devs (new_state hs ds) ≫= dev_ids = []) as E by (cbn; induction ds; cbn; done).
  constructor; rewrite ?E; cbn [heap new_state]; try done.
  - cbn. clear E. induction ds; cbn; [constructor|]. constructor; [|done]. split_and!; constructor.
  - constructor.
  - intros p. rewrite lookup_empty. split; [set_solver|by intros []].
Qed.

(** ** Every request is answered once *)

(** Of the requests of host [i] that are to be answered: those it sends at an event, those at its
    port, and those on the way. *)
Definition sent_by (i : nat) (v : ev) : list Z := match v with EHostSend j m => if decide (j = i) then h2m_ids m else [] | _ => [] end.
Definition host_ids (h : Host) : list Z := (h_in h ≫= h2m_ids) ++ (h_out h ≫= m2h_ids) ++ (h_got h ≫= m2h_ids).
Definition of_host (i : nat) (ps : list Pending) : list Z := preq_id <$> filter (λ p, host p = i) ps.

Lemma of_host_perm i ps ps' : ps ≡ₚ ps' → of_host i ps ≡ₚ of_host i ps'.
Proof. intros H. unfold of_host. by rewrite H. Qed.

Lemma of_host_cons i p ps : of_host i (p :: ps) = (if decide (host p = i) then [preq_id p] else []) ++ of_host i ps.
Proof. unfold of_host. rewrite filter_cons. by case_decide. Qed.

Lemma route_ids i m d p w :
  route i m = inr (Some (d, p, w)) → host p = i ∧ h2m_ids m = if is_posted w then [] else [preq_id p].
Proof. unfold route. destruct m; try done; (destruct (Lookup _ _ _) as [|[? ?]]; [done|]); cbn; by intros [= <- <- <-]. Qed.

Lemma route_none i m : route i m = inr None → h2m_ids m = [].
Proof. unfold route. destruct m; try done; (destruct (Lookup _ _ _) as [|[? ?]]; [done|]); cbn; done. Qed.

Definition answered (hs : list Host) (p : Pending) (hs' : list Host) : Prop :=
  ∃ h m, hs !! host p = Some h ∧ m2h_ids m = [preq_id p] ∧ hs' = <[host p := MkHost (h_in h) (h_out h ++ [m]) (h_got h)]> hs.

Lemma complete_R hs p data hs' : CompletePendingR hs p data = inr hs' → answered hs p hs'.
Proof.
  unfold CompletePendingR. destruct (hs !! host p) as [h|] eqn:E; [|done]. destruct (_ <=? _)%nat eqn:El; [done|]. destruct (copy _ _) as [|b]; [done|]. cbn.
  unfold host_send. rewrite El. cbn. intros [= <-]. by exists h, (Readcomp (preq_id p) b).
Qed.

Lemma complete_W hs p hs' : CompletePendingW hs p = inr hs' → answered hs p hs'.
Proof.
  unfold CompletePendingW. destruct (hs !! host p) as [h|] eqn:E; [|done]. unfold host_send. destruct (_ <=? _)%nat; [done|]. cbn.
  intros [= <-]. by exists h, (Writecomp (preq_id p)).
Qed.

(** The requests of host [i] at all places are as before, with what it sends now. *)
Definition conserved (S S' : ideal) (i : nat) (new : list Z) : Prop :=
  ∀ h, i_hosts S !! i = Some h → ∃ h', i_hosts S' !! i = Some h' ∧
    host_ids h' ++ of_host i (i_devs S' ≫= dev_ids) ≡ₚ new ++ host_ids h ++ of_host i (i_devs S ≫= dev_ids).

Lemma answered_conserved hs p hs' i ds ds' :
  answered hs p hs' → ds ≫= dev_ids ≡ₚ p :: (ds' ≫= dev_ids) → conserved (MkIdeal hs ds) (MkIdeal hs' ds') i [].
Proof.
  intros (h & m & Eh & Em & ->) Hd h0 H0. cbn in *. pose proof (of_host_perm i _ _ Hd) as P. rewrite of_host_cons in P. destruct (decide (host p = i)) as [<-|Hne].
  - rewrite H0 in Eh. injection Eh as ->. rewrite list_lookup_insert_eq by (by eapply lookup_lt_Some). eexists. split; [done|].
    rewrite P. unfold host_ids. cbn [h_in h_out h_got]. rewrite bind_app. cbn [mbind list_bind]. rewrite Em, app_nil_r, perm_held. apply Permutation_middle.
  - rewrite list_lookup_insert_ne by done. exists h0. split; [done|]. by rewrite P.
Qed.

Lemma step_conserved S v S' i : ideal_step S v = inr S' → conserved S S' i (sent_by i v).
Proof.
  destruct S as [hs ds]. destruct v as [j m|j|j ptr|d|d k data|d|d]; cbn [ideal_step sent_by i_hosts i_devs].
  - intros [= <-] h Hh. cbn in *. destruct (decide (j = i)) as [->|Hne]; [|rewrite list_lookup_alter_ne by done; by exists h].
    rewrite list_lookup_alter_eq, Hh. eexists. split; [done|]. unfold host_ids, host_put. cbn [h_in h_out h_got]. rewrite bind_app. cbn. rewrite app_nil_r.
    rewrite (Permutation_app_comm (h_in h ≫= h2m_ids)). by rewrite <- !app_assoc.
  - intros [= <-] h Hh. cbn in *. destruct (decide (j = i)) as [->|Hne]; [|rewrite list_lookup_alter_ne by done; by exists h].
    rewrite list_lookup_alter_eq, Hh. eexists. split; [done|]. unfold host_ids, host_take. cbn [h_in h_out h_got].
    destruct (h_out h) as [|m ms]; [cbn; by rewrite app_nil_r|]. cbn [drop take]. rewrite bind_app. cbn. rewrite app_nil_r. apply Permutation_app_tail, Permutation_app_head.
    by rewrite app_assoc, (Permutation_app_comm _ (m2h_ids m)), app_assoc.
  - destruct (hs !! j) as [[[|m ms] out got]|] eqn:Ej; [intros [= <-] h Hh; by exists h| |intros [= <-] h Hh; by exists h].
    destruct (route j m) as [|[[[d p] w]|]] eqn:Er; [done| |]; cbn [mbind sum_bind].
    + destruct (to_device ds d p p w) as [|ds'] eqn:Ed; [done|]. cbn. intros [= <-] h Hh. cbn in *. apply to_device_ids in Ed.
      apply route_ids in Er as [Hp Hm]. pose proof (of_host_perm i _ _ Ed) as P. destruct (decide (j = i)) as [->|Hne].
      * rewrite list_lookup_insert_eq by (by eapply lookup_lt_Some). eexists. split; [done|]. rewrite Ej in Hh. injection Hh as <-.
        rewrite P. unfold host_ids. cbn [h_in h_out h_got mbind list_bind]. rewrite Hm. destruct (is_posted w); [done|]. cbn [app]. rewrite of_host_cons, decide_True by done.
        cbn. by rewrite <- Permutation_middle.
      * rewrite list_lookup_insert_ne by done. exists h. split; [done|]. rewrite P. destruct (is_posted w); [done|]. cbn [app]. rewrite of_host_cons, decide_False by congruence. done.
    + intros [= <-] h Hh. cbn in *. apply route_none in Er. destruct (decide (j = i)) as [->|Hne]; [|rewrite list_lookup_insert_ne by done; by exists h].
      rewrite list_lookup_insert_eq by (by eapply lookup_lt_Some). eexists. split; [done|]. rewrite Ej in Hh. injection Hh as <-.
      unfold host_ids. cbn [h_in h_out h_got mbind list_bind]. by rewrite Er.
  - intros [= <-] h Hh. exists h. split; [done|]. cbn [i_hosts i_devs app]. by rewrite (of_host_perm i _ _ (bind_alter_perm dev_ids _ _ d dev_take_ids)).
  - intros [= <-] h Hh. exists h. split; [done|]. cbn [i_hosts i_devs app].
    by rewrite (of_host_perm i _ _ (bind_alter_perm dev_ids _ _ d (λ x, dev_answer_ids x k data))).
  - intros [= <-] h Hh. exists h. split; [done|]. cbn [i_hosts i_devs app].
    assert (∀ x : Device Pending, dev_ids (dev_sync x) ≡ₚ dev_ids x) as Hx by (intros; by rewrite dev_sync_ids). by rewrite (of_host_perm i _ _ (bind_alter_perm dev_ids _ ds d Hx)).
  - destruct (ds !! d) as [[o hl [|m ms]]|] eqn:Ed; [intros [= <-] h Hh; by exists h| |intros [= <-] h Hh; by exists h].
    pose proof (dev_pop_ids ds d o hl m ms Ed) as Hids. destruct m as [p data|p| |]; [| | |done].
    + destruct (CompletePendingR hs p data) as [|hs'] eqn:Ec; [done|]. cbn. intros [= <-]. by eapply answered_conserved; [eapply complete_R|].
    + destruct (CompletePendingW hs p) as [|hs'] eqn:Ec; [done|]. cbn. intros [= <-]. by eapply answered_conserved; [eapply complete_W|].
    + intros [= <-] h Hh. exists h. split; [done|]. cbn [i_hosts i_devs app]. by rewrite (of_host_perm i _ _ Hids).
Qed.

(** The pending requests on the heap are those on the way. *)
Lemma heap_ids s S : related s S → (map_to_list (heap s)).*2 ≡ₚ i_devs S ≫= dev_ids.
Proof.
  intros [_ Hd Hn Hp]. set (K := devs s ≫= dev_ids) in *. set (K' := i_devs S ≫= dev_ids).
  assert (Forall2 (λ p P, heap s !! p = Some P) K K') as HK.
  { unfold K, K'. clear -Hd. induction Hd as [|x X ds Ds (H1 & H2 & H3) _ IH]; cbn; [constructor|]. apply Forall2_app; [|done]. unfold dev_ids.
    assert (∀ l L, Forall2 (h2m_rel (heap s)) l L → Forall2 (λ p P, heap s !! p = Some P) (l ≫= h2m_ids) (L ≫= h2m_ids)) as Hout.
    { intros l L Hl. induction Hl as [|m M l L Hm _ IHl]; cbn; [constructor|]. apply Forall2_app; [|done]. destruct m, M; cbn in *; naive_solver. }
    assert (∀ l L, Forall2 (m2h_rel (heap s)) l L → Forall2 (λ p P, heap s !! p = Some P) (l ≫= m2h_ids) (L ≫= m2h_ids)) as Hin.
    { intros l L Hl. induction Hl as [|m M l L Hm _ IHl]; cbn; [constructor|]. apply Forall2_app; [|done]. destruct m, M; cbn in *; naive_solver. }
    apply Forall2_app; [|apply Forall2_app]; auto. }
  assert (K = (zip K K').*1 ∧ K' = (zip K K').*2) as [E1 E2] by (split; symmetry; [apply fst_zip|apply snd_zip]; rewrite (Forall2_length _ _ _ HK); done).
  assert (heap s = list_to_map (zip K K')) as ->; [|rewrite map_to_list_to_map by (by rewrite <- E1); by rewrite <- E2].
  apply map_eq. intros p. destruct (heap s !! p) as [P|] eqn:EP; symmetry.
  - apply elem_of_list_to_map; [by rewrite <- E1|]. assert (p ∈ K) as HpK by (apply Hp; by rewrite EP). apply list_elem_of_lookup in HpK as [k Hk].
    destruct (Forall2_lookup_l _ _ _ _ _ HK Hk) as (P' & Hk' & EP'). apply list_elem_of_lookup. exists k. rewrite lookup_zip_with, Hk, Hk'. cbn. congruence.
  - apply not_elem_of_list_to_map. rewrite <- E1, Hp, EP. by intros [].
Qed.

Lemma run_rel vs : ∀ s S, related s S → fresh_run s vs →
  same_outcome (λ s' S', related s' S' ∧ ∀ i, conserved S S' i (vs ≫= sent_by i)) (run s vs) (ideal_run S vs).
Proof.
  induction vs as [|v vs IH]; intros s S H Hf; cbn [run ideal_run].
  { split; [done|]. intros i h Hh. by exists h. }
  destruct Hf as [Hv Hf]. pose proof (step_rel s S v H Hv) as Hs. destruct (step s v) as [f|s1] eqn:E, (ideal_step S v) as [g|S1] eqn:E'; try done. cbn [mbind sum_bind].
  specialize (IH s1 S1 Hs (Hf s1 eq_refl)). destruct (run s1 vs) as [|s2], (ideal_run S1 vs) as [|S2]; try done. destruct IH as [Hr Hc]. split; [done|].
  intros i h Hh. destruct (step_conserved S v S1 i E' h Hh) as (h1 & Hh1 & P1). destruct (Hc i h1 Hh1) as (h2 & Hh2 & P2). exists h2. split; [done|].
  rewrite P2, P1. cbn [mbind list_bind]. by rewrite <- app_assoc, Permutation_app_swap_app.
Qed.

(** The ideal interconnect has no pointers. *)
Lemma ideal_not_dangling vs : ∀ S f, ideal_run S vs = inl f → f ≠ Dangling.
Proof.
  assert (∀ t a l f, Lookup t a l = inl f → f ≠ Dangling) as HL.
  { intros t a l f. induction t as [|te t IH]; cbn; [by intros [= <-]|]. repeat case_match; try done; by intros [= <-]. }
  assert (∀ d n f, copy d n = inl f → f ≠ Dangling) as HC by (intros d n f; unfold copy; case_match; [by intros [= <-]|done]).
  assert (∀ S v f, ideal_step S v = inl f → f ≠ Dangling) as Hs.
  { intros S v f. destruct v; cbn [ideal_step]; try done.
    - destruct (i_hosts S !! i) as [[[|m ms] out got]|]; try done. destruct (route i m) as [g|[[[d p] w]|]] eqn:Er; cbn [mbind sum_bind]; try done.
      + intros [= <-]. unfold route in Er. destruct m; cbn in Er; try (by injection Er as <-); try done;
          (destruct (Lookup _ _ _) as [g'|[? ?]] eqn:E; [injection Er as <-; by eapply HL|done]).
      + destruct (to_device _ _ _ _ _) as [g|] eqn:E; [|done]. intros [= <-]. unfold to_device in E. destruct d as [d|]; [|by injection E as <-].
        cbn in E. destruct (i_devs S !! d) as [x|]; [|by injection E as <-]. cbn in E. destruct w as [[data posted]|]; unfold Device_Read, Device_Write, dev_send in E.
        * destruct (_ <=? _)%nat; [by injection E as <-|]. destruct (copy data (plen p)) eqn:Ec; [|done]. injection E as <-. by eapply HC.
        * destruct (_ <=? _)%nat; [by injection E as <-|done].
    - destruct (i_devs S !! d) as [[o h [|[p data|p| |ty] ms]]|]; try done; [| |by intros [= <-]].
      + destruct (CompletePendingR _ p data) as [g|] eqn:E; [|done]. intros [= <-]. unfold CompletePendingR, host_send in E.
        destruct (i_hosts S !! host p); [|by injection E as <-]. destruct (_ <=? _)%nat; [by injection E as <-|]. destruct (copy data (plen p)) eqn:Ec; [|done].
        injection E as <-. by eapply HC.
      + destruct (CompletePendingW _ p) as [g|] eqn:E; [|done]. intros [= <-]. unfold CompletePendingW, host_send in E.
        destruct (i_hosts S !! host p); [|by injection E as <-]. by destruct (_ <=? _)%nat; [injection E as <-|]. }
  induction vs as [|v vs IH]; intros S f; cbn [ideal_run]; [done|]. destruct (ideal_step S v) as [g|S1] eqn:E; cbn [mbind sum_bind]; [intros [= <-]; by eapply Hs|apply IH].
Qed.

(** C23: The interconnect refines an ideal one whose messages carry the pending request instead of
    a pointer.  For any number of hosts and devices, any order of their actions and any order of
    the devices' answers, code and ideal fail in the same cases, by [abort], an uncaught exception
    or an access the table does not allow, and never through a dangling pointer; otherwise hosts
    see the same.  Of every host, the requests to be answered are those not yet polled, those
    pending on the heap, and those answered: each is answered once, under its own identifier, and
    no pending request is leaked. *)
Theorem interconnect_refines hs ds vs :
  fresh_run (new_state hs ds) vs →
  match run (new_state hs ds) vs, ideal_run (new_ideal hs ds) vs with
  | inr s, inr t => hosts s = i_hosts t ∧
      ∀ i, (i < hs)%nat → ∃ h, hosts s !! i = Some h ∧ (vs ≫= sent_by i) ≡ₚ host_ids h ++ of_host i (map_to_list (heap s)).*2
  | inl f, inl g => f = g ∧ f ≠ Dangling
  | _, _ => False
  end.
Proof.
  intros Hf. pose proof (run_rel vs _ _ (new_related hs ds) Hf) as Ho. destruct (run _ vs) as [f|s], (ideal_run _ vs) as [g|S] eqn:E; try done.
  - cbn in Ho. subst. split; [done|]. by eapply ideal_not_dangling.
  - destruct Ho as [Hr Hc]. split; [apply (r_hosts _ _ Hr)|]. intros i Hi.
    destruct (Hc i (MkHost [] [] [])) as (h & Hh & P); [by apply lookup_replicate_2|]. exists h. rewrite (r_hosts _ _ Hr). split; [done|].
    rewrite (of_host_perm i _ _ (heap_ids _ _ Hr)), P. cbn [host_ids h_in h_out h_got mbind list_bind app].
    assert (i_devs (new_ideal hs ds) ≫= dev_ids = []) as -> by (cbn; clear; induction ds; done). by rewrite app_nil_r.
Qed.

End interconnect.

(** ** Example *)

(** Two hosts and two devices; a read and a write with the same identifier, answered in the
    opposite order. *)
Definition demo_config : config :=
  MkConfig [MkEntry 0 4096 65536 (Some 0%nat); MkEntry 4096 8192 0 (Some 1%nat)] 16 64.
Definition demo_events : list ev :=
  [EHostSend 0 (Read 7 100 4 0); EHostSend 1 (Write 7 4100 3 [1; 2]); EHostPoll 0 1000; EHostPoll 1 2000;
   EDevTake 0; EDevTake 1; EDevAnswer 1 0 []; EDevPoll 1; EDevAnswer 0 0 [5; 6; 7; 8]; EDevPoll 0; EHostTake 0; EHostTake 1].

Lemma interconnect_demo :
  run demo_config (new_state 2 2) demo_events =
    inr (MkState ∅ [MkHost [] [] [Readcomp 7 [5; 6; 7; 8]]; MkHost [] [] [Writecomp 7]] [MkDevice [] [] []; MkDevice [] [] []]).
Proof. vm_compute. done. Qed.

Fixpoint fresh_runb (c : config) (s : state) (vs : list ev) : bool :=
  match vs with
  | [] => true
  | v :: vs =>
      match v with EHostPoll _ ptr => bool_decide (heap s !! ptr = None) | _ => true end &&
      match step c s v with inr s => fresh_runb c s vs | inl _ => true end
  end.

Lemma fresh_runb_sound c vs : ∀ s, fresh_runb c s vs = true → fresh_run c s vs.
Proof.
  induction vs as [|v vs IH]; intros s; cbn [fresh_runb fresh_run]; [done|]. intros [Hv H]%andb_true_iff. split.
  - destruct v; try done. by apply bool_decide_eq_true in Hv.
  - intros s' E. rewrite E in H. by apply IH.
Qed.

Lemma interconnect_refines_witness :
  match run demo_config (new_state 2 2) demo_events, ideal_run demo_config (new_ideal 2 2) demo_events with
  | inr s, inr t => hosts s = i_hosts t ∧
      ∀ i, (i < 2)%nat → ∃ h, hosts s !! i = Some h ∧ (demo_events ≫= sent_by i) ≡ₚ host_ids h ++ of_host i (map_to_list (heap s)).*2
  | inl f, inl g => f = g ∧ f ≠ Dangling
  | _, _ => False
  end.
Proof. apply (interconnect_refines demo_config 2 2 demo_events). apply fresh_runb_sound. vm_compute. done. Defined.

(** An address near the end of the address space passes the check of its end: the sum wraps
    around.  The address of an unmapped request, a full ring and an unknown device end the
    interconnect. *)
Lemma wrapped_end_accepted : Lookup [MkEntry 0 (2 ^ 64 - 1) 0 (Some 0%nat)] (2 ^ 64 - 8) 16 = inr (Some 0%nat, 2 ^ 64 - 8).
Proof. vm_compute. done. Qed.

Lemma interconnect_ends :
  run demo_config (new_state 1 2) [EHostSend 0 (Read 7 9000 4 0); EHostPoll 0 1000] = inl Thrown ∧
  run (MkConfig [MkEntry 0 4096 0 None] 16 64) (new_state 1 2) [EHostSend 0 (Read 7 100 4 0); EHostPoll 0 1000] = inl Undefined ∧
  run (MkConfig [MkEntry 0 4096 0 (Some 0%nat)] 0 64) (new_state 1 2) [EHostSend 0 (Read 7 100 4 0); EHostPoll 0 1000] = inl Thrown.
Proof. vm_compute. done. Qed.

End interconnect.
