(* ===== verification/BaseHandshake.v ===== *)
(** * A listener and a connector establish a connection

    The two ends of a connection each run the loop of [SimBricksBaseIfEstablish] (BaseConn.v),
    one pass at a time and in any order, over a Unix socket that delivers what is sent.  Shown:
    they agree on synchronization and the rings, or both refuse. *)

From S2P Require Import Prelude.
From S2P Require Import BaseIf.
From S2P Require Import BaseConn.

Module handshake.
Import base conn.

(** ** The system *)

(** [l2c], [c2l]: the intro in the socket, if any, on its way to the connector, to the listener. *)
Record world := MkWorld {
  wl : est_data; wc : est_data;
  l2c : option bytes; c2l : option bytes;
  l_failed : bool; c_failed : bool;
}.

Definition recv_of (m : option bytes) (fd : bool) : recv_result :=
  match m with Some b => Recv b fd | None => RecvAgain end.

Definition accept_env (ready : bool) : connected_env :=
  MkConnectedEnv (if ready then Accepted else AcceptAgain) PollNone None.

(** One pass for [d]: [out] and [inp] are the two directions of the socket, [ready] whether the
    connection can be accepted, [fd] whether a descriptor comes with what is received.  The
    result: the interface, whether it gave up, and the socket. *)
Definition pass (d : est_data) (ready fd : bool) (out inp : option bytes) :
    option (est_data * bool * option bytes * option bytes) :=
  let '(_, c) := SimbricksBaseIfConnected (base_if d) (accept_env ready) in
  let msg := intro_of c (tx_intro d) in
  let sends := bool_decide (conn_state c = kConnAwaitHandshakeTx ∨ conn_state c = kConnAwaitHandshakeRxTx) in
  let receives := bool_decide (conn_state c = kConnAwaitHandshakeRx ∨ conn_state c = kConnAwaitHandshakeRxTx) in
  r ← est_one d (MkPassEnv (accept_env ready) (Z.of_nat (length msg)) (recv_of inp fd) true);
  let out := if sends then Some msg else out in
  let inp := if receives then None else inp in
  Some match r with inl d => (d, true, out, inp) | inr (d, _) => (d, false, out, inp) end.

Inductive event := Listener (ready : bool) | Connector.

(** An end that gave up takes no more steps. *)
Definition world_step (w : world) (e : event) : option world :=
  match e with
  | Listener ready =>
      if l_failed w then Some w
      else '(d, f, out, inp) ← pass (wl w) ready false (l2c w) (c2l w);
           Some (MkWorld d (wc w) out inp f (c_failed w))
  | Connector =>
      if c_failed w then Some w
      else '(d, f, out, inp) ← pass (wc w) true true (c2l w) (l2c w);
           Some (MkWorld (wl w) d inp out (l_failed w) f)
  end.

Fixpoint world_run (w : world) (es : list event) : option world :=
  match es with [] => Some w | e :: es => w ← world_step w e; world_run w es end.

Lemma world_run_app w es es' : world_run w (es ++ es') = (w ← world_run w es; world_run w es').
Proof.
  revert w. induction es as [|e es IH]; intros w; [done|]. cbn.
  destruct (world_step w e); [apply IH|done].
Qed.

(** ** What the ends should agree on *)

(** Both ends want synchronization. *)
Definition agreed (m m' : SyncMode) : bool := bool_decide (m ≠ SyncDisabled) && bool_decide (m' ≠ SyncDisabled).

(** One end requires what the other has switched off. *)
Definition conflict (m m' : SyncMode) : bool :=
  match m, m' with
  | SyncDisabled, SyncRequired | SyncRequired, SyncDisabled => true
  | _, _ => false
  end.

Definition compatible (l c : ConnParams) : bool :=
  (upper_layer_proto l =? upper_layer_proto c) &&
  negb (conflict (sync_mode (base_params l)) (sync_mode (base_params c))).

Lemma negotiate_spec m m' :
  negotiate m (flags_of m') = if conflict m m' then None else Some (agreed m m').
Proof. by destruct m, m'. Qed.

(** ** One message *)

(** The fields of a baseif that its intro carries are 64-bit integers. *)
Definition wire_ok (c : baseif) : Prop :=
  out_queue c ∈u 64 ∧ out_elen (rings c) ∈u 64 ∧ out_enum (rings c) ∈u 64 ∧
  in_queue c ∈u 64 ∧ in_elen c ∈u 64 ∧ in_enum (rings c) ∈u 64 ∧ upper_layer_proto (cparams c) ∈u 64.

Lemma flags_fits m : flags_of m ∈u 64.
Proof. by destruct m. Qed.

(** The rings a connector takes from the intro of listener [p]. *)
Definition crossed (c p : baseif) : baseif :=
  let r := rings c in
  MkConn (MkIf (in_pos r) (out_enum (rings p)) (in_timestamp r) (out_pos r) (in_elen p) (in_enum (rings p))
            (out_timestamp r) (in_terminated r) (sync r) (params r))
    (out_queue p) (out_elen (rings p)) (in_queue p) (conn_state c) (listener c) (cparams c).

Section receive.
Context (c p : baseif) (tx : bytes) (len : Z).   (* the receiver, its peer, and the peer's intro *)
Hypotheses (Hstate : conn_state c = kConnAwaitHandshakeRx) (Hrole : listener p = negb (listener c))
  (Hwire : wire_ok p) (Hfit : Z.of_nat (length tx) ≤ len)
  (Hbuf : (sizeof_ListenerIntro + length tx ≤ INTRO_BUF)%nat).

(** What the receiver makes of the intro of its peer. *)
Lemma IntroRecv_spec fd :
  fd = negb (listener c) →
  SimbricksBaseIfIntroRecv c len (Recv (intro_of p tx) fd) true =
  if compatible (cparams p) (cparams c) then
    let c' := set_sync c (agreed (mode p) (mode c)) in
    Some (0, set_state (if listener c then c' else crossed c' p) kConnOpen, Some tx)
  else Some (-1, c, None).
Proof using Hstate Hrole Hwire Hfit Hbuf.
  intros ->. destruct Hwire as (H1 & H2 & H3 & H4 & H5 & H6 & H7). pose proof (flags_fits (mode p)).
  unfold SimbricksBaseIfIntroRecv. rewrite Hstate. cbv zeta.
  assert (length (intro_of p tx) = ((if listener c then sizeof_ConnecterIntro else sizeof_ListenerIntro) + length tx)%nat) as Hlen.
  { unfold intro_of. rewrite Hrole. destruct (listener c); cbn [negb]; rewrite length_app; f_equal;
      unfold encode_ConnecterIntro, encode_ListenerIntro; by rewrite !length_app, !length_le. }
  rewrite (firstn_all2 (n := INTRO_BUF)) by (rewrite Hlen; unfold sizeof_ListenerIntro, sizeof_ConnecterIntro in *;
    destruct (listener c); lia).
  rewrite (proj2 (Nat.ltb_ge _ _)) by lia. rewrite Hlen. unfold intro_of. rewrite Hrole.
  assert (∀ hdr, (hdr ≤ sizeof_ListenerIntro)%nat →
    u64 (Z.of_nat (hdr + length tx) - Z.of_nat hdr) = Z.of_nat (length tx)) as Hu.
  { intros hdr Hh. unfold INTRO_BUF in Hbuf. rewrite wrap_id; [lia|]. unfold fits. lia. }
  assert (∀ l : bytes, take (Z.to_nat (Z.of_nat (length tx))) (drop (Z.to_nat (Z.of_nat (length l))) (l ++ tx)) = tx) as Hpay.
  { intros l. rewrite !Nat2Z.id, drop_app_length. by apply firstn_all. }
  unfold compatible. destruct (listener c) eqn:El; cbn [negb].
  - set (msg := encode_ConnecterIntro p ++ tx).
    assert (length (encode_ConnecterIntro p) = sizeof_ConnecterIntro) as Hl
      by (unfold encode_ConnecterIntro; by rewrite !length_app, !length_le).
    assert (field msg 0 8 = SIMBRICKS_PROTO_VERSION) as -> by (unfold msg, encode_ConnecterIntro; by struct_fields).
    assert (field msg 8 8 = flags_of (mode p)) as -> by (unfold msg, encode_ConnecterIntro; by struct_fields).
    assert (field msg (sizeof_ConnecterIntro - 16) 8 = upper_layer_proto (cparams p)) as ->
      by (unfold msg, encode_ConnecterIntro, sizeof_ConnecterIntro; cbn [Nat.sub]; by struct_fields).
    assert (field msg (sizeof_ConnecterIntro - 8) 8 = Z.of_nat sizeof_ConnecterIntro) as ->
      by (unfold msg, encode_ConnecterIntro, sizeof_ConnecterIntro; cbn [Nat.sub]; by struct_fields).
    cbn [Z.eqb Pos.eqb SIMBRICKS_PROTO_VERSION negb].
    destruct (_ =? _); cbn [negb andb]; [|done]. rewrite negotiate_spec. fold (mode p) (mode c).
    unfold conflict, agreed. destruct (mode c), (mode p); cbn [negb]; try done; rewrite Hu by (unfold sizeof_ConnecterIntro, sizeof_ListenerIntro; lia);
      rewrite (proj2 (Z.ltb_ge _ _)) by done; rewrite (proj2 (Z.ltb_ge _ _)) by lia;
      rewrite <- Hl, Hpay; cbn [listener set_sync conn_state]; by rewrite El, Hstate.
  - set (msg := encode_ListenerIntro p ++ tx).
    assert (length (encode_ListenerIntro p) = sizeof_ListenerIntro) as Hl
      by (unfold encode_ListenerIntro; by rewrite !length_app, !length_le).
    assert (field msg 0 8 = SIMBRICKS_PROTO_VERSION) as -> by (unfold msg, encode_ListenerIntro; by struct_fields).
    assert (field msg 8 8 = flags_of (mode p)) as -> by (unfold msg, encode_ListenerIntro; by struct_fields).
    assert (field msg (sizeof_ListenerIntro - 16) 8 = upper_layer_proto (cparams p)) as ->
      by (unfold msg, encode_ListenerIntro, sizeof_ListenerIntro; cbn [Nat.sub]; by struct_fields).
    assert (field msg (sizeof_ListenerIntro - 8) 8 = Z.of_nat sizeof_ListenerIntro) as ->
      by (unfold msg, encode_ListenerIntro, sizeof_ListenerIntro; cbn [Nat.sub]; by struct_fields).
    cbn [Z.eqb Pos.eqb SIMBRICKS_PROTO_VERSION negb].
    destruct (_ =? _); cbn [negb andb]; [|done]. rewrite negotiate_spec. fold (mode p) (mode c).
    assert (∀ s, take_rings (set_sync c s) msg = crossed (set_sync c s) p) as Hr.
    { intros s. unfold take_rings, crossed. unfold msg, encode_ListenerIntro. f_equal; [f_equal|..]; by struct_fields. }
    unfold conflict, agreed. destruct (mode c), (mode p); cbn [negb]; try done; rewrite Hu by (unfold sizeof_ConnecterIntro, sizeof_ListenerIntro; lia);
      rewrite (proj2 (Z.ltb_ge _ _)) by done; rewrite (proj2 (Z.ltb_ge _ _)) by lia;
      rewrite Hr, <- Hl, Hpay; cbn [listener set_sync conn_state crossed]; by rewrite El, Hstate.
Qed.

End receive.

(** The state after [SimbricksBaseIfConnected]. *)
Definition connected_state (d : est_data) (ready : bool) : ConnState :=
  match conn_state (base_if d) with
  | kConnListening => if ready then kConnAwaitHandshakeRxTx else kConnListening
  | s => s
  end.

(** A pass of a connected end: it sends its intro if it has not, and tries to receive. *)
Lemma pass_go d ready fd out inp s :
  connected_state d ready = s → s = kConnAwaitHandshakeRxTx ∨ s = kConnAwaitHandshakeRx →
  pass d ready fd out inp =
  ('(ret, c', pay) ← SimbricksBaseIfIntroRecv (set_state (base_if d) kConnAwaitHandshakeRx) (rx_intro_len d) (recv_of inp fd) true;
   Some (match pay with Some b => MkEst c' (tx_intro d) b (Z.of_nat (length b)) | None => set_if d c' end,
         ret <? 0,
         if decide (s = kConnAwaitHandshakeRxTx) then Some (intro_of (base_if d) (tx_intro d)) else out, None)).
Proof.
  intros Hs Hcase.
  assert (∃ c, SimbricksBaseIfConnected (base_if d) (accept_env ready) = (0, c) ∧ conn_state c = s ∧
    set_state c kConnAwaitHandshakeRx = set_state (base_if d) kConnAwaitHandshakeRx ∧
    intro_of c (tx_intro d) = intro_of (base_if d) (tx_intro d) ∧ conn_state (base_if d) ≠ kConnClosed)
    as (c & Hc & Hcs & Hset & Hintro & Hne).
  { revert Hs. unfold connected_state, SimbricksBaseIfConnected, AcceptOnBaseIf, accept_env.
    destruct (conn_state (base_if d)) eqn:E, ready; intros <-; cbn; destruct Hcase; try done; naive_solver. }
  assert (∀ r, r = SimbricksBaseIfIntroRecv (set_state (base_if d) kConnAwaitHandshakeRx) (rx_intro_len d) (recv_of inp fd) true →
    est_one d (MkPassEnv (accept_env ready) (Z.of_nat (length (intro_of c (tx_intro d)))) (recv_of inp fd) true) =
    ('(ret, c, pay) ← r;
     let d := match pay with
              | Some b => MkEst c (tx_intro d) b (Z.of_nat (length b))
              | None => set_if d c
              end in
     if ret <? 0 then Some (inl d) else Some (inr (d, if 0 <? ret then 1%nat else 0%nat)))) as Hone.
  { intros r ->. unfold est_one. rewrite decide_False by done. cbn [pe_connected pe_sent pe_recv pe_map].
    rewrite Hc. cbn [Z.ltb Z.compare]. destruct Hcase as [-> | ->].
    - rewrite decide_True by auto. unfold SimbricksBaseIfIntroSend. rewrite Hcs.
      rewrite (proj2 (Z.ltb_ge _ _)) by lia. rewrite Z.eqb_refl. cbn [negb mbind option_bind Z.eqb].
      rewrite decide_True by done. by rewrite Hset.
    - rewrite decide_False by (rewrite Hcs; naive_solver). cbn [negb mbind option_bind Z.eqb].
      rewrite decide_True by done. rewrite <- Hset.
      replace (set_state c kConnAwaitHandshakeRx) with c by (destruct c; cbn in *; by subst). done. }
  unfold pass. rewrite Hc, (Hone _ eq_refl), Hintro. clear Hone.
  destruct (SimbricksBaseIfIntroRecv _ _ _ _) as [[[ret c'] pay]|]; [|done]. cbn [mbind option_bind].
  assert (bool_decide (conn_state c = kConnAwaitHandshakeRx ∨ conn_state c = kConnAwaitHandshakeRxTx) = true) as ->
    by (apply bool_decide_eq_true_2; rewrite Hcs; tauto).
  rewrite bool_decide_decide, Hcs.
  destruct Hcase as [-> | ->]; [rewrite (decide_True (P := _ ∨ _)) by auto|rewrite (decide_False (P := _ ∨ _)) by naive_solver];
    cbn [decide]; destruct (ret <? 0); cbn [mbind option_bind]; reflexivity.
Qed.

(** ** Phases *)

Lemma compatible_comm p q : compatible p q = compatible q p.
Proof. unfold compatible, conflict. rewrite Z.eqb_sym. by destruct (sync_mode (base_params p)), (sync_mode (base_params q)). Qed.

Lemma agreed_comm m m' : agreed m m' = agreed m' m.
Proof. apply andb_comm. Qed.

(** An end has not sent its intro; has sent it; has also received that of the other and is open;
    or has refused it. *)
Inductive phase := P0 | P1 | P2 | PF.

Definition sent (p : phase) : bool := match p with P0 => false | _ => true end.
Definition received (p : phase) : bool := match p with P2 | PF => true | _ => false end.
Definition refused (p : phase) : bool := match p with PF => true | _ => false end.

Section ends.
Context (dl dc : est_data).
Abbreviation cl := (base_if dl).
Abbreviation cc := (base_if dc).

Record ready_ends : Prop := {
  re_l : conn_state cl = kConnListening ∨ conn_state cl = kConnAwaitHandshakeRxTx;
  re_l_role : listener cl = true;
  re_c : conn_state cc = kConnAwaitHandshakeRxTx;
  re_c_role : listener cc = false;
  re_wires : wire_ok cl ∧ wire_ok cc;
  re_tx_l : Z.of_nat (length (tx_intro dl)) ≤ rx_intro_len dc ∧
            (sizeof_ListenerIntro + length (tx_intro dl) ≤ INTRO_BUF)%nat;
  re_tx_c : Z.of_nat (length (tx_intro dc)) ≤ rx_intro_len dl ∧
            (sizeof_ListenerIntro + length (tx_intro dc) ≤ INTRO_BUF)%nat;
}.

Definition comp : bool := compatible (cparams cl) (cparams cc).
Definition both_sync : bool := agreed (mode cl) (mode cc).

Definition at_phase (d o : est_data) (opened : baseif) (p : phase) : est_data :=
  match p with
  | P0 => d
  | P1 | PF => set_if d (set_state (base_if d) kConnAwaitHandshakeRx)
  | P2 => MkEst opened (tx_intro d) (tx_intro o) (Z.of_nat (length (tx_intro o)))
  end.

Definition l_open : baseif := set_state (set_sync cl both_sync) kConnOpen.
Definition c_open : baseif := set_state (crossed (set_sync cc both_sync) cl) kConnOpen.

(** The intro of [d] is in the socket from its sending to its reception. *)
Definition in_socket (d : est_data) (p q : phase) : option bytes :=
  if sent p && negb (received q) then Some (intro_of (base_if d) (tx_intro d)) else None.

Definition world_of (pl pc : phase) : world :=
  MkWorld (at_phase dl dc l_open pl) (at_phase dc dl c_open pc) (in_socket dl pl pc) (in_socket dc pc pl)
    (refused pl) (refused pc).

Definition valid (pl pc : phase) : Prop :=
  (received pl = true → sent pc = true) ∧ (received pc = true → sent pl = true) ∧
  (pl = P2 ∨ pc = P2 → comp = true) ∧ (pl = PF ∨ pc = PF → comp = false).

Definition finish (q : phase) : phase := if sent q then if comp then P2 else PF else P1.

Definition next_l (pl pc : phase) (ready : bool) : phase :=
  match pl with
  | P0 => if ready || bool_decide (conn_state cl = kConnAwaitHandshakeRxTx) then finish pc else P0
  | P1 => finish pc
  | _ => pl
  end.

Definition next_c (pl pc : phase) : phase :=
  match pc with P0 | P1 => finish pl | _ => pc end.

(** ** Passes move the phases *)

(** A pass of end [d], connected and before its reception, against end [o] in phase [q]. *)
Lemma pass_phase d o opened p q ready :
  p = P0 ∨ p = P1 →
  (p = P0 → connected_state d ready = kConnAwaitHandshakeRxTx) →
  (received q = true → sent p = true) →
  listener (base_if o) = negb (listener (base_if d)) → wire_ok (base_if o) →
  Z.of_nat (length (tx_intro o)) ≤ rx_intro_len d → (sizeof_ListenerIntro + length (tx_intro o) ≤ INTRO_BUF)%nat →
  compatible (cparams (base_if o)) (cparams (base_if d)) = comp →
  opened = (let c' := set_sync (base_if d) (agreed (mode (base_if o)) (mode (base_if d))) in
            set_state (if listener (base_if d) then c' else crossed c' (base_if o)) kConnOpen) →
  pass (at_phase d o opened p) ready (negb (listener (base_if d))) (in_socket d p q) (in_socket o q p) =
  Some (at_phase d o opened (finish q), refused (finish q), in_socket d (finish q) q, in_socket o q (finish q)).
Proof.
  intros Hp Hready Hq Hrole Hwire Hfit Hbuf Hcomp Hopened.
  set (s := if sent p then kConnAwaitHandshakeRx else kConnAwaitHandshakeRxTx).
  rewrite (pass_go _ _ _ _ _ s).
  2: { unfold s. destruct Hp as [-> | ->]; [by apply Hready|done]. }
  2: { unfold s. destruct (sent p); auto. }
  assert (in_socket o q p = if sent q then Some (intro_of (base_if o) (tx_intro o)) else None) as ->.
  { unfold in_socket. destruct Hp as [-> | ->]; cbn [received negb]; by rewrite andb_true_r. }
  assert ((if decide (s = kConnAwaitHandshakeRxTx) then Some (intro_of (base_if d) (tx_intro d)) else in_socket d p q) =
          in_socket d (finish q) q) as Hout.
  { unfold s, in_socket, finish. destruct Hp as [-> | ->]; cbn [sent].
    - destruct q; cbn in *; try (by specialize (Hq eq_refl)); destruct comp; done.
    - destruct q, comp; done. }
  assert (in_socket o q (finish q) = None) as ->.
  { unfold in_socket, finish. destruct (sent q); [|done]. by destruct comp. }
  assert (intro_of (base_if (at_phase d o opened p)) (tx_intro (at_phase d o opened p)) = intro_of (base_if d) (tx_intro d) ∧
    set_state (base_if (at_phase d o opened p)) kConnAwaitHandshakeRx = set_state (base_if d) kConnAwaitHandshakeRx ∧
    rx_intro_len (at_phase d o opened p) = rx_intro_len d ∧ tx_intro (at_phase d o opened p) = tx_intro d ∧
    ∀ c, set_if (at_phase d o opened p) c = set_if d c) as (-> & -> & -> & -> & Hset)
    by (destruct Hp as [-> | ->]; done).
  rewrite Hout. unfold finish. destruct (sent q); cbn [recv_of].
  - rewrite (IntroRecv_spec (set_state (base_if d) kConnAwaitHandshakeRx) (base_if o)) by done.
    cbn [cparams set_state listener]. rewrite Hcomp.
    destruct comp; cbn [mbind option_bind Z.ltb Z.compare]; [|by rewrite Hset].
    rewrite Hopened. by destruct (listener (base_if d)).
  - cbn [mbind option_bind SimbricksBaseIfIntroRecv conn_state set_state Z.ltb Z.compare]. by rewrite Hset.
Qed.

(** An end that is open, or a listener that nobody has connected to, does nothing. *)
Lemma pass_idle d ready fd out inp :
  conn_state (base_if d) = kConnOpen ∨ connected_state d ready = kConnListening →
  pass d ready fd out inp = Some (d, false, out, inp).
Proof.
  intros H. unfold connected_state in H.
  assert (conn_state (base_if d) = kConnOpen ∨ conn_state (base_if d) = kConnListening ∧ ready = false) as Hs
    by (destruct (conn_state (base_if d)), ready; naive_solver).
  destruct d as [[? ? ? ? s ? ?] ? ? ?]. cbn in *. by destruct Hs as [-> | [-> ->]].
Qed.

Lemma step_listener pl pc ready :
  ready_ends → valid pl pc →
  world_step (world_of pl pc) (Listener ready) = Some (world_of (next_l pl pc ready) pc) ∧ valid (next_l pl pc ready) pc.
Proof.
  intros H (V1 & V2 & V3 & V4). split.
  2: { unfold next_l, finish, valid. destruct pl, pc; cbn in *; repeat case_match; naive_solver. }
  assert (∀ p, p = P0 ∨ p = P1 → (p = P0 → connected_state dl ready = kConnAwaitHandshakeRxTx) →
    (received pc = true → sent p = true) →
    pass (at_phase dl dc l_open p) ready false (in_socket dl p pc) (in_socket dc pc p) =
    Some (at_phase dl dc l_open (finish pc), refused (finish pc), in_socket dl (finish pc) pc, in_socket dc pc (finish pc))) as Hpass.
  { intros p Hp Hr Hq. pose proof (pass_phase dl dc l_open p pc ready Hp Hr Hq) as E.
    rewrite (re_l_role H), (re_c_role H) in E. apply E; try done; try apply H.
    - apply compatible_comm.
    - unfold l_open, both_sync. by rewrite agreed_comm. }
  unfold world_step, world_of, next_l. cbn [l_failed wl wc l2c c2l c_failed]. destruct pl; cbn [refused].
  - destruct (ready || bool_decide (conn_state cl = kConnAwaitHandshakeRxTx)) eqn:Eg.
    + rewrite Hpass; [done|auto| |done]. intros _. unfold connected_state.
      destruct (re_l H) as [E|E]; rewrite E; [|done]. rewrite E in Eg. by destruct ready.
    + apply orb_false_iff in Eg as [-> Eg]. rewrite pass_idle; [done|]. right. unfold connected_state. cbn [at_phase].
      destruct (re_l H) as [E|E]; rewrite E; [done|]. by rewrite E in Eg.
  - rewrite Hpass; [done|auto|done|done].
  - rewrite pass_idle; [done|by left].
  - done.
Qed.

Lemma step_connector pl pc :
  ready_ends → valid pl pc →
  world_step (world_of pl pc) Connector = Some (world_of pl (next_c pl pc)) ∧ valid pl (next_c pl pc).
Proof.
  intros H (V1 & V2 & V3 & V4). split.
  2: { unfold next_c, finish, valid. destruct pl, pc; cbn in *; repeat case_match; naive_solver. }
  assert (∀ p, p = P0 ∨ p = P1 → (received pl = true → sent p = true) →
    pass (at_phase dc dl c_open p) true true (in_socket dc p pl) (in_socket dl pl p) =
    Some (at_phase dc dl c_open (finish pl), refused (finish pl), in_socket dc (finish pl) pl, in_socket dl pl (finish pl))) as Hpass.
  { intros p Hp Hq. pose proof (pass_phase dc dl c_open p pl true Hp) as E.
    rewrite (re_l_role H), (re_c_role H) in E. apply E; try done; try apply H.
    intros _. unfold connected_state. by rewrite (re_c H). }
  unfold world_step, world_of, next_c. cbn [l_failed wl wc l2c c2l c_failed]. destruct pc; cbn [refused].
  - rewrite Hpass; [done|auto|done].
  - rewrite Hpass; [done|auto|done].
  - rewrite pass_idle; [done|by left].
  - done.
Qed.

Lemma run_phases es : ∀ pl pc,
  ready_ends → valid pl pc →
  ∃ pl' pc', world_run (world_of pl pc) es = Some (world_of pl' pc') ∧ valid pl' pc'.
Proof.
  induction es as [|e es IH]; intros pl pc H V; [by exists pl, pc|]. cbn [world_run].
  destruct e as [ready|].
  - destruct (step_listener pl pc ready H V) as [-> V']. by apply IH.
  - destruct (step_connector pl pc H V) as [-> V']. by apply IH.
Qed.

(** If the ends are compatible, three more passes open both. *)
Lemma phases_finish pl pc :
  ready_ends → valid pl pc → comp = true →
  world_run (world_of pl pc) [Listener true; Connector; Listener true] = Some (world_of P2 P2).
Proof.
  intros H V Hc. cbn [world_run].
  destruct (step_listener pl pc true H V) as [-> V1]. cbn [mbind option_bind].
  destruct (step_connector _ _ H V1) as [-> V2]. cbn [mbind option_bind].
  destruct (step_listener _ _ true H V2) as [-> V3]. cbn [mbind option_bind].
  destruct V as (_ & _ & _ & V4). rewrite Hc in V4.
  do 2 f_equal; unfold next_l, next_c, finish; rewrite Hc; cbn [orb];
    destruct pl; try (by specialize (V4 (or_introl eq_refl))); destruct pc; try (by specialize (V4 (or_intror eq_refl))); done.
Qed.

End ends.

(** ** From the calls that open the ends *)

Definition params_ok (p : ConnParams) : Prop :=
  in_num_entries p ∈u 64 ∧ in_entries_size p ∈u 64 ∧ out_num_entries p ∈u 64 ∧ out_entries_size p ∈u 64 ∧
  in_num_entries p * in_entries_size p ∈u 64 ∧ out_num_entries p * out_entries_size p ∈u 64 ∧
  upper_layer_proto p ∈u 64.

(** The pool has room for positions past its end, so no sum wraps around. *)
Definition pool_ok (m : pool) (p : ConnParams) : Prop :=
  0 ≤ p_pos m ∧
  p_pos m + in_num_entries p * in_entries_size p + out_num_entries p * out_entries_size p < 2 ^ 64.

(** What a listener has after [SimbricksBaseIfListen]: two rings next to each other in the pool. *)
Lemma Listen_spec p l0 m e l m' :
  Init p = Some l0 → SimbricksBaseIfListen l0 m e = (0, l, m') → params_ok p → pool_ok m p →
  (conn_state l = kConnListening ∨ conn_state l = kConnAwaitHandshakeRxTx) ∧ listener l = true ∧
  cparams l = p ∧ wire_ok l ∧ in_queue l = p_pos m ∧
  out_queue l = in_queue l + in_enum (rings l) * in_elen l ∧
  p_pos m' = out_queue l + out_enum (rings l) * out_elen (rings l) ∧ p_pos m' ≤ p_size m' ∧
  in_elen l = in_entries_size p ∧ in_enum (rings l) = in_num_entries p ∧
  out_elen (rings l) = out_entries_size p ∧ out_enum (rings l) = out_num_entries p.
Proof.
  unfold Init. destruct (SimbricksBaseIfInit _) as [r|]; [|done]. intros [= <-].
  intros HL (H1 & H2 & H3 & H4 & H5 & H6 & H7) (Hm0 & Hm). unfold SimbricksBaseIfListen in HL. cbn [cparams rings] in HL.
  cbv zeta in HL. pose proof H5 as [? ?]. pose proof H6 as [? ?]. rewrite (wrap_id 64 _ H5), (wrap_id 64 _ H6) in HL.
  rewrite (wrap_id 64 (p_pos m + _)) in HL by (unfold fits; lia).
  rewrite (wrap_id 64 (_ + out_num_entries p * _)) in HL by (unfold fits; lia).
  destruct (_ <=? _)%nat; [done|]. destruct (Z.ltb_spec (p_size m) (p_pos m + in_num_entries p * in_entries_size p + out_num_entries p * out_entries_size p)); [done|].
  destruct (negb _); [done|]. destruct (_ && _); [done|]. destruct (negb _); [done|]. destruct (negb _); [done|].
  unfold AcceptOnBaseIf in HL. destruct (l_accept e); cbn [Z.ltb Z.compare] in HL; [| |done];
    injection HL as <- <-; unfold wire_ok; cbn; split_and!; try done; try (by auto); unfold fits in *; lia.
Qed.

Lemma Connect_spec p c0 e c :
  Init p = Some c0 → SimbricksBaseIfConnect c0 e = (0, c) → c_connect e = ConnectOk → params_ok p →
  conn_state c = kConnAwaitHandshakeRxTx ∧ listener c = false ∧ cparams c = p ∧ wire_ok c.
Proof.
  unfold Init, SimbricksBaseIfInit. destruct (_ && _); [done|]. intros [= <-] HC He (_ & _ & _ & _ & _ & _ & H7).
  unfold SimbricksBaseIfConnect in HC. cbn [cparams] in HC. destruct (_ <=? _)%nat; [done|].
  destruct (negb _); [done|]. destruct (_ && _); [done|]. rewrite He in HC. injection HC as <-. cbn.
  by split_and!.
Qed.

(** C28: Connection set-up agrees. A listener is opened in a pool with room for its rings, a
    connector whose connect() succeeds at once, and each runs passes of
    [SimBricksBaseIfEstablish] in any order; the intros fit each other's buffers. Then no pass
    aborts; an end opens only if the protocols are equal and neither requires the synchronization
    the other has switched off; open ends synchronize exactly if both want to, have each other's
    intro, and the connector's rings are the listener's, crossed, disjoint and inside the pool;
    and if the two are compatible neither gives up, and three more passes open both. *)
Theorem handshake_agreement pl pc m m' el ec l0 c0 l c txl txc rxl rxc lenl lenc es :
  Init pl = Some l0 → SimbricksBaseIfListen l0 m el = (0, l, m') → params_ok pl → pool_ok m pl →
  Init pc = Some c0 → SimbricksBaseIfConnect c0 ec = (0, c) → c_connect ec = ConnectOk → params_ok pc →
  Z.of_nat (length txl) ≤ lenc → Z.of_nat (length txc) ≤ lenl →
  (sizeof_ListenerIntro + length txl ≤ INTRO_BUF)%nat → (sizeof_ListenerIntro + length txc ≤ INTRO_BUF)%nat →
  let s := agreed (sync_mode (base_params pl)) (sync_mode (base_params pc)) in
  ∃ w, world_run (MkWorld (MkEst l txl rxl lenl) (MkEst c txc rxc lenc) None None false false) es = Some w ∧
    let L := base_if (wl w) in let C := base_if (wc w) in
    (is_open (wl w) ∨ is_open (wc w) → compatible pl pc = true) ∧
    (is_open (wl w) → sync (rings L) = s ∧ rx_intro (wl w) = txc) ∧
    (is_open (wc w) → sync (rings C) = s ∧ rx_intro (wc w) = txl ∧
       in_queue C = out_queue L ∧ in_elen C = out_elen (rings L) ∧ in_enum (rings C) = out_enum (rings L) ∧
       out_queue C = in_queue L ∧ out_elen (rings C) = in_elen L ∧ out_enum (rings C) = in_enum (rings L)) ∧
    (p_pos m = in_queue L ∧ in_queue L + in_enum (rings L) * in_elen L = out_queue L ∧
       out_queue L + out_enum (rings L) * out_elen (rings L) = p_pos m' ∧ p_pos m' ≤ p_size m') ∧
    (compatible pl pc = true →
       l_failed w = false ∧ c_failed w = false ∧
       ∃ w', world_run w [Listener true; Connector; Listener true] = Some w' ∧ is_open (wl w') ∧ is_open (wc w')).
Proof.
  intros Il HL Pl Pm Ic HC Hcon Pc Hll Hlc Hbl Hbc s.
  destruct (Listen_spec _ _ _ _ _ _ Il HL Pl Pm) as (Hs1 & Hr1 & Hp1 & Hw1 & Hq1 & Hq2 & Hq3 & Hq4 & _).
  destruct (Connect_spec _ _ _ _ Ic HC Hcon Pc) as (Hs2 & Hr2 & Hp2 & Hw2).
  set (dl := MkEst l txl rxl lenl). set (dc := MkEst c txc rxc lenc).
  assert (ready_ends dl dc) as Hre by (constructor; done).
  assert (comp dl dc = compatible pl pc) as Hcomp by (unfold comp; cbn; by rewrite Hp1, Hp2).
  assert (both_sync dl dc = s) as Hsy by (unfold both_sync, s, mode; cbn; by rewrite Hp1, Hp2).
  destruct (run_phases dl dc es P0 P0 Hre) as (p & q & E & V); [by split_and!; try done; intros [?|?]|].
  exists (world_of dl dc p q). split; [exact E|]. cbv zeta. pose proof V as (V1 & V2 & V3 & V4).
  rewrite Hcomp in V3, V4.
  split_and!.
  - intros [H|H]; apply V3; [left|right].
    + revert H. unfold is_open, world_of. cbn [wl]. destruct p; cbn; destruct Hs1 as [Hs1|Hs1]; rewrite ?Hs1; done.
    + revert H. unfold is_open, world_of. cbn [wc]. destruct q; cbn; rewrite ?Hs2; done.
  - unfold is_open, world_of. cbn [wl]. destruct p; cbn; destruct Hs1 as [Hs1|Hs1]; rewrite ?Hs1; try done; rewrite Hsy; done.
  - unfold is_open, world_of. cbn [wl wc]. destruct q; cbn; rewrite ?Hs2; try done. intros _. rewrite Hsy. by destruct p.
  - unfold world_of. cbn [wl]. by destruct p.
  - unfold world_of. cbn [wl]. destruct p; cbn; lia.
  - unfold world_of. cbn [wl]. destruct p; cbn; lia.
  - done.
  - intros Hc. rewrite Hc in V4. unfold world_of at 1 2. cbn [l_failed c_failed].
    assert (p ≠ PF ∧ q ≠ PF) as [Hp Hq] by (split; intros ->; [specialize (V4 (or_introl eq_refl))|specialize (V4 (or_intror eq_refl))]; done).
    split_and!; [by destruct p|by destruct q|]. exists (world_of dl dc P2 P2).
    split; [|done]. apply phases_finish; [done|done|congruence].
Qed.

(** A listener that offers and a connector that requires synchronization. *)
Definition demo_params (m : SyncMode) : ConnParams := MkConnParams (MkParams 500 500 m) [47; 115] false 4 64 4 64 1.
Definition demo_listener : baseif :=
  MkConn (MkIf 0 4 0 0 64 4 0 false false (MkParams 500 500 SyncOptional)) 0 64 256 kConnListening true (demo_params SyncOptional).
Definition demo_connector : baseif :=
  MkConn (MkIf 0 0 0 0 0 0 0 false false (MkParams 500 500 SyncRequired)) 0 0 0 kConnAwaitHandshakeRxTx false (demo_params SyncRequired).

Lemma demo_params_ok m : params_ok (demo_params m).
Proof. unfold params_ok, fits. cbn. lia. Qed.

Lemma handshake_agreement_witness :
  ∃ w, world_run (MkWorld (MkEst demo_listener [7] [] 8) (MkEst demo_connector [9] [] 8) None None false false)
         [Connector; Listener false; Listener true] = Some w ∧
    ∃ w', world_run w [Listener true; Connector; Listener true] = Some w' ∧ is_open (wl w') ∧ is_open (wc w').
Proof.
  destruct (handshake_agreement (demo_params SyncOptional) (demo_params SyncRequired) (SHMPoolCreate 512) (MkPool 512 512)
    (MkListenEnv true true true true AcceptAgain) (MkConnectEnv true true ConnectOk)
    (MkConn (MkIf 0 0 0 0 0 0 0 false false (MkParams 500 500 SyncOptional)) 0 0 0 kConnClosed false (demo_params SyncOptional))
    (MkConn (MkIf 0 0 0 0 0 0 0 false false (MkParams 500 500 SyncRequired)) 0 0 0 kConnClosed false (demo_params SyncRequired))
    demo_listener demo_connector [7] [9] [] [] 8 8 [Connector; Listener false; Listener true])
    as (w & E & _ & _ & _ & _ & H);
    [reflexivity|by vm_compute|apply demo_params_ok|by split|reflexivity|by vm_compute|reflexivity|apply demo_params_ok|
     cbn; lia|cbn; lia|unfold sizeof_ListenerIntro, INTRO_BUF; cbn [length]; lia|
     unfold sizeof_ListenerIntro, INTRO_BUF; cbn [length]; lia|].
  exists w. split; [exact E|]. destruct H as (_ & _ & H); [reflexivity|exact H].
Defined.

End handshake.
