(* ===== verification/ParamParser.v ===== *)
(** * Connection URLs (lib/simbricks/parser/parser.c)

    [SimbricksParametersParse] reads strings of the form

      connect:SOCKET:sync=BOOL[:latency=N][:sync_interval=N]
      listen:SOCKET:SHM:sync=BOOL[:latency=N][:sync_interval=N]

    with pointers into the string; here a pointer is an index.  It is shown to agree, on every
    string, with a reference that first splits the string at the colons, and to read back what
    is printed.  [SimbricksParametersEstablish] then turns the parameters of several interfaces
    into calls of the base interface. *)

From stdpp Require Import strings.
From S2P Require Import Prelude.
From S2P Require Import BaseIf.

Module params.
Import base.

(** ** Strings *)

(** The characters of a C string before its terminating zero. *)
Definition str (s : string) : bytes := (λ a, Z.of_N (Ascii.N_of_ascii a)) <$> String.list_ascii_of_string s.

Definition colon : Z := 58.
Definition equals : Z := 61.

Fixpoint index_of (c : Z) (l : bytes) : option nat :=
  match l with [] => None | x :: l => if x =? c then Some 0%nat else S <$> index_of c l end.

(** [strchr(s + start, c)] *)
Definition strchr (s : bytes) (start : nat) (c : Z) : option nat :=
  (λ k, (start + k)%nat) <$> index_of c (drop start s).

(** [NextDelimiter]; [None] is a failed assertion. *)
Definition NextDelimiter (s : bytes) (start end' : nat) (c : Z) : option nat :=
  if (end' <? start)%nat then None
  else Some match strchr s start c with
            | Some p => if (p <? end')%nat then p else end'
            | None => end'
            end.

(** The characters from [start] up to [end']. *)
Definition sub (s : bytes) (start end' : nat) : bytes := take (end' - start) (drop start s).

(** ** Numbers *)

Definition is_space (c : Z) : bool := (c =? 32) || ((9 <=? c) && (c <=? 13)).
Definition is_digit (c : Z) : bool := (48 <=? c) && (c <=? 57).

Fixpoint skip_space (l : bytes) : bytes :=
  match l with [] => [] | x :: l' => if is_space x then skip_space l' else l end.

(** The digits at the front of [l] with their value, and the rest. *)
Fixpoint digits (acc : Z) (l : bytes) : Z * bytes :=
  match l with
  | [] => (acc, [])
  | x :: l' => if is_digit x then digits (acc * 10 + (x - 48)) l' else (acc, l)
  end.

(** [strtoul(str, &endptr, 10)]: the value, [errno] and the rest of the string; the string is
    returned whole if there is no number. *)
Definition strtoul (l : bytes) : Z * bool * bytes :=
  let l' := skip_space l in
  let '(neg, l') := match l' with
                    | x :: k => if x =? 45 then (true, k) else if x =? 43 then (false, k) else (false, l')
                    | [] => (false, l')
                    end in
  match l' with
  | x :: _ =>
      if is_digit x then
        let '(v, rest) := digits 0 l' in
        if v <=? UINT64_MAX then (if neg : bool then u64 (- v) else v, false, rest)
        else (UINT64_MAX, true, rest)
      else (0, false, l)
  | [] => (0, false, l)
  end.

Definition ParseUInteger (l : bytes) : option Z :=
  let '(v, errno, rest) := strtoul l in
  if errno || bool_decide (length rest = length l) || bool_decide (rest ≠ []) then None else Some v.

(** ** Parsing *)

(** [link_latency] and [sync_interval] carry their flags: [None] is not set. *)
Record SimbricksAdapterParams := MkAdapter {
  listen : bool;
  socket_path : bytes;
  shm_path : option bytes;
  sync : bool;
  link_latency : option Z;
  sync_interval : option Z;
}.

Inductive parse_error :=
| BadType | NoSocketPath | EmptySocketPath | NoShmPath | EmptyShmPath | NoSync | BadSync
| BadOption | BadLatency | BadSyncInterval | UnknownOption.

Definition set_latency (p : SimbricksAdapterParams) (v : Z) :=
  MkAdapter (listen p) (socket_path p) (shm_path p) (sync p) (Some v) (sync_interval p).
Definition set_interval (p : SimbricksAdapterParams) (v : Z) :=
  MkAdapter (listen p) (socket_path p) (shm_path p) (sync p) (link_latency p) (Some v).

(** The test [b - a == n && strncmp(a, lit, n) == 0] *)
Definition token (s : bytes) (a b : nat) (lit : string) : bool :=
  bool_decide ((b - a)%nat = length (str lit)) && bool_decide (sub s a b = str lit).

(** A path from [start]: its end and the path.  [None] is a failed assertion. *)
Definition parse_path (s : bytes) (start : nat) (missing empty : parse_error) :
    option (parse_error + nat * bytes) :=
  let url_end := length s in
  if (url_end <=? start)%nat then Some (inl missing)
  else
    c ← NextDelimiter s start url_end colon;
    if (c =? start)%nat then Some (inl empty) else Some (inr (c, sub s start c)).

(** The argument from [start] to [c], and its effect on the parameters. *)
Definition parse_arg (s : bytes) (start c : nat) (p : SimbricksAdapterParams) :
    option (parse_error + SimbricksAdapterParams) :=
  delim ← NextDelimiter s start c equals;
  if (c <=? delim + 1)%nat then Some (inl BadOption)
  else
    let arg := sub s (delim + 1) c in
    if token s start delim "latency" then
      Some match ParseUInteger arg with Some v => inr (set_latency p v) | None => inl BadLatency end
    else if token s start delim "sync_interval" then
      Some match ParseUInteger arg with Some v => inr (set_interval p v) | None => inl BadSyncInterval end
    else Some (inl UnknownOption).

(** The loop over the optional arguments.  Each pass moves [start] on, so the length of the
    string is enough fuel. *)
Fixpoint parse_args (fuel : nat) (s : bytes) (start : nat) (p : SimbricksAdapterParams) :
    option (parse_error + SimbricksAdapterParams) :=
  if (start <? length s)%nat then
    match fuel with
    | O => None
    | S fuel =>
        c ← NextDelimiter s start (length s) colon;
        r ← parse_arg s start c p;
        match r with
        | inl e => Some (inl e)
        | inr p => parse_args fuel s (c + 1) p
        end
    end
  else Some (inr p).

(** The sync parameter from [start]: its end and its value. *)
Definition parse_sync (s : bytes) (start : nat) : option (parse_error + nat * bool) :=
  let url_end := length s in
  if (url_end <=? start)%nat then Some (inl NoSync)
  else
    c ← NextDelimiter s start url_end colon;
    delim ← NextDelimiter s start c equals;
    if (delim =? c)%nat then Some (inl BadSync)
    else if negb (token s start delim "sync") then Some (inl BadSync)
    else
      let start := (delim + 1)%nat in
      if (c <=? start)%nat then Some (inl BadSync)
      else if token s start c "true" then Some (inr (c, true))
      else if token s start c "false" then Some (inr (c, false))
      else Some (inl BadSync).

(** Everything after the type, which ends at [c]. *)
Definition parse_rest (s : bytes) (l : bool) (c : nat) : option (parse_error + SimbricksAdapterParams) :=
  r ← parse_path s (c + 1) NoSocketPath EmptySocketPath;
  match r with
  | inl e => Some (inl e)
  | inr (c, path) =>
      r ← (if l then parse_path s (c + 1) NoShmPath EmptyShmPath else Some (inr (c, [])));
      match r with
      | inl e => Some (inl e)
      | inr (c, shm) =>
          r ← parse_sync s (c + 1);
          match r with
          | inl e => Some (inl e)
          | inr (c, sy) =>
              parse_args (length s) s (c + 1)
                (MkAdapter l path (if l then Some shm else None) sy None None)
          end
      end
  end.

Definition SimbricksParametersParse (s : bytes) : option (parse_error + SimbricksAdapterParams) :=
  c ← NextDelimiter s 0 (length s) colon;
  if token s 0 c "connect" then parse_rest s false c
  else if token s 0 c "listen" then parse_rest s true c
  else Some (inl BadType).

Example parse_connect :
  SimbricksParametersParse (str "connect:/some/path:sync=true:latency=100:sync_interval=42") =
  Some (inr (MkAdapter false (str "/some/path") None true (Some 100) (Some 42))).
Proof. reflexivity. Qed.

Example parse_listen :
  SimbricksParametersParse (str "listen:/some/path:/shm/path:sync=false") =
  Some (inr (MkAdapter true (str "/some/path") (Some (str "/shm/path")) false None None)).
Proof. reflexivity. Qed.

(** ** Reference: split at the colons, then look at the fields *)

Fixpoint split_on (c : Z) (l : bytes) : list bytes :=
  match l with
  | [] => [[]]
  | x :: l =>
      if x =? c then [] :: split_on c l
      else match split_on c l with f :: fs => (x :: f) :: fs | [] => [[x]] end
  end.

(** The next field; an empty field at the very end does not count. *)
Definition next_field (fs : list bytes) : option (bytes * list bytes) :=
  match fs with [] | [[]] => None | f :: fs => Some (f, fs) end.

(** [k=v] *)
Definition key_value (f : bytes) : option (bytes * bytes) :=
  (λ k, (take k f, drop (S k) f)) <$> index_of equals f.

Definition ref_path (fs : list bytes) (missing empty : parse_error) : parse_error + bytes * list bytes :=
  match next_field fs with
  | None => inl missing
  | Some ([], _) => inl empty
  | Some r => inr r
  end.

Definition ref_sync (fs : list bytes) : parse_error + bool * list bytes :=
  match next_field fs with
  | None => inl NoSync
  | Some (f, fs) =>
      match key_value f with
      | None => inl BadSync
      | Some (k, v) =>
          if decide (k = str "sync") then
            if decide (v = str "true") then inr (true, fs)
            else if decide (v = str "false") then inr (false, fs)
            else inl BadSync
          else inl BadSync
      end
  end.

Definition ref_arg (f : bytes) (p : SimbricksAdapterParams) : parse_error + SimbricksAdapterParams :=
  match key_value f with
  | None | Some (_, []) => inl BadOption
  | Some (k, v) =>
      if decide (k = str "latency") then
        match ParseUInteger v with Some n => inr (set_latency p n) | None => inl BadLatency end
      else if decide (k = str "sync_interval") then
        match ParseUInteger v with Some n => inr (set_interval p n) | None => inl BadSyncInterval end
      else inl UnknownOption
  end.

Fixpoint ref_args (fs : list bytes) (p : SimbricksAdapterParams) : parse_error + SimbricksAdapterParams :=
  match fs with
  | [] | [[]] => inr p
  | f :: fs => p ← ref_arg f p; ref_args fs p
  end.

Definition ref_rest (l : bool) (fs : list bytes) : parse_error + SimbricksAdapterParams :=
  '(path, fs) ← ref_path fs NoSocketPath EmptySocketPath;
  '(shm, fs) ← (if l then ref_path fs NoShmPath EmptyShmPath else inr ([], fs));
  '(sy, fs) ← ref_sync fs;
  ref_args fs (MkAdapter l path (if l then Some shm else None) sy None None).

Definition ref_parse (s : bytes) : parse_error + SimbricksAdapterParams :=
  match split_on colon s with
  | [] => inl BadType
  | f :: fs =>
      if decide (f = str "connect") then ref_rest false fs
      else if decide (f = str "listen") then ref_rest true fs
      else inl BadType
  end.

(** ** The two agree *)

Lemma split_on_nil c l : split_on c l ≠ [].
Proof. destruct l; cbn; [done|]. destruct (_ =? _); [done|]. by destruct (split_on c l). Qed.

(** The first field ends at the first colon, and the others are those of what follows it. *)
Lemma split_on_cons c l f fs :
  split_on c l = f :: fs →
  match index_of c l with
  | Some k => k = length f ∧ l = f ++ c :: drop (S k) l ∧ fs = split_on c (drop (S k) l)
  | None => l = f ∧ fs = []
  end.
Proof.
  revert f fs. induction l as [|x l IH]; intros f fs; cbn; [by intros [= <- <-]|].
  destruct (Z.eqb_spec x c) as [->|Hx]; [by intros [= <- <-]|].
  destruct (split_on c l) as [|g gs] eqn:E; [by apply split_on_nil in E|].
  intros [= <- <-]. specialize (IH g gs eq_refl). destruct (index_of c l) as [k|]; cbn.
  - destruct IH as (-> & Hl & ->). split_and!; [done| |done]. by rewrite Hl at 1.
  - destruct IH as [-> ->]. done.
Qed.

Lemma index_of_bound c l k : index_of c l = Some k → (k < length l)%nat.
Proof.
  revert k. induction l as [|x l IH]; intros k; cbn; [done|].
  destruct (_ =? _); [intros [= <-]; lia|].
  destruct (index_of c l) as [j|]; [|done]. intros [= <-]. specialize (IH j eq_refl). lia.
Qed.

Lemma index_of_app c l k :
  index_of c (l ++ k) =
  match index_of c l with Some i => Some i | None => (λ j, (length l + j)%nat) <$> index_of c k end.
Proof.
  induction l as [|x l IH]; cbn; [by destruct (index_of c k)|].
  destruct (_ =? _); [done|]. rewrite IH. destruct (index_of c l); [done|]. by destruct (index_of c k).
Qed.

(** The fields from [start] on; none after the end of the string. *)
Definition fields_at (s : bytes) (start : nat) (fs : list bytes) : Prop :=
  if (length s <? start)%nat then fs = [] else fs = split_on colon (drop start s).

Lemma fields_missing s start fs :
  fields_at s start fs → (length s <=? start)%nat = match next_field fs with None => true | Some _ => false end.
Proof.
  unfold fields_at. destruct (Nat.ltb_spec (length s) start) as [H|H]; intros ->.
  { cbn. apply Nat.leb_le. lia. }
  destruct (Nat.leb_spec (length s) start) as [H1|H1].
  - by rewrite drop_ge by lia.
  - destruct (drop start s) as [|x l] eqn:E; [apply (f_equal length) in E; rewrite length_drop in E; cbn in E; lia|].
    cbn. destruct (_ =? _); [|by destruct (split_on colon l)].
    pose proof (split_on_nil colon l). by destruct (split_on colon l).
Qed.

Lemma NextDelimiter_colon s start f fs :
  (start ≤ length s)%nat → fields_at s start (f :: fs) →
  let c := (start + length f)%nat in
  NextDelimiter s start (length s) colon = Some c ∧ (c ≤ length s)%nat ∧ sub s start c = f ∧
  fields_at s (c + 1) fs.
Proof.
  intros Hs. unfold fields_at at 1. rewrite (proj2 (Nat.ltb_ge _ _)) by done. intros E. symmetry in E.
  apply split_on_cons in E. cbn zeta. unfold NextDelimiter, strchr, sub, fields_at.
  rewrite (proj2 (Nat.ltb_ge (length s) start)) by done.
  pose proof (length_drop s start) as Hl.
  replace (start + length f - start)%nat with (length f) by lia.
  destruct (index_of colon (drop start s)) as [k|] eqn:Ek; cbn [fmap option_fmap option_map].
  - pose proof (index_of_bound _ _ _ Ek). destruct E as (-> & E & ->).
    rewrite (proj2 (Nat.ltb_lt (start + length f) (length s))) by lia.
    rewrite (proj2 (Nat.ltb_ge (length s) (start + length f + 1))) by lia.
    rewrite drop_drop. split_and!; [done|lia| |do 2 f_equal; lia].
    rewrite E. apply take_app_length.
  - destruct E as [E ->]. rewrite E in Hl. split_and!; [f_equal; lia|lia| |].
    + rewrite E. by apply take_ge.
    + by rewrite (proj2 (Nat.ltb_lt _ _)) by lia.
Qed.

Lemma NextDelimiter_equals s start f :
  (start + length f ≤ length s)%nat → sub s start (start + length f) = f →
  NextDelimiter s start (start + length f) equals =
  Some (start + default (length f) (index_of equals f))%nat.
Proof.
  intros Hs Hf. unfold NextDelimiter, strchr. rewrite (proj2 (Nat.ltb_ge _ _)) by lia. f_equal.
  unfold sub in Hf. replace (start + length f - start)%nat with (length f) in Hf by lia.
  rewrite <- (take_drop (length f) (drop start s)), Hf, index_of_app.
  destruct (index_of equals f) as [k|] eqn:Ek; cbn [fmap option_fmap option_map default].
  - pose proof (index_of_bound _ _ _ Ek). by rewrite (proj2 (Nat.ltb_lt _ _)) by lia.
  - destruct (index_of equals (drop _ _)); cbn [fmap option_fmap option_map]; [|done]. by rewrite (proj2 (Nat.ltb_ge _ _)) by lia.
Qed.

Lemma sub_sub s start f i j :
  sub s start (start + length f) = f → (i ≤ j ≤ length f)%nat →
  sub s (start + i) (start + j) = take (j - i) (drop i f).
Proof.
  unfold sub. replace (start + length f - start)%nat with (length f) by lia. intros Hf Hij.
  rewrite <- Hf. rewrite <- drop_drop. replace (start + j - (start + i))%nat with (j - i)%nat by lia.
  rewrite <- (take_drop (length f) (drop start s)) at 1. rewrite Hf.
  rewrite drop_app_le by lia. rewrite take_app_le by (rewrite length_drop; lia). done.
Qed.

Lemma token_spec s a b lit : (b ≤ length s)%nat → token s a b lit = bool_decide (sub s a b = str lit).
Proof.
  intros Hb. unfold token. destruct (bool_decide_reflect (sub s a b = str lit)) as [E|E];
    [|by rewrite andb_false_r]. rewrite andb_true_r. apply bool_decide_eq_true.
  rewrite <- E. unfold sub. rewrite length_take, length_drop. lia.
Qed.

(** Each part of the parser at a position, against the reference on the fields there. *)

Lemma parse_path_spec s start fs missing empty :
  fields_at s start fs →
  ∃ r, parse_path s start missing empty = Some r ∧
       match ref_path fs missing empty with
       | inl e => r = inl e
       | inr (path, fs') => ∃ c, r = inr (c, path) ∧ fields_at s (c + 1) fs'
       end.
Proof.
  intros Hf. pose proof (fields_missing _ _ _ Hf) as Hm. unfold parse_path, ref_path. rewrite Hm.
  destruct (next_field fs) as [[f fs']|] eqn:En; [|by eexists].
  assert (fs = f :: fs') as -> by (destruct fs as [|[] []]; cbn in En; congruence).
  apply Nat.leb_gt in Hm. destruct (NextDelimiter_colon s start f fs') as (-> & _ & Hsub & Hn); [lia|done|].
  cbn [mbind option_bind]. rewrite Hsub. destruct f as [|x f].
  - by rewrite (proj2 (Nat.eqb_eq _ _)) by (cbn; lia); eexists.
  - rewrite (proj2 (Nat.eqb_neq _ _)) by (cbn; lia). eexists. split; [done|]. by eexists.
Qed.

(** The key and the value of a field, where the code finds them. *)
Lemma key_value_spec s start f :
  (start + length f ≤ length s)%nat → sub s start (start + length f) = f →
  ∃ d, NextDelimiter s start (start + length f) equals = Some d ∧ (d ≤ start + length f)%nat ∧
    match key_value f with
    | None => d = (start + length f)%nat
    | Some (k, v) => (d < start + length f)%nat ∧ sub s start d = k ∧ sub s (d + 1) (start + length f) = v ∧
                     length v = (start + length f - (d + 1))%nat
    end.
Proof.
  intros Hs Hf. rewrite (NextDelimiter_equals s start f Hs Hf). eexists. split; [done|].
  unfold key_value. destruct (index_of equals f) as [k|] eqn:Ek; cbn; [|lia].
  pose proof (index_of_bound _ _ _ Ek). split_and!; [lia|lia| | |rewrite length_drop; lia].
  - pose proof (sub_sub s start f 0 k Hf) as E. rewrite Nat.add_0_r, drop_0, Nat.sub_0_r in E. apply E. lia.
  - replace (start + k + 1)%nat with (start + S k)%nat by lia.
    rewrite (sub_sub s start f (S k) (length f) Hf) by lia.
    rewrite <- length_drop. apply firstn_all.
Qed.

Lemma parse_sync_spec s start fs :
  fields_at s start fs →
  ∃ r, parse_sync s start = Some r ∧
       match ref_sync fs with
       | inl e => r = inl e
       | inr (sy, fs') => ∃ c, r = inr (c, sy) ∧ fields_at s (c + 1) fs'
       end.
Proof.
  intros Hf. pose proof (fields_missing _ _ _ Hf) as Hm. unfold parse_sync, ref_sync. rewrite Hm.
  destruct (next_field fs) as [[f fs']|] eqn:En; [|by eexists].
  assert (fs = f :: fs') as -> by (destruct fs as [|[] []]; cbn in En; congruence).
  apply Nat.leb_gt in Hm. destruct (NextDelimiter_colon s start f fs') as (-> & Hc & Hsub & Hn); [lia|done|].
  cbn [mbind option_bind]. destruct (key_value_spec s start f Hc Hsub) as (d & -> & Hd & Hkv).
  cbn [mbind option_bind]. destruct (key_value f) as [[k v]|].
  2: { subst d. by rewrite Nat.eqb_refl; eexists. }
  destruct Hkv as (Hd' & Hk & Hv & Hlv). rewrite (proj2 (Nat.eqb_neq _ _)) by lia.
  rewrite !token_spec by lia. rewrite Hk, Hv. rewrite !bool_decide_decide.
  destruct (decide (k = str "sync")); cbn [negb]; [|by eexists].
  destruct (Nat.leb_spec (start + length f) (d + 1)).
  { destruct v as [|x v]; [by eexists|]. cbn in Hlv. lia. }
  destruct (decide (v = str "true")); [eexists; split; [done|]; by eexists|].
  destruct (decide (v = str "false")); [eexists; split; [done|]; by eexists|]. by eexists.
Qed.

Lemma parse_arg_spec s start f p :
  (start + length f ≤ length s)%nat → sub s start (start + length f) = f →
  parse_arg s start (start + length f) p = Some (ref_arg f p).
Proof.
  intros Hs Hf. unfold parse_arg, ref_arg. destruct (key_value_spec s start f Hs Hf) as (d & -> & Hd & Hkv).
  cbn [mbind option_bind]. destruct (key_value f) as [[k v]|].
  2: { by rewrite (proj2 (Nat.leb_le _ _)) by lia. }
  destruct Hkv as (Hd' & Hk & Hv & Hlv). destruct v as [|x v].
  { by rewrite (proj2 (Nat.leb_le _ _)) by (cbn in Hlv; lia). }
  rewrite (proj2 (Nat.leb_gt _ _)) by (cbn in Hlv; lia). rewrite Hv.
  rewrite !token_spec by lia. rewrite Hk, !bool_decide_decide.
  destruct (decide (k = str "latency")); [done|]. by destruct (decide (k = str "sync_interval")).
Qed.

Lemma ref_args_cons fs f fs' p :
  next_field fs = Some (f, fs') → ref_args fs p = (p ← ref_arg f p; ref_args fs' p).
Proof. by destruct fs as [|[] []]; cbn; intros [= <- <-]. Qed.

Lemma parse_args_spec s fuel : ∀ start fs p,
  fields_at s start fs → (length s ≤ start + fuel)%nat →
  parse_args fuel s start p = Some (ref_args fs p).
Proof.
  induction fuel as [|fuel IH]; intros start fs p Hf Hl; pose proof (fields_missing _ _ _ Hf) as Hm; cbn [parse_args].
  - rewrite (proj2 (Nat.leb_le _ _)) in Hm by lia. rewrite (proj2 (Nat.ltb_ge _ _)) by lia.
    by destruct fs as [|[] []].
  - destruct (next_field fs) as [[f fs']|] eqn:En.
    + assert (fs = f :: fs') as -> by (destruct fs as [|[] []]; cbn in En; congruence).
      apply Nat.leb_gt in Hm. rewrite (proj2 (Nat.ltb_lt _ _)) by lia.
      destruct (NextDelimiter_colon s start f fs') as (-> & Hc & Hsub & Hn); [lia|done|].
      cbn [mbind option_bind]. rewrite (parse_arg_spec s start f p Hc Hsub). cbn [mbind option_bind].
      rewrite (ref_args_cons _ _ _ p En). destruct (ref_arg f p); [done|]. apply IH; [done|lia].
    + apply Nat.leb_le in Hm. rewrite (proj2 (Nat.ltb_ge _ _)) by lia. by destruct fs as [|[] []].
Qed.

Lemma parse_rest_spec s l c fs :
  fields_at s (c + 1) fs → parse_rest s l c = Some (ref_rest l fs).
Proof.
  intros Hn. unfold parse_rest, ref_rest.
  destruct (parse_path_spec s (c + 1) fs NoSocketPath EmptySocketPath Hn) as (r & -> & Hr).
  cbn [mbind option_bind]. destruct (ref_path fs _ _) as [e|[path fs1]]; [by subst|].
  destruct Hr as (c1 & -> & Hn1). cbn [mbind sum_bind].
  assert (∃ r, (if l then parse_path s (c1 + 1) NoShmPath EmptyShmPath else Some (inr (c1, []))) = Some r ∧
    match (if l then ref_path fs1 NoShmPath EmptyShmPath else inr ([], fs1)) with
    | inl e => r = inl e
    | inr (path, fs') => ∃ c, r = inr (c, path) ∧ fields_at s (c + 1) fs'
    end) as (r & -> & Hr).
  { destruct l; [by apply parse_path_spec|]. eexists. split; [done|]. by exists c1. }
  cbn [mbind option_bind]. destruct (if l then ref_path _ _ _ else _) as [e|[shm fs2]]; [by subst|].
  destruct Hr as (c2 & -> & Hn2). cbn [mbind sum_bind].
  destruct (parse_sync_spec s (c2 + 1) fs2 Hn2) as (r & -> & Hr). cbn [mbind option_bind].
  destruct (ref_sync fs2) as [e|[sy fs3]]; [by subst|].
  destruct Hr as (c3 & -> & Hn3). cbn [mbind sum_bind]. apply parse_args_spec; [done|lia].
Qed.

Lemma parse_is_reference s : SimbricksParametersParse s = Some (ref_parse s).
Proof.
  unfold SimbricksParametersParse, ref_parse.
  destruct (split_on colon s) as [|f fs] eqn:E; [by apply split_on_nil in E|].
  assert (fields_at s 0 (f :: fs)) as Hf by (unfold fields_at; cbn; by rewrite drop_0).
  destruct (NextDelimiter_colon s 0 f fs) as (-> & Hc & Hsub & Hn); [lia|done|].
  cbn [mbind option_bind]. cbn [Nat.add] in *. rewrite !token_spec, Hsub, !bool_decide_decide by done.
  destruct (decide (f = str "connect")); [by apply parse_rest_spec|].
  destruct (decide (f = str "listen")); [by apply parse_rest_spec|done].
Qed.

(** ** Printing and reading back *)

Fixpoint decimal (fuel : nat) (n : Z) : bytes :=
  match fuel with
  | O => []
  | S fuel => if n <? 10 then [48 + n] else decimal fuel (n / 10) ++ [48 + n mod 10]
  end.

Definition print_number (n : Z) : bytes := decimal 20 n.

Fixpoint join (c : Z) (fs : list bytes) : bytes :=
  match fs with [] => [] | [f] => f | f :: fs => f ++ c :: join c fs end.

Definition option_field (key : string) (v : option Z) : list bytes :=
  match v with Some n => [str key ++ [equals] ++ print_number n] | None => [] end.

Definition fields (p : SimbricksAdapterParams) : list bytes :=
  [if listen p then str "listen" else str "connect"; socket_path p] ++
  (match shm_path p with Some shm => [shm] | None => [] end) ++
  [str "sync" ++ [equals] ++ (if sync p then str "true" else str "false")] ++
  option_field "latency" (link_latency p) ++ option_field "sync_interval" (sync_interval p).

Definition print_url (p : SimbricksAdapterParams) : bytes := join colon (fields p).

Definition path_ok (l : bytes) : Prop := l ≠ [] ∧ colon ∉ l.

(** Parameters that a URL can express. *)
Definition expressible (p : SimbricksAdapterParams) : Prop :=
  path_ok (socket_path p) ∧
  (if listen p then ∃ shm, shm_path p = Some shm ∧ path_ok shm else shm_path p = None) ∧
  (∀ n, link_latency p = Some n → n ∈u 64) ∧ (∀ n, sync_interval p = Some n → n ∈u 64).

Lemma split_join c fs : fs ≠ [] → Forall (λ f, c ∉ f) fs → split_on c (join c fs) = fs.
Proof.
  induction fs as [|f fs IH]; [done|]. intros _ [Hf Hfs]%Forall_cons.
  assert (∀ l, split_on c (f ++ c :: l) = f :: split_on c l) as Hcons.
  { clear IH. intros l. induction f as [|x f IHf]; cbn; [by rewrite Z.eqb_refl|].
    apply not_elem_of_cons in Hf as [Hx Hf]. rewrite (proj2 (Z.eqb_neq _ _)) by done. by rewrite IHf. }
  destruct fs as [|g fs].
  - cbn [join]. clear IH Hcons. induction f as [|x f IHf]; [done|]. apply not_elem_of_cons in Hf as [Hx Hf]. cbn.
    rewrite (proj2 (Z.eqb_neq _ _)) by done. by rewrite IHf.
  - change (join c (f :: g :: fs)) with (f ++ c :: join c (g :: fs)). rewrite Hcons, IH; done.
Qed.

Lemma digits_all l : ∀ acc,
  Forall (λ x, is_digit x = true) l → digits acc l = (foldl (λ a x, a * 10 + (x - 48)) acc l, []).
Proof.
  induction l as [|x l IH]; intros acc; [done|]. intros [Hx Hl]%Forall_cons. cbn. rewrite Hx. by apply IH.
Qed.

Lemma decimal_spec fuel : ∀ n,
  0 ≤ n < 10 ^ Z.of_nat fuel →
  Forall (λ x, is_digit x = true) (decimal fuel n) ∧
  foldl (λ a x, a * 10 + (x - 48)) 0 (decimal fuel n) = n ∧ (fuel ≠ O → decimal fuel n ≠ []).
Proof.
  induction fuel as [|fuel IH]; intros n Hn; [cbn in *; split_and!; [done|lia|done]|]. cbn [decimal].
  destruct (Z.ltb_spec n 10).
  { split_and!; [|cbn; lia|done]. apply Forall_singleton. unfold is_digit.
    apply andb_true_iff. rewrite !Z.leb_le. lia. }
  rewrite Nat2Z.inj_succ, Z.pow_succ_r in Hn by lia.
  destruct (IH (n / 10)) as (Hd & Hv & _).
  { split; [apply Z.div_pos; lia|]. apply Z.div_lt_upper_bound; lia. }
  pose proof (Z.mod_pos_bound n 10). pose proof (Z.div_mod n 10).
  split_and!.
  - apply Forall_app. split; [done|]. apply Forall_singleton. unfold is_digit.
    apply andb_true_iff. rewrite !Z.leb_le. lia.
  - rewrite foldl_app, Hv. cbn. lia.
  - intros _ E. by apply app_eq_nil in E as [_ ?].
Qed.

Lemma parse_number n : n ∈u 64 → ParseUInteger (print_number n) = Some n.
Proof.
  intros [Hn0 Hn]. destruct (decimal_spec 20 n) as (Hd & Hv & Hne); [cbn; lia|].
  specialize (Hne ltac:(done)). unfold print_number, ParseUInteger, strtoul.
  destruct (decimal 20 n) as [|x l] eqn:E; [done|]. pose proof Hd as [Hx _]%Forall_cons.
  assert (Hx' := Hx). unfold is_digit in Hx'. apply andb_true_iff in Hx' as [Hx1 Hx2].
  apply Z.leb_le in Hx1. apply Z.leb_le in Hx2.
  assert (is_space x = false) as Hs.
  { unfold is_space. rewrite orb_false_iff, andb_false_iff. split; [apply Z.eqb_neq; lia|].
    right. apply Z.leb_gt. lia. }
  cbn [skip_space]. rewrite Hs. rewrite (proj2 (Z.eqb_neq x 45)), (proj2 (Z.eqb_neq x 43)) by lia.
  rewrite Hx, digits_all by done. rewrite Hv. rewrite (proj2 (Z.leb_le _ _)) by (unfold UINT64_MAX; lia). done.
Qed.

Lemma print_number_no_colon n : n ∈u 64 → colon ∉ print_number n.
Proof.
  intros [? ?] Hc. destruct (decimal_spec 20 n) as (Hd & _ & _); [cbn; lia|].
  rewrite Forall_forall in Hd. by specialize (Hd _ Hc).
Qed.

Lemma fields_no_colon p : expressible p → Forall (λ f, colon ∉ f) (fields p).
Proof.
  intros ((_ & Hs) & Hl & Hlat & Hsi). unfold fields. rewrite !Forall_app. split_and!.
  - apply Forall_cons. split; [by destruct (listen p); vm_compute; set_solver|]. by apply Forall_singleton.
  - destruct (listen p); [destruct Hl as (shm & -> & _ & ?)|rewrite Hl]; [by apply Forall_singleton|done].
  - apply Forall_singleton. by destruct (sync p); vm_compute; set_solver.
  - destruct (link_latency p) as [n|]; [|done]. apply Forall_singleton. unfold colon.
    pose proof (print_number_no_colon n (Hlat n eq_refl)). rewrite !not_elem_of_app.
    split_and!; [vm_compute; set_solver..|done].
  - destruct (sync_interval p) as [n|]; [|done]. apply Forall_singleton.
    pose proof (print_number_no_colon n (Hsi n eq_refl)). rewrite !not_elem_of_app.
    split_and!; [vm_compute; set_solver..|done].
Qed.

Lemma key_value_app k v : equals ∉ k → key_value (k ++ [equals] ++ v) = Some (k, v).
Proof.
  intros Hk. unfold key_value. rewrite index_of_app.
  assert (index_of equals k = None) as ->.
  { induction k as [|x k IH]; [done|]. apply not_elem_of_cons in Hk as [Hx Hk]. cbn.
    rewrite (proj2 (Z.eqb_neq _ _)) by done. by rewrite IH. }
  cbn. rewrite Nat.add_0_r, take_app_length. by rewrite skipn_app, skipn_all2, Nat.sub_succ_l, Nat.sub_diag by lia.
Qed.

(** Reading back one option. *)
Lemma ref_arg_option (key : string) n p :
  n ∈u 64 → key = "latency"%string ∨ key = "sync_interval"%string →
  ref_arg (str key ++ [equals] ++ print_number n) p =
  inr (if decide (key = "latency"%string) then set_latency p n else set_interval p n).
Proof.
  intros Hn Hkey. unfold ref_arg. rewrite key_value_app.
  2: { destruct Hkey as [-> | ->]; vm_compute; set_solver. }
  pose proof (parse_number n Hn) as Hp. destruct (print_number n) as [|x l] eqn:E; [by vm_compute in Hp|].
  rewrite Hp. by destruct Hkey as [-> | ->].
Qed.

Lemma ref_args_options lat si p :
  (∀ n, lat = Some n → n ∈u 64) → (∀ n, si = Some n → n ∈u 64) →
  link_latency p = None → sync_interval p = None →
  ref_args (option_field "latency" lat ++ option_field "sync_interval" si) p =
  inr (MkAdapter (listen p) (socket_path p) (shm_path p) (sync p) lat si).
Proof.
  intros Hl Hs. destruct p as [l sock shm sy ? ?]. cbn. intros -> ->.
  assert (∀ f fs p, f ≠ [] → ref_args ([f] ++ fs) p = (p ← ref_arg f p; ref_args fs p)) as Hstep.
  { intros f fs p Hf. apply ref_args_cons. by destruct f. }
  destruct lat as [n|], si as [m|]; unfold option_field; rewrite ?app_nil_l; [| | |done].
  - rewrite Hstep, ref_arg_option by auto. cbn [mbind sum_bind]. rewrite <- (app_nil_r [_ ++ _]).
    by rewrite Hstep, ref_arg_option by auto.
  - by rewrite Hstep, ref_arg_option by auto.
  - rewrite <- (app_nil_r [_ ++ _]). by rewrite Hstep, ref_arg_option by auto.
Qed.

(** C33: Connection parameters survive printing and parsing: for any parameters that a URL can
    express (nonempty paths without a colon, a shared-memory path exactly for a listener, 64-bit
    numbers) the parser reads the URL printed for them back to the same parameters, and on every
    string, printed or not, it agrees with a reference that splits the string at its colons. *)
Theorem url_roundtrip :
  (∀ p, expressible p → SimbricksParametersParse (print_url p) = Some (inr p)) ∧
  (∀ s, SimbricksParametersParse s = Some (ref_parse s)).
Proof.
  split; [|apply parse_is_reference]. intros p Hp. rewrite parse_is_reference. f_equal. unfold ref_parse, print_url.
  rewrite split_join by (done || by apply fields_no_colon).
  destruct Hp as ((Hs & _) & Hl & Hlat & Hsi). destruct p as [l sock shm sy lat si].
  unfold fields. cbn [listen socket_path shm_path sync link_latency sync_interval] in *.
  destruct sock as [|x sock]; [done|].
  set (opts := option_field "latency" lat ++ option_field "sync_interval" si).
  set (sf := str "sync" ++ [equals] ++ (if sy then str "true" else str "false")).
  assert (ref_sync (sf :: opts) = inr (sy, opts)) as Hsync by (unfold sf; by destruct sy).
  clearbody sf.
  destruct l; [destruct Hl as (shm' & -> & Hs' & _); destruct shm' as [|y shm']; [done|]|subst shm];
    cbn [app]; [rewrite decide_False, decide_True by done|rewrite decide_True by done];
    unfold ref_rest, ref_path; cbn [next_field mbind sum_bind]; rewrite Hsync; cbn [mbind sum_bind];
    by apply ref_args_options.
Qed.

Lemma url_roundtrip_witness :
  let p := MkAdapter true (str "/sock") (Some (str "/shm")) true (Some 500) None in
  SimbricksParametersParse (print_url p) = Some (inr p).
Proof.
  apply (proj1 url_roundtrip). unfold expressible. cbn [socket_path listen shm_path link_latency sync_interval].
  split_and!.
  - split; [done|]. vm_compute. set_solver.
  - eexists. split; [done|]. split; [done|]. vm_compute. set_solver.
  - intros n [= <-]. unfold fits. lia.
  - done.
Defined.

(** A negative number is accepted and wraps around. *)
Theorem negative_latency_accepted :
  SimbricksParametersParse (str "connect:/path:sync=true:latency=-1") =
  Some (inr (MkAdapter false (str "/path") None true (Some (2 ^ 64 - 1)) None)).
Proof. reflexivity. Qed.

End params.
