(* ===== verification/ConnSetup.v ===== *)
(** * Opening the interfaces of a simulator (lib/simbricks/parser/parser.c, nicif/nicif.{h,c})

    [SimbricksParametersEstablish] opens one interface per connection URL, all listeners in one
    pool of shared memory; [SimbricksNicIfInit] opens the network and the PCIe interface of a
    NIC, which then are synchronized together.  Shown: the pool is exactly as large as the rings
    of the listeners, and is given back when something fails. *)

From stdpp Require Import strings.
From S2P Require Import Prelude.
From S2P Require Import BaseIf.
From S2P Require Import BaseChannel.
From S2P Require Import TypedIf.
From S2P Require Import BaseConn.
From S2P Require Import ParamParser.

Module setup.
Import base typed conn.

(** ** Interfaces from URLs *)

(** The results of the system calls. *)
Record setup_env := MkSetupEnv {
  se_pool : bool;
  se_listen : nat → listen_env;
  se_connect : nat → connect_env;
  se_rounds : list (list pass_env * bool);
}.

Definition apply_params (ap : params.SimbricksAdapterParams) (bps : ConnParams) : ConnParams :=
  let b := base_params bps in
  MkConnParams
    (if params.sync ap then
       MkParams (default (link_latency b) (params.link_latency ap))
         (default (sync_interval b) (params.sync_interval ap)) SyncRequired
     else MkParams (link_latency b) (sync_interval b) SyncDisabled)
    (params.socket_path ap) false (in_num_entries bps) (in_entries_size bps)
    (out_num_entries bps) (out_entries_size bps) (upper_layer_proto bps).

(** All URLs; [Some None]: one of them is wrong. *)
Fixpoint parse_all (urls : list bytes) : option (option (list params.SimbricksAdapterParams)) :=
  match urls with
  | [] => Some (Some [])
  | u :: urls =>
      r ← params.SimbricksParametersParse u;
      match r with
      | inl _ => Some None
      | inr p => rs ← parse_all urls; Some (option_map (cons p) rs)
      end
  end.

(** [mempoolsize], of [size_t] *)
Fixpoint pool_size (aps : list params.SimbricksAdapterParams) (bps : list ConnParams) (acc : Z) : Z :=
  match aps, bps with
  | ap :: aps, bp :: bps =>
      pool_size aps bps (if params.listen ap then u64 (acc + SHMSize bp) else acc)
  | _, _ => acc
  end.

(** The loop that prepares the interfaces, from number [i]; [inl]: -1. *)
Fixpoint prepare (i : nat) (aps : list params.SimbricksAdapterParams) (bps : list ConnParams) (m : pool)
    (e : setup_env) : unit + list baseif * pool :=
  match aps, bps with
  | ap :: aps, bp :: bps =>
      match Init bp with
      | None => inl tt
      | Some c =>
          let '(ret, c, m) := if params.listen ap then SimbricksBaseIfListen c m (se_listen e i)
                              else let '(ret, c) := SimbricksBaseIfConnect c (se_connect e i) in (ret, c, m) in
          if negb (ret =? 0) then inl tt
          else match prepare (S i) aps bps m e with
               | inl _ => inl tt
               | inr (l, m) => inr (c :: l, m)
               end
      end
  | _, _ => inr ([], m)
  end.

(** The result, the interfaces when it is 0, and whether the pool was created and given back. *)
Inductive setup_result :=
| Failed (created released : bool)
| Connected (ifs : list est_data)
| Waiting (ifs : list est_data).

(** [ifs]: the parameters set by the caller, and the intros to send and the space for those to
    receive. *)
Definition SimbricksParametersEstablish (ifs : list (ConnParams * bytes * Z)) (urls : list bytes) (e : setup_env) :
    option setup_result :=
  r ← parse_all urls;
  match r with
  | None => Some (Failed false false)
  | Some aps =>
      let bps := zip_with (λ ap d, apply_params ap d.1.1) aps ifs in
      let mempoolsize := pool_size aps bps 0 in
      let created := 0 <? mempoolsize in
      if created && negb (se_pool e) then Some (Failed false false)
      else
        let m := if created then SHMPoolCreate mempoolsize else MkPool 0 0 in
        match prepare 0 aps bps m e with
        | inl _ => Some (Failed created created)
        | inr (cs, m) =>
            o ← Establish (zip_with (λ c d, MkEst c d.1.2 [] d.2) cs ifs) (se_rounds e);
            Some match o with
                 | Returned ret l => if negb (ret =? 0) then Failed created created else Connected l
                 | Polling l => Waiting l
                 end
        end
  end.

(** ** The interfaces of a NIC *)

(** [SimbricksNicIfSync]: the network first, PCIe only if that succeeded. *)
Definition SimbricksNicIfSync (net pcie : iface) (cur_ts : Z) : option (Z * iface * iface) :=
  '(r, net) ← OutSync net cur_ts;
  if r =? 0 then
    '(r, pcie) ← OutSync pcie cur_ts;
    Some (if r =? 0 then 0 else -1, net, pcie)
  else Some (-1, net, pcie).

Definition SimbricksNicIfNextTimestamp (net pcie : iface) : Z :=
  let net_in := InTimestamp net in
  let net_out := OutNextSync net in
  let n := if net_in <=? net_out then net_in else net_out in
  let pcie_in := InTimestamp pcie in
  let pcie_out := OutNextSync pcie in
  let p := if pcie_in <=? pcie_out then pcie_in else pcie_out in
  if n <? p then n else p.

(** [SimbricksNicIfInit] up to [Establish]: [None] is -1.  Either interface may be absent. *)
Definition nic_open (p : option ConnParams) (m : pool) (e : listen_env) : option (option baseif * pool) :=
  match p with
  | None => Some (None, m)
  | Some p =>
      c ← Init p;
      let '(ret, c, m) := SimbricksBaseIfListen c m e in
      if ret =? 0 then Some (Some c, m) else None
  end.

Definition nic_shm_size (netParams pcieParams : option ConnParams) : Z :=
  u64 (match netParams with Some p => SHMSize p | None => 0 end +
       match pcieParams with Some p => SHMSize p | None => 0 end).

Definition SimbricksNicIfInit (netParams pcieParams : option ConnParams) (pool_ok : bool) (en ep : listen_env) :
    option (option baseif * option baseif * pool) :=
  if negb pool_ok then None
  else
    '(net, m) ← nic_open netParams (SHMPoolCreate (nic_shm_size netParams pcieParams)) en;
    '(pcie, m) ← nic_open pcieParams m ep;
    Some (net, pcie, m).

(** ** The pool is as large as the rings need *)

(** The rings of the listeners, without wrapping around. *)
Fixpoint total (aps : list params.SimbricksAdapterParams) (bps : list ConnParams) : Z :=
  match aps, bps with
  | ap :: aps, bp :: bps =>
      (if params.listen ap
       then in_num_entries bp * in_entries_size bp + out_num_entries bp * out_entries_size bp else 0) +
      total aps bps
  | _, _ => 0
  end.

Definition sizes_ok (p : ConnParams) : Prop :=
  0 ≤ in_num_entries p * in_entries_size p ∧ 0 ≤ out_num_entries p * out_entries_size p.

Lemma setup_total_nonneg aps : ∀ bps, Forall sizes_ok bps → 0 ≤ total aps bps.
Proof.
  induction aps as [|ap aps IH]; intros [|bp bps] H; [done..|]. apply Forall_cons in H as [[Hi Ho] H]. cbn.
  specialize (IH bps H). destruct (params.listen ap); lia.
Qed.

Lemma SHMSize_exact p :
  sizes_ok p → in_num_entries p * in_entries_size p + out_num_entries p * out_entries_size p < 2 ^ 64 →
  SHMSize p = in_num_entries p * in_entries_size p + out_num_entries p * out_entries_size p.
Proof. intros [? ?] ?. unfold SHMSize. rewrite !wrap_id; try done; unfold fits; rewrite ?wrap_id; unfold fits; lia. Qed.

Lemma pool_size_exact aps : ∀ bps acc,
  Forall sizes_ok bps → 0 ≤ acc → acc + total aps bps < 2 ^ 64 → pool_size aps bps acc = acc + total aps bps.
Proof.
  induction aps as [|ap aps IH]; intros [|bp bps] acc H Ha Ht; cbn in *; [lia..|].
  apply Forall_cons in H as [Hb H]. pose proof (setup_total_nonneg aps bps H). pose proof Hb as [? ?].
  destruct (params.listen ap); [|rewrite IH; [lia|done|lia|lia]].
  rewrite SHMSize_exact, wrap_id by (done || lia || (unfold fits; lia)). rewrite IH; [lia|done|lia|lia].
Qed.

(** The system calls succeed, and the parameters are ones that [Init] and the sockets take. *)
Definition calls_ok (e : setup_env) : Prop :=
  ∀ i, (let l := se_listen e i in l_socket l = true ∧ l_nonblock l = true ∧ l_bind l = true ∧ l_listen l = true ∧
        l_accept l ≠ AcceptError) ∧
       (let c := se_connect e i in c_socket c = true ∧ c_nonblock c = true ∧ c_connect c ≠ ConnectError).

Definition acceptable (p : ConnParams) : Prop := is_Some (Init p) ∧ (length (sock_path p) < SUN_PATH)%nat.

(** If nothing else fails, every listener finds room in a pool of the computed size, whatever
    the number of interfaces and the order of listeners and connectors. *)
Theorem pool_suffices aps bps e m : ∀ i,
  calls_ok e → Forall sizes_ok bps → Forall acceptable bps → length aps = length bps →
  0 ≤ p_pos m → p_pos m + total aps bps ≤ p_size m < 2 ^ 64 →
  ∃ cs m', prepare i aps bps m e = inr (cs, m') ∧ length cs = length bps ∧
    p_size m' = p_size m ∧ p_pos m' = p_pos m + total aps bps.
Proof.
  revert bps m. induction aps as [|ap aps IH]; intros [|bp bps] m i He Hs Ha Hl Hp Ht; try done.
  { exists [], m. cbn. split_and!; [done..|lia]. }
  apply Forall_cons in Hs as [Hsb Hs]. apply Forall_cons in Ha as [[[c Hc] Hlen] Ha]. injection Hl as Hl.
  cbn [prepare total] in *. rewrite Hc. pose proof (setup_total_nonneg aps bps Hs).
  assert (cparams c = bp) as Hcp.
  { unfold Init in Hc. destruct (SimbricksBaseIfInit _); [|done]. by injection Hc as <-. }
  destruct (He i) as [(L1 & L2 & L3 & L4 & L5) (C1 & C2 & C3)]. destruct Hsb as [? ?].
  destruct (params.listen ap).
  - unfold SimbricksBaseIfListen. rewrite Hcp. rewrite (proj2 (Nat.leb_gt _ _)) by done. cbv zeta.
    rewrite (wrap_id 64 (in_num_entries bp * _)) by (unfold fits; lia).
    rewrite (wrap_id 64 (out_num_entries bp * _)) by (unfold fits; lia).
    rewrite (wrap_id 64 (p_pos m + _)) by (unfold fits; lia).
    rewrite (wrap_id 64 (_ + out_num_entries bp * _)) by (unfold fits; lia).
    rewrite (proj2 (Z.ltb_ge _ _)) by lia. rewrite L1, L2, L3, L4. cbn [negb]. rewrite andb_false_r.
    unfold AcceptOnBaseIf.
    edestruct (IH bps (MkPool (p_size m) (p_pos m + in_num_entries bp * in_entries_size bp + out_num_entries bp * out_entries_size bp)) (S i))
      as (cs & m' & E & Hl' & Hsz & Hpos); [done..|cbn; lia|cbn; lia|]. cbn [p_size p_pos] in *.
    destruct (l_accept _); [| |done]; cbn [Z.ltb Z.compare Z.eqb negb]; rewrite E; eexists _, m';
      (split_and!; [done|cbn; congruence|done|lia]).
  - unfold SimbricksBaseIfConnect. rewrite Hcp. rewrite (proj2 (Nat.leb_gt _ _)) by done.
    rewrite C1, C2. cbn [negb]. rewrite andb_false_r.
    destruct (IH bps m (S i)) as (cs & m' & E & Hl' & Hsz & Hpos); [done..|lia|].
    destruct (c_connect _); [| |done]; cbn [Z.eqb negb]; rewrite E; eexists _, m'; (split_and!; [done|cbn; congruence|done|lia]).
Qed.

(** ** What comes of it *)

Lemma parse_all_total urls : ∃ r, parse_all urls = Some r.
Proof.
  induction urls as [|u urls [r IH]]; cbn [parse_all]; [by eexists|]. rewrite params.parse_is_reference. cbn [mbind option_bind].
  destruct (params.ref_parse u); [by eexists|]. rewrite IH. by eexists.
Qed.

(** Opening interfaces neither aborts nor leaks the pool: for any URLs, and for any results of
    the system calls in which what is received are intros, it returns 0 with every interface
    open, or -1 and the pool is given back exactly if it was created. *)
Theorem setup_outcome ifs urls e :
  (∀ aps cs m m', parse_all urls = Some (Some aps) →
     prepare 0 aps (zip_with (λ ap d, apply_params ap d.1.1) aps ifs) m e = inr (cs, m') →
     Forall (λ r, env_ok (zip_with (λ c d, MkEst c d.1.2 [] d.2) cs ifs) r.1) (se_rounds e)) →
  ∃ r, SimbricksParametersEstablish ifs urls e = Some r ∧
    match r with
    | Failed created released => released = created
    | Connected l => Forall is_open l
    | Waiting _ => True
    end.
Proof.
  intros He. unfold SimbricksParametersEstablish. destruct (parse_all_total urls) as [r Hr]. rewrite Hr. cbn [mbind option_bind].
  destruct r as [aps|]; [|by eexists]. destruct (_ && _); [by eexists|].
  destruct (prepare _ _ _ _ _) as [|[cs m']] eqn:E; [by eexists|].
  destruct (establish_never_aborts _ _ (He _ _ _ _ Hr E)) as (o & -> & Ho). cbn [mbind option_bind].
  destruct o as [ret l|l]; [|by eexists]. destruct Ho as [-> | [-> Ho]]; cbn [Z.eqb negb]; by eexists.
Qed.

(** The next time a NIC must act is the earliest of its four deadlines. *)
Lemma next_timestamp_min net pcie :
  let t := SimbricksNicIfNextTimestamp net pcie in
  let l := [InTimestamp net; OutNextSync net; InTimestamp pcie; OutNextSync pcie] in
  t ∈ l ∧ Forall (λ x, t ≤ x) l.
Proof.
  cbv zeta. unfold SimbricksNicIfNextTimestamp. rewrite !Forall_cons.
  set (a := InTimestamp net). set (b := OutNextSync net). set (c := InTimestamp pcie). set (d := OutNextSync pcie).
  destruct (Z.leb_spec a b), (Z.leb_spec c d);
    match goal with |- context [?x <? ?y] => destruct (Z.ltb_spec x y) end; (split; [set_solver|]);
    split_and!; try done; lia.
Qed.

End setup.
