(* ===== verification/AxiStream.v ===== *)
(** * AXI stream adapters (lib/simbricks/axi/axi_s.hpp)

    [AXISManager] plays packets out on an AXI stream interface, some bytes per clock cycle, and
    [AXISSubordinate] collects packets from one.  The references to signals of the hardware model
    are fields here; one step is one call of [step].  [None] is [std::terminate] or a write
    outside an array.

    The theorem: wired together, with a data width of 8 bytes or more, they deliver every packet
    whole and in order.  Two theorems after it show how bytes are added at smaller widths, and
    how bytes are lost when the receiver is not ready. *)

From S2P Require Import Prelude.

Module axis.

(** ** Packet buffers *)

Record ManagerBuffer := MkMBuf { m_buf : bytes; m_len : nat; read_offset : nat }.

Definition mb_reset (b : ManagerBuffer) (data : bytes) : option ManagerBuffer :=
  if (length data <=? length (m_buf b))%nat
  then Some (MkMBuf (data ++ drop (length data) (m_buf b)) (length data) 0) else None.

Definition mb_done (b : ManagerBuffer) : bool := (m_len b <=? read_offset b)%nat.
Definition mb_empty (b : ManagerBuffer) : bool := (m_len b =? 0)%nat.

Definition mb_read (b : ManagerBuffer) : option (Z * ManagerBuffer) :=
  if mb_done b then None
  else x ← m_buf b !! read_offset b; Some (x, MkMBuf (m_buf b) (m_len b) (S (read_offset b))).

Record SubordinateBuffer := MkSBuf { s_buf : bytes; s_len : nat; s_done : bool }.

Definition sb_full (b : SubordinateBuffer) : bool := (s_len b =? length (s_buf b))%nat.

Definition sb_setNextByte (b : SubordinateBuffer) (by' : Z) : option SubordinateBuffer :=
  if sb_full b then None else Some (MkSBuf (<[s_len b := by']> (s_buf b)) (S (s_len b)) (s_done b)).

(** [assign]: the packet, and the buffer emptied. *)
Definition sb_assign (b : SubordinateBuffer) : bytes * SubordinateBuffer :=
  (take (s_len b) (s_buf b), MkSBuf (s_buf b) 0 false).

(** ** Bitmaps *)

Definition setIndex (bitmap : bytes) (index : nat) : option bytes :=
  x ← bitmap !! (index / 8)%nat;
  Some (<[(index / 8)%nat := u8 (Z.lor x (Z.shiftl 1 (Z.of_nat (index mod 8))))]> bitmap).

Definition reset_bitmap (bitmap : bytes) (size : nat) : option bytes :=
  if (size <=? length bitmap)%nat then Some (replicate size 0 ++ drop size bitmap) else None.

(** [None] also past the data width [W]. *)
Definition isSet (W : nat) (bitmap : bytes) (index : nat) : option bool :=
  if (W <=? index)%nat then None
  else b ← bitmap !! (index / 8)%nat;
       Some (negb (Z.land b (Z.shiftl 1 (Z.of_nat (index mod 8))) =? 0)).

(** ** Manager *)

(** The signals a manager drives. *)
Record wires := MkWires { tvalid : bool; tdata : bytes; tkeep : bytes; tlast : bool }.

Record AXISManager := MkManager {
  out : wires;
  buffer_ring : list ManagerBuffer;
  write_index : nat;
  read_index : nat;
  cur_size : nat;
}.

Definition full (s : AXISManager) : bool := (length (buffer_ring s) <=? cur_size s)%nat.
Definition empty (s : AXISManager) : bool := (cur_size s =? 0)%nat.

Definition read (s : AXISManager) (data : bytes) : option AXISManager :=
  if (length data =? 0)%nat then None
  else if full s then None
  else
    b ← buffer_ring s !! write_index s;
    b ← mb_reset b data;
    Some (MkManager (out s) (<[write_index s := b]> (buffer_ring s))
            ((write_index s + 1) mod length (buffer_ring s)) (read_index s) (S (cur_size s))).

Definition move_read_head (s : AXISManager) (w : wires) : option AXISManager :=
  b ← buffer_ring s !! read_index s;
  if negb (mb_done b) then None
  else Some (MkManager w (buffer_ring s) (write_index s)
               ((read_index s + 1) mod length (buffer_ring s)) (cur_size s - 1)).

(** The loop over the bytes of a transfer, for [k] more of them from [index]. *)
Fixpoint put_bytes (k index : nat) (b : ManagerBuffer) (data keep : bytes) : option (ManagerBuffer * bytes * bytes) :=
  match k with
  | O => Some (b, data, keep)
  | S k =>
      if mb_done b then Some (b, data, keep)
      else
        '(x, b) ← mb_read b;
        if (index <? length data)%nat then
          keep ← setIndex keep index;
          put_bytes k (S index) b (<[index := x]> data) keep
        else None
  end.

(** [W] is [DataWidthBytes]; [kKeepWidth] is [DataWidthBytes / 8]. *)
Definition manager_step (W : nat) (s : AXISManager) (tready : bool) : option AXISManager :=
  let quiet := MkWires false (tdata (out s)) (tkeep (out s)) false in
  if empty s then Some (MkManager quiet (buffer_ring s) (write_index s) (read_index s) (cur_size s))
  else
    b ← buffer_ring s !! read_index s;
    if mb_empty b then Some (MkManager quiet (buffer_ring s) (write_index s) (read_index s) (cur_size s))
    else if negb (mb_done b) && negb tready then Some s
    else if mb_done b then move_read_head s quiet
    else
      keep ← reset_bitmap (tkeep (out s)) (W / 8);
      '(b, data, keep) ← put_bytes W 0 b (tdata (out s)) keep;
      Some (MkManager (MkWires true data keep (mb_done b)) (<[read_index s := b]> (buffer_ring s))
              (write_index s) (read_index s) (cur_size s)).

(** ** Subordinate *)

(** The loop over the bytes, for [k] more of them from [index]. *)
Fixpoint take_bytes (W k index : nat) (w : wires) (b : SubordinateBuffer) : option SubordinateBuffer :=
  match k with
  | O => Some b
  | S k =>
      set ← isSet W (tkeep w) index;
      if (set : bool) then
        x ← tdata w !! index;
        b ← sb_setNextByte b x;
        take_bytes W k (S index) w b
      else take_bytes W k (S index) w b
  end.

(** [step] first raises [tready], so a valid transfer always happens. *)
Definition subordinate_step (W : nat) (b : SubordinateBuffer) (w : wires) : option SubordinateBuffer :=
  if negb (tvalid w) then Some b
  else if s_done b || sb_full b then None
  else
    b ← take_bytes W W 0 w b;
    Some (if tlast w then MkSBuf (s_buf b) (s_len b) true else b).

(** [write] *)
Definition subordinate_write (b : SubordinateBuffer) : option (bytes * SubordinateBuffer) :=
  if negb (s_done b) then None else Some (sb_assign b).

(** ** The two wired together *)

(** [sent], [taken]: the packets given to the manager, and taken from the subordinate. *)
Record link := MkLink {
  mgr : AXISManager; sub : SubordinateBuffer; tready : bool; sent : list bytes; taken : list bytes }.

Inductive event := Send (p : bytes) | Cycle | Take.

Definition link_step (W : nat) (l : link) (e : event) : option link :=
  match e with
  | Send p => m ← read (mgr l) p; Some (MkLink m (sub l) (tready l) (sent l ++ [p]) (taken l))
  | Cycle =>
      m ← manager_step W (mgr l) (tready l);
      s ← subordinate_step W (sub l) (out m);
      Some (MkLink m s true (sent l) (taken l))
  | Take => '(p, s) ← subordinate_write (sub l); Some (MkLink (mgr l) s (tready l) (sent l) (taken l ++ [p]))
  end.

Fixpoint link_run (W : nat) (l : link) (es : list event) : option link :=
  match es with [] => Some l | e :: es => l ← link_step W l e; link_run W l es end.

Lemma link_run_app W l es es' : link_run W l (es ++ es') = (l ← link_run W l es; link_run W l es').
Proof.
  revert l. induction es as [|e es IH]; intros l; [done|]. cbn. destruct (link_step W l e); [apply IH|done].
Qed.

(** [slots] buffers of [size] bytes, and one of [psize]. *)
Definition new_link (W slots size psize : nat) : link :=
  MkLink (MkManager (MkWires false (replicate W 0) (replicate ((W + 7) / 8) 0) false)
            (replicate slots (MkMBuf (replicate size 0) 0 0)) 0 0 0)
    (MkSBuf (replicate psize 0) 0 false) false [] [].

(** ** One transfer *)

(** Bit [j] of a bitmap. *)
Definition bit (keep : bytes) (j : nat) : bool :=
  match keep !! (j / 8)%nat with Some b => Z.testbit b (Z.of_nat (j mod 8)) | None => false end.

Lemma bit_zeros n j : bit (replicate n 0) j = false.
Proof.
  unfold bit. destruct (replicate n 0 !! (j / 8)%nat) as [b|] eqn:E; [|done].
  apply lookup_replicate in E as [-> _]. apply Z.bits_0.
Qed.

Lemma setIndex_spec keep index :
  (index / 8 < length keep)%nat →
  ∃ keep', setIndex keep index = Some keep' ∧ length keep' = length keep ∧
    ∀ j, bit keep' j = bit keep j || (j =? index)%nat.
Proof.
  intros Hi. unfold setIndex. destruct (lookup_lt_is_Some_2 keep (index / 8) Hi) as [x Hx]. rewrite Hx. cbn [mbind option_bind].
  eexists. split; [done|]. split; [apply length_insert|]. intros j. unfold bit.
  pose proof (Nat.mod_upper_bound j 8). pose proof (Nat.mod_upper_bound index 8).
  pose proof (Nat.div_mod_eq j 8). pose proof (Nat.div_mod_eq index 8).
  destruct (decide (j / 8 = index / 8)%nat) as [E|E].
  - rewrite E, list_lookup_insert_eq, Hx by done. rewrite wrap_bits, Z.lor_spec, testbit_bit by lia. f_equal.
    apply eq_bool_prop_intro. rewrite !Is_true_true, Z.eqb_eq, Nat.eqb_eq. lia.
  - rewrite list_lookup_insert_ne by done. rewrite (proj2 (Nat.eqb_neq j index)) by (intros ->; done).
    by rewrite orb_false_r.
Qed.

(** Buffer [b] holds packet [p], of which [r] bytes were read. *)
Definition holds (b : ManagerBuffer) (p : bytes) (r : nat) : Prop :=
  m_len b = length p ∧ read_offset b = r ∧ take (length p) (m_buf b) = p ∧ (length p ≤ length (m_buf b))%nat.

Lemma holds_done b p r : holds b p r → mb_done b = (length p <=? r)%nat.
Proof. intros (H1 & H2 & _). unfold mb_done. by rewrite H1, H2. Qed.

Lemma holds_read b p r x :
  holds b p r → p !! r = Some x → ∃ b', mb_read b = Some (x, b') ∧ holds b' p (S r) ∧ length (m_buf b') = length (m_buf b).
Proof.
  intros H Hx. pose proof (lookup_lt_Some _ _ _ Hx). unfold mb_read. rewrite (holds_done _ _ _ H).
  rewrite (proj2 (Nat.leb_gt _ _)) by done. destruct H as (H1 & H2 & H3 & H4). rewrite H2.
  assert (m_buf b !! r = Some x) as -> by (rewrite <- H3 in Hx; by apply lookup_take_Some in Hx as [? _]).
  cbn [mbind option_bind]. eexists. split; [done|]. split; [|done]. by split_and!.
Qed.

Lemma no_range i j : ((i <=? j) && (j <? i + 0))%nat = false.
Proof. apply andb_false_iff. rewrite Nat.leb_gt, Nat.ltb_ge. lia. Qed.

(** The bytes put out are the next ones of the packet, and just they are marked. *)
Lemma put_bytes_spec p k : ∀ index b r data keep,
  holds b p r → (index + k ≤ length data)%nat → (index + k ≤ 8 * length keep)%nat →
  let n := (k `min` (length p - r))%nat in
  ∃ b' data' keep', put_bytes k index b data keep = Some (b', data', keep') ∧
    holds b' p (r + n) ∧ length (m_buf b') = length (m_buf b) ∧
    length data' = length data ∧ length keep' = length keep ∧
    (∀ j, j < n → data' !! (index + j) = p !! (r + j))%nat ∧ (∀ j, j < index → data' !! j = data !! j)%nat ∧
    (∀ j, bit keep' j = bit keep j || ((index <=? j) && (j <? index + n))%nat).
Proof.
  induction k as [|k IH]; intros index b r data keep Hb Hd Hk n.
  { exists b, data, keep. subst n. cbn [Nat.min]. rewrite (Nat.add_0_r r). split_and!; try done; [lia|].
    intros j. by rewrite no_range, orb_false_r. }
  cbn [put_bytes]. rewrite (holds_done _ _ _ Hb). destruct (Nat.leb_spec (length p) r) as [Hr|Hr].
  { assert (n = 0%nat) as -> by (subst n; lia). exists b, data, keep. rewrite (Nat.add_0_r r). split_and!; try done; [lia|].
    intros j. by rewrite no_range, orb_false_r. }
  destruct (lookup_lt_is_Some_2 p r Hr) as [x Hx]. destruct (holds_read b p r x Hb Hx) as (b1 & -> & Hb1 & Hl1).
  cbn [mbind option_bind]. rewrite (proj2 (Nat.ltb_lt _ _)) by lia.
  destruct (setIndex_spec keep index) as (keep1 & -> & Hk1 & Hbits1).
  { apply Nat.Div0.div_lt_upper_bound. lia. }
  cbn [mbind option_bind].
  destruct (IH (S index) b1 (S r) (<[index:=x]> data) keep1) as (b' & data' & keep' & E & Hb' & Hl' & Hd' & Hk' & Hin & Hout & Hbits);
    [done|rewrite length_insert; lia|lia|].
  exists b', data', keep'. assert (n = S (k `min` (length p - S r))) as -> by (subst n; lia).
  set (n' := (k `min` (length p - S r))%nat) in *. rewrite length_insert in *.
  split_and!; [done|by rewrite Nat.add_succ_r|congruence|done|congruence| | |].
  - intros [|j] Hj.
    + rewrite !Nat.add_0_r, Hout by lia. rewrite list_lookup_insert_eq by lia. done.
    + specialize (Hin j). rewrite !Nat.add_succ_r. apply Hin. lia.
  - intros j Hj. rewrite Hout by lia. by rewrite list_lookup_insert_ne by lia.
  - intros j. rewrite Hbits, Hbits1, <- orb_assoc. f_equal.
    apply eq_bool_prop_intro. rewrite !Is_true_true, orb_true_iff, !andb_true_iff, !Nat.leb_le, !Nat.ltb_lt, Nat.eqb_eq. lia.
Qed.

(** The bytes taken are the marked ones, if these are the first [n]. *)
Lemma take_bytes_spec W w n k : ∀ index b,
  (index + k = W)%nat → length (tdata w) = W → (W ≤ 8 * length (tkeep w))%nat → (n ≤ W)%nat →
  (∀ j, j < W → bit (tkeep w) j = (j <? n))%nat → (s_len b + (n - index) ≤ length (s_buf b))%nat →
  ∃ b', take_bytes W k index w b = Some b' ∧ s_len b' = (s_len b + (n - index))%nat ∧ s_done b' = s_done b ∧
    length (s_buf b') = length (s_buf b) ∧
    take (s_len b') (s_buf b') = take (s_len b) (s_buf b) ++ take (n - index) (drop index (tdata w)).
Proof.
  induction k as [|k IH]; intros index b Hi Hd Hk Hn Hbits Hcap; cbn [take_bytes].
  { exists b. replace (n - index)%nat with 0%nat by lia. rewrite Nat.add_0_r, take_0, app_nil_r. done. }
  unfold isSet. rewrite (proj2 (Nat.leb_gt _ _)) by lia.
  assert (index / 8 < length (tkeep w))%nat as Hlt by (apply Nat.Div0.div_lt_upper_bound; lia).
  destruct (lookup_lt_is_Some_2 _ _ Hlt) as [x Hx]. rewrite Hx. cbn [mbind option_bind].
  rewrite land_bit_testbit, negb_involutive by lia.
  assert (Z.testbit x (Z.of_nat (index mod 8)) = (index <? n)%nat) as ->.
  { rewrite <- (Hbits index) by lia. unfold bit. by rewrite Hx. }
  destruct (Nat.ltb_spec index n) as [Hin|Hin].
  - destruct (lookup_lt_is_Some_2 (tdata w) index) as [y Hy]; [lia|]. rewrite Hy. cbn [mbind option_bind].
    unfold sb_setNextByte, sb_full. rewrite (proj2 (Nat.eqb_neq _ _)) by lia. cbn [mbind option_bind].
    edestruct (IH (S index) (MkSBuf (<[s_len b:=y]> (s_buf b)) (S (s_len b)) (s_done b))) as (b' & E & H1 & H2 & H3 & H4);
      [lia|done|done|done|done|cbn; rewrite length_insert; lia|]. cbn [s_len s_buf s_done] in *.
    exists b'. rewrite length_insert in *. split_and!; [done|lia|done|done|]. rewrite H4.
    rewrite (take_S_r _ _ y) by (rewrite list_lookup_insert_eq; [done|lia]).
    rewrite take_insert_ge by lia. rewrite <- app_assoc. f_equal. cbn [app].
    replace (n - index)%nat with (S (n - S index)) by lia.
    rewrite (drop_S _ y index) by done. done.
  - destruct (IH (S index) b) as (b' & E & H1 & H2 & H3 & H4); [lia|done|done|done|done|lia|].
    exists b'. replace (n - index)%nat with 0%nat by lia. replace (n - S index)%nat with 0%nat in * by lia. done.
Qed.

(** ** The invariant *)

Section correct.
Context (K slots size psize : nat).
Hypotheses (HK : (0 < K)%nat) (Hslots : (0 < slots)%nat).
Abbreviation W := (8 * K)%nat.

(** [qs]: the packets in the ring; [r]: the bytes read of the first. *)
Record linv (l : link) (qs : list bytes) (r : nat) : Prop := {
  li_ring : length (buffer_ring (mgr l)) = slots;
  li_bufs : Forall (λ b, length (m_buf b) = size) (buffer_ring (mgr l));
  li_read : (read_index (mgr l) < slots)%nat;
  li_size : cur_size (mgr l) = length qs ∧ (length qs ≤ slots)%nat;
  li_write : write_index (mgr l) = ((read_index (mgr l) + length qs) mod slots)%nat;
  li_qs : ∀ i p, qs !! i = Some p →
    p ≠ [] ∧ (length p ≤ psize)%nat ∧
    ∃ b, buffer_ring (mgr l) !! ((read_index (mgr l) + i) mod slots)%nat = Some b ∧
         holds b p (if decide (i = 0%nat) then r else 0%nat);
  li_wires : length (tdata (out (mgr l))) = W ∧ length (tkeep (out (mgr l))) = K ∧
             (tready l = false → tvalid (out (mgr l)) = false);
  li_sbuf : length (s_buf (sub l)) = psize;
  li_sub : match qs with
           | [] => s_done (sub l) = false ∧ s_len (sub l) = 0%nat ∧ sent l = taken l
           | p :: qs' =>
               if s_done (sub l) then r = length p ∧ take (s_len (sub l)) (s_buf (sub l)) = p ∧ sent l = taken l ++ qs
               else ((r < length p)%nat ∧ s_len (sub l) = r ∧ take r (s_buf (sub l)) = take r p ∧ sent l = taken l ++ qs) ∨
                    (r = length p ∧ s_len (sub l) = 0%nat ∧ sent l = taken l ++ qs')
           end;
}.

(** What the environment promises: packets that fit, no transfer on top of a packet that was not
    taken. *)
Definition good (l : link) (e : event) : Prop :=
  match e with
  | Send p => p ≠ [] ∧ (length p ≤ size)%nat ∧ (length p ≤ psize)%nat ∧ full (mgr l) = false
  | Cycle => s_done (sub l) = false
  | Take => s_done (sub l) = true
  end.

Lemma mod_inj a i j : (i < slots)%nat → (j < slots)%nat → ((a + i) mod slots = (a + j) mod slots)%nat → i = j.
Proof.
  intros Hi Hj H. pose proof (Nat.div_mod_eq (a + i) slots). pose proof (Nat.div_mod_eq (a + j) slots).
  rewrite H in *. assert ((a + i) / slots = (a + j) / slots)%nat; nia.
Qed.

Lemma axis_send_inv l qs r p :
  linv l qs r → good l (Send p) →
  ∃ l', link_step W l (Send p) = Some l' ∧ linv l' (qs ++ [p]) (if decide (qs = []) then 0%nat else r) ∧
    sent l' = sent l ++ [p] ∧ taken l' = taken l.
Proof.
  intros H (Hp & Hsz & Hps & Hfull). destruct (li_size _ _ _ H) as [Hcs Hle].
  unfold full in Hfull. rewrite (li_ring _ _ _ H), Hcs in Hfull. apply Nat.leb_gt in Hfull.
  cbn [link_step]. unfold read. rewrite (proj2 (Nat.eqb_neq _ _)) by (by destruct p).
  unfold full. rewrite (li_ring _ _ _ H), Hcs, (proj2 (Nat.leb_gt _ _)) by done.
  assert (write_index (mgr l) < slots)%nat as Hw by (rewrite (li_write _ _ _ H); apply Nat.mod_upper_bound; lia).
  destruct (lookup_lt_is_Some_2 (buffer_ring (mgr l)) (write_index (mgr l))) as [b Hb]; [by rewrite (li_ring _ _ _ H)|].
  rewrite Hb. cbn [mbind option_bind]. pose proof (proj1 (Forall_lookup _ _) (li_bufs _ _ _ H) _ _ Hb) as Hbl. cbn in Hbl.
  unfold mb_reset. rewrite Hbl, (proj2 (Nat.leb_le _ _)) by done. cbn [mbind option_bind].
  eexists. split; [done|]. split; [|done].
  assert (length (p ++ drop (length p) (m_buf b)) = size) as Hnl by (rewrite length_app, length_drop; lia).
  constructor; cbn [mgr buffer_ring write_index read_index cur_size out sub tready sent taken].
  - by rewrite length_insert, (li_ring _ _ _ H).
  - apply Forall_insert; [apply H|done].
  - apply H.
  - rewrite length_app. cbn. split; lia.
  - rewrite length_app, (li_write _ _ _ H). cbn [length]. rewrite Nat.Div0.add_mod_idemp_l. f_equal. lia.
  - intros i q Hi. destruct (decide (i = length qs)) as [->|Hne].
    + rewrite list_lookup_middle in Hi by done. injection Hi as <-. split_and!; [done|done|].
      eexists. split.
      { rewrite (li_write _ _ _ H). apply list_lookup_insert_eq. rewrite (li_ring _ _ _ H). apply Nat.mod_upper_bound. lia. }
      unfold holds. cbn [m_len read_offset m_buf]. rewrite Hnl, take_app_length. split_and!; [done| |done|done].
      destruct qs; cbn; [done|]. by rewrite decide_False by done.
    + assert (i < length qs)%nat as Hi' by (apply lookup_lt_Some in Hi; rewrite length_app in Hi; cbn in Hi; lia).
      rewrite lookup_app_l in Hi by done. destruct (li_qs _ _ _ H i q Hi) as (H1 & H2 & b' & Hb' & Hh).
      split_and!; [done|done|]. exists b'. split.
      { rewrite list_lookup_insert_ne; [done|]. rewrite (li_write _ _ _ H). intros E. apply mod_inj in E; lia. }
      destruct qs; [cbn in Hi'; lia|]. by rewrite (decide_False (P := _ = [])) by done.
  - apply H.
  - apply H.
  - pose proof (li_sub _ _ _ H) as Hs. destruct qs as [|q qs]; cbn [app].
    + destruct Hs as (-> & -> & ->). rewrite decide_True by done. left. cbn. split_and!; [|done..].
      destruct p; [done|]. cbn. lia.
    + rewrite decide_False by done. destruct (s_done (sub l)).
      * destruct Hs as (? & ? & ->). split_and!; [done..|]. by rewrite <- app_assoc.
      * destruct Hs as [(? & ? & ? & ->)|(? & ? & ->)]; [left|right]; (split_and!; [done..|]); by rewrite <- app_assoc.
Qed.

Lemma take_inv l qs r :
  linv l qs r → good l Take →
  ∃ l', link_step W l Take = Some l' ∧ linv l' qs r ∧ sent l' = sent l ∧ ∃ p, taken l' = taken l ++ [p].
Proof.
  intros H Hg. cbn [link_step good] in *. unfold subordinate_write. rewrite Hg. cbn [negb mbind option_bind].
  eexists. split; [done|]. split; [|split; [done|by eexists]].
  destruct H as [H1 H2 H3 H4 H5 H6 H7 H8 H9]. constructor; cbn [mgr sub tready sent taken]; try done.
  destruct qs as [|p qs]; [by rewrite Hg in H9; destruct H9|]. rewrite Hg in H9.
  destruct H9 as (-> & -> & ->). cbn. right. split_and!; [done|done|]. by rewrite <- app_assoc.
Qed.

(** A cycle in which no transfer happens leaves the subordinate alone. *)
Lemma subordinate_quiet b w : tvalid w = false → subordinate_step W b w = Some b.
Proof. intros H. unfold subordinate_step. by rewrite H. Qed.

(** The packet at the head moves on: its last byte was read. *)
Lemma cycle_move l p qs :
  linv l (p :: qs) (length p) → s_done (sub l) = false →
  ∃ l', link_step W l Cycle = Some l' ∧ linv l' qs 0 ∧ sent l' = sent l ∧ taken l' = taken l.
Proof.
  intros H Hg. destruct (li_size _ _ _ H) as [Hcs Hle]. cbn [length] in *.
  destruct (li_qs _ _ _ H 0 p eq_refl) as (Hp & Hps & b & Hb & Hh). rewrite decide_True in Hh by done.
  rewrite Nat.add_0_r, Nat.mod_small in Hb by apply H.
  cbn [link_step]. unfold manager_step, empty. rewrite Hcs. cbn [Nat.eqb]. rewrite Hb. cbn [mbind option_bind].
  unfold mb_empty. rewrite (holds_done _ _ _ Hh), (proj1 Hh), (proj2 (Nat.leb_le _ _)) by done.
  rewrite (proj2 (Nat.eqb_neq _ _)) by (by destruct p). cbn [negb andb].
  unfold move_read_head. rewrite Hb. cbn [mbind option_bind].
  rewrite (holds_done _ _ _ Hh), (proj2 (Nat.leb_le _ _)) by done. cbn [negb mbind option_bind out].
  rewrite subordinate_quiet by done. cbn [mbind option_bind]. eexists. split; [done|]. split; [|done].
  pose proof (li_sub _ _ _ H) as Hs. cbn in Hs. rewrite Hg in Hs.
  destruct Hs as [(? & _)|(_ & Hs1 & Hs2)]; [lia|].
  constructor; cbn [mgr buffer_ring write_index read_index cur_size out sub tready sent taken tdata tkeep tvalid]; try apply H.
  - rewrite (li_ring _ _ _ H). apply Nat.mod_upper_bound. lia.
  - split; lia.
  - rewrite (li_write _ _ _ H), (li_ring _ _ _ H), Nat.Div0.add_mod_idemp_l. cbn [length]. f_equal. lia.
  - intros i q Hi. destruct (li_qs _ _ _ H (S i) q Hi) as (? & ? & b' & Hb' & Hh'). split_and!; [done|done|].
    exists b'. rewrite decide_False in Hh' by done. rewrite (li_ring _ _ _ H), Nat.Div0.add_mod_idemp_l.
    replace (read_index (mgr l) + 1 + i)%nat with (read_index (mgr l) + S i)%nat by lia. split; [done|].
    by destruct (decide _).
  - split_and!; [apply H..|done].
  - destruct qs as [|q qs]; [by rewrite app_nil_r in Hs2|]. rewrite Hg. left.
    destruct (li_qs _ _ _ H 1 q eq_refl) as (Hq & _). split_and!; [|done..]. destruct q; [done|]. cbn. lia.
Qed.

(** A transfer: some bytes of the packet at the head reach the subordinate. *)
Lemma cycle_transfer l p qs r :
  linv l (p :: qs) r → (r < length p)%nat → s_done (sub l) = false → tready l = true →
  let n := (W `min` (length p - r))%nat in
  ∃ l', link_step W l Cycle = Some l' ∧ linv l' (p :: qs) (r + n) ∧ sent l' = sent l ∧ taken l' = taken l ∧
    s_done (sub l') = (length p <=? r + n)%nat.
Proof.
  intros H Hr Hg Ht n. destruct (li_size _ _ _ H) as [Hcs Hle]. cbn [length] in *.
  destruct (li_qs _ _ _ H 0 p eq_refl) as (Hp & Hps & b & Hb & Hh). rewrite decide_True in Hh by done.
  rewrite Nat.add_0_r, Nat.mod_small in Hb by apply H. destruct (li_wires _ _ _ H) as (Hw1 & Hw2 & _).
  pose proof (li_sub _ _ _ H) as Hs. cbn in Hs. rewrite Hg in Hs.
  destruct Hs as [(_ & Hs1 & Hs2 & Hs3)|(? & _)]; [|lia].
  cbn [link_step]. unfold manager_step, empty. rewrite Hcs. cbn [Nat.eqb]. rewrite Hb. cbn [mbind option_bind].
  unfold mb_empty. rewrite (holds_done _ _ _ Hh), (proj1 Hh), (proj2 (Nat.leb_gt _ _)) by done.
  rewrite (proj2 (Nat.eqb_neq _ _)) by lia. rewrite Ht. cbn [negb andb].
  unfold reset_bitmap. rewrite (Nat.mul_comm 8 K), Nat.div_mul by lia. rewrite (proj2 (Nat.leb_le _ _)) by lia.
  rewrite (drop_ge (tkeep _)), app_nil_r by lia. cbn [mbind option_bind].
  destruct (put_bytes_spec p (K * 8) 0 b r (tdata (out (mgr l))) (replicate K 0) Hh)
    as (b' & data' & keep' & -> & Hh' & Hbl & Hdl & Hkl & Hin & _ & Hbits);
    [lia|rewrite length_replicate; lia|].
  rewrite (Nat.mul_comm K 8) in *. fold n in Hh', Hin, Hbits. cbn [mbind option_bind out].
  rewrite length_replicate in Hkl.
  assert (∀ j, (j < n)%nat → data' !! j = p !! (r + j)%nat) as Hdata by (intros j Hj; by apply (Hin j)).
  set (w := MkWires true data' keep' (mb_done b')).
  destruct (take_bytes_spec W w n W 0 (sub l)) as (s' & Et & Hl' & Hdone & Hsb & Htake).
  { done. } { cbn. lia. } { cbn. lia. } { subst n. lia. }
  { intros j Hj. cbn [tkeep w]. rewrite Hbits, bit_zeros. cbn [orb Nat.leb Nat.add]. done. }
  { rewrite Hs1, (li_sbuf _ _ _ H). subst n. lia. }
  rewrite Nat.sub_0_r, drop_0 in *. cbn [tdata w] in Htake.
  assert (take (s_len s') (s_buf s') = take (r + n) p) as Htake'.
  { rewrite Htake, Hs1, Hs2, <- take_take_drop. f_equal. apply list_eq. intros j. destruct (decide (j < n)%nat) as [Hj|Hj].
    - rewrite !lookup_take_lt by done. by rewrite lookup_drop, Hdata.
    - by rewrite !lookup_take_ge by lia. }
  unfold subordinate_step. cbn [tvalid w negb]. rewrite Hg. unfold sb_full. cbn [orb].
  rewrite (proj2 (Nat.eqb_neq _ _)) by (rewrite (li_sbuf _ _ _ H); lia). rewrite Et. cbn [mbind option_bind tlast w].
  eexists. split; [done|].
  assert (mb_done b' = (length p <=? r + n)%nat) as Hbd by (by apply holds_done).
  split; [|split_and!; [done|done|]].
  2: { cbn [sub]. rewrite Hbd. destruct (_ <=? _)%nat; [done|]. congruence. }
  constructor; cbn [mgr buffer_ring write_index read_index cur_size out sub tready sent taken tdata tkeep tvalid]; try apply H.
  - by rewrite length_insert, (li_ring _ _ _ H).
  - apply Forall_insert; [apply H|]. rewrite Hbl. exact (proj1 (Forall_lookup _ _) (li_bufs _ _ _ H) _ _ Hb).
  - done.
  - intros i q Hi. destruct (li_qs _ _ _ H i q Hi) as (? & ? & b1 & Hb1 & Hh1). split_and!; [done|done|].
    destruct (decide (i = 0%nat)) as [->|Hi0].
    + injection Hi as <-. exists b'. rewrite Nat.add_0_r, Nat.mod_small by apply H. split; [|done].
      apply list_lookup_insert_eq. rewrite (li_ring _ _ _ H). apply H.
    + exists b1. split; [|done]. rewrite list_lookup_insert_ne; [done|]. intros E.
      apply Hi0. apply (mod_inj (read_index (mgr l)) i 0);
        [apply lookup_lt_Some in Hi; cbn in Hi; lia|lia|]. rewrite Nat.add_0_r, (Nat.mod_small (read_index _)) by apply H. done.
  - split_and!; [cbn; lia|cbn; lia|done].
  - destruct (mb_done b'); cbn [s_buf]; by rewrite Hsb, (li_sbuf _ _ _ H).
  - rewrite Hbd. destruct (Nat.leb_spec (length p) (r + n)) as [Hlast|Hlast]; cbn [s_done s_len s_buf].
    + split_and!; [subst n; lia| |done]. rewrite Htake'. by apply take_ge.
    + rewrite Hdone, Hg. left. split_and!; [done|lia| |done]. rewrite Hl', Hs1 in Htake'. exact Htake'.
Qed.

(** Any cycle, whatever the manager has. *)
Lemma axis_cycle_inv l qs r :
  linv l qs r → s_done (sub l) = false →
  ∃ l' r' qs', link_step W l Cycle = Some l' ∧ linv l' qs' r' ∧ sent l' = sent l ∧ taken l' = taken l ∧ tready l' = true.
Proof.
  intros H Hg. assert (∀ l', link_step W l Cycle = Some l' → tready l' = true) as Hrdy.
  { intros l'. cbn [link_step]. destruct (manager_step _ _ _) as [m|]; [|done]. cbn [mbind option_bind].
    destruct (subordinate_step _ _ _); [|done]. by intros [= <-]. }
  destruct qs as [|p qs].
  { cbn [link_step]. destruct (li_size _ _ _ H) as [Hcs _]. cbn in Hcs. unfold manager_step, empty.
    rewrite Hcs. cbn [Nat.eqb mbind option_bind]. rewrite subordinate_quiet by done. cbn [mbind option_bind].
    eexists _, r, []. split; [done|]. split; [|done].
    destruct H as [H1 H2 H3 H4 H5 H6 H7 H8 H9]. constructor; try done; [split; [done|cbn; lia]|split_and!; [apply H7..|done]]. }
  destruct (decide (r = length p)) as [->|Hr].
  { destruct (cycle_move l p qs H Hg) as (l' & E & H' & ? & ?). exists l', 0%nat, qs. split_and!; auto. }
  assert (r < length p)%nat as Hlt.
  { pose proof (li_sub _ _ _ H) as Hs. cbn in Hs. rewrite Hg in Hs. destruct Hs as [(? & _)|(? & _)]; [done|congruence]. }
  destruct (tready l) eqn:Ht.
  { destruct (cycle_transfer l p qs r H Hlt Hg Ht) as (l' & E & H' & ? & ? & _). eexists l', _, _. split_and!; eauto. }
  destruct (li_size _ _ _ H) as [Hcs _]. destruct (li_qs _ _ _ H 0 p eq_refl) as (Hp & Hps & b & Hb & Hh).
  rewrite decide_True in Hh by done. rewrite Nat.add_0_r, Nat.mod_small in Hb by apply H.
  cbn [link_step]. unfold manager_step, empty. rewrite Hcs. cbn [Nat.eqb length]. rewrite Hb. cbn [mbind option_bind].
  unfold mb_empty. rewrite (holds_done _ _ _ Hh), (proj1 Hh), (proj2 (Nat.leb_gt _ _)) by done.
  rewrite (proj2 (Nat.eqb_neq _ _)) by lia. rewrite Ht. cbn [negb andb mbind option_bind].
  rewrite subordinate_quiet by (by apply H). cbn [mbind option_bind]. eexists _, r, (p :: qs). split; [done|]. split; [|done].
  destruct H as [H1 H2 H3 H4 H5 H6 H7 H8 H9]. constructor; try done. split_and!; [apply H7..|done].
Qed.

Definition sends (es : list event) : list bytes := omap (λ e, match e with Send p => Some p | _ => None end) es.

Fixpoint good_run (l : link) (es : list event) : Prop :=
  match es with
  | [] => True
  | e :: es => good l e ∧ ∀ l', link_step W l e = Some l' → good_run l' es
  end.

Lemma axis_run_inv es : ∀ l qs r,
  linv l qs r → good_run l es →
  ∃ l' qs' r', link_run W l es = Some l' ∧ linv l' qs' r' ∧ sent l' = sent l ++ sends es.
Proof.
  induction es as [|e es IH]; intros l qs r H Hg; [exists l, qs, r; by rewrite app_nil_r|].
  destruct Hg as [Hge Hgs]. cbn [link_run].
  assert (∃ l' qs' r', link_step W l e = Some l' ∧ linv l' qs' r' ∧ sent l' = sent l ++ sends [e]) as (l' & qs' & r' & E & H' & Hs).
  { destruct e as [p| |].
    - destruct (axis_send_inv l qs r p H Hge) as (l' & E & H' & Hs & _). by eexists l', _, _.
    - destruct (axis_cycle_inv l qs r H Hge) as (l' & r' & qs' & E & H' & Hs & _). exists l', qs', r'. by rewrite app_nil_r.
    - destruct (take_inv l qs r H Hge) as (l' & E & H' & Hs & _). exists l', qs, r. by rewrite app_nil_r. }
  rewrite E. cbn [mbind option_bind]. destruct (IH l' qs' r' H' (Hgs l' E)) as (l2 & qs2 & r2 & E2 & H2 & Hs2).
  exists l2, qs2, r2. split_and!; [done|done|]. rewrite Hs2, Hs, <- app_assoc. f_equal. by destruct e.
Qed.

(** What is still to be moved. *)
Definition work (qs : list bytes) (r : nat) : nat := (sum_list ((λ p, S (length p)) <$> qs) - r)%nat.

(** Cycles, and taking what is done, empty the link. *)
Lemma drain N : ∀ l qs r,
  linv l qs r → s_done (sub l) = false → tready l = true → (work qs r ≤ N)%nat →
  ∃ es l', link_run W l es = Some l' ∧ Forall (λ e, e = Cycle ∨ e = Take) es ∧ taken l' = sent l.
Proof.
  induction N as [|N IH]; intros l qs r H Hg Ht Hw.
  - pose proof (li_sub _ _ _ H) as Hs. destruct qs as [|p qs].
    { exists [], l. split_and!; [done|done|]. symmetry. apply Hs. }
    exfalso. unfold work in Hw. cbn in Hw. rewrite Hg in Hs. destruct Hs as [(? & _)|(? & _)]; lia.
  - pose proof (li_sub _ _ _ H) as Hs. destruct qs as [|p qs].
    { exists [], l. split_and!; [done|done|]. symmetry. apply Hs. }
    destruct (decide (r = length p)) as [->|Hr].
    + destruct (axis_cycle_inv l _ _ H Hg) as (l1 & _ & _ & E1 & _ & _ & _ & Ht1).
      destruct (cycle_move l p qs H Hg) as (l' & E & H' & Hsent & Htaken). rewrite E in E1. injection E1 as <-.
      assert (s_done (sub l') = false) as Hg'.
      { pose proof (li_sub _ _ _ H') as Hs'. destruct qs as [|q qs]; [apply Hs'|]. destruct (s_done (sub l')); [|done].
        destruct Hs' as (Hl0 & _). destruct (li_qs _ _ _ H' 0 _ eq_refl) as (? & _). by destruct q. }
      destruct (IH l' qs 0%nat H' Hg' Ht1) as (es & l2 & E2 & Hes & Htk).
      { unfold work in *. cbn in Hw. lia. }
      exists (Cycle :: es), l2. cbn [link_run]. rewrite E. cbn [mbind option_bind]. split_and!; [done|by constructor; auto|congruence].
    + assert (r < length p)%nat as Hlt by (cbn in Hs; rewrite Hg in Hs; destruct Hs as [(? & _)|(? & _)]; [done|congruence]).
      destruct (axis_cycle_inv l _ _ H Hg) as (l1 & _ & _ & E1 & _ & _ & _ & Ht1).
      destruct (cycle_transfer l p qs r H Hlt Hg Ht) as (l' & E & H' & Hsent & Htaken & Hd). rewrite E in E1. injection E1 as <-.
      set (n := (W `min` (length p - r))%nat) in *. assert (0 < n)%nat by (subst n; lia).
      assert (work (p :: qs) (r + n) ≤ N)%nat as Hw' by (unfold work in *; cbn in Hw |- *; lia).
      destruct (s_done (sub l')) eqn:Hd'.
      * destruct (take_inv l' _ _ H' Hd') as (l2 & E2 & H2 & Hs2 & p' & Htk2).
        assert (s_done (sub l2) = false ∧ tready l2 = true) as [Hg2 Ht2].
        { cbn [link_step] in E2. unfold subordinate_write in E2. rewrite Hd' in E2. cbn in E2. by injection E2 as <-. }
        destruct (IH l2 _ _ H2 Hg2 Ht2 Hw') as (es & l3 & E3 & Hes & Htk).
        exists (Cycle :: Take :: es), l3. cbn [link_run]. rewrite E. cbn [mbind option_bind]. rewrite E2. cbn [mbind option_bind].
        split_and!; [done|by repeat constructor; auto|congruence].
      * destruct (IH l' _ _ H' Hd' Ht1 Hw') as (es & l3 & E3 & Hes & Htk).
        exists (Cycle :: es), l3. cbn [link_run]. rewrite E. cbn [mbind option_bind]. split_and!; [done|by constructor; auto|congruence].
Qed.

(** Decides [good_run] on a concrete run. *)
Definition goodb (l : link) (e : event) : bool :=
  match e with
  | Send p => negb (length p =? 0)%nat && (length p <=? size)%nat && (length p <=? psize)%nat && negb (full (mgr l))
  | Cycle => negb (s_done (sub l))
  | Take => s_done (sub l)
  end.

Fixpoint good_runb (l : link) (es : list event) : bool :=
  match es with
  | [] => true
  | e :: es => goodb l e && match link_step W l e with Some l' => good_runb l' es | None => true end
  end.

Lemma axis_good_runb_sound es : ∀ l, good_runb l es = true → good_run l es.
Proof.
  induction es as [|e es IH]; intros l; [done|]. cbn [good_runb good_run]. rewrite andb_true_iff. intros [He Hes].
  split; [|intros l' E; rewrite E in Hes; by apply IH]. destruct e as [p| |]; cbn in *.
  - rewrite !andb_true_iff, !negb_true_iff, !Nat.leb_le, Nat.eqb_neq in He. destruct p; naive_solver.
  - by apply negb_true_iff.
  - done.
Qed.

Lemma new_inv : linv (new_link W slots size psize) [] 0.
Proof.
  constructor; cbn [mgr new_link buffer_ring write_index read_index cur_size out sub tready sent taken tdata tkeep tvalid s_buf].
  - apply length_replicate.
  - apply Forall_replicate. apply length_replicate.
  - done.
  - split; [done|cbn; lia].
  - cbn. by rewrite Nat.Div0.mod_0_l.
  - done.
  - rewrite !length_replicate. split_and!; [done| |done]. symmetry. apply (Nat.div_unique _ _ _ 7); lia.
  - apply length_replicate.
  - done.
Qed.

(** C32: AXI streams deliver packets.  A manager and a subordinate with a data width of 8 bytes or
    more (a multiple of 8), wired together, run for any interleaving of packets to send, clock
    cycles and packets taken, where packets fit the buffers and a complete packet is taken before
    the next cycle.  Then nothing terminates, the packets taken are the first of those sent,
    unchanged and in order, and some further cycles deliver all the others. *)
Theorem axis_delivers es :
  good_run (new_link W slots size psize) es →
  ∃ l, link_run W (new_link W slots size psize) es = Some l ∧ sent l = sends es ∧ taken l `prefix_of` sends es ∧
    ∃ es' l', link_run W l es' = Some l' ∧ Forall (λ e, e = Cycle ∨ e = Take) es' ∧ taken l' = sends es.
Proof using HK Hslots.
  intros Hg. destruct (axis_run_inv es _ _ _ new_inv Hg) as (l & qs & r & E & H & Hs). cbn in Hs.
  exists l. split_and!; [done|done| |].
  - rewrite <- Hs. pose proof (li_sub _ _ _ H) as Hsub. destruct qs as [|p qs].
    + destruct Hsub as (_ & _ & ->). done.
    + destruct (s_done (sub l)); [destruct Hsub as (_ & _ & ->); by eexists|].
      destruct Hsub as [(_ & _ & _ & ->)|(_ & _ & ->)]; by eexists.
  - rewrite <- Hs.
    assert (∃ es1 l1 qs1 r1, link_run W l es1 = Some l1 ∧ Forall (λ e, e = Cycle ∨ e = Take) es1 ∧ linv l1 qs1 r1 ∧
      s_done (sub l1) = false ∧ sent l1 = sent l) as (es1 & l1 & qs1 & r1 & E1 & Hes1 & H1 & Hd1 & Hs1).
    { destruct (s_done (sub l)) eqn:Hd.
      - destruct (take_inv l qs r H Hd) as (l' & E' & H' & Hs' & _). exists [Take], l', qs, r. cbn [link_run].
        rewrite E'. split_and!; [done|by constructor; [right|]|done| |done].
        cbn [link_step] in E'. unfold subordinate_write in E'. rewrite Hd in E'. cbn in E'. by injection E' as <-.
      - exists [], l, qs, r. done. }
    destruct (axis_cycle_inv l1 qs1 r1 H1 Hd1) as (l2 & r2 & qs2 & E2 & H2 & Hs2 & _ & Ht2).
    assert (∃ es3 l3 qs3 r3, link_run W l2 es3 = Some l3 ∧ Forall (λ e, e = Cycle ∨ e = Take) es3 ∧ linv l3 qs3 r3 ∧
      s_done (sub l3) = false ∧ tready l3 = true ∧ sent l3 = sent l) as (es3 & l3 & qs3 & r3 & E3 & Hes3 & H3 & Hd3 & Ht3 & Hs3).
    { destruct (s_done (sub l2)) eqn:Hd.
      - destruct (take_inv l2 _ _ H2 Hd) as (l' & E' & H' & Hs' & _). exists [Take], l', qs2, r2. cbn [link_run].
        rewrite E'. cbn [link_step] in E'. unfold subordinate_write in E'. rewrite Hd in E'. cbn in E'. injection E' as <-.
        split_and!; [done|by constructor; [right|]|done|done|done|cbn in *; congruence].
      - exists [], l2, qs2, r2. split_and!; [done|done|done|done|done|congruence]. }
    destruct (drain _ l3 qs3 r3 H3 Hd3 Ht3 (le_n _)) as (es4 & l4 & E4 & Hes4 & Htk).
    exists (es1 ++ Cycle :: es3 ++ es4), l4. rewrite link_run_app, E1. cbn [mbind option_bind link_run]. rewrite E2.
    cbn [mbind option_bind]. rewrite link_run_app, E3. cbn [mbind option_bind]. rewrite E4.
    split_and!; [done| |congruence]. apply Forall_app. split; [done|]. constructor; [auto|]. by apply Forall_app.
Qed.

End correct.

(** Packets of 5 and 9 bytes at a width of 8. *)
Definition demo_events : list event :=
  [Send [1; 2; 3; 4; 5]; Cycle; Cycle; Take; Send [1; 2; 3; 4; 5; 6; 7; 8; 9]; Cycle].

Lemma axis_delivers_witness :
  ∃ l, link_run 8 (new_link 8 2 2048 2048) demo_events = Some l ∧
    ∃ es' l', link_run 8 l es' = Some l' ∧ taken l' = [[1; 2; 3; 4; 5]; [1; 2; 3; 4; 5; 6; 7; 8; 9]].
Proof.
  destruct (axis_delivers 1 2 2048 2048 ltac:(lia) ltac:(lia) demo_events) as (l & E & _ & _ & es' & l' & E' & _ & Ht).
  { apply axis_good_runb_sound. by vm_compute. }
  exists l. split; [exact E|]. exists es', l'. split; [exact E'|exact Ht].
Defined.

(** At a width of 4 bytes, the default, the valid-byte mask is never cleared: a packet of five
    bytes arrives with eight, the last three left over from the transfer before. *)
Theorem narrow_stream_pads_packets :
  (taken <$> link_run 4 (new_link 4 2 2048 2048) [Cycle; Send [1; 2; 3; 4; 5]; Cycle; Cycle; Take]) =
  Some [[1; 2; 3; 4; 5; 2; 3; 4]].
Proof. by vm_compute. Qed.

(** The last transfer of a packet is withdrawn in the next cycle even if the receiver was not
    ready to take it. *)
Theorem last_transfer_withdrawn :
  let m := read (mgr (new_link 8 2 2048 2048)) [1; 2; 3] in
  let m1 := m ≫= λ m, manager_step 8 m true in
  let m2 := m1 ≫= λ m, manager_step 8 m false in
  (tvalid ∘ out <$> m1, tvalid ∘ out <$> m2, cur_size <$> m2) = (Some true, Some false, Some 0%nat).
Proof. by vm_compute. Qed.

End axis.
