(* ===== verification/AxiSub.v ===== *)
(** * AXI subordinate (lib/simbricks/axi/axi_subordinate.hh)

    The memory side of an AXI interface: a hardware model sends read and write bursts, which
    become requests to the host, and gets data and responses back, some bytes per clock cycle.
    [step] computes new outputs from the inputs, [step_apply] drives them; between cycles the
    host completes requests in any order.

    This file has the operations of both parts and the read part.  The theorem: every read burst
    is answered, in the order of the requests, by the transfers that AXI prescribes for it,
    whatever the order of completions.  A read burst with an unaligned address gets one transfer
    too many. *)

From S2P Require Import Prelude.

Module axi_sub.

(** [AXIOperation] *)
Record AXIOperation := MkOp {
  addr : Z;             (* uint64_t *)
  len : nat;
  id : Z;               (* uint64_t *)
  buf : bytes;
  step_size : nat;
  completed : bool;
}.

(** A new operation: [make_unique] clears the buffer. *)
Definition new_op (addr : Z) (len : nat) (axi_id : Z) (step_size : nat) : AXIOperation :=
  MkOp addr len axi_id (replicate len 0) step_size false.

(** [pow2]: the shift is one of [int]; [None] where it overflows. *)
Definition pow2 (exponent : Z) : option nat :=
  if exponent <? 31 then Some (Z.to_nat (Z.shiftl 1 exponent)) else None.

(** ** Reading *)

(** The signals the subordinate drives. *)
Record r_out := MkROut { ar_ready : bool; r_valid : bool; r_last : bool; r_data : bytes; r_id : Z }.

(** The signals it samples. *)
Record r_in := MkRIn {
  ar_valid : bool; ar_addr : Z; ar_id : Z; ar_len : Z; ar_size : Z; ar_burst : Z; r_ready : bool }.

(** [wires]: the outputs as driven; [tmp]: the ones to be driven next.  A pointer to an operation
    in [pending] is its number, counted from the first one ever. *)
Record AXISubordinateRead := MkRead {
  wires : r_out;
  tmp : r_out;
  pending : list AXIOperation;
  popped : nat;
  id_op_map : gmap Z nat;
  cur_op : option nat;
  cur_off : nat;
  rolling_id : Z;       (* uint32_t *)
}.

Section read.
(** [BytesData] and [MaxInFlight]; [BytesId] is at most 4. *)
Context (BytesData MaxInFlight : nat).

Definition deref (s : AXISubordinateRead) (p : nat) : option AXIOperation :=
  if (p <? popped s)%nat then None else pending s !! (p - popped s)%nat.

(** [send_next_data_segment] *)
Definition send_next_data_segment (s : AXISubordinateRead) : option AXISubordinateRead :=
  p ← cur_op s;
  op ← deref s p;
  let align := Z.to_nat (u64 (addr op + Z.of_nat (cur_off s)) mod Z.of_nat BytesData) in
  let num_bytes := ((BytesData - align) `min` step_size op `min` (len op - cur_off s))%nat in
  let seg := take num_bytes (drop (cur_off s) (buf op)) in
  let off := (cur_off s + num_bytes)%nat in
  let t := tmp s in
  Some (MkRead (wires s)
          (MkROut (ar_ready t) (r_valid t) (off =? len op)%nat (patch (replicate BytesData 0) align seg) (r_id t))
          (pending s) (popped s) (id_op_map s) (cur_op s) off (rolling_id s)).

(** The end of a burst. *)
Definition finish_burst (s : AXISubordinateRead) : option AXISubordinateRead :=
  p ← cur_op s;
  op ← deref s p;
  match pending s with
  | [] => None
  | _ :: pending' =>
      Some (MkRead (wires s) (MkROut (ar_ready (tmp s)) false false (replicate BytesData 0) 0)
              pending' (S (popped s)) (delete (id op) (id_op_map s)) None 0 (rolling_id s))
  end.

(** A new request; the operation is what [do_read] is called with. *)
Definition new_read (s : AXISubordinateRead) (i : r_in) : option (AXISubordinateRead * AXIOperation) :=
  step ← pow2 (ar_size i);
  if negb (ar_burst i =? 1) then None
  else
    let simbricks_id := Z.lor (Z.shiftl (ar_id i) 32) (rolling_id s) in
    let op := new_op (ar_addr i) (step * (Z.to_nat (ar_len i) + 1)) simbricks_id step in
    match id_op_map s !! simbricks_id with
    | Some _ => None
    | None =>
        Some (MkRead (wires s) (tmp s) (pending s ++ [op]) (popped s)
                (<[simbricks_id := (popped s + length (pending s))%nat]> (id_op_map s))
                (cur_op s) (cur_off s) (u32 (rolling_id s + 1)), op)
    end.

(** Start to answer the first request if its data is there. *)
Definition start_stream (s : AXISubordinateRead) : option AXISubordinateRead :=
  match cur_op s, pending s with
  | None, op :: _ =>
      if completed op then
        let t := tmp s in
        send_next_data_segment
          (MkRead (wires s) (MkROut (ar_ready t) true (r_last t) (r_data t) (u32 (Z.shiftr (id op) 32)))
             (pending s) (popped s) (id_op_map s) (Some (popped s)) (cur_off s) (rolling_id s))
      else Some s
  | _, _ => Some s
  end.

(** [AXISubordinateRead::step]; also the operations passed to [do_read]. *)
Definition read_step (s : AXISubordinateRead) (i : r_in) : option (AXISubordinateRead * list AXIOperation) :=
  let w := wires s in
  s ← (if r_last w && r_valid w && r_ready i then finish_burst s
       else if r_ready i && r_valid w then send_next_data_segment s
       else Some s);
  '(s, reqs) ← (if ar_ready w && ar_valid i then '(s, op) ← new_read s i; Some (s, [op]) else Some (s, []));
  let t := tmp s in
  let t := MkROut (bool_decide (length (pending s) < MaxInFlight)%nat) (r_valid t) (r_last t) (r_data t) (r_id t) in
  s ← start_stream (MkRead (wires s) t (pending s) (popped s) (id_op_map s) (cur_op s) (cur_off s) (rolling_id s));
  Some (s, reqs).

(** [step_apply] *)
Definition read_apply (s : AXISubordinateRead) : AXISubordinateRead :=
  MkRead (tmp s) (tmp s) (pending s) (popped s) (id_op_map s) (cur_op s) (cur_off s) (rolling_id s).

(** [read_done]; [None] if the identifier is not known, or [data] is too short. *)
Definition read_done (s : AXISubordinateRead) (simbricks_id : Z) (data : bytes) : option AXISubordinateRead :=
  p ← id_op_map s !! simbricks_id;
  op ← deref s p;
  if (length data <? len op)%nat then None
  else
    let op := MkOp (addr op) (len op) (id op) (take (len op) data) (step_size op) true in
    Some (MkRead (wires s) (tmp s) (<[(p - popped s)%nat := op]> (pending s)) (popped s) (id_op_map s)
            (cur_op s) (cur_off s) (rolling_id s)).

(** ** Reading: the system *)

(** The transfers AXI prescribes for a burst: as many as requested, each with the next bytes on
    the lanes of their address, the last one marked, with the identifier of the request. *)
Definition beat (op : AXIOperation) (k : nat) : bytes * bool * Z :=
  (patch (replicate BytesData 0) (Z.to_nat ((addr op + Z.of_nat (k * step_size op)) mod Z.of_nat BytesData))
     (slice (buf op) (k * step_size op) (step_size op)),
   (S k * step_size op =? len op)%nat, Z.shiftr (id op) 32).

Definition beats_of (op : AXIOperation) : list (bytes * bool * Z) :=
  beat op <$> seq 0 (len op / step_size op)%nat.

(** [hist]: all operations accepted so far; [beats]: the transfers made so far; [reqs]: what
    [do_read] was called with. *)
Record read_sys := MkRSys {
  dev : AXISubordinateRead; hist : list AXIOperation; beats : list (bytes * bool * Z); reqs : list AXIOperation }.

Inductive read_event := Cycle (i : r_in) | Done (simbricks_id : Z) (data : bytes).

Definition complete (data : bytes) (op : AXIOperation) : AXIOperation :=
  MkOp (addr op) (len op) (id op) (take (len op) data) (step_size op) true.

Definition read_sys_step (y : read_sys) (e : read_event) : option read_sys :=
  match e with
  | Cycle i =>
      let w := wires (dev y) in
      '(s, rs) ← read_step (dev y) i;
      Some (MkRSys (read_apply s) (hist y ++ rs)
              (if r_valid w && r_ready i then beats y ++ [(r_data w, r_last w, r_id w)] else beats y)
              (reqs y ++ rs))
  | Done sid data =>
      p ← id_op_map (dev y) !! sid;
      s ← read_done (dev y) sid data;
      Some (MkRSys s (alter (complete data) p (hist y)) (beats y) (reqs y))
  end.

Fixpoint read_run (y : read_sys) (es : list read_event) : option read_sys :=
  match es with [] => Some y | e :: es => y ← read_sys_step y e; read_run y es end.

Definition new_read_sys : read_sys :=
  let o := MkROut false false false (replicate BytesData 0) 0 in
  MkRSys (MkRead o o [] 0 ∅ None 0 0) [] [] [].

(** Requests that AXI allows and the code supports: incrementing bursts of transfers no wider
    than the bus, at an aligned address. *)
Definition burst_ok (i : r_in) : Prop :=
  ar_burst i = 1 ∧ 0 ≤ ar_size i < 31 ∧ 0 ≤ ar_len i < 256 ∧ ar_id i ∈u 32 ∧ 0 ≤ ar_addr i ∧
  ar_addr i mod 2 ^ ar_size i = 0 ∧ Z.of_nat BytesData mod 2 ^ ar_size i = 0 ∧
  ar_addr i + 2 ^ ar_size i * (ar_len i + 1) ≤ 2 ^ 64.

(** The manager sends only such requests; the host completes requests once, with their data. *)
Definition read_good (y : read_sys) (e : read_event) : Prop :=
  match e with
  | Cycle i => ar_ready (wires (dev y)) = true → ar_valid i = true → burst_ok i
  | Done sid data => ∃ op, op ∈ pending (dev y) ∧ id op = sid ∧ completed op = false ∧ (len op ≤ length data)%nat
  end.

Fixpoint read_good_run (y : read_sys) (es : list read_event) : Prop :=
  match es with
  | [] => True
  | e :: es => read_good y e ∧ ∀ y', read_sys_step y e = Some y' → read_good_run y' es
  end.

(** ** Reading: the invariant *)

Hypotheses (HD : (0 < BytesData)%nat) (HM : (0 < MaxInFlight)%nat ∧ Z.of_nat MaxInFlight < 2 ^ 32).

Record op_ok (p : nat) (op : AXIOperation) : Prop := {
  oo_step : (0 < step_size op)%nat;
  oo_len : ∃ n, (0 < n)%nat ∧ len op = (n * step_size op)%nat;
  oo_div : Z.of_nat BytesData mod Z.of_nat (step_size op) = 0;
  oo_align : addr op mod Z.of_nat (step_size op) = 0;
  oo_addr : 0 ≤ addr op ∧ addr op + Z.of_nat (len op) ≤ 2 ^ 64;
  oo_buf : length (buf op) = len op;
  oo_id : 0 ≤ id op < 2 ^ 64 ∧ id op mod 2 ^ 32 = Z.of_nat p mod 2 ^ 32;
}.

(** The answer in progress: the first [k] transfers of the first operation were issued, and the
    last of these is about to be driven. *)
Definition streaming (s : AXISubordinateRead) (hist : list AXIOperation) (beats : list (bytes * bool * Z)) : Prop :=
  let sent := concat (beats_of <$> take (popped s) hist) in
  match cur_op s with
  | None => cur_off s = 0%nat ∧ r_valid (tmp s) = false ∧ beats = sent
  | Some p =>
      p = popped s ∧ ∃ op k, pending s !! 0%nat = Some op ∧ completed op = true ∧ r_valid (tmp s) = true ∧
        (S k * step_size op ≤ len op)%nat ∧ cur_off s = (S k * step_size op)%nat ∧
        (r_data (tmp s), r_last (tmp s), r_id (tmp s)) = beat op k ∧
        beats = sent ++ take k (beats_of op)
  end.

Record rcore (s : AXISubordinateRead) (hist : list AXIOperation) (beats : list (bytes * bool * Z)) : Prop := {
  rc_hist : hist = take (popped s) hist ++ pending s ∧ (popped s ≤ length hist)%nat;
  rc_ops : ∀ p op, hist !! p = Some op → op_ok p op;
  rc_rolling : rolling_id s = Z.of_nat (length hist) mod 2 ^ 32;
  rc_map : ∀ sid p, id_op_map s !! sid = Some p ↔
    (popped s ≤ p)%nat ∧ ∃ op, pending s !! (p - popped s)%nat = Some op ∧ id op = sid;
  rc_max : (length (pending s) ≤ MaxInFlight)%nat;
  rc_stream : streaming s hist beats;
}.

(** The next segment of the current operation. *)
Lemma send_next_spec s op k :
  cur_op s = Some (popped s) → pending s !! 0%nat = Some op → op_ok (popped s) op →
  cur_off s = (k * step_size op)%nat → (S k * step_size op ≤ len op)%nat →
  send_next_data_segment s =
  Some (MkRead (wires s) (MkROut (ar_ready (tmp s)) (r_valid (tmp s)) (beat op k).1.2 (beat op k).1.1 (r_id (tmp s)))
          (pending s) (popped s) (id_op_map s) (cur_op s) (S k * step_size op) (rolling_id s)).
Proof.
  intros Hc Hp Hok Hoff Hlen. unfold send_next_data_segment, deref. rewrite Hc. cbn [mbind option_bind].
  rewrite (proj2 (Nat.ltb_ge _ _)), Nat.sub_diag, Hp by lia. cbn [mbind option_bind].
  destruct Hok as [Hs _ Hd Ha [Ha0 Ha1] Hb _]. rewrite Hoff.
  rewrite (wrap_id 64) by (unfold fits; lia).
  assert (step_size op ≤ BytesData - Z.to_nat ((addr op + Z.of_nat (k * step_size op)) mod Z.of_nat BytesData))%nat as Hroom.
  { pose proof (align_room BytesData (addr op + Z.of_nat (k * step_size op)) (Z.of_nat (step_size op)) HD) as H.
    rewrite Nat2Z.inj_mul, Z.mod_add in * by lia. specialize (H ltac:(lia) ltac:(lia) Ha Hd).
    pose proof (Z.mod_pos_bound (addr op + Z.of_nat k * Z.of_nat (step_size op)) (Z.of_nat BytesData) ltac:(lia)). lia. }
  rewrite (Nat.min_r _ (step_size op)) by done. rewrite Nat.min_l by lia.
  rewrite (Nat.add_comm (k * _)). reflexivity.
Qed.

Lemma pending_hist s hist bts i :
  rcore s hist bts → pending s !! i = hist !! (popped s + i)%nat.
Proof.
  intros H. destruct (rc_hist _ _ _ H) as [E Hp]. rewrite E at 1. rewrite lookup_app_r by (rewrite length_take; lia).
  f_equal. rewrite length_take. lia.
Qed.

Lemma pending_ok s hist bts i op : rcore s hist bts → pending s !! i = Some op → op_ok (popped s + i) op.
Proof. intros H Hi. apply (rc_ops _ _ _ H). by rewrite <- (pending_hist _ _ _ _ H). Qed.

Lemma ids_inj s hist bts i j op op' :
  rcore s hist bts → pending s !! i = Some op → pending s !! j = Some op' → id op = id op' → i = j.
Proof.
  intros H Hi Hj E. destruct (oo_id _ _ (pending_ok _ _ _ _ _ H Hi)) as [_ Hi']. destruct (oo_id _ _ (pending_ok _ _ _ _ _ H Hj)) as [_ Hj'].
  rewrite E, Hj' in Hi'. pose proof (rc_max _ _ _ H). apply lookup_lt_Some in Hi. apply lookup_lt_Some in Hj.
  pose proof (Z.div_mod (Z.of_nat (popped s + i)) (2 ^ 32)). pose proof (Z.div_mod (Z.of_nat (popped s + j)) (2 ^ 32)).
  set (a := Z.of_nat (popped s + i) / 2 ^ 32) in *. set (b := Z.of_nat (popped s + j) / 2 ^ 32) in *. lia.
Qed.

Lemma beats_of_length op n : (0 < step_size op)%nat → len op = (n * step_size op)%nat → length (beats_of op) = n.
Proof. intros Hs Hl. unfold beats_of. rewrite length_fmap, length_seq, Hl. by apply Nat.div_mul; lia. Qed.

Lemma beats_of_take op p k :
  op_ok p op → (S k * step_size op ≤ len op)%nat → take (S k) (beats_of op) = take k (beats_of op) ++ [beat op k].
Proof.
  intros H Hk. destruct (oo_len _ _ H) as (n & Hn & Hl). pose proof (oo_step _ _ H). apply take_S_r.
  unfold beats_of. rewrite list_lookup_fmap, lookup_seq_lt; [done|]. rewrite Hl, Nat.div_mul by lia. nia.
Qed.

(** The last transfer of the current operation was taken. *)
Lemma finish_burst_spec s hist bts :
  rcore s hist bts → r_valid (tmp s) = true → r_last (tmp s) = true →
  ∃ s', finish_burst s = Some s' ∧ wires s' = wires s ∧
    (∃ op, pending s = op :: pending s' ∧ cur_off s = len op ∧ cur_off s' = 0%nat ∧ cur_op s' = None) ∧
    rcore s' hist (bts ++ [(r_data (tmp s), r_last (tmp s), r_id (tmp s))]).
Proof.
  intros H Hv Hl. pose proof (rc_stream _ _ _ H) as Hs. unfold streaming in Hs.
  destruct (cur_op s) as [p|] eqn:Ec; [|destruct Hs as (_ & ? & _); congruence].
  destruct Hs as (-> & op & k & Hop & Hcomp & _ & Hk & Hoff & Hbeat & Hbts).
  pose proof (pending_ok _ _ _ _ _ H Hop) as Hok. rewrite Nat.add_0_r in Hok.
  assert (len op = S k * step_size op)%nat as Hlen.
  { injection Hbeat as _ Hlast _. rewrite Hl in Hlast. symmetry. by apply Nat.eqb_eq. }
  unfold finish_burst, deref. rewrite Ec. cbn [mbind option_bind].
  rewrite (proj2 (Nat.ltb_ge _ _)), Nat.sub_diag, Hop by lia. cbn [mbind option_bind].
  destruct (pending s) as [|op' pend] eqn:Ep; [done|]. injection Hop as ->.
  eexists. split; [done|]. split; [done|]. split; [exists op; split_and!; [done|congruence|done|done]|].
  assert (take (S (popped s)) hist = take (popped s) hist ++ [op]) as Htake.
  { apply take_S_r. rewrite <- (Nat.add_0_r (popped s)), <- (pending_hist _ _ _ 0 H). by rewrite Ep. }
  destruct (rc_hist _ _ _ H) as [Eh Hp]. rewrite Ep in Eh.
  constructor; cbn [popped pending rolling_id id_op_map cur_op cur_off tmp r_valid].
  - rewrite Htake. split; [by rewrite <- app_assoc|]. apply (f_equal length) in Eh. rewrite length_app, length_take in Eh. cbn in Eh. lia.
  - apply H.
  - apply H.
  - intros sid p. rewrite lookup_delete_Some, (rc_map _ _ _ H). split.
    + intros (Hne & Hle & op2 & Hop2 & Hid). rewrite Ep in Hop2.
      destruct (decide (p = popped s)) as [->|Hp']; [rewrite Nat.sub_diag in Hop2; cbn in Hop2; congruence|].
      split; [lia|]. exists op2. split; [|done]. by replace (p - popped s)%nat with (S (p - S (popped s))) in Hop2 by lia.
    + intros (Hle & op2 & Hop2 & Hid). split.
      * intros <-. assert (S (p - S (popped s)) = 0)%nat; [|lia].
        eapply (ids_inj s hist bts); [done|rewrite Ep; exact Hop2|by rewrite Ep|done].
      * split; [lia|]. exists op2. rewrite Ep. split; [|done]. by replace (p - popped s)%nat with (S (p - S (popped s))) by lia.
  - pose proof (rc_max _ _ _ H) as Hm. rewrite Ep in Hm. cbn in Hm. lia.
  - unfold streaming. cbn [cur_op cur_off tmp r_valid popped]. split_and!; [done|done|].
    rewrite Hbts, Hbeat, Htake, fmap_app, concat_app, <- app_assoc. f_equal. cbn [fmap list_fmap concat].
    rewrite app_nil_r, <- (beats_of_take op _ k Hok) by done. apply take_ge.
    rewrite (beats_of_length op (S k)); [done|apply Hok|done].
Qed.

(** A transfer before the last was taken. *)
Lemma next_segment_spec s hist bts :
  rcore s hist bts → r_valid (tmp s) = true → r_last (tmp s) = false →
  ∃ s', send_next_data_segment s = Some s' ∧ wires s' = wires s ∧ pending s' = pending s ∧
    (cur_off s < cur_off s')%nat ∧
    rcore s' hist (bts ++ [(r_data (tmp s), r_last (tmp s), r_id (tmp s))]).
Proof.
  intros H Hv Hl. pose proof (rc_stream _ _ _ H) as Hs. unfold streaming in Hs.
  destruct (cur_op s) as [p|] eqn:Ec; [|destruct Hs as (_ & ? & _); congruence].
  destruct Hs as (-> & op & k & Hop & Hcomp & _ & Hk & Hoff & Hbeat & Hbts).
  pose proof (pending_ok _ _ _ _ _ H Hop) as Hok. rewrite Nat.add_0_r in Hok.
  assert (S (S k) * step_size op ≤ len op)%nat as Hk2.
  { destruct (oo_len _ _ Hok) as (n & Hn & Hlen). pose proof (oo_step _ _ Hok). injection Hbeat as _ Hlast _.
    rewrite Hl in Hlast. symmetry in Hlast. apply Nat.eqb_neq in Hlast. rewrite Hlen in Hlast, Hk |- *.
    assert (S k < n)%nat; [|apply Nat.mul_le_mono_r; lia].
    apply Nat.mul_le_mono_pos_r in Hk; [|done]. destruct (decide (S k = n)) as [<-|]; [done|lia]. }
  rewrite (send_next_spec s op (S k)) by done. eexists. split; [done|]. split; [done|]. split; [done|].
  split; [rewrite Hoff; cbn; pose proof (oo_step _ _ Hok); lia|].
  destruct H as [H1 H2 H3 H4 H5 _]. constructor; try done.
  unfold streaming. cbn [cur_op cur_off tmp r_valid popped pending r_data r_last r_id]. rewrite Ec. split; [done|].
  exists op, (S k). split_and!; try done.
  - injection Hbeat as _ _ ->. reflexivity.
  - rewrite Hbts, Hbeat, <- app_assoc. f_equal. symmetry. by eapply beats_of_take.
Qed.

(** A request is accepted. *)
Lemma new_read_spec s hist bts i :
  rcore s hist bts → (length (pending s) < MaxInFlight)%nat → burst_ok i →
  ∃ s' op, new_read s i = Some (s', op) ∧ wires s' = wires s ∧ tmp s' = tmp s ∧
    rcore s' (hist ++ [op]) bts ∧
    addr op = ar_addr i ∧ Z.of_nat (len op) = 2 ^ ar_size i * (ar_len i + 1) ∧
    Z.of_nat (step_size op) = 2 ^ ar_size i ∧ Z.shiftr (id op) 32 = ar_id i.
Proof.
  intros H Hroom (Hb & Hsz & Hln & [Hid0 Hid1] & Ha0 & Ha1 & Hd & Ha2).
  assert (0 < 2 ^ ar_size i) as Hpos by (apply Z.pow_pos_nonneg; lia).
  unfold new_read, pow2. rewrite (proj2 (Z.ltb_lt _ _)) by lia. cbn [mbind option_bind]. rewrite Hb. cbn [Z.eqb Pos.eqb negb].
  rewrite Z.shiftl_1_l. set (step := Z.to_nat (2 ^ ar_size i)).
  assert (Z.of_nat step = 2 ^ ar_size i) as Hstep by (unfold step; lia).
  destruct (rc_hist _ _ _ H) as [Eh Hp]. pose proof (rc_rolling _ _ _ H) as Hroll.
  assert (length hist = popped s + length (pending s))%nat as Hhl.
  { apply (f_equal length) in Eh. rewrite length_app, length_take in Eh. lia. }
  pose proof (Z.mod_pos_bound (Z.of_nat (length hist)) (2 ^ 32) ltac:(lia)) as Hrb.
  rewrite Z.shiftl_mul_pow2, lor_disjoint by lia. set (sid := ar_id i * 2 ^ 32 + rolling_id s).
  assert (sid mod 2 ^ 32 = Z.of_nat (length hist) mod 2 ^ 32) as Hsid.
  { unfold sid. rewrite Z.add_comm, Z.mod_add, Hroll, Zmod_mod by lia. done. }
  assert (sid / 2 ^ 32 = ar_id i) as Hshift.
  { unfold sid. rewrite Z.div_add_l by lia. rewrite Z.div_small by lia. lia. }
  assert (id_op_map s !! sid = None) as Hfresh.
  { destruct (id_op_map s !! sid) as [p|] eqn:E; [|done]. exfalso.
    apply (rc_map _ _ _ H) in E as (Hle & op & Hop & Hopid). destruct (oo_id _ _ (pending_ok _ _ _ _ _ H Hop)) as [_ Hm].
    apply lookup_lt_Some in Hop. rewrite Hopid, Hsid in Hm. rewrite Nat.add_comm, Nat.sub_add in Hm by lia.
    pose proof (Z.div_mod (Z.of_nat (length hist)) (2 ^ 32)). pose proof (Z.div_mod (Z.of_nat p) (2 ^ 32)).
    set (a := Z.of_nat (length hist) / 2 ^ 32) in *. set (b := Z.of_nat p / 2 ^ 32) in *. lia. }
  rewrite Hfresh. set (op := new_op _ _ _ _).
  eexists _, op. split; [done|]. split; [done|]. split; [done|].
  assert (Z.of_nat (len op) = 2 ^ ar_size i * (ar_len i + 1)) as Hlen by (cbn; nia).
  split; [|split_and!; [done|done|done|]; cbn; by rewrite Z.shiftr_div_pow2, Hshift by lia].
  constructor; cbn [popped pending rolling_id id_op_map cur_op cur_off tmp r_valid].
  - rewrite take_app_le by lia. split; [|rewrite length_app; lia]. by rewrite app_assoc, <- Eh.
  - intros p op' Hop'. destruct (decide (p = length hist)) as [->|Hne].
    + rewrite list_lookup_middle in Hop' by done. injection Hop' as <-. constructor; cbn -[Nat.mul].
      * lia.
      * exists (Z.to_nat (ar_len i) + 1)%nat. split; lia.
      * by rewrite Hstep.
      * by rewrite Hstep.
      * cbn in Hlen. rewrite Hlen. lia.
      * apply length_replicate.
      * split; [unfold sid; lia|done].
    + rewrite lookup_app_l in Hop' by (apply lookup_lt_Some in Hop'; rewrite length_app in Hop'; cbn in Hop'; lia).
      by apply (rc_ops _ _ _ H).
  - rewrite length_app, Hroll. cbn [length]. unfold u32, wrap. rewrite Z.add_mod_idemp_l by lia. f_equal. lia.
  - intros sid' p. rewrite lookup_insert_Some, (rc_map _ _ _ H). split.
    + intros [[<- <-]|(Hne & Hle & op' & Hop' & Hid)].
      * split; [lia|]. exists op. split; [|done]. apply list_lookup_middle. lia.
      * split; [done|]. exists op'. split; [|done]. by apply lookup_app_l_Some.
    + intros (Hle & op' & Hop' & Hid). destruct (decide (p = popped s + length (pending s))%nat) as [->|Hne].
      * left. split; [|done]. rewrite list_lookup_middle in Hop' by lia. injection Hop' as <-. done.
      * right. rewrite lookup_app_l in Hop' by (apply lookup_lt_Some in Hop'; rewrite length_app in Hop'; cbn in Hop'; lia).
        split; [|by eauto]. intros <-. rewrite (proj2 (rc_map _ _ _ H sid p)) in Hfresh; [done|]. eauto.
  - rewrite length_app. cbn. lia.
  - pose proof (rc_stream _ _ _ H) as Hs. unfold streaming in *. cbn [popped pending cur_op cur_off tmp].
    rewrite take_app_le by lia. destruct (cur_op s); [|done]. destruct Hs as (-> & op' & k & Hop' & Hs). split; [done|].
    exists op', k. split; [|done]. by apply lookup_app_l_Some.
Qed.

(** The answer to the first request is started if its data is there. *)
Lemma start_stream_spec s hist bts :
  rcore s hist bts →
  ∃ s', start_stream s = Some s' ∧ wires s' = wires s ∧ ar_ready (tmp s') = ar_ready (tmp s) ∧ pending s' = pending s ∧
    rcore s' hist bts ∧ (cur_off s ≤ cur_off s')%nat ∧
    (cur_op s = None → ∀ op, pending s !! 0%nat = Some op → completed op = true → cur_op s' = Some (popped s)).
Proof.
  intros H. unfold start_stream. destruct (cur_op s) as [p|] eqn:Ec; [by eexists|].
  destruct (pending s) as [|op pend] eqn:Ep; [by eexists|].
  destruct (completed op) eqn:Hcomp; [|eexists; split_and!; [done..|]; intros _ op' [= <-]; congruence].
  assert (pending s !! 0%nat = Some op) as Hop by (by rewrite Ep).
  pose proof (pending_ok _ _ _ _ _ H Hop) as Hok. rewrite Nat.add_0_r in Hok.
  pose proof (rc_stream _ _ _ H) as Hs. unfold streaming in Hs. rewrite Ec in Hs. destruct Hs as (Hoff & Hv & Hbts).
  destruct (oo_len _ _ Hok) as (n & Hn & Hlen). pose proof (oo_step _ _ Hok).
  rewrite (send_next_spec _ op 0); [|done|done|done|done|rewrite Hlen; apply Nat.mul_le_mono_r; lia].
  eexists. split; [done|]. cbn [wires tmp ar_ready pending r_valid r_id popped id_op_map cur_op rolling_id].
  split; [done|]. split; [done|]. split; [done|]. split; [|split; [cbn [cur_off]; rewrite Hoff; lia|done]].
  destruct H as [H1 H2 H3 H4 H5 _]. rewrite Ep in *. constructor; try done.
  unfold streaming. cbn [cur_op cur_off tmp r_valid popped pending r_data r_last r_id]. split; [done|].
  exists op, 0%nat. split_and!; try done.
  - rewrite Hlen. apply Nat.mul_le_mono_r. lia.
  - destruct (oo_id _ _ Hok) as [Hid _]. rewrite (wrap_id 32); [done|]. unfold fits.
    rewrite Z.shiftr_div_pow2 by lia. split; [apply Z.div_pos; lia|]. apply Z.div_lt_upper_bound; lia.
  - by rewrite take_0, app_nil_r.
Qed.

Lemma insert_alter {A} (f : A → A) (l : list A) i x : l !! i = Some x → <[i := f x]> l = alter f i l.
Proof.
  intros H. apply list_eq. intros j. destruct (decide (i = j)) as [<-|Hne].
  - rewrite list_lookup_insert_eq by (by eapply lookup_lt_Some). by rewrite list_lookup_alter_eq, H.
  - by rewrite list_lookup_insert_ne, list_lookup_alter_ne by done.
Qed.

Lemma complete_ok p data op : op_ok p op → (len op ≤ length data)%nat → op_ok p (complete data op).
Proof. intros [H1 H2 H3 H4 H5 H6 H7] Hd. constructor; try done. cbn. rewrite length_take. lia. Qed.

(** A request is completed. *)
Lemma read_done_spec s hist bts op data :
  rcore s hist bts → op ∈ pending s → completed op = false → (len op ≤ length data)%nat →
  ∃ p s', id_op_map s !! id op = Some p ∧ read_done s (id op) data = Some s' ∧ wires s' = wires s ∧ tmp s' = tmp s ∧
    length (pending s') = length (pending s) ∧ rcore s' (alter (complete data) p hist) bts.
Proof.
  intros H Hin Hnc Hd. apply list_elem_of_lookup in Hin as [j Hj]. set (p := (popped s + j)%nat).
  assert (id_op_map s !! id op = Some p) as Hmap.
  { apply (rc_map _ _ _ H). split; [lia|]. exists op. split; [|done]. by replace (p - popped s)%nat with j by lia. }
  exists p. unfold read_done, deref. rewrite Hmap. cbn [mbind option_bind]. rewrite (proj2 (Nat.ltb_ge _ _)) by lia.
  replace (p - popped s)%nat with j by lia. rewrite Hj. cbn [mbind option_bind].
  rewrite (proj2 (Nat.ltb_ge _ _)) by done. fold (complete data op).
  rewrite (insert_alter (complete data) _ _ _ Hj). eexists. split; [done|]. split; [done|]. split; [done|]. split; [done|].
  split; [apply length_alter|]. destruct (rc_hist _ _ _ H) as [Eh Hp].
  assert (take (popped s) (alter (complete data) p hist) = take (popped s) hist) as Htake by (apply take_alter_ge; lia).
  constructor; cbn [popped pending rolling_id id_op_map cur_op cur_off tmp r_valid].
  - rewrite Htake, length_alter. split; [|done]. rewrite Eh at 1. unfold p.
    rewrite alter_app_r_alt by (rewrite length_take; lia). do 2 f_equal. rewrite length_take. lia.
  - intros q op' Hq. destruct (decide (p = q)) as [<-|Hne].
    + rewrite list_lookup_alter_eq in Hq. rewrite (pending_hist _ _ _ _ H) in Hj. fold p in Hj. rewrite Hj in Hq.
      injection Hq as <-. apply complete_ok; [|done]. by apply (rc_ops _ _ _ H).
    + rewrite list_lookup_alter_ne in Hq by done. by apply (rc_ops _ _ _ H).
  - rewrite length_alter. apply H.
  - intros sid q. rewrite (rc_map _ _ _ H). split; intros (Hle & op' & Hop' & Hid); (split; [done|]).
    + destruct (decide (j = q - popped s)%nat) as [->|Hne].
      * rewrite list_lookup_alter_eq, Hop'. eexists. split; [done|]. done.
      * exists op'. by rewrite list_lookup_alter_ne.
    + destruct (decide (j = q - popped s)%nat) as [->|Hne].
      * rewrite list_lookup_alter_eq, Hj in Hop'. injection Hop' as <-. by exists op.
      * rewrite list_lookup_alter_ne in Hop' by done. by exists op'.
  - rewrite length_alter. apply H.
  - pose proof (rc_stream _ _ _ H) as Hs. unfold streaming in *. cbn [popped pending cur_op cur_off tmp].
    rewrite Htake. destruct (cur_op s); [|done]. destruct Hs as (-> & op' & k & Hop' & Hc & Hs). split; [done|].
    exists op', k. split; [|done]. rewrite list_lookup_alter_ne; [done|]. intros ->. congruence.
Qed.

(** What the host is asked is what was requested. *)
Definition same_request (op op' : AXIOperation) : Prop :=
  addr op = addr op' ∧ len op = len op' ∧ id op = id op' ∧ step_size op = step_size op'.

Record rinv (y : read_sys) : Prop := {
  ri_core : rcore (dev y) (hist y) (beats y);
  ri_wires : wires (dev y) = tmp (dev y);
  ri_ready : ar_ready (wires (dev y)) = true → (length (pending (dev y)) < MaxInFlight)%nat;
  ri_reqs : Forall2 same_request (hist y) (reqs y);
}.

(** The bytes still to be sent, and one more per burst. *)
Definition work (s : AXISubordinateRead) : nat :=
  (sum_list ((λ op, S (len op)) <$> pending s) - cur_off s)%nat.

(** The answer in progress: something is left, and something was sent. *)
Lemma cur_work s hist bts p :
  rcore s hist bts → cur_op s = Some p →
  (0 < cur_off s)%nat ∧ (cur_off s < sum_list ((λ op, S (len op)) <$> pending s))%nat.
Proof.
  intros H Ec. pose proof (rc_stream _ _ _ H) as Hs. unfold streaming in Hs. rewrite Ec in Hs.
  destruct Hs as (_ & op & k & Hop & _ & _ & Hk & -> & _). pose proof (oo_step _ _ (pending_ok _ _ _ _ _ H Hop)).
  destruct (pending s) as [|op' l]; [done|]. injection Hop as ->. cbn -[Nat.mul]. nia.
Qed.

(** The first part of a cycle: the handshake on the data channel. *)
Lemma data_handshake y i :
  rinv y →
  let w := wires (dev y) in
  ∃ s, (if r_last w && r_valid w && r_ready i then finish_burst (dev y)
        else if r_ready i && r_valid w then send_next_data_segment (dev y) else Some (dev y)) = Some s ∧
    wires s = w ∧ (length (pending s) ≤ length (pending (dev y)))%nat ∧
    rcore s (hist y) (if r_valid w && r_ready i then beats y ++ [(r_data w, r_last w, r_id w)] else beats y) ∧
    (work s ≤ work (dev y))%nat ∧ (r_ready i = true → cur_op (dev y) ≠ None → (work s < work (dev y))%nat) ∧
    (cur_op (dev y) = None → s = dev y).
Proof.
  intros [Hc Hw _ _] w. assert (w = tmp (dev y)) as Ew by done. rewrite Ew in *.
  assert (r_valid (tmp (dev y)) = false ↔ cur_op (dev y) = None) as Hcur.
  { pose proof (rc_stream _ _ _ Hc) as Hs. unfold streaming in Hs. destruct (cur_op (dev y)); [|naive_solver].
    destruct Hs as (_ & ? & ? & _ & _ & ? & _). split; congruence. }
  destruct (r_valid (tmp (dev y))) eqn:Ev.
  2: { rewrite !andb_false_r. exists (dev y). split_and!; try done. intros _ H. by destruct H; apply Hcur. }
  destruct (cur_op (dev y)) as [p|] eqn:Ec; [|by destruct Hcur as [_ Hcur]; specialize (Hcur eq_refl)]. clear Hcur.
  destruct (cur_work _ _ _ _ Hc Ec) as [Hw1 Hw2]. rewrite andb_true_r.
  destruct (r_ready i); [|rewrite andb_false_r; exists (dev y); by split_and!]. rewrite andb_true_r. cbn [andb].
  destruct (r_last (tmp (dev y))) eqn:El.
  - destruct (finish_burst_spec _ _ _ Hc Ev El) as (s & -> & Hws & (op & Ep & Eo & Eo' & _) & H'). exists s. rewrite El in H'.
    assert (work s < work (dev y))%nat by (unfold work in *; rewrite Ep, Eo, Eo' in *; cbn in *; lia).
    rewrite Ep. split_and!; [done|congruence|cbn; lia|done|lia|done|done].
  - destruct (next_segment_spec _ _ _ Hc Ev El) as (s & -> & Hws & Ep & Eo & H'). exists s. rewrite El in H'.
    assert (work s < work (dev y))%nat by (unfold work in *; rewrite Ep in *; lia).
    rewrite Ep. split_and!; [done|congruence|done|done|lia|done|done].
Qed.

(** The operation made from a request. *)
Definition requested (op : AXIOperation) (i : r_in) : Prop :=
  addr op = ar_addr i ∧ Z.of_nat (len op) = 2 ^ ar_size i * (ar_len i + 1) ∧
  Z.of_nat (step_size op) = 2 ^ ar_size i ∧ Z.shiftr (id op) 32 = ar_id i.

(** The requests that a cycle accepts. *)
Definition accepts (y : read_sys) (e : read_event) : list r_in :=
  match e with
  | Cycle i => if ar_ready (wires (dev y)) && ar_valid i then [i] else []
  | Done _ _ => []
  end.

Lemma read_cycle_inv y i :
  rinv y → read_good y (Cycle i) →
  ∃ y' rs, read_sys_step y (Cycle i) = Some y' ∧ rinv y' ∧ hist y' = hist y ++ rs ∧ reqs y' = reqs y ++ rs ∧
    Forall2 requested rs (accepts y (Cycle i)).
Proof.
  intros H Hg. cbn [read_sys_step read_good accepts] in *. unfold read_step. set (w := wires (dev y)) in *.
  destruct (data_handshake y i H) as (s1 & E1 & Hw1 & Hl1 & H1 & _). fold w in E1, Hw1, H1. cbv zeta in E1. rewrite E1. cbn [mbind option_bind].
  set (bts := if r_valid w && r_ready i then _ else _) in *.
  assert (∃ s2 rs, (if ar_ready w && ar_valid i then '(s, op) ← new_read s1 i; Some (s, [op]) else Some (s1, [])) = Some (s2, rs) ∧
    wires s2 = w ∧ rcore s2 (hist y ++ rs) bts ∧ Forall2 requested rs (if ar_ready w && ar_valid i then [i] else []))
    as (s2 & rs & E2 & Hw2 & H2 & Hrs).
  { destruct (ar_ready w && ar_valid i) eqn:Ea.
    - apply andb_true_iff in Ea as [Ea1 Ea2].
      destruct (new_read_spec s1 (hist y) bts i H1) as (s2 & op & E2 & Hw2 & _ & H2 & Hreq); [|by apply Hg|].
      { pose proof (ri_ready _ H Ea1). lia. }
      rewrite E2. cbn [mbind option_bind]. exists s2, [op]. split_and!; [done|congruence|done|by constructor].
    - exists s1, []. rewrite app_nil_r. by split_and!. }
  rewrite E2. cbn [mbind option_bind]. clear E2 E1.
  set (s3 := MkRead _ _ _ _ _ _ _ _).
  assert (rcore s3 (hist y ++ rs) bts) as H3 by (destruct H2; constructor; done).
  destruct (start_stream_spec s3 _ _ H3) as (s4 & E4 & Hw4 & Har & Hp4 & H4 & _). rewrite E4. cbn [mbind option_bind].
  eexists _, rs. split; [done|]. split; [|done].
  constructor; cbn [dev hist beats reqs read_apply wires tmp pending].
  - destruct H4; constructor; done.
  - done.
  - intros Hr. rewrite Har in Hr. cbn in Hr. apply bool_decide_eq_true in Hr. rewrite Hp4. done.
  - apply Forall2_app; [apply H|]. clear. induction rs; constructor; [by split_and!|done].
Qed.

Lemma read_done_inv y sid data :
  rinv y → read_good y (Done sid data) →
  ∃ y' p op, read_sys_step y (Done sid data) = Some y' ∧ rinv y' ∧ reqs y' = reqs y ∧
    hist y' = alter (complete data) p (hist y) ∧ hist y !! p = Some op ∧ id op = sid ∧ completed op = false.
Proof.
  intros [Hc Hw Hr Hq] (op & Hin & Hid & Hnc & Hd). cbn [read_sys_step].
  destruct (read_done_spec _ _ _ op data Hc Hin Hnc Hd) as (p & s' & Hmap & Hdone & Hw' & Ht' & Hl' & Hc').
  rewrite <- Hid, Hmap. cbn [mbind option_bind]. rewrite Hdone. cbn [mbind option_bind].
  assert (hist y !! p = Some op) as Hp.
  { apply (rc_map _ _ _ Hc) in Hmap as (Hle & op' & Hop' & Hid'). apply list_elem_of_lookup in Hin as [j Hj].
    assert (j = p - popped (dev y))%nat as -> by (eapply ids_inj; [exact Hc|exact Hj|exact Hop'|by rewrite Hid']).
    rewrite (pending_hist _ _ _ _ Hc) in Hj. by replace (popped (dev y) + (p - popped (dev y)))%nat with p in Hj by lia. }
  eexists _, p, op. split; [done|]. split; [|done]. constructor; cbn [dev hist beats reqs].
  - done.
  - congruence.
  - rewrite Hw', Hl'. done.
  - rewrite <- (insert_alter _ _ _ _ Hp). destruct (Forall2_lookup_l _ _ _ _ _ Hq Hp) as (op' & Hop' & Hsame).
    rewrite <- (list_insert_id (reqs y) p op') by done. by apply Forall2_insert.
Qed.

(** The requests accepted in a run. *)
Fixpoint accepted (y : read_sys) (es : list read_event) : list r_in :=
  match es with
  | [] => []
  | e :: es => accepts y e ++ match read_sys_step y e with Some y' => accepted y' es | None => [] end
  end.

(** Operation [op] was completed with [data]. *)
Definition answered (op : AXIOperation) (sid : Z) (data : bytes) : Prop :=
  id op = sid ∧ completed op = true ∧ buf op = take (len op) data.

(** Completed operations stay as they are. *)
Lemma read_step_keeps y e :
  rinv y → read_good y e →
  ∃ y', read_sys_step y e = Some y' ∧ rinv y' ∧
    (∀ p op, hist y !! p = Some op → completed op = true → hist y' !! p = Some op) ∧
    (∀ sid data, e = Done sid data → ∃ op, op ∈ hist y' ∧ answered op sid data) ∧
    ∃ rs, reqs y' = reqs y ++ rs ∧ Forall2 requested rs (accepts y e).
Proof.
  intros H Hg. destruct e as [i|sid data].
  - destruct (read_cycle_inv y i H Hg) as (y' & rs & E & H' & Hh & Hq & Hrs). exists y'. split_and!; [done|done| |done|by exists rs].
    intros p op Hp _. rewrite Hh. by apply lookup_app_l_Some.
  - destruct (read_done_inv y sid data H Hg) as (y' & p & op & E & H' & Hq & Hh & Hp & Hid & Hnc). exists y'.
    split_and!; [done|done| | |exists []; split; [by rewrite app_nil_r|done]].
    + intros q op' Hq' Hc. rewrite Hh, list_lookup_alter_ne; [done|]. intros <-. congruence.
    + intros ? ? [= <- <-]. exists (complete data op). split; [|by split_and!]. rewrite Hh.
      apply list_elem_of_lookup. exists p. by rewrite list_lookup_alter_eq, Hp.
Qed.

Lemma read_run_inv es : ∀ y,
  rinv y → read_good_run y es →
  ∃ y', read_run y es = Some y' ∧ rinv y' ∧
    (∀ p op, hist y !! p = Some op → completed op = true → hist y' !! p = Some op) ∧
    (∀ sid data, Done sid data ∈ es → ∃ op, op ∈ hist y' ∧ answered op sid data) ∧
    ∃ rs, reqs y' = reqs y ++ rs ∧ Forall2 requested rs (accepted y es).
Proof.
  induction es as [|e es IH]; intros y H Hg.
  { exists y. split_and!; [done|done|done| |exists []; split; [by rewrite app_nil_r|done]]. intros ? ? ?%elem_of_nil. done. }
  destruct Hg as [Hge Hgs]. cbn [read_run accepted].
  destruct (read_step_keeps y e H Hge) as (y1 & E & H1 & Hk1 & Hd1 & rs1 & Hq1 & Hr1). rewrite E. cbn [mbind option_bind].
  destruct (IH y1 H1 (Hgs _ E)) as (y2 & E2 & H2 & Hk2 & Hd2 & rs2 & Hq2 & Hr2).
  exists y2. split_and!; [done|done| | |].
  - intros p op Hp Hc. apply Hk2; [|done]. by apply Hk1.
  - intros sid data [<-|Hin]%elem_of_cons; [|by apply Hd2].
    destruct (Hd1 _ _ eq_refl) as (op & Hin & Ha). exists op. split; [|done].
    apply list_elem_of_lookup in Hin as [p Hp]. apply list_elem_of_lookup. exists p. apply Hk2; [done|apply Ha].
  - exists (rs1 ++ rs2). split; [by rewrite Hq2, Hq1, app_assoc|]. by apply Forall2_app.
Qed.

(** The transfers made are the first of those prescribed. *)
Lemma beats_prefix y : rinv y → beats y `prefix_of` concat (beats_of <$> hist y).
Proof.
  intros H. pose proof (ri_core _ H) as Hc. destruct (rc_hist _ _ _ Hc) as [Eh _]. pose proof (rc_stream _ _ _ Hc) as Hs.
  rewrite Eh, fmap_app, concat_app. unfold streaming in Hs. destruct (cur_op (dev y)).
  - destruct Hs as (_ & op & k & Hop & _ & _ & _ & _ & _ & ->). apply prefix_app.
    destruct (pending (dev y)) as [|op' l]; [done|]. injection Hop as ->. cbn. apply prefix_app_r. apply prefix_take.
  - destruct Hs as (_ & _ & ->). by eexists.
Qed.

(** A cycle in which the manager takes a transfer and requests nothing. *)
Definition idle : r_in := MkRIn false 0 0 0 0 0 true.

Lemma idle_progress y :
  rinv y → pending (dev y) ≠ [] → Forall (λ op, completed op = true) (hist y) →
  ∃ y', read_sys_step y (Cycle idle) = Some y' ∧ rinv y' ∧ hist y' = hist y ∧ (work (dev y') < work (dev y))%nat.
Proof.
  intros H Hne Hall. destruct (read_cycle_inv y idle H) as (y' & rs & E & H' & Hh & _ & Hrs); [by intros _ [=]|].
  cbn [accepts ar_valid idle] in Hrs. rewrite andb_false_r in Hrs. apply Forall2_nil_inv_r in Hrs as ->.
  rewrite app_nil_r in Hh. exists y'. split_and!; [done|done|done|]. revert E. cbn [read_sys_step]. unfold read_step.
  destruct (data_handshake y idle H) as (s1 & E1 & Hw1 & Hl1 & H1 & Hle & Hlt & Hnone). cbv zeta in E1. rewrite E1. cbn [mbind option_bind].
  cbn [ar_valid idle]. rewrite andb_false_r. cbn [mbind option_bind].
  set (s3 := MkRead _ _ _ _ _ _ _ _). assert (rcore s3 (hist y) (if r_valid (wires (dev y)) && r_ready idle
    then beats y ++ [(r_data (wires (dev y)), r_last (wires (dev y)), r_id (wires (dev y)))] else beats y)) as H3
    by (destruct H1; constructor; done).
  destruct (start_stream_spec s3 _ _ H3) as (s4 & -> & _ & _ & Hp4 & H4 & Hoff4 & Hstart). cbn [mbind option_bind]. intros [= <-].
  cbn [dev]. change (work (read_apply s4)) with (work s4).
  assert (work s4 ≤ work s1)%nat as Hle4 by (unfold work; rewrite Hp4; cbn [pending cur_off s3] in *; lia).
  destruct (cur_op (dev y)) as [p|] eqn:Ec; [specialize (Hlt eq_refl ltac:(done)); lia|].
  specialize (Hnone eq_refl). subst s1.
  assert (∃ op l, pending (dev y) = op :: l) as (op & l & Ep) by (destruct (pending (dev y)); [done|eauto]).
  assert (completed op = true) as Hop.
  { rewrite Forall_forall in Hall. apply Hall. rewrite (proj1 (rc_hist _ _ _ (ri_core _ H))), Ep. set_solver. }
  assert (cur_op s4 = Some (popped s3)) as Ec4 by (apply (Hstart Ec op); [cbn; by rewrite ?Ep|done]).
  destruct (cur_work _ _ _ _ H4 Ec4) as [Ha Hb]. pose proof (rc_stream _ _ _ (ri_core _ H)) as Hs. unfold streaming in Hs.
  rewrite Ec in Hs. destruct Hs as (Hz & _). unfold work. rewrite Hz. rewrite Hp4 in Hb |- *. change (pending s3) with (pending (dev y)) in *. lia.
Qed.

Lemma read_drain N : ∀ y,
  rinv y → Forall (λ op, completed op = true) (hist y) → (work (dev y) ≤ N)%nat →
  ∃ m y', read_run y (replicate m (Cycle idle)) = Some y' ∧ hist y' = hist y ∧ beats y' = concat (beats_of <$> hist y).
Proof.
  induction N as [|N IH]; intros y H Hall Hw.
  all: destruct (decide (pending (dev y) = [])) as [Hp|Hp].
  1, 3: exists 0%nat, y; split_and!; [done|done|];
    destruct (rc_hist _ _ _ (ri_core _ H)) as [Eh _]; rewrite Hp, app_nil_r in Eh;
    pose proof (rc_stream _ _ _ (ri_core _ H)) as Hs; unfold streaming in Hs; rewrite <- Eh in Hs;
    (destruct (cur_op (dev y)); [destruct Hs as (_ & ? & ? & Hop & _); by rewrite Hp in Hop|apply Hs]).
  - destruct (idle_progress y H Hp Hall) as (y' & _ & _ & _ & ?). lia.
  - destruct (idle_progress y H Hp Hall) as (y1 & E1 & H1 & Hh1 & Hw1).
    destruct (IH y1 H1) as (m & y2 & E2 & Hh2 & Hb2); [by rewrite Hh1|lia|].
    exists (S m), y2. cbn [replicate read_run]. rewrite E1. cbn [mbind option_bind]. rewrite Hh1 in *. done.
Qed.

Lemma new_rinv : rinv new_read_sys.
Proof.
  constructor; cbn; [|done|done|done]. constructor; cbn.
  - done.
  - done.
  - done.
  - intros sid p. rewrite lookup_empty. split; [done|]. intros (_ & op & ? & _). by rewrite lookup_nil in *.
  - lia.
  - done.
Qed.

(** C30: Reads over AXI are answered correctly.  The manager sends aligned incrementing bursts, and
    takes transfers, in any cycles it likes; the host completes the requests in any order.  Then
    no assertion fails; the host is asked, in order, for exactly the bursts accepted; the
    transfers made are the first of those that AXI prescribes for these bursts, in the order of
    the requests and with the data the host gave; and when all data has arrived, some more cycles
    transfer all the rest. *)
Theorem axi_read_correct es :
  read_good_run new_read_sys es →
  ∃ y, read_run new_read_sys es = Some y ∧
    Forall2 requested (reqs y) (accepted new_read_sys es) ∧ Forall2 same_request (hist y) (reqs y) ∧
    (∀ sid data, Done sid data ∈ es → ∃ op, op ∈ hist y ∧ answered op sid data) ∧
    beats y `prefix_of` concat (beats_of <$> hist y) ∧
    (Forall (λ op, completed op = true) (hist y) →
     ∃ m y', read_run y (replicate m (Cycle idle)) = Some y' ∧ beats y' = concat (beats_of <$> hist y)).
Proof.
  intros Hg. destruct (read_run_inv es _ new_rinv Hg) as (y & E & H & _ & Hd & rs & Hq & Hr). cbn in Hq. subst rs.
  exists y. split_and!; [done|done|apply H|done|by apply beats_prefix|].
  intros Hall. destruct (read_drain _ y H Hall (le_n _)) as (m & y' & E' & _ & Hb). by exists m, y'.
Qed.

End read.

(** A single transfer of eight bytes at address 4: AXI prescribes one transfer, of the four bytes
    up to the boundary; the code makes two, and marks only the second as the last. *)
Definition demo_burst (a size n : Z) : r_in := MkRIn true a 7 n size 1 true.

Theorem unaligned_burst_too_long :
  (beats <$> read_run 8 16 (new_read_sys 8)
     [Cycle (demo_burst 4 3 0); Cycle (demo_burst 4 3 0); Done (7 * 2 ^ 32) [1; 2; 3; 4; 5; 6; 7; 8];
      Cycle idle; Cycle idle; Cycle idle]) =
  Some [([0; 0; 0; 0; 1; 2; 3; 4], false, 7); ([5; 6; 7; 8; 0; 0; 0; 0], true, 7)].
Proof. by vm_compute. Qed.

(** Two transfers of four bytes each, at addresses 8 and 12. *)
Definition demo_read : list read_event :=
  [Cycle idle; Cycle (demo_burst 8 2 1); Done (7 * 2 ^ 32) [1; 2; 3; 4; 5; 6; 7; 8]; Cycle idle; Cycle idle].

Lemma axi_read_correct_witness :
  read_good_run 8 16 (new_read_sys 8) demo_read ∧
  ∃ y, read_run 8 16 (new_read_sys 8) demo_read = Some y ∧
    Forall2 requested (reqs y) (accepted 8 16 (new_read_sys 8) demo_read) ∧ Forall2 same_request (hist y) (reqs y) ∧
    (∀ sid data, Done sid data ∈ demo_read → ∃ op, op ∈ hist y ∧ answered op sid data) ∧
    beats y `prefix_of` concat (beats_of 8 <$> hist y) ∧
    (Forall (λ op, completed op = true) (hist y) →
     ∃ m y', read_run 8 16 y (replicate m (Cycle idle)) = Some y' ∧ beats y' = concat (beats_of 8 <$> hist y)).
Proof.
  assert (read_good_run 8 16 (new_read_sys 8) demo_read) as H.
  { unfold demo_read. cbn [read_good_run].
    split; [by intros [=]|intros y E; vm_compute in E; injection E as <-].
    split; [intros _ _; unfold burst_ok, fits; by repeat split|intros y E; vm_compute in E; injection E as <-].
    split; [eexists; split; [by left|by split_and!]|intros y E; vm_compute in E; injection E as <-].
    split; [by intros _ [=]|intros y E; vm_compute in E; injection E as <-].
    split; [by intros _ [=]|intros y E; done]. }
  split; [exact H|]. apply (axi_read_correct 8 16 ltac:(lia) ltac:(lia) demo_read H).
Defined.

End axi_sub.
