(* ===== verification/AxiSubWrite.v ===== *)
(** * AXI subordinate, write part (lib/simbricks/axi/axi_subordinate.hh)

    [AXISubordinateWrite]: it accepts the address of one write burst at a time, collects the data
    of its transfers in a buffer, hands the whole burst to the host ([do_write]) with the last
    transfer, and answers the burst without waiting for the host; up to [MaxInFlight] writes may
    be outstanding at the host.

    The theorem: the host gets exactly the bursts the hardware model sent, in order and with the
    bytes on the lanes of their addresses; each is answered once, in order; no more than
    [MaxInFlight] are outstanding; and after every cycle the subordinate waits for exactly one
    thing. *)

From S2P Require Import Prelude AxiSub.
Import axi_sub.

Module axi_sub_write.

(** The signals the subordinate drives ([b_resp] is always 0). *)
Record w_out := MkWOut { aw_ready : bool; w_ready : bool; b_valid : bool; b_id : Z }.

(** The signals it samples; the code never looks at [w_strb]. *)
Record w_in := MkWIn {
  aw_valid : bool; aw_addr : Z; aw_id : Z; aw_len : Z; aw_size : Z; aw_burst : Z;
  w_valid : bool; w_data : bytes; w_last : bool; b_ready : bool }.

Record AXISubordinateWrite := MkWrite {
  wires : w_out;
  tmp : w_out;
  cur_off : nat;
  num_pending : Z;      (* uint64_t *)
  cur_op : option AXIOperation;
}.

Section write.
Context (BytesData MaxInFlight : nat).

(** The handshake on the response channel. *)
Definition response_handshake (s : AXISubordinateWrite) (i : w_in) : AXISubordinateWrite :=
  if b_valid (wires s) && b_ready i then
    MkWrite (wires s) (MkWOut (aw_ready (tmp s)) (w_ready (tmp s)) false 0) (cur_off s) (num_pending s) None
  else s.

(** The handshake on the address channel. *)
Definition address_handshake (s : AXISubordinateWrite) (i : w_in) : option AXISubordinateWrite :=
  if aw_valid i && aw_ready (wires s) then
    step ← pow2 (aw_size i);
    if negb (aw_burst i =? 1) then None
    else
      let op := new_op (aw_addr i) (step * (Z.to_nat (aw_len i) + 1)) (aw_id i) step in
      Some (MkWrite (wires s) (MkWOut (aw_ready (tmp s)) true (b_valid (tmp s)) (b_id (tmp s)))
              (cur_off s) (num_pending s) (Some op))
  else Some s.

(** The handshake on the data channel; also the operation passed to [do_write]. *)
Definition data_handshake (s : AXISubordinateWrite) (i : w_in) : option (AXISubordinateWrite * list AXIOperation) :=
  if w_valid i && w_ready (wires s) then
    op ← cur_op s;
    let align := Z.to_nat (u64 (addr op + Z.of_nat (cur_off s)) mod Z.of_nat BytesData) in
    let num_bytes := ((BytesData - align) `min` step_size op `min` (len op - cur_off s))%nat in
    let op := MkOp (addr op) (len op) (id op)
                (patch (buf op) (cur_off s) (take num_bytes (drop align (w_data i)))) (step_size op) (completed op) in
    let off := (cur_off s + num_bytes)%nat in
    if (len op <? off)%nat then None
    else if w_last i then
      Some (MkWrite (wires s) (MkWOut (aw_ready (tmp s)) false true (id op)) 0 (u64 (num_pending s + 1)) (Some op), [op])
    else Some (MkWrite (wires s) (tmp s) off (num_pending s) (Some op), [])
  else Some (s, []).

(** [AXISubordinateWrite::step] *)
Definition write_step (s : AXISubordinateWrite) (i : w_in) : option (AXISubordinateWrite * list AXIOperation) :=
  s ← address_handshake (response_handshake s i) i;
  '(s, ws) ← data_handshake s i;
  let ready := negb (bool_decide (is_Some (cur_op s))) && (num_pending s <? Z.of_nat MaxInFlight) in
  Some (MkWrite (wires s) (MkWOut ready (w_ready (tmp s)) (b_valid (tmp s)) (b_id (tmp s)))
          (cur_off s) (num_pending s) (cur_op s), ws).

(** [step_apply] *)
Definition write_apply (s : AXISubordinateWrite) : AXISubordinateWrite :=
  MkWrite (tmp s) (tmp s) (cur_off s) (num_pending s) (cur_op s).

(** [write_done] *)
Definition write_done (s : AXISubordinateWrite) : AXISubordinateWrite :=
  MkWrite (wires s) (tmp s) (cur_off s) (u64 (num_pending s - 1)) (cur_op s).

(** ** The system *)

(** What was accepted on the address and data channels, passed to the host and answered, and how
    many writes the host has completed. *)
Record write_sys := MkWSys {
  dev : AXISubordinateWrite; addrs : list w_in; datas : list bytes; writes : list AXIOperation;
  resps : list Z; dones : nat }.

Inductive write_event := WCycle (i : w_in) | WDone.

Definition write_sys_step (y : write_sys) (e : write_event) : option write_sys :=
  let w := wires (dev y) in
  match e with
  | WCycle i =>
      '(s, ws) ← write_step (dev y) i;
      Some (MkWSys (write_apply s)
              (addrs y ++ if aw_valid i && aw_ready w then [i] else [])
              (datas y ++ if w_valid i && w_ready w then [w_data i] else [])
              (writes y ++ ws)
              (resps y ++ if b_valid w && b_ready i then [b_id w] else [])
              (dones y))
  | WDone => Some (MkWSys (write_done (dev y)) (addrs y) (datas y) (writes y) (resps y) (S (dones y)))
  end.

Fixpoint write_run (y : write_sys) (es : list write_event) : option write_sys :=
  match es with [] => Some y | e :: es => y ← write_sys_step y e; write_run y es end.

Definition new_write_sys : write_sys :=
  let o := MkWOut false false false 0 in
  MkWSys (MkWrite o o 0 0 None) [] [] [] [] 0.

(** ** The bursts a manager sends *)

(** The number of transfers of a burst, and their size. *)
Definition transfers (r : w_in) : nat := S (Z.to_nat (aw_len r)).
Definition size_of (r : w_in) : nat := Z.to_nat (2 ^ aw_size r).

(** The bytes of a burst: each transfer has the next ones, on the lanes of their address. *)
Fixpoint payload (a : Z) (size : nat) (ds : list bytes) : bytes :=
  match ds with
  | [] => []
  | d :: ds => slice d (Z.to_nat (a mod Z.of_nat BytesData)) size ++ payload (a + Z.of_nat size) size ds
  end.

(** A burst as an operation for the host. *)
Definition burst (r : w_in) (ds : list bytes) : AXIOperation :=
  MkOp (aw_addr r) (transfers r * size_of r) (aw_id r) (payload (aw_addr r) (size_of r) ds) (size_of r) false.

(** The bursts all of whose transfers were made. *)
Fixpoint bursts (rs : list w_in) (ds : list bytes) : list AXIOperation :=
  match rs with
  | [] => []
  | r :: rs =>
      if (transfers r <=? length ds)%nat then burst r (take (transfers r) ds) :: bursts rs (drop (transfers r) ds)
      else []
  end.

(** Requests that AXI allows and the code supports. *)
Definition wburst_ok (r : w_in) : Prop :=
  aw_burst r = 1 ∧ 0 ≤ aw_size r < 31 ∧ 0 ≤ aw_len r < 256 ∧ 0 ≤ aw_addr r ∧
  aw_addr r mod 2 ^ aw_size r = 0 ∧ Z.of_nat BytesData mod 2 ^ aw_size r = 0 ∧
  aw_addr r + 2 ^ aw_size r * (aw_len r + 1) ≤ 2 ^ 64.

(** The transfers made so far that belong to the burst in progress. *)
Fixpoint in_progress (rs : list w_in) (ds : list bytes) : nat :=
  match rs with
  | [] => length ds
  | r :: rs => if (transfers r <=? length ds)%nat then in_progress rs (drop (transfers r) ds) else length ds
  end.

(** The manager sends such requests, with data as wide as the bus, and marks the last transfer of
    each; the host completes writes it was given. *)
Definition write_good (y : write_sys) (e : write_event) : Prop :=
  match e with
  | WCycle i =>
      (aw_ready (wires (dev y)) = true → aw_valid i = true → wburst_ok i) ∧
      (w_ready (wires (dev y)) = true → w_valid i = true →
       length (w_data i) = BytesData ∧
       ∀ r, last (addrs y) = Some r →
         w_last i = bool_decide (S (in_progress (addrs y) (datas y)) = transfers r))
  | WDone => (dones y < length (writes y))%nat
  end.

Fixpoint write_good_run (y : write_sys) (es : list write_event) : Prop :=
  match es with
  | [] => True
  | e :: es => write_good y e ∧ ∀ y', write_sys_step y e = Some y' → write_good_run y' es
  end.

(** ** Invariant *)

Hypotheses (HD : (0 < BytesData)%nat) (HM : (0 < MaxInFlight)%nat ∧ Z.of_nat MaxInFlight < 2 ^ 64).

Lemma payload_snoc size ds : ∀ a d,
  payload a size (ds ++ [d]) =
  payload a size ds ++ slice d (Z.to_nat ((a + Z.of_nat (length ds * size)) mod Z.of_nat BytesData)) size.
Proof.
  induction ds as [|d' ds IH]; intros a d; cbn -[Nat.mul].
  - by rewrite Z.add_0_r, app_nil_r.
  - rewrite IH, app_assoc. do 4 f_equal. lia.
Qed.

(** Whole bursts, each with its transfers. *)
Definition whole (rs : list w_in) (dss : list (list bytes)) : Prop :=
  Forall2 (λ r ds, length ds = transfers r) rs dss.

Lemma bursts_whole rs dss rest cur :
  whole rs dss → bursts (rs ++ rest) (concat dss ++ cur) = zip_with burst rs dss ++ bursts rest cur.
Proof.
  induction 1 as [|r ds rs dss Hl _ IH]; [done|]. cbn [app bursts concat zip_with]. rewrite <- app_assoc.
  rewrite (proj2 (Nat.leb_le _ _)) by (rewrite length_app; lia).
  by rewrite (take_app_length' _ _ _ (eq_sym Hl)), (drop_app_length' _ _ _ (eq_sym Hl)), IH.
Qed.

Lemma in_progress_whole rs dss rest cur :
  whole rs dss → in_progress (rs ++ rest) (concat dss ++ cur) = in_progress rest cur.
Proof.
  induction 1 as [|r ds rs dss Hl _ IH]; [done|]. cbn [app in_progress concat]. rewrite <- app_assoc.
  rewrite (proj2 (Nat.leb_le _ _)) by (rewrite length_app; lia).
  by rewrite (drop_app_length' _ _ _ (eq_sym Hl)), IH.
Qed.

Lemma whole_snoc rs dss r ds : whole rs dss → length ds = transfers r → whole (rs ++ [r]) (dss ++ [ds]).
Proof. intros H Hl. apply Forall2_app; [done|by repeat constructor]. Qed.

Lemma zip_snoc rs dss r ds :
  whole rs dss → zip_with burst (rs ++ [r]) (dss ++ [ds]) = zip_with burst rs dss ++ [burst r ds].
Proof. intros H. by rewrite zip_with_app by (by eapply Forall2_length). Qed.

(** The operation in progress after the transfers [cur]. *)
Definition partial (r : w_in) (cur : list bytes) : AXIOperation :=
  MkOp (aw_addr r) (transfers r * size_of r) (aw_id r)
    (payload (aw_addr r) (size_of r) cur ++ replicate ((transfers r - length cur) * size_of r) 0) (size_of r) false.

(** What the subordinate waits for: an address, data, or that its response is taken.  [ws] are the
    writes passed to the host; [rest] and [cur] the burst in progress and its transfers. *)
Inductive phase (s : AXISubordinateWrite) (ws : list AXIOperation) (rs : list Z) : list w_in → list bytes → Prop :=
| PIdle : cur_op s = None → cur_off s = 0%nat → w_ready (tmp s) = false → b_valid (tmp s) = false →
    (aw_ready (tmp s) = true → num_pending s < Z.of_nat MaxInFlight) → rs = id <$> ws → phase s ws rs [] []
| PData r cur : cur_op s = Some (partial r cur) → cur_off s = (length cur * size_of r)%nat →
    aw_ready (tmp s) = false → w_ready (tmp s) = true → b_valid (tmp s) = false →
    num_pending s < Z.of_nat MaxInFlight → rs = id <$> ws → (length cur < transfers r)%nat →
    length (payload (aw_addr r) (size_of r) cur) = (length cur * size_of r)%nat → wburst_ok r →
    phase s ws rs [r] cur
| PResp op ws' : cur_op s = Some op → cur_off s = 0%nat → aw_ready (tmp s) = false → w_ready (tmp s) = false →
    b_valid (tmp s) = true → b_id (tmp s) = id op → ws = ws' ++ [op] → rs = id <$> ws' → phase s ws rs [] [].

Record winv (y : write_sys) : Prop := {
  wi_wires : wires (dev y) = tmp (dev y);
  wi_pending : num_pending (dev y) = Z.of_nat (length (writes y)) - Z.of_nat (dones y);
  wi_max : 0 ≤ num_pending (dev y) ≤ Z.of_nat MaxInFlight;
  wi_phase : ∃ rs dss rest cur, addrs y = rs ++ rest ∧ datas y = concat dss ++ cur ∧
    whole rs dss ∧ writes y = zip_with burst rs dss ∧ phase (dev y) (writes y) (resps y) rest cur;
}.

(** A transfer is copied to the next free place. *)
Lemma partial_snoc r cur d :
  wburst_ok r → (length cur < transfers r)%nat → length d = BytesData →
  length (payload (aw_addr r) (size_of r) cur) = (length cur * size_of r)%nat →
  let off := (length cur * size_of r)%nat in
  let align := Z.to_nat (u64 (aw_addr r + Z.of_nat off) mod Z.of_nat BytesData) in
  ((BytesData - align) `min` size_of r `min` (transfers r * size_of r - off) = size_of r)%nat ∧
  patch (buf (partial r cur)) off (slice d align (size_of r)) = buf (partial r (cur ++ [d])) ∧
  length (payload (aw_addr r) (size_of r) (cur ++ [d])) = (length (cur ++ [d]) * size_of r)%nat.
Proof.
  intros (Hb & Hs & Hl & Ha & Hal & Hdiv & Htop) Hn Hd Hp off align.
  assert (Z.of_nat (size_of r) = 2 ^ aw_size r) as Hsz by (unfold size_of; rewrite Z2Nat.id; [done|lia]).
  assert (0 < 2 ^ aw_size r) as Hpos by lia.
  assert (Z.of_nat (transfers r) = aw_len r + 1) as Htr by (unfold transfers; lia).
  assert (off + size_of r ≤ transfers r * size_of r)%nat as Hfit by (unfold off; nia).
  assert (align = Z.to_nat ((aw_addr r + Z.of_nat off) mod Z.of_nat BytesData)) as Eal
    by (unfold align; rewrite (wrap_id 64); [done|unfold fits; nia]).
  assert (size_of r ≤ BytesData - align)%nat as Hroom.
  { rewrite Eal. pose proof (align_room BytesData (aw_addr r + Z.of_nat off) (2 ^ aw_size r) HD Hpos ltac:(lia)) as H.
    unfold off in *. rewrite Nat2Z.inj_mul, Hsz, Z.mod_add in * by lia. specialize (H Hal Hdiv).
    pose proof (Z.mod_pos_bound (aw_addr r + Z.of_nat (length cur) * 2 ^ aw_size r) (Z.of_nat BytesData)). lia. }
  assert (length (slice d align (size_of r)) = size_of r) as Hls by (apply length_slice; lia).
  split_and!.
  - lia.
  - cbn [buf partial]. rewrite payload_snoc. fold off. rewrite <- Eal. unfold patch. rewrite Hls.
    rewrite take_app_le, firstn_all2 by lia. rewrite <- app_assoc. do 2 f_equal.
    rewrite drop_app_ge, Hp by lia. rewrite drop_replicate, length_app. cbn [length]. f_equal. unfold off. nia.
  - rewrite payload_snoc, length_app, Hp, length_app. fold off. rewrite <- Eal, Hls. cbn [length]. unfold off. lia.
Qed.

(** The subordinate is ready for an address when it has no burst and may pass on more writes. *)
Definition settled (s : AXISubordinateWrite) : Prop :=
  aw_ready (tmp s) = negb (bool_decide (is_Some (cur_op s))) && (num_pending s <? Z.of_nat MaxInFlight).

(** The first request of a burst. *)
Lemma address_spec s i ws rs :
  phase s ws rs [] [] → wires s = tmp s → cur_op s = None → aw_valid i = true → aw_ready (wires s) = true →
  wburst_ok i →
  ∃ s', address_handshake s i = Some s' ∧ phase (MkWrite (wires s') (MkWOut false (w_ready (tmp s')) (b_valid (tmp s')) (b_id (tmp s')))
    (cur_off s') (num_pending s') (cur_op s')) ws rs [i] [] ∧ wires s' = wires s ∧ num_pending s' = num_pending s ∧ is_Some (cur_op s').
Proof.
  intros Hp Hw Hc Hv Hr Hok. unfold address_handshake. rewrite Hv, Hr. cbn [andb].
  pose proof Hok as (Hb & Hs & Hl & _). unfold pow2. rewrite (proj2 (Z.ltb_lt _ _)) by lia. cbn [mbind option_bind].
  rewrite Hb. cbn [negb Z.eqb Pos.eqb]. eexists. split; [done|]. split; [|done]. rewrite Z.shiftl_1_l.
  inversion Hp; [|congruence]. econstructor; cbn -[Nat.mul]; try done.
  - unfold new_op, partial, size_of, transfers. cbn [length payload app]. do 2 f_equal; [lia|]. f_equal. lia.
  - match goal with H : _ → num_pending s < _ |- _ => apply H end. congruence.
  - unfold transfers. lia.
Qed.

Definition data_done (s : AXISubordinateWrite) (r : w_in) (cur : list bytes) (last : bool) :
  AXISubordinateWrite * list AXIOperation :=
  if last then
    (MkWrite (wires s) (MkWOut (aw_ready (tmp s)) false true (aw_id r)) 0 (u64 (num_pending s + 1)) (Some (partial r cur)), [partial r cur])
  else (MkWrite (wires s) (tmp s) (length cur * size_of r) (num_pending s) (Some (partial r cur)), []).

(** A transfer of the burst in progress. *)
Lemma data_spec s i r cur :
  cur_op s = Some (partial r cur) → cur_off s = (length cur * size_of r)%nat → w_valid i = true → w_ready (wires s) = true →
  (length cur < transfers r)%nat → length (payload (aw_addr r) (size_of r) cur) = (length cur * size_of r)%nat →
  wburst_ok r → length (w_data i) = BytesData →
  data_handshake s i = Some (data_done s r (cur ++ [w_data i]) (w_last i)).
Proof.
  intros Hc Ho Hv Hr Hn Hp Hok Hd. unfold data_handshake. rewrite Hv, Hr, Hc, Ho. cbn [andb mbind option_bind].
  destruct (partial_snoc r cur (w_data i) Hok Hn Hd Hp) as (Emin & Ebuf & _).
  change (addr (partial r cur)) with (aw_addr r). change (step_size (partial r cur)) with (size_of r).
  change (len (partial r cur)) with (transfers r * size_of r)%nat. cbv zeta. rewrite Emin.
  unfold slice in Ebuf. rewrite Ebuf. cbn [len].
  rewrite (proj2 (Nat.ltb_ge _ _)) by nia. unfold data_done. destruct (w_last i); [done|]. do 3 f_equal.
  rewrite length_app. cbn [length]. lia.
Qed.

Lemma partial_full r cur : length cur = transfers r → partial r cur = burst r cur.
Proof. intros H. unfold partial, burst. by rewrite H, Nat.sub_diag, app_nil_r. Qed.

Lemma cycle_data y i rs dss r cur :
  winv y → write_good y (WCycle i) → addrs y = rs ++ [r] → datas y = concat dss ++ cur → whole rs dss →
  writes y = zip_with burst rs dss → phase (dev y) (writes y) (resps y) [r] cur →
  ∃ y', write_sys_step y (WCycle i) = Some y' ∧ winv y' ∧ settled (dev y').
Proof.
  intros [Hw Hpend Hmax _] [_ Hg] Ea Ed Hwh Ews Hph. inversion Hph as [|? ? Hc Ho Har Hwr Hbv Hlt Hrs Hn Hp Hok|]; subst.
  cbn [write_sys_step]. unfold write_step, response_handshake, address_handshake. rewrite Hw, Hbv, Hwr, Har in *. cbn [andb].
  rewrite Hw, Har, andb_false_r. cbn [mbind option_bind]. rewrite !app_nil_r.
  destruct (w_valid i) eqn:Hv; cbn [andb]; cycle 1.
  { unfold data_handshake. rewrite Hv. cbn [andb mbind option_bind]. eexists. split; [done|]. rewrite !app_nil_r, Hc.
    split; [|unfold settled; cbn; by rewrite ?Hc].
    constructor; cbn [dev wires tmp num_pending writes dones addrs datas resps]; [done..|].
    exists rs, dss, [r], cur. split_and!; try done. econstructor; done. }
  destruct (Hg eq_refl eq_refl) as [Hd Hlast]. rewrite Ea, last_snoc in Hlast. specialize (Hlast _ eq_refl).
  rewrite Ed, in_progress_whole in Hlast by done. cbn [in_progress] in Hlast.
  rewrite (proj2 (Nat.leb_gt _ _)) in Hlast by done.
  erewrite data_spec by (try done; congruence). cbn [mbind option_bind]. unfold data_done.
  destruct (partial_snoc r cur (w_data i) Hok Hn Hd Hp) as (_ & _ & Hp').
  case_bool_decide as Hl; rewrite Hlast; eexists; (split; [done|]); (split; [|done]);
    (constructor; cbn [dev wires tmp num_pending writes dones addrs datas resps write_apply]; [done| | |]).
  - rewrite (wrap_id 64), length_app by (unfold fits; lia). cbn. lia.
  - rewrite (wrap_id 64) by (unfold fits; lia). lia.
  - assert (length (cur ++ [w_data i]) = transfers r) as Hfull by (rewrite length_app; cbn; lia).
    exists (rs ++ [r]), (dss ++ [cur ++ [w_data i]]), [], []. rewrite !app_nil_r, concat_app, partial_full by done. cbn [concat]. rewrite app_nil_r.
    split_and!; [done|by rewrite Ed, app_assoc|by apply whole_snoc|by rewrite zip_snoc, Ews|].
    by eapply (PResp _ _ _ _ (writes y)).
  - rewrite app_nil_r. done.
  - done.
  - exists rs, dss, [r], (cur ++ [w_data i]). rewrite !app_nil_r. split_and!; [done|by rewrite Ed, app_assoc|done|done|].
    econstructor; try done; cbn [cur_op num_pending]. rewrite length_app. cbn. lia.
Qed.

Lemma cycle_wait y i rs dss :
  winv y → write_good y (WCycle i) → addrs y = rs → datas y = concat dss → whole rs dss →
  writes y = zip_with burst rs dss → phase (dev y) (writes y) (resps y) [] [] →
  ∃ y', write_sys_step y (WCycle i) = Some y' ∧ winv y' ∧ settled (dev y').
Proof.
  intros [Hw Hpend Hmax _] [Hg _] Ea Ed Hwh Ews Hph.
  cbn [write_sys_step]. unfold write_step, response_handshake.
  inversion Hph as [Hc Ho Hwr Hbv Hlt Hrs| |op ws' Hc Ho Har Hwr Hbv Hid Hws Hrs].
  - rewrite Hw, Hbv in *. cbn [andb]. destruct (aw_valid i && aw_ready (tmp (dev y))) eqn:Eh.
    + apply andb_true_iff in Eh as [Hv Hr].
      edestruct (address_spec (dev y) i) as (s' & -> & Hph' & Hw' & Hn' & Hsome); [done|done|done|done|by rewrite Hw|by apply Hg|].
      cbn [mbind option_bind]. unfold data_handshake. rewrite Hw', Hw, Hwr, andb_false_r. cbn [mbind option_bind].
      eexists. split; [done|]. rewrite bool_decide_eq_true_2 by done. cbn [negb andb]. split; [|unfold settled; cbn; by rewrite bool_decide_eq_true_2].
      constructor; cbn [dev wires tmp num_pending writes dones addrs datas resps write_apply]; rewrite ?app_nil_r, ?Hn'; [done..|].
      exists rs, dss, [i], []. rewrite !app_nil_r, Ea. split_and!; [done..|].
      rewrite Hn' in Hph'. inversion Hph'; econstructor; done.
    + unfold address_handshake. rewrite Hw, Eh. cbn [mbind option_bind]. unfold data_handshake. rewrite Hw, Hwr, andb_false_r.
      cbn [mbind option_bind]. rewrite !app_nil_r, Hc. eexists. split; [done|]. split; [|unfold settled; cbn; by rewrite ?Hc].
      constructor; cbn [dev wires tmp num_pending writes dones addrs datas resps write_apply]; [done..|].
      exists rs, dss, [], []. rewrite !app_nil_r. split_and!; [done..|]. apply PIdle; try done. cbn. lia.
  - rewrite Hw, Hbv in *. cbn [andb]. unfold address_handshake, data_handshake.
    rewrite Har, Hwr, !andb_false_r. destruct (b_ready i); cbn [wires]; rewrite ?Hw, Har, andb_false_r; cbn [mbind option_bind];
      cbn [wires]; rewrite ?Hw, Hwr, andb_false_r; cbn [mbind option_bind]; rewrite !app_nil_r; (eexists; split; [done|]);
      (split; [|unfold settled; cbn; by rewrite ?Hc]);
      (constructor; cbn [dev wires tmp num_pending writes dones addrs datas resps write_apply]; [done..|]);
      exists rs, dss, [], []; rewrite !app_nil_r; (split_and!; [done..|]).
    + apply PIdle; try done; cbn; [lia|]. by rewrite Hrs, Hws, fmap_app, Hid.
    + rewrite Hc. eapply (PResp _ _ _ _ ws'); try done.
Qed.

Lemma write_step_inv y e :
  winv y → write_good y e →
  ∃ y', write_sys_step y e = Some y' ∧ winv y' ∧ (∀ i, e = WCycle i → settled (dev y')).
Proof.
  intros H Hg. pose proof (wi_phase _ H) as (rs & dss & rest & cur & Ea & Ed & Hwh & Ews & Hph). destruct e as [i|].
  - assert (∃ y', write_sys_step y (WCycle i) = Some y' ∧ winv y' ∧ settled (dev y')) as (y' & ? & ? & ?); [|by exists y'].
    inversion Hph; subst rest cur; first [eapply cycle_data; done|eapply cycle_wait; rewrite ?Ea, ?Ed, ?app_nil_r; done].
  - destruct H as [Hw Hpend Hmax _]. cbn in Hg. eexists. split; [done|]. split; [|done].
    assert (u64 (num_pending (dev y) - 1) = num_pending (dev y) - 1) as E by (apply (wrap_id 64); unfold fits; lia).
    constructor; cbn [dev wires tmp num_pending writes dones addrs datas resps write_done]; rewrite ?E; [done|lia|lia|].
    exists rs, dss, rest, cur. split_and!; try done. inversion Hph; subst; econstructor; cbn; try done; rewrite ?E; lia.
Qed.

Lemma write_run_inv es : ∀ y,
  winv y → write_good_run y es →
  ∃ y', write_run y es = Some y' ∧ winv y' ∧ (∀ i, last es = Some (WCycle i) → settled (dev y')).
Proof.
  induction es as [|e es IH]; intros y H Hg; [by exists y|]. destruct Hg as [Hge Hgs]. cbn [write_run].
  destruct (write_step_inv y e H Hge) as (y1 & E & H1 & Hs1). rewrite E. cbn [mbind option_bind].
  destruct (IH y1 H1 (Hgs _ E)) as (y2 & E2 & H2 & Hs2). exists y2. split_and!; [done..|].
  intros i Hl. destruct es as [|e' es].
  - injection Hl as ->. injection E2 as <-. by eapply Hs1.
  - by eapply Hs2.
Qed.

Lemma new_winv : winv new_write_sys.
Proof. constructor; cbn; try done; [lia|]. exists [], [], [], []. split_and!; try done; [constructor|by apply PIdle]. Qed.

(** Exactly one of the channels is open; none only if the host has [MaxInFlight] writes to do. *)
Definition waits_for_one (s : AXISubordinateWrite) : Prop :=
  match aw_ready (wires s), w_ready (wires s), b_valid (wires s) with
  | true, false, false | false, true, false | false, false, true => True
  | false, false, false => num_pending s = Z.of_nat MaxInFlight
  | _, _, _ => False
  end.

Lemma inv_waits y : winv y → settled (dev y) → waits_for_one (dev y).
Proof.
  intros [Hw _ Hmax (rs & dss & rest & cur & _ & _ & _ & _ & Hph)] Hs. unfold waits_for_one, settled in *. rewrite Hw.
  inversion Hph as [Hc Ho Hwr Hbv _ _|r ? Hc Ho Har Hwr Hbv|op ? Hc Ho Har Hwr Hbv]; rewrite ?Hwr, ?Hbv, ?Har; [|done..].
  rewrite Hs, Hc. cbn. destruct (Z.ltb_spec (num_pending (dev y)) (Z.of_nat MaxInFlight)); [done|lia].
Qed.

(** What was written and answered. *)
Lemma inv_written y :
  winv y → writes y = bursts (addrs y) (datas y) ∧
  ∃ n, resps y = take n (id <$> writes y) ∧ (length (writes y) ≤ S n)%nat.
Proof.
  intros [_ _ _ (rs & dss & rest & cur & Ea & Ed & Hwh & Ews & Hph)]. split.
  - rewrite Ea, Ed, bursts_whole, Ews by done. inversion Hph as [|? ? _ _ _ _ _ _ _ Hn|]; cbn [bursts]; [by rewrite app_nil_r| |by rewrite app_nil_r].
    by rewrite (proj2 (Nat.leb_gt _ _)), app_nil_r.
  - inversion Hph as [_ _ _ _ _ Hrs|? ? _ _ _ _ _ _ Hrs|op ws' _ _ _ _ _ _ Hws Hrs].
    1, 2: exists (length (writes y)); split; [by rewrite Hrs, firstn_all2 by (by rewrite length_fmap)|lia].
    exists (length ws'). rewrite Hws, length_app, fmap_app, take_app_length' by (by rewrite length_fmap). split; [done|cbn; lia].
Qed.

(** C31: Writes over AXI reach the host correctly.  The manager sends aligned incrementing bursts and
    their transfers in any cycles it likes, and takes responses when it likes; the host completes
    writes when it likes.  Then no assertion fails; the host was given exactly the bursts whose
    transfers were all made, in order, with the bytes on the lanes of their addresses; their
    identifiers were the responses, in order, at most the last one not yet taken; at most
    [MaxInFlight] writes are outstanding; and after each cycle the subordinate waits for exactly
    one of an address, data, the response being taken, or the host. *)
Theorem axi_write_correct es :
  write_good_run new_write_sys es →
  ∃ y, write_run new_write_sys es = Some y ∧
    writes y = bursts (addrs y) (datas y) ∧
    (∃ n, resps y = take n (id <$> writes y) ∧ (length (writes y) ≤ S n)%nat) ∧
    (length (writes y) - dones y ≤ MaxInFlight)%nat ∧
    (∀ i, last es = Some (WCycle i) → waits_for_one (dev y)).
Proof.
  intros Hg. destruct (write_run_inv es _ new_winv Hg) as (y & E & H & Hs). exists y.
  pose proof (inv_written _ H) as [? ?]. pose proof (wi_max _ H). pose proof (wi_pending _ H).
  split_and!; [done..|lia|]. intros i Hl. apply inv_waits; [done|by eapply Hs].
Qed.

End write.

(** A burst of two transfers of four bytes, at address 8 on a bus eight bytes wide. *)
Definition aw (a : Z) : w_in := MkWIn true a 7 1 2 1 false [] false true.
Definition dw (d : bytes) (last : bool) : w_in := MkWIn false 0 0 0 0 0 true d last true.

Definition demo_write : list write_event :=
  [WCycle (aw 8); WCycle (aw 8); WCycle (dw [1; 2; 3; 4; 0; 0; 0; 0] false);
   WCycle (dw [0; 0; 0; 0; 5; 6; 7; 8] true); WDone; WCycle (dw [] true)].

Lemma axi_write_correct_witness :
  write_good_run 8 16 new_write_sys demo_write ∧
  ∃ y, write_run 8 16 new_write_sys demo_write = Some y ∧
    writes y = bursts 8 (addrs y) (datas y) ∧
    (∃ n, resps y = take n (id <$> writes y) ∧ (length (writes y) ≤ S n)%nat) ∧
    (length (writes y) - dones y ≤ 16)%nat ∧
    (∀ i, last demo_write = Some (WCycle i) → waits_for_one 16 (dev y)).
Proof.
  assert (write_good_run 8 16 new_write_sys demo_write) as H.
  { unfold demo_write. cbn [write_good_run].
    repeat match goal with |- _ ∧ _ => split; [|intros y E; vm_compute in E; injection E as <-] end; [..|done].
    5: by cbn; lia.
    all: split; [|].
    all: try by intros [=].
    all: try (intros _ _; split; [done|intros r [= <-]; done]).
    all: intros _ _; unfold wburst_ok; by repeat split. }
  split; [exact H|]. apply (axi_write_correct 8 16 ltac:(lia) ltac:(lia) demo_write H).
Defined.

(** What the host is given, and the response. *)
Example demo_written :
  (λ y, (buf <$> writes y, resps y)) <$> write_run 8 16 new_write_sys demo_write = Some ([[1; 2; 3; 4; 5; 6; 7; 8]], [7]).
Proof. by vm_compute. Qed.

End axi_sub_write.
