(* ===== verification/AxiLite.v ===== *)
(** * AXI-Lite manager (lib/simbricks/axi/axil_manager.hh)

    Register reads and writes that a host issues become single transfers of an AXI-Lite
    interface, one at a time: [AXILManager] keeps the queue of operations and steps the read or
    the write port for the first of them; each port drives the address (and data) until they are
    taken and waits for the answer.

    The theorem is a refinement: together with any AXI-Lite subordinate, however it delays its
    handshakes, the operations behave as if each was executed at once on the subordinate's
    registers, in the order of issue; none of the code's assertions fails or exceptions is thrown;
    and once the subordinate stops delaying, all operations complete. *)

From S2P Require Import Prelude.

Module axil.

(** [AXILOperationR], [AXILOperationW] *)
Record AXILOperationR := MkR { r_addr : Z; r_req_id : Z; r_value : Z }.
Record AXILOperationW := MkW { w_addr : Z; w_req_id : Z; w_value : Z; posted : bool }.

Inductive operation := OpR (op : AXILOperationR) | OpW (op : AXILOperationW).

(** The operation a port works on is its number, counted from the first ever. *)
Record AXILManagerReadPort := MkRP {
  ar_addr : Z; ar_valid : bool; r_ready : bool;
  ar_valid_tmp : bool; ar_addr_tmp : Z;
  r_cur_op : option nat; r_handling_op : bool }.

Record AXILManagerWritePort := MkWP {
  aw_addr : Z; aw_valid : bool; w_data : Z; w_valid : bool; b_ready : bool;
  aw_valid_tmp : bool; aw_addr_tmp : Z; w_valid_tmp : bool; w_data_tmp : Z;
  w_cur_op : option nat; w_handling_op : bool }.

Inductive step_target := SNone | SRead | SWrite.

Record AXILManager := MkM {
  read_port : AXILManagerReadPort; write_port : AXILManagerWritePort;
  pending : list operation; popped : nat; step_on : step_target }.

(** What the subordinate drives. *)
Record sub_out := MkSub {
  ar_ready : bool; r_valid : bool; r_data : bytes; aw_ready : bool; w_ready : bool; b_valid : bool }.

Section axil.
Context (BytesAddr BytesData : nat).

(** [set_op] of the ports; [None]: the exception. *)
Definition set_op_read (m : AXILManager) : option AXILManager :=
  let p := read_port m in
  match r_cur_op p with
  | Some _ => None
  | None => Some (MkM (MkRP (ar_addr p) (ar_valid p) (r_ready p) (ar_valid_tmp p) (ar_addr_tmp p) (Some (popped m)) (r_handling_op p))
                    (write_port m) (pending m) (popped m) (step_on m))
  end.

Definition set_op_write (m : AXILManager) : option AXILManager :=
  let p := write_port m in
  match w_cur_op p with
  | Some _ => None
  | None => Some (MkM (read_port m) (MkWP (aw_addr p) (aw_valid p) (w_data p) (w_valid p) (b_ready p) (aw_valid_tmp p) (aw_addr_tmp p)
                                      (w_valid_tmp p) (w_data_tmp p) (Some (popped m)) (w_handling_op p))
                    (pending m) (popped m) (step_on m))
  end.

(** [ports_set_op] *)
Definition ports_set_op (m : AXILManager) : option AXILManager :=
  match pending m with
  | [] => Some m
  | OpR _ :: _ => set_op_read m
  | OpW _ :: _ => set_op_write m
  end.

(** [op_done]; also the operation that [read_done] or [write_done] is called with. *)
Definition op_done (m : AXILManager) : option (AXILManager * list operation) :=
  match pending m with
  | [] => None
  | op :: ops => m ← ports_set_op (MkM (read_port m) (write_port m) ops (S (popped m)) (step_on m)); Some (m, [op])
  end.

Definition deref (m : AXILManager) (p : nat) : option operation :=
  if (p <? popped m)%nat then None else pending m !! (p - popped m)%nat.

(** [memcpy(&cur_op_->data, r_data_, BytesData)] *)
Definition store_data (op : operation) (d : bytes) : operation :=
  match op with
  | OpR o => OpR (MkR (r_addr o) (r_req_id o) (le_val (patch (le 8 (r_value o)) 0 (take BytesData d))))
  | OpW o => OpW o
  end.

(** The handshake on the read data channel. *)
Definition read_data (m : AXILManager) (i : sub_out) : option (AXILManager * list operation) :=
  let p := read_port m in
  if r_ready p && r_valid i then
    k ← r_cur_op p;
    op ← deref m k;
    op_done (MkM (MkRP (ar_addr p) (ar_valid p) (r_ready p) (ar_valid_tmp p) (ar_addr_tmp p) None false) (write_port m)
               (<[(k - popped m)%nat := store_data op (r_data i)]> (pending m)) (popped m) (step_on m))
  else Some (m, []).

(** The next read request is driven. *)
Definition read_issue (m : AXILManager) : option AXILManager :=
  let p := read_port m in
  match r_handling_op p, r_cur_op p with
  | false, Some k =>
      op ← deref m k;
      match op with
      | OpR o => Some (MkM (MkRP (ar_addr p) (ar_valid p) (r_ready p) true (r_addr o) (Some k) true) (write_port m)
                         (pending m) (popped m) (step_on m))
      | OpW _ => None
      end
  | _, _ => Some m
  end.

(** [AXILManagerReadPort::step] *)
Definition read_port_step (m : AXILManager) (i : sub_out) : option (AXILManager * list operation) :=
  let p := read_port m in
  p ← (if ar_valid p && ar_ready i then
         match r_cur_op p with
         | None => None
         | Some k => Some (MkRP (ar_addr p) (ar_valid p) true false 0 (Some k) (r_handling_op p))
         end
       else Some (MkRP (ar_addr p) (ar_valid p) true (ar_valid_tmp p) (ar_addr_tmp p) (r_cur_op p) (r_handling_op p)));
  '(m, done) ← read_data (MkM p (write_port m) (pending m) (popped m) (step_on m)) i;
  m ← read_issue m;
  Some (m, done).

(** The handshakes on the write address and data channels. *)
Definition write_taken (p : AXILManagerWritePort) (i : sub_out) : AXILManagerWritePort :=
  let aw := aw_valid p && aw_ready i in
  let w := w_ready i && w_valid p in
  MkWP (aw_addr p) (aw_valid p) (w_data p) (w_valid p) true
    (if aw then false else aw_valid_tmp p) (if aw then 0 else aw_addr_tmp p)
    (if w then false else w_valid_tmp p) (if w then 0 else w_data_tmp p) (w_cur_op p) (w_handling_op p).

(** The handshake on the response channel. *)
Definition write_response (m : AXILManager) (i : sub_out) : option (AXILManager * list operation) :=
  let p := write_port m in
  if b_ready p && b_valid i then
    op_done (MkM (read_port m) (MkWP (aw_addr p) (aw_valid p) (w_data p) (w_valid p) (b_ready p) (aw_valid_tmp p) (aw_addr_tmp p)
                                  (w_valid_tmp p) (w_data_tmp p) None false) (pending m) (popped m) (step_on m))
  else Some (m, []).

(** The next write request is driven. *)
Definition write_issue (m : AXILManager) : option AXILManager :=
  let p := write_port m in
  match w_handling_op p, w_cur_op p with
  | false, Some k =>
      op ← deref m k;
      match op with
      | OpW o => Some (MkM (read_port m) (MkWP (aw_addr p) (aw_valid p) (w_data p) (w_valid p) (b_ready p) true (w_addr o) true (w_value o)
                                            (Some k) true) (pending m) (popped m) (step_on m))
      | OpR _ => None
      end
  | _, _ => Some m
  end.

(** [AXILManagerWritePort::step] *)
Definition write_port_step (m : AXILManager) (i : sub_out) : option (AXILManager * list operation) :=
  '(m, done) ← write_response (MkM (read_port m) (write_taken (write_port m) i) (pending m) (popped m) (step_on m)) i;
  m ← write_issue m;
  Some (m, done).

(** [AXILManager::step] *)
Definition step (m : AXILManager) (i : sub_out) : option (AXILManager * list operation) :=
  match pending m with
  | [] => Some (m, [])
  | OpR _ :: _ =>
      '(m, done) ← read_port_step m i;
      Some (MkM (read_port m) (write_port m) (pending m) (popped m) SRead, done)
  | OpW _ :: _ =>
      '(m, done) ← write_port_step m i;
      Some (MkM (read_port m) (write_port m) (pending m) (popped m) SWrite, done)
  end.

(** [step_apply]: the low bytes of address and data go to the wires. *)
Definition low_bytes (n : nat) (x : Z) : Z := wrap (8 * Z.of_nat n) x.

Definition read_apply (p : AXILManagerReadPort) : AXILManagerReadPort :=
  MkRP (low_bytes BytesAddr (ar_addr_tmp p)) (ar_valid_tmp p) (r_ready p) (ar_valid_tmp p) (ar_addr_tmp p) (r_cur_op p) (r_handling_op p).

Definition write_apply (p : AXILManagerWritePort) : AXILManagerWritePort :=
  MkWP (low_bytes BytesAddr (aw_addr_tmp p)) (aw_valid_tmp p) (low_bytes BytesData (w_data_tmp p)) (w_valid_tmp p) (b_ready p)
    (aw_valid_tmp p) (aw_addr_tmp p) (w_valid_tmp p) (w_data_tmp p) (w_cur_op p) (w_handling_op p).

Definition step_apply (m : AXILManager) : AXILManager :=
  match step_on m with
  | SRead => MkM (read_apply (read_port m)) (write_port m) (pending m) (popped m) (step_on m)
  | SWrite => MkM (read_port m) (write_apply (write_port m)) (pending m) (popped m) (step_on m)
  | SNone => m
  end.

(** [issue_read], [issue_write]; [None]: the exception for an unaligned address. *)
Definition issue (m : AXILManager) (addr : Z) (op : operation) : option AXILManager :=
  if negb (addr mod Z.of_nat BytesData =? 0) then None
  else
    let m' := MkM (read_port m) (write_port m) (pending m ++ [op]) (popped m) (step_on m) in
    match pending m with [] => ports_set_op m' | _ => Some m' end.

Definition issue_read (m : AXILManager) (req_id addr : Z) : option AXILManager :=
  issue m addr (OpR (MkR addr req_id 0)).

Definition issue_write (m : AXILManager) (req_id addr data : Z) (posted : bool) : option AXILManager :=
  issue m addr (OpW (MkW addr req_id data posted)).

Definition new_manager : AXILManager :=
  MkM (MkRP 0 false false false 0 None false) (MkWP 0 false 0 false false false 0 false 0 None false) [] 0 SNone.

(** ** The system *)

(** A subordinate with registers, and what it has accepted but not answered yet. *)
Record subordinate := MkS { regs : gmap Z Z; got_ar : option Z; got_aw : option Z; got_w : option Z }.

(** In which channels it takes part in a cycle, if it can. *)
Record choice := MkC { c_ar : bool; c_r : bool; c_aw : bool; c_w : bool; c_b : bool }.

Definition absent (o : option Z) : bool := if o then false else true.
Definition reg (mem : gmap Z Z) (a : Z) : Z := default 0 (mem !! a).

(** It answers only what it has accepted. *)
Definition drive (s : subordinate) (c : choice) : sub_out :=
  MkSub (c_ar c && absent (got_ar s)) (c_r c && negb (absent (got_ar s)))
    (le BytesData (reg (regs s) (default 0 (got_ar s))))
    (c_aw c && absent (got_aw s)) (c_w c && absent (got_w s))
    (c_b c && negb (absent (got_aw s)) && negb (absent (got_w s))).

(** A clock edge, with the manager's signals [m]; [m'] has its ready signals, which are driven
    before the edge.  A write takes effect with its response. *)
Definition edge (s : subordinate) (c : choice) (m m' : AXILManager) : subordinate :=
  let o := drive s c in
  let rp := read_port m in
  let wp := write_port m in
  let ar := if ar_valid rp && ar_ready o then Some (ar_addr rp)
            else if r_valid o && r_ready (read_port m') then None else got_ar s in
  let aw := if aw_valid wp && aw_ready o then Some (aw_addr wp) else got_aw s in
  let w := if w_valid wp && w_ready o then Some (w_data wp) else got_w s in
  match b_valid o && b_ready (write_port m'), got_aw s, got_w s with
  | true, Some a, Some d => MkS (<[a := d]> (regs s)) ar None None
  | _, _, _ => MkS (regs s) ar aw w
  end.

Record sys := MkSys { mgr : AXILManager; sub : subordinate; issued : list operation; results : list operation }.

Inductive event := IssueR (req_id addr : Z) | IssueW (req_id addr data : Z) (posted : bool) | Clock (c : choice).

Definition sys_step (y : sys) (e : event) : option sys :=
  match e with
  | IssueR req_id a => m ← issue_read (mgr y) req_id a; Some (MkSys m (sub y) (issued y ++ [OpR (MkR a req_id 0)]) (results y))
  | IssueW req_id a d post =>
      m ← issue_write (mgr y) req_id a d post; Some (MkSys m (sub y) (issued y ++ [OpW (MkW a req_id d post)]) (results y))
  | Clock c =>
      '(m, done) ← step (mgr y) (drive (sub y) c);
      Some (MkSys (step_apply m) (edge (sub y) c (mgr y) m) (issued y) (results y ++ done))
  end.

Fixpoint sys_run (y : sys) (es : list event) : option sys :=
  match es with [] => Some y | e :: es => y ← sys_step y e; sys_run y es end.

Definition new_sys (mem : gmap Z Z) : sys := MkSys new_manager (MkS mem None None None) [] [].

(** ** Specification: operations executed at once, in order *)

Definition exec_op (mem : gmap Z Z) (op : operation) : gmap Z Z * operation :=
  match op with
  | OpR o => (mem, OpR (MkR (r_addr o) (r_req_id o) (low_bytes BytesData (reg mem (low_bytes BytesAddr (r_addr o))))))
  | OpW o => (<[low_bytes BytesAddr (w_addr o) := low_bytes BytesData (w_value o)]> mem, OpW o)
  end.

Fixpoint exec (mem : gmap Z Z) (ops : list operation) : gmap Z Z * list operation :=
  match ops with
  | [] => (mem, [])
  | op :: ops => let '(mem, r) := exec_op mem op in let '(mem, rs) := exec mem ops in (mem, r :: rs)
  end.

Lemma exec_snoc mem ops op :
  exec mem (ops ++ [op]) =
  ((exec_op (exec mem ops).1 op).1, (exec mem ops).2 ++ [(exec_op (exec mem ops).1 op).2]).
Proof.
  revert mem. induction ops as [|op' ops IH]; intros mem; cbn [exec app].
  - cbn [fst snd]. by destruct (exec_op mem op).
  - destruct (exec_op mem op') as [mem' r]. rewrite IH. by destruct (exec mem' ops).
Qed.

(** ** Invariant *)

Definition r_idle (p : AXILManagerReadPort) : Prop :=
  r_cur_op p = None ∧ r_handling_op p = false ∧ ar_valid p = false ∧ ar_valid_tmp p = false.

Definition w_idle (p : AXILManagerWritePort) : Prop :=
  w_cur_op p = None ∧ w_handling_op p = false ∧
  aw_valid p = false ∧ aw_valid_tmp p = false ∧ w_valid p = false ∧ w_valid_tmp p = false.

(** A port that was given its next operation. *)
Definition r_set (p : AXILManagerReadPort) (k : nat) : Prop :=
  r_cur_op p = Some k ∧ r_handling_op p = false ∧ ar_valid p = false ∧ ar_valid_tmp p = false.

Definition w_set (p : AXILManagerWritePort) (k : nat) : Prop :=
  w_cur_op p = Some k ∧ w_handling_op p = false ∧
  aw_valid p = false ∧ aw_valid_tmp p = false ∧ w_valid p = false ∧ w_valid_tmp p = false.

(** A value that is being driven, or was taken. *)
Definition driven (n : nat) (valid valid_tmp : bool) (x x_tmp v : Z) (got : option Z) : Prop :=
  (valid = true ∧ valid_tmp = true ∧ x = low_bytes n v ∧ x_tmp = v ∧ got = None) ∨
  (valid = false ∧ valid_tmp = false ∧ got = Some (low_bytes n v)).

Definition r_busy (p : AXILManagerReadPort) (k : nat) (o : AXILOperationR) (s : subordinate) : Prop :=
  r_cur_op p = Some k ∧ r_handling_op p = true ∧
  driven BytesAddr (ar_valid p) (ar_valid_tmp p) (ar_addr p) (ar_addr_tmp p) (r_addr o) (got_ar s).

Definition w_busy (p : AXILManagerWritePort) (k : nat) (o : AXILOperationW) (s : subordinate) : Prop :=
  w_cur_op p = Some k ∧ w_handling_op p = true ∧
  driven BytesAddr (aw_valid p) (aw_valid_tmp p) (aw_addr p) (aw_addr_tmp p) (w_addr o) (got_aw s) ∧
  driven BytesData (w_valid p) (w_valid_tmp p) (w_data p) (w_data_tmp p) (w_value o) (got_w s).

(** Only the port of the first operation is at work. *)
Definition ports (m : AXILManager) (s : subordinate) : Prop :=
  match pending m with
  | [] => r_idle (read_port m) ∧ w_idle (write_port m) ∧ got_ar s = None ∧ got_aw s = None ∧ got_w s = None
  | OpR o :: _ =>
      w_idle (write_port m) ∧ got_aw s = None ∧ got_w s = None ∧
      (r_set (read_port m) (popped m) ∧ got_ar s = None ∨ r_busy (read_port m) (popped m) o s)
  | OpW o :: _ =>
      r_idle (read_port m) ∧ got_ar s = None ∧
      (w_set (write_port m) (popped m) ∧ got_aw s = None ∧ got_w s = None ∨ w_busy (write_port m) (popped m) o s)
  end.

Definition fresh (op : operation) : Prop := match op with OpR o => r_value o = 0 | OpW _ => True end.

Record inv (mem : gmap Z Z) (y : sys) : Prop := {
  iv_ports : ports (mgr y) (sub y);
  iv_fresh : Forall fresh (pending (mgr y));
  iv_issued : ∃ past, issued y = past ++ pending (mgr y) ∧ popped (mgr y) = length past ∧
    exec mem past = (regs (sub y), results y);
}.

Hypothesis HData : BytesData = 4%nat ∨ BytesData = 8%nat.

Lemma le_val_zeros l n : le_val (l ++ replicate n 0) = le_val l.
Proof.
  unfold le_val. rewrite foldr_app. f_equal. induction n as [|n IH]; [done|]. cbn [replicate foldr]. by rewrite IH.
Qed.

(** The data read, in the operation's 64 bits. *)
Lemma store_data_spec o v :
  r_value o = 0 → store_data (OpR o) (le BytesData v) = OpR (MkR (r_addr o) (r_req_id o) (low_bytes BytesData v)).
Proof.
  intros H. unfold store_data. rewrite H, firstn_all2 by (by rewrite length_le). do 2 f_equal.
  unfold low_bytes, wrap. rewrite Z.pow_mul_r by lia. change (2 ^ 8) with 256. rewrite <- le_val_le.
  rewrite <- (le_val_zeros (le BytesData v) (8 - BytesData)). f_equal. unfold patch. rewrite length_le. rewrite take_0. cbn [app Nat.add]. f_equal.
  by destruct HData as [-> | ->].
Qed.

Lemma deref_head rp wp op ops n t : deref (MkM rp wp (op :: ops) n t) n = Some op.
Proof. unfold deref. cbn [popped pending]. by rewrite Nat.ltb_irrefl, Nat.sub_diag. Qed.

(** The next operation after the first one is done. *)
Definition ready (m : AXILManager) : Prop :=
  match pending m with
  | [] => r_idle (read_port m) ∧ w_idle (write_port m)
  | OpR _ :: _ => r_set (read_port m) (popped m) ∧ w_idle (write_port m)
  | OpW _ :: _ => r_idle (read_port m) ∧ w_set (write_port m) (popped m)
  end.

Lemma ports_set_op_spec m :
  r_idle (read_port m) → w_idle (write_port m) →
  ∃ m', ports_set_op m = Some m' ∧ ready m' ∧ pending m' = pending m ∧ popped m' = popped m ∧ step_on m' = step_on m ∧
    r_ready (read_port m') = r_ready (read_port m) ∧ b_ready (write_port m') = b_ready (write_port m).
Proof.
  intros Hr Hw. unfold ports_set_op, set_op_read, set_op_write, ready. pose proof Hr as (Hrc & ?). pose proof Hw as (Hwc & ?).
  destruct m as [rp wp [|[o|o] ops] n t]; cbn in *; rewrite ?Hrc, ?Hwc; (eexists; split; [done|]); cbn; unfold r_set, w_set; cbn; naive_solver.
Qed.

Lemma issue_spec m s a op :
  ports m s → Forall fresh (pending m) → fresh op → a mod Z.of_nat BytesData = 0 →
  ∃ m', issue m a op = Some m' ∧ ports m' s ∧ pending m' = pending m ++ [op] ∧ popped m' = popped m.
Proof.
  intros Hp Hf Hop Ha. unfold issue. rewrite Ha. cbn [negb Z.eqb].
  destruct (pending m) as [|op' ops] eqn:Ep.
  - unfold ports in Hp. rewrite Ep in Hp. destruct Hp as (Hr & Hw & Har & Haw & Hgw).
    edestruct (ports_set_op_spec (MkM (read_port m) (write_port m) ([] ++ [op]) (popped m) (step_on m))) as (m' & E & Hrd & Epd & Epp & _); [done..|].
    exists m'. split_and!; [done| |done|done]. unfold ports, ready in *. rewrite Epd in *. cbn [app pending] in *. destruct op; naive_solver.
  - eexists. split; [done|]. split_and!; [|done..]. unfold ports in *. cbn [pending read_port write_port popped app]. by rewrite Ep in Hp.
Qed.

(** The operation just set is driven. *)
Lemma read_issue_spec m s :
  ready m → got_ar s = None → got_aw s = None → got_w s = None →
  ∃ m', read_issue m = Some m' ∧ pending m' = pending m ∧ popped m' = popped m ∧ r_ready (read_port m') = r_ready (read_port m) ∧
    ports (MkM (read_apply (read_port m')) (write_port m') (pending m') (popped m') SRead) s ∧
    (∀ o ops, pending m = OpR o :: ops → r_handling_op (read_port m') = true).
Proof.
  intros H Hs1 Hs2 Hs3. unfold read_issue. destruct m as [rp wp [|[o|o] ops] n t]; unfold ready in H; cbn in H |- *;
    destruct H as [(Hc & Hh & Hv & Hvt) Hw]; rewrite Hc, Hh, ?deref_head; cbn; eexists; (split; [done|]);
    split_and!; try done; unfold ports; cbn; split_and!; try done.
  - right. unfold r_busy, driven. cbn. split_and!; [done..|]. by left.
  - by left.
Qed.

Lemma write_issue_spec m s :
  ready m → got_ar s = None → got_aw s = None → got_w s = None →
  ∃ m', write_issue m = Some m' ∧ pending m' = pending m ∧ popped m' = popped m ∧ b_ready (write_port m') = b_ready (write_port m) ∧
    ports (MkM (read_port m') (write_apply (write_port m')) (pending m') (popped m') SWrite) s ∧
    (∀ o ops, pending m = OpW o :: ops → w_handling_op (write_port m') = true).
Proof.
  intros H Hs1 Hs2 Hs3. unfold write_issue. destruct m as [rp wp [|[o|o] ops] n t]; unfold ready in H; cbn in H |- *;
    destruct H as [Hr (Hc & Hh & Hv & Hvt & Hw & Hwt)]; rewrite Hc, Hh, ?deref_head; cbn; eexists; (split; [done|]);
    split_and!; try done; unfold ports; cbn; split_and!; try done.
  - by left.
  - right. unfold w_busy, driven. cbn. split_and!; [done..| |]; by left.
Qed.

(** A clock edge while the write port, or the read port, is idle. *)
Lemma edge_read s c m m' :
  aw_valid (write_port m) = false → w_valid (write_port m) = false → got_aw s = None → got_w s = None →
  edge s c m m' =
  MkS (regs s) (if ar_valid (read_port m) && (c_ar c && absent (got_ar s)) then Some (ar_addr (read_port m))
                else if c_r c && negb (absent (got_ar s)) && r_ready (read_port m') then None else got_ar s) None None.
Proof.
  intros Ha Hw H2 H3. unfold edge, drive. cbn. rewrite Ha, Hw, H2, H3. cbn. by case_match.
Qed.

Lemma edge_idle s c m m' :
  ar_valid (read_port m) = false → aw_valid (write_port m) = false → w_valid (write_port m) = false →
  got_ar s = None → got_aw s = None → got_w s = None → edge s c m m' = s.
Proof.
  intros Hr Ha Hw H1 H2 H3. rewrite edge_read, Hr, H1 by done. cbn. rewrite andb_false_r. destruct s. cbn in *. congruence.
Qed.

(** How far the first operation is; every operation takes three cycles without delays. *)
Definition progress (m : AXILManager) : nat :=
  match pending m with
  | [] => 0
  | OpR _ :: _ => if r_handling_op (read_port m) then if ar_valid (read_port m) then 1 else 2 else 0
  | OpW _ :: _ =>
      if w_handling_op (write_port m) then if aw_valid (write_port m) || w_valid (write_port m) then 1 else 2 else 0
  end.

Definition work (m : AXILManager) : nat := 3 * length (pending m) - progress m.

Definition eager : choice := MkC true true true true true.

(** A cycle: the operations done are those executed, in order. *)
Definition cycle_ok (m m' : AXILManager) (s s' : subordinate) (done : list operation) : Prop :=
  ports m' s' ∧
  ((done = [] ∧ pending m' = pending m ∧ popped m' = popped m ∧ regs s' = regs s) ∨
   ∃ op ops op', pending m = op :: ops ∧ pending m' = ops ∧ popped m' = S (popped m) ∧
     exec_op (regs s) op = (regs s', op') ∧ done = [op']).

Lemma work_pos m op ops : pending m = op :: ops → (3 * length ops < work m ≤ 3 * S (length ops))%nat.
Proof. intros E. unfold work, progress. rewrite E. cbn [length]. destruct op; repeat case_match; lia. Qed.

Lemma clock_read m s c o ops :
  ports m s → pending m = OpR o :: ops → r_value o = 0 →
  ∃ m' done, step m (drive s c) = Some (m', done) ∧ cycle_ok m (step_apply m') s (edge s c m m') done ∧
    (c = eager → work (step_apply m') < work m)%nat.
Proof.
  intros Hp Ep Ho. unfold ports in Hp. rewrite Ep in Hp. destruct Hp as (Hw & Haw & Hgw & Hp).
  unfold step. rewrite Ep. destruct m as [rp wp pend n t]. cbn in Ep. subst pend. cbn [read_port write_port popped] in *.
  pose proof Hw as (_ & _ & Hwv1 & _ & Hwv2 & _). destruct Hp as [[(Hc & Hh & Hv & Hvt) Har]|(Hc & Hh & Hd)].
  - unfold read_port_step. cbn [read_port write_port pending popped step_on]. rewrite Hv. cbn [andb mbind option_bind].
    unfold read_data. cbn [read_port r_ready]. unfold drive at 1. rewrite Har. cbn [absent r_valid negb andb]. rewrite andb_false_r. cbn [mbind option_bind].
    edestruct (read_issue_spec (MkM (MkRP (ar_addr rp) (ar_valid rp) true (ar_valid_tmp rp) (ar_addr_tmp rp) (r_cur_op rp) (r_handling_op rp))
      wp (OpR o :: ops) n t) s) as (m' & E & Ep' & En' & _ & Hports & Hh'); [by split_and!|done..|].
    rewrite Hv in E. rewrite E. cbn [mbind option_bind]. eexists _, _. split; [done|]. rewrite edge_idle by done. split.
    + split; [exact Hports|]. left. by split_and!.
    + intros _. unfold work, progress. cbn in Ep' |- *. rewrite Ep', Hh, (Hh' _ _ eq_refl). case_match; cbn; lia.
  - unfold read_port_step. cbn [read_port write_port pending popped step_on]. rewrite Hc, Hh.
    destruct Hd as [(Hv & Hvt & Hx & Hxt & Hg)|(Hv & Hvt & Hg)]; rewrite Hv.
    + unfold drive. rewrite Hg, Haw, Hgw. cbn [absent negb ar_ready]. rewrite !andb_true_r, !andb_false_r. cbn [andb].
      destruct (c_ar c) eqn:Ec; cbn [mbind option_bind read_data read_port r_ready r_valid andb read_issue r_handling_op];
        eexists _, _; (split; [done|]); rewrite edge_read by done; cbn [read_port]; rewrite Hv, Ec, Hg; cbn [absent andb negb];
        rewrite ?andb_false_r; (split; [split; [|left; by split_and!]|]).
      * unfold ports, r_busy, driven. cbn. split_and!; try done. right. split_and!; try done. by rewrite Hx; right.
      * intros _. unfold work, progress. cbn. rewrite Hh, Hv. lia.
      * unfold ports, r_busy, driven. cbn. split_and!; try done. right. split_and!; try done. left. by rewrite Hvt, Hxt.
      * by intros ->.
    + unfold drive. rewrite Hg, Haw, Hgw. cbn [absent negb ar_ready default]. rewrite !andb_true_r, !andb_false_r. cbn [andb].
      unfold read_data. cbn [mbind option_bind read_port r_ready r_valid andb r_data r_cur_op].
      destruct (c_r c) eqn:Ec; cbn [mbind option_bind]; cycle 1.
      { unfold read_issue. cbn. eexists _, _. split; [done|]. rewrite edge_read by done. cbn. rewrite Hv, Ec, Hg. cbn.
        split; [split; [|left; by split_and!]|by intros ->]. unfold ports, r_busy, driven. cbn. split_and!; try done. right. split_and!; try done.
        right. by rewrite Hvt. }
      rewrite deref_head. cbn [mbind option_bind pending popped]. rewrite Nat.sub_diag. cbn [list_insert insert].
      rewrite store_data_spec by done. unfold op_done. cbn [pending read_port write_port popped step_on ar_addr ar_valid ar_valid_tmp ar_addr_tmp].
      edestruct (ports_set_op_spec (MkM (MkRP (ar_addr rp) false true (ar_valid_tmp rp) (ar_addr_tmp rp) None false) wp ops (S n) t))
        as (m1 & E1 & Hrd1 & Ep1 & En1 & _ & Err1 & _); [by rewrite Hvt|done|].
      rewrite E1. cbn [mbind option_bind].
      destruct (read_issue_spec m1 (MkS (regs s) None None None)) as (m2 & E2 & Ep2 & En2 & Err2 & Hports & _); [done..|].
      rewrite E2. cbn [mbind option_bind]. eexists _, _. split; [done|]. rewrite edge_read by done. cbn [read_port]. rewrite Hv, Ec, Hg, Err2, Err1. cbn [absent andb negb r_ready read_port].
      split.
      * split; [exact Hports|]. right. eexists _, _, _. split; [done|]. cbn. rewrite Ep2, Ep1, En2, En1. by split_and!.
      * intros _. unfold work, progress at 2. cbn. rewrite Ep2, Ep1, Hh, Hv. cbn. lia.
Qed.

(** A value is driven until it is taken. *)
Lemma driven_step n v vt x xt a got rdy :
  driven n v vt x xt a got →
  let t := v && (rdy && absent got) in
  let vt' := if t then false else vt in
  let xt' := if t then 0 else xt in
  driven n vt' vt' (low_bytes n xt') xt' a (if t then Some x else got) ∧ (rdy = true → vt' = false).
Proof.
  unfold driven. intros [(-> & -> & -> & -> & ->)|(-> & -> & ->)]; cbn; [|naive_solver].
  rewrite andb_true_r. destruct rdy; naive_solver.
Qed.

Lemma edge_write s c m m' :
  ar_valid (read_port m) = false → got_ar s = None → b_ready (write_port m') = true →
  edge s c m m' =
  match c_b c, got_aw s, got_w s with
  | true, Some a, Some d => MkS (<[a := d]> (regs s)) None None None
  | _, _, _ =>
      MkS (regs s) None
        (if aw_valid (write_port m) && (c_aw c && absent (got_aw s)) then Some (aw_addr (write_port m)) else got_aw s)
        (if w_valid (write_port m) && (c_w c && absent (got_w s)) then Some (w_data (write_port m)) else got_w s)
  end.
Proof.
  intros Hr Hg Hb. unfold edge, drive. cbn. rewrite Hr, Hb, Hg. cbn.
  destruct (c_b c), (got_aw s), (got_w s); cbn; rewrite ?andb_false_r; done.
Qed.

(** A write whose response does not come in this cycle. *)
Lemma clock_write_wait rp wp ops n t s c o :
  r_idle rp → got_ar s = None → w_busy wp n o s → b_valid (drive s c) = false →
  let m := MkM rp wp (OpW o :: ops) n t in
  ∃ m', step m (drive s c) = Some (m', []) ∧ cycle_ok m (step_apply m') s (edge s c m m') [] ∧
    (c = eager → work (step_apply m') < work m)%nat.
Proof.
  intros Hr Hg (Hc & Hh & Ha & Hw) Hb m. unfold step, m. cbn [pending]. unfold write_port_step, write_response.
  cbn [read_port write_port pending popped step_on write_taken b_ready]. rewrite Hb. cbn [andb mbind option_bind].
  unfold write_issue. cbn [write_port write_taken w_handling_op w_cur_op]. rewrite Hh. cbn [mbind option_bind].
  eexists. split; [done|]. rewrite edge_write by (apply Hr || done). cbn [write_port].
  assert (c_b c = true → aw_valid wp || w_valid wp = true) as Hv.
  { intros Ec. cbn in Hb. destruct Ha as [(-> & _)|(_ & _ & Ea)], Hw as [(-> & _)|(_ & _ & Ew)]; try by rewrite ?orb_true_r.
    by rewrite Ea, Ew, Ec in Hb. }
  apply (driven_step _ _ _ _ _ _ _ (c_aw c)) in Ha as [Ha Ha']. apply (driven_step _ _ _ _ _ _ _ (c_w c)) in Hw as [Hw Hw'].
  assert (match c_b c, got_aw s, got_w s with true, Some _, Some _ => False | _, _, _ => True end) as Hnb.
  { cbn in Hb. destruct (c_b c), (got_aw s), (got_w s); done. }
  set (s' := match c_b c with true => _ | false => _ end).
  assert (s' = MkS (regs s) None
        (if aw_valid wp && (c_aw c && absent (got_aw s)) then Some (aw_addr wp) else got_aw s)
        (if w_valid wp && (c_w c && absent (got_w s)) then Some (w_data wp) else got_w s)) as ->
    by (unfold s'; destruct (c_b c), (got_aw s), (got_w s); done).
  split.
  - split; [|left; by split_and!]. unfold ports. cbn. split_and!; [done..|]. right.
    unfold w_busy. cbn. rewrite Hc, (andb_comm _ (w_valid wp)). by split_and!.
  - intros ->. unfold work, progress. cbn. rewrite Hh. rewrite (andb_comm _ (w_valid wp)). cbn in Ha', Hw'. rewrite Ha', Hw' by done. cbn.
    rewrite Hv by done. lia.
Qed.

Lemma clock_write m s c o ops :
  ports m s → pending m = OpW o :: ops →
  ∃ m' done, step m (drive s c) = Some (m', done) ∧ cycle_ok m (step_apply m') s (edge s c m m') done ∧
    (c = eager → work (step_apply m') < work m)%nat.
Proof.
  intros Hp Ep. unfold ports in Hp. rewrite Ep in Hp. destruct Hp as (Hr & Har & Hp).
  destruct m as [rp wp pend n t]. cbn in Ep. subst pend. cbn [read_port write_port popped] in *. pose proof Hr as (_ & _ & Hrv & _).
  destruct Hp as [((Hc & Hh & Hv1 & Hvt1 & Hv2 & Hvt2) & Haw & Hgw)|Hb].
  - unfold step. cbn [pending]. unfold write_port_step, write_response. cbn [read_port write_port pending popped step_on write_taken b_ready].
    unfold drive at 1. rewrite Haw, Hgw. cbn [b_valid absent negb]. rewrite !andb_false_r. cbn [andb mbind option_bind].
    edestruct (write_issue_spec (MkM rp (write_taken wp (drive s c)) (OpW o :: ops) n t) s) as (m' & E & Ep' & En' & _ & Hports & Hh'); [|done..|].
    { split; [done|]. unfold w_set. cbn. rewrite Hv1, Hv2, andb_false_r, Hvt1, Hvt2. by split_and!. }
    rewrite E. cbn [mbind option_bind]. eexists _, _. split; [done|]. rewrite edge_idle by done. split.
    + split; [exact Hports|]. left. by split_and!.
    + intros _. unfold work, progress. cbn in Ep' |- *. rewrite Ep', Hh, (Hh' _ _ eq_refl). case_match; cbn; lia.
  - destruct (b_valid (drive s c)) eqn:Eb; [|destruct (clock_write_wait rp wp ops n t s c o) as (m' & ? & ? & ?); [done..|]; by exists m', []].
    destruct Hb as (Hc & Hh & Ha & Hw).
    destruct Ha as [(_ & _ & _ & _ & Ga)|(Hv1 & Hvt1 & Ga)]; [cbn in Eb; rewrite Ga, andb_false_r in Eb; done|].
    destruct Hw as [(_ & _ & _ & _ & Gw)|(Hv2 & Hvt2 & Gw)]; [cbn in Eb; rewrite Gw, andb_false_r in Eb; done|].
    assert (c_b c = true) as Ec by (cbn in Eb; destruct (c_b c); done).
    assert (write_taken wp (drive s c) = MkWP (aw_addr wp) false (w_data wp) false true (aw_valid_tmp wp) (aw_addr_tmp wp)
      (w_valid_tmp wp) (w_data_tmp wp) (w_cur_op wp) (w_handling_op wp)) as Et by (unfold write_taken; by rewrite Hv1, Hv2, andb_false_r).
    unfold step. cbn [pending]. unfold write_port_step, write_response. cbn [read_port write_port pending popped step_on].
    rewrite Et. cbn [b_ready]. rewrite Eb. cbn [andb]. unfold op_done.
    cbn [read_port write_port pending popped step_on aw_addr aw_valid w_data w_valid aw_valid_tmp aw_addr_tmp w_valid_tmp w_data_tmp].
    edestruct (ports_set_op_spec (MkM rp (MkWP (aw_addr wp) false (w_data wp) false true (aw_valid_tmp wp) (aw_addr_tmp wp)
      (w_valid_tmp wp) (w_data_tmp wp) None false) ops (S n) t)) as (m1 & E1 & Hrd1 & Ep1 & En1 & _ & _ & Ebr1); [done|by rewrite Hvt1, Hvt2|].
    rewrite E1. cbn [mbind option_bind].
    destruct (write_issue_spec m1 (MkS (<[low_bytes BytesAddr (w_addr o) := low_bytes BytesData (w_value o)]> (regs s)) None None None))
      as (m2 & E2 & Ep2 & En2 & Ebr2 & Hports & _); [done..|].
    rewrite E2. cbn [mbind option_bind]. eexists _, _. split; [done|].
    rewrite edge_write by (done || cbn; by rewrite Ebr2, Ebr1). rewrite Ec, Ga, Gw. split.
    + split; [exact Hports|]. right. eexists _, _, _. split; [done|]. cbn. rewrite Ep2, Ep1, En2, En1. by split_and!.
    + intros _. unfold work, progress at 2. cbn. rewrite Ep2, Ep1, Hh, Hv1, Hv2. cbn. lia.
Qed.

Lemma clock_inv mem y c :
  inv mem y →
  ∃ y', sys_step y (Clock c) = Some y' ∧ inv mem y' ∧ issued y' = issued y ∧
    (c = eager → pending (mgr y) ≠ [] → work (mgr y') < work (mgr y))%nat.
Proof.
  intros [Hp Hf (past & Ei & Epop & Ex)]. cbn [sys_step].
  assert (∃ m' done, step (mgr y) (drive (sub y) c) = Some (m', done) ∧
    cycle_ok (mgr y) (step_apply m') (sub y) (edge (sub y) c (mgr y) m') done ∧
    (c = eager → pending (mgr y) ≠ [] → work (step_apply m') < work (mgr y))%nat) as (m' & dn & -> & [Hp' Hc] & Hwork).
  { destruct (pending (mgr y)) as [|[o|o] ops] eqn:Ep.
    - unfold step. rewrite Ep. exists (mgr y), []. split; [done|]. unfold ports in Hp. rewrite Ep in Hp.
      destruct Hp as ((Hr0 & Hr1 & Hr2 & Hr3) & (Hw0 & Hw1 & Hw2 & Hw3 & Hw4 & Hw5) & H1 & H2 & H3). rewrite edge_idle by done. split; [|done]. split.
      + unfold ports, step_apply. destruct (step_on (mgr y)); cbn; rewrite Ep; by split_and!.
      + left. unfold step_apply. by destruct (step_on (mgr y)).
    - apply Forall_cons in Hf as [Ho _]. edestruct (clock_read (mgr y)) as (m' & dn & ? & ? & ?); [done..|]. exists m', dn. naive_solver.
    - edestruct (clock_write (mgr y)) as (m' & dn & ? & ? & ?); [done..|]. exists m', dn. naive_solver. }
  cbn [mbind option_bind]. eexists. split; [done|]. split; [|done]. constructor; cbn [mgr sub issued results]; [done| |].
  - destruct Hc as [(_ & -> & _)|(op & ops & op' & Ep & -> & _)]; [done|]. rewrite Ep in Hf. by apply Forall_cons in Hf as [_ ?].
  - destruct Hc as [(-> & -> & -> & ->)|(op & ops & op' & Ep & -> & -> & Eop & ->)]; [exists past; by rewrite app_nil_r|].
    exists (past ++ [op]). rewrite <- app_assoc, length_app, exec_snoc, Ex. cbn. rewrite Eop, Epop. split_and!; [by rewrite Ei, Ep|lia|done].
Qed.

(** The host issues operations at aligned addresses. *)
Definition aligned (e : event) : Prop :=
  match e with
  | IssueR _ a | IssueW _ a _ _ => a mod Z.of_nat BytesData = 0
  | Clock _ => True
  end.

(** The operation an event issues. *)
Definition issues (e : event) : list operation :=
  match e with
  | IssueR req_id a => [OpR (MkR a req_id 0)]
  | IssueW req_id a d post => [OpW (MkW a req_id d post)]
  | Clock _ => []
  end.

Lemma issue_inv mem y a op :
  inv mem y → fresh op → a mod Z.of_nat BytesData = 0 →
  ∃ m, issue (mgr y) a op = Some m ∧ inv mem (MkSys m (sub y) (issued y ++ [op]) (results y)).
Proof.
  intros [Hp Hf (past & Ei & Epop & Ex)] Hop Ha.
  destruct (issue_spec _ _ a op Hp Hf Hop Ha) as (m & E & Hp' & Epd & Epp). exists m. split; [done|].
  constructor; cbn; [done| |].
  - rewrite Epd. apply Forall_app. split; [done|by constructor].
  - exists past. by rewrite Epd, Epp, Ei, app_assoc.
Qed.

Lemma axil_step_inv mem y e :
  inv mem y → aligned e → ∃ y', sys_step y e = Some y' ∧ inv mem y' ∧ issued y' = issued y ++ issues e.
Proof.
  intros H Ha. destruct e as [req_id a|req_id a d post|c]; cbn [sys_step issues].
  - destruct (issue_inv mem y a (OpR (MkR a req_id 0)) H) as (m & E & H'); [done..|].
    unfold issue_read. rewrite E. cbn [mbind option_bind]. by eexists.
  - destruct (issue_inv mem y a (OpW (MkW a req_id d post)) H) as (m & E & H'); [done..|].
    unfold issue_write. rewrite E. cbn [mbind option_bind]. by eexists.
  - destruct (clock_inv mem y c H) as (y' & E & H' & Hi & _). exists y'. by rewrite app_nil_r.
Qed.

Lemma axil_run_inv mem es : ∀ y,
  inv mem y → Forall aligned es → ∃ y', sys_run y es = Some y' ∧ inv mem y' ∧ issued y' = issued y ++ (es ≫= issues).
Proof.
  induction es as [|e es IH]; intros y H Ha; [exists y; by rewrite app_nil_r|]. apply Forall_cons in Ha as [Hae Has]. cbn [sys_run].
  destruct (axil_step_inv mem y e H Hae) as (y1 & E1 & H1 & I1). rewrite E1. cbn [mbind option_bind].
  destruct (IH y1 H1 Has) as (y2 & E2 & H2 & I2). exists y2. split_and!; [done..|]. rewrite I2, I1. cbn. by rewrite app_assoc.
Qed.

Lemma axil_drain mem N : ∀ y,
  inv mem y → (work (mgr y) ≤ N)%nat →
  ∃ m y', sys_run y (replicate m (Clock eager)) = Some y' ∧ (m ≤ N)%nat ∧ inv mem y' ∧ issued y' = issued y ∧ pending (mgr y') = [].
Proof.
  induction N as [|N IH]; intros y H Hw; (destruct (pending (mgr y)) as [|op ops] eqn:Ep; [by exists 0%nat, y; split_and!; [|lia|..]|]).
  - pose proof (work_pos _ _ _ Ep). lia.
  - destruct (clock_inv mem y eager H) as (y1 & E1 & H1 & I1 & Hlt). specialize (Hlt eq_refl ltac:(by rewrite Ep)).
    destruct (IH y1 H1 ltac:(lia)) as (m & y2 & E2 & Hm & H2 & I2 & Ep2). exists (S m), y2. cbn [replicate sys_run]. rewrite E1. cbn [mbind option_bind].
    split_and!; [done|lia|done|congruence|done].
Qed.

Lemma new_axil_inv mem : inv mem (new_sys mem).
Proof. constructor; cbn; [|done|by exists []]. unfold ports, r_idle, w_idle. cbn. by split_and!. Qed.

(** C29: The AXI-Lite manager refines operations executed at once.  The host issues reads and writes
    at aligned addresses, and the subordinate delays its handshakes, in any way.  Then no
    assertion fails and no exception is thrown; the operations completed so far are the first of
    those issued, with the results, and with the effect on the registers, of executing them one
    after the other; and with a subordinate that stops delaying, all operations are completed
    within three cycles each. *)
Theorem axil_refines mem es :
  Forall aligned es →
  ∃ y n, sys_run (new_sys mem) es = Some y ∧
    exec mem (take n (es ≫= issues)) = (regs (sub y), results y) ∧
    ∃ m y', (m ≤ 3 * length (es ≫= issues))%nat ∧ sys_run y (replicate m (Clock eager)) = Some y' ∧
      exec mem (es ≫= issues) = (regs (sub y'), results y').
Proof.
  intros Ha. destruct (axil_run_inv mem es _ (new_axil_inv mem) Ha) as (y & E & H & Hi). cbn in Hi.
  destruct (iv_issued _ _ H) as (past & Ei & _ & Ex).
  exists y, (length past). rewrite <- Hi. split_and!; [done|by rewrite Ei, take_app_length|].
  destruct (axil_drain mem (work (mgr y)) y H (le_n _)) as (m & y' & Er & Hm & H' & Ii & Ep). exists m, y'.
  split_and!; [|done|].
  - rewrite Ei, length_app. unfold work in Hm. lia.
  - destruct (iv_issued _ _ H') as (past' & Ei' & _ & Ex'). rewrite Ep, app_nil_r in Ei'. by rewrite <- Ii, Ei'.
Qed.

End axil.

(** A write and a read of the same register, with a slow subordinate. *)
Definition slow : choice := MkC false false true false false.
Definition demo : list event :=
  [IssueW 1 8 77 false; IssueR 2 8; Clock slow; Clock slow; Clock slow; Clock eager; Clock eager].

Lemma axil_refines_witness :
  Forall (aligned 4) demo ∧
  ∃ y n, sys_run 8 4 (new_sys ∅) demo = Some y ∧
    exec 8 4 ∅ (take n (demo ≫= issues)) = (regs (sub y), results y) ∧
    ∃ m y', (m ≤ 3 * length (demo ≫= issues))%nat ∧ sys_run 8 4 y (replicate m (Clock eager)) = Some y' ∧
      exec 8 4 ∅ (demo ≫= issues) = (regs (sub y'), results y').
Proof.
  assert (Forall (aligned 4) demo) as H by (repeat constructor).
  split; [exact H|]. apply (axil_refines 8 4 ltac:(by left) ∅ demo H).
Defined.

Example demo_results :
  results <$> sys_run 8 4 (new_sys ∅) (demo ++ replicate 4 (Clock eager)) = Some [OpW (MkW 8 1 77 false); OpR (MkR 8 2 77)].
Proof. by vm_compute. Qed.

End axil.
