(* ===== verification/DistSock.v ===== *)
(** * Proxies between machines: messages on the socket (dist/sockets/net_sockets.c)

    The two proxies are connected by a TCP stream.  [SockSend] writes a message in as many pieces
    as the kernel takes; [SockEvent] reads what has arrived and handles the messages that are
    complete.  Whatever the pieces, the messages are handled whole, in order and each once -- if
    they are at least as long as [struct SockMsg]: a shorter one waits for bytes of the next. *)

From S2P Require Import Prelude.

Module sock.

Definition RXBUF_SIZE : Z := 1024 * 1024.

(** [sizeof(struct SockMsg)]: a header of four words, and the report for 32 peers. *)
Definition sizeof_SockMsg : nat := 4 * 4 + 32 * (4 + 4 + 1).

(** [msg_len] of the message at the start of a buffer. *)
Definition msg_len (b : bytes) : nat := Z.to_nat (field b 4 4).

(** ** Sending *)

(** What a call of [write] on the non-blocking socket can do. *)
Inductive write_result := Wrote (n : nat) | WriteAgain | WriteFailed.

(** The loop of [SockSend]: what is left of the message, and the results of the calls; the bytes
    put on the stream, and whether 0 is returned.  [None]: the calls do not suffice. *)
Fixpoint SockSend (msg : bytes) (ws : list write_result) : option (bytes * bool) :=
  match ws with
  | [] => None
  | Wrote 0 :: _ => Some ([], false)
  | Wrote n :: ws =>
      match drop n msg with
      | [] => Some (take n msg, true)
      | rest => '(out, ok) ← SockSend rest ws; Some (take n msg ++ out, ok)
      end
  | WriteAgain :: ws => SockSend msg ws
  | WriteFailed :: _ => Some ([], false)
  end.

(** ** Receiving *)

Section receive.
Context {St : Type} (SockMsgRx : St → bytes → option St).

(** The loop of [SockEvent].  [None]: a message was not handled, or its length is zero and the
    loop does not end. *)
Fixpoint rx_loop (fuel : nat) (st : St) (buf : bytes) : option (St * bytes) :=
  if (sizeof_SockMsg <=? length buf)%nat && (msg_len buf <=? length buf)%nat then
    match fuel with
    | O => None
    | S fuel =>
        st ← SockMsgRx st (take (msg_len buf) buf);
        rx_loop fuel st (drop (msg_len buf) buf)
    end
  else Some (st, buf).

(** [SockEvent], for a read that gives [data]; an empty read is the end of the stream. *)
Definition SockEvent (st : St) (rx_buffer data : bytes) : option (St * bytes) :=
  match data with
  | [] => None
  | _ => let buf := rx_buffer ++ data in rx_loop (length buf) st buf
  end.

(** Events while bytes are there to be read; at event [k] up to [k + 1] of them have arrived, and
    [read] gives at most what the buffer has room for. *)
Fixpoint sock_events (ks : list nat) (st : St) (buf stream : bytes) : option (St * bytes * bytes) :=
  match ks, stream with
  | [], _ | _, [] => Some (st, buf, stream)
  | k :: ks, _ =>
      let m := Z.to_nat (Z.of_nat (S k) `min` (RXBUF_SIZE - Z.of_nat (length buf))) in
      '(st, buf) ← SockEvent st buf (take m stream);
      sock_events ks st buf (drop m stream)
  end.

(** ** Properties *)

(** A message as its sender makes it, of [sizeof_SockMsg] bytes or more. *)
Definition framed (m : bytes) : Prop := msg_len m = length m ∧ (sizeof_SockMsg ≤ length m)%nat ∧ Z.of_nat (length m) ≤ RXBUF_SIZE.

Fixpoint handle (st : St) (ms : list bytes) : option St :=
  match ms with [] => Some st | m :: ms => st ← SockMsgRx st m; handle st ms end.

Lemma msg_len_app m b : (8 ≤ length m)%nat → msg_len (m ++ b) = msg_len m.
Proof.
  intros H. unfold msg_len, field, slice. f_equal. rewrite drop_app_le by lia. rewrite take_app_le by (rewrite length_drop; lia). done.
Qed.

Lemma msg_len_prefix (m b : bytes) : b `prefix_of` m → (8 ≤ length b)%nat → msg_len b = msg_len m.
Proof. intros [k ->] H. by rewrite msg_len_app. Qed.

(** The buffer never starts with more than the messages on the way. *)
Lemma rx_loop_spec ms : ∀ fuel st buf rest,
  Forall framed ms → buf ++ rest = concat ms → (length buf ≤ fuel)%nat → is_Some (handle st ms) →
  ∃ i st' buf', rx_loop fuel st buf = Some (st', buf') ∧ handle st (take i ms) = Some st' ∧ buf' ++ rest = concat (drop i ms) ∧
    is_Some (handle st' (drop i ms)) ∧ Z.of_nat (length buf') < RXBUF_SIZE ∧ (rest = [] → i = length ms ∧ buf' = []).
Proof.
  induction ms as [|m ms IH]; intros fuel st buf rest Hms Hbuf Hfuel Hh.
  { cbn in Hbuf. apply app_nil in Hbuf as [-> ->]. exists 0%nat, st, []. destruct fuel; cbn; split_and!; done. }
  apply Forall_cons in Hms as [(Hlen & Hm & Hmax) Hms]. cbn [concat] in Hbuf. unfold sizeof_SockMsg in Hm.
  destruct (decide (length m ≤ length buf)%nat) as [Hc|Hc].
  - (* the first message is complete *)
    assert (∃ b, buf = m ++ b ∧ b ++ rest = concat ms) as (b & -> & Hb).
    { exists (drop (length m) buf). assert (m = take (length m) buf) as Em.
      { pose proof (f_equal (take (length m)) Hbuf) as Et. by rewrite take_app_le, take_app_length in Et by done. }
      split; [by rewrite Em at 1; rewrite take_drop|]. pose proof (f_equal (drop (length m)) Hbuf) as Et.
      by rewrite drop_app_le, drop_app_length in Et by done. }
    rewrite length_app in Hfuel. destruct fuel as [|fuel]; [lia|]. destruct Hh as [stn Hh]. cbn [handle] in Hh.
    destruct (SockMsgRx st m) as [st1|] eqn:E1; [|done]. cbn in Hh.
    destruct (IH fuel st1 b rest Hms Hb) as (i & st' & buf' & E & Hi & Hrest); [lia|by exists stn|].
    exists (S i), st', buf'. split; [|split; [cbn; by rewrite E1|]].
    + cbn [rx_loop]. rewrite msg_len_app, Hlen by lia. rewrite !(proj2 (Nat.leb_le _ _)) by (rewrite length_app; unfold sizeof_SockMsg; lia). cbn [andb].
      rewrite take_app_length, drop_app_length, E1. cbn [mbind option_bind]. exact E.
    + cbn [drop length]. destruct Hrest as (? & ? & ? & He). split_and!; try done. intros Hr. destruct (He Hr) as [-> ?]. done.
  - (* it is not *)
    exists 0%nat, st, buf. split; [|split_and!; try done; [lia|]].
    + destruct fuel; cbn [rx_loop]; (destruct (Nat.leb_spec sizeof_SockMsg (length buf)) as [H8|]; [|done]); unfold sizeof_SockMsg in H8.
      all: assert (buf `prefix_of` m) as Hp by (exists (drop (length buf) m); rewrite <- (take_app_length buf rest), Hbuf at 1; rewrite take_app_le, take_drop by lia; done).
      all: rewrite (msg_len_prefix m buf Hp), Hlen by lia; by rewrite (proj2 (Nat.leb_gt _ _)) by lia.
    + intros ->. exfalso. rewrite app_nil_r in Hbuf. subst buf. rewrite length_app in Hc. lia.
Qed.

Lemma handle_app st ms ms' : handle st (ms ++ ms') = (st ← handle st ms; handle st ms').
Proof. revert st. induction ms as [|m ms IH]; intros st; cbn; [done|]. destruct (SockMsgRx st m); cbn; [apply IH|done]. Qed.

(** Every event reads at least a byte, and the messages handled are the first ones. *)
Lemma sock_events_spec ks : ∀ st buf stream ms,
  Forall framed ms → buf ++ stream = concat ms → is_Some (handle st ms) → Z.of_nat (length buf) < RXBUF_SIZE →
  (stream = [] → ms = []) → (length stream ≤ length ks)%nat → ∃ st', sock_events ks st buf stream = Some (st', [], []) ∧ handle st ms = Some st'.
Proof.
  induction ks as [|k ks IH]; intros st buf stream ms Hms Hbuf Hh Hroom Hend Hk.
  { destruct stream; [|cbn in Hk; lia]. rewrite (Hend eq_refl) in *. cbn in Hbuf. rewrite app_nil_r in Hbuf. subst. by exists st. }
  destruct stream as [|x stream'] eqn:Es.
  { rewrite (Hend eq_refl) in *. cbn in Hbuf. rewrite app_nil_r in Hbuf. subst. by exists st. }
  cbn [sock_events]. set (m := Z.to_nat _). assert (1 ≤ m)%nat as Hm by (unfold m; lia). rewrite <- Es in *.
  assert (∃ y d, take m stream = y :: d) as (y & d & Ed) by (rewrite Es; destruct m; [lia|]; cbn; by eexists _, _).
  unfold SockEvent. rewrite Ed, <- Ed.
  destruct (rx_loop_spec ms (length (buf ++ take m stream)) st (buf ++ take m stream) (drop m stream)) as (i & st' & buf' & -> & Hi & Hb & Hh' & Hr & He); try done.
  { by rewrite <- app_assoc, take_drop. }
  cbn [mbind option_bind]. destruct (IH st' buf' (drop m stream) (drop i ms)) as (st2 & -> & H2); try done.
  - by apply Forall_drop.
  - intros Hd. destruct (He Hd) as [-> _]. by rewrite drop_all.
  - rewrite length_drop. rewrite Es in *. cbn in *. lia.
  - exists st2. split; [done|]. rewrite <- (take_drop i ms), handle_app, Hi. done.
Qed.

(** A message shorter than [struct SockMsg] is not handled when it has arrived. *)
Lemma short_message_waits st m : m ≠ [] → (length m < sizeof_SockMsg)%nat → SockEvent st [] m = Some (st, m).
Proof.
  intros Hne Hlen. unfold SockEvent. destruct m as [|x m]; [done|]. cbn [app]. cbn [length] in *. cbn [rx_loop length].
  by rewrite (proj2 (Nat.leb_gt _ _)) by done.
Qed.

(** [SockSend] that returns 0 has sent the message, and it returns as soon as the socket took it. *)
Lemma send_whole ws : ∀ m out, SockSend m ws = Some (out, true) → out = m.
Proof.
  induction ws as [|[[|n]| |] ws IH]; intros m out; cbn [SockSend]; try done; [|apply IH].
  destruct (drop (S n) m) as [|x r] eqn:E; [intros [= <-]|].
  - rewrite <- (take_drop (S n) m) at 2. by rewrite E, app_nil_r.
  - destruct (SockSend (x :: r) ws) as [[o b]|] eqn:Er; [|done]. cbn. intros [= <- ->]. apply IH in Er as ->. by rewrite <- E, take_drop.
Qed.

Lemma send_returns ws : ∀ m,
  m ≠ [] → (length m ≤ length ws)%nat → Forall (λ w, ∃ n, w = Wrote (S n)) ws → SockSend m ws = Some (m, true).
Proof.
  induction ws as [|w ws IH]; intros m Hm Hl Hw; [destruct m; [done|cbn in Hl; lia]|]. apply Forall_cons in Hw as [[n ->] Hw]. cbn [SockSend].
  destruct (drop (S n) m) as [|x r] eqn:E.
  - rewrite <- (take_drop (S n) m) at 2. by rewrite E, app_nil_r.
  - rewrite IH; try done; [cbn; by rewrite <- E, take_drop|]. rewrite <- E, length_drop. cbn in Hl. lia.
Qed.

(** C27: Messages arrive whole.  Messages sent one after the other with [SockSend], in whatever
    pieces the socket takes them, and read in whatever pieces they arrive, are handled by
    [SockEvent] in the order they were sent, each once, and nothing stays in the buffer -- for
    messages of at least [sizeof(struct SockMsg)] bytes that fit the receive buffer. *)
Theorem sock_delivers (sends : list (bytes * list write_result)) (outs : list bytes) (ks : list nat) (st st' : St) :
  Forall framed (sends.*1) → Forall2 (λ s o, SockSend s.1 s.2 = Some (o, true)) sends outs →
  (length (concat outs) ≤ length ks)%nat → handle st (sends.*1) = Some st' →
  sock_events ks st [] (concat outs) = Some (st', [], []).
Proof.
  intros Hf Hs Hk Hh. assert (outs = sends.*1) as ->.
  { clear -Hs. induction Hs as [|[m ws] o sends outs Ho _ IH]; [done|]. cbn in *. apply send_whole in Ho as ->. by rewrite <- IH. }
  destruct (sock_events_spec ks st [] (concat sends.*1) (sends.*1)) as (st2 & E & H2); try done; [|congruence].
  intros Hc. destruct sends as [|[m ws] sends]; [done|]. cbn in *. apply Forall_cons in Hf as [(_ & Hm & _) _]. apply app_nil in Hc as [-> _].
  cbn in Hm. unfold sizeof_SockMsg in Hm. lia.
Qed.

End receive.

(** ** Examples *)

(** A report without contents. *)
Definition demo_report : bytes := le 4 1 ++ le 4 304 ++ le 4 7 ++ le 4 0 ++ replicate 288 0.

(** An entries message with one entry of 64 bytes is 88 bytes long: it is not handled before more
    than two hundred bytes of other messages follow. *)
Definition demo_entry : bytes := le 4 2 ++ le 4 88 ++ le 4 7 ++ le 4 0 ++ le 4 1 ++ le 4 0 ++ replicate 64 128.

Lemma one_entry_waits {St} (rx : St → bytes → option St) st :
  Z.of_nat (msg_len demo_entry) = Z.of_nat (length demo_entry) ∧ SockEvent rx st [] demo_entry = Some (st, demo_entry).
Proof. split; [by vm_compute|]. apply short_message_waits; [done|]. apply Nat.ltb_lt. by vm_compute. Qed.

Lemma sock_delivers_witness :
  sock_events (λ n m, Some (n + length m)%nat) (replicate 608 10%nat) 0%nat [] (concat [demo_report; demo_report]) = Some (608%nat, [], []).
Proof.
  apply (sock_delivers (λ n m, Some (n + length m)%nat) [(demo_report, [Wrote 100; WriteAgain; Wrote 300]); (demo_report, [Wrote 304])]).
  - assert (framed demo_report) as Hf; [|repeat constructor; apply Hf].
    split; [by vm_compute|]. split; [apply Nat.leb_le; by vm_compute|]. apply Z.leb_le. by vm_compute.
  - repeat constructor; by vm_compute.
  - apply Nat.leb_le. by vm_compute.
  - by vm_compute.
Defined.

End sock.
