(* ===== verification/DistSetup.v ===== *)
(** * Proxies between machines: connection set-up (dist/common/base.c, dist/sockets/net_sockets.c)

    Before entries flow, the two simulators of a peer exchange their intros through the proxies.
    On one machine the simulator listens and the proxy connects to it, on the other the proxy
    listens and makes the rings, in its own shared memory, that the listening simulator made on
    its machine: it replaces the offsets in the intro it passes on.

    The functions that handle a connection, an intro from a simulator and one from the other
    proxy; and two proxies with any number of peers, whatever the order of these events.  System
    calls succeed, unless the simulator's message is empty. *)

From S2P Require Import Prelude.

Module proxy_setup.

(** ** State *)

(** [sizeof(peer->intro_local)] *)
Definition INTRO_BUF : nat := 2048.

(** A ring in shared memory. *)
Record ring := MkRing { r_offset : Z; r_elen : Z; r_enum : Z }.
Definition no_ring : ring := MkRing 0 0 0.

(** An intro that has been received: the buffer, and its length. *)
Record intro := MkIntro { buf : bytes; len : nat }.

(** [struct Peer], the part that set-up uses; [connected] is [sock_fd != -1]. *)
Record Peer := MkPeer {
  is_listener : bool;
  connected : bool;
  local : ring;
  cleanup : ring;
  intro_local : option intro;
  intro_remote : option intro;
  ready : bool;
}.

(** [BasePeerAdd], and for a peer that does not listen [BaseConnect]. *)
Definition BasePeerAdd (listener : bool) : Peer := MkPeer listener (negb listener) no_ring no_ring None None false.

(** A [kMsgIntro] message. *)
Record IntroMsg := MkIntroMsg { im_id : Z; im_len : Z; payload_len : Z; im_data : bytes }.

Definition sizeof_SockMsg : Z := 304.
(** [offsetof(struct SockMsg, intro.data)] *)
Definition intro_data : Z := 20.

(** ** Operations *)

(** Fields of [SimbricksProtoListenerIntro]. *)
Definition l2c_elen (b : bytes) : Z := field b 24 8.
Definition l2c_nentries (b : bytes) : Z := field b 32 8.
Definition c2l_elen (b : bytes) : Z := field b 48 8.
Definition c2l_nentries (b : bytes) : Z := field b 56 8.
Definition l2c_offset (b : bytes) : Z := field b 16 8.
Definition c2l_offset (b : bytes) : Z := field b 40 8.

(** A message copied to the start of a zeroed buffer. *)
Definition intro_of (d : bytes) : intro := MkIntro (d ++ replicate (INTRO_BUF - length d) 0) (length d).

(** [ShmAlloc]: the next free offset, and the offset of the memory. *)
Definition ShmAlloc (shm_size shm_alloc_off size : Z) : option (Z * Z) :=
  if shm_size <? u64 (shm_alloc_off + size) then None
  else Some (u64 (shm_alloc_off + size), shm_alloc_off).

(** [BasePeerSetupQueues], once the intro of the other side is there. *)
Definition BasePeerSetupQueues (shm_size off : Z) (p : Peer) (i : intro) : option (Z * Peer) :=
  if negb (is_listener p) then Some (off, p)
  else
    let b := buf i in
    '(off, o1) ← ShmAlloc shm_size off (u64 (l2c_elen b * l2c_nentries b));
    let b := patch b 16 (le 8 o1) in
    '(off, o2) ← ShmAlloc shm_size off (u64 (c2l_elen b * c2l_nentries b));
    let b := patch b 40 (le 8 o2) in
    Some (off, MkPeer (is_listener p) (connected p)
                 (MkRing (c2l_offset b) (u32 (c2l_elen b)) (u32 (c2l_nentries b)))
                 (MkRing (l2c_offset b) (u32 (l2c_elen b)) (u32 (l2c_nentries b)))
                 (intro_local p) (Some (MkIntro b (len i))) (ready p)).

(** [BasePeerSendIntro]: what the simulator is sent. *)
Definition BasePeerSendIntro (p : Peer) : list bytes :=
  if connected p then match intro_remote p with Some i => [take (len i) (buf i)] | None => [] end else [].

(** [BaseOpPassIntro] *)
Definition BaseOpPassIntro (id : Z) (i : intro) : IntroMsg :=
  MkIntroMsg id (Z.max (u32 (intro_data + Z.of_nat (len i))) sizeof_SockMsg) (Z.of_nat (len i)) (take (len i) (buf i)).

(** [PeerAcceptEvent] *)
Definition PeerAcceptEvent (p : Peer) : Peer * list bytes :=
  let p := MkPeer (is_listener p) true (local p) (cleanup p) (intro_local p) (intro_remote p) (ready p) in
  (p, match intro_remote p with Some _ => BasePeerSendIntro p | None => [] end).

(** [BasePeerEvent] for an input event, [d] being the message of the simulator unless this is its
    connection; also what is sent to the other proxy and to the simulator.  [None]: an error is
    returned, and the proxy ends. *)
Definition BasePeerEvent (id : Z) (p : Peer) (d : bytes) : option (Peer * list IntroMsg * list bytes) :=
  if is_listener p && negb (connected p) then
    let '(p, out) := PeerAcceptEvent p in Some (p, [], out)
  else if bool_decide (is_Some (intro_local p)) then None
  else if bool_decide (d = []) then None
  else
    let i := intro_of (take INTRO_BUF d) in
    let b := buf i in
    let p := if is_listener p then p
             else MkPeer (is_listener p) (connected p)
                    (MkRing (l2c_offset b) (u32 (l2c_elen b)) (u32 (l2c_nentries b)))
                    (MkRing (c2l_offset b) (u32 (c2l_elen b)) (u32 (c2l_nentries b)))
                    (intro_local p) (intro_remote p) (ready p) in
    Some (MkPeer (is_listener p) (connected p) (local p) (cleanup p) (Some i) (intro_remote p)
            (ready p || bool_decide (is_Some (intro_remote p))), [BaseOpPassIntro id i], []).

(** [SockMsgRxIntro]: the next free offset of the shared memory, the peers, and what is sent to
    the simulator of the peer in question.  [None]: the proxy aborts. *)
Definition SockMsgRxIntro (shm_size off : Z) (ps : list Peer) (m : IntroMsg) : option (Z * list Peer * list bytes) :=
  p ← ps !! Z.to_nat (im_id m);
  if im_len m <? intro_data + payload_len m then None
  else if bool_decide (is_Some (intro_remote p)) then None
  else if Z.of_nat INTRO_BUF <? payload_len m then None
  else
    let i := intro_of (im_data m) in
    let p := MkPeer (is_listener p) (connected p) (local p) (cleanup p) (intro_local p) (Some i) (ready p) in
    '(off, p) ← BasePeerSetupQueues shm_size off p i;
    let out := BasePeerSendIntro p in
    let p := MkPeer (is_listener p) (connected p) (local p) (cleanup p) (intro_local p) (intro_remote p)
               (ready p || bool_decide (is_Some (intro_local p))) in
    Some (off, <[Z.to_nat (im_id m) := p]> ps, out).

(** ** Two proxies *)

(** A machine: its shared memory, its peers, the intros on the way to it, and what its simulators
    were sent. *)
Record side := MkSide { size : Z; off : Z; peers : list Peer; inbox : list IntroMsg; outs : list (nat * bytes) }.

Inductive ev :=
| EConnect (i : nat)             (* the simulator of peer [i] connects *)
| EIntro (i : nat) (d : bytes)   (* it sends its intro *)
| ERecv.                         (* an intro from the other proxy arrives *)

Definition peer_event (x y : side) (i : nat) (d : bytes) : option (side * side) :=
  p ← peers x !! i;
  '(p, ms, out) ← BasePeerEvent (Z.of_nat i) p d;
  Some (MkSide (size x) (off x) (<[i := p]> (peers x)) (inbox x) (outs x ++ (pair i <$> out)),
        MkSide (size y) (off y) (peers y) (inbox y ++ ms) (outs y)).

Definition side_step (x y : side) (v : ev) : option (side * side) :=
  match v with
  | EConnect i => peer_event x y i []
  | EIntro i d => peer_event x y i d
  | ERecv =>
      match inbox x with
      | [] => Some (x, y)
      | m :: ms =>
          '(o, ps, out) ← SockMsgRxIntro (size x) (off x) (peers x) m;
          Some (MkSide (size x) o ps ms (outs x ++ (pair (Z.to_nat (im_id m)) <$> out)), y)
      end
  end.

Definition pair_step (w : side * side) (v : bool * ev) : option (side * side) :=
  if v.1 then side_step w.1 w.2 v.2 else '(y, x) ← side_step w.2 w.1 v.2; Some (x, y).

Fixpoint pair_run (w : side * side) (vs : list (bool * ev)) : option (side * side) :=
  match vs with [] => Some w | v :: vs => w ← pair_step w v; pair_run w vs end.

(** ** Specification *)

(** What is configured for a peer: whether the first machine's proxy listens, and the intros of
    the simulators on both machines. *)
Record cfg := MkCfg { c_listens : bool; c_x : bytes; c_y : bytes }.

Definition new_side (n : Z) (ls : list bool) : side := MkSide n 0 (BasePeerAdd <$> ls) [] [].
Definition new_pair (nx ny : Z) (cs : list cfg) : side * side :=
  (new_side nx (c_listens <$> cs), new_side ny (negb ∘ c_listens <$> cs)).

(** Simulators connect once, where the proxy listens, and then send their intro once. *)
Definition side_good (x : side) (ds : list bytes) (v : ev) : Prop :=
  match v with
  | EConnect i => ∃ p, peers x !! i = Some p ∧ is_listener p = true ∧ connected p = false
  | EIntro i d => ∃ p, peers x !! i = Some p ∧ connected p = true ∧ intro_local p = None ∧ ds !! i = Some d
  | ERecv => True
  end.

Definition pair_good (cs : list cfg) (w : side * side) (v : bool * ev) : Prop :=
  if v.1 then side_good w.1 (c_x <$> cs) v.2 else side_good w.2 (c_y <$> cs) v.2.

Fixpoint pair_good_run (cs : list cfg) (w : side * side) (vs : list (bool * ev)) : Prop :=
  match vs with
  | [] => True
  | v :: vs => pair_good cs w v ∧ ∀ w', pair_step w v = Some w' → pair_good_run cs w' vs
  end.

(** Memory of the two rings an intro describes. *)
Definition sz1 (d : bytes) : Z := u64 (l2c_elen (buf (intro_of d)) * l2c_nentries (buf (intro_of d))).
Definition sz2 (d : bytes) : Z := u64 (c2l_elen (buf (intro_of d)) * c2l_nentries (buf (intro_of d))).
Definition need (d : bytes) : Z := sz1 d + sz2 d.

(** The intro with its rings at [o1] and [o2]. *)
Definition moved (d : bytes) (o1 o2 : Z) : bytes := patch (patch (buf (intro_of d)) 16 (le 8 o1)) 40 (le 8 o2).

(** The rings of an intro: from the listener, and to it. *)
Definition l2c_ring (d : bytes) (o : Z) : ring := MkRing o (u32 (l2c_elen (buf (intro_of d)))) (u32 (l2c_nentries (buf (intro_of d)))).
Definition c2l_ring (d : bytes) (o : Z) : ring := MkRing o (u32 (c2l_elen (buf (intro_of d)))) (u32 (c2l_nentries (buf (intro_of d)))).

(** Of the intros on the way and those sent to simulators, the ones for peer [i]. *)
Definition for_peer (i : nat) (ms : list IntroMsg) : list IntroMsg := filter (λ m, im_id m = Z.of_nat i) ms.
Definition outs_of (i : nat) (l : list (nat * bytes)) : list bytes := (filter (λ o, o.1 = i) l).*2.

(** Intro [d] at peer [q] of the proxy it was passed to. *)
Definition remote_ok (d : bytes) (q : Peer) (r : intro) : Prop :=
  len r = length d ∧
  if is_listener q then ∃ o, buf r = moved d o (o + sz1 d) ∧ cleanup q = l2c_ring d o ∧ local q = c2l_ring d (o + sz1 d)
  else buf r = buf (intro_of d).

(** Intro [d] on its way from peer [p] to the simulator of [q]. *)
Inductive half (i : nat) (d : bytes) (p : Peer) (ms : list IntroMsg) (q : Peer) (out : list bytes) : Prop :=
| H_none : intro_local p = None → ms = [] → intro_remote q = None → out = [] → half i d p ms q out
| H_way : intro_local p = Some (intro_of d) → ms = [BaseOpPassIntro (Z.of_nat i) (intro_of d)] → intro_remote q = None → out = [] →
    half i d p ms q out
| H_there r : intro_local p = Some (intro_of d) → ms = [] → intro_remote q = Some r → remote_ok d q r →
    out = (if connected q then [take (len r) (buf r)] else []) → half i d p ms q out.

Definition own_ok (d : bytes) (p : Peer) : Prop :=
  (is_listener p = false → connected p = true) ∧ (is_Some (intro_local p) → connected p = true) ∧
  ready p = bool_decide (is_Some (intro_local p)) && bool_decide (is_Some (intro_remote p)) ∧
  (is_listener p = false → is_Some (intro_local p) →
     local p = l2c_ring d (l2c_offset (buf (intro_of d))) ∧ cleanup p = c2l_ring d (c2l_offset (buf (intro_of d)))).

Record peer_inv (c : cfg) (i : nat) (p : Peer) (inx : list IntroMsg) (ox : list bytes) (q : Peer) (iny : list IntroMsg) (oy : list bytes) : Prop := {
  p_roles : is_listener p = c_listens c ∧ is_listener q = negb (c_listens c);
  p_own : own_ok (c_x c) p ∧ own_ok (c_y c) q;
  p_fwd : half i (c_x c) p iny q oy;
  p_back : half i (c_y c) q inx p ox;
}.

(** Peers that listen and have their rings, with the memory they use. *)
Definition holds_mem (p : Peer) : bool := is_listener p && bool_decide (is_Some (intro_remote p)).
Definition used (ds : list bytes) (ps : list Peer) : Z := foldr Z.add 0 (zip_with (λ d p, if holds_mem p then need d else 0) ds ps).
Definition total (ds : list bytes) (ps : list Peer) : Z := foldr Z.add 0 (zip_with (λ d p, if is_listener p then need d else 0) ds ps).

(** The rings lie in the shared memory, and do not overlap. *)
Record mem_inv (ds : list bytes) (x : side) : Prop := {
  m_size : size x < 2 ^ 64;
  m_off : off x = used ds (peers x);
  m_total : total ds (peers x) ≤ size x;
  m_in i d p : ds !! i = Some d → peers x !! i = Some p → holds_mem p = true →
    0 ≤ r_offset (cleanup p) ∧ r_offset (cleanup p) + need d ≤ off x;
  m_apart i j d d' p p' : i ≠ j → ds !! i = Some d → peers x !! i = Some p → holds_mem p = true →
    ds !! j = Some d' → peers x !! j = Some p' → holds_mem p' = true →
    r_offset (cleanup p) + need d ≤ r_offset (cleanup p') ∨ r_offset (cleanup p') + need d' ≤ r_offset (cleanup p);
}.

Definition intro_ok (d : bytes) : Prop := d ≠ [] ∧ (length d ≤ INTRO_BUF)%nat.

Record winv (cs : list cfg) (x y : side) : Prop := {
  w_cfg : Forall (λ c, intro_ok (c_x c) ∧ intro_ok (c_y c)) cs;
  w_lengths : length (peers x) = length cs ∧ length (peers y) = length cs;
  w_msgs : Forall (λ m, ∃ i, (i < length cs)%nat ∧ im_id m = Z.of_nat i) (inbox x ++ inbox y);
  w_mem : mem_inv (c_y <$> cs) x ∧ mem_inv (c_x <$> cs) y;
  w_peers i c p q : cs !! i = Some c → peers x !! i = Some p → peers y !! i = Some q →
    peer_inv c i p (for_peer i (inbox x)) (outs_of i (outs x)) q (for_peer i (inbox y)) (outs_of i (outs y));
}.

Definition flip (c : cfg) : cfg := MkCfg (negb (c_listens c)) (c_y c) (c_x c).

Lemma setup_peer_flip c i p inx ox q iny oy : peer_inv c i p inx ox q iny oy → peer_inv (flip c) i q iny oy p inx ox.
Proof. intros [[] [] ? ?]. by constructor; cbn; rewrite ?negb_involutive. Qed.

Lemma setup_flip cs x y : winv cs x y → winv (flip <$> cs) y x.
Proof.
  intros [Hc [] Hm [] Hp]. constructor; rewrite ?length_fmap; try done.
  - apply Forall_fmap. eapply Forall_impl; [exact Hc|]. by intros c [].
  - by rewrite Permutation_app_comm.
  - by rewrite <- !list_fmap_compose.
  - intros i c p q Hl Hp' Hq'. rewrite list_lookup_fmap in Hl. destruct (cs !! i) as [c0|] eqn:E; [|done]. injection Hl as <-.
    by apply setup_peer_flip, (Hp i).
Qed.

Lemma cfg_flip_flip (cs : list cfg) : flip <$> (flip <$> cs) = cs.
Proof.
  rewrite <- list_fmap_compose. rewrite <- (list_fmap_id cs) at 2. apply list_fmap_ext. intros ? [] _. unfold compose, flip. cbn. by rewrite negb_involutive.
Qed.

(** ** One peer *)

Lemma length_intro d : (length d ≤ INTRO_BUF)%nat → length (buf (intro_of d)) = INTRO_BUF.
Proof. intros. unfold intro_of. cbn [buf]. rewrite length_app, length_replicate. lia. Qed.

Lemma take_intro d : take (len (intro_of d)) (buf (intro_of d)) = d.
Proof. apply take_app_length. Qed.

Lemma field_patch b o l off n :
  length l = 8%nat → (o + 8 ≤ length b)%nat → (off + n ≤ o ∨ o + 8 ≤ off)%nat → field (patch b o l) off n = field b off n.
Proof. intros Hl Hb [?|?]; unfold field; [rewrite slice_patch_before by lia|rewrite slice_patch_after by lia]; done. Qed.

Lemma field_patch_le b o x : (o + 8 ≤ length b)%nat → x ∈u 64 → field (patch b o (le 8 x)) o 8 = x.
Proof. intros Hb Hx. unfold field. rewrite slice_patch_same by done. by apply (le_val_le_fits 8 64). Qed.

Lemma alloc_ok n o s : 0 ≤ o → 0 ≤ s → o + s ≤ n → n < 2 ^ 64 → ShmAlloc n o s = Some (o + s, o).
Proof. intros. unfold ShmAlloc. rewrite (wrap_id 64) by (unfold fits; lia). by rewrite (proj2 (Z.ltb_ge _ _)) by lia. Qed.

(** The rings made for the intro of the other side. *)
Lemma setup_queues n o p d :
  is_listener p = true → (length d ≤ INTRO_BUF)%nat → 0 ≤ o → o + need d ≤ n → n < 2 ^ 64 →
  BasePeerSetupQueues n o p (intro_of d) =
    Some (o + need d, MkPeer true (connected p) (c2l_ring d (o + sz1 d)) (l2c_ring d o) (intro_local p)
                        (Some (MkIntro (moved d o (o + sz1 d)) (length d))) (ready p)).
Proof.
  intros Hl Hd Ho Hn H64. pose proof (length_intro d Hd) as Hb. unfold INTRO_BUF in Hb. unfold need in *.
  assert (0 ≤ sz1 d ∧ 0 ≤ sz2 d) as [H1 H2] by (split; apply (wrap_fits 64); lia).
  unfold BasePeerSetupQueues. rewrite Hl. cbn [negb]. fold (sz1 d). rewrite alloc_ok by lia. cbn [mbind option_bind].
  assert (length (patch (buf (intro_of d)) 16 (le 8 o)) = 2048%nat) as Hp by (rewrite length_patch; [done|]; change (length (le 8 o)) with 8%nat; rewrite Hb; lia).
  assert (∀ off, (off + 8 ≤ 16 ∨ 24 ≤ off)%nat → field (patch (buf (intro_of d)) 16 (le 8 o)) off 8 = field (buf (intro_of d)) off 8) as F1
    by (intros; apply field_patch; [done|rewrite Hb; lia|lia]).
  unfold c2l_elen, c2l_nentries. rewrite !F1 by lia. fold (c2l_elen (buf (intro_of d))) (c2l_nentries (buf (intro_of d))) (sz2 d).
  rewrite alloc_ok by lia. cbn [mbind option_bind]. fold (moved d o (o + sz1 d)).
  assert (∀ off, (off + 8 ≤ 16 ∨ 24 ≤ off)%nat → (off + 8 ≤ 40 ∨ 48 ≤ off)%nat → field (moved d o (o + sz1 d)) off 8 = field (buf (intro_of d)) off 8) as F2.
  { intros off ? ?. unfold moved. rewrite field_patch; [by apply F1|done|rewrite Hp; lia|lia]. }
  unfold c2l_ring, l2c_ring, c2l_offset, l2c_offset, l2c_elen, l2c_nentries, c2l_elen, c2l_nentries. rewrite (F2 24%nat), (F2 32%nat), (F2 48%nat), (F2 56%nat) by lia.
  assert (field (moved d o (o + sz1 d)) 40 8 = o + sz1 d) as -> by (apply field_patch_le; [rewrite Hp; lia|unfold fits; lia]).
  assert (field (moved d o (o + sz1 d)) 16 8 = o) as ->.
  { unfold moved. rewrite field_patch; [|done|rewrite Hp; lia|lia]. apply field_patch_le; [rewrite Hb; lia|unfold fits; lia]. }
  by rewrite Z.add_assoc.
Qed.

(** The simulator connects. *)
Lemma peer_connect c i p inx ox q iny oy d :
  peer_inv c i p inx ox q iny oy → is_listener p = true → connected p = false →
  ∃ p' out, BasePeerEvent (Z.of_nat i) p d = Some (p', [], out) ∧ peer_inv c i p' inx (ox ++ out) q iny oy ∧
    holds_mem p' = holds_mem p ∧ is_listener p' = is_listener p ∧ cleanup p' = cleanup p.
Proof.
  intros [Hr [(Ho1 & Ho2 & Ho3 & Ho4) Hq] Hf Hb] Hl Hc. unfold BasePeerEvent. rewrite Hl, Hc. cbn [andb negb PeerAcceptEvent].
  eexists _, _. split; [done|]. split; [|by split_and!]. constructor; cbn; rewrite ?Hl in *; try done.
  - destruct Hf; econstructor; done.
  - destruct Hb as [? ? Er ->|? ? Er ->|r ? ? Er [? Hok] ->]; rewrite Er; rewrite ?Hc.
    + by apply H_none.
    + by apply H_way.
    + eapply (H_there _ _ _ _ _ _ r); try done. split; [done|]. by rewrite Hl in Hok.
Qed.

(** The simulator's intro. *)
Lemma peer_intro c i p inx ox q iny oy :
  peer_inv c i p inx ox q iny oy → intro_ok (c_x c) → connected p = true → intro_local p = None →
  ∃ p' m, BasePeerEvent (Z.of_nat i) p (c_x c) = Some (p', [m], []) ∧ im_id m = Z.of_nat i ∧ peer_inv c i p' inx ox q (iny ++ [m]) oy ∧
    holds_mem p' = holds_mem p ∧ is_listener p' = is_listener p ∧ (is_listener p = true → cleanup p' = cleanup p).
Proof.
  intros [Hr [(Ho1 & Ho2 & Ho3 & Ho4) Hq] Hf Hb] [Hne Hd] Hc Hi. unfold BasePeerEvent. rewrite Hc, andb_false_r, Hi.
  rewrite bool_decide_eq_false_2 by (by intros []). rewrite bool_decide_eq_false_2 by done. rewrite take_ge by done.
  set (p1 := if is_listener p then p else _). assert (ready p = false) as Hrd by (rewrite Ho3, Hi; by rewrite bool_decide_eq_false_2 by (by intros [])).
  assert (is_listener p1 = is_listener p ∧ connected p1 = true ∧ intro_remote p1 = intro_remote p ∧ ready p1 = false) as (E1 & E2 & E3 & E4)
    by (unfold p1; by destruct (is_listener p) eqn:El; cbn; rewrite ?El).
  assert (if is_listener p then p1 = p else local p1 = l2c_ring (c_x c) (l2c_offset (buf (intro_of (c_x c)))) ∧
    cleanup p1 = c2l_ring (c_x c) (c2l_offset (buf (intro_of (c_x c))))) as E5 by (unfold p1; by destruct (is_listener p)). clearbody p1.
  rewrite E1, E2, E3, E4. eexists _, _. split; [done|]. split; [done|]. split; [constructor; cbn [is_listener]|].
  - done.
  - split; [|done]. split_and!; cbn [is_listener connected intro_local ready intro_remote local cleanup]; try done.
    intros El. by rewrite El in E5.
  - destruct Hf as [? -> ? ->|? ? ?|? ? ? ?]; [|congruence|congruence]. by apply H_way.
  - destruct Hb as [? ? Er ->|? ? Er ->|r ? ? Er [? Hok] ->]; [by apply H_none|by apply H_way|]. eapply (H_there _ _ _ _ _ _ r); try done.
    + split; [done|]. cbn. destruct (is_listener p); [by rewrite E5|done].
    + by rewrite Hc.
  - unfold holds_mem. cbn. split_and!; try done. intros El. rewrite El in E5. by rewrite E5.
Qed.

(** An intro from the other proxy. *)
Lemma peer_recv c i p m inx ox q iny oy n o ps :
  peer_inv c i p (m :: inx) ox q iny oy → intro_ok (c_y c) → ps !! i = Some p → im_id m = Z.of_nat i →
  0 ≤ o → (is_listener p = true → o + need (c_y c) ≤ n) → n < 2 ^ 64 →
  ∃ p' out, SockMsgRxIntro n o ps m = Some (if is_listener p then o + need (c_y c) else o, <[i := p']> ps, out) ∧
    peer_inv c i p' inx (ox ++ out) q iny oy ∧ holds_mem p = false ∧ holds_mem p' = is_listener p ∧ is_listener p' = is_listener p ∧
    (is_listener p = true → r_offset (cleanup p') = o).
Proof.
  intros [Hr [(Ho1 & Ho2 & Ho3 & Ho4) Hq] Hf Hb] [Hne Hd] Hp Him Ho Hn H64.
  destruct Hb as [? ? ? ?|Hlo Hm Er ->|? ? ? ? ?]; [done| |done]. injection Hm as -> ->.
  unfold SockMsgRxIntro. rewrite Him, Nat2Z.id, Hp. cbn [mbind option_bind BaseOpPassIntro im_len payload_len im_data]. rewrite take_intro. cbn [len intro_of].
  unfold INTRO_BUF in Hd. rewrite (wrap_id 32) by (unfold fits, intro_data; lia). rewrite (proj2 (Z.ltb_ge _ _)) by (unfold intro_data; lia).
  rewrite Er, bool_decide_eq_false_2 by (by intros []). rewrite (proj2 (Z.ltb_ge _ _)) by (unfold INTRO_BUF; lia).
  assert (holds_mem p = false) as Hh by (unfold holds_mem; rewrite Er, bool_decide_eq_false_2 by (by intros []); apply andb_false_r).
  assert (ready p = false) as Hrd by (rewrite Ho3, Er; rewrite (bool_decide_eq_false_2 (is_Some None)) by (by intros []); apply andb_false_r).
  destruct (is_listener p) eqn:El.
  - rewrite setup_queues by (done || auto). cbn [mbind option_bind connected intro_local intro_remote ready local cleanup is_listener].
    eexists _, _. split; [done|]. split; [|by split_and!]. constructor; cbn [is_listener]; try done.
    + split; [|done]. split_and!; cbn; try done. rewrite Hrd. cbn. by rewrite andb_true_r.
    + destruct Hf; by econstructor.
    + eapply H_there; [done|done|done|split; [done|cbn; by exists o]|]. cbn. by destruct (connected p).
  - unfold BasePeerSetupQueues. cbn [is_listener negb mbind option_bind connected intro_local intro_remote ready local cleanup].
    eexists _, _. split; [done|]. split; [|by unfold holds_mem; split_and!]. constructor; cbn [is_listener]; try done.
    + split; [|done]. split_and!; cbn; try done. rewrite Hrd. cbn. by rewrite andb_true_r.
    + destruct Hf; by econstructor.
    + eapply H_there; [done|done|done|split; [done|done]|]. cbn. by destruct (connected p).
Qed.

(** ** Shared memory *)

Lemma sum_insert (l : list Z) i a b : l !! i = Some a → foldr Z.add 0 (<[i := b]> l) = foldr Z.add 0 l - a + b.
Proof.
  revert i. induction l as [|x l IH]; intros [|i] H; try done.
  - injection H as ->. cbn. lia.
  - change (<[S i := b]> (x :: l)) with (x :: <[i := b]> l). cbn [foldr]. rewrite (IH i H). lia.
Qed.

Lemma need_nonneg d : 0 ≤ need d.
Proof. unfold need. pose proof (wrap_fits 64 (l2c_elen (buf (intro_of d)) * l2c_nentries (buf (intro_of d)))).
  pose proof (wrap_fits 64 (c2l_elen (buf (intro_of d)) * c2l_nentries (buf (intro_of d)))). unfold fits, sz1, sz2 in *. lia. Qed.

Section memory.
Context (f : bytes → Peer → Z) (ds : list bytes).

Lemma sum_peers ps i d p p' :
  ds !! i = Some d → ps !! i = Some p →
  foldr Z.add 0 (zip_with f ds (<[i := p']> ps)) = foldr Z.add 0 (zip_with f ds ps) - f d p + f d p'.
Proof.
  intros Hd Hp. rewrite <- (list_insert_id ds i d Hd) at 1. rewrite <- insert_zip_with. apply sum_insert. rewrite lookup_zip_with, Hd, Hp. done.
Qed.

End memory.

Lemma used_le_total ds ps : 0 ≤ used ds ps ≤ total ds ps.
Proof.
  unfold used, total. revert ps. induction ds as [|d ds IH]; intros [|p ps]; cbn; try done. specialize (IH ps). pose proof (need_nonneg d).
  assert (holds_mem p = true → is_listener p = true) by (intros [? _]%andb_true_iff; done).
  destruct (holds_mem p), (is_listener p); naive_solver lia.
Qed.

(** A peer gets its rings. *)
Lemma room_for ds ps i d p :
  ds !! i = Some d → ps !! i = Some p → is_listener p = true → holds_mem p = false → used ds ps + need d ≤ total ds ps.
Proof.
  intros Hd Hp Hl Hh. set (p' := MkPeer true false no_ring no_ring None (Some (intro_of [])) false).
  pose proof (used_le_total ds (<[i := p']> ps)) as H. unfold used, total in *. rewrite !(sum_peers _ ds ps i d p p') in H by done.
  rewrite Hl, Hh in H. cbn in H. lia.
Qed.

Lemma mem_same ds x i p p' :
  mem_inv ds x → peers x !! i = Some p → holds_mem p' = holds_mem p → is_listener p' = is_listener p →
  (is_listener p = true → cleanup p' = cleanup p) → length ds = length (peers x) →
  ∀ ms out, mem_inv ds (MkSide (size x) (off x) (<[i := p']> (peers x)) ms out).
Proof.
  intros [] Hp Hh Hl Hc Hlen ms out. destruct (lookup_lt_is_Some_2 ds i) as [d Hd]; [apply lookup_lt_Some in Hp; lia|].
  assert (∀ j q, <[i := p']> (peers x) !! j = Some q → holds_mem q = true →
    ∃ q0, peers x !! j = Some q0 ∧ holds_mem q0 = true ∧ cleanup q = cleanup q0) as Hq.
  { intros j q Hj Hq. destruct (decide (j = i)) as [->|]; [|rewrite list_lookup_insert_ne in Hj by done; by exists q].
    rewrite list_lookup_insert_eq in Hj by (by eapply lookup_lt_Some). injection Hj as <-. exists p. rewrite <- Hh. split_and!; try done.
    apply Hc. rewrite <- Hl. unfold holds_mem in Hq. by apply andb_true_iff in Hq as []. }
  constructor; cbn [size off peers]; try done.
  - rewrite m_off0. unfold used. rewrite (sum_peers _ ds _ i d p p') by done. rewrite Hh. lia.
  - unfold total in *. rewrite (sum_peers _ ds _ i d p p') by done. rewrite Hl. lia.
  - intros j d' q Hdj Hj Hhq. destruct (Hq j q Hj Hhq) as (q0 & ? & ? & ->). by apply (m_in0 j d').
  - intros j k d1 d2 q1 q2 Hjk Hd1 Hq1 Hh1 Hd2 Hq2 Hh2. destruct (Hq j q1 Hq1 Hh1) as (q3 & ? & ? & ->), (Hq k q2 Hq2 Hh2) as (q4 & ? & ? & ->).
    by apply (m_apart0 j k d1 d2).
Qed.

Lemma mem_grow ds x i d p p' :
  mem_inv ds x → ds !! i = Some d → peers x !! i = Some p → is_listener p = true → holds_mem p = false → holds_mem p' = true →
  is_listener p' = true → r_offset (cleanup p') = off x →
  ∀ ms out, mem_inv ds (MkSide (size x) (off x + need d) (<[i := p']> (peers x)) ms out).
Proof.
  intros [] Hd Hp Hl Hh Hh' Hl' Ho ms out. pose proof (need_nonneg d). pose proof (used_le_total ds (peers x)).
  pose proof (lookup_lt_Some _ _ _ Hp) as Hlt. constructor; cbn [size off peers]; try done.
  - rewrite m_off0. unfold used. rewrite (sum_peers _ ds _ i d p p') by done. rewrite Hh, Hh'. lia.
  - unfold total in *. rewrite (sum_peers _ ds _ i d p p') by done. rewrite Hl, Hl'. lia.
  - intros j d' q Hdj Hj Hhq. destruct (decide (j = i)) as [->|].
    + rewrite list_lookup_insert_eq in Hj by done. injection Hj as <-. rewrite Hd in Hdj. injection Hdj as <-. rewrite Ho. lia.
    + rewrite list_lookup_insert_ne in Hj by done. pose proof (m_in0 j d' q Hdj Hj Hhq). lia.
  - intros j k d1 d2 q1 q2 Hjk Hd1 Hq1 Hh1 Hd2 Hq2 Hh2. destruct (decide (j = i)) as [->|], (decide (k = i)) as [->|]; try done.
    + rewrite list_lookup_insert_eq in Hq1 by done. rewrite list_lookup_insert_ne in Hq2 by done. injection Hq1 as <-.
      pose proof (m_in0 k d2 q2 Hd2 Hq2 Hh2). lia.
    + rewrite list_lookup_insert_eq in Hq2 by done. rewrite list_lookup_insert_ne in Hq1 by done. injection Hq2 as <-.
      pose proof (m_in0 j d1 q1 Hd1 Hq1 Hh1). lia.
    + rewrite list_lookup_insert_ne in Hq1 by done. rewrite list_lookup_insert_ne in Hq2 by done. by apply (m_apart0 j k d1 d2).
Qed.

Lemma mem_inbox ds x ms : mem_inv ds x → mem_inv ds (MkSide (size x) (off x) (peers x) ms (outs x)).
Proof. by intros []. Qed.

(** ** The whole system *)

Lemma outs_of_app i j l out : outs_of i (l ++ (pair j <$> out)) = outs_of i l ++ (if decide (j = i) then out else []).
Proof.
  unfold outs_of. rewrite filter_app, fmap_app. f_equal. induction out as [|o out IH]; [by case_decide|]. cbn [fmap list_fmap].
  rewrite filter_cons. cbn [fst]. case_decide; [|done]. cbn. by rewrite IH.
Qed.

Lemma for_peer_app i ms ms' : for_peer i (ms ++ ms') = for_peer i ms ++ for_peer i ms'.
Proof. apply filter_app. Qed.

Lemma for_peer_all i j ms : Forall (λ m, im_id m = Z.of_nat j) ms → for_peer i ms = if decide (j = i) then ms else [].
Proof.
  intros H. unfold for_peer. induction H as [|m ms Hm _ IH]; [by case_decide|]. rewrite filter_cons, IH, Hm.
  destruct (decide (j = i)) as [->|Hj]; [by rewrite decide_True|]. rewrite decide_False by lia. done.
Qed.

(** An event at peer [i] that leaves the memory alone. *)
Lemma event_inv cs x y i c p q p' ms out d :
  winv cs x y → cs !! i = Some c → peers x !! i = Some p → peers y !! i = Some q →
  BasePeerEvent (Z.of_nat i) p d = Some (p', ms, out) → Forall (λ m, im_id m = Z.of_nat i) ms →
  peer_inv c i p' (for_peer i (inbox x)) (outs_of i (outs x) ++ out) q (for_peer i (inbox y) ++ ms) (outs_of i (outs y)) →
  holds_mem p' = holds_mem p → is_listener p' = is_listener p → (is_listener p = true → cleanup p' = cleanup p) →
  ∃ w, peer_event x y i d = Some w ∧ winv cs w.1 w.2.
Proof.
  intros [Hcfg [Lx Ly] Hm [Mx My] Hps] Hc Hp Hq E Hms Hi Hh Hl Hcl. unfold peer_event. rewrite Hp. cbn [mbind option_bind]. rewrite E. cbn [mbind option_bind].
  eexists. split; [done|]. pose proof (lookup_lt_Some _ _ _ Hp). constructor; cbn [peers inbox outs fst snd]; rewrite ?length_insert; try done.
  - rewrite app_assoc. apply Forall_app. split; [done|]. eapply Forall_impl; [exact Hms|]. intros m Hmi. exists i. cbn in Hmi. lia.
  - split; [|by apply (mem_inbox _ y)]. eapply mem_same; try done. by rewrite length_fmap.
  - intros j c' p0 q0 Hc' Hp0 Hq0. rewrite outs_of_app, for_peer_app, (for_peer_all j i ms Hms). destruct (decide (i = j)) as [<-|Hj].
    + rewrite list_lookup_insert_eq in Hp0 by done. by simplify_eq.
    + rewrite list_lookup_insert_ne in Hp0 by done. rewrite !app_nil_r. by apply Hps.
Qed.

Lemma other_end cs x y i p : winv cs x y → peers x !! i = Some p → ∃ c q, cs !! i = Some c ∧ peers y !! i = Some q.
Proof.
  intros [_ [Lx Ly] _ _ _] Hp. apply lookup_lt_Some in Hp.
  destruct (lookup_lt_is_Some_2 cs i) as [c Hc]; [lia|]. destruct (lookup_lt_is_Some_2 (peers y) i) as [q Hq]; [lia|]. by exists c, q.
Qed.

Lemma setup_side_step cs x y v :
  winv cs x y → side_good x (c_x <$> cs) v → ∃ x' y', side_step x y v = Some (x', y') ∧ winv cs x' y'.
Proof.
  intros H Hg. destruct v as [i|i d|]; cbn [side_step].
  - destruct Hg as (p & Hp & Hl & Hc). destruct (other_end _ _ _ _ _ H Hp) as (c & q & Ec & Hq).
    destruct (peer_connect c i p _ _ q _ _ [] (w_peers _ _ _ H i c p q Ec Hp Hq) Hl Hc) as (p' & out & E & Hi & Hh & Hl' & Hcl).
    destruct (event_inv cs x y i c p q p' [] out [] H Ec Hp Hq E) as ([x' y'] & E' & H'); try done; [by rewrite app_nil_r|]. by exists x', y'.
  - destruct Hg as (p & Hp & Hc & Hn & Hd). destruct (other_end _ _ _ _ _ H Hp) as (c & q & Ec & Hq).
    rewrite list_lookup_fmap, Ec in Hd. injection Hd as <-. pose proof (w_cfg _ _ _ H) as Hcfg. destruct (proj1 (Forall_lookup _ _) Hcfg i c Ec) as [Hok _].
    destruct (peer_intro c i p _ _ q _ _ (w_peers _ _ _ H i c p q Ec Hp Hq) Hok Hc Hn) as (p' & m & E & Him & Hi & Hh & Hl & Hcl).
    destruct (event_inv cs x y i c p q p' [m] [] (c_x c) H Ec Hp Hq E) as ([x' y'] & E' & H'); try done; [by constructor|by rewrite app_nil_r|]. by exists x', y'.
  - destruct (inbox x) as [|m ms] eqn:Em; [by exists x, y|]. pose proof H as [Hcfg [Lx Ly] Hm [Mx My] Hps]. rewrite Em in Hm, Hps.
    apply Forall_cons in Hm as [(i & Hi & Him) Hm]. destruct (lookup_lt_is_Some_2 (peers x) i) as [p Hp]; [lia|].
    destruct (other_end _ _ _ _ _ H Hp) as (c & q & Ec & Hq). destruct (proj1 (Forall_lookup _ _) Hcfg i c Ec) as [_ Hok].
    pose proof (Hps i c p q Ec Hp Hq) as Hpi. unfold for_peer in Hpi at 1. rewrite filter_cons, decide_True in Hpi by done. fold (for_peer i ms) in Hpi.
    assert ((c_y <$> cs) !! i = Some (c_y c)) as Hd by (by rewrite list_lookup_fmap, Ec). pose proof (used_le_total (c_y <$> cs) (peers x)) as Hu.
    assert (holds_mem p = false) as Hh.
    { unfold holds_mem. destruct (p_back _ _ _ _ _ _ _ _ Hpi) as [|? ? Er|]; [done| |done]. rewrite Er, bool_decide_eq_false_2 by (by intros []). apply andb_false_r. }
    destruct (peer_recv c i p m _ _ q _ _ (size x) (off x) (peers x) Hpi Hok Hp Him) as (p' & out & E & Hi' & _ & Hh' & Hl & Ho).
    { rewrite (m_off _ _ Mx). lia. }
    { intros Hl. pose proof (room_for _ _ _ _ _ Hd Hp Hl Hh). pose proof (m_total _ _ Mx). rewrite (m_off _ _ Mx). lia. }
    { apply (m_size _ _ Mx). }
    rewrite E. cbn [mbind option_bind]. eexists _, _. split; [done|]. pose proof (lookup_lt_Some _ _ _ Hp).
    constructor; cbn [peers inbox outs]; rewrite ?length_insert; try done.
    + split; [|done]. destruct (is_listener p) eqn:El; [by eapply mem_grow; auto|]. apply (mem_same _ x i p p'); [done|done|congruence|congruence|congruence|]. rewrite length_fmap. lia.
    + intros j c' p0 q0 Hc' Hp0 Hq0. rewrite Him, Nat2Z.id, outs_of_app. destruct (decide (i = j)) as [<-|Hj].
      * rewrite list_lookup_insert_eq in Hp0 by done. by simplify_eq.
      * rewrite list_lookup_insert_ne in Hp0 by done. rewrite app_nil_r. pose proof (Hps j c' p0 q0 Hc' Hp0 Hq0) as Hj'.
        unfold for_peer in Hj' at 1. rewrite filter_cons, decide_False in Hj' by lia. done.
Qed.

Lemma setup_run_inv cs vs : ∀ w, winv cs w.1 w.2 → pair_good_run cs w vs → ∃ w', pair_run w vs = Some w' ∧ winv cs w'.1 w'.2.
Proof.
  induction vs as [|[b v] vs IH]; intros w H Hg; [by exists w|]. destruct Hg as [Hv Hg]. cbn [pair_run].
  assert (∃ w1, pair_step w (b, v) = Some w1 ∧ winv cs w1.1 w1.2) as (w1 & E & H1).
  { unfold pair_step, pair_good in *. destruct b; cbn [fst snd] in *.
    - destruct (setup_side_step cs w.1 w.2 v H Hv) as (x & y & E & H'). by exists (x, y).
    - destruct (setup_side_step (flip <$> cs) w.2 w.1 v (setup_flip _ _ _ H)) as (y & x & E & H'); [by rewrite <- list_fmap_compose|].
      rewrite E. cbn [mbind option_bind]. exists (x, y). split; [done|]. apply setup_flip in H'. by rewrite cfg_flip_flip in H'. }
  rewrite E. cbn [mbind option_bind]. by apply IH, Hg.
Qed.

(** ** From the start *)

Lemma new_total ds ls : used ds (BasePeerAdd <$> ls) = 0.
Proof. unfold used. revert ls. induction ds as [|d ds IH]; intros [|l ls]; cbn; try done. destruct l; cbn; apply IH. Qed.

Lemma new_mem ds n ls : total ds (BasePeerAdd <$> ls) ≤ n → n < 2 ^ 64 → mem_inv ds (new_side n ls).
Proof.
  intros Ht Hn. constructor; cbn [new_side size off peers]; try done; [by rewrite new_total|..].
  - intros i d p _ Hp Hh. rewrite list_lookup_fmap in Hp. destruct (ls !! i) as [[]|]; [..|done]; by injection Hp as <-.
  - intros i j d d' p p' _ _ Hp Hh _ _ _. rewrite list_lookup_fmap in Hp. destruct (ls !! i) as [[]|]; [..|done]; by injection Hp as <-.
Qed.

Lemma new_own d l : own_ok d (BasePeerAdd l).
Proof. destruct l; split_and!; cbn; try done; intros; by destruct_and?; match goal with H : is_Some None |- _ => destruct H end. Qed.

(** The intros are accepted by the proxies, and their rings fit the shared memory. *)
Definition cfg_ok (nx ny : Z) (cs : list cfg) : Prop :=
  Forall (λ c, intro_ok (c_x c) ∧ intro_ok (c_y c)) cs ∧
  total (c_y <$> cs) (peers (new_pair nx ny cs).1) ≤ nx ∧ nx < 2 ^ 64 ∧
  total (c_x <$> cs) (peers (new_pair nx ny cs).2) ≤ ny ∧ ny < 2 ^ 64.

Lemma setup_new_inv nx ny cs : cfg_ok nx ny cs → winv cs (new_pair nx ny cs).1 (new_pair nx ny cs).2.
Proof.
  intros (Hc & H1 & H2 & H3 & H4). constructor; cbn [new_pair new_side fst snd peers inbox outs] in *; rewrite ?length_fmap; try done.
  - split; by apply new_mem.
  - intros i c p q Ec Hp Hq. rewrite !list_lookup_fmap, Ec in Hp. rewrite !list_lookup_fmap, Ec in Hq. cbn in Hp, Hq. injection Hp as <-. injection Hq as <-.
    constructor; [done|split; apply new_own|by apply H_none..].
Qed.

(** Where a peer has the rings of the listening simulator's intro. *)
Definition rings_set (p : Peer) : Prop := if is_listener p then is_Some (intro_remote p) else is_Some (intro_local p).

(** Entries the one proxy polls are as the other writes them, and back. *)
Definition rings_agree (p q : Peer) : Prop :=
  r_elen (local p) = r_elen (cleanup q) ∧ r_enum (local p) = r_enum (cleanup q) ∧
  r_elen (cleanup p) = r_elen (local q) ∧ r_enum (cleanup p) = r_enum (local q).

(** What the simulator of peer [q] is sent when the other one's intro is [d]: the same, except
    that a proxy that listens puts the places of its own rings. *)
Definition expected (d : bytes) (q : Peer) : bytes :=
  if is_listener q then take (length d) (moved d (r_offset (cleanup q)) (r_offset (local q))) else d.

Lemma half_out i d p ms q out : half i d p ms q out → out = [] ∨ out = [expected d q].
Proof.
  intros [| |r ? ? ? [Hl Hr] ->]; [by left|by left|]. destruct (connected q); [right|by left]. unfold expected. rewrite Hl.
  destruct (is_listener q); [|rewrite Hr; f_equal; apply (take_intro d)]. destruct Hr as (o & -> & -> & ->). done.
Qed.

Lemma own_rings d p : own_ok d p → is_listener p = false → rings_set p →
  local p = l2c_ring d (r_offset (local p)) ∧ cleanup p = c2l_ring d (r_offset (cleanup p)).
Proof. intros (_ & _ & _ & H) Hl Hs. unfold rings_set in Hs. rewrite Hl in Hs. destruct (H Hl Hs) as [-> ->]. done. Qed.

Lemma half_rings i d p ms q out : half i d p ms q out → is_listener q = true → rings_set q →
  cleanup q = l2c_ring d (r_offset (cleanup q)) ∧ local q = c2l_ring d (r_offset (local q)).
Proof.
  intros Hh Hl Hs. unfold rings_set in Hs. rewrite Hl in Hs. destruct Hh as [? ? Er|? ? Er|r ? ? Er [_ Hr] _]; [rewrite Er in Hs; by destruct Hs..|].
  rewrite Hl in Hr. by destruct Hr as (o & _ & -> & ->).
Qed.

Lemma peer_agree c i p inx ox q iny oy : peer_inv c i p inx ox q iny oy → rings_set p → rings_set q → rings_agree p q.
Proof.
  intros [[Hp Hq] [Op Oq] Hf Hb] Sp Sq. unfold rings_agree. destruct (c_listens c); cbn in Hq.
  - destruct (half_rings _ _ _ _ _ _ Hb Hp Sp) as [-> ->], (own_rings _ _ Oq Hq Sq) as [-> ->]. done.
  - destruct (half_rings _ _ _ _ _ _ Hf Hq Sq) as [-> ->], (own_rings _ _ Op Hp Sp) as [-> ->]. done.
Qed.

(** A peer that is ready has its rings, and the other one too, or the intro it needs is ahead of
    anything sent from now on. *)
Lemma peer_ready_rings c i p inx ox q iny oy :
  peer_inv c i p inx ox q iny oy → ready p = true → rings_set p ∧ (rings_set q ∨ iny ≠ []).
Proof.
  intros [[Hp Hq] [(_ & _ & Hrd & _) _] Hf Hb] Hr. rewrite Hr in Hrd. symmetry in Hrd. apply andb_true_iff in Hrd as [Hl%bool_decide_eq_true Hm%bool_decide_eq_true].
  unfold rings_set. rewrite Hp, Hq. split; [by destruct (c_listens c)|]. destruct (c_listens c); cbn [negb].
  - left. destruct Hb as [? ? Er|? ? Er|r El]; [rewrite Er in Hm; by destruct Hm..|]. by rewrite El.
  - destruct Hf as [El|? -> _ _|r _ _ Er]; [rewrite El in Hl; by destruct Hl|by right|left; by rewrite Er].
Qed.

(** Both simulators have sent their intros and nothing is on the way. *)
Lemma peer_complete c i p ox q oy :
  peer_inv c i p [] ox q [] oy → is_Some (intro_local p) → is_Some (intro_local q) →
  ready p = true ∧ ready q = true ∧ ox = [expected (c_y c) p] ∧ oy = [expected (c_x c) q].
Proof.
  intros [_ [(_ & Cp & Rp & _) (_ & Cq & Rq & _)] Hf Hb] Lp Lq. pose proof (half_out _ _ _ _ _ _ Hf) as Of. pose proof (half_out _ _ _ _ _ _ Hb) as Ob.
  destruct Hf as [El|? ?|r _ _ Er _ Ho]; [rewrite El in Lp; by destruct Lp|done|]. destruct Hb as [El|? ?|r' _ _ Er' _ Ho']; [rewrite El in Lq; by destruct Lq|done|].
  rewrite Rp, Rq, Er, Er', !bool_decide_eq_true_2 by done. rewrite (Cp Lp) in Ho'. rewrite (Cq Lq) in Ho.
  split_and!; try done; [destruct Ob as [->|]; [done|done]|destruct Of as [->|]; [done|done]].
Qed.

(** ** Where the rings are *)

(** Lengths and numbers of entries fit the 32 bits in which a proxy keeps them. *)
Definition sizes_ok (d : bytes) : Prop :=
  let b := buf (intro_of d) in
  l2c_elen b ∈u 32 ∧ l2c_nentries b ∈u 32 ∧ c2l_elen b ∈u 32 ∧ c2l_nentries b ∈u 32.

(** The intro of the simulator that made the rings. *)
Definition listener_intro (c : cfg) : bytes := if c_listens c then c_y c else c_x c.

(** All bytes of a ring, without any wrap-around. *)
Definition ring_end (r : ring) : Z := r_offset r + r_elen r * r_enum r.
Definition apart (r r' : ring) : Prop := ring_end r ≤ r_offset r' ∨ ring_end r' ≤ r_offset r.

(** The rings a proxy has made in its shared memory: two for every peer that listens and has been
    told their sizes. *)
Definition ring_at (x : side) (i : nat) (b : bool) : option ring :=
  p ← peers x !! i; if holds_mem p then Some (if b then cleanup p else local p) else None.

Definition rings_placed (x : side) : Prop :=
  (∀ i b r, ring_at x i b = Some r → 0 ≤ r_offset r ∧ ring_end r ≤ size x) ∧
  (∀ i b r j b' r', (i, b) ≠ (j, b') → ring_at x i b = Some r → ring_at x j b' = Some r' → apart r r').

Lemma sizes_exact d o :
  sizes_ok d → ring_end (l2c_ring d o) = o + sz1 d ∧ ring_end (c2l_ring d (o + sz1 d)) = o + need d.
Proof.
  unfold sizes_ok, ring_end, l2c_ring, c2l_ring, need, sz1, sz2. cbn [r_offset r_elen r_enum].
  generalize (buf (intro_of d)). intros b (H1 & H2 & H3 & H4).
  assert (∀ x y, x ∈u 32 → y ∈u 32 → x * y ∈u 64) as Hm.
  { intros x y [? ?] [? ?]. unfold fits. split; [nia|]. apply Z.le_lt_trans with ((2 ^ 32 - 1) * (2 ^ 32 - 1)); nia. }
  rewrite !(wrap_id 32) by done. rewrite !(wrap_id 64) by (by apply Hm). lia.
Qed.

Lemma half_placed i d p ms q out :
  half i d p ms q out → holds_mem q = true →
  ∃ o, cleanup q = l2c_ring d o ∧ local q = c2l_ring d (o + sz1 d).
Proof.
  intros Hh [Hl Hs%bool_decide_eq_true]%andb_true_iff. destruct Hh as [? ? Er|? ? Er|r ? ? Er [_ Hr] _]; [rewrite Er in Hs; by destruct Hs..|].
  rewrite Hl in Hr. destruct Hr as (o & _ & -> & ->). by exists o.
Qed.

Lemma mem_placed ds x :
  mem_inv ds x → length (peers x) = length ds →
  (∀ i d p, ds !! i = Some d → peers x !! i = Some p → holds_mem p = true →
     sizes_ok d ∧ ∃ o, cleanup p = l2c_ring d o ∧ local p = c2l_ring d (o + sz1 d)) →
  rings_placed x.
Proof.
  intros [Hs Ho Ht Hin Hap] Hlen Hr. pose proof (used_le_total ds (peers x)) as Hu.
  assert (∀ i b r, ring_at x i b = Some r → ∃ d p o, ds !! i = Some d ∧ peers x !! i = Some p ∧ holds_mem p = true ∧
    r_offset (cleanup p) = o ∧ r_offset r = (if b then o else o + sz1 d) ∧ ring_end r = (if b then o + sz1 d else o + need d)) as Hat.
  { intros i b r. unfold ring_at. destruct (peers x !! i) as [p|] eqn:Hp; [|done]. cbn [mbind option_bind].
    destruct (holds_mem p) eqn:Hh; [|done]. intros [= <-].
    destruct (lookup_lt_is_Some_2 ds i) as [d Hd]; [rewrite <- Hlen; by eapply lookup_lt_Some|].
    destruct (Hr i d p Hd Hp Hh) as (Hz & o & Ec & El). exists d, p, o. rewrite Ec, El.
    destruct (sizes_exact d o Hz). by destruct b. }
  assert (∀ d, 0 ≤ sz1 d ∧ 0 ≤ sz2 d) as Hpos by (intros d; split; apply (wrap_fits 64); lia).
  unfold need in *. split.
  - intros i b r H. destruct (Hat i b r H) as (d & p & o & Hd & Hp & Hh & Eo & E1 & E2).
    destruct (Hin i d p Hd Hp Hh). pose proof (Hpos d). rewrite E1, E2. destruct b; lia.
  - intros i b r j b' r' Hne H H'. unfold apart.
    destruct (Hat i b r H) as (d & p & o & Hd & Hp & Hh & Eo & -> & ->).
    destruct (Hat j b' r' H') as (d' & p' & o' & Hd' & Hp' & Hh' & Eo' & -> & ->).
    pose proof (Hpos d). pose proof (Hpos d'). destruct (decide (i = j)) as [<-|Hij].
    + simplify_eq. destruct b, b'; try done; lia.
    + destruct (Hap i j d d' p p' Hij Hd Hp Hh Hd' Hp' Hh'); destruct b, b'; lia.
Qed.

Lemma winv_placed cs x y :
  Forall (λ c, sizes_ok (listener_intro c)) cs → winv cs x y → rings_placed x ∧ rings_placed y.
Proof.
  intros Hz [_ [Lx Ly] _ [Mx My] Hp]. rewrite Forall_lookup in Hz. split.
  - apply (mem_placed _ _ Mx); [by rewrite length_fmap|]. intros i d p Hd Hpx Hh. rewrite list_lookup_fmap in Hd.
    destruct (cs !! i) as [c|] eqn:Ec; [|done]. injection Hd as <-.
    destruct (lookup_lt_is_Some_2 (peers y) i) as [q Hq]; [rewrite Ly, <- Lx; by eapply lookup_lt_Some|].
    destruct (Hp i c p q Ec Hpx Hq) as [[Hl _] _ _ Hb]. split; [|by eapply half_placed].
    specialize (Hz i c Ec). unfold listener_intro in Hz. apply andb_true_iff in Hh as [Hh _]. by rewrite <- Hl, Hh in Hz.
  - apply (mem_placed _ _ My); [by rewrite length_fmap|]. intros i d q Hd Hqy Hh. rewrite list_lookup_fmap in Hd.
    destruct (cs !! i) as [c|] eqn:Ec; [|done]. injection Hd as <-.
    destruct (lookup_lt_is_Some_2 (peers x) i) as [p Hpx]; [rewrite Lx, <- Ly; by eapply lookup_lt_Some|].
    destruct (Hp i c p q Ec Hpx Hqy) as [[_ Hl] _ Hf _]. split; [|by eapply half_placed].
    specialize (Hz i c Ec). unfold listener_intro in Hz. apply andb_true_iff in Hh as [Hh _]. rewrite Hl in Hh. by destruct (c_listens c).
Qed.

(** C26: Set-up of the proxies is correct.  Whatever the order in which simulators connect, send
    their intros and intros travel between two proxies, no proxy aborts, provided that the intros
    fit the buffer of a proxy, that the shared memory of each proxy has room for the rings it makes,
    and that the lengths and numbers of their entries fit 32 bits;
    every simulator is sent at most one intro, that of the simulator at the other end, with only
    the places of the rings replaced where its own proxy made them; the rings of a peer agree at
    both proxies; a peer that is ready has its rings, and the other proxy has them before it gets
    anything sent later; all bytes of the rings a proxy makes lie in its shared memory, and no two
    rings overlap; and once all intros are sent and nothing is on the way, the peer is ready at both
    ends and both simulators were introduced. *)
Theorem proxy_setup_correct nx ny cs vs :
  cfg_ok nx ny cs → Forall (λ c, sizes_ok (listener_intro c)) cs → pair_good_run cs (new_pair nx ny cs) vs →
  ∃ w, pair_run (new_pair nx ny cs) vs = Some w ∧ rings_placed w.1 ∧ rings_placed w.2 ∧
    ∀ i c p q, cs !! i = Some c → peers w.1 !! i = Some p → peers w.2 !! i = Some q →
      (outs_of i (outs w.1) = [] ∨ outs_of i (outs w.1) = [expected (c_y c) p]) ∧
      (outs_of i (outs w.2) = [] ∨ outs_of i (outs w.2) = [expected (c_x c) q]) ∧
      (rings_set p → rings_set q → rings_agree p q) ∧
      (ready p = true → rings_set p ∧ (rings_set q ∨ for_peer i (inbox w.2) ≠ [])) ∧
      (ready q = true → rings_set q ∧ (rings_set p ∨ for_peer i (inbox w.1) ≠ [])) ∧
      (is_Some (intro_local p) → is_Some (intro_local q) → inbox w.1 = [] → inbox w.2 = [] →
         ready p = true ∧ ready q = true ∧
         outs_of i (outs w.1) = [expected (c_y c) p] ∧ outs_of i (outs w.2) = [expected (c_x c) q]).
Proof.
  intros Hc Hz Hg. destruct (setup_run_inv cs vs _ (setup_new_inv nx ny cs Hc) Hg) as (w & E & H). exists w. split; [done|].
  destruct (winv_placed _ _ _ Hz H) as [Mx My].
  split; [done|]. split; [done|]. intros i c p q Ec Hp Hq. pose proof (w_peers _ _ _ H i c p q Ec Hp Hq) as Hi. split_and!.
  - eapply half_out, (p_back _ _ _ _ _ _ _ _ Hi).
  - eapply half_out, (p_fwd _ _ _ _ _ _ _ _ Hi).
  - by eapply peer_agree.
  - by eapply peer_ready_rings.
  - eapply peer_ready_rings. by apply setup_peer_flip.
  - intros Lp Lq E1 E2. rewrite E1, E2 in Hi. by eapply peer_complete.
Qed.

(** ** Example *)

Definition side_goodb (x : side) (ds : list bytes) (v : ev) : bool :=
  match v with
  | EConnect i => match peers x !! i with Some p => is_listener p && negb (connected p) | None => false end
  | EIntro i d =>
      match peers x !! i with Some p => connected p && bool_decide (intro_local p = None) && bool_decide (ds !! i = Some d) | None => false end
  | ERecv => true
  end.

Fixpoint pair_good_runb (cs : list cfg) (w : side * side) (vs : list (bool * ev)) : bool :=
  match vs with
  | [] => true
  | v :: vs =>
      (if v.1 then side_goodb w.1 (c_x <$> cs) v.2 else side_goodb w.2 (c_y <$> cs) v.2) &&
      match pair_step w v with Some w => pair_good_runb cs w vs | None => true end
  end.

Lemma side_goodb_sound x ds v : side_goodb x ds v = true → side_good x ds v.
Proof.
  destruct v as [i|i d|]; cbn; [| |done]; (destruct (peers x !! i) as [p|]; [|done]).
  - intros [? ?%negb_true_iff]%andb_true_iff. by exists p.
  - intros [[? ?%bool_decide_eq_true]%andb_true_iff ?%bool_decide_eq_true]%andb_true_iff. by exists p.
Qed.

Lemma setup_good_runb_sound cs vs : ∀ w, pair_good_runb cs w vs = true → pair_good_run cs w vs.
Proof.
  induction vs as [|[b v] vs IH]; intros w; cbn [pair_good_runb pair_good_run]; [done|]. intros [Hv H]%andb_true_iff. split.
  - unfold pair_good. destruct b; by apply side_goodb_sound.
  - intros w' E. rewrite E in H. by apply IH.
Qed.

(** A listener with 16 entries of 128 bytes each way, and a connecter. *)
Definition demo_listener : bytes :=
  le 8 1 ++ le 8 0 ++ le 8 0 ++ le 8 128 ++ le 8 16 ++ le 8 2048 ++ le 8 128 ++ le 8 16 ++ le 8 0 ++ le 8 0.
Definition demo_connecter : bytes := le 8 1 ++ le 8 0 ++ le 8 0 ++ le 8 0.

Definition demo_setup : list cfg := [MkCfg false demo_listener demo_connecter].
Definition demo_events : list (bool * ev) :=
  [(true, EIntro 0 demo_listener); (false, ERecv); (false, EConnect 0); (false, EIntro 0 demo_connecter); (true, ERecv)].

Lemma proxy_setup_correct_witness :
  ∃ w, pair_run (new_pair 4096 4096 demo_setup) demo_events = Some w ∧ rings_placed w.1 ∧ rings_placed w.2.
Proof.
  destruct (proxy_setup_correct 4096 4096 demo_setup demo_events) as (w & E & M1 & M2 & _).
  - split; [|split_and!; vm_compute; done]. constructor; [|done]. split; (split; [done|]); apply Nat.leb_le; vm_compute; done.
  - constructor; [|done]. by vm_compute.
  - apply setup_good_runb_sound. vm_compute. done.
  - exists w. split; [exact E|]. split; [exact M1|exact M2].
Defined.

(** In that run both ends become ready and agree on the rings. *)
Lemma demo_setup_ready :
  ((λ w, (ready <$> peers w.1, ready <$> peers w.2, local <$> peers w.2, length <$> (outs w.1).*2)) <$>
    pair_run (new_pair 4096 4096 demo_setup) demo_events) = Some ([true], [true], [MkRing 2048 128 16], [32%nat]).
Proof. vm_compute. done. Qed.

End proxy_setup.
