(* ===== verification/DistProxy.v ===== *)
(** * Proxies between machines (dist/common/base.{h,c}, dist/sockets/net_sockets.c)

    A simulator and its peer may run on different machines.  Each machine then has a proxy, and a
    ring between the two simulators becomes two rings, one per machine: a proxy polls the ring its
    local simulator produces into, sends new entries over a socket, and the other proxy writes
    them to the same positions of its ring.  Entries are given back the other way: when the
    receiving simulator has freed entries, its proxy reports how far, and the sending proxy frees
    them in its ring.

    This file has the data path of the proxies: polling, messages, and what a message does.
    Entries are as in BaseIf.v.  Messages are sent and received whole; how they are put together
    again from the bytes that arrive is in DistSock.v.  The functions of a proxy are atomic with respect to each other and to the simulators' calls.
    [None] is an abort, an access outside a ring, or a 32-bit product that wraps around. *)

From S2P Require Import Prelude BaseIf.

Module proxy.
Import base.

Definition kPollReportThreshold : Z := 128.
Definition kCleanReportThreshold : Z := 128.
Definition kPollMax : nat := 8.
Definition kCleanupMax : nat := 16.
Definition TXBUF_SIZE : Z := 128 * 1024.
Definition MAX_PEERS : nat := 32.

(** [struct Peer], the part used once the rings are set up; [local_q] and [cleanup_q] are the
    memory [local_base] and [cleanup_base] point to. *)
Record Peer := MkPeer {
  local_q : list Slot;
  local_elen : Z;             (* uint32_t, as all below *)
  local_enum : Z;
  local_pos : Z;
  local_pos_reported : Z;
  local_pos_cleaned : Z;
  last_sent_pos : Z;
  cleanup_q : list Slot;
  cleanup_elen : Z;
  cleanup_enum : Z;
  cleanup_pos_next : Z;
  cleanup_pos_last : Z;
  cleanup_pos_reported : Z;
  ready : bool;
}.

Definition set_local (p : Peer) (q : list Slot) (pos reported cleaned sent : Z) : Peer :=
  MkPeer q (local_elen p) (local_enum p) pos reported cleaned sent
    (cleanup_q p) (cleanup_elen p) (cleanup_enum p) (cleanup_pos_next p) (cleanup_pos_last p) (cleanup_pos_reported p) (ready p).
Definition set_cleanup (p : Peer) (q : list Slot) (next last reported : Z) : Peer :=
  MkPeer (local_q p) (local_elen p) (local_enum p) (local_pos p) (local_pos_reported p) (local_pos_cleaned p) (last_sent_pos p)
    q (cleanup_elen p) (cleanup_enum p) next last reported (ready p).

(** [struct SockMsg]; [msg_len] of an entries message is the one its receiver checks. *)
Record report := MkRep { valid : bool; written_pos : Z; clean_pos : Z }.

Inductive SockMsg :=
| kMsgReport (rs : list report)
| kMsgEntries (id msg_len num_entries pos : Z) (data : list Slot).

(** [offsetof(struct SockMsg, entries.data)] *)
Definition entries_data : Z := 24.

(** The entry at [pos] of the polled ring; its offset is a 32-bit product. *)
Definition local_entry (p : Peer) (pos : Z) : option Slot :=
  if pos * local_elen p <? 2 ^ 32 then slot_at (local_q p) pos else None.

Definition cleanup_entry (p : Peer) (pos : Z) : option Slot :=
  if pos * cleanup_elen p <? 2 ^ 32 then slot_at (cleanup_q p) pos else None.

(** ** Sending entries *)

(** The loop of [PollPeerTransfer]: how many entries from [local_pos] are to be sent. *)
Fixpoint count_entries (fuel : nat) (p : Peer) (n : Z) : option Z :=
  match fuel with
  | O => Some n
  | S fuel =>
      let pos := u32 (local_pos p + n) in
      if negb (pos <? local_enum p) then Some n
      else if u32 (pos + 1) mod local_enum p =? local_pos_cleaned p then Some n
      else
        s ← local_entry p pos;
        if negb (owner s =? SIMBRICKS_PROTO_MSG_OWN_CON) then Some n else count_entries fuel p (n + 1)
  end.

(** [BaseOpPassEntries] of net_sockets.c, for peer number [id]. *)
Definition BaseOpPassEntries (p : Peer) (id pos n : Z) : option (Peer * SockMsg) :=
  let len := u32 (n * local_elen p) in
  if TXBUF_SIZE <? len then None
  else if negb (u32 (last_sent_pos p + 1) mod local_enum p =? pos) then None
  else if negb (pos * local_elen p <? 2 ^ 32) then None
  else
    let data := take (Z.to_nat n) (drop (Z.to_nat pos) (local_q p)) in
    if negb (Z.of_nat (length data) =? n) then None
    else Some (set_local p (local_q p) (local_pos p) (local_pos_reported p) (local_pos_cleaned p) (u32 (u32 (pos + n) - 1)),
               kMsgEntries id (u32 (entries_data + len)) n pos data).

(** [PollPeerTransfer]; also the message, and whether a report is due. *)
Definition PollPeerTransfer (p : Peer) (id : Z) : option (Peer * list SockMsg * bool) :=
  n ← count_entries kPollMax p 0;
  if 0 <? n then
    '(p, m) ← BaseOpPassEntries p id (local_pos p) n;
    let newpos := u32 (local_pos p + n) in
    let pos := if newpos <? local_enum p then newpos else u32 (newpos - local_enum p) in
    let unreported := u32 (pos - local_pos_reported p) mod local_enum p in
    Some (set_local p (local_q p) pos (local_pos_reported p) (local_pos_cleaned p) (last_sent_pos p), [m],
          kPollReportThreshold <=? unreported)
  else Some (p, [], false).

(** ** Looking for entries that are free again *)

Definition wrap_pos (pos num : Z) : Z := if num <=? pos then u32 (pos - num) else pos.

(** The loop of [PollPeerCleanup], for at most [fuel] more entries; also whether one was found. *)
Fixpoint clean_entries (fuel : nat) (p : Peer) (next : Z) (found : bool) : option (Z * bool) :=
  match fuel with
  | O => Some (next, found)
  | S fuel =>
      s ← cleanup_entry p next;
      if negb (owner s =? SIMBRICKS_PROTO_MSG_OWN_PRO) then Some (next, found)
      else
        let next := wrap_pos (u32 (next + 1)) (cleanup_enum p) in
        if next =? cleanup_pos_last p then Some (next, true) else clean_entries fuel p next true
  end.

(** [PollPeerCleanup]; also whether a report is due. *)
Definition PollPeerCleanup (p : Peer) : option (Peer * bool) :=
  if cleanup_pos_next p =? cleanup_pos_last p then Some (p, false)
  else
    '(next, found) ← clean_entries (S kCleanupMax) p (cleanup_pos_next p) false;
    let unreported := u32 (next - cleanup_pos_reported p) mod cleanup_enum p in
    Some (set_cleanup p (cleanup_q p) next (cleanup_pos_last p) (cleanup_pos_reported p),
          found && (kCleanReportThreshold <=? unreported)).

(** ** Reports *)

(** [BaseOpPassReport].  The positions of a peer that is not ready are never read. *)
Definition report_of (p : Peer) : Peer * report :=
  if ready p then
    (set_local (set_cleanup p (cleanup_q p) (cleanup_pos_next p) (cleanup_pos_last p) (cleanup_pos_next p))
       (local_q p) (local_pos p) (local_pos p) (local_pos_cleaned p) (last_sent_pos p),
     MkRep true (local_pos p) (cleanup_pos_next p))
  else (p, MkRep false 0 0).

Definition BaseOpPassReport (peers : list Peer) : option (list Peer * SockMsg) :=
  if (MAX_PEERS <? length peers)%nat then None
  else Some (fst ∘ report_of <$> peers,
             kMsgReport ((snd ∘ report_of <$> peers) ++ replicate (MAX_PEERS - length peers) (MkRep false 0 0))).

(** The loop of [BasePeerReport]: entries from [pos] up to [clean] are given to the producer. *)
Fixpoint free_entries (fuel : nat) (p : Peer) (q : list Slot) (pos clean : Z) : option (list Slot) :=
  if pos =? clean then Some q
  else
    match fuel with
    | O => None
    | S fuel =>
        if negb (pos * local_elen p <? 2 ^ 32) then None
        else
          q ← SimbricksBaseIfInDone q pos;
          free_entries fuel p q (wrap_pos (u32 (pos + 1)) (local_enum p)) clean
    end.

Definition BasePeerReport (p : Peer) (r : report) : option Peer :=
  if (written_pos r =? cleanup_pos_last p) && (clean_pos r =? local_pos_cleaned p) then Some p
  else
    q ← free_entries (length (local_q p)) p (local_q p) (local_pos_cleaned p) (clean_pos r);
    Some (set_local (set_cleanup p (cleanup_q p) (cleanup_pos_next p) (written_pos r) (cleanup_pos_reported p))
            q (local_pos p) (local_pos_reported p) (clean_pos r) (last_sent_pos p)).

(** ** Receiving *)

(** [BaseEntryReceived]: the entry is copied, its owner last. *)
Definition BaseEntryReceived (p : Peer) (pos : Z) (s : Slot) : option Peer :=
  _ ← slot_at (cleanup_q p) pos;
  Some (set_cleanup p (put_slot (cleanup_q p) pos s) (cleanup_pos_next p) (cleanup_pos_last p) (cleanup_pos_reported p)).

(** The loop of [SockMsgRxEntries]. *)
Fixpoint entries_received (p : Peer) (pos : Z) (data : list Slot) : option Peer :=
  match data with
  | [] => Some p
  | s :: data => p ← BaseEntryReceived p pos s; entries_received p (u32 (pos + 1)) data
  end.

Definition SockMsgRxEntries (peers : list Peer) (id msg_len num_entries pos : Z) (data : list Slot) : option (list Peer) :=
  p ← peers !! Z.to_nat id;
  let len := u32 (num_entries * cleanup_elen p) in
  if negb (len + entries_data =? msg_len) then None
  else
    p ← entries_received p pos data;
    Some (<[Z.to_nat id := p]> peers).

Fixpoint SockMsgRxReport (peers : list Peer) (rs : list report) : option (list Peer) :=
  match peers, rs with
  | p :: peers, r :: rs =>
      p ← (if valid r then BasePeerReport p r else Some p);
      peers ← SockMsgRxReport peers rs;
      Some (p :: peers)
  | peers, _ => Some peers
  end.

Definition SockMsgRx (peers : list Peer) (m : SockMsg) : option (list Peer) :=
  match m with
  | kMsgReport rs => SockMsgRxReport peers rs
  | kMsgEntries id msg_len num_entries pos data => SockMsgRxEntries peers id msg_len num_entries pos data
  end.

(** ** Polling *)

(** The body of the loop of [BasePoll]. *)
Definition poll_peer (p : Peer) (id : Z) : option (Peer * list SockMsg * bool) :=
  if negb (ready p) then Some (p, [], false)
  else
    '(p, ms, r1) ← PollPeerTransfer p id;
    '(p, r2) ← PollPeerCleanup p;
    Some (p, ms, r1 || r2).

Fixpoint poll_peers (peers : list Peer) (id : Z) : option (list Peer * list SockMsg * bool) :=
  match peers with
  | [] => Some ([], [], false)
  | p :: peers =>
      '(p, ms, r) ← poll_peer p id;
      '(peers, ms', r') ← poll_peers peers (id + 1);
      Some (p :: peers, ms ++ ms', r || r')
  end.

(** [BasePoll] *)
Definition BasePoll (peers : list Peer) : option (list Peer * list SockMsg) :=
  '(peers, ms, report) ← poll_peers peers 0;
  if report : bool then '(peers, m) ← BaseOpPassReport peers; Some (peers, ms ++ [m]) else Some (peers, ms).

End proxy.
