(* ===== verification/DistProxyInv.v ===== *)
(** * Proxies between machines: the two rings together are one channel

    For one peer and one direction: what the positions kept by the two proxies, the rings of the
    two simulators and the messages on the way have to do with each other, and that each
    operation of the proxies and each call of the simulators keeps it so.  Executions are in
    DistProxyRun.v. *)

From S2P Require Import Prelude BaseIf BaseChannel TypedIf DistProxy.

Module proxy_inv.
Import base channel proxy.

(** ** A simulator at its proxy *)

(** It produces into [local_q] and consumes from [cleanup_q] of its peer. *)
Record sim := MkSim {
  sif : SimbricksBaseIf;
  s_out : option Z;             (* allocated and not yet sent *)
  s_in : option Z;              (* polled and not yet done *)
  s_sent : list message;
  s_recv : list message;
}.

Definition out_chan (s : sim) (p : Peer) : chan := MkChan (sif s) (sif s) (local_q p) (s_out s) None (s_sent s) [].
Definition in_chan (s : sim) (p : Peer) : chan := MkChan (sif s) (sif s) (cleanup_q p) None (s_in s) [] (s_recv s).

Definition with_local (p : Peer) (q : list Slot) : Peer :=
  set_local p q (local_pos p) (local_pos_reported p) (local_pos_cleaned p) (last_sent_pos p).
Definition with_cleanup (p : Peer) (q : list Slot) : Peer :=
  set_cleanup p q (cleanup_pos_next p) (cleanup_pos_last p) (cleanup_pos_reported p).

Definition sim_step (s : sim) (p : Peer) (a : act) : option (sim * Peer) :=
  match a with
  | PAlloc _ | PSend _ _ | PSync _ =>
      c ← step (out_chan s p) a;
      Some (MkSim (prod c) (p_slot c) (s_in s) (sent_log c) (s_recv s), with_local p (ring c))
  | CPoll _ | CDone =>
      c ← step (in_chan s p) a;
      Some (MkSim (cons c) (s_out s) (c_slot c) (s_sent s) (recv_log c), with_cleanup p (ring c))
  end.

Definition sim_turn (s : sim) (a : act) : Prop :=
  match a with
  | PAlloc _ | PSync _ => s_out s = None
  | PSend _ ty => s_out s ≠ None ∧ ty ∈u 7
  | CPoll _ => s_in s = None
  | CDone => s_in s ≠ None
  end.

(** ** One direction of one peer *)

(** What the messages on the way say about it. *)
Inductive fmsg := LEntries (msg_len num_entries pos : Z) (data : list Slot) | LWritten (pos : Z).

Definition fwd_of (i : nat) (m : SockMsg) : list fmsg :=
  match m with
  | kMsgReport rs => match rs !! i with Some r => if valid r then [LWritten (written_pos r)] else [] | None => [] end
  | kMsgEntries id msg_len num pos data => if id =? Z.of_nat i then [LEntries msg_len num pos data] else []
  end.

Definition back_of (i : nat) (m : SockMsg) : list Z :=
  match m with
  | kMsgReport rs => match rs !! i with Some r => if valid r then [clean_pos r] else [] | None => [] end
  | kMsgEntries _ _ _ _ _ => []
  end.

(** The sending side's ring, the proxies being its consumer up to the [C]-th message; and the
    receiving side's ring, the proxies being its producer up to the [R]-th. *)
Definition ghost (n : Z) (v : nat) : SimbricksBaseIf :=
  MkIf (pos_of n v) n 0 (pos_of n v) 0 n 0 false false (MkParams 0 0 SyncDisabled).

Definition src_chan (n : Z) (sa : sim) (pa : Peer) (C : nat) : chan :=
  MkChan (sif sa) (ghost n C) (local_q pa) (s_out sa) None (s_sent sa) (take C (s_sent sa)).
Definition dst_chan (n : Z) (sa : sim) (pb : Peer) (sb : sim) (R : nat) : chan :=
  MkChan (ghost n R) (sif sb) (cleanup_q pb) None (s_in sb) (take R (s_sent sa)) (s_recv sb).

(** The entries of a message are the messages from the [r]-th on. *)
Definition entries_ok (n e : Z) (log : list message) (r : nat) (msg_len num pos : Z) (data : list Slot) : Prop :=
  pos = pos_of n r ∧ num = Z.of_nat (length data) ∧ msg_len = entries_data + num * e ∧ pos + num ≤ n ∧
  (r + length data ≤ length log)%nat ∧
  ∀ k s, data !! k = Some s → own_type s ∈u 8 ∧ owner s = SIMBRICKS_PROTO_MSG_OWN_CON ∧ log !! (r + k)%nat = Some (message_of s).

(** The messages on the way lead from [r] entries received and [w] reported to [T] and [WR]. *)
Fixpoint fwd_ok (n e : Z) (log : list message) (r w T WR : nat) (ms : list fmsg) : Prop :=
  match ms with
  | [] => r = T ∧ w = WR
  | LEntries msg_len num pos data :: ms =>
      entries_ok n e log r msg_len num pos data ∧ fwd_ok n e log (r + length data) w T WR ms
  | LWritten pos :: ms => ∃ w', pos = pos_of n w' ∧ (w ≤ w' ≤ r)%nat ∧ fwd_ok n e log r w' T WR ms
  end.

(** The positions on the way back lead from [c] entries freed to [CR]. *)
Fixpoint back_ok (n : Z) (c CR : nat) (ms : list Z) : Prop :=
  match ms with
  | [] => c = CR
  | pos :: ms => ∃ c', pos = pos_of n c' ∧ (c ≤ c' ≤ CR)%nat ∧ back_ok n c' CR ms
  end.

(** [C]: freed at the sender, [CR]: reported as free, [X]: seen free at the receiver, [W]: known
    there to be written, [R]: received, [WR]: reported as written, [T]: sent. *)
Record flow_at (n e : Z) (pa : Peer) (sa : sim) (fwd : list fmsg) (pb : Peer) (sb : sim) (back : list Z)
    (C CR X W R WR T : nat) : Prop := {
  f_n : 0 < n < 2 ^ 31;
  f_e : 0 < e ∧ n * e < 2 ^ 32 ∧ 8 * e ≤ TXBUF_SIZE;
  f_src : inv n (src_chan n sa pa C);
  f_dst : inv n (dst_chan n sa pb sb R);
  f_order : (C ≤ CR ≤ X)%nat ∧ (X ≤ W)%nat ∧ (W ≤ R)%nat ∧ (W ≤ WR ≤ T)%nat ∧ (R ≤ T)%nat ∧ (T ≤ length (s_sent sa))%nat;
  f_seen : (X ≤ n_done (dst_chan n sa pb sb R))%nat;
  f_gap : Z.of_nat T < Z.of_nat C + n;
  f_fwd : fwd_ok n e (s_sent sa) R W T WR fwd;
  f_back : back_ok n C CR back;
  f_local : local_enum pa = n ∧ local_elen pa = e ∧ local_pos pa = pos_of n T ∧ local_pos_cleaned pa = pos_of n C ∧
    local_pos_reported pa = pos_of n WR ∧ u32 (last_sent_pos pa + 1) mod n = pos_of n T;
  f_cleanup : cleanup_enum pb = n ∧ cleanup_elen pb = e ∧ cleanup_pos_next pb = pos_of n X ∧ cleanup_pos_last pb = pos_of n W ∧
    cleanup_pos_reported pb = pos_of n CR;
}.

#[local] Arguments f_n {n e pa sa fwd pb sb back C CR X W R WR T} _.
#[local] Arguments f_e {n e pa sa fwd pb sb back C CR X W R WR T} _.
#[local] Arguments f_src {n e pa sa fwd pb sb back C CR X W R WR T} _.
#[local] Arguments f_dst {n e pa sa fwd pb sb back C CR X W R WR T} _.
#[local] Arguments f_order {n e pa sa fwd pb sb back C CR X W R WR T} _.
#[local] Arguments f_seen {n e pa sa fwd pb sb back C CR X W R WR T} _.
#[local] Arguments f_gap {n e pa sa fwd pb sb back C CR X W R WR T} _.
#[local] Arguments f_fwd {n e pa sa fwd pb sb back C CR X W R WR T} _.
#[local] Arguments f_back {n e pa sa fwd pb sb back C CR X W R WR T} _.
#[local] Arguments f_local {n e pa sa fwd pb sb back C CR X W R WR T} _.
#[local] Arguments f_cleanup {n e pa sa fwd pb sb back C CR X W R WR T} _.

(** What a direction depends on. *)
Definition same_local (p p' : Peer) : Prop :=
  local_q p' = local_q p ∧ local_elen p' = local_elen p ∧ local_enum p' = local_enum p ∧ local_pos p' = local_pos p ∧
  local_pos_reported p' = local_pos_reported p ∧ local_pos_cleaned p' = local_pos_cleaned p ∧ last_sent_pos p' = last_sent_pos p.
Definition same_cleanup (p p' : Peer) : Prop :=
  cleanup_q p' = cleanup_q p ∧ cleanup_elen p' = cleanup_elen p ∧ cleanup_enum p' = cleanup_enum p ∧
  cleanup_pos_next p' = cleanup_pos_next p ∧ cleanup_pos_last p' = cleanup_pos_last p ∧
  cleanup_pos_reported p' = cleanup_pos_reported p.
Definition same_src (s s' : sim) : Prop :=
  out_pos (sif s') = out_pos (sif s) ∧ out_enum (sif s') = out_enum (sif s) ∧ s_out s' = s_out s ∧ s_sent s' = s_sent s.
Definition same_dst (s s' : sim) : Prop :=
  in_pos (sif s') = in_pos (sif s) ∧ in_enum (sif s') = in_enum (sif s) ∧ s_in s' = s_in s ∧ s_recv s' = s_recv s.

Lemma flow_ext n e pa sa fwd pb sb back C CR X W R WR T pa' sa' pb' sb' :
  flow_at n e pa sa fwd pb sb back C CR X W R WR T →
  same_local pa pa' → same_src sa sa' → same_cleanup pb pb' → same_dst sb sb' →
  flow_at n e pa' sa' fwd pb' sb' back C CR X W R WR T.
Proof.
  intros [] (Hl1 & Hl2 & Hl3 & Hl4 & Hl5 & Hl6 & Hl7) (Hs1 & Hs2 & Hs3 & Hs4) (Hc1 & Hc2 & Hc3 & Hc4 & Hc5 & Hc6) (Hd1 & Hd2 & Hd3 & Hd4).
  constructor; rewrite ?Hs4, ?Hl2, ?Hl3, ?Hl4, ?Hl5, ?Hl6, ?Hl7, ?Hc2, ?Hc3, ?Hc4, ?Hc5, ?Hc6; try done.
  - eapply typed.inv_fields; [exact f_src0|..]; cbn; congruence.
  - eapply typed.inv_fields; [exact f_dst0|..]; cbn; congruence.
  - unfold n_done, n_recv in *. cbn in *. by rewrite Hd3, Hd4.
Qed.

(** ** Positions *)

Lemma pos_of_add n v k : 0 < n → (Z.of_nat k) < n → pos_of n (v + k) =
  if pos_of n v + Z.of_nat k <? n then pos_of n v + Z.of_nat k else pos_of n v + Z.of_nat k - n.
Proof.
  intros Hn Hk. unfold pos_of. pose proof (Z.mod_pos_bound (Z.of_nat v) n Hn).
  rewrite Nat2Z.inj_add, <- Zplus_mod_idemp_l. destruct (Z.ltb_spec (Z.of_nat v mod n + Z.of_nat k) n).
  - apply Z.mod_small. lia.
  - symmetry. apply (Z.mod_unique_pos _ _ 1); lia.
Qed.

Lemma pos_of_next n v : 0 < n → (pos_of n v + 1) mod n = pos_of n (S v).
Proof. intros. unfold pos_of. by rewrite Zplus_mod_idemp_l, Nat2Z.inj_succ. Qed.

Lemma wrap_pos_next n v : 0 < n < 2 ^ 31 → wrap_pos (u32 (pos_of n v + 1)) n = pos_of n (S v).
Proof.
  intros Hn. pose proof (pos_of_range n v ltac:(lia)). unfold wrap_pos. rewrite (wrap_id 32) by (unfold fits; lia).
  rewrite <- pos_of_next by lia. destruct (Z.leb_spec n (pos_of n v + 1)).
  - rewrite (wrap_id 32) by (unfold fits; lia). assert (pos_of n v + 1 = n) as -> by lia. by rewrite Z.sub_diag, Z_mod_same_full.
  - symmetry. apply Z.mod_small. lia.
Qed.

(** ** The sending proxy *)

Section flow.
Context (n e : Z).

Lemma src_done sa pa C : (C ≤ length (s_sent sa))%nat → n_done (src_chan n sa pa C) = C.
Proof. intros. unfold n_done, n_recv. cbn. rewrite length_take. lia. Qed.

(** The entry at position [v] of the sender's ring. *)
Lemma src_entry pa sa C v :
  inv n (src_chan n sa pa C) → (C ≤ v)%nat → (C ≤ length (s_sent sa))%nat → Z.of_nat v < Z.of_nat C + n →
  ∃ s, slot_at (local_q pa) (pos_of n v) = Some s ∧ own_type s ∈u 8 ∧
    if decide (v < length (s_sent sa))%nat
    then owner s = SIMBRICKS_PROTO_MSG_OWN_CON ∧ s_sent sa !! v = Some (message_of s)
    else owner s = SIMBRICKS_PROTO_MSG_OWN_PRO.
Proof.
  intros H Hv HC Hr. pose proof (src_done sa pa C HC) as Hd. destruct (decide _).
  - destruct (i_full _ _ H v) as (s & ? & ? & ? & ?); [rewrite Hd; unfold n_sent; cbn; lia|]. by exists s.
  - destruct (i_free _ _ H v) as (s & ? & ? & ?); [unfold n_sent; cbn; lia|by rewrite Hd|]. by exists s.
Qed.

Lemma local_entry_in p pos : 0 ≤ pos < n → local_elen p = e → 0 < e → n * e < 2 ^ 32 → local_entry p pos = slot_at (local_q p) pos.
Proof. intros Hp He H0 Hn. unfold local_entry. rewrite He, (proj2 (Z.ltb_lt _ _)); [done|nia]. Qed.

Lemma cleanup_entry_in p pos : 0 ≤ pos < n → cleanup_elen p = e → 0 < e → n * e < 2 ^ 32 → cleanup_entry p pos = slot_at (cleanup_q p) pos.
Proof. intros Hp He H0 Hn. unfold cleanup_entry. rewrite He, (proj2 (Z.ltb_lt _ _)); [done|nia]. Qed.

Lemma count_spec fuel : ∀ pa sa fwd pb sb back C CR X W R WR T k,
  flow_at n e pa sa fwd pb sb back C CR X W R WR T →
  (k + fuel ≤ 8)%nat → pos_of n T + Z.of_nat k ≤ n → (T + k ≤ length (s_sent sa))%nat → Z.of_nat (T + k) < Z.of_nat C + n →
  ∃ r, count_entries fuel pa (Z.of_nat k) = Some (Z.of_nat r) ∧ (k ≤ r ≤ k + fuel)%nat ∧ pos_of n T + Z.of_nat r ≤ n ∧
    (T + r ≤ length (s_sent sa))%nat ∧ Z.of_nat (T + r) < Z.of_nat C + n ∧
    ((r < k + fuel)%nat → pos_of n T + Z.of_nat r = n ∨ Z.of_nat (T + r) + 1 = Z.of_nat C + n ∨ (T + r = length (s_sent sa))%nat).
Proof.
  induction fuel as [|fuel IH]; intros pa sa fwd pb sb back C CR X W R WR T k H Hk Hn Hs Hg.
  { exists k. split_and!; [done|lia..]. }
  pose proof (f_n H) as Hn0. pose proof (f_order H) as Ho.
  destruct (f_local H) as (En & Ee & Ep & Ec & _). pose proof (pos_of_range n T ltac:(lia)).
  destruct (f_e H) as (He & Hne & _).
  cbn [count_entries]. rewrite En, Ep, Ec. rewrite (wrap_id 32) by (unfold fits; lia).
  destruct (Z.ltb_spec (pos_of n T + Z.of_nat k) n); cbn [negb]; cycle 1.
  { exists k. split_and!; [done|lia..]. }
  assert (pos_of n (T + k) = pos_of n T + Z.of_nat k) as Epk by (rewrite pos_of_add, (proj2 (Z.ltb_lt _ _)) by lia; done).
  rewrite (wrap_id 32) by (unfold fits; lia). rewrite <- Epk, pos_of_next by lia.
  destruct (Z.eqb_spec (pos_of n (S (T + k))) (pos_of n C)) as [Heq|Hne'].
  { exists k. split_and!; [done|lia..|]. intros _. right. left.
    destruct (decide (Z.of_nat (T + k) + 1 = Z.of_nat C + n)) as [|Hno]; [done|].
    assert (S (T + k) = C) by (apply (pos_of_inj n); [lia|done|lia]). lia. }
  rewrite local_entry_in by (done || apply pos_of_range; lia).
  destruct (src_entry pa sa C (T + k) (f_src H)) as (s & -> & _ & Hown); [lia|lia|lia|]. cbn [mbind option_bind].
  destruct (decide (T + k < length (s_sent sa))%nat).
  - destruct Hown as [-> _]. cbn [negb Z.eqb Pos.eqb]. replace (Z.of_nat k + 1) with (Z.of_nat (S k)) by lia.
    destruct (IH pa sa fwd pb sb back C CR X W R WR T (S k) H) as (r & Er & Hr); [lia|lia|lia| |].
    { destruct (decide (Z.of_nat (T + S k) = Z.of_nat C + n)) as [Heq|]; [|lia]. exfalso. apply Hne'.
      replace (S (T + k)) with (C + Z.to_nat n)%nat by lia. apply pos_of_wrap. lia. }
    exists r. split; [exact Er|]. split_and!; [lia..|]. intros ?. apply Hr. lia.
  - rewrite Hown. cbn [negb Z.eqb]. exists k. split_and!; [done|lia..].
Qed.

Lemma fwd_ok_app log T WR T' WR' ms ms' : ∀ r w,
  fwd_ok n e log r w T WR ms → fwd_ok n e log T WR T' WR' ms' → fwd_ok n e log r w T' WR' (ms ++ ms').
Proof.
  induction ms as [|[ml num pos data|pos] ms IH]; intros r w; cbn [fwd_ok app].
  - by intros [-> ->].
  - intros [He H] H'. split; [done|]. by apply IH.
  - intros (w' & -> & Hw & H) H'. exists w'. split_and!; [done|lia..|]. by apply IH.
Qed.

Lemma entries_sent pa sa C T r :
  inv n (src_chan n sa pa C) → 0 < n → (C ≤ T)%nat → (T + r ≤ length (s_sent sa))%nat → Z.of_nat (T + r) < Z.of_nat C + n →
  pos_of n T + Z.of_nat r ≤ n →
  let data := take r (drop (Z.to_nat (pos_of n T)) (local_q pa)) in
  length data = r ∧ entries_ok n e (s_sent sa) T (entries_data + Z.of_nat r * e) (Z.of_nat r) (pos_of n T) data.
Proof.
  intros H Hn HC Hs Hg Hp data. pose proof (pos_of_range n T ltac:(lia)). pose proof (i_ring _ _ H) as Hl. cbn in Hl.
  assert (length data = r) as Hlen by (unfold data; rewrite length_take, length_drop; lia).
  split; [done|]. unfold entries_ok. rewrite Hlen. split_and!; [done..|lia|].
  intros k s Hk. assert (k < r)%nat as Hkr by (rewrite <- Hlen; by eapply lookup_lt_Some).
  unfold data in Hk. rewrite lookup_take_lt, lookup_drop in Hk by done.
  destruct (src_entry pa sa C (T + k) H) as (s' & Hs' & Hty & Hown); [lia..|]. rewrite decide_True in Hown by lia.
  rewrite pos_of_add, (proj2 (Z.ltb_lt _ _)) in Hs' by lia. unfold slot_at in Hs'.
  replace (Z.to_nat (pos_of n T + Z.of_nat k)) with (Z.to_nat (pos_of n T) + k)%nat in Hs' by lia. naive_solver.
Qed.

(** The number of positions between two, when the ring length divides 2^32. *)
Lemma distance a b :
  (n | 2 ^ 32) → 0 < n → (a ≤ b)%nat → Z.of_nat b < Z.of_nat a + n →
  u32 (pos_of n b - pos_of n a) mod n = Z.of_nat b - Z.of_nat a.
Proof.
  intros Hd Hn Hab Hb. unfold wrap, pos_of. rewrite Z.mod_mod_divide by done.
  rewrite <- Zminus_mod. apply Z.mod_small. lia.
Qed.

Lemma transfer_spec i pa sa fwd pb sb back C CR X W R WR T :
  flow_at n e pa sa fwd pb sb back C CR X W R WR T →
  ∃ pa' ms r T', PollPeerTransfer pa (Z.of_nat i) = Some (pa', ms, r) ∧
    flow_at n e pa' sa (fwd ++ (ms ≫= fwd_of i)) pb sb back C CR X W R WR T' ∧ same_cleanup pa pa' ∧ ready pa' = ready pa ∧
    (∀ j, ms ≫= back_of j = []) ∧ (∀ j, j ≠ i → ms ≫= fwd_of j = []) ∧ (T ≤ T')%nat ∧
    (ms = [] → T' = T ∧ (Z.of_nat T + 1 = Z.of_nat C + n ∨ T = length (s_sent sa))) ∧
    ((n | 2 ^ 32) → r = false → T' = T ∨ Z.of_nat T' - Z.of_nat WR < 128).
Proof.
  intros H. pose proof (f_n H) as Hn. pose proof (f_order H) as Ho. pose proof (f_gap H) as Hg.
  destruct (f_local H) as (En & Ee & Ep & Ec & Er & El). destruct (f_e H) as (He & Hne & Htx). pose proof (pos_of_range n T ltac:(lia)).
  destruct (count_spec kPollMax pa sa fwd pb sb back C CR X W R WR T 0 H) as (r & Ecnt & Hr & Hpr & Hsr & Hgr & Hmax); [unfold kPollMax; lia..|].
  unfold PollPeerTransfer. change (Z.of_nat 0) with 0 in Ecnt. rewrite Ecnt. cbn [mbind option_bind].
  destruct (Z.ltb_spec 0 (Z.of_nat r)) as [Hr0|Hr0]; cycle 1.
  { assert (r = 0%nat) as -> by lia. exists pa, [], false, T. cbn [mbind list_bind]. rewrite app_nil_r.
    split_and!; try done; [intros _; split; [done|]|by left]. destruct Hmax as [?|[?|?]]; [unfold kPollMax; lia|lia|left; lia|right; lia]. }
  unfold kPollMax in Hr. unfold BaseOpPassEntries. rewrite En, Ee, Ep, El, Z.eqb_refl. cbn [negb].
  rewrite (wrap_id 32 (Z.of_nat r * e)) by (unfold fits, TXBUF_SIZE in *; nia).
  rewrite (proj2 (Z.ltb_ge _ _)) by nia. rewrite (proj2 (Z.ltb_lt _ (2 ^ 32))) by nia. cbn [negb]. rewrite Nat2Z.id.
  destruct (entries_sent pa sa C T r (f_src H)) as (Hlen & Hents); [lia..|]. cbv zeta in Hlen, Hents. rewrite Hlen, Z.eqb_refl.
  cbn [negb mbind option_bind local_pos local_enum local_pos_reported local_pos_cleaned last_sent_pos local_q set_local].
  rewrite ?En, ?Ep, ?Er, ?Ec. rewrite !(wrap_id 32 (pos_of n T + Z.of_nat r)) by (unfold fits; lia).
  assert ((if pos_of n T + Z.of_nat r <? n then pos_of n T + Z.of_nat r else u32 (pos_of n T + Z.of_nat r - n)) = pos_of n (T + r)) as Epos.
  { rewrite pos_of_add by lia. destruct (_ <? _) eqn:Elt; [done|]. apply Z.ltb_ge in Elt. apply (wrap_id 32). unfold fits. lia. }
  rewrite Epos. rewrite (wrap_id 32 (entries_data + _)) by (unfold fits, entries_data, TXBUF_SIZE in *; nia).
  eexists _, _, _, (T + r)%nat. split; [done|]. split; [|split; [done|]].
  - assert (fwd_ok n e (s_sent sa) R W (T + r) WR (fwd ++ [LEntries (entries_data + Z.of_nat r * e) (Z.of_nat r) (pos_of n T)
      (take r (drop (Z.to_nat (pos_of n T)) (local_q pa)))])) as Hf.
    { eapply fwd_ok_app; [apply (f_fwd H)|]. cbn [fwd_ok]. rewrite Hlen. done. }
    destruct H. constructor; cbn [local_q local_enum local_elen local_pos local_pos_cleaned local_pos_reported last_sent_pos]; try done.
    + lia.
    + cbn [mbind list_bind fwd_of app]. by rewrite Z.eqb_refl.
    + split_and!; try done. unfold wrap. cbn [last_sent_pos set_local]. rewrite Zplus_mod_idemp_l, Z.sub_add, (Z.mod_small _ (2 ^ 32)) by lia. rewrite pos_of_add by lia.
      destruct (Z.ltb_spec (pos_of n T + Z.of_nat r) n); [apply Z.mod_small; lia|].
      assert (pos_of n T + Z.of_nat r = n) as -> by lia. by rewrite Z.sub_diag, Z_mod_same_full.
  - split_and!; [done|done| |lia|done|].
    + intros j Hj. cbn [mbind list_bind fwd_of]. by rewrite (proj2 (Z.eqb_neq _ _)) by lia.
    + intros Hd Hfalse. right. rewrite distance in Hfalse by (done || lia). unfold kPollReportThreshold in Hfalse.
      apply Z.leb_gt in Hfalse. lia.
Qed.

(** ** The receiving proxy *)

Lemma dst_entry pa sa fwd pb sb back C CR X W R WR T v :
  flow_at n e pa sa fwd pb sb back C CR X W R WR T → (X ≤ v ≤ R)%nat → (v ≤ n_done (dst_chan n sa pb sb R))%nat → (v < R)%nat →
  ∃ s, slot_at (cleanup_q pb) (pos_of n v) = Some s ∧
    owner s = if decide (v < n_done (dst_chan n sa pb sb R))%nat then SIMBRICKS_PROTO_MSG_OWN_PRO else SIMBRICKS_PROTO_MSG_OWN_CON.
Proof.
  intros H Hv Hd HR. pose proof (f_n H). pose proof (f_order H) as Ho. pose proof (f_gap H) as Hg.
  assert (n_sent (dst_chan n sa pb sb R) = R) as ER by (unfold n_sent; cbn; rewrite length_take; lia).
  destruct (decide _) as [Hlt|Hge].
  - destruct (i_free _ _ (f_dst H) (v + Z.to_nat n)) as (s & Hs & _ & Hown); [rewrite ER; lia|lia|].
    rewrite pos_of_wrap in Hs by lia. by exists s.
  - destruct (i_full _ _ (f_dst H) v) as (s & Hs & _ & Hown & _); [rewrite ER; lia|]. by exists s.
Qed.

Lemma clean_spec fuel : ∀ pa sa fwd pb sb back C CR X W R WR T Y found,
  flow_at n e pa sa fwd pb sb back C CR X W R WR T → (X ≤ Y < W)%nat → (Y ≤ n_done (dst_chan n sa pb sb R))%nat →
  ∃ X' found', clean_entries fuel pb (pos_of n Y) found = Some (pos_of n X', found') ∧ (Y ≤ X' ≤ W)%nat ∧
    (X' ≤ n_done (dst_chan n sa pb sb R))%nat ∧ (found' = false → X' = Y ∧ found = false) ∧
    (X' = Y → fuel = 0%nat ∨ Y = n_done (dst_chan n sa pb sb R)).
Proof.
  induction fuel as [|fuel IH]; intros pa sa fwd pb sb back C CR X W R WR T Y found H HY Hd.
  { exists Y, found. split_and!; try done; [lia|]. by left. }
  pose proof (f_n H) as Hn. pose proof (f_order H) as Ho. destruct (f_cleanup H) as (En & Ee & _ & El & _). destruct (f_e H) as (He & Hne & _).
  cbn [clean_entries]. rewrite cleanup_entry_in by (done || apply pos_of_range; lia).
  destruct (dst_entry _ _ _ _ _ _ _ _ _ _ _ _ _ Y H) as (s & -> & Hown); [lia..|]. cbn [mbind option_bind]. rewrite Hown.
  destruct (decide _) as [Hlt|Hge]; cbn [negb Z.eqb Pos.eqb]; cycle 1.
  { exists Y, found. split_and!; try done; [lia|]. right. lia. }
  rewrite En, wrap_pos_next, El by done. destruct (Z.eqb_spec (pos_of n (S Y)) (pos_of n W)) as [Heq|Hneq].
  - assert (S Y = W) as <- by (apply (pos_of_inj n); [lia|done|]; pose proof (f_gap H); lia).
    exists (S Y), true. split_and!; try done; lia.
  - destruct (IH pa sa fwd pb sb back C CR X W R WR T (S Y) true H) as (X' & found' & E & HX & HX' & Hf & _).
    { split; [lia|]. destruct (decide (S Y = W)) as [E0|]; [by rewrite E0 in Hneq|lia]. }
    { lia. }
    exists X', found'. split_and!; [done|lia|lia|lia| |lia]. intros Hfalse. by destruct (Hf Hfalse).
Qed.

Lemma cleanup_spec pa sa fwd pb sb back C CR X W R WR T :
  flow_at n e pa sa fwd pb sb back C CR X W R WR T →
  ∃ pb' r X', PollPeerCleanup pb = Some (pb', r) ∧ flow_at n e pa sa fwd pb' sb back C CR X' W R WR T ∧
    same_local pb pb' ∧ ready pb' = ready pb ∧
    (X' = X → X = W ∨ X = n_done (dst_chan n sa pb sb R)) ∧
    ((n | 2 ^ 32) → r = false → X' = X ∨ Z.of_nat X' - Z.of_nat CR < 128).
Proof.
  intros H. pose proof (f_n H) as Hn. pose proof (f_order H) as Ho. destruct (f_cleanup H) as (En & Ee & Ex & El & Er).
  pose proof (f_gap H) as Hg. unfold PollPeerCleanup. rewrite Ex, El.
  destruct (Z.eqb_spec (pos_of n X) (pos_of n W)) as [Heq|Hneq].
  { exists pb, false, X. split_and!; try done; [|by left]. intros _. left. apply (pos_of_inj n); [lia|done|lia]. }
  assert (X ≠ W) by (intros ->; done).
  destruct (clean_spec (S kCleanupMax) pa sa fwd pb sb back C CR X W R WR T X false H) as (X' & found & E & HX & Hd & Hf & Hm); [lia|apply (f_seen H)|].
  rewrite E. cbn [mbind option_bind]. eexists _, _, X'. split; [done|]. split; [|split_and!; try done].
  - destruct H. constructor; cbn [cleanup_q cleanup_enum cleanup_elen cleanup_pos_next cleanup_pos_last cleanup_pos_reported set_cleanup]; try done. lia.
  - intros ->. right. destruct (Hm eq_refl); [done|done].
  - intros Hdiv Hr. apply andb_false_iff in Hr as [->|Hr]; [left; by apply Hf|]. right. rewrite En, Er, distance in Hr by (done || lia).
    unfold kCleanReportThreshold in Hr. apply Z.leb_gt in Hr. lia.
Qed.

(** ** Reports *)

Lemma back_ok_app c CR CR' ms ms' :
  back_ok n c CR ms → back_ok n CR CR' ms' → (CR ≤ CR')%nat → back_ok n c CR' (ms ++ ms').
Proof.
  intros H H' Hle. revert c H. induction ms as [|pos ms IH]; intros c; cbn [back_ok app]; [by intros ->|].
  intros (c' & -> & Hc & H). exists c'. split_and!; [done|lia..|by apply IH].
Qed.

(** A report of the sending proxy, and of the receiving one. *)
Lemma report_src pa sa fwd pb sb back C CR X W R WR T :
  flow_at n e pa sa fwd pb sb back C CR X W R WR T → ready pa = true →
  flow_at n e (report_of pa).1 sa (fwd ++ [LWritten (written_pos (report_of pa).2)]) pb sb back C CR X W R T T.
Proof.
  intros H Hr. unfold report_of. rewrite Hr. cbn [fst snd written_pos].
  assert (fwd_ok n e (s_sent sa) R W T T (fwd ++ [LWritten (local_pos pa)])) as Hf.
  { eapply fwd_ok_app; [apply (f_fwd H)|]. cbn [fwd_ok]. exists T. split_and!; [apply (f_local H)| | |done..]; [|done]. apply (f_order H). }
  destruct H. constructor; cbn; try done; [lia|]. naive_solver.
Qed.

Lemma report_dst pa sa fwd pb sb back C CR X W R WR T :
  flow_at n e pa sa fwd pb sb back C CR X W R WR T → ready pb = true →
  flow_at n e pa sa fwd (report_of pb).1 sb (back ++ [clean_pos (report_of pb).2]) C X X W R WR T.
Proof.
  intros H Hr. unfold report_of. rewrite Hr. cbn [fst snd clean_pos].
  assert (back_ok n C X (back ++ [cleanup_pos_next pb])) as Hf.
  { eapply back_ok_app; [apply (f_back H)| |apply (f_order H)]. cbn [back_ok]. exists X. split_and!; [apply (f_cleanup H)|apply (f_order H)|done|done]. }
  destruct H. constructor; cbn; try done; [lia|]. naive_solver.
Qed.

(** ** Receiving entries *)

(** A whole entry is written by the producer. *)
Lemma put_inv c s :
  inv n c → p_slot c = None → Z.of_nat (n_sent c) < Z.of_nat (n_done c) + n →
  own_type s ∈u 8 → owner s = SIMBRICKS_PROTO_MSG_OWN_CON →
  inv n (MkChan (ghost n (S (n_sent c))) (cons c) (put_slot (ring c) (pos_of n (n_sent c)) s) None (c_slot c)
           (sent_log c ++ [message_of s]) (recv_log c)).
Proof.
  intros [] Hp Hroom Hty Hown. pose proof (pos_of_range n (n_sent c) ltac:(lia)).
  split; simpl; auto; unfold n_alloc, n_sent, n_done, n_recv in *; simpl in *; rewrite ?length_app, ?length_put; simpl; auto.
  - by rewrite Nat.add_0_r, Nat.add_1_r.
  - done.
  - rewrite take_app_le by lia. done.
  - rewrite Hp in *. simpl in *. lia.
  - intros v Hv. destruct (decide (v = length (sent_log c))) as [->|Hne].
    + apply holds_put_eq; [lia|done|done|]. split; [done|]. by rewrite lookup_app_r, Nat.sub_diag by lia.
    + apply holds_put_ne; [lia|done|lia|]. destruct (i_full0 v) as (s' & ? & ? & ? & Hl); [lia|].
      exists s'. split_and!; try done. by rewrite lookup_app_l by lia.
  - intros v Hv1 Hv2. apply holds_put_ne; [lia|lia|lia|]. apply i_free0; lia.
Qed.

Lemma entries_received_spec sa sb data : ∀ pb pos R,
  0 < n < 2 ^ 31 → inv n (dst_chan n sa pb sb R) → (data ≠ [] → pos = pos_of n R) → (R + length data ≤ length (s_sent sa))%nat →
  pos_of n R + Z.of_nat (length data) ≤ n → Z.of_nat (R + length data) ≤ Z.of_nat (n_done (dst_chan n sa pb sb R)) + n →
  (∀ k s, data !! k = Some s → own_type s ∈u 8 ∧ owner s = SIMBRICKS_PROTO_MSG_OWN_CON ∧ s_sent sa !! (R + k)%nat = Some (message_of s)) →
  ∃ q, entries_received pb pos data = Some (with_cleanup pb q) ∧ inv n (dst_chan n sa (with_cleanup pb q) sb (R + length data)).
Proof.
  induction data as [|s data IH]; intros pb pos R Hn H Hpos HR Hp Hroom Hdata.
  { exists (cleanup_q pb). cbn. rewrite Nat.add_0_r. by destruct pb. }
  rewrite (Hpos ltac:(done)). clear Hpos pos. cbn [entries_received length] in *. pose proof (pos_of_range n R ltac:(lia)).
  destruct (Hdata 0%nat s eq_refl) as (Hty & Hown & Hlog). rewrite Nat.add_0_r in Hlog.
  pose proof (i_ring _ _ H) as Hring. cbn in Hring.
  assert (n_sent (dst_chan n sa pb sb R) = R) as ER by (unfold n_sent; cbn; rewrite length_take; lia).
  unfold BaseEntryReceived. destruct (lookup_lt_is_Some_2 (cleanup_q pb) (Z.to_nat (pos_of n R))) as [s0 Es0]; [lia|].
  unfold slot_at at 1. rewrite Es0. cbn [mbind option_bind]. set (q := put_slot _ _ _).
  assert (inv n (dst_chan n sa (with_cleanup pb q) sb (S R))) as H1.
  { pose proof (put_inv _ s H eq_refl) as Hput. rewrite ER in Hput. specialize (Hput ltac:(lia) Hty Hown).
    eapply typed.inv_fields; [exact Hput|..]; try done. cbn. by rewrite (take_S_r _ _ _ Hlog). }
  destruct (IH (with_cleanup pb q) (u32 (pos_of n R + 1)) (S R) Hn H1) as (q' & E' & H').
  - intros Hne. rewrite (wrap_id 32) by (unfold fits; lia). replace (S R) with (R + 1)%nat by lia.
    rewrite pos_of_add, (proj2 (Z.ltb_lt _ _)); [done|..]; destruct data; cbn in *; try done; lia.
  - lia.
  - destruct data as [|s' data]; [cbn; pose proof (pos_of_range n (S R) ltac:(lia)); lia|]. replace (S R) with (R + 1)%nat by lia.
    rewrite pos_of_add, (proj2 (Z.ltb_lt _ _)) by (cbn in *; lia). lia.
  - unfold n_done, n_recv in *. cbn in *. lia.
  - intros k s' Hk. replace (S R + k)%nat with (R + S k)%nat by lia. by apply Hdata.
  - exists q'. split; [exact E'|]. by replace (R + S (length data))%nat with (S R + length data)%nat by lia.
Qed.

Lemma rx_entries_spec pa sa ml num pos data fwd pb sb back C CR X W R WR T :
  flow_at n e pa sa (LEntries ml num pos data :: fwd) pb sb back C CR X W R WR T →
  u32 (num * cleanup_elen pb) + entries_data = ml ∧
  ∃ q, entries_received pb pos data = Some (with_cleanup pb q) ∧
    flow_at n e pa sa fwd (with_cleanup pb q) sb back C CR X W (R + length data) WR T.
Proof.
  intros H. pose proof (f_n H) as Hn. pose proof (f_order H) as Ho. pose proof (f_gap H) as Hg. pose proof (f_seen H) as Hx.
  destruct (f_e H) as (He & Hne & _). destruct (f_fwd H) as [(-> & -> & -> & Hp & Hl & Hdata) Hf]. destruct (f_cleanup H) as (_ & Ee & _).
  pose proof (pos_of_range n R ltac:(lia)).
  split. { rewrite Ee, (wrap_id 32) by (unfold fits; nia). lia. }
  assert (R + length data ≤ T)%nat as HT.
  { clear -Hf. revert Hf. generalize (R + length data)%nat W. induction fwd as [|[? ? ? d|?] fwd IH]; intros r w; cbn.
    - lia.
    - intros [_ Hf]. apply IH in Hf. lia.
    - intros (w' & _ & _ & Hf). by apply IH in Hf. }
  destruct (entries_received_spec sa sb data pb (pos_of n R) R Hn (f_dst H)) as (q & E & Hq); [done|lia|done|lia|done|].
  exists q. split; [done|]. destruct H. constructor; cbn; try done. lia.
Qed.

(** ** Receiving a report *)

(** An entry of the sender's ring is freed. *)
Lemma free_one sa pa C :
  0 < n → inv n (src_chan n sa pa C) → (C < length (s_sent sa))%nat →
  ∃ q, SimbricksBaseIfInDone (local_q pa) (pos_of n C) = Some q ∧ inv n (src_chan n sa (with_local pa q) (S C)).
Proof.
  intros Hn H HC. assert (n_done (src_chan n sa pa C) = C) as Hd by (apply src_done; lia).
  set (c1 := MkChan (sif sa) (ghost n (S C)) (local_q pa) (s_out sa) (Some (pos_of n C)) (s_sent sa) (take (S C) (s_sent sa))).
  assert (n_done c1 = C ∧ n_recv c1 = S C) as [Hd1 Hr1] by (unfold n_done, n_recv; cbn; rewrite length_take; lia).
  assert (inv n c1) as H1.
  { destruct H. unfold n_alloc, n_sent in *. constructor; rewrite ?Hd1, ?Hr1, ?Hd in *; cbn in *; try done.
    - intros pos [= <-]. done.
    - lia. }
  destruct (done_inv n c1 H1) as (c2 & E & H2 & Hs2 & Hr2 & Hp2 & Hc2); [done|].
  cbn in E. destruct (SimbricksBaseIfInDone (local_q pa) (pos_of n C)) as [q|]; [|by destruct (s_out sa)].
  assert (c2 = MkChan (sif sa) (ghost n (S C)) q (s_out sa) None (s_sent sa) (take (S C) (s_sent sa))) as -> by (destruct (s_out sa); by injection E as <-).
  by exists q.
Qed.

Lemma free_spec fuel : ∀ sa pa q C c,
  0 < n < 2 ^ 31 → inv n (src_chan n sa (with_local pa q) C) → local_elen pa = e → local_enum pa = n → 0 < e → n * e < 2 ^ 32 →
  (C ≤ c ≤ C + fuel)%nat → (c ≤ length (s_sent sa))%nat → Z.of_nat c < Z.of_nat C + n →
  ∃ q', free_entries fuel pa q (pos_of n C) (pos_of n c) = Some q' ∧ inv n (src_chan n sa (with_local pa q') c).
Proof.
  induction fuel as [|fuel IH]; intros sa pa q C c Hn H Ee En He Hne Hc Hs Hlt; cbn [free_entries].
  all: destruct (Z.eqb_spec (pos_of n C) (pos_of n c)) as [Heq|Hneq].
  1, 3: exists q; split; [done|]; assert (C = c) as <- by (apply (pos_of_inj n); [lia|done|lia]); done.
  - assert (C = c) as -> by lia. done.
  - assert (C ≠ c) by (intros ->; done). pose proof (pos_of_range n C ltac:(lia)).
    rewrite Ee, (proj2 (Z.ltb_lt _ _)) by nia. cbn [negb].
    destruct (free_one sa (with_local pa q) C) as (q1 & E1 & Hq1); [lia|done|lia|]. cbn [with_local local_q set_local] in E1.
    rewrite E1. cbn [mbind option_bind]. rewrite En, wrap_pos_next by done. apply IH; try done; lia.
Qed.

Lemma fwd_ok_reported log T WR ms : ∀ r w, fwd_ok n e log r w T WR ms → (w ≤ WR)%nat.
Proof.
  induction ms as [|[? ? ? d|?] ms IH]; intros r w; cbn; [lia| |].
  - intros [_ Hf]. by apply IH in Hf.
  - intros (w' & _ & ? & Hf). apply IH in Hf. lia.
Qed.

(** What the report says has been written. *)
Lemma rx_written_spec p pos pa sa fwd sb back C CR X W R WR T :
  flow_at n e pa sa (LWritten pos :: fwd) p sb back C CR X W R WR T →
  ∃ w, flow_at n e pa sa fwd (set_cleanup p (cleanup_q p) (cleanup_pos_next p) pos (cleanup_pos_reported p)) sb back C CR X w R WR T.
Proof.
  intros H. destruct (f_fwd H) as (w & Ew & Hw & Hfw). exists w. pose proof (fwd_ok_reported _ _ _ _ _ _ Hfw).
  destruct H. constructor; cbn; try done; [lia|]. naive_solver.
Qed.

(** What it says is free again. *)
Lemma rx_clean_spec p pos sa fwd pb sb back C CR X W R WR T :
  flow_at n e p sa fwd pb sb (pos :: back) C CR X W R WR T →
  ∃ c q, free_entries (length (local_q p)) p (local_q p) (local_pos_cleaned p) pos = Some q ∧
    (pos = local_pos_cleaned p → q = local_q p) ∧
    flow_at n e (set_local p q (local_pos p) (local_pos_reported p) pos (last_sent_pos p)) sa fwd pb sb back c CR X W R WR T.
Proof.
  intros H. pose proof (f_n H) as Hn. destruct (f_back H) as (c & Ec & Hc & Hbk). pose proof (f_order H) as Ho. pose proof (f_gap H) as Hg.
  destruct (f_local H) as (En & Ee & _ & Ecl & _). destruct (f_e H) as (He & Hne & _). exists c. rewrite Ecl, Ec.
  destruct (free_spec (length (local_q p)) sa p (local_q p) C c) as (q & E & Hq); try done; try lia.
  { destruct H. by destruct p. }
  { pose proof (i_ring _ _ (f_src H)) as Hl. cbn in Hl. lia. }
  exists q. split; [done|]. split.
  - intros Heq. rewrite Heq in E. destruct (length (local_q p)); cbn in E; rewrite Z.eqb_refl in E; by injection E as <-.
  - destruct H. constructor; cbn; try done; [lia|lia|]. naive_solver.
Qed.

(** ** The simulators *)

Definition is_prod (a : act) : bool := match a with PAlloc _ | PSend _ _ | PSync _ => true | _ => false end.

(** A producer's call does not look at the consumer, and leaves its own receiving side alone. *)
Lemma step_prod b k1 k2 q p cs1 cs2 sl r1 r2 a c :
  is_prod a = true → step (MkChan b k1 q p cs1 sl r1) a = Some c →
  step (MkChan b k2 q p cs2 sl r2) a = Some (MkChan (prod c) k2 (ring c) (p_slot c) cs2 (sent_log c) r2) ∧
  cons c = k1 ∧ c_slot c = cs1 ∧ recv_log c = r1 ∧ in_pos (prod c) = in_pos b ∧ in_enum (prod c) = in_enum b ∧
  ∃ new, sent_log c = sl ++ new.
Proof.
  destruct a; try done; intros _; cbn [step p_slot c_slot prod ring sent_log recv_log cons]; destruct p as [pos|]; try done.
  - destruct (SimbricksBaseIfOutAlloc b q ts) as [[[r b'] q']|] eqn:E; [|done]. cbn. intros [= <-].
    apply typed.out_alloc_keeps in E as [_ (? & ? & _)]. split_and!; try done. exists []. by rewrite app_nil_r.
  - destruct (fill q pos data) as [q1|]; [|done]. cbn. destruct (SimbricksBaseIfOutSend q1 pos ty) as [q2|]; [|done]. cbn.
    destruct (slot_at q2 pos) as [s|]; [|done]. cbn. intros [= <-]. split_and!; try done. by eexists.
  - destruct (SimbricksBaseIfOutSync b q ts) as [[[r b'] q']|] eqn:E; [|done]. cbn. intros [= <-].
    apply typed.out_sync_keeps in E as [_ (? & ? & _)]. split_and!; try done. by eexists.
Qed.

(** A consumer's call does not look at the producer, and leaves its own sending side alone. *)
Lemma step_cons_side k1 k2 b q p1 p2 cs l1 l2 r a c :
  is_prod a = false → step (MkChan k1 b q p1 cs l1 r) a = Some c →
  step (MkChan k2 b q p2 cs l2 r) a = Some (MkChan k2 (cons c) (ring c) p2 (c_slot c) l2 (recv_log c)) ∧
  prod c = k1 ∧ p_slot c = p1 ∧ sent_log c = l1 ∧ out_pos (cons c) = out_pos b ∧ out_enum (cons c) = out_enum b ∧
  (length r - pending cs ≤ length (recv_log c) - pending (c_slot c))%nat.
Proof.
  destruct a; try done; intros _; cbn [step p_slot c_slot prod ring sent_log recv_log cons]; destruct cs as [pos|]; try by destruct p1, p2.
  - destruct (SimbricksBaseIfInPoll b q ts) as [[[pos|] b']|] eqn:E; [|..].
    + apply typed.in_poll_keeps in E as (? & ? & _). cbn. destruct (slot_at q pos) as [s|]; [|by destruct p1].
      destruct p1, p2; cbn; intros [= <-]; cbn; rewrite length_app; cbn; split_and!; try done; lia.
    + apply typed.in_poll_keeps in E as (? & ? & _). destruct p1, p2; cbn; intros [= <-]; cbn; split_and!; try done; lia.
    + by destruct p1.
  - destruct (SimbricksBaseIfInDone q pos) as [q'|]; [|by destruct p1]. destruct p1, p2; cbn; intros [= <-]; cbn; split_and!; try done; lia.
Qed.

Lemma fwd_ok_log log new T WR ms : ∀ r w, fwd_ok n e log r w T WR ms → fwd_ok n e (log ++ new) r w T WR ms.
Proof.
  induction ms as [|[ml num pos data|pos] ms IH]; intros r w; cbn [fwd_ok]; [done| |].
  - intros [(Hp & Hnum & Hml & Hr & Hl & Hd) H]. split; [|by apply IH]. split_and!; [done..|rewrite length_app; lia|].
    intros k s Hk. destruct (Hd k s Hk) as (? & ? & Hlk). split_and!; try done. by apply lookup_app_l_Some.
  - intros (w' & ? & ? & H). exists w'. split_and!; [done|lia..|by apply IH].
Qed.

Lemma sim_src_spec pa sa fwd pb sb back C CR X W R WR T a :
  flow_at n e pa sa fwd pb sb back C CR X W R WR T → is_prod a = true → sim_turn sa a →
  ∃ sa' q new, sim_step sa pa a = Some (sa', with_local pa q) ∧ same_dst sa sa' ∧ s_sent sa' = s_sent sa ++ new ∧
    flow_at n e (with_local pa q) sa' fwd pb sb back C CR X W R WR T.
Proof.
  intros H Ha Ht. pose proof (f_order H) as Ho.
  destruct (channel_step_inv n (src_chan n sa pa C) a (f_src H)) as (c & E & Hc); [by destruct a|].
  destruct (step_prod _ _ (sif sa) _ _ _ None _ _ [] _ _ Ha E) as (E' & Hcons & Hcs & Hrecv & Hip & Hie & new & Hnew).
  assert (sim_step sa pa a = Some (MkSim (prod c) (p_slot c) (s_in sa) (sent_log c) (s_recv sa), with_local pa (ring c))) as ->.
  { unfold sim_step, out_chan. destruct a; try done; by rewrite E'. }
  eexists _, (ring c), new. split; [done|]. split; [by split_and!|]. split; [done|].
  assert (∀ v, (v ≤ length (s_sent sa))%nat → take v (sent_log c) = take v (s_sent sa)) as Htake by (intros; by rewrite Hnew, take_app_le).
  destruct H. constructor; cbn [s_sent sif s_out s_in]; try done.
  - eapply typed.inv_fields; [exact Hc|..]; cbn; rewrite ?Hcons, ?Hcs, ?Hrecv, ?Htake by lia; done.
  - eapply typed.inv_fields; [exact f_dst0|..]; cbn; rewrite ?Htake by lia; done.
  - rewrite Hnew, length_app. lia.
  - rewrite Hnew. by apply fwd_ok_log.
Qed.

Lemma sim_dst_spec pa sa fwd pb sb back C CR X W R WR T a :
  flow_at n e pa sa fwd pb sb back C CR X W R WR T → is_prod a = false → sim_turn sb a →
  ∃ sb' q, sim_step sb pb a = Some (sb', with_cleanup pb q) ∧ same_src sb sb' ∧
    flow_at n e pa sa fwd (with_cleanup pb q) sb' back C CR X W R WR T.
Proof.
  intros H Ha Ht.
  destruct (channel_step_inv n (dst_chan n sa pb sb R) a (f_dst H)) as (c & E & Hc); [by destruct a|].
  destruct (step_cons_side _ (sif sb) _ _ _ None _ _ [] _ _ _ Ha E) as (E' & Hprod & Hps & Hsent & Hop & Hoe & Hdone).
  assert (sim_step sb pb a = Some (MkSim (cons c) (s_out sb) (c_slot c) (s_sent sb) (recv_log c), with_cleanup pb (ring c))) as ->.
  { unfold sim_step, in_chan. destruct a; try done; by rewrite E'. }
  eexists _, (ring c). split; [done|]. split; [by split_and!|]. destruct H. constructor; cbn [s_sent sif s_out s_in]; try done.
  - eapply typed.inv_fields; [exact Hc|..]; cbn; rewrite ?Hprod, ?Hps, ?Hsent; done.
  - unfold n_done, n_recv in *. cbn in *. lia.
Qed.

End flow.

(** A report at a peer that is the receiver of one direction and the sender of the other. *)
Lemma rx_report_spec n e n' e' p r pa sa fwd sb back C CR X W R WR T sa' fwd' pb sb' back' C' CR' X' W' R' WR' T' :
  flow_at n e pa sa (LWritten (written_pos r) :: fwd) p sb back C CR X W R WR T →
  flow_at n' e' p sa' fwd' pb sb' (clean_pos r :: back') C' CR' X' W' R' WR' T' →
  ∃ p' w c, BasePeerReport p r = Some p' ∧ ready p' = ready p ∧
    flow_at n e pa sa fwd p' sb back C CR X w R WR T ∧
    flow_at n' e' p' sa' fwd' pb sb' back' c CR' X' W' R' WR' T'.
Proof.
  intros H H'. destruct (rx_written_spec _ _ _ _ _ _ _ _ _ _ _ _ _ _ _ _ H) as (w & H1).
  destruct (rx_clean_spec _ _ _ _ _ _ _ _ _ _ _ _ _ _ _ _ H') as (c & q & E & Hq & H2).
  unfold BasePeerReport. destruct (_ && _) eqn:Eb.
  - apply andb_true_iff in Eb as [Eb1%Z.eqb_eq Eb2%Z.eqb_eq]. exists p, w, c. split_and!; try done.
    + eapply flow_ext; [exact H1|done|done| |done]. unfold same_cleanup. cbn. by split_and!.
    + eapply flow_ext; [exact H2| |done|done|done]. unfold same_local. cbn. rewrite Hq by done. by split_and!.
  - rewrite E. cbn [mbind option_bind]. eexists _, w, c. split; [done|]. split; [done|]. split.
    + eapply flow_ext; [exact H1|done|done|by split_and!|done].
    + eapply flow_ext; [exact H2|by split_and!|done|done|done].
Qed.

End proxy_inv.
