(* ===== verification/DistProxyRun.v ===== *)
(** * Proxies between machines: executions

    Two machines with any number of peers, the polling thread and the receiving thread of each
    proxy, and the simulators, under every interleaving: the invariant of DistProxyInv.v holds for
    each peer and direction. *)

From S2P Require Import Prelude BaseIf BaseChannel TypedIf DistProxy DistProxyInv.

Module proxy_run.
Import base channel proxy proxy_inv.

(** ** The system *)

(** A machine: the peers of its proxy and their simulators, where its polling thread is in
    [BasePoll] and whether it has a report to make, and the messages on the way to it. *)
Record side := MkSide { peers : list Peer; sims : list sim; pc : nat; due : bool; inbox : list SockMsg }.

Inductive ev :=
| ESim (i : nat) (a : act)    (* a call of simulator [i] *)
| EPoll                       (* the polling thread: the next peer, or the report *)
| ERecv                       (* the receiving thread: the next message *)
| EReady (i : nat).           (* the connection of peer [i] is complete *)

(** The polling thread, one pass of the loop in [BasePoll] at a time. *)
Definition poll_thread (x : side) : option (side * list SockMsg) :=
  match peers x !! pc x with
  | Some p =>
      '(p, ms, r) ← poll_peer p (Z.of_nat (pc x));
      Some (MkSide (<[pc x := p]> (peers x)) (sims x) (S (pc x)) (due x || r) (inbox x), ms)
  | None =>
      if due x then
        '(ps, m) ← BaseOpPassReport (peers x);
        Some (MkSide ps (sims x) 0 false (inbox x), [m])
      else Some (MkSide (peers x) (sims x) 0 false (inbox x), [])
  end.

(** Steps of the polling thread alone. *)
Fixpoint poll_steps (k : nat) (x : side) : option (side * list SockMsg) :=
  match k with
  | O => Some (x, [])
  | S k => '(x, ms) ← poll_thread x; '(x, ms') ← poll_steps k x; Some (x, ms ++ ms')
  end.

Lemma poll_steps_S k x : poll_steps (S k) x = '(x, ms) ← poll_thread x; '(x, ms') ← poll_steps k x; Some (x, ms ++ ms').
Proof. done. Qed.

Lemma poll_steps_suffix ps : ∀ x seen,
  peers x = seen ++ ps → pc x = length seen →
  poll_steps (S (length ps)) x =
    '(ps', ms, r) ← poll_peers ps (Z.of_nat (length seen));
    if due x || r then '(qs, m) ← BaseOpPassReport (seen ++ ps'); Some (MkSide qs (sims x) 0 false (inbox x), ms ++ [m])
    else Some (MkSide (seen ++ ps') (sims x) 0 false (inbox x), ms).
Proof.
  induction ps as [|p ps IH]; intros x seen Hx Hpc; rewrite poll_steps_S; cbn [length poll_peers]; unfold poll_thread; rewrite Hx, Hpc.
  - rewrite app_nil_r, lookup_ge_None_2 by lia. cbn [mbind option_bind]. rewrite orb_false_r, app_nil_r. destruct (due x); [|done].
    by destruct (BaseOpPassReport seen) as [[qs m]|].
  - rewrite lookup_app_r, Nat.sub_diag by lia. cbn [lookup list_lookup mbind option_bind].
    destruct (poll_peer p _) as [[[p' ms] r]|]; [|done]. cbn [mbind option_bind].
    rewrite (IH _ (seen ++ [p'])); cycle 1.
    { cbn [peers]. rewrite insert_app_r_alt, Nat.sub_diag, <- app_assoc by lia. done. }
    { cbn [pc]. rewrite length_app. cbn. lia. }
    rewrite length_app. cbn [length]. replace (Z.of_nat (length seen + 1)) with (Z.of_nat (length seen) + 1) by lia.
    destruct (poll_peers ps _) as [[[ps' ms'] r']|]; [|done]. cbn [mbind option_bind due sims inbox]. rewrite <- app_assoc, <- orb_assoc. cbn [app].
    destruct (due x || (r || r')); [|done]. destruct (BaseOpPassReport _) as [[qs m]|]; [|done]. cbn. by rewrite app_assoc.
Qed.

(** One round of the polling thread is a call of [BasePoll]. *)
Lemma poll_round x :
  pc x = 0%nat → due x = false →
  poll_steps (S (length (peers x))) x =
    '(ps, ms) ← BasePoll (peers x); Some (MkSide ps (sims x) 0 false (inbox x), ms).
Proof.
  intros Hpc Hd. rewrite (poll_steps_suffix (peers x) x []) by done. unfold BasePoll. rewrite Hd. cbn [length app].
  change (Z.of_nat 0) with 0. destruct (poll_peers (peers x) 0) as [[[ps ms] r]|]; [|done]. cbn [mbind option_bind orb].
  destruct r; [|done]. by destruct (BaseOpPassReport ps) as [[qs m]|].
Qed.

Definition set_ready (p : Peer) : Peer :=
  MkPeer (local_q p) (local_elen p) (local_enum p) (local_pos p) (local_pos_reported p) (local_pos_cleaned p) (last_sent_pos p)
    (cleanup_q p) (cleanup_elen p) (cleanup_enum p) (cleanup_pos_next p) (cleanup_pos_last p) (cleanup_pos_reported p) true.

(** A step of machine [x]; [y] is the other. *)
Definition side_step (x y : side) (v : ev) : option (side * side) :=
  match v with
  | ESim i a =>
      p ← peers x !! i;
      s ← sims x !! i;
      '(s, p) ← sim_step s p a;
      Some (MkSide (<[i := p]> (peers x)) (<[i := s]> (sims x)) (pc x) (due x) (inbox x), y)
  | EPoll =>
      '(x, ms) ← poll_thread x;
      Some (x, MkSide (peers y) (sims y) (pc y) (due y) (inbox y ++ ms))
  | ERecv =>
      match inbox x with
      | [] => Some (x, y)
      | m :: ms =>
          ps ← SockMsgRx (peers x) m;
          Some (MkSide ps (sims x) (pc x) (due x) ms, y)
      end
  | EReady i => Some (MkSide (alter set_ready i (peers x)) (sims x) (pc x) (due x) (inbox x), y)
  end.

(** The two machines; [true]: the first one steps. *)
Definition pair_step (w : side * side) (v : bool * ev) : option (side * side) :=
  if v.1 then side_step w.1 w.2 v.2 else '(y, x) ← side_step w.2 w.1 v.2; Some (x, y).

Fixpoint pair_run (w : side * side) (vs : list (bool * ev)) : option (side * side) :=
  match vs with [] => Some w | v :: vs => w ← pair_step w v; pair_run w vs end.

(** The simulators make their calls in turn. *)
Definition side_good (x : side) (v : ev) : Prop :=
  match v with
  | ESim i a => ∃ s, sims x !! i = Some s ∧ sim_turn s a
  | _ => True
  end.

Definition pair_good (w : side * side) (v : bool * ev) : Prop := side_good (if v.1 then w.1 else w.2) v.2.

Fixpoint pair_good_run (w : side * side) (vs : list (bool * ev)) : Prop :=
  match vs with
  | [] => True
  | v :: vs => pair_good w v ∧ ∀ w', pair_step w v = Some w' → pair_good_run w' vs
  end.

(** ** Invariant *)

(** A peer that is not ready has nothing to report; a machine without a pending report has few
    unreported positions, if ring lengths divide 2^32. *)
Definition slack (n n' : Z) (due rdy : bool) (T WR X CR : nat) : Prop :=
  (rdy = false → T = WR ∧ X = CR) ∧
  ((n | 2 ^ 32) → (n' | 2 ^ 32) → due = false → (T - WR < 128)%nat ∧ (X - CR < 128)%nat).

(** Lengths and entry sizes of the rings of a peer, in both directions. *)
Record cfg := MkCfg { n1 : Z; e1 : Z; n2 : Z; e2 : Z }.

(** Peer [i], seen from the first machine, with [p], [s] there and [q], [t] on the second. *)
Definition peer_inv (c : cfg) (i : nat) (dx : bool) (inx : list SockMsg) (p : Peer) (s : sim)
    (dy : bool) (iny : list SockMsg) (q : Peer) (t : sim) : Prop :=
  ∃ C CR X W R WR T C' CR' X' W' R' WR' T',
    flow_at (n1 c) (e1 c) p s (iny ≫= fwd_of i) q t (inx ≫= back_of i) C CR X W R WR T ∧
    flow_at (n2 c) (e2 c) q t (inx ≫= fwd_of i) p s (iny ≫= back_of i) C' CR' X' W' R' WR' T' ∧
    slack (n1 c) (n2 c) dx (ready p) T WR X' CR' ∧ slack (n2 c) (n1 c) dy (ready q) T' WR' X CR.

Definition flip (c : cfg) : cfg := MkCfg (n2 c) (e2 c) (n1 c) (e1 c).

Lemma peer_inv_flip c i dx inx p s dy iny q t :
  peer_inv c i dx inx p s dy iny q t → peer_inv (flip c) i dy iny q t dx inx p s.
Proof.
  intros (C & CR & X & W & R & WR & T & C' & CR' & X' & W' & R' & WR' & T' & H1 & H2 & H3 & H4).
  exists C', CR', X', W', R', WR', T', C, CR, X, W, R, WR, T. by split_and!.
Qed.

Ltac open_peer H :=
  destruct H as (C & CR & X & W & R & WR & T & C' & CR' & X' & W' & R' & WR' & T' & H1 & H2 & H3 & H4).

(** A call of the simulator. *)
Lemma peer_sim c i dx inx p s dy iny q t a :
  peer_inv c i dx inx p s dy iny q t → sim_turn s a →
  ∃ s' p', sim_step s p a = Some (s', p') ∧ peer_inv c i dx inx p' s' dy iny q t.
Proof.
  intros H Ha. open_peer H. destruct (is_prod a) eqn:Hp.
  - destruct (sim_src_spec _ _ _ _ _ _ _ _ _ _ _ _ _ _ _ _ H1 Hp Ha) as (s' & q' & new & E & Hd & _ & H1').
    eexists _, _. split; [done|]. exists C, CR, X, W, R, WR, T, C', CR', X', W', R', WR', T'. split_and!; try done.
    eapply flow_ext; [exact H2|by split_and!|done|by split_and!|done].
  - destruct (sim_dst_spec _ _ _ _ _ _ _ _ _ _ _ _ _ _ _ _ H2 Hp Ha) as (s' & q' & E & Hs & H2').
    eexists _, _. split; [done|]. exists C, CR, X, W, R, WR, T, C', CR', X', W', R', WR', T'. split_and!; try done.
    eapply flow_ext; [exact H1|by split_and!|done|by split_and!|done].
Qed.

(** Polling of the peer. *)
Lemma peer_poll c i dx inx p s dy iny q t :
  peer_inv c i dx inx p s dy iny q t →
  ∃ p' ms r, poll_peer p (Z.of_nat i) = Some (p', ms, r) ∧ peer_inv c i (dx || r) inx p' s dy (iny ++ ms) q t ∧
    (∀ j, ms ≫= back_of j = []) ∧ (∀ j, j ≠ i → ms ≫= fwd_of j = []).
Proof.
  intros H. pose proof H as H0. open_peer H. unfold poll_peer. destruct (ready p) eqn:Hr; cbn [negb]; cycle 1.
  { exists p, [], false. by rewrite orb_false_r, app_nil_r. }
  destruct (transfer_spec _ _ i _ _ _ _ _ _ _ _ _ _ _ _ _ H1) as (p1 & ms & r1 & T1 & E1 & H1' & Hcl & Hr1 & Hb & Hf & HT & _ & Hrep).
  rewrite E1. cbn [mbind option_bind].
  assert (flow_at (n2 c) (e2 c) q t (inx ≫= fwd_of i) p1 s (iny ≫= back_of i) C' CR' X' W' R' WR' T') as H2a
    by (eapply flow_ext; [exact H2|by split_and!|done|done|by split_and!]).
  destruct (cleanup_spec _ _ _ _ _ _ _ _ _ _ _ _ _ _ _ H2a) as (p2 & r2 & X2 & E2 & H2' & Hlo & Hr2 & _ & Hrep2).
  rewrite E2. cbn [mbind option_bind]. exists p2, ms, (r1 || r2). split; [done|]. split; [|done].
  exists C, CR, X, W, R, WR, T1, C', CR', X2, W', R', WR', T'. rewrite !bind_app, Hb, app_nil_r. split_and!; try done.
  - eapply flow_ext; [exact H1'|done|done|done|done].
  - split; [intros ?; congruence|]. intros Hd1 Hd2 [Hdx [Hd1f Hd2f]%orb_false_iff]%orb_false_iff. destruct H3 as [_ H3]. destruct (H3 Hd1 Hd2 Hdx).
    destruct (Hrep Hd1 Hd1f) as [->|?], (Hrep2 Hd2 Hd2f) as [->|?]; lia.
Qed.

(** Messages that do not concern the peer. *)
Lemma peer_other c i dx dx' inx p s dy iny q t ms :
  peer_inv c i dx inx p s dy iny q t → (dx' = false → dx = false) → ms ≫= fwd_of i = [] → ms ≫= back_of i = [] →
  peer_inv c i dx' inx p s dy (iny ++ ms) q t.
Proof.
  intros H Hdx Hf Hb. open_peer H. exists C, CR, X, W, R, WR, T, C', CR', X', W', R', WR', T'.
  rewrite !bind_app, Hf, Hb, !app_nil_r. split_and!; try done. destruct H3. split; [done|]. auto.
Qed.

(** A report of all peers. *)
Lemma peer_report c i dx inx p s dy iny q t rs :
  peer_inv c i dx inx p s dy iny q t → rs !! i = Some (report_of p).2 →
  peer_inv c i false inx (report_of p).1 s dy (iny ++ [kMsgReport rs]) q t.
Proof.
  intros H Hi. pose proof H as H0. open_peer H. destruct (ready p) eqn:Hr.
  - pose proof (report_src _ _ _ _ _ _ _ _ _ _ _ _ _ _ _ H1 Hr) as H1'. pose proof (report_dst _ _ _ _ _ _ _ _ _ _ _ _ _ _ _ H2 Hr) as H2'.
    exists C, CR, X, W, R, T, T, C', X', X', W', R', WR', T'. rewrite !bind_app. cbn [mbind list_bind fwd_of back_of]. rewrite Hi.
    assert (valid (report_of p).2 = true) as -> by (unfold report_of; by rewrite Hr). rewrite !app_nil_r. split_and!; try done.
    split; [intros _; done|]. intros _ _ _. lia.
  - assert (report_of p = (p, MkRep false 0 0)) as E by (unfold report_of; by rewrite Hr). rewrite E in *. cbn [fst snd] in *.
    apply (peer_other c i dx) with (ms := [kMsgReport rs]) (dx' := dx) in H0; try (cbn; by rewrite Hi); [|done].
    clear -H0 Hr. open_peer H0. exists C, CR, X, W, R, WR, T, C', CR', X', W', R', WR', T'. split_and!; try done.
    destruct H3 as [H3 _]. destruct (H3 Hr) as [-> ->]. split; [done|]. intros _ _ _. lia.
Qed.

(** A report that arrives. *)
Lemma peer_rx_report c i dx inx p s dy iny q t rs r :
  peer_inv c i dx (kMsgReport rs :: inx) p s dy iny q t → rs !! i = Some r →
  ∃ p', (if valid r then BasePeerReport p r else Some p) = Some p' ∧ peer_inv c i dx inx p' s dy iny q t.
Proof.
  intros H Hi. open_peer H. cbn [mbind list_bind fwd_of back_of] in H1, H2. rewrite Hi in H1, H2. destruct (valid r); cycle 1.
  { exists p. split; [done|]. by exists C, CR, X, W, R, WR, T, C', CR', X', W', R', WR', T'. }
  destruct (rx_report_spec _ _ _ _ _ _ _ _ _ _ _ _ _ _ _ _ _ _ _ _ _ _ _ _ _ _ _ _ _ _ H2 H1) as (p' & w & k & E & Hr & H2' & H1').
  exists p'. split; [done|]. exists k, CR, X, W, R, WR, T, C', CR', X', w, R', WR', T'. rewrite Hr. by split_and!.
Qed.

(** Entries that arrive. *)
Lemma peer_rx_entries c i dx inx p s dy iny q t ml num pos data :
  peer_inv c i dx (kMsgEntries (Z.of_nat i) ml num pos data :: inx) p s dy iny q t →
  u32 (num * cleanup_elen p) + entries_data = ml ∧
  ∃ p', entries_received p pos data = Some p' ∧ peer_inv c i dx inx p' s dy iny q t.
Proof.
  intros H. open_peer H. cbn [mbind list_bind fwd_of back_of] in H1, H2. rewrite Z.eqb_refl in H2.
  destruct (rx_entries_spec _ _ _ _ _ _ _ _ _ _ _ _ _ _ _ _ _ _ _ H2) as (El & q' & E & H2'). split; [done|]. eexists. split; [exact E|].
  exists C, CR, X, W, R, WR, T, C', CR', X', W', (R' + length data)%nat, WR', T'. split_and!; try done.
  eapply flow_ext; [exact H1|by split_and!|done|done|done].
Qed.

(** A message that arrives for another peer. *)
Lemma peer_rx_other c i dx inx p s dy iny q t m :
  peer_inv c i dx (m :: inx) p s dy iny q t → fwd_of i m = [] → back_of i m = [] → peer_inv c i dx inx p s dy iny q t.
Proof.
  intros H Hf Hb. open_peer H. cbn [mbind list_bind] in H1, H2. rewrite Hf in H2. rewrite Hb in H1.
  by exists C, CR, X, W, R, WR, T, C', CR', X', W', R', WR', T'.
Qed.

Lemma peer_ready c i dx inx p s dy iny q t :
  peer_inv c i dx inx p s dy iny q t → peer_inv c i dx inx (set_ready p) s dy iny q t.
Proof.
  intros H. open_peer H. exists C, CR, X, W, R, WR, T, C', CR', X', W', R', WR', T'. split_and!; try done.
  - eapply flow_ext; [exact H1|by split_and!|done|done|done].
  - eapply flow_ext; [exact H2|done|done|by split_and!|done].
  - destruct H3 as [_ ?]. by split.
Qed.

(** ** The whole system *)

Definition msg_ok (k : nat) (m : SockMsg) : Prop :=
  match m with
  | kMsgReport rs => length rs = MAX_PEERS
  | kMsgEntries id _ _ _ _ => ∃ j, (j < k)%nat ∧ id = Z.of_nat j
  end.

Record winv (cs : list cfg) (x y : side) : Prop := {
  w_max : (length cs ≤ MAX_PEERS)%nat;
  w_lengths : length (peers x) = length cs ∧ length (sims x) = length cs ∧ length (peers y) = length cs ∧ length (sims y) = length cs;
  w_msgs : Forall (msg_ok (length cs)) (inbox x) ∧ Forall (msg_ok (length cs)) (inbox y);
  w_peers : ∀ i c p s q t, cs !! i = Some c → peers x !! i = Some p → sims x !! i = Some s →
    peers y !! i = Some q → sims y !! i = Some t → peer_inv c i (due x) (inbox x) p s (due y) (inbox y) q t;
}.

Lemma winv_flip cs x y : winv cs x y → winv (flip <$> cs) y x.
Proof.
  intros [Hm Hl [Hx Hy] Hp]. constructor; rewrite ?length_fmap; try naive_solver.
  intros i c p s q t Hc Hp1 Hs1 Hq1 Ht1. rewrite list_lookup_fmap in Hc. destruct (cs !! i) as [c0|] eqn:E; [|done]. injection Hc as <-.
  by apply peer_inv_flip, (Hp i c0 q t p s).
Qed.

(** The other ends of a peer. *)
Lemma winv_lookup cs x y i p :
  winv cs x y → peers x !! i = Some p →
  ∃ c s q t, cs !! i = Some c ∧ sims x !! i = Some s ∧ peers y !! i = Some q ∧ sims y !! i = Some t ∧
    peer_inv c i (due x) (inbox x) p s (due y) (inbox y) q t.
Proof.
  intros H Hp. destruct (w_lengths _ _ _ H) as (L1 & L2 & L3 & L4). pose proof (lookup_lt_Some _ _ _ Hp).
  destruct (lookup_lt_is_Some_2 cs i) as [c Hc]; [lia|]. destruct (lookup_lt_is_Some_2 (sims x) i) as [s Hs]; [lia|].
  destruct (lookup_lt_is_Some_2 (peers y) i) as [q Hq]; [lia|]. destruct (lookup_lt_is_Some_2 (sims y) i) as [t Ht]; [lia|].
  exists c, s, q, t. split_and!; try done. by apply (w_peers _ _ _ H i).
Qed.

Lemma poll_peer_msgs p id p' ms r :
  poll_peer p id = Some (p', ms, r) → ms = [] ∨ ∃ ml num pos data, ms = [kMsgEntries id ml num pos data].
Proof.
  unfold poll_peer. destruct (negb _); [intros [= <- <- <-]; by left|].
  destruct (PollPeerTransfer p id) as [[[p1 ms1] r1]|] eqn:E; [|done]. cbn. destruct (PollPeerCleanup p1) as [[p2 r2]|]; [|done]. cbn. intros [= <- <- <-].
  unfold PollPeerTransfer in E. destruct (count_entries _ _ _) as [k|]; [|done]. cbn in E. destruct (0 <? k); [|injection E as <- <- <-; by left].
  unfold BaseOpPassEntries in E. repeat (case_match; try done). cbn in *. simplify_eq. right. by do 4 eexists.
Qed.

(** Reports are handled peer by peer. *)
Lemma rx_report_all ps : ∀ rs,
  (∀ i p r, ps !! i = Some p → rs !! i = Some r → valid r = true → is_Some (BasePeerReport p r)) →
  ∃ ps', SockMsgRxReport ps rs = Some ps' ∧ length ps' = length ps ∧
    ∀ i p, ps !! i = Some p → ∃ p', ps' !! i = Some p' ∧
      match rs !! i with Some r => (if valid r then BasePeerReport p r else Some p) = Some p' | None => p' = p end.
Proof.
  induction ps as [|p ps IH]; intros rs Hrs; [exists []; by destruct rs|]. destruct rs as [|r rs].
  { exists (p :: ps). split_and!; try done. intros i p0 Hp0. by exists p0. }
  destruct (IH rs (λ i, Hrs (S i))) as (ps' & E & Hl & Hps). cbn [SockMsgRxReport].
  assert (∃ p', (if valid r then BasePeerReport p r else Some p) = Some p') as (p' & Ep).
  { destruct (valid r) eqn:Hv; [|by eexists]. destruct (Hrs 0%nat p r eq_refl eq_refl Hv) as [p' Ep]. by exists p'. }
  rewrite Ep. cbn [mbind option_bind]. rewrite E. cbn [mbind option_bind]. exists (p' :: ps'). split_and!; [done|cbn; lia|].
  intros [|i] p0 Hp0; cbn in *; [|by apply Hps]. injection Hp0 as <-. by exists p'.
Qed.

Lemma step_sim cs x y i a :
  winv cs x y → side_good x (ESim i a) → ∃ x', side_step x y (ESim i a) = Some (x', y) ∧ winv cs x' y.
Proof.
  intros H (s & Hs & Ha). destruct (w_lengths _ _ _ H) as (L1 & L2 & L3 & L4). cbn [side_step].
  pose proof (lookup_lt_Some _ _ _ Hs) as Hlt. destruct (lookup_lt_is_Some_2 (peers x) i) as [p Hp]; [lia|].
  destruct (winv_lookup _ _ _ _ _ H Hp) as (c & s' & q & t & Hc & Hs' & Hq & Ht & Hi). rewrite Hs in Hs'. injection Hs' as <-.
  destruct (peer_sim _ _ _ _ _ _ _ _ _ _ a Hi Ha) as (s1 & p1 & E & H1). rewrite Hp, Hs. cbn [mbind option_bind]. rewrite E. cbn [mbind option_bind].
  eexists. split; [done|]. destruct H. constructor; cbn [peers sims due inbox]; rewrite ?length_insert; try done.
  intros j c' p' s' q' t' Hc' Hp' Hs' Hq' Ht'. destruct (decide (j = i)) as [->|Hj].
  - rewrite list_lookup_insert_eq in Hp' by lia. rewrite list_lookup_insert_eq in Hs' by lia. simplify_eq. done.
  - rewrite list_lookup_insert_ne in Hp' by done. rewrite list_lookup_insert_ne in Hs' by done. by apply (w_peers0 j).
Qed.

Lemma step_poll cs x y : winv cs x y → ∃ x' y', side_step x y EPoll = Some (x', y') ∧ winv cs x' y' ∧ sims x' = sims x ∧ sims y' = sims y.
Proof.
  intros H. destruct (w_lengths _ _ _ H) as (L1 & L2 & L3 & L4). cbn [side_step]. unfold poll_thread.
  destruct (peers x !! pc x) as [p|] eqn:Hp.
  - destruct (winv_lookup _ _ _ _ _ H Hp) as (c & s & q & t & Hc & Hs & Hq & Ht & Hi). pose proof (lookup_lt_Some _ _ _ Hp).
    destruct (peer_poll _ _ _ _ _ _ _ _ _ _ Hi) as (p' & ms & r & E & H1 & Hb & Hf). rewrite E. cbn [mbind option_bind].
    eexists _, _. split; [done|]. split; [|done]. destruct H as [Hmax _ [Hm1 Hm2] Hpe].
    constructor; cbn [peers sims due inbox]; rewrite ?length_insert; try done.
    + split; [done|]. apply Forall_app. split; [done|]. destruct (poll_peer_msgs _ _ _ _ _ E) as [->|(? & ? & ? & ? & ->)]; [done|].
      constructor; [|done]. exists (pc x). split; [lia|done].
    + intros j c' p1 s1 q1 t1 Hc' Hp' Hs' Hq' Ht'. destruct (decide (j = pc x)) as [->|Hj].
      * rewrite list_lookup_insert_eq in Hp' by lia. simplify_eq. done.
      * rewrite list_lookup_insert_ne in Hp' by done. eapply peer_other; [by apply (Hpe j)| |by apply Hf|done].
        intros [? _]%orb_false_iff. done.
  - destruct (due x) eqn:Hd; cycle 1.
    { eexists _, _. split; [done|]. split; [|done]. rewrite app_nil_r. destruct H. constructor; cbn [peers sims due inbox]; try done. by rewrite <- Hd. }
    unfold BaseOpPassReport. rewrite (proj2 (Nat.ltb_ge _ _)) by (pose proof (w_max _ _ _ H); lia). cbn [mbind option_bind].
    eexists _, _. split; [done|]. split; [|done]. destruct H as [Hmax _ [Hm1 Hm2] Hpe].
    constructor; cbn [peers sims due inbox]; rewrite ?length_fmap; try done.
    + split; [done|]. apply Forall_app. split; [done|]. constructor; [|done]. unfold msg_ok. rewrite length_app, length_fmap, length_replicate. lia.
    + intros j c' p1 s1 q1 t1 Hc' Hp' Hs' Hq' Ht'. rewrite list_lookup_fmap in Hp'. destruct (peers x !! j) as [p0|] eqn:Hp0; [|done]. cbn in Hp'. injection Hp' as <-.
      eapply peer_report; [by eapply (Hpe j)|]. apply lookup_app_l_Some. by rewrite list_lookup_fmap, Hp0.
Qed.

Lemma step_recv cs x y : winv cs x y → ∃ x', side_step x y ERecv = Some (x', y) ∧ winv cs x' y ∧ sims x' = sims x.
Proof.
  intros H. destruct (w_lengths _ _ _ H) as (L1 & L2 & L3 & L4). cbn [side_step].
  destruct (inbox x) as [|m ms] eqn:Em; [by exists x|]. destruct H as [Hmax _ [Hm1 Hm2] Hpe]. rewrite Em in *.
  apply Forall_cons in Hm1 as [Hm Hm1]. destruct m as [rs|id ml num pos data]; cbn [SockMsgRx].
  - destruct (rx_report_all (peers x) rs) as (ps & E & Hl & Hps).
    { intros i p r Hp Hr Hv. pose proof (lookup_lt_Some _ _ _ Hp).
      destruct (lookup_lt_is_Some_2 cs i) as [c Hc]; [lia|]. destruct (lookup_lt_is_Some_2 (sims x) i) as [s Hs]; [lia|].
      destruct (lookup_lt_is_Some_2 (peers y) i) as [q Hq]; [lia|]. destruct (lookup_lt_is_Some_2 (sims y) i) as [t Ht]; [lia|].
      destruct (peer_rx_report _ _ _ _ _ _ _ _ _ _ _ _ (Hpe i c p s q t Hc Hp Hs Hq Ht) Hr) as (p' & Ep & _). rewrite Hv in Ep. by exists p'. }
    rewrite E. cbn [mbind option_bind]. eexists. split; [done|]. split; [|done]. constructor; cbn [peers sims due inbox]; rewrite ?Hl; try done.
    intros j c' p1 s1 q1 t1 Hc' Hp' Hs' Hq' Ht'. destruct (lookup_lt_is_Some_2 (peers x) j) as [p0 Hp0]; [apply lookup_lt_Some in Hp'; lia|].
    destruct (Hps j p0 Hp0) as (p2 & Hp2 & Hr2). rewrite Hp2 in Hp'. injection Hp' as ->.
    destruct (lookup_lt_is_Some_2 rs j) as [r Hr]; [cbn in Hm; apply lookup_lt_Some in Hp0; lia|]. rewrite Hr in Hr2.
    destruct (peer_rx_report _ _ _ _ _ _ _ _ _ _ _ _ (Hpe j c' p0 s1 q1 t1 Hc' Hp0 Hs' Hq' Ht') Hr) as (p3 & Ep & H3). congruence.
  - destruct Hm as (i & Hi & ->). unfold SockMsgRxEntries. rewrite Nat2Z.id. destruct (lookup_lt_is_Some_2 (peers x) i) as [p Hp]; [lia|].
    destruct (lookup_lt_is_Some_2 cs i) as [c Hc]; [lia|]. destruct (lookup_lt_is_Some_2 (sims x) i) as [s Hs]; [lia|].
    destruct (lookup_lt_is_Some_2 (peers y) i) as [q Hq]; [lia|]. destruct (lookup_lt_is_Some_2 (sims y) i) as [t Ht]; [lia|].
    destruct (peer_rx_entries _ _ _ _ _ _ _ _ _ _ _ _ _ _ (Hpe i c p s q t Hc Hp Hs Hq Ht)) as (El & p' & E & H').
    rewrite Hp. cbn [mbind option_bind]. rewrite El, Z.eqb_refl. cbn [negb]. rewrite E. cbn [mbind option_bind].
    eexists. split; [done|]. split; [|done]. constructor; cbn [peers sims due inbox]; rewrite ?length_insert; try done.
    intros j c' p1 s1 q1 t1 Hc' Hp' Hs' Hq' Ht'. destruct (decide (j = i)) as [->|Hj].
    + rewrite list_lookup_insert_eq in Hp' by lia. simplify_eq. done.
    + rewrite list_lookup_insert_ne in Hp' by done. eapply peer_rx_other; [by apply (Hpe j)| |done]. cbn. by rewrite (proj2 (Z.eqb_neq _ _)) by lia.
Qed.

Lemma step_ready cs x y i : winv cs x y → ∃ x', side_step x y (EReady i) = Some (x', y) ∧ winv cs x' y ∧ sims x' = sims x.
Proof.
  intros H. eexists. split; [done|]. split; [|done]. destruct H. constructor; cbn [peers sims due inbox]; rewrite ?length_alter; try done.
  intros j c p s q t Hc Hp Hs Hq Ht. destruct (decide (j = i)) as [->|Hj].
  - rewrite list_lookup_alter_eq in Hp. destruct (peers x !! i) as [p0|] eqn:Hp0; [|done]. injection Hp as <-. by apply peer_ready, (w_peers0 i).
  - rewrite list_lookup_alter_ne in Hp by done. by apply (w_peers0 j).
Qed.

Lemma side_step_inv cs x y v : winv cs x y → side_good x v → ∃ x' y', side_step x y v = Some (x', y') ∧ winv cs x' y'.
Proof.
  intros H Hg. destruct v as [i a| | |i].
  - destruct (step_sim cs x y i a H Hg) as (x' & ? & ?). by exists x', y.
  - destruct (step_poll cs x y H) as (x' & y' & ? & ? & _). by exists x', y'.
  - destruct (step_recv cs x y H) as (x' & ? & ? & _). by exists x', y.
  - destruct (step_ready cs x y i H) as (x' & ? & ? & _). by exists x', y.
Qed.

Lemma flip_flip (cs : list cfg) : flip <$> (flip <$> cs) = cs.
Proof. rewrite <- list_fmap_compose. rewrite <- (list_fmap_id cs) at 2. apply list_fmap_ext. by intros ? []. Qed.

Lemma pair_step_inv cs w v : winv cs w.1 w.2 → pair_good w v → ∃ w', pair_step w v = Some w' ∧ winv cs w'.1 w'.2.
Proof.
  intros H Hg. destruct v as [[] v]; unfold pair_step, pair_good in *; cbn [fst snd] in *.
  - destruct (side_step_inv cs w.1 w.2 v H Hg) as (x & y & E & H'). by exists (x, y).
  - destruct (side_step_inv _ w.2 w.1 v (winv_flip _ _ _ H) Hg) as (y & x & E & H'). rewrite E. cbn [mbind option_bind].
    exists (x, y). split; [done|]. apply winv_flip in H'. by rewrite flip_flip in H'.
Qed.

Lemma pair_run_inv cs vs : ∀ w, winv cs w.1 w.2 → pair_good_run w vs → ∃ w', pair_run w vs = Some w' ∧ winv cs w'.1 w'.2.
Proof.
  induction vs as [|v vs IH]; intros w H Hg; [by exists w|]. destruct Hg as [Hv Hg]. cbn [pair_run].
  destruct (pair_step_inv cs w v H Hv) as (w1 & E & H1). rewrite E. cbn [mbind option_bind]. by apply IH, Hg.
Qed.

(** ** From the start *)

(** Rings of zeroed memory, and connections that are not complete yet. *)
Definition new_proxy_peer (n e n' e' : Z) : Peer :=
  MkPeer (fresh_ring (Z.to_nat n)) e n 0 0 0 (2 ^ 32 - 1) (fresh_ring (Z.to_nat n')) e' n' 0 0 0 false.

Definition new_sim (n e n' : Z) (sync : bool) (ps : Params) : sim :=
  MkSim (MkIf 0 n' 0 0 e n 0 false sync ps) None None [] [].

(** Whether a simulator synchronizes, and its parameters. *)
Definition new_pair (cs : list (cfg * (bool * Params) * (bool * Params))) : side * side :=
  (MkSide ((λ c, new_proxy_peer (n1 c.1.1) (e1 c.1.1) (n2 c.1.1) (e2 c.1.1)) <$> cs)
     ((λ c, new_sim (n1 c.1.1) (e1 c.1.1) (n2 c.1.1) c.1.2.1 c.1.2.2) <$> cs) 0 false [],
   MkSide ((λ c, new_proxy_peer (n2 c.1.1) (e2 c.1.1) (n1 c.1.1) (e1 c.1.1)) <$> cs)
     ((λ c, new_sim (n2 c.1.1) (e2 c.1.1) (n1 c.1.1) c.2.1 c.2.2) <$> cs) 0 false []).

Definition ring_ok (n e : Z) : Prop := 0 < n < 2 ^ 31 ∧ 0 < e ∧ n * e < 2 ^ 32 ∧ 8 * e ≤ TXBUF_SIZE.
Definition cfg_ok (c : cfg) : Prop := ring_ok (n1 c) (e1 c) ∧ ring_ok (n2 c) (e2 c).

Lemma new_flow n e n' e' y ps y' ps' :
  ring_ok n e →
  flow_at n e (new_proxy_peer n e n' e') (new_sim n e n' y ps) [] (new_proxy_peer n' e' n e) (new_sim n' e' n y' ps') [] 0 0 0 0 0 0 0.
Proof.
  intros (Hn & He & Hne & Htx). assert (Forall (λ s, own_type s ∈u 8 ∧ owner s = SIMBRICKS_PROTO_MSG_OWN_PRO) (fresh_ring (Z.to_nat n))) as Hfree
    by (apply Forall_replicate; done).
  assert (Z.of_nat (length (fresh_ring (Z.to_nat n))) = n) as Hl by (unfold fresh_ring; rewrite length_replicate; lia).
  assert (pos_of n 0 = 0) as H0 by (unfold pos_of; apply Zmod_0_l).
  constructor; try done; rewrite ?H0; try done; try (cbn; lia).
  - eapply typed.inv_fields; [apply (free_ring_inv n _ (sif (new_sim n e n' y ps)) (ghost n 0) ltac:(lia) Hl Hfree)|..]; done.
  - eapply typed.inv_fields; [apply (free_ring_inv n _ (ghost n 0) (sif (new_sim n' e' n y' ps')) ltac:(lia) Hl Hfree)|..]; done.
Qed.

Lemma proxy_new_inv cs :
  Forall (λ c, cfg_ok c.1.1) cs → (length cs ≤ MAX_PEERS)%nat → winv ((λ c, c.1.1) <$> cs) (new_pair cs).1 (new_pair cs).2.
Proof.
  intros Hc Hl. constructor; cbn [new_pair fst snd peers sims inbox due]; rewrite ?length_fmap; try done.
  intros i c p s q t Ec Ep Es Eq Et. rewrite list_lookup_fmap in Ec. rewrite list_lookup_fmap in Ep.
  rewrite list_lookup_fmap in Es. rewrite list_lookup_fmap in Eq. rewrite list_lookup_fmap in Et. destruct (cs !! i) as [k|] eqn:Ek; [|done].
  cbn in *. simplify_eq. destruct (proj1 (Forall_lookup _ _) Hc i k Ek) as [Hk1 Hk2].
  exists 0%nat, 0%nat, 0%nat, 0%nat, 0%nat, 0%nat, 0%nat, 0%nat, 0%nat, 0%nat, 0%nat, 0%nat, 0%nat, 0%nat.
  split_and!; [by apply new_flow..| |]; (split; [done|]; intros _ _ _; lia).
Qed.

(** What has been received, and what is on the way. *)
Lemma flow_logs n e pa sa fwd pb sb back C CR X W R WR T :
  flow_at n e pa sa fwd pb sb back C CR X W R WR T →
  s_recv sb `prefix_of` s_sent sa ∧ Z.of_nat (length (s_sent sa) - length (s_recv sb)) ≤ 2 * n.
Proof.
  intros []. pose proof (i_recv _ _ f_dst0) as Hr. pose proof (i_order _ _ f_dst0) as (_ & Hle & _). pose proof (i_order _ _ f_src0) as (_ & _ & Ha).
  unfold n_alloc, n_sent, n_recv in *. cbn in *. rewrite length_take in Hle.
  assert (length (take C (s_sent sa)) = C) as HlC by (rewrite length_take; lia).
  unfold n_done, n_recv in Ha, f_seen0. cbn in Ha, f_seen0. rewrite HlC in Ha. split; [|lia].
  rewrite Hr, take_take. apply prefix_take.
Qed.

(** C24: The proxies are transparent. Two machines whose simulators are connected by at most
    [MAX_PEERS] = 32 peers, with rings of which eight entries fit the send buffer (and lengths
    and sizes that fit the 32-bit positions), run under any interleaving of the simulators'
    calls, the polling threads and the receiving threads. Then neither proxy aborts, or touches
    memory outside a ring; and on every peer, in both directions, what a simulator received is
    what the other one sent: the first messages, unchanged and in order, with at most two ring
    lengths on the way. *)
Theorem proxy_transparent cs vs :
  Forall (λ c, cfg_ok c.1.1) cs → (length cs ≤ MAX_PEERS)%nat → pair_good_run (new_pair cs) vs →
  ∃ w, pair_run (new_pair cs) vs = Some w ∧
    ∀ i c s t, cs !! i = Some c → sims w.1 !! i = Some s → sims w.2 !! i = Some t →
      (s_recv t `prefix_of` s_sent s ∧ Z.of_nat (length (s_sent s) - length (s_recv t)) ≤ 2 * n1 c.1.1) ∧
      (s_recv s `prefix_of` s_sent t ∧ Z.of_nat (length (s_sent t) - length (s_recv s)) ≤ 2 * n2 c.1.1).
Proof.
  intros Hc Hl Hg. destruct (pair_run_inv _ vs _ (proxy_new_inv cs Hc Hl) Hg) as (w & E & H). exists w. split; [done|].
  intros i c s t Ec Es Et. destruct (w_lengths _ _ _ H) as (L1 & L2 & L3 & L4).
  destruct (lookup_lt_is_Some_2 (peers w.1) i) as [p Hp]; [apply lookup_lt_Some in Es; lia|].
  destruct (lookup_lt_is_Some_2 (peers w.2) i) as [q Hq]; [apply lookup_lt_Some in Et; lia|].
  assert (((λ c, c.1.1) <$> cs) !! i = Some c.1.1) as Ec' by (by rewrite list_lookup_fmap, Ec).
  pose proof (w_peers _ _ _ H i _ p s q t Ec' Hp Es Hq Et) as Hi. open_peer Hi. split; by eapply flow_logs.
Qed.

(** ** Progress *)

(** A proxy with nothing to do: no message to handle, no report to make, and polling any of its
    peers, all connected, finds nothing. *)
Definition quiet (x : side) : Prop :=
  inbox x = [] ∧ due x = false ∧
  ∀ i p, peers x !! i = Some p → ready p = true ∧ poll_peer p (Z.of_nat i) = Some (p, [], false).

(** A simulator that has handled all it can see. *)
Definition drained (s : sim) (p : Peer) : Prop :=
  s_in s = None ∧ ∀ m, slot_at (cleanup_q p) (in_pos (sif s)) = Some m → owner m ≠ SIMBRICKS_PROTO_MSG_OWN_CON.

(** The next entry of the simulator's ring is free. *)
Definition has_room (s : sim) (p : Peer) : Prop :=
  s_out s = None → ∃ m, slot_at (local_q p) (out_pos (sif s)) = Some m ∧ owner m = SIMBRICKS_PROTO_MSG_OWN_PRO.

(** A drained simulator has handled every entry its proxy wrote. *)
Lemma drained_done n e pa sa fwd pb sb back C CR X W R WR T :
  flow_at n e pa sa fwd pb sb back C CR X W R WR T → drained sb pb → n_done (dst_chan n sa pb sb R) = R ∧ length (s_recv sb) = R.
Proof.
  intros H [Hin Hm]. pose proof (f_order _ _ _ _ _ _ _ _ _ _ _ _ _ _ _ H) as Ho. pose proof (f_dst _ _ _ _ _ _ _ _ _ _ _ _ _ _ _ H) as Hd.
  pose proof (i_order _ _ Hd) as (_ & Hle & _). pose proof (i_in_pos _ _ Hd) as Hpos. pose proof (i_full _ _ Hd (length (s_recv sb))) as Hf.
  unfold n_done, n_recv, n_sent in *. cbn in *. rewrite Hin in *. cbn in *. rewrite length_take in *.
  destruct (decide (length (s_recv sb) < R)%nat) as [Hlt|]; [|lia]. destruct Hf as (m & Hs & _ & Hown & _); [lia|].
  rewrite <- Hpos in Hs. by destruct (Hm m Hs).
Qed.

(** Polling that finds nothing, at the sender and at the receiver. *)
Lemma quiet_poll p i :
  ready p = true → poll_peer p i = Some (p, [], false) →
  ∃ p1, PollPeerTransfer p i = Some (p1, [], false) ∧ PollPeerCleanup p1 = Some (p, false).
Proof.
  intros Hr. unfold poll_peer. rewrite Hr. cbn [negb]. destruct (PollPeerTransfer p i) as [[[p1 ms] r1]|]; [|done]. cbn [mbind option_bind].
  destruct (PollPeerCleanup p1) as [[p2 r2]|] eqn:E; [|done]. cbn [mbind option_bind]. intros [= -> -> Hor]. apply orb_false_iff in Hor as [-> ->]. by exists p1.
Qed.

Lemma quiet_src n e i pa sa fwd pb sb back C CR X W R WR T :
  flow_at n e pa sa fwd pb sb back C CR X W R WR T → ready pa = true → poll_peer pa (Z.of_nat i) = Some (pa, [], false) →
  Z.of_nat T + 1 = Z.of_nat C + n ∨ T = length (s_sent sa).
Proof.
  intros H Hr (p1 & E1 & _)%quiet_poll; [|done].
  destruct (transfer_spec n e i _ _ _ _ _ _ _ _ _ _ _ _ _ H) as (p' & ms & r & T' & E & _ & _ & _ & _ & _ & _ & Hms & _).
  rewrite E1 in E. injection E as <- <- <-. by destruct (Hms eq_refl).
Qed.

Lemma quiet_dst n e n' e' i pa sa fwd pb sb back C CR X W R WR T fwd' back' C' CR' X' W' R' WR' T' :
  flow_at n e pa sa fwd pb sb back C CR X W R WR T → flow_at n' e' pb sb fwd' pa sa back' C' CR' X' W' R' WR' T' →
  ready pb = true → poll_peer pb (Z.of_nat i) = Some (pb, [], false) → drained sb pb → X = W.
Proof.
  intros H H' Hr (p1 & E1 & E2)%quiet_poll Hdr; [|done]. destruct (drained_done _ _ _ _ _ _ _ _ _ _ _ _ _ _ _ H Hdr) as [Hd _].
  destruct (transfer_spec n' e' i _ _ _ _ _ _ _ _ _ _ _ _ _ H') as (p' & ms & r & T1 & E & _ & Hcl & _). rewrite E1 in E. injection E as <- <- <-.
  assert (flow_at n e pa sa fwd p1 sb back C CR X W R WR T) as H1 by (eapply flow_ext; [exact H|by split_and!|done|done|by split_and!]).
  destruct (cleanup_spec n e _ _ _ _ _ _ _ _ _ _ _ _ _ H1) as (p2 & r2 & X2 & E' & H2 & _ & _ & Hsame & _). rewrite E2 in E'. injection E' as <- <-.
  pose proof (f_order _ _ _ _ _ _ _ _ _ _ _ _ _ _ _ H) as Ho. pose proof (f_order _ _ _ _ _ _ _ _ _ _ _ _ _ _ _ H2) as Ho2.
  pose proof (f_gap _ _ _ _ _ _ _ _ _ _ _ _ _ _ _ H). pose proof (f_n _ _ _ _ _ _ _ _ _ _ _ _ _ _ _ H).
  destruct (f_cleanup _ _ _ _ _ _ _ _ _ _ _ _ _ _ _ H) as (_ & _ & Ex & _). destruct (f_cleanup _ _ _ _ _ _ _ _ _ _ _ _ _ _ _ H2) as (_ & _ & Ex2 & _).
  assert (X2 = X) as -> by (apply (pos_of_inj n); [lia|congruence|lia]).
  assert (n_done (dst_chan n sa p1 sb R) = n_done (dst_chan n sa pb sb R)) as Ed by done. destruct (Hsame eq_refl) as [?|Hx]; [done|].
  rewrite Ed, Hd in Hx. lia.
Qed.

(** One direction, with few positions unreported at both ends. *)
Lemma quiet_flow n e i pa sa pb sb n' e' C CR X W R WR T C' CR' X' W' R' WR' T' :
  flow_at n e pa sa [] pb sb [] C CR X W R WR T → flow_at n' e' pb sb [] pa sa [] C' CR' X' W' R' WR' T' →
  ready pa = true → poll_peer pa (Z.of_nat i) = Some (pa, [], false) →
  ready pb = true → poll_peer pb (Z.of_nat i) = Some (pb, [], false) → drained sb pb →
  256 ≤ n → (T - WR < 128)%nat → (X - CR < 128)%nat → s_recv sb = s_sent sa ∧ has_room sa pa.
Proof.
  intros H H' Hra Hpa Hrb Hpb Hdr Hn HT HX. pose proof (f_order _ _ _ _ _ _ _ _ _ _ _ _ _ _ _ H) as Ho.
  destruct (f_fwd _ _ _ _ _ _ _ _ _ _ _ _ _ _ _ H) as [-> ->]. pose proof (f_back _ _ _ _ _ _ _ _ _ _ _ _ _ _ _ H) as ->.
  pose proof (quiet_dst _ _ _ _ _ _ _ _ _ _ _ _ _ _ _ _ _ _ _ _ _ _ _ _ _ _ _ H H' Hrb Hpb Hdr) as ->.
  destruct (quiet_src _ _ i _ _ _ _ _ _ _ _ _ _ _ _ _ H Hra Hpa) as [?| ->]; [lia|].
  destruct (drained_done _ _ _ _ _ _ _ _ _ _ _ _ _ _ _ H Hdr) as [_ Hlen]. split.
  - pose proof (i_recv _ _ (f_dst _ _ _ _ _ _ _ _ _ _ _ _ _ _ _ H)) as Hr. unfold n_recv in Hr. cbn in Hr. rewrite Hr, Hlen.
    by rewrite take_take, Nat.min_id, firstn_all.
  - intros Hout. pose proof (f_src _ _ _ _ _ _ _ _ _ _ _ _ _ _ _ H) as Hs. pose proof (i_out_pos _ _ Hs) as Ep. cbn in Ep.
    pose proof (f_gap _ _ _ _ _ _ _ _ _ _ _ _ _ _ _ H) as Hg.
    destruct (i_free _ _ Hs (length (s_sent sa))) as (m & Hm & _ & Hown); [done|rewrite src_done by lia; lia|].
    exists m. split; [|done]. rewrite Ep. unfold n_alloc, n_sent. cbn. rewrite Hout. cbn. by rewrite Nat.add_0_r.
Qed.

(** C25: The proxies do not stall.  When the rings have at least 256 entries, a power of two, and
    both proxies and the simulator that receives have nothing left to do, whatever happened
    before, then everything the other simulator sent has been received, and there is room for its
    next message. *)
Theorem proxy_never_stalls cs vs w i c p s q t :
  Forall (λ c, cfg_ok c.1.1) cs → (length cs ≤ MAX_PEERS)%nat → pair_good_run (new_pair cs) vs → pair_run (new_pair cs) vs = Some w →
  quiet w.1 → quiet w.2 →
  cs !! i = Some c → peers w.1 !! i = Some p → sims w.1 !! i = Some s → peers w.2 !! i = Some q → sims w.2 !! i = Some t →
  256 ≤ n1 c.1.1 → (n1 c.1.1 | 2 ^ 32) → (n2 c.1.1 | 2 ^ 32) → drained t q →
  s_recv t = s_sent s ∧ has_room s p.
Proof.
  intros Hc Hl Hg Hw (Hi1 & Hd1 & Hq1) (Hi2 & Hd2 & Hq2) Ec Hp Hs Hq Ht Hn Hdiv1 Hdiv2 Hdr.
  destruct (pair_run_inv _ vs _ (proxy_new_inv cs Hc Hl) Hg) as (w' & E & H). rewrite Hw in E. injection E as <-.
  assert (((λ c, c.1.1) <$> cs) !! i = Some c.1.1) as Ec' by (by rewrite list_lookup_fmap, Ec).
  pose proof (w_peers _ _ _ H i _ p s q t Ec' Hp Hs Hq Ht) as Hi. rewrite Hi1, Hi2, Hd1, Hd2 in Hi. open_peer Hi.
  destruct (Hq1 i p Hp), (Hq2 i q Hq). destruct H3 as [_ H3], H4 as [_ H4]. destruct (H3 Hdiv1 Hdiv2 eq_refl), (H4 Hdiv2 Hdiv1 eq_refl).
  by eapply (quiet_flow _ _ i p s q t).
Qed.

(** ** Examples *)

Definition sim_turnb (s : sim) (a : act) : bool :=
  match a, s_out s, s_in s with
  | PAlloc _, None, _ | PSync _, None, _ | CPoll _, _, None | CDone, _, Some _ => true
  | PSend _ ty, Some _, _ => (0 <=? ty) && (ty <? 2 ^ 7)
  | _, _, _ => false
  end.

Definition pair_goodb (w : side * side) (v : bool * ev) : bool :=
  match v.2 with
  | ESim i a => match sims (if v.1 then w.1 else w.2) !! i with Some s => sim_turnb s a | None => false end
  | _ => true
  end.

Fixpoint pair_good_runb (w : side * side) (vs : list (bool * ev)) : bool :=
  match vs with
  | [] => true
  | v :: vs => pair_goodb w v && match pair_step w v with Some w => pair_good_runb w vs | None => true end
  end.

Lemma pair_good_runb_sound vs : ∀ w, pair_good_runb w vs = true → pair_good_run w vs.
Proof.
  induction vs as [|v vs IH]; intros w; cbn [pair_good_runb pair_good_run]; [done|]. intros [Hv H]%andb_true_iff. split.
  - unfold pair_good, pair_goodb, side_good in *. destruct v as [b [i a| | |i]]; try done. cbn [fst snd] in *.
    destruct (sims _ !! i) as [s|]; [|done]. exists s. split; [done|]. unfold sim_turnb in Hv.
    destruct a, (s_out s) eqn:Eo, (s_in s) eqn:Ei; try done; cbn; rewrite ?Eo, ?Ei; try done.
    all: apply andb_true_iff in Hv as [?%Z.leb_le ?%Z.ltb_lt]; split; [done|split; lia].
  - intros w' E. rewrite E in H. by apply IH.
Qed.

(** One peer with rings of [n] entries of 64 bytes. *)
Definition demo_cs (n : Z) : list (cfg * (bool * Params) * (bool * Params)) :=
  [(MkCfg n 64 n 64, (true, MkParams 0 100 SyncOptional), (true, MkParams 0 100 SyncOptional))].

Definition on_both (v : ev) : list (bool * ev) := [(true, v); (false, v)].

(** The first simulator sends messages of the given types. *)
Definition sends (tys : list Z) : list (bool * ev) := tys ≫= λ ty, [(true, ESim 0 (PAlloc 10)); (true, ESim 0 (PSend [] ty))].

(** A round of both polling threads, then of both receiving threads; the second simulator takes
    up to [k] messages. *)
Definition take_all (k : nat) : list (bool * ev) := mjoin (replicate k [(false, ESim 0 (CPoll 1000)); (false, ESim 0 CDone)]).
Definition proxy_round : list (bool * ev) := mjoin (replicate 4 (on_both EPoll)) ++ mjoin (replicate 4 (on_both ERecv)).

Definition demo_run (tys : list Z) (k : nat) : list (bool * ev) :=
  on_both (EReady 0) ++ sends tys ++ proxy_round ++ take_all k ++ proxy_round.

Definition demo_end (n : Z) (tys : list Z) (k : nat) : side * side :=
  default (new_pair (demo_cs n)) (pair_run (new_pair (demo_cs n)) (demo_run tys k)).

Lemma demo_cs_ok n : 0 < n → n < 2 ^ 20 → Forall (λ c, cfg_ok c.1.1) (demo_cs n).
Proof. intros. unfold demo_cs. rewrite Forall_singleton. unfold cfg_ok, ring_ok, TXBUF_SIZE. cbn. lia. Qed.

(** Proxies with four-entry rings are stuck after four messages: three arrive and are handled, but
    with three positions unreported neither side makes a report, so the proxy of the sender never
    passes on the fourth, and the sender's ring stays full. *)
Lemma small_ring_stalls :
  let w := demo_end 4 [64; 65; 66; 67] 3 in
  pair_run (new_pair (demo_cs 4)) (demo_run [64; 65; 66; 67] 3) = Some w ∧ pair_good_run (new_pair (demo_cs 4)) (demo_run [64; 65; 66; 67] 3) ∧
  pair_run w [(true, EPoll); (true, EPoll)] = Some w ∧ pair_run w [(false, EPoll); (false, EPoll)] = Some w ∧ inbox w.1 = [] ∧ inbox w.2 = [] ∧
  (length ∘ s_sent <$> sims w.1) = [4%nat] ∧ (length ∘ s_recv <$> sims w.2) = [3%nat].
Proof. split_and!; [by vm_compute|apply pair_good_runb_sound; by vm_compute|by vm_compute..]. Qed.

Lemma proxy_transparent_witness :
  ∃ w, pair_run (new_pair (demo_cs 8)) (demo_run [64; 65; 66] 3) = Some w ∧
    ∀ i c s t, demo_cs 8 !! i = Some c → sims w.1 !! i = Some s → sims w.2 !! i = Some t →
      (s_recv t `prefix_of` s_sent s ∧ Z.of_nat (length (s_sent s) - length (s_recv t)) ≤ 2 * n1 c.1.1) ∧
      (s_recv s `prefix_of` s_sent t ∧ Z.of_nat (length (s_sent t) - length (s_recv s)) ≤ 2 * n2 c.1.1).
Proof.
  apply (proxy_transparent (demo_cs 8) (demo_run [64; 65; 66] 3)).
  - by apply demo_cs_ok.
  - cbn. unfold MAX_PEERS. lia.
  - apply pair_good_runb_sound. by vm_compute.
Defined.

Lemma quiet_one x :
  match peers x with [p] => ready p = true ∧ poll_peer p 0 = Some (p, [], false) | _ => False end → inbox x = [] → due x = false → quiet x.
Proof.
  intros Hx Hi Hd. split; [done|split; [done|]]. destruct (peers x) as [|p [|? ?]]; try contradiction.
  intros [|i] p' Hp'; [by injection Hp' as <-|]. by rewrite lookup_cons_ne_0 in Hp'.
Qed.

Lemma demo_quiet : quiet (demo_end 256 [64; 65; 66] 3).1 ∧ quiet (demo_end 256 [64; 65; 66] 3).2.
Proof. split; (apply quiet_one; [vm_compute; split; reflexivity|vm_compute; reflexivity..]). Qed.

Lemma proxy_never_stalls_witness :
  ∃ p s t, sims (demo_end 256 [64; 65; 66] 3).1 !! 0%nat = Some s ∧ sims (demo_end 256 [64; 65; 66] 3).2 !! 0%nat = Some t ∧
    length (s_sent s) = 3%nat ∧ s_recv t = s_sent s ∧ has_room s p.
Proof.
  destruct (peers (demo_end 256 [64; 65; 66] 3).1 !! 0%nat) as [p|] eqn:Hp; [|by vm_compute in Hp].
  destruct (sims (demo_end 256 [64; 65; 66] 3).1 !! 0%nat) as [s|] eqn:Hs; [|by vm_compute in Hs].
  destruct (peers (demo_end 256 [64; 65; 66] 3).2 !! 0%nat) as [q|] eqn:Hq; [|by vm_compute in Hq].
  destruct (sims (demo_end 256 [64; 65; 66] 3).2 !! 0%nat) as [t|] eqn:Ht; [|by vm_compute in Ht].
  exists p, s, t. split; [reflexivity|]. split; [reflexivity|]. split; [vm_compute in Hs; injection Hs as <-; reflexivity|].
  refine (proxy_never_stalls (demo_cs 256) (demo_run [64; 65; 66] 3) (demo_end 256 [64; 65; 66] 3) 0
           (MkCfg 256 64 256 64, (true, MkParams 0 100 SyncOptional), (true, MkParams 0 100 SyncOptional)) p s q t
           _ _ _ _ (proj1 demo_quiet) (proj2 demo_quiet) eq_refl Hp Hs Hq Ht _ _ _ _).
  - by apply demo_cs_ok.
  - cbn. unfold MAX_PEERS. lia.
  - apply pair_good_runb_sound. vm_compute. reflexivity.
  - vm_compute. reflexivity.
  - cbn. lia.
  - exists (2 ^ 24). reflexivity.
  - exists (2 ^ 24). reflexivity.
  - vm_compute in Hq. vm_compute in Ht. injection Hq as <-. injection Ht as <-. split; [reflexivity|].
    intros m Hm. vm_compute in Hm. injection Hm as <-. discriminate.
Defined.

End proxy_run.
