(* ===== verification/DpuResources.v ===== *)
(** * Resources of the DPU model (sims/nic/dpu_bm/arm_core_pool.cc, dram_store.cc)

    The pool of ARM cores, an allocator over a 64-bit mask, and the simulated DRAM, a
    key-value store that enforces a capacity. *)

From S2P Require Import Prelude.

Module dpu.

(** ** ARM core pool *)

Record ArmCorePool := MkPool {
  capacity_ : Z;   (* uint32_t *)
  active_ : Z;     (* uint32_t *)
  in_use_ : Z;     (* uint64_t, one bit per core *)
}.

(** [None]: the constructor's assertion fails. *)
Definition new_ArmCorePool (capacity : Z) : option ArmCorePool :=
  if bool_decide (0 < capacity ≤ 64) then Some (MkPool capacity 0 0) else None.

(** The search for the first clear bit; [cores] are the values of [i]. *)
Fixpoint first_clear (in_use : Z) (cores : list Z) : option Z :=
  match cores with
  | [] => None
  | i :: cores => if Z.land in_use (Z.shiftl 1 i) =? 0 then Some i else first_clear in_use cores
  end.

Definition TryAcquire (p : ArmCorePool) : option Z * ArmCorePool :=
  if capacity_ p <=? active_ p then (None, p)
  else
    match first_clear (in_use_ p) (seqZ 0 (capacity_ p)) with
    | Some i => (Some i, MkPool (capacity_ p) (u32 (active_ p + 1)) (Z.lor (in_use_ p) (Z.shiftl 1 i)))
    | None => (None, p)
    end.

(** [None]: an assertion fails. *)
Definition Release (p : ArmCorePool) (core_id : Z) : option ArmCorePool :=
  if negb (core_id <? capacity_ p) then None
  else if Z.land (in_use_ p) (Z.shiftl 1 core_id) =? 0 then None
  else Some (MkPool (capacity_ p) (u32 (active_ p - 1)) (Z.ldiff (in_use_ p) (Z.shiftl 1 core_id))).

Definition ActiveCount (p : ArmCorePool) : Z := active_ p.
Definition Capacity (p : ArmCorePool) : Z := capacity_ p.

(** *** The pool as a set of busy cores *)

Definition busy (p : ArmCorePool) : gset Z := bits64 (in_use_ p).

Record wf_pool (p : ArmCorePool) : Prop := {
  wfp_cap : 0 < capacity_ p ≤ 64;
  wfp_active : active_ p = Z.of_nat (size (busy p));
  wfp_range : ∀ i, i ∈ busy p → 0 ≤ i < capacity_ p;
}.

(** All core numbers of the pool. *)
Definition cores (p : ArmCorePool) : gset Z := list_to_set (seqZ 0 (capacity_ p)).

Lemma elem_of_cores p i : i ∈ cores p ↔ 0 ≤ i < capacity_ p.
Proof. unfold cores. rewrite elem_of_list_to_set, elem_of_seqZ. lia. Qed.

Lemma size_cores p : 0 ≤ capacity_ p → Z.of_nat (size (cores p)) = capacity_ p.
Proof.
  intros. unfold cores. rewrite size_list_to_set by apply NoDup_seqZ.
  rewrite length_seqZ. lia.
Qed.

Lemma new_pool_wf cap p : new_ArmCorePool cap = Some p → wf_pool p ∧ busy p = ∅ ∧ capacity_ p = cap.
Proof.
  unfold new_ArmCorePool. case_bool_decide; [|done]. intros. simplify_eq.
  assert (busy (MkPool cap 0 0) = ∅) as Hb by apply bits64_0.
  split; [|done]. split; [done| |]; rewrite Hb; [by rewrite size_empty|set_solver].
Qed.

Lemma first_clear_spec x n : ∀ m, 0 ≤ m →
  match first_clear x (seqZ m (Z.of_nat n)) with
  | Some i => m ≤ i < m + Z.of_nat n ∧ Z.testbit x i = false ∧
              ∀ j, m ≤ j < i → Z.testbit x j = true
  | None => ∀ j, m ≤ j < m + Z.of_nat n → Z.testbit x j = true
  end.
Proof.
  induction n as [|n IH]; intros m Hm; [simpl; lia|].
  rewrite Nat2Z.inj_succ, seqZ_cons by lia. simpl.
  rewrite land_bit_testbit by done. specialize (IH (Z.succ m) ltac:(lia)).
  replace (Z.pred (Z.succ (Z.of_nat n))) with (Z.of_nat n) by lia.
  destruct (Z.testbit x m) eqn:Hb; simpl.
  - destruct (first_clear _ _) as [i|].
    + destruct IH as (? & ? & IH). split_and!; [lia|lia|done|].
      intros j Hj. destruct (decide (j = m)) as [->|]; [done|apply IH; lia].
    + intros j Hj. destruct (decide (j = m)) as [->|]; [done|apply IH; lia].
  - split_and!; [lia|lia|done|lia].
Qed.

Lemma busy_cores p : wf_pool p → busy p ⊆ cores p.
Proof. intros [_ _ Hr] i Hi. apply elem_of_cores. auto. Qed.

(** All cores are busy exactly when [active_] has reached the capacity. *)
Lemma pool_full p : wf_pool p → capacity_ p ≤ active_ p ↔ busy p = cores p.
Proof.
  intros Hwf. pose proof (busy_cores p Hwf) as Hsub. destruct Hwf as [Hcap Hact _].
  pose proof (size_cores p ltac:(lia)) as Hsz. rewrite Hact. split.
  - intros Hle. apply set_eq. intros i. split; [apply Hsub|]. intros Hi.
    destruct (decide (i ∈ busy p)) as [|Hn]; [done|exfalso].
    assert (busy p ⊂ cores p) as Hlt%subset_size by set_solver. lia.
  - intros ->. lia.
Qed.

(** The lowest free core, or none when all are busy. *)
Lemma TryAcquire_spec p r p' :
  wf_pool p → TryAcquire p = (r, p') →
  wf_pool p' ∧ capacity_ p' = capacity_ p ∧
  match r with
  | Some i => i ∉ busy p ∧ 0 ≤ i < capacity_ p ∧ busy p' = {[i]} ∪ busy p ∧
              (∀ j, 0 ≤ j < i → j ∈ busy p)
  | None => p' = p ∧ busy p = cores p
  end.
Proof.
  intros Hwf Ht. unfold TryAcquire in Ht.
  destruct (Z.leb_spec (capacity_ p) (active_ p)) as [Hfull|Hroom].
  { injection Ht as <- <-. split_and!; auto. by apply pool_full. }
  pose proof (pool_full p Hwf) as Hpf. pose proof Hwf as [Hcap Hact Hr].
  pose proof (first_clear_spec (in_use_ p) (Z.to_nat (capacity_ p)) 0 ltac:(lia)) as Hf.
  rewrite Z2Nat.id in Hf by lia. destruct (first_clear _ _) as [i|].
  2: { exfalso. assert (busy p = cores p) as Heq; [|apply Hpf in Heq; lia].
       apply set_eq. intros j. split; [by apply busy_cores|]. intros Hj%elem_of_cores.
       apply elem_of_bits64. split; [lia|]. by apply Hf. }
  injection Ht as <- <-. destruct Hf as (Hi & Hclear & Hlow).
  assert (i ∉ busy p) as Hnot by (intros [_ Hb]%elem_of_bits64; congruence).
  set (p' := MkPool _ _ _).
  assert (busy p' = {[i]} ∪ busy p) as Hb' by (apply bits64_set; lia).
  split_and!; try done; try lia.
  - split; [done| |]; rewrite Hb'; simpl.
    + rewrite size_union, size_singleton by set_solver. rewrite wrap_id; [lia|]. unfold fits. lia.
    + intros j. rewrite elem_of_union, elem_of_singleton. intros [->|?]; [lia|auto].
  - intros j Hj. apply elem_of_bits64. split; [lia|]. by apply Hlow.
Qed.

(** A busy core is given back. *)
Lemma Release_spec p i :
  wf_pool p → i ∈ busy p →
  ∃ p', Release p i = Some p' ∧ wf_pool p' ∧ capacity_ p' = capacity_ p ∧ busy p' = busy p ∖ {[i]}.
Proof.
  intros Hwf Hi. pose proof Hwf as [Hcap Hact Hr]. pose proof (Hr i Hi) as Hrange.
  unfold Release. destruct (Z.ltb_spec i (capacity_ p)); [|lia]. simpl.
  rewrite land_bit_testbit by lia.
  destruct (proj1 (elem_of_bits64 _ _) Hi) as [_ ->]. simpl.
  eexists. split; [done|]. set (p' := MkPool _ _ _).
  assert (busy p' = busy p ∖ {[i]}) as Hb' by (apply bits64_clear; lia).
  split_and!; [|done|done]. split; [done| |]; rewrite Hb'; simpl.
  - assert ({[i]} ⊆ busy p) as Hsz%subseteq_size by set_solver. rewrite size_singleton in Hsz.
    pose proof (bits64_size_le (in_use_ p)). fold (busy p) in *.
    rewrite size_difference, size_singleton by set_solver. rewrite wrap_id; [lia|].
    unfold fits. lia.
  - intros j [Hj _]%elem_of_difference. auto.
Qed.

(** The operations of the pool, as its users call them. *)
Inductive pool_op := OpAcquire | OpRelease (i : Z).

Definition pool_step (p : ArmCorePool) (o : pool_op) : option (option Z * ArmCorePool) :=
  match o with
  | OpAcquire => Some (TryAcquire p)
  | OpRelease i => p' ← Release p i; Some (None, p')
  end.

(** The set of cores an abstract allocator over [cap] cores has handed out. *)
Definition spec_pool_step (cap : Z) (b : gset Z) (o : pool_op) : option (option Z * gset Z) :=
  match o with
  | OpAcquire =>
      match head (filter (λ i, i ∉ b) (seqZ 0 cap)) with
      | Some i => Some (Some i, {[i]} ∪ b)
      | None => Some (None, b)
      end
  | OpRelease i => if decide (i ∈ b) then Some (None, b ∖ {[i]}) else None
  end.

Lemma filter_none {A} (P : A → Prop) `{!∀ x, Decision (P x)} (l : list A) :
  (∀ x, x ∈ l → ¬ P x) → filter P l = [].
Proof.
  intros Hl. apply elem_of_nil_inv. intros x [HP Hx]%list_elem_of_filter. by apply (Hl x).
Qed.

Lemma filter_seqZ_first (P : Z → Prop) `{!∀ x, Decision (P x)} m n i :
  0 ≤ n → m ≤ i < m + n → P i → (∀ j, m ≤ j < i → ¬ P j) →
  head (filter P (seqZ m n)) = Some i.
Proof.
  intros Hn Hi HP Hlow. replace n with ((i - m) + (n - (i - m))) by lia.
  rewrite seqZ_app, filter_app by lia.
  rewrite (filter_none P (seqZ m (i - m))) by (intros j ?%elem_of_seqZ; apply Hlow; lia).
  simpl. rewrite seqZ_cons by lia. replace (m + (i - m)) with i by lia.
  by rewrite filter_cons_True.
Qed.

(** the core pool refines an abstract allocator of the lowest free core: [TryAcquire]
    returns the lowest core not handed out, or nothing exactly when all are; [Release]'s
    assertions hold exactly for the cores that are handed out; [ActiveCount] is how many
    are. *)
Theorem core_pool_refines p o :
  wf_pool p →
  (λ '(r, p'), (r, busy p')) <$> pool_step p o = spec_pool_step (Capacity p) (busy p) o ∧
  (∀ r p', pool_step p o = Some (r, p') →
     wf_pool p' ∧ Capacity p' = Capacity p ∧ ActiveCount p' = Z.of_nat (size (busy p'))).
Proof.
  intros Hwf. destruct o as [|i]; simpl; unfold Capacity, ActiveCount.
  - destruct (TryAcquire p) as [r p'] eqn:Ht.
    destruct (TryAcquire_spec p r p' Hwf Ht) as (Hwf' & Hc & Hr). split.
    2: { intros ? ? Heq. simplify_eq. split_and!; [done|done|apply Hwf']. }
    simpl. destruct r as [i|].
    + destruct Hr as (Hi & Hrange & -> & Hlow).
      rewrite (filter_seqZ_first (λ i, i ∉ busy p) 0 (capacity_ p) i); [done|lia|lia|done|].
      intros j Hj Hnot. by apply Hnot, Hlow.
    + destruct Hr as [-> Hfull]. rewrite filter_none; [done|].
      intros j ?%elem_of_seqZ Hn. apply Hn. rewrite Hfull. apply elem_of_cores. lia.
  - destruct (decide (i ∈ busy p)) as [Hi|Hi].
    + destruct (Release_spec p i Hwf Hi) as (p' & -> & Hwf' & Hc & Hb). simpl. rewrite Hb.
      split; [done|]. intros ? ? Heq. simplify_eq. split_and!; [done|done|apply Hwf'].
    + assert (Release p i = None) as ->; [|done].
      unfold Release. destruct (Z.ltb_spec i (capacity_ p)) as [Hlt|]; [|done]. simpl.
      destruct (decide (0 ≤ i)) as [Hpos|Hneg].
      * rewrite land_bit_testbit by done. destruct (Z.testbit (in_use_ p) i) eqn:Hb; [|done].
        exfalso. apply Hi, elem_of_bits64. split; [pose proof (wfp_cap _ Hwf); lia|done].
      * replace (Z.shiftl 1 i) with 0; [by rewrite Z.land_0_r|].
        assert (1 < 2 ^ (-i)) by (apply Z.pow_gt_1; lia).
        by rewrite Z.shiftl_div_pow2, Z.div_small by lia.
Qed.

Definition demo_pool : ArmCorePool := MkPool 3 2 5.

Lemma core_pool_refines_witness :
  ((λ '(r, p'), (r, busy p')) <$> pool_step demo_pool OpAcquire = Some (Some 1, {[1]} ∪ busy demo_pool)) ∧
  (∀ r p', pool_step demo_pool OpAcquire = Some (r, p') →
     wf_pool p' ∧ Capacity p' = Capacity demo_pool ∧ ActiveCount p' = Z.of_nat (size (busy p'))).
Proof.
  assert (wf_pool demo_pool) as Hwf.
  { split; [done|by vm_compute|]. intros i [Hi Hb]%elem_of_bits64. simpl in *.
    destruct (decide (i < 3)); [lia|]. rewrite Z.bits_above_log2 in Hb by (simpl; lia). done. }
  destruct (core_pool_refines demo_pool OpAcquire Hwf) as [Href Hall]. split; [|exact Hall].
  rewrite Href. vm_compute. done.
Defined.

(** ** Simulated DRAM *)

Record DramStore := MkDram {
  capacity_bytes_ : Z;         (* uint64_t *)
  used_bytes_ : Z;             (* uint64_t *)
  store_ : gmap Z bytes;
}.

Definition new_DramStore (capacity_bytes : Z) : DramStore := MkDram capacity_bytes 0 ∅.

(** [Threw]: std::vector throws [length_error]. *)
Inductive outcome := Returned (b : bool) | Threw.

(** [max_size()] of a std::vector of bytes. *)
Definition vector_max_size : Z := 2 ^ 63 - 1.

(** [v.resize(n)], the new bytes zero. *)
Definition resize (v : bytes) (n : Z) : bytes :=
  take (Z.to_nat n) v ++ replicate (Z.to_nat n - length v) 0.

(** [store_[key]] creates the entry before [resize] can throw. *)
Definition Allocate (d : DramStore) (key size : Z) : outcome * DramStore :=
  match store_ d !! key with
  | Some _ => (Returned false, d)
  | None =>
      if capacity_bytes_ d <? u64 (used_bytes_ d + size) then (Returned false, d)
      else if vector_max_size <? size then
        (Threw, MkDram (capacity_bytes_ d) (used_bytes_ d) (<[key := []]> (store_ d)))
      else (Returned true, MkDram (capacity_bytes_ d) (u64 (used_bytes_ d + size))
                                  (<[key := resize [] size]> (store_ d)))
  end.

(** The pointer and length returned; [None]: the null pointer. *)
Definition Read (d : DramStore) (key : Z) : option bytes := store_ d !! key.

(** [data] is the caller's buffer of [len] bytes. *)
Definition Write (d : DramStore) (key : Z) (data : bytes) : option (bool * DramStore) :=
  let len := Z.of_nat (length data) in
  match store_ d !! key with
  | None => Some (false, d)
  | Some v =>
      if len =? Z.of_nat (length v) then
        v' ← memcpy v data len;
        Some (true, MkDram (capacity_bytes_ d) (used_bytes_ d) (<[key := v']> (store_ d)))
      else
        let delta := len - Z.of_nat (length v) in
        if (0 <? delta) && (capacity_bytes_ d <? u64 (used_bytes_ d + delta)) then Some (false, d)
        else
          v' ← memcpy (resize v len) data len;
          Some (true, MkDram (capacity_bytes_ d) (u64 (used_bytes_ d + delta)) (<[key := v']> (store_ d)))
  end.

Definition Free (d : DramStore) (key : Z) : DramStore :=
  match store_ d !! key with
  | None => d
  | Some v => MkDram (capacity_bytes_ d) (u64 (used_bytes_ d - Z.of_nat (length v))) (delete key (store_ d))
  end.

Definition UsedBytes (d : DramStore) : Z := used_bytes_ d.
Definition CapacityBytes (d : DramStore) : Z := capacity_bytes_ d.

(** *** The accounting invariant *)

(** The bytes really stored. *)
Definition total (m : gmap Z bytes) : Z := map_fold (λ _ v acc, Z.of_nat (length v) + acc) 0 m.

Lemma total_insert m k v : m !! k = None → total (<[k := v]> m) = Z.of_nat (length v) + total m.
Proof. intros. unfold total. rewrite map_fold_insert_L; [done|intros; lia|done]. Qed.

Lemma total_lookup m k v : m !! k = Some v → total m = Z.of_nat (length v) + total (delete k m).
Proof. intros. unfold total. rewrite (map_fold_delete_L _ _ k v m); [done|intros; lia|done]. Qed.

Lemma total_update m k v v' :
  m !! k = Some v → total (<[k := v']> m) = total m + Z.of_nat (length v') - Z.of_nat (length v).
Proof.
  intros Hk. rewrite (total_lookup _ _ _ Hk), <- insert_delete_eq.
  rewrite total_insert by apply lookup_delete_eq. lia.
Qed.

Lemma total_nonneg m : 0 ≤ total m.
Proof.
  induction m as [|k v m Hk IH] using map_ind; [done|]. rewrite total_insert by done. lia.
Qed.

Record wf_dram (d : DramStore) : Prop := {
  wfd_cap : 0 ≤ capacity_bytes_ d < 2 ^ 63;
  wfd_used : used_bytes_ d = total (store_ d);
  wfd_bound : used_bytes_ d ≤ capacity_bytes_ d;
}.

Lemma length_resize v n : 0 ≤ n → Z.of_nat (length (resize v n)) = n.
Proof. intros. unfold resize. rewrite length_app, length_take, length_replicate. lia. Qed.

Lemma wf_new_dram cap : 0 ≤ cap < 2 ^ 63 → wf_dram (new_DramStore cap).
Proof. intros. split; simpl; [lia|done|lia]. Qed.

Lemma Allocate_wf d key size r d' :
  wf_dram d → 0 ≤ size < 2 ^ 64 → Allocate d key size = (r, d') →
  wf_dram d' ∧ capacity_bytes_ d' = capacity_bytes_ d.
Proof.
  intros [Hc Hu Hb] Hs Ha. pose proof (total_nonneg (store_ d)) as Hn. unfold Allocate in Ha.
  destruct (store_ d !! key) as [v|] eqn:Hk; [by simplify_eq; split; [split|]|].
  destruct (Z.ltb_spec (capacity_bytes_ d) (u64 (used_bytes_ d + size))) as [|Hfit];
    [by simplify_eq; split; [split|]|].
  destruct (Z.ltb_spec vector_max_size size) as [|Hmax]; injection Ha as <- <-; (split; [|done]).
  - split; simpl; [lia| |lia]. rewrite total_insert by done. simpl. lia.
  - unfold vector_max_size in Hmax. rewrite (wrap_id 64) in Hfit by (unfold fits; lia).
    split; simpl; rewrite ?(wrap_id 64) by (unfold fits; lia); try lia.
    rewrite total_insert, length_resize by first [done|lia]. lia.
Qed.

Lemma Write_spec d key data :
  wf_dram d → Z.of_nat (length data) < 2 ^ 63 →
  ∃ ok d', Write d key data = Some (ok, d') ∧ wf_dram d' ∧ capacity_bytes_ d' = capacity_bytes_ d ∧
    if ok then is_Some (store_ d !! key) ∧ store_ d' = <[key := data]> (store_ d)
    else d' = d ∧ (store_ d !! key = None ∨
         ∃ v, store_ d !! key = Some v ∧
              capacity_bytes_ d < used_bytes_ d + Z.of_nat (length data) - Z.of_nat (length v)).
Proof.
  intros [Hc Hu Hb] Hlen. pose proof (total_nonneg (store_ d)) as Hn. unfold Write.
  destruct (store_ d !! key) as [v|] eqn:Hk.
  2: { eexists _, _. split; [done|]. split_and!; auto. by split. }
  pose proof (total_lookup _ _ _ Hk) as Ht. pose proof (total_nonneg (delete key (store_ d))).
  assert (∀ w, Z.of_nat (length w) = Z.of_nat (length data) →
               memcpy w data (Z.of_nat (length data)) = Some data) as Hcpy.
  { intros w Hw. rewrite memcpy_ok by lia. rewrite Nat2Z.id, firstn_all, drop_ge by lia.
    by rewrite app_nil_r. }
  destruct (Z.eqb_spec (Z.of_nat (length data)) (Z.of_nat (length v))) as [Heq|Hne].
  - rewrite Hcpy by lia. simpl. eexists _, _. split; [done|]. split_and!; [|done|done..].
    split; simpl; [done| |done]. rewrite (total_update _ _ _ _ Hk). lia.
  - destruct (Z.ltb_spec 0 (Z.of_nat (length data) - Z.of_nat (length v))) as [Hgrow|Hshrink]; simpl.
    + rewrite (wrap_id 64) by (unfold fits; lia).
      destruct (Z.ltb_spec (capacity_bytes_ d) (used_bytes_ d + (Z.of_nat (length data) - Z.of_nat (length v)))).
      { eexists _, _. split; [done|]. split_and!; [by split|done|done|].
        right. exists v. split; [done|lia]. }
      rewrite Hcpy by (rewrite length_resize; lia). simpl. eexists _, _. split; [done|].
      split_and!; [|done|done..]. split; simpl; [done| |lia].
      rewrite (total_update _ _ _ _ Hk). lia.
    + rewrite Hcpy by (rewrite length_resize; lia). simpl. eexists _, _. split; [done|].
      split_and!; [|done|done..].
      split; simpl; rewrite ?(wrap_id 64) by (unfold fits; lia); [done| |lia].
      rewrite (total_update _ _ _ _ Hk). lia.
Qed.

Lemma Free_wf d key :
  wf_dram d → wf_dram (Free d key) ∧ capacity_bytes_ (Free d key) = capacity_bytes_ d.
Proof.
  intros [Hc Hu Hb]. unfold Free. destruct (store_ d !! key) as [v|] eqn:Hk; [|by split; [split|]].
  pose proof (total_lookup _ _ _ Hk) as Ht. pose proof (total_nonneg (delete key (store_ d))).
  split; [|done]. split; simpl; rewrite ?(wrap_id 64) by (unfold fits; lia); [done|lia|lia].
Qed.

(** Calls a client makes. *)
Inductive dram_op := DAllocate (key size : Z) | DWrite (key : Z) (data : bytes) | DFree (key : Z).

Definition valid_dram_op (o : dram_op) : Prop :=
  match o with
  | DAllocate _ size => size ∈u 64
  | DWrite _ data => Z.of_nat (length data) < 2 ^ 63
  | DFree _ => True
  end.

Definition dram_step (d : DramStore) (o : dram_op) : option DramStore :=
  match o with
  | DAllocate key size => Some (snd (Allocate d key size))
  | DWrite key data => snd <$> Write d key data
  | DFree key => Some (Free d key)
  end.

Fixpoint dram_run (d : DramStore) (ops : list dram_op) : option DramStore :=
  match ops with
  | [] => Some d
  | o :: ops => d' ← dram_step d o; dram_run d' ops
  end.

(** over any sequence of allocations, writes and frees, none of which is undefined,
    [UsedBytes] is the number of bytes really stored and never exceeds the capacity. *)
Theorem dram_accounting cap ops :
  0 ≤ cap < 2 ^ 63 → Forall valid_dram_op ops →
  ∃ d, dram_run (new_DramStore cap) ops = Some d ∧
       UsedBytes d = total (store_ d) ∧ UsedBytes d ≤ CapacityBytes d ∧ CapacityBytes d = cap.
Proof.
  intros Hcap Hops.
  assert (∀ d, wf_dram d → ∃ d', dram_run d ops = Some d' ∧ wf_dram d' ∧
                                 capacity_bytes_ d' = capacity_bytes_ d) as Hrun.
  { induction Hops as [|o ops Ho Hops IH]; intros d Hwf; simpl; [by eauto|].
    assert (∃ d1, dram_step d o = Some d1 ∧ wf_dram d1 ∧ capacity_bytes_ d1 = capacity_bytes_ d)
      as (d1 & -> & Hwf1 & Hc1).
    { destruct o as [key size|key data|key]; simpl in *.
      - destruct (Allocate d key size) as [r d1] eqn:Ha. eexists. split; [done|].
        by eapply Allocate_wf.
      - destruct (Write_spec d key data Hwf Ho) as (ok & d1 & -> & ? & ? & _). eauto.
      - eexists. split; [done|]. by apply Free_wf. }
    simpl. destruct (IH d1 Hwf1) as (d' & ? & ? & ?). exists d'. split_and!; auto. congruence. }
  destruct (Hrun _ (wf_new_dram cap Hcap)) as (d & Hr & [_ Hu Hb] & Hc).
  exists d. unfold UsedBytes, CapacityBytes. split_and!; auto.
Qed.

Definition demo_dram_ops : list dram_op :=
  [DAllocate 1 10; DAllocate 2 (2 ^ 64 - 8); DWrite 1 [1; 2; 3]; DAllocate 3 98; DFree 1].

Lemma dram_accounting_witness :
  ∃ d, dram_run (new_DramStore 100) demo_dram_ops = Some d ∧
       UsedBytes d = total (store_ d) ∧ UsedBytes d ≤ CapacityBytes d ∧ CapacityBytes d = 100.
Proof.
  apply dram_accounting; [done|]. repeat constructor; by vm_compute.
Defined.

(** reading back.  A [Write] that reports success leaves exactly the written bytes under
    its key and every other key as it was; one that reports failure changes nothing. *)
Theorem dram_read_write d key data :
  wf_dram d → Z.of_nat (length data) < 2 ^ 63 →
  ∃ ok d', Write d key data = Some (ok, d') ∧
    Read d' key = (if ok then Some data else Read d key) ∧
    (∀ k, k ≠ key → Read d' k = Read d k).
Proof.
  intros Hwf Hlen. destruct (Write_spec d key data Hwf Hlen) as (ok & d' & Hw & _ & _ & Hok).
  exists ok, d'. split; [done|]. unfold Read. destruct ok.
  - destruct Hok as [_ ->]. split; [apply lookup_insert_eq|]. intros. by apply lookup_insert_ne.
  - by destruct Hok as [-> _].
Qed.

Lemma dram_read_write_witness :
  ∃ ok d', Write (snd (Allocate (new_DramStore 100) 7 4)) 7 [1; 2; 3; 4; 5; 6] = Some (ok, d') ∧
    Read d' 7 = (if ok then Some [1; 2; 3; 4; 5; 6] else Read (snd (Allocate (new_DramStore 100) 7 4)) 7) ∧
    (∀ k, k ≠ 7 → Read d' k = Read (snd (Allocate (new_DramStore 100) 7 4)) k).
Proof.
  apply dram_read_write; [|done].
  eapply (Allocate_wf (new_DramStore 100) 7 4); [by apply wf_new_dram|done|].
  apply surjective_pairing.
Defined.

End dpu.
