(* ===== verification/DpuConfig.v ===== *)
(** * DPU configuration (sims/nic/dpu_bm/dpu_config.h, dpu_config.cc)

    The capability vector of the DPU model, its validation, and the loader.  The JSON
    library is a parameter: the loader sees an object through [contains]/[operator[]] and the
    conversions [get<...>()]. *)

From stdpp Require Import strings.
From S2P Require Import Prelude.

Module dpu_config.

Record DpuConfig := MkConfig {
  arm_cores : Z;                    (* uint32_t *)
  dram_capacity_mb : Z;             (* uint64_t *)
  pcie_gen : Z;                     (* uint32_t *)
  pcie_lanes : Z;                   (* uint32_t *)
  per_packet_base_latency_ns : Z;   (* uint64_t *)
  service_rate_pps : Z;             (* uint64_t *)
  host_processing_latency_ns : Z;   (* uint64_t *)
  crypto_accel : bool;
  doca_flow_steering : bool;
  node_id : Z;                      (* uint8_t *)
  num_replicas : Z;                 (* uint16_t *)
  telemetry_interval_ms : Z;        (* uint64_t *)
}.

(** The default member initializers. *)
Definition default_members : DpuConfig :=
  MkConfig 16 16384 5 16 2000 40000000 15000 true true 0 3 100.

(** Why loading fails.  [EType] is the exception [get] throws. *)
Inductive config_error :=
| EOpen | EParse | EType
| EArmCores | EDramCapacity | ELatency | EServiceRate | ENumReplicas | ENodeId.

#[global] Instance config_error_eq_dec : EqDecision config_error.
Proof. solve_decision. Defined.

Definition Validate (cfg : DpuConfig) : option config_error :=
  if arm_cores cfg =? 0 then Some EArmCores
  else if dram_capacity_mb cfg =? 0 then Some EDramCapacity
  else if per_packet_base_latency_ns cfg =? 0 then Some ELatency
  else if service_rate_pps cfg =? 0 then Some EServiceRate
  else if num_replicas cfg <? 1 then Some ENumReplicas
  else if num_replicas cfg <=? node_id cfg then Some ENodeId
  else None.

Definition validated (cfg : DpuConfig) : config_error + DpuConfig :=
  match Validate cfg with Some e => inl e | None => inr cfg end.

Definition DefaultConfig : config_error + DpuConfig := validated default_members.

(** What [Validate] checks. *)
Record valid (cfg : DpuConfig) : Prop := {
  v_cores : arm_cores cfg ≠ 0;
  v_dram : dram_capacity_mb cfg ≠ 0;
  v_latency : per_packet_base_latency_ns cfg ≠ 0;
  v_rate : service_rate_pps cfg ≠ 0;
  v_replicas : 1 ≤ num_replicas cfg;
  v_node : node_id cfg < num_replicas cfg;
}.

Lemma Validate_spec cfg : Validate cfg = None ↔ valid cfg.
Proof.
  unfold Validate. split.
  - intros H. repeat match type of H with (if ?c then _ else _) = _ =>
      let E := fresh in destruct c eqn:E; [discriminate H|] end. split; lia.
  - intros []. repeat match goal with |- (if ?c then _ else _) = _ =>
      let E := fresh in destruct c eqn:E; [lia|] end. done.
Qed.

Section load.
Context {value : Type}.
Context (get_uint : Z → value → option Z).   (* get<uintN_t>(); [None]: throws *)
Context (get_bool : value → option bool).
(** Documented: the conversion yields a value of its result type. *)
Context (get_uint_fits : ∀ w v x, 0 ≤ w → get_uint w v = Some x → x ∈u w).

Definition field_uint (j : string → option value) (key : string) (w dflt : Z) : option Z :=
  match j key with None => Some dflt | Some v => get_uint w v end.
Definition field_bool (j : string → option value) (key : string) (dflt : bool) : option bool :=
  match j key with None => Some dflt | Some v => get_bool v end.

(** The fields, in the order they are read; [None]: a conversion threw. *)
Definition read_fields (j : string → option value) : option DpuConfig :=
  let d := default_members in
  a ← field_uint j "arm_cores" 32 (arm_cores d);
  m ← field_uint j "dram_capacity_mb" 64 (dram_capacity_mb d);
  g ← field_uint j "pcie_gen" 32 (pcie_gen d);
  l ← field_uint j "pcie_lanes" 32 (pcie_lanes d);
  p ← field_uint j "per_packet_base_latency_ns" 64 (per_packet_base_latency_ns d);
  s ← field_uint j "service_rate_pps" 64 (service_rate_pps d);
  h ← field_uint j "host_processing_latency_ns" 64 (host_processing_latency_ns d);
  c ← field_bool j "crypto_accel" (crypto_accel d);
  f ← field_bool j "doca_flow_steering" (doca_flow_steering d);
  n ← field_uint j "node_id" 8 (node_id d);
  r ← field_uint j "num_replicas" 16 (num_replicas d);
  t ← field_uint j "telemetry_interval_ms" 64 (telemetry_interval_ms d);
  Some (MkConfig a m g l p s h c f n r t).

(** [file]: [None] when it cannot be opened, [Some None] when it is not JSON. *)
Definition LoadConfig (file : option (option (string → option value))) : config_error + DpuConfig :=
  match file with
  | None => inl EOpen
  | Some None => inl EParse
  | Some (Some j) => match read_fields j with None => inl EType | Some cfg => validated cfg end
  end.

Lemma field_uint_fits j key w dflt x : 0 ≤ w → dflt ∈u w → field_uint j key w dflt = Some x → x ∈u w.
Proof. unfold field_uint. destruct (j key); [eauto|]. by intros ? ? [= <-]. Qed.

(** a configuration that loads satisfies every documented rule, its fields fit their
    types, and a key that is missing leaves its default. *)
Theorem load_config_sound file cfg :
  LoadConfig file = inr cfg →
  valid cfg ∧ arm_cores cfg ∈u 32 ∧ dram_capacity_mb cfg ∈u 64 ∧ node_id cfg ∈u 8 ∧
  num_replicas cfg ∈u 16 ∧
  ∃ j, file = Some (Some j) ∧
    (j "arm_cores" = None → arm_cores cfg = 16) ∧
    (j "num_replicas" = None → num_replicas cfg = 3) ∧
    (j "node_id" = None → node_id cfg = 0) ∧
    (j "per_packet_base_latency_ns" = None → per_packet_base_latency_ns cfg = 2000).
Proof.
  intros Hl. destruct file as [[j|]|]; [|done|done]. simpl in Hl.
  destruct (read_fields j) as [cfg'|] eqn:Hr; [|done]. unfold validated in Hl.
  destruct (Validate cfg') eqn:Hv; simplify_eq. apply Validate_spec in Hv.
  unfold read_fields in Hr.
  repeat (match type of Hr with mbind _ ?o = _ => let E := fresh "E" in destruct o eqn:E end;
          cbn [mbind option_bind] in Hr; [|discriminate Hr]).
  injection Hr as <-. cbn [arm_cores dram_capacity_mb node_id num_replicas per_packet_base_latency_ns].
  split; [exact Hv|].
  split; [by eapply field_uint_fits; [| |exact E]; vm_compute|].
  split; [by eapply field_uint_fits; [| |exact E0]; vm_compute|].
  split; [by eapply field_uint_fits; [| |exact E8]; vm_compute|].
  split; [by eapply field_uint_fits; [| |exact E9]; vm_compute|].
  exists j. split; [done|]. unfold field_uint in *.
  split_and!; intros Hn; rewrite Hn in *; simpl in *; congruence.
Qed.

End load.

(** Values of a JSON object of numbers and booleans, [static_cast] by the library. *)
Definition demo_get (w : Z) (v : Z + bool) : option Z :=
  match v with inl x => Some (wrap w x) | inr _ => None end.
Definition demo_get_bool (v : Z + bool) : option bool :=
  match v with inl _ => None | inr b => Some b end.
Definition demo_json : string → option (Z + bool) :=
  λ k, if decide (k = "arm_cores") then Some (inl 8)
       else if decide (k = "num_replicas") then Some (inl 5)
       else if decide (k = "crypto_accel") then Some (inr false) else None.

Lemma load_config_sound_witness :
  ∃ cfg, LoadConfig demo_get demo_get_bool (Some (Some demo_json)) = inr cfg ∧
    valid cfg ∧ arm_cores cfg ∈u 32 ∧ dram_capacity_mb cfg ∈u 64 ∧ node_id cfg ∈u 8 ∧
    num_replicas cfg ∈u 16 ∧
    ∃ j, Some (Some demo_json) = Some (Some j) ∧
      (j "arm_cores" = None → arm_cores cfg = 16) ∧
      (j "num_replicas" = None → num_replicas cfg = 3) ∧
      (j "node_id" = None → node_id cfg = 0) ∧
      (j "per_packet_base_latency_ns" = None → per_packet_base_latency_ns cfg = 2000).
Proof.
  exists (MkConfig 8 16384 5 16 2000 40000000 15000 false true 0 5 100).
  split; [by vm_compute|].
  apply (load_config_sound demo_get demo_get_bool); [|by vm_compute].
  intros w [v|b] x Hw; simpl; [|done]. intros [= <-]. by apply wrap_fits.
Defined.

End dpu_config.
