(* ===== verification/NicRunner.v ===== *)
(** * The NIC behavioural-model runner (lib/simbricks/nicbm/nicbm.h, nicbm.cc)

    [Runner] drives a device model: it hands it register accesses, DMA completions, packets
    and timed events, executes the calls the device makes (schedule an event, send a packet,
    issue a DMA, raise an interrupt), and advances simulated time.  The shared-memory
    queues of BaseIf.v appear as one optional input message per poll and a list of messages
    sent. *)

From S2P Require Import Prelude.

Module nicbm.

(** ** Messages (pcie/proto.h, network/proto.h) *)

Inductive H2D :=
| H2DRead (req_id offset len bar : Z)
| H2DWrite (req_id offset bar : Z) (data : bytes) (posted : bool)
| H2DReadcomp (req_id : Z) (data : bytes)
| H2DWritecomp (req_id : Z)
| H2DDevctrl (flags : Z)
| H2DSync
| H2DTerminate
| H2DOther (ty : Z).

Inductive D2H :=
| D2HRead (req_id offset len : Z)
| D2HWrite (req_id offset len : Z) (data : bytes)
| D2HInterrupt (vector inttype : Z)
| D2HReadcomp (req_id : Z) (data : bytes)
| D2HWritecomp (req_id : Z).

Inductive N2D :=
| NetPacket (port : Z) (data : bytes)
| NetSync
| NetOther (ty : Z).

Definition SIMBRICKS_PROTO_PCIE_INT_LEGACY_HI : Z := 0.
Definition SIMBRICKS_PROTO_PCIE_INT_LEGACY_LO : Z := 1.
Definition SIMBRICKS_PROTO_PCIE_INT_MSI : Z := 2.
Definition SIMBRICKS_PROTO_PCIE_INT_MSIX : Z := 3.

(** Size of the fixed part of every message. *)
Definition sizeof_msg : Z := 64.

(** ** Operations and events *)

(** [op_id] is the address of the object, which the DMA messages carry as req_id. *)
Record DMAOp := MkDma { op_id : Z; write_ : bool; dma_addr_ : Z; len_ : Z; data_ : bytes }.

(** [ev] is the device's subclass of TimedEvent. *)
Record TimedEvent (E : Type) := MkEvent { time_ : Z; priority_ : Z; ev : E }.
Arguments MkEvent {E}.
Arguments time_ {E}.
Arguments priority_ {E}.
Arguments ev {E}.

(** What a device calls on its runner. *)
Inductive call (E : Type) :=
| EventSchedule (e : TimedEvent E)
| EventCancel (e : TimedEvent E)
| EthSend (data : bytes)
| IssueDma (op : DMAOp)
| MsiIssue (vec : Z)
| MsiXIssue (vec : Z)
| IntXIssue (level : bool).
Arguments EventSchedule {E}.
Arguments EventCancel {E}.
Arguments EthSend {E}.
Arguments IssueDma {E}.
Arguments MsiIssue {E}.
Arguments MsiXIssue {E}.
Arguments IntXIssue {E}.

(** The interface [Runner::Device]: each callback gets the current time ([TimePs()]) and
    returns the device afterwards with the runner calls it made, in order; [None] is a
    failed assertion or undefined behaviour. *)
Class Device (D E : Type) := {
  RegRead : D → Z → Z → Z → Z → option (bytes * D * list (call E));
  RegWrite : D → Z → Z → Z → bytes → option (D * list (call E));
  DmaComplete : D → Z → DMAOp → option (D * list (call E));
  EthRx : D → Z → Z → bytes → option (D * list (call E));
  Timed : D → Z → E → option (D * list (call E));
  DevctrlUpdate : D → Z → Z → option (D * list (call E));
}.

Section runner.
Context {D E : Type} `{!Device D E}.

(** [EventCmp] *)
Definition event_ltb (a b : TimedEvent E) : bool :=
  (time_ a <? time_ b) || ((time_ a =? time_ b) && (priority_ a <? priority_ b)).

(** [std::multiset::insert]: after the elements that are not greater. *)
Fixpoint multiset_insert (e : TimedEvent E) (l : list (TimedEvent E)) : list (TimedEvent E) :=
  match l with
  | [] => [e]
  | x :: l => if event_ltb e x then e :: x :: l else x :: multiset_insert e l
  end.

(** [std::multiset::erase(key)] removes every equivalent element. *)
Definition multiset_erase (e : TimedEvent E) (l : list (TimedEvent E)) : list (TimedEvent E) :=
  filter (λ x, event_ltb x e || event_ltb e x = true) l.

Record Runner := MkRunner {
  main_time_ : Z;                      (* uint64_t *)
  dev_ : D;
  events_ : list (TimedEvent E);       (* in the order of the multiset *)
  dma_queue_ : list DMAOp;
  dma_pending_ : Z;                    (* size_t *)
  pcie_terminated : bool;              (* SimbricksBaseIfInTerminated of the PCIe interface *)
  pcie_maxlen : Z;                     (* SimbricksBaseIfOutMsgLen of the PCIe interface *)
  net_maxlen : Z;                      (* entry size of the network interface *)
  in_flight : list DMAOp;              (* operations the outstanding req_ids point to *)
  d2h : list D2H;                      (* sent to the host *)
  d2n : list bytes;                    (* packets sent to the network *)
}.

Definition set_time (r : Runner) (t : Z) : Runner :=
  MkRunner t (dev_ r) (events_ r) (dma_queue_ r) (dma_pending_ r) (pcie_terminated r)
           (pcie_maxlen r) (net_maxlen r) (in_flight r) (d2h r) (d2n r).
Definition set_dev (r : Runner) (d : D) : Runner :=
  MkRunner (main_time_ r) d (events_ r) (dma_queue_ r) (dma_pending_ r) (pcie_terminated r)
           (pcie_maxlen r) (net_maxlen r) (in_flight r) (d2h r) (d2n r).
Definition set_events (r : Runner) (l : list (TimedEvent E)) : Runner :=
  MkRunner (main_time_ r) (dev_ r) l (dma_queue_ r) (dma_pending_ r) (pcie_terminated r)
           (pcie_maxlen r) (net_maxlen r) (in_flight r) (d2h r) (d2n r).
Definition set_dma (r : Runner) (q : list DMAOp) (n : Z) (fl : list DMAOp) : Runner :=
  MkRunner (main_time_ r) (dev_ r) (events_ r) q n (pcie_terminated r)
           (pcie_maxlen r) (net_maxlen r) fl (d2h r) (d2n r).
Definition set_terminated (r : Runner) : Runner :=
  MkRunner (main_time_ r) (dev_ r) (events_ r) (dma_queue_ r) (dma_pending_ r) true
           (pcie_maxlen r) (net_maxlen r) (in_flight r) (d2h r) (d2n r).
Definition send_host (r : Runner) (m : D2H) : Runner :=
  MkRunner (main_time_ r) (dev_ r) (events_ r) (dma_queue_ r) (dma_pending_ r) (pcie_terminated r)
           (pcie_maxlen r) (net_maxlen r) (in_flight r) (d2h r ++ [m]) (d2n r).
Definition send_net (r : Runner) (p : bytes) : Runner :=
  MkRunner (main_time_ r) (dev_ r) (events_ r) (dma_queue_ r) (dma_pending_ r) (pcie_terminated r)
           (pcie_maxlen r) (net_maxlen r) (in_flight r) (d2h r) (d2n r ++ [p]).

(** ** DMA *)

Definition DMA_MAX_PENDING : Z := 64.

(** [None]: the abort of an operation too big for a message, or a read past the end of its
    buffer.  Once the host has terminated,
    the operation is dropped. *)
Definition DmaDo (r : Runner) (op : DMAOp) : option Runner :=
  if pcie_terminated r then Some r
  else if pcie_maxlen r <? sizeof_msg + len_ op then None
  else
    let r := set_dma r (dma_queue_ r) (dma_pending_ r + 1) (in_flight r ++ [op]) in
    if write_ op then
      if Z.of_nat (length (data_ op)) <? len_ op then None
      else Some (send_host r (D2HWrite (op_id op) (dma_addr_ op) (u16 (len_ op))
                                (take (Z.to_nat (len_ op)) (data_ op))))
    else Some (send_host r (D2HRead (op_id op) (dma_addr_ op) (u16 (len_ op)))).

Definition do_IssueDma (r : Runner) (op : DMAOp) : option Runner :=
  if dma_pending_ r <? DMA_MAX_PENDING then DmaDo r op
  else Some (set_dma r (dma_queue_ r ++ [op]) (dma_pending_ r) (in_flight r)).

Definition DmaTrigger (r : Runner) : option Runner :=
  match dma_queue_ r with
  | [] => Some r
  | op :: q =>
      if dma_pending_ r =? DMA_MAX_PENDING then Some r
      else DmaDo (set_dma r q (dma_pending_ r) (in_flight r)) op
  end.

(** ** The device's calls *)

(** An interrupt is dropped once the host has terminated. *)
Definition interrupt (r : Runner) (vec inttype : Z) : Runner :=
  if pcie_terminated r then r else send_host r (D2HInterrupt vec inttype).

Definition do_call (r : Runner) (c : call E) : option Runner :=
  match c with
  | EventSchedule e => Some (set_events r (multiset_insert e (events_ r)))
  | EventCancel e => Some (set_events r (multiset_erase e (events_ r)))
  | EthSend p => if net_maxlen r <? sizeof_msg + Z.of_nat (length p) then None else Some (send_net r p)
  | IssueDma op => do_IssueDma r op
  | MsiIssue vec => Some (interrupt r vec SIMBRICKS_PROTO_PCIE_INT_MSI)
  | MsiXIssue vec => Some (interrupt r vec SIMBRICKS_PROTO_PCIE_INT_MSIX)
  | IntXIssue level => Some (interrupt r 0 (if level then SIMBRICKS_PROTO_PCIE_INT_LEGACY_HI
                                            else SIMBRICKS_PROTO_PCIE_INT_LEGACY_LO))
  end.

Fixpoint do_calls (r : Runner) (cs : list (call E)) : option Runner :=
  match cs with
  | [] => Some r
  | c :: cs => r' ← do_call r c; do_calls r' cs
  end.

(** A callback's result: the new device, then its calls. *)
Definition after (r : Runner) (res : option (D * list (call E))) : option Runner :=
  '(d, cs) ← res; do_calls (set_dev r d) cs.

(** ** Messages from the host and from the network *)

(** [D2HAlloc] aborts once the host has terminated. *)
Definition do_H2DRead (r : Runner) (req_id offset len bar : Z) : option Runner :=
  if pcie_terminated r || (pcie_maxlen r <? sizeof_msg + len) then None
  else
    '(v, d, cs) ← RegRead (dev_ r) (main_time_ r) bar offset len;
    r ← do_calls (set_dev r d) cs;
    Some (send_host r (D2HReadcomp req_id v)).

Definition do_H2DWrite (r : Runner) (req_id offset bar : Z) (data : bytes) (posted : bool) :
    option Runner :=
  r ← after r (RegWrite (dev_ r) (main_time_ r) bar offset data);
  if posted then Some r
  else if pcie_terminated r then None else Some (send_host r (D2HWritecomp req_id)).

(** The operation a req_id points to; [None]: the pointer dangles. *)
Definition dma_op (r : Runner) (req_id : Z) : option (nat * DMAOp) :=
  list_find (λ op, op_id op = req_id) (in_flight r).

Definition dma_done (r : Runner) (k : nat) (op : DMAOp) : option Runner :=
  r ← after (set_dma r (dma_queue_ r) (dma_pending_ r) (delete k (in_flight r)))
            (DmaComplete (dev_ r) (main_time_ r) op);
  DmaTrigger (set_dma r (dma_queue_ r) (dma_pending_ r - 1) (in_flight r)).

Definition do_H2DReadcomp (r : Runner) (req_id : Z) (data : bytes) : option Runner :=
  '(k, op) ← dma_op r req_id;
  if Z.of_nat (length data) <? len_ op then None
  else dma_done r k (MkDma (op_id op) (write_ op) (dma_addr_ op) (len_ op)
                           (take (Z.to_nat (len_ op)) data)).

Definition do_H2DWritecomp (r : Runner) (req_id : Z) : option Runner :=
  '(k, op) ← dma_op r req_id; dma_done r k op.

Definition do_H2DDevctrl (r : Runner) (flags : Z) : option Runner :=
  after r (DevctrlUpdate (dev_ r) (main_time_ r) flags).

Definition PollH2D (r : Runner) (msg : option H2D) : option Runner :=
  match msg with
  | None => Some r
  | Some (H2DRead req_id offset len bar) => do_H2DRead r req_id offset len bar
  | Some (H2DWrite req_id offset bar data posted) => do_H2DWrite r req_id offset bar data posted
  | Some (H2DReadcomp req_id data) => do_H2DReadcomp r req_id data
  | Some (H2DWritecomp req_id) => do_H2DWritecomp r req_id
  | Some (H2DDevctrl flags) => do_H2DDevctrl r flags
  | Some H2DSync => Some r
  | Some H2DTerminate => Some (set_terminated r)
  | Some (H2DOther _) => Some r
  end.

Definition EthRecv (r : Runner) (port : Z) (data : bytes) : option Runner :=
  after r (EthRx (dev_ r) (main_time_ r) port data).

Definition PollN2D (r : Runner) (msg : option N2D) : option Runner :=
  match msg with
  | None => Some r
  | Some (NetPacket port data) => EthRecv r port data
  | Some NetSync => Some r
  | Some (NetOther _) => Some r
  end.

(** ** Timed events *)

Definition EventNext (r : Runner) : option Z := time_ <$> head (events_ r).

Definition EventTrigger (r : Runner) : option Runner :=
  match events_ r with
  | [] => Some r
  | e :: l =>
      if main_time_ r <? time_ e then Some r
      else after (set_events r l) (Timed (dev_ r) (main_time_ r) (ev e))
  end.

(** ** The main loop *)

Definition max_step : Z := 10000.

(** What one turn reads from the interfaces: at most one message of each, and
    [SimbricksNicIfNextTimestamp] after the polls. *)
Record turn_input := MkInput { from_host : option H2D; from_net : option N2D; next_if : Z }.

Definition next_ts (is_sync : bool) (r : Runner) (next_if : Z) : Z :=
  let limit := u64 (main_time_ r + max_step) in
  let t := if is_sync then (if limit <? next_if then limit else next_if) else limit in
  match EventNext r with
  | Some ev_ts => if ev_ts <? t then ev_ts else t
  | None => t
  end.

(** One pass of the inner [do ... while] of [RunMain]; time advances when the condition
    ends the inner loop. *)
Definition turn (is_sync : bool) (r : Runner) (i : turn_input) : option Runner :=
  r ← PollH2D r (from_host i);
  r ← PollN2D r (from_net i);
  r ← EventTrigger r;
  let t := next_ts is_sync r (next_if i) in
  if t <=? main_time_ r then Some r else Some (set_time r t).

Fixpoint RunMain (is_sync : bool) (r : Runner) (ins : list turn_input) : option Runner :=
  match ins with
  | [] => Some r
  | i :: ins => r' ← turn is_sync r i; RunMain is_sync r' ins
  end.

End runner.
Arguments Runner : clear implicits.
End nicbm.
