(* ===== verification/NicRunnerInv.v ===== *)
(** * Properties of the NIC runner

    Event order and simulated time, and the bookkeeping of outstanding DMA operations, for
    any device behind the [Device] interface of NicRunner.v. *)

From S2P Require Import Prelude.
From S2P Require Import NicRunner.

Module nicbm_inv.
Import nicbm.

Section inv.
Context {D E : Type} `{!Device D E}.

Implicit Types (r : Runner D E) (e a b : TimedEvent E) (c : call E).

(** ** The event multiset *)

Definition event_le (a b : TimedEvent E) : Prop := event_ltb b a = false.

Lemma event_ltb_spec a b :
  event_ltb a b = true ↔ time_ a < time_ b ∨ time_ a = time_ b ∧ priority_ a < priority_ b.
Proof. unfold event_ltb. rewrite orb_true_iff, andb_true_iff, !Z.ltb_lt, Z.eqb_eq. done. Qed.

Lemma event_le_spec a b :
  event_le a b ↔ time_ a < time_ b ∨ time_ a = time_ b ∧ priority_ a ≤ priority_ b.
Proof.
  unfold event_le. rewrite <- not_true_iff_false, event_ltb_spec. lia.
Qed.

#[local] Instance event_le_trans : Transitive event_le.
Proof. intros a b d. rewrite !event_le_spec. lia. Qed.

Lemma elem_of_multiset_insert e x l : x ∈ multiset_insert e l ↔ x = e ∨ x ∈ l.
Proof.
  induction l as [|y l IH]; simpl; [set_solver|].
  case_match; rewrite !elem_of_cons; [done|]. rewrite IH. tauto.
Qed.

Lemma multiset_insert_sorted e l :
  StronglySorted event_le l → StronglySorted event_le (multiset_insert e l).
Proof.
  induction 1 as [|x l Hl IH Hx]; simpl; [by repeat constructor|].
  destruct (event_ltb e x) eqn:Hlt.
  - assert (event_le e x) by (rewrite event_ltb_spec in Hlt; apply event_le_spec; lia).
    constructor; [by constructor|]. constructor; [done|].
    eapply Forall_impl; [exact Hx|]. intros y ?. by etrans.
  - constructor; [done|]. apply Forall_forall. intros y [->|Hy]%elem_of_multiset_insert; [done|].
    rewrite Forall_forall in Hx. auto.
Qed.

Lemma multiset_erase_sorted e l :
  StronglySorted event_le l → StronglySorted event_le (multiset_erase e l).
Proof.
  unfold multiset_erase. induction 1 as [|x l Hl IH Hx]; [constructor|].
  rewrite filter_cons. case_decide; [|done]. constructor; [done|].
  apply Forall_forall. intros y [_ Hy]%list_elem_of_filter. rewrite Forall_forall in Hx. auto.
Qed.

(** ** Time and events *)

(** No event is overdue. *)
Record timely r : Prop := {
  tm_sorted : StronglySorted event_le (events_ r);
  tm_due e : e ∈ events_ r → main_time_ r ≤ time_ e;
}.

Definition schedules_from (now : Z) (c : call E) : Prop :=
  match c with EventSchedule e => now ≤ time_ e | _ => True end.

Lemma DmaDo_frame r op r' :
  DmaDo r op = Some r' → main_time_ r' = main_time_ r ∧ events_ r' = events_ r ∧ dev_ r' = dev_ r.
Proof. unfold DmaDo. intros H. by repeat (case_match; simplify_eq/=). Qed.

Lemma DmaTrigger_frame r r' :
  DmaTrigger r = Some r' → main_time_ r' = main_time_ r ∧ events_ r' = events_ r ∧ dev_ r' = dev_ r.
Proof.
  unfold DmaTrigger. destruct (dma_queue_ r); [by intros; simplify_eq|].
  destruct (_ =? _); [by intros; simplify_eq|]. by intros H%DmaDo_frame.
Qed.

Lemma do_call_timely r c r' :
  timely r → schedules_from (main_time_ r) c → do_call r c = Some r' →
  timely r' ∧ main_time_ r' = main_time_ r.
Proof.
  intros [Hs Hd] Hc Hr.
  assert (∀ r1, main_time_ r1 = main_time_ r ∧ events_ r1 = events_ r ∧ dev_ r1 = dev_ r →
                timely r1 ∧ main_time_ r1 = main_time_ r) as Hsame.
  { intros r1 (Ht & He & _). split; [|done]. split; rewrite He, ?Ht; done. }
  destruct c; simpl in *; unfold interrupt, do_IssueDma in *; simplify_eq;
    try (by apply Hsame; repeat (case_match; simplify_eq/=)).
  - split; [|done]. split; simpl; [by apply multiset_insert_sorted|].
    intros x [->|Hx]%elem_of_multiset_insert; auto.
  - split; [|done]. split; simpl; [by apply multiset_erase_sorted|].
    intros x [_ Hx]%list_elem_of_filter. auto.
  - apply Hsame. case_match; [by apply DmaDo_frame in Hr|by simplify_eq].
Qed.

Lemma do_calls_timely cs : ∀ r r',
  timely r → Forall (schedules_from (main_time_ r)) cs → do_calls r cs = Some r' →
  timely r' ∧ main_time_ r' = main_time_ r.
Proof.
  induction cs as [|c cs IH]; intros r r' Ht Hcs Hr; simpl in Hr; [by simplify_eq|].
  inversion Hcs as [|? ? Hc Hcs']; subst. destruct (do_call r c) as [r1|] eqn:Hc1; [|done].
  destruct (do_call_timely _ _ _ Ht Hc Hc1) as [Ht1 Heq1]. simpl in Hr.
  rewrite <- Heq1 in Hcs'. destruct (IH _ _ Ht1 Hcs' Hr) as [? ?]. split; [done|congruence].
Qed.

(** ** The clock only moves between turns *)

Lemma do_call_time r c r' : do_call r c = Some r' → main_time_ r' = main_time_ r.
Proof.
  intros Hc. destruct c; simpl in Hc; unfold interrupt, do_IssueDma in Hc;
    try (by simplify_eq/=; repeat (case_match; simplify_eq/=)).
  case_match; [by apply DmaDo_frame in Hc as (? & _)|by simplify_eq].
Qed.

Lemma do_calls_time cs : ∀ r r', do_calls r cs = Some r' → main_time_ r' = main_time_ r.
Proof.
  induction cs as [|c cs IH]; intros r r' Hr; simpl in Hr; [by simplify_eq|].
  destruct (do_call r c) as [r1|] eqn:Hc; [|done]. apply do_call_time in Hc. apply IH in Hr. congruence.
Qed.

Lemma after_time r res r' : after r res = Some r' → main_time_ r' = main_time_ r.
Proof. unfold after. destruct res as [[d cs]|]; [|done]. simpl. by intros ->%do_calls_time. Qed.

Lemma dma_done_time r k op r' : dma_done r k op = Some r' → main_time_ r' = main_time_ r.
Proof.
  unfold dma_done. destruct (after _ _) as [r1|] eqn:Ha; [|done]. simpl.
  apply after_time in Ha. intros (? & _)%DmaTrigger_frame. simpl in *. congruence.
Qed.

Lemma PollH2D_time r m r' : PollH2D r m = Some r' → main_time_ r' = main_time_ r.
Proof.
  destruct m as [[req offset len bar|req offset bar data posted|req data|req|flags| | |ty]|]; simpl;
    try (by intros; simplify_eq).
  - unfold do_H2DRead. destruct (_ || _); [done|].
    destruct (RegRead _ _ _ _ _) as [[[v d] cs]|]; [|done]. simpl.
    destruct (do_calls _ _) as [r1|] eqn:Hc; [|done]. apply do_calls_time in Hc.
    intros. by simplify_eq/=.
  - unfold do_H2DWrite. destruct (after _ _) as [r1|] eqn:Ha; [|done]. apply after_time in Ha.
    simpl. intros. by repeat (case_match; simplify_eq/=).
  - unfold do_H2DReadcomp. destruct (dma_op r req) as [[k op]|]; [|done]. simpl.
    destruct (_ <? _); [done|]. apply dma_done_time.
  - unfold do_H2DWritecomp. destruct (dma_op r req) as [[k op]|]; [|done]. apply dma_done_time.
  - apply after_time.
Qed.

Lemma PollN2D_time r m r' : PollN2D r m = Some r' → main_time_ r' = main_time_ r.
Proof. destruct m as [[port data| |ty]|]; simpl; try (by intros; simplify_eq). apply after_time. Qed.

Lemma EventTrigger_time r r' : EventTrigger r = Some r' → main_time_ r' = main_time_ r.
Proof.
  unfold EventTrigger. destruct (events_ r); [by intros; simplify_eq|].
  destruct (_ <? _); [by intros; simplify_eq|]. by intros ?%after_time.
Qed.

Lemma turn_monotone is_sync r i r' : turn is_sync r i = Some r' → main_time_ r ≤ main_time_ r'.
Proof.
  unfold turn. destruct (PollH2D r _) as [r1|] eqn:H1; [|done]. simpl.
  destruct (PollN2D r1 _) as [r2|] eqn:H2; [|done]. simpl.
  destruct (EventTrigger r2) as [r3|] eqn:H3; [|done]. simpl.
  apply PollH2D_time in H1. apply PollN2D_time in H2. apply EventTrigger_time in H3.
  destruct (Z.leb_spec (next_ts is_sync r3 (next_if i)) (main_time_ r3)); intros; simplify_eq/=; lia.
Qed.

Lemma run_monotone is_sync ins : ∀ r r',
  RunMain is_sync r ins = Some r' → main_time_ r ≤ main_time_ r'.
Proof.
  induction ins as [|i ins IH]; intros r r' Hr; simpl in Hr; [simplify_eq; lia|].
  destruct (turn is_sync r i) as [r1|] eqn:Ht; [|done]. apply turn_monotone in Ht.
  apply IH in Hr. lia.
Qed.

(** ** Outstanding DMA operations *)

(** [k] operations have completed but are still counted. *)
Record dma_inv (k : Z) r : Prop := {
  dma_count : dma_pending_ r = Z.of_nat (length (in_flight r)) + k;
  dma_bound : dma_pending_ r ≤ DMA_MAX_PENDING;
  dma_busy : pcie_terminated r = false → dma_queue_ r ≠ [] → dma_pending_ r = DMA_MAX_PENDING;
}.

(** The DMA requests sent to the host, by operation. *)
Definition dma_sent (l : list D2H) : list Z :=
  omap (λ m, match m with D2HRead id _ _ | D2HWrite id _ _ _ => Some id | _ => None end) l.

(** Requests sent, then those waiting. *)
Definition dma_order r : list Z := dma_sent (d2h r) ++ (op_id <$> dma_queue_ r).

(** The request of [op] goes after everything before it. *)
Lemma DmaDo_dma r op r' :
  pcie_terminated r = false → DmaDo r op = Some r' →
  dma_pending_ r' = dma_pending_ r + 1 ∧ in_flight r' = in_flight r ++ [op] ∧
  dma_queue_ r' = dma_queue_ r ∧ pcie_terminated r' = false ∧
  dma_sent (d2h r') = dma_sent (d2h r) ++ [op_id op].
Proof.
  intros Hterm. unfold DmaDo. rewrite Hterm. destruct (_ <? _); [done|].
  intros Hr. repeat (case_match; simplify_eq/=); rewrite Hterm; split_and!; try done;
    unfold dma_sent; by rewrite omap_app.
Qed.

(** Nothing of the DMA state changes but the messages that are not DMA requests. *)
Lemma dma_same k r r' :
  dma_pending_ r' = dma_pending_ r → in_flight r' = in_flight r → dma_queue_ r' = dma_queue_ r →
  pcie_terminated r' = pcie_terminated r → dma_sent (d2h r') = dma_sent (d2h r) →
  dma_inv k r → dma_inv k r' ∧ dma_order r' = dma_order r.
Proof.
  intros Hp Hf Hq Ht Hs []. split; [split; rewrite ?Hp, ?Hf, ?Hq, ?Ht; done|].
  unfold dma_order. by rewrite Hs, Hq.
Qed.

Lemma dma_sent_other l m :
  match m with D2HRead _ _ _ | D2HWrite _ _ _ _ => False | _ => True end →
  dma_sent (l ++ [m]) = dma_sent l.
Proof. intros Hm. unfold dma_sent. rewrite omap_app. destruct m; try done; simpl; by rewrite app_nil_r. Qed.

Definition issued (cs : list (call E)) : list Z :=
  omap (λ c, match c with IssueDma op => Some (op_id op) | _ => None end) cs.

Lemma do_call_dma k r c r' :
  pcie_terminated r = false → dma_inv k r → do_call r c = Some r' →
  dma_inv k r' ∧ pcie_terminated r' = false ∧ dma_order r' = dma_order r ++ issued [c].
Proof.
  intros Hterm Hinv Hc. pose proof Hinv as [Hcount Hbound Hbusy].
  assert (∀ r1, r1 = r' → dma_pending_ r1 = dma_pending_ r → in_flight r1 = in_flight r →
            dma_queue_ r1 = dma_queue_ r → pcie_terminated r1 = pcie_terminated r →
            dma_sent (d2h r1) = dma_sent (d2h r) →
            dma_inv k r' ∧ pcie_terminated r' = false ∧ dma_order r' = dma_order r ++ []) as Hsame.
  { intros r1 <- ? ? ? Ht ?. destruct (dma_same k r r1) as [? Ho]; auto.
    rewrite app_nil_r. split_and!; auto. congruence. }
  destruct c as [e|e|p|op|vec|vec|level]; simpl in Hc; unfold interrupt in Hc;
    try (rewrite Hterm in Hc); try (destruct (_ <? _); [done|]);
    try (injection Hc as Hc; by eapply Hsame; [exact Hc|done..|simpl; try apply dma_sent_other]).
  unfold do_IssueDma in Hc. simpl. destruct (Z.ltb_spec (dma_pending_ r) DMA_MAX_PENDING) as [Hlt|Hge].
  - assert (dma_queue_ r = []) as Hq.
    { destruct (dma_queue_ r) eqn:Hq; [done|]. rewrite Hbusy in Hlt by done. lia. }
    apply DmaDo_dma in Hc as (Hp & Hf & Hq' & Ht' & Hs); [|done]. split_and!; [split|done|].
    + rewrite Hp, Hf, length_app. simpl. lia.
    + lia.
    + by rewrite Hq', Hq.
    + unfold dma_order. rewrite Hs, Hq', Hq. simpl. by rewrite !app_nil_r.
  - simplify_eq/=. split_and!; [split; simpl; auto; lia|done|].
    unfold dma_order. simpl. by rewrite fmap_app, app_assoc.
Qed.

Lemma do_calls_dma k cs : ∀ r r',
  pcie_terminated r = false → dma_inv k r → do_calls r cs = Some r' →
  dma_inv k r' ∧ pcie_terminated r' = false ∧ dma_order r' = dma_order r ++ issued cs.
Proof.
  induction cs as [|c cs IH]; intros r r' Hterm Hinv Hr; simpl in Hr.
  { simplify_eq. by rewrite app_nil_r. }
  destruct (do_call r c) as [r1|] eqn:Hc; [|done]. cbn [mbind option_bind] in Hr.
  destruct (do_call_dma _ _ _ _ Hterm Hinv Hc) as (Hinv1 & Hterm1 & Ho1).
  destruct (IH _ _ Hterm1 Hinv1 Hr) as (? & ? & Ho). split_and!; auto.
  rewrite Ho, Ho1, <- app_assoc. f_equal. change (c :: cs) with ([c] ++ cs).
  unfold issued. by rewrite omap_app.
Qed.

Lemma after_dma k r res r' :
  pcie_terminated r = false → dma_inv k r → after r res = Some r' →
  dma_inv k r' ∧ pcie_terminated r' = false ∧ dma_order r `prefix_of` dma_order r'.
Proof.
  intros Hterm Hinv Ha. unfold after in Ha. destruct res as [[d cs]|]; [|done]. simpl in Ha.
  destruct (do_calls_dma k cs (set_dev r d) r') as (? & ? & Ho); auto; [by destruct Hinv; split|].
  split_and!; auto. eexists. exact Ho.
Qed.

(** A completion makes room for the oldest waiting operation. *)
Lemma DmaTrigger_dma r r' :
  pcie_terminated r = false → dma_pending_ r = Z.of_nat (length (in_flight r)) →
  dma_pending_ r < DMA_MAX_PENDING →
  (dma_queue_ r ≠ [] → dma_pending_ r = DMA_MAX_PENDING - 1) → DmaTrigger r = Some r' →
  dma_inv 0 r' ∧ pcie_terminated r' = false ∧ dma_order r' = dma_order r.
Proof.
  intros Hterm Hcount Hb Hq Ht. unfold DmaTrigger in Ht.
  destruct (dma_queue_ r) as [|op q] eqn:Hqe.
  { simplify_eq. split_and!; try done. split; [lia|lia|by rewrite Hqe]. }
  specialize (Hq ltac:(done)). destruct (Z.eqb_spec (dma_pending_ r) DMA_MAX_PENDING); [lia|].
  apply DmaDo_dma in Ht as (Hp & Hf & Hq' & Ht' & Hs); [|done]. simpl in *. split_and!; [split|done|].
  - rewrite Hp, Hf, length_app. simpl. lia.
  - unfold DMA_MAX_PENDING in *. lia.
  - unfold DMA_MAX_PENDING in *. lia.
  - unfold dma_order. rewrite Hs, Hq', Hqe. simpl. by rewrite <- app_assoc.
Qed.

Lemma dma_done_dma r k op r' :
  pcie_terminated r = false → dma_inv 0 r → (k < length (in_flight r))%nat →
  dma_done r k op = Some r' →
  dma_inv 0 r' ∧ pcie_terminated r' = false ∧ dma_order r `prefix_of` dma_order r'.
Proof.
  intros Hterm [Hcount Hbound Hbusy] Hk Hr. unfold dma_done in Hr.
  set (r1 := set_dma r _ _ _) in Hr. destruct (after r1 _) as [r2|] eqn:Ha; [|done].
  cbn [mbind option_bind] in Hr.
  destruct (after_dma 1 r1 (DmaComplete (dev_ r) (main_time_ r) op) r2 Hterm) as ([Hc2 Hb2 Hq2] & Hterm2 & Ho2); [|exact Ha|].
  { split; simpl; [|done|done]. rewrite length_delete by (by apply lookup_lt_is_Some_2). lia. }
  apply DmaTrigger_dma in Hr as (? & ? & Ho); simpl; auto; try lia.
  - split_and!; auto. rewrite Ho. exact Ho2.
  - intros Hne. rewrite Hq2 by done. done.
Qed.

Definition dma_step r r' : Prop :=
  dma_inv 0 r' ∧ pcie_terminated r' = false ∧ dma_order r `prefix_of` dma_order r'.

Lemma dma_step_refl r : dma_inv 0 r → pcie_terminated r = false → dma_step r r.
Proof. by intros. Qed.

Lemma PollH2D_dma r m r' :
  pcie_terminated r = false → m ≠ Some H2DTerminate → dma_inv 0 r → PollH2D r m = Some r' →
  dma_step r r'.
Proof.
  intros Hterm Hm Hinv.
  assert (∀ r1 m1, dma_step r r1 → match m1 with D2HRead _ _ _ | D2HWrite _ _ _ _ => False | _ => True end →
                   dma_step r (send_host r1 m1)) as Hsend.
  { intros r1 m1 (Hi & Ht & Hp) Hm1. destruct (dma_same 0 r1 (send_host r1 m1)) as [Hi' Ho]; auto.
    - simpl. by apply dma_sent_other.
    - split_and!; [done|done|]. by rewrite Ho. }
  destruct m as [[req offset len bar|req offset bar data posted|req data|req|flags| | |ty]|]; simpl;
    try (by intros; simplify_eq).
  - unfold do_H2DRead. destruct (_ || _); [done|].
    destruct (RegRead _ _ _ _ _) as [[[v d] cs]|]; [|done]. simpl.
    destruct (do_calls _ _) as [r1|] eqn:Hc; [|done]. intros. simplify_eq/=. apply Hsend; [|done].
    by apply (after_dma 0 r (Some (d, cs))).
  - unfold do_H2DWrite. destruct (after _ _) as [r1|] eqn:Ha; [|done]. simpl.
    assert (dma_step r r1) as Hs1 by exact (after_dma 0 _ _ _ Hterm Hinv Ha).
    destruct posted; [by intros [= <-]|].
    destruct (pcie_terminated r1) eqn:Ht1; [done|]. intros [= <-]. apply Hsend; [exact Hs1|done].
  - unfold do_H2DReadcomp. destruct (dma_op r req) as [[k op]|] eqn:Hop; [|done]. simpl.
    destruct (_ <? _); [done|]. apply list_find_Some in Hop as (Hk & _).
    apply dma_done_dma; auto. by eapply lookup_lt_Some.
  - unfold do_H2DWritecomp. destruct (dma_op r req) as [[k op]|] eqn:Hop; [|done]. simpl.
    apply list_find_Some in Hop as (Hk & _). apply dma_done_dma; auto. by eapply lookup_lt_Some.
  - by apply after_dma.
Qed.

Lemma turn_dma is_sync r i r' :
  pcie_terminated r = false → from_host i ≠ Some H2DTerminate → dma_inv 0 r →
  turn is_sync r i = Some r' → dma_step r r'.
Proof.
  intros Hterm Hm Hinv Hr. unfold turn in Hr.
  destruct (PollH2D r _) as [r1|] eqn:H1; [|done]. cbn [mbind option_bind] in Hr.
  destruct (PollH2D_dma _ _ _ Hterm Hm Hinv H1) as (Hi1 & Ht1 & Hp1).
  destruct (PollN2D r1 _) as [r2|] eqn:H2; [|done]. cbn [mbind option_bind] in Hr.
  assert (dma_step r1 r2) as (Hi2 & Ht2 & Hp2).
  { destruct (from_net i) as [[port data| |ty]|]; simpl in H2; try (by simplify_eq).
    by apply (after_dma 0) in H2. }
  destruct (EventTrigger r2) as [r3|] eqn:H3; [|done]. cbn [mbind option_bind] in Hr.
  assert (dma_step r2 r3) as (Hi3 & Ht3 & Hp3).
  { unfold EventTrigger in H3. destruct (events_ r2); [by simplify_eq|].
    destruct (_ <? _); [by simplify_eq|].
    apply (after_dma 0) in H3; [done|done|by destruct Hi2; split]. }
  assert (dma_step r r3) by (split_and!; [done|done|]; by do 2 (etrans; [done|])).
  destruct (_ <=? _); simplify_eq; [done|].
  assert (dma_step r r3 → dma_step r (set_time r3 (next_ts is_sync r3 (next_if i)))) as Htime; [|auto].
  intros ([] & ? & ?). by split_and!; [split|..].
Qed.

Lemma run_dma is_sync ins : ∀ r r',
  pcie_terminated r = false → Forall (λ i, from_host i ≠ Some H2DTerminate) ins → dma_inv 0 r →
  RunMain is_sync r ins = Some r' → dma_step r r'.
Proof.
  induction ins as [|i ins IH]; intros r r' Hterm Hins Hinv Hr; simpl in Hr; [by simplify_eq|].
  inversion Hins as [|? ? Hi Hins']; subst.
  destruct (turn is_sync r i) as [r1|] eqn:Ht; [|done]. cbn [mbind option_bind] in Hr.
  destruct (turn_dma _ _ _ _ Hterm Hi Hinv Ht) as (Hi1 & Ht1 & Hp1).
  destruct (IH _ _ Ht1 Hins' Hi1 Hr) as (? & ? & ?). split_and!; auto. by etrans.
Qed.

(** While the host is there, for any device and any inputs, at most 64 DMA operations are
    outstanding, each counted once; operations wait only while 64 are outstanding; and the
    requests reach the host in the order they were issued, none lost or overtaken. *)
Theorem dma_fifo is_sync r r' ins :
  dma_inv 0 r → pcie_terminated r = false →
  Forall (λ i, from_host i ≠ Some H2DTerminate) ins → RunMain is_sync r ins = Some r' →
  dma_pending_ r' = Z.of_nat (length (in_flight r')) ∧ dma_pending_ r' ≤ DMA_MAX_PENDING ∧
  (dma_queue_ r' ≠ [] → dma_pending_ r' = DMA_MAX_PENDING) ∧
  dma_order r `prefix_of` dma_order r'.
Proof.
  intros Hinv Hterm Hins Hr. destruct (run_dma _ _ _ _ Hterm Hins Hinv Hr) as ([Hc Hb Hq] & Ht & Ho).
  split_and!; [lia|done|by apply Hq|done].
Qed.

(** [EventCancel] does not cancel one event: every pending event with the same time and
    priority is erased with it. *)
Theorem event_cancel_drops_equals r e e' r' :
  do_call r (EventCancel e) = Some r' → time_ e' = time_ e → priority_ e' = priority_ e →
  e' ∉ events_ r'.
Proof.
  intros Hr Ht Hp He. simpl in Hr. simplify_eq/=. unfold multiset_erase in He.
  apply list_elem_of_filter in He as [Hlt _].
  apply orb_true_iff in Hlt as [Hlt|Hlt]; apply event_ltb_spec in Hlt; lia.
Qed.

End inv.

(** A device that never schedules an event in the past, as long as the time is at most
    [horizon]: what the runner relies on to keep time and events in step. *)
Class PunctualDevice (D E : Type) `{!Device D E} (horizon : Z) (ok : D → Prop) : Prop := {
  punctual_RegRead d now bar addr len v d' cs :
    ok d → now ≤ horizon → RegRead d now bar addr len = Some (v, d', cs) →
    ok d' ∧ Forall (schedules_from now) cs;
  punctual_RegWrite d now bar addr data d' cs :
    ok d → now ≤ horizon → RegWrite d now bar addr data = Some (d', cs) →
    ok d' ∧ Forall (schedules_from now) cs;
  punctual_DmaComplete d now op d' cs :
    ok d → now ≤ horizon → DmaComplete d now op = Some (d', cs) →
    ok d' ∧ Forall (schedules_from now) cs;
  punctual_EthRx d now port data d' cs :
    ok d → now ≤ horizon → EthRx d now port data = Some (d', cs) →
    ok d' ∧ Forall (schedules_from now) cs;
  punctual_Timed d now (x : E) d' cs :
    ok d → now ≤ horizon → Timed d now x = Some (d', cs) →
    ok d' ∧ Forall (schedules_from now) cs;
  punctual_Devctrl d now flags d' cs :
    ok d → now ≤ horizon → DevctrlUpdate d now flags = Some (d', cs) →
    ok d' ∧ Forall (schedules_from now) cs;
}.

Section punctual.
Context {D E : Type} `{!Device D E} {horizon : Z} {ok : D → Prop}.
Context `{!PunctualDevice D E horizon ok}.

Implicit Types (r : Runner D E).

(** Timely, with a device that behaves, at a time within the horizon. *)
Record good r : Prop := {
  g_timely : timely r;
  g_ok : ok (dev_ r);
}.

Lemma do_calls_dev cs : ∀ r r', do_calls r cs = Some r' → dev_ r' = dev_ r.
Proof.
  induction cs as [|c cs IH]; intros r r' Hr; simpl in Hr; [by simplify_eq|].
  destruct (do_call r c) as [r1|] eqn:Hc; [|done]. apply IH in Hr. rewrite Hr.
  destruct c; simpl in Hc; unfold interrupt, do_IssueDma in Hc;
    try (by simplify_eq/=; repeat (case_match; simplify_eq/=)).
  case_match; [by apply DmaDo_frame in Hc as (_ & _ & ?)|by simplify_eq].
Qed.

(** A callback keeps the runner good and the clock still. *)
Lemma after_good r res r' :
  good r → (∀ d cs, res = Some (d, cs) → ok d ∧ Forall (schedules_from (main_time_ r)) cs) →
  after r res = Some r' → good r' ∧ main_time_ r' = main_time_ r.
Proof.
  intros [Ht Hok] Hres Ha. destruct res as [[d cs]|]; [|done]. unfold after in Ha. simpl in Ha.
  destruct (Hres d cs eq_refl) as [Hd Hcs].
  destruct (do_calls_timely cs (set_dev r d) r') as [Ht' Heq]; auto; [by destruct Ht; split|].
  apply do_calls_dev in Ha. split; [|done]. split; [done|by rewrite Ha].
Qed.

Lemma good_frame r r' :
  good r → main_time_ r' = main_time_ r → events_ r' = events_ r → dev_ r' = dev_ r →
  good r' ∧ main_time_ r' = main_time_ r.
Proof. intros [[Hs Hd] Hok] Ht He Hv. split; [|done]. split; [split; rewrite He, ?Ht; done|by rewrite Hv]. Qed.

Lemma dma_done_good r k op r' :
  main_time_ r ≤ horizon → good r → dma_done r k op = Some r' → good r' ∧ main_time_ r' = main_time_ r.
Proof.
  intros Hh Hg Hr. unfold dma_done in Hr. set (r1 := set_dma r _ _ _) in Hr.
  destruct (after _ _) as [r2|] eqn:Ha; [|done]. simpl in Hr.
  destruct (after_good r1 (DmaComplete (dev_ r) (main_time_ r) op) r2) as [Hg2 Ht2]; auto.
  { by apply (good_frame r). }
  { intros d cs Hres. by apply (punctual_DmaComplete (dev_ r) (main_time_ r) op); [apply Hg| |]. }
  apply DmaTrigger_frame in Hr as (Ht & He & Hd). simpl in *.
  destruct (good_frame r2 r') as [? ?]; auto. split; [done|]. etrans; [done|exact Ht2].
Qed.

Lemma PollH2D_good r m r' :
  main_time_ r ≤ horizon → good r → PollH2D r m = Some r' → good r' ∧ main_time_ r' = main_time_ r.
Proof.
  intros Hh Hg Hr. pose proof (g_ok _ Hg) as Hok. destruct m as [m|]; [|by simpl in *; simplify_eq].
  destruct m as [req offset len bar|req offset bar data posted|req data|req|flags| | |ty]; simpl in Hr.
  - unfold do_H2DRead in Hr. destruct (_ || _); [done|].
    destruct (RegRead _ _ _ _ _) as [[[v d] cs]|] eqn:Hd; [|done]. simpl in Hr.
    destruct (punctual_RegRead _ _ _ _ _ _ _ _ Hok Hh Hd) as [Hok' Hcs].
    destruct (do_calls (set_dev r d) cs) as [r1|] eqn:Hc; [|done]. simplify_eq/=.
    destruct (after_good r (Some (d, cs)) r1) as [Hg1 ?]; auto; [by intros ? ? [= <- <-]|].
    by destruct (good_frame r1 (send_host r1 (D2HReadcomp req v))).
  - unfold do_H2DWrite in Hr. destruct (after _ _) as [r1|] eqn:Ha; [|done]. simpl in Hr.
    destruct (after_good r (RegWrite (dev_ r) (main_time_ r) bar offset data) r1) as [Hg1 Ht1]; auto.
    { intros d cs Hres. by apply (punctual_RegWrite (dev_ r) (main_time_ r) bar offset data). }
    destruct posted; [by simplify_eq|]. destruct (pcie_terminated r1); simplify_eq.
    by destruct (good_frame r1 (send_host r1 (D2HWritecomp req))).
  - unfold do_H2DReadcomp in Hr. destruct (dma_op r req) as [[k op]|]; [|done]. simpl in Hr.
    destruct (_ <? _); [done|]. by apply dma_done_good in Hr.
  - unfold do_H2DWritecomp in Hr. destruct (dma_op r req) as [[k op]|]; [|done]. simpl in Hr.
    by apply dma_done_good in Hr.
  - unfold do_H2DDevctrl in Hr. eapply after_good; [done| |exact Hr].
    intros d cs Hres. by apply (punctual_Devctrl (dev_ r) (main_time_ r) flags).
  - by simplify_eq.
  - simplify_eq. by apply (good_frame r).
  - by simplify_eq.
Qed.

Lemma PollN2D_good r m r' :
  main_time_ r ≤ horizon → good r → PollN2D r m = Some r' → good r' ∧ main_time_ r' = main_time_ r.
Proof.
  intros Hh Hg Hr. destruct m as [[port data| |ty]|]; simpl in Hr; try by simplify_eq.
  eapply after_good; [done| |exact Hr].
  intros d cs Hres. by apply (punctual_EthRx (dev_ r) (main_time_ r) port data); [apply Hg| |].
Qed.

(** An event fires at its own time, neither early nor late. *)
Lemma EventTrigger_good r r' :
  main_time_ r ≤ horizon → good r → EventTrigger r = Some r' → good r' ∧ main_time_ r' = main_time_ r.
Proof.
  intros Hh Hg Hr. pose proof Hg as [[Hs Hd] Hok]. unfold EventTrigger in Hr.
  destruct (events_ r) as [|e l] eqn:He; [by simplify_eq|].
  destruct (Z.ltb_spec (main_time_ r) (time_ e)); [by simplify_eq|].
  eapply (after_good (set_events r l)); [| |exact Hr].
  - split; [|done]. split; simpl; [by inversion Hs|]. intros x Hx. apply Hd. by right.
  - intros d cs Hres. by apply (punctual_Timed (dev_ r) (main_time_ r) (ev e)).
Qed.

Lemma turn_good is_sync r i r' :
  main_time_ r ≤ horizon → good r → turn is_sync r i = Some r' →
  good r' ∧ main_time_ r ≤ main_time_ r'.
Proof.
  intros Hh Hg Hr. unfold turn in Hr.
  destruct (PollH2D r (from_host i)) as [r1|] eqn:H1; [|done].
  destruct (PollH2D_good _ _ _ Hh Hg H1) as [Hg1 Ht1]. simpl in Hr.
  destruct (PollN2D r1 (from_net i)) as [r2|] eqn:H2; [|done].
  destruct (PollN2D_good r1 (from_net i) r2) as [Hg2 Ht2]; auto; [by rewrite Ht1|]. simpl in Hr.
  destruct (EventTrigger r2) as [r3|] eqn:H3; [|done].
  destruct (EventTrigger_good r2 r3) as [Hg3 Ht3]; auto; [by rewrite Ht2, Ht1|]. simpl in Hr.
  assert (main_time_ r3 = main_time_ r) as Heq by congruence.
  destruct (Z.leb_spec (next_ts is_sync r3 (next_if i)) (main_time_ r3)) as [|Hlt]; simplify_eq.
  { split; [done|lia]. }
  split; [|simpl; lia]. destruct Hg3 as [[Hs Hd] Hok]. split; [|done]. split; simpl; [done|].
  intros e He. unfold next_ts, EventNext.
  destruct (events_ r3) as [|e0 l] eqn:Hev; [by apply elem_of_nil in He|]. simpl.
  assert (time_ e0 ≤ time_ e).
  { inversion Hs as [|? ? _ Hall]; subst. apply elem_of_cons in He as [->|He]; [lia|].
    rewrite Forall_forall in Hall. specialize (Hall _ He). apply event_le_spec in Hall. lia. }
  case_match; case_match; lia.
Qed.

Lemma run_good is_sync ins : ∀ r r',
  good r → RunMain is_sync r ins = Some r' → main_time_ r' ≤ horizon → good r'.
Proof.
  induction ins as [|i ins IH]; intros r r' Hg Hr Hh; simpl in Hr; [by simplify_eq|].
  destruct (turn is_sync r i) as [r1|] eqn:Ht; [|done]. cbn [mbind option_bind] in Hr.
  pose proof (turn_monotone _ _ _ _ Ht). pose proof (run_monotone _ _ _ _ Hr).
  destruct (turn_good is_sync r i r1) as [Hg1 _]; auto; [lia|]. by apply (IH r1).
Qed.

(** with a device that does not schedule into the past, the clock never runs backwards,
    no pending event is ever overdue, and pending events are kept in time order; so every
    event fires exactly at its own time. *)
Theorem events_on_time is_sync r r' ins :
  good r → RunMain is_sync r ins = Some r' → main_time_ r' ≤ horizon →
  main_time_ r ≤ main_time_ r' ∧ timely r' ∧
  (∀ e l, events_ r' = e :: l → time_ e ≤ main_time_ r' → time_ e = main_time_ r').
Proof.
  intros Hg Hr Hh. pose proof (run_good _ _ _ _ Hg Hr Hh) as [[Hs Hd] _].
  split_and!; [by eapply run_monotone|by split|].
  intros e l He Hle. specialize (Hd e). rewrite He in Hd. specialize (Hd ltac:(by left)). lia.
Qed.

End punctual.

(** ** A small device

    Echoes each packet 7 ps later and writes it to host memory. *)

#[export] Instance echo_device : Device nat bytes := {
  RegRead d _ _ _ len := Some (replicate (Z.to_nat len) 0, d, []);
  RegWrite d _ _ _ _ := Some (d, []);
  DmaComplete d _ _ := Some (d, []);
  EthRx d now _ data := Some (d, [EventSchedule (MkEvent (now + 7) 0 data)]);
  Timed d _ data := Some (S d, [EthSend data;
                     IssueDma (MkDma (Z.of_nat d) true 0x1000 (Z.of_nat (length data)) data)]);
  DevctrlUpdate d _ _ := Some (d, []);
}.

#[export] Instance echo_punctual h : PunctualDevice nat bytes h (λ _, True).
Proof.
  split; simpl; intros; simplify_eq; split; auto; repeat constructor; simpl; lia.
Qed.

Definition echo_runner : Runner nat bytes := MkRunner 100 0%nat [] [] 0 false 2048 1600 [] [] [].

Definition echo_inputs : list turn_input :=
  [MkInput None (Some (NetPacket 0 [1; 2])) 105; MkInput None (Some (NetPacket 0 [3])) 200;
   MkInput None None 200; MkInput (Some (H2DWritecomp 0)) None 300].

Definition echo_after (k : nat) : Runner nat bytes :=
  default echo_runner (RunMain true echo_runner (take k echo_inputs)).

(** The packets go out at 107 and 112. *)
Example echo_run :
  (main_time_ (echo_after 3), d2n (echo_after 3), d2n (echo_after 4)) = (112, [[1; 2]], [[1; 2]; [3]]).
Proof. by vm_compute. Qed.

Lemma echo_good : good (ok := λ _, True) echo_runner.
Proof. split; [|done]. split; simpl; [constructor|set_solver]. Qed.

Lemma events_on_time_witness :
  main_time_ echo_runner ≤ main_time_ (echo_after 3) ∧ timely (echo_after 3) ∧
  (∀ e l, events_ (echo_after 3) = e :: l → time_ e ≤ main_time_ (echo_after 3) →
          time_ e = main_time_ (echo_after 3)).
Proof.
  apply (events_on_time (horizon := 1000) (ok := λ _, True) true echo_runner (echo_after 3)
           (take 3 echo_inputs)); [apply echo_good|by vm_compute|by vm_compute].
Defined.

Lemma dma_fifo_witness :
  dma_pending_ (echo_after 4) = Z.of_nat (length (in_flight (echo_after 4))) ∧
  dma_pending_ (echo_after 4) ≤ DMA_MAX_PENDING ∧
  (dma_queue_ (echo_after 4) ≠ [] → dma_pending_ (echo_after 4) = DMA_MAX_PENDING) ∧
  dma_order echo_runner `prefix_of` dma_order (echo_after 4).
Proof.
  apply (dma_fifo true echo_runner (echo_after 4) echo_inputs); [by split|done| |by vm_compute].
  repeat constructor; done.
Defined.

Lemma event_cancel_drops_equals_witness :
  ∃ r', do_call (set_events echo_runner [MkEvent 5 0 [1]; MkEvent 5 0 [2]])
                (EventCancel (MkEvent 5 0 [1])) = Some r' ∧ MkEvent 5 0 [2] ∉ events_ r'.
Proof.
  eexists. split; [reflexivity|].
  eapply (event_cancel_drops_equals (set_events echo_runner [MkEvent 5 0 [1]; MkEvent 5 0 [2]])
            (MkEvent 5 0 [1])); reflexivity.
Defined.

End nicbm_inv.
