(* ===== verification/DpuHandlers.v ===== *)
(** * Primitive handlers of the DPU (sims/nic/dpu_bm/{paxos,lock,barrier}_dpu_handler.{h,cc})

    A handler feeds the payload of an HCOP packet to its state machine and turns the
    outbound messages into Ethernet frames.  [PrimitiveHandler] is the interface of
    dpu_bm.h the device is written against. *)

From S2P Require Import Prelude.
From S2P Require Import HcopProto.
From S2P Require Import BarrierState.
From S2P Require Import LockState.
From S2P Require Import PaxosState.
From S2P Require Import PaxosInv.

Module dpu_handlers.

(** ** The handler interface *)

(** [full_frame] is the buffer [full_frame]/[full_frame_len] describe. *)
Record PacketContext := MkCtx {
  port : Z;            (* uint8_t *)
  operation_id : Z;    (* uint32_t *)
  source_tier : Z;     (* uint8_t *)
  full_frame : bytes;
}.

(** What a handler does to the device. *)
Inductive effect :=
| SendEth (frame : bytes)
| EscalateToHost (frame : bytes).

Definition effect_frame (e : effect) : bytes :=
  match e with SendEth f | EscalateToHost f => f end.

(** [HandlePacket]: [None] is undefined behaviour. *)
Class PrimitiveHandler (H : Type) := {
  PrimitiveType : H → Z;
  HandlePacket : H → bytes → PacketContext → option (H * list effect);
  MemoryUsedBytes : H → Z;
}.

(** ** Response frames *)

(** [BuildFrame]: the three handlers differ in the primitive type and the (zero) exception
    type they write.  [None]: the incoming frame is shorter than its headers. *)
Definition BuildFrame (prim exc : Z) (msg : bytes) (ctx : PacketContext) : option bytes :=
  if (length (full_frame ctx) <? hcop.kMinHcopFrameLen)%nat then None
  else
    let in_hdr := hcop.decode (drop 14 (full_frame ctx)) in
    let hdr := hcop.MkHcop prim exc (operation_id ctx) hcop.kTierDpu
                 (hcop.num_tier_crossings in_hdr) (hcop.tier_path in_hdr) 0 in
    let hdr := hcop.HCOP_APPEND_PATH hdr hcop.kTierDpu in
    let hdr := hcop.set_payload_len hdr (Z.of_nat (length msg)) in
    Some (replicate 6 0xFF ++ take 6 (full_frame ctx) ++
          [Z.land (Z.shiftr hcop.kHcopEtherType 8) 0xFF; Z.land hcop.kHcopEtherType 0xFF] ++
          hcop.encode hdr ++ msg).

(** [SendResponses], over the handler's [BuildFrame]. *)
Fixpoint SendResponses (build : bytes → PacketContext → option bytes) (msgs : list bytes)
    (ctx : PacketContext) : option (list effect) :=
  match msgs with
  | [] => Some []
  | m :: msgs =>
      f ← build m ctx;
      rest ← SendResponses build msgs ctx;
      Some (SendEth f :: rest)
  end.

(** ** The handlers *)

Module paxos_handler.

Definition new_PaxosDpuHandler (node_id num_replicas max_instances : Z) : option paxos.PaxosNode :=
  paxos.new_PaxosNode node_id num_replicas max_instances.

Definition paxos_BuildFrame : bytes → PacketContext → option bytes :=
  BuildFrame hcop.kPrimitivePaxos hcop.kPaxosNoException.
Definition paxos_SendResponses : list bytes → PacketContext → option (list effect) :=
  SendResponses paxos_BuildFrame.

Definition paxos_HandlePacket (n : paxos.PaxosNode) (d : bytes) (ctx : PacketContext) :
    option (paxos.PaxosNode * list effect) :=
  '(status, n, responses) ← paxos.HandleMessage n d [];
  if bool_decide (status = paxos.kInstanceOverflow) then Some (n, [EscalateToHost (full_frame ctx)])
  else
    effs ← paxos_SendResponses (paxos.data <$> responses) ctx;
    Some (n, effs).

(** [sizeof(InstanceState)]: two packed proposal numbers, a length and a value, the flag, a
    byte of padding, a length and a value. *)
Definition sizeof_InstanceState : Z := 278.
Definition paxos_MemoryUsedBytes (n : paxos.PaxosNode) : Z :=
  u64 (paxos.InstanceCount n * sizeof_InstanceState).

End paxos_handler.

Module lock_handler.

Definition new_LockDpuHandler (max_keys default_lease_ns max_waiters_per_key : Z) : lock.LockManager :=
  lock.new_LockManager max_keys default_lease_ns max_waiters_per_key.

Definition lock_BuildFrame : bytes → PacketContext → option bytes :=
  BuildFrame hcop.kPrimitiveLock hcop.kLockNoException.
Definition lock_SendResponses : list bytes → PacketContext → option (list effect) :=
  SendResponses lock_BuildFrame.

(** [now_ns] is always 0. *)
Definition lock_HandlePacket (m : lock.LockManager) (d : bytes) (ctx : PacketContext) :
    option (lock.LockManager * list effect) :=
  let '(status, m, responses) := lock.HandleMessage m d 0 [] in
  if bool_decide (status = lock.kKeyOverflow) then Some (m, [EscalateToHost (full_frame ctx)])
  else
    effs ← lock_SendResponses (lock.data <$> responses) ctx;
    Some (m, effs).

(** [sizeof(KeyState)]: the holder, padding, the expiry, and libstdc++'s 80-byte std::deque. *)
Definition sizeof_KeyState : Z := 96.
Definition lock_MemoryUsedBytes (m : lock.LockManager) : Z := u64 (lock.KeyCount m * sizeof_KeyState).

End lock_handler.

Module barrier_handler.

Definition new_BarrierDpuHandler (max_barriers : Z) : barrier.BarrierManager :=
  barrier.new_BarrierManager max_barriers 2.

Definition barrier_BuildFrame : bytes → PacketContext → option bytes :=
  BuildFrame hcop.kPrimitiveBarrier hcop.kBarrierNoException.
Definition barrier_SendResponses : list bytes → PacketContext → option (list effect) :=
  SendResponses barrier_BuildFrame.

Definition barrier_HandlePacket (m : barrier.BarrierManager) (d : bytes) (ctx : PacketContext) :
    option (barrier.BarrierManager * list effect) :=
  let '(status, m, responses) := barrier.HandleMessage m d [] in
  if bool_decide (status = barrier.kLayoutOverflow) then Some (m, [EscalateToHost (full_frame ctx)])
  else
    effs ← barrier_SendResponses (barrier.data <$> responses) ctx;
    Some (m, effs).

Definition barrier_MemoryUsedBytes (m : barrier.BarrierManager) : Z :=
  u64 (barrier.BarrierCount m * barrier.sizeof_BarrierState).

End barrier_handler.

(** The handlers [DpuDevice] registers. *)
Inductive handler :=
| HPaxos (n : paxos.PaxosNode)
| HLock (m : lock.LockManager)
| HBarrier (m : barrier.BarrierManager).

#[export] Instance dpu_handler : PrimitiveHandler handler := {
  PrimitiveType h :=
    match h with
    | HPaxos _ => hcop.kPrimitivePaxos
    | HLock _ => hcop.kPrimitiveLock
    | HBarrier _ => hcop.kPrimitiveBarrier
    end;
  HandlePacket h d ctx :=
    match h with
    | HPaxos n => '(n, e) ← paxos_handler.paxos_HandlePacket n d ctx; Some (HPaxos n, e)
    | HLock m => '(m, e) ← lock_handler.lock_HandlePacket m d ctx; Some (HLock m, e)
    | HBarrier m => '(m, e) ← barrier_handler.barrier_HandlePacket m d ctx; Some (HBarrier m, e)
    end;
  MemoryUsedBytes h :=
    match h with
    | HPaxos n => paxos_handler.paxos_MemoryUsedBytes n
    | HLock m => lock_handler.lock_MemoryUsedBytes m
    | HBarrier m => barrier_handler.barrier_MemoryUsedBytes m
    end;
}.

(** ** What the device relies on *)

(** The largest response: a PROMISE behind the two headers. *)
Definition max_response : nat := 30 + paxos.sizeof_PromiseMsg.

Definition frame_ok (limit : nat) (f : bytes) : Prop := is_bytes f ∧ (length f ≤ limit)%nat.

(** [accepts ty d]: handlers of type [ty] are specified on payload [d].  On such a payload a
    handler returns, stays well formed, keeps its type, and every frame it sends is bounded. *)
Class HandlerLaws (H : Type) `{!PrimitiveHandler H} := {
  handler_wf : H → Prop;
  accepts : Z → bytes → Prop;
  handler_total h d ctx :
    handler_wf h → accepts (PrimitiveType h) d → is_bytes d → is_bytes (full_frame ctx) →
    (hcop.kMinHcopFrameLen ≤ length (full_frame ctx))%nat →
    ∃ h' effs, HandlePacket h d ctx = Some (h', effs) ∧ handler_wf h' ∧
      PrimitiveType h' = PrimitiveType h ∧
      Forall (λ e, frame_ok (max_response `max` length (full_frame ctx)) (effect_frame e)) effs;
}.

Lemma length_BuildFrame prim exc msg ctx f :
  BuildFrame prim exc msg ctx = Some f → length f = (30 + length msg)%nat.
Proof.
  unfold BuildFrame, hcop.kMinHcopFrameLen, hcop.sizeof_HcopHeader.
  destruct (Nat.ltb_spec (length (full_frame ctx)) (14 + 16)); [done|]. intros. simplify_eq.
  rewrite !length_app, hcop.length_encode, length_take, length_replicate.
  unfold hcop.sizeof_HcopHeader. cbn [length]. lia.
Qed.

Lemma BuildFrame_bytes prim exc msg ctx f :
  is_bytes msg → is_bytes (full_frame ctx) → BuildFrame prim exc msg ctx = Some f → is_bytes f.
Proof.
  intros Hm Hf. unfold BuildFrame. destruct (_ <? _)%nat; [done|]. intros. simplify_eq.
  rewrite !is_bytes_app. split_and!; auto using is_bytes_take, hcop.encode_is_bytes.
  - apply Forall_replicate. by vm_compute.
  - repeat constructor; by vm_compute.
Qed.

Lemma SendResponses_ok prim exc msgs ctx :
  (hcop.kMinHcopFrameLen ≤ length (full_frame ctx))%nat → is_bytes (full_frame ctx) →
  Forall (λ m, is_bytes m ∧ (length m ≤ paxos.sizeof_PromiseMsg)%nat) msgs →
  ∃ effs, SendResponses (BuildFrame prim exc) msgs ctx = Some effs ∧
    Forall (λ e, frame_ok (max_response `max` length (full_frame ctx)) (effect_frame e)) effs.
Proof.
  intros Hlen Hb. induction 1 as [|m msgs [Hm Hl] _ IH]; simpl; [by exists []|].
  destruct (BuildFrame prim exc m ctx) as [f|] eqn:Hf.
  2: { unfold BuildFrame in Hf. destruct (Nat.ltb_spec (length (full_frame ctx)) hcop.kMinHcopFrameLen);
         [lia|done]. }
  destruct IH as (effs & -> & Heffs). simpl. eexists. split; [done|]. constructor; [|done].
  split; [by eapply BuildFrame_bytes|]. simpl. rewrite (length_BuildFrame _ _ _ _ _ Hf).
  unfold max_response. lia.
Qed.

Definition small (m : bytes) : Prop := is_bytes m ∧ (length m ≤ paxos.sizeof_PromiseMsg)%nat.

(** Lock replies. *)
Lemma MakeGrant_small dest key e : small (lock.data (lock.MakeGrant dest key e)).
Proof.
  split; simpl; unfold lock.proto.encode_Grant, lock.proto.encode_hdr; simpl;
    [rewrite !is_bytes_app; split_and!; auto with hcop|].
  rewrite !length_app, !length_le. unfold paxos.sizeof_PromiseMsg. simpl. lia.
Qed.

Lemma MakeDeny_small dest key h : small (lock.data (lock.MakeDeny dest key h)).
Proof.
  unfold small, lock.MakeDeny, lock.data, lock.proto.encode_Deny, lock.proto.encode_hdr. split.
  - rewrite !is_bytes_app. split_and!; auto with hcop.
  - rewrite !length_app, !length_le, length_replicate. unfold paxos.sizeof_PromiseMsg. lia.
Qed.

(** One message at most, and a small one. *)
Definition one_small (msgs : list bytes) : Prop := (length msgs ≤ 1)%nat ∧ Forall small msgs.

Lemma one_small_nil : one_small [].
Proof. by split; [simpl; lia|]. Qed.

Lemma one_small_one m : small m → one_small [m].
Proof. intros. by split; [simpl; lia|apply Forall_singleton]. Qed.

#[local] Hint Resolve one_small_nil one_small_one MakeGrant_small MakeDeny_small : hcop.

Lemma lock_outputs_small m d now st m' out :
  lock.HandleMessage m d now [] = (st, m', out) → one_small (lock.data <$> out).
Proof.
  assert (∀ key r lease now st m' out, lock.Acquire m key r lease now [] = (st, m', out) →
            one_small (lock.data <$> out)) as Hacq.
  { clear. intros key r lease now st m' out Ha. unfold lock.Acquire, lock.GrantLock in Ha.
    destruct (lock.GetOrCreateKey m key) as [[ks|] m1]; [|simplify_eq; auto with hcop].
    repeat (match type of Ha with (if ?b then _ else _) = _ => destruct b end);
      injection Ha as <- <- <-; cbn [app fmap list_fmap]; auto with hcop. }
  assert (∀ key r now st m' out, lock.Release m key r now [] = (st, m', out) →
            one_small (lock.data <$> out)) as Hrel.
  { clear. intros key r now st m' out Hr. unfold lock.Release in Hr.
    destruct (lock.keys_ m !! key) as [ks|]; [|simplify_eq; auto with hcop].
    destruct (negb _); [simplify_eq; auto with hcop|]. rewrite lock.free_and_regrant_eq in Hr. simplify_eq.
    unfold lock.regrant_out. destruct (lock.waiters ks); cbn [app fmap list_fmap]; auto with hcop. }
  unfold lock.HandleMessage. intros H.
  repeat (match type of H with (if ?b then _ else _) = _ => destruct b end);
    try (simplify_eq; by auto with hcop); [by eapply Hacq|by eapply Hrel].
Qed.

Lemma MakeRelease_small id gen : small (barrier.data (barrier.MakeRelease id gen)).
Proof.
  split; [simpl; unfold barrier.proto.encode; rewrite !is_bytes_app; split_and!; auto with hcop|].
  simpl. rewrite barrier.length_encode_barrier. unfold barrier.proto.sizeof_BarrierMsgHeader,
    paxos.sizeof_PromiseMsg. lia.
Qed.
#[local] Hint Resolve MakeRelease_small : hcop.

Lemma barrier_outputs_small m d st m' out :
  barrier.HandleMessage m d [] = (st, m', out) → one_small (barrier.data <$> out).
Proof.
  assert (∀ m b id g s st m' out, barrier.ArriveAt m b id g s [] = (st, m', out) →
            one_small (barrier.data <$> out)) as Hat.
  { clear. intros m b id g s st m' out Ha. unfold barrier.ArriveAt in Ha.
    repeat (match type of Ha with (if ?b then _ else _) = _ => destruct b end);
      injection Ha as <- <- <-; cbn [app fmap list_fmap]; auto with hcop. }
  unfold barrier.HandleMessage, barrier.Arrive. intros H.
  destruct (_ <? _)%nat; [simplify_eq; by auto with hcop|]. destruct (_ =? _); [|simplify_eq; by auto with hcop].
  destruct (barrier.barriers_ m !! _); [by eapply Hat|]. case_bool_decide; [simplify_eq; by auto with hcop|].
  destruct (barrier.SetParticipants _ _ _) as [st1 m1].
  destruct (negb _); [simplify_eq; by auto with hcop|].
  destruct (barrier.barriers_ m1 !! _); [by eapply Hat|simplify_eq; by auto with hcop].
Qed.

(** Only the Paxos replica needs anything of its payload: that the value it declares is
    there. *)
Definition dpu_handler_wf (h : handler) : Prop :=
  match h with HPaxos n => paxos_inv.wf n | _ => True end.
Definition dpu_accepts (ty : Z) (d : bytes) : Prop :=
  ty = hcop.kPrimitivePaxos → paxos_inv.complete d.

Lemma dpu_handler_total h d ctx :
  dpu_handler_wf h → dpu_accepts (PrimitiveType h) d → is_bytes d → is_bytes (full_frame ctx) →
  (hcop.kMinHcopFrameLen ≤ length (full_frame ctx))%nat →
  ∃ h' effs, HandlePacket h d ctx = Some (h', effs) ∧ dpu_handler_wf h' ∧
    PrimitiveType h' = PrimitiveType h ∧
    Forall (λ e, frame_ok (max_response `max` length (full_frame ctx)) (effect_frame e)) effs.
Proof.
  intros Hwf Hacc Hd Hfb Hfl.
  assert (frame_ok (max_response `max` length (full_frame ctx)) (full_frame ctx)) as Hesc
    by (split; [done|lia]).
  destruct h as [n|m|m]; simpl.
  - destruct (paxos_inv.HandleMessage_safe n d [] Hwf Hd (Hacc eq_refl)) as (st & n' & new & Hm & Hwf' & _ & Hout).
    unfold paxos_handler.paxos_HandlePacket, paxos_handler.paxos_SendResponses, paxos_handler.paxos_BuildFrame. rewrite Hm. simpl.
    case_bool_decide; [by eexists _, _; split_and!; [done|done|done|constructor]|].
    destruct (SendResponses_ok hcop.kPrimitivePaxos hcop.kPaxosNoException (paxos.data <$> new) ctx)
      as (effs & -> & Heffs); auto.
    { apply Forall_fmap. eapply Forall_impl; [exact Hout|]. intros o (? & _ & ?). by split. }
    simpl. by eexists _, _.
  - unfold lock_handler.lock_HandlePacket, lock_handler.lock_SendResponses, lock_handler.lock_BuildFrame. destruct (lock.HandleMessage m d 0 []) as [[st m'] out] eqn:Hm.
    case_bool_decide; simpl; [by eexists _, _; split_and!; [done|done|done|constructor]|].
    destruct (SendResponses_ok hcop.kPrimitiveLock hcop.kLockNoException (lock.data <$> out) ctx)
      as (effs & -> & Heffs); auto; [by eapply lock_outputs_small|].
    simpl. by eexists _, _.
  - unfold barrier_handler.barrier_HandlePacket, barrier_handler.barrier_SendResponses, barrier_handler.barrier_BuildFrame. destruct (barrier.HandleMessage m d []) as [[st m'] out] eqn:Hm.
    case_bool_decide; simpl; [by eexists _, _; split_and!; [done|done|done|constructor]|].
    destruct (SendResponses_ok hcop.kPrimitiveBarrier hcop.kBarrierNoException (barrier.data <$> out) ctx)
      as (effs & -> & Heffs); auto; [by eapply barrier_outputs_small|].
    simpl. by eexists _, _.
Qed.

#[export] Instance dpu_handler_laws : HandlerLaws handler := {
  handler_wf := dpu_handler_wf;
  accepts := dpu_accepts;
  handler_total := dpu_handler_total;
}.

(** a response frame is a well-formed HCOP packet: broadcast destination, the request's
    destination as source, HCOP EtherType, a header that decodes to the primitive and the
    request's operation id with one more DPU crossing, and the message as payload. *)
Theorem response_frame prim exc msg ctx f :
  prim ∈u 16 → exc ∈u 16 → operation_id ctx ∈u 32 → is_bytes (full_frame ctx) →
  Z.of_nat (length msg) < 2 ^ 16 → BuildFrame prim exc msg ctx = Some f →
  let in_hdr := hcop.decode (drop 14 (full_frame ctx)) in
  hcop.decode (drop 14 f) =
    hcop.MkHcop prim exc (operation_id ctx) hcop.kTierDpu
      (u8 (hcop.num_tier_crossings in_hdr + 1))
      (u32 (Z.lor (Z.shiftl (hcop.tier_path in_hdr) 4) hcop.kTierDpu)) (Z.of_nat (length msg)) ∧
  drop 30 f = msg ∧ slice f 0 6 = replicate 6 0xFF ∧ slice f 6 6 = take 6 (full_frame ctx) ∧
  slice f 12 2 = [0x88; 0xB5].
Proof.
  intros Hp He Ho Hb Hl Hf. unfold BuildFrame in Hf.
  destruct (Nat.ltb_spec (length (full_frame ctx)) hcop.kMinHcopFrameLen) as [|Hlen]; [done|].
  injection Hf as <-. intros in_hdr. unfold hcop.kMinHcopFrameLen, hcop.sizeof_HcopHeader in Hlen.
  set (hdr := hcop.set_payload_len _ _).
  assert (hcop.wf_header hdr) as Hwf.
  { unfold hdr. split_and!; simpl; try done; apply wrap_fits; lia. }
  assert (length (take 6 (full_frame ctx)) = 6%nat) as H6 by (rewrite length_take; lia).
  assert (∀ k, drop (12 + k) (replicate 6 0xFF ++ take 6 (full_frame ctx) ++ [136; 181] ++ hcop.encode hdr ++ msg)
               = drop k ([136; 181] ++ hcop.encode hdr ++ msg)) as Hdrop.
  { intros k. rewrite app_assoc, drop_app_ge by (rewrite length_app, H6; simpl; lia).
    f_equal. rewrite length_app, H6. simpl. lia. }
  change (Z.land (Z.shiftr hcop.kHcopEtherType 8) 0xFF) with 136.
  change (Z.land hcop.kHcopEtherType 0xFF) with 181.
  split_and!.
  - change 14%nat with (12 + 2)%nat. rewrite Hdrop. cbn [skipn app]. rewrite drop_0, hcop.decode_encode by done. unfold hdr; simpl.
    unfold hcop.set_payload_len; simpl. by rewrite (wrap_id 16) by (split; lia).
  - change 30%nat with (12 + 18)%nat. rewrite Hdrop. cbn [skipn app]. rewrite drop_app_ge by (rewrite hcop.length_encode; done).
    rewrite hcop.length_encode. unfold hcop.sizeof_HcopHeader. by rewrite Nat.sub_diag, drop_0.
  - done.
  - unfold slice. simpl. by rewrite drop_0, take_app_le, take_ge by (rewrite ?H6; lia).
  - unfold slice. change 12%nat with (12 + 0)%nat. by rewrite Hdrop.
Qed.

Definition demo_frame : bytes :=
  [1; 2; 3; 4; 5; 6] ++ [7; 8; 9; 10; 11; 12] ++ [0x88; 0xB5] ++
  hcop.encode (hcop.MkHcop hcop.kPrimitiveLock 0 77 hcop.kTierHost 1 2 0) ++ [9; 9].
Definition demo_ctx : PacketContext := MkCtx 0 77 2 demo_frame.

Lemma response_frame_witness :
  ∃ f, BuildFrame hcop.kPrimitiveLock 0 [1; 2; 3] demo_ctx = Some f ∧
  hcop.decode (drop 14 f) = hcop.MkHcop hcop.kPrimitiveLock 0 77 hcop.kTierDpu 2 0x21 3 ∧
  drop 30 f = [1; 2; 3] ∧ slice f 0 6 = replicate 6 0xFF ∧ slice f 6 6 = [1; 2; 3; 4; 5; 6] ∧
  slice f 12 2 = [0x88; 0xB5].
Proof.
  destruct (BuildFrame hcop.kPrimitiveLock 0 [1; 2; 3] demo_ctx) as [f|] eqn:Hf;
    [|vm_compute in Hf; discriminate].
  exists f. split; [done|].
  apply (response_frame hcop.kPrimitiveLock 0 [1; 2; 3] demo_ctx f);
    [by vm_compute|by vm_compute|by vm_compute|by apply is_bytesb_sound; vm_compute|done|exact Hf].
Defined.

End dpu_handlers.
