(* ===== verification/DpuDevice.v ===== *)
(** * The DPU device (sims/nic/dpu_bm/dpu_bm.h, dpu_bm.cc)

    [DpuDevice] as a device of the runner of NicRunner.v, for any type of primitive
    handlers: packet ingress, the timed completion of processing, register reads, and the
    escalation of packets it cannot serve. *)

From S2P Require Import Prelude.
From S2P Require Import HcopProto.
From S2P Require Import BarrierState.
From S2P Require Import LockState.
From S2P Require Import PaxosState.
From S2P Require Import NicRunner.
From S2P Require Import DpuResources.
From S2P Require Import DpuConfig.
From S2P Require Import DpuHandlers.

Module dpu_device.
Import dpu dpu_config dpu_handlers.

(** ** Events *)

(** A SamplingEvent, or a ProcessingEvent; the frame the context points to is the event's
    own copy, [payload]. *)
Inductive dpu_event :=
| ProcessingEvent (core_id primitive_type port operation_id source_tier : Z) (payload : bytes)
| SamplingEvent (interval_ps : Z).

(** What [LogUtilization] is given; the utilization is active over capacity. *)
Record Utilization := MkUtil {
  u_ts_ns : Z; u_active : Z; u_capacity : Z; u_mem_used : Z; u_mem_cap : Z;
  u_processed : Z; u_queued : Z; u_dropped : Z;
}.

(** ** PCIe set-up *)

Record DevIntro := MkIntro {
  bars : list (Z * Z * Z);   (* (index, length, flags) of the bars in use *)
  pci_vendor_id : Z; pci_device_id : Z; pci_class : Z; pci_subclass : Z; pci_revision : Z;
  pci_msi_nvecs : Z; pci_msix_nvecs : Z; pci_msix_table_bar : Z; pci_msix_pba_bar : Z;
  pci_msix_table_offset : Z; pci_msix_pba_offset : Z; psi_msix_cap_offset : Z;
}.

Definition SIMBRICKS_PROTO_PCIE_BAR_64 : Z := 2.
Definition SIMBRICKS_PROTO_PCIE_BAR_DUMMY : Z := 8.
Definition kBarRegs : Z := 0.
Definition kBarMsix : Z := 3.

Definition dpu_intro : DevIntro :=
  MkIntro [(kBarRegs, 64 * 1024, SIMBRICKS_PROTO_PCIE_BAR_64);
           (kBarMsix, 4 * 1024, Z.lor SIMBRICKS_PROTO_PCIE_BAR_64 SIMBRICKS_PROTO_PCIE_BAR_DUMMY)]
          0x15B3 0xA2DC 0x02 0x00 0x01 1 8 kBarMsix kBarMsix 0x0 0x800 0x70.

(** ** The device *)

Section device.
Context {H : Type} `{!PrimitiveHandler H}.

Record DpuDevice := MkDev {
  cfg_ : DpuConfig;
  core_pool_ : ArmCorePool;
  dram_ : DramStore;
  handlers_ : gmap Z H;
  pkts_processed_ : Z;                    (* uint64_t *)
  pkts_dropped_ : Z;                      (* uint64_t *)
  pkts_escalated_ : Z;                    (* uint64_t *)
  pkts_queued_ : Z;                       (* uint64_t *)
  eth_send_cb_ : option (list bytes);     (* the test callback, with the frames it was given *)
  util_log : list Utilization;            (* calls made to LogUtilization *)
}.

Definition set_pool (d : DpuDevice) (p : ArmCorePool) : DpuDevice :=
  MkDev (cfg_ d) p (dram_ d) (handlers_ d) (pkts_processed_ d) (pkts_dropped_ d)
        (pkts_escalated_ d) (pkts_queued_ d) (eth_send_cb_ d) (util_log d).
Definition set_handlers (d : DpuDevice) (h : gmap Z H) : DpuDevice :=
  MkDev (cfg_ d) (core_pool_ d) (dram_ d) h (pkts_processed_ d) (pkts_dropped_ d)
        (pkts_escalated_ d) (pkts_queued_ d) (eth_send_cb_ d) (util_log d).
Definition set_counters (d : DpuDevice) (processed dropped escalated queued : Z) : DpuDevice :=
  MkDev (cfg_ d) (core_pool_ d) (dram_ d) (handlers_ d) processed dropped escalated queued
        (eth_send_cb_ d) (util_log d).
Definition count_processed (d : DpuDevice) : DpuDevice :=
  set_counters d (u64 (pkts_processed_ d + 1)) (pkts_dropped_ d) (pkts_escalated_ d) (pkts_queued_ d).
Definition count_dropped (d : DpuDevice) : DpuDevice :=
  set_counters d (pkts_processed_ d) (u64 (pkts_dropped_ d + 1)) (pkts_escalated_ d) (pkts_queued_ d).
Definition count_escalated (d : DpuDevice) : DpuDevice :=
  set_counters d (pkts_processed_ d) (pkts_dropped_ d) (u64 (pkts_escalated_ d + 1)) (pkts_queued_ d).
Definition set_queued (d : DpuDevice) (n : Z) : DpuDevice :=
  set_counters d (pkts_processed_ d) (pkts_dropped_ d) (pkts_escalated_ d) n.

(** [RegisterHandler] replaces a handler of the same type. *)
Definition RegisterHandler (d : DpuDevice) (h : H) : DpuDevice :=
  set_handlers d (<[PrimitiveType h := h]> (handlers_ d)).

(** ** Sending *)

Abbreviation calls := (list (nicbm.call dpu_event)) (only parsing).

Definition do_SendEth (d : DpuDevice) (data : bytes) : DpuDevice * calls :=
  match eth_send_cb_ d with
  | Some sent =>
      (MkDev (cfg_ d) (core_pool_ d) (dram_ d) (handlers_ d) (pkts_processed_ d) (pkts_dropped_ d)
             (pkts_escalated_ d) (pkts_queued_ d) (Some (sent ++ [data])) (util_log d), [])
  | None => (d, [nicbm.EthSend data])
  end.

Definition do_EscalateToHost (d : DpuDevice) (data : bytes) : DpuDevice * calls :=
  let '(d, cs) := do_SendEth d data in (count_escalated d, cs).

(** The calls a handler makes on its device, in order. *)
Fixpoint do_effects (d : DpuDevice) (effs : list effect) : DpuDevice * calls :=
  match effs with
  | [] => (d, [])
  | e :: effs =>
      let '(d, cs1) := match e with
                       | SendEth f => do_SendEth d f
                       | EscalateToHost f => do_EscalateToHost d f
                       end in
      let '(d, cs2) := do_effects d effs in
      (d, cs1 ++ cs2)
  end.

(** ** Packet ingress *)

Definition EthRx (d : DpuDevice) (now port : Z) (frame : bytes) : DpuDevice * calls :=
  if (length frame <? hcop.kMinHcopFrameLen)%nat then (count_dropped d, [])
  else if negb (hcop.ethertype frame =? hcop.kHcopEtherType) then (count_dropped d, [])
  else
    let hdr := hcop.decode (drop 14 frame) in
    match handlers_ d !! hcop.primitive_type hdr with
    | None => (count_dropped d, [])
    | Some _ =>
        match TryAcquire (core_pool_ d) with
        | (None, p) =>
            let ehdr := hcop.set_exception hdr hcop.kDpuCoreExhausted in
            do_EscalateToHost (set_pool d p)
              (hcop.put_header frame (hcop.HCOP_APPEND_PATH ehdr hcop.kTierDpu))
        | (Some core, p) =>
            let d := set_queued (set_pool d p) (u64 (pkts_queued_ d + 1)) in
            let payload := hcop.put_header frame (hcop.HCOP_APPEND_PATH hdr hcop.kTierDpu) in
            let latency_ps := u64 (per_packet_base_latency_ns (cfg_ d) * 1000) in
            let evt := nicbm.MkEvent (u64 (now + latency_ps)) 0
                         (ProcessingEvent core (hcop.primitive_type hdr) port
                            (hcop.operation_id hdr) (hcop.source_tier hdr) payload) in
            (d, [nicbm.EventSchedule evt])
        end
    end.

(** ** Completion of processing, and sampling *)

Definition handlers_mem (d : DpuDevice) : Z :=
  map_fold (λ _ h acc, u64 (acc + MemoryUsedBytes h)) 0 (handlers_ d).

Definition log_util (d : DpuDevice) (u : Utilization) : DpuDevice :=
  MkDev (cfg_ d) (core_pool_ d) (dram_ d) (handlers_ d) (pkts_processed_ d) (pkts_dropped_ d)
        (pkts_escalated_ d) (pkts_queued_ d) (eth_send_cb_ d) (util_log d ++ [u]).

Definition Timed (d : DpuDevice) (now : Z) (te : dpu_event) : option (DpuDevice * calls) :=
  match te with
  | SamplingEvent interval_ps =>
      let u := MkUtil (now / 1000) (ActiveCount (core_pool_ d)) (Capacity (core_pool_ d))
                 (u64 (UsedBytes (dram_ d) + handlers_mem d)) (CapacityBytes (dram_ d))
                 (pkts_processed_ d) (pkts_queued_ d) (pkts_dropped_ d) in
      Some (log_util d u,
            [nicbm.EventSchedule (nicbm.MkEvent (u64 (now + interval_ps)) 0 (SamplingEvent interval_ps))])
  | ProcessingEvent core ty port op_id tier payload =>
      '(d, cs) ← match handlers_ d !! ty with
                 | Some h =>
                     '(h', effs) ← HandlePacket h (drop hcop.kMinHcopFrameLen payload)
                                     (MkCtx port op_id tier payload);
                     let '(d, cs) := do_effects (set_handlers d (<[ty := h']> (handlers_ d))) effs in
                     Some (count_processed d, cs)
                 | None => Some (count_dropped d, [])
                 end;
      let d := if 0 <? pkts_queued_ d then set_queued d (pkts_queued_ d - 1) else d in
      p ← Release (core_pool_ d) core;
      Some (set_pool d p, cs)
  end.

(** ** Registers *)

Definition reg_value (d : DpuDevice) (addr : Z) : Z :=
  if addr =? 0x00 then 1
  else if addr =? 0x04 then ActiveCount (core_pool_ d)
  else if addr =? 0x08 then Capacity (core_pool_ d)
  else if addr =? 0x0C then u32 (UsedBytes (dram_ d))
  else if addr =? 0x10 then u32 (Z.shiftr (UsedBytes (dram_ d)) 32)
  else if addr =? 0x14 then u32 (CapacityBytes (dram_ d))
  else if addr =? 0x18 then u32 (Z.shiftr (CapacityBytes (dram_ d)) 32)
  else if addr =? 0x1C then u32 (pkts_processed_ d)
  else if addr =? 0x20 then u32 (pkts_dropped_ d)
  else if addr =? 0x24 then u32 (pkts_escalated_ d)
  else 0.

Definition RegRead (d : DpuDevice) (bar addr len : Z) : bytes :=
  if negb (bar =? kBarRegs) || negb (len =? 4) then replicate (Z.to_nat len) 0
  else le 4 (reg_value d addr).

(** The device behind the runner; register writes and DMA completions do not change it, and
    a control update only sets the base class's interrupt-enable flags, which the DPU never
    reads and which are left out. *)
#[export] Instance dpu_nic : nicbm.Device DpuDevice dpu_event := {
  nicbm.RegRead d _ bar addr len := Some (RegRead d bar addr len, d, []);
  nicbm.RegWrite d _ _ _ _ := Some (d, []);
  nicbm.DmaComplete d _ _ := Some (d, []);
  nicbm.EthRx d now port data := Some (EthRx d now port data);
  nicbm.Timed d now te := Timed d now te;
  nicbm.DevctrlUpdate d _ _ := Some (d, []);
}.

(** The events [SetupIntro] schedules. *)
Definition SetupIntro (d : DpuDevice) (now : Z) : DevIntro * list (nicbm.TimedEvent dpu_event) :=
  let interval_ps := u64 (u64 (telemetry_interval_ms (cfg_ d) * 1000) * 1000000) in
  (dpu_intro, [nicbm.MkEvent (u64 (now + interval_ps)) 0 (SamplingEvent interval_ps)]).

End device.
Arguments DpuDevice : clear implicits.

(** ** Construction, with the three handlers *)

(** [None]: an assertion of a constructor fails. *)
Definition new_DpuDevice (cfg : DpuConfig) : option (DpuDevice handler) :=
  p ← new_ArmCorePool (arm_cores cfg);
  n ← paxos_handler.new_PaxosDpuHandler (node_id cfg) (num_replicas cfg) 1000000;
  let d := MkDev cfg p (new_DramStore (u64 (u64 (dram_capacity_mb cfg * 1024) * 1024))) ∅ 0 0 0 0 None [] in
  let d := RegisterHandler d (HPaxos n) in
  let d := RegisterHandler d (HLock (lock_handler.new_LockDpuHandler 1000000 10000000 16)) in
  let d := RegisterHandler d (HBarrier (barrier_handler.new_BarrierDpuHandler 1000000)) in
  Some d.

End dpu_device.
