(* ===== verification/DpuSystem.v ===== *)
(** * The DPU under its runner

    The DPU device of DpuDevice.v driven by the main loop of NicRunner.v: ARM cores and
    pending processing events correspond one to one, no assertion fails, and what happens
    to each packet. *)

From S2P Require Import Prelude.
From S2P Require Import HcopProto.
From S2P Require Import LockState.
From S2P Require Import PaxosState.
From S2P Require Import PaxosInv.
From S2P Require Import NicRunner.
From S2P Require Import NicRunnerInv.
From S2P Require Import DpuResources.
From S2P Require Import DpuConfig.
From S2P Require Import DpuHandlers.
From S2P Require Import DpuDevice.

Module dpu_system.
Import nicbm dpu dpu_config dpu_handlers dpu_device.

Section system.
Context {H : Type} `{!PrimitiveHandler H} `{!HandlerLaws H}.

Implicit Types (d : DpuDevice H) (r : Runner (DpuDevice H) dpu_event).

(** ** The invariant *)

(** The cores held by pending processing events. *)
Definition core_of (e : TimedEvent dpu_event) : option Z :=
  match ev e with ProcessingEvent core _ _ _ _ _ => Some core | SamplingEvent _ => None end.
Definition held (l : list (TimedEvent dpu_event)) : list Z := omap core_of l.

(** A pending event can be completed: its handler is registered and specified on its
    payload, and its frame is a full HCOP frame that fits the network queue. *)
Definition event_ok (hs : gmap Z H) (limit : nat) (e : TimedEvent dpu_event) : Prop :=
  match ev e with
  | ProcessingEvent _ ty _ _ _ payload =>
      is_Some (hs !! ty) ∧ accepts ty (drop hcop.kMinHcopFrameLen payload) ∧ is_bytes payload ∧
      (hcop.kMinHcopFrameLen ≤ length payload ≤ limit)%nat
  | SamplingEvent _ => True
  end.

Definition handlers_ok (hs : gmap Z H) : Prop :=
  map_Forall (λ ty h, PrimitiveType h = ty ∧ handler_wf h) hs.

(** Ties the device to the runner's pending events. *)
Record linked (limit : nat) d (l : list (TimedEvent dpu_event)) : Prop := {
  lk_pool : wf_pool (core_pool_ d);
  lk_nodup : NoDup (held l);
  lk_busy : busy (core_pool_ d) = list_to_set (held l);
  lk_queued : pkts_queued_ d = Z.of_nat (length (held l));
  lk_handlers : handlers_ok (handlers_ d);
  lk_events : Forall (event_ok (handlers_ d) limit) l;
  lk_cb : eth_send_cb_ d = None;
}.

Lemma held_cons e l : held (e :: l) = option_list (core_of e) ++ held l.
Proof. unfold held. simpl. by destruct (core_of e). Qed.

Lemma insert_perm e (l : list (TimedEvent dpu_event)) : multiset_insert e l ≡ₚ e :: l.
Proof.
  induction l as [|x l IH]; simpl; [done|]. destruct (event_ltb e x); [done|].
  rewrite IH. apply Permutation_swap.
Qed.

#[local] Instance held_proper : Proper ((≡ₚ) ==> (≡ₚ)) held.
Proof. intros l l' Hl. unfold held. by rewrite Hl. Qed.

(** The relation does not depend on the order of the events. *)
Lemma linked_perm limit d l l' : l ≡ₚ l' → linked limit d l → linked limit d l'.
Proof.
  intros Hl [Hp Hn Hb Hq Hh He Hc].
  assert (held l ≡ₚ held l') as Hheld by (by rewrite Hl).
  split; auto.
  - by rewrite <- Hheld.
  - rewrite Hb. apply set_eq. intros i. by rewrite !elem_of_list_to_set, Hheld.
  - by rewrite Hq, Hheld.
  - by rewrite <- Hl.
Qed.

(** ** Effects of a handler *)

(** Calls that only send bounded frames. *)
Definition sends (limit : nat) (c : call dpu_event) : Prop :=
  match c with EthSend f => (length f ≤ limit)%nat | _ => False end.

Lemma do_effects_spec limit effs : ∀ d,
  eth_send_cb_ d = None → Forall (λ e, frame_ok limit (effect_frame e)) effs →
  ∃ d' cs, do_effects d effs = (d', cs) ∧ Forall (sends limit) cs ∧
    core_pool_ d' = core_pool_ d ∧ handlers_ d' = handlers_ d ∧ pkts_queued_ d' = pkts_queued_ d ∧
    eth_send_cb_ d' = None ∧ cfg_ d' = cfg_ d ∧ cs = EthSend ∘ effect_frame <$> effs.
Proof.
  induction effs as [|e effs IH]; intros d Hcb Heffs; [by eexists _, _|].
  inversion Heffs as [|? ? [_ He] Heffs']; subst.
  destruct e as [f|f]; simpl; unfold do_EscalateToHost, do_SendEth; rewrite Hcb.
  - destruct (IH d Hcb Heffs') as (d' & cs & -> & ? & ? & ? & ? & ? & ? & ->).
    eexists _, _. split; [done|]. split_and!; auto. by constructor.
  - destruct (IH (count_escalated d) Hcb Heffs') as (d' & cs & -> & ? & ? & ? & ? & ? & ? & ->).
    eexists _, _. split; [done|]. split_and!; auto. by constructor.
Qed.

(** The runner executes such calls without changing its events. *)
Lemma do_sends limit cs : ∀ r,
  Forall (sends limit) cs → sizeof_msg + Z.of_nat limit ≤ net_maxlen r →
  ∃ r', do_calls r cs = Some r' ∧ dev_ r' = dev_ r ∧ events_ r' = events_ r ∧
        pcie_terminated r' = pcie_terminated r ∧ pcie_maxlen r' = pcie_maxlen r ∧
        net_maxlen r' = net_maxlen r ∧ main_time_ r' = main_time_ r.
Proof.
  induction cs as [|c cs IH]; intros r Hcs Hmax; [by eexists|].
  inversion Hcs as [|? ? Hc Hcs']; subst. destruct c as [| |f| | | |]; simpl in Hc; try done. simpl.
  destruct (Z.ltb_spec (net_maxlen r) (sizeof_msg + Z.of_nat (length f))); [lia|]. simpl.
  destruct (IH (send_net r f) Hcs') as (r' & -> & ? & ? & ? & ? & ? & ?); [done|].
  eexists. split; [done|]. by split_and!.
Qed.

(** ** Packet ingress *)

(** What an incoming packet may be: bytes that fit, with a payload its handler is
    specified on. *)
Definition packet_ok (limit : nat) (f : bytes) : Prop :=
  is_bytes f ∧ (length f ≤ limit)%nat ∧
  accepts (hcop.primitive_type (hcop.decode (drop 14 f))) (drop hcop.kMinHcopFrameLen f).

(** The event a packet is turned into. *)
Definition processing_event d (now port core : Z) (f : bytes) : TimedEvent dpu_event :=
  let hdr := hcop.decode (drop 14 f) in
  MkEvent (u64 (now + u64 (per_packet_base_latency_ns (cfg_ d) * 1000))) 0
    (ProcessingEvent core (hcop.primitive_type hdr) port (hcop.operation_id hdr) (hcop.source_tier hdr)
       (hcop.put_header f (hcop.HCOP_APPEND_PATH hdr hcop.kTierDpu))).

(** The three fates of a packet. *)
Inductive rx_spec d (now port : Z) (f : bytes) : DpuDevice H * list (call dpu_event) → Prop :=
| rx_dropped :
    (length f < 30)%nat ∨ hcop.ethertype f ≠ hcop.kHcopEtherType ∨
      handlers_ d !! hcop.primitive_type (hcop.decode (drop 14 f)) = None →
    rx_spec d now port f (count_dropped d, [])
| rx_escalated :
    (30 ≤ length f)%nat → hcop.ethertype f = hcop.kHcopEtherType →
    is_Some (handlers_ d !! hcop.primitive_type (hcop.decode (drop 14 f))) →
    busy (core_pool_ d) = cores (core_pool_ d) →
    rx_spec d now port f
      (count_escalated d,
       [EthSend (hcop.put_header f (hcop.HCOP_APPEND_PATH
          (hcop.set_exception (hcop.decode (drop 14 f)) hcop.kDpuCoreExhausted) hcop.kTierDpu))])
| rx_queued core p :
    (30 ≤ length f)%nat → hcop.ethertype f = hcop.kHcopEtherType →
    is_Some (handlers_ d !! hcop.primitive_type (hcop.decode (drop 14 f))) →
    core ∉ busy (core_pool_ d) → wf_pool p → busy p = {[core]} ∪ busy (core_pool_ d) →
    capacity_ p = capacity_ (core_pool_ d) →
    rx_spec d now port f
      (set_queued (set_pool d p) (u64 (pkts_queued_ d + 1)),
       [EventSchedule (processing_event d now port core f)]).

Lemma set_pool_same d : set_pool d (core_pool_ d) = d.
Proof. by destruct d. Qed.

Lemma EthRx_spec d now port f :
  wf_pool (core_pool_ d) → eth_send_cb_ d = None → rx_spec d now port f (EthRx d now port f).
Proof.
  intros Hp Hcb. unfold EthRx, hcop.kMinHcopFrameLen, hcop.sizeof_HcopHeader.
  destruct (Nat.ltb_spec (length f) (14 + 16)) as [|Hlen]; [apply rx_dropped; left; done|].
  destruct (Z.eqb_spec (hcop.ethertype f) hcop.kHcopEtherType); simpl; [|apply rx_dropped; auto].
  destruct (handlers_ d !! _) as [h|] eqn:Hh; [|apply rx_dropped; auto].
  destruct (TryAcquire (core_pool_ d)) as [[core|] p] eqn:Ht;
    destruct (TryAcquire_spec _ _ _ Hp Ht) as (Hp' & Hcap & Hr).
  - destruct Hr as (Hnot & Hrange & Hb & _). by apply (rx_queued d now port f core p).
  - destruct Hr as [-> Hfull]. unfold do_EscalateToHost, do_SendEth. rewrite set_pool_same, Hcb.
    by apply rx_escalated.
Qed.

(** ** The invariant is kept *)

Lemma held_in_range limit d l i : linked limit d l → i ∈ held l → 0 ≤ i < capacity_ (core_pool_ d).
Proof.
  intros Hl Hi. apply (wfp_range _ (lk_pool _ _ _ Hl)). rewrite (lk_busy _ _ _ Hl).
  by apply elem_of_list_to_set.
Qed.

Lemma held_size limit d l : linked limit d l → Z.of_nat (length (held l)) ≤ 64.
Proof.
  intros Hl. pose proof (bits64_size_le (in_use_ (core_pool_ d))) as Hs.
  fold (busy (core_pool_ d)) in Hs. rewrite (lk_busy _ _ _ Hl) in Hs.
  by rewrite size_list_to_set in Hs by apply (lk_nodup _ _ _ Hl).
Qed.

Lemma EthRx_linked limit d l now port f :
  linked limit d l → packet_ok limit f →
  ∃ d' cs, EthRx d now port f = (d', cs) ∧
    (Forall (sends limit) cs ∧ linked limit d' l ∨
     ∃ e, cs = [EventSchedule e] ∧ linked limit d' (e :: l)).
Proof.
  intros Hl (Hb & Hlen & Hacc).
  pose proof (EthRx_spec d now port f (lk_pool _ _ _ Hl) (lk_cb _ _ _ Hl)) as Hs.
  destruct Hl as [Hp Hn Hbusy Hq Hh He Hc].
  inversion Hs as [? Heq|Hlen30 ? ? ? Heq|core p Hlen30 ? Hhd Hnot Hp' Hbp Hcap Heq]; clear Hs;
    eexists _, _; (split; [done|]).
  - left. by split.
  - left. split; [|by split]. constructor; [|done]. unfold sends. by rewrite hcop.length_put_header.
  - right. eexists. split; [done|].
    assert (linked limit d l) as Hsz%held_size by done.
    split; simpl; rewrite ?held_cons; simpl; auto.
    + constructor; [|done]. by rewrite <- (elem_of_list_to_set (C:=gset Z)), <- Hbusy.
    + by rewrite Hbp, Hbusy.
    + rewrite Hq, wrap_id; [lia|]. unfold fits. lia.
    + constructor; [|done]. unfold event_ok, processing_event. cbn [ev].
      unfold packet_ok, hcop.kMinHcopFrameLen, hcop.sizeof_HcopHeader in *.
      change (14 + 16)%nat with 30%nat in *.
      rewrite hcop.drop_put_header, hcop.length_put_header by done.
      split_and!; auto using hcop.put_header_bytes.
Qed.

Lemma insert_handler_ok (hs : gmap Z H) limit ty h' l :
  handlers_ok hs → handler_wf h' → PrimitiveType h' = ty → Forall (event_ok hs limit) l →
  handlers_ok (<[ty := h']> hs) ∧ Forall (event_ok (<[ty := h']> hs) limit) l.
Proof.
  intros Hh Hwf Hty He. split.
  - by apply map_Forall_insert_2.
  - eapply Forall_impl; [exact He|]. intros e. unfold event_ok. destruct (ev e) as [? ty' ? ? ? ?|]; [|done].
    intros [Hs ?]. split; [|done]. apply lookup_insert_is_Some'. auto.
Qed.

(** Completing a processing event: its core is freed, and only frames are sent. *)
Lemma Timed_processing limit d now core ty port op tier payload t prio l :
  linked limit d (MkEvent t prio (ProcessingEvent core ty port op tier payload) :: l) →
  ∃ d' cs, Timed d now (ProcessingEvent core ty port op tier payload) = Some (d', cs) ∧
    Forall (sends (max_response `max` limit)) cs ∧ linked limit d' l.
Proof.
  intros [Hp Hn Hbusy Hq Hh He Hc]. rewrite held_cons in *. simpl in Hn, Hbusy, Hq.
  apply Forall_cons in He as [([h Hhd] & Hacc & Hby & Hlen) He]. simpl in *. rewrite Hhd.
  destruct (Hh ty h Hhd) as [Hty Hwf]. subst ty.
  destruct (handler_total h (drop hcop.kMinHcopFrameLen payload) (MkCtx port op tier payload))
    as (h' & effs & Hrun & Hwf' & Hty' & Heffs); simpl; auto with hcop; [lia|].
  simpl in Hrun. rewrite Hrun. cbn [mbind option_bind].
  destruct (do_effects_spec (max_response `max` limit) effs
              (set_handlers d (<[PrimitiveType h := h']> (handlers_ d))) Hc)
    as (d1 & cs & Heq & Hsends & Hp1 & Hh1 & Hq1 & Hc1 & _ & _).
  { eapply Forall_impl; [exact Heffs|]. intros e [? Hle]. split; [done|]. simpl in Hle. lia. }
  rewrite Heq. cbn [mbind option_bind]. simpl in Hp1, Hh1, Hq1.
  assert ((0 <? pkts_queued_ (count_processed d1)) = true) as -> by (simpl; apply Z.ltb_lt; lia).
  simpl. rewrite Hp1.
  destruct (Release_spec (core_pool_ d) core Hp) as (p' & -> & Hp' & _ & Hb'); [set_solver|].
  cbn [mbind option_bind]. eexists _, _. split; [done|]. split; [done|].
  apply NoDup_cons in Hn as [Hni Hn].
  destruct (insert_handler_ok (handlers_ d) limit (PrimitiveType h) h' l Hh Hwf' Hty' He) as [Hh' He'].
  split; simpl; rewrite ?Hh1; auto.
  - rewrite Hb', Hbusy. apply set_eq. intros i.
    rewrite elem_of_difference, elem_of_union, !elem_of_singleton, !elem_of_list_to_set.
    split; [naive_solver|]. intros Hi. split; [by right|]. by intros ->.
  - rewrite Hq1, Hq. lia.
Qed.

(** ** The run *)

(** What the host may send: reads that fit a message, and nothing that needs an answer after
    it terminated; no DMA completions, for the DPU issues no DMA. *)
Definition host_ok (maxlen : Z) (terminated : bool) (m : option H2D) : Prop :=
  match m with
  | Some (H2DRead _ _ len _) => terminated = false ∧ sizeof_msg + len ≤ maxlen
  | Some (H2DWrite _ _ _ _ posted) => posted = true ∨ terminated = false
  | Some (H2DReadcomp _ _) | Some (H2DWritecomp _) => False
  | _ => True
  end.
Definition net_ok (limit : nat) (m : option N2D) : Prop :=
  match m with Some (NetPacket _ f) => packet_ok limit f | _ => True end.
Definition terminates (m : option H2D) : bool :=
  match m with Some H2DTerminate => true | _ => false end.

Fixpoint inputs_ok (maxlen : Z) (limit : nat) (terminated : bool) (ins : list turn_input) : Prop :=
  match ins with
  | [] => True
  | i :: ins =>
      host_ok maxlen terminated (from_host i) ∧ net_ok limit (from_net i) ∧
      inputs_ok maxlen limit (terminated || terminates (from_host i)) ins
  end.

(** The runner's interfaces, and a runner in the middle of a run. *)
Record interfaces (maxlen : Z) (limit : nat) (terminated : bool) r : Prop := {
  rn_term : pcie_terminated r = terminated;
  rn_pcie : pcie_maxlen r = maxlen;
  rn_net : sizeof_msg + Z.of_nat (max_response `max` limit) ≤ net_maxlen r;
}.
Definition running (maxlen : Z) (limit : nat) (terminated : bool) r : Prop :=
  interfaces maxlen limit terminated r ∧ linked limit (dev_ r) (events_ r).

Lemma running_sends maxlen limit term r d lim cs :
  interfaces maxlen limit term r → Forall (sends lim) cs → (lim ≤ max_response `max` limit)%nat →
  linked limit d (events_ r) →
  ∃ r', do_calls (set_dev r d) cs = Some r' ∧ running maxlen limit term r'.
Proof.
  intros [Ht Hp Hn] Hcs Hlim Hl.
  destruct (do_sends lim cs (set_dev r d) Hcs) as (r' & Hr & Hd & He & Ht' & Hp' & Hn' & _);
    [simpl; lia|].
  exists r'. split; [done|]. split; [split|]; rewrite ?Hd, ?He, ?Ht', ?Hp', ?Hn'; done.
Qed.

(** A step that only sent something. *)
Ltac stays := eexists; split; [done|]; split; [by split|done].

Lemma PollH2D_running maxlen limit term r m :
  running maxlen limit term r → host_ok maxlen term m →
  ∃ r', PollH2D r m = Some r' ∧ running maxlen limit (term || terminates m) r'.
Proof.
  intros Hr Hok. pose proof Hr as [[Ht Hp Hn] Hl].
  destruct m as [[q o len bar|q o bar data posted|q data|q|fl| | |ty]|]; simpl in *;
    rewrite ?orb_false_r; try done; try (by eexists).
  - destruct Hok as [-> Hlen]. unfold do_H2DRead. rewrite Ht, Hp. simpl.
    destruct (Z.ltb_spec maxlen (sizeof_msg + len)); [lia|]. simpl. stays.
  - unfold do_H2DWrite. simpl. destruct posted; [stays|].
    destruct Hok as [|Hok]; [done|]. rewrite Ht, Hok. subst term. stays.
  - rewrite orb_true_r. stays.
Qed.

Lemma PollN2D_running maxlen limit term r m :
  running maxlen limit term r → net_ok limit m →
  ∃ r', PollN2D r m = Some r' ∧ running maxlen limit term r'.
Proof.
  intros Hr Hok. destruct m as [[port f| |ty]|]; simpl in *; [|by eexists..].
  unfold EthRecv, after. simpl. destruct Hr as [Hi Hl].
  destruct (EthRx_linked limit (dev_ r) (events_ r) (main_time_ r) port f Hl Hok)
    as (d' & cs & -> & [[Hcs Hl']|(e & -> & Hl')]); cbn [mbind option_bind].
  - eapply running_sends; eauto. lia.
  - simpl. eexists. split; [done|]. split; [by destruct Hi; split|]. simpl.
    by apply (linked_perm _ _ (e :: events_ r)); [rewrite insert_perm|].
Qed.

(** Sampling re-arms its event and only adds to the log. *)
Lemma linked_sampling limit d l t t' prio prio' iv u :
  linked limit d (MkEvent t prio (SamplingEvent iv) :: l) →
  linked limit (log_util d u) (MkEvent t' prio' (SamplingEvent iv) :: l).
Proof.
  intros [Hp Hn Hb Hq Hh He Hc]. rewrite held_cons in *. apply Forall_cons in He as [_ He].
  split; simpl; rewrite ?held_cons; auto. by constructor.
Qed.

Lemma EventTrigger_running maxlen limit term r :
  running maxlen limit term r → ∃ r', EventTrigger r = Some r' ∧ running maxlen limit term r'.
Proof.
  intros Hr. unfold EventTrigger. destruct (events_ r) as [|[t prio e] l] eqn:He; [by eexists|].
  destruct (_ <? _); [by eexists|]. destruct Hr as [Hi Hl]. rewrite He in Hl.
  unfold after. cbn [ev]. change (nicbm.Timed (dev_ r)) with (Timed (dev_ r)).
  destruct e as [core ty port op tier payload|iv].
  - destruct (Timed_processing limit (dev_ r) (main_time_ r) core ty port op tier payload t prio l Hl)
      as (d' & cs & -> & Hcs & Hl'). cbn [mbind option_bind].
    apply (running_sends maxlen limit term (set_events r l) d' _ cs) in Hcs; auto. by destruct Hi; split.
  - simpl. eexists. split; [done|]. split; [by destruct Hi; split|]. simpl.
    eapply linked_perm; [symmetry; apply insert_perm|]. by eapply linked_sampling.
Qed.

Lemma turn_running is_sync maxlen limit term r i :
  running maxlen limit term r → host_ok maxlen term (from_host i) → net_ok limit (from_net i) →
  ∃ r', turn is_sync r i = Some r' ∧ running maxlen limit (term || terminates (from_host i)) r'.
Proof.
  intros Hr Hh Hn. unfold turn.
  destruct (PollH2D_running _ _ _ _ _ Hr Hh) as (r1 & -> & Hr1). cbn [mbind option_bind].
  destruct (PollN2D_running _ _ _ _ _ Hr1 Hn) as (r2 & -> & Hr2). cbn [mbind option_bind].
  destruct (EventTrigger_running _ _ _ _ Hr2) as (r3 & -> & Hr3). cbn [mbind option_bind].
  destruct (_ <=? _); eexists; (split; [done|]); [done|]. destruct Hr3 as [[] ?]. by split; [split|].
Qed.

Lemma RunMain_running is_sync maxlen limit ins : ∀ term r,
  running maxlen limit term r → inputs_ok maxlen limit term ins →
  ∃ r' term', RunMain is_sync r ins = Some r' ∧ running maxlen limit term' r'.
Proof.
  induction ins as [|i ins IH]; intros term r Hr Hok; [by eexists _, _|].
  destruct Hok as (Hh & Hn & Hok). cbn [RunMain].
  destruct (turn_running is_sync _ _ _ _ _ Hr Hh Hn) as (r1 & -> & Hr1). cbn [mbind option_bind]. eauto.
Qed.

End system.

(** ** The DPU as it is built *)

(** A runner at the start of its main loop: [SetupIntro] has scheduled the first sample. *)
Definition boot (d : DpuDevice handler) (now pcie_max net_max : Z) : Runner (DpuDevice handler) dpu_event :=
  MkRunner now d (SetupIntro d now).2 [] 0 false pcie_max net_max [] [] [].

Lemma new_DpuDevice_Some cfg d :
  node_id cfg ∈u 8 → new_DpuDevice cfg = Some d →
  ∃ n, paxos_inv.wf n ∧ wf_pool (core_pool_ d) ∧ busy (core_pool_ d) = ∅ ∧
    capacity_ (core_pool_ d) = arm_cores cfg ∧ pkts_queued_ d = 0 ∧ eth_send_cb_ d = None ∧ cfg_ d = cfg ∧
    handlers_ d = <[hcop.kPrimitiveBarrier := HBarrier (barrier_handler.new_BarrierDpuHandler 1000000)]>
                    (<[hcop.kPrimitiveLock := HLock (lock_handler.new_LockDpuHandler 1000000 10000000 16)]>
                      (<[hcop.kPrimitivePaxos := HPaxos n]> ∅)).
Proof.
  intros Hid. unfold new_DpuDevice.
  destruct (new_ArmCorePool (arm_cores cfg)) as [p|] eqn:Hp; [|done].
  destruct (paxos_handler.new_PaxosDpuHandler _ _ _) as [n|] eqn:Hn; [|done].
  intros [= <-]. destruct (new_pool_wf _ _ Hp) as (? & ? & ?). exists n. split; [|by split_and!].
  by eapply paxos_inv.new_node_wf; [exact Hid| |exact Hn].
Qed.

Lemma boot_linked limit cfg d now pm nm :
  node_id cfg ∈u 8 → new_DpuDevice cfg = Some d →
  linked limit d (events_ (boot d now pm nm)).
Proof.
  intros Hid Hd. destruct (new_DpuDevice_Some cfg d Hid Hd) as (n & Hn & Hp & Hb & _ & Hq & Hc & _ & Hh).
  split; simpl; auto.
  - constructor.
  - rewrite Hh. repeat apply map_Forall_insert_2; done.
  - by constructor.
Qed.

(** C6: the DPU does not fail on well-formed input. Built from any configuration its constructors
    accept, and fed any sequence of packets that fit and whose Paxos messages carry the value
    they declare, and of host messages (reads that fit a message, no DMA completions, nothing
    that needs an answer after the host terminated), with network entries that hold its largest
    answer, the simulation returns; in every state it reaches the busy ARM cores are exactly the
    cores held by pending processing events, each held once, and the queue counter is their
    number: no core is lost or handed out twice. (A truncated Paxos message is undefined
    behaviour, see [truncated_accept_undefined].) *)
Theorem dpu_runs cfg d limit is_sync now pcie_max net_max ins :
  node_id cfg ∈u 8 → new_DpuDevice cfg = Some d →
  sizeof_msg + Z.of_nat (max_response `max` limit) ≤ net_max →
  inputs_ok pcie_max limit false ins →
  ∃ r', RunMain is_sync (boot d now pcie_max net_max) ins = Some r' ∧
    NoDup (held (events_ r')) ∧ busy (core_pool_ (dev_ r')) = list_to_set (held (events_ r')) ∧
    ActiveCount (core_pool_ (dev_ r')) = Z.of_nat (length (held (events_ r'))) ∧
    pkts_queued_ (dev_ r') = Z.of_nat (length (held (events_ r'))).
Proof.
  intros Hid Hd Hnet Hins.
  assert (running pcie_max limit false (boot d now pcie_max net_max)) as Hrun
    by (split; [by split|]; by eapply boot_linked).
  destruct (RunMain_running is_sync _ _ _ _ _ Hrun Hins) as (r' & term & Hr & _ & Hl).
  exists r'. destruct Hl as [Hp Hn Hb Hq _ _ _]. split_and!; auto.
  unfold ActiveCount. rewrite (wfp_active _ Hp), Hb. by rewrite size_list_to_set.
Qed.

(** what happens to a packet when it arrives: it is dropped (too short, not HCOP, or no
    handler), escalated unprocessed with the exception in its header because every core is
    busy, or given a core and an event due after the configured latency, in which case
    only the core pool and the queue counter of the device change. *)
Theorem packet_fate (d : DpuDevice handler) now port f :
  wf_pool (core_pool_ d) → eth_send_cb_ d = None → rx_spec d now port f (EthRx d now port f).
Proof. apply EthRx_spec. Qed.

(** the constructors accept a configuration exactly when it has between 1 and 64 cores,
    3 to 5 replicas and a node id among them; [Validate] is weaker, so that a configuration
    file that loads may still make the constructor fail its assertions. *)
Theorem constructor_precondition cfg :
  (is_Some (new_DpuDevice cfg) ↔
     1 ≤ arm_cores cfg ≤ 64 ∧ 3 ≤ num_replicas cfg ≤ 5 ∧ node_id cfg < num_replicas cfg) ∧
  (∃ cfg', Validate cfg' = None ∧ arm_cores cfg' = 65 ∧ new_DpuDevice cfg' = None) ∧
  (∃ cfg', Validate cfg' = None ∧ num_replicas cfg' = 2 ∧ new_DpuDevice cfg' = None).
Proof.
  split_and!.
  - unfold new_DpuDevice, new_ArmCorePool, paxos_handler.new_PaxosDpuHandler, paxos.new_PaxosNode.
    repeat case_bool_decide; simpl; split; intros Hx; try (by eexists); try (by destruct Hx); lia.
  - by exists (MkConfig 65 16384 5 16 2000 40000000 15000 true true 0 3 100).
  - by exists (MkConfig 16 16384 5 16 2000 40000000 15000 true true 0 2 100).
Qed.

(** ** A run *)

Definition demo_dev : option (DpuDevice handler) := new_DpuDevice default_members.

(** Requester 7 acquires key 42. *)
Definition demo_request : bytes :=
  [1; 2; 3; 4; 5; 6] ++ [7; 8; 9; 10; 11; 12] ++ [0x88; 0xB5] ++
  hcop.encode (hcop.MkHcop hcop.kPrimitiveLock 0 77 hcop.kTierHost 1 hcop.kTierHost 20) ++
  lock.proto.encode_Acquire (lock.proto.MkAcquire (lock.proto.MkHeader lock.proto.kAcquire 7 42) 5000).

(** It arrives at time 1000, and is processed 2 us later. *)
Definition demo_ins : list turn_input :=
  MkInput (Some (H2DRead 9 4 4 0)) (Some (NetPacket 0 demo_request)) 500000 ::
  replicate 202 (MkInput None None 5000000).

Lemma demo_inputs_ok : inputs_ok 2048 128 false demo_ins.
Proof.
  assert (∀ n, inputs_ok 2048 128 false (replicate n (MkInput None None 5000000))) as Hrest
    by (induction n; simpl; auto).
  unfold demo_ins. cbn [inputs_ok from_host from_net host_ok net_ok terminates orb].
  split_and!; [done|by vm_compute| |apply Hrest].
  split_and!; [by apply is_bytesb_sound; vm_compute|vm_compute; lia|].
  intros Hty. vm_compute in Hty. discriminate Hty.
Qed.

Lemma dpu_runs_witness :
  ∃ d r', demo_dev = Some d ∧ RunMain true (boot d 1000 2048 2048) demo_ins = Some r' ∧
    NoDup (held (events_ r')) ∧ busy (core_pool_ (dev_ r')) = list_to_set (held (events_ r')) ∧
    ActiveCount (core_pool_ (dev_ r')) = Z.of_nat (length (held (events_ r'))) ∧
    pkts_queued_ (dev_ r') = Z.of_nat (length (held (events_ r'))).
Proof.
  destruct demo_dev as [d|] eqn:Hd; [|discriminate Hd]. exists d.
  destruct (dpu_runs default_members d 128 true 1000 2048 2048 demo_ins) as (r' & Hr & ?);
    [by vm_compute|exact Hd|by vm_compute|apply demo_inputs_ok|].
  by exists r'.
Defined.

(** The same run, computed: the grant goes out once, the lock is held, the register read
    was answered, and the core is free again. *)
Example lock_served :
  (d ← demo_dev; r ← RunMain true (boot d 1000 2048 2048) demo_ins;
   Some (main_time_ r, bool_decide (drop 30 <$> d2n r =
           [lock.proto.encode_Grant (lock.proto.MkGrant (lock.proto.MkHeader lock.proto.kGrant 7 42) 5000)]),
         length (d2h r), ActiveCount (core_pool_ (dev_ r)), pkts_processed_ (dev_ r)))
  = Some (2031000, true, 1%nat, 0, 1).
Proof. vm_compute. reflexivity. Qed.

Lemma packet_fate_witness :
  ∃ d, demo_dev = Some d ∧ rx_spec d 1000 0 demo_request (EthRx d 1000 0 demo_request).
Proof.
  destruct demo_dev as [d|] eqn:Hd; [|discriminate Hd]. exists d. split; [done|].
  apply (packet_fate d 1000 0 demo_request).
  - destruct (new_DpuDevice_Some default_members d) as (n & _ & Hp & _); [by vm_compute|exact Hd|exact Hp].
  - destruct (new_DpuDevice_Some default_members d) as (n & _ & _ & _ & _ & _ & Hc & _);
      [by vm_compute|exact Hd|exact Hc].
Defined.

End dpu_system.
