(* ===== verification/SwitchConfig.v ===== *)
(** * Switch configuration (sims/net/hcop_switch/switch_config.h, switch_config.cc)

    The resource model and routing table of the programmable switch, and its loader.  The
    costs are C++ [double]s, modelled by binary64 of the SpecFloat library.  The JSON library
    is a parameter. *)

From stdpp Require Import strings.
From Stdlib Require Import SpecFloat.
From S2P Require Import Prelude.

Module switch_config.

(** ** Doubles *)

Definition prec : Z := 53.
Definition emax : Z := 1024.
Definition double : Type := spec_float.

(** The double nearest to [n / d]: the value of a decimal literal. *)
Definition of_Z (n : Z) : double := binary_normalize prec emax n 0 false.
Definition literal (n d : Z) : double := SFdiv prec emax (of_Z n) (of_Z d).

(** ** The configuration *)

Inductive PlacementMode := kProcessAndForward | kForwardOnly.

#[global] Instance PlacementMode_eq_dec : EqDecision PlacementMode.
Proof. solve_decision. Defined.

Record SwitchConfig := MkConfig {
  sram_pages_total : Z;               (* uint32_t *)
  tcam_blocks_total : Z;              (* uint32_t *)
  pipeline_stages : Z;                (* uint32_t *)
  stage_latency_ns : Z;               (* uint64_t *)
  paxos_instance_sram_pages : double;
  lock_entry_sram_pages : double;
  barrier_entry_sram_pages : double;
  switch_node_id : Z;                 (* uint8_t *)
  num_replicas : Z;                   (* uint8_t *)
  barrier_default_participants : Z;   (* uint8_t *)
  placement_mode : PlacementMode;
  fallback_port_index : Z;            (* int *)
  node_port_map : gmap Z Z;           (* uint8_t to int *)
  telemetry_interval_ms : Z;          (* uint64_t *)
}.

(** The default member initializers. *)
Definition default_members : SwitchConfig :=
  MkConfig 6400 1920 20 50 (literal 1 10) (literal 1 100) (literal 1 100) 0 3 3
           kProcessAndForward (-1) ∅ 100.

(** Why loading fails: the file cannot be opened, is not JSON, a conversion throws, a node
    of the topology lacks a key (which a const [operator[]] leaves undefined), or one of the
    two checks. *)
Inductive config_error := EOpen | EParse | EType | EMissing | ESram | ETcam.

Section load.
Context {value : Type}.
Context (member : value → string → option value).    (* contains(key) and [key] *)
Context (elements : value → list value).             (* a range-based for loop *)
Context (get_uint : Z → value → option Z).           (* conversion to uintN_t; [None]: throws *)
Context (get_int : value → option Z).                (* conversion to int *)
Context (get_double : value → option double).
Context (get_string : value → option string).
(** Documented: a conversion yields a value of its result type. *)
Context (get_uint_fits : ∀ w v x, 0 ≤ w → get_uint w v = Some x → x ∈u w).

(** A member that is there is converted, otherwise the default stays. *)
Definition read {A} (get : value → option A) (j : value) (key : string) (dflt : A) :
    config_error + A :=
  match member j key with
  | None => inr dflt
  | Some v => match get v with None => inl EType | Some x => inr x end
  end.

(** [node["id"]], without a check that it is there. *)
Definition read_node {A} (get : value → option A) (node : value) (key : string) :
    config_error + A :=
  match member node key with
  | None => inl EMissing
  | Some v => match get v with None => inl EType | Some x => inr x end
  end.

Fixpoint read_nodes (nodes : list value) (m : gmap Z Z) : config_error + gmap Z Z :=
  match nodes with
  | [] => inr m
  | node :: nodes =>
      id ← read_node (get_uint 8) node "id";
      port ← read_node get_int node "port";
      read_nodes nodes (<[id := port]> m)
  end.

Definition read_topology (j : value) (dflt : SwitchConfig) : config_error + (Z * gmap Z Z) :=
  match member j "topology" with
  | None => inr (fallback_port_index dflt, node_port_map dflt)
  | Some topo =>
      fallback ← match member topo "fallback_port_index" with
                 | Some _ => read get_int topo "fallback_port_index" (fallback_port_index dflt)
                 | None => read get_int topo "dpu_port_index" (fallback_port_index dflt)
                 end;
      nodes ← match member topo "nodes" with
              | Some l => read_nodes (elements l) (node_port_map dflt)
              | None => inr (node_port_map dflt)
              end;
      inr (fallback, nodes)
  end.

Definition read_placement (j : value) (dflt : PlacementMode) : config_error + PlacementMode :=
  match member j "placement_mode" with
  | None => inr dflt
  | Some v =>
      match get_string v with
      | None => inl EType
      | Some mode => inr (if bool_decide (mode = "forward_only") then kForwardOnly else kProcessAndForward)
      end
  end.

(** [file]: [None] when it cannot be opened, [Some None] when it is not JSON. *)
Definition Load (file : option (option value)) : config_error + SwitchConfig :=
  match file with
  | None => inl EOpen
  | Some None => inl EParse
  | Some (Some j) =>
      let d := default_members in
      sram ← read (get_uint 32) j "sram_pages_total" (sram_pages_total d);
      tcam ← read (get_uint 32) j "tcam_blocks_total" (tcam_blocks_total d);
      stages ← read (get_uint 32) j "pipeline_stages" (pipeline_stages d);
      lat ← read (get_uint 64) j "stage_latency_ns" (stage_latency_ns d);
      pp ← read get_double j "paxos_instance_sram_pages" (paxos_instance_sram_pages d);
      lp ← read get_double j "lock_entry_sram_pages" (lock_entry_sram_pages d);
      bp ← read get_double j "barrier_entry_sram_pages" (barrier_entry_sram_pages d);
      topo ← read_topology j d;
      mode ← read_placement j (placement_mode d);
      if sram =? 0 then inl ESram
      else if tcam =? 0 then inl ETcam
      else
        replicas ← read (get_uint 8) j "num_replicas" (num_replicas d);
        node ← read (get_uint 8) j "switch_node_id" (switch_node_id d);
        parts ← read (get_uint 8) j "barrier_default_participants" (barrier_default_participants d);
        tele ← read (get_uint 64) j "telemetry_interval_ms" (telemetry_interval_ms d);
        inr (MkConfig sram tcam stages lat pp lp bp node replicas parts mode topo.1 topo.2 tele)
  end.

Lemma read_fits j key w dflt x :
  0 ≤ w → dflt ∈u w → read (get_uint w) j key dflt = inr x → x ∈u w.
Proof.
  intros Hw Hd. unfold read. destruct (member j key) as [v|]; [|by intros [= <-]].
  destruct (get_uint w v) eqn:Hv; [|done]. intros [= <-]. eauto.
Qed.

Lemma read_nodes_keys nodes : ∀ m m',
  map_Forall (λ id _, id ∈u 8) m → read_nodes nodes m = inr m' → map_Forall (λ id _, id ∈u 8) m'.
Proof.
  induction nodes as [|n nodes IH]; intros m m' Hm Hr; simpl in Hr; [by simplify_eq|].
  destruct (read_node (get_uint 8) n "id") as [|id] eqn:Hid; [done|]. simpl in Hr.
  destruct (read_node get_int n "port") as [|port]; [done|]. simpl in Hr.
  eapply IH; [|exact Hr]. apply map_Forall_insert_2; [|done].
  unfold read_node in Hid. destruct (member n "id") as [v|]; [|done].
  destruct (get_uint 8 v) eqn:Hv; [|done]. injection Hid as <-. by eapply get_uint_fits; [|exact Hv].
Qed.

(** A switch configuration that loads has SRAM and TCAM, its integer fields fit their
    types, every node id of its routing table is a byte, and without a topology there is no
    fallback port and no route. *)
Theorem switch_config_sound file cfg :
  Load file = inr cfg →
  sram_pages_total cfg ≠ 0 ∧ tcam_blocks_total cfg ≠ 0 ∧ sram_pages_total cfg ∈u 32 ∧
  switch_node_id cfg ∈u 8 ∧ num_replicas cfg ∈u 8 ∧ barrier_default_participants cfg ∈u 8 ∧
  map_Forall (λ id _, id ∈u 8) (node_port_map cfg) ∧
  ∃ j, file = Some (Some j) ∧
    (member j "topology" = None → fallback_port_index cfg = -1 ∧ node_port_map cfg = ∅).
Proof.
  intros Hl. destruct file as [[j|]|]; [|done|done]. unfold Load in Hl. cbv zeta in Hl.
  repeat (match type of Hl with
          | mbind _ ?o = _ => let E := fresh "E" in destruct o eqn:E
          | (if ?c then _ else _) = _ => let C := fresh "C" in destruct c eqn:C
          end; cbn [mbind sum_bind] in Hl; try discriminate Hl).
  apply Z.eqb_neq in C, C0. injection Hl as <-.
  cbn [sram_pages_total tcam_blocks_total switch_node_id num_replicas barrier_default_participants
       node_port_map fallback_port_index].
  split; [done|]. split; [done|].
  split; [by eapply read_fits; [| |exact E]; vm_compute|].
  split; [by eapply read_fits; [| |exact E9]; vm_compute|].
  split; [by eapply read_fits; [| |exact E8]; vm_compute|].
  split; [by eapply read_fits; [| |exact E10]; vm_compute|].
  unfold read_topology in E6. destruct (member j "topology") as [topo|] eqn:Ht.
  - split; [|exists j; split; [done|]; by rewrite Ht].
    match type of E6 with mbind _ ?o = _ => destruct o; [done|] end. cbn [mbind sum_bind] in E6.
    match type of E6 with mbind _ ?o = _ => destruct o eqn:En; [done|] end. cbn [mbind sum_bind] in E6.
    injection E6 as <-. simpl. destruct (member topo "nodes"); [|by injection En as <-].
    by eapply read_nodes_keys; [|exact En].
  - injection E6 as <-. split; [done|]. exists j. split; [done|]. by intros _.
Qed.

End load.

(** A concrete document: an object of members, numbers, a list and a string. *)
Inductive demo_value := DObj (l : list (string * demo_value)) | DNum (n : Z)
  | DArr (l : list demo_value) | DStr (s : string).

Fixpoint demo_assoc (l : list (string * demo_value)) (k : string) : option demo_value :=
  match l with
  | [] => None
  | (k', v) :: l => if decide (k = k') then Some v else demo_assoc l k
  end.
Definition demo_member (v : demo_value) (k : string) : option demo_value :=
  match v with DObj l => demo_assoc l k | _ => None end.
Definition demo_elements (v : demo_value) : list demo_value :=
  match v with DArr l => l | _ => [] end.
Definition demo_uint (w : Z) (v : demo_value) : option Z :=
  match v with DNum n => Some (wrap w n) | _ => None end.
Definition demo_int (v : demo_value) : option Z := match v with DNum n => Some n | _ => None end.
Definition demo_double (v : demo_value) : option double :=
  match v with DNum n => Some (of_Z n) | _ => None end.
Definition demo_string (v : demo_value) : option string :=
  match v with DStr s => Some s | _ => None end.

Definition demo_doc : demo_value :=
  DObj [("num_replicas", DNum 5); ("placement_mode", DStr "process_and_forward");
        ("topology", DObj [("dpu_port_index", DNum 2);
           ("nodes", DArr [DObj [("id", DNum 0); ("port", DNum 0)]; DObj [("id", DNum 1); ("port", DNum 1)]])])]%string.

Definition demo_load := Load demo_member demo_elements demo_uint demo_int demo_double demo_string.

Definition demo_config : SwitchConfig :=
  match demo_load (Some (Some demo_doc)) with inr c => c | inl _ => default_members end.

Lemma switch_config_sound_witness :
  demo_load (Some (Some demo_doc)) = inr demo_config ∧
  sram_pages_total demo_config ≠ 0 ∧ tcam_blocks_total demo_config ≠ 0 ∧
  sram_pages_total demo_config ∈u 32 ∧ switch_node_id demo_config ∈u 8 ∧
  num_replicas demo_config ∈u 8 ∧ barrier_default_participants demo_config ∈u 8 ∧
  map_Forall (λ id _, id ∈u 8) (node_port_map demo_config) ∧
  ∃ j, Some (Some demo_doc) = Some (Some j) ∧
    (demo_member j "topology" = None →
       fallback_port_index demo_config = -1 ∧ node_port_map demo_config = ∅).
Proof.
  split; [by vm_compute|].
  apply (switch_config_sound demo_member demo_elements demo_uint demo_int demo_double demo_string);
    [|by vm_compute].
  intros w [| n | |] x Hw; simpl; try done. intros [= <-]. by apply wrap_fits.
Defined.

End switch_config.
