(* ===== verification/PrimitiveEngine.v ===== *)
(** * The switch's primitive engine (sims/net/hcop_switch/primitive_engine.{h,cc})

    [PrimitiveEngine] runs the three state machines on HCOP packets that pass the switch,
    rewrites the packet in place into the response, and decides where it goes. *)

From Stdlib Require Import SpecFloat.
From S2P Require Import Prelude.
From S2P Require Import HcopProto.
From S2P Require Import BarrierState.
From S2P Require Import LockState.
From S2P Require Import PaxosState.
From S2P Require Import PaxosInv.
From S2P Require Import DpuHandlers.
From S2P Require Import SwitchConfig.

Module engine.
Import switch_config.

Inductive Action := kUnicast | kMulticast | kDrop | kToFallback | kBroadcastAll.

#[global] Instance Action_eq_dec : EqDecision Action.
Proof. solve_decision. Defined.

Record RoutingDecision := MkDecision { action : Action; dst_ports : list Z }.

(** The engine after [Init]. *)
Record PrimitiveEngine := MkEngine {
  config_ : SwitchConfig;
  paxos_ : paxos.PaxosNode;
  locks_ : lock.LockManager;
  barriers_ : barrier.BarrierManager;
}.

(** ** Initialization *)

(** [(size_t)x]; [None]: the value does not fit, which is undefined. *)
Definition to_size_t (x : double) : option Z :=
  match x with
  | S754_zero _ => Some 0
  | S754_finite sign m e =>
      let v := if 0 <=? e then Z.pos m * 2 ^ e else Z.pos m / 2 ^ (- e) in
      if sign then if v =? 0 then Some 0 else None
      else if v <? 2 ^ 64 then Some v else None
  | _ => None
  end.

(** How many entries of a cost fit a share of the pages, at least one; 10000 when the cost
    is not positive. *)
Definition capacity (pages : Z) (share cost : double) : option Z :=
  n ← (if SFltb (S754_zero false) cost
       then to_size_t (SFdiv prec emax (SFmul prec emax (of_Z pages) share) cost)
       else Some 10000);
  Some (if n <? 1 then 1 else n).

(** The state machines count in 32 bits. *)
Definition Init (cfg : SwitchConfig) : option PrimitiveEngine :=
  paxos_capacity ← capacity (sram_pages_total cfg) (literal 4 10) (paxos_instance_sram_pages cfg);
  lock_capacity ← capacity (sram_pages_total cfg) (literal 3 10) (lock_entry_sram_pages cfg);
  barrier_capacity ← capacity (sram_pages_total cfg) (literal 3 10) (barrier_entry_sram_pages cfg);
  p ← paxos.new_PaxosNode (switch_node_id cfg) (num_replicas cfg) (u32 paxos_capacity);
  Some (MkEngine cfg p (lock.new_LockManager (u32 lock_capacity) 10000000 0)
          (barrier.new_BarrierManager (u32 barrier_capacity) (barrier_default_participants cfg))).

Definition PaxosUsedSlots (e : PrimitiveEngine) : Z := paxos.InstanceCount (paxos_ e).
Definition LockUsedSlots (e : PrimitiveEngine) : Z := lock.KeyCount (locks_ e).
Definition BarrierUsedSlots (e : PrimitiveEngine) : Z := barrier.BarrierCount (barriers_ e).

(** ** Routing *)

Definition GetPortForNode (cfg : SwitchConfig) (node_id : Z) : Z :=
  default (-1) (node_port_map cfg !! node_id).

(** [std::vector::resize] *)
Definition resize (l : bytes) (n : nat) : bytes := take n l ++ replicate (n - length l) 0.

(** [pkt] is at least 30 bytes long here: the new payload, its length, and the switch's
    source address. *)
Definition UpdatePacketPayload (pkt payload : bytes) : bytes :=
  let pkt := resize pkt (30 + length payload) in
  let pkt := take 30 pkt ++ payload in
  let pkt := hcop.put_header pkt
               (hcop.set_payload_len (hcop.decode (drop 14 pkt)) (Z.of_nat (length payload))) in
  take 6 pkt ++ [0x02; 0x00; 0x53; 0x57; 0x54; 0x00] ++ drop 12 pkt.

(** The ports of the addressees that have one. *)
Fixpoint ports_of (cfg : SwitchConfig) (dests : list Z) : list Z :=
  match dests with
  | [] => []
  | d :: dests =>
      if d =? 255 then ports_of cfg dests
      else let p := GetPortForNode cfg d in
           if 0 <=? p then p :: ports_of cfg dests else ports_of cfg dests
  end.

(** [AGGREGATE_ROUTING]: [out] has the addressee and the bytes of each message, and is not
    empty; only the first message's bytes go into the packet. *)
Definition AGGREGATE_ROUTING (cfg : SwitchConfig) (pkt : bytes) (out : list (Z * bytes)) :
    RoutingDecision * bytes :=
  let pkt := UpdatePacketPayload pkt (default [] (snd <$> head out)) in
  let ports := ports_of cfg (out.*1) in
  if existsb (λ m, m.1 =? 255) out then (MkDecision kBroadcastAll [], pkt)
  else match ports with
       | _ :: _ :: _ => (MkDecision kMulticast ports, pkt)
       | [_] => (MkDecision kUnicast ports, pkt)
       | [] => (MkDecision kDrop ports, pkt)
       end.

(** [hdr->exception_type = e] *)
Definition write_exception (pkt : bytes) (e : Z) : bytes :=
  hcop.put_header pkt (hcop.set_exception (hcop.decode (drop 14 pkt)) e).
Definition exception_type (pkt : bytes) : Z := hcop.exception_type (hcop.decode (drop 14 pkt)).

(** ** The handlers; [None] is undefined behaviour *)

Definition HandlePaxos (e : PrimitiveEngine) (pkt : bytes) :
    option (RoutingDecision * bytes * PrimitiveEngine) :=
  '(status, p, out) ← paxos.HandleMessage (paxos_ e) (drop 30 pkt) [];
  let e := MkEngine (config_ e) p (locks_ e) (barriers_ e) in
  if negb (bool_decide (status = paxos.kOk)) then
    let pkt := if bool_decide (status = paxos.kInstanceOverflow)
               then write_exception pkt hcop.kPaxosStateOverflow else pkt in
    if negb (exception_type pkt =? 0) then Some (MkDecision kToFallback [], pkt, e)
    else Some (MkDecision kDrop [], pkt, e)
  else match out with
       | [] => Some (MkDecision kDrop [], pkt, e)
       | _ => let '(d, pkt) := AGGREGATE_ROUTING (config_ e) pkt
                                 ((λ m, (paxos.dest_id m, paxos.data m)) <$> out) in
              Some (d, pkt, e)
       end.

(** The statuses that are neither success nor "not held". *)
Definition lock_failed (s : lock.LockStatus) : bool :=
  negb (bool_decide (s = lock.kOk) || bool_decide (s = lock.kGranted) || bool_decide (s = lock.kNotHeld)).

Definition HandleLock (e : PrimitiveEngine) (pkt : bytes) (now_ns : Z) :
    option (RoutingDecision * bytes * PrimitiveEngine) :=
  let '(status, l, out) := lock.HandleMessage (locks_ e) (drop 30 pkt) now_ns [] in
  let e := MkEngine (config_ e) (paxos_ e) l (barriers_ e) in
  let pkt := if bool_decide (status = lock.kContention) then write_exception pkt hcop.kLockContention
             else if bool_decide (status = lock.kKeyOverflow)
             then write_exception pkt hcop.kLockStateOverflow else pkt in
  if lock_failed status && negb (bool_decide (status = lock.kDenied)) && negb (exception_type pkt =? 0)
  then Some (MkDecision kToFallback [], pkt, e)
  else match out with
       | [] =>
           msg_type ← pkt !! 30%nat;
           if (msg_type =? lock.proto.kRelease) && (0 <=? fallback_port_index (config_ e))
           then Some (MkDecision kToFallback [], pkt, e)
           else Some (MkDecision kDrop [], pkt, e)
       | _ => let '(d, pkt) := AGGREGATE_ROUTING (config_ e) pkt
                                 ((λ m, (lock.dest_id m, lock.data m)) <$> out) in
              Some (d, pkt, e)
       end.

Definition HandleBarrier (e : PrimitiveEngine) (pkt : bytes) :
    option (RoutingDecision * bytes * PrimitiveEngine) :=
  let '(status, b, out) := barrier.HandleMessage (barriers_ e) (drop 30 pkt) [] in
  let e := MkEngine (config_ e) (paxos_ e) (locks_ e) b in
  if negb (bool_decide (status = barrier.kOk) || bool_decide (status = barrier.kRelease)) then
    if bool_decide (status = barrier.kFutureArrival) then Some (MkDecision kDrop [], pkt, e)
    else
      let pkt := if bool_decide (status = barrier.kLateArrival)
                 then write_exception pkt hcop.kBarrierLateArrival
                 else if bool_decide (status = barrier.kLayoutOverflow)
                 then write_exception pkt hcop.kBarrierGenerationOverflow else pkt in
      if negb (exception_type pkt =? 0) then Some (MkDecision kToFallback [], pkt, e)
      else Some (MkDecision kDrop [], pkt, e)
  else match out with
       | [] => Some (MkDecision kDrop [], pkt, e)
       | _ => let '(d, pkt) := AGGREGATE_ROUTING (config_ e) pkt
                                 ((λ m, (barrier.dest_id m, barrier.data m)) <$> out) in
              Some (d, pkt, e)
       end.

(** ** Dispatch *)

(** Whether a packet from the fallback port is a response; [None]: its message type is read
    past the end of the packet. *)
Definition is_response (pkt : bytes) (primitive : Z) : option bool :=
  if primitive =? hcop.kPrimitiveBarrier then
    t ← pkt !! 30%nat; Some (t =? barrier.proto.kRelease)
  else if primitive =? hcop.kPrimitiveLock then
    t ← pkt !! 30%nat;
    Some ((t =? lock.proto.kGrant) || (t =? lock.proto.kDeny) || (t =? lock.proto.kTimeout))
  else if primitive =? hcop.kPrimitivePaxos then
    t ← pkt !! 30%nat; Some (negb (t =? 1) && negb (t =? 3))
  else Some false.

(** The decision of a switch that runs no state machine. *)
Definition forward_only (cfg : SwitchConfig) (ingress_port : Z) : RoutingDecision :=
  if 0 <=? fallback_port_index cfg then
    if ingress_port =? fallback_port_index cfg then MkDecision kMulticast [] else MkDecision kToFallback []
  else MkDecision kMulticast [].

Definition from_fallback (cfg : SwitchConfig) (ingress_port : Z) : bool :=
  (0 <=? fallback_port_index cfg) && (ingress_port =? fallback_port_index cfg).

(** A packet that reaches the state machines. *)
Definition run_primitive (e : PrimitiveEngine) (pkt : bytes) (now_ns : Z) :
    option (RoutingDecision * bytes * PrimitiveEngine) :=
  let hdr := hcop.decode (drop 14 pkt) in
  if negb (hcop.exception_type hdr =? 0) then
    Some (MkDecision (if 0 <=? fallback_port_index (config_ e) then kToFallback else kDrop) [], pkt, e)
  else if hcop.primitive_type hdr =? hcop.kPrimitivePaxos then HandlePaxos e pkt
  else if hcop.primitive_type hdr =? hcop.kPrimitiveLock then HandleLock e pkt now_ns
  else if hcop.primitive_type hdr =? hcop.kPrimitiveBarrier then HandleBarrier e pkt
  else Some (MkDecision kDrop [], pkt, e).

Definition HandlePacket (e : PrimitiveEngine) (pkt : bytes) (ingress_port now_ns : Z) :
    option (RoutingDecision * bytes * PrimitiveEngine) :=
  if (length pkt <? 14)%nat then Some (MkDecision kDrop [], pkt, e)
  else if negb (hcop.ethertype pkt =? hcop.kHcopEtherType) then Some (MkDecision kMulticast [], pkt, e)
  else if (length pkt <? 30)%nat then Some (MkDecision kDrop [], pkt, e)
  else
    let pkt := hcop.put_header pkt (hcop.HCOP_APPEND_PATH (hcop.decode (drop 14 pkt)) hcop.kTierSwitch) in
    if bool_decide (placement_mode (config_ e) = kForwardOnly) then
      Some (forward_only (config_ e) ingress_port, pkt, e)
    else
      response ← (if from_fallback (config_ e) ingress_port
                  then is_response pkt (hcop.primitive_type (hcop.decode (drop 14 pkt)))
                  else Some false);
      if (response : bool) then Some (MkDecision kMulticast [], pkt, e)
      else run_primitive e pkt now_ns.

(** The default switch holds 25600 instances, 192000 locks and 192000 barriers. *)
Example default_capacities :
  (e ← Init default_members;
   Some (paxos.max_instances_ (paxos_ e), lock.max_keys_ (locks_ e), barrier.max_barriers_ (barriers_ e)))
  = Some (25600, 192000, 192000).
Proof. vm_compute. reflexivity. Qed.

End engine.
