(* ===== verification/EngineSafety.v ===== *)
(** * What the switch's primitive engine guarantees

    Over PrimitiveEngine.v: every packet is handled without undefined behaviour under stated
    conditions, the answer of the state machine reaches everybody it is addressed to although
    only one message fits the packet, and what the two-tier placement does to locks. *)

From S2P Require Import Prelude.
From S2P Require Import HcopProto.
From S2P Require Import BarrierState.
From S2P Require Import LockState.
From S2P Require Import LockSafety.
From S2P Require Import PaxosState.
From S2P Require Import PaxosInv.
From S2P Require Import DpuHandlers.
From S2P Require Import SwitchConfig.
From S2P Require Import PrimitiveEngine.

Module engine_safety.
Import switch_config dpu_handlers engine.

(** ** One message stands for all *)

(** All messages carry the same bytes. *)
Definition uniform (msgs : list bytes) : Prop := ∀ m m', m ∈ msgs → m' ∈ msgs → m = m'.

Lemma uniform_short msgs : (length msgs ≤ 1)%nat → uniform msgs.
Proof. destruct msgs as [|m [|]]; simpl; [| |lia]; intros _ x y; set_solver. Qed.

(** The LEARN loop builds the same message for everybody. *)
Lemma learn_loop_spec n id val len replicas : ∀ out out',
  paxos.learn_loop n id val len replicas out = Some out' →
  ∃ new, out' = out ++ new ∧ Forall (λ o, paxos.MakeLearn n (paxos.dest_id o) id val len = Some o) new.
Proof.
  induction replicas as [|i replicas IH]; intros out out' Hl; simpl in Hl.
  - exists []. simplify_eq. by rewrite app_nil_r.
  - destruct (i =? paxos.node_id_ n); [by apply IH|].
    destruct (paxos.MakeLearn n (u8 i) id val len) as [m|] eqn:Hm; [|done]. simpl in Hl.
    destruct (IH _ _ Hl) as (new & -> & Hnew). exists (m :: new). split; [by rewrite <- app_assoc|].
    constructor; [|done]. assert (paxos.dest_id m = u8 i) as ->; [|done].
    unfold paxos.MakeLearn in Hm. destruct (memcpy _ _ _); [|done]. by injection Hm as <-.
Qed.

Lemma MakeLearn_data n d d' id val len o o' :
  paxos.MakeLearn n d id val len = Some o → paxos.MakeLearn n d' id val len = Some o' →
  paxos.data o = paxos.data o'.
Proof.
  unfold paxos.MakeLearn. destruct (memcpy _ _ _); [|done]. simpl. by intros [= <-] [= <-].
Qed.

(** Evaluates a handler that returned [H], one case at a time. *)
Ltac cases H :=
  repeat (cbn [mbind option_bind app] in H;
          match type of H with
          | Some _ = Some _ => fail 1
          | None = Some _ => discriminate H
          | mbind _ (match ?x with _ => _ end) = _ => destruct x eqn:?
          | mbind _ ?x = _ => destruct x eqn:?
          | (if ?x then _ else _) = _ => destruct x eqn:?
          | (match ?x with _ => _ end) = _ => destruct x eqn:?
          end).

Lemma paxos_uniform n d st n' out :
  paxos.HandleMessage n d [] = Some (st, n', out) → uniform (paxos.data <$> out).
Proof.
  unfold paxos.HandleMessage. intros H. cbv zeta in H.
  assert (∀ m st n' out, paxos.HandleAccepted n m [] = Some (st, n', out) → uniform (paxos.data <$> out)) as Hacc.
  { clear. intros m st n' out H. unfold paxos.HandleAccepted in H. cases H;
      match goal with
      | Hl : paxos.learn_loop _ _ _ _ _ _ = Some _ |- _ => idtac
      | _ => by (injection H as <- <- <-; apply uniform_short; simpl; lia)
      end;
      injection H as <- <- <-;
      match goal with Hl : paxos.learn_loop _ _ _ _ _ _ = Some _ |- _ =>
        destruct (learn_loop_spec _ _ _ _ _ _ _ Hl) as (new & -> & Hnew) end;
      simpl; intros x y (oa & -> & Ha)%list_elem_of_fmap (ob & -> & Hb)%list_elem_of_fmap;
      rewrite Forall_forall in Hnew; by eapply MakeLearn_data; auto. }
  repeat match type of H with
  | (if ?x then _ else _) = _ => destruct x
  end; try (by eapply Hacc; exact H);
  unfold paxos.HandlePrepare, paxos.HandlePromise, paxos.HandleAccept, paxos.HandleLearn,
    paxos.HandleNack in H; cases H; injection H as <- <- <-; apply uniform_short; simpl; lia.
Qed.

(** ** The rewritten packet *)

Lemma take_resize l n k : (k ≤ n)%nat → (k ≤ length l)%nat → take k (resize l n) = take k l.
Proof.
  intros. unfold resize. rewrite take_app_le by (rewrite length_take; lia).
  rewrite take_take. f_equal. lia.
Qed.

(** Replacing the source address keeps what follows it. *)
Lemma drop_mac (p mac : bytes) k :
  length mac = 6%nat → (12 ≤ length p)%nat →
  drop (12 + k) (take 6 p ++ mac ++ drop 12 p) = drop (12 + k) p.
Proof.
  intros Hm Hp. rewrite app_assoc, drop_app_ge by (rewrite length_app, length_take; lia).
  rewrite drop_drop, length_app, length_take. f_equal. lia.
Qed.

(** The packet with the payload put in, before its header is updated. *)
Lemma payload_put pkt payload :
  (30 ≤ length pkt)%nat →
  take 30 (resize pkt (30 + length payload)) ++ payload = take 30 pkt ++ payload.
Proof. intros. by rewrite take_resize by lia. Qed.

Lemma UpdatePacketPayload_eq pkt payload :
  (30 ≤ length pkt)%nat →
  let p := take 30 pkt ++ payload in
  let q := hcop.put_header p (hcop.set_payload_len (hcop.decode (drop 14 p)) (Z.of_nat (length payload))) in
  UpdatePacketPayload pkt payload = take 6 q ++ [2; 0; 83; 87; 84; 0] ++ drop 12 q ∧
  length p = (30 + length payload)%nat ∧ length q = (30 + length payload)%nat.
Proof.
  intros Hlen p q.
  assert (length p = (30 + length payload)%nat) as Hp by (unfold p; rewrite length_app, length_take; lia).
  split_and!; [|done|].
  - unfold UpdatePacketPayload. cbv zeta. by rewrite payload_put.
  - unfold q. rewrite hcop.length_put_header; lia.
Qed.

(** The header read from the first 30 bytes. *)
Lemma decode_take30 (pkt rest : bytes) :
  (30 ≤ length pkt)%nat → hcop.decode (drop 14 (take 30 pkt ++ rest)) = hcop.decode (drop 14 pkt).
Proof.
  intros Hlen.
  assert (∀ off n, (off + n ≤ 16)%nat →
            field (drop 14 (take 30 pkt ++ rest)) off n = field (drop 14 pkt) off n) as Hf.
  { intros off n Hon. unfold field, slice. rewrite !drop_drop. f_equal.
    rewrite drop_app_le by (rewrite length_take; lia).
    rewrite take_app_le by (rewrite length_drop, length_take; lia).
    rewrite <- (take_drop 30 pkt) at 2.
    rewrite drop_app_le, take_app_le by (rewrite ?length_drop, length_take; lia). done. }
  unfold hcop.decode. by rewrite !Hf by lia.
Qed.

Lemma UpdatePacketPayload_spec pkt payload :
  (30 ≤ length pkt)%nat → is_bytes pkt →
  length (UpdatePacketPayload pkt payload) = (30 + length payload)%nat ∧
  drop 30 (UpdatePacketPayload pkt payload) = payload ∧
  hcop.decode (drop 14 (UpdatePacketPayload pkt payload)) =
    hcop.set_payload_len (hcop.decode (drop 14 pkt)) (Z.of_nat (length payload)).
Proof.
  intros Hlen Hb. destruct (UpdatePacketPayload_eq pkt payload Hlen) as (-> & Hp & Hq).
  set (p := take 30 pkt ++ payload) in *.
  set (h := hcop.set_payload_len _ _) in *. set (q := hcop.put_header p h) in *.
  split_and!.
  - rewrite !length_app, length_take, length_drop. cbn [length]. lia.
  - change 30%nat with (12 + 18)%nat. rewrite drop_mac by (simpl; lia). unfold q. simpl Nat.add.
    rewrite hcop.drop_put_header by lia. unfold p.
    rewrite drop_app_ge by (rewrite length_take; lia).
    replace (30 - length (take 30 pkt))%nat with 0%nat by (rewrite length_take; lia). by rewrite drop_0.
  - change 14%nat with (12 + 2)%nat at 1. rewrite drop_mac by (simpl; lia). simpl Nat.add.
    unfold q. rewrite hcop.decode_put_header; [|lia|].
    + unfold h, p. by rewrite decode_take30.
    + unfold h, p. rewrite decode_take30 by done.
      destruct (hcop.decode_wf (drop 14 pkt)) as (?&?&?&?&?&?&?); [auto with hcop|].
      split_and!; simpl; auto. apply wrap_fits. lia.
Qed.

Lemma UpdatePacketPayload_bytes pkt payload :
  (30 ≤ length pkt)%nat → is_bytes pkt → is_bytes payload → is_bytes (UpdatePacketPayload pkt payload).
Proof.
  intros Hlen Hb Hpb. destruct (UpdatePacketPayload_eq pkt payload Hlen) as (-> & _ & _).
  rewrite !is_bytes_app. split_and!.
  - apply is_bytes_take, hcop.put_header_bytes, is_bytes_app; auto with hcop.
  - by apply is_bytesb_sound.
  - apply is_bytes_drop, hcop.put_header_bytes, is_bytes_app; auto with hcop.
Qed.

(** ** Everybody a message is for gets it *)

(** The ports a decision sends the packet to, as the device executes it: all of them, those
    listed, the first of those listed, or none; an empty list floods. *)
Definition reached (d : RoutingDecision) (p : Z) : Prop :=
  match action d with
  | kBroadcastAll => True
  | kMulticast => dst_ports d = [] ∨ p ∈ dst_ports d
  | kUnicast => head (dst_ports d) = Some p
  | kDrop | kToFallback => False
  end.

(** The ports the messages are for: all if one is for everybody, else those of the addressees. *)
Definition meant_for (cfg : SwitchConfig) (out : list (Z * bytes)) (p : Z) : Prop :=
  (∃ m, m ∈ out ∧ m.1 = 255) ∨ ∃ m, m ∈ out ∧ m.1 ≠ 255 ∧ node_port_map cfg !! m.1 = Some p ∧ 0 ≤ p.

Record delivers (cfg : SwitchConfig) (d : RoutingDecision) (pkt : bytes) (out : list (Z * bytes)) : Prop := {
  dl_payload : ∀ m, m ∈ out → drop 30 pkt = m.2;
  dl_ports : ∀ p, reached d p ↔ meant_for cfg out p;
}.

Lemma elem_of_ports_of cfg dests p :
  p ∈ ports_of cfg dests ↔ ∃ d, d ∈ dests ∧ d ≠ 255 ∧ node_port_map cfg !! d = Some p ∧ 0 ≤ p.
Proof.
  induction dests as [|d dests IH]; simpl; [set_solver|].
  assert (∀ P : Prop, P ↔ (∃ d', d' ∈ dests ∧ d' ≠ 255 ∧ node_port_map cfg !! d' = Some p ∧ 0 ≤ p) →
    ¬ (d ≠ 255 ∧ node_port_map cfg !! d = Some p ∧ 0 ≤ p) →
    P ↔ (∃ d', d' ∈ d :: dests ∧ d' ≠ 255 ∧ node_port_map cfg !! d' = Some p ∧ 0 ≤ p)) as Hskip.
  { intros P HP Hno. rewrite HP. setoid_rewrite elem_of_cons. naive_solver. }
  destruct (Z.eqb_spec d 255) as [->|Hd]; [apply Hskip; naive_solver|].
  unfold GetPortForNode. destruct (node_port_map cfg !! d) as [q|] eqn:Hq; simpl;
    [|apply Hskip; naive_solver].
  destruct (Z.leb_spec 0 q); [|apply Hskip; [done|intros (_ & [= ->] & ?); lia]].
  rewrite elem_of_cons, IH. setoid_rewrite elem_of_cons. naive_solver.
Qed.

Lemma AGGREGATE_ROUTING_delivers cfg pkt out d pkt' :
  (30 ≤ length pkt)%nat → is_bytes pkt → out ≠ [] → uniform (out.*2) →
  AGGREGATE_ROUTING cfg pkt out = (d, pkt') → delivers cfg d pkt' out.
Proof.
  intros Hlen Hb Hne Hu. unfold AGGREGATE_ROUTING.
  assert (∀ m, m ∈ out → drop 30 (UpdatePacketPayload pkt (default [] (snd <$> head out))) = m.2) as Hpay.
  { intros m Hm. destruct (UpdatePacketPayload_spec pkt (default [] (snd <$> head out))) as (_ & -> & _); auto.
    destruct out as [|m0 out]; [done|]. simpl. apply Hu; apply list_elem_of_fmap; eexists; split; eauto. set_solver. }
  destruct (existsb (λ m, m.1 =? 255) out) eqn:Hx.
  { intros [= <- <-]. split; [done|]. intros p. split; [|done]. intros _. left.
    apply existsb_exists in Hx as (m & Hm & Heq). exists m. rewrite list_elem_of_In. split; [done|lia]. }
  assert (∀ m, m ∈ out → m.1 ≠ 255) as Hno.
  { intros m Hm Heq. assert (existsb (λ m, m.1 =? 255) out = true); [|congruence].
    apply existsb_exists. exists m. rewrite list_elem_of_In in Hm. split; [done|lia]. }
  assert (∀ p, p ∈ ports_of cfg (out.*1) ↔ meant_for cfg out p) as Hp.
  { intros p. rewrite elem_of_ports_of. unfold meant_for. split.
    - intros (x & (m & -> & Hm)%list_elem_of_fmap & H255 & Hmp & Hp0). right. by exists m.
    - intros [(m & Hm & H255)|(m & Hm & H255 & Hmp & Hp0)]; [by destruct (Hno m Hm)|].
      exists m.1. split_and!; auto. apply list_elem_of_fmap. by exists m. }
  destruct (ports_of cfg out.*1) as [|p1 [|p2 ps]] eqn:Hports; intros [= <- <-]; split; try done; intros p;
    rewrite <- Hp; unfold reached; cbn [action dst_ports head].
  - split; [done|by intros ?%elem_of_nil].
  - rewrite list_elem_of_singleton. naive_solver.
  - naive_solver.
Qed.

(** What the state machine answers to a packet that reaches it, and whether the switch serves the
    request itself: otherwise it hands it to the fallback tier, or drops it. *)
Definition answer (e : PrimitiveEngine) (pkt : bytes) (now_ns : Z) : option (bool * list (Z * bytes)) :=
  let ty := hcop.primitive_type (hcop.decode (drop 14 pkt)) in
  if ty =? hcop.kPrimitivePaxos then
    match paxos.HandleMessage (paxos_ e) (drop 30 pkt) [] with
    | Some (st, _, out) => Some (bool_decide (st = paxos.kOk), (λ m, (paxos.dest_id m, paxos.data m)) <$> out)
    | None => None
    end
  else if ty =? hcop.kPrimitiveLock then
    let '(st, _, out) := lock.HandleMessage (locks_ e) (drop 30 pkt) now_ns [] in
    Some (bool_decide (st ≠ lock.kContention ∧ st ≠ lock.kKeyOverflow), (λ m, (lock.dest_id m, lock.data m)) <$> out)
  else if ty =? hcop.kPrimitiveBarrier then
    let '(st, _, out) := barrier.HandleMessage (barriers_ e) (drop 30 pkt) [] in
    Some (bool_decide (st = barrier.kOk ∨ st = barrier.kRelease), (λ m, (barrier.dest_id m, barrier.data m)) <$> out)
  else Some (false, []).

Lemma snd_pairs {A} (f : A → Z) (g : A → bytes) (l : list A) : ((λ m, (f m, g m)) <$> l).*2 = g <$> l.
Proof. by rewrite <- list_fmap_compose. Qed.

(** A result that carries out the answer. *)
Definition delivered (e : PrimitiveEngine) (r : option (RoutingDecision * bytes * PrimitiveEngine)) (out : list (Z * bytes)) : Prop :=
  ∃ d pkt' e', r = Some (d, pkt', e') ∧ delivers (config_ e) d pkt' out.

(** The common end of the three handlers. *)
Lemma aggregate_case {A} e e' pkt (f : A → Z) (g : A → bytes) out :
  (30 ≤ length pkt)%nat → is_bytes pkt → out ≠ [] → uniform (g <$> out) →
  delivered e (let '(d, p) := AGGREGATE_ROUTING (config_ e) pkt ((λ m, (f m, g m)) <$> out) in Some (d, p, e'))
    ((λ m, (f m, g m)) <$> out).
Proof.
  intros Hlen Hb Hne Hu. destruct (AGGREGATE_ROUTING _ _ _) as [d p] eqn:Ha. exists d, p, e'. split; [done|].
  eapply AGGREGATE_ROUTING_delivers; eauto; [by destruct out|]. by rewrite snd_pairs.
Qed.

Lemma HandlePaxos_delivers e pkt p out :
  (30 ≤ length pkt)%nat → is_bytes pkt → out ≠ [] →
  paxos.HandleMessage (paxos_ e) (drop 30 pkt) [] = Some (paxos.kOk, p, out) →
  delivered e (HandlePaxos e pkt) ((λ m, (paxos.dest_id m, paxos.data m)) <$> out).
Proof.
  intros Hlen Hb Hne Hm. unfold HandlePaxos. pose proof (paxos_uniform _ _ _ _ _ Hm) as Hu. rewrite Hm. cbn [mbind option_bind].
  rewrite bool_decide_eq_true_2 by done. cbn [negb config_]. destruct out as [|o out]; [done|].
  by apply (aggregate_case e).
Qed.

Lemma HandleLock_delivers e pkt now st l out :
  (30 ≤ length pkt)%nat → is_bytes pkt → exception_type pkt = 0 → out ≠ [] →
  lock.HandleMessage (locks_ e) (drop 30 pkt) now [] = (st, l, out) → st ≠ lock.kContention → st ≠ lock.kKeyOverflow →
  delivered e (HandleLock e pkt now) ((λ m, (lock.dest_id m, lock.data m)) <$> out).
Proof.
  intros Hlen Hb Hx Hne Hm H1 H2. unfold HandleLock. rewrite Hm. cbv zeta.
  rewrite !bool_decide_eq_false_2 with (P := st = lock.kContention) by done.
  rewrite bool_decide_eq_false_2 with (P := st = lock.kKeyOverflow) by done.
  rewrite Hx. cbn [negb Z.eqb]. rewrite andb_false_r. destruct out as [|o out]; [done|]. cbn [config_].
  apply (aggregate_case e); try done. apply uniform_short. by apply (lock_outputs_small _ _ _ _ _ _ Hm).
Qed.

Lemma HandleBarrier_delivers e pkt st b out :
  (30 ≤ length pkt)%nat → is_bytes pkt → out ≠ [] →
  barrier.HandleMessage (barriers_ e) (drop 30 pkt) [] = (st, b, out) → st = barrier.kOk ∨ st = barrier.kRelease →
  delivered e (HandleBarrier e pkt) ((λ m, (barrier.dest_id m, barrier.data m)) <$> out).
Proof.
  intros Hlen Hb Hne Hm Hst. unfold HandleBarrier. rewrite Hm. cbv zeta.
  assert (negb (bool_decide (st = barrier.kOk) || bool_decide (st = barrier.kRelease)) = false) as -> by (by destruct Hst as [-> | ->]).
  destruct out as [|o out]; [done|]. cbn [config_].
  apply (aggregate_case e); try done. apply uniform_short. by apply (barrier_outputs_small _ _ _ _ _ Hm).
Qed.

(** C9: although the switch puts only the first of the state machine's messages into the
    packet, nothing is lost and nothing is sent astray: for every request without an exception
    that the switch serves itself and answers, the packet's payload is each message of the answer,
    and the packet goes to exactly the ports the messages are for: all ports if one of them is for
    everybody, otherwise the ports of the addressees that have one. *)
Theorem switch_delivers e pkt now_ns out :
  (30 ≤ length pkt)%nat → is_bytes pkt → exception_type pkt = 0 →
  answer e pkt now_ns = Some (true, out) → out ≠ [] →
  ∃ d pkt' e', run_primitive e pkt now_ns = Some (d, pkt', e') ∧
    (∀ m, m ∈ out → drop 30 pkt' = m.2) ∧ (∀ p, reached d p ↔ meant_for (config_ e) out p).
Proof.
  intros Hlen Hb Hx Ha Hne. enough (delivered e (run_primitive e pkt now_ns) out) as (d & pkt' & e' & -> & []) by eauto 10.
  unfold run_primitive, answer in *. unfold exception_type in Hx. cbv zeta in *. rewrite Hx. cbn [negb Z.eqb].
  destruct (_ =? hcop.kPrimitivePaxos).
  { destruct (paxos.HandleMessage _ _ _) as [[[st p] o]|] eqn:Hm; [|done]. injection Ha as Hst%bool_decide_eq_true <-. subst st.
    eapply HandlePaxos_delivers; try done. by intros ->. }
  destruct (_ =? hcop.kPrimitiveLock).
  { destruct (lock.HandleMessage _ _ _ _) as [[st l] o] eqn:Hm. injection Ha as [? ?]%bool_decide_eq_true <-.
    eapply HandleLock_delivers; try done. by intros ->. }
  destruct (_ =? hcop.kPrimitiveBarrier); [|done].
  destruct (barrier.HandleMessage _ _ _) as [[st b] o] eqn:Hm. injection Ha as ?%bool_decide_eq_true <-.
  eapply HandleBarrier_delivers; try done. by intros ->.
Qed.

(** ** No undefined behaviour *)

Definition wf_engine (e : PrimitiveEngine) : Prop := paxos_inv.wf (paxos_ e).

(** Packets the engine is specified on: an HCOP packet has at least one byte of payload, and
    a Paxos message carries the value it declares. *)
Record packet_ok (pkt : bytes) : Prop := {
  po_bytes : is_bytes pkt;
  po_payload : (30 ≤ length pkt)%nat → (31 ≤ length pkt)%nat;
  po_paxos : hcop.primitive_type (hcop.decode (drop 14 pkt)) = hcop.kPrimitivePaxos →
             paxos_inv.complete (drop 30 pkt);
}.

(** A handled packet. *)
Definition handled (e : PrimitiveEngine) (pkt : bytes)
    (r : option (RoutingDecision * bytes * PrimitiveEngine)) : Prop :=
  ∃ d pkt' e', r = Some (d, pkt', e') ∧ wf_engine e' ∧ config_ e' = config_ e ∧ is_bytes pkt' ∧
    (length pkt' ≤ max_response `max` length pkt)%nat.

Lemma handled_same e pkt d : wf_engine e → is_bytes pkt → handled e pkt (Some (d, pkt, e)).
Proof. intros. exists d, pkt, e. split_and!; auto. lia. Qed.

Lemma write_exception_ok pkt x :
  (30 ≤ length pkt)%nat → is_bytes pkt →
  is_bytes (write_exception pkt x) ∧ length (write_exception pkt x) = length pkt.
Proof.
  intros. unfold write_exception. rewrite hcop.length_put_header by done.
  auto using hcop.put_header_bytes.
Qed.

(** An answer made of small messages gives a packet that fits. *)
Lemma handled_aggregate e pk pkt e' out :
  wf_engine e' → config_ e' = config_ e → (30 ≤ length pk)%nat → is_bytes pk → Forall small (out.*2) →
  handled e pkt (let '(d, p) := AGGREGATE_ROUTING (config_ e) pk out in Some (d, p, e')).
Proof.
  intros Hwf Hc Hlen Hb Hs. destruct (AGGREGATE_ROUTING (config_ e) pk out) as [d p] eqn:Ha.
  exists d, p, e'. split; [done|]. split; [done|]. split; [done|].
  assert (p = UpdatePacketPayload pk (default [] (snd <$> head out))) as ->.
  { unfold AGGREGATE_ROUTING in Ha. destruct (existsb _ _); [by injection Ha as <- <-|].
    by destruct (ports_of _ _) as [|? [|]]; injection Ha as <- <-. }
  assert (small (default [] (snd <$> head out))) as [Hsb Hsl].
  { destruct out as [|m out]; [by split; [constructor|simpl; lia]|]. by inversion Hs. }
  split; [by apply UpdatePacketPayload_bytes|].
  destruct (UpdatePacketPayload_spec pk (default [] (snd <$> head out))) as (-> & _); auto.
  unfold max_response. lia.
Qed.

Lemma HandlePaxos_handled e pkt :
  wf_engine e → (30 ≤ length pkt)%nat → is_bytes pkt → paxos_inv.complete (drop 30 pkt) →
  handled e pkt (HandlePaxos e pkt).
Proof.
  intros Hwf Hlen Hb Hc. unfold HandlePaxos.
  destruct (paxos_inv.HandleMessage_safe (paxos_ e) (drop 30 pkt) []) as (st & p & new & -> & Hwf' & _ & Hout);
    auto with hcop. cbn [mbind option_bind app].
  destruct (write_exception_ok pkt hcop.kPaxosStateOverflow Hlen Hb) as [Hb' Hl'].
  destruct (negb (bool_decide (st = paxos.kOk))).
  - destruct (bool_decide (st = paxos.kInstanceOverflow)); destruct (negb _);
      eexists _, _, _; (split; [done|]); split_and!; auto; rewrite ?Hl'; lia.
  - destruct new as [|o new]; [by apply (handled_same (MkEngine _ _ _ _))|].
    apply (handled_aggregate e pkt pkt (MkEngine (config_ e) p (locks_ e) (barriers_ e))); auto.
    rewrite snd_pairs. apply Forall_fmap.
    eapply Forall_impl; [exact Hout|]. intros x (? & _ & ?). by split.
Qed.

Lemma HandleLock_handled e pkt now :
  wf_engine e → (31 ≤ length pkt)%nat → is_bytes pkt → handled e pkt (HandleLock e pkt now).
Proof.
  intros Hwf Hlen Hb. unfold HandleLock.
  destruct (lock.HandleMessage _ _ _ _) as [[st l] out] eqn:Hm. cbv zeta.
  match goal with |- context [exception_type ?q] => set (pk := q) end.
  assert (is_bytes pk ∧ length pk = length pkt) as [Hb' Hl'].
  { unfold pk. repeat case_match; auto; apply write_exception_ok; auto; lia. }
  assert (∀ d, handled e pkt (Some (d, pk, MkEngine (config_ e) (paxos_ e) l (barriers_ e)))) as Hdone
    by (intros d; eexists _, _, _; split_and!; auto; lia).
  destruct (lock_failed st && _ && _); [apply Hdone|].
  destruct out as [|o out].
  - destruct (lookup_lt_is_Some_2 pk 30) as [t ->]; [lia|]. cbn [mbind option_bind].
    destruct (_ && _); apply Hdone.
  - apply (handled_aggregate e pk pkt (MkEngine (config_ e) (paxos_ e) l (barriers_ e))); auto; [lia|].
    rewrite snd_pairs.
    apply (lock_outputs_small _ _ _ _ _ _ Hm).
Qed.

Lemma HandleBarrier_handled e pkt :
  wf_engine e → (30 ≤ length pkt)%nat → is_bytes pkt → handled e pkt (HandleBarrier e pkt).
Proof.
  intros Hwf Hlen Hb. unfold HandleBarrier.
  destruct (barrier.HandleMessage _ _ _) as [[st b] out] eqn:Hm. cbv zeta.
  destruct (write_exception_ok pkt hcop.kBarrierLateArrival Hlen Hb) as [Hb1 Hl1].
  destruct (write_exception_ok pkt hcop.kBarrierGenerationOverflow Hlen Hb) as [Hb2 Hl2].
  destruct (negb (_ || _)).
  - destruct (bool_decide (st = barrier.kFutureArrival)); [by apply (handled_same (MkEngine _ _ _ _))|].
    destruct (bool_decide (st = barrier.kLateArrival));
      [|destruct (bool_decide (st = barrier.kLayoutOverflow))]; destruct (negb _);
      eexists _, _, _; (split; [done|]); split_and!; auto; lia.
  - destruct out as [|o out]; [by apply (handled_same (MkEngine _ _ _ _))|].
    apply (handled_aggregate e pkt pkt (MkEngine (config_ e) (paxos_ e) (locks_ e) b)); auto.
    rewrite snd_pairs. apply (barrier_outputs_small _ _ _ _ _ Hm).
Qed.

Lemma run_primitive_handled e pkt now :
  wf_engine e → (30 ≤ length pkt)%nat → packet_ok pkt → handled e pkt (run_primitive e pkt now).
Proof.
  intros Hwf Hlen [Hb Hpay Hpx]. unfold run_primitive. cbv zeta.
  destruct (negb (_ =? 0)); [by apply handled_same|].
  destruct (Z.eqb_spec (hcop.primitive_type (hcop.decode (drop 14 pkt))) hcop.kPrimitivePaxos) as [Hp|];
    [by apply HandlePaxos_handled; auto|].
  destruct (_ =? hcop.kPrimitiveLock); [by apply HandleLock_handled; auto|].
  destruct (_ =? hcop.kPrimitiveBarrier); [by apply HandleBarrier_handled|by apply handled_same].
Qed.

(** What the packet is once the switch has recorded its crossing. *)
Definition crossed (pkt : bytes) : bytes :=
  hcop.put_header pkt (hcop.HCOP_APPEND_PATH (hcop.decode (drop 14 pkt)) hcop.kTierSwitch).

Lemma crossed_spec pkt :
  (30 ≤ length pkt)%nat → is_bytes pkt →
  length (crossed pkt) = length pkt ∧ is_bytes (crossed pkt) ∧ drop 30 (crossed pkt) = drop 30 pkt ∧
  hcop.decode (drop 14 (crossed pkt)) =
    hcop.HCOP_APPEND_PATH (hcop.decode (drop 14 pkt)) hcop.kTierSwitch.
Proof.
  intros Hlen Hb. unfold crossed. split_and!.
  - by rewrite hcop.length_put_header.
  - by apply hcop.put_header_bytes.
  - by apply hcop.drop_put_header.
  - apply hcop.decode_put_header; [done|]. by apply hcop.append_path_wf, hcop.decode_wf, is_bytes_drop.
Qed.

Lemma crossed_ok pkt : (30 ≤ length pkt)%nat → packet_ok pkt → packet_ok (crossed pkt).
Proof.
  intros Hlen [Hb Hpay Hpx]. destruct (crossed_spec pkt Hlen Hb) as (Hl & Hb' & Hd & Hh).
  split; auto; [by rewrite Hl|]. by rewrite Hd, Hh.
Qed.

Lemma is_response_defined pkt ty : (31 ≤ length pkt)%nat → is_Some (is_response pkt ty).
Proof.
  intros Hlen. unfold is_response. destruct (lookup_lt_is_Some_2 pkt 30) as [t ->]; [lia|].
  cbn [mbind option_bind]. repeat case_match; eauto.
Qed.

Lemma HandlePacket_handled e pkt ingress now :
  wf_engine e → packet_ok pkt → handled e pkt (HandlePacket e pkt ingress now).
Proof.
  intros Hwf Hok. pose proof (po_bytes _ Hok) as Hb. unfold HandlePacket.
  destruct (length pkt <? 14)%nat; [by apply handled_same|].
  destruct (negb _); [by apply handled_same|].
  destruct (Nat.ltb_spec (length pkt) 30) as [|Hlen]; [by apply handled_same|].
  cbv zeta. fold (crossed pkt).
  destruct (crossed_spec pkt Hlen Hb) as (Hl & Hb' & _ & _).
  assert (∀ d, handled e pkt (Some (d, crossed pkt, e))) as Hdone
    by (intros d; eexists _, _, _; split_and!; auto; lia).
  destruct (bool_decide _); [apply Hdone|].
  destruct (is_response_defined (crossed pkt) (hcop.primitive_type (hcop.decode (drop 14 (crossed pkt)))))
    as [b Hr]; [rewrite Hl; by apply po_payload|].
  destruct (from_fallback _ _); [rewrite Hr; destruct b|]; cbn [mbind option_bind]; try apply Hdone;
    destruct (run_primitive_handled e (crossed pkt) now) as (d & p & e' & Heq & Hx);
    auto using crossed_ok; try lia; rewrite Hl in Hx; by exists d, p, e'.
Qed.

(** The engine handles every packet, of any kind and from any port, without undefined
    behaviour, given that an HCOP packet has some payload and a Paxos message carries the
    value it declares; its state stays well formed, its configuration is untouched, and the
    packet it leaves is no longer than the one it got or the largest response. *)
Theorem engine_total e pkt ingress_port now_ns :
  wf_engine e → packet_ok pkt →
  ∃ d pkt' e', HandlePacket e pkt ingress_port now_ns = Some (d, pkt', e') ∧ wf_engine e' ∧
    config_ e' = config_ e ∧ is_bytes pkt' ∧ (length pkt' ≤ max_response `max` length pkt)%nat.
Proof. apply HandlePacket_handled. Qed.

(** ** Placement *)

(** An HCOP packet in full. *)
Definition is_hcop (pkt : bytes) : Prop :=
  (30 ≤ length pkt)%nat ∧ hcop.ethertype pkt = hcop.kHcopEtherType.

Lemma HandlePacket_hcop e pkt ingress now :
  is_hcop pkt →
  HandlePacket e pkt ingress now =
    if bool_decide (placement_mode (config_ e) = kForwardOnly) then
      Some (forward_only (config_ e) ingress, crossed pkt, e)
    else
      response ← (if from_fallback (config_ e) ingress
                  then is_response (crossed pkt) (hcop.primitive_type (hcop.decode (drop 14 (crossed pkt))))
                  else Some false);
      if (response : bool) then Some (MkDecision kMulticast [], crossed pkt, e)
      else run_primitive e (crossed pkt) now.
Proof.
  intros [Hlen Het]. unfold HandlePacket.
  rewrite !(proj2 (Nat.ltb_ge _ _)), Het, Z.eqb_refl by lia. done.
Qed.

(** A response of a lower tier. *)
Definition response_of (ty t : Z) : Prop :=
  ty = hcop.kPrimitiveBarrier ∧ t = barrier.proto.kRelease ∨
  ty = hcop.kPrimitiveLock ∧ (t = lock.proto.kGrant ∨ t = lock.proto.kDeny ∨ t = lock.proto.kTimeout) ∨
  ty = hcop.kPrimitivePaxos ∧ t ≠ paxos.kPrepare ∧ t ≠ paxos.kAccept.

Lemma is_response_true pkt ty t : pkt !! 30%nat = Some t → response_of ty t → is_response pkt ty = Some true.
Proof.
  intros Ht [ [-> ->]|[ [-> Hr]|(-> & H1 & H3) ] ]; unfold is_response; rewrite Ht; [done| |].
  - simpl. f_equal. destruct Hr as [->|[->| ->] ]; done.
  - unfold paxos.kPrepare, paxos.kAccept in *. simpl. f_equal. lia.
Qed.

Lemma crossed_lookup pkt : (30 ≤ length pkt)%nat → crossed pkt !! 30%nat = pkt !! 30%nat.
Proof.
  intros Hlen. pose proof (hcop.drop_put_header pkt (hcop.HCOP_APPEND_PATH (hcop.decode (drop 14 pkt)) hcop.kTierSwitch) Hlen) as Hd.
  fold (crossed pkt) in Hd. apply (f_equal (λ l, l !! 0%nat)) in Hd. by rewrite !lookup_drop in Hd.
Qed.

(** a switch that only forwards, and a switch that sees a response of the fallback tier,
    does not touch its state machines: the packet keeps its payload, records one crossing of
    the switch, and is flooded, or sent to the fallback port when it came from elsewhere. *)
Theorem switch_transparent e pkt ingress now_ns t :
  is_hcop pkt → is_bytes pkt → pkt !! 30%nat = Some t →
  let fallback := fallback_port_index (config_ e) in
  let ty := hcop.primitive_type (hcop.decode (drop 14 pkt)) in
  placement_mode (config_ e) = kForwardOnly ∨ 0 ≤ fallback ∧ ingress = fallback ∧ response_of ty t →
  ∃ d pkt', HandlePacket e pkt ingress now_ns = Some (d, pkt', e) ∧ drop 30 pkt' = drop 30 pkt ∧
    hcop.decode (drop 14 pkt') = hcop.HCOP_APPEND_PATH (hcop.decode (drop 14 pkt)) hcop.kTierSwitch ∧
    d = MkDecision (if decide (0 ≤ fallback ∧ ingress ≠ fallback) then kToFallback else kMulticast) [].
Proof.
  intros Hh Hb Ht fallback ty Hcase. pose proof Hh as [Hlen _].
  destruct (crossed_spec pkt Hlen Hb) as (Hl & _ & Hd & Hdec).
  rewrite HandlePacket_hcop by done.
  destruct Hcase as [Hmode|(Hf & Hin & Hresp)].
  - rewrite bool_decide_eq_true_2 by done. eexists _, _. split_and!; [done|done|done|].
    unfold forward_only. fold fallback. destruct (Z.leb_spec 0 fallback).
    + destruct (Z.eqb_spec ingress fallback); case_decide; done || naive_solver lia.
    + rewrite decide_False by lia. done.
  - rewrite decide_False by naive_solver.
    assert (from_fallback (config_ e) ingress = true) as ->.
    { unfold from_fallback. fold fallback. rewrite Hin. lia. }
    assert (forward_only (config_ e) ingress = MkDecision kMulticast []) as ->.
    { unfold forward_only. fold fallback. rewrite Hin, Z.eqb_refl. by destruct (0 <=? fallback). }
    rewrite (is_response_true _ _ t); [|by rewrite <- Ht, crossed_lookup|by rewrite Hdec].
    cbn [mbind option_bind]. destruct (bool_decide _); by eexists _, _.
Qed.

(** ** Packets without payload *)

Lemma run_primitive_lock e pkt now :
  hcop.primitive_type (hcop.decode (drop 14 pkt)) = hcop.kPrimitiveLock →
  hcop.exception_type (hcop.decode (drop 14 pkt)) = 0 → run_primitive e pkt now = HandleLock e pkt now.
Proof. intros Hty Hex. unfold run_primitive. by rewrite Hty, Hex. Qed.

(** A lock packet that ends with its HCOP header makes a processing switch read one byte
    past the end of the packet, whichever port it came from. *)
Theorem short_packet_undefined e pkt ingress now_ns :
  length pkt = 30%nat → is_bytes pkt → hcop.ethertype pkt = hcop.kHcopEtherType →
  placement_mode (config_ e) = kProcessAndForward →
  hcop.primitive_type (hcop.decode (drop 14 pkt)) = hcop.kPrimitiveLock →
  hcop.exception_type (hcop.decode (drop 14 pkt)) = 0 →
  HandlePacket e pkt ingress now_ns = None.
Proof.
  intros Hlen Hb Het Hmode Hty Hex. assert (30 ≤ length pkt)%nat as Hle by lia.
  destruct (crossed_spec pkt Hle Hb) as (Hl & _ & Hd & Hdec).
  rewrite HandlePacket_hcop, Hmode, bool_decide_eq_false_2 by done.
  assert (crossed pkt !! 30%nat = None) as Hno by (apply lookup_ge_None_2; lia).
  destruct (from_fallback _ _).
  { rewrite Hdec. cbn [hcop.primitive_type hcop.HCOP_APPEND_PATH]. rewrite Hty.
    unfold is_response. by rewrite Hno. }
  cbn [mbind option_bind]. rewrite run_primitive_lock by (by rewrite Hdec).
  assert (exception_type (crossed pkt) = 0) as Hx by (unfold exception_type; by rewrite Hdec).
  unfold HandleLock. rewrite Hd, drop_ge by lia. simpl. by rewrite Hx, Hno.
Qed.

(** ** Messages the switch loses *)

(** When an ACCEPT arrives for an instance the switch's replica has already committed,
    the replica answers with a LEARN of the committed value, and the switch drops it together
    with the packet. *)
Theorem committed_learn_dropped e pkt p out now_ns :
  (30 ≤ length pkt)%nat →
  hcop.primitive_type (hcop.decode (drop 14 pkt)) = hcop.kPrimitivePaxos →
  hcop.exception_type (hcop.decode (drop 14 pkt)) = 0 →
  paxos.HandleMessage (paxos_ e) (drop 30 pkt) [] = Some (paxos.kAlreadyCommitted, p, out) →
  run_primitive e pkt now_ns =
    Some (MkDecision kDrop [], pkt, MkEngine (config_ e) p (locks_ e) (barriers_ e)).
Proof.
  intros Hlen Hty Hex Hm. unfold run_primitive. cbv zeta. rewrite Hty, Hex. simpl.
  unfold HandlePaxos. rewrite Hm. simpl. unfold exception_type. by rewrite Hex.
Qed.

(** ** Locks over two tiers *)

(** A client's request for a lock. *)
Record lock_request (f : bytes) (key r lease : Z) : Prop := {
  lr_hcop : is_hcop f;
  lr_bytes : is_bytes f;
  lr_type : hcop.primitive_type (hcop.decode (drop 14 f)) = hcop.kPrimitiveLock;
  lr_exc : hcop.exception_type (hcop.decode (drop 14 f)) = 0;
  lr_fits : key ∈u 64 ∧ r ∈u 8 ∧ lease ∈u 64;
  lr_payload : ∃ rest, drop 30 f =
    lock.proto.encode_Acquire (lock.proto.MkAcquire (lock.proto.MkHeader lock.proto.kAcquire r key) lease) ++ rest;
}.

Definition holder (m : lock.LockManager) (key : Z) : option Z := lock.holder_id <$> lock.keys_ m !! key.

(** Room for one more key. *)
Definition has_room (m : lock.LockManager) : Prop := Z.of_nat (size (lock.keys_ m)) < lock.max_keys_ m.

Lemma request_handled e f key r lease port now :
  placement_mode (config_ e) = kProcessAndForward → from_fallback (config_ e) port = false →
  lock_request f key r lease →
  HandlePacket e f port now = HandleLock e (crossed f) now ∧
  lock.HandleMessage (locks_ e) (drop 30 (crossed f)) now [] = lock.Acquire (locks_ e) key r lease now [].
Proof.
  intros Hmode Hport [Hh Hb Hty Hex (?&?&?) [rest Hpay]]. pose proof Hh as [Hlen _].
  destruct (crossed_spec f Hlen Hb) as (_ & _ & Hd & Hdec). split.
  - rewrite HandlePacket_hcop, Hmode, Hport, bool_decide_eq_false_2 by done. simpl.
    apply run_primitive_lock; by rewrite Hdec.
  - rewrite Hd, Hpay. by apply lock_safety.dispatch_Acquire.
Qed.

Lemma acquire_free m key r lease now :
  lock.keys_ m !! key = None → has_room m →
  ∃ expiry, lock.Acquire m key r lease now [] =
    (lock.kGranted, lock.set_keys m (<[key := lock.MkKey r expiry []]> (lock.keys_ m)),
     [lock.MakeGrant r key expiry]).
Proof.
  intros Hfree Hroom. unfold lock.Acquire, lock.GetOrCreateKey, has_room in *. rewrite Hfree.
  rewrite bool_decide_eq_false_2 by lia. simpl. eexists. unfold lock.set_keys. simpl.
  by rewrite insert_insert_eq.
Qed.

Lemma HandleLock_routes e pkt now l o :
  lock.HandleMessage (locks_ e) (drop 30 pkt) now [] = (lock.kGranted, l, [o]) →
  (30 ≤ length pkt)%nat → is_bytes pkt →
  ∃ d pkt', HandleLock e pkt now = Some (d, pkt', MkEngine (config_ e) (paxos_ e) l (barriers_ e)) ∧
    drop 30 pkt' = lock.data o.
Proof.
  intros Hm Hlen Hb. unfold HandleLock. rewrite Hm. simpl.
  destruct (AGGREGATE_ROUTING (config_ e) pkt _) as [d p] eqn:Ha. exists d, p. split; [done|].
  eapply (dl_payload _ _ _ _ (AGGREGATE_ROUTING_delivers _ _ _ _ _ Hlen Hb _ _ Ha) (lock.dest_id o, lock.data o)).
  set_solver.
  Unshelve. all: [>done|apply uniform_short; simpl; lia].
Qed.

Lemma HandleLock_contention e pkt now l out :
  lock.HandleMessage (locks_ e) (drop 30 pkt) now [] = (lock.kContention, l, out) →
  (30 ≤ length pkt)%nat → is_bytes pkt →
  HandleLock e pkt now = Some (MkDecision kToFallback [], write_exception pkt hcop.kLockContention,
                               MkEngine (config_ e) (paxos_ e) l (barriers_ e)) ∧
  drop 30 (write_exception pkt hcop.kLockContention) = drop 30 pkt.
Proof.
  intros Hm Hlen Hb. unfold HandleLock. rewrite Hm. simpl.
  assert (exception_type (write_exception pkt hcop.kLockContention) = hcop.kLockContention) as ->.
  { unfold exception_type, write_exception. rewrite hcop.decode_put_header; [done|done|].
    apply hcop.set_exception_wf; [by vm_compute|]. by apply hcop.decode_wf, is_bytes_drop. }
  split; [done|]. by apply hcop.drop_put_header.
Qed.

(** C8: with the switch in front of a fallback tier locks do not exclude each other.  The
    switch grants a free key to [a]; a request of [b] for it meets contention and is handed
    to the fallback tier, whose own lock table knows nothing of [a] and grants the key to
    [b], while [a] still holds it at the switch. *)
Theorem two_tier_lock_not_exclusive e m key a b lease fa fb pa pb ta tb :
  placement_mode (config_ e) = kProcessAndForward →
  from_fallback (config_ e) pa = false → from_fallback (config_ e) pb = false →
  lock_request fa key a lease → lock_request fb key b lease → a ≠ b → a ≠ lock.kFree →
  lock.keys_ (locks_ e) !! key = None → has_room (locks_ e) → lock.max_waiters_per_key_ (locks_ e) = 0 →
  lock.keys_ m !! key = None → has_room m →
  ∃ d1 p1 e1 p2 e2 x1 x2 m',
    HandlePacket e fa pa ta = Some (d1, p1, e1) ∧ drop 30 p1 = lock.data (lock.MakeGrant a key x1) ∧
    HandlePacket e1 fb pb tb = Some (MkDecision kToFallback [], p2, e2) ∧
    lock.HandleMessage m (drop 30 p2) 0 [] = (lock.kGranted, m', [lock.MakeGrant b key x2]) ∧
    holder (locks_ e2) key = Some a ∧ holder m' key = Some b.
Proof.
  intros Hmode Hpa Hpb Ha Hb Hab Hfree Hk Hroom Hw Hk' Hroom'.
  destruct (request_handled e fa key a lease pa ta Hmode Hpa Ha) as [H1 M1].
  destruct (acquire_free (locks_ e) key a lease ta Hk Hroom) as [x1 A1]. rewrite A1 in M1.
  destruct (crossed_spec fa) as (L1 & B1 & _); [apply Ha|apply Ha|].
  destruct (HandleLock_routes _ _ _ _ _ M1) as (d1 & p1 & R1 & D1); [rewrite L1; apply Ha|done|].
  set (e1 := MkEngine _ _ _ _) in R1.
  destruct (request_handled e1 fb key b lease pb tb Hmode Hpb Hb) as [H2 M2].
  assert (∃ l out, lock.Acquire (locks_ e1) key b lease tb [] = (lock.kContention, l, out) ∧
            lock.keys_ l = lock.keys_ (locks_ e1)) as (l & out & A2 & Hl).
  { unfold lock.Acquire, lock.GetOrCreateKey, e1. simpl. rewrite lookup_insert_eq. simpl.
    rewrite !(proj2 (Z.eqb_neq _ _)) by done. rewrite Hw. simpl.
    eexists _, _. split; [done|]. apply lock.exception_cb_keys. }
  rewrite A2 in M2. destruct (crossed_spec fb) as (L2 & B2 & Dd2 & _); [apply Hb|apply Hb|].
  destruct (HandleLock_contention _ _ _ _ _ M2) as [R2 D2]; [rewrite L2; apply Hb|done|].
  destruct (acquire_free m key b lease 0 Hk' Hroom') as [x2 A3].
  eexists d1, p1, e1, _, _, x1, x2, _. rewrite H1, H2. split_and!; [done|done|done| | |].
  - rewrite D2, Dd2. destruct (lr_payload _ _ _ _ Hb) as [rest ->]. destruct (lr_fits _ _ _ _ Hb) as (?&?&?).
    rewrite lock_safety.dispatch_Acquire by done. exact A3.
  - unfold holder. simpl. rewrite Hl. simpl. by rewrite lookup_insert_eq.
  - unfold holder. simpl. by rewrite lookup_insert_eq.
Qed.

(** ** A switch with two clients and a DPU *)

Definition demo_engine : PrimitiveEngine :=
  default (MkEngine demo_config paxos_inv.demo_node (lock.new_LockManager 0 0 0) (barrier.new_BarrierManager 0 0))
          (Init demo_config).

Definition demo_frame (ty exc : Z) (payload : bytes) : bytes :=
  replicate 6 0xFF ++ [7; 8; 9; 10; 11; 12] ++ [0x88; 0xB5] ++
  hcop.encode (hcop.MkHcop ty exc 77 hcop.kTierHost 1 hcop.kTierHost (Z.of_nat (length payload))) ++ payload.

Definition demo_lock (key r : Z) : bytes :=
  demo_frame hcop.kPrimitiveLock 0
    (lock.proto.encode_Acquire (lock.proto.MkAcquire (lock.proto.MkHeader lock.proto.kAcquire r key) 5000)).

Lemma demo_engine_wf : wf_engine demo_engine.
Proof. apply (paxos_inv.new_node_wf 0 5 25600); [by vm_compute|lia|by vm_compute]. Qed.

Lemma demo_lock_ok key r : (key, r) ∈ [(42, 0); (42, 1)] → packet_ok (demo_lock key r).
Proof.
  intros Hin. apply elem_of_cons in Hin as [ [= -> ->]|Hin%list_elem_of_singleton]; [|injection Hin as -> ->];
    (split; [by apply is_bytesb_sound; vm_compute|intros _; vm_compute; lia|intros Hty; by vm_compute in Hty]).
Qed.

Lemma demo_lock_request r : r = 0 ∨ r = 1 → lock_request (demo_lock 42 r) 42 r 5000.
Proof.
  intros [-> | ->]; (split; [split; [vm_compute; lia|by vm_compute]|by apply is_bytesb_sound; vm_compute
    |by vm_compute|by vm_compute|by vm_compute|exists []; by vm_compute]).
Qed.

Lemma engine_total_witness :
  ∃ d pkt' e', HandlePacket demo_engine (demo_lock 42 1) 1 7 = Some (d, pkt', e') ∧ wf_engine e' ∧
    config_ e' = config_ demo_engine ∧ is_bytes pkt' ∧
    (length pkt' ≤ max_response `max` length (demo_lock 42 1))%nat.
Proof. apply engine_total; [apply demo_engine_wf|apply demo_lock_ok; set_solver]. Defined.

Lemma switch_delivers_witness :
  ∃ out d pkt' e', answer demo_engine (demo_lock 42 1) 7 = Some (true, out) ∧
    run_primitive demo_engine (demo_lock 42 1) 7 = Some (d, pkt', e') ∧
    (∀ m, m ∈ out → drop 30 pkt' = m.2) ∧ (∀ p, reached d p ↔ meant_for (config_ demo_engine) out p).
Proof.
  destruct (answer demo_engine (demo_lock 42 1) 7) as [[b out]|] eqn:Ha; [|vm_compute in Ha; discriminate Ha].
  assert (b = true ∧ out ≠ []) as [-> Hne] by (vm_compute in Ha; injection Ha as <- <-; split; [reflexivity|discriminate]).
  destruct (switch_delivers demo_engine (demo_lock 42 1) 7 out) as (d & pkt' & e' & H);
    [vm_compute; lia|by apply is_bytesb_sound; vm_compute|by vm_compute|exact Ha|exact Hne|].
  exists out, d, pkt', e'. exact (conj eq_refl H).
Defined.

Definition demo_grant : bytes :=
  demo_frame hcop.kPrimitiveLock 0
    (lock.proto.encode_Grant (lock.proto.MkGrant (lock.proto.MkHeader lock.proto.kGrant 1 42) 5000)).

Lemma switch_transparent_witness :
  ∃ d pkt', HandlePacket demo_engine demo_grant 2 7 = Some (d, pkt', demo_engine) ∧
    drop 30 pkt' = drop 30 demo_grant ∧
    hcop.decode (drop 14 pkt') = hcop.HCOP_APPEND_PATH (hcop.decode (drop 14 demo_grant)) hcop.kTierSwitch ∧
    d = MkDecision kMulticast [].
Proof.
  apply (switch_transparent demo_engine demo_grant 2 7 2);
    [split; [vm_compute; lia|by vm_compute]|by apply is_bytesb_sound; vm_compute|by vm_compute|].
  right. split; [by vm_compute|]. split; [by vm_compute|]. right. left. split; [by vm_compute|by left].
Defined.

Lemma short_packet_undefined_witness :
  HandlePacket demo_engine (demo_frame hcop.kPrimitiveLock 0 []) 0 7 = None.
Proof.
  apply (short_packet_undefined demo_engine (demo_frame hcop.kPrimitiveLock 0 []) 0 7);
    [by vm_compute|by apply is_bytesb_sound; vm_compute|by vm_compute..].
Defined.

(** Node 1 learnt a value for instance 3; an ACCEPT for it follows. *)
Definition demo_learn : bytes :=
  paxos.encode_Learn (paxos.MkLearnMsg (paxos.MkHeader paxos.kLearn 1 5 3) 1 (9 :: replicate 127 0)).
Definition demo_accept : bytes :=
  demo_frame hcop.kPrimitivePaxos 0
    (paxos.encode_Accept (paxos.MkAcceptMsg (paxos.MkHeader paxos.kAccept 1 5 3) (paxos.MkProposal 7 1 0) 1
                            (8 :: replicate 127 0))).
Definition demo_learnt : PrimitiveEngine :=
  match run_primitive demo_engine (demo_frame hcop.kPrimitivePaxos 0 demo_learn) 7 with
  | Some (_, _, e) => e
  | None => demo_engine
  end.

Lemma committed_learn_dropped_witness :
  ∃ p o, paxos.HandleMessage (paxos_ demo_learnt) (drop 30 demo_accept) [] = Some (paxos.kAlreadyCommitted, p, [o]) ∧
    run_primitive demo_learnt demo_accept 7 =
      Some (MkDecision kDrop [], demo_accept,
            MkEngine (config_ demo_learnt) p (locks_ demo_learnt) (barriers_ demo_learnt)).
Proof.
  destruct (paxos.HandleMessage (paxos_ demo_learnt) (drop 30 demo_accept) []) as [[[st p] out]|] eqn:Hm;
    [|vm_compute in Hm; discriminate Hm].
  assert (st = paxos.kAlreadyCommitted ∧ length out = 1%nat) as [-> Hout].
  { apply (f_equal (λ r, (λ x : paxos.PaxosStatus * paxos.PaxosNode * list paxos.OutMessage, (x.1.1, length x.2)) <$> r)) in Hm.
    vm_compute in Hm. injection Hm as H1 H2. split; symmetry; [exact H1|exact H2]. }
  destruct out as [|o [|]]; [discriminate Hout| |discriminate Hout].
  exists p, o. split; [exact eq_refl|].
  apply (committed_learn_dropped demo_learnt demo_accept p [o] 7);
    [vm_compute; lia|by vm_compute|by vm_compute|exact Hm].
Defined.

Lemma two_tier_lock_not_exclusive_witness :
  ∃ d1 p1 e1 p2 e2 x1 x2 m',
    HandlePacket demo_engine (demo_lock 42 0) 0 7 = Some (d1, p1, e1) ∧
    drop 30 p1 = lock.data (lock.MakeGrant 0 42 x1) ∧
    HandlePacket e1 (demo_lock 42 1) 1 9 = Some (MkDecision kToFallback [], p2, e2) ∧
    lock.HandleMessage (lock_handler.new_LockDpuHandler 1000000 10000000 16) (drop 30 p2) 0 [] =
      (lock.kGranted, m', [lock.MakeGrant 1 42 x2]) ∧
    holder (locks_ e2) 42 = Some 0 ∧ holder m' 42 = Some 1.
Proof.
  apply (two_tier_lock_not_exclusive demo_engine _ 42 0 1 5000 (demo_lock 42 0) (demo_lock 42 1) 0 1 7 9);
    [by vm_compute|by vm_compute|by vm_compute|by apply demo_lock_request; left
    |by apply demo_lock_request; right|done|done|by vm_compute|by vm_compute|by vm_compute
    |by vm_compute|by vm_compute].
Defined.

End engine_safety.
