(* ===== verification/HcopSwitch.v ===== *)
(** * The HCOP switch (sims/net/hcop_switch/{hcop_switch.h,device.cc,net_port.h,net_port.cc})

    [NetPort] wraps a network interface, [HcopSwitch] delays packets by the pipeline latency,
    hands them to the primitive engine, and sends them where it decides.  The incoming queue of
    a port is the FIFO of BaseChannel.v; the outgoing one is the number of free entries and
    the packets sent. *)

From S2P Require Import Prelude.
From S2P Require Import BaseIf.
From S2P Require Import SwitchConfig.
From S2P Require Import PrimitiveEngine.

Module hswitch.
Import switch_config engine.

(** ** Ports *)

Inductive NetMsg := Packet (data : bytes) | Sync | Terminate | Other (ty : Z).

Inductive RxPollState := kRxPollSuccess | kRxPollFail | kRxPollSync | kRxPollError.

Record NetPort := MkPort {
  sync_ : bool;                    (* the port's flag *)
  if_sync : bool;                  (* the interface's flag *)
  in_timestamp : Z;                (* uint64_t *)
  in_queue : list (Z * NetMsg);    (* timestamped messages not yet taken *)
  rx_ : option bytes;              (* the packet being looked at *)
  out_elen : Z;                    (* size of an outgoing entry *)
  room : nat;                      (* free outgoing entries *)
  sent : list (Z * bytes);         (* packets sent, with the time of sending *)
}.

Definition set_in (p : NetPort) (ts : Z) (q : list (Z * NetMsg)) (rx : option bytes) : NetPort :=
  MkPort (sync_ p) (if_sync p) ts q rx (out_elen p) (room p) (sent p).
Definition terminated (p : NetPort) (q : list (Z * NetMsg)) : NetPort :=
  MkPort (sync_ p) false base.UINT64_MAX q (rx_ p) (out_elen p) (room p) (sent p).
Definition transmit (p : NetPort) (ts : Z) (data : bytes) : NetPort :=
  MkPort (sync_ p) (if_sync p) (in_timestamp p) (in_queue p) (rx_ p) (out_elen p)
         (room p - 1) (sent p ++ [(ts, data)]).

Definition IsSync (p : NetPort) : bool := sync_ p.
Definition NextTimestamp (p : NetPort) : Z := in_timestamp p.

(** [InPoll] as BaseIf.v has it, on the FIFO. *)
Definition RxPacket (p : NetPort) (cur_ts : Z) : RxPollState * NetPort :=
  match rx_ p with
  | Some _ => (kRxPollError, p)
  | None =>
      match in_queue p with
      | [] => (kRxPollFail, p)
      | (ts, m) :: q =>
          let p := set_in p ts (in_queue p) None in
          if if_sync p && (cur_ts <? ts) then (kRxPollFail, p)
          else match m with
               | Packet data => (kRxPollSuccess, set_in p ts q (Some data))
               | Sync => (kRxPollSync, set_in p ts q None)
               | Terminate => (kRxPollError, terminated p q)
               | Other _ => (kRxPollError, set_in p ts q None)
               end
      end
  end.

Definition RxDone (p : NetPort) : NetPort := set_in p (in_timestamp p) (in_queue p) None.

(** A full queue makes an unsynchronized port lose the packet and a synchronized one wait
    until its peer has freed an entry.  [None]: the packet is longer than an entry, and the
    copy runs over it. *)
Definition TxPacket (p : NetPort) (data : bytes) (cur_ts : Z) : option (bool * NetPort) :=
  if (room p =? 0)%nat && negb (sync_ p) then Some (false, p)
  else if out_elen p <? 64 + Z.of_nat (length data) then None
  else Some (true, transmit p cur_ts data).

(** ** The switch *)

Record PacketEvent := MkEvent { timestamp : Z; ingress_port : nat; data : bytes }.

Record HcopSwitch := MkSwitch {
  config_ : SwitchConfig;
  ports_ : list NetPort;
  event_queue_ : list PacketEvent;
  primitive_engine_ : PrimitiveEngine;
  cur_ts_ : Z;            (* uint64_t *)
  pkts_processed_ : Z;    (* uint64_t *)
  pkts_dropped_ : Z;      (* uint64_t *)
  pkts_queued_ : Z;       (* uint64_t *)
}.

Definition set_ports (s : HcopSwitch) (l : list NetPort) : HcopSwitch :=
  MkSwitch (config_ s) l (event_queue_ s) (primitive_engine_ s) (cur_ts_ s)
           (pkts_processed_ s) (pkts_dropped_ s) (pkts_queued_ s).
Definition set_queue (s : HcopSwitch) (q : list PacketEvent) : HcopSwitch :=
  MkSwitch (config_ s) (ports_ s) q (primitive_engine_ s) (cur_ts_ s)
           (pkts_processed_ s) (pkts_dropped_ s) (pkts_queued_ s).
Definition set_engine (s : HcopSwitch) (e : PrimitiveEngine) : HcopSwitch :=
  MkSwitch (config_ s) (ports_ s) (event_queue_ s) e (cur_ts_ s)
           (pkts_processed_ s) (pkts_dropped_ s) (pkts_queued_ s).
Definition set_ts (s : HcopSwitch) (t : Z) : HcopSwitch :=
  MkSwitch (config_ s) (ports_ s) (event_queue_ s) (primitive_engine_ s) t
           (pkts_processed_ s) (pkts_dropped_ s) (pkts_queued_ s).
Definition set_counters (s : HcopSwitch) (processed dropped queued : Z) : HcopSwitch :=
  MkSwitch (config_ s) (ports_ s) (event_queue_ s) (primitive_engine_ s) (cur_ts_ s)
           processed dropped queued.

(** [None]: the engine cannot be initialized. *)
Definition new_HcopSwitch (cfg : SwitchConfig) : option HcopSwitch :=
  e ← Init cfg; Some (MkSwitch cfg [] [] e 0 0 0 0).

Definition AddPort (s : HcopSwitch) (p : NetPort) : HcopSwitch := set_ports s (ports_ s ++ [p]).

Definition latency_ps (cfg : SwitchConfig) : Z :=
  u64 (u64 (pipeline_stages cfg * stage_latency_ns cfg) * 1000).

Definition SchedulePacket (s : HcopSwitch) (port : nat) (d : bytes) : HcopSwitch :=
  set_queue s (MkEvent (u64 (cur_ts_ s + latency_ps (config_ s))) port d :: event_queue_ s).

Definition ForwardPacket (s : HcopSwitch) (d : bytes) (dst_port : Z) : option HcopSwitch :=
  if dst_port <? 0 then Some s
  else match ports_ s !! Z.to_nat dst_port with
       | None => Some s
       | Some p =>
           '(_, p') ← TxPacket p d (cur_ts_ s);
           Some (set_ports s (<[Z.to_nat dst_port := p']> (ports_ s)))
       end.

Fixpoint forward_all (s : HcopSwitch) (d : bytes) (dsts : list Z) : option HcopSwitch :=
  match dsts with
  | [] => Some s
  | dst :: dsts => s' ← ForwardPacket s d dst; forward_all s' d dsts
  end.

(** The ports [ProcessEvents] sends a packet to. *)
Definition destinations (cfg : SwitchConfig) (nports : nat) (ingress : nat) (d : RoutingDecision) : list Z :=
  match action d with
  | kDrop => []
  | kToFallback => if 0 <=? fallback_port_index cfg then [fallback_port_index cfg] else []
  | kUnicast => filter (λ p, 0 ≤ p) (take 1 (dst_ports d))
  | kMulticast =>
      match dst_ports d with
      | [] => filter (λ p, p ≠ Z.of_nat ingress) (seqZ 0 (Z.of_nat nports))
      | _ => filter (λ p, 0 ≤ p) (dst_ports d)
      end
  | kBroadcastAll => seqZ 0 (Z.of_nat nports)
  end.

(** The body of the loop of [ProcessEvents], for the event that was popped. *)
Definition process_event (s : HcopSwitch) (ev : PacketEvent) : option HcopSwitch :=
  let s := set_counters s (u64 (pkts_processed_ s + 1)) (pkts_dropped_ s)
             (if 0 <? pkts_queued_ s then pkts_queued_ s - 1 else pkts_queued_ s) in
  '(d, pkt, e) ← HandlePacket (primitive_engine_ s) (data ev) (Z.of_nat (ingress_port ev)) (cur_ts_ s / 1000);
  let s := set_engine s e in
  let s := if bool_decide (action d = kDrop)
           then set_counters s (pkts_processed_ s) (u64 (pkts_dropped_ s + 1)) (pkts_queued_ s) else s in
  forward_all s pkt (destinations (config_ s) (length (ports_ s)) (ingress_port ev) d).

Section queue.
(** [std::priority_queue]: [top] and [pop].  Which of several events with the same timestamp
    is on top is left open. *)
Context (pop : list PacketEvent → option (PacketEvent * list PacketEvent)).

(** The loop, at most [fuel] times; also the events processed, in order. *)
Fixpoint process_loop (fuel : nat) (s : HcopSwitch) : option (HcopSwitch * list PacketEvent) :=
  match fuel with
  | O => Some (s, [])
  | S fuel =>
      match pop (event_queue_ s) with
      | None => Some (s, [])
      | Some (ev, q) =>
          if cur_ts_ s <? timestamp ev then Some (s, [])
          else
            s1 ← process_event (set_queue s q) ev;
            '(s2, done) ← process_loop fuel s1;
            Some (s2, ev :: done)
      end
  end.

(** Every turn of the loop takes one event away. *)
Definition ProcessEvents (s : HcopSwitch) : option (HcopSwitch * list PacketEvent) :=
  process_loop (length (event_queue_ s)) s.

(** Draining one port: every packet taken shortens its queue. *)
Fixpoint drain (fuel : nat) (s : HcopSwitch) (i : nat) : HcopSwitch :=
  match fuel with
  | O => s
  | S fuel =>
      match ports_ s !! i with
      | None => s
      | Some p =>
          let '(res, p) := RxPacket p (cur_ts_ s) in
          let s := set_ports s (<[i := p]> (ports_ s)) in
          match res, rx_ p with
          | kRxPollSuccess, Some d =>
              let s := set_counters s (pkts_processed_ s) (pkts_dropped_ s) (u64 (pkts_queued_ s + 1)) in
              let s := SchedulePacket s i d in
              drain fuel (set_ports s (<[i := RxDone p]> (ports_ s))) i
          | _, _ => s
          end
      end
  end.

Definition drain_port (s : HcopSwitch) (i : nat) : HcopSwitch :=
  drain (S (default 0%nat ((λ p, length (in_queue p)) <$> ports_ s !! i))) s i.

Definition PollPorts (s : HcopSwitch) : HcopSwitch :=
  foldl drain_port s (seq 0 (length (ports_ s))).

(** The next timestamp of the synchronized ports and of the event queue. *)
Definition min_ts (s : HcopSwitch) : Z :=
  let t := foldl (λ acc p, if IsSync p && (NextTimestamp p <? acc) then NextTimestamp p else acc)
                 base.UINT64_MAX (ports_ s) in
  match pop (event_queue_ s) with
  | Some (ev, _) => if timestamp ev <? t then timestamp ev else t
  | None => t
  end.

(** One pass of the inner loop of [Run]; time advances when the condition ends the loop. *)
Definition pass (s : HcopSwitch) : option (HcopSwitch * list PacketEvent) :=
  '(s, done) ← ProcessEvents (PollPorts s);
  let t := min_ts s in
  Some (if (cur_ts_ s <? t) && (t <? base.UINT64_MAX) then set_ts s t else s, done).

(** What the peers do between passes: new incoming messages and freed outgoing entries, for
    each port. *)
Definition arrive (p : NetPort) (a : list (Z * NetMsg) * nat) : NetPort :=
  MkPort (sync_ p) (if_sync p) (in_timestamp p) (in_queue p ++ a.1) (rx_ p) (out_elen p)
         (room p + a.2) (sent p).

(** [Run]: the passes, with the events processed in each and the time of it. *)
Fixpoint Run (s : HcopSwitch) (ins : list (list (list (Z * NetMsg) * nat))) :
    option (HcopSwitch * list (Z * PacketEvent)) :=
  match ins with
  | [] => Some (s, [])
  | i :: ins =>
      let s := set_ports s (zip_with arrive (ports_ s) i) in
      '(s1, done) ← pass s;
      '(s2, log) ← Run s1 ins;
      Some (s2, ((λ ev, (cur_ts_ s, ev)) <$> done) ++ log)
  end.

End queue.

End hswitch.
