(* ===== verification/HcopSwitchInv.v ===== *)
(** * The HCOP switch keeps its promises

    Over HcopSwitch.v, for any priority queue: the switch runs without undefined behaviour,
    every event is processed at the time it was scheduled for, no packet is lost or duplicated on
    the way, and a flooded packet goes once to every other port. *)

From S2P Require Import Prelude.
From S2P Require Import HcopProto.
From S2P Require Import BaseIf.
From S2P Require Import PaxosState.
From S2P Require Import PaxosInv.
From S2P Require Import DpuHandlers.
From S2P Require Import SwitchConfig.
From S2P Require Import PrimitiveEngine.
From S2P Require Import EngineSafety.
From S2P Require Import HcopSwitch.

Module hswitch_inv.
Import switch_config dpu_handlers engine engine_safety hswitch.

Implicit Types (s : HcopSwitch) (p : NetPort) (ev : PacketEvent).

(** What [std::priority_queue] documents: [top] is an element no other comes before, [pop]
    removes it. *)
Class PriorityQueue (pop : list PacketEvent → option (PacketEvent * list PacketEvent)) : Prop :=
  pop_spec q : match pop q with
               | None => q = []
               | Some (ev, q') => q ≡ₚ ev :: q' ∧ Forall (λ x, timestamp ev ≤ timestamp x) q'
               end.

(** ** Packets still in the switch *)

Definition packets (q : list (Z * NetMsg)) : list bytes :=
  omap (λ m, match m.2 with Packet d => Some d | _ => None end) q.

(** The packets waiting on the ports from number [k] on, each with its port. *)
Fixpoint port_packets (k : nat) (l : list NetPort) : list (nat * bytes) :=
  match l with
  | [] => []
  | p :: l => (pair k <$> packets (in_queue p)) ++ port_packets (S k) l
  end.

Definition event_packet ev : nat * bytes := (ingress_port ev, data ev).

(** All packets taken from no port yet, or waiting for their latency to pass. *)
Definition backlog s : list (nat * bytes) :=
  (event_packet <$> event_queue_ s) ++ port_packets 0 (ports_ s).

Lemma port_packets_insert l : ∀ k i p p' x,
  l !! i = Some p → packets (in_queue p) = x ++ packets (in_queue p') →
  port_packets k l ≡ₚ (pair (k + i)%nat <$> x) ++ port_packets k (<[i := p']> l).
Proof.
  induction l as [|q l IH]; intros k [|i] p p' x Hi Hx; simpl in *; [done|done| |].
  - injection Hi as <-. rewrite Hx, fmap_app, <- app_assoc, Nat.add_0_r. done.
  - rewrite (IH (S k) i p p' x Hi Hx), Nat.add_succ_r. simpl.
    rewrite !app_assoc. f_equiv. apply Permutation_app_comm.
Qed.

(** A port that only sent something. *)
Definition same_in p p' : Prop :=
  in_queue p' = in_queue p ∧ rx_ p' = rx_ p ∧ sync_ p' = sync_ p ∧ if_sync p' = if_sync p ∧
  in_timestamp p' = in_timestamp p ∧ out_elen p' = out_elen p.

Lemma port_packets_same l : ∀ k l', Forall2 same_in l l' → port_packets k l' = port_packets k l.
Proof.
  induction l as [|p l IH]; intros k l' Hl; inversion Hl as [|? p' ? l1 Hp Hl1]; subst; [done|].
  simpl. destruct Hp as [-> _]. by rewrite (IH (S k) l1).
Qed.

#[local] Instance same_in_preorder : PreOrder same_in.
Proof.
  split; [by repeat split|]. intros p q r (?&?&?&?&?&?) (?&?&?&?&?&?). unfold same_in. split_and!; congruence.
Qed.

(** ** Forwarding *)

Lemma TxPacket_spec p d ts :
  64 + Z.of_nat (length d) ≤ out_elen p →
  ∃ b p', TxPacket p d ts = Some (b, p') ∧ same_in p p' ∧
    (sync_ p = true → sent p' = sent p ++ [(ts, d)]).
Proof.
  intros Hlen. unfold TxPacket. destruct ((room p =? 0)%nat && negb (sync_ p)) eqn:Hr.
  - exists false, p. split_and!; [done|by repeat split|]. intros Hs. rewrite Hs in Hr. by rewrite andb_false_r in Hr.
  - destruct (Z.ltb_spec (out_elen p) (64 + Z.of_nat (length d))); [lia|].
    exists true, (transmit p ts d). by split_and!; [|repeat split|].
Qed.

(** What forwarding changes: the outgoing side of the ports. *)
Record forwarded s s' : Prop := {
  fw_ports : Forall2 same_in (ports_ s) (ports_ s');
  fw_config : config_ s' = config_ s;
  fw_queue : event_queue_ s' = event_queue_ s;
  fw_engine : primitive_engine_ s' = primitive_engine_ s;
  fw_ts : cur_ts_ s' = cur_ts_ s;
  fw_dropped : pkts_dropped_ s' = pkts_dropped_ s;
}.

Lemma forwarded_refl s : forwarded s s.
Proof. by split. Qed.

Lemma forwarded_trans s1 s2 s3 : forwarded s1 s2 → forwarded s2 s3 → forwarded s1 s3.
Proof.
  intros [] []. split; try congruence. by etrans.
Qed.

Definition fits_ports s (d : bytes) : Prop :=
  Forall (λ p, 64 + Z.of_nat (length d) ≤ out_elen p) (ports_ s).

Lemma forwarded_fits s s' d : forwarded s s' → fits_ports s d → fits_ports s' d.
Proof.
  intros [Hp _ _ _ _ _]. unfold fits_ports. induction Hp as [|p p' l l' Hpp Hl IH]; [done|].
  rewrite !Forall_cons. destruct Hpp as (_&_&_&_&_&->). naive_solver.
Qed.

Lemma ForwardPacket_spec s d dst :
  fits_ports s d →
  ∃ s', ForwardPacket s d dst = Some s' ∧ forwarded s s' ∧
    ∀ i p, ports_ s !! i = Some p → sync_ p = true →
      ∃ p', ports_ s' !! i = Some p' ∧
        sent p' = sent p ++ (if decide (dst = Z.of_nat i) then [(cur_ts_ s, d)] else []).
Proof.
  intros Hfit. unfold ForwardPacket.
  destruct (Z.ltb_spec dst 0) as [Hneg|Hpos].
  { exists s. split_and!; [done|apply forwarded_refl|]. intros i p Hi _. exists p.
    rewrite decide_False by lia. by rewrite app_nil_r. }
  destruct (ports_ s !! Z.to_nat dst) as [p|] eqn:Hp.
  2: { exists s. split_and!; [done|apply forwarded_refl|]. intros i p Hi _. exists p.
       rewrite decide_False; [by rewrite app_nil_r|]. intros ->. rewrite Nat2Z.id in Hp. congruence. }
  destruct (TxPacket_spec p d (cur_ts_ s)) as (b & p' & -> & Hsame & Hsent).
  { exact (Forall_lookup_1 _ (ports_ s) _ _ Hfit Hp). }
  cbn [mbind option_bind]. eexists. split; [done|]. split.
  - split; simpl; auto. rewrite <- (list_insert_id (ports_ s) (Z.to_nat dst) p) at 1 by done.
    by apply Forall2_insert.
  - intros i q Hi Hs. simpl. destruct (decide (dst = Z.of_nat i)) as [->|Hne].
    + rewrite Nat2Z.id in *. exists p'. rewrite list_lookup_insert_eq by (by eapply lookup_lt_Some).
      rewrite Hp in Hi. injection Hi as <-. split; [done|]. by apply Hsent.
    + exists q. rewrite list_lookup_insert_ne by lia. by rewrite app_nil_r.
Qed.

(** Copies of [i] among the destinations. *)
Definition copies (i : nat) (dsts : list Z) : nat := length (filter (λ x, x = Z.of_nat i) dsts).

Lemma forward_all_spec d dsts : ∀ s,
  fits_ports s d →
  ∃ s', forward_all s d dsts = Some s' ∧ forwarded s s' ∧
    ∀ i p, ports_ s !! i = Some p → sync_ p = true →
      ∃ p', ports_ s' !! i = Some p' ∧ sent p' = sent p ++ replicate (copies i dsts) (cur_ts_ s, d).
Proof.
  induction dsts as [|dst dsts IH]; intros s Hfit; simpl.
  { exists s. split_and!; [done|apply forwarded_refl|]. intros i p Hi _. exists p. by rewrite app_nil_r. }
  destruct (ForwardPacket_spec s d dst Hfit) as (s1 & -> & Hf1 & Hs1). cbn [mbind option_bind].
  destruct (IH s1) as (s2 & -> & Hf2 & Hs2); [by eapply forwarded_fits|].
  exists s2. split; [done|]. split; [by eapply forwarded_trans|]. intros i p Hi Hs.
  destruct (Hs1 i p Hi Hs) as (p1 & Hi1 & Hsent1).
  destruct (Hs2 i p1 Hi1) as (p2 & Hi2 & Hsent2).
  { destruct (Forall2_lookup_l _ _ _ _ _ (fw_ports _ _ Hf1) Hi) as (q & Hq & (_&_&Hsq&_)). congruence. }
  exists p2. split; [done|]. rewrite Hsent2, Hsent1, <- app_assoc, (fw_ts _ _ Hf1). f_equal.
  unfold copies. rewrite filter_cons. by case_decide.
Qed.

(** ** The invariant *)

Definition frame_fits (limit : nat) (d : bytes) : Prop := packet_ok d ∧ (length d ≤ limit)%nat.

(** A port between polls, with entries that hold whatever the switch may send. *)
Record port_ok (limit : nat) p : Prop := {
  pk_rx : rx_ p = None;
  pk_elen : 64 + Z.of_nat (max_response `max` limit) ≤ out_elen p;
  pk_in : Forall (frame_fits limit) (packets (in_queue p));
}.

Record good (limit : nat) s : Prop := {
  gd_engine : wf_engine (primitive_engine_ s);
  gd_events : Forall (λ ev, frame_fits limit (data ev)) (event_queue_ s);
  gd_ports : Forall (port_ok limit) (ports_ s);
}.

Lemma port_ok_same limit l l' : Forall2 same_in l l' → Forall (port_ok limit) l → Forall (port_ok limit) l'.
Proof.
  induction 1 as [|p p' l l' (Hq & Hr & _ & _ & _ & He) _ IH]; [done|].
  rewrite !Forall_cons. intros [[] ?]. split; [|auto]. split; rewrite ?Hq, ?Hr, ?He; done.
Qed.

Lemma good_forwarded limit s s' : forwarded s s' → good limit s → good limit s'.
Proof.
  intros [Hp _ Hq He _ _] []. split; rewrite ?He, ?Hq; eauto using port_ok_same.
Qed.

(** Everything but the engine, the counters and the outgoing side stays. *)
Record kept s s' : Prop := {
  kp_ports : Forall2 same_in (ports_ s) (ports_ s');
  kp_config : config_ s' = config_ s;
  kp_queue : event_queue_ s' = event_queue_ s;
  kp_ts : cur_ts_ s' = cur_ts_ s;
}.

Lemma good_fits limit s d :
  good limit s → (length d ≤ max_response `max` limit)%nat → fits_ports s d.
Proof.
  intros [_ _ Hp] Hd. eapply Forall_impl; [exact Hp|]. intros p [_ He _]. simpl. lia.
Qed.

Lemma process_event_spec limit s ev :
  good limit s → frame_fits limit (data ev) →
  ∃ s', process_event s ev = Some s' ∧ good limit s' ∧ kept s s'.
Proof.
  intros Hg [Hok Hlen]. unfold process_event. cbv zeta. simpl.
  destruct (HandlePacket_handled (primitive_engine_ s) (data ev) (Z.of_nat (ingress_port ev)) (cur_ts_ s / 1000))
    as (d & pkt & e & -> & Hwf & _ & _ & Hplen); [apply Hg|done|]. cbn [mbind option_bind].
  match goal with |- context [forward_all ?s1 pkt _] => set (sx := s1) end.
  match goal with |- context [forward_all sx pkt ?ds] => set (dsts := ds) end.
  assert (good limit sx) as Hgx by (unfold sx; destruct (bool_decide _); destruct Hg; by split).
  destruct (forward_all_spec pkt dsts sx) as (s' & -> & Hf & _).
  { eapply good_fits; [exact Hgx|]. lia. }
  exists s'. split; [done|]. split; [by eapply good_forwarded|].
  destruct Hf as [Hp Hc Hq _ Ht _]. unfold sx in *.
  destruct (bool_decide _); split; simpl in *; done.
Qed.

Lemma good_queue limit s q :
  good limit s → Forall (λ ev, frame_fits limit (data ev)) q → good limit (set_queue s q).
Proof. intros [] ?. by split. Qed.

Section loops.
Context (pop : list PacketEvent → option (PacketEvent * list PacketEvent)) `{!PriorityQueue pop}.

(** What [ProcessEvents] does: it takes out exactly the events that are due. *)
Lemma process_loop_spec limit fuel : ∀ s,
  good limit s →
  ∃ s' done, process_loop pop fuel s = Some (s', done) ∧ good limit s' ∧
    event_queue_ s ≡ₚ done ++ event_queue_ s' ∧ Forall2 same_in (ports_ s) (ports_ s') ∧
    config_ s' = config_ s ∧ cur_ts_ s' = cur_ts_ s ∧
    Forall (λ ev, timestamp ev ≤ cur_ts_ s) done ∧
    ((length (event_queue_ s) ≤ fuel)%nat → Forall (λ ev, cur_ts_ s < timestamp ev) (event_queue_ s')).
Proof.
  induction fuel as [|fuel IH]; intros s Hg; simpl.
  { exists s, []. split_and!; try done. intros Hl. destruct (event_queue_ s); [done|simpl in Hl; lia]. }
  pose proof (pop_spec (pop := pop) (event_queue_ s)) as Hpop.
  destruct (pop (event_queue_ s)) as [[ev q]|].
  2: { exists s, []. rewrite Hpop. by split_and!. }
  destruct Hpop as [Hperm Hmin]. pose proof (gd_events _ _ Hg) as Hev. rewrite Hperm in Hev.
  apply Forall_cons in Hev as [Hfit Hq].
  destruct (Z.ltb_spec (cur_ts_ s) (timestamp ev)) as [Hlt|Hge].
  { exists s, []. split_and!; try done. intros _. rewrite Hperm. constructor; [done|].
    eapply Forall_impl; [exact Hmin|]. simpl. intros. lia. }
  destruct (process_event_spec limit (set_queue s q) ev) as (s1 & -> & Hg1 & [Hp1 Hc1 Hq1 Ht1]);
    [by apply good_queue|done|]. cbn [mbind option_bind].
  destruct (IH s1 Hg1) as (s2 & done & -> & Hg2 & Hq2 & Hp2 & Hc2 & Ht2 & Hdone & Hrest).
  cbn [mbind option_bind]. exists s2, (ev :: done). simpl in *.
  rewrite Hq1 in Hq2, Hrest. rewrite Ht1 in *.
  split_and!; auto; try congruence.
  - rewrite Hperm, Hq2. done.
  - by etrans.
  - intros Hl. apply Hrest. rewrite Hperm in Hl. simpl in Hl. lia.
Qed.

(** ** Polling *)

(** One port drained: packets move from its queue to the event queue. *)
Record drained s s' : Prop := {
  dr_new : ∃ new, event_queue_ s' = new ++ event_queue_ s ∧
             Forall (λ ev, timestamp ev = u64 (cur_ts_ s + latency_ps (config_ s))) new;
  dr_backlog : backlog s ≡ₚ backlog s';
  dr_config : config_ s' = config_ s;
  dr_ts : cur_ts_ s' = cur_ts_ s;
  dr_ports : length (ports_ s') = length (ports_ s);
}.

Lemma drained_refl s : drained s s.
Proof. split; auto. by exists []. Qed.

Lemma drained_trans s1 s2 s3 : drained s1 s2 → drained s2 s3 → drained s1 s3.
Proof.
  intros [(n1 & Hq1 & Hn1) Hb1 Hc1 Ht1 Hp1] [(n2 & Hq2 & Hn2) Hb2 Hc2 Ht2 Hp2].
  split; try congruence; [|by etrans].
  exists (n2 ++ n1). rewrite Hq2, Hq1, app_assoc. split; [done|].
  rewrite Hc1, Ht1 in Hn2. by apply Forall_app.
Qed.

(** Taking what is not a packet. *)
Lemma drained_port i s p p' :
  ports_ s !! i = Some p → packets (in_queue p) = packets (in_queue p') →
  drained s (set_ports s (<[i := p']> (ports_ s))).
Proof.
  intros Hi Hq. split; simpl; auto; [by exists []| |by rewrite length_insert].
  unfold backlog. simpl. by rewrite (port_packets_insert (ports_ s) 0 i p p' [] Hi Hq).
Qed.

(** Taking a packet. *)
Lemma drained_packet i s p p' d n :
  ports_ s !! i = Some p → packets (in_queue p) = d :: packets (in_queue p') →
  drained s (set_ports (SchedulePacket (set_counters s (pkts_processed_ s) (pkts_dropped_ s) n) i d)
                 (<[i := p']> (ports_ s))).
Proof.
  intros Hi Hq. split; simpl; auto; [by eexists [_]; split; [|repeat constructor]| |by rewrite length_insert].
  unfold backlog. simpl. rewrite (port_packets_insert (ports_ s) 0 i p p' [d] Hi Hq). simpl.
  rewrite <- Permutation_middle. done.
Qed.

Lemma good_port limit s i p :
  good limit s → port_ok limit p → good limit (set_ports s (<[i := p]> (ports_ s))).
Proof. intros [] ?. split; simpl; auto. by apply Forall_insert. Qed.

(** One attempt to receive. *)
Lemma RxPacket_spec limit p ts :
  port_ok limit p →
  let '(res, p') := RxPacket p ts in
  match rx_ p' with
  | Some d => res = kRxPollSuccess ∧ packets (in_queue p) = d :: packets (in_queue p') ∧
              frame_fits limit d ∧ (length (in_queue p') < length (in_queue p))%nat
  | None => res ≠ kRxPollSuccess ∧ packets (in_queue p) = packets (in_queue p')
  end ∧ port_ok limit (RxDone p').
Proof.
  intros [Hrx He Hin]. unfold RxPacket. rewrite Hrx.
  destruct (in_queue p) as [|[t m] q] eqn:Hq.
  { rewrite Hrx, Hq. split; [done|]. split; simpl; rewrite ?Hq; done. }
  simpl. destruct (if_sync p && (ts <? t)); simpl.
  { split; [done|]. by split. }
  destruct m as [d| | |ty]; simpl.
  - simpl in Hin. apply Forall_cons in Hin as [Hd Hin]. split; [by split_and!; [| | |lia]|by split].
  - split; [done|by split].
  - rewrite ?Hrx. split; [done|by split].
  - split; [done|by split].
Qed.

Lemma RxDone_id p : rx_ p = None → RxDone p = p.
Proof. destruct p; simpl. by intros ->. Qed.

Lemma drain_spec limit fuel i : ∀ s,
  good limit s → good limit (drain fuel s i) ∧ drained s (drain fuel s i).
Proof.
  induction fuel as [|fuel IH]; intros s Hg; cbn [drain]; [auto using drained_refl|].
  destruct (ports_ s !! i) as [p|] eqn:Hi; [|auto using drained_refl].
  pose proof (RxPacket_spec limit p (cur_ts_ s) (Forall_lookup_1 _ _ _ _ (gd_ports _ _ Hg) Hi)) as Hrx.
  destruct (RxPacket p (cur_ts_ s)) as [res p'] eqn:Hp. destruct Hrx as [Hrx Hok].
  destruct (rx_ p') as [d|] eqn:Hd.
  - destruct Hrx as (-> & Hq & Hfit & _).
    match goal with |- good _ (drain _ ?sx _) ∧ _ => set (s1 := sx) end.
    assert (s1 = set_ports (SchedulePacket (set_counters s (pkts_processed_ s) (pkts_dropped_ s)
                   (u64 (pkts_queued_ s + 1))) i d) (<[i := RxDone p']> (ports_ s))) as Hs1.
    { unfold s1, set_ports. simpl. by rewrite list_insert_insert_eq. }
    assert (drained s s1) as Hd1 by (rewrite Hs1; by eapply drained_packet).
    assert (good limit s1) as Hg1.
    { rewrite Hs1. destruct Hg as [He Hev Hps]. split; simpl; [done|by constructor|by apply Forall_insert]. }
    destruct (IH s1 Hg1) as [Hg2 Hd2]. split; [done|]. by eapply drained_trans.
  - destruct Hrx as [Hres Hq]. rewrite RxDone_id in Hok by done.
    assert (good limit (set_ports s (<[i := p']> (ports_ s))) ∧
            drained s (set_ports s (<[i := p']> (ports_ s)))) as Hx
      by (split; [by apply good_port|by eapply drained_port]).
    by destruct res.
Qed.

Lemma PollPorts_spec limit s : good limit s → good limit (PollPorts s) ∧ drained s (PollPorts s).
Proof.
  unfold PollPorts. generalize (seq 0 (length (ports_ s))). intros l. revert s.
  induction l as [|i l IH]; intros s Hg; simpl; [auto using drained_refl|].
  destruct (drain_spec limit (S (default 0%nat ((λ p, length (in_queue p)) <$> ports_ s !! i))) i s Hg) as [Hg1 Hd1].
  destruct (IH _ Hg1) as [Hg2 Hd2]. split; [done|]. by eapply drained_trans.
Qed.

(** The fuel of [drain_port] is enough: more does not change the result. *)
Lemma drain_fuel limit i fuel : ∀ fuel' s,
  good limit s → (∀ p, ports_ s !! i = Some p → (length (in_queue p) < fuel)%nat) → (fuel ≤ fuel')%nat →
  drain fuel' s i = drain fuel s i.
Proof.
  induction fuel as [|fuel IH]; intros [|fuel'] s Hg Hf Hle; try lia; try done.
  - cbn [drain]. destruct (ports_ s !! i) as [p|]; [|done]. by pose proof (Hf p eq_refl); lia.
  - cbn [drain]. destruct (ports_ s !! i) as [p|] eqn:Hi; [|done].
    pose proof (RxPacket_spec limit p (cur_ts_ s) (Forall_lookup_1 _ _ _ _ (gd_ports _ _ Hg) Hi)) as Hrx.
    destruct (RxPacket p (cur_ts_ s)) as [res p'] eqn:Hp. destruct Hrx as [Hrx Hok].
    destruct (rx_ p') as [d|]; [|by destruct res]. destruct Hrx as (-> & Hq & Hfit & Hl).
    assert (i < length (ports_ s))%nat by (by eapply lookup_lt_Some).
    apply IH; [| |lia].
    + destruct Hg as [He Hev Hps]. split; simpl; [done|by constructor|].
      rewrite list_insert_insert_eq. by apply Forall_insert.
    + intros q. simpl. rewrite list_insert_insert_eq, list_lookup_insert_eq by done. intros [= <-].
      specialize (Hf p eq_refl). simpl. lia.
Qed.

(** ** Passes *)

Definition timely s : Prop := Forall (λ ev, cur_ts_ s ≤ timestamp ev) (event_queue_ s).

Lemma latency_nonneg cfg : 0 ≤ latency_ps cfg.
Proof. unfold latency_ps. pose proof (wrap_fits 64 (u64 (pipeline_stages cfg * stage_latency_ns cfg) * 1000)). unfold fits in *. lia. Qed.

Lemma min_ts_le s : Forall (λ ev, min_ts pop s ≤ timestamp ev) (event_queue_ s).
Proof.
  unfold min_ts. pose proof (pop_spec (pop := pop) (event_queue_ s)) as Hpop.
  destruct (pop (event_queue_ s)) as [[ev q]|]; [|by rewrite Hpop].
  destruct Hpop as [-> Hmin]. set (t := foldl _ _ _).
  assert ((if timestamp ev <? t then timestamp ev else t) ≤ timestamp ev) as Hle by (destruct (Z.ltb_spec (timestamp ev) t); lia).
  constructor; [done|]. eapply Forall_impl; [exact Hmin|]. simpl. intros. lia.
Qed.

Lemma timely_drained s s' :
  drained s s' → timely s → cur_ts_ s + latency_ps (config_ s) < 2 ^ 64 → 0 ≤ cur_ts_ s → timely s'.
Proof.
  intros [(new & Hq & Hnew) _ _ Ht _] Htm Hlat Hpos. unfold timely. rewrite Hq, Ht. apply Forall_app. split; [|done].
  eapply Forall_impl; [exact Hnew|]. intros ev ->. pose proof (latency_nonneg (config_ s)).
  rewrite wrap_id; [lia|]. unfold fits. lia.
Qed.

Lemma pass_spec limit s :
  good limit s → 0 ≤ cur_ts_ s →
  ∃ s' done, pass pop s = Some (s', done) ∧ good limit s' ∧
    backlog s ≡ₚ (event_packet <$> done) ++ backlog s' ∧
    config_ s' = config_ s ∧ cur_ts_ s ≤ cur_ts_ s' ∧ length (ports_ s') = length (ports_ s) ∧
    (timely s → cur_ts_ s + latency_ps (config_ s) < 2 ^ 64 →
       timely s' ∧ Forall (λ ev, timestamp ev = cur_ts_ s) done).
Proof.
  intros Hg Hpos. unfold pass. destruct (PollPorts_spec limit s Hg) as [Hg1 Hd].
  pose proof Hd as [_ Hb Hc Ht Hl].
  destruct (process_loop_spec limit (length (event_queue_ (PollPorts s))) (PollPorts s) Hg1)
    as (s2 & done & Hrun & Hg2 & Hq & Hp & Hc2 & Ht2 & Hdue & Hrest).
  unfold ProcessEvents. rewrite Hrun. cbn [mbind option_bind]. specialize (Hrest (le_n _)).
  eexists _, done. split; [done|]. set (t := min_ts pop s2).
  assert (∀ b : bool, good limit (if b then set_ts s2 t else s2)) as Hgt
    by (intros []; [destruct Hg2; by split|done]).
  assert (∀ b : bool, event_queue_ (if b then set_ts s2 t else s2) = event_queue_ s2 ∧
            ports_ (if b then set_ts s2 t else s2) = ports_ s2 ∧
            config_ (if b then set_ts s2 t else s2) = config_ s2) as Hsame by (by intros []).
  destruct (Hsame ((cur_ts_ s2 <? t) && (t <? base.UINT64_MAX))) as (Hqe & Hpe & Hce).
  split_and!; auto.
  - rewrite Hb. unfold backlog. rewrite Hqe, Hpe, Hq, fmap_app, <- app_assoc.
    by rewrite (port_packets_same _ 0 _ Hp).
  - congruence.
  - destruct (Z.ltb_spec (cur_ts_ s2) t); simpl; [destruct (_ <? base.UINT64_MAX); simpl|]; lia.
  - rewrite Hpe, <- Hl. symmetry. by eapply Forall2_length.
  - intros Htm Hlat. pose proof (timely_drained s (PollPorts s) Hd Htm Hlat Hpos) as Htm1.
    unfold timely in *. rewrite Hq in Htm1. apply Forall_app in Htm1 as [Hdone Hleft]. split.
    + rewrite Hqe. pose proof (min_ts_le s2) as Hmin. fold t in Hmin.
      destruct (_ && _); simpl; [done|]. eapply Forall_impl; [exact Hrest|]. simpl. intros. lia.
    + rewrite Forall_forall in *. intros ev Hev. specialize (Hdone ev Hev). specialize (Hdue ev Hev).
      simpl in *. lia.
Qed.

(** ** Runs *)

Definition inputs := list (list (Z * NetMsg) * nat).

(** The packets the peers add, each with its port. *)
Fixpoint arrived (k : nat) (l : inputs) : list (nat * bytes) :=
  match l with [] => [] | a :: l => (pair k <$> packets a.1) ++ arrived (S k) l end.

Definition input_ok (limit n : nat) (l : inputs) : Prop :=
  length l = n ∧ Forall (λ a, Forall (frame_fits limit) (packets a.1)) l.

Lemma packets_app q q' : packets (q ++ q') = packets q ++ packets q'.
Proof. apply omap_app. Qed.

Lemma port_packets_arrive l : ∀ k a,
  length a = length l → port_packets k (zip_with arrive l a) ≡ₚ arrived k a ++ port_packets k l.
Proof.
  induction l as [|p l IH]; intros k [|x a] Hl; simpl in *; try done.
  rewrite packets_app, fmap_app, IH by lia. rewrite (Permutation_app_comm (pair k <$> packets (in_queue p))).
  rewrite <- !app_assoc. f_equiv. rewrite !app_assoc. f_equiv. apply Permutation_app_comm.
Qed.

Lemma arrive_good limit s a :
  good limit s → input_ok limit (length (ports_ s)) a →
  good limit (set_ports s (zip_with arrive (ports_ s) a)).
Proof.
  intros [He Hev Hp] [Hl Ha]. split; simpl; auto. clear He Hev. revert a Hl Ha.
  induction Hp as [|p l [Hrx Hlen Hin] _ IH]; intros [|x a] Hl Ha; simpl in *; try done.
  apply Forall_cons in Ha as [Hx Ha]. constructor; [|apply IH; auto].
  split; simpl; auto. rewrite packets_app. by apply Forall_app.
Qed.

Lemma snd_tagged {A B} (c : A) (l : list B) : ((λ x, (c, x)) <$> l).*2 = l.
Proof. induction l as [|x l IH]; [done|]. simpl. by f_equal. Qed.

Lemma Run_spec limit ins : ∀ s,
  good limit s → 0 ≤ cur_ts_ s → Forall (input_ok limit (length (ports_ s))) ins →
  ∃ s' log, Run pop s ins = Some (s', log) ∧ good limit s' ∧ config_ s' = config_ s ∧
    cur_ts_ s ≤ cur_ts_ s' ∧
    concat (arrived 0 <$> ins) ++ backlog s ≡ₚ (event_packet <$> log.*2) ++ backlog s' ∧
    (timely s → cur_ts_ s' + latency_ps (config_ s) < 2 ^ 64 → Forall (λ x, x.1 = timestamp x.2) log).
Proof.
  induction ins as [|a ins IH]; intros s Hg Hpos Hins.
  { exists s, []. cbn [Run]. split_and!; auto. lia. }
  apply Forall_cons in Hins as [Ha Hins]. cbn [Run].
  set (s0 := set_ports s (zip_with arrive (ports_ s) a)).
  destruct (pass_spec limit s0) as (s1 & dn & -> & Hg1 & Hb1 & Hc1 & Ht1 & Hl1 & Htm1);
    [by apply arrive_good|done|]. cbn [mbind option_bind].
  assert (length (ports_ s1) = length (ports_ s)) as Hl.
  { rewrite Hl1. simpl. rewrite length_zip_with. destruct Ha as [-> _]. lia. }
  destruct (IH s1) as (s2 & log & -> & Hg2 & Hc2 & Ht2 & Hb2 & Htm2); [done|simpl in Ht1; lia|by rewrite Hl|].
  cbn [mbind option_bind]. eexists _, _. split; [done|]. simpl in Ht1.
  split; [done|]. split; [by rewrite Hc2, Hc1|]. split; [lia|]. split.
  - rewrite fmap_app, snd_tagged, fmap_app, fmap_cons. cbn [concat].
    assert (backlog s0 ≡ₚ arrived 0 a ++ backlog s) as Hb0.
    { unfold backlog, s0. simpl. rewrite port_packets_arrive by apply Ha.
      rewrite !app_assoc. f_equiv. apply Permutation_app_comm. }
    rewrite <- !app_assoc, <- Hb2.
    rewrite (Permutation_app_swap_app (event_packet <$> dn)), <- Hb1, Hb0.
    apply Permutation_app_swap_app.
  - intros Htm Hlat. destruct Htm1 as [Htm' Hdone]; [done|simpl; lia|].
    apply Forall_app. split; [|apply Htm2; [done|by rewrite Hc1]].
    apply Forall_fmap. eapply Forall_impl; [exact Hdone|]. simpl. intros. congruence.
Qed.

(** C7: the switch does not fail on well-formed packets and never loses one. From a good state,
    if every packet the peers send fits the ports, an HCOP packet has at least one byte of
    payload and a Paxos message carries the value it declares, the run returns; and the packets
    that were in the switch or arrived are exactly, each once, those that were processed and
    those still waiting in it. (An HCOP packet without payload is undefined behaviour, see
    [short_packet_undefined].) *)
Theorem switch_no_loss limit s ins :
  good limit s → 0 ≤ cur_ts_ s → Forall (input_ok limit (length (ports_ s))) ins →
  ∃ s' log, Run pop s ins = Some (s', log) ∧ good limit s' ∧
    concat (arrived 0 <$> ins) ++ backlog s ≡ₚ (event_packet <$> log.*2) ++ backlog s'.
Proof.
  intros Hg Hpos Hins. destruct (Run_spec limit ins s Hg Hpos Hins) as (s' & log & Hr & Hg' & _ & _ & Hb & _).
  by exists s', log.
Qed.

End loops.

(** ** Flooding *)

Lemma copies_nodup i l :
  NoDup l → copies i l = if decide (Z.of_nat i ∈ l) then 1%nat else 0%nat.
Proof.
  unfold copies. induction 1 as [|x l Hx Hl IH]; [done|]. rewrite filter_cons.
  destruct (decide (x = Z.of_nat i)) as [->|Hne]; simpl; rewrite IH.
  - rewrite decide_False, decide_True by set_solver. done.
  - destruct (decide (Z.of_nat i ∈ l)); [rewrite decide_True by set_solver|rewrite decide_False by set_solver]; done.
Qed.

(** a frame that is not HCOP is flooded: every synchronized port but the one it came from
    sends exactly one copy, unchanged, at the current time; the port it came from sends none,
    and the state machines are not touched. *)
Theorem flood_once limit s ev s' i p :
  good limit s → frame_fits limit (data ev) → (14 ≤ length (data ev))%nat →
  hcop.ethertype (data ev) ≠ hcop.kHcopEtherType → process_event s ev = Some s' →
  ports_ s !! i = Some p → sync_ p = true →
  primitive_engine_ s' = primitive_engine_ s ∧
  ∃ p', ports_ s' !! i = Some p' ∧
    sent p' = sent p ++ (if decide (i = ingress_port ev) then [] else [(cur_ts_ s, data ev)]).
Proof.
  intros Hg [_ Hlen] H14 Het Hrun Hi Hs. unfold process_event in Hrun. cbv zeta in Hrun.
  unfold HandlePacket in Hrun. rewrite (proj2 (Nat.ltb_ge _ _)), (proj2 (Z.eqb_neq _ _)) in Hrun by done.
  simpl in Hrun. match type of Hrun with forward_all ?sx _ ?ds = _ => set (s1 := sx) in Hrun; set (dsts := ds) in Hrun end.
  assert (good limit s1) as Hg1 by (destruct Hg; by split).
  destruct (forward_all_spec (data ev) dsts s1) as (s2 & Hr & Hf & Hsent).
  { eapply good_fits; [exact Hg1|]. lia. }
  rewrite Hrun in Hr. injection Hr as <-. split; [apply (fw_engine _ _ Hf)|].
  destruct (Hsent i p Hi Hs) as (p' & Hp' & Hnew). exists p'. split; [done|]. rewrite Hnew. f_equal.
  change dsts with (filter (λ x, x ≠ Z.of_nat (ingress_port ev)) (seqZ 0 (Z.of_nat (length (ports_ s))))).
  rewrite copies_nodup by (apply NoDup_filter, NoDup_seqZ).
  apply lookup_lt_Some in Hi. destruct (decide (i = ingress_port ev)) as [->|Hne].
  - rewrite decide_False; [done|]. intros [? _]%list_elem_of_filter. done.
  - rewrite decide_True; [done|]. apply list_elem_of_filter. rewrite elem_of_seqZ. lia.
Qed.

(** ** An instance, and a run *)

(** The first of the earliest events. *)
Fixpoint first_min (q : list PacketEvent) : option (PacketEvent * list PacketEvent) :=
  match q with
  | [] => None
  | ev :: q =>
      match first_min q with
      | None => Some (ev, [])
      | Some (ev', q') => if timestamp ev' <? timestamp ev then Some (ev', ev :: q') else Some (ev, q)
      end
  end.

#[export] Instance first_min_queue : PriorityQueue first_min.
Proof.
  intros q. induction q as [|ev q IH]; simpl; [done|].
  destruct (first_min q) as [[ev' q']|]; [|by subst].
  destruct IH as [Hp Hm]. destruct (Z.ltb_spec (timestamp ev') (timestamp ev)).
  - split; [rewrite Hp; apply Permutation_swap|]. constructor; [lia|done].
  - split; [done|]. rewrite Hp. constructor; [lia|]. eapply Forall_impl; [exact Hm|]. simpl. intros. lia.
Qed.

Definition demo_port : NetPort := MkPort true true 0 [] None 2048 100 [].

Definition demo_switch : HcopSwitch :=
  MkSwitch (engine.config_ demo_engine) [demo_port; demo_port; demo_port] [] demo_engine 0 0 0 0.

(** A lock request on port 1 at time 500, with synchronization messages around it. *)
Definition demo_ins : list inputs :=
  [[([(500, Sync)], 0%nat); ([(500, Packet (demo_lock 42 1))], 0%nat); ([(500, Sync)], 0%nat)];
   [([(2000000, Sync)], 0%nat); ([(2000000, Sync)], 0%nat); ([(2000000, Sync)], 0%nat)];
   [([], 0%nat); ([], 0%nat); ([], 0%nat)]; [([], 0%nat); ([], 0%nat); ([], 0%nat)]].

Lemma demo_switch_good : good 128 demo_switch.
Proof.
  split; [apply demo_engine_wf|constructor|].
  repeat constructor; vm_compute; intros Hx; discriminate Hx.
Qed.

Lemma demo_ins_ok : Forall (input_ok 128 (length (ports_ demo_switch))) demo_ins.
Proof.
  assert (frame_fits 128 (demo_lock 42 1)) as Hf
    by (split; [apply demo_lock_ok; set_solver|vm_compute; lia]).
  unfold demo_ins, input_ok. repeat (apply Forall_cons; split); try apply Forall_nil; try done;
    (split; [done|]); repeat (apply Forall_cons; split); try apply Forall_nil; simpl;
    repeat (apply Forall_cons; split); try apply Forall_nil; done.
Qed.

(** What the run does: the request is processed 1 us after it arrived, and granted on its
    port alone. *)
Example demo_run :
  match Run first_min demo_switch demo_ins with
  | Some (s, log) => Some (log.*1, map (λ p, (sent p).*1) (ports_ s), cur_ts_ s)
  | None => None
  end = Some ([1000500], [[]; [1000500]; []], 2000000).
Proof. vm_compute. reflexivity. Qed.

Lemma switch_no_loss_witness :
  ∃ s' log, Run first_min demo_switch demo_ins = Some (s', log) ∧ good 128 s' ∧
    concat (arrived 0 <$> demo_ins) ++ backlog demo_switch ≡ₚ (event_packet <$> log.*2) ++ backlog s'.
Proof. apply (switch_no_loss first_min 128); [apply demo_switch_good|by vm_compute|apply demo_ins_ok]. Defined.

Definition demo_arp : bytes := replicate 6 0xFF ++ [7; 8; 9; 10; 11; 12] ++ [0x08; 0x06; 1; 2; 3].

Lemma flood_once_witness :
  ∃ s', process_event demo_switch (MkEvent 0 1 demo_arp) = Some s' ∧
    primitive_engine_ s' = primitive_engine_ demo_switch ∧
    ∃ p', ports_ s' !! 0%nat = Some p' ∧ sent p' = [] ++ [(0, demo_arp)].
Proof.
  assert (frame_fits 128 demo_arp) as Hf.
  { split; [|vm_compute; lia].
    split; [by apply is_bytesb_sound; vm_compute|vm_compute; lia|intros Hty; by vm_compute in Hty]. }
  destruct (process_event demo_switch (MkEvent 0 1 demo_arp)) as [s'|] eqn:Hr; [|vm_compute in Hr; discriminate Hr].
  exists s'. split; [exact eq_refl|].
  apply (flood_once 128 demo_switch (MkEvent 0 1 demo_arp) s' 0 demo_port);
    [apply demo_switch_good|exact Hf|vm_compute; lia|by vm_compute|exact Hr|by vm_compute|by vm_compute].
Defined.

End hswitch_inv.
