(* ===== verification/HcopSwitchTime.v ===== *)
(** * The HCOP switch on time

    Over HcopSwitchInv.v, for ports that synchronize: time never runs past a message that is
    still to come, so a packet is taken at the very time it arrives, and processed one pipeline
    latency later. *)

From S2P Require Import Prelude.
From S2P Require Import HcopProto.
From S2P Require Import BaseIf.
From S2P Require Import SwitchConfig.
From S2P Require Import PrimitiveEngine.
From S2P Require Import EngineSafety.
From S2P Require Import HcopSwitch.
From S2P Require Import HcopSwitchInv.

Module hswitch_time.
Import switch_config engine hswitch hswitch_inv.

Implicit Types (s : HcopSwitch) (p : NetPort) (ev : PacketEvent).

(** ** Packets with the time they arrive *)

Definition timed_packets (q : list (Z * NetMsg)) : list (Z * bytes) :=
  omap (λ m, match m.2 with Packet d => Some (m.1, d) | _ => None end) q.

(** Those that wait on the ports from number [k] on, and those the peers add. *)
Fixpoint port_timed (k : nat) (l : list NetPort) : list (nat * (Z * bytes)) :=
  match l with
  | [] => []
  | p :: l => (pair k <$> timed_packets (in_queue p)) ++ port_timed (S k) l
  end.
Fixpoint arrived_timed (k : nat) (l : inputs) : list (nat * (Z * bytes)) :=
  match l with [] => [] | a :: l => (pair k <$> timed_packets a.1) ++ arrived_timed (S k) l end.

(** The latency of the pipeline in ps. *)
Definition pipeline_ps (cfg : SwitchConfig) : Z := pipeline_stages cfg * stage_latency_ns cfg * 1000.

(** A packet on the event queue arrived one latency before it is due. *)
Definition event_timed (lat : Z) ev : nat * (Z * bytes) := (ingress_port ev, (timestamp ev - lat, data ev)).

Definition waiting (lat : Z) s : list (nat * (Z * bytes)) :=
  (event_timed lat <$> event_queue_ s) ++ port_timed 0 (ports_ s).

(** ** Ports that synchronize *)

(** The timestamps of a port: the last one seen, then those of the waiting messages. *)
Definition stamps p : list Z := in_timestamp p :: (in_queue p).*1.

Definition plain (m : Z * NetMsg) : Prop := match m.2 with Packet _ | Sync => True | _ => False end.

Record synced p : Prop := {
  sy_sync : sync_ p = true;
  sy_if : if_sync p = true;
  sy_rx : rx_ p = None;
  sy_plain : Forall plain (in_queue p);
}.

(** The messages of a port, with those still to come, are in the order of their timestamps. *)
Definition in_order (F : nat → list Z) (l : list NetPort) : Prop :=
  ∀ i p, l !! i = Some p → StronglySorted Z.le (stamps p ++ F i).

Record clocked (F : nat → list Z) s : Prop := {
  ck_sync : Forall synced (ports_ s);
  ck_order : in_order F (ports_ s);
  ck_time : Forall (λ p, cur_ts_ s ≤ in_timestamp p) (ports_ s);
}.

Lemma sorted_head x y l : StronglySorted Z.le (x :: y :: l) → x ≤ y ∧ StronglySorted Z.le (y :: l) ∧ StronglySorted Z.le (y :: y :: l).
Proof.
  intros [Hs Hx]%StronglySorted_inv. apply Forall_cons in Hx as [Hxy _]. split_and!; [done|done|].
  constructor; [done|]. apply StronglySorted_inv in Hs as [_ Hy]. by constructor.
Qed.

(** One attempt to receive: a packet that is taken arrives now. *)
Lemma RxPacket_timed F p ts :
  synced p → StronglySorted Z.le (stamps p ++ F) → ts ≤ in_timestamp p →
  let '(res, p') := RxPacket p ts in
  match rx_ p' with
  | Some d => res = kRxPollSuccess ∧ timed_packets (in_queue p) = (ts, d) :: timed_packets (in_queue p')
  | None => timed_packets (in_queue p) = timed_packets (in_queue p')
  end ∧ synced (RxDone p') ∧ StronglySorted Z.le (stamps p' ++ F) ∧ ts ≤ in_timestamp p'.
Proof.
  intros [Hs Hi Hr Hp] Ho Ht. unfold RxPacket. rewrite Hr.
  destruct (in_queue p) as [|[t m] q] eqn:Hq; [by rewrite Hr, Hq; split; [|split; [split; simpl; rewrite ?Hq|]]|].
  unfold stamps in Ho. rewrite Hq in Ho. cbn in Ho. destruct (sorted_head _ _ _ Ho) as (Hle & Ho1 & Ho2).
  apply Forall_cons in Hp as [Hm Hp]. cbn [if_sync set_in]. rewrite Hi. cbn [andb].
  destruct (Z.ltb_spec ts t) as [Hlt|Hge].
  { cbn. split; [done|]. split_and!; [|done|lia]. split; try done. cbn. by constructor. }
  assert (t = ts) as -> by lia. destruct m as [d| | |ty]; [| |done|done]; cbn; (split; [done|]); (split_and!; [by split|done|lia]).
Qed.

Lemma port_timed_insert l : ∀ k i p p' x,
  l !! i = Some p → timed_packets (in_queue p) = x ++ timed_packets (in_queue p') →
  port_timed k l ≡ₚ (pair (k + i)%nat <$> x) ++ port_timed k (<[i := p']> l).
Proof.
  induction l as [|q l IH]; intros k [|i] p p' x Hi Hx; simpl in *; [done|done| |].
  - injection Hi as <-. rewrite Hx, fmap_app, <- app_assoc, Nat.add_0_r. done.
  - rewrite (IH (S k) i p p' x Hi Hx), Nat.add_succ_r. simpl.
    rewrite !app_assoc. f_equiv. apply Permutation_app_comm.
Qed.

Lemma clocked_port F s i p' s' :
  clocked F s → synced p' → StronglySorted Z.le (stamps p' ++ F i) → cur_ts_ s ≤ in_timestamp p' →
  ports_ s' = <[i := p']> (ports_ s) → cur_ts_ s' = cur_ts_ s → clocked F s'.
Proof.
  intros [H1 H2 H3] Hs Ho Ht Hp Hc. constructor; rewrite ?Hp, ?Hc; [by apply Forall_insert| |by apply Forall_insert].
  intros j q Hj. destruct (decide (j = i)) as [->|Hne]; [|rewrite list_lookup_insert_ne in Hj by done; by apply H2].
  apply list_lookup_insert_Some in Hj as [(_ & -> & _)|[? _]]; done.
Qed.

(** ** Polling *)

Definition lat_ok (s : HcopSwitch) (lat : Z) : Prop := latency_ps (config_ s) = lat ∧ 0 ≤ cur_ts_ s ∧ 0 ≤ lat ∧ cur_ts_ s + lat < 2 ^ 64.

Record polled (F : nat → list Z) (lat : Z) s s' : Prop := {
  pl_clocked : clocked F s';
  pl_waiting : waiting lat s ≡ₚ waiting lat s';
  pl_ts : cur_ts_ s' = cur_ts_ s;
  pl_config : config_ s' = config_ s;
}.

Lemma polled_refl F lat s : clocked F s → polled F lat s s.
Proof. by split. Qed.

Lemma polled_trans F lat s1 s2 s3 : polled F lat s1 s2 → polled F lat s2 s3 → polled F lat s1 s3.
Proof. intros [] []. split; [done|by etrans|congruence|congruence]. Qed.

Lemma drain_timed F lat fuel i : ∀ s, clocked F s → lat_ok s lat → polled F lat s (drain fuel s i).
Proof.
  induction fuel as [|fuel IH]; intros s Hc Hl; cbn [drain]; [by apply polled_refl|].
  destruct (ports_ s !! i) as [p|] eqn:Hi; [|by apply polled_refl]. pose proof Hc as [H1 H2 H3].
  pose proof (RxPacket_timed (F i) p (cur_ts_ s) (Forall_lookup_1 _ _ _ _ H1 Hi) (H2 i p Hi) (Forall_lookup_1 _ _ _ _ H3 Hi)) as Hrx.
  destruct (RxPacket p (cur_ts_ s)) as [res p'] eqn:Hp. destruct Hrx as (Hrx & Hs & Ho & Ht). destruct (rx_ p') as [d|] eqn:Hd.
  - destruct Hrx as [-> Hq]. match goal with |- polled _ _ _ (drain _ ?sx _) => set (s1 := sx) end.
    assert (polled F lat s s1) as H; [|eapply polled_trans; [exact H|]; apply IH; [apply H|by destruct Hl as (? & ? & ? & ?)]].
    destruct Hl as (Hlat & Hpos & Hl0 & H64). split; try done.
    + eapply (clocked_port F s i (RxDone p')); try done. unfold s1. cbn. by rewrite list_insert_insert_eq.
    + unfold waiting, s1. cbn. rewrite list_insert_insert_eq. rewrite (port_timed_insert (ports_ s) 0 i p (RxDone p') [(cur_ts_ s, d)] Hi Hq). cbn.
      rewrite <- Permutation_middle. unfold event_timed at 2. cbn. rewrite Hlat, (wrap_id 64) by (unfold fits; lia). by rewrite Z.add_simpl_r.
  - rewrite RxDone_id in Hs by done. assert (polled F lat s (set_ports s (<[i := p']> (ports_ s)))) as H; [|by destruct res].
    split; try done; [by eapply (clocked_port F s i p')|]. unfold waiting. cbn.
    by rewrite (port_timed_insert (ports_ s) 0 i p p' [] Hi Hrx).
Qed.

Lemma PollPorts_timed F lat s : clocked F s → lat_ok s lat → polled F lat s (PollPorts s).
Proof.
  unfold PollPorts. generalize (seq 0 (length (ports_ s))). intros l. revert s.
  induction l as [|i l IH]; intros s Hc Hl; simpl; [by apply polled_refl|].
  pose proof (drain_timed F lat (S (default 0%nat ((λ p, length (in_queue p)) <$> ports_ s !! i))) i s Hc Hl) as H.
  eapply polled_trans; [exact H|]. apply IH; [apply H|]. destruct H as [_ _ Ht Hg]. unfold lat_ok, drain_port in *. by rewrite Ht, Hg.
Qed.

(** ** Passes *)

Lemma port_timed_same l : ∀ k l', Forall2 same_in l l' → port_timed k l' = port_timed k l.
Proof.
  induction l as [|p l IH]; intros k l' Hl; inversion Hl as [|? p' ? l1 Hp Hl1]; subst; [done|].
  simpl. destruct Hp as [-> _]. by rewrite (IH (S k) l1).
Qed.

(** Sending does not matter, and time may advance up to the timestamps of the ports. *)
Lemma clocked_same F s s' :
  clocked F s → Forall2 same_in (ports_ s) (ports_ s') → (∀ p, p ∈ ports_ s' → cur_ts_ s' ≤ in_timestamp p) → clocked F s'.
Proof.
  intros [H1 H2 H3] Hp Ht.
  assert (∀ i p', ports_ s' !! i = Some p' → ∃ p, ports_ s !! i = Some p ∧ same_in p p') as Hl.
  { intros i p' Hi. destruct (Forall2_lookup_r _ _ _ _ _ Hp Hi) as (p & ? & ?). by exists p. }
  constructor.
  - apply Forall_lookup. intros i p' Hi. destruct (Hl i p' Hi) as (p & Hpi & Hq & Hr & Hs & Hf & _ & _).
    destruct (Forall_lookup_1 _ _ _ _ H1 Hpi). split; congruence.
  - intros i p' Hi. destruct (Hl i p' Hi) as (p & Hpi & Hq & _ & _ & _ & Hts & _). unfold stamps. rewrite Hq, Hts. by apply H2.
  - by apply Forall_forall.
Qed.

Lemma min_ts_ports pop s p : p ∈ ports_ s → sync_ p = true → min_ts pop s ≤ in_timestamp p.
Proof.
  intros Hp Hs. unfold min_ts. set (f := λ (acc : Z) p, if IsSync p && (NextTimestamp p <? acc) then NextTimestamp p else acc).
  assert (∀ acc q, f acc q ≤ acc) as Hf1.
  { intros acc q. unfold f. destruct (IsSync q); cbn; [|lia]. destruct (Z.ltb_spec (NextTimestamp q) acc); lia. }
  assert (∀ l acc, foldl f acc l ≤ acc) as Hle.
  { induction l as [|q l IH]; intros acc; cbn; [lia|]. etrans; [apply IH|]. apply Hf1. }
  assert (∀ acc, f acc p ≤ in_timestamp p) as Hfp.
  { intros acc. unfold f, IsSync, NextTimestamp. rewrite Hs. cbn. destruct (Z.ltb_spec (in_timestamp p) acc); lia. }
  assert (∀ l acc, p ∈ l → foldl f acc l ≤ in_timestamp p) as Hf.
  { induction l as [|q l IH]; intros acc Hin; [by apply elem_of_nil in Hin|]. cbn. apply elem_of_cons in Hin as [<-|Hin]; [|by apply IH].
    etrans; [apply Hle|apply Hfp]. }
  specialize (Hf (ports_ s) base.UINT64_MAX Hp). destruct (pop (event_queue_ s)) as [[ev q]|]; [|done].
  destruct (Z.ltb_spec (timestamp ev) (foldl f base.UINT64_MAX (ports_ s))); lia.
Qed.

Section runs.
Context (pop : list PacketEvent → option (PacketEvent * list PacketEvent)) `{!PriorityQueue pop}.

Lemma pass_timed limit F lat s :
  good limit s → clocked F s → lat_ok s lat → timely s →
  ∃ s' done, pass pop s = Some (s', done) ∧ clocked F s' ∧ waiting lat s ≡ₚ (event_timed lat <$> done) ++ waiting lat s'.
Proof.
  intros Hg Hc Hl Htm. pose proof (PollPorts_timed F lat s Hc Hl) as [Hc1 Hw Ht1 Hg1].
  destruct (PollPorts_spec limit s Hg) as [Hgp _]. unfold pass.
  destruct (process_loop_spec pop limit (length (event_queue_ (PollPorts s))) (PollPorts s) Hgp)
    as (s2 & done & Hrun & Hg2 & Hq & Hp & Hc2 & Ht2 & _). unfold ProcessEvents. rewrite Hrun. cbn [mbind option_bind].
  eexists _, done. split; [done|]. set (t := min_ts pop s2).
  match goal with |- clocked F ?x ∧ _ => set (s3 := x) end.
  assert (ports_ s3 = ports_ s2 ∧ event_queue_ s3 = event_queue_ s2) as [Ep Eq] by (unfold s3; by destruct (_ && _)).
  assert (clocked F s2) as Hc3.
  { eapply clocked_same; [exact Hc1|done|]. intros p Hin. rewrite Ht2. apply list_elem_of_lookup in Hin as [i Hi].
    destruct (Forall2_lookup_r _ _ _ _ _ Hp Hi) as (q & Hqi & _ & _ & _ & _ & -> & _). exact (Forall_lookup_1 _ _ _ _ (ck_time _ _ Hc1) Hqi). }
  split.
  - eapply clocked_same; [exact Hc3|rewrite Ep; apply Forall_Forall2_diag, Forall_true; intros ?; by repeat split|]. rewrite Ep. intros p Hin. pose proof (proj1 (Forall_forall _ _) (ck_time _ _ Hc3) p Hin) as H.
    unfold s3. destruct (_ && _); [|done]. cbn. apply min_ts_ports; [done|]. apply sy_sync. exact (proj1 (Forall_forall _ _) (ck_sync _ _ Hc3) p Hin).
  - rewrite Hw. unfold waiting. rewrite Ep, Eq, Hq, fmap_app, (port_timed_same _ 0 _ Hp), <- app_assoc. done.
Qed.

(** ** Runs *)

(** The timestamps still to arrive at port [i]. *)
Definition future (ins : list inputs) (i : nat) : list Z := concat ((λ a : list (list (Z * NetMsg) * nat), default [] ((λ x, x.1.*1) <$> a !! i)) <$> ins).

Lemma arrive_clocked a ins s :
  length a = length (ports_ s) → Forall (λ x, Forall plain x.1) a → clocked (future (a :: ins)) s →
  clocked (future ins) (set_ports s (zip_with arrive (ports_ s) a)).
Proof.
  intros Hl Ha [H1 H2 H3].
  assert (∀ i p', zip_with arrive (ports_ s) a !! i = Some p' → ∃ p x, ports_ s !! i = Some p ∧ a !! i = Some x ∧ p' = arrive p x) as Hz.
  { intros i p' Hi. rewrite lookup_zip_with in Hi. destruct (ports_ s !! i) as [p|]; [|done]. cbn in Hi. destruct (a !! i) as [x|]; [|done]. cbn in Hi.
    injection Hi as <-. by exists p, x. }
  constructor; cbn [ports_ cur_ts_ set_ports].
  - apply Forall_lookup. intros i p' Hi. destruct (Hz i p' Hi) as (p & x & Hp & Hx & ->). destruct (Forall_lookup_1 _ _ _ _ H1 Hp). split; try done.
    cbn. apply Forall_app. split; [done|]. exact (Forall_lookup_1 _ _ _ _ Ha Hx).
  - intros i p' Hi. destruct (Hz i p' Hi) as (p & x & Hp & Hx & ->). pose proof (H2 i p Hp) as Ho. unfold future in Ho. rewrite fmap_cons in Ho. cbn [concat] in Ho. rewrite Hx in Ho. cbn in Ho.
    unfold stamps, future. cbn. rewrite fmap_app, <- app_assoc. exact Ho.
  - apply Forall_lookup. intros i p' Hi. destruct (Hz i p' Hi) as (p & x & Hp & Hx & ->). exact (Forall_lookup_1 _ _ _ _ H3 Hp).
Qed.

Lemma port_timed_arrive l : ∀ k a,
  length a = length l → port_timed k (zip_with arrive l a) ≡ₚ arrived_timed k a ++ port_timed k l.
Proof.
  induction l as [|p l IH]; intros k [|x a] Hl; simpl in *; try done. unfold timed_packets at 1.
  rewrite omap_app. fold (timed_packets (in_queue p)) (timed_packets x.1).
  rewrite fmap_app, IH by lia. rewrite (Permutation_app_comm (pair k <$> timed_packets (in_queue p))).
  rewrite <- !app_assoc. f_equiv. rewrite !app_assoc. f_equiv. apply Permutation_app_comm.
Qed.

(** A processed packet, with the time of its arrival if the latency was kept. *)
Definition log_timed (lat : Z) (x : Z * PacketEvent) : nat * (Z * bytes) := (ingress_port x.2, (x.1 - lat, data x.2)).

Lemma Run_timed limit lat ins : ∀ s s' log,
  good limit s → 0 ≤ cur_ts_ s → 0 ≤ lat → latency_ps (config_ s) = lat → Forall (input_ok limit (length (ports_ s))) ins →
  Forall (λ a : inputs, Forall (λ x, Forall plain x.1) a) ins → timely s → clocked (future ins) s →
  Run pop s ins = Some (s', log) → cur_ts_ s' + lat < 2 ^ 64 →
  concat (arrived_timed 0 <$> ins) ++ waiting lat s ≡ₚ (log_timed lat <$> log) ++ waiting lat s' ∧ timely s' ∧ clocked (future []) s'.
Proof.
  induction ins as [|a ins IH]; intros s s' log Hg Hpos Hl0 Hlat Hins Hpl Htm Hck Hrun H64; cbn [Run] in Hrun.
  { injection Hrun as <- <-. by split. }
  apply Forall_cons in Hins as [Ha Hins]. apply Forall_cons in Hpl as [Hpa Hpl]. set (s0 := set_ports s (zip_with arrive (ports_ s) a)) in *.
  pose proof (arrive_good limit s a Hg Ha) as Hg0. fold s0 in Hg0.
  destruct (pass_spec pop limit s0 Hg0) as (s1 & dn & Hr & Hg1 & _ & Hc1 & Ht1 & Hl1 & Htm1); [done|]. rewrite Hr in Hrun. cbn [mbind option_bind] in Hrun.
  destruct (Run pop s1 ins) as [[s2 log2]|] eqn:Hr2; [|done]. cbn [mbind option_bind] in Hrun. injection Hrun as <- <-. cbn in Ht1, Hc1.
  assert (length (ports_ s1) = length (ports_ s)) as Hl by (rewrite Hl1; cbn; rewrite length_zip_with; destruct Ha as [-> _]; lia).
  destruct (Run_spec pop limit ins s1 Hg1) as (s2' & log' & Hr2' & _ & _ & Ht2 & _); [lia|by rewrite Hl|]. rewrite Hr2 in Hr2'. injection Hr2' as <- <-.
  destruct Htm1 as [Htm' Hdone]; [done|cbn; rewrite Hlat; lia|].
  destruct (pass_timed limit (future ins) lat s0 Hg0) as (s1' & dn' & Hr' & Hck1 & Hw1);
    [apply arrive_clocked; [apply Ha|done|done]|unfold lat_ok; cbn; split_and!; try done; lia|done|]. rewrite Hr in Hr'. injection Hr' as <- <-.
  destruct (IH s1 s2 log2 Hg1) as (Hw2 & Htm2 & Hck2); try done; [lia|by rewrite Hc1|by rewrite Hl|].
  split; [|done]. rewrite fmap_app, fmap_cons. cbn [concat].
  assert (log_timed lat <$> ((λ ev, (cur_ts_ s, ev)) <$> dn) = event_timed lat <$> dn) as ->.
  { rewrite <- list_fmap_compose. apply list_fmap_ext. intros i ev Hi. pose proof (Forall_lookup_1 _ _ _ _ Hdone Hi) as Et. cbn in Et.
    unfold log_timed, event_timed, compose. cbn. by rewrite Et. }
  assert (waiting lat s0 ≡ₚ arrived_timed 0 a ++ waiting lat s) as Hb0.
  { unfold waiting, s0. simpl. rewrite port_timed_arrive by apply Ha. rewrite !app_assoc. f_equiv. apply Permutation_app_comm. }
  rewrite <- !app_assoc, <- Hw2. rewrite (Permutation_app_swap_app (event_timed lat <$> dn)), <- Hw1, Hb0. apply Permutation_app_swap_app.
Qed.

Lemma latency_exact cfg : pipeline_stages cfg ∈u 32 → stage_latency_ns cfg ∈u 64 → pipeline_ps cfg < 2 ^ 64 → latency_ps cfg = pipeline_ps cfg.
Proof.
  unfold latency_ps, pipeline_ps, fits. intros H1 H2 H3. rewrite (wrap_id 64 (_ * stage_latency_ns cfg)) by (unfold fits; nia).
  apply (wrap_id 64). unfold fits. nia.
Qed.

(** What waits on the ports does not arrive before now. *)
Lemma waiting_later F lat s : clocked F s → 0 ≤ lat → timely s → Forall (λ w, cur_ts_ s ≤ w.2.1 + lat) (waiting lat s).
Proof.
  intros [_ Ho Ht] Hl Htm. apply Forall_app. split.
  { apply Forall_fmap. eapply Forall_impl; [exact Htm|]. intros ev ?. cbn in *. lia. }
  assert (∀ k l, (∀ i p, l !! i = Some p → cur_ts_ s ≤ in_timestamp p ∧ ∃ F, StronglySorted Z.le (stamps p ++ F)) →
    Forall (λ w : nat * (Z * bytes), cur_ts_ s ≤ w.2.1 + lat) (port_timed k l)) as H.
  { intros k l. revert k. induction l as [|p l IH]; intros k Hp; cbn; [done|]. apply Forall_app. split; [|apply IH; intros i q Hq; by apply (Hp (S i))].
    destruct (Hp 0%nat p eq_refl) as (Hle & F0 & Hs). cbn in Hs. apply StronglySorted_inv in Hs as [_ Hs]. apply Forall_app in Hs as [Hs _].
    apply Forall_fmap. unfold timed_packets. clear Hp IH. induction (in_queue p) as [|[t m] q IHq]; cbn; [done|].
    cbn in Hs. apply Forall_cons in Hs as [Ht0 Hs]. destruct m; cbn; try by apply IHq. constructor; [cbn; lia|by apply IHq]. }
  apply H. intros i p Hi. split; [exact (Forall_lookup_1 _ _ _ _ Ht Hi)|]. exists (F i). by apply Ho.
Qed.

(** C10: the pipeline latency is exact.  Let all ports synchronize, and the messages of each port
    arrive in the order of their timestamps.  Then, however simultaneous events are ordered, the
    packets that arrived, each with the time of its timestamp, are those that were processed,
    each exactly [pipeline_stages * stage_latency_ns] nanoseconds after that time, and those still
    waiting, which are not overdue -- as long as times in ps fit 64 bits. *)
Theorem switch_on_time limit s ins s' log :
  let lat := pipeline_stages (config_ s) * stage_latency_ns (config_ s) * 1000 in
  pipeline_stages (config_ s) ∈u 32 → stage_latency_ns (config_ s) ∈u 64 →
  good limit s → 0 ≤ cur_ts_ s → timely s → clocked (future ins) s →
  Forall (input_ok limit (length (ports_ s))) ins → Forall (λ a : inputs, Forall (λ x, Forall plain x.1) a) ins →
  Run pop s ins = Some (s', log) → cur_ts_ s' + lat < 2 ^ 64 →
  concat (arrived_timed 0 <$> ins) ++ waiting lat s ≡ₚ
    ((λ x, (ingress_port x.2, (x.1 - lat, data x.2))) <$> log) ++ waiting lat s' ∧
  Forall (λ w, cur_ts_ s' ≤ w.2.1 + lat) (waiting lat s').
Proof.
  intros lat Hst Hns Hg Hpos Htm Hck Hins Hpl Hrun H64. assert (0 ≤ lat) as Hl0 by (unfold lat, fits in *; nia).
  destruct (Run_spec pop limit ins s Hg Hpos Hins) as (s1 & log1 & Hr & _ & _ & Ht & _). rewrite Hrun in Hr. injection Hr as <- <-.
  assert (latency_ps (config_ s) = lat) as Hlat by (apply latency_exact; [done|done|]; change (pipeline_ps (config_ s)) with lat; lia).
  destruct (Run_timed limit lat ins s s' log) as (Hw & Htm' & Hck'); try done. split; [exact Hw|]. by eapply waiting_later.
Qed.

End runs.

(** ** Example *)

Lemma demo_clocked : clocked (future demo_ins) demo_switch.
Proof.
  constructor.
  - repeat constructor.
  - intros [|[|[|i]]] p Hp; try done; injection Hp as <-; vm_compute; repeat constructor; done.
  - repeat constructor; vm_compute; done.
Qed.

Lemma demo_end : (λ x : HcopSwitch * list (Z * PacketEvent), cur_ts_ x.1) <$> Run first_min demo_switch demo_ins = Some 2000000.
Proof. by vm_compute. Qed.

Lemma switch_on_time_witness :
  ∃ s' log, Run first_min demo_switch demo_ins = Some (s', log) ∧
    concat (arrived_timed 0 <$> demo_ins) ++ waiting 1000000 demo_switch ≡ₚ
      ((λ x, (ingress_port x.2, (x.1 - 1000000, data x.2))) <$> log) ++ waiting 1000000 s' ∧
    Forall (λ w, cur_ts_ s' ≤ w.2.1 + 1000000) (waiting 1000000 s').
Proof.
  pose proof demo_end as He. destruct (Run first_min demo_switch demo_ins) as [[s' log]|] eqn:Hr; [|discriminate He].
  injection He as He. exists s', log. split; [exact eq_refl|].
  refine (switch_on_time first_min 128 demo_switch demo_ins s' log _ _ demo_switch_good _ _ demo_clocked demo_ins_ok _ Hr _).
  - change (fits 32 20). unfold fits. lia.
  - change (fits 64 50). unfold fits. lia.
  - change (0 ≤ 0). lia.
  - constructor.
  - unfold demo_ins. repeat (apply Forall_cons; split); try apply Forall_nil; repeat constructor.
  - change (cur_ts_ s' + 1000000 < 2 ^ 64). cbn in He. rewrite He. lia.
Defined.

End hswitch_time.
