(* ===== verification/I40eRss.v ===== *)
(** * The receive-side-scaling hash of the i40e model

    Translation of sims/nic/i40e_bm/rss.cc and of the writes to the hash key registers in
    i40e_bm.cc.  [rss_key_cache] keeps, for every bit of the hashed tuple, the 32 bits of the
    key that start there; the cache is rebuilt when the key has changed.  The theorem of this
    file compares the cached computation, at every point of a run, with the Toeplitz hash: a
    product of the input with a matrix of key bits over the field of two elements. *)

From S2P Require Import Prelude.

Module rss.

(** ** The class [rss_key_cache] *)

Definition key_len : nat := 52.
Definition cache_len : nat := 288.

(** The member [key] is a reference to the registers [pfqf_hkey], so the operations take the
    current registers as an argument. *)
Record rss_key_cache := MkCache { cache_dirty : bool; cache : list Z }.

(** The array is not initialised by the constructor. *)
Definition new_rss_key_cache (garbage : list Z) : rss_key_cache := MkCache true garbage.

(** [reinterpret_cast<const uint8_t * >(&key)] *)
Definition key_bytes (key : list Z) : bytes := key ≫= le 4.

(** [((k[idx / 8] << shift) & 0x80) ? 1 : 0] *)
Definition next_bit (b : byte) (idx : Z) : Z :=
  if Z.land (Z.shiftl b (u8 (idx mod 8))) 0x80 =? 0 then 0 else 1.

Fixpoint build_loop (k : bytes) (n : nat) (idx result : Z) : option (list Z) :=
  match n with
  | O => Some []
  | S n =>
      b ← k !! Z.to_nat (idx / 8);
      rest ← build_loop k n (idx + 1)
               (u32 (Z.lor (Z.shiftl result 1) (next_bit b idx)));
      Some (result :: rest)
  end.

Definition build (key : list Z) : option rss_key_cache :=
  let k := key_bytes key in
  k0 ← k !! 0%nat; k1 ← k !! 1%nat; k2 ← k !! 2%nat; k3 ← k !! 3%nat;
  let result := Z.lor (Z.lor (Z.lor (Z.shiftl k0 24) (Z.shiftl k1 16)) (Z.shiftl k2 8)) k3 in
  c ← build_loop k cache_len 32 result;
  Some (MkCache false c).

Definition set_dirty (r : rss_key_cache) : rss_key_cache := MkCache true (cache r).

(** One of the loops of [hash_ipv4]: [w] is the width of the variable that is shifted out,
    [msb] its top bit. *)
Fixpoint hash_loop (w msb : Z) (cs : list Z) (n off : nat) (x res : Z) : option Z :=
  match n with
  | O => Some res
  | S n =>
      c ← cs !! off;
      let res := if Z.land x msb =? 0 then res else Z.lxor res c in
      hash_loop w msb cs n (S off) (wrap w (Z.shiftl x 1)) res
  end.

Definition MSB32 : Z := 0x80000000.
Definition MSB16 : Z := 0x8000.

Definition hash_ipv4 (key : list Z) (r : rss_key_cache) (sip dip sp dp : Z) :
    option (Z * rss_key_cache) :=
  r ← (if cache_dirty r then build key else Some r);
  res ← hash_loop 32 MSB32 (cache r) 32 0 sip 0;
  res ← hash_loop 32 MSB32 (cache r) 32 32 dip res;
  res ← hash_loop 16 MSB16 (cache r) 16 64 sp res;
  res ← hash_loop 16 MSB16 (cache r) 16 80 dp res;
  Some (res, r).

(** ** The key registers and the cache together *)

(** What the device keeps: [regs.pfqf_hkey] and [lanmgr.rss_kc]. *)
Record rss_state := MkRss { pfqf_hkey : list Z; rss_kc : rss_key_cache }.

Definition NUM_HKEY : nat := 13.

(** A write to [I40E_PFQF_HKEY(i)]; the address decoding keeps [i] below 13. *)
Definition hkey_write (s : rss_state) (i : nat) (val : Z) : rss_state :=
  MkRss (<[i := val]> (pfqf_hkey s)) (set_dirty (rss_kc s)).

Definition default_hkey : list Z :=
  [0xda565a6d; 0xc20e5b25; 0x3d256741; 0xb08fa343; 0xcb2bcad0; 0xb4307bae; 0xa32dcb77;
   0x0cf23080; 0x3bb7426a; 0xfa01acbe; 0x0; 0x0; 0x0].

(** [lan::reset] marks the cache, then [i40e_bm::reset] installs the default key. *)
Definition hkey_reset (s : rss_state) : rss_state :=
  MkRss default_hkey (set_dirty (rss_kc s)).

Inductive rss_op :=
| HkeyWrite (i : nat) (val : Z)
| HkeyReset
| Hash (sip dip sp dp : Z).

Definition valid_op (o : rss_op) : Prop :=
  match o with
  | HkeyWrite i val => (i < NUM_HKEY)%nat ∧ val ∈u 32
  | HkeyReset => True
  | Hash sip dip sp dp => sip ∈u 32 ∧ dip ∈u 32 ∧ sp ∈u 16 ∧ dp ∈u 16
  end.

Definition rss_step (s : rss_state) (o : rss_op) : option (rss_state * list Z) :=
  match o with
  | HkeyWrite i val => Some (hkey_write s i val, [])
  | HkeyReset => Some (hkey_reset s, [])
  | Hash sip dip sp dp =>
      '(h, r) ← hash_ipv4 (pfqf_hkey s) (rss_kc s) sip dip sp dp;
      Some (MkRss (pfqf_hkey s) r, [h])
  end.

(** The hashes a sequence of operations computes. *)
Fixpoint rss_run (s : rss_state) (os : list rss_op) : option (rss_state * list Z) :=
  match os with
  | [] => Some (s, [])
  | o :: os =>
      '(s, h) ← rss_step s o; '(s, hs) ← rss_run s os; Some (s, h ++ hs)
  end.

(** ** The Toeplitz hash *)

(** The [n]-th bit of a byte string, from the most significant bit of the first byte. *)
Definition kbit (k : bytes) (n : nat) : bool :=
  Z.testbit (default 0 (k !! (n / 8)%nat)) (7 - Z.of_nat (n mod 8)).

Definition msb_bits (w : nat) (x : Z) : list bool :=
  (λ i, Z.testbit x (Z.of_nat w - 1 - Z.of_nat i)) <$> seq 0 w.

Definition tuple_bits (sip dip sp dp : Z) : list bool :=
  msb_bits 32 sip ++ msb_bits 32 dip ++ msb_bits 16 sp ++ msb_bits 16 dp.

(** Bit [j] of the product: the parity of the input bits [n] whose key bit [n + j] is set. *)
Fixpoint toeplitz_bit (k : bytes) (j : nat) (n : nat) (input : list bool) : bool :=
  match input with
  | [] => false
  | b :: input => xorb (b && kbit k (n + j)) (toeplitz_bit k j (S n) input)
  end.

Definition is_toeplitz (k : bytes) (input : list bool) (h : Z) : Prop :=
  h ∈u 32 ∧
  ∀ j : nat, (j < 32)%nat → Z.testbit h (31 - Z.of_nat j) = toeplitz_bit k j 0 input.

(** The hashes the run should compute. *)
Fixpoint spec_run (key : list Z) (os : list rss_op) : list (list Z * list bool) :=
  match os with
  | [] => []
  | HkeyWrite i val :: os => spec_run (<[i := val]> key) os
  | HkeyReset :: os => spec_run default_hkey os
  | Hash sip dip sp dp :: os => (key, tuple_bits sip dip sp dp) :: spec_run key os
  end.

(** ** The cache holds the windows of the key *)

(** [z] holds the 32 key bits that start at bit [i]. *)
Definition window (k : bytes) (i : nat) (z : Z) : Prop :=
  z ∈u 32 ∧ ∀ j : nat, (j < 32)%nat → Z.testbit z (31 - Z.of_nat j) = kbit k (i + j).

Lemma next_bit_spec b idx :
  0 ≤ idx → next_bit b idx = Z.b2z (Z.testbit b (7 - idx mod 8)).
Proof.
  intros Hi. unfold next_bit. pose proof (Z.mod_pos_bound idx 8).
  rewrite (wrap_id 8) by (unfold fits; lia).
  change 0x80 with (Z.shiftl 1 7). rewrite land_bit_testbit by lia.
  rewrite Z.shiftl_spec by lia. by destruct (Z.testbit _ _).
Qed.

Lemma kbit_lookup k (n : nat) b :
  k !! Z.to_nat (Z.of_nat n / 8) = Some b → kbit k n = Z.testbit b (7 - Z.of_nat n mod 8).
Proof.
  intros Hb. unfold kbit.
  replace (n / 8)%nat with (Z.to_nat (Z.of_nat n / 8))
    by (rewrite <- (Nat2Z.id (n / 8)), Nat2Z.inj_div; done).
  rewrite Hb. cbn [default from_option id]. by rewrite Nat2Z.inj_mod.
Qed.

Lemma window_step k i z b :
  window k i z → k !! Z.to_nat (Z.of_nat (32 + i) / 8) = Some b →
  window k (S i) (u32 (Z.lor (Z.shiftl z 1) (next_bit b (Z.of_nat (32 + i))))).
Proof.
  intros [Hz Hw] Hb. split; [apply wrap_fits; lia|]. intros j Hj.
  rewrite wrap_bits, Z.lor_spec, Z.shiftl_spec, next_bit_spec by lia.
  rewrite <- (kbit_lookup _ _ _ Hb).
  destruct (decide (j = 31)%nat) as [->|Hne].
  - change (31 - Z.of_nat 31) with 0. rewrite Z.b2z_bit0, Z.testbit_neg_r by lia. cbn [orb].
    f_equal. lia.
  - replace (Z.testbit (Z.b2z _) _) with false.
    2:{ destruct (kbit k (32 + i)); symmetry; [|apply Z.bits_0].
        apply (Z.pow2_bits_false 0). lia. }
    rewrite orb_false_r.
    replace (31 - Z.of_nat j - 1) with (31 - Z.of_nat (S j)) by lia.
    rewrite Hw by lia. f_equal. lia.
Qed.

Lemma build_loop_spec k n : ∀ i z,
  window k i z → (i + n + 32 ≤ 8 * length k)%nat →
  ∃ c, build_loop k n (Z.of_nat (32 + i)) z = Some c ∧ length c = n ∧
    ∀ m, (m < n)%nat → ∃ y, c !! m = Some y ∧ window k (i + m) y.
Proof.
  induction n as [|n IH]; intros i z Hz Hl.
  { exists []. split_and!; [done|done|lia]. }
  destruct (lookup_lt_is_Some_2 k (Z.to_nat (Z.of_nat (32 + i) / 8))) as [b Hb].
  { Z.div_mod_to_equations. lia. }
  destruct (IH (S i) _ (window_step _ _ _ _ Hz Hb)) as (c & Hc & Hlen & Hall); [lia|].
  exists (z :: c). cbn [build_loop]. rewrite Hb. cbn [mbind option_bind].
  replace (Z.of_nat (32 + i) + 1) with (Z.of_nat (32 + S i)) by lia. rewrite Hc.
  split_and!; [done|simpl; lia|]. intros [|m] Hm.
  - exists z. rewrite Nat.add_0_r. done.
  - destruct (Hall m) as (y & Hy & Hwy); [lia|]. exists y.
    replace (i + S m)%nat with (S i + m)%nat by lia. done.
Qed.

(** The first window is the first four bytes. *)
Lemma window_0 k0 k1 k2 k3 k :
  is_bytes [k0; k1; k2; k3] →
  window (k0 :: k1 :: k2 :: k3 :: k) 0
    (Z.lor (Z.lor (Z.lor (Z.shiftl k0 24) (Z.shiftl k1 16)) (Z.shiftl k2 8)) k3).
Proof.
  intros Hb. assert (∀ b, b ∈ [k0; k1; k2; k3] → 0 ≤ b ∧ ∀ m, 8 ≤ m → Z.testbit b m = false)
    as Hz.
  { intros b Hin. rewrite <- fits_bits by lia. revert b Hin. by apply Forall_forall. }
  assert (∀ b s, b ∈ [k0; k1; k2; k3] → 0 ≤ s ≤ 24 → Z.shiftl b s ∈u 32) as Hs.
  { intros b s [? Hbit]%Hz ?. apply fits_bits; [lia|]. split; [by apply Z.shiftl_nonneg|].
    intros. rewrite Z.shiftl_spec by lia. apply Hbit. lia. }
  split.
  { repeat apply lor_fits; try lia; try (apply Hs; [set_solver|lia]).
    rewrite <- (Z.shiftl_0_r k3). apply Hs; [set_solver|lia]. }
  intros j Hj. rewrite !Z.lor_spec, !Z.shiftl_spec by lia. unfold kbit. rewrite Nat.add_0_l.
  pose proof (Nat.div_mod_eq j 8) as Hdm. pose proof (Nat.mod_upper_bound j 8).
  assert (j / 8 < 4)%nat as Hq by (apply Nat.Div0.div_lt_upper_bound; lia).
  destruct (Hz k0) as [_ H0]; [set_solver|]. destruct (Hz k1) as [_ H1]; [set_solver|].
  destruct (Hz k2) as [_ H2]; [set_solver|]. destruct (Hz k3) as [_ H3]; [set_solver|].
  destruct (j / 8)%nat as [|[|[|[|]]]] eqn:E; cbn [lookup list_lookup default]; [..|lia];
    repeat match goal with
    | |- context [Z.testbit ?b ?m] =>
        first [rewrite (Z.testbit_neg_r b m) by lia
              |rewrite (H0 m) by lia | rewrite (H1 m) by lia
              |rewrite (H2 m) by lia | rewrite (H3 m) by lia]
    end; rewrite ?orb_false_r, ?orb_false_l; cbn [default from_option id]; f_equal; lia.
Qed.

Lemma key_bytes_length key : length (key_bytes key) = (4 * length key)%nat.
Proof.
  unfold key_bytes. induction key as [|x key IH]; [done|]. cbn.
  rewrite length_app, length_le. cbn in IH. rewrite IH. simpl. lia.
Qed.

Lemma key_bytes_is_bytes key : is_bytes (key_bytes key).
Proof.
  unfold key_bytes. induction key as [|x key IH]; [constructor|]. cbn.
  apply is_bytes_app. split; [apply le_is_bytes|exact IH].
Qed.

(** What a clean cache holds. *)
Definition clean (key : list Z) (r : rss_key_cache) : Prop :=
  length (cache r) = cache_len ∧
  ∀ m, (m < cache_len)%nat → ∃ y, cache r !! m = Some y ∧ window (key_bytes key) m y.

Lemma build_spec key :
  length key = NUM_HKEY →
  ∃ r, build key = Some r ∧ cache_dirty r = false ∧ clean key r.
Proof.
  intros Hk. pose proof (key_bytes_length key) as Hl. rewrite Hk in Hl.
  pose proof (key_bytes_is_bytes key) as Hb. unfold build, clean.
  destruct (key_bytes key) as [|k0 [|k1 [|k2 [|k3 k]]]]; try (simpl in Hl; lia).
  assert (is_bytes [k0; k1; k2; k3]) as Hb4 by (apply (is_bytes_take 4) in Hb; exact Hb).
  edestruct (build_loop_spec _ cache_len 0 _ (window_0 k0 k1 k2 k3 k Hb4))
    as (c & Hc & Hlen & Hall); [rewrite Hl; unfold cache_len, NUM_HKEY; lia|].
  change (Z.of_nat (32 + 0)) with 32 in Hc.
  exists (MkCache false c). cbn -[build_loop cache_len]. rewrite Hc. done.
Qed.

(** ** The loops compute the product *)

Lemma toeplitz_bit_app k j n a b :
  toeplitz_bit k j n (a ++ b) = xorb (toeplitz_bit k j n a) (toeplitz_bit k j (n + length a) b).
Proof.
  revert n. induction a as [|x a IH]; intros n; cbn; [by rewrite Nat.add_0_r|].
  rewrite IH, xorb_assoc. do 3 f_equal. lia.
Qed.

Lemma hash_loop_spec k w msb cs n : ∀ off x res,
  msb = Z.shiftl 1 (w - 1) → Z.of_nat n ≤ w → res ∈u 32 →
  (∀ m, (off ≤ m < off + n)%nat → ∃ y, cs !! m = Some y ∧ window k m y) →
  ∃ h, hash_loop w msb cs n off x res = Some h ∧
    h ∈u 32 ∧
    ∀ j, (j < 32)%nat → Z.testbit h (31 - Z.of_nat j) =
      xorb (Z.testbit res (31 - Z.of_nat j))
           (toeplitz_bit k j off
              ((λ i, Z.testbit x (w - 1 - Z.of_nat i)) <$> seq 0 n)).
Proof.
  induction n as [|n IH]; intros off x res Hm Hn Hres Hc.
  { exists res. split_and!; [done|done|]. intros. cbn. by rewrite xorb_false_r. }
  destruct (Hc off) as (y & Hy & Hyf & Hyw); [lia|].
  set (res' := if Z.land x msb =? 0 then res else Z.lxor res y).
  destruct (IH (S off) (wrap w (Z.shiftl x 1)) res') as (h & Hh & Hhf & Hbits).
  { done. } { lia. } { unfold res'. case_match; [done|]. by apply lxor_fits. }
  { intros m ?. apply Hc. lia. }
  exists h. cbn [hash_loop]. rewrite Hy. cbn [mbind option_bind].
  split; [exact Hh|]. split; [done|]. intros j Hj. rewrite Hbits by done.
  unfold res'. rewrite Hm, land_bit_testbit by lia.
  cbn [seq fmap list_fmap toeplitz_bit]. rewrite <- xorb_assoc. f_equal.
  - rewrite Z.sub_0_r. destruct (Z.testbit x (w - 1)); cbn -[Z.sub Z.of_nat].
    + by rewrite Z.lxor_spec, Hyw.
    + by rewrite xorb_false_r.
  - f_equal. rewrite <- seq_shift. rewrite <- list_fmap_compose. apply list_fmap_ext.
    intros i z Hi%lookup_seq. unfold compose.
    rewrite wrap_bits, Z.shiftl_spec by lia. f_equal. lia.
Qed.

(** The four loops, on a clean cache. *)
Lemma hash_clean key r sip dip sp dp :
  clean key r →
  ∃ h, (res ← hash_loop 32 MSB32 (cache r) 32 0 sip 0;
        res ← hash_loop 32 MSB32 (cache r) 32 32 dip res;
        res ← hash_loop 16 MSB16 (cache r) 16 64 sp res;
        res ← hash_loop 16 MSB16 (cache r) 16 80 dp res;
        Some (res, r)) = Some (h, r) ∧
       is_toeplitz (key_bytes key) (tuple_bits sip dip sp dp) h.
Proof.
  intros [_ Hc]. set (k := key_bytes key) in *.
  assert (∀ off n m, (off + n ≤ 96)%nat → (off ≤ m < off + n)%nat →
            ∃ y, cache r !! m = Some y ∧ window k m y) as Hc'.
  { intros off n m ? ?. apply Hc. unfold cache_len. lia. }
  destruct (hash_loop_spec k 32 MSB32 (cache r) 32 0 sip 0) as (h1 & E1 & F1 & B1);
    [done|lia|by vm_compute|intros; eapply Hc'; [|done]; lia|].
  destruct (hash_loop_spec k 32 MSB32 (cache r) 32 32 dip h1) as (h2 & E2 & F2 & B2);
    [done|lia|done|intros; eapply Hc'; [|done]; lia|].
  destruct (hash_loop_spec k 16 MSB16 (cache r) 16 64 sp h2) as (h3 & E3 & F3 & B3);
    [done|lia|done|intros; eapply Hc'; [|done]; lia|].
  destruct (hash_loop_spec k 16 MSB16 (cache r) 16 80 dp h3) as (h4 & E4 & F4 & B4);
    [done|lia|done|intros; eapply Hc'; [|done]; lia|].
  exists h4. split.
  { rewrite !bind_Some. exists h1. split; [exact E1|]. rewrite bind_Some. exists h2.
    split; [exact E2|]. rewrite bind_Some. exists h3. split; [exact E3|]. rewrite bind_Some.
    by exists h4. }
  split; [done|]. intros j Hj.
  rewrite B4, B3, B2, B1 by done. rewrite Z.bits_0, xorb_false_l.
  unfold tuple_bits, msb_bits. rewrite !toeplitz_bit_app, !length_fmap, !length_seq.
  by rewrite !xorb_assoc.
Qed.

(** ** The cache is never stale *)

Definition coherent (s : rss_state) : Prop :=
  length (pfqf_hkey s) = NUM_HKEY ∧
  (cache_dirty (rss_kc s) = false → clean (pfqf_hkey s) (rss_kc s)).

Lemma hash_ipv4_spec s sip dip sp dp :
  coherent s →
  ∃ h r, hash_ipv4 (pfqf_hkey s) (rss_kc s) sip dip sp dp = Some (h, r) ∧
    coherent (MkRss (pfqf_hkey s) r) ∧
    is_toeplitz (key_bytes (pfqf_hkey s)) (tuple_bits sip dip sp dp) h.
Proof.
  intros [Hl Hc]. unfold hash_ipv4.
  assert (∃ r, (if cache_dirty (rss_kc s) then build (pfqf_hkey s) else Some (rss_kc s)) = Some r ∧
               clean (pfqf_hkey s) r) as (r & Hr & Hclean).
  { destruct (cache_dirty (rss_kc s)) eqn:E; [|naive_solver].
    destruct (build_spec (pfqf_hkey s) Hl) as (r & ? & _ & ?). by exists r. }
  destruct (hash_clean (pfqf_hkey s) r sip dip sp dp Hclean) as (h & Hh & Ht).
  exists h, r. split; [|split; [by split|done]].
  rewrite bind_Some. exists r. by split.
Qed.

Lemma rss_step_spec s o :
  coherent s →
  ∃ s' hs, rss_step s o = Some (s', hs) ∧ (valid_op o → coherent s') ∧
    ∀ os, ∃ pre, spec_run (pfqf_hkey s) (o :: os) = pre ++ spec_run (pfqf_hkey s') os ∧
      Forall2 (λ p h, is_toeplitz (key_bytes p.1) p.2 h) pre hs.
Proof.
  intros Hs. destruct o as [i val| |sip dip sp dp]; cbn.
  - eexists _, _. split; [done|]. split; [|intros; by exists []].
    intros _. split; [|done]. cbn. rewrite length_insert. apply Hs.
  - eexists _, _. split; [done|]. split; [done|intros; by exists []].
  - destruct (hash_ipv4_spec s sip dip sp dp Hs) as (h & r & -> & Hc & Ht).
    eexists _, _. split; [done|]. split; [done|]. intros os.
    eexists [_]. split; [done|]. by constructor.
Qed.

(** C34: After any sequence of writes to the key registers and resets, every hash the cached
    routine computes is the Toeplitz hash of the tuple under the key then in the registers:
    the cache is rebuilt when it must be, no read of the key or of the cache is out of
    bounds, and a clean cache is never stale, whatever the uninitialised array held. *)
Theorem rss_hash_toeplitz garbage os :
  Forall valid_op os →
  ∃ s hs, rss_run (MkRss default_hkey (new_rss_key_cache garbage)) os = Some (s, hs) ∧
    Forall2 (λ p h, is_toeplitz (key_bytes p.1) p.2 h) (spec_run default_hkey os) hs.
Proof.
  intros Hos. assert (coherent (MkRss default_hkey (new_rss_key_cache garbage))) as Hc by done.
  change default_hkey with (pfqf_hkey (MkRss default_hkey (new_rss_key_cache garbage))) at 2.
  revert Hc. generalize (MkRss default_hkey (new_rss_key_cache garbage)) as s.
  induction Hos as [|o os Ho _ IH]; intros s Hs; [by eexists _, []|].
  destruct (rss_step_spec s o Hs) as (s' & hs & E & Hs' & Hspec).
  destruct (IH s' (Hs' Ho)) as (s'' & hs' & E' & Hall).
  destruct (Hspec os) as (pre & -> & Hpre).
  exists s'', (hs ++ hs'). cbn [rss_run]. rewrite E. cbn. rewrite E'. cbn.
  split; [done|]. by apply Forall2_app.
Qed.

(** Two tuples under the default key, then one after a key register has changed. *)
Definition demo_ops : list rss_op :=
  [Hash 0x0a000001 0x0a000002 1234 80; HkeyWrite 1 0x12345678;
   Hash 0x0a000001 0x0a000002 1234 80].

Lemma rss_hash_toeplitz_witness :
  ∃ s hs, rss_run (MkRss default_hkey (new_rss_key_cache [])) demo_ops = Some (s, hs) ∧
    Forall2 (λ p h, is_toeplitz (key_bytes p.1) p.2 h) (spec_run default_hkey demo_ops) hs.
Proof. apply (rss_hash_toeplitz [] demo_ops). repeat constructor; by vm_compute. Defined.

(** The two hashes differ, so the second one did use the new key. *)
Example demo_hashes :
  ∃ s h1 h2, rss_run (MkRss default_hkey (new_rss_key_cache [])) demo_ops = Some (s, [h1; h2]) ∧
    h1 ≠ h2.
Proof. eexists _, _, _. split; [by vm_compute|done]. Qed.

End rss.
