(* ===== verification/I40eXsum.v ===== *)
(** * Checksum offload of the i40e model

    Translation of sims/nic/i40e_bm/xsums.cc: the ones'-complement sum of DPDK with its
    unrolled loop, the UDP and TCP checksums over a header that already holds the sum of the
    pseudo header, and the header updates of TCP segmentation offload.  A pointer into a
    packet is the list of bytes from there to the end of the buffer; [None] is an access past
    it.  The theorems compare the routines with the sum of RFC 1071: what the code stores
    makes the receiver's check succeed. *)

From S2P Require Import Prelude.

Module xsums.

(** ** Sums *)

(** A [uint16_t] load on the little-endian host. *)
Definition word (b0 b1 : byte) : Z := b0 + 256 * b1.

(** The loop over four words at a time; returns the bytes that are left. *)
Fixpoint raw_cksum_by4 (d : bytes) (sum : Z) : Z * bytes :=
  match d with
  | b0 :: b1 :: b2 :: b3 :: b4 :: b5 :: b6 :: b7 :: rest =>
      raw_cksum_by4 rest
        (u32 (u32 (u32 (u32 (sum + word b0 b1) + word b2 b3) + word b4 b5) + word b6 b7))
  | _ => (sum, d)
  end.

(** The loop over single words and the odd last byte. *)
Fixpoint raw_cksum_by1 (d : bytes) (sum : Z) : Z :=
  match d with
  | b0 :: b1 :: rest => raw_cksum_by1 rest (u32 (sum + word b0 b1))
  | [b] => u32 (sum + b)
  | [] => sum
  end.

(** [__rte_raw_cksum] on the [len] bytes it reads *)
Definition rte_raw_cksum_acc (d : bytes) (sum : Z) : Z :=
  let '(sum, rest) := raw_cksum_by4 d sum in raw_cksum_by1 rest sum.

(** [((sum & 0xffff0000) >> 16) + (sum & 0xffff)] *)
Definition fold16 (sum : Z) : Z :=
  u32 (Z.shiftr (Z.land sum 0xffff0000) 16 + Z.land sum 0xffff).

Definition rte_raw_cksum_reduce (sum : Z) : Z := u16 (fold16 (fold16 sum)).

Definition rte_raw_cksum (buf : bytes) (len : Z) : option Z :=
  if decide (len ≤ Z.of_nat (length buf)) then
    Some (rte_raw_cksum_reduce (rte_raw_cksum_acc (take (Z.to_nat len) buf) 0))
  else None.

(** ** Header fields *)

(** A store of the bytes [l] at offset [off]. *)
Definition poke (buf : bytes) (off : nat) (l : bytes) : option bytes :=
  if decide (off + length l ≤ length buf)%nat then
    Some (take off buf ++ l ++ drop (off + length l) buf)
  else None.

Definition peek (buf : bytes) (off n : nat) : option Z :=
  if decide (off + n ≤ length buf)%nat then Some (field buf off n) else None.

(** [htons], [ntohs], [htonl] and [ntohl] on the little-endian host *)
Definition bswap16 (x : Z) : Z := 256 * (x mod 256) + x / 256.
Definition bswap32 (x : Z) : Z := 65536 * bswap16 (x mod 65536) + bswap16 (x / 65536).

(** Offsets in [ipv4_hdr], [rte_tcp_hdr] and [rte_udp_hdr]. *)
Definition ip_total_length : nat := 2.
Definition ip_packet_id : nat := 4.
Definition ip_next_proto_id : nat := 9.
Definition ip_hdr_checksum : nat := 10.
Definition ip_src_addr : nat := 12.
Definition ip_dst_addr : nat := 16.
Definition sizeof_ipv4_hdr : Z := 20.
Definition tcp_sent_seq : nat := 4.
Definition tcp_cksum : nat := 16.
Definition udp_dgram_cksum : nat := 6.

(** The image of [struct ipv4_psd_header]. *)
Definition psd_hdr (src dst proto len : Z) : bytes :=
  le 4 src ++ le 4 dst ++ le 1 0 ++ le 1 proto ++ le 2 len.

Definition rte_ipv4_phdr_cksum (ih : bytes) : option Z :=
  src ← peek ih ip_src_addr 4;
  dst ← peek ih ip_dst_addr 4;
  proto ← peek ih ip_next_proto_id 1;
  total ← peek ih ip_total_length 2;
  let len := bswap16 (u16 (bswap16 total - sizeof_ipv4_hdr)) in
  rte_raw_cksum (psd_hdr src dst proto len) 12.

(** [(~cksum) & 0xffff] after the last fold *)
Definition complement16 (cksum : Z) : Z := Z.land (u32 (Z.lnot (fold16 cksum))) 0xffff.

Definition xsum_udp (udphdr : bytes) (l4_len : Z) : option bytes :=
  cksum ← rte_raw_cksum udphdr l4_len;
  poke udphdr udp_dgram_cksum (le 2 (complement16 cksum)).

Definition xsum_tcp (tcphdr : bytes) (l4_len : Z) : option bytes :=
  cksum ← rte_raw_cksum tcphdr l4_len;
  poke tcphdr tcp_cksum (le 2 (complement16 cksum)).

(** [iplen] and [l4len] are [uint8_t], [paylen] is [uint16_t]: the sum is an [int]. *)
Definition xsum_tcpip_tso (iphdr : bytes) (iplen l4len paylen : Z) : option bytes :=
  ih ← poke iphdr ip_total_length (le 2 (bswap16 (u16 (iplen + l4len + paylen))));
  ih ← poke ih ip_hdr_checksum (le 2 0);
  cksum ← rte_raw_cksum ih iplen;
  ih ← poke ih ip_hdr_checksum (le 2 (complement16 cksum));
  ih ← poke ih (Z.to_nat iplen + tcp_cksum) (le 2 0);
  cksum ← rte_raw_cksum (drop (Z.to_nat iplen) ih) (l4len + paylen);
  phdr ← rte_ipv4_phdr_cksum ih;
  poke ih (Z.to_nat iplen + tcp_cksum) (le 2 (complement16 (u32 (cksum + phdr)))).

Definition tso_postupdate_header (iphdr : bytes) (iplen l4len paylen : Z) : option bytes :=
  seq ← peek iphdr (Z.to_nat iplen + tcp_sent_seq) 4;
  ih ← poke iphdr (Z.to_nat iplen + tcp_sent_seq) (le 4 (bswap32 (u32 (bswap32 seq + paylen))));
  id ← peek ih ip_packet_id 2;
  poke ih ip_packet_id (le 2 (bswap16 (u16 (bswap16 id + 1)))).

(** ** The sum of RFC 1071 *)

(** The words of the packet, an odd last byte padded with zero. *)
Fixpoint word_sum (d : bytes) : Z :=
  match d with
  | b0 :: b1 :: rest => word b0 b1 + word_sum rest
  | [b] => b
  | [] => 0
  end.

(** [checks s]: a sum of words with end-around carry that the receiver accepts, that is one
    which adds up to all ones (a positive multiple of 65535). *)
Definition checks (s : Z) : Prop := 0 < s ∧ s mod 65535 = 0.

(** ** The unrolled loop is the sum *)

Lemma two_step_ind (P : bytes → Prop) :
  P [] → (∀ b, P [b]) → (∀ a b l, P l → P (a :: b :: l)) → ∀ l, P l.
Proof.
  intros H0 H1 H2. fix IH 1. intros [|a [|b l]]; [exact H0|apply H1|apply H2, IH].
Qed.

Lemma raw_cksum_by1_spec d : ∀ sum, sum ∈u 32 → raw_cksum_by1 d sum = u32 (sum + word_sum d).
Proof.
  induction d as [|b|b0 b1 d IH] using two_step_ind; intros sum Hs; cbn [raw_cksum_by1 word_sum].
  - by rewrite Z.add_0_r, wrap_id.
  - done.
  - rewrite IH by (apply wrap_fits; lia). unfold wrap. by rewrite Zplus_mod_idemp_l, Z.add_assoc.
Qed.

Lemma rte_raw_cksum_acc_spec d sum :
  sum ∈u 32 → rte_raw_cksum_acc d sum = u32 (sum + word_sum d).
Proof.
  unfold rte_raw_cksum_acc. revert d sum.
  assert (∀ n d sum, (length d < n)%nat → sum ∈u 32 →
    (let '(s, r) := raw_cksum_by4 d sum in raw_cksum_by1 r s) = u32 (sum + word_sum d)) as H;
    [|intros d sum; apply (H (S (length d))); lia].
  induction n as [|n IH]; intros d sum Hn Hs; [lia|].
  destruct d as [|b0 [|b1 [|b2 [|b3 [|b4 [|b5 [|b6 [|b7 d]]]]]]]];
    cbn [raw_cksum_by4]; try (by apply raw_cksum_by1_spec).
  rewrite IH; [|simpl in Hn; lia|apply wrap_fits; lia].
  cbn [word_sum]. unfold wrap. repeat (rewrite Zplus_mod_idemp_l, <- ?Z.add_assoc). done.
Qed.

(** ** Carries *)

Lemma fold16_spec s : s ∈u 32 → fold16 s = s / 65536 + s mod 65536.
Proof.
  intros Hs. unfold fold16. rewrite Z.shiftr_land.
  change (Z.shiftr 0xffff0000 16) with (Z.ones 16). change 0xffff with (Z.ones 16).
  rewrite !Z.land_ones, Z.shiftr_div_pow2 by lia. change (2 ^ 16) with 65536.
  unfold fits in Hs. change (2 ^ 32) with 4294967296 in Hs.
  rewrite (Z.mod_small (s / 65536)) by (Z.div_mod_to_equations; lia).
  apply wrap_id. unfold fits. change (2 ^ 32) with 4294967296. Z.div_mod_to_equations. lia.
Qed.

Lemma fold16_small s : s ∈u 16 → fold16 s = s.
Proof.
  intros Hs. rewrite fold16_spec by (eapply fits_mono; [|done]; lia).
  unfold fits in Hs. change (2 ^ 16) with 65536 in Hs. rewrite Z.div_small, Z.mod_small; lia.
Qed.

Lemma mod_65535 s k : (s - 65535 * k) mod 65535 = s mod 65535.
Proof. replace (s - 65535 * k) with (s + (- k) * 65535) by lia. apply Z_mod_plus_full. Qed.

(** Two folds leave no carry, keep the residue, and tell zero from the other multiples. *)
Lemma reduce_spec s :
  s ∈u 32 →
  rte_raw_cksum_reduce s ∈u 16 ∧ rte_raw_cksum_reduce s mod 65535 = s mod 65535 ∧
  (rte_raw_cksum_reduce s = 0 ↔ s = 0).
Proof.
  intros Hs. unfold rte_raw_cksum_reduce.
  assert (fold16 s = s - 65535 * (s / 65536)) as E1
    by (rewrite fold16_spec by done; Z.div_mod_to_equations; lia).
  assert (0 ≤ fold16 s ≤ 131070 ∧ (fold16 s = 0 ↔ s = 0)) as [? Hz1].
  { rewrite fold16_spec by done. unfold fits in Hs. change (2 ^ 32) with 4294967296 in Hs.
    Z.div_mod_to_equations. lia. }
  set (f := fold16 s) in *.
  assert (f ∈u 32) as Hf by (unfold fits; change (2 ^ 32) with 4294967296; lia).
  assert (fold16 f = f - 65535 * (f / 65536)) as E2
    by (rewrite fold16_spec by done; Z.div_mod_to_equations; lia).
  assert (0 ≤ fold16 f ≤ 65535 ∧ (fold16 f = 0 ↔ f = 0)) as [? Hz2]
    by (rewrite fold16_spec by done; Z.div_mod_to_equations; lia).
  rewrite wrap_id by (unfold fits; change (2 ^ 16) with 65536; lia).
  split; [unfold fits; change (2 ^ 16) with 65536; lia|].
  split; [by rewrite E2, mod_65535, E1, mod_65535|tauto].
Qed.

(** The receiver's arithmetic: a sum [checks] exactly when it folds to all ones. *)
Lemma checks_reduce s : s ∈u 32 → checks s ↔ rte_raw_cksum_reduce s = 0xffff.
Proof.
  intros Hs. destruct (reduce_spec s Hs) as (Hr & Hm & Hz). unfold checks.
  set (r := rte_raw_cksum_reduce s) in *. unfold fits in Hs, Hr.
  change (2 ^ 16) with 65536 in Hr. split.
  - intros [? H0]. rewrite H0 in Hm. assert (r ≠ 0) by (rewrite Hz; lia).
    destruct (decide (r = 65535)) as [->|]; [done|]. rewrite Z.mod_small in Hm; lia.
  - intros Hr'. rewrite Hr' in Hm, Hz. split; [|by rewrite <- Hm]. assert (s ≠ 0) by naive_solver.
    lia.
Qed.

Lemma complement16_spec c : c ∈u 16 → complement16 c = 0xffff - c.
Proof.
  intros Hc. unfold complement16. rewrite fold16_small by done.
  change 0xffff with (Z.ones 16) at 1. rewrite Z.land_ones by lia.
  unfold fits in Hc. unfold wrap, Z.lnot. change (2 ^ 32) with 4294967296.
  change (2 ^ 16) with 65536 in *. Z.div_mod_to_equations. lia.
Qed.

Lemma complement16_fits c : c ∈u 16 → complement16 c ∈u 16.
Proof.
  intros Hc. rewrite complement16_spec by done. unfold fits in *.
  change (2 ^ 16) with 65536 in *. lia.
Qed.

(** ** Sums of packets *)

Lemma word_sum_bounds d : is_bytes d → 0 ≤ 2 * word_sum d ≤ 65535 * (Z.of_nat (length d) + 1).
Proof.
  unfold is_bytes, fits. change (2 ^ 8) with 256.
  induction d as [|b|b0 b1 d IH] using two_step_ind; cbn [word_sum length].
  - lia.
  - intros [[Hb1 Hb2] _]%Forall_cons. lia.
  - intros [[? ?] [[? ?] Hd]%Forall_cons]%Forall_cons. specialize (IH Hd). unfold word. lia.
Qed.

Lemma word_sum_fits d : is_bytes d → (length d ≤ N.to_nat 131072)%nat → word_sum d ∈u 32.
Proof.
  intros Hd Hl. pose proof (word_sum_bounds d Hd). unfold fits. change (2 ^ 32) with 4294967296.
  lia.
Qed.

Lemma word_sum_app l k :
  Nat.Even (length l) → word_sum (l ++ k) = word_sum l + word_sum k.
Proof.
  induction l as [|b|b0 b1 l IH] using two_step_ind.
  - done.
  - intros [m Hm]. simpl in Hm. lia.
  - intros [m Hm]. cbn [word_sum app length] in *. rewrite IH; [lia|]. exists (m - 1)%nat. lia.
Qed.

Lemma word_sum_le2 x : x ∈u 16 → word_sum (le 2 x) = x.
Proof.
  intros Hx. rewrite <- (le_val_le_fits 2 16 x eq_refl Hx) at 2.
  pose proof (length_le 2 x). destruct (le 2 x) as [|a [|b [|]]]; try done.
  unfold word_sum, word, le_val. cbn. lia.
Qed.

Lemma word_sum_slice2 d off :
  (off + 2 ≤ length d)%nat → word_sum (slice d off 2) = field d off 2.
Proof.
  intros H. unfold field. pose proof (length_slice d off 2 H).
  destruct (slice d off 2) as [|a [|b [|]]]; try done.
  unfold word_sum, word, le_val. cbn. lia.
Qed.

(** What a store of a checksum does to the sum of a packet. *)
Lemma poke_Some d off l d' :
  poke d off l = Some d' →
  (off + length l ≤ length d)%nat ∧ d' = take off d ++ l ++ drop (off + length l) d.
Proof. unfold poke. case_decide; naive_solver. Qed.

Lemma poke_ok d off l :
  (off + length l ≤ length d)%nat →
  poke d off l = Some (take off d ++ l ++ drop (off + length l) d).
Proof. intros. unfold poke. by rewrite decide_True. Qed.

Lemma poke_length d off l d' : poke d off l = Some d' → length d' = length d.
Proof.
  intros [? ->]%poke_Some. rewrite !length_app, length_take, length_drop. lia.
Qed.

Lemma poke_is_bytes d off l d' : poke d off l = Some d' → is_bytes d → is_bytes l → is_bytes d'.
Proof.
  intros [? ->]%poke_Some ??. apply is_bytes_app. split; [auto with hcop|].
  apply is_bytes_app. auto with hcop.
Qed.

Lemma poke_take d off l d' n :
  poke d off l = Some d' → (off + length l ≤ n ≤ length d)%nat →
  poke (take n d) off l = Some (take n d').
Proof.
  intros [? ->]%poke_Some ?. rewrite poke_ok by (rewrite length_take; lia). f_equal.
  rewrite take_take, Nat.min_l by lia. rewrite !take_app, !length_take, !take_take.
  rewrite (Nat.min_r n off), Nat.min_l by lia. do 2 f_equal.
  - rewrite take_ge by lia. done.
  - rewrite skipn_firstn_comm. f_equal. lia.
Qed.

Lemma word_sum_poke d off x d' :
  poke d off (le 2 x) = Some d' → Nat.Even off → x ∈u 16 →
  word_sum d' = word_sum d - field d off 2 + x.
Proof.
  intros [Hl ->]%poke_Some He Hx. rewrite length_le in *.
  rewrite <- (take_drop off d) at 3. rewrite <- (take_drop 2 (drop off d)), drop_drop.
  assert (length (take off d) = off) as Ho by (rewrite length_take; lia).
  rewrite !word_sum_app by (rewrite ?Ho, ?length_le, ?length_take, ?length_drop;
    first [done | exists 1%nat; lia]).
  fold (slice d off 2). rewrite word_sum_slice2, word_sum_le2 by (done || lia). lia.
Qed.

(** A field that does not meet the bytes that are stored. *)
Lemma poke_slice_other d off l d' o n :
  poke d off l = Some d' → (o + n ≤ off ∨ off + length l ≤ o)%nat → slice d' o n = slice d o n.
Proof.
  intros [Hl ->]%poke_Some [H|H]; unfold slice.
  - rewrite drop_app_le by (rewrite length_take; lia).
    rewrite take_app_le by (rewrite length_drop, length_take; lia).
    rewrite <- (take_drop off d) at 2.
    rewrite (drop_app_le (take off d)) by (rewrite length_take; lia).
    by rewrite take_app_le by (rewrite length_drop, length_take; lia).
  - rewrite (drop_app_ge (take off d)) by (rewrite length_take; lia).
    rewrite (drop_app_ge l) by (rewrite length_take; lia).
    rewrite drop_drop, length_take. f_equal. f_equal. lia.
Qed.

Lemma poke_slice_same d off l d' : poke d off l = Some d' → slice d' off (length l) = l.
Proof.
  intros [Hl ->]%poke_Some. rewrite slice_app_r by (rewrite length_take; lia).
  rewrite length_take, Nat.min_l, Nat.sub_diag by lia. by apply slice_app_l.
Qed.

(** ** Checksums that are stored are accepted *)

(** [c] is the ones'-complement sum of words that add up to [s]. *)
Definition folded (c s : Z) : Prop :=
  c ∈u 16 ∧ c mod 65535 = s mod 65535 ∧ (c = 0 ↔ s = 0).

Lemma rte_raw_cksum_spec buf len :
  is_bytes buf → 0 ≤ len ≤ Z.of_nat (length buf) → len ≤ 131072 →
  ∃ c, rte_raw_cksum buf len = Some c ∧ folded c (word_sum (take (Z.to_nat len) buf)).
Proof.
  intros Hb Hl Hmax. unfold rte_raw_cksum. rewrite decide_True by lia.
  eexists. split; [done|]. rewrite rte_raw_cksum_acc_spec by (split; done || lia).
  assert (word_sum (take (Z.to_nat len) buf) ∈u 32) as Hs.
  { apply word_sum_fits; [auto with hcop|]. rewrite length_take. lia. }
  rewrite Z.add_0_l, (wrap_id 32) by done. by apply reduce_spec.
Qed.

Lemma folded_add c1 s1 c2 s2 :
  folded c1 s1 → folded c2 s2 → 0 ≤ s1 → 0 ≤ s2 →
  ∃ c, complement16 (u32 (c1 + c2)) = 0xffff - c ∧ folded c (s1 + s2).
Proof.
  intros (F1 & M1 & Z1) (F2 & M2 & Z2) ??. unfold fits in F1, F2. change (2 ^ 16) with 65536 in *.
  assert ((c1 + c2) ∈u 32) as Hx by (unfold fits; change (2 ^ 32) with 4294967296; lia).
  rewrite (wrap_id 32) by done. pose proof (fold16_spec _ Hx) as Hf.
  assert (fold16 (c1 + c2) = c1 + c2 - 65535 * ((c1 + c2) / 65536)) as E
    by (rewrite Hf; Z.div_mod_to_equations; lia).
  assert (fold16 (c1 + c2) ∈u 16) as Hf16
    by (rewrite Hf; unfold fits; change (2 ^ 16) with 65536; Z.div_mod_to_equations; lia).
  exists (fold16 (c1 + c2)). split.
  { rewrite <- complement16_spec by done. unfold complement16. by rewrite (fold16_small (fold16 _)). }
  split; [done|]. split.
  - rewrite E, mod_65535. rewrite Zplus_mod, M1, M2. by rewrite <- Zplus_mod.
  - rewrite Hf. Z.div_mod_to_equations. lia.
Qed.

Lemma store_checks d off c e d' :
  is_bytes d → Nat.Even off → 0 ≤ e → folded c (word_sum d + e) →
  poke d off (le 2 (0xffff - c)) = Some d' → checks (word_sum d' + (field d off 2 + e)).
Proof.
  intros Hb Ho He (Hc & Hm & Hz) Hp. unfold fits in Hc. change (2 ^ 16) with 65536 in Hc.
  rewrite (word_sum_poke _ _ _ _ Hp Ho) by (unfold fits; change (2 ^ 16) with 65536; lia).
  pose proof (word_sum_bounds d Hb). split; [lia|].
  replace (word_sum d - field d off 2 + (65535 - c) + (field d off 2 + e))
    with (word_sum d + e - c + 1 * 65535) by lia.
  rewrite Z_mod_plus_full, Zminus_mod, Hm, Z.sub_diag. done.
Qed.

(** A checksum over the first [len] bytes, stored at [off] among them. *)
Lemma xsum_at_spec off buf len :
  is_bytes buf → Nat.Even off → Z.of_nat off + 2 ≤ len ≤ Z.of_nat (length buf) → len ≤ 131072 →
  ∃ c buf', rte_raw_cksum buf len = Some c ∧
    poke buf off (le 2 (complement16 c)) = Some buf' ∧
    checks (word_sum (take (Z.to_nat len) buf') + field buf off 2).
Proof.
  intros Hb Ho Hl Hmax. destruct (rte_raw_cksum_spec buf len) as (c & Hc & Hf); [done|lia|done|].
  exists c. rewrite complement16_spec by apply Hf.
  assert (is_Some (poke buf off (le 2 (0xffff - c)))) as [buf' Hp].
  { rewrite poke_ok by (rewrite length_le; lia). eauto. }
  exists buf'. split_and!; [done..|].
  pose proof (poke_take _ _ _ _ (Z.to_nat len) Hp) as Hp'. rewrite length_le in Hp'.
  specialize (Hp' ltac:(lia)).
  eapply (store_checks _ off c 0) in Hp'; [|auto with hcop|done|lia|by rewrite Z.add_0_r].
  rewrite Z.add_0_r in Hp'.
  replace (field buf off 2) with (field (take (Z.to_nat len) buf) off 2); [done|].
  unfold field, slice. rewrite skipn_firstn_comm, take_take. do 2 f_equal. lia.
Qed.

(** C36: With the sum of the pseudo header in the checksum field, as drivers leave it there,
    the checksum that [xsum_udp] and [xsum_tcp] store makes the receiver's sum over the
    pseudo header and the segment come out as all ones.  They touch nothing but the field,
    and the 32-bit accumulator never overflows on segments up to 128 KiB. *)
Theorem l4_checksum_valid buf l4_len :
  is_bytes buf → l4_len ≤ Z.of_nat (length buf) → l4_len ≤ 131072 →
  ∀ xsum off, (xsum, off) ∈ [(xsum_udp, udp_dgram_cksum); (xsum_tcp, tcp_cksum)] →
  Z.of_nat off + 2 ≤ l4_len →
  ∃ buf', xsum buf l4_len = Some buf' ∧
    checks (word_sum (take (Z.to_nat l4_len) buf') + field buf off 2) ∧
    ∀ o n, (o + n ≤ off ∨ off + 2 ≤ o)%nat → slice buf' o n = slice buf o n.
Proof.
  intros Hb Hl Hmax xsum off Hin Hmin.
  assert (Nat.Even off ∧
    xsum buf l4_len = (c ← rte_raw_cksum buf l4_len; poke buf off (le 2 (complement16 c))))
    as (He & ->).
  { apply list_elem_of_In in Hin as [[= <- <-]|[[= <- <-]|[]]]; (split; [|done]).
    - by exists 3%nat. - by exists 8%nat. }
  destruct (xsum_at_spec off buf l4_len) as (c & buf' & -> & Hp & Hc); [done|done|lia|done|].
  exists buf'. split; [exact Hp|]. split; [done|]. intros o n Hon.
  eapply poke_slice_other; [exact Hp|]. by rewrite length_le.
Qed.

(** ** Segmentation offload *)

Lemma poke_drop d k off l d' :
  poke d (k + off) l = Some d' → poke (drop k d) off l = Some (drop k d').
Proof.
  intros [? ->]%poke_Some. rewrite poke_ok by (rewrite length_drop; lia). f_equal.
  rewrite drop_app_le by (rewrite length_take; lia). rewrite skipn_firstn_comm, drop_drop.
  do 3 f_equal; lia.
Qed.

Lemma slice_drop d k off n : slice (drop k d) off n = slice d (k + off) n.
Proof. unfold slice. by rewrite drop_drop. Qed.

Lemma slice_take d k off n : (off + n ≤ k)%nat → slice (take k d) off n = slice d off n.
Proof. intros. unfold slice. rewrite skipn_firstn_comm, take_take. f_equal. lia. Qed.

Lemma field_zero d off d' : poke d off (le 2 0) = Some d' → field d' off 2 = 0.
Proof.
  intros H%poke_slice_same. rewrite length_le in H. unfold field. rewrite H.
  by rewrite le_val_le.
Qed.

Lemma bswap16_fits x : x ∈u 16 → bswap16 x ∈u 16.
Proof.
  unfold fits, bswap16. change (2 ^ 16) with 65536. intros. Z.div_mod_to_equations. lia.
Qed.

Lemma bswap16_involutive x : x ∈u 16 → bswap16 (bswap16 x) = x.
Proof.
  unfold fits, bswap16. change (2 ^ 16) with 65536. intros. Z.div_mod_to_equations. lia.
Qed.

(** Network byte order. *)
Lemma le_bswap16 x : x ∈u 16 → le 2 (bswap16 x) = [x / 256; x mod 256].
Proof.
  intros Hx. rewrite le_2 by by apply bswap16_fits.
  unfold fits, bswap16 in *. change (2 ^ 16) with 65536 in Hx.
  f_equal; [|f_equal]; Z.div_mod_to_equations; lia.
Qed.

(** The pseudo header of RFC 793 for a segment of [len] bytes under the IPv4 header at the
    start of [p]. *)
Definition pseudo_header (p : bytes) (len : Z) : bytes :=
  slice p ip_src_addr 4 ++ slice p ip_dst_addr 4 ++ [0] ++ slice p ip_next_proto_id 1 ++
  [len / 256; len mod 256].

Lemma peek_ok p off n : (off + n ≤ length p)%nat → peek p off n = Some (field p off n).
Proof. intros. unfold peek. by rewrite decide_True. Qed.

Lemma le_field p off n :
  is_bytes p → (off + n ≤ length p)%nat → le n (field p off n) = slice p off n.
Proof.
  intros Hb Hl. unfold field. rewrite <- (length_slice p off n Hl) at 1.
  by apply le_le_val, slice_is_bytes.
Qed.

Lemma phdr_spec p total :
  is_bytes p → (20 ≤ length p)%nat → 20 ≤ total < 65536 →
  field p ip_total_length 2 = bswap16 total →
  ∃ c, rte_ipv4_phdr_cksum p = Some c ∧ folded c (word_sum (pseudo_header p (total - 20))).
Proof.
  intros Hb Hl Ht Hf. unfold rte_ipv4_phdr_cksum.
  rewrite !peek_ok by (unfold ip_src_addr, ip_dst_addr, ip_next_proto_id, ip_total_length; lia).
  cbn [mbind option_bind]. rewrite Hf, bswap16_involutive by (unfold fits; lia).
  unfold sizeof_ipv4_hdr. rewrite (wrap_id 16) by (unfold fits; lia).
  assert (psd_hdr (field p ip_src_addr 4) (field p ip_dst_addr 4) (field p ip_next_proto_id 1)
            (bswap16 (total - 20)) = pseudo_header p (total - 20)) as ->.
  { unfold psd_hdr, pseudo_header.
    rewrite !le_field by (done || (unfold ip_src_addr, ip_dst_addr, ip_next_proto_id; lia)).
    rewrite le_bswap16 by (unfold fits; lia). by rewrite (le_1 0) by done. }
  destruct (rte_raw_cksum_spec (pseudo_header p (total - 20)) 12) as (c & Hc & Hfold).
  - unfold pseudo_header. rewrite !is_bytes_app. split_and!; try by apply slice_is_bytes.
    + by constructor.
    + repeat constructor; Z.div_mod_to_equations; lia.
  - unfold pseudo_header. rewrite !length_app, !length_slice; [simpl; lia|..];
      unfold ip_src_addr, ip_dst_addr, ip_next_proto_id; lia.
  - lia.
  - exists c. split; [done|]. rewrite take_ge in Hfold; [done|].
    unfold pseudo_header. rewrite !length_app, !length_slice; [simpl; lia|..];
      unfold ip_src_addr, ip_dst_addr, ip_next_proto_id; lia.
Qed.

Lemma poke_field_same d off n x d' :
  poke d off (le n x) = Some d' → x ∈u 8 * Z.of_nat n → field d' off n = x.
Proof.
  intros H%poke_slice_same Hx. rewrite length_le in H. unfold field. rewrite H.
  by eapply le_val_le_fits.
Qed.

Lemma poke_field_other d off l d' o n :
  poke d off l = Some d' → (o + n ≤ off ∨ off + length l ≤ o)%nat → field d' o n = field d o n.
Proof. intros. unfold field. by erewrite poke_slice_other. Qed.

(** Stores beyond a prefix leave it alone. *)
Lemma poke_prefix d off l d' n : poke d off l = Some d' → (n ≤ off)%nat → take n d' = take n d.
Proof. intros H ?. apply (poke_slice_other _ _ _ _ 0 n) in H; [|lia]. done. Qed.

Lemma poke_exists d off n x :
  is_bytes d → (off + n ≤ length d)%nat →
  ∃ d', poke d off (le n x) = Some d' ∧ is_bytes d' ∧ length d' = length d.
Proof.
  intros Hb Hl. eexists. assert (poke d off (le n x) = Some _) as H
    by (apply poke_ok; by rewrite length_le).
  split; [exact H|]. split; [by eapply poke_is_bytes, le_is_bytes|by eapply poke_length].
Qed.

(** The pseudo header is read from the addresses, the protocol and the length only. *)
Lemma pseudo_header_poke d off x d' len :
  poke d off (le 2 x) = Some d' → (20 ≤ off)%nat → pseudo_header d' len = pseudo_header d len.
Proof.
  intros H ?. unfold pseudo_header.
  rewrite !(poke_slice_other _ _ _ _ _ _ H)
    by (unfold ip_src_addr, ip_dst_addr, ip_next_proto_id; lia). done.
Qed.

(** The first half of [xsum_tcpip_tso]: the IP header. *)
Lemma tso_ip_header p total :
  is_bytes p → (38 ≤ length p)%nat → total ∈u 16 →
  ∃ p1 p2 c p3 p4, poke p ip_total_length (le 2 (bswap16 total)) = Some p1 ∧
    poke p1 ip_hdr_checksum (le 2 0) = Some p2 ∧ rte_raw_cksum p2 20 = Some c ∧
    poke p2 ip_hdr_checksum (le 2 (complement16 c)) = Some p3 ∧
    poke p3 36 (le 2 0) = Some p4 ∧
    is_bytes p4 ∧ length p4 = length p ∧ field p4 ip_total_length 2 = bswap16 total ∧
    checks (word_sum (take 20 p4)).
Proof.
  intros Hb Hl Ht.
  destruct (poke_exists p ip_total_length 2 (bswap16 total)) as (p1 & E1 & B1 & L1);
    [done|unfold ip_total_length; lia|].
  destruct (poke_exists p1 ip_hdr_checksum 2 0) as (p2 & E2 & B2 & L2);
    [done|unfold ip_hdr_checksum; lia|].
  destruct (xsum_at_spec ip_hdr_checksum p2 20) as (c & p3 & K3 & E3 & C3);
    [done|by exists 5%nat|unfold ip_hdr_checksum; lia|lia|].
  assert (is_bytes p3) as B3 by (eapply poke_is_bytes; [exact E3|done|apply le_is_bytes]).
  pose proof (poke_length _ _ _ _ E3) as L3.
  destruct (poke_exists p3 36 2 0) as (p4 & E4 & B4 & L4); [done|lia|].
  exists p1, p2, c, p3, p4. split_and!; try done; [lia|..].
  - rewrite (poke_field_other _ _ _ _ _ _ E4), (poke_field_other _ _ _ _ _ _ E3),
      (poke_field_other _ _ _ _ _ _ E2)
      by (rewrite ?length_le; unfold ip_hdr_checksum, ip_total_length; lia).
    apply (poke_field_same _ _ _ _ _ E1), (bswap16_fits total Ht).
  - rewrite (poke_prefix _ _ _ _ 20 E4) by lia.
    by rewrite (field_zero _ _ _ E2), Z.add_0_r in C3.
Qed.

(** The second half: the segment with its pseudo header. *)
Lemma tso_tcp_header p len total :
  is_bytes p → 18 ≤ len → total = 20 + len → total < 65536 → total ≤ Z.of_nat (length p) →
  field p ip_total_length 2 = bswap16 total → field p 36 2 = 0 →
  ∃ c1 c2 p', rte_raw_cksum (drop 20 p) len = Some c1 ∧ rte_ipv4_phdr_cksum p = Some c2 ∧
    poke p 36 (le 2 (complement16 (u32 (c1 + c2)))) = Some p' ∧
    checks (word_sum (slice p' 20 (Z.to_nat len)) + word_sum (pseudo_header p len)).
Proof.
  intros Hb H4 Htot Ht Hl Hf Hz.
  destruct (rte_raw_cksum_spec (drop 20 p) len) as (c1 & K1 & F1);
    [auto with hcop|rewrite length_drop; lia|lia|].
  destruct (phdr_spec p total Hb) as (c2 & K2 & F2); [lia|lia|done|].
  replace (total - 20) with len in F2 by lia.
  set (n := Z.to_nat len) in *. set (seg := take n (drop 20 p)) in *.
  set (s2 := word_sum (pseudo_header p len)) in *.
  assert (is_bytes seg) as Hseg by (unfold seg; auto with hcop).
  pose proof (word_sum_bounds seg Hseg). assert (0 ≤ s2) as Hs2.
  { apply (Z.mul_le_mono_pos_l _ _ 2); [lia|]. apply word_sum_bounds. unfold pseudo_header.
    rewrite !is_bytes_app. split_and!; try (by apply slice_is_bytes); repeat constructor;
    Z.div_mod_to_equations; lia. }
  destruct (folded_add c1 _ c2 s2 F1 F2) as (c & Ec & Fc); [lia|done|].
  destruct (poke_exists p 36 2 (0xffff - c)) as (p' & E & _ & _); [done|lia|].
  exists c1, c2, p'. rewrite Ec. split_and!; [done..|].
  pose proof (poke_drop p 20 16 _ _ E) as E'.
  apply (poke_take _ _ _ _ n) in E'; [|rewrite length_le, length_drop; lia].
  apply (store_checks seg 16 c s2) in E'; [|done|by exists 8%nat|done|done].
  unfold field in E'. unfold seg in E' at 1. rewrite slice_take, slice_drop in E' by lia.
  change (le_val (slice p (20 + 16) 2)) with (field p 36 2) in E'. rewrite Hz in E'.
  exact E'.
Qed.

(** For a segment under a 20-byte IPv4 header, [xsum_tcpip_tso] writes the total length in
    network order and two checksums that a receiver accepts: that of the IP header, and that
    of the TCP segment with its pseudo header.  It touches nothing else. *)
Lemma tso_headers_ok p l4len paylen :
  is_bytes p → 18 ≤ l4len → 0 ≤ paylen → 20 + l4len + paylen < 65536 →
  20 + l4len + paylen ≤ Z.of_nat (length p) →
  ∃ p', xsum_tcpip_tso p 20 l4len paylen = Some p' ∧ length p' = length p ∧ is_bytes p' ∧
    field p' ip_total_length 2 = bswap16 (20 + l4len + paylen) ∧
    checks (word_sum (take 20 p')) ∧
    checks (word_sum (slice p' 20 (Z.to_nat (l4len + paylen))) +
            word_sum (pseudo_header p' (l4len + paylen))) ∧
    ∀ o n, (o + n ≤ 2 ∨ 4 ≤ o ∧ o + n ≤ 10 ∨ 12 ≤ o ∧ o + n ≤ 36 ∨ 38 ≤ o)%nat →
      slice p' o n = slice p o n.
Proof.
  intros Hb H4 Hpay Ht Hl. unfold xsum_tcpip_tso.
  change (Z.to_nat 20 + tcp_cksum)%nat with 36%nat. change (Z.to_nat 20) with 20%nat.
  assert ((20 + l4len + paylen) ∈u 16) as Hfit by (split; lia). rewrite (wrap_id 16) by done.
  destruct (tso_ip_header p _ Hb ltac:(lia) Hfit)
    as (p1 & p2 & c & p3 & p4 & E1 & E2 & K & E3 & E4 & B4 & L4 & Hf & Hip).
  destruct (tso_tcp_header p4 (l4len + paylen) (20 + l4len + paylen))
    as (c1 & c2 & p' & K1 & K2 & E5 & Htcp); try done; try lia; [by eapply field_zero|].
  exists p'. rewrite E1. cbn [mbind option_bind]. rewrite E2. cbn [mbind option_bind].
  rewrite K. cbn [mbind option_bind]. rewrite E3. cbn [mbind option_bind].
  rewrite E4. cbn [mbind option_bind]. rewrite K1. cbn [mbind option_bind].
  rewrite K2. cbn [mbind option_bind]. split; [exact E5|].
  rewrite (poke_length _ _ _ _ E5). split; [done|].
  split; [by eapply poke_is_bytes; [exact E5|..|apply le_is_bytes]|].
  rewrite (poke_field_other _ _ _ _ _ _ E5) by (unfold ip_total_length; lia).
  rewrite (poke_prefix _ _ _ _ 20 E5), (pseudo_header_poke _ _ _ _ _ E5) by lia.
  split_and!; try done. intros o n Hon.
  rewrite (poke_slice_other _ _ _ _ _ _ E5), (poke_slice_other _ _ _ _ _ _ E4),
    (poke_slice_other _ _ _ _ _ _ E3), (poke_slice_other _ _ _ _ _ _ E2),
    (poke_slice_other _ _ _ _ _ _ E1)
    by (rewrite ?length_le; unfold ip_hdr_checksum, ip_total_length; lia). done.
Qed.

(** A 46-byte segment under an IPv4 header without options. *)
Definition demo_segment : bytes :=
  [0x45; 0; 0; 0; 0x12; 0x34; 0; 0; 64; 6; 0; 0; 10; 0; 0; 1; 10; 0; 0; 2] ++
  [4; 210; 0; 80; 0; 0; 0; 1; 0; 0; 0; 0; 0x50; 0x10; 1; 0; 0; 0; 0; 0] ++
  [1; 2; 3; 4; 5; 6].

Lemma l4_checksum_valid_witness :
  ∃ buf', xsum_udp (drop 20 demo_segment) 26 = Some buf' ∧
    checks (word_sum (take 26 buf') + field (drop 20 demo_segment) udp_dgram_cksum 2) ∧
    ∀ o n, (o + n ≤ udp_dgram_cksum ∨ udp_dgram_cksum + 2 ≤ o)%nat →
      slice buf' o n = slice (drop 20 demo_segment) o n.
Proof.
  apply (l4_checksum_valid (drop 20 demo_segment) 26).
  - by apply is_bytesb_sound. - done. - done. - left. - done.
Defined.

(** Two limits of the code.  With IP options the pseudo header is summed with the length of a
    segment that includes them, and the TCP checksum is wrong; and a UDP checksum that comes
    out as zero is stored as zero, which RFC 768 reserves for "no checksum". *)
Definition options_segment : bytes :=
  take 20 demo_segment ++ [1; 1; 1; 1] ++ drop 20 demo_segment.

Theorem tso_options_broken :
  ∃ p', xsum_tcpip_tso options_segment 24 20 6 = Some p' ∧
    ¬ checks (word_sum (slice p' 24 26) + word_sum (pseudo_header p' 26)).
Proof. eexists. split; [by vm_compute|]. by intros [_ H]; vm_compute in H. Qed.

Theorem udp_zero_checksum :
  ∃ buf', xsum_udp [0; 0; 0; 0; 0; 0; 0; 0; 0xff; 0xff] 10 = Some buf' ∧
    field buf' udp_dgram_cksum 2 = 0.
Proof. eexists. split; by vm_compute. Qed.

Lemma bswap32_parts x :
  x ∈u 32 → bswap32 x ∈u 32 ∧
  bswap32 x mod 65536 = bswap16 (x / 65536) ∧ bswap32 x / 65536 = bswap16 (x mod 65536).
Proof.
  intros Hx. unfold bswap32.
  assert (bswap16 (x / 65536) ∈u 16) as H1.
  { apply bswap16_fits. revert Hx. unfold fits. change (2 ^ 32) with (65536 * 65536).
    change (2 ^ 16) with 65536. Z.div_mod_to_equations. lia. }
  assert (bswap16 (x mod 65536) ∈u 16) as H2
    by (apply bswap16_fits; apply Z.mod_pos_bound; lia).
  unfold fits in *. change (2 ^ 32) with (65536 * 65536). change (2 ^ 16) with 65536 in *.
  revert H1 H2. generalize (bswap16 (x / 65536)) (bswap16 (x mod 65536)). intros b a Hb Ha.
  split; [lia|]. rewrite (Z.mul_comm 65536), Z.add_comm.
  rewrite Z_mod_plus_full, Z.div_add, Z.mod_small, Z.div_small by lia. lia.
Qed.

Lemma bswap32_involutive x : x ∈u 32 → bswap32 (bswap32 x) = x.
Proof.
  intros Hx. destruct (bswap32_parts x Hx) as (_ & Hm & Hd). unfold bswap32 at 1.
  rewrite Hm, Hd, !bswap16_involutive.
  - rewrite (Z.div_mod x 65536) at 3 by lia. done.
  - apply Z.mod_pos_bound. lia.
  - revert Hx. unfold fits. change (2 ^ 32) with (65536 * 65536).
    change (2 ^ 16) with 65536. Z.div_mod_to_equations. lia.
Qed.

(** [tso_postupdate_header] moves on to the next segment: the sequence number by the payload,
    the identification by one, both modulo their width; nothing else changes. *)
Lemma tso_next_segment p iplen l4len paylen :
  is_bytes p → 20 ≤ iplen → iplen + 8 ≤ Z.of_nat (length p) →
  let seq := (Z.to_nat iplen + tcp_sent_seq)%nat in
  ∃ p', tso_postupdate_header p iplen l4len paylen = Some p' ∧ length p' = length p ∧
    is_bytes p' ∧ bswap32 (field p' seq 4) = u32 (bswap32 (field p seq 4) + paylen) ∧
    bswap16 (field p' ip_packet_id 2) = u16 (bswap16 (field p ip_packet_id 2) + 1) ∧
    ∀ o n, (o + n ≤ ip_packet_id ∨ ip_packet_id + 2 ≤ o ∧ o + n ≤ seq ∨ seq + 4 ≤ o)%nat →
      slice p' o n = slice p o n.
Proof.
  intros Hb Hi Hl seq. unfold tso_postupdate_header.
  assert (24 ≤ seq)%nat by (unfold seq, tcp_sent_seq; lia).
  rewrite peek_ok by (unfold seq, tcp_sent_seq; lia). cbn [mbind option_bind]. fold seq.
  destruct (poke_exists p seq 4 (bswap32 (u32 (bswap32 (field p seq 4) + paylen))))
    as (p1 & E1 & B1 & L1); [done|unfold seq, tcp_sent_seq; lia|].
  rewrite E1. cbn [mbind option_bind]. rewrite peek_ok by (unfold ip_packet_id; lia).
  cbn [mbind option_bind]. unfold ip_packet_id in *.
  rewrite (poke_field_other _ _ _ _ _ _ E1) by lia.
  destruct (poke_exists p1 4 2 (bswap16 (u16 (bswap16 (field p 4 2) + 1))))
    as (p2 & E2 & B2 & L2); [done|lia|].
  exists p2. split; [exact E2|]. split_and!; [congruence|done| | |].
  - rewrite (poke_field_other _ _ _ _ _ _ E2), (poke_field_same _ _ _ _ _ E1)
      by (rewrite ?length_le; try lia; apply bswap32_parts; apply wrap_fits; lia).
    apply bswap32_involutive, wrap_fits. lia.
  - rewrite (poke_field_same _ _ _ _ _ E2) by (apply bswap16_fits, wrap_fits; lia).
    apply bswap16_involutive, wrap_fits. lia.
  - intros o n Hon. rewrite (poke_slice_other _ _ _ _ _ _ E2), (poke_slice_other _ _ _ _ _ _ E1)
      by (rewrite length_le; lia). done.
Qed.

End xsums.
