(* ===== verification/I40ePtp.v ===== *)
(** * The PTP hardware clock of the i40e model

    Translation of sims/nic/i40e_bm/i40e_ptp.cc.  The code keeps no clock that ticks: it
    computes, when the clock is used, what the cycles since the last use have added.  The
    reference is the clock itself, a 96-bit fixed-point register that every cycle increments.
    Without adjustments the two cannot be told apart; with an adjustment they can, because
    the test that splits it over the cycles is the wrong way round. *)

From S2P Require Import Prelude.

Module ptp.

(** ** The class [ptpmgr] *)

Definition CLOCK_HZ : Z := 625000000.
Definition I40E_PRTTSYN_ADJ_TSYNADJ_SHIFT : Z := 0.
Definition I40E_PRTTSYN_ADJ_TSYNADJ_MASK : Z := 0x7FFFFFFF.
Definition I40E_PRTTSYN_ADJ_SIGN_MASK : Z := 0x80000000.

Record ptpmgr := MkPtp {
  last_updated : Z;  (* uint64_t *)
  last_val : Z;      (* __uint128_t *)
  offset : Z;        (* int64_t *)
  inc_val : Z;       (* uint64_t *)
  adj_neg : bool;
  adj_val : Z        (* uint32_t *)
}.

Definition new_ptpmgr : ptpmgr := MkPtp 0 0 0 0 false 0.

Abbreviation u128 := (wrap 128).

(** The conversion of an unsigned value to [int64_t]. *)
Definition to_i64 (x : Z) : Z := let y := u64 x in if y <? 2 ^ 63 then y else y - 2 ^ 64.

Definition ps_per_cycle : Z := 1000000000000 / CLOCK_HZ.

(** [now] is [dev.runner_->TimePs()]. *)
Definition update_clock (m : ptpmgr) (now : Z) : Z * ptpmgr :=
  let cycle_now := now / ps_per_cycle in
  let cycles_passed := u64 (cycle_now - last_updated m) in
  let val := u128 (last_val m + u128 (inc_val m * cycles_passed)) in
  let '(val, adj_val') :=
    if adj_val m =? 0 then (val, adj_val m)
    else
      let '(adj, adj_val') :=
        if adj_val m <=? cycles_passed then (cycles_passed, u32 (adj_val m - cycles_passed))
        else (adj_val m, 0) in
      let adj := u128 (Z.shiftl adj 32) in
      (if adj_neg m then u128 (val - adj) else u128 (val + adj), adj_val') in
  (u64 (Z.shiftr val 32 + offset m),
   MkPtp cycle_now val (offset m) (inc_val m) (adj_neg m) adj_val').

Definition phc_read (m : ptpmgr) (now : Z) : Z * ptpmgr := update_clock m now.

Definition phc_write (m : ptpmgr) (now val : Z) : ptpmgr :=
  let '(cur_val, m) := update_clock m now in
  MkPtp (last_updated m) (last_val m) (to_i64 (offset m + u64 (val - cur_val)))
        (inc_val m) (adj_neg m) (adj_val m).

Definition adj_get (m : ptpmgr) (now : Z) : Z * ptpmgr :=
  let '(_, m) := update_clock m now in
  let x := Z.land (u32 (Z.shiftl (adj_val m) I40E_PRTTSYN_ADJ_TSYNADJ_SHIFT))
                  I40E_PRTTSYN_ADJ_TSYNADJ_MASK in
  (if adj_neg m then Z.lor x I40E_PRTTSYN_ADJ_SIGN_MASK else x, m).

Definition adj_set (m : ptpmgr) (now val : Z) : ptpmgr :=
  let '(_, m) := update_clock m now in
  MkPtp (last_updated m) (last_val m) (offset m) (inc_val m)
        (negb (Z.land val I40E_PRTTSYN_ADJ_SIGN_MASK =? 0))
        (Z.shiftr (Z.land val I40E_PRTTSYN_ADJ_TSYNADJ_MASK) I40E_PRTTSYN_ADJ_TSYNADJ_SHIFT).

Definition inc_set (m : ptpmgr) (now inc : Z) : ptpmgr :=
  let '(_, m) := update_clock m now in
  MkPtp (last_updated m) (last_val m) (offset m) inc (adj_neg m) (adj_val m).

(** ** Uses of the clock *)

Inductive ptp_op := PhcRead | PhcWrite (val : Z) | AdjGet | AdjSet (val : Z) | IncSet (inc : Z).

(** An operation at time [now], with the value it returns. *)
Definition ptp_step (m : ptpmgr) (now : Z) (o : ptp_op) : list Z * ptpmgr :=
  match o with
  | PhcRead => let '(v, m) := phc_read m now in ([v], m)
  | PhcWrite val => ([], phc_write m now val)
  | AdjGet => let '(_, m) := adj_get m now in ([], m)
  | AdjSet val => ([], adj_set m now val)
  | IncSet inc => ([], inc_set m now inc)
  end.

Fixpoint ptp_run (m : ptpmgr) (os : list (Z * ptp_op)) : list Z * ptpmgr :=
  match os with
  | [] => ([], m)
  | (now, o) :: os =>
      let '(out, m) := ptp_step m now o in
      let '(out', m) := ptp_run m os in (out ++ out', m)
  end.

(** ** The clock as hardware *)

(** 64 bits of nanoseconds and 32 bits of fraction. *)
Record phc := MkPhc { cycle : Z; reg : Z; inc : Z }.

Definition tick (p : phc) : phc := MkPhc (cycle p + 1) (wrap 96 (reg p + inc p)) (inc p).

Definition ticks_until (p : phc) (now : Z) : phc :=
  Nat.iter (Z.to_nat (now / 1600 - cycle p)) tick p.

Definition hw_step (p : phc) (now : Z) (o : ptp_op) : list Z * phc :=
  let p := ticks_until p now in
  match o with
  | PhcRead => ([reg p / 2 ^ 32], p)
  | PhcWrite val => ([], MkPhc (cycle p) (val * 2 ^ 32 + reg p mod 2 ^ 32) (inc p))
  | AdjGet | AdjSet _ => ([], p)
  | IncSet i => ([], MkPhc (cycle p) (reg p) i)
  end.

Fixpoint hw_run (p : phc) (os : list (Z * ptp_op)) : list Z * phc :=
  match os with
  | [] => ([], p)
  | (now, o) :: os =>
      let '(out, p) := hw_step p now o in
      let '(out', p) := hw_run p os in (out ++ out', p)
  end.

(** Operations as the registers deliver them; adjustments only by zero. *)
Definition valid_op (o : ptp_op) : Prop :=
  match o with
  | PhcWrite val => val ∈u 64
  | AdjSet val => Z.land val I40E_PRTTSYN_ADJ_TSYNADJ_MASK = 0
  | IncSet i => i ∈u 64
  | _ => True
  end.

(** Times do not decrease, and fit the width of [TimePs]. *)
Fixpoint timed (t : Z) (os : list (Z * ptp_op)) : Prop :=
  match os with
  | [] => True
  | (now, o) :: os => t ≤ now ∧ now ∈u 64 ∧ valid_op o ∧ timed now os
  end.

(** ** The lazy clock is the hardware clock *)

Lemma iter_tick n p :
  reg p ∈u 96 →
  Nat.iter n tick p = MkPhc (cycle p + Z.of_nat n) (wrap 96 (reg p + inc p * Z.of_nat n)) (inc p).
Proof.
  intros Hp. induction n as [|n IH].
  - rewrite Z.mul_0_r, !Z.add_0_r, wrap_id by done. by destruct p.
  - rewrite Nat.iter_succ, IH. unfold tick. cbn [cycle reg inc]. unfold wrap.
    rewrite Zplus_mod_idemp_l. f_equal; [lia|]. f_equal. lia.
Qed.

(** The relation at the time of the last use. *)
Definition related (m : ptpmgr) (p : phc) : Prop :=
  adj_val m = 0 ∧ cycle p = last_updated m ∧ inc p = inc_val m ∧
  reg p = wrap 96 (last_val m + offset m * 2 ^ 32).

(** The integer part of the register. *)
Lemma int_part x : wrap 96 x / 2 ^ 32 = u64 (x / 2 ^ 32).
Proof.
  unfold wrap. change (2 ^ 96) with (2 ^ 32 * 2 ^ 64). rewrite Z.rem_mul_r by lia.
  rewrite (Z.mul_comm (2 ^ 32)), Z.div_add by lia.
  by rewrite (Z.div_small (x mod 2 ^ 32)) by (apply Z.mod_pos_bound; lia).
Qed.

(** Dropping the bits above the register at any point of a sum. *)
Lemma wrap96_u128 x y : wrap 96 (u128 x + y) = wrap 96 (x + y).
Proof.
  unfold wrap. rewrite (Z.mod_eq x (2 ^ 128)) by lia.
  replace (x - 2 ^ 128 * (x / 2 ^ 128) + y)
    with (x + y + (- (2 ^ 32 * (x / 2 ^ 128))) * 2 ^ 96) by lia.
  apply Z_mod_plus_full.
Qed.

Lemma related_ticks m p now :
  related m p → 0 ≤ cycle p ≤ now / 1600 → now ∈u 64 →
  related (update_clock m now).2 (ticks_until p now) ∧
  (update_clock m now).1 = reg (ticks_until p now) / 2 ^ 32 ∧
  cycle (ticks_until p now) = now / 1600.
Proof.
  intros (Ha & Hc & Hi & Hr) Hn Hf. unfold ticks_until.
  assert (reg p ∈u 96) as Hfits by (rewrite Hr; apply wrap_fits; lia).
  rewrite iter_tick by done. rewrite Z2Nat.id by lia. cbn [reg cycle].
  unfold update_clock, related. rewrite Ha. change ps_per_cycle with 1600. cbn.
  set (n := now / 1600 - cycle p) in *.
  assert (u64 (now / 1600 - last_updated m) = n) as ->.
  { rewrite <- Hc. apply wrap_id. unfold fits in *. split; [lia|].
    apply Z.le_lt_trans with now; [|lia]. unfold n. Z.div_mod_to_equations. lia. }
  assert (wrap 96 (reg p + inc p * n) =
    wrap 96 (u128 (last_val m + u128 (inc_val m * n)) + offset m * 2 ^ 32)) as E.
  { rewrite wrap96_u128. rewrite (Z.add_comm (last_val m)), <- Z.add_assoc, wrap96_u128.
    rewrite Hr, Hi. unfold wrap. rewrite Zplus_mod_idemp_l. f_equal. lia. }
  split_and!; [done|lia|done|exact E| |lia].
  rewrite E, int_part, Z.div_add, Z.shiftr_div_pow2 by lia. done.
Qed.

(** [offset += val - cur_val] makes the clock show [val]. *)
Lemma write_offset v o val :
  val ∈u 64 →
  wrap 96 (v + to_i64 (o + u64 (val - u64 (v / 2 ^ 32 + o))) * 2 ^ 32) =
  val * 2 ^ 32 + wrap 96 (v + o * 2 ^ 32) mod 2 ^ 32.
Proof.
  intros Hv. set (o' := to_i64 _).
  assert (u64 (v / 2 ^ 32 + o') = val) as Ho'.
  { unfold o', to_i64, wrap. rewrite (Z.add_comm o), Zplus_mod_idemp_l.
    assert (∀ x, (v / 2 ^ 32 + (if x mod 2 ^ 64 <? 2 ^ 63 then x mod 2 ^ 64 else x mod 2 ^ 64 - 2 ^ 64))
        mod 2 ^ 64 = (v / 2 ^ 32 + x) mod 2 ^ 64) as ->.
    { intros x. case_match; [by rewrite Zplus_mod_idemp_r|].
      replace (v / 2 ^ 32 + (x mod 2 ^ 64 - 2 ^ 64))
        with (v / 2 ^ 32 + x mod 2 ^ 64 + (-1) * 2 ^ 64) by lia.
      by rewrite Z_mod_plus_full, Zplus_mod_idemp_r. }
    replace (v / 2 ^ 32 + (val - (v / 2 ^ 32 + o) mod 2 ^ 64 + o))
      with (val + (v / 2 ^ 32 + o) - (v / 2 ^ 32 + o) mod 2 ^ 64) by lia.
    rewrite Zminus_mod_idemp_r. replace (val + _ - _) with val by lia. by apply Z.mod_small. }
  unfold wrap. change (2 ^ 96) with (2 ^ 32 * 2 ^ 64). rewrite !Z.rem_mul_r by lia.
  rewrite !Z_mod_plus_full, !Z.div_add by lia. unfold wrap in Ho'. rewrite Ho'.
  rewrite (Z.mul_comm (2 ^ 32) ((v / 2 ^ 32 + o) mod 2 ^ 64)), Z_mod_plus_full, Zmod_mod. lia.
Qed.

Lemma related_step m p now o :
  related m p → 0 ≤ cycle p ≤ now / 1600 → now ∈u 64 → valid_op o →
  (ptp_step m now o).1 = (hw_step p now o).1 ∧
  related (ptp_step m now o).2 (hw_step p now o).2 ∧ cycle (hw_step p now o).2 = now / 1600.
Proof.
  intros Hr Hc Hn Ho. destruct (related_ticks m p now Hr Hc Hn) as (Hr' & Hv & Hc').
  unfold ptp_step, hw_step, phc_read, phc_write, adj_get, adj_set, inc_set.
  destruct (update_clock m now) as [cur m'] eqn:E. cbn [fst snd] in *.
  destruct Hr' as (H1 & H2 & H3 & H4). destruct o as [|val| |val|i]; cbn in *.
  - split; [by rewrite Hv|]. done.
  - split; [done|]. split; [|done]. split_and!; cbn; try done.
    rewrite H4, Hv, H4, int_part, Z.div_add by lia. symmetry. by apply write_offset.
  - done.
  - split; [done|]. split; [|done]. by split_and!.
  - done.
Qed.

Lemma related_run os : ∀ m p t,
  related m p → 0 ≤ cycle p ≤ t / 1600 → timed t os → (ptp_run m os).1 = (hw_run p os).1.
Proof.
  induction os as [|[now o] os IH]; intros m p t Hr Hc Ht; [done|].
  destruct Ht as (? & Hn & Ho & Ht). cbn [ptp_run hw_run].
  assert (t / 1600 ≤ now / 1600) by (apply Z.div_le_mono; lia).
  destruct (related_step m p now o Hr ltac:(lia) Hn Ho) as (E & Hr' & Hc').
  destruct (ptp_step m now o) as [out m']. destruct (hw_step p now o) as [out' p'].
  cbn [fst snd] in *. subst out'. specialize (IH m' p' now Hr' ltac:(lia) Ht).
  destruct (ptp_run m' os), (hw_run p' os). cbn in *. by subst.
Qed.

(** C35: as long as no adjustment is active (the register that starts one is only written with an
    amount of zero), the clock that is brought up to date only when it is used, read, written and
    re-programmed at any sequence of times, returns what the clock that counts every cycle
    returns: the increments are exact in the fraction, a write sets the time without disturbing
    it, and a change of the increment takes effect at its cycle. (An active adjustment is not
    applied cycle by cycle, see [adjustment_runs_away].) *)
Theorem phc_refines_hardware os :
  timed 0 os → (ptp_run new_ptpmgr os).1 = (hw_run (MkPhc 0 0 0) os).1.
Proof. by apply related_run. Qed.

Definition demo_uses : list (Z * ptp_op) :=
  [(0, IncSet 0x199999999); (1600000, PhcRead); (1600000, PhcWrite 5000000000);
   (3200001, PhcRead)].

Lemma phc_refines_hardware_witness :
  (ptp_run new_ptpmgr demo_uses).1 = [1599; 5000001600] ∧
  (ptp_run new_ptpmgr demo_uses).1 = (hw_run (MkPhc 0 0 0) demo_uses).1.
Proof.
  split; [by vm_compute|]. apply (phc_refines_hardware demo_uses). by vm_compute.
Defined.

(** ** Adjustments

    The register takes a number of nanoseconds that the clock should be moved by, one per
    cycle.  The code tests [adj_val <= cycles_passed] and applies [cycles_passed] in that
    case: 10 ns, looked at after 100 cycles, move the clock by 100 ns and leave almost
    2^32 ns to be applied.  And a use of the clock before the adjustment has run applies all
    of it at once. *)
Theorem adjustment_runs_away :
  ∃ m, m = (update_clock (adj_set new_ptpmgr 0 10) 160000).2 ∧
    (update_clock (adj_set new_ptpmgr 0 10) 160000).1 = 100 ∧ adj_val m = 2 ^ 32 - 90 ∧
    (update_clock m 161600).1 = 100 + (2 ^ 32 - 90).
Proof. eexists. split; [done|]. by vm_compute. Qed.

Theorem adjustment_at_once : (adj_get (adj_set new_ptpmgr 0 10) 0).1 = 0 ∧
  (update_clock (adj_set new_ptpmgr 0 10) 0).1 = 10.
Proof. by vm_compute. Qed.

End ptp.
