(* ===== verification/I40eHmc.v ===== *)
(** * The host memory cache of the i40e model

    Translation of sims/nic/i40e_bm/i40e_hmc.cc: a table of 4096 segment descriptors, written
    and read through a command register and two data registers, and the translation of the
    private addresses under which the device reads queue contexts.  The theorems say that
    descriptors survive the registers, and that a translated access stays in its segment. *)

From S2P Require Import Prelude.

Module hmc.

(** ** Registers *)

Definition I40E_PFHMC_SDCMD : Z := 0x000C0000.
Definition I40E_PFHMC_SDDATALOW : Z := 0x000C0100.
Definition I40E_PFHMC_SDDATAHIGH : Z := 0x000C0200.

(** [I40E_MASK(mask, shift)] as it reads in 32 bits. *)
Definition PMSDIDX_MASK : Z := Z.shiftl (Z.ones 12) 0.
Definition PMSDWR_MASK : Z := Z.shiftl 1 31.
Definition PMSDVALID_MASK : Z := Z.shiftl 1 0.
Definition PMSDTYPE_MASK : Z := Z.shiftl 1 1.
Definition PMSDBPCOUNT_MASK : Z := Z.shiftl (Z.ones 10) 2.
Definition PMSDDATALOW_MASK : Z := Z.shiftl (Z.ones 20) 12.

Record hmc_regs := MkRegs { pfhmc_sdcmd : Z; pfhmc_sddatalow : Z; pfhmc_sddatahigh : Z }.

(** ** The class [host_mem_cache] *)

Definition MAX_SEGMENTS : nat := N.to_nat 0x1000.

Record segment := MkSegment { addr : Z; pgcount : Z; valid : bool; direct : bool }.

Definition empty_segment : segment := MkSegment 0 0 false false.

Definition reset : list segment := replicate MAX_SEGMENTS empty_segment.

(** The fields of a descriptor, from and to the data registers. *)
Definition segment_of_regs (lo hi : Z) : segment :=
  MkSegment
    (Z.lor (u32 (Z.shiftl (Z.shiftr (Z.land lo PMSDDATALOW_MASK) 12) 12)) (Z.shiftl hi 32))
    (Z.shiftr (Z.land lo PMSDBPCOUNT_MASK) 2)
    (negb (Z.land lo PMSDVALID_MASK =? 0))
    (negb (Z.land lo PMSDTYPE_MASK =? 0)).

Definition low_of_segment (s : segment) : Z :=
  let lo := u32 (Z.land (Z.shiftl (Z.shiftr (addr s) 12) 12) PMSDDATALOW_MASK) in
  let lo := Z.lor lo (Z.land (Z.shiftl (pgcount s) 2) PMSDBPCOUNT_MASK) in
  let lo := if valid s then Z.lor lo PMSDVALID_MASK else lo in
  if direct s then Z.lor lo PMSDTYPE_MASK else lo.

Definition high_of_segment (s : segment) : Z := u32 (Z.shiftr (addr s) 32).

(** [reg_updated] after the register at [a] was written; the index is masked to 12 bits. *)
Definition reg_updated (segs : list segment) (r : hmc_regs) (a : Z) :
    option (list segment * hmc_regs) :=
  if a =? I40E_PFHMC_SDCMD then
    let cmd := pfhmc_sdcmd r in
    let idx := Z.to_nat (u16 (Z.shiftr (Z.land cmd PMSDIDX_MASK) 0)) in
    s ← segs !! idx;
    if negb (Z.land cmd PMSDWR_MASK =? 0) then
      Some (<[idx := segment_of_regs (pfhmc_sddatalow r) (pfhmc_sddatahigh r)]> segs, r)
    else Some (segs, MkRegs cmd (low_of_segment s) (high_of_segment s))
  else Some (segs, r).

(** The outcomes of [issue_mem_op]: a DMA at the translated address, a failed operation for
    which no completion will come, or [abort()]. *)
Inductive mem_result := MemIssued (dma_addr : Z) | MemFailed | MemAbort.

Definition issue_mem_op (segs : list segment) (a len : Z) : mem_result :=
  let seg_idx := u16 (Z.shiftr a 21) in
  let seg_idx_last := u16 (Z.shiftr (u64 (a + len - 1)) 21) in
  let dir_off := Z.land a (Z.ones 21) in
  match segs !! Z.to_nat seg_idx with
  | None => MemAbort
  | Some seg =>
      if negb (valid seg) then MemFailed
      else if negb (seg_idx =? seg_idx_last) then MemAbort
      else if negb (direct seg) then MemAbort
      else MemIssued (u64 (addr seg + dir_off))
  end.

(** ** The driver's view: register writes *)

Inductive sd_op :=
| SdWrite (idx : nat) (lo hi : Z)
| SdRead (idx : nat).

Definition valid_op (o : sd_op) : Prop :=
  match o with
  | SdWrite idx lo hi => (idx < MAX_SEGMENTS)%nat ∧ lo ∈u 32 ∧ hi ∈u 32
  | SdRead idx => (idx < MAX_SEGMENTS)%nat
  end.

(** The three stores of the driver: data low and high, then the command. *)
Definition sd_step (segs : list segment) (r : hmc_regs) (o : sd_op) :
    option (list segment * hmc_regs) :=
  match o with
  | SdWrite idx lo hi =>
      '(segs, r) ← reg_updated segs (MkRegs (pfhmc_sdcmd r) lo (pfhmc_sddatahigh r))
                     I40E_PFHMC_SDDATALOW;
      '(segs, r) ← reg_updated segs (MkRegs (pfhmc_sdcmd r) (pfhmc_sddatalow r) hi)
                     I40E_PFHMC_SDDATAHIGH;
      reg_updated segs
        (MkRegs (Z.lor (Z.of_nat idx) PMSDWR_MASK) (pfhmc_sddatalow r) (pfhmc_sddatahigh r))
        I40E_PFHMC_SDCMD
  | SdRead idx =>
      reg_updated segs (MkRegs (Z.of_nat idx) (pfhmc_sddatalow r) (pfhmc_sddatahigh r))
        I40E_PFHMC_SDCMD
  end.

Fixpoint sd_run (segs : list segment) (r : hmc_regs) (os : list sd_op) :
    option (list segment * hmc_regs) :=
  match os with
  | [] => Some (segs, r)
  | o :: os => '(segs, r) ← sd_step segs r o; sd_run segs r os
  end.

(** The abstract table: what was last written to each index. *)
Definition last_written (os : list sd_op) (idx : nat) : Z * Z :=
  foldl (λ cur o, match o with
                  | SdWrite i lo hi => if decide (i = idx) then (lo, hi) else cur
                  | SdRead _ => cur
                  end) (0, 0) os.

(** ** Descriptors survive the registers *)

Lemma mask_bit x i : 0 ≤ i → negb (Z.land x (Z.shiftl 1 i) =? 0) = Z.testbit x i.
Proof. intros. by rewrite land_bit_testbit, negb_involutive. Qed.

Lemma addr_of_regs lo hi :
  lo ∈u 32 → hi ∈u 32 → addr (segment_of_regs lo hi) = hi * 2 ^ 32 + lo / 4096 * 4096.
Proof.
  intros Hlo Hhi. unfold segment_of_regs. cbn [addr]. unfold PMSDDATALOW_MASK.
  rewrite extract_field, !Z.shiftl_mul_pow2 by lia. unfold fits in *.
  change (2 ^ 12) with 4096. change (2 ^ 20) with 1048576. change (2 ^ 32) with 4294967296 in *.
  assert (0 ≤ lo / 4096 < 1048576) by (Z.div_mod_to_equations; lia).
  rewrite (Z.mod_small (lo / 4096)), (wrap_id 32)
    by (try done; unfold fits; change (2 ^ 32) with 4294967296; lia).
  rewrite Z.lor_comm. change 4294967296 with (2 ^ 32). apply lor_disjoint; lia.
Qed.

(** The flag bits, or-ed on last. *)
Lemma lor_flags x (v d : bool) :
  (if d then Z.lor (if v then Z.lor (x * 2 ^ 2) (Z.shiftl 1 0) else x * 2 ^ 2) (Z.shiftl 1 1)
   else if v then Z.lor (x * 2 ^ 2) (Z.shiftl 1 0) else x * 2 ^ 2) = x * 2 ^ 2 + Z.b2z v + 2 * Z.b2z d.
Proof.
  destruct v, d; cbn [Z.b2z];
    change (Z.shiftl 1 0) with 1; change (Z.shiftl 1 1) with 2;
    rewrite <- ?Z.lor_assoc; change (Z.lor 1 2) with 3; rewrite ?lor_disjoint by lia; lia.
Qed.

(** The address and page-count fields, or-ed together. *)
Lemma low_fields lo hi :
  lo ∈u 32 →
  Z.lor (u32 (Z.land (Z.shiftl (Z.shiftr (hi * 2 ^ 32 + lo / 4096 * 4096) 12) 12)
                PMSDDATALOW_MASK))
        (Z.land (Z.shiftl (Z.shiftr (Z.land lo PMSDBPCOUNT_MASK) 2) 2) PMSDBPCOUNT_MASK)
    = lo / 4 * 2 ^ 2.
Proof.
  intros Hlo. unfold PMSDDATALOW_MASK, PMSDBPCOUNT_MASK.
  rewrite !insert_field, !extract_field, Z.shiftr_div_pow2, Zmod_mod by lia.
  unfold fits in Hlo. unfold wrap. change (2 ^ 32) with 4294967296 in *.
  replace ((hi * 4294967296 + lo / 4096 * 4096) / 2 ^ 12 mod 2 ^ 20 * 2 ^ 12 mod 4294967296)
    with (lo / 4096 * 2 ^ 12)
    by (change (2 ^ 12) with 4096; change (2 ^ 20) with 1048576; Z.div_mod_to_equations; lia).
  change (2 ^ 10) with 1024. change (2 ^ 2) with 4.
  rewrite lor_disjoint by (try lia; change (2 ^ 12) with 4096; Z.div_mod_to_equations; lia).
  change (2 ^ 12) with 4096. Z.div_mod_to_equations. lia.
Qed.

Lemma sd_roundtrip lo hi :
  lo ∈u 32 → hi ∈u 32 →
  low_of_segment (segment_of_regs lo hi) = lo ∧ high_of_segment (segment_of_regs lo hi) = hi.
Proof.
  intros Hlo Hhi. pose proof (addr_of_regs lo hi Hlo Hhi) as Ha.
  unfold low_of_segment, high_of_segment. rewrite Ha. cbn [segment_of_regs pgcount valid direct].
  split.
  - rewrite low_fields by done. cbv zeta. unfold PMSDVALID_MASK, PMSDTYPE_MASK.
    rewrite !mask_bit, lor_flags, !Z.testbit_spec' by lia. change (2 ^ 2) with 4.
    change (2 ^ 0) with 1. change (2 ^ 1) with 2. rewrite Z.div_1_r. Z.div_mod_to_equations. lia.
  - unfold fits in *. rewrite Z.shiftr_div_pow2 by lia. unfold wrap.
    change (2 ^ 32) with 4294967296 in *.
    rewrite Z.div_add_l, Z.div_small, Z.add_0_r by (Z.div_mod_to_equations; lia).
    by apply Z.mod_small.
Qed.

(** The index and the direction that a command encodes. *)
Lemma cmd_decode (idx : nat) (w : bool) :
  (idx < MAX_SEGMENTS)%nat →
  let cmd := if w then Z.lor (Z.of_nat idx) PMSDWR_MASK else Z.of_nat idx in
  Z.to_nat (u16 (Z.shiftr (Z.land cmd PMSDIDX_MASK) 0)) = idx ∧
  negb (Z.land cmd PMSDWR_MASK =? 0) = w.
Proof.
  intros Hi cmd. assert (0 ≤ Z.of_nat idx < 4096) as Hb by (unfold MAX_SEGMENTS in Hi; lia).
  assert (cmd = Z.b2z w * 2 ^ 31 + Z.of_nat idx) as Hc.
  { unfold cmd, PMSDWR_MASK. destruct w; [|done]. rewrite Z.lor_comm, Z.shiftl_mul_pow2 by lia.
    rewrite lor_disjoint by lia. done. }
  unfold PMSDIDX_MASK, PMSDWR_MASK. rewrite extract_field, mask_bit by lia. rewrite Hc. split.
  - rewrite Z.div_1_r, (wrap_id 16); destruct w; cbn [Z.b2z];
      unfold fits; change (2 ^ 12) with 4096; change (2 ^ 31) with 2147483648;
      change (2 ^ 16) with 65536; Z.div_mod_to_equations; lia.
  - apply Z.b2z_inj. rewrite Z.testbit_spec' by lia. rewrite Z.div_add_l, Z.div_small by lia.
    by destruct w.
Qed.

(** The table holds what was written last. *)
Definition holds (segs : list segment) (w : nat → Z * Z) : Prop :=
  length segs = MAX_SEGMENTS ∧
  ∀ i, (i < MAX_SEGMENTS)%nat →
    segs !! i = Some (segment_of_regs (w i).1 (w i).2) ∧ (w i).1 ∈u 32 ∧ (w i).2 ∈u 32.

Lemma sd_step_spec segs r o os :
  holds segs (last_written os) → valid_op o →
  ∃ segs' r', sd_step segs r o = Some (segs', r') ∧ holds segs' (last_written (os ++ [o])) ∧
    (∀ idx, o = SdRead idx →
      (pfhmc_sddatalow r', pfhmc_sddatahigh r') = last_written os idx).
Proof.
  intros [Hlen Hw] Ho.
  assert (∀ idx, last_written (os ++ [o]) idx =
    match o with
    | SdWrite i lo hi => if decide (i = idx) then (lo, hi) else last_written os idx
    | SdRead _ => last_written os idx
    end) as Hlast by (intros; unfold last_written; rewrite foldl_app; by destruct o).
  destruct o as [idx lo hi|idx]; cbn [valid_op] in Ho.
  - destruct Ho as (Hi & Hlo & Hhi). destruct (cmd_decode idx true Hi) as [Hidx Hwr].
    cbn zeta iota in Hidx, Hwr. destruct (Hw idx Hi) as (Hs & _).
    unfold sd_step, reg_updated. cbn -[PMSDIDX_MASK PMSDWR_MASK segment_of_regs Z.lor].
    rewrite Hidx, Hwr, Hs. cbn -[segment_of_regs].
    eexists _, _. split; [done|]. split; [|done]. split; [by rewrite length_insert|].
    intros i Hi'. rewrite Hlast. destruct (decide (idx = i)) as [->|Hne]; cbn [fst snd].
    + rewrite list_lookup_insert_eq by lia. done.
    + rewrite list_lookup_insert_ne by done. by apply Hw.
  - destruct (cmd_decode idx false Ho) as [Hidx Hwr]. cbn zeta iota in Hidx, Hwr.
    destruct (Hw idx Ho) as (Hs & Hlo & Hhi).
    unfold sd_step, reg_updated. cbn -[PMSDIDX_MASK PMSDWR_MASK low_of_segment high_of_segment].
    rewrite Hidx, Hwr, Hs. cbn -[low_of_segment high_of_segment].
    eexists _, _. split; [done|]. split.
    + split; [done|]. intros i ?. rewrite Hlast. by apply Hw.
    + intros ? [= <-]. cbn [pfhmc_sddatalow pfhmc_sddatahigh].
      destruct (sd_roundtrip _ _ Hlo Hhi) as [-> ->]. by destruct (last_written os idx).
Qed.

Lemma holds_reset : holds reset (last_written []).
Proof.
  split; [apply length_replicate|]. intros i Hi. split; [|done].
  unfold reset. rewrite lookup_replicate_2 by done. by vm_compute.
Qed.

(** The segment descriptors are a register file: after any sequence of descriptor writes
    and reads, a read returns in the two data registers exactly the words last written to
    that index, and zeros if there were none since the reset. *)
Theorem sd_register_file os idx r :
  Forall valid_op os → (idx < MAX_SEGMENTS)%nat →
  ∃ segs r', sd_run reset r (os ++ [SdRead idx]) = Some (segs, r') ∧
    (pfhmc_sddatalow r', pfhmc_sddatahigh r') = last_written os idx.
Proof.
  intros Hos Hidx.
  assert (∀ pre segs r, holds segs (last_written pre) →
    ∃ segs' r', sd_run segs r (os ++ [SdRead idx]) = Some (segs', r') ∧
      (pfhmc_sddatalow r', pfhmc_sddatahigh r') = last_written (pre ++ os) idx) as H;
    [|by apply (H []), holds_reset].
  clear r. induction Hos as [|o os Ho _ IH]; intros pre segs r Hh.
  - destruct (sd_step_spec segs r (SdRead idx) pre Hh Hidx) as (segs' & r' & E & _ & Hr).
    exists segs', r'. cbn [app sd_run]. rewrite E. split; [done|].
    rewrite app_nil_r. by apply Hr.
  - destruct (sd_step_spec segs r o pre Hh Ho) as (segs' & r' & E & Hh' & _).
    destruct (IH (pre ++ [o]) segs' r' Hh') as (segs'' & r'' & E' & Hr).
    exists segs'', r''. cbn [app sd_run]. rewrite E. split; [exact E'|].
    by rewrite <- app_assoc in Hr.
Qed.

Definition demo_ops : list sd_op := [SdWrite 7 0x12345803 0x9; SdWrite 8 0x1 0x2; SdRead 8].

Lemma sd_register_file_witness :
  ∃ segs r', sd_run reset (MkRegs 0 0 0) (demo_ops ++ [SdRead 7]) = Some (segs, r') ∧
    (pfhmc_sddatalow r', pfhmc_sddatahigh r') = last_written demo_ops 7.
Proof.
  apply (sd_register_file demo_ops 7 (MkRegs 0 0 0)).
  - unfold demo_ops. repeat apply Forall_cons_2; [..|apply Forall_nil_2];
      cbn [valid_op]; unfold MAX_SEGMENTS, fits; lia.
  - unfold MAX_SEGMENTS. lia.
Defined.

(** ** Translated accesses

    An access that is issued goes to the segment its address selects, at the same offset, and
    does not leave the 2 MiB of the segment. *)
Theorem mem_op_in_segment segs a len dma :
  a ∈u 37 → 0 < len ≤ 2 ^ 21 → issue_mem_op segs a len = MemIssued dma →
  ∃ seg, segs !! Z.to_nat (a / 2 ^ 21) = Some seg ∧ valid seg = true ∧ direct seg = true ∧
    a mod 2 ^ 21 + len ≤ 2 ^ 21 ∧ dma = u64 (addr seg + a mod 2 ^ 21).
Proof.
  intros Ha Hlen. unfold issue_mem_op. rewrite Z.land_ones, !Z.shiftr_div_pow2 by lia.
  unfold fits in Ha. change (2 ^ 37) with 137438953472 in Ha. change (2 ^ 21) with 2097152 in *.
  rewrite (wrap_id 16 (a / 2097152))
    by (unfold fits; change (2 ^ 16) with 65536; Z.div_mod_to_equations; lia).
  rewrite (wrap_id 64 (a + len - 1)) by (unfold fits; lia).
  destruct (segs !! Z.to_nat (a / 2097152)) as [seg|]; [|done].
  destruct (valid seg) eqn:Hv; [|done]. destruct (Z.eqb_spec (a / 2097152) (u16 ((a + len - 1) / 2097152)))
    as [He|]; [|done].
  destruct (direct seg) eqn:Hd; [|done]. intros [= <-]. exists seg. split_and!; try done.
  unfold wrap in He. change (2 ^ 16) with 65536 in He. Z.div_mod_to_equations. lia.
Qed.

End hmc.
