(* ===== verification/I40eQueue.v ===== *)
(** * Descriptor queues of the i40e model

    Translation of [queue_base] in sims/nic/i40e_bm/i40e_queues.cc and i40e_bm.h, the engine
    under the admin, receive and transmit queues.  A queue moves descriptors of a ring in host
    memory through the states of [dstate]: they are fetched by DMA in batches, prepared in any
    order, processed in order, written back by DMA, and freed.

    The virtual methods of the derived classes are the operations of the class [QueueClass];
    what the engine relies on in them is the class [QueueLaws] of I40eQueueInv.v. *)

From S2P Require Import Prelude.

Module queue.

(** ** State *)

Inductive dstate :=
| DESC_EMPTY | DESC_FETCHING | DESC_PREPARING | DESC_PREPARED
| DESC_PROCESSING | DESC_PROCESSED | DESC_WRITING_BACK | DESC_WRITTEN_BACK.

#[export] Instance dstate_eq_dec : EqDecision dstate.
Proof. solve_decision. Defined.

(** The values of the enumeration, which the code compares with [<=]. *)
Definition rank (s : dstate) : Z :=
  match s with
  | DESC_EMPTY => 0 | DESC_FETCHING => 1 | DESC_PREPARING => 2 | DESC_PREPARED => 3
  | DESC_PROCESSING => 4 | DESC_PROCESSED => 5 | DESC_WRITING_BACK => 6
  | DESC_WRITTEN_BACK => 7
  end.

(** [desc] holds the descriptor, [data] the buffer ([data_capacity] is its length). *)
Record desc_ctx := MkCtx { state : dstate; index : Z; desc : bytes; data : bytes }.

Definition set_state (c : desc_ctx) (s : dstate) : desc_ctx :=
  MkCtx s (index c) (desc c) (data c).

Definition MAX_ACTIVE_DESCS : Z := 128.
Definition MAX_DMA_SIZE : Z := 9024.
Definition UINT32_MAX : Z := 2 ^ 32 - 1.

(** [reg_head] and [reg_tail] are references to device registers. *)
Record queue_base := MkQueue {
  desc_ctxs : list desc_ctx;
  active_first_pos : Z;
  active_first_idx : Z;
  active_cnt : Z;
  base : Z;
  len : Z;
  reg_head : Z;
  reg_tail : Z;
  enabled : bool;
  desc_len : Z
}.

Definition set_ctxs (q : queue_base) (cs : list desc_ctx) : queue_base :=
  MkQueue cs (active_first_pos q) (active_first_idx q) (active_cnt q) (base q) (len q)
          (reg_head q) (reg_tail q) (enabled q) (desc_len q).

Definition set_active (q : queue_base) (pos idx cnt head : Z) : queue_base :=
  MkQueue (desc_ctxs q) pos idx cnt (base q) (len q) head (reg_tail q) (enabled q) (desc_len q).

Definition set_tail (q : queue_base) (tail : Z) : queue_base :=
  MkQueue (desc_ctxs q) (active_first_pos q) (active_first_idx q) (active_cnt q) (base q) (len q)
          (reg_head q) tail (enabled q) (desc_len q).

(** What can go wrong: an assertion, an index or a division of this file ([Engine]), or a
    derived class that gives up or is undefined on what the host has written ([Derived]). *)
Inductive fault := Engine | Derived.

Definition or_fault {A} (o : option A) (f : fault) : fault + A :=
  match o with Some a => inr a | None => inl f end.

Abbreviation result A := (sum fault A).

(** The DMA operations of the queues.  [pos] is a position among the contexts; the payload of
    a read is delivered with its completion. *)
Inductive dma_op :=
| dma_fetch (pos : Z) (dma_addr len_ : Z)
| dma_wb (pos : Z) (dma_addr : Z) (data_ : bytes)
| dma_data_fetch (ctx : Z) (total_len part_offset dma_addr len_ : Z)
| dma_data_wb (ctx : Z) (dma_addr : Z) (data_ : bytes)
| dma_hwb (pos cnt next_head : Z) (dma_addr : Z).

(** The queue with its derived class [S], the operations passed to [IssueDma], and, for the
    statements only, the indices of the descriptors in the order they were processed. *)
Record qstate (S : Type) := MkQs {
  que : queue_base;
  sub : S;
  issued : list dma_op;
  log : list Z
}.
Arguments MkQs {S}. Arguments que {S}. Arguments sub {S}. Arguments issued {S}. Arguments log {S}.

Section engine.
Context {S : Type}.
Implicit Types s : qstate S.

Definition with_que s (q : queue_base) : qstate S := MkQs q (sub s) (issued s) (log s).
Definition IssueDma s (op : dma_op) : qstate S :=
  MkQs (que s) (sub s) (issued s ++ [op]) (log s).
Definition note s (idx : Z) : qstate S := MkQs (que s) (sub s) (issued s) (log s ++ [idx]).

(** [desc_ctxs[pos]] and its update. *)
Definition ctx s (pos : Z) : option desc_ctx := desc_ctxs (que s) !! Z.to_nat pos.
Definition get s (pos : Z) : result desc_ctx := or_fault (ctx s pos) Engine.
Definition put s (pos : Z) (c : desc_ctx) : qstate S :=
  with_que s (set_ctxs (que s) (<[Z.to_nat pos := c]> (desc_ctxs (que s)))).

(** [(pos + i) % MAX_ACTIVE_DESCS] on [uint32_t] *)
Definition ring_pos (pos i : Z) : Z := u32 (pos + i) mod MAX_ACTIVE_DESCS.

(** [assert(ctx.state == from); ctx.state = to;] *)
Definition transition s (pos : Z) (from to : dstate) : result (qstate S) :=
  c ← get s pos;
  if decide (state c = from) then inr (put s pos (set_state c to)) else inl Engine.

Definition prepared s (pos : Z) : result (qstate S) :=
  transition s pos DESC_PREPARING DESC_PREPARED.
Definition processed s (pos : Z) : result (qstate S) :=
  transition s pos DESC_PROCESSING DESC_PROCESSED.

(** [data_fetched] and [data_written]; the overrides of the derived classes do the same. *)
Definition data_fetched s (pos : Z) : result (qstate S) := prepared s pos.
Definition data_written s (pos : Z) : result (qstate S) := processed s pos.

(** [new uint8_t[data_len]] leaves the bytes unspecified; they are not read before the DMA has
    filled them. *)
Definition data_fetch s (pos addr data_len : Z) : result (qstate S) :=
  c ← get s pos;
  let c := if Z.of_nat (length (data c)) <? data_len
           then MkCtx (state c) (index c) (desc c) (replicate (Z.to_nat data_len) 0) else c in
  inr (IssueDma (put s pos c)
          (dma_data_fetch pos data_len 0 addr (data_len `min` MAX_DMA_SIZE))).

Definition data_write s (pos addr : Z) (buf : bytes) : qstate S :=
  IssueDma s (dma_data_wb pos addr buf).

Definition max_fetch_capacity : Z := UINT32_MAX.
Definition max_active_capacity : Z := UINT32_MAX.
Definition max_writeback_capacity : Z := UINT32_MAX.

End engine.

(** The virtual methods of the derived classes. *)
Class QueueClass (S : Type) := {
  prepare : qstate S → Z → result (qstate S);
  process : qstate S → Z → result (qstate S);
  do_writeback : qstate S → Z → Z → Z → result (qstate S);
  interrupt : qstate S → result (qstate S)
}.

Section triggers.
Context {S : Type} `{QueueClass S}.
Implicit Types s : qstate S.

(** ** Fetching *)

Fixpoint mark_fetching s (first_pos next_idx i : Z) (n : nat) : result (qstate S) :=
  match n with
  | O => inr s
  | Datatypes.S n =>
      let pos := ring_pos first_pos i in
      c ← get s pos;
      if decide (state c = DESC_EMPTY) then
        mark_fetching
          (put s pos (MkCtx DESC_FETCHING (u32 (next_idx + i) mod len (que s)) (desc c) (data c)))
          first_pos next_idx (i + 1) n
      else inl Engine
  end.

(** How many descriptors [trigger_fetch] takes; [%] by a zero length is undefined. *)
Definition fetch_count (q : queue_base) : Z :=
  let next_idx := u32 (active_first_idx q + active_cnt q) mod len q in
  let desc_avail := u32 (reg_tail q - next_idx) mod len q in
  let n := desc_avail `min` u32 (MAX_ACTIVE_DESCS - active_cnt q) in
  let n := if max_active_capacity <=? active_cnt q
           then n `min` u32 (max_active_capacity - active_cnt q) else n in
  let n := n `min` max_fetch_capacity in
  if len q <? u32 (next_idx + n) then u32 (len q - next_idx) else n.

Definition trigger_fetch s : result (qstate S) :=
  let q := que s in
  if negb (enabled q) then inr s
  else if len q =? 0 then inl Engine
  else
    let next_idx := u32 (active_first_idx q + active_cnt q) mod len q in
    let fetch_cnt := fetch_count q in
    if fetch_cnt =? 0 then inr s
    else
      let first_pos := ring_pos (active_first_pos q) (active_cnt q) in
      s ← mark_fetching s first_pos next_idx 0 (Z.to_nat fetch_cnt);
      let q := que s in
      let s := with_que s (set_active q (active_first_pos q) (active_first_idx q)
                             (u32 (active_cnt q + fetch_cnt)) (reg_head q)) in
      inr (IssueDma s (dma_fetch first_pos (u64 (base q + next_idx * desc_len q))
                          (desc_len q * fetch_cnt))).

(** ** Processing *)

(** The first [i] whose context is not past [DESC_PREPARED]. *)
Fixpoint skip_processed s (i : Z) (n : nat) : result Z :=
  match n with
  | O => inr i
  | Datatypes.S n =>
      c ← get s (ring_pos (active_first_pos (que s)) i);
      if rank (state c) <=? rank DESC_PREPARED then inr i else skip_processed s (i + 1) n
  end.

(** The loop that runs prepared contexts; it reads the queue again in every iteration. *)
Fixpoint run_prepared s (k : Z) (fuel : nat) : result (qstate S) :=
  if k <? active_cnt (que s) then
    match fuel with
    | O => inl Engine
    | Datatypes.S fuel =>
        let pos := ring_pos (active_first_pos (que s)) k in
        c ← get s pos;
        if decide (state c = DESC_PREPARED) then
          s ← process (note (put s pos (set_state c DESC_PROCESSING)) (index c)) pos;
          run_prepared s (k + 1) fuel
        else inr s
    end
  else inr s.

Definition trigger_process s : result (qstate S) :=
  if negb (enabled (que s)) then inr s
  else
    i ← skip_processed s 0 (Z.to_nat (active_cnt (que s)));
    run_prepared s i (Z.to_nat (active_cnt (que s) - i)).

(** ** Writing back *)

(** The number of contexts, from the first, that are in state [st]. *)
Fixpoint count_state s (st : dstate) (i : Z) (n : nat) : result Z :=
  match n with
  | O => inr i
  | Datatypes.S n =>
      c ← get s (ring_pos (active_first_pos (que s)) i);
      if decide (state c = st) then count_state s st (i + 1) n else inr i
  end.

(** [ctx.state = to] for [n] contexts from position [first_pos]; [from] is asserted if given. *)
Fixpoint mark_all s (first_pos : Z) (from : option dstate) (to : dstate) (i : Z) (n : nat) :
    result (qstate S) :=
  match n with
  | O => inr s
  | Datatypes.S n =>
      let pos := ring_pos first_pos i in
      c ← get s pos;
      if match from with Some f => bool_decide (state c = f) | None => true end then
        mark_all (put s pos (set_state c to)) first_pos from to (i + 1) n
      else inl Engine
  end.

Definition trigger_writeback s : result (qstate S) :=
  let q := que s in
  if negb (enabled q) then inr s
  else
    avail ← count_state s DESC_PROCESSED 0 (Z.to_nat (active_cnt q));
    let cnt := avail `min` max_writeback_capacity in
    let cnt := if len q <? u32 (active_first_idx q + cnt)
               then u32 (len q - active_first_idx q) else cnt in
    if cnt =? 0 then inr s
    else
      s ← mark_all s (active_first_pos q) None DESC_WRITING_BACK 0 (Z.to_nat cnt);
      do_writeback s (active_first_idx q) (active_first_pos q) cnt.

Definition trigger s : result (qstate S) :=
  s ← trigger_fetch s; s ← trigger_process s; trigger_writeback s.

(** The descriptors [do_writeback] copies, in order; the state is asserted. *)
Fixpoint gather s (first_pos i : Z) (n : nat) : result bytes :=
  match n with
  | O => inr []
  | Datatypes.S n =>
      c ← get s (ring_pos first_pos i);
      if decide (state c = DESC_WRITING_BACK) then
        rest ← gather s first_pos (i + 1) n;
        inr (take (Z.to_nat (desc_len (que s))) (desc c) ++ rest)
      else inl Engine
  end.

(** [queue_base::do_writeback] *)
Definition base_do_writeback s (first_idx first_pos cnt : Z) : result (qstate S) :=
  buf ← gather s first_pos 0 (Z.to_nat cnt);
  inr (IssueDma s (dma_wb first_pos (u64 (base (que s) + first_idx * desc_len (que s))) buf)).

(** Frees the contexts that are written back, from the first; returns their number. *)
Fixpoint free_written s (i : Z) (n : nat) : result (qstate S * Z) :=
  match n with
  | O => inr (s, i)
  | Datatypes.S n =>
      let pos := ring_pos (active_first_pos (que s)) i in
      c ← get s pos;
      if decide (state c = DESC_WRITTEN_BACK) then
        free_written (put s pos (set_state c DESC_EMPTY)) (i + 1) n
      else inr (s, i)
  end.

Definition writeback_done s (first_pos cnt : Z) : result (qstate S) :=
  if negb (enabled (que s)) then inr s
  else
    s ← mark_all s first_pos (Some DESC_WRITING_BACK) DESC_WRITTEN_BACK 0 (Z.to_nat cnt);
    '(s, bump_cnt) ← free_written s 0 (Z.to_nat (active_cnt (que s)));
    let q := que s in
    if len q =? 0 then inl Engine
    else
      let idx := u32 (active_first_idx q + bump_cnt) mod len q in
      interrupt (with_que s (set_active q (ring_pos (active_first_pos q) bump_cnt) idx
                               (u32 (active_cnt q - bump_cnt)) idx)).

(** ** Completions and register writes *)

(** [dma_fetch::done]: every descriptor is copied into its context and prepared. *)
Fixpoint fetched s (pos : Z) (buf : bytes) (i : Z) (n : nat) : result (qstate S) :=
  match n with
  | O => inr s
  | Datatypes.S n =>
      let p := ring_pos pos i in
      let dl := Z.to_nat (desc_len (que s)) in
      c ← get s p;
      s ← prepare (put s p (MkCtx DESC_PREPARING (index c)
                             (take dl buf ++ drop dl (desc c)) (data c))) p;
      fetched s pos (drop dl buf) (i + 1) n
  end.

(** The bytes of one part land in the buffer at [part_offset]. *)
Definition fill s (pos part_offset : Z) (payload : bytes) : result (qstate S) :=
  c ← get s pos;
  let o := Z.to_nat part_offset in
  if decide (o + length payload ≤ length (data c))%nat then
    inr (put s pos (MkCtx (state c) (index c) (desc c)
      (take o (data c) ++ payload ++ drop (o + length payload) (data c))))
  else inl Engine.

(** [done()] of the operation; [payload] is what a read has returned. *)
Definition dma_done s (op : dma_op) (payload : bytes) : result (qstate S) :=
  match op with
  | dma_fetch pos _ len_ =>
      if desc_len (que s) =? 0 then inl Engine
      else s ← fetched s pos payload 0 (Z.to_nat (len_ / desc_len (que s))); trigger s
  | dma_wb pos _ data_ =>
      if desc_len (que s) =? 0 then inl Engine
      else s ← writeback_done s pos (Z.of_nat (length data_) / desc_len (que s)); trigger s
  | dma_data_fetch pos total part_offset addr len_ =>
      s ← fill s pos part_offset payload;
      let part_offset := part_offset + len_ in
      let addr := u64 (addr + len_) in
      if part_offset <? total then
        inr (IssueDma s (dma_data_fetch pos total part_offset addr
                            ((total - part_offset) `min` MAX_DMA_SIZE)))
      else s ← data_fetched s pos; trigger s
  | dma_data_wb pos _ _ => s ← data_written s pos; trigger s
  | dma_hwb pos cnt _ _ => s ← writeback_done s pos cnt; trigger s
  end.

Definition reg_updated s : result (qstate S) :=
  if negb (enabled (que s)) then inr s else trigger s.

(** [queue_base::reset] *)
Definition reset (q : queue_base) : queue_base :=
  MkQueue ((λ c, set_state c DESC_EMPTY) <$> desc_ctxs q) 0 0 0 (base q) (len q)
          (reg_head q) (reg_tail q) false (desc_len q).

End triggers.

End queue.
