(* ===== verification/I40eQueueInv.v ===== *)
(** * The descriptor engine keeps the ring

    What holds of [queue_base] for every derived class that keeps the laws of [QueueLaws]:
    its assertions never fail, whatever the order in which DMA operations complete;
    descriptors are processed once each, in ring order, and only those the driver has posted;
    and the queue does not stall while work is left. *)

From S2P Require Import Prelude I40eQueue.

Module queue_inv.
Import queue.

(** ** Positions in the window *)

(** The distance of position [p] from the first active one. *)
Definition off (a p : Z) : Z := (p - a) mod 128.

Abbreviation is_pos p := (0 ≤ p < 128).

Lemma ring_pos_mod a i : 0 ≤ a + i < 2 ^ 32 → ring_pos a i = (a + i) mod 128.
Proof. intros. unfold ring_pos. by rewrite (wrap_id 32). Qed.

Lemma ring_pos_bound a i : is_pos (ring_pos a i).
Proof. unfold ring_pos, MAX_ACTIVE_DESCS. apply Z.mod_pos_bound. lia. Qed.

Lemma off_bound a p : is_pos (off a p).
Proof. unfold off. apply Z.mod_pos_bound. lia. Qed.

Lemma off_ring_pos a i : is_pos a → is_pos i → off a (ring_pos a i) = i.
Proof.
  intros. rewrite ring_pos_mod by lia. unfold off. Z.div_mod_to_equations. lia.
Qed.

Lemma ring_pos_off a p : is_pos a → is_pos p → ring_pos a (off a p) = p.
Proof.
  intros. pose proof (off_bound a p). rewrite ring_pos_mod by lia. unfold off in *.
  Z.div_mod_to_equations. lia.
Qed.

Lemma ring_pos_fresh a i :
  is_pos a → is_pos i → ∃ p, ring_pos a i = p ∧ is_pos p ∧ off a p = i.
Proof.
  intros. eexists. split; [done|]. split; [apply ring_pos_bound|by apply off_ring_pos].
Qed.

Lemma off_inj a p p' : is_pos p → is_pos p' → off a p = off a p' → p = p'.
Proof. unfold off. intros. Z.div_mod_to_equations. lia. Qed.

(** Moving the first position on by [b]. *)
Lemma off_shift a b p :
  is_pos a → 0 ≤ b ≤ 128 →
  off (ring_pos a b) p = if off a p <? b then off a p - b + 128 else off a p - b.
Proof.
  intros. rewrite ring_pos_mod by lia. unfold off.
  case_match eqn:E; [apply Z.ltb_lt in E|apply Z.ltb_ge in E]; Z.div_mod_to_equations; lia.
Qed.

Lemma ring_pos_add a i j :
  is_pos a → 0 ≤ i ≤ 128 → 0 ≤ j ≤ 128 → ring_pos (ring_pos a i) j = ring_pos a (i + j).
Proof.
  intros. pose proof (ring_pos_bound a i). rewrite (ring_pos_mod (ring_pos a i)) by lia.
  rewrite (ring_pos_mod a i), (ring_pos_mod a (i + j)) by lia.
  rewrite Zplus_mod_idemp_l. by rewrite Z.add_assoc.
Qed.

(** ** Reading and writing contexts *)

Section frames.
Context {S : Type}.
Implicit Types s : qstate S.

Definition full s : Prop := length (desc_ctxs (que s)) = 128%nat.

(** Nothing but the contexts differs. *)
Definition same_rest s s' : Prop :=
  que s' = set_ctxs (que s) (desc_ctxs (que s')) ∧ sub s' = sub s ∧ issued s' = issued s ∧
  log s' = log s ∧ full s'.

Lemma ctx_put s p p' c :
  full s → is_pos p → is_pos p' →
  ctx (put s p c) p' = if decide (p = p') then Some c else ctx s p'.
Proof.
  intros Hf ??. unfold ctx, put, with_que, set_ctxs. cbn. case_decide as E.
  - subst. apply list_lookup_insert_eq. unfold full in Hf. lia.
  - apply list_lookup_insert_ne. lia.
Qed.

Lemma full_put s p c : full s → full (put s p c).
Proof. unfold full, put. cbn. by rewrite length_insert. Qed.

Lemma same_rest_put s p c : full s → same_rest s (put s p c).
Proof. intros. repeat split. by apply full_put. Qed.

Lemma same_rest_refl s : full s → same_rest s s.
Proof. intros. repeat split; try done. by destruct s as [[]]. Qed.

Lemma same_rest_trans s1 s2 s3 : same_rest s1 s2 → same_rest s2 s3 → same_rest s1 s3.
Proof.
  intros (Q1 & ? & ? & ? & ?) (Q2 & ? & ? & ? & ?). repeat split; try congruence.
  rewrite Q2, Q1. done.
Qed.

Lemma ctx_Some s p : full s → is_pos p → ∃ c, ctx s p = Some c.
Proof. intros Hf ?. apply lookup_lt_is_Some_2. unfold full in Hf. lia. Qed.

Lemma get_ctx s p c : ctx s p = Some c → get s p = inr c.
Proof. unfold get. by intros ->. Qed.

(** ** The loops over contexts *)

(** [p] lies in the [n] positions from [a] that start at offset [i]. *)
Definition within (a i n p : Z) : Prop := i ≤ off a p < i + n.

#[export] Instance within_dec a i n p : Decision (within a i n p).
Proof. unfold within. apply _. Defined.

Lemma mark_all_spec a from to n : ∀ s i,
  full s → is_pos a → 0 ≤ i → i + Z.of_nat n ≤ 128 →
  (∀ p c f, is_pos p → within a i (Z.of_nat n) p → ctx s p = Some c → from = Some f → state c = f) →
  ∃ s', mark_all s a from to i n = inr s' ∧ same_rest s s' ∧
    ∀ p, is_pos p → ctx s' p =
      (λ c, if decide (within a i (Z.of_nat n) p) then set_state c to else c) <$> ctx s p.
Proof.
  induction n as [|n IH]; intros s i Hf Ha Hi Hn Hfrom.
  { exists s. split; [done|]. split; [by apply same_rest_refl|]. intros p Hp.
    destruct (ctx s p); [|done]. cbn. rewrite decide_False; [done|unfold within; lia]. }
  destruct (ring_pos_fresh a i) as (p0 & Ep & Hp0 & Ho); [lia|lia|].
  destruct (ctx_Some s p0 Hf Hp0) as [c Hc].
  cbn [mark_all]. rewrite Ep, (get_ctx _ _ _ Hc). cbn [mbind sum_bind].
  assert (match from with Some f => bool_decide (state c = f) | None => true end = true) as ->.
  { destruct from as [f|]; [|done]. apply bool_decide_eq_true.
    apply (Hfrom p0 c f); [done|unfold within; lia|done|done]. }
  destruct (IH (put s p0 (set_state c to)) (i + 1)) as (s' & E & Hr & Hctx);
    [by apply full_put|done|lia|lia| |].
  { intros p c' f Hp Hw. rewrite ctx_put by done. case_decide as Heq; [subst p|].
    - unfold within in Hw. lia.
    - apply Hfrom; [done|unfold within in *; lia]. }
  exists s'. split; [exact E|].
  split; [eapply same_rest_trans; [by apply same_rest_put|done]|]. intros p Hp.
  rewrite Hctx, ctx_put by done. destruct (decide (p0 = p)) as [Heq|Heq].
  - subst p. rewrite Hc. cbn. rewrite decide_False, decide_True by (unfold within; lia). done.
  - destruct (ctx s p); [|done]. cbn. f_equal.
    assert (off a p ≠ i) by (intros E'; apply Heq, (off_inj a); [done..|congruence]).
    repeat case_decide; try done; unfold within in *; lia.
Qed.

Lemma mark_fetching_spec a next n : ∀ s i,
  full s → is_pos a → 0 ≤ i → i + Z.of_nat n ≤ 128 → 0 ≤ next < 2 ^ 31 →
  (∀ p c, is_pos p → within a i (Z.of_nat n) p → ctx s p = Some c → state c = DESC_EMPTY) →
  ∃ s', mark_fetching s a next i n = inr s' ∧ same_rest s s' ∧
    ∀ p, is_pos p → ctx s' p =
      (λ c, if decide (within a i (Z.of_nat n) p)
            then MkCtx DESC_FETCHING ((next + off a p) mod len (que s)) (desc c) (data c)
            else c) <$> ctx s p.
Proof.
  induction n as [|n IH]; intros s i Hf Ha Hi Hn Hnext Hemp.
  { exists s. split; [done|]. split; [by apply same_rest_refl|]. intros p Hp.
    destruct (ctx s p); [|done]. cbn. rewrite decide_False; [done|unfold within; lia]. }
  destruct (ring_pos_fresh a i) as (p0 & Ep & Hp0 & Ho); [lia|lia|].
  destruct (ctx_Some s p0 Hf Hp0) as [c Hc].
  cbn [mark_fetching]. rewrite Ep, (get_ctx _ _ _ Hc). cbn [mbind sum_bind].
  rewrite decide_True by (apply (Hemp p0); [done|unfold within; lia|done]).
  rewrite (wrap_id 32) by (unfold fits; lia).
  match goal with |- context [put s p0 ?c'] => set (c1 := c') end.
  destruct (IH (put s p0 c1) (i + 1)) as (s' & E & Hr & Hctx);
    [by apply full_put|done|lia|lia|done| |].
  { intros p c' Hp Hw. rewrite ctx_put by done. case_decide as Heq; [subst p; unfold within in Hw; lia|].
    apply Hemp; [done|unfold within in *; lia]. }
  exists s'. split; [exact E|].
  split; [eapply same_rest_trans; [by apply same_rest_put|done]|]. intros p Hp.
  rewrite Hctx, ctx_put by done. destruct (decide (p0 = p)) as [Heq|Heq].
  - subst p. rewrite Hc. cbn. rewrite decide_False, decide_True by (unfold within; lia).
    by rewrite Ho.
  - destruct (ctx s p); [|done]. cbn. f_equal.
    assert (off a p ≠ i) by (intros E'; apply Heq, (off_inj a); [done..|congruence]).
    repeat case_decide; try done; unfold within in *; lia.
Qed.

(** [free_written] frees the prefix of [b] written-back contexts and stops after it. *)
Lemma free_written_spec b n : ∀ s i,
  full s → is_pos (active_first_pos (que s)) → 0 ≤ i ≤ b → b ≤ i + Z.of_nat n ≤ 128 →
  let a := active_first_pos (que s) in
  (∀ p c, is_pos p → within a i (b - i) p → ctx s p = Some c → state c = DESC_WRITTEN_BACK) →
  (∀ p c, is_pos p → off a p = b → ctx s p = Some c → b < i + Z.of_nat n →
     state c ≠ DESC_WRITTEN_BACK) →
  ∃ s', free_written s i n = inr (s', b) ∧ same_rest s s' ∧
    ∀ p, is_pos p → ctx s' p =
      (λ c, if decide (within a i (b - i) p) then set_state c DESC_EMPTY else c) <$> ctx s p.
Proof.
  induction n as [|n IH]; intros s i Hf Ha Hi Hn a Hw Hb.
  { exists s. replace b with i by lia. split; [done|]. split; [by apply same_rest_refl|].
    intros p Hp. destruct (ctx s p); [|done]. cbn.
    rewrite decide_False; [done|unfold within; lia]. }
  destruct (ring_pos_fresh a i) as (p0 & Ep & Hp0 & Ho); [done|lia|].
  destruct (ctx_Some s p0 Hf Hp0) as [c Hc].
  cbn [free_written]. fold a. rewrite Ep, (get_ctx _ _ _ Hc). cbn [mbind sum_bind].
  destruct (decide (i = b)) as [->|Hne].
  { rewrite decide_False by (apply (Hb p0); [done|done|done|lia]).
    exists s. split; [done|]. split; [by apply same_rest_refl|].
    intros p Hp. destruct (ctx s p); [|done]. cbn.
    rewrite decide_False; [done|unfold within; lia]. }
  rewrite decide_True by (apply (Hw p0); [done|unfold within; lia|done]).
  destruct (IH (put s p0 (set_state c DESC_EMPTY)) (i + 1)) as (s' & E & Hr & Hctx);
    [by apply full_put|done|lia|lia| | |].
  { intros p c' Hp Hin. change (active_first_pos _) with a in Hin.
    rewrite ctx_put by done. case_decide as Heq; [subst p; unfold within in Hin; lia|].
    apply Hw; [done|unfold within in *; lia]. }
  { intros p c' Hp Hop. change (active_first_pos _) with a in Hop.
    rewrite ctx_put by done. case_decide as Heq; [subst p; lia|]. intros ??. apply (Hb p); done || lia. }
  exists s'. split; [exact E|].
  split; [eapply same_rest_trans; [by apply same_rest_put|done]|]. intros p Hp.
  rewrite Hctx, ctx_put by done. change (active_first_pos _) with a. destruct (decide (p0 = p)) as [Heq|Heq].
  - subst p. rewrite Hc. cbn. rewrite decide_False, decide_True by (unfold within; lia). done.
  - destruct (ctx s p); [|done]. cbn. f_equal.
    assert (off a p ≠ i) by (intros E'; apply Heq, (off_inj a); [done..|congruence]).
    repeat case_decide; try done; unfold within in *; lia.
Qed.

(** [skip_processed] finds the end of the prefix that is past [DESC_PREPARED]. *)
Lemma skip_processed_spec k n : ∀ s i,
  full s → is_pos (active_first_pos (que s)) → 0 ≤ i ≤ k → k ≤ i + Z.of_nat n ≤ 128 →
  (∀ p c, is_pos p → within (active_first_pos (que s)) i (k - i) p → ctx s p = Some c →
     3 < rank (state c)) →
  (∀ p c, is_pos p → off (active_first_pos (que s)) p = k → ctx s p = Some c →
     k < i + Z.of_nat n → rank (state c) ≤ 3) →
  skip_processed s i n = inr k.
Proof.
  induction n as [|n IH]; intros s i Hf Ha Hi Hn Hlo Hhi; cbn [skip_processed].
  { f_equal. lia. }
  destruct (ring_pos_fresh (active_first_pos (que s)) i) as (p0 & Ep & Hp0 & Ho); [lia|lia|].
  destruct (ctx_Some s p0 Hf Hp0) as [c Hc]. rewrite Ep, (get_ctx _ _ _ Hc).
  cbn [mbind sum_bind rank]. destruct (Z.leb_spec (rank (state c)) 3) as [Hle|Hgt].
  - f_equal. destruct (decide (i = k)) as [|Hne]; [done|].
    specialize (Hlo p0 c Hp0 ltac:(unfold within; lia) Hc). lia.
  - destruct (decide (i = k)) as [->|Hne].
    + specialize (Hhi p0 c Hp0 Ho Hc). lia.
    + apply IH; try done; try lia.
      * intros p c' Hp Hw. apply Hlo; [done|unfold within in *; lia].
      * intros p c' Hp Hop Hcp ?. apply (Hhi p c'); done || lia.
Qed.

(** [count_state] counts a prefix in the given state, and stops at its end. *)
Lemma count_state_spec st n : ∀ s i,
  full s → is_pos (active_first_pos (que s)) → 0 ≤ i → i + Z.of_nat n ≤ 128 →
  ∃ b, count_state s st i n = inr b ∧ i ≤ b ≤ i + Z.of_nat n ∧
    (∀ p c, is_pos p → within (active_first_pos (que s)) i (b - i) p → ctx s p = Some c →
       state c = st) ∧
    (b < i + Z.of_nat n → ∀ p c, is_pos p → off (active_first_pos (que s)) p = b →
       ctx s p = Some c → state c ≠ st).
Proof.
  induction n as [|n IH]; intros s i Hf Ha Hi Hn; cbn [count_state].
  { exists i. split_and!; [done|lia|lia| |lia]. unfold within. lia. }
  destruct (ring_pos_fresh (active_first_pos (que s)) i) as (p0 & Ep & Hp0 & Ho); [lia|lia|].
  destruct (ctx_Some s p0 Hf Hp0) as [c Hc]. rewrite Ep, (get_ctx _ _ _ Hc).
  cbn [mbind sum_bind].
  assert (∀ p, is_pos p → off (active_first_pos (que s)) p = i → p = p0) as Huniq.
  { intros p Hp Hop. apply (off_inj (active_first_pos (que s))); [done..|congruence]. }
  destruct (decide (state c = st)) as [Hst|Hst].
  - destruct (IH s (i + 1)) as (b & E & Hb & Hin & Hout); [done|done|lia|lia|].
    exists b. split; [exact E|]. split; [lia|]. split.
    + intros p c' Hp Hw Hcp. destruct (decide (off (active_first_pos (que s)) p = i)) as [Hoi|].
      * apply Huniq in Hoi; [|done]. subst p. congruence.
      * eapply Hin; [done| |done]. unfold within in *. lia.
    + intros Hlt. apply Hout. lia.
  - exists i. split_and!; [done|lia|lia| |].
    + unfold within. lia.
    + intros _ p c' Hp Hop Hcp. apply Huniq in Hop; [|done]. subst p. congruence.
Qed.

End frames.

(** ** The operations in flight *)

(** Positions whose descriptors an operation will deliver; [dl] is [desc_len]. *)
Definition fetch_pos (dl : Z) (op : dma_op) : list Z :=
  match op with dma_fetch pos _ l => (λ i, ring_pos pos i) <$> seqZ 0 (l / dl) | _ => [] end.

(** The contexts an operation writes back: first position and number. *)
Definition wb_of (dl : Z) (op : dma_op) : list (Z * Z) :=
  match op with
  | dma_wb pos _ d => [(pos, Z.of_nat (length d) / dl)]
  | dma_hwb pos cnt _ _ => [(pos, cnt)]
  | _ => []
  end.

Definition data_fetch_pos (op : dma_op) : list Z :=
  match op with dma_data_fetch p _ _ _ _ => [p] | _ => [] end.
Definition data_wb_pos (op : dma_op) : list Z :=
  match op with dma_data_wb p _ _ => [p] | _ => [] end.

Definition is_data (op : dma_op) : Prop :=
  match op with dma_data_fetch _ _ _ _ _ | dma_data_wb _ _ _ => True | _ => False end.

#[export] Instance is_data_dec op : Decision (is_data op).
Proof. destruct op; apply _. Defined.

Lemma bind_filter_data (f : dma_op → list Z) O :
  (∀ op, ¬ is_data op → f op = []) → O ≫= f = filter is_data O ≫= f.
Proof.
  intros Hf. induction O as [|op O IH]; [done|]. rewrite filter_cons, bind_cons.
  case_decide; [by rewrite bind_cons, IH|by rewrite Hf, IH].
Qed.

Lemma data_fetch_pos_filter O : O ≫= data_fetch_pos = filter is_data O ≫= data_fetch_pos.
Proof. apply bind_filter_data. by intros []. Qed.

Lemma data_wb_pos_filter O : O ≫= data_wb_pos = filter is_data O ≫= data_wb_pos.
Proof. apply bind_filter_data. by intros []. Qed.

(** The position of a fetch in the window. *)
Lemma elem_of_fetch_pos dl a addr n p :
  0 < dl → is_pos a → 0 ≤ n ≤ 128 →
  p ∈ fetch_pos dl (dma_fetch a addr (dl * n)) ↔ is_pos p ∧ within a 0 n p.
Proof.
  intros Hdl Ha Hn. cbn. rewrite Z.mul_comm, Z.div_mul, list_elem_of_fmap by lia.
  unfold within. setoid_rewrite elem_of_seqZ. split.
  - intros (i & -> & Hi). split; [apply ring_pos_bound|]. rewrite off_ring_pos; lia.
  - intros [Hp Hw]. exists (off a p). rewrite ring_pos_off by lia. split; [done|lia].
Qed.

Lemma NoDup_fetch_pos dl a addr n :
  0 < dl → is_pos a → 0 ≤ n ≤ 128 → NoDup (fetch_pos dl (dma_fetch a addr (dl * n))).
Proof.
  intros Hdl Ha Hn. cbn. rewrite Z.mul_comm, Z.div_mul by lia.
  apply NoDup_fmap_2_strong; [|apply NoDup_seqZ].
  intros i j Hi%elem_of_seqZ Hj%elem_of_seqZ E.
  apply (f_equal (off a)) in E. rewrite !off_ring_pos in E; lia.
Qed.

(** ** What a derived class promises *)

Section laws.
Context {S : Type} `{QueueClass S}.
Implicit Types s : qstate S.

(** [prepare] prepares the context or starts to fetch its data. *)
Definition prep_step s s' (p : Z) : Prop :=
  ∃ c c', ctx s p = Some c ∧ index c' = index c ∧ length (desc c') = length (desc c) ∧
    que s' = que (put s p c') ∧ sub s' = sub s ∧ log s' = log s ∧
    ((state c' = DESC_PREPARED ∧ issued s' = issued s) ∨
     (state c' = DESC_PREPARING ∧ ∃ total a, 0 ≤ total ≤ Z.of_nat (length (data c')) ∧
        issued s' = issued s ++ [dma_data_fetch p total 0 a (total `min` MAX_DMA_SIZE)])).

(** Processing touches contexts in [DESC_PROCESSING] only: it may finish them, or start
    writes of data for which they wait. *)
Definition proc_step s s' : Prop :=
  que s' = set_ctxs (que s) (desc_ctxs (que s')) ∧ full s' ∧ log s' = log s ∧
  (∃ extra, issued s' = issued s ++ extra ∧
     Forall (λ op, ∃ p a d, op = dma_data_wb p a d ∧ is_pos p ∧
               ∃ c, ctx s' p = Some c ∧ state c = DESC_PROCESSING) extra ∧
     NoDup (issued s' ≫= data_wb_pos)) ∧
  ∀ p c, is_pos p → ctx s p = Some c → ∃ c', ctx s' p = Some c' ∧
    (c' = c ∨
     (state c = DESC_PROCESSING ∧ index c' = index c ∧ length (desc c') = length (desc c) ∧
      (state c' = DESC_PROCESSING ∨
       (state c' = DESC_PROCESSED ∧ p ∉ issued s' ≫= data_wb_pos)))).

(** The class has the context at [p] in its hands. *)
Definition processing s (p : Z) : Prop := ∃ c, ctx s p = Some c ∧ state c = DESC_PROCESSING.

Class QueueLaws := {
  (** The invariant of the derived class; it may speak of contexts in [DESC_PROCESSING], of
      data writes and of the order of processing only. *)
  sub_ok : qstate S → Prop;
  sub_ok_frame s s' :
    full s → full s' → sub s' = sub s → log s' = log s →
    issued s' ≫= data_wb_pos = issued s ≫= data_wb_pos →
    (∀ p c, is_pos p → ctx s p = Some c → state c = DESC_PROCESSING → ctx s' p = Some c) →
    (∀ p, is_pos p → processing s' p → processing s p) →
    sub_ok s → sub_ok s';
  sub_ok_written s s' p l1 l2 :
    full s → full s' → sub s' = sub s → log s' = log s → is_pos p →
    issued s ≫= data_wb_pos = l1 ++ p :: l2 → issued s' ≫= data_wb_pos = l1 ++ l2 →
    NoDup (issued s ≫= data_wb_pos) →
    (∀ p' c, is_pos p' → p' ≠ p → ctx s p' = Some c → state c = DESC_PROCESSING →
       ctx s' p' = Some c) →
    (∀ p', is_pos p' → processing s' p' → p' ≠ p ∧ processing s p') →
    sub_ok s → sub_ok s';
  prepare_law s p c :
    full s → is_pos p → ctx s p = Some c → state c = DESC_PREPARING →
    match prepare s p with inr s' => prep_step s s' p | inl f => f = Derived end;
  process_law s p c :
    full s → is_pos p → ctx s p = Some c → state c = DESC_PREPARED → sub_ok s →
    16 ≤ Z.of_nat (length (desc c)) → NoDup (issued s ≫= data_wb_pos) →
    let s1 := note (put s p (set_state c DESC_PROCESSING)) (index c) in
    match process s1 p with
    | inr s' => proc_step s1 s' ∧ sub_ok s'
    | inl f => f = Derived
    end;
  writeback_law s idx pos n :
    full s → is_pos pos → 0 < n ≤ 128 → 0 < desc_len (que s) → 0 < len (que s) →
    (∀ p c, is_pos p → within pos 0 n p → ctx s p = Some c →
       state c = DESC_WRITING_BACK ∧ desc_len (que s) ≤ Z.of_nat (length (desc c))) →
    match do_writeback s idx pos n with
    | inr s' => ∃ op, s' = IssueDma s op ∧ wb_of (desc_len (que s)) op = [(pos, n)] ∧
                  fetch_pos (desc_len (que s)) op = [] ∧ data_fetch_pos op = [] ∧
                  data_wb_pos op = []
    | inl f => f = Derived
    end;
  interrupt_law s :
    match interrupt s with
    | inr s' => que s' = que s ∧ issued s' = issued s ∧ log s' = log s ∧
                (sub_ok s → sub_ok s')
    | inl f => f = Derived
    end
}.

(** The context at [p], for the ring entry [i], is in the hands of the class. *)
Definition held s (p i : Z) : Prop :=
  is_pos p ∧ ∃ c, ctx s p = Some c ∧ state c = DESC_PROCESSING ∧ index c = i ∧
    16 ≤ Z.of_nat (length (desc c)).

Lemma held_frame s s' p i :
  (∀ c, ctx s p = Some c → state c = DESC_PROCESSING → ctx s' p = Some c) →
  held s p i → held s' p i.
Proof. intros Hf (Hp & c & Hc & Hst & Hr). split; [done|]. exists c. auto. Qed.

End laws.
Arguments QueueLaws S {_}.

Abbreviation writes s := (issued s ≫= data_wb_pos).

Lemma Forall2_impl_elem {A B} (P Q : A → B → Prop) l k :
  Forall2 P l k → (∀ x y, x ∈ l → P x y → Q x y) → Forall2 Q l k.
Proof. induction 1; intros HPQ; constructor; [apply HPQ; [left|done]|]. set_solver. Qed.

(** The default [do_writeback] keeps its law, whatever the class. *)
Lemma gather_spec {S} (s : qstate S) pos n : ∀ i,
  full s → is_pos pos → 0 ≤ i → i + Z.of_nat n ≤ 128 → 0 < desc_len (que s) →
  (∀ p c, is_pos p → within pos i (Z.of_nat n) p → ctx s p = Some c →
     state c = DESC_WRITING_BACK ∧ desc_len (que s) ≤ Z.of_nat (length (desc c))) →
  ∃ buf, gather s pos i n = inr buf ∧
    Z.of_nat (length buf) = Z.of_nat n * desc_len (que s).
Proof.
  induction n as [|n IH]; intros i Hf Hp Hi Hn Hdl Hall; cbn [gather]; [by exists []|].
  destruct (ring_pos_fresh pos i) as (p0 & Ep & Hp0 & Ho); [done|lia|].
  destruct (ctx_Some s p0 Hf Hp0) as [c Hc]. rewrite Ep, (get_ctx _ _ _ Hc).
  cbn [mbind sum_bind]. destruct (Hall p0 c) as [Hst Hl]; [done|unfold within; lia|done|].
  rewrite decide_True by done.
  destruct (IH (i + 1)) as (buf & E & Hlen); [done|done|lia|lia|done| |].
  { intros p c' Hp' Hw. apply Hall; [done|unfold within in *; lia]. }
  rewrite E. cbn. eexists. split; [done|]. rewrite length_app, length_take. lia.
Qed.

Lemma base_do_writeback_law {S} (s : qstate S) idx pos n :
  full s → is_pos pos → 0 < n ≤ 128 → 0 < desc_len (que s) →
  (∀ p c, is_pos p → within pos 0 n p → ctx s p = Some c →
     state c = DESC_WRITING_BACK ∧ desc_len (que s) ≤ Z.of_nat (length (desc c))) →
  ∃ a d, base_do_writeback s idx pos n = inr (IssueDma s (dma_wb pos a d)) ∧
    wb_of (desc_len (que s)) (dma_wb pos a d) = [(pos, n)].
Proof.
  intros Hf Hp Hn Hdl Hall. unfold base_do_writeback.
  destruct (gather_spec s pos (Z.to_nat n) 0) as (buf & -> & Hl); [done|done|lia|lia|done| |].
  { intros p c ? Hw. apply Hall; [done|]. unfold within in *. lia. }
  cbn [mbind sum_bind]. eexists _, _. split; [done|]. cbn.
  rewrite Hl, Z2Nat.id, Z.div_mul by lia. done.
Qed.

(** So does the default [prepare]. *)
Lemma prepared_step {S} (s : qstate S) p c :
  ctx s p = Some c → state c = DESC_PREPARING →
  ∃ s', prepared s p = inr s' ∧ prep_step s s' p.
Proof.
  intros Hc Hst. unfold prepared, transition. rewrite (get_ctx _ _ _ Hc). cbn.
  rewrite decide_True by done. eexists. split; [done|].
  exists c, (set_state c DESC_PREPARED). repeat (split; [done|]). by left.
Qed.

(** And fetching the data of a descriptor. *)
Lemma data_fetch_step {S} (s : qstate S) p c addr n :
  ctx s p = Some c → state c = DESC_PREPARING → 0 ≤ n →
  ∃ s', data_fetch s p addr n = inr s' ∧ prep_step s s' p.
Proof.
  intros Hc Hst Hn. unfold data_fetch. rewrite (get_ctx _ _ _ Hc). cbn [mbind sum_bind].
  eexists. split; [done|]. set (c' := if _ <? _ then MkCtx _ _ _ _ else c). exists c, c'.
  assert (state c' = state c ∧ index c' = index c ∧ desc c' = desc c ∧
    n ≤ Z.of_nat (length (data c'))) as (E1 & E2 & E3 & E4).
  { unfold c'. destruct (Z.ltb_spec (Z.of_nat (length (data c))) n);
      cbn [state index desc data]; rewrite ?length_replicate; split_and!; done || lia. }
  split_and!; try done; [by rewrite E3|]. right. split; [congruence|]. by exists n, addr.
Qed.

(** ** The invariant *)

(** The window from the first active position: [w] contexts are being written back, those up
    to [k] have been handed to [process], those up to [cnt] are on their way there. *)
Definition phase (w k cnt i : Z) (st : dstate) : Prop :=
  if decide (i < w) then st = DESC_WRITING_BACK
  else if decide (i < k) then st = DESC_PROCESSING ∨ st = DESC_PROCESSED
  else if decide (i < cnt) then
    st = DESC_FETCHING ∨ st = DESC_PREPARING ∨ st = DESC_PREPARED
  else st = DESC_EMPTY.

(** The length of the ring, fixed while the queue is enabled. *)
Class RingLen := ring_len : Z.

Section engine_inv.
Context {S : Type} `{QueueClass S} `{!QueueLaws S} {N : RingLen}.
Implicit Types s : qstate S.

(** The fetches in flight cover the contexts in [DESC_FETCHING], each once. *)
Definition fetch_ok (O : list dma_op) s : Prop :=
  NoDup (O ≫= fetch_pos (desc_len (que s))) ∧
  (∀ p, p ∈ O ≫= fetch_pos (desc_len (que s)) ↔
    is_pos p ∧ ∃ c, ctx s p = Some c ∧ state c = DESC_FETCHING) ∧
  ∀ p a l, dma_fetch p a l ∈ O →
    is_pos p ∧ ∃ n, 0 ≤ n ≤ 128 ∧ l = desc_len (que s) * n.

(** The data operations in flight belong to contexts that wait for them; a context that is
    being prepared waits for one. *)
Record data_ok (O : list dma_op) s : Prop := DataOk {
  data_fetches : NoDup (O ≫= data_fetch_pos);
  data_wbs : NoDup (O ≫= data_wb_pos);
  data_dfetch : ∀ p total po a l, dma_data_fetch p total po a l ∈ O →
    is_pos p ∧ ∃ c, ctx s p = Some c ∧ state c = DESC_PREPARING ∧
      0 ≤ po ≤ total ∧ l = (total - po) `min` MAX_DMA_SIZE ∧
      total ≤ Z.of_nat (length (data c));
  data_dwb : ∀ p a d, dma_data_wb p a d ∈ O →
    is_pos p ∧ ∃ c, ctx s p = Some c ∧ state c = DESC_PROCESSING;
  data_prep : ∀ p c, is_pos p → ctx s p = Some c → state c = DESC_PREPARING →
    p ∈ O ≫= data_fetch_pos
}.

(** [T] descriptors have been posted and [h] freed since the ring was set up; [O] are the
    operations in flight. *)
Record inv (T h : Z) (O : list dma_op) s (w k : Z) : Prop := Inv {
  inv_full : full s;
  inv_enabled : enabled (que s) = true;
  inv_len : 0 < len (que s) ≤ 2 ^ 16 ∧ (len (que s) | 2 ^ 32);
  inv_dl : 16 ≤ desc_len (que s);
  inv_pos : is_pos (active_first_pos (que s));
  inv_cnt : 0 ≤ w ≤ k ∧ k ≤ active_cnt (que s) ≤ 128 ∧ len (que s) = ring_len;
  inv_idx : 0 ≤ h ∧ active_first_idx (que s) = h mod len (que s);
  inv_tail : reg_tail (que s) = T mod len (que s) ∧
             h + active_cnt (que s) ≤ T < h + len (que s);
  inv_log : log s = (λ n, n mod len (que s)) <$> seqZ 0 (h + k);
  inv_ctx : ∀ p c, is_pos p → ctx s p = Some c →
    let i := off (active_first_pos (que s)) p in
    phase w k (active_cnt (que s)) i (state c) ∧
    (i < active_cnt (que s) → index c = (h + i) mod len (que s)) ∧
    desc_len (que s) ≤ Z.of_nat (length (desc c));
  inv_fetch : fetch_ok O s;
  inv_wb : O ≫= wb_of (desc_len (que s)) =
    if decide (w = 0) then [] else [(active_first_pos (que s), w)];
  inv_data : data_ok O s
}.

(** Sums modulo the ring length, with the wrap-around of [uint32_t]. *)
Lemma ring_sub len x y : 0 < len → (len | 2 ^ 32) → u32 (x - y) mod len = (x - y) mod len.
Proof.
  intros Hl [m Hm]. unfold wrap. rewrite Hm, Z.mul_comm.
  rewrite Z.rem_mul_r by (try lia; intros ->; lia).
  rewrite (Z.mul_comm len), Z_mod_plus_full, Zmod_mod. done.
Qed.

Lemma ring_add len x y :
  0 ≤ x → 0 < len ≤ 2 ^ 16 → 0 ≤ y ≤ 2 ^ 16 → u32 (x mod len + y) mod len = (x + y) mod len.
Proof.
  intros ???. pose proof (Z.mod_pos_bound x len). rewrite (wrap_id 32) by (unfold fits; lia).
  by rewrite Zplus_mod_idemp_l.
Qed.

(** What is fetched: only what was posted, in one piece of the ring, and something unless
    nothing is left or the window is full. *)
Lemma fetch_count_spec T h O s w k :
  inv T h O s w k →
  let q := que s in let F := fetch_count q in
  0 ≤ F ∧ h + active_cnt q + F ≤ T ∧ active_cnt q + F ≤ 128 ∧
  (F = 0 → T = h + active_cnt q ∨ active_cnt q = 128).
Proof.
  intros I q F. destruct I as [_ _ [Hl Hd] _ _ Hc [Hh Hi] [Ht HT] _ _ _ _ _].
  fold q in Hl, Hd, Hc, Hi, Ht, HT.
  assert (F = fetch_count q) as EF by done. unfold fetch_count in EF. rewrite Hi in EF.
  rewrite ring_add in EF by lia. set (next := (h + active_cnt q) mod len q) in *.
  assert (0 ≤ next < len q) by (apply Z.mod_pos_bound; lia).
  rewrite Ht, ring_sub in EF by (done || lia).
  assert ((T mod len q - next) mod len q = T - h - active_cnt q) as Ha.
  { unfold next. rewrite Zminus_mod_idemp_l, Zminus_mod_idemp_r, Z.mod_small; lia. }
  rewrite Ha in EF. unfold MAX_ACTIVE_DESCS, max_active_capacity, max_fetch_capacity, UINT32_MAX in EF.
  rewrite (wrap_id 32 (128 - active_cnt q)) in EF by (unfold fits; lia).
  destruct (Z.leb_spec (2 ^ 32 - 1) (active_cnt q)); [lia|].
  set (n := _ `min` _) in EF. assert (0 ≤ n ≤ 128 - active_cnt q ∧ n ≤ T - h - active_cnt q ∧
    (n = 0 → T = h + active_cnt q ∨ active_cnt q = 128)) as (Hn1 & Hn2 & Hn3) by (unfold n; lia).
  rewrite (wrap_id 32) in EF by (unfold fits; lia).
  destruct (Z.ltb_spec (len q) (next + n)); rewrite EF.
  - rewrite (wrap_id 32) by (unfold fits; lia). lia.
  - split_and!; [lia|lia|lia|exact Hn3].
Qed.

Lemma same_rest_inv s s' :
  same_rest s s' → ∃ cs, s' = with_que s (set_ctxs (que s) cs) ∧ length cs = 128%nat.
Proof.
  intros (Hq & Hs & Hi & Hl & Hf). exists (desc_ctxs (que s')). split; [|done].
  destruct s' as [q' sub' iss' log']. cbn in *. by subst sub' iss' log'; rewrite <- Hq.
Qed.

Lemma within_shift a cnt F p :
  is_pos a → 0 ≤ cnt → 0 ≤ F → cnt + F ≤ 128 →
  within (ring_pos a cnt) 0 F p ↔ within a cnt F p.
Proof.
  intros. unfold within. rewrite off_shift by lia. pose proof (off_bound a p).
  destruct (Z.ltb_spec (off a p) cnt); lia.
Qed.

Lemma phase_widen w k cnt cnt' i st :
  k ≤ cnt ≤ cnt' → ¬ (cnt ≤ i < cnt') → phase w k cnt i st → phase w k cnt' i st.
Proof. unfold phase. intros. repeat case_decide; try done; lia. Qed.

Lemma phase_fetching w k cnt i : w ≤ k → k ≤ i < cnt → phase w k cnt i DESC_FETCHING.
Proof. unfold phase. intros. repeat case_decide; try lia. auto. Qed.

Lemma phase_empty w k cnt i st : w ≤ k → k ≤ cnt ≤ i → phase w k cnt i st → st = DESC_EMPTY.
Proof. unfold phase. intros ??. repeat case_decide; done || lia. Qed.

(** A list of operations with one more at the end. *)
Lemma bind_snoc {A B} (f : A → list B) l x : (l ++ [x]) ≫= f = (l ≫= f) ++ f x.
Proof. rewrite bind_app. cbn. by rewrite app_nil_r. Qed.

(** Data operations are untouched when the contexts they concern are. *)
Lemma data_ok_frame O O' s s' :
  data_ok O s → filter is_data O' = filter is_data O →
  (∀ p c, is_pos p → ctx s p = Some c →
     state c = DESC_PREPARING ∨ state c = DESC_PROCESSING → ctx s' p = Some c) →
  (∀ p c, is_pos p → ctx s' p = Some c → state c = DESC_PREPARING → ctx s p = Some c) →
  data_ok O' s'.
Proof.
  intros [H1 H2 H3 H4 H5] E Hfwd Hback.
  assert (∀ op, is_data op → op ∈ O' → op ∈ O) as Hin.
  { intros op Hop Hin. assert (op ∈ filter is_data O') as Hin' by (by apply list_elem_of_filter).
    rewrite E in Hin'. by apply list_elem_of_filter in Hin' as [_ ?]. }
  split.
  - by rewrite data_fetch_pos_filter, E, <- data_fetch_pos_filter.
  - by rewrite data_wb_pos_filter, E, <- data_wb_pos_filter.
  - intros p total po a l Hop. apply Hin in Hop; [|done].
    destruct (H3 _ _ _ _ _ Hop) as (? & c & ? & ? & ?). split; [done|]. exists c. eauto.
  - intros p a d Hop. apply Hin in Hop; [|done].
    destruct (H4 _ _ _ Hop) as (? & c & ? & ?). split; [done|]. exists c. eauto.
  - intros p c Hp Hc Hst. rewrite data_fetch_pos_filter, E, <- data_fetch_pos_filter. eauto.
Qed.

(** After [trigger_fetch], a fetch is in flight unless all that was posted is active or the
    window is full. *)
Definition fetch_settled (T h : Z) s : Prop :=
  T = h + active_cnt (que s) ∨ active_cnt (que s) = 128 ∨
  ∃ p a l, dma_fetch p a l ∈ issued s.

(** The contexts after [F] of them, from offset [cnt], have been marked. *)
Definition fetching_ctxs s (next cnt F : Z) (cs : list desc_ctx) : Prop :=
  ∀ p, is_pos p → cs !! Z.to_nat p =
    (λ c, if decide (within (active_first_pos (que s)) cnt F p)
          then MkCtx DESC_FETCHING
                 ((next + (off (active_first_pos (que s)) p - cnt)) mod len (que s)) (desc c) (data c)
          else c) <$> ctx s p.

Definition fetching s (cs : list desc_ctx) (addr F : Z) : qstate S :=
  let q := que s in
  IssueDma (with_que s (set_active (set_ctxs q cs) (active_first_pos q) (active_first_idx q)
                          (active_cnt q + F) (reg_head q)))
           (dma_fetch (ring_pos (active_first_pos q) (active_cnt q)) addr (desc_len q * F)).

Lemma fetching_was_empty T h O s w k F p c :
  inv T h O s w k → is_pos p → within (active_first_pos (que s)) (active_cnt (que s)) F p →
  ctx s p = Some c → state c = DESC_EMPTY.
Proof.
  intros I Hp Hw Hc. destruct (inv_ctx _ _ _ _ _ _ I p c Hp Hc) as [Hph _].
  pose proof (inv_cnt _ _ _ _ _ _ I). eapply phase_empty; [| |exact Hph]; [lia|].
  unfold within in Hw. lia.
Qed.

Section fetching.
Context (T h w k next addr F : Z) (s : qstate S) (cs : list desc_ctx).
Let a := active_first_pos (que s).
Let cnt := active_cnt (que s).
Context (I : inv T h (issued s) s w k).
Context (HF : 0 < F) (HT : h + cnt + F ≤ T) (H128 : cnt + F ≤ 128).
Context (Hnext : next = (h + cnt) mod len (que s)).
Context (Hcs : length cs = 128%nat) (Hc2 : fetching_ctxs s next cnt F cs).

Lemma fetching_same p c :
  is_pos p → ctx s p = Some c → state c ≠ DESC_EMPTY → ctx (fetching s cs addr F) p = Some c.
Proof using All.
  intros Hp Hc Hne. change (cs !! Z.to_nat p = Some c). rewrite (Hc2 p), Hc by done. cbn.
  rewrite decide_False; [done|]. intros Hw. by eapply Hne, fetching_was_empty.
Qed.

Lemma fetching_back p c' :
  is_pos p → ctx (fetching s cs addr F) p = Some c' →
  ∃ c, ctx s p = Some c ∧
    c' = if decide (within a cnt F p)
         then MkCtx DESC_FETCHING ((next + (off a p - cnt)) mod len (que s)) (desc c) (data c)
         else c.
Proof using All.
  intros Hp Hc'. change (cs !! Z.to_nat p = Some c') in Hc'. rewrite (Hc2 p) in Hc' by done.
  destruct (ctx s p) as [c|]; [|done]. exists c. split; [done|]. by injection Hc'.
Qed.

Lemma fetching_fetch_ok :
  let s' := fetching s cs addr F in fetch_ok (issued s') s'.
Proof using All.
  intros s'. pose proof I as [Hf _ _ Hdl Hp Hc _ _ _ _ (Hnd & Hfe & Hshape) _ _].
  unfold fetch_ok. change (desc_len (que s')) with (desc_len (que s)).
  cbn [s' issued fetching IssueDma with_que]. fold a cnt in Hp, Hc |- *.
  pose proof (ring_pos_bound a cnt). rewrite bind_snoc. split; [|split].
  - apply NoDup_app. split_and!; [done| |by apply NoDup_fetch_pos; lia].
    intros p Hin1 Hin2. apply Hfe in Hin1 as (Hpp & c & Hcp & Hst).
    apply elem_of_fetch_pos in Hin2 as [_ Hw]; [|lia|done|lia].
    rewrite within_shift in Hw by lia. eapply fetching_was_empty in Hcp; [congruence|done..].
  - intros p. rewrite elem_of_app, elem_of_fetch_pos, Hfe, within_shift by (done || lia). split.
    + intros [(Hpp & c & Hcp & Hst)|[Hpp Hw]]; (split; [done|]).
      * exists c. split; [apply fetching_same; congruence|done].
      * change (ctx _ p) with (cs !! Z.to_nat p). rewrite (Hc2 p) by done.
        destruct (ctx_Some s p Hf Hpp) as [c ->]. cbn. fold a cnt. rewrite decide_True by done. eauto.
    + intros (Hpp & c' & Hcp & Hst). apply fetching_back in Hcp as (c & Hcp & ->); [|done].
      destruct (decide (within a cnt F p)); [by right|]. left. eauto.
  - intros p' a' l'. rewrite elem_of_app, list_elem_of_singleton. intros [?|[= -> -> ->]].
    + by eapply Hshape.
    + split; [done|]. exists F. split; [lia|done].
Qed.

Lemma fetching_inv :
  let s' := fetching s cs addr F in
  inv T h (issued s') s' w k ∧ (sub_ok s → sub_ok s').
Proof using All.
  intros s'. pose proof I as [Hf He Hl Hdl Hp Hc Hidx Ht Hlog Hctx _ Hwb Hdata].
  fold a cnt in Hc, Ht, Hctx, Hp. split.
  2:{ intros Hs. eapply sub_ok_frame; [exact Hf|done|done|done| | | |exact Hs].
      - cbn [s' issued fetching IssueDma with_que]. rewrite bind_snoc. cbn. by rewrite app_nil_r.
      - intros p c Hpp Hcp Hst. apply fetching_same; congruence.
      - intros p Hpp (c' & Hcp & Hst). apply fetching_back in Hcp as (c & Hcp & ->); [|done].
        case_decide; [done|by exists c]. }
  split; try done.
  - change (0 ≤ w ≤ k ∧ k ≤ cnt + F ≤ 128 ∧ len (que s) = ring_len). lia.
  - change (reg_tail (que s) = T mod len (que s) ∧ h + (cnt + F) ≤ T < h + len (que s)). lia.
  - intros p c' Hpp Hcp. apply fetching_back in Hcp as (c & Hcp & ->); [|done].
    destruct (Hctx p c Hpp Hcp) as (Hph & Hix & Hde). cbn. fold a cnt in Hph, Hix |- *.
    pose proof (off_bound a p). destruct (decide (within a cnt F p)) as [Hw|Hw]; cbn;
      unfold within in Hw.
    + split_and!; [apply phase_fetching; lia| |done]. intros _.
      rewrite Hnext, Zplus_mod_idemp_l. f_equal. lia.
    + split_and!; [eapply phase_widen; [| |done]; lia| |done]. intros ?. apply Hix. lia.
  - apply fetching_fetch_ok.
  - cbn [s' issued fetching IssueDma with_que]. rewrite bind_snoc. cbn [wb_of].
    rewrite app_nil_r. exact Hwb.
  - eapply data_ok_frame; [exact Hdata| | |].
    + cbn [s' issued fetching IssueDma with_que]. rewrite filter_app. cbn. by rewrite app_nil_r.
    + intros p c Hpp Hcp Hst. apply fetching_same; [done..|]. by destruct Hst as [->| ->].
    + intros p c Hpp Hcp Hst. apply fetching_back in Hcp as (c0 & Hcp & ->); [|done].
      by destruct (decide (within a cnt F p)).
Qed.

End fetching.

Lemma trigger_fetch_inv T h s w k :
  inv T h (issued s) s w k → sub_ok s →
  ∃ s', trigger_fetch s = inr s' ∧ inv T h (issued s') s' w k ∧ sub_ok s' ∧
    fetch_settled T h s'.
Proof.
  intros I Hs. pose proof (fetch_count_spec _ _ _ _ _ _ I) as (HF & HT & H128 & H0).
  unfold trigger_fetch. set (F := fetch_count (que s)) in *.
  rewrite (inv_enabled _ _ _ _ _ _ I). cbn [negb].
  pose proof I as [Hf _ [Hl _] _ Hp Hc [Hh Hi] _ _ _ _ _ _].
  destruct (Z.eqb_spec (len (que s)) 0); [lia|]. destruct (Z.eqb_spec F 0) as [|Hpos].
  { exists s. split; [done|]. split; [done|]. split; [done|].
    unfold fetch_settled. naive_solver. }
  rewrite Hi, ring_add by lia.
  pose proof (ring_pos_bound (active_first_pos (que s)) (active_cnt (que s))) as Ha'.
  pose proof (Z.mod_pos_bound (h + active_cnt (que s)) (len (que s)) ltac:(lia)) as Hn.
  destruct (mark_fetching_spec (ring_pos (active_first_pos (que s)) (active_cnt (que s)))
              ((h + active_cnt (que s)) mod len (que s)) (Z.to_nat F) s 0)
    as (s1 & -> & (cs & -> & Hcs)%same_rest_inv & Hc1); [done|done|lia|lia|lia| |].
  { intros p c Hpp Hw. rewrite Z2Nat.id, within_shift in Hw by lia.
    by eapply fetching_was_empty. }
  rewrite Z2Nat.id in Hc1 by lia. cbn [mbind sum_bind que with_que set_ctxs active_cnt].
  rewrite (wrap_id 32 (_ + F)) by (unfold fits; lia). eexists. split; [reflexivity|].
  match goal with |- context [dma_fetch _ ?x _] => set (addr := x) end.
  destruct (fetching_inv T h w k ((h + active_cnt (que s)) mod len (que s)) addr F s cs)
    as [I' Hs']; [done|lia|lia|lia|done|done| |].
  { intros p Hpp. change (cs !! Z.to_nat p) with (ctx (with_que s (set_ctxs (que s) cs)) p).
    rewrite Hc1 by done. destruct (ctx s p) as [c|]; [|done]. cbn. f_equal.
    destruct (decide (within (active_first_pos (que s)) (active_cnt (que s)) F p)) as [Hw|Hw].
    - rewrite decide_True by (by rewrite within_shift by lia). do 3 f_equal. unfold within in Hw.
      rewrite off_shift by lia. destruct (Z.ltb_spec (off (active_first_pos (que s)) p) (active_cnt (que s))); lia.
    - rewrite decide_False; [done|]. by rewrite within_shift by lia. }
  split; [exact I'|]. split; [exact (Hs' Hs)|]. right. right. do 3 eexists.
  apply elem_of_app. right. by apply list_elem_of_singleton.
Qed.

(** ** Processing *)

Lemma seqZ_snoc n : 0 ≤ n → seqZ 0 (n + 1) = seqZ 0 n ++ [n].
Proof. intros. rewrite seqZ_app by lia. done. Qed.

(** A context moves from [DESC_PREPARED] to [DESC_PROCESSING]. *)
Lemma start_inv T h s w k p c :
  inv T h (issued s) s w k → is_pos p → off (active_first_pos (que s)) p = k →
  k < active_cnt (que s) → ctx s p = Some c → state c = DESC_PREPARED →
  let s1 := note (put s p (set_state c DESC_PROCESSING)) (index c) in
  inv T h (issued s1) s1 w (k + 1).
Proof.
  intros I Hp Ho Hk Hc Hst s1.
  pose proof I as [Hf He Hl Hdl Hpos Hcnt Hidx Ht Hlog Hctx Hfe Hwb Hdata].
  assert (∀ p', is_pos p' → ctx s1 p' =
    if decide (p = p') then Some (set_state c DESC_PROCESSING) else ctx s p') as Hc1
    by (intros; unfold s1; by apply ctx_put).
  split; try done; cbn [s1 que issued log note put with_que].
  - by apply full_put.
  - cbn. lia.
  - cbn [set_ctxs len]. rewrite Hlog. destruct (Hctx p c Hp Hc) as (_ & Hix & _).
    rewrite Z.add_assoc, seqZ_snoc, fmap_app by lia. cbn. by rewrite Hix, Ho by lia.
  - intros p' c' Hp' Hc'. rewrite Hc1 in Hc' by done. cbn [set_ctxs].
    destruct (decide (p = p')) as [->|Hne].
    + simplify_eq. destruct (Hctx p' c Hp Hc) as (_ & Hix & Hde). cbn. split_and!; [|done|done].
      unfold phase. rewrite decide_False, decide_True by lia. auto.
    + destruct (Hctx p' c' Hp' Hc') as (Hph & Hix & Hde). split_and!; [|done|done].
      assert (off (active_first_pos (que s)) p' ≠ k).
      { intros E. apply Hne, (off_inj (active_first_pos (que s))); [done..|congruence]. }
      cbn. revert Hph. unfold phase. repeat case_decide; try done; lia.
  - destruct Hfe as (Hnd & Hfe & Hshape). split; [done|]. split; [|done]. intros p'.
    change (p' ∈ issued s ≫= fetch_pos (desc_len (que s)) ↔
      is_pos p' ∧ ∃ c, ctx s1 p' = Some c ∧ state c = DESC_FETCHING).
    rewrite Hfe. split; intros (Hp' & c' & Hc' & Hst'); (split; [done|]); exists c'.
    + rewrite Hc1 by done. split; [|done]. rewrite decide_False; [done|]. intros <-. congruence.
    + rewrite Hc1 in Hc' by done. destruct (decide (p = p')); by simplify_eq/=.
  - eapply data_ok_frame; [exact Hdata|done| |].
    + intros p' c' Hp' Hc' Hst'. rewrite Hc1 by done. rewrite decide_False; [done|].
      intros <-. simplify_eq. rewrite Hst in Hst'. by destruct Hst'.
    + intros p' c' Hp' Hc' Hst'. rewrite Hc1 in Hc' by done.
      destruct (decide (p = p')); by simplify_eq/=.
Qed.

Lemma same_fields q q' :
  q' = set_ctxs q (desc_ctxs q') →
  enabled q' = enabled q ∧ len q' = len q ∧ desc_len q' = desc_len q ∧
  active_first_pos q' = active_first_pos q ∧ active_first_idx q' = active_first_idx q ∧
  active_cnt q' = active_cnt q ∧ reg_tail q' = reg_tail q.
Proof. by intros ->. Qed.

(** Derived-class processing keeps the window. *)
Lemma proc_step_inv T h s s' w k :
  inv T h (issued s) s w k → proc_step s s' → inv T h (issued s') s' w k.
Proof.
  intros I (Hq & Hf' & Hlog' & (extra & Hi & Hex & Hndw) & Hcs).
  pose proof I as [Hf He Hl Hdl Hpos Hcnt Hidx Ht Hlog Hctx (Hnd & Hfe & Hshape) Hwb [D1 D2 D3 D4 D5]].
  assert (∀ p c', is_pos p → ctx s' p = Some c' → ∃ c, ctx s p = Some c ∧
    (c' = c ∨ (state c = DESC_PROCESSING ∧ index c' = index c ∧
       length (desc c') = length (desc c) ∧
       (state c' = DESC_PROCESSING ∨ (state c' = DESC_PROCESSED ∧ p ∉ issued s' ≫= data_wb_pos)))))
    as Hback.
  { intros p c' Hp Hc'. destruct (ctx_Some s p Hf Hp) as [c Hc]. exists c. split; [done|].
    destruct (Hcs p c Hp Hc) as (c'' & Hc'' & Hor). by simplify_eq. }
  assert (∀ f : dma_op → list Z, (∀ p a d, f (dma_data_wb p a d) = []) →
    issued s' ≫= f = issued s ≫= f) as Hbind.
  { intros f Hnil. rewrite Hi, bind_app. replace (extra ≫= f) with (@nil Z); [apply app_nil_r|].
    clear - Hex Hnil. induction Hex as [|op l (p & a & d & -> & _) _ IH]; [done|].
    by rewrite bind_cons, Hnil. }
  destruct (same_fields _ _ Hq) as (E1 & E2 & E3 & E4 & E5 & E6 & E7).
  split; rewrite ?E1, ?E2, ?E3, ?E4, ?E5, ?E6, ?E7; try done.
  - by rewrite Hlog'.
  - intros p c' Hp Hc'. destruct (Hback p c' Hp Hc') as (c & Hc & [->|(Hst & Hix & Hde & Hor)]).
    + by apply Hctx.
    + destruct (Hctx p c Hp Hc) as (Hph & Hix' & Hde'). cbn in *.
      split_and!; [|intros; rewrite Hix; auto|by rewrite Hde].
      rewrite Hst in Hph. revert Hph. unfold phase.
      repeat case_decide; try done; try naive_solver.
  - unfold fetch_ok. rewrite E3, Hbind by done.
    split; [done|]. split.
    2:{ intros p a l. rewrite Hi, elem_of_app. intros [?|Hin]; [by eapply Hshape|].
        rewrite Forall_forall in Hex. by apply Hex in Hin as (? & ? & ? & ? & _). }
    intros p. rewrite Hfe. split; intros (Hp & c & Hc & Hst); (split; [done|]).
    + destruct (Hcs p c Hp Hc) as (c' & Hc' & [->|(? & _)]); [by exists c|congruence].
    + destruct (Hback p c Hp Hc) as (c0 & Hc0 & [->|(Hst0 & _ & _ & [?|[? _]])]); [by exists c0|congruence..].
  - rewrite Hi, bind_app. replace (extra ≫= wb_of (desc_len (que s))) with (@nil (Z * Z));
      [by rewrite app_nil_r|].
    clear - Hex. induction Hex as [|op l (p & a & d & -> & _) _ IH]; done.
  - split.
    + by rewrite Hbind.
    + done.
    + intros p total po a l. rewrite Hi, elem_of_app. intros [Hin|Hin].
      * destruct (D3 _ _ _ _ _ Hin) as (Hp & c & Hc & Hst & ?). split; [done|].
        destruct (Hcs p c Hp Hc) as (c' & Hc' & [->|(? & _)]); [by exists c|congruence].
      * rewrite Forall_forall in Hex. by apply Hex in Hin as (? & ? & ? & ? & _).
    + intros p a d Hin. assert (p ∈ issued s' ≫= data_wb_pos) as Hpin.
      { apply list_elem_of_bind. exists (dma_data_wb p a d). split; [left|done]. }
      rewrite Hi, elem_of_app in Hin. destruct Hin as [Hin|Hin].
      * destruct (D4 _ _ _ Hin) as (Hp & c & Hc & Hst). split; [done|].
        destruct (Hcs p c Hp Hc) as (c' & Hc' & [->|(_ & _ & _ & [?|[_ ?]])]); eauto. done.
      * rewrite Forall_forall in Hex. apply Hex in Hin as (p' & ? & ? & E & ?). by simplify_eq.
    + intros p c' Hp Hc' Hst. rewrite Hbind by done.
      destruct (Hback p c' Hp Hc') as (c & Hc & [->|(_ & _ & _ & [?|[? _]])]); [by eapply D5|congruence..].
Qed.

(** What an outcome may be: a state with [P], or a derived class that gave up. *)
Definition holds (r : result (qstate S)) (P : qstate S → Prop) : Prop :=
  match r with inr s => P s | inl f => f = Derived end.

Lemma holds_bind r f P Q :
  holds r P → (∀ s, P s → holds (f s) Q) → holds (r ≫= f) Q.
Proof. destruct r; cbn; auto. Qed.

Lemma holds_mono r (P Q : qstate S → Prop) : holds r P → (∀ s, P s → Q s) → holds r Q.
Proof. destruct r; cbn; auto. Qed.

(** The context after the processed prefix is not ready. *)
Definition process_settled s (k : Z) : Prop :=
  ∀ p c, is_pos p → off (active_first_pos (que s)) p = k → k < active_cnt (que s) →
    ctx s p = Some c → state c ≠ DESC_PREPARED.

Definition kept s s' : Prop :=
  active_cnt (que s') = active_cnt (que s) ∧ ∃ l, issued s' = issued s ++ l.

Lemma kept_trans s1 s2 s3 : kept s1 s2 → kept s2 s3 → kept s1 s3.
Proof.
  intros [? [l1 H1]] [? [l2 H2]]. split; [congruence|]. exists (l1 ++ l2).
  by rewrite H2, H1, app_assoc.
Qed.

Lemma run_prepared_inv T h w fuel : ∀ s k,
  inv T h (issued s) s w k → sub_ok s → active_cnt (que s) - k ≤ Z.of_nat fuel →
  holds (run_prepared s k fuel) (λ s', ∃ k', inv T h (issued s') s' w k' ∧ sub_ok s' ∧
    process_settled s' k' ∧ kept s s').
Proof.
  induction fuel as [|fuel IH]; intros s k I Hs Hfuel; cbn [run_prepared];
    (destruct (Z.ltb_spec k (active_cnt (que s))) as [Hlt|Hge];
      [|exists k; split_and!; [done|done|by intros p c ? ? ?; lia|by split; [|exists []; rewrite app_nil_r]]]);
    [lia|].
  pose proof I as [Hf _ _ Hdl Hpos Hcnt _ _ _ Hctx _ _ [_ Hdw _ _ _]].
  destruct (ring_pos_fresh (active_first_pos (que s)) k) as (p & Ep & Hp & Ho); [done|lia|].
  destruct (ctx_Some s p Hf Hp) as [c Hc]. destruct (Hctx p c Hp Hc) as (_ & _ & Hdesc).
  rewrite Ep, (get_ctx _ _ _ Hc). cbn [mbind sum_bind].
  destruct (decide (state c = DESC_PREPARED)) as [Hst|Hst].
  - pose proof (start_inv T h s w k p c I Hp Ho Hlt Hc Hst) as I1.
    pose proof (process_law s p c Hf Hp Hc Hst Hs ltac:(lia) Hdw) as Hlaw. cbn zeta in I1, Hlaw.
    set (s1 := note _ _) in *. destruct (process s1 p) as [|s2]; [done|].
    destruct Hlaw as [Hstep Hs2]. cbn [mbind sum_bind].
    pose proof (proc_step_inv _ _ _ _ _ _ I1 Hstep) as I2.
    assert (kept s s2) as Hk.
    { destruct Hstep as (Hq & _ & _ & (extra & Hi & _) & _).
      split; [by destruct (same_fields _ _ Hq) as (_ & _ & _ & _ & _ & -> & _)|by exists extra]. }
    eapply holds_mono; [apply IH; [exact I2|done|destruct Hk as [-> _]; lia]|].
    intros s' (k' & I' & Hs' & Hset & Hk'). exists k'. split_and!; try done.
    by eapply kept_trans.
  - exists k. split_and!; [done|done| |by split; [|exists []; rewrite app_nil_r]].
    intros p' c' Hp' Ho' _ Hc'. replace p' with p in Hc'; [congruence|].
    apply (off_inj (active_first_pos (que s))); [done..|congruence].
Qed.

Lemma phase_rank w k cnt i st :
  w ≤ k → k ≤ cnt → phase w k cnt i st → (i < k → 3 < rank st) ∧ (k ≤ i → rank st ≤ 3).
Proof.
  intros ??. unfold phase. repeat case_decide; try lia;
    intros Hst; (split; intros; [|try lia]); try lia; naive_solver (cbn; lia).
Qed.

Lemma trigger_process_inv T h s w k :
  inv T h (issued s) s w k → sub_ok s →
  holds (trigger_process s) (λ s', ∃ k', inv T h (issued s') s' w k' ∧ sub_ok s' ∧
    process_settled s' k' ∧ kept s s').
Proof.
  intros I Hs. unfold trigger_process. rewrite (inv_enabled _ _ _ _ _ _ I). cbn [negb].
  pose proof I as [Hf _ _ _ Hpos Hcnt _ _ _ Hctx _ _ _].
  rewrite (skip_processed_spec k); try done; try lia.
  - cbn [mbind sum_bind]. apply run_prepared_inv; [done..|lia].
  - intros p c Hp Hw Hc. destruct (Hctx p c Hp Hc) as [Hph _].
    apply phase_rank in Hph as [Hph _]; [|lia..]. apply Hph. unfold within in Hw. lia.
  - intros p c Hp Ho Hc _. destruct (Hctx p c Hp Hc) as [Hph _].
    apply phase_rank in Hph as [_ Hph]; [|lia..]. apply Hph. lia.
Qed.

(** ** Writing back *)

(** Unless a write-back is in flight, the first context is not waiting for one. *)
Definition wb_settled s (w : Z) : Prop :=
  w = 0 → ∀ p c, is_pos p → off (active_first_pos (que s)) p = 0 → 0 < active_cnt (que s) →
    ctx s p = Some c → state c ≠ DESC_PROCESSED.

(** How much is written back at once. *)
Lemma writeback_count idx len b :
  0 ≤ b ≤ 128 → 0 ≤ idx < len → len ≤ 2 ^ 16 →
  let n := b `min` max_writeback_capacity in
  let n := if len <? u32 (idx + n) then u32 (len - idx) else n in
  0 ≤ n ≤ b ∧ (n = 0 → b = 0).
Proof.
  intros Hb Hi Hl. cbn zeta. unfold max_writeback_capacity, UINT32_MAX. rewrite Z.min_l by lia.
  rewrite (wrap_id 32 (idx + b)) by (unfold fits; lia).
  destruct (Z.ltb_spec len (idx + b)); [|lia]. rewrite (wrap_id 32) by (unfold fits; lia). lia.
Qed.

(** [n] processed contexts at the start of the window begin to be written back. *)
Lemma writing_back_inv T h s s1 k n op :
  inv T h (issued s) s 0 k → 0 < n ≤ k → same_rest s s1 →
  (∀ p c, is_pos p → within (active_first_pos (que s)) 0 n p → ctx s p = Some c →
     state c = DESC_PROCESSED) →
  (∀ p, is_pos p → ctx s1 p = (λ c, if decide (within (active_first_pos (que s)) 0 n p)
     then set_state c DESC_WRITING_BACK else c) <$> ctx s p) →
  wb_of (desc_len (que s1)) op = [(active_first_pos (que s), n)] →
  fetch_pos (desc_len (que s1)) op = [] → data_fetch_pos op = [] → data_wb_pos op = [] →
  inv T h (issued (IssueDma s1 op)) (IssueDma s1 op) n k.
Proof.
  intros I Hn (cs & -> & Hcs)%same_rest_inv Hpr Hc1 Hop1 Hop2 Hop3 Hop4.
  pose proof I as [Hf He Hl Hdl Hpos Hcnt Hidx Ht Hlog Hctx (Hnd & Hfe & Hshape) Hwb Hdata].
  cbn [que with_que set_ctxs desc_len] in *. set (a := active_first_pos (que s)) in *.
  set (s2 := IssueDma _ op).
  assert (∀ p, is_pos p → ctx s2 p = (λ c, if decide (within a 0 n p)
     then set_state c DESC_WRITING_BACK else c) <$> ctx s p) as Hc2 by exact Hc1.
  assert (∀ p c, is_pos p → ctx s p = Some c → state c ≠ DESC_PROCESSED → ctx s2 p = Some c)
    as Hsame.
  { intros p c Hp Hc Hne. rewrite Hc2, Hc by done. cbn. rewrite decide_False; [done|].
    intros Hw. by apply Hne, (Hpr p). }
  assert (∀ p c', is_pos p → ctx s2 p = Some c' → ∃ c, ctx s p = Some c ∧
    c' = if decide (within a 0 n p) then set_state c DESC_WRITING_BACK else c) as Hback.
  { intros p c' Hp Hc'. rewrite Hc2 in Hc' by done. destruct (ctx s p) as [c|]; [|done].
    exists c. split; [done|]. by injection Hc'. }
  split; try done; cbn [issued IssueDma s2 que with_que set_ctxs].
  - cbn. lia.
  - intros p c' Hp Hc'. apply Hback in Hc' as (c & Hc & ->); [|done].
    destruct (Hctx p c Hp Hc) as (Hph & Hix & Hde). cbn. fold a in Hph, Hix |- *.
    pose proof (off_bound a p). destruct (decide (within a 0 n p)) as [Hw|Hw]; cbn.
    + split_and!; [|done|done]. unfold within in Hw. unfold phase. rewrite decide_True by lia. done.
    + split_and!; [|done|done]. unfold within in Hw. revert Hph. unfold phase.
      repeat case_decide; try done; lia.
  - change (fetch_ok (issued s ++ [op]) s2). unfold fetch_ok.
    change (desc_len (que s2)) with (desc_len (que s)).
    rewrite bind_snoc, Hop2, app_nil_r. split; [done|]. split.
    + intros p. rewrite Hfe. split; intros (Hp & c & Hc & Hst); (split; [done|]).
      * exists c. split; [apply Hsame; congruence|done].
      * apply Hback in Hc as (c0 & Hc0 & ->); [|done]. exists c0.
        destruct (decide (within a 0 n p)); [done|by split].
    + intros p a' l. rewrite elem_of_app, list_elem_of_singleton. intros [?|<-]; [by eapply Hshape|done].
  - change ((issued s ++ [op]) ≫= wb_of (desc_len (que s)) =
      if decide (n = 0) then [] else [(a, n)]).
    rewrite bind_snoc, Hop1, Hwb, decide_True, decide_False by lia. done.
  - eapply data_ok_frame; [exact Hdata| | |].
    + rewrite filter_app. destruct op; try done; cbn; by rewrite app_nil_r.
    + intros p c Hp Hc Hst. apply Hsame; [done..|]. by destruct Hst as [-> | ->].
    + intros p c Hp Hc Hst. apply Hback in Hc as (c0 & Hc0 & ->); [|done].
      by destruct (decide (within a 0 n p)).
Qed.

(** The processed contexts at the start of the window are among the first [k], and there are
    none while a write-back is in flight. *)
Lemma processed_prefix T h O s w k b :
  inv T h O s w k → 0 < b ≤ active_cnt (que s) →
  (∀ p c, is_pos p → within (active_first_pos (que s)) 0 b p → ctx s p = Some c →
     state c = DESC_PROCESSED) → w = 0 ∧ b ≤ k.
Proof.
  intros I Hb Hpr. pose proof I as [Hf _ _ _ Hpos Hcnt _ _ _ Hctx _ _ _].
  assert (∀ i, 0 ≤ i < b → w ≤ i < k) as Hi.
  { intros i ?. destruct (ring_pos_fresh (active_first_pos (que s)) i) as (p & _ & Hp & Ho);
      [done|lia|].
    destruct (ctx_Some s p Hf Hp) as [c Hc]. destruct (Hctx p c Hp Hc) as [Hph _].
    rewrite (Hpr p c), Ho in Hph by (done || (unfold within; lia)).
    revert Hph. unfold phase. repeat case_decide; try done; try lia; naive_solver. }
  pose proof (Hi 0 ltac:(lia)). pose proof (Hi (b - 1) ltac:(lia)). lia.
Qed.

Lemma trigger_writeback_inv T h s w k :
  inv T h (issued s) s w k → sub_ok s → process_settled s k →
  holds (trigger_writeback s) (λ s', ∃ w', inv T h (issued s') s' w' k ∧ sub_ok s' ∧
    process_settled s' k ∧ wb_settled s' w' ∧ kept s s').
Proof.
  intros I Hs Hset. unfold trigger_writeback. rewrite (inv_enabled _ _ _ _ _ _ I). cbn [negb].
  pose proof I as [Hf _ [Hl _] Hdl Hpos Hcnt [Hh Hidx] _ _ Hctx _ _ _].
  set (q := que s) in *. set (a := active_first_pos q) in *.
  destruct (count_state_spec DESC_PROCESSED (Z.to_nat (active_cnt q)) s 0)
    as (b & -> & Hb & Hin & Hout); [done|done|lia|lia|]. cbn [mbind sum_bind].
  pose proof (writeback_count (active_first_idx q) (len q) b) as Hn. cbn zeta in Hn.
  set (n := if _ <? _ then _ else _) in *.
  destruct Hn as [Hn Hn0]; [lia|rewrite Hidx; apply Z.mod_pos_bound; lia|lia|].
  fold q a in Hin, Hout. destruct (Z.eqb_spec n 0) as [E0|Hpos0].
  { exists w. split_and!; try done; [|by split; [|exists []; rewrite app_nil_r]].
    specialize (Hn0 E0). intros _ p c Hp Ho Hlt Hc. fold q a in Ho, Hlt.
    apply (Hout ltac:(lia) p); [done|lia|done]. }
  destruct (processed_prefix _ _ _ _ _ _ b I) as [-> Hbk]; [fold q; lia| |].
  { intros p c Hp Hw Hc. apply (Hin p); [done| |done]. unfold within in *. fold q a in Hw. lia. }
  destruct (mark_all_spec a None DESC_WRITING_BACK (Z.to_nat n) s 0)
    as (s1 & -> & Hr & Hc1); [done|done|lia|lia|done|]. cbn [mbind sum_bind].
  rewrite Z2Nat.id in Hc1 by lia.
  pose proof Hr as (cs & -> & Hcs)%same_rest_inv.
  pose proof (writeback_law (with_que s (set_ctxs q cs)) (active_first_idx q) a n) as Hlaw.
  destruct (do_writeback _ _ _ _) as [f|s2]; cbn [holds].
  { apply Hlaw; [done|done|lia|cbn; fold q; lia|cbn; fold q; lia|].
    intros p c Hp Hw Hc. rewrite Hc1 in Hc by done.
    destruct (ctx s p) as [c0|] eqn:Ec; [|done]. cbn in Hc. rewrite decide_True in Hc by done.
    simplify_eq. split; [done|]. by destruct (Hctx p c0 Hp Ec) as (_ & _ & ?). }
  destruct Hlaw as (op & -> & Hop1 & Hop2 & Hop3 & Hop4); [done|done|lia|cbn; fold q; lia|cbn; fold q; lia| |].
  { intros p c Hp Hw Hc. rewrite Hc1 in Hc by done.
    destruct (ctx s p) as [c0|] eqn:Ec; [|done]. cbn in Hc. rewrite decide_True in Hc by done.
    simplify_eq. split; [done|]. by destruct (Hctx p c0 Hp Ec) as (_ & _ & ?). }
  exists n. split_and!.
  - eapply writing_back_inv; try done; [lia|]. intros p c Hp Hw Hc.
    apply (Hin p); [done| |done]. unfold within in *. fold q a in Hw. lia.
  - eapply sub_ok_frame; [exact Hf|done|done|done| | | |exact Hs].
    + cbn. rewrite bind_snoc, Hop4. apply app_nil_r.
    + intros p c Hp Hc Hst. change (ctx (with_que s (set_ctxs q cs)) p = Some c).
      rewrite Hc1, Hc by done. cbn. rewrite decide_False; [done|]. intros Hw.
      rewrite (Hin p c) in Hst; try done. unfold within in *. lia.
    + intros p Hp (c' & Hc & Hst). change (ctx (with_que s (set_ctxs q cs)) p = Some c') in Hc.
      rewrite Hc1 in Hc by done. destruct (ctx s p) as [c|] eqn:Ec; [|done]. cbn in Hc.
      case_decide; simplify_eq; by exists c'.
  - intros p c Hp Ho Hlt Hc. change (ctx (with_que s (set_ctxs q cs)) p = Some c) in Hc.
    rewrite Hc1 in Hc by done. destruct (ctx s p) as [c0|] eqn:Ec; [|done]. cbn in Ho, Hlt, Hc.
    rewrite decide_False in Hc by (unfold within; fold q a in Ho; lia). simplify_eq.
    by apply (Hset p).
  - intros ?. lia.
  - split; [done|]. by exists [op].
Qed.

(** Everything that can move has been moved. *)
Definition settled (T h : Z) s (w k : Z) : Prop :=
  fetch_settled T h s ∧ process_settled s k ∧ wb_settled s w.

(** The states between events. *)
Definition ring_inv (T : Z) s : Prop :=
  ∃ h w k, inv T h (issued s) s w k ∧ sub_ok s ∧ settled T h s w k.

Lemma trigger_inv T h s w k :
  inv T h (issued s) s w k → sub_ok s → holds (trigger s) (ring_inv T).
Proof.
  intros I Hs. unfold trigger.
  destruct (trigger_fetch_inv T h s w k I Hs) as (s1 & -> & I1 & Hs1 & F1). cbn [mbind sum_bind].
  eapply holds_bind; [by eapply trigger_process_inv|].
  intros s2 (k2 & I2 & Hs2 & P2 & K2).
  eapply holds_mono; [by eapply trigger_writeback_inv|].
  intros s3 (w3 & I3 & Hs3 & P3 & W3 & K3). exists h, w3, k2. split; [done|]. split; [done|].
  split; [|done]. pose proof (kept_trans _ _ _ K2 K3) as [Hcnt [l Hl]].
  destruct F1 as [->|[?|(p & a & n & Hin)]]; unfold fetch_settled.
  - left. congruence.
  - right. left. congruence.
  - right. right. exists p, a, n. rewrite Hl. apply elem_of_app. by left.
Qed.

End engine_inv.

End queue_inv.
