(* ===== verification/I40eQueueRun.v ===== *)
(** * Completions and runs of the descriptor engine

    The second half of the proof begun in I40eQueueInv.v: what the completion of each kind of
    DMA operation does to the invariant, and the theorems on runs of a queue under register
    writes and completions in any order. *)

From S2P Require Import Prelude I40eQueue I40eQueueInv.

Module queue_run.
Import queue queue_inv.

Section completions.
Context {S : Type} `{QueueClass S} `{!QueueLaws S} {N : RingLen}.
Implicit Types s : qstate S.

Lemma bind_perm {A B} (f : A → list B) l l' : l ≡ₚ l' → l ≫= f ≡ₚ l' ≫= f.
Proof. by intros ->. Qed.

(** The order of the operations in flight does not matter. *)
Lemma inv_perm T h O O' s w k : O ≡ₚ O' → inv T h O s w k → inv T h O' s w k.
Proof.
  intros HO [Hf He Hl Hdl Hpos Hcnt Hidx Ht Hlog Hctx (Hnd & Hfe & Hsh) Hwb [D1 D2 D3 D4 D5]].
  split; try done.
  - split; [|split].
    + by rewrite <- HO.
    + intros p. rewrite <- (Hfe p). by rewrite HO.
    + intros p a l. rewrite <- HO. apply Hsh.
  - pose proof (bind_perm (wb_of (desc_len (que s))) _ _ HO) as Hp. rewrite Hwb in Hp.
    symmetry in Hp. case_decide; [by apply Permutation_nil_r in Hp|].
    by apply Permutation_singleton_r in Hp.
  - split.
    + by rewrite <- HO.
    + by rewrite <- HO.
    + intros p total po a l. rewrite <- HO. apply D3.
    + intros p a d. rewrite <- HO. apply D4.
    + intros p c. rewrite <- HO. apply D5.
Qed.

(** The invariant speaks of the queue and the log only. *)
Lemma inv_same T h O s s' w k :
  que s' = que s → log s' = log s → inv T h O s w k → inv T h O s' w k.
Proof.
  destruct s as [q sub0 iss0 lg], s' as [q' sub' iss' lg']. cbn. intros -> ->.
  intros [? ? ? ? ? ? ? ? ? ? ? ? [? ? ? ? ?]]. by split; [..|split].
Qed.

(** The states of the window after the first [w] contexts have been freed. *)
Lemma phase_shift w k cnt i st :
  0 ≤ w ≤ k → k ≤ cnt ≤ 128 → w ≤ i → phase w k cnt i st → phase 0 (k - w) (cnt - w) (i - w) st.
Proof. unfold phase. intros. repeat case_decide; done || lia. Qed.

Lemma phase_freed k cnt i : 0 ≤ k ≤ cnt → cnt ≤ i → phase 0 k cnt i DESC_EMPTY.
Proof. unfold phase. intros. repeat case_decide; done || lia. Qed.

(** The queue moves past the [w] contexts that were written back. *)
Lemma freed_inv T h s op w k cs :
  inv T h (op :: issued s) s w k → 0 < w →
  wb_of (desc_len (que s)) op = [(active_first_pos (que s), w)] →
  length cs = 128%nat →
  (∀ p, is_pos p → cs !! Z.to_nat p =
     (λ c, if decide (within (active_first_pos (que s)) 0 w p) then set_state c DESC_EMPTY else c)
       <$> ctx s p) →
  let q := que s in
  let idx := (h + w) mod len q in
  let s' := with_que s (set_active (set_ctxs q cs) (ring_pos (active_first_pos q) w) idx
                          (active_cnt q - w) idx) in
  inv T (h + w) (issued s') s' 0 (k - w).
Proof.
  intros I Hw Hop Hcs Hc1 q idx s'.
  pose proof I as [Hf He Hl Hdl Hpos Hcnt Hidx Ht Hlog Hctx (Hnd & Hfe & Hshape) Hwb Hdata].
  fold q in Hl, Hcnt, Hidx, Ht, Hctx, Hwb, Hpos, Hc1, Hop, Hnd, Hfe, Hshape. set (a := active_first_pos q) in *.
  assert (∀ p c, is_pos p → ctx s p = Some c → state c ≠ DESC_WRITING_BACK → ctx s' p = Some c)
    as Hsame.
  { intros p c Hp Hc Hne. change (cs !! Z.to_nat p = Some c). rewrite Hc1, Hc by done. cbn.
    rewrite decide_False; [done|]. unfold within. intros Hwi. apply Hne.
    destruct (Hctx p c Hp Hc) as [Hph _]. fold a in Hph. revert Hph.
    unfold phase. by rewrite decide_True by lia. }
  assert (∀ p c', is_pos p → ctx s' p = Some c' → ∃ c, ctx s p = Some c ∧
    c' = if decide (within a 0 w p) then set_state c DESC_EMPTY else c) as Hback.
  { intros p c' Hp Hc'. change (cs !! Z.to_nat p = Some c') in Hc'. rewrite Hc1 in Hc' by done.
    destruct (ctx s p) as [c|]; [|done]. exists c. split; [done|]. by injection Hc'. }
  assert (fetch_pos (desc_len q) op = [] ∧ ¬ is_data op) as [Hop1 Hop2]
    by (destruct op; try done; (split; [done|by intros []])).
  split; try done; cbn [issued log s' que with_que set_active set_ctxs].
  - apply ring_pos_bound.
  - cbn. lia.
  - cbn. fold q. lia.
  - cbn. fold q. destruct Ht as [-> ?]. split; [done|lia].
  - cbn. fold q. rewrite Hlog. do 2 f_equal. lia.
  - intros p c' Hp Hc'. apply Hback in Hc' as (c & Hc & ->); [|done].
    destruct (Hctx p c Hp Hc) as (Hph & Hix & Hde). fold a in Hph, Hix. cbn. fold q a.
    rewrite off_shift by lia. pose proof (off_bound a p).
    destruct (decide (within a 0 w p)) as [Hwi|Hwi]; unfold within in Hwi; cbn.
    + destruct (Z.ltb_spec (off a p) w); [|lia]. split_and!; [|lia|done].
      apply phase_freed; lia.
    + destruct (Z.ltb_spec (off a p) w); [lia|]. split_and!; [|intros|done].
      * eapply phase_shift in Hph; [exact Hph|lia..].
      * rewrite Hix by lia. f_equal. lia.
  - change (fetch_ok (issued s) s'). rewrite bind_cons in Hnd.
    rewrite Hop1 in Hnd. split; [done|]. split.
    + intros p. change (desc_len (que s')) with (desc_len q). specialize (Hfe p).
      rewrite bind_cons in Hfe. rewrite Hop1 in Hfe. rewrite Hfe.
      split; intros (Hp & c & Hc & Hst); (split; [done|]).
      * exists c. split; [apply Hsame; congruence|done].
      * apply Hback in Hc as (c0 & Hc0 & ->); [|done]. exists c0.
        destruct (decide (within a 0 w p)); [done|by split].
    + intros p a' l Hin. eapply Hshape. by right.
  - rewrite bind_cons, Hop, decide_False in Hwb by lia. cbn in Hwb.
    change (issued s ≫= wb_of (desc_len q) = []). by injection Hwb.
  - eapply data_ok_frame; [exact Hdata|by rewrite filter_cons_False| |].
    + intros p c Hp Hc Hst. apply Hsame; [done..|]. by destruct Hst as [-> | ->].
    + intros p c Hp Hc Hst. apply Hback in Hc as (c0 & Hc0 & ->); [|done].
      by destruct (decide (within a 0 w p)).
Qed.

Lemma writeback_done_inv T h s op pos n w k :
  inv T h (op :: issued s) s w k → sub_ok s → wb_of (desc_len (que s)) op = [(pos, n)] →
  holds (writeback_done s pos n) (λ s', inv T (h + w) (issued s') s' 0 (k - w) ∧ sub_ok s' ∧
    active_first_pos (que s') = ring_pos (active_first_pos (que s)) w ∧
    active_cnt (que s') = active_cnt (que s) - w).
Proof.
  intros I Hs Hop. unfold writeback_done. rewrite (inv_enabled _ _ _ _ _ _ I). cbn [negb].
  pose proof I as [Hf _ [Hl _] _ Hpos Hcnt [Hh Hidx] Ht _ Hctx _ Hwb _].
  rewrite bind_cons, Hop in Hwb. destruct (decide (w = 0)) as [|Hw0]; [done|].
  injection Hwb as -> -> Hrest. set (q := que s) in *. set (a := active_first_pos q) in *.
  destruct (mark_all_spec a (Some DESC_WRITING_BACK) DESC_WRITTEN_BACK (Z.to_nat w) s 0)
    as (s1 & -> & Hr1 & Hc1); [done|done|lia|lia| |].
  { intros p c f Hp Hwi Hc [= <-]. destruct (Hctx p c Hp Hc) as [Hph _]. fold a in Hph.
    revert Hph. unfold phase, within in *. by rewrite decide_True by lia. }
  rewrite Z2Nat.id in Hc1 by lia. cbn [mbind sum_bind].
  apply same_rest_inv in Hr1 as (cs1 & -> & Hcs1).
  destruct (free_written_spec w (Z.to_nat (active_cnt q)) (with_que s (set_ctxs q cs1)) 0)
    as (s2 & E2 & Hr2 & Hc2); [done|done|lia|lia| | |].
  { intros p c Hp Hwi Hc. rewrite Hc1 in Hc by done. destruct (ctx s p); [|done]. cbn in Hc, Hwi.
    rewrite Z.sub_0_r in Hwi. rewrite decide_True in Hc by done. by simplify_eq. }
  { intros p c Hp Ho Hc Hlt. rewrite Hc1 in Hc by done. destruct (ctx s p) as [c0|] eqn:Ec; [|done].
    cbn in Hc, Ho. fold q a in Ho. rewrite decide_False in Hc by (unfold within; lia).
    injection Hc as ->. destruct (Hctx p c Hp Ec) as [Hph _]. fold a in Hph. revert Hph.
    unfold phase. rewrite Ho. intros Hph E. rewrite E in Hph. repeat case_decide; naive_solver. }
  cbn [que with_que set_ctxs active_cnt] in E2 |- *. fold q. rewrite E2. cbn [mbind sum_bind].
  apply same_rest_inv in Hr2 as (cs2 & -> & Hcs2).
  cbn [que with_que set_ctxs len active_first_pos active_first_idx active_cnt]. fold q a.
  destruct (Z.eqb_spec (len q) 0); [lia|].
  rewrite Hidx, ring_add, (wrap_id 32 (active_cnt q - w)) by (lia || (unfold fits; lia)).
  assert (∀ p, is_pos p → cs2 !! Z.to_nat p =
    (λ c, if decide (within a 0 w p) then set_state c DESC_EMPTY else c) <$> ctx s p) as Hc3.
  { intros p Hp. specialize (Hc2 p Hp). rewrite Z.sub_0_r in Hc2. cbn in Hc2.
    change (ctx _ p) with (cs2 !! Z.to_nat p) in Hc2 at 1. rewrite Hc2, Hc1 by done.
    destruct (ctx s p); [|done]. cbn. fold q a. by destruct (decide (within a 0 w p)). }
  pose proof (freed_inv T h s op w k cs2 I ltac:(lia) Hop Hcs2 Hc3) as I'. cbn zeta in I'.
  fold q a in I'. 
  match goal with |- holds (interrupt ?x) _ => set (s' := x) end.
  match type of I' with inv _ _ (issued ?x) _ _ _ => change x with s' in I' end.
  pose proof (interrupt_law s') as Hint. destruct (interrupt s') as [|s'']; [done|].
  destruct Hint as (Hq & Hi & Hlg & Hsub). cbn [holds]. split; [|split; [|by rewrite Hq]].
  - rewrite Hi. by apply (inv_same _ _ _ s').
  - apply Hsub. eapply sub_ok_frame; [exact Hf|done|done|done|done| | |exact Hs].
    + intros p c Hp Hc Hst. change (cs2 !! Z.to_nat p = Some c). rewrite Hc3, Hc by done. cbn.
      rewrite decide_False; [done|]. intros Hwi. destruct (Hctx p c Hp Hc) as [Hph _].
      fold a in Hph. revert Hph. unfold phase, within in *. rewrite decide_True by lia. congruence.
    + intros p Hp (c' & Hc & Hst). change (cs2 !! Z.to_nat p = Some c') in Hc.
      rewrite Hc3 in Hc by done. destruct (ctx s p) as [c|] eqn:Ec; [|done]. cbn in Hc.
      case_decide; simplify_eq; by exists c'.
Qed.

(** ** Descriptors arrive *)

Lemma fetch_pos_step dl p a n :
  0 < dl → is_pos p → 0 ≤ n → n + 1 ≤ 128 →
  fetch_pos dl (dma_fetch p a (dl * (n + 1))) =
  p :: fetch_pos dl (dma_fetch (ring_pos p 1) a (dl * n)).
Proof.
  intros Hdl Hp Hn Hn'. cbn. rewrite !(Z.mul_comm dl), !Z.div_mul by lia.
  replace (n + 1) with (1 + n) by lia. rewrite seqZ_app, fmap_app by lia.
  change (seqZ 0 1) with [0]. cbn [fmap list_fmap app]. f_equal.
  - rewrite ring_pos_mod, Z.mod_small; lia.
  - change (0 + 1) with (1 + 0). rewrite <- (fmap_add_seqZ 1 0 n), <- list_fmap_compose. apply list_fmap_ext.
    intros i x Hx. apply list_elem_of_lookup_2, elem_of_seqZ in Hx. unfold compose.
    by rewrite ring_pos_add by lia.
Qed.

Lemma phase_early w k cnt i st st' :
  st = DESC_FETCHING ∨ st = DESC_PREPARING ∨ st = DESC_PREPARED →
  st' = DESC_FETCHING ∨ st' = DESC_PREPARING ∨ st' = DESC_PREPARED →
  phase w k cnt i st → phase w k cnt i st'.
Proof. unfold phase. intros. repeat case_decide; naive_solver. Qed.

(** A context that was idle starts to wait for its data. *)
Lemma data_ok_add O s s' p c total a :
  data_ok O s → is_pos p → ctx s' p = Some c → state c = DESC_PREPARING →
  0 ≤ total ≤ Z.of_nat (length (data c)) →
  (∀ c0, ctx s p = Some c0 → state c0 ≠ DESC_PREPARING ∧ state c0 ≠ DESC_PROCESSING) →
  (∀ p', is_pos p' → p' ≠ p → ctx s' p' = ctx s p') →
  data_ok (O ++ [dma_data_fetch p total 0 a (total `min` MAX_DMA_SIZE)]) s'.
Proof.
  intros [D1 D2 D3 D4 D5] Hp Hc Hst Htot Hidle Hsame. split.
  - rewrite bind_snoc. apply NoDup_app. split_and!; [done| |apply NoDup_singleton].
    intros p' Hin ->%list_elem_of_singleton.
    apply list_elem_of_bind in Hin as (op & Hin & Hop).
    destruct op; cbn in Hin; try (by apply not_elem_of_nil in Hin). apply list_elem_of_singleton in Hin as ->.
    destruct (D3 _ _ _ _ _ Hop) as (_ & c0 & Hc0 & Hst0 & _). by destruct (Hidle c0 Hc0).
  - rewrite bind_snoc. cbn [data_wb_pos]. by rewrite app_nil_r.
  - intros p' total' po a' l. rewrite elem_of_app, list_elem_of_singleton.
    intros [Hin|[= -> -> -> -> ->]].
    + destruct (D3 _ _ _ _ _ Hin) as (Hp' & c' & Hc' & Hst' & ?). split; [done|].
      exists c'. rewrite Hsame; [done..|]. intros ->. by destruct (Hidle c' Hc').
    + split; [done|]. exists c. rewrite Z.sub_0_r. split_and!; done || lia.
  - intros p' a' d. rewrite elem_of_app, list_elem_of_singleton. intros [Hin|?]; [|done].
    destruct (D4 _ _ _ Hin) as (Hp' & c' & Hc' & Hst'). split; [done|]. exists c'.
    rewrite Hsame; [done..|]. intros ->. by destruct (Hidle c' Hc').
  - intros p' c' Hp' Hc' Hst'. rewrite bind_snoc, elem_of_app.
    destruct (decide (p' = p)) as [->|Hne]; [right; by left|].
    left. rewrite Hsame in Hc' by done. by eapply D5.
Qed.

Lemma prepare_one_inv T h s s2 w k p a n c nd :
  inv T h (dma_fetch p a (desc_len (que s) * (n + 1)) :: issued s) s w k → 0 ≤ n →
  ctx s p = Some c → desc_len (que s) ≤ Z.of_nat (length nd) →
  prep_step (put s p (MkCtx DESC_PREPARING (index c) nd (data c))) s2 p →
  inv T h (dma_fetch (ring_pos p 1) a (desc_len (que s) * n) :: issued s2) s2 w k.
Proof.
  intros I Hn Hc Hnd (c1 & c' & Hc1 & Hix' & Hde' & Hq & _ & Hlg & Hcase).
  pose proof I as [Hf He Hl Hdl Hpos Hcnt Hidx Ht Hlog Hctx (Hndup & Hfe & Hshape) Hwb Hdata].
  set (q := que s) in *. set (dl := desc_len q) in *. set (s1 := put s p _) in *.
  destruct (Hshape p a (dl * (n + 1))) as (Hp & m & Hm & Em); [left|].
  assert (n + 1 ≤ 128) by nia. clear m Hm Em.
  rewrite bind_cons, fetch_pos_step in Hndup, Hfe by (done || lia).
  assert (state c = DESC_FETCHING) as Hst.
  { destruct (Hfe p) as [[_ (c0 & Hc0 & ?)] _]; [left|]. by simplify_eq. }
  assert (full s1) as Hf1 by by apply full_put.
  unfold s1 in Hc1. rewrite ctx_put, decide_True in Hc1 by done. simplify_eq. cbn in Hix', Hde'.
  assert (∀ p', is_pos p' → ctx s2 p' = if decide (p = p') then Some c' else ctx s p') as Hc2.
  { intros p' Hp'. unfold ctx at 1. rewrite Hq. fold (ctx (put s1 p c') p').
    rewrite ctx_put by done. destruct (decide (p = p')); [done|]. unfold s1.
    by rewrite ctx_put, decide_False by done. }
  assert (∃ ex, issued s2 = issued s ++ ex ∧ ex ≫= fetch_pos dl = [] ∧ ex ≫= wb_of dl = [] ∧
    ∀ p' a' l', dma_fetch p' a' l' ∉ ex) as (ex & Hex & Hex1 & Hex2 & Hex3).
  { destruct Hcase as [[_ Hi]|(_ & total & a' & _ & Hi)]; rewrite Hi.
    - exists []. rewrite app_nil_r. split_and!; try done. intros. apply not_elem_of_nil.
    - eexists. split; [done|]. split_and!; try done.
      by intros ??? ?%list_elem_of_singleton. }
  assert (state c' = DESC_PREPARING ∨ state c' = DESC_PREPARED) as Hst' by naive_solver.
  destruct (same_fields q (que s2)) as (E1 & E2 & E3 & E4 & E5 & E6 & E7); [by rewrite Hq|].
  split; rewrite ?E1, ?E2, ?E3, ?E4, ?E5, ?E6, ?E7; try done.
  - unfold full. rewrite Hq. by apply full_put.
  - by rewrite Hlg.
  - intros p' c0 Hp' Hc0. rewrite Hc2 in Hc0 by done. cbn zeta.
    destruct (decide (p = p')) as [->|Hne]; [|by apply Hctx]. simplify_eq.
    destruct (Hctx p' c Hp' Hc) as (Hph & Hix & _). split_and!.
    + eapply phase_early; [| |exact Hph]; [auto|naive_solver].
    + rewrite Hix'. auto.
    + by rewrite Hde'.
  - unfold fetch_ok. rewrite E3. fold dl. rewrite bind_cons, Hex, bind_app, Hex1, app_nil_r.
    apply NoDup_cons in Hndup as [Hnin Hndup]. split; [done|]. split.
    + intros p'. destruct (decide (p' = p)) as [->|Hne].
      * split; [done|]. intros (_ & c0 & Hc0 & Hst0). rewrite Hc2, decide_True in Hc0 by done.
        simplify_eq. destruct Hst' as [E|E]; rewrite E in Hst0; done.
      * specialize (Hfe p'). cbn in Hfe. rewrite elem_of_cons in Hfe. split.
        -- intros Hin. destruct Hfe as [(Hp' & c0 & Hc0 & ?) _]; [by right|].
           split; [done|]. exists c0. by rewrite Hc2, decide_False.
        -- intros (Hp' & c0 & Hc0 & ?). rewrite Hc2, decide_False in Hc0 by done.
           destruct Hfe as [_ [?|?]]; eauto. done.
    + intros p' a' l'. rewrite elem_of_cons, elem_of_app.
      intros [[= -> -> ->]|[Hin|Hin]]; [|by eapply Hshape; right|by destruct (Hex3 _ _ _ Hin)].
      split; [apply ring_pos_bound|]. exists n. split; [lia|done].
  - rewrite bind_cons in Hwb |- *. rewrite Hex, bind_app. fold dl in Hwb |- *.
    by rewrite Hex2, app_nil_r.
  - assert (data_ok (issued s) s) as Hd.
    { eapply data_ok_frame; [exact Hdata|reflexivity|done|done]. }
    assert (∀ p', is_pos p' → p' ≠ p → ctx s2 p' = ctx s p') as Hne
      by (intros; by rewrite Hc2, decide_False).
    destruct Hcase as [[HstP Hi]|(HstP & total & a' & Htot & Hi)]; rewrite Hi.
    + eapply data_ok_frame; [exact Hd|reflexivity| |].
      * intros p' c0 Hp' Hc0 Hor. rewrite Hne; [done..|]. intros ->. simplify_eq.
        rewrite Hst in Hor. by destruct Hor.
      * intros p' c0 Hp' Hc0 Hst0. rewrite Hc2 in Hc0 by done. case_decide; [|done]. congruence.
    + eapply (data_ok_frame (issued s ++ [dma_data_fetch p total 0 a' (total `min` MAX_DMA_SIZE)]) _ s2);
        [|reflexivity|done|done].
      eapply data_ok_add; [exact Hd|done|by rewrite Hc2, decide_True|done|done| |done].
      intros c0 Hc0. simplify_eq. by rewrite Hst.
Qed.

(** An operation that has delivered everything can be forgotten. *)
Lemma inv_drop T h O s w k p a :
  inv T h (dma_fetch p a (desc_len (que s) * 0) :: O) s w k → inv T h O s w k.
Proof.
  intros [Hf He Hl Hdl Hpos Hcnt Hidx Ht Hlog Hctx (Hnd & Hfe & Hshape) Hwb Hdata].
  rewrite bind_cons in Hnd. rewrite bind_cons in Hwb. cbn [fetch_pos wb_of] in Hnd, Hwb.
  rewrite Z.mul_0_r, Z.div_0_l in Hnd by lia. split; try done.
  - split; [done|]. split; [|intros ??? ?; eapply Hshape; by right].
    intros p'. rewrite <- (Hfe p'). rewrite bind_cons. cbn [fetch_pos].
    by rewrite Z.mul_0_r, Z.div_0_l by lia.
  - eapply data_ok_frame; [exact Hdata|reflexivity|done|done].
Qed.

Lemma fetched_inv T h w k pos a n : ∀ s buf i,
  inv T h (dma_fetch (ring_pos pos i) a (desc_len (que s) * Z.of_nat n) :: issued s) s w k →
  sub_ok s → is_pos pos → 0 ≤ i → i + Z.of_nat n ≤ 128 →
  desc_len (que s) * Z.of_nat n ≤ Z.of_nat (length buf) →
  holds (fetched s pos buf i n) (λ s', inv T h (issued s') s' w k ∧ sub_ok s').
Proof.
  induction n as [|n IH]; intros s buf i I Hs Hp Hi Hn Hbuf; cbn [fetched].
  { split; [by eapply inv_drop|done]. }
  set (p := ring_pos pos i) in *.
  assert (is_pos p) as Hpp by apply ring_pos_bound.
  pose proof (inv_full _ _ _ _ _ _ I) as Hf. pose proof (inv_dl _ _ _ _ _ _ I) as Hdl.
  destruct (ctx_Some s p Hf Hpp) as [c Hc]. rewrite (get_ctx _ _ _ Hc). cbn [mbind sum_bind].
  set (nd := take _ buf ++ _). set (s1 := put s p _).
  assert (full s1) as Hf1 by by apply full_put.
  pose proof (prepare_law s1 p (MkCtx DESC_PREPARING (index c) nd (data c)) Hf1 Hpp) as Hlaw.
  destruct (prepare s1 p) as [f|s2]; cbn [mbind sum_bind holds].
  { apply Hlaw; [|done]. unfold s1. by rewrite ctx_put, decide_True. }
  specialize (Hlaw ltac:(unfold s1; by rewrite ctx_put, decide_True) eq_refl).
  replace (Z.of_nat (Datatypes.S n)) with (Z.of_nat n + 1) in I, Hbuf by lia.
  assert (state c = DESC_FETCHING) as Hst.
  { pose proof (inv_fetch _ _ _ _ _ _ I) as (_ & Hfe & _). destruct (Hfe p) as [[_ (c0 & ? & ?)] _].
    - rewrite bind_cons, fetch_pos_step by lia. left.
    - by simplify_eq. }
  assert (sub_ok s2) as Hs2.
  { destruct Hlaw as (c1 & c' & _ & _ & _ & Hq & Hsub & Hlog2 & Hcase).
    eapply sub_ok_frame; [exact Hf| |done|done| | | |exact Hs].
    - unfold full. rewrite Hq. by apply full_put.
    - destruct Hcase as [[_ ->]|(_ & ? & ? & _ & ->)]; [done|].
      rewrite bind_snoc. cbn. by rewrite app_nil_r.
    - intros p' c0 Hp' Hc0 Hst0. unfold ctx. rewrite Hq. change (ctx (put s1 p c') p' = Some c0).
      rewrite ctx_put, decide_False by (done || congruence).
      unfold s1. by rewrite ctx_put, decide_False by congruence.
    - intros p' Hp' (c0 & Hc0 & Hst0). unfold ctx in Hc0. rewrite Hq in Hc0.
      change (ctx (put s1 p c') p' = Some c0) in Hc0. rewrite ctx_put in Hc0 by done.
      case_decide; [simplify_eq; destruct Hcase as [[? _]|[? _]]; congruence|].
      unfold s1 in Hc0. rewrite ctx_put, decide_False in Hc0 by done. by exists c0. }
  assert (desc_len (que s) ≤ Z.of_nat (length nd)) as Hnd.
  { unfold nd. rewrite length_app, length_take. nia. }
  pose proof (prepare_one_inv _ _ _ _ _ _ _ _ _ _ _ I ltac:(lia) Hc Hnd Hlaw) as I2.
  unfold p in I2. rewrite ring_pos_add in I2 by lia.
  assert (desc_len (que s2) = desc_len (que s)) as Edl.
  { destruct Hlaw as (? & ? & _ & _ & _ & Hq & _). by rewrite Hq. }
  apply IH; rewrite ?Edl; try done; try lia. rewrite length_drop. nia.
Qed.

(** ** Data arrives, or has been written *)

(** One context changes within its phase. *)
Lemma inv_update T h O O' s s' w k p c c' :
  inv T h O s w k → is_pos p → ctx s p = Some c →
  que s' = que (put s p c') → log s' = log s → index c' = index c → desc c' = desc c →
  (∀ i, phase w k (active_cnt (que s)) i (state c) → phase w k (active_cnt (que s)) i (state c')) →
  state c ≠ DESC_FETCHING → state c' ≠ DESC_FETCHING →
  (O' ≫= fetch_pos (desc_len (que s)) = O ≫= fetch_pos (desc_len (que s))) →
  (∀ p a l, dma_fetch p a l ∈ O' → dma_fetch p a l ∈ O) →
  (O' ≫= wb_of (desc_len (que s)) = O ≫= wb_of (desc_len (que s))) →
  data_ok O' s' → inv T h O' s' w k.
Proof.
  intros I Hp Hc Hq Hlg Hix Hde Hph Hne Hne' HO1 HO2 HO3 Hd.
  pose proof I as [Hf He Hl Hdl Hpos Hcnt Hidx Ht Hlog Hctx (Hnd & Hfe & Hshape) Hwb _].
  assert (∀ p', is_pos p' → ctx s' p' = if decide (p = p') then Some c' else ctx s p') as Hc2.
  { intros p' Hp'. unfold ctx at 1. rewrite Hq. by apply ctx_put. }
  destruct (same_fields (que s) (que s')) as (E1 & E2 & E3 & E4 & E5 & E6 & E7); [by rewrite Hq|].
  split; rewrite ?E1, ?E2, ?E3, ?E4, ?E5, ?E6, ?E7; try done.
  - unfold full. rewrite Hq. by apply full_put.
  - by rewrite Hlg.
  - intros p' c0 Hp' Hc0. rewrite Hc2 in Hc0 by done. cbn zeta.
    destruct (decide (p = p')) as [->|Hnp]; [|by apply Hctx]. simplify_eq.
    destruct (Hctx p' c Hp' Hc) as (? & Hix' & Hde'). split_and!; [auto|rewrite Hix; auto|by rewrite Hde].
  - unfold fetch_ok. rewrite E3, HO1. split; [done|]. split; [|eauto].
    intros p'. rewrite Hfe. split; intros (Hp' & c0 & Hc0 & Hst); (split; [done|]); exists c0.
    + rewrite Hc2 by done. rewrite decide_False; [done|]. intros <-. congruence.
    + rewrite Hc2 in Hc0 by done. destruct (decide (p = p')); [congruence|done].
  - by rewrite HO3.
Qed.

(** A data operation that completes is the only one of its context. *)
Lemma data_ok_remove O s s' op p c c' :
  data_ok (op :: O) s → is_pos p → ctx s p = Some c →
  (∀ p', is_pos p' → ctx s' p' = if decide (p = p') then Some c' else ctx s p') →
  ((∃ total po a l, op = dma_data_fetch p total po a l) ∧ state c' = DESC_PREPARED) ∨
  ((∃ a d, op = dma_data_wb p a d) ∧ state c' = DESC_PROCESSED) →
  data_ok O s'.
Proof.
  intros [D1 D2 D3 D4 D5] Hp Hc Hc2 Hor.
  assert (state c' ≠ DESC_PREPARING) as Hne by (intros E; destruct Hor as [[_ Hx]|[_ Hx]]; congruence).
  assert (∀ p', p' ∈ O ≫= data_fetch_pos ∨ p' ∈ O ≫= data_wb_pos → p' ≠ p) as Huniq.
  { rewrite bind_cons in D1. rewrite bind_cons in D2. intros p' Hin ->.
    assert (∀ st, (∃ c0, ctx s p = Some c0 ∧ state c0 = st) → state c = st) as Hcs
      by (intros st (? & ? & ?); congruence).
    destruct Hor as [[(total & po & a & l & ->) _]|[(a & d & ->) _]]; cbn in D1, D2.
    - apply NoDup_cons in D1 as [D1 _]. destruct Hin as [Hin|Hin]; [done|].
      destruct (D3 p total po a l) as (_ & c0 & ? & ? & _); [left|].
      apply list_elem_of_bind in Hin as (op & Hin & Hop).
      destruct op; cbn in Hin; try (by apply not_elem_of_nil in Hin).
      apply list_elem_of_singleton in Hin as ->.
      destruct (D4 _ _ _ (list_elem_of_further _ _ _ Hop)) as (_ & c1 & ? & ?). congruence.
    - apply NoDup_cons in D2 as [D2 _]. destruct Hin as [Hin|Hin]; [|done].
      destruct (D4 p a d) as (_ & c0 & ? & ?); [left|].
      apply list_elem_of_bind in Hin as (op & Hin & Hop).
      destruct op; cbn in Hin; try (by apply not_elem_of_nil in Hin).
      apply list_elem_of_singleton in Hin as ->.
      destruct (D3 _ _ _ _ _ (list_elem_of_further _ _ _ Hop)) as (_ & c1 & ? & ? & _). congruence. }
  split.
  - rewrite bind_cons in D1. by apply NoDup_app in D1 as (_ & _ & ?).
  - rewrite bind_cons in D2. by apply NoDup_app in D2 as (_ & _ & ?).
  - intros p' total po a l Hin. destruct (D3 p' total po a l) as (Hp' & c0 & Hc0 & ?); [by right|].
    split; [done|]. exists c0. rewrite Hc2 by done. rewrite decide_False; [done|]. intros <-.
    apply (Huniq p); [|done]. left. apply list_elem_of_bind. eexists. split; [|exact Hin]. left.
  - intros p' a d Hin. destruct (D4 p' a d) as (Hp' & c0 & Hc0 & ?); [by right|].
    split; [done|]. exists c0. rewrite Hc2 by done. rewrite decide_False; [done|]. intros <-.
    apply (Huniq p); [|done]. right. apply list_elem_of_bind. eexists. split; [|exact Hin]. left.
  - intros p' c0 Hp' Hc0 Hst. rewrite Hc2 in Hc0 by done.
    destruct (decide (p = p')) as [->|Hnp]; [congruence|].
    specialize (D5 p' c0 Hp' Hc0 Hst). rewrite bind_cons, elem_of_app in D5.
    destruct D5 as [Hin|]; [|done]. destruct Hor as [[(? & ? & ? & ? & ->) _]|[(? & ? & ->) _]]; cbn in Hin.
    + by apply list_elem_of_singleton in Hin.
    + by apply not_elem_of_nil in Hin.
Qed.

Lemma data_ok_next O s s' p c c' total po a l po' a' :
  data_ok (dma_data_fetch p total po a l :: O) s → is_pos p → ctx s p = Some c →
  (∀ p', is_pos p' → ctx s' p' = if decide (p = p') then Some c' else ctx s p') →
  state c' = DESC_PREPARING → length (data c') = length (data c) → 0 ≤ po' ≤ total →
  data_ok (O ++ [dma_data_fetch p total po' a' ((total - po') `min` MAX_DMA_SIZE)]) s'.
Proof.
  intros [D1 D2 D3 D4 D5] Hp Hc Hc2 Hst Hlen Hpo.
  destruct (D3 p total po a l) as (_ & c0 & Hc0 & Hst0 & _ & _ & Htot); [left|].
  rewrite Hc in Hc0. injection Hc0 as <-.
  assert (∀ P : desc_ctx → Prop, ∀ p', is_pos p' → (∃ c0, ctx s p' = Some c0 ∧ P c0) →
    (P c → P c') → ∃ c0, ctx s' p' = Some c0 ∧ P c0) as Hfwd.
  { intros P p' Hp' (c0 & Hc0 & HP) HPc. rewrite Hc2 by done.
    destruct (decide (p = p')) as [->|]; [exists c'|by exists c0]. split; [done|].
    apply HPc. congruence. }
  split.
  - rewrite bind_snoc. rewrite bind_cons in D1. cbn [data_fetch_pos] in *.
    by rewrite (Permutation_app_comm (O ≫= _)).
  - rewrite bind_snoc. cbn [data_wb_pos]. by rewrite app_nil_r.
  - intros p' total' po1 a1 l1. rewrite elem_of_app, list_elem_of_singleton.
    intros [Hin|[= -> -> -> -> ->]].
    + destruct (D3 p' total' po1 a1 l1) as (Hp' & Hex); [by right|]. split; [done|].
      eapply (Hfwd (λ c0, state c0 = DESC_PREPARING ∧ _)); [done|exact Hex|].
      rewrite Hlen. naive_solver.
    + split; [done|]. exists c'. rewrite Hc2, decide_True, Hlen by done. done.
  - intros p' a1 d. rewrite elem_of_app, list_elem_of_singleton. intros [Hin|?]; [|done].
    destruct (D4 p' a1 d) as (Hp' & Hex); [by right|]. split; [done|].
    eapply (Hfwd (λ c0, state c0 = DESC_PROCESSING)); [done|exact Hex|congruence].
  - intros p' c0 Hp' Hc0 Hst'. rewrite bind_snoc. cbn [data_fetch_pos].
    rewrite elem_of_app, list_elem_of_singleton. rewrite Hc2 in Hc0 by done.
    destruct (decide (p = p')) as [->|Hnp]; [by right|]. left.
    specialize (D5 p' c0 Hp' Hc0 Hst'). rewrite bind_cons in D5. cbn [data_fetch_pos] in D5.
    rewrite elem_of_app, list_elem_of_singleton in D5. destruct D5; congruence || done.
Qed.

(** [prepared] and [processed] on a context whose data operation has completed. *)
Lemma data_done_inv T h s op p c from to w k :
  inv T h (op :: issued s) s w k → is_pos p → ctx s p = Some c → state c = from →
  ((∃ total po a l, op = dma_data_fetch p total po a l) ∧ from = DESC_PREPARING ∧
     to = DESC_PREPARED) ∨
  ((∃ a d, op = dma_data_wb p a d) ∧ from = DESC_PROCESSING ∧ to = DESC_PROCESSED) →
  let s' := put s p (set_state c to) in
  transition s p from to = inr s' ∧ inv T h (issued s') s' w k.
Proof.
  intros I Hp Hc Hst Hop s'. unfold transition. rewrite (get_ctx _ _ _ Hc). cbn [mbind sum_bind].
  rewrite decide_True by done. split; [done|].
  pose proof (inv_full _ _ _ _ _ _ I) as Hf.
  assert (∀ p', is_pos p' → ctx s' p' = if decide (p = p') then Some (set_state c to) else ctx s p')
    as Hc2 by (intros; by apply ctx_put).
  assert (data_ok (issued s) s') as Hd.
  { eapply data_ok_remove; [apply I|done|done|done|].
    destruct Hop as [(? & _ & ->)|(? & _ & ->)]; [by left|by right]. }
  assert (fetch_pos (desc_len (que s)) op = [] ∧ wb_of (desc_len (que s)) op = []) as [H1 H2].
  { by destruct Hop as [[(? & ? & ? & ? & ->) _]|[(? & ? & ->) _]]. }
  eapply (inv_update _ _ _ _ _ _ _ _ p c); try done.
  - intros i. rewrite Hst. cbn. destruct Hop as [(_ & -> & ->)|(_ & -> & ->)].
    + by apply phase_early; auto.
    + unfold phase. repeat case_decide; naive_solver.
  - destruct Hop as [(_ & -> & _)|(_ & -> & _)]; by rewrite Hst.
  - destruct Hop as [(_ & _ & ->)|(_ & _ & ->)]; done.
  - by rewrite bind_cons, H1.
  - intros. by right.
  - by rewrite bind_cons, H2.
Qed.

(** ** Events *)

(** Taking an operation out of those in flight. *)
Definition take_op s (i : nat) : qstate S := MkQs (que s) (sub s) (delete i (issued s)) (log s).

(** The number of bytes a read returns. *)
Definition read_len (op : dma_op) : Z :=
  match op with
  | dma_fetch _ _ l | dma_data_fetch _ _ _ _ l => l
  | _ => 0
  end.

(** What happens to a queue: the driver posts [n] descriptors by writing the tail register;
    an operation completes; or the derived class works on contexts it holds, as the receive
    queue does when a packet arrives. *)
Inductive event :=
| EvPost (n : Z)
| EvDone (i : nat) (payload : bytes)
| EvDerived (s' : qstate S).

Definition step s (e : event) : result (qstate S) :=
  match e with
  | EvPost n => reg_updated (with_que s (set_tail (que s) ((reg_tail (que s) + n) mod len (que s))))
  | EvDone i payload =>
      match issued s !! i with
      | Some op => dma_done (take_op s i) op payload
      | None => inr s
      end
  | EvDerived s' => inr s'
  end.

(** The driver leaves one descriptor of the ring free; reads return what was asked for. *)
Definition valid_event s (e : event) : Prop :=
  match e with
  | EvPost n =>
      0 ≤ n ∧ (reg_tail (que s) - active_first_idx (que s)) mod len (que s) + n < len (que s)
  | EvDone i payload =>
      ∀ op, issued s !! i = Some op → Z.of_nat (length payload) = read_len op
  | EvDerived s' =>
      proc_step s s' ∧ sub_ok s' ∧
      ∀ p c c', is_pos p → ctx s p = Some c → ctx s' p = Some c' → state c' = state c
  end.

Definition posted (e : event) : Z := match e with EvPost n => n | _ => 0 end.

(** The tail register is written. *)
Lemma posted_tail_inv T h s w k n :
  inv T h (issued s) s w k → valid_event s (EvPost n) →
  let s1 := with_que s (set_tail (que s) ((reg_tail (que s) + n) mod len (que s))) in
  inv (T + n) h (issued s1) s1 w k.
Proof.
  intros I [Hn Hv] s1.
  pose proof I as [Hf He [Hl Hd] Hdl Hpos Hcnt [Hh Hidx] [Ht HT] Hlog Hctx Hfe Hwb [D1 D2 D3 D4 D5]].
  rewrite Ht, Hidx, <- Zminus_mod, Z.mod_small in Hv by lia.
  split; try done; cbn [s1 que with_que set_tail len reg_tail active_cnt].
  split; [|lia]. rewrite Ht. apply Zplus_mod_idemp_l.
Qed.

Lemma post_inv T s n :
  ring_inv T s → valid_event s (EvPost n) → holds (step s (EvPost n)) (ring_inv (T + n)).
Proof.
  intros (h & w & k & I & Hs & _) Hv. cbn [step]. unfold reg_updated.
  pose proof (inv_full _ _ _ _ _ _ I) as Hf. pose proof (inv_enabled _ _ _ _ _ _ I) as He.
  cbn [que with_que set_tail enabled]. rewrite He. cbn [negb].
  eapply (trigger_inv _ h _ w k); [by apply posted_tail_inv|].
  eapply sub_ok_frame; [exact Hf|done|done|done|done|done|done|exact Hs].
Qed.

(** The cases of a completion, on the queue without the operation. *)
Lemma fetch_done_inv T h s pos a l payload w k :
  inv T h (dma_fetch pos a l :: issued s) s w k → sub_ok s → Z.of_nat (length payload) = l →
  holds (dma_done s (dma_fetch pos a l) payload) (ring_inv T).
Proof.
  intros I Hs Hl. pose proof (inv_dl _ _ _ _ _ _ I) as Hdl. cbn [dma_done].
  destruct (Z.eqb_spec (desc_len (que s)) 0) as [|_]; [lia|].
  destruct (inv_fetch _ _ _ _ _ _ I) as (_ & _ & Hshape).
  destruct (Hshape pos a l) as (Hp & n & Hn & En); [left|].
  rewrite En, Z.mul_comm, Z.div_mul by lia.
  eapply holds_bind; [eapply (fetched_inv T h w k pos a)|]; try done; try lia.
  - rewrite Z2Nat.id, ring_pos_mod by lia. rewrite Z.add_0_r, Z.mod_small, <- En by lia. exact I.
  - intros s' [I' Hs']. by eapply trigger_inv.
Qed.

Lemma wb_done_inv T h s op pos n w k :
  inv T h (op :: issued s) s w k → sub_ok s → wb_of (desc_len (que s)) op = [(pos, n)] →
  holds (s' ← writeback_done s pos n; trigger s') (ring_inv T).
Proof.
  intros I Hs Hop. eapply holds_bind; [by eapply writeback_done_inv|].
  intros s' (I' & Hs' & _). by eapply trigger_inv.
Qed.

Lemma data_fetch_done_inv T h s p total po a l payload w k :
  inv T h (dma_data_fetch p total po a l :: issued s) s w k → sub_ok s → settled T h s w k →
  Z.of_nat (length payload) = l →
  holds (dma_done s (dma_data_fetch p total po a l) payload) (ring_inv T).
Proof.
  intros I Hs Hset Hpay. pose proof (inv_full _ _ _ _ _ _ I) as Hf.
  destruct (data_dfetch _ _ (inv_data _ _ _ _ _ _ I) p total po a l)
    as (Hp & c & Hc & Hst & Hpo & El & Htot); [left|].
  cbn [dma_done]. unfold fill. rewrite (get_ctx _ _ _ Hc). cbn [mbind sum_bind].
  rewrite decide_True by lia. cbn [mbind sum_bind]. set (c1 := MkCtx _ _ _ _).
  assert (state c1 = DESC_PREPARING) as Hst1 by exact Hst.
  assert (length (data c1) = length (data c)) as Hlen.
  { cbn. rewrite !length_app, length_take, length_drop. lia. }
  assert (∀ p', is_pos p' → ctx (put s p c1) p' = if decide (p = p') then Some c1 else ctx s p')
    as Hc2 by (intros; by apply ctx_put).
  assert (sub_ok (put s p c1)) as Hs1.
  { eapply sub_ok_frame; [exact Hf|by apply full_put|done|done|done| | |exact Hs].
    - intros p' c0 Hp' Hc0 Hst0. rewrite Hc2 by done. rewrite decide_False; [done|]. congruence.
    - intros p' Hp' (c0 & Hc0 & Hst0). rewrite Hc2 in Hc0 by done.
      case_decide; [congruence|by exists c0]. }
  destruct (Z.ltb_spec (po + l) total) as [Hmore|Hall].
  - set (op' := dma_data_fetch _ _ _ _ _). exists h, w, k.
    assert (inv T h (issued (IssueDma (put s p c1) op')) (IssueDma (put s p c1) op') w k) as I1.
    { eapply (inv_update _ _ _ _ s _ _ _ p c c1); try done; try congruence.
      - cbn [issued IssueDma put with_que]. rewrite bind_snoc, bind_cons. cbn. apply app_nil_r.
      - cbn [issued IssueDma put with_que]. intros p' a' l'.
        rewrite elem_of_app, list_elem_of_singleton. intros [?|?]; [by right|done].
      - cbn [issued IssueDma put with_que]. rewrite bind_snoc, bind_cons. cbn. apply app_nil_r.
      - eapply data_ok_next; [apply I|done|exact Hc|exact Hc2|exact Hst1|exact Hlen|lia]. }
    split; [done|]. split.
    + eapply (sub_ok_frame (put s p c1)); [by apply full_put|by apply full_put|done|done| |done|done|exact Hs1].
      cbn [issued IssueDma put with_que]. rewrite bind_snoc. cbn. by rewrite app_nil_r.
    + destruct Hset as (F & P & W). split_and!.
      * destruct F as [?|[?|(p' & a' & l' & Hin)]]; [by left|by right; left|].
        right. right. exists p', a', l'. cbn. apply elem_of_app. by left.
      * intros p' c0 Hp' Ho Hlt Hc0. change (ctx (put s p c1) p' = Some c0) in Hc0.
        rewrite Hc2 in Hc0 by done. destruct (decide (p = p')) as [->|]; [|by eapply P].
        injection Hc0 as <-. cbn. congruence.
      * intros Hw p' c0 Hp' Ho Hlt Hc0. change (ctx (put s p c1) p' = Some c0) in Hc0.
        rewrite Hc2 in Hc0 by done. destruct (decide (p = p')) as [->|]; [|by eapply W].
        injection Hc0 as <-. cbn. congruence.
  - assert (inv T h (dma_data_fetch p total po a l :: issued s) (put s p c1) w k) as I1.
    { eapply (inv_update _ _ _ _ s _ _ _ p c c1); try done; try congruence.
      pose proof (data_ok_next (issued s) s (put s p c1) p c c1 total po a l po a
        (inv_data _ _ _ _ _ _ I) Hp Hc Hc2 Hst Hlen Hpo) as Hd. rewrite <- El in Hd.
      destruct Hd as [D1 D2 D3 D4 D5]. rewrite (Permutation_app_comm (issued s) [_]) in D1, D2.
      split; try done.
      - intros p' total' po' a' l' Hin. apply (D3 _ total' po' a' l').
        rewrite (Permutation_app_comm (issued s) [_]). exact Hin.
      - intros p' a' d Hin. apply (D4 _ a' d). rewrite (Permutation_app_comm (issued s) [_]). exact Hin.
      - intros p' c0 ? ? ?. specialize (D5 p' c0). rewrite (Permutation_app_comm (issued s) [_]) in D5.
        by apply D5. }
    destruct (data_done_inv T h (put s p c1) _ p c1 DESC_PREPARING DESC_PREPARED w k I1 Hp)
      as [E I2]; [by rewrite Hc2, decide_True|done|left; naive_solver|].
    unfold data_fetched, prepared. rewrite E. cbn [mbind sum_bind].
    eapply trigger_inv; [exact I2|].
    eapply (sub_ok_frame (put s p c1)); [by apply full_put|by do 2 apply full_put|done|done|done| | |exact Hs1].
    + intros p' c0 Hp' Hc0 Hst0. rewrite ctx_put by (by try apply full_put).
      rewrite decide_False; [done|]. intros <-. rewrite Hc2, decide_True in Hc0 by done.
      injection Hc0 as <-. cbn in Hst0. congruence.
    + intros p' Hp' (c0 & Hc0 & Hst0). rewrite ctx_put in Hc0 by (by try apply full_put).
      case_decide; [simplify_eq|by exists c0].
Qed.

Lemma data_wb_done_inv T h s i p a d payload w k :
  inv T h (issued s) s w k → sub_ok s → issued s !! i = Some (dma_data_wb p a d) →
  holds (dma_done (take_op s i) (dma_data_wb p a d) payload) (ring_inv T).
Proof.
  intros I Hs Hop. pose proof (inv_full _ _ _ _ _ _ I) as Hf.
  assert (inv T h (dma_data_wb p a d :: issued (take_op s i)) (take_op s i) w k) as I0.
  { apply (inv_same _ _ _ s); [done|done|]. eapply inv_perm; [|exact I].
    exact (delete_Permutation _ _ _ Hop). }
  destruct (data_dwb _ _ (inv_data _ _ _ _ _ _ I) p a d) as (Hp & c & Hc & Hst);
    [by eapply list_elem_of_lookup_2|].
  destruct (data_done_inv T h (take_op s i) _ p c DESC_PROCESSING DESC_PROCESSED w k I0 Hp)
    as [E I2]; [done|done|right; naive_solver|].
  cbn [dma_done]. unfold data_written, processed. rewrite E. cbn [mbind sum_bind].
  eapply trigger_inv; [exact I2|].
  apply list_elem_of_split_length in Hop as (l1 & l2 & El & ->).
  eapply (sub_ok_written s _ p (l1 ≫= data_wb_pos) (l2 ≫= data_wb_pos));
    [exact Hf|by apply full_put|done|done|done| | |apply I| | |exact Hs].
  - by rewrite El, bind_app, bind_cons.
  - cbn [issued put with_que take_op]. by rewrite El, delete_middle, bind_app.
  - intros p' c0 Hp' Hne Hc0 _. rewrite ctx_put by done. by rewrite decide_False.
  - intros p' Hp' (c0 & Hc0 & Hst0). rewrite ctx_put in Hc0 by done.
    case_decide; [simplify_eq|]. split; [done|]. by exists c0.
Qed.

Lemma completion_inv T s i payload :
  ring_inv T s → valid_event s (EvDone i payload) →
  holds (step s (EvDone i payload)) (ring_inv T).
Proof.
  intros (h & w & k & I & Hs & Hset) Hv. cbn [step valid_event] in *.
  destruct (issued s !! i) as [op|] eqn:Hop; [|by exists h, w, k].
  specialize (Hv op eq_refl). pose proof (inv_full _ _ _ _ _ _ I) as Hf.
  pose proof (delete_Permutation _ _ _ Hop : issued s ≡ₚ op :: issued (take_op s i)) as Hperm.
  assert (inv T h (op :: issued (take_op s i)) (take_op s i) w k) as I0.
  { apply (inv_same _ _ _ s); [done|done|]. by eapply inv_perm. }
  assert (data_wb_pos op = [] → sub_ok (take_op s i)) as Hs0.
  { intros Hnil. eapply sub_ok_frame; [exact Hf|exact Hf|done|done| |done|done|exact Hs].
    apply list_elem_of_split_length in Hop as (l1 & l2 & El & ->).
    cbn [issued take_op]. by rewrite El, delete_middle, !bind_app, bind_cons, Hnil. }
  destruct op as [pos a l|pos a d|p total po a l|p a d|pos cnt nh a]; cbn [read_len] in Hv.
  - eapply fetch_done_inv; [exact I0|by apply Hs0|done].
  - cbn [dma_done]. pose proof (inv_dl _ _ _ _ _ _ I0) as Hdl.
    destruct (Z.eqb_spec (desc_len (que (take_op s i))) 0) as [|_]; [lia|].
    eapply wb_done_inv; [exact I0|by apply Hs0|done].
  - eapply data_fetch_done_inv; [exact I0|by apply Hs0| |done].
    destruct Hset as (F & P & W). split_and!; [|exact P|exact W].
    destruct F as [?|[?|(p' & a' & l' & Hin)]]; [by left|by right; left|].
    right. right. exists p', a', l'. rewrite Hperm in Hin.
    apply elem_of_cons in Hin as [?|?]; done.
  - by eapply data_wb_done_inv.
  - eapply (wb_done_inv _ _ _ _ pos cnt); [exact I0|by apply Hs0|done].
Qed.

Lemma derived_inv T s s' :
  ring_inv T s → valid_event s (EvDerived s') → holds (step s (EvDerived s')) (ring_inv T).
Proof.
  intros (h & w & k & I & Hs & F & P & W) (Hstep & Hs' & Hst). cbn [step holds].
  exists h, w, k. split; [by eapply proc_step_inv|]. split; [done|].
  pose proof (inv_full _ _ _ _ _ _ I) as Hf.
  destruct Hstep as (Hq & _ & _ & (ex & Hi & _) & _).
  destruct (same_fields _ _ Hq) as (_ & _ & _ & E4 & _ & E6 & _). split_and!.
  - destruct F as [?|[?|(p & a & l & Hin)]]; unfold fetch_settled; rewrite E6; [by left|by right; left|].
    right. right. exists p, a, l. rewrite Hi. apply elem_of_app. by left.
  - intros p c' Hp. rewrite E4, E6. intros Ho Hlt Hc'. destruct (ctx_Some s p Hf Hp) as [c Hc].
    rewrite (Hst p c c') by done. by eapply P.
  - intros Hw p c' Hp. rewrite E4, E6. intros Ho Hlt Hc'. destruct (ctx_Some s p Hf Hp) as [c Hc].
    rewrite (Hst p c c') by done. by eapply W.
Qed.

(** ** Runs *)

Fixpoint run s (es : list event) : result (qstate S) :=
  match es with
  | [] => inr s
  | e :: es => s ← step s e; run s es
  end.

Fixpoint valid_run s (es : list event) : Prop :=
  match es with
  | [] => True
  | e :: es => valid_event s e ∧ match step s e with inr s' => valid_run s' es | inl _ => True end
  end.

Definition total_posted (es : list event) : Z := foldr (λ e n, posted e + n) 0 es.

Lemma ring_run_inv es : ∀ T s,
  ring_inv T s → valid_run s es → holds (run s es) (ring_inv (T + total_posted es)).
Proof.
  induction es as [|e es IH]; intros T s I Hv; cbn [run total_posted foldr].
  { by rewrite Z.add_0_r. }
  destruct Hv as [He Hv]. assert (holds (step s e) (ring_inv (T + posted e))) as Hstep.
  { destruct e; [by apply post_inv|cbn [posted]; rewrite Z.add_0_r; by apply completion_inv|].
    cbn [posted]. rewrite Z.add_0_r. by apply derived_inv. }
  destruct (step s e) as [f|s']; [done|]. cbn [mbind sum_bind].
  rewrite Z.add_assoc. by apply IH.
Qed.

(** A queue that has just been enabled: empty, at the start of a ring whose length is a power
    of two. *)
Definition fresh (q : queue_base) : Prop :=
  length (desc_ctxs q) = 128%nat ∧
  Forall (λ c, state c = DESC_EMPTY ∧ desc_len q ≤ Z.of_nat (length (desc c))) (desc_ctxs q) ∧
  active_first_pos q = 0 ∧ active_first_idx q = 0 ∧ active_cnt q = 0 ∧ reg_tail q = 0 ∧
  enabled q = true ∧ 16 ≤ desc_len q ∧ ∃ e, 0 ≤ e ≤ 16 ∧ len q = 2 ^ e.

Lemma fresh_ring_inv q d :
  fresh q → len q = ring_len → sub_ok (MkQs q d [] []) → ring_inv 0 (MkQs q d [] []).
Proof.
  intros (Hlen & Hall & Hpos & Hidx & Hcnt & Ht & He & Hdl & e & Hee & Hl) HN Hs.
  assert (0 < len q ≤ 2 ^ 16) as Hl'.
  { rewrite Hl. split; [lia|]. apply Z.pow_le_mono_r; lia. }
  assert (∀ p c, is_pos p → ctx (MkQs q d [] []) p = Some c →
    state c = DESC_EMPTY ∧ desc_len q ≤ Z.of_nat (length (desc c))) as Hc.
  { intros p c _ Hc. rewrite Forall_forall in Hall. apply Hall. by eapply list_elem_of_lookup_2. }
  exists 0, 0, 0. split; [|split; [done|]].
  - split; cbn [que issued log]; rewrite ?Hcnt, ?Hidx, ?Ht, ?Hpos; try done; try lia.
    + split; [done|]. exists (2 ^ (32 - e)). rewrite Hl, <- Z.pow_add_r by lia. f_equal. lia.
    + rewrite Z.mod_0_l by lia. split; [done|lia].
    + intros p c Hp Hcp. destruct (Hc p c Hp Hcp) as [-> ?]. pose proof (off_bound 0 p).
      split_and!; [apply phase_freed; lia|lia|done].
    + split; [by apply NoDup_nil|]. split; [|by intros ??? ?%not_elem_of_nil].
      intros p. split; [by intros ?%not_elem_of_nil|].
      intros (Hp & c & Hcp & Hst). destruct (Hc p c Hp Hcp). congruence.
    + split; [by apply NoDup_nil|by apply NoDup_nil|by intros ????? ?%not_elem_of_nil|by intros ??? ?%not_elem_of_nil|].
      intros p c Hp Hcp Hst. destruct (Hc p c Hp Hcp). congruence.
  - split_and!.
    + left. cbn. lia.
    + intros p c Hp _ _ Hcp. destruct (Hc p c Hp Hcp). congruence.
    + intros _ p c Hp _ _ Hcp. destruct (Hc p c Hp Hcp). congruence.
Qed.

(** Nothing is in flight, and no context waits for the derived class. *)
Definition quiescent s : Prop :=
  issued s = [] ∧ ∀ p c, is_pos p → ctx s p = Some c → state c ≠ DESC_PROCESSING.

Lemma settled_quiescent T h s w k :
  inv T h (issued s) s w k → settled T h s w k → quiescent s → k = 0 ∧ T = h.
Proof.
  intros I (F & P & W) [Hi Hnp].
  pose proof I as [Hf _ _ _ Hpos Hcnt _ _ _ Hctx (_ & Hfe & _) Hwb [_ _ _ _ D5]].
  rewrite Hi in *. assert (w = 0) as -> by (destruct (decide (w = 0)); done).
  assert (active_cnt (que s) = 0) as E0.
  { destruct (decide (active_cnt (que s) = 0)) as [|Hne]; [done|exfalso].
    destruct (ring_pos_fresh (active_first_pos (que s)) 0) as (p & _ & Hp & Ho); [done|lia|].
    destruct (ctx_Some s p Hf Hp) as [c Hc]. destruct (Hctx p c Hp Hc) as [Hph _].
    rewrite Ho in Hph. unfold phase in Hph. rewrite decide_False in Hph by lia.
    destruct (decide (0 < k)).
    - destruct Hph as [Hst|Hst]; [by eapply Hnp|]. eapply W; [done|exact Hp|exact Ho|lia|done|done].
    - rewrite decide_True in Hph by lia. destruct Hph as [Hst|[Hst|Hst]].
      + destruct (Hfe p) as [_ Hin]. specialize (Hin ltac:(eauto)). by apply not_elem_of_nil in Hin.
      + specialize (D5 p c Hp Hc Hst). by apply not_elem_of_nil in D5.
      + eapply P; [exact Hp|rewrite Ho; lia|lia|exact Hc|exact Hst]. }
  split; [lia|]. destruct F as [?|[?|(p & a & l & Hin)]]; [lia|lia|].
  rewrite Hi in Hin. by apply not_elem_of_nil in Hin.
Qed.

(** Then everything posted has been processed and freed. *)
Lemma quiescent_done T s :
  ring_inv T s → quiescent s →
  log s = (λ i, i mod ring_len) <$> seqZ 0 T ∧ active_first_idx (que s) = reg_tail (que s).
Proof.
  intros (h & w & k & I & _ & Hset) Hqu.
  destruct (settled_quiescent _ _ _ _ _ I Hset Hqu) as [-> ->].
  destruct I as [_ _ _ _ _ Hc [_ Hi] [Ht _] Hlog _ _ _ _]. rewrite Hlog, Hi, Ht.
  destruct Hc as (_ & _ & ->). by rewrite Z.add_0_r.
Qed.

End completions.

(** C14: For every derived class that keeps its laws, and whatever the order in which DMA
    operations complete and the driver posts descriptors: no assertion, index or division of
    the engine fails, and the descriptors handed to [process] are exactly the ring entries
    0, 1, 2, ... modulo its length, each once, in order, and never more than were posted. *)
Theorem ring_in_order {S} `{QueueClass S, !QueueLaws S} (q : queue_base) (d : S) es :
  fresh q → sub_ok (MkQs q d [] []) → valid_run (MkQs q d [] []) es →
  match run (MkQs q d [] []) es with
  | inr s => ∃ n, 0 ≤ n ≤ total_posted es ∧ log s = (λ i, i mod len q) <$> seqZ 0 n
  | inl f => f = Derived
  end.
Proof.
  intros Hq Hs Hv. pose (N := len q : RingLen).
  pose proof (ring_run_inv es 0 _ (fresh_ring_inv q d Hq eq_refl Hs) Hv) as Hr.
  destruct (run _ es) as [f|s]; [exact Hr|].
  destruct Hr as (h & w & k & I & _). destruct I as [_ _ _ _ _ Hc [Hh _] [_ HT] Hlog _ _ _ _].
  exists (h + k). rewrite Hlog. destruct Hc as (? & ? & ->). split; [lia|done].
Qed.

(** C16: the engine does not stall on a ring whose length is a power of two (for other lengths it
    can, see [availability_wrong]). Started on an enabled, empty ring, with a driver that posts
    no more than the free entries and reads that return what was asked for: whenever nothing is
    in flight and the derived class holds no descriptor, everything the driver has posted has
    been processed, written back and freed, with the head at the tail. *)
Theorem ring_never_stalls {S} `{QueueClass S, !QueueLaws S} (q : queue_base) (d : S) es s :
  fresh q → sub_ok (MkQs q d [] []) → valid_run (MkQs q d [] []) es →
  run (MkQs q d [] []) es = inr s → quiescent s →
  log s = (λ i, i mod len q) <$> seqZ 0 (total_posted es) ∧
  active_first_idx (que s) = reg_tail (que s).
Proof.
  intros Hq Hs Hv Hrun Hqu. pose (N := len q : RingLen).
  pose proof (ring_run_inv es 0 _ (fresh_ring_inv q d Hq eq_refl Hs) Hv) as Hr. rewrite Hrun in Hr.
  by apply (quiescent_done _ s Hr).
Qed.

(** Validity of what the driver and the host do can be computed. *)
Section decide.
Context {S : Type} `{QueueClass S, !QueueLaws S}.
Implicit Types s : qstate S.

Definition validb s (e : event (S:=S)) : bool :=
  match e with
  | EvPost n =>
      bool_decide (0 ≤ n ∧
        (reg_tail (que s) - active_first_idx (que s)) mod len (que s) + n < len (que s))
  | EvDone i payload =>
      match issued s !! i with
      | Some op => Z.of_nat (length payload) =? read_len op
      | None => true
      end
  | EvDerived _ => false
  end.

Lemma validb_sound s e : validb s e = true → valid_event s e.
Proof.
  destruct e as [n|i payload|]; cbn; [by intros ?%bool_decide_eq_true| |done].
  intros E op Hop. rewrite Hop in E. by apply Z.eqb_eq.
Qed.

Fixpoint valid_runb s (es : list (event (S:=S))) : bool :=
  match es with
  | [] => true
  | e :: es => validb s e && match step s e with inr s' => valid_runb s' es | inl _ => true end
  end.

Lemma ring_runb_sound es : ∀ s, valid_runb s es = true → valid_run s es.
Proof.
  induction es as [|e es IH]; intros s Hv; [done|]. cbn [valid_runb valid_run] in *.
  apply andb_true_iff in Hv as [He Hv]. split; [by apply validb_sound|].
  destruct (step s e); [done|]. by apply IH.
Qed.

End decide.

(** ** What the engine leaves alone

    A part [f] of the derived class that its own methods keep is kept by every operation. *)

Section kept.
Context {S A : Type} `{QueueClass S} (f : S → A).
Implicit Types s : qstate S.

Definition keeps (op : qstate S → result (qstate S)) : Prop :=
  ∀ s s', op s = inr s' → f (sub s') = f (sub s).

Context (prepare_keeps : ∀ p, keeps (λ s, prepare s p))
        (process_keeps : ∀ p, keeps (λ s, process s p))
        (writeback_keeps : ∀ i p n, keeps (λ s, do_writeback s i p n))
        (interrupt_keeps : keeps interrupt).

Lemma bind_inr {B C} (m : result B) (k : B → result C) c :
  m ≫= k = inr c → ∃ b, m = inr b ∧ k b = inr c.
Proof. destruct m; [done|]. eauto. Qed.

#[local] Ltac kept_step :=
  match goal with
  | E : inl _ = inr _ |- _ => discriminate E
  | E : inr _ = inr _ |- _ => injection E as <-
  | E : _ ≫= _ = inr _ |- _ => apply bind_inr in E as (? & ? & E)
  | E : (if ?b then _ else _) = inr _ |- _ => destruct b
  | E : (match ?x with (_, _) => _ end) = inr _ |- _ => destruct x
  | E : prepare _ _ = inr _ |- _ => apply prepare_keeps in E
  | E : process _ _ = inr _ |- _ => apply process_keeps in E
  | E : do_writeback _ _ _ _ = inr _ |- _ => apply writeback_keeps in E
  | E : interrupt _ = inr _ |- _ => apply interrupt_keeps in E
  end.
#[local] Ltac kept := repeat kept_step; cbn in *; congruence.

Lemma transition_keeps p a b : keeps (λ s, transition s p a b).
Proof. intros s s' E. unfold transition in E. kept. Qed.

Lemma mark_fetching_keeps a x n : ∀ i, keeps (λ s, mark_fetching s a x i n).
Proof.
  induction n as [|n IH]; intros i s s' E; cbn [mark_fetching] in E; repeat kept_step; try done.
  apply IH in E. by rewrite E.
Qed.

Lemma mark_all_keeps a from to n : ∀ i, keeps (λ s, mark_all s a from to i n).
Proof.
  induction n as [|n IH]; intros i s s' E; cbn [mark_all] in E; repeat kept_step; try done;
    apply IH in E; by rewrite E.
Qed.

Lemma run_prepared_keeps n : ∀ i, keeps (λ s, run_prepared s i n).
Proof.
  induction n as [|n IH]; intros i s s' E; cbn [run_prepared] in E; repeat kept_step; try done.
  apply IH in E. rewrite E. done.
Qed.

Lemma free_written_keeps n : ∀ i s s' k, free_written s i n = inr (s', k) → f (sub s') = f (sub s).
Proof.
  induction n as [|n IH]; intros i s s' k E; cbn [free_written] in E; repeat kept_step;
    simplify_eq; try done.
  apply IH in E. by rewrite E.
Qed.

Lemma fetched_keeps pos n : ∀ buf i, keeps (λ s, fetched s pos buf i n).
Proof.
  induction n as [|n IH]; intros buf i s s' E; cbn [fetched] in E; repeat kept_step; try done.
  apply IH in E. rewrite E. by etransitivity.
Qed.

Lemma trigger_fetch_keeps : keeps trigger_fetch.
Proof.
  intros s s' E. unfold trigger_fetch in E. repeat kept_step; try done.
  match goal with E : mark_fetching _ _ _ _ _ = _ |- _ => by apply mark_fetching_keeps in E end.
Qed.

Lemma trigger_process_keeps : keeps trigger_process.
Proof.
  intros s s' E. unfold trigger_process in E. repeat kept_step; try done.
  by apply run_prepared_keeps in E.
Qed.

Lemma trigger_writeback_keeps : keeps trigger_writeback.
Proof.
  intros s s' E. unfold trigger_writeback in E. repeat kept_step; try done;
  match goal with E : mark_all _ _ _ _ _ _ = _ |- _ => apply mark_all_keeps in E end; congruence.
Qed.

Lemma trigger_keeps : keeps trigger.
Proof.
  intros s s' E. unfold trigger in E. repeat kept_step.
  apply trigger_writeback_keeps in E. rewrite E.
  match goal with E : trigger_process _ = _ |- _ => apply trigger_process_keeps in E; rewrite E end.
  by apply trigger_fetch_keeps.
Qed.

Lemma writeback_done_keeps p n : keeps (λ s, writeback_done s p n).
Proof.
  intros s s' E. unfold writeback_done in E. repeat kept_step; try done.
  match goal with E : mark_all _ _ _ _ _ _ = _ |- _ => apply mark_all_keeps in E end.
  match goal with E : free_written _ _ _ = _ |- _ => apply free_written_keeps in E end.
  cbn in E. congruence.
Qed.

Lemma dma_done_keeps op payload : keeps (λ s, dma_done s op payload).
Proof.
  intros s s' E. destruct op; cbn [dma_done] in E; unfold fill, data_fetched, data_written in E;
  repeat kept_step; try done; try apply trigger_keeps in E;
  repeat match goal with
  | H' : fetched _ _ _ _ _ = inr _ |- _ => apply fetched_keeps in H'
  | H' : writeback_done _ _ _ = inr _ |- _ => apply writeback_done_keeps in H'
  | H' : prepared _ _ = inr _ |- _ => apply transition_keeps in H'
  | H' : processed _ _ = inr _ |- _ => apply transition_keeps in H'
  end; cbn in *; congruence.
Qed.
Lemma reg_updated_keeps : keeps reg_updated.
Proof.
  intros s s' E. unfold reg_updated in E. repeat kept_step; [done|]. by apply trigger_keeps.
Qed.

Lemma step_keeps s e s' :
  (∀ s0, e ≠ EvDerived s0) → step s e = inr s' → f (sub s') = f (sub s).
Proof.
  intros He E. destruct e as [n|i payload|s0]; [| |by destruct (He s0)]; cbn [step] in E.
  - by apply reg_updated_keeps in E.
  - destruct (issued s !! i); [by apply dma_done_keeps in E|by simplify_eq].
Qed.

End kept.

(** ** Who gives up

    If the methods of the derived class do not give up and keep [Q], no operation does. *)

Section clean.
Context {S : Type} `{QueueClass S} (Q : S → Prop).
Implicit Types s : qstate S.

Definition clean (r : result (qstate S)) : Prop := match r with inl f => f = Engine | inr s => Q (sub s) end.

Context (prepare_clean : ∀ (s : qstate S) p, Q (sub s) → clean (prepare s p))
        (process_clean : ∀ (s : qstate S) p, Q (sub s) → clean (process s p))
        (writeback_clean : ∀ (s : qstate S) i p n, Q (sub s) → clean (do_writeback s i p n))
        (interrupt_clean : ∀ s : qstate S, Q (sub s) → clean (interrupt s)).

Lemma clean_bind r k : clean r → (∀ s, Q (sub s) → clean (k s)) → clean (r ≫= k).
Proof using Type. destruct r; cbn; auto. Qed.

Lemma clean_get (s : qstate S) p k : (∀ c, clean (k c)) → clean (get s p ≫= k).
Proof using Type. intros Hk. unfold get. destruct (ctx s p); [apply Hk|done]. Qed.

Lemma clean_transition s p from to : Q (sub s) → clean (transition s p from to).
Proof using Type. intros Hq. apply clean_get. intros c. by destruct (decide _). Qed.

Lemma clean_mark_fetching a x n : ∀ s i, Q (sub s) → clean (mark_fetching s a x i n).
Proof using Type. induction n as [|n IH]; intros s i Hq; [done|]. cbn. apply clean_get. intros c. destruct (decide _); [by apply IH|done]. Qed.

Lemma clean_mark_all a from to n : ∀ s i, Q (sub s) → clean (mark_all s a from to i n).
Proof using Type.
  induction n as [|n IH]; intros s i Hq; [done|]. cbn [mark_all]. apply clean_get. intros c.
  destruct (match from with Some _ => _ | None => _ end); [by apply IH|done].
Qed.

Lemma clean_run_prepared n : ∀ s k, Q (sub s) → clean (run_prepared s k n).
Proof using process_clean.
  induction n as [|n IH]; intros s k Hq; cbn [run_prepared]; destruct (_ <? _); try done. apply clean_get. intros c.
  destruct (decide _); [|done]. apply clean_bind; [by apply process_clean|]. intros. by apply IH.
Qed.

Lemma clean_count (s : qstate S) st k n : ∀ i, (∀ j, clean (k j)) → clean (count_state s st i n ≫= k).
Proof using Type.
  induction n as [|n IH]; intros i Hk; [apply Hk|]. cbn [count_state]. unfold get. destruct (ctx s _); [|done]. cbn [or_fault mbind sum_bind].
  destruct (decide _); [by apply IH|apply Hk].
Qed.

Lemma clean_skip (s : qstate S) k n : ∀ i, (∀ j, clean (k j)) → clean (skip_processed s i n ≫= k).
Proof using Type.
  induction n as [|n IH]; intros i Hk; [apply Hk|]. cbn [skip_processed]. unfold get. destruct (ctx s _); [|done]. cbn [or_fault mbind sum_bind].
  destruct (_ <=? _); [apply Hk|by apply IH].
Qed.

Lemma clean_free (k : qstate S * Z → result (qstate S)) n : ∀ s i,
  Q (sub s) → (∀ s' j, Q (sub s') → clean (k (s', j))) → clean (free_written s i n ≫= k).
Proof using Type.
  induction n as [|n IH]; intros s i Hq Hk; [by apply Hk|]. cbn [free_written]. unfold get. destruct (ctx s _); [|done].
  cbn [or_fault mbind sum_bind]. destruct (decide _); [by apply IH|by apply Hk].
Qed.

Lemma clean_trigger s : Q (sub s) → clean (trigger s).
Proof using All.
  intros Hq. unfold trigger. apply clean_bind; [|intros s1 Hq1; apply clean_bind; [|intros s2 Hq2]].
  - unfold trigger_fetch. destruct (negb _); [done|]. destruct (_ =? 0); [done|]. destruct (_ =? 0); [done|].
    apply clean_bind; [by apply clean_mark_fetching|done].
  - unfold trigger_process. destruct (negb _); [done|]. apply clean_skip. intros j. by apply clean_run_prepared.
  - unfold trigger_writeback. destruct (negb _); [done|]. apply clean_count. intros j. cbn zeta. destruct (_ =? 0); [done|].
    apply clean_bind; [by apply clean_mark_all|]. intros. by apply writeback_clean.
Qed.

Lemma clean_writeback_done s p n : Q (sub s) → clean (writeback_done s p n).
Proof using All.
  intros Hq. unfold writeback_done. destruct (negb _); [done|]. apply clean_bind; [by apply clean_mark_all|]. intros s1 Hq1.
  apply clean_free; [done|]. intros s2 j Hq2. cbn zeta. destruct (_ =? 0); [done|]. by apply interrupt_clean.
Qed.

Lemma clean_fetched pos n : ∀ s buf i, Q (sub s) → clean (fetched s pos buf i n).
Proof using All.
  induction n as [|n IH]; intros s buf i Hq; [done|]. cbn [fetched]. apply clean_get. intros c.
  apply clean_bind; [by apply prepare_clean|]. intros. by apply IH.
Qed.

Lemma clean_step s e : (∀ s0, e ≠ EvDerived s0) → Q (sub s) → clean (step s e).
Proof using All.
  intros He Hq. destruct e as [n|i payload|s0]; [| |by destruct (He s0)]; cbn [step].
  - unfold reg_updated. destruct (negb _); [done|]. by apply clean_trigger.
  - destruct (issued s !! i) as [op|]; [|done]. destruct op; cbn [dma_done].
    + destruct (_ =? 0); [done|]. apply clean_bind; [by apply clean_fetched|]. intros. by apply clean_trigger.
    + destruct (_ =? 0); [done|]. apply clean_bind; [by apply clean_writeback_done|]. intros. by apply clean_trigger.
    + apply clean_bind; [unfold fill; apply clean_get; intros c; by destruct (decide _)|]. intros s1 Hq1. cbn zeta.
      destruct (_ <? _); [done|]. apply clean_bind; [by apply clean_transition|]. intros. by apply clean_trigger.
    + apply clean_bind; [by apply clean_transition|]. intros. by apply clean_trigger.
    + apply clean_bind; [by apply clean_writeback_done|]. intros. by apply clean_trigger.
Qed.

End clean.

(** ** Limits of the engine

    The number of available descriptors is computed as [(reg_tail - next_idx) % len] on
    unsigned 32-bit integers, which is the distance in the ring only if the length divides
    2^32.  With 96 entries, the tail at 0 and the next descriptor at 10, it is 54 and not 86,
    and from 64 the engine sees nothing although 32 descriptors are posted. *)
Definition ring_96 (first tail : Z) : queue_base :=
  MkQueue (replicate 128 (MkCtx DESC_EMPTY 0 (replicate 16 0) [])) 0 first 0 0 96 first tail true 16.

Theorem availability_wrong :
  fetch_count (ring_96 10 0) = 54 ∧ fetch_count (ring_96 64 0) = 0 ∧ (0 - 64) mod 96 = 32.
Proof. by vm_compute. Qed.

(** [reset] forgets the contexts but not the operations in flight: the fetch of a queue that
    was reset and enabled again completes into contexts that should be empty, and the next
    fetch trips over the assertion. *)
Section reset_race.

#[local] Instance idle_class : QueueClass () := {|
  prepare s p := prepared s p;
  process s p := inr s;
  do_writeback := base_do_writeback;
  interrupt s := inr s |}.

Definition enable (q : queue_base) : queue_base :=
  MkQueue (desc_ctxs q) (active_first_pos q) (active_first_idx q) (active_cnt q) (base q) (len q)
          (reg_head q) 0 true (desc_len q).

Definition posted_4 : qstate () :=
  MkQs (MkQueue (replicate 128 (MkCtx DESC_EMPTY 0 (replicate 16 0) [])) 0 0 0 0 64 0 4 true 16)
       () [] [].

Theorem reset_with_dma_in_flight :
  ∃ s op, trigger posted_4 = inr s ∧ issued s = [op] ∧
    ∃ s2, dma_done (MkQs (enable (reset (que s))) () [] []) op (replicate 64 0) = inr s2 ∧
    step s2 (EvPost 1) = inl Engine.
Proof.
  eexists _, _. split; [by vm_compute|]. split; [by vm_compute|].
  eexists. split; [by vm_compute|by vm_compute].
Qed.

End reset_race.

End queue_run.
