(* ===== verification/I40eLan.v ===== *)
(** * Interrupts, time stamps and steering in the i40e model

    The parts of sims/nic/i40e_bm/i40e_lan.cc and i40e_bm.cc that the receive and transmit
    queues share: the device registers they use, interrupt moderation ([SignalInterrupt] and
    [Timed]), the choice of packets that get a PTP time stamp, the choice of a receive queue by
    hash, and the life cycle of a queue ([enable], [ctx_fetched], [disable], [reset]).
    Calls of the runner are recorded in order. *)

From S2P Require Import Prelude I40ePtp I40eRss I40eXsum I40eHmc I40eQueue.

Module lan.
Import queue.

(** [width] bits of [x] from [shift]: [(x & (mask << shift)) >> shift] or
    [(x >> shift) & mask]. *)
Definition bits (x shift width : Z) : Z := Z.land (Z.shiftr x shift) (Z.ones width).

(** ** The device as the queues see it *)

(** [int_ev]: the time of an event is kept by the event itself. *)
Record int_ev := MkIntEv { armed : bool; time_ : Z }.

(** Calls of the runner. *)
Inductive runner_call :=
| EventSchedule (vec time : Z)
| EventCancel (vec : Z)
| MsiXIssue (vec : Z)
| MsiIssue (vec : Z)
| EthSend (data : bytes).

Record lan_dev := MkDev {
  pfint_icr0 : Z;
  pfint_icr0_ena : Z;
  pfint_dyn_ctl0 : Z;
  pfint_itr0 : list Z;
  pfint_itrn : list (list Z);
  prtsyn_ctl_0 : Z;
  prtsyn_ctl_1 : Z;
  prtsyn_stat_0 : Z;
  prtsyn_stat_1 : Z;
  prtsyn_rxtime_lock : list bool;
  prtsyn_rxtime : list Z;
  prtsyn_txtime : Z;
  ptp : ptp.ptpmgr;
  intevs : list int_ev;
  int_msix_en : bool;
  time_ps : Z;             (* [runner_->TimePs()] *)
  calls : list runner_call
}.

Definition NUM_PFINTS : Z := 128.
Definition NUM_ITR : nat := 3.

Definition call (d : lan_dev) (c : runner_call) : lan_dev :=
  MkDev (pfint_icr0 d) (pfint_icr0_ena d) (pfint_dyn_ctl0 d) (pfint_itr0 d) (pfint_itrn d)
    (prtsyn_ctl_0 d) (prtsyn_ctl_1 d) (prtsyn_stat_0 d) (prtsyn_stat_1 d)
    (prtsyn_rxtime_lock d) (prtsyn_rxtime d) (prtsyn_txtime d) (ptp d) (intevs d)
    (int_msix_en d) (time_ps d) (calls d ++ [c]).

Definition set_intev (d : lan_dev) (vec : Z) (e : int_ev) : lan_dev :=
  MkDev (pfint_icr0 d) (pfint_icr0_ena d) (pfint_dyn_ctl0 d) (pfint_itr0 d) (pfint_itrn d)
    (prtsyn_ctl_0 d) (prtsyn_ctl_1 d) (prtsyn_stat_0 d) (prtsyn_stat_1 d)
    (prtsyn_rxtime_lock d) (prtsyn_rxtime d) (prtsyn_txtime d) (ptp d)
    (<[Z.to_nat vec := e]> (intevs d)) (int_msix_en d) (time_ps d) (calls d).

Definition set_icr0 (d : lan_dev) (v : Z) : lan_dev :=
  MkDev v (pfint_icr0_ena d) (pfint_dyn_ctl0 d) (pfint_itr0 d) (pfint_itrn d)
    (prtsyn_ctl_0 d) (prtsyn_ctl_1 d) (prtsyn_stat_0 d) (prtsyn_stat_1 d)
    (prtsyn_rxtime_lock d) (prtsyn_rxtime d) (prtsyn_txtime d) (ptp d) (intevs d)
    (int_msix_en d) (time_ps d) (calls d).

(** ** Interrupts *)

(** The moderation interval of [itr] 0 to 2 is in units of 2 us. *)
Definition mindelay (d : lan_dev) (vec itr : Z) : option Z :=
  if itr <=? 2 then
    x ← (if vec =? 0 then pfint_itr0 d !! Z.to_nat itr
         else row ← pfint_itrn d !! Z.to_nat itr; row !! Z.to_nat vec);
    Some (u64 (x * 2000000))
  else if itr =? 3 then Some 0
  else None.

(** [None]: an index outside [intevs] or the registers, or [abort()]. *)
Definition SignalInterrupt (d : lan_dev) (vec itr : Z) : option lan_dev :=
  iev ← intevs d !! Z.to_nat vec;
  delay ← mindelay d vec itr;
  let newtime := u64 (time_ps d + delay) in
  if armed iev && (time_ iev <=? newtime) then Some d
  else
    let d := if armed iev then call d (EventCancel vec) else d in
    Some (call (set_intev d vec (MkIntEv true newtime)) (EventSchedule vec newtime)).

(** [i40e_bm::Timed] for the event of vector [vec]. *)
Definition Timed (d : lan_dev) (vec : Z) : option lan_dev :=
  iev ← intevs d !! Z.to_nat vec;
  let d := set_intev d vec (MkIntEv false (time_ iev)) in
  if int_msix_en d then Some (call d (MsiXIssue vec))
  else if 0 <? vec then None
  else Some (call d (MsiIssue 0)).

Definition QINT_MSIX_INDX (qctl : Z) : Z := Z.shiftr (Z.land qctl (Z.shiftl 0xFF 0)) 0.
Definition QINT_ITR_INDX (qctl : Z) : Z := Z.shiftr (Z.land qctl (Z.shiftl 0x3 11)) 11.
Definition QINT_MSIX0_INDX (qctl : Z) : Z := Z.shiftr (Z.land qctl (Z.shiftl 0x7 13)) 13.
Definition QINT_CAUSE_ENA_MASK : Z := Z.shiftl 1 30.
Definition DYN_CTL0_INTENA_MASK : Z := 1.
Definition ICR0_INTEVENT_MASK : Z := 1.
Definition ICR0_QUEUE_0_SHIFT : Z := 1.
Definition ICR0_TIMESYNC_MASK : Z := Z.shiftl 1 23.

(** [lan_queue_base::interrupt] with the queue's [reg_intqctl] *)
Definition lan_interrupt (d : lan_dev) (qctl : Z) : option lan_dev :=
  let gctl := pfint_dyn_ctl0 d in
  let msix_idx := QINT_MSIX_INDX qctl in
  let msix0_idx := QINT_MSIX0_INDX qctl in
  let cause_ena := negb (Z.land qctl QINT_CAUSE_ENA_MASK =? 0) &&
                   negb (Z.land gctl DYN_CTL0_INTENA_MASK =? 0) in
  if negb cause_ena then Some d
  else
    let d := if msix_idx =? 0
             then set_icr0 d (Z.lor (pfint_icr0 d)
                    (Z.lor ICR0_INTEVENT_MASK (Z.shiftl 1 (ICR0_QUEUE_0_SHIFT + msix0_idx))))
             else d in
    SignalInterrupt d msix_idx (QINT_ITR_INDX qctl).

(** ** Time stamps *)

Definition ETH_TYPE_IP : Z := 0x0800.
Definition ETH_TYPE_PTP : Z := 0x88F7.
Definition IP_PROTO_TCP : Z := 6.
Definition IP_PROTO_UDP : Z := 17.

(** Fields of [pkt_tcp] and [pkt_udp]; a read past the packet is undefined. *)
Definition eth_type (data : bytes) : option Z := xsums.peek data 12 2.
Definition ip_proto (data : bytes) : option Z := xsums.peek data 23 1.
Definition ip_src (data : bytes) : option Z := xsums.peek data 26 4.
Definition ip_dest (data : bytes) : option Z := xsums.peek data 30 4.
Definition l4_src (data : bytes) : option Z := xsums.peek data 34 2.
Definition l4_dest (data : bytes) : option Z := xsums.peek data 36 2.

(** Fields of [PRTTSYN_CTL1]. *)
Definition ctl1_field (ctl1 width shift : Z) : Z :=
  Z.shiftr (Z.land ctl1 (Z.shiftl (Z.ones width) shift)) shift.

(** The part of [ptp_rx_sample] after the PTP header has been found at [off]. *)
Definition ptp_match (data : bytes) (off : nat) (is_udp : bool) (ctl1 : Z) : option bool :=
  let tsyntype := ctl1_field ctl1 2 24 in
  v1_version ← xsums.peek data off 2;
  if v1_version =? 1 then
    if negb (tsyntype =? 1) then Some false
    else if (ctl1_field ctl1 8 0 =? 0xff) || (ctl1_field ctl1 8 8 =? 0xff) then Some true
    else
      msg ← xsums.peek data (off + 20) 1;
      Some ((msg =? ctl1_field ctl1 8 0) || (msg =? ctl1_field ctl1 8 8))
  else
    v2_version ← xsums.peek data (off + 1) 1;
    if v2_version =? 2 then
      if tsyntype =? 1 then Some false
      else if (tsyntype =? 0) && is_udp then Some false
      else
        msg ← xsums.peek data off 1;
        if tsyntype =? 3 then Some (msg <? 8)
        else if ctl1_field ctl1 4 16 =? 0xf then Some true
        else Some ((msg =? ctl1_field ctl1 4 16) || (msg =? ctl1_field ctl1 4 20))
    else Some false.

Definition ptp_rx_sample (ctl1 : Z) (data : bytes) : option bool :=
  if Z.land ctl1 (Z.shiftl 1 31) =? 0 then Some false
  else
    let tsyntype := ctl1_field ctl1 2 24 in
    let udp_ena := ctl1_field ctl1 2 26 in
    ty ← eth_type data;
    udp ← (if ty =? xsums.bswap16 ETH_TYPE_IP
           then proto ← ip_proto data; Some (proto =? IP_PROTO_UDP) else Some false);
    if (udp : bool) then
      if tsyntype =? 0 then Some false
      else
        dest ← l4_dest data;
        let port := xsums.bswap16 dest in
        if negb ((port =? 0x013F) && ((udp_ena =? 1) || (udp_ena =? 3))) &&
           negb ((port =? 0x0140) && ((udp_ena =? 2) || (udp_ena =? 3)))
        then Some false
        else ptp_match data 42 true ctl1
    else if ty =? xsums.bswap16 ETH_TYPE_PTP then
      if tsyntype =? 1 then Some false else ptp_match data 14 false ctl1
    else Some false.

(** The first free time stamp register takes the time; [-1] if there is none. *)
Definition rx_timestamp (d : lan_dev) : Z * lan_dev :=
  match list_find (λ b, b = false) (take 4 (prtsyn_rxtime_lock d)) with
  | Some (i, _) =>
      let '(t, p) := ptp.phc_read (ptp d) (time_ps d) in
      (Z.of_nat i,
       MkDev (pfint_icr0 d) (pfint_icr0_ena d) (pfint_dyn_ctl0 d) (pfint_itr0 d) (pfint_itrn d)
         (prtsyn_ctl_0 d) (prtsyn_ctl_1 d) (prtsyn_stat_0 d)
         (Z.lor (prtsyn_stat_1 d) (Z.shiftl 1 (Z.of_nat i)))
         (<[i := true]> (prtsyn_rxtime_lock d)) (<[i := t]> (prtsyn_rxtime d))
         (prtsyn_txtime d) p (intevs d) (int_msix_en d) (time_ps d) (calls d))
  | None => (-1, d)
  end.

(** ** Steering *)

(** [rss_steering]: the hash, and the queue if the packet is IPv4; [ctl_0] is [pfqf_ctl_0]. *)
Definition rss_steering (key hlut : list Z) (ctl_0 : Z) (kc : rss.rss_key_cache) (data : bytes) :
    option (option Z * Z * rss.rss_key_cache) :=
  ty ← eth_type data;
  if ty =? xsums.bswap16 ETH_TYPE_IP then
    proto ← ip_proto data; src ← ip_src data; dst ← ip_dest data;
    '(sp, dp) ← (if (proto =? IP_PROTO_TCP) || (proto =? IP_PROTO_UDP)
                 then s ← l4_src data; d ← l4_dest data;
                      Some (xsums.bswap16 s, xsums.bswap16 d)
                 else Some (0, 0));
    '(hash, kc) ← rss.hash_ipv4 key kc (xsums.bswap32 src) (xsums.bswap32 dst) sp dp;
    let luts := if Z.land ctl_0 (Z.shiftl 1 16) =? 0 then 128 else 512 in
    let idx := hash mod luts in
    entry ← hlut !! Z.to_nat (idx / 4);
    Some (Some (Z.land (Z.shiftr entry (8 * (idx mod 4))) 0x3f), hash, kc)
  else Some (None, 0, kc).

(** [lan::packet_received] uses queue 0 for the rest. *)
Definition steer (key hlut : list Z) (ctl_0 : Z) (kc : rss.rss_key_cache) (data : bytes) :
    option (Z * Z * rss.rss_key_cache) :=
  '(q, hash, kc) ← rss_steering key hlut ctl_0 kc data;
  Some (default 0 q, hash, kc).

(** ** The life cycle of a queue *)

(** [lan_queue_base]: its own fields and the device registers it refers to. *)
Record lan_queue_base := MkLanQ {
  dev : lan_dev;
  enabling : bool;
  idx : Z;
  reg_ena : Z;
  fpm_basereg : Z;
  reg_intqctl : Z;
  ctx_size : Z
}.

Definition set_dev (b : lan_queue_base) (d : lan_dev) : lan_queue_base :=
  MkLanQ d (enabling b) (idx b) (reg_ena b) (fpm_basereg b) (reg_intqctl b) (ctx_size b).
Definition set_enabling (b : lan_queue_base) (e : bool) (ena : Z) : lan_queue_base :=
  MkLanQ (dev b) e (idx b) ena (fpm_basereg b) (reg_intqctl b) (ctx_size b).

Definition QENA_REQ_MASK : Z := 1.
Definition QENA_STAT_MASK : Z := 4.

(** What the receive and the transmit queue add: where [lan_queue_base] is, and how the queue
    context that was fetched is decoded ([None]: [abort()] or a read past the context). *)
Class LanQueue (S : Type) := {
  lan_of : S → lan_queue_base;
  with_lan : S → lan_queue_base → S;
  initialize : qstate S → bytes → option (qstate S)
}.

Section life_cycle.
Context {S : Type} `{QueueClass S, LanQueue S}.
Implicit Types s : qstate S.

Definition update_lan s (b : lan_queue_base) : qstate S :=
  MkQs (que s) (with_lan (sub s) b) (issued s) (log s).

Definition set_enabled s (e : bool) : qstate S :=
  let q := que s in
  with_que s (MkQueue (desc_ctxs q) (active_first_pos q) (active_first_idx q) (active_cnt q)
                (base q) (len q) (reg_head q) (reg_tail q) e (desc_len q)).

(** Where the context of the queue is, in the address space of the host memory cache.  The
    product is computed on 32 bits. *)
Definition ctx_addr (b : lan_queue_base) : Z :=
  u64 (u32 (Z.shiftr (Z.land (fpm_basereg b) 0xFFFFFF) 0 * 512) + ctx_size b * idx b).

(** [lan_queue_base::enable]; with it comes the operation given to [hmc.issue_mem_op]. *)
Definition enable s : qstate S * option (Z * Z) :=
  let b := lan_of (sub s) in
  if enabling b || enabled (que s) then (s, None)
  else (update_lan s (set_enabling b true (reg_ena b)), Some (ctx_addr b, ctx_size b)).

(** [qctx_fetch::done] and [ctx_fetched] *)
Definition ctx_fetched s (ctx : bytes) : result (qstate S) :=
  s ← or_fault (initialize s ctx) Derived;
  let b := lan_of (sub s) in
  let s := update_lan s (set_enabling b false (Z.lor (reg_ena b) QENA_STAT_MASK)) in
  reg_updated (set_enabled s true).

Definition disable s : qstate S :=
  let b := lan_of (sub s) in
  let s := set_enabled s false in
  update_lan s (set_enabling b (enabling b) (Z.land (reg_ena b) (Z.lxor (Z.ones 32) QENA_STAT_MASK))).

(** [lan::qena_updated] once [QRX_ENA] or [QTX_ENA] has been written *)
Definition qena_updated s (val : Z) : qstate S * option (Z * Z) :=
  let b := lan_of (sub s) in
  let s := update_lan s (set_enabling b (enabling b) val) in
  if negb (Z.land val QENA_REQ_MASK =? 0) && negb (enabled (que s)) then enable s
  else if (Z.land val QENA_REQ_MASK =? 0) && enabled (que s) then (disable s, None)
  else (s, None).

(** [lan::tail_updated] once the tail register has been written *)
Definition tail_updated s (val : Z) : result (qstate S) :=
  let s := with_que s (set_tail (que s) val) in
  if enabled (que s) then reg_updated s else inr s.

(** [queue_base::reset]: all [reset] of the receive and transmit queues calls. *)
Definition base_reset s : qstate S := with_que s (reset (que s)).

(** [lan_queue_base::interrupt] *)
Definition lan_queue_interrupt s : result (qstate S) :=
  let b := lan_of (sub s) in
  d ← or_fault (lan_interrupt (dev b) (reg_intqctl b)) Derived;
  inr (update_lan s (set_dev b d)).

End life_cycle.

End lan.
