(* ===== verification/I40eRx.v ===== *)
(** * Receive queues of the i40e model

    Translation of [lan_queue_rx] in sims/nic/i40e_bm/i40e_lan.cc.  Processed descriptors wait
    in [dcache]; a packet takes as many of them as it needs buffers, and each starts a write of
    its part of the packet.  The class keeps the laws of I40eQueueInv.v, so the theorems on the
    engine hold of it; on top of them, what a packet leaves in the
    descriptors and buffers it takes is the packet.  I40eRxMem.v says what the host sees. *)

From S2P Require Import Prelude I40ePtp I40eXsum I40eHmc I40eQueue I40eQueueInv I40eQueueRun I40eLan.

Module rx.
Import queue queue_inv queue_run lan.

(** ** State *)

(** What the device writes into a ring entry: its index, the descriptor, and the data that goes
    to its buffer. *)
Record fill := MkFill { f_index : Z; f_desc : bytes; f_data : bytes }.

(** [dcache] holds positions of contexts.  [fills] records, for the statements only, the
    entries filled so far. *)
Record lan_queue_rx := MkRx {
  rx_lan : lan_queue_base;
  dbuff_size : Z;
  hbuff_size : Z;
  rxmax : Z;
  crc_strip : bool;
  dcache : list Z;
  fills : list fill
}.

Definition set_lan (q : lan_queue_rx) (b : lan_queue_base) : lan_queue_rx :=
  MkRx b (dbuff_size q) (hbuff_size q) (rxmax q) (crc_strip q) (dcache q) (fills q).
Definition set_dcache (q : lan_queue_rx) (dc : list Z) : lan_queue_rx :=
  MkRx (rx_lan q) (dbuff_size q) (hbuff_size q) (rxmax q) (crc_strip q) dc (fills q).
Definition add_fill (q : lan_queue_rx) (f : fill) : lan_queue_rx :=
  MkRx (rx_lan q) (dbuff_size q) (hbuff_size q) (rxmax q) (crc_strip q) (dcache q) (fills q ++ [f]).

Implicit Types s : qstate lan_queue_rx.

Definition update s (q : lan_queue_rx) : qstate lan_queue_rx := MkQs (que s) q (issued s) (log s).

(** ** Initialisation *)

(** [initialize] decodes the 32-byte queue context. *)
Definition rx_initialize s (ctx : bytes) : option (qstate lan_queue_rx) :=
  head ← xsums.peek ctx 0 2;
  base_w ← xsums.peek ctx 4 8;
  qlen ← xsums.peek ctx 11 2;
  dbsz ← xsums.peek ctx 12 2;
  hbsz ← xsums.peek ctx 13 2;
  rxm ← xsums.peek ctx 21 4;
  let q := que s in
  if negb (bits hbsz 10 2 =? 0) then None
  else Some (MkQs
    (MkQueue (desc_ctxs q) (active_first_pos q) (active_first_idx q) (active_cnt q)
       (u64 (Z.land base_w (Z.ones 57) * 128)) (bits qlen 1 13) (Z.land head (Z.ones 13))
       (reg_tail q) (enabled q) (if bits hbsz 12 1 =? 0 then 16 else 32))
    (MkRx (rx_lan (sub s)) (u16 (bits dbsz 6 7 * 128)) (u16 (bits hbsz 5 5 * 64))
       (u16 (bits rxm 6 14 * 128)) (negb (bits hbsz 13 1 =? 0)) (dcache (sub s)) (fills (sub s)))
    (issued s) (log s)).

#[export] Instance rx_lan_queue : LanQueue lan_queue_rx := {|
  lan_of := rx_lan; with_lan := set_lan; lan.initialize := rx_initialize |}.

(** [lan_queue_rx::reset] *)
Definition rx_reset s : qstate lan_queue_rx :=
  base_reset (update s (set_dcache (sub s) [])).

(** ** The virtual methods *)

(** [rx_desc_ctx::process] *)
Definition rx_process s (pos : Z) : result (qstate lan_queue_rx) :=
  inr (update s (set_dcache (sub s) (dcache (sub s) ++ [pos]))).

#[export] Instance rx_class : QueueClass lan_queue_rx := {|
  prepare s p := prepared s p;
  process := rx_process;
  do_writeback := base_do_writeback;
  interrupt := lan_queue_interrupt |}.

(** ** Packets *)

Definition DD_SHIFT : Z := 0.
Definition EOF_SHIFT : Z := 1.
Definition L3L4P_SHIFT : Z := 3.
Definition TSYNINDX_SHIFT : Z := 5.
Definition TSYNVALID_SHIFT : Z := 7.
Definition LENGTH_PBUF_SHIFT : Z := 38.

(** [status_error_len] of the descriptor that is written back. *)
Definition status_error_len (pktlen : Z) (last : bool) (rxtime_id : Z) : Z :=
  let v := Z.lor 0 (Z.shiftl 1 DD_SHIFT) in
  let v := Z.lor v (u64 (Z.shiftl pktlen LENGTH_PBUF_SHIFT)) in
  if last then
    let v := Z.lor v (Z.shiftl 1 EOF_SHIFT) in
    let v := Z.lor v (Z.shiftl 1 L3L4P_SHIFT) in
    if 0 <=? rxtime_id then
      Z.lor (Z.lor v (u32 (Z.shiftl rxtime_id TSYNINDX_SHIFT))) (Z.shiftl 1 TSYNVALID_SHIFT)
    else v
  else v.

(** The descriptor: zero but for the second word. *)
Definition wb_desc (n : nat) (status : Z) : bytes :=
  replicate 8 0 ++ le 8 status ++ replicate (n - 16) 0.

(** [rx_desc_ctx::packet_received] *)
Definition ctx_packet_received s (pos : Z) (part : bytes) (last : bool) (rxtime_id : Z) :
    result (qstate lan_queue_rx) :=
  c ← get s pos;
  let addr := field (desc c) 0 8 in
  let d := wb_desc (length (desc c))
             (status_error_len (Z.of_nat (length part)) last rxtime_id) in
  let s := put s pos (MkCtx (state c) (index c) d (data c)) in
  let s := update s (add_fill (sub s) (MkFill (index c) d part)) in
  inr (data_write s pos addr part).

(** The loop over the [num_descs] buffers; [dcache.front()] is undefined when it is empty. *)
Fixpoint fill_descs s (rest : bytes) (rxtime_id : Z) (n : nat) : result (qstate lan_queue_rx) :=
  match n with
  | O => inr s
  | Datatypes.S n =>
      match dcache (sub s) with
      | [] => inl Engine
      | pos :: dc =>
          let s := update s (set_dcache (sub s) dc) in
          let db := Z.to_nat (dbuff_size (sub s)) in
          match n with
          | O => ctx_packet_received s pos rest true rxtime_id
          | Datatypes.S _ =>
              s ← ctx_packet_received s pos (take db rest) false (-1);
              fill_descs s (drop db rest) rxtime_id n
          end
      end
  end.

Definition num_descs (q : lan_queue_rx) (pkt : bytes) : Z :=
  (Z.of_nat (length pkt) + dbuff_size q - 1) / dbuff_size q.

(** The choice of a time stamp register. *)
Definition sample s (pkt : bytes) : option (Z * qstate lan_queue_rx) :=
  let b := rx_lan (sub s) in
  smp ← ptp_rx_sample (prtsyn_ctl_1 (dev b)) pkt;
  if (smp : bool) then
    let '(id, d) := rx_timestamp (dev b) in
    Some (id, update s (set_lan (sub s) (set_dev b d)))
  else Some (-1, s).

(** [lan_queue_rx::packet_received]; [dbuff_size] divides before [enabled] is tested. *)
Definition packet_received s (pkt : bytes) : result (qstate lan_queue_rx) :=
  if dbuff_size (sub s) =? 0 then inl Derived
  else
    let n := num_descs (sub s) pkt in
    if negb (enabled (que s)) then inr s
    else if Z.of_nat (length (dcache (sub s))) <? n then inr s
    else
      '(rxtime_id, s) ← or_fault (sample s pkt) Derived;
      fill_descs s pkt rxtime_id (Z.to_nat n).

(** ** Runs *)

Inductive rx_event :=
| RxPost (n : Z)
| RxDone (i : nat) (payload : bytes)
| RxPacket (pkt : bytes).

Definition rx_step s (e : rx_event) : result (qstate lan_queue_rx) :=
  match e with
  | RxPost n => step s (EvPost n)
  | RxDone i payload => step s (EvDone i payload)
  | RxPacket pkt => packet_received s pkt
  end.

Fixpoint rx_run s (es : list rx_event) : result (qstate lan_queue_rx) :=
  match es with [] => inr s | e :: es => s ← rx_step s e; rx_run s es end.

(** Whether a packet finds enough descriptors. *)
Definition accepts s (pkt : bytes) : bool :=
  enabled (que s) && (num_descs (sub s) pkt <=? Z.of_nat (length (dcache (sub s)))).

Fixpoint accepted s (es : list rx_event) : list bytes :=
  match es with
  | [] => []
  | e :: es =>
      match e with RxPacket pkt => if accepts s pkt then [pkt] else [] | _ => [] end ++
      match rx_step s e with inr s => accepted s es | inl _ => [] end
  end.

(** What the driver does with the entries it finds, in ring order: it takes as many bytes of
    the buffer as the descriptor says and ends a packet at [EOF].  [acc] is the packet so
    far. *)
Fixpoint reassemble (acc : bytes) (fs : list fill) : list bytes * bytes :=
  match fs with
  | [] => ([], acc)
  | f :: fs =>
      let w := field (f_desc f) 8 8 in
      let acc := acc ++ take (Z.to_nat (bits w LENGTH_PBUF_SHIFT 14)) (f_data f) in
      if Z.testbit w EOF_SHIFT then
        let '(ps, rest) := reassemble [] fs in (acc :: ps, rest)
      else reassemble acc fs
  end.

(** ** The laws *)

(** Held contexts are distinct, each waits in [dcache] or for the write of its data, and the
    entries filled, followed by those that wait, are the entries processed. *)
Definition rx_ok s : Prop :=
  NoDup (dcache (sub s) ++ writes s) ∧
  (∀ p, is_pos p → processing s p → p ∈ dcache (sub s) ∨ p ∈ writes s) ∧
  (∀ p, p ∈ writes s → ∃ i, held s p i) ∧
  ∃ idxs, Forall2 (held s) (dcache (sub s)) idxs ∧ log s = (f_index <$> fills (sub s)) ++ idxs.

Lemma rx_ok_frame s s' :
  dcache (sub s') = dcache (sub s) → fills (sub s') = fills (sub s) → log s' = log s →
  writes s' = writes s →
  (∀ p c, is_pos p → ctx s p = Some c → state c = DESC_PROCESSING → ctx s' p = Some c) →
  (∀ p, is_pos p → processing s' p → processing s p) →
  rx_ok s → rx_ok s'.
Proof.
  intros Ed Ef El Ew Hc Hpr (Hnd & Hpc & Hw & idxs & Hall & Hlog). unfold rx_ok.
  rewrite Ed, Ew, Ef, El. split; [done|]. split; [by auto|]. split.
  - intros p Hp. destruct (Hw p Hp) as [i Hi]. exists i. eapply held_frame; [|done].
    intros c. apply Hc, Hi.
  - exists idxs. split; [|done]. eapply Forall2_impl; [done|]. intros p i Hi.
    eapply held_frame; [|done]. intros c. apply Hc, Hi.
Qed.

Lemma rx_ok_written s s' p l1 l2 :
  sub s' = sub s → log s' = log s → writes s = l1 ++ p :: l2 → writes s' = l1 ++ l2 →
  (∀ p' c, is_pos p' → p' ≠ p → ctx s p' = Some c → state c = DESC_PROCESSING →
     ctx s' p' = Some c) →
  (∀ p', is_pos p' → processing s' p' → p' ≠ p ∧ processing s p') →
  rx_ok s → rx_ok s'.
Proof.
  intros Es El Ew Ew' Hc Hpr (Hnd & Hpc & Hw & idxs & Hall & Hlog). unfold rx_ok.
  rewrite Es, Ew', El. rewrite Ew in *.
  assert (p ∉ dcache (sub s) ++ l1 ++ l2) as Hnin.
  { rewrite app_assoc in Hnd |- *. apply NoDup_app in Hnd as (_ & H1 & H2%NoDup_cons).
    intros [Hin|Hin]%elem_of_app; [|naive_solver]. apply (H1 p Hin). left. }
  split; [|split; [|split]].
  - eapply sublist_NoDup; [exact Hnd|]. apply sublist_app; [done|].
    apply sublist_app; [done|]. by apply sublist_cons.
  - intros p' Hp' [Hne Hx]%Hpr; [|done]. specialize (Hpc p' Hp' Hx). set_solver.
  - intros p' Hp'. destruct (Hw p') as [i Hi]; [set_solver|]. exists i.
    eapply held_frame; [|done]. intros c. apply Hc; [apply Hi|]. intros ->. set_solver.
  - exists idxs. split; [|done]. eapply Forall2_impl_elem; [done|]. intros p' i Hp' Hi.
    eapply held_frame; [|done]. intros c. apply Hc; [apply Hi|]. intros ->. set_solver.
Qed.

Lemma rx_process_law s p c :
  full s → is_pos p → ctx s p = Some c → state c = DESC_PREPARED → rx_ok s →
  16 ≤ Z.of_nat (length (desc c)) → NoDup (writes s) →
  let s1 := note (put s p (set_state c DESC_PROCESSING)) (index c) in
  match rx_process s1 p with inr s' => proc_step s1 s' ∧ rx_ok s' | inl f => f = Derived end.
Proof.
  intros Hf Hp Hc Hst (Hnd & Hpc & Hw & idxs & Hall & Hlog) Hd Hnw s1. cbn [rx_process].
  assert (full s1) as Hf1 by by apply full_put.
  assert (∀ p', is_pos p' → ctx s1 p' = if decide (p = p') then Some (set_state c DESC_PROCESSING)
                                        else ctx s p') as Hc1.
  { intros p' Hp'. by apply ctx_put. }
  assert (∀ p' i, held s p' i → p' ≠ p ∧ held s1 p' i) as Hh.
  { intros p' i (Hp' & c' & Hc' & Hst' & Hr). assert (p' ≠ p) by (intros ->; congruence).
    split; [done|]. split; [done|]. exists c'. by rewrite Hc1, decide_False. }
  assert (held s1 p (index c)) as Hhp.
  { split; [done|]. exists (set_state c DESC_PROCESSING). by rewrite Hc1, decide_True. }
  split; [|split; [|split; [|split]]].
  - split; [by destruct s1 as [[]]|]. split; [done|]. split; [done|]. split.
    + exists []. rewrite app_nil_r. split; [done|]. split; [by constructor|done].
    + intros p' c' _ Hc'. exists c'. auto.
  - cbn [sub update set_dcache dcache issued note put with_que s1].
    rewrite <- app_assoc. apply NoDup_app in Hnd as (H1 & H2 & H3). apply NoDup_app.
    split; [done|]. split.
    + intros p' Hin [->|?]%elem_of_cons; [|by eapply H2].
      apply list_elem_of_lookup in Hin as [j Hj].
      destruct (Forall2_lookup_l _ _ _ _ _ Hall Hj) as (i & _ & Hi). by destruct (Hh _ _ Hi).
    + apply NoDup_cons. split; [|done]. intros Hin. destruct (Hw p Hin) as [i Hi].
      by destruct (Hh _ _ Hi).
  - intros p' Hp' (c' & Hc' & Hst'). cbn [sub update set_dcache dcache issued note put with_que s1].
    rewrite elem_of_app, list_elem_of_singleton. destruct (decide (p = p')) as [->|Hne]; [by left; right|].
    change (ctx s1 p' = Some c') in Hc'. rewrite Hc1, decide_False in Hc' by done.
    destruct (Hpc p' Hp'); [by exists c'|by left; left|by right].
  - intros p' Hin. destruct (Hw p' Hin) as [i Hi]. exists i. by apply Hh.
  - exists (idxs ++ [index c]). split.
    + apply Forall2_app; [|constructor; [exact Hhp|constructor]]. eapply Forall2_impl; [done|].
      intros p' i Hi. by apply Hh.
    + cbn [log update note put with_que s1]. by rewrite Hlog, <- app_assoc.
Qed.

#[export, refine] Instance rx_laws : QueueLaws lan_queue_rx := {| sub_ok := rx_ok |}.
Proof.
  - intros s s' _ _ Es El Ew Hc Hp. apply rx_ok_frame; by rewrite ?Es.
  - intros s s' p l1 l2 _ _ Es El _ Ew Ew' _ Hc Hp. by apply (rx_ok_written s s' p l1 l2).
  - intros s p c _ _ Hc Hst. destruct (prepared_step s p c Hc Hst) as (s' & E & ?).
    cbn. by rewrite E.
  - intros s p c. apply rx_process_law.
  - intros s idx pos n Hf Hp Hn Hdl _ Hall. cbn [do_writeback rx_class].
    destruct (base_do_writeback_law s idx pos n Hf Hp Hn Hdl Hall) as (a & d & -> & E).
    by exists (dma_wb pos a d).
  - intros s. cbn. unfold lan_queue_interrupt.
    destruct (lan_interrupt _ _); [|done]. cbn. split_and!; [done..|]. by apply rx_ok_frame.
Defined.

(** ** The descriptor that is written back *)

Lemma status_form L last id :
  0 ≤ L < 2 ^ 14 → -1 ≤ id < 4 →
  ∃ low, 0 ≤ low < 2 ^ 38 ∧ Z.testbit low EOF_SHIFT = last ∧
    status_error_len L last id = Z.lor (L * 2 ^ LENGTH_PBUF_SHIFT) low.
Proof.
  intros HL Hid. unfold status_error_len. rewrite (Z.shiftl_mul_pow2 L) by done.
  rewrite (wrap_id 64) by (unfold fits, LENGTH_PBUF_SHIFT; lia).
  set (x := L * _). destruct last; [|exists 1; by rewrite (Z.lor_comm _ x)].
  assert (id = -1 ∨ id = 0 ∨ id = 1 ∨ id = 2 ∨ id = 3) as [->|[->|[->|[->| ->]]]] by lia;
    cbn [Z.leb Z.compare]; rewrite (Z.lor_comm _ x), <- !Z.lor_assoc;
    match goal with |- ∃ low, _ ∧ _ ∧ Z.lor x ?l = _ => exists l end;
    clearbody x; (split; [|split; [|done]]); by vm_compute.
Qed.

Lemma status_fits L last id :
  0 ≤ L < 2 ^ 14 → -1 ≤ id < 4 → fits 64 (status_error_len L last id).
Proof.
  intros HL Hid. destruct (status_form L last id HL Hid) as (low & Hlow & _ & ->).
  apply lor_fits; unfold fits, LENGTH_PBUF_SHIFT; lia.
Qed.

(** The driver reads back the length and whether the packet ends. *)
Lemma status_decode L last id :
  0 ≤ L < 2 ^ 14 → -1 ≤ id < 4 →
  bits (status_error_len L last id) LENGTH_PBUF_SHIFT 14 = L ∧
  Z.testbit (status_error_len L last id) EOF_SHIFT = last.
Proof.
  intros HL Hid. destruct (status_form L last id HL Hid) as (low & Hlow & Hb & ->). split.
  - unfold bits. rewrite lor_disjoint, Z.shiftr_div_pow2, Z.land_ones by done.
    rewrite Z.div_add_l, Z.div_small, Z.add_0_r by (done || lia). by apply Z.mod_small.
  - rewrite Z.lor_spec, Hb, <- Z.shiftl_mul_pow2 by done. by rewrite Z.shiftl_spec_low.
Qed.

Lemma length_wb_desc n st : (16 ≤ n)%nat → length (wb_desc n st) = n.
Proof. intros. unfold wb_desc. rewrite !length_app, !length_replicate, length_le. lia. Qed.

Lemma field_wb_desc n st : fits 64 st → field (wb_desc n st) 8 8 = st.
Proof.
  intros. unfold wb_desc, field. rewrite slice_app_r by (rewrite length_replicate; lia).
  rewrite length_replicate, Nat.sub_diag. unfold slice. rewrite drop_0, take_app_length' by (by rewrite length_le).
  by apply le_val_le_fits with (w := 64).
Qed.

(** ** A packet *)

(** Contexts keep their states. *)
Definition same_states s s' : Prop :=
  ∀ p c c', is_pos p → ctx s p = Some c → ctx s' p = Some c' → state c' = state c.

Lemma proc_step_refl s s' :
  full s → NoDup (writes s) → que s' = que s → issued s' = issued s → log s' = log s →
  proc_step s s' ∧ same_states s s'.
Proof.
  intros Hf Hnd Eq Ei El. assert (∀ p, ctx s' p = ctx s p) as Ec by (intros; unfold ctx; by rewrite Eq).
  split.
  - unfold proc_step, full. rewrite Eq, Ei, El. split; [by destruct (que s)|]. split; [done|].
    split; [done|]. split.
    + exists []. rewrite app_nil_r. split; [done|]. by split; [constructor|].
    + intros p c _ Hc. exists c. rewrite Ec. auto.
  - intros p c c' _. rewrite Ec. congruence.
Qed.

Lemma proc_step_trans s1 s2 s3 :
  full s1 → proc_step s1 s2 → same_states s1 s2 → proc_step s2 s3 → same_states s2 s3 →
  proc_step s1 s3 ∧ same_states s1 s3.
Proof.
  intros Hf (Q1 & F1 & L1 & (e1 & I1 & A1 & N1) & C1) S1 (Q2 & F2 & L2 & (e2 & I2 & A2 & N2) & C2) S2.
  assert (same_states s1 s3) as S3.
  { intros p c c' Hp Hc Hc'. destruct (C1 p c Hp Hc) as (c2 & Hc2 & _).
    rewrite (S2 p c2 c' Hp Hc2 Hc'). by eapply S1. }
  split; [|done]. split; [by rewrite Q2, Q1|]. split; [done|]. split; [congruence|]. split.
  - exists (e1 ++ e2). rewrite I2, I1, app_assoc. split; [done|].
    split; [|by rewrite <- I1, <- I2]. apply Forall_app. split; [|done].
    eapply Forall_impl; [exact A1|]. intros op (p & a & d & -> & Hp & c & Hc & Hst).
    exists p, a, d. split; [done|]. split; [done|].
    destruct (C2 p c Hp Hc) as (c' & Hc' & _). exists c'. split; [done|].
    by rewrite (S2 p c c').
  - intros p c Hp Hc. destruct (C1 p c Hp Hc) as (c2 & Hc2 & H2).
    destruct (C2 p c2 Hp Hc2) as (c3 & Hc3 & H3). exists c3. split; [done|].
    pose proof (S1 p c c2 Hp Hc Hc2) as E1. pose proof (S2 p c2 c3 Hp Hc2 Hc3) as E2.
    destruct H3 as [->|(St & Ix & Dl & _)]; [destruct H2 as [->|(? & ? & ? & _)]|].
    + by left.
    + right. split_and!; [done..|]. left. congruence.
    + right. destruct H2 as [->|(? & ? & ? & _)]; split_and!; try congruence; left; congruence.
Qed.

(** The buffer address of the descriptor at [p]. *)
Definition buffer s (p : Z) : Z :=
  match ctx s p with Some c => field (desc c) 0 8 | None => 0 end.

(** What taking the first descriptor of [dcache] for [part] does. *)
Record delivered s (pos : Z) (dc : list Z) (f : fill) s' : Prop := Delivered {
  del_proc : proc_step s s';
  del_states : same_states s s';
  del_ok : rx_ok s';
  del_sub : sub s' = add_fill (set_dcache (sub s) dc) f;
  del_issued : issued s' = issued s ++ [dma_data_wb pos (buffer s pos) (f_data f)];
  del_other : ∀ p, is_pos p → p ≠ pos → ctx s' p = ctx s p;
  del_here : ∃ c, ctx s' pos = Some c ∧ desc c = f_desc f
}.

Lemma deliver_one s pos dc part last id :
  full s → rx_ok s → dcache (sub s) = pos :: dc →
  ∃ s' i n, (16 ≤ n)%nat ∧
    ctx_packet_received (update s (set_dcache (sub s) dc)) pos part last id = inr s' ∧
    delivered s pos dc
      (MkFill i (wb_desc n (status_error_len (Z.of_nat (length part)) last id)) part) s'.
Proof.
  intros Hf (Hnd & Hpc & Hw & idxs & Hall & Hlog) Hdc. rewrite Hdc in Hnd, Hpc, Hall.
  apply Forall2_cons_inv_l in Hall as (i & idxs' & Hpos & Hall & ->).
  pose proof Hpos as (Hp & c & Hc & Hst & Hi & Hlen).
  unfold ctx_packet_received. rewrite (get_ctx (update _ _) pos c Hc). cbn [mbind sum_bind].
  set (d := wb_desc _ _). set (c1 := MkCtx _ _ d _).
  assert (length d = length (desc c)) as Hd by (apply length_wb_desc; lia).
  set (s' := data_write _ _ _ _).
  exists s', i, (length (desc c)). split; [lia|]. split; [done|]. rewrite <- Hi. fold d.
  assert (∀ p, is_pos p → ctx s' p = if decide (pos = p) then Some c1 else ctx s p) as Hc'.
  { intros p Hpp. by apply (ctx_put s pos p c1). }
  assert (writes s' = writes s ++ [pos]) as Hw'.
  { cbn [s' issued data_write IssueDma update put with_que]. by rewrite bind_snoc. }
  apply NoDup_app in Hnd as ([Hn1 Hn2]%NoDup_cons & Hn3 & Hn4).
  assert (pos ∉ writes s) as Hnw by (apply Hn3; left).
  assert (NoDup (writes s')) as Hnd'.
  { rewrite Hw'. apply NoDup_app. split; [done|]. split; [|apply NoDup_singleton].
    intros p Hin ->%list_elem_of_singleton. done. }
  assert (∀ p j, p ≠ pos → held s p j → held s' p j) as Hheld.
  { intros p j Hne Hh. eapply held_frame; [|exact Hh]. intros c0 Hc0 _.
    rewrite Hc' by apply Hh. by rewrite decide_False. }
  split; [| | |done|by unfold buffer; rewrite Hc|by intros p Hpp Hne; rewrite Hc', decide_False|
    by exists c1; rewrite Hc', decide_True].
  - split; [done|]. split; [by apply (full_put s pos c1)|]. split; [done|]. split.
    + eexists [_]. split; [done|]. split; [|done]. constructor; [|done]. do 3 eexists.
      split; [done|]. split; [done|]. exists c1. by rewrite Hc', decide_True.
    + intros p c0 Hpp Hc0. rewrite Hc' by done. case_decide as E; [subst p|by eexists; eauto].
      change (ctx (update s (set_dcache (sub s) dc)) pos) with (ctx s pos) in Hc0. simplify_eq.
      exists c1. split; [done|]. right. split_and!; [done..|by left].
  - intros p c0 c0' Hpp Hc0. rewrite Hc' by done. case_decide; [|congruence]. subst p.
    intros [= <-]. by simplify_eq.
  - split; [|split; [|split]].
    + rewrite Hw'. cbn [s' sub data_write IssueDma update put with_que add_fill set_dcache dcache].
      apply NoDup_app. split; [done|]. rewrite <- Hw'. split; [|done].
      intros p Hin. rewrite Hw'. intros [?| ->%list_elem_of_singleton]%elem_of_app; [|done].
      eapply Hn3; [by right|done].
    + intros p Hpp (c0 & Hc0 & Hst0). rewrite Hw', elem_of_app, list_elem_of_singleton.
      cbn [s' sub data_write IssueDma update put with_que add_fill set_dcache dcache].
      destruct (decide (pos = p)) as [->|Hne]; [by right; right|]. rewrite Hc', decide_False in Hc0 by done.
      destruct (Hpc p Hpp) as [Hin|?]; [by exists c0| |by right; left].
      apply elem_of_cons in Hin as [?|?]; [done|by left].
    + intros p. rewrite Hw'. intros [Hin|Hin]%elem_of_app.
      * destruct (Hw p Hin) as [j Hj]. exists j. apply Hheld; [by intros ->|done].
      * apply list_elem_of_singleton in Hin as ->. exists (index c). split; [done|]. exists c1.
        rewrite Hc', decide_True by done. split_and!; [done..|]. change (desc c1) with d. lia.
    + exists idxs'. split.
      * eapply Forall2_impl_elem; [exact Hall|]. intros p j Hin. apply Hheld. by intros ->.
      * cbn [s' sub log data_write IssueDma update put with_que add_fill set_dcache fills].
        rewrite Hlog, fmap_app, <- app_assoc. cbn. by rewrite Hi.
Qed.

Lemma reassemble_one i n L last id part fs acc :
  (16 ≤ n)%nat → L = Z.of_nat (length part) → L < 2 ^ 14 → -1 ≤ id < 4 →
  reassemble acc (MkFill i (wb_desc n (status_error_len L last id)) part :: fs) =
  if last then let '(ps, rest) := reassemble [] fs in ((acc ++ part) :: ps, rest)
  else reassemble (acc ++ part) fs.
Proof.
  intros Hn HL HL' Hid. cbn [reassemble f_desc f_data].
  rewrite field_wb_desc by (apply status_fits; lia).
  destruct (status_decode L last id) as [-> ->]; [lia|done|].
  by rewrite HL, Nat2Z.id, firstn_all.
Qed.

(** What a packet [pkt] that takes [n] descriptors leaves behind. *)
Record received s (pkt : bytes) (n : nat) s' (fs : list fill) : Prop := Received {
  rec_proc : proc_step s s';
  rec_states : same_states s s';
  rec_ok : rx_ok s';
  rec_dbuff : dbuff_size (sub s') = dbuff_size (sub s);
  rec_fills : fills (sub s') = fills (sub s) ++ fs;
  rec_dcache : dcache (sub s') = drop n (dcache (sub s));
  rec_count : length fs = n;
  rec_issued : issued s' = issued s ++
    zip_with (λ p f, dma_data_wb p (buffer s p) (f_data f)) (take n (dcache (sub s))) fs;
  rec_parts : Forall (λ f, Z.of_nat (length (f_data f)) ≤ dbuff_size (sub s)) fs;
  rec_data : ∀ acc tl, reassemble acc (fs ++ tl) =
    let '(ps, rest) := reassemble [] tl in ((acc ++ pkt) :: ps, rest)
}.

Lemma fill_descs_spec id n : ∀ s rest,
  full s → rx_ok s → (n < length (dcache (sub s)))%nat → -1 ≤ id < 4 →
  0 < dbuff_size (sub s) < 2 ^ 14 →
  Z.of_nat n * dbuff_size (sub s) < Z.of_nat (length rest) ≤ Z.of_nat (S n) * dbuff_size (sub s) →
  ∃ s' fs, fill_descs s rest id (S n) = inr s' ∧ received s rest (S n) s' fs.
Proof.
  induction n as [|n IH]; intros s rest Hf Hok Hn Hid Hdb Hlen;
    (destruct (dcache (sub s)) as [|pos dc] eqn:Hdc; [cbn in Hn; lia|]);
    cbn [fill_descs]; rewrite Hdc.
  - destruct (deliver_one s pos dc rest true id Hf Hok Hdc) as (s' & i & m & Hm & -> & [D1 D2 D3 D4 D5 _ _]).
    eexists s', [_]. split; [done|]. split; try done.
    + by rewrite D4.
    + by rewrite D4.
    + by rewrite D4, Hdc.
    + by rewrite Hdc, D5.
    + constructor; [cbn; lia|done].
    + intros acc tl. cbn [app]. by rewrite reassemble_one by lia.
  - set (db := Z.to_nat _). cbn [sub update set_dcache dbuff_size] in db.
    destruct (deliver_one s pos dc (take db rest) false (-1) Hf Hok Hdc)
      as (s1 & i & m & Hm & -> & [D1 D2 D3 D4 D5 D6 _]). cbn [mbind sum_bind].
    assert (full s1) as Hf1 by apply D1. assert (length (take db rest) = db) as Hdl.
    { rewrite length_take. unfold db. lia. }
    destruct (IH s1 (drop db rest)) as (s' & fs & E & [R1 R2 R3 R0 R4 R5 R6 R7 R8 R9]);
      [done|done|rewrite D4; cbn in Hn |- *; lia|done|by rewrite D4| |].
    { rewrite D4, length_drop. cbn [add_fill set_dcache dbuff_size]. unfold db. lia. }
    exists s', (MkFill i (wb_desc m (status_error_len (Z.of_nat (length (take db rest))) false (-1)))
                  (take db rest) :: fs). split; [exact E|].
    destruct (proc_step_trans s s1 s' Hf D1 D2 R1 R2) as [P1 P2].
    rewrite D4 in R0, R4, R5, R7, R8.
    cbn [add_fill set_dcache dcache fills dbuff_size] in R0, R4, R5, R7, R8.
    split; try done.
    + by rewrite R4, <- app_assoc.
    + by rewrite R5, Hdc.
    + cbn [length]. by rewrite R6.
    + rewrite R7, D5, Hdc, <- app_assoc. cbn [app take zip_with f_data]. do 2 f_equal.
      assert (∀ p, p ∈ take (S n) dc → buffer s1 p = buffer s p) as Hb.
      { intros p Hin. unfold buffer. destruct Hok as (Hnd & _ & _ & idxs & Hall & _).
        rewrite Hdc in Hnd, Hall. apply NoDup_app in Hnd as ([Hn1 _]%NoDup_cons & _ & _).
        apply elem_of_take in Hin as (j & Hj & _).
        rewrite D6; [done| |intros ->; apply Hn1; by eapply list_elem_of_lookup_2].
        apply Forall2_cons_inv_l in Hall as (? & ? & _ & Hall & _).
        destruct (Forall2_lookup_l _ _ _ _ _ Hall Hj) as (? & _ & Hh). apply Hh. }
      clear -Hb. revert fs Hb. induction (take (S n) dc) as [|p l IHl]; intros fs Hb; [done|].
      destruct fs as [|f fs]; [done|]. cbn. rewrite Hb by left. f_equal. apply IHl.
      intros. apply Hb. by right.
    + constructor; [cbn [f_data]; rewrite Hdl; unfold db; lia|done].
    + intros acc tl. cbn [app]. rewrite reassemble_one by (done || lia). rewrite R9.
      by rewrite <- app_assoc, take_drop.
Qed.

Lemma sample_step s pkt id s1 :
  full s → rx_ok s → sample s pkt = Some (id, s1) →
  proc_step s s1 ∧ same_states s s1 ∧ rx_ok s1 ∧ que s1 = que s ∧ issued s1 = issued s ∧
  dcache (sub s1) = dcache (sub s) ∧ fills (sub s1) = fills (sub s) ∧
  dbuff_size (sub s1) = dbuff_size (sub s) ∧ -1 ≤ id < 4.
Proof.
  intros Hf Hok E. unfold sample in E. apply bind_Some in E as (smp & _ & E).
  assert (NoDup (writes s)) as Hnd by (by destruct Hok as ((_ & _ & ?)%NoDup_app & _)).
  destruct smp.
  - destruct (rx_timestamp _) as [id' d] eqn:Et. simplify_eq.
    destruct (proc_step_refl s (update s (set_lan (sub s) (set_dev (rx_lan (sub s)) d)))) as [H1 H2];
      try done.
    split_and!; try done;
      unfold rx_timestamp in Et; destruct (list_find _ _) as [[j ?]|] eqn:Ef;
      repeat case_match; simplify_eq; try lia;
      apply list_find_Some in Ef as (Hj%lookup_lt_Some & _); rewrite length_take in Hj; lia.
  - injection E as <- <-. by destruct (proc_step_refl s s).
Qed.

Lemma num_descs_bounds (q : lan_queue_rx) (pkt : bytes) :
  0 < dbuff_size q → pkt ≠ [] →
  ∃ n, Z.to_nat (num_descs q pkt) = S n ∧ num_descs q pkt = Z.of_nat (S n) ∧
    Z.of_nat n * dbuff_size q < Z.of_nat (length pkt) ≤ Z.of_nat (S n) * dbuff_size q.
Proof.
  intros Hdb Hne. assert (0 < Z.of_nat (length pkt)) by (destruct pkt; cbn; [done|lia]).
  unfold num_descs. set (L := Z.of_nat (length pkt)) in *. set (d := dbuff_size q) in *.
  pose proof (Z.div_mod (L + d - 1) d ltac:(lia)). pose proof (Z.mod_pos_bound (L + d - 1) d Hdb).
  set (m := (L + d - 1) / d) in *. assert (0 < m) by nia.
  exists (Z.to_nat (m - 1)). split_and!; nia.
Qed.

(** Either there are too few descriptors and nothing happens, or the packet is delivered. *)
Lemma packet_received_spec s pkt :
  full s → rx_ok s → enabled (que s) = true → 0 < dbuff_size (sub s) < 2 ^ 14 → pkt ≠ [] →
  match packet_received s pkt with
  | inr s' =>
      if accepts s pkt
      then ∃ fs, received s pkt (Z.to_nat (num_descs (sub s) pkt)) s' fs
      else s' = s
  | inl f => f = Derived
  end.
Proof.
  intros Hf Hok He Hdb Hne. unfold packet_received, accepts. rewrite He. cbn [negb andb].
  destruct (Z.eqb_spec (dbuff_size (sub s)) 0) as [|_]; [lia|]. rewrite Z.leb_antisym.
  destruct (Z.ltb_spec (Z.of_nat (length (dcache (sub s)))) (num_descs (sub s) pkt)); [done|].
  cbn [negb]. destruct (sample s pkt) as [[id s1]|] eqn:Es; [|done]. cbn [or_fault mbind sum_bind].
  apply sample_step in Es as (P1 & P2 & O1 & Q1 & I1 & Dc1 & Fi1 & Db1 & Hid); [|done..].
  destruct (num_descs_bounds (sub s) pkt) as (n & En & En' & Hn); [lia|done|]. rewrite En.
  destruct (fill_descs_spec id n s1 pkt) as (s' & fs & E & R); rewrite ?Db1, ?Dc1; try done; try lia.
  { unfold full. by rewrite Q1. }
  rewrite E. exists fs. destruct R as [R1 R2 R3 R0 R4 R5 R6 R7 R8 R9].
  destruct (proc_step_trans s s1 s') as [H1 H2]; try done. rewrite Db1 in R8.
  split; try done; try congruence.
  rewrite R7, I1, Dc1. f_equal. unfold buffer, ctx. by rewrite Q1.
Qed.

(** ** Runs *)

(** The entries [fs] are the packets [ps], whatever follows. *)
Definition complete (fs : list fill) (ps : list bytes) : Prop :=
  ∀ tl, reassemble [] (fs ++ tl) = let '(qs, rest) := reassemble [] tl in (ps ++ qs, rest).

Lemma complete_app fs ps s pkt n s' gs :
  complete fs ps → received s pkt n s' gs → complete (fs ++ gs) (ps ++ [pkt]).
Proof.
  intros Hc R tl. rewrite <- app_assoc, Hc, (rec_data _ _ _ _ _ R).
  destruct (reassemble [] tl). by rewrite <- app_assoc.
Qed.

Definition rx_posted (es : list rx_event) : Z :=
  foldr (λ e n, match e with RxPost m => m | _ => 0 end + n) 0 es.

(** The engine leaves the entries filled and the buffer size alone. *)
Lemma rx_engine_keeps s e s' :
  (∀ s0, e ≠ EvDerived s0) → step s e = inr s' →
  (fills (sub s'), dbuff_size (sub s')) = (fills (sub s), dbuff_size (sub s)).
Proof.
  apply (step_keeps (λ q : lan_queue_rx, (fills q, dbuff_size q))).
  - intros p s1 s2 E. cbn in E. unfold prepared, transition in E.
    apply bind_inr in E as (c & _ & E). case_decide; by simplify_eq.
  - intros p s1 s2 E. cbn in E. unfold rx_process in E. by simplify_eq.
  - intros i p n s1 s2 E. cbn in E. unfold base_do_writeback in E.
    apply bind_inr in E as (buf & _ & E). by simplify_eq.
  - intros s1 s2 E. cbn in E. unfold lan_queue_interrupt in E.
    apply bind_inr in E as (d & _ & E). by simplify_eq.
Qed.

Section runs.
Context {N : RingLen}.

(** What holds after every event: the invariant of the engine, and the entries filled so far
    are the packets accepted so far. *)
Definition rx_inv (T : Z) (ps : list bytes) s : Prop :=
  ring_inv T s ∧ 0 < dbuff_size (sub s) < 2 ^ 14 ∧ complete (fills (sub s)) ps.

Lemma rx_engine_inv T T' ps s e :
  rx_inv T ps s → (∀ s0, e ≠ EvDerived s0) → holds (step s e) (ring_inv T') →
  holds (step s e) (rx_inv T' ps).
Proof.
  intros (_ & Hdb & Hc) He Hr. destruct (step s e) as [|s'] eqn:E; [done|].
  apply rx_engine_keeps in E as [= Ef Ed]; [|done]. cbn in Hr |- *. unfold rx_inv.
  by rewrite Ef, Ed.
Qed.

Lemma rx_packet_inv T ps s pkt :
  rx_inv T ps s → pkt ≠ [] →
  holds (packet_received s pkt) (rx_inv T (ps ++ if accepts s pkt then [pkt] else [])).
Proof.
  intros (Hr & Hdb & Hc) Hne. pose proof Hr as (h & w & k & I & Hok & _).
  pose proof (packet_received_spec s pkt (inv_full _ _ _ _ _ _ I) Hok
    (inv_enabled _ _ _ _ _ _ I) Hdb Hne) as Hp.
  destruct (packet_received s pkt) as [f|s']; [done|]. cbn [holds].
  destruct (accepts s pkt); [|by subst s'; rewrite app_nil_r].
  destruct Hp as [fs R]. unfold rx_inv. rewrite (rec_dbuff _ _ _ _ _ R), (rec_fills _ _ _ _ _ R).
  split; [|by split; [|eapply complete_app]].
  apply (derived_inv T s s' Hr). destruct R. by split.
Qed.

End runs.

(** A receive queue that has just been enabled. *)
Definition rx_start (q : queue_base) (r : lan_queue_rx) : Prop :=
  fresh q ∧ dcache r = [] ∧ fills r = [] ∧ 0 < dbuff_size r < 2 ^ 14.

Lemma rx_start_inv (q : queue_base) (r : lan_queue_rx) :
  rx_start q r → rx_inv (N := len q) 0 [] (MkQs q r [] []).
Proof.
  intros (Hq & Hdc & Hfi & Hdb). pose (N := len q : RingLen). split; [|split; [done|]].
  - apply fresh_ring_inv; [done|done|]. split; [|split; [|split]].
    + cbn. rewrite Hdc. apply NoDup_nil_2.
    + intros p _ (c & Hc & Hst). destruct Hq as (_ & Hall & _). apply list_elem_of_lookup_2 in Hc.
      rewrite Forall_forall in Hall. destruct (Hall _ Hc). congruence.
    + by intros p ?%not_elem_of_nil.
    + exists []. cbn. rewrite Hdc, Hfi. by split.
  - cbn. rewrite Hfi. intros tl. cbn. by destruct (reassemble [] tl).
Qed.

(** A packet for an enabled queue with enough descriptors takes the oldest ones, one per
    buffer: each gets a write of its part to the buffer address it was posted with, no part is
    longer than the buffer, together they are the packet, and the descriptors say so.  With too
    few descriptors nothing changes: the packet is dropped. *)
Theorem packet_scattered s pkt :
  full s → rx_ok s → enabled (que s) = true → 0 < dbuff_size (sub s) < 2 ^ 14 → pkt ≠ [] →
  let n := Z.to_nat (num_descs (sub s) pkt) in
  match packet_received s pkt with
  | inr s' =>
      if accepts s pkt then
        ∃ fs, fills (sub s') = fills (sub s) ++ fs ∧ length fs = n ∧
          dcache (sub s') = drop n (dcache (sub s)) ∧
          issued s' = issued s ++
            zip_with (λ p f, dma_data_wb p (buffer s p) (f_data f)) (take n (dcache (sub s))) fs ∧
          Forall (λ f, Z.of_nat (length (f_data f)) ≤ dbuff_size (sub s)) fs ∧
          reassemble [] fs = ([pkt], [])
      else s' = s
  | inl f => f = Derived
  end.
Proof.
  intros Hf Hok He Hdb Hne n. pose proof (packet_received_spec s pkt Hf Hok He Hdb Hne) as Hp.
  destruct (packet_received s pkt) as [f|s']; [done|]. destruct (accepts s pkt); [|done].
  destruct Hp as [fs R]. exists fs. split_and!; try apply R.
  pose proof (rec_data _ _ _ _ _ R [] []) as E. by rewrite app_nil_r in E.
Qed.

(** ** An example *)

Definition idle_dev : lan_dev :=
  MkDev 0 0 0 [0; 0; 0] [] 0 0 0 0 [false; false; false; false] [0; 0; 0; 0] 0
    (I40ePtp.ptp.MkPtp 0 0 0 0 false 0) [] false 0 [].

Definition idle_rx : lan_queue_rx :=
  MkRx (MkLanQ idle_dev false 0 1 0 0 32) 128 0 0 true [] [].

Definition ring_64 : queue_base :=
  MkQueue (replicate 128 (MkCtx DESC_EMPTY 0 (replicate 32 0) [])) 0 0 0 4096 64 0 0 true 16.

Lemma ring_64_fresh : fresh ring_64.
Proof.
  split; [done|]. split; [by apply Forall_replicate|]. repeat (split; [done|]). by exists 6.
Qed.

(** A queue that holds one descriptor, and a packet for it. *)
Definition rx_waiting : qstate lan_queue_rx :=
  MkQs (set_ctxs ring_64 (<[0%nat := MkCtx DESC_PROCESSING 5 (replicate 32 9) []]> (desc_ctxs ring_64)))
       (set_dcache idle_rx [0]) [] [5].

Lemma packet_scattered_witness :
  accepts rx_waiting [1; 2; 3] = true ∧
  match packet_received rx_waiting [1; 2; 3] with
  | inr s' =>
      if accepts rx_waiting [1; 2; 3] then
        ∃ fs, fills (sub s') = fills (sub rx_waiting) ++ fs ∧ length fs = 1%nat ∧
          dcache (sub s') = drop 1 (dcache (sub rx_waiting)) ∧
          issued s' = issued rx_waiting ++
            zip_with (λ p f, dma_data_wb p (buffer rx_waiting p) (f_data f))
              (take 1 (dcache (sub rx_waiting))) fs ∧
          Forall (λ f, Z.of_nat (length (f_data f)) ≤ dbuff_size (sub rx_waiting)) fs ∧
          reassemble [] fs = ([[1; 2; 3]], [])
      else s' = rx_waiting
  | inl f => f = Derived
  end.
Proof.
  split; [done|]. apply (packet_scattered rx_waiting [1; 2; 3]); [done| |done|done|done].
  split; [|split; [|split]].
  - apply NoDup_singleton.
  - intros p Hp (c & Hc & Hst). destruct (decide (p = 0)) as [->|Hne]; [by left; left|exfalso].
    unfold ctx in Hc. cbn [que rx_waiting set_ctxs desc_ctxs] in Hc. rewrite list_lookup_insert_ne in Hc by lia.
    apply list_elem_of_lookup_2 in Hc. cbn [ring_64 desc_ctxs] in Hc. apply elem_of_replicate in Hc as [-> _]. done.
  - by intros p ?%not_elem_of_nil.
  - exists [5]. split; [|done]. constructor; [|constructor]. split; [done|].
    eexists. split; [done|]. done.
Defined.

End rx.
