(* ===== verification/I40eRxMem.v ===== *)
(** * What the host sees of a receive queue

    Over I40eRx.v: the writes a receive queue passes to the DMA engine, and what a driver makes
    of them.  Packet data goes to the buffers in the order they were posted, descriptors go back
    to their own ring entries, in order and not before the data, and what a driver reassembles
    from the written descriptors and buffers is the packets that were accepted. *)

From S2P Require Import Prelude I40ePtp I40eXsum I40eHmc I40eQueue I40eQueueInv I40eQueueRun I40eLan I40eRx.

Module rx_mem.
Import queue queue_inv queue_run lan rx.

Implicit Types s : qstate lan_queue_rx.

(** ** The operations issued *)

(** Those in flight before an event has had its effect. *)
Definition in_flight s (e : rx_event) : list dma_op :=
  match e with RxDone i _ => delete i (issued s) | _ => issued s end.

(** The operations passed to [IssueDma] in a run, in order. *)
Fixpoint rx_trace s (es : list rx_event) : list dma_op :=
  match es with
  | [] => []
  | e :: es =>
      match rx_step s e with
      | inr s' => drop (length (in_flight s e)) (issued s') ++ rx_trace s' es
      | inl _ => []
      end
  end.

(** The writes of packet data: address and bytes. *)
Definition data_writes (ops : list dma_op) : list (Z * bytes) :=
  omap (λ op, match op with dma_data_wb _ a d => Some (a, d) | _ => None end) ops.

(** The descriptors of [dl] bytes in a write of [d] to [a]. *)
Definition split_descs (dl a : Z) (d : bytes) : list (Z * bytes) :=
  (λ j, (a + j * dl, slice d (Z.to_nat (j * dl)) (Z.to_nat dl))) <$> seqZ 0 (Z.of_nat (length d) / dl).

(** The descriptors written back, one by one. *)
Definition desc_writes (dl : Z) (ops : list dma_op) : list (Z * bytes) :=
  ops ≫= λ op, match op with dma_wb _ a d => split_descs dl a d | _ => [] end.

(** What the driver finds: each descriptor that was written back, with what was written to its
    buffer. *)
Definition driver_view (D W : list (Z * bytes)) : list fill :=
  zip_with (λ d w, MkFill d.1 d.2 w.2) D W.

(** ** The host's side *)

(** The content of ring entry [e] after [T] descriptors were posted, [ring n] being the [n]-th:
    the one last posted to it. *)
Definition ring_entry (ring : Z → bytes) (len T e : Z) : bytes := ring (T - 1 - (T - 1 - e) mod len).

(** A read of descriptors returns what the driver has posted. *)
Definition read_ok (ring : Z → bytes) (T : Z) (q : queue_base) (op : dma_op) (payload : bytes) : Prop :=
  match op with
  | dma_fetch _ a l =>
      ∀ j, 0 ≤ j < l / desc_len q →
        slice payload (Z.to_nat (j * desc_len q)) (Z.to_nat (desc_len q)) =
        ring_entry ring (len q) T ((a - base q) / desc_len q + j)
  | _ => True
  end.

(** A packet long enough for what the device reads of it: with time stamping enabled, the PTP
    header. *)
Definition packet_ok s (pkt : bytes) : Prop :=
  pkt ≠ [] ∧
  (Z.land (prtsyn_ctl_1 (dev (rx_lan (sub s)))) (Z.shiftl 1 31) = 0 ∨ (63 ≤ length pkt)%nat).

Definition host_event (ring : Z → bytes) (T : Z) s (e : rx_event) : Prop :=
  match e with
  | RxPost n => valid_event s (EvPost n)
  | RxDone i payload =>
      valid_event s (EvDone i payload) ∧
      ∀ op, issued s !! i = Some op → read_ok ring T (que s) op payload
  | RxPacket pkt => packet_ok s pkt
  end.

Definition posts (e : rx_event) : Z := match e with RxPost n => n | _ => 0 end.

Fixpoint host_run (ring : Z → bytes) (T : Z) s (es : list rx_event) : Prop :=
  match es with
  | [] => True
  | e :: es =>
      host_event ring T s e ∧
      match rx_step s e with inr s' => host_run ring (T + posts e) s' es | inl _ => True end
  end.

(** The ring lies in the address space. *)
Definition ring_fits (ring : Z → bytes) (q : queue_base) : Prop :=
  0 ≤ base q ∧ base q + len q * desc_len q ≤ 2 ^ 64 ∧ ∀ n, Z.of_nat (length (ring n)) = desc_len q.

(** ** Descriptors in the contexts *)

Definition dctx {S} (s : qstate S) (p : Z) : option bytes := (desc <$> desc_ctxs (que s)) !! Z.to_nat p.

Lemma dctx_ctx {S} (s : qstate S) p c : ctx s p = Some c → dctx s p = Some (desc c).
Proof. intros Hc. unfold dctx. rewrite list_lookup_fmap. unfold ctx in Hc. by rewrite Hc. Qed.

Lemma ctx_dctx {S} (s : qstate S) p d : dctx s p = Some d → ∃ c, ctx s p = Some c ∧ desc c = d.
Proof.
  unfold dctx. rewrite list_lookup_fmap. intros (c & Hd & Hc)%fmap_Some. by exists c.
Qed.

(** The contexts have changed, but not their descriptors. *)
Record retouched {S} (s s' : qstate S) : Prop := {
  rt_que : que s' = set_ctxs (que s) (desc_ctxs (que s'));
  rt_desc : desc <$> desc_ctxs (que s') = desc <$> desc_ctxs (que s);
  rt_sub : sub s' = sub s;
  rt_issued : issued s' = issued s;
}.

Lemma retouched_refl {S} (s : qstate S) : retouched s s.
Proof. split; try done. by destruct (que s). Qed.

Lemma retouched_trans {S} (s1 s2 s3 : qstate S) : retouched s1 s2 → retouched s2 s3 → retouched s1 s3.
Proof. intros [Q1 D1 S1 I1] [Q2 D2 S2 I2]. split; try congruence. by rewrite Q2, Q1. Qed.

Lemma retouched_put {S} (s : qstate S) p c c' : get s p = inr c → desc c' = desc c → retouched s (put s p c').
Proof.
  intros Hg Hd. split; try done. unfold get in Hg. destruct (ctx s p) as [c0|] eqn:Hc; [|done]. cbn in Hg. simplify_eq.
  cbn [que put with_que set_ctxs desc_ctxs]. rewrite list_fmap_insert, Hd. apply list_insert_id.
  rewrite list_lookup_fmap. unfold ctx in Hc. by rewrite Hc.
Qed.

Lemma get_inr {S} (s : qstate S) p c : get s p = inr c → ctx s p = Some c.
Proof. unfold get. destruct (ctx s p); cbn; congruence. Qed.

Lemma mark_fetching_retouched {S} a x n : ∀ (s s' : qstate S) i, mark_fetching s a x i n = inr s' → retouched s s'.
Proof.
  induction n as [|n IH]; intros s s' i E; cbn [mark_fetching] in E; [simplify_eq; apply retouched_refl|].
  apply bind_inr in E as (c & Hg & E). destruct (decide _); [|done]. apply IH in E.
  eapply retouched_trans; [|exact E]. by eapply retouched_put.
Qed.

Lemma mark_all_retouched {S} a from to n : ∀ (s s' : qstate S) i, mark_all s a from to i n = inr s' → retouched s s'.
Proof.
  induction n as [|n IH]; intros s s' i E; cbn [mark_all] in E; [simplify_eq; apply retouched_refl|].
  apply bind_inr in E as (c & Hg & E). destruct (match from with Some _ => _ | None => _ end); [|done]. apply IH in E.
  eapply retouched_trans; [|exact E]. by eapply retouched_put.
Qed.

Lemma free_written_retouched {S} n : ∀ (s s' : qstate S) i k, free_written s i n = inr (s', k) → retouched s s'.
Proof.
  induction n as [|n IH]; intros s s' i k E; cbn [free_written] in E; [simplify_eq; apply retouched_refl|].
  apply bind_inr in E as (c & Hg & E). destruct (decide _); [|simplify_eq; apply retouched_refl]. apply IH in E.
  eapply retouched_trans; [|exact E]. by eapply retouched_put.
Qed.

Lemma transition_retouched {S} (s s' : qstate S) p from to : transition s p from to = inr s' → retouched s s'.
Proof.
  unfold transition. intros (c & Hg & E)%bind_inr. destruct (decide _); [|done]. simplify_eq. by eapply retouched_put.
Qed.

(** The same, for receive queues, when the entries filled stay. *)
Record worked s s' : Prop := {
  wk_que : que s' = set_ctxs (que s) (desc_ctxs (que s'));
  wk_desc : desc <$> desc_ctxs (que s') = desc <$> desc_ctxs (que s);
  wk_fills : fills (sub s') = fills (sub s);
  wk_issued : issued s' = issued s;
}.

Lemma worked_retouched s s' : retouched s s' → worked s s'.
Proof. intros [? ? Hs ?]. split; try done. by rewrite Hs. Qed.

Lemma worked_trans s1 s2 s3 : worked s1 s2 → worked s2 s3 → worked s1 s3.
Proof. intros [Q1 D1 S1 I1] [Q2 D2 S2 I2]. split; try congruence. by rewrite Q2, Q1. Qed.

Lemma run_prepared_worked n : ∀ s s' k, run_prepared s k n = inr s' → worked s s'.
Proof.
  induction n as [|n IH]; intros s s' k E; cbn [run_prepared] in E; destruct (_ <? _); try done;
    try (simplify_eq; apply worked_retouched, retouched_refl).
  apply bind_inr in E as (c & Hg & E). destruct (decide _); [|simplify_eq; apply worked_retouched, retouched_refl].
  cbn in E. apply IH in E. eapply worked_trans; [|exact E].
  eapply worked_trans; [apply worked_retouched; by eapply (retouched_put s _ c (set_state c DESC_PROCESSING))|].
  split; done.
Qed.

Lemma trigger_process_worked s s' : trigger_process s = inr s' → worked s s'.
Proof.
  unfold trigger_process. destruct (negb _); [intros; simplify_eq; apply worked_retouched, retouched_refl|].
  intros (i & _ & E)%bind_inr. by eapply run_prepared_worked.
Qed.

(** ** Numbers and positions *)

(** The [n]-th descriptor is at position [n mod 128]. *)
Lemma off_number h n : 0 ≤ n - h < 128 → off (h mod 128) (n mod 128) = n - h.
Proof. intros. unfold off. rewrite <- Zminus_mod. by apply Z.mod_small. Qed.

Lemma number_off h p : is_pos p → (h + off (h mod 128) p) mod 128 = p.
Proof. intros. unfold off. Z.div_mod_to_equations. lia. Qed.

Lemma number_inj n n' : n mod 128 = n' mod 128 → -128 < n - n' < 128 → n = n'.
Proof. intros. Z.div_mod_to_equations. lia. Qed.

Lemma ring_pos_number n j : 0 ≤ j ≤ 128 → ring_pos (n mod 128) j = (n + j) mod 128.
Proof. intros. pose proof (Z.mod_pos_bound n 128). rewrite ring_pos_mod by lia. apply Zplus_mod_idemp_l. Qed.

(** Consecutive numbers that do not wrap around in the ring. *)
Lemma mod_add_small n j len : 0 < len → 0 ≤ j → n mod len + j < len → (n + j) mod len = n mod len + j.
Proof. intros. pose proof (Z.mod_pos_bound n len). rewrite <- Zplus_mod_idemp_l. apply Z.mod_small. lia. Qed.

(** ** The invariant *)

Section content.
Context {N : RingLen} (ring : Z → bytes) (B dl : Z).
Context (Hdl : 16 ≤ dl) (HB : 0 ≤ B) (HBl : B + ring_len * dl ≤ 2 ^ 64) (Hring : ∀ n, Z.of_nat (length (ring n)) = dl).

(** The address of the [n]-th descriptor. *)
Definition entry_addr (n : Z) : Z := B + n mod ring_len * dl.

(** The operations of a receive queue. *)
Definition rx_op (op : dma_op) : Prop :=
  match op with dma_data_fetch _ _ _ _ _ | dma_hwb _ _ _ _ => False | _ => True end.

(** [h] descriptors are freed and [w] being written back; [O] are the operations in flight and
    [tr] all that were issued. *)
Record content (h w : Z) (O tr : list dma_op) s : Prop := {
  ct_base : base (que s) = B;
  ct_dl : desc_len (que s) = dl;
  ct_pos : active_first_pos (que s) = h mod 128;
  ct_le : 0 ≤ h ∧ 0 ≤ w ∧ h + w ≤ Z.of_nat (length (fills (sub s)));
  (** fetched and not yet filled *)
  ct_posted n d : Z.of_nat (length (fills (sub s))) ≤ n < h + active_cnt (que s) →
    dctx s (n mod 128) = Some d → n mod 128 ∉ O ≫= fetch_pos dl → take (Z.to_nat dl) d = ring n;
  (** filled and not yet freed *)
  ct_filled i f d : fills (sub s) !! i = Some f → h ≤ Z.of_nat i →
    dctx s (Z.of_nat i mod 128) = Some d → d = f_desc f;
  ct_fetch p a l : dma_fetch p a l ∈ O →
    ∃ n m, p = n mod 128 ∧ l = dl * m ∧ 0 < m ∧ h ≤ n ∧ n + m ≤ h + active_cnt (que s) ∧
      n mod ring_len + m ≤ ring_len ∧ a = entry_addr n;
  ct_ops : Forall rx_op O;
  ct_data : data_writes tr = imap (λ i f, (field (ring (Z.of_nat i)) 0 8, f_data f)) (fills (sub s));
  ct_wb : desc_writes dl tr =
    imap (λ i f, (entry_addr (Z.of_nat i), take (Z.to_nat dl) (f_desc f))) (take (Z.to_nat (h + w)) (fills (sub s)));
}.

(** Only what the invariant speaks of matters. *)
Lemma content_frame h w O tr s s' :
  content h w O tr s → base (que s') = base (que s) → desc_len (que s') = desc_len (que s) →
  active_first_pos (que s') = active_first_pos (que s) → active_cnt (que s') = active_cnt (que s) →
  desc <$> desc_ctxs (que s') = desc <$> desc_ctxs (que s) → fills (sub s') = fills (sub s) → content h w O tr s'.
Proof using All.
  intros [] E1 E2 E3 E4 E5 E6. split; unfold dctx; rewrite ?E1, ?E2, ?E3, ?E4, ?E5, ?E6; try done.
Qed.

Lemma content_worked h w O tr s s' : content h w O tr s → worked s s' → content h w O tr s'.
Proof using All.
  intros C [Q D F _]. eapply content_frame; try done; rewrite Q; done.
Qed.

(** Operations other than fetches come and go. *)
Lemma content_ops h w O O' tr s :
  content h w O tr s → (∀ p, p ∈ O ≫= fetch_pos dl → p ∈ O' ≫= fetch_pos dl) →
  (∀ p a l, dma_fetch p a l ∈ O' → dma_fetch p a l ∈ O) → Forall rx_op O' → content h w O' tr s.
Proof using All.
  intros [] E Hsub Hk. split; try done; [|intros p a l Hin; eauto]. intros n d Hn Hd Hnin. eauto.
Qed.

Lemma content_perm h w O O' tr s : O ≡ₚ O' → content h w O tr s → content h w O' tr s.
Proof using All.
  intros HO C. eapply content_ops; [exact C| | |rewrite <- HO; apply C]; intros *; by rewrite HO.
Qed.

(** *** Fetching *)

(** A fetch does not run past the end of the ring. *)
Lemma fetch_count_end T h O s w k :
  inv T h O s w k → (h + active_cnt (que s)) mod ring_len + fetch_count (que s) ≤ ring_len.
Proof using All.
  intros I. pose proof (fetch_count_spec _ _ _ _ _ _ I) as (HF & _ & H128 & _).
  destruct I as [_ _ [Hl Hd] _ _ (Hc1 & Hc2 & El) [Hh Hi] [Ht HT] _ _ _ _ _]. rewrite <- El in *.
  pose proof (Z.mod_pos_bound (h + active_cnt (que s)) (len (que s))) as Hm.
  revert HF H128. unfold fetch_count. rewrite Hi, ring_add by lia.
  set (next := (h + _) mod _) in *. cbn zeta. set (n := _ `min` max_fetch_capacity).
  intros HF H128. destruct (Z.ltb_spec (len (que s)) (u32 (next + n))) as [Hlt|Hge].
  - rewrite (wrap_id 32) by (unfold fits; lia). lia.
  - rewrite (wrap_id 32) in Hge; [lia|unfold fits]. lia.
Qed.

Lemma trigger_fetch_content T h w k tr s s' :
  inv T h (issued s) s w k → content h w (issued s) tr s → trigger_fetch s = inr s' →
  ∃ new, issued s' = issued s ++ new ∧ content h w (issued s') (tr ++ new) s'.
Proof using All.
  intros I C E. pose proof (fetch_count_spec _ _ _ _ _ _ I) as (HF & HT & H128 & _).
  pose proof (fetch_count_end _ _ _ _ _ _ I) as Hend. unfold trigger_fetch in E.
  destruct (negb _); [simplify_eq; exists []; by rewrite !app_nil_r|].
  destruct (len (que s) =? 0); [done|]. destruct (Z.eqb_spec (fetch_count (que s)) 0) as [|Hne]; [simplify_eq; exists []; by rewrite !app_nil_r|].
  apply bind_inr in E as (s1 & E1 & E). apply mark_fetching_retouched in E1 as [Q1 D1 S1 I1].
  injection E as <-. pose proof I as [_ _ [Hl _] _ _ (Hw & Hc & El) [Hh Hi] _ _ _ _ _ _].
  cbn [issued IssueDma with_que]. rewrite I1. eexists. split; [done|].
  set (F := fetch_count (que s)) in *. set (cnt := active_cnt (que s)) in *.
  destruct C as [C1 C2 C3 C4 C5 C6 C7 Co C8 C9]. rewrite Hi, ring_add by lia. rewrite El.
  assert (active_cnt (que s1) = cnt ∧ base (que s1) = B ∧ desc_len (que s1) = dl ∧ active_first_pos (que s1) = h mod 128)
    as (A1 & A2 & A3 & A4) by (rewrite Q1; done).
  rewrite A1, A2, A3, C3, ring_pos_number by lia. rewrite (wrap_id 32) by (unfold fits; lia).
  assert (0 < ring_len) as HN by lia. pose proof (Z.mod_pos_bound (h + cnt) ring_len HN) as Hm.
  assert (0 ≤ (h + cnt) mod ring_len * dl < ring_len * dl) as Hoff by nia.
  rewrite (wrap_id 64) by (unfold fits; lia).
  split; cbn [que sub issued IssueDma with_que set_active base desc_len active_first_pos active_cnt desc_ctxs]; try done; rewrite ?S1; try done.
  - intros n d Hn Hd Hnin. apply (C5 n d).
    + rewrite bind_app, not_elem_of_app in Hnin. destruct Hnin as [_ Hnin]. split; [lia|].
      destruct (decide (n < h + cnt)) as [|Hge]; [done|exfalso]. apply Hnin. cbn. rewrite app_nil_r.
      apply list_elem_of_fmap. exists (n - (h + cnt)). rewrite Z.mul_comm, Z.div_mul by lia.
      rewrite ring_pos_number by lia. split; [f_equal; lia|]. apply elem_of_seqZ. lia.
    + unfold dctx in Hd. cbn in Hd. by rewrite D1 in Hd.
    + intros Hin. apply Hnin. rewrite bind_app. apply elem_of_app. by left.
  - intros i f d Hf Hle Hd. apply (C6 i f d Hf Hle). unfold dctx in Hd. cbn in Hd. by rewrite D1 in Hd.
  - intros p a l. rewrite elem_of_app, list_elem_of_singleton. intros [Hin|[= -> -> ->]].
    + destruct (C7 p a l Hin) as (n & m & ? & ? & ? & ? & ? & ? & ?). exists n, m. split_and!; try done. lia.
    + exists (h + cnt), F. split_and!; try done; lia.
  - apply Forall_app. by split; [|repeat constructor].
  - unfold data_writes in *. rewrite omap_app, C8. cbn. by rewrite app_nil_r.
  - unfold desc_writes in *. rewrite bind_app, C9. cbn. by rewrite app_nil_r.
Qed.

(** *** Which descriptors wait *)

Lemma window_inj h n n' : 0 < ring_len → h ≤ n < h + ring_len → h ≤ n' < h + ring_len → n mod ring_len = n' mod ring_len → n = n'.
Proof using All.
  intros Hl H1 H2 E. assert (ring_len ≠ 0) as Hz by lia. pose proof (Z.div_mod n ring_len Hz) as D1. pose proof (Z.div_mod n' ring_len Hz) as D2.
  rewrite E in D1. set (x := n / ring_len) in *. set (y := n' / ring_len) in *.
  destruct (Z.lt_trichotomy x y) as [Hlt|[Heq|Hgt]]; [nia|rewrite Heq in D1; lia|nia].
Qed.

Lemma dcache_number T h w k O O' tr s j p :
  inv T h O s w k → rx_ok s → content h w O' tr s → dcache (sub s) !! j = Some p →
  let n := Z.of_nat (length (fills (sub s)) + j) in
  p = n mod 128 ∧ n < h + k ∧ ∃ c, ctx s p = Some c ∧ state c = DESC_PROCESSING.
Proof using All.
  intros I (_ & _ & _ & idxs & Hall & Hlog) C Hj n. destruct (Forall2_lookup_l _ _ _ _ _ Hall Hj) as (i & Hi & Hp & c & Hc & Hst & Hix & _).
  pose proof I as [_ _ [Hl _] _ _ (Hw & Hk & El) [Hh _] [_ HT] Hlg Hctx _ _ _]. rewrite El in *.
  assert (log s !! (length (fills (sub s)) + j)%nat = Some i) as Hli.
  { rewrite Hlog, lookup_app_r by (rewrite length_fmap; lia). rewrite length_fmap.
    by replace (length (fills (sub s)) + j - length (fills (sub s)))%nat with j by lia. }
  rewrite Hlg, list_lookup_fmap in Hli. apply fmap_Some in Hli as (m & Hm & ->). apply lookup_seqZ in Hm as [-> Hlt].
  destruct (Hctx p c Hp Hc) as (Hph & Hidx & _). set (o := off _ _) in *. pose proof (off_bound (active_first_pos (que s)) p) as Ho. fold o in Ho.
  assert (o < k) as Hok.
  { rewrite Hst in Hph. revert Hph. unfold phase. repeat case_decide; try lia; try naive_solver. }
  rewrite Hix in Hidx. specialize (Hidx ltac:(lia)). destruct (ct_le _ _ _ _ _ C) as (_ & _ & Hle).
  assert (0 + Z.of_nat (length (fills (sub s)) + j) = h + o) as En.
  { apply (window_inj h); [lia|lia|lia|]. done. }
  split_and!; [|lia|by exists c]. unfold n. replace (Z.of_nat _) with (h + o) by lia.
  unfold o. rewrite (ct_pos _ _ _ _ _ C). by rewrite number_off.
Qed.

Lemma fills_count T h w k O s :
  inv T h O s w k → rx_ok s → Z.of_nat (length (fills (sub s)) + length (dcache (sub s))) = h + k.
Proof using All.
  intros I (_ & _ & _ & idxs & Hall & Hlog). pose proof (Forall2_length _ _ _ Hall) as Hl. rewrite Hl.
  destruct I as [_ _ _ _ _ (Hw & Hk & El) [Hh _] _ Hlg _ _ _ _]. pose proof (f_equal length Hlog) as E.
  rewrite Hlg, length_fmap, length_seqZ, length_app, length_fmap in E. lia.
Qed.

(** A processed descriptor has been filled. *)
Lemma processed_filled T h w k O O' tr s p c :
  inv T h O s w k → rx_ok s → content h w O' tr s → is_pos p → ctx s p = Some c → state c = DESC_PROCESSED →
  h + off (active_first_pos (que s)) p < Z.of_nat (length (fills (sub s))).
Proof using All.
  intros I Hok C Hp Hc Hst. pose proof (fills_count _ _ _ _ _ _ I Hok) as Hcount.
  pose proof I as [_ _ _ _ _ (Hw & Hk & El) [Hh _] _ _ Hctx _ _ _]. destruct (Hctx p c Hp Hc) as (Hph & _).
  set (o := off _ _) in *. pose proof (off_bound (active_first_pos (que s)) p) as Ho. fold o in Ho.
  assert (o < k) as Hlt by (rewrite Hst in Hph; revert Hph; unfold phase; repeat case_decide; try lia; naive_solver).
  destruct (decide (h + o < Z.of_nat (length (fills (sub s))))) as [|Hge]; [done|exfalso].
  destruct (lookup_lt_is_Some_2 (dcache (sub s)) (Z.to_nat (h + o - Z.of_nat (length (fills (sub s)))))) as [p' Hp']; [lia|].
  destruct (dcache_number _ _ _ _ _ _ _ _ _ _ I Hok C Hp') as (Ep & _ & c' & Hc' & Hst').
  assert (p' = p) as ->; [|congruence]. rewrite Ep. replace (Z.of_nat _) with (h + o) by lia.
  unfold o. rewrite (ct_pos _ _ _ _ _ C). by rewrite number_off.
Qed.

(** *** Writing back *)

Lemma gather_slices s pos n : ∀ i buf,
  desc_len (que s) = dl → (∀ p c, is_pos p → ctx s p = Some c → dl ≤ Z.of_nat (length (desc c))) →
  gather s pos i n = inr buf →
  Z.of_nat (length buf) = Z.of_nat n * dl ∧
  ∀ j, 0 ≤ j < Z.of_nat n → ∃ d, dctx s (ring_pos pos (i + j)) = Some d ∧
    slice buf (Z.to_nat (j * dl)) (Z.to_nat dl) = take (Z.to_nat dl) d.
Proof using All.
  induction n as [|n IH]; intros i buf Ed Hlen E; cbn [gather] in E; [simplify_eq; split; [done|lia]|].
  apply bind_inr in E as (c & Hg%get_inr & E). destruct (decide _); [|done]. apply bind_inr in E as (rest & Er & E). simplify_eq.
  destruct (IH _ _ eq_refl Hlen Er) as [Hl Hs]. pose proof (Hlen _ _ (ring_pos_bound pos i) Hg) as Hc.
  assert (length (take (Z.to_nat (desc_len (que s))) (desc c)) = Z.to_nat (desc_len (que s))) as Ht by (rewrite length_take; lia).
  split; [rewrite length_app, Ht; lia|]. intros j Hj. destruct (decide (j = 0)) as [->|Hne].
  - exists (desc c). rewrite Z.add_0_r. split; [by apply dctx_ctx|]. unfold slice. rewrite Z.mul_0_l. cbn [Z.to_nat].
    rewrite drop_0, take_app_le by lia. by rewrite take_take, Nat.min_id.
  - destruct (Hs (j - 1) ltac:(lia)) as (d & Hd & Hsl). exists d. replace (i + 1 + (j - 1)) with (i + j) in Hd by lia. split; [done|].
    rewrite <- Hsl. rewrite slice_app_r by (rewrite Ht; nia). f_equal. rewrite Ht. nia.
Qed.

Lemma imap_take_add {A C} (g : nat → A → C) a n l :
  imap g (take (a + n) l) = imap g (take a l) ++ imap (λ i, g (length (take a l) + i)%nat) (take n (drop a l)).
Proof using Type.
  rewrite <- (take_take_drop l a n). by rewrite imap_app.
Qed.

(** The parameters of the invariant of the engine are functions of the state. *)
Lemma inv_w_unique T T' h h' O s w w' k k' : inv T h O s w k → inv T' h' O s w' k' → w = w'.
Proof using All.
  intros I I'. pose proof (inv_wb _ _ _ _ _ _ I) as E. rewrite (inv_wb _ _ _ _ _ _ I') in E.
  repeat case_decide; by simplify_eq.
Qed.

(** The descriptors in the write of [n] contexts from the first. *)
Lemma written_descs T h k O tr s s1 n buf :
  inv T h O s 0 k → rx_ok s → content h 0 O tr s → retouched s s1 → 0 ≤ n →
  h mod ring_len + n ≤ ring_len → h + n ≤ Z.of_nat (length (fills (sub s))) → n ≤ 128 →
  gather s1 (h mod 128) 0 (Z.to_nat n) = inr buf →
  Z.of_nat (length buf) / dl = n ∧
  split_descs dl (entry_addr h) buf =
    imap (λ i f, (entry_addr (h + Z.of_nat i), take (Z.to_nat dl) (f_desc f))) (take (Z.to_nat n) (drop (Z.to_nat h) (fills (sub s)))).
Proof using All.
  intros I Hok C [Q1 D1 S1 I1] Hn Hend HF H128 E. pose proof (ct_le _ _ _ _ _ C) as (Hh & _ & _).
  destruct (gather_slices s1 (h mod 128) (Z.to_nat n) 0 buf) as [Hl Hs]; [by rewrite Q1; apply C| |done|].
  { intros p c Hp Hc%dctx_ctx. unfold dctx in Hc. rewrite D1 in Hc. apply (ctx_dctx s) in Hc as (c0 & Hc0 & <-).
    destruct (inv_ctx _ _ _ _ _ _ I p c0 Hp Hc0) as (_ & _ & Hd). by rewrite (ct_dl _ _ _ _ _ C) in Hd. }
  rewrite Z2Nat.id in Hl, Hs by done. assert (Z.of_nat (length buf) / dl = n) as Hdiv by (rewrite Hl; apply Z.div_mul; lia).
  split; [done|]. unfold split_descs. rewrite Hdiv.
  assert (length (take (Z.to_nat n) (drop (Z.to_nat h) (fills (sub s)))) = Z.to_nat n) as Hlen by (rewrite length_take, length_drop; lia).
  apply list_eq_same_length with (n := Z.to_nat n); [by rewrite length_imap|by rewrite length_fmap, length_seqZ|].
  intros i x y Hi Hx Hy. rewrite list_lookup_fmap in Hx. apply fmap_Some in Hx as (j & Hj & ->). apply lookup_seqZ in Hj as [-> Hj].
  rewrite list_lookup_imap in Hy. apply fmap_Some in Hy as (f & Hf & ->).
  rewrite lookup_take_lt, lookup_drop in Hf by done. destruct (Hs (Z.of_nat i) ltac:(lia)) as (d & Hd & Hsl).
  unfold dctx in Hd. rewrite D1 in Hd. rewrite Z.add_0_l, ring_pos_number in Hd by lia. f_equal.
  - assert (0 < ring_len) by (destruct (inv_len _ _ _ _ _ _ I), (inv_cnt _ _ _ _ _ _ I); lia).
    unfold entry_addr. rewrite mod_add_small by lia. lia.
  - rewrite Z.add_0_l, Hsl. f_equal. eapply (ct_filled _ _ _ _ _ C (Z.to_nat h + i)); [done|lia|].
    replace (Z.of_nat (Z.to_nat h + i)) with (h + Z.of_nat i) by lia. exact Hd.
Qed.

Lemma trigger_writeback_content T h w k tr s s' :
  inv T h (issued s) s w k → rx_ok s → process_settled s k → content h w (issued s) tr s → trigger_writeback s = inr s' →
  ∃ new w', issued s' = issued s ++ new ∧ content h w' (issued s') (tr ++ new) s' ∧ inv T h (issued s') s' w' k.
Proof using All.
  intros I Hok Hset C E. pose proof (trigger_writeback_inv T h s w k I Hok Hset) as Hp. rewrite E in Hp.
  destruct Hp as (w2 & I2 & _). unfold trigger_writeback in E. rewrite (inv_enabled _ _ _ _ _ _ I) in E. cbn [negb] in E.
  pose proof I as [Hf _ [Hl _] _ Hpos (Hw & Hk & El) [Hh Hidx] _ _ _ _ Hwb _].
  destruct (count_state_spec DESC_PROCESSED (Z.to_nat (active_cnt (que s))) s 0) as (b & Eb & Hb & Hin & _); [done|done|lia|lia|].
  rewrite Eb in E. cbn [mbind sum_bind] in E. pose proof (writeback_count (active_first_idx (que s)) (len (que s)) b) as Hn. cbn zeta in Hn, E.
  pose proof (Z.mod_pos_bound h (len (que s)) ltac:(lia)) as Hm.
  assert (active_first_idx (que s) + (if len (que s) <? u32 (active_first_idx (que s) + b `min` max_writeback_capacity)
            then u32 (len (que s) - active_first_idx (que s)) else b `min` max_writeback_capacity) ≤ len (que s)) as Hend.
  { rewrite Hidx. unfold max_writeback_capacity, UINT32_MAX. rewrite Z.min_l by lia. rewrite (wrap_id 32 (_ + b)) by (unfold fits; lia).
    destruct (Z.ltb_spec (len (que s)) (h mod len (que s) + b)); [|lia]. rewrite (wrap_id 32) by (unfold fits; lia). lia. }
  set (n := if _ <? _ then _ else _) in *. destruct Hn as [Hn _]; [lia|rewrite Hidx; lia|lia|].
  destruct (Z.eqb_spec n 0) as [E0|Hne].
  { simplify_eq. rewrite <- (inv_w_unique _ _ _ _ _ _ _ _ _ _ I I2) in I2. exists [], w. by rewrite !app_nil_r. }
  assert (∀ p c, is_pos p → within (active_first_pos (que s)) 0 n p → ctx s p = Some c → state c = DESC_PROCESSED) as Hpr.
  { intros p c Hp Hwi. apply Hin; [done|]. unfold within in *. lia. }
  destruct (processed_prefix _ _ _ _ _ _ n I) as [-> Hnk]; [lia|exact Hpr|].
  apply bind_inr in E as (s1 & E1 & E). apply mark_all_retouched in E1. pose proof E1 as [Q1 D1 S1 I1]. cbn in E. unfold base_do_writeback in E.
  apply bind_inr in E as (buf & Eg & E). simplify_eq. cbn [issued IssueDma] in *. rewrite I1 in I2 |- *.
  assert (h + n ≤ Z.of_nat (length (fills (sub s)))) as HF.
  { destruct (ring_pos_fresh (active_first_pos (que s)) (n - 1)) as (p & _ & Hp & Ho); [done|lia|].
    destruct (ctx_Some s p Hf Hp) as [c Hc]. pose proof (processed_filled _ _ _ _ _ _ _ _ _ _ I Hok C Hp Hc) as H.
    rewrite Ho in H. specialize (H ltac:(eapply Hpr; [done|unfold within; lia|done])). lia. }
  rewrite (ct_pos _ _ _ _ _ C) in Eg. rewrite El in *.
  destruct (written_descs T h k (issued s) tr s s1 n buf I Hok C E1) as [Hdiv Hsd]; [lia|rewrite <- Hidx; lia|done|lia|done|].
  assert (base (que s1) = B ∧ desc_len (que s1) = dl ∧ active_first_pos (que s1) = h mod 128 ∧ active_cnt (que s1) = active_cnt (que s)) as (A1 & A2 & A3 & A4).
  { rewrite Q1. cbn. destruct C. done. }
  assert (u64 (base (que s1) + active_first_idx (que s) * desc_len (que s1)) = entry_addr h) as Ea.
  { rewrite A1, A2, Hidx. unfold entry_addr. apply wrap_id. unfold fits. nia. }
  rewrite Ea in I2 |- *. rewrite (ct_pos _ _ _ _ _ C) in I2 |- *. eexists _, n. split; [done|].
  assert (w2 = n) as ->.
  { pose proof (inv_wb _ _ _ _ _ _ I2) as E2. cbn [que IssueDma] in E2. rewrite A2, A3 in E2. rewrite bind_app in E2. cbn in E2.
    rewrite (ct_dl _ _ _ _ _ C), decide_True in Hwb by done. rewrite Hwb, Hdiv in E2. cbn in E2. case_decide; [done|]. by simplify_eq. }
  split; [|exact I2]. destruct C as [C1 C2 C3 C4 C5 C6 C7 Co C8 C9].
  split; cbn [que sub issued IssueDma]; unfold dctx; cbn [que sub issued IssueDma]; rewrite ?S1, ?D1, ?A4; try done.
  - lia.
  - intros m d Hm' Hd Hnin. apply (C5 m d Hm' Hd). rewrite bind_app in Hnin. cbn in Hnin. by rewrite app_nil_r in Hnin.
  - intros p a l. rewrite elem_of_app, list_elem_of_singleton. intros [Hin'|?]; [|done]. by apply C7.
  - apply Forall_app. by split; [|repeat constructor].
  - unfold data_writes in *. rewrite omap_app, C8. cbn. by rewrite app_nil_r.
  - unfold desc_writes in *. rewrite bind_app, C9. cbn. rewrite app_nil_r, Hsd, Z.add_0_r.
    rewrite (Z2Nat.inj_add h n), imap_take_add by lia. f_equal. apply imap_ext. intros i f _. f_equal. f_equal. rewrite length_take. lia.
Qed.

Lemma trigger_content T h w k tr s s' :
  inv T h (issued s) s w k → rx_ok s → content h w (issued s) tr s → trigger s = inr s' →
  ∃ new w' k', issued s' = issued s ++ new ∧ content h w' (issued s') (tr ++ new) s' ∧ inv T h (issued s') s' w' k'.
Proof using All.
  intros I Hok C E. unfold trigger in E. apply bind_inr in E as (s1 & E1 & E). apply bind_inr in E as (s2 & E2 & E).
  pose proof (trigger_fetch_inv T h s w k I Hok) as (s1' & E1' & I1 & Hok1 & _). rewrite E1 in E1'. simplify_eq.
  destruct (trigger_fetch_content _ _ _ _ _ _ _ I C E1) as (new1 & Hi1 & C1).
  pose proof (trigger_process_inv T h s1' w k I1 Hok1) as Hp. rewrite E2 in Hp. destruct Hp as (k2 & I2 & Hok2 & Hset & _).
  apply trigger_process_worked in E2. pose proof (content_worked _ _ _ _ _ _ C1 E2) as C2. rewrite <- (wk_issued _ _ E2) in C2.
  destruct (trigger_writeback_content _ _ _ _ _ _ _ I2 Hok2 Hset C2 E) as (new3 & w' & Hi3 & C3 & I3).
  exists (new1 ++ new3), w', k2. split; [by rewrite Hi3, (wk_issued _ _ E2), Hi1, !app_assoc|]. by rewrite app_assoc.
Qed.

(** *** A write-back completes *)

Lemma writeback_done_frame s pos n s' :
  enabled (que s) = true → writeback_done s pos n = inr s' →
  issued s' = issued s ∧ fills (sub s') = fills (sub s) ∧ base (que s') = base (que s) ∧ desc_len (que s') = desc_len (que s) ∧
  desc <$> desc_ctxs (que s') = desc <$> desc_ctxs (que s).
Proof using Type.
  intros He E. unfold writeback_done in E. rewrite He in E. cbn [negb] in E.
  apply bind_inr in E as (s1 & [Q1 D1 S1 I1]%mark_all_retouched & E). apply bind_inr in E as ([s2 b] & [Q2 D2 S2 I2]%free_written_retouched & E).
  destruct (_ =? 0); [done|]. cbn in E. unfold lan_queue_interrupt in E. apply bind_inr in E as (d & _ & E). injection E as <-.
  cbn [issued sub que with_que set_active desc_ctxs base desc_len update_lan lan_of with_lan rx_lan_queue set_lan fills].
  cbn. rewrite I2, I1, S2, S1, D2, D1, Q2, Q1. done.
Qed.

Lemma writeback_done_content T h w k tr s op pos n s' :
  inv T h (op :: issued s) s w k → rx_ok s → wb_of (desc_len (que s)) op = [(pos, n)] → content h w (issued s) tr s →
  writeback_done s pos n = inr s' → issued s' = issued s ∧ content (h + w) 0 (issued s') tr s'.
Proof using All.
  intros I Hok Hop C E. pose proof (writeback_done_inv T h s op pos n w k I Hok Hop) as Hp. rewrite E in Hp.
  destruct Hp as (_ & _ & Ep & Ec). destruct (writeback_done_frame s pos n s' (inv_enabled _ _ _ _ _ _ I) E) as (Ei & Ef & E1 & E2 & E3).
  split; [done|]. pose proof I as [_ _ _ _ _ (Hw & Hk & El) _ _ _ Hctx (_ & Hfe & _) _ _].
  destruct C as [C1 C2 C3 C4 C5 C6 C7 Co C8 C9].
  split; unfold dctx; rewrite ?E1, ?E2, ?E3, ?Ef, ?Ep, ?Ec, ?Ei; try done.
  - rewrite C3. apply ring_pos_number. lia.
  - lia.
  - intros m d Hm. apply C5. lia.
  - intros i f d Hf Hle. apply C6; [done|lia].
  - intros p a l Hin. destruct (C7 p a l Hin) as (m & c & -> & -> & Hc & Hm & Hmc & Hend & ->).
    exists m, c. split_and!; try done; [|lia].
    assert (m mod 128 ∈ (op :: issued s) ≫= fetch_pos (desc_len (que s))) as Hpin.
    { apply list_elem_of_bind. eexists. split; [|by right; exact Hin]. cbn. rewrite C2, Z.mul_comm, Z.div_mul by lia.
      apply list_elem_of_fmap. exists 0. rewrite ring_pos_number, Z.add_0_r by lia. split; [done|]. apply elem_of_seqZ. lia. }
    apply Hfe in Hpin as (Hp & c0 & Hc0 & Hst). destruct (Hctx _ _ Hp Hc0) as (Hph & _). rewrite Hst, C3, off_number in Hph by lia.
    revert Hph. unfold phase. repeat case_decide; try lia; naive_solver.
  - by rewrite Z.add_0_r.
Qed.

(** *** Descriptors arrive *)

Lemma dctx_put s p p' c :
  full s → is_pos p → is_pos p' → dctx (put s p c) p' = if decide (p = p') then Some (desc c) else dctx s p'.
Proof using Type.
  intros Hf Hp Hp'. pose proof (ctx_put s p p' c Hf Hp Hp') as E. destruct (ctx_Some s p' Hf Hp') as [c' Hc'].
  rewrite Hc' in E. destruct (decide (p = p')); rewrite (dctx_ctx _ _ _ E); [done|]. by rewrite (dctx_ctx _ _ _ Hc').
Qed.

Lemma fetched_descs pos n : ∀ s s' buf i,
  full s → is_pos pos → 0 ≤ i → i + Z.of_nat n ≤ 128 → desc_len (que s) = dl → Z.of_nat n * dl ≤ Z.of_nat (length buf) →
  fetched s pos buf i n = inr s' →
  que s' = set_ctxs (que s) (desc_ctxs (que s')) ∧ sub s' = sub s ∧ issued s' = issued s ∧
  ∀ p d', is_pos p → dctx s' p = Some d' →
    if decide (within pos i (Z.of_nat n) p)
    then take (Z.to_nat dl) d' = slice buf (Z.to_nat ((off pos p - i) * dl)) (Z.to_nat dl) else dctx s p = Some d'.
Proof using All.
  induction n as [|n IH]; intros s s' buf i Hf Hp Hi Hn Ed Hbuf E; cbn [fetched] in E.
  { simplify_eq. split_and!; [by destruct (que s')|done|done|]. intros p d' Hpp Hd. rewrite decide_False; [done|unfold within; lia]. }
  destruct (ring_pos_fresh pos i) as (p0 & Ep & Hp0 & Ho); [done|lia|]. rewrite Ep in E.
  apply bind_inr in E as (c & Hc%get_inr & E). apply bind_inr in E as (s2 & E2 & E). cbn in E2.
  apply transition_retouched in E2 as [Q2 D2 S2 I2]. rewrite Ed in *.
  set (s1 := put s p0 _) in *. assert (full s1) as Hf1 by (by apply full_put).
  assert (full s2) as Hf2. { unfold full in *. apply (f_equal length) in D2. rewrite !length_fmap in D2. lia. }
  destruct (IH s2 s' (drop (Z.to_nat dl) buf) (i + 1)) as (Q & S' & I' & Hd'); try done; [lia|lia|by rewrite Q2|rewrite length_drop; lia|].
  split_and!; [by rewrite Q, Q2|by rewrite S', S2|by rewrite I', I2|]. intros p d' Hpp Hd. specialize (Hd' p d' Hpp Hd).
  assert (dctx s2 p = dctx s1 p) as E12 by (unfold dctx; by rewrite D2). rewrite E12 in Hd'.
  unfold s1 in Hd'. rewrite dctx_put in Hd' by done. cbn [desc] in Hd'.
  destruct (decide (p0 = p)) as [->|Hne].
  - rewrite decide_False in Hd' by (unfold within; lia). rewrite decide_True by (unfold within; lia). injection Hd' as <-.
    rewrite Ho, Z.sub_diag, Z.mul_0_l. unfold slice. cbn [Z.to_nat]. rewrite drop_0. rewrite take_app_le by (rewrite length_take; lia).
    by rewrite take_take, Nat.min_id.
  - assert (off pos p ≠ i) as Hoi by (intros E'; apply Hne, (off_inj pos); [done..|congruence]).
    destruct (decide (within pos (i + 1) (Z.of_nat n) p)) as [Hw|Hw].
    + rewrite decide_True by (unfold within in *; lia). rewrite Hd'. unfold slice. rewrite drop_drop. do 2 f_equal. unfold within in *. nia.
    + rewrite decide_False by (unfold within in *; lia). done.
Qed.

Lemma ring_entry_posted T n e :
  0 < ring_len → n < T ≤ n + ring_len → e mod ring_len = n mod ring_len → ring_entry ring ring_len T e = ring n.
Proof using All.
  intros Hl Hn E. unfold ring_entry. f_equal. rewrite Zminus_mod, E, <- Zminus_mod, Z.mod_small; lia.
Qed.

Lemma fetching_late T h w k O tr s p a l n m :
  inv T h O s w k → content h w O tr s → dma_fetch p a l ∈ O → p = n mod 128 → l = dl * m → 0 < m → h ≤ n →
  n + m ≤ h + active_cnt (que s) → h + k ≤ n.
Proof using All.
  intros I C Hin -> -> Hm Hn Hnm. pose proof I as [_ _ _ _ _ (Hw & Hk & El) _ _ _ Hctx (_ & Hfe & _) _ _].
  assert (n mod 128 ∈ O ≫= fetch_pos (desc_len (que s))) as Hpin.
  { apply list_elem_of_bind. eexists. split; [|exact Hin]. cbn. rewrite (ct_dl _ _ _ _ _ C), Z.mul_comm, Z.div_mul by lia.
    apply list_elem_of_fmap. exists 0. rewrite ring_pos_number, Z.add_0_r by lia. split; [done|]. apply elem_of_seqZ. lia. }
  apply Hfe in Hpin as (Hp & c0 & Hc0 & Hst). destruct (Hctx _ _ Hp Hc0) as (Hph & _).
  rewrite Hst, (ct_pos _ _ _ _ _ C), off_number in Hph by lia. revert Hph. unfold phase. repeat case_decide; try lia; naive_solver.
Qed.

Lemma fetched_content T h w k tr s pos a l payload s' :
  let op := dma_fetch pos a l in
  inv T h (op :: issued s) s w k → rx_ok s → content h w (op :: issued s) tr s → Z.of_nat (length payload) = l →
  read_ok ring T (que s) op payload → fetched s pos payload 0 (Z.to_nat (l / dl)) = inr s' →
  issued s' = issued s ∧ content h w (issued s') tr s'.
Proof using All.
  intros op I Hok C Hpay Hread E. pose proof C as [C1 C2 C3 C4 C5 C6 C7 Co C8 C9].
  destruct (C7 pos a l) as (n & m & Hpn & Hlm & Hm & Hhn & Hnm & Hend & Ha); [left|].
  pose proof (fetching_late _ _ _ _ _ _ _ _ _ _ _ _ I C (list_elem_of_here _ _) Hpn Hlm Hm Hhn Hnm) as Hkn.
  pose proof (fills_count _ _ _ _ _ _ I Hok) as Hcount.
  pose proof I as [Hf _ [Hl _] _ _ (Hw & Hk & El) [Hh _] [_ HT] _ _ _ _ _]. rewrite El in Hl, HT.
  assert (l / dl = m) as Hdiv by (rewrite Hlm, Z.mul_comm; apply Z.div_mul; lia). rewrite Hdiv in E.
  pose proof (Z.mod_pos_bound n 128 ltac:(lia)) as Hnp.
  destruct (fetched_descs pos (Z.to_nat m) s s' payload 0) as (Q & S' & I' & Hd); try done; [rewrite Hpn; lia|lia|rewrite Hpay, Hlm; lia|].
  rewrite Z2Nat.id in Hd by lia. split; [done|].
  assert (∀ x, h ≤ x < h + active_cnt (que s) → within pos 0 m (x mod 128) ↔ n ≤ x < n + m) as Hwi.
  { intros x Hx. unfold within. rewrite Hpn. unfold off. rewrite <- Zminus_mod. destruct (decide (n ≤ x)) as [Hle|Hlt].
    - rewrite Z.mod_small by lia. lia.
    - replace ((x - n) mod 128) with (x - n + 128); [lia|]. symmetry. rewrite <- (Z.mod_small (x - n + 128) 128) by lia.
      symmetry. rewrite <- (Z_mod_plus_full (x - n) 1 128). f_equal. }
  assert (∀ x, is_pos (x mod 128)) as Hxp by (intros; apply Z.mod_pos_bound; lia).
  split; rewrite ?S', ?I'; try done; try (rewrite Q; done).
  - intros x d. rewrite Q. cbn [set_ctxs active_cnt]. intros Hx Hdx Hnin. specialize (Hd _ _ (Hxp x) Hdx).
    destruct (decide (within pos 0 m (x mod 128))) as [Hin|Hout].
    + apply Hwi in Hin; [|lia]. rewrite Hd, Z.sub_0_r, Hpn, off_number by lia. specialize (Hread (x - n)). rewrite C1, C2, El in Hread.
      rewrite Hread by (rewrite Hdiv; lia). apply ring_entry_posted; [lia|lia|].
      rewrite Ha. unfold entry_addr. replace ((B + n mod ring_len * dl - B) / dl) with (n mod ring_len).
      * rewrite Zplus_mod_idemp_l. f_equal. lia.
      * replace (B + n mod ring_len * dl - B) with (n mod ring_len * dl) by lia. by rewrite Z.div_mul by lia.
    + apply (C5 x d); [lia|done|]. rewrite bind_cons, not_elem_of_app. split; [|done]. intros Hin. apply Hout.
      unfold op in Hin. rewrite Hlm in Hin. apply elem_of_fetch_pos in Hin as [_ Hin]; [done|lia|rewrite Hpn; lia|lia].
  - intros i f d Hfi Hle Hdx. specialize (Hd _ _ (Hxp (Z.of_nat i)) Hdx). pose proof (lookup_lt_Some _ _ _ Hfi) as Hlt.
    rewrite decide_False in Hd by (rewrite Hwi; lia). by apply (C6 i f d).
  - intros p' a' l' Hin. rewrite Q. cbn [set_ctxs active_cnt]. apply C7. by right.
  - by apply Forall_cons in Co as [_ ?].
Qed.

(** *** Completions *)

Lemma delete_none {A} (l : list A) : ∀ i, l !! i = None → delete i l = l.
Proof using Type. induction l as [|x l IH]; intros [|i] E; try done. cbn. f_equal. by apply IH. Qed.

Definition outcome (T : Z) (tr : list dma_op) (old : list dma_op) s' : Prop :=
  ∃ new h w k, issued s' = old ++ new ∧ inv T h (issued s') s' w k ∧ content h w (issued s') (tr ++ new) s'.

Lemma trigger_outcome T h w k tr s s' :
  inv T h (issued s) s w k → rx_ok s → content h w (issued s) tr s → trigger s = inr s' → outcome T tr (issued s) s'.
Proof using All.
  intros I Hok C E. destruct (trigger_content _ _ _ _ _ _ _ I Hok C E) as (new & w' & k' & ? & ? & ?). by exists new, h, w', k'.
Qed.

Lemma fetch_done_content T h w k tr s pos a l payload s' :
  let op := dma_fetch pos a l in
  inv T h (op :: issued s) s w k → rx_ok s → content h w (op :: issued s) tr s → Z.of_nat (length payload) = l →
  read_ok ring T (que s) op payload → dma_done s op payload = inr s' → outcome T tr (issued s) s'.
Proof using All.
  intros op I Hok C Hpay Hread E. unfold op in E. cbn [dma_done] in E. rewrite (ct_dl _ _ _ _ _ C) in E.
  destruct (Z.eqb_spec dl 0) as [|_]; [lia|]. apply bind_inr in E as (s1 & E1 & E).
  destruct (ct_fetch _ _ _ _ _ C pos a l) as (n & m & Hpn & Hlm & Hm & Hhn & Hnm & Hend & Ha); [left|].
  destruct (fetched_content _ _ _ _ _ _ _ _ _ _ _ I Hok C Hpay Hread E1) as [Hi C1].
  assert (l / dl = m) as Hdiv by (rewrite Hlm, Z.mul_comm; apply Z.div_mul; lia). rewrite Hdiv in E1.
  pose proof (Z.mod_pos_bound n 128 ltac:(lia)) as Hnp. pose proof (inv_cnt _ _ _ _ _ _ I) as (_ & Hk & _).
  assert (holds (fetched s pos payload 0 (Z.to_nat m)) (λ s', inv T h (issued s') s' w k ∧ sub_ok s')) as Hp.
  { apply (fetched_inv T h w k pos a).
    - rewrite (ct_dl _ _ _ _ _ C), Z2Nat.id by lia. rewrite <- Hlm. replace (ring_pos pos 0) with pos; [exact I|].
      rewrite Hpn, ring_pos_number by lia. by rewrite Z.add_0_r.
    - done.
    - rewrite Hpn. lia.
    - lia.
    - lia.
    - rewrite (ct_dl _ _ _ _ _ C). lia. }
  rewrite E1 in Hp. destruct Hp as [I1 Hok1]. rewrite <- Hi. by eapply trigger_outcome.
Qed.

Lemma wb_done_content T h w k tr s pos a d payload s' :
  let op := dma_wb pos a d in
  inv T h (op :: issued s) s w k → rx_ok s → content h w (op :: issued s) tr s →
  dma_done s op payload = inr s' → outcome T tr (issued s) s'.
Proof using All.
  intros op I Hok C E. unfold op in E. cbn [dma_done] in E. destruct (_ =? 0); [done|]. apply bind_inr in E as (s1 & E1 & E).
  assert (content h w (issued s) tr s) as C0.
  { eapply content_ops; [exact C| | |]; [done|intros; by right|]. by pose proof (ct_ops _ _ _ _ _ C) as [_ ?]%Forall_cons. }
  destruct (writeback_done_content T h w k tr s op pos _ s1 I Hok eq_refl C0 E1) as [Hi C1].
  pose proof (writeback_done_inv T h s op pos (Z.of_nat (length d) / desc_len (que s)) w k I Hok eq_refl) as Hp. rewrite E1 in Hp.
  destruct Hp as (I1 & Hok1 & _). rewrite <- Hi. by eapply trigger_outcome.
Qed.

Lemma data_wb_done_content T h w k tr s i p a d payload s' :
  inv T h (issued s) s w k → rx_ok s → content h w (issued s) tr s → issued s !! i = Some (dma_data_wb p a d) →
  dma_done (take_op s i) (dma_data_wb p a d) payload = inr s' → outcome T tr (delete i (issued s)) s'.
Proof using All.
  intros I Hok C Hop E. pose proof (inv_full _ _ _ _ _ _ I) as Hf.
  assert (inv T h (dma_data_wb p a d :: issued (take_op s i)) (take_op s i) w k) as I0.
  { apply (inv_same _ _ _ s); [done|done|]. eapply inv_perm; [|exact I]. exact (delete_Permutation _ _ _ Hop). }
  destruct (data_dwb _ _ (inv_data _ _ _ _ _ _ I) p a d) as (Hp & c & Hc & Hst); [by eapply list_elem_of_lookup_2|].
  pose proof (data_done_inv T h (take_op s i) _ p c DESC_PROCESSING DESC_PROCESSED w k I0 Hp Hc Hst) as Hd.
  destruct Hd as [Et I2]; [right; naive_solver|]. cbn [dma_done] in E. unfold data_written, processed in E. rewrite Et in E. cbn [mbind sum_bind] in E.
  set (s1 := put (take_op s i) p (set_state c DESC_PROCESSED)) in *.
  assert (rx_ok s1) as Hok1.
  { apply list_elem_of_split_length in Hop as (l1 & l2 & El & ->).
    eapply (rx_ok_written s _ p (l1 ≫= data_wb_pos) (l2 ≫= data_wb_pos)); [done|done| | | | |exact Hok].
    - by rewrite El, bind_app, bind_cons.
    - cbn [s1 issued put with_que take_op]. by rewrite El, delete_middle, bind_app.
    - intros p' c0 Hp' Hne Hc0 _. unfold s1. rewrite ctx_put by done. by rewrite decide_False.
    - intros p' Hp' (c0 & Hc0 & Hst0). unfold s1 in Hc0. rewrite ctx_put in Hc0 by done. case_decide; [simplify_eq|]. split; [done|]. by exists c0. }
  change (delete i (issued s)) with (issued s1). eapply trigger_outcome; [exact I2|exact Hok1| |exact E].
  pose proof (delete_Permutation _ _ _ Hop) as Hperm.
  eapply (content_worked _ _ _ _ (take_op s i)); [|apply worked_retouched; eapply transition_retouched; exact Et].
  eapply (content_frame _ _ _ _ s); try done. eapply (content_perm _ _ _ (dma_data_wb p a d :: delete i (issued s))) in C; [|exact Hperm].
  eapply content_ops; [exact C| | |]; [done|intros; by right|]. by pose proof (ct_ops _ _ _ _ _ C) as [_ ?]%Forall_cons.
Qed.

Lemma completion_content T h w k tr s i payload s' :
  inv T h (issued s) s w k → rx_ok s → content h w (issued s) tr s → valid_event s (EvDone i payload) →
  (∀ op, issued s !! i = Some op → read_ok ring T (que s) op payload) →
  step s (EvDone i payload) = inr s' → outcome T tr (delete i (issued s)) s'.
Proof using All.
  intros I Hok C Hv Hread E. cbn [step valid_event] in *. destruct (issued s !! i) as [op|] eqn:Hop.
  2: { simplify_eq. rewrite delete_none by done. exists [], h, w, k. by rewrite !app_nil_r. }
  specialize (Hv op eq_refl). specialize (Hread op eq_refl). pose proof (delete_Permutation _ _ _ Hop) as Hperm.
  assert (inv T h (op :: issued (take_op s i)) (take_op s i) w k) as I0.
  { apply (inv_same _ _ _ s); [done|done|]. by eapply inv_perm. }
  assert (content h w (op :: issued (take_op s i)) tr (take_op s i)) as C0.
  { eapply (content_frame _ _ _ _ s); try done. by eapply content_perm. }
  assert (data_wb_pos op = [] → rx_ok (take_op s i)) as Hok0.
  { intros Hnil. eapply (rx_ok_frame s); try done. clear -Hop Hnil.
    apply list_elem_of_split_length in Hop as (l1 & l2 & El & ->). cbn [issued take_op]. by rewrite El, delete_middle, !bind_app, bind_cons, Hnil. }
  pose proof (ct_ops _ _ _ _ _ C0) as [Hkind _]%Forall_cons.
  destruct op as [pos a l|pos a d|p total po a l|p a d|pos cnt nh a]; try done; change (delete i (issued s)) with (issued (take_op s i)).
  - eapply fetch_done_content; [exact I0|by apply Hok0|exact C0|done|done|done].
  - eapply wb_done_content; [exact I0|by apply Hok0|exact C0|done].
  - by eapply data_wb_done_content.
Qed.

(** *** Posting *)

Lemma post_content T h w k tr s n s' :
  inv T h (issued s) s w k → rx_ok s → content h w (issued s) tr s → valid_event s (EvPost n) →
  step s (EvPost n) = inr s' → outcome (T + n) tr (issued s) s'.
Proof using All.
  intros I Hok C Hv E. cbn [step] in E. unfold reg_updated in E. pose proof (posted_tail_inv T h s w k n I Hv) as I1. cbn zeta in I1.
  set (s1 := with_que s _) in *. rewrite (inv_enabled _ _ _ _ _ _ I1) in E. cbn [negb] in E.
  eapply (trigger_outcome _ _ _ _ _ s1); [exact I1| | |exact E]; [by eapply (rx_ok_frame s)|by eapply (content_frame _ _ _ _ s)].
Qed.

(** *** Packets *)

Lemma dctx_fmap s p : dctx s p = desc <$> ctx s p.
Proof using Type. unfold dctx, ctx. by rewrite list_lookup_fmap. Qed.

Lemma field_take (d : bytes) m o n : (o + n ≤ m)%nat → field (take m d) o n = field d o n.
Proof using Type.
  intros Hm. unfold field, slice. f_equal. rewrite skipn_firstn_comm, take_take. f_equal. lia.
Qed.

Lemma deliver_content T h w k tr s pos dc f s' :
  inv T h (issued s) s w k → rx_ok s → content h w (issued s) tr s → dcache (sub s) = pos :: dc → delivered s pos dc f s' →
  content h w (issued s') (tr ++ [dma_data_wb pos (buffer s pos) (f_data f)]) s' ∧ inv T h (issued s') s' w k.
Proof using All.
  intros I Hok C Hdc Hdel.
  pose proof (proc_step_inv _ _ _ _ _ _ I (del_proc _ _ _ _ _ Hdel)) as I'. split; [|exact I'].
  destruct Hdel as [(Q & Hf' & _) _ _ Hsub Hi Hother (c' & Hc' & Hd')].
  destruct (dcache_number _ _ _ _ _ _ _ _ 0 pos I Hok C) as (Hpos & HFk & c & Hc & Hst); [by rewrite Hdc|]. rewrite Nat.add_0_r in Hpos, HFk.
  pose proof I as [_ _ _ _ _ (Hw & Hk & El) _ _ _ _ (_ & Hfe & _) _ _]. destruct C as [C1 C2 C3 C4 C5 C6 C7 Co C8 C9].
  assert (fills (sub s') = fills (sub s) ++ [f]) as Ef by (by rewrite Hsub).
  set (F := length (fills (sub s))) in *.
  assert (∀ n, n ≠ Z.of_nat F → h ≤ n < h + 128 → dctx s' (n mod 128) = dctx s (n mod 128)) as Hother'.
  { intros n Hne Hn. rewrite !dctx_fmap, Hother; [done|apply Z.mod_pos_bound; lia|]. rewrite Hpos. intros E. apply Hne.
    apply number_inj in E; lia. }
  assert (field (desc c) 0 8 = field (ring (Z.of_nat F)) 0 8) as Haddr.
  { rewrite <- (C5 (Z.of_nat F) (desc c)).
    - rewrite field_take; [done|lia].
    - lia.
    - rewrite <- Hpos. by apply dctx_ctx.
    - rewrite <- Hpos, <- C2. intros (_ & c0 & Hc0 & Hst0)%Hfe. congruence. }
  assert (buffer s pos = field (desc c) 0 8) as Hbuf by (unfold buffer; by rewrite Hc).
  split; rewrite ?Ef, ?length_app; try (rewrite Q; done); cbn [length].
  - lia.
  - intros n d Hn Hd Hnin. rewrite Q in Hn. cbn [set_ctxs active_cnt] in Hn. apply C5; [lia| |].
    + rewrite <- Hother' by lia. done.
    + rewrite Hi, bind_app in Hnin. cbn in Hnin. by rewrite app_nil_r in Hnin.
  - intros i g d Hg Hle Hd. apply lookup_app_Some in Hg as [Hg|[Hge Hg]].
    + pose proof (lookup_lt_Some _ _ _ Hg) as Hlt. fold F in Hlt. rewrite Hother' in Hd by lia. by apply (C6 i g d).
    + apply list_lookup_singleton_Some in Hg as [Hz <-]. assert (i = F) as -> by (fold F in Hge, Hz; lia).
      rewrite <- Hpos in Hd. rewrite (dctx_ctx _ _ _ Hc') in Hd. by injection Hd as <-.
  - intros p a l. rewrite Hi, elem_of_app, list_elem_of_singleton. intros [Hin|?]; [|done]. rewrite Q. by apply C7.
  - rewrite Hi. apply Forall_app. by split; [|repeat constructor].
  - unfold data_writes in *. rewrite omap_app, C8, imap_app. cbn. by rewrite Hbuf, Haddr, Nat.add_0_r.
  - unfold desc_writes in *. rewrite bind_app, C9. cbn. rewrite app_nil_r. by rewrite take_app_le by lia.
Qed.

Lemma fill_descs_content T h w k id n : ∀ tr s rest s',
  inv T h (issued s) s w k → rx_ok s → content h w (issued s) tr s → fill_descs s rest id n = inr s' →
  ∃ new, issued s' = issued s ++ new ∧ inv T h (issued s') s' w k ∧ content h w (issued s') (tr ++ new) s'.
Proof using All.
  induction n as [|n IH]; intros tr s rest s' I Hok C E; cbn [fill_descs] in E; [simplify_eq; exists []; by rewrite !app_nil_r|].
  destruct (dcache (sub s)) as [|pos dc] eqn:Hdc; [done|]. cbn [sub update set_dcache dbuff_size] in E.
  pose proof (inv_full _ _ _ _ _ _ I) as Hf. destruct n as [|n].
  - destruct (deliver_one s pos dc rest true id Hf Hok Hdc) as (s1 & i & m & _ & E1 & D). rewrite E1 in E. simplify_eq.
    destruct (deliver_content _ _ _ _ _ _ _ _ _ _ I Hok C Hdc D) as [C1 I1]. eexists. split; [apply D|]. done.
  - apply bind_inr in E as (s1 & E1 & E).
    destruct (deliver_one s pos dc (take (Z.to_nat (dbuff_size (sub s))) rest) false (-1) Hf Hok Hdc) as (s1' & i & m & _ & E1' & D).
    rewrite E1 in E1'. simplify_eq. destruct (deliver_content _ _ _ _ _ _ _ _ _ _ I Hok C Hdc D) as [C1 I1].
    destruct (IH _ s1' _ s' I1 (del_ok _ _ _ _ _ D) C1 E) as (new & Hi & I2 & C2).
    exists (dma_data_wb pos (buffer s pos) (take (Z.to_nat (dbuff_size (sub s))) rest) :: new).
    split; [by rewrite Hi, (del_issued _ _ _ _ _ D), <- app_assoc|]. split; [done|].
    rewrite <- app_assoc in C2. exact C2.
Qed.

Lemma packet_content T h w k tr s pkt s' :
  inv T h (issued s) s w k → rx_ok s → content h w (issued s) tr s → packet_received s pkt = inr s' → outcome T tr (issued s) s'.
Proof using All.
  intros I Hok C E. assert (outcome T tr (issued s) s) as H0 by (exists [], h, w, k; by rewrite !app_nil_r).
  unfold packet_received in E. destruct (_ =? 0); [done|]. destruct (negb _); [by simplify_eq|]. destruct (_ <? _); [by simplify_eq|].
  destruct (sample s pkt) as [[id s1]|] eqn:Es; [|done]. cbn [or_fault mbind sum_bind] in E.
  apply sample_step in Es as ((_ & _ & L1 & _) & _ & Hok1 & Q1 & I1 & _ & F1 & _); [|by apply I|done]. rewrite <- I1 in I, C.
  destruct (fill_descs_content T h w k id (Z.to_nat (num_descs (sub s) pkt)) tr s1 pkt s') as (new & Hi & I2 & C2); try done.
  - by apply (inv_same _ _ _ s).
  - eapply (content_frame _ _ _ _ s); try done; by rewrite Q1.
  - exists new, h, w, k. by rewrite <- I1.
Qed.

(** *** Events *)

Lemma inv_unique T h h' O s w w' k k' : inv T h O s w k → inv T h' O s w' k' → h = h' ∧ w = w' ∧ k = k'.
Proof using All.
  intros I I'. pose proof (inv_w_unique _ _ _ _ _ _ _ _ _ _ I I') as ->.
  destruct I as [_ _ [Hl _] _ _ (Hw & Hk & El) [Hh Hi] [_ HT] Hlg _ _ _ _], I' as [_ _ _ _ _ (Hw' & Hk' & _) [Hh' Hi'] [_ HT'] Hlg' _ _ _ _].
  rewrite El in *. assert (h = h') as ->; [|split_and!; try done].
  { apply (window_inj (T - ring_len + 1)); [lia|lia|lia|congruence]. }
  apply (f_equal length) in Hlg. rewrite Hlg', !length_fmap, !length_seqZ in Hlg. lia.
Qed.

Record mem_inv (db T : Z) (ps : list bytes) (tr : list dma_op) s : Prop := {
  mi_rx : rx_inv T ps s;
  mi_content : ∃ h w k, inv T h (issued s) s w k ∧ content h w (issued s) tr s;
  mi_dbuff : dbuff_size (sub s) = db;
  mi_parts : Forall (λ f, Z.of_nat (length (f_data f)) ≤ db) (fills (sub s));
}.

Lemma mem_engine db T T' ps tr s e old s' :
  mem_inv db T ps tr s → (∀ s0, e ≠ EvDerived s0) → step s e = inr s' → holds (step s e) (ring_inv T') → outcome T' tr old s' →
  ∃ new, issued s' = old ++ new ∧ mem_inv db T' ps (tr ++ new) s'.
Proof using All.
  intros [Hr _ Hd Hp] He E Hh (new & h & w & k & Hi & I & C). exists new. split; [done|].
  pose proof (rx_engine_inv T T' ps s e Hr He Hh) as Hr'. rewrite E in Hr'. pose proof (rx_engine_keeps s e s' He E) as [= Ef Ed].
  split; [exact Hr'|by exists h, w, k|by rewrite Ed|by rewrite Ef].
Qed.

Lemma mem_packet db T ps tr s pkt s' :
  mem_inv db T ps tr s → pkt ≠ [] → packet_received s pkt = inr s' →
  ∃ new, issued s' = issued s ++ new ∧ mem_inv db T (ps ++ if accepts s pkt then [pkt] else []) (tr ++ new) s'.
Proof using All.
  intros [Hr (h & w & k & I & C) Hd Hp] Hne E. pose proof Hr as ((h' & w' & k' & I' & Hok & _) & Hdb & _).
  destruct (packet_content _ _ _ _ _ _ _ _ I Hok C E) as (new & h1 & w1 & k1 & Hi & I1 & C1). exists new. split; [done|].
  pose proof (rx_packet_inv T ps s pkt Hr Hne) as Hr'. rewrite E in Hr'. 
  pose proof (packet_received_spec s pkt (inv_full _ _ _ _ _ _ I) Hok (inv_enabled _ _ _ _ _ _ I) Hdb Hne) as Hs. rewrite E in Hs.
  split; [exact Hr'|by exists h1, w1, k1|..]; (destruct (accepts s pkt); [destruct Hs as [fs R]|by subst s']).
  - by rewrite (rec_dbuff _ _ _ _ _ R).
  - rewrite (rec_fills _ _ _ _ _ R). apply Forall_app. split; [done|]. rewrite <- Hd. apply R.
Qed.

Lemma mem_step db T ps tr s e s' :
  mem_inv db T ps tr s → host_event ring T s e → rx_step s e = inr s' →
  ∃ new, issued s' = in_flight s e ++ new ∧
    mem_inv db (T + posts e) (ps ++ match e with RxPacket pkt => if accepts s pkt then [pkt] else [] | _ => [] end) (tr ++ new) s'.
Proof using All.
  intros M Hv E. pose proof M as [((h & w & k & I & Hok & Hset) & _) (h' & w' & k' & I' & C) _ _].
  destruct e as [n|i payload|pkt]; cbn [rx_step posts in_flight host_event] in *; rewrite ?app_nil_r, ?Z.add_0_r.
  - eapply (mem_engine _ _ _ _ _ _ (EvPost n)); [exact M|done|exact E| |by eapply post_content]. apply post_inv; [apply M|done].
  - destruct Hv as [Hv Hread]. eapply (mem_engine _ _ _ _ _ _ (EvDone i payload)); [exact M|done|exact E| |by eapply completion_content]. apply completion_inv; [apply M|done].
  - apply mem_packet; [done|apply Hv|done].
Qed.

Lemma mem_run db es : ∀ T ps tr s s',
  mem_inv db T ps tr s → host_run ring T s es → rx_run s es = inr s' →
  mem_inv db (T + rx_posted es) (ps ++ accepted s es) (tr ++ rx_trace s es) s'.
Proof using All.
  induction es as [|e es IH]; intros T ps tr s s' M Hv E; cbn [rx_run rx_posted accepted foldr rx_trace] in *.
  { simplify_eq. by rewrite Z.add_0_r, !app_nil_r. }
  destruct Hv as [He Hv]. destruct (rx_step s e) as [|s1] eqn:E1; [done|]. cbn [mbind sum_bind] in E.
  destruct (mem_step _ _ _ _ _ _ _ M He E1) as (new & Hi & M1). specialize (IH _ _ _ _ _ M1 Hv E).
  rewrite Hi, drop_app_length. rewrite !app_assoc, Z.add_assoc. by destruct e.
Qed.

(** *** What the driver finds *)

Lemma imap_fst {A C} (g : Z → A) (f : nat → C → bytes) (l : list C) :
  (imap (λ i x, (g (Z.of_nat i), f i x)) l).*1 = g <$> seqZ 0 (Z.of_nat (length l)).
Proof using Type.
  apply list_eq. intros i. rewrite list_lookup_fmap, list_lookup_imap, list_lookup_fmap.
  destruct (l !! i) as [x|] eqn:Hx; cbn.
  - apply lookup_lt_Some in Hx. rewrite lookup_seqZ_lt by lia. cbn. do 2 f_equal.
  - apply lookup_ge_None in Hx. by rewrite lookup_seqZ_ge by lia.
Qed.

Lemma reassemble_same fs gs acc :
  Forall2 (λ f g, field (f_desc f) 8 8 = field (f_desc g) 8 8 ∧ f_data f = f_data g) fs gs → reassemble acc fs = reassemble acc gs.
Proof using Type.
  intros H. revert acc. induction H as [|f g fs gs [Hd Hf] _ IH]; intros acc; [done|]. cbn [reassemble].
  rewrite Hd, Hf. rewrite !IH. done.
Qed.

Lemma reassemble_prefix fs gs : ∀ acc, (reassemble acc fs).1 `prefix_of` (reassemble acc (fs ++ gs)).1.
Proof using Type.
  induction fs as [|f fs IH]; intros acc; cbn [reassemble app]; [apply prefix_nil|].
  destruct (Z.testbit _ _); [|apply IH]. specialize (IH []). destruct (reassemble [] fs) as [ps r], (reassemble [] (fs ++ gs)) as [ps' r'].
  by apply prefix_cons.
Qed.

Lemma driver_view_spec h w O tr s :
  content h w O tr s → ∀ acc,
  reassemble acc (driver_view (desc_writes dl tr) (data_writes tr)) = reassemble acc (take (Z.to_nat (h + w)) (fills (sub s))).
Proof using All.
  intros C acc. apply reassemble_same. unfold driver_view. rewrite (ct_data _ _ _ _ _ C), (ct_wb _ _ _ _ _ C).
  apply Forall2_same_length_lookup_2.
  { rewrite length_zip_with, !length_imap, length_take. lia. }
  intros i f g Hf Hg. rewrite lookup_zip_with in Hf. rewrite !list_lookup_imap in Hf. rewrite Hg in Hf. cbn in Hf.
  assert (fills (sub s) !! i = Some g) as Hg'.
  { pose proof (lookup_lt_Some _ _ _ Hg) as Hlt. rewrite length_take in Hlt. rewrite lookup_take_lt in Hg by lia. done. }
  rewrite Hg' in Hf. cbn in Hf. injection Hf as <-. cbn [f_desc f_data snd]. split; [|done]. apply field_take. lia.
Qed.

(** Nothing is in flight: all that was filled has been written back. *)
Lemma quiet_written db T ps tr s h w k :
  mem_inv db T ps tr s → inv T h (issued s) s w k → content h w (issued s) tr s → issued s = [] →
  h + w = Z.of_nat (length (fills (sub s))).
Proof using All.
  intros M I C Hq. pose proof (mi_rx _ _ _ _ _ M) as ((h' & w' & k' & I' & Hok & (_ & _ & Hwb)) & _).
  destruct (inv_unique _ _ _ _ _ _ _ _ _ I I') as (<- & <- & <-). pose proof (fills_count _ _ _ _ _ _ I Hok) as Hcount.
  pose proof I as [Hf _ _ _ Hpos (Hw & Hk & El) _ _ _ Hctx _ Hwbs _]. rewrite Hq in Hwbs. cbn in Hwbs.
  assert (w = 0) as -> by (by destruct (decide (w = 0))). pose proof (ct_le _ _ _ _ _ C) as (Hh & _ & Hle).
  destruct (decide (h + 0 = Z.of_nat (length (fills (sub s))))) as [|Hne]; [done|exfalso].
  destruct (ring_pos_fresh (active_first_pos (que s)) 0) as (p & _ & Hp & Ho); [done|lia|]. destruct (ctx_Some s p Hf Hp) as [c Hc].
  destruct (Hctx p c Hp Hc) as (Hph & _). rewrite Ho in Hph. unfold phase in Hph. rewrite decide_False, decide_True in Hph by lia.
  destruct Hph as [Hst|Hst]; [|by eapply (Hwb eq_refl p c Hp Ho); [lia|..]].
  pose proof Hok as (_ & Hproc & _). destruct (Hproc p Hp) as [Hin|Hin]; [by exists c| |by rewrite Hq in Hin; apply elem_of_nil in Hin].
  apply list_elem_of_lookup in Hin as [j Hj]. destruct (dcache_number _ _ _ _ _ _ _ _ _ _ I Hok C Hj) as (Ep & Hlt & _).
  rewrite (ct_pos _ _ _ _ _ C), Ep, off_number in Ho by lia. lia.
Qed.

(** A descriptor that is written back waits for its data no longer. *)
Lemma writes_before T h w k tr s :
  inv T h (issued s) s w k → rx_ok s → content h w (issued s) tr s →
  h + w + Z.of_nat (length (data_writes (issued s))) ≤ Z.of_nat (length (fills (sub s))).
Proof using All.
  intros I Hok C. pose proof Hok as (Hnd & _ & Hheld & _). pose proof (fills_count _ _ _ _ _ _ I Hok) as Hcount.
  pose proof (ct_le _ _ _ _ _ C) as (Hh & Hw0 & Hle). pose proof I as [_ _ _ _ Hpos (Hw & Hk & _) _ _ _ Hctx _ _ _].
  assert (length (data_writes (issued s)) = length (writes s)) as ->.
  { generalize (issued s). intros l. unfold data_writes. induction l as [|[] l IH]; [done|..]; rewrite bind_cons; cbn; try exact IH. by f_equal. }
  set (num := λ p, h + off (active_first_pos (que s)) p). set (F := Z.of_nat (length (fills (sub s)))) in *.
  assert (num <$> writes s ⊆+ seqZ (h + w) (F - (h + w))) as Hsub.
  { assert (∀ p, p ∈ writes s → is_pos p ∧ h + w ≤ num p < F) as Hnum.
    - intros p Hin. destruct (Hheld p Hin) as (i & Hp & c & Hc & Hst & _). split; [done|]. destruct (Hctx p c Hp Hc) as (Hph & _).
      unfold num. set (o := off _ _) in *. pose proof (off_bound (active_first_pos (que s)) p) as Ho. fold o in Ho.
      assert (w ≤ o < k) as Hwk by (rewrite Hst in Hph; revert Hph; unfold phase; repeat case_decide; try lia; naive_solver).
      destruct (decide (h + o < F)) as [|Hge]; [lia|exfalso].
      destruct (lookup_lt_is_Some_2 (dcache (sub s)) (Z.to_nat (h + o - F))) as [p' Hp']; [lia|].
      destruct (dcache_number _ _ _ _ _ _ _ _ _ _ I Hok C Hp') as (Ep & _).
      assert (p' = p) as ->.
      { rewrite Ep. replace (Z.of_nat _) with (h + o) by lia. unfold o. rewrite (ct_pos _ _ _ _ _ C). by rewrite number_off. }
      apply NoDup_app in Hnd as (_ & Hd & _). apply (Hd p); [by eapply list_elem_of_lookup_2|done].
    - apply NoDup_submseteq.
      + apply NoDup_fmap_2_strong; [|by apply NoDup_app in Hnd as (_ & _ & ?)]. intros p p' Hp Hp' E. unfold num in E.
        apply (off_inj (active_first_pos (que s))); [by apply Hnum|by apply Hnum|lia].
      + intros x (p & -> & Hin)%list_elem_of_fmap. apply elem_of_seqZ. specialize (Hnum p Hin). lia. }
  apply submseteq_length in Hsub. rewrite length_fmap, length_seqZ in Hsub. lia.
Qed.

Lemma mem_inv_spec db T ps tr s :
  mem_inv db T ps tr s →
  let D := desc_writes dl tr in let W := data_writes tr in
  W.*1 = (λ n, field (ring n) 0 8) <$> seqZ 0 (Z.of_nat (length W)) ∧
  Forall (λ x, Z.of_nat (length x.2) ≤ db) W ∧
  D.*1 = (λ n, B + n mod ring_len * dl) <$> seqZ 0 (Z.of_nat (length D)) ∧
  (length D + length (data_writes (issued s)) ≤ length W)%nat ∧ Z.of_nat (length W) ≤ T ∧
  (reassemble [] (driver_view D W)).1 `prefix_of` ps ∧
  (issued s = [] → reassemble [] (driver_view D W) = (ps, [])).
Proof using All.
  intros M. pose proof M as [(Hr & Hdb & Hcomp) (h & w & k & I & C) _ Hp]. pose proof Hr as (h' & w' & k' & I' & Hok & _).
  pose proof (fills_count _ _ _ _ _ _ I Hok) as Hcount. pose proof (ct_le _ _ _ _ _ C) as (Hh & Hw0 & Hle).
  pose proof (writes_before _ _ _ _ _ _ I Hok C) as Hbefore. pose proof I as [_ _ _ _ _ (Hw & Hk & _) _ [_ HT] _ _ _ _ _].
  specialize (Hcomp []). cbn [reassemble] in Hcomp. rewrite !app_nil_r in Hcomp. cbn zeta.
  rewrite (driver_view_spec _ _ _ _ _ C). rewrite (ct_data _ _ _ _ _ C), (ct_wb _ _ _ _ _ C). rewrite !length_imap, length_take.
  split_and!.
  - apply (imap_fst (λ n, field (ring n) 0 8) (λ _ f, f_data f)).
  - apply Forall_lookup. intros i x Hx. rewrite list_lookup_imap in Hx.
    apply fmap_Some in Hx as (f & Hf & ->). exact (Forall_lookup_1 _ _ _ _ Hp Hf).
  - rewrite (imap_fst entry_addr (λ _ f, take (Z.to_nat dl) (f_desc f))). by rewrite length_take.
  - lia.
  - lia.
  - pose proof (reassemble_prefix (take (Z.to_nat (h + w)) (fills (sub s))) (drop (Z.to_nat (h + w)) (fills (sub s))) []) as Hpre.
    rewrite take_drop, Hcomp in Hpre. exact Hpre.
  - intros Hq. rewrite take_ge; [exact Hcomp|]. pose proof (quiet_written _ _ _ _ _ _ _ _ M I C Hq). lia.
Qed.

End content.

(** ** The queue does not give up

    The only methods of the receive queue that can fail by themselves are the interrupt and the
    choice of a time stamp; with a proper interrupt vector and packets that are long enough they
    do not. *)

(** The interrupts of the queue are off, or its vector and interval register exist. *)
Definition vector_ok (r : lan_queue_rx) : Prop :=
  let b := rx_lan r in let vec := QINT_MSIX_INDX (reg_intqctl b) in
  Z.land (reg_intqctl b) QINT_CAUSE_ENA_MASK = 0 ∨
  ((Z.to_nat vec < length (intevs (dev b)))%nat ∧ is_Some (mindelay (dev b) vec (QINT_ITR_INDX (reg_intqctl b)))).

Lemma vector_ok_dev r d :
  vector_ok r → length (intevs d) = length (intevs (dev (rx_lan r))) →
  (∀ vec itr, mindelay d vec itr = mindelay (dev (rx_lan r)) vec itr) → vector_ok (set_lan r (set_dev (rx_lan r) d)).
Proof. intros [H|[H1 H2]] El Em; [by left|right]. cbn. by rewrite El, Em. Qed.

Lemma interrupt_ok (s : qstate lan_queue_rx) : vector_ok (sub s) → clean vector_ok (interrupt s).
Proof.
  intros Hv. cbn. unfold lan_queue_interrupt. cbn [lan_of rx_lan_queue].
  destruct (lan_interrupt _ _) as [d|] eqn:E; cbn.
  - apply vector_ok_dev; [done|..].
    + unfold lan_interrupt, SignalInterrupt in E. destruct (negb _); [by simplify_eq|]. apply bind_Some in E as (iev & _ & E).
      apply bind_Some in E as (dl & _ & E). repeat case_match; simplify_eq; cbn; rewrite ?length_insert; done.
    + unfold lan_interrupt, SignalInterrupt in E. destruct (negb _); [by simplify_eq|]. apply bind_Some in E as (iev & _ & E).
      apply bind_Some in E as (dl & _ & E). repeat case_match; by simplify_eq.
  - exfalso. revert E. unfold lan_interrupt. destruct (negb (negb _ && negb _)) eqn:Ec; [done|].
    destruct Hv as [Hz|[Hlt [x Hx]]]; [rewrite Hz in Ec; done|]. unfold SignalInterrupt.
    set (v := Z.lor _ _). set (d := dev (rx_lan (sub s))) in *.
    assert (∀ b : bool, intevs (if b then set_icr0 d v else d) = intevs d) as Hi by (by intros []).
    assert (∀ (b : bool) i j, mindelay (if b then set_icr0 d v else d) i j = mindelay d i j) as Hm by (by intros []).
    rewrite Hi, Hm, Hx. destruct (lookup_lt_is_Some_2 _ _ Hlt) as [iev ->].
    cbn [mbind option_bind]. intros E. destruct (armed iev && _); discriminate E.
Qed.

Lemma engine_clean s e : (∀ s0, e ≠ EvDerived s0) → vector_ok (sub s) → clean vector_ok (step s e).
Proof.
  apply clean_step.
  - intros s0 p Hq. cbn. by apply clean_transition.
  - intros s0 p Hq. done.
  - intros s0 i p n Hq. cbn. unfold base_do_writeback.
    assert (∀ k j, (∀ buf, clean vector_ok (k buf)) → clean vector_ok (gather s0 p j (Z.to_nat n) ≫= k)) as Hg.
    { intros k. induction (Z.to_nat n) as [|m IH] in k |- *; intros j Hk; [apply Hk|]. cbn [gather]. unfold get.
      destruct (ctx s0 _); [|done]. cbn [or_fault mbind sum_bind]. destruct (decide _); [|done].
      specialize (IH (λ rest, k (take (Z.to_nat (desc_len (que s0))) (desc d) ++ rest)) (j + 1) ltac:(intros; apply Hk)).
      destruct (gather _ _ _ _); [done|exact IH]. }
    by apply Hg.
  - intros s0. apply interrupt_ok.
Qed.

Lemma ptp_rx_sample_long ctl1 pkt : (63 ≤ length pkt)%nat → is_Some (ptp_rx_sample ctl1 pkt).
Proof.
  intros Hl. assert (∀ o n, (o + n ≤ 63)%nat → xsums.peek pkt o n = Some (field pkt o n)) as Hp by (intros; apply xsums.peek_ok; lia).
  assert (∀ o u, (o ≤ 42)%nat → is_Some (ptp_match pkt o u ctl1)) as Hm.
  { intros o u Ho. unfold ptp_match. rewrite !Hp by lia. cbn [mbind option_bind]. repeat (case_match; try done). }
  unfold ptp_rx_sample, eth_type, ip_proto, l4_dest. rewrite !Hp by lia. cbn [mbind option_bind].
  destruct (_ =? 0); [done|]. destruct (_ =? xsums.bswap16 ETH_TYPE_IP); cbn [mbind option_bind];
    repeat (case_match; try done); try (apply Hm; lia).
Qed.

Lemma fill_descs_lan id n : ∀ s rest s', fill_descs s rest id n = inr s' → rx_lan (sub s') = rx_lan (sub s).
Proof.
  induction n as [|n IH]; intros s rest s' E; cbn [fill_descs] in E; [by simplify_eq|].
  destruct (dcache (sub s)) as [|pos dc]; [done|].
  assert (∀ s0 p part last i s1, ctx_packet_received s0 p part last i = inr s1 → rx_lan (sub s1) = rx_lan (sub s0)) as Hc.
  { intros s0 p part last i s1 (c & _ & E1)%bind_inr. injection E1 as <-. done. }
  destruct n as [|n]; [by apply Hc in E|]. apply bind_inr in E as (s1 & E1%Hc & E%IH). by rewrite E, E1.
Qed.

Lemma packet_clean s pkt :
  dbuff_size (sub s) ≠ 0 → packet_ok s pkt → vector_ok (sub s) →
  match packet_received s pkt with inl f => f = Engine | inr s' => vector_ok (sub s') end.
Proof.
  intros Hdb [Hne Hlen] Hv. unfold packet_received. destruct (Z.eqb_spec (dbuff_size (sub s)) 0); [done|].
  destruct (negb _); [done|]. destruct (_ <? _); [done|].
  assert (∃ id s1, sample s pkt = Some (id, s1) ∧ vector_ok (sub s1)) as (id & s1 & -> & Hv1).
  { unfold sample. assert (is_Some (ptp_rx_sample (prtsyn_ctl_1 (dev (rx_lan (sub s)))) pkt)) as [smp ->].
    { destruct Hlen as [Hz|Hl]; [|by apply ptp_rx_sample_long]. unfold ptp_rx_sample. rewrite Hz. by exists false. }
    cbn [mbind option_bind]. destruct smp; [|by exists (-1), s]. destruct (rx_timestamp _) as [id d] eqn:E. eexists _, _. split; [done|].
    cbn. unfold rx_timestamp in E. destruct (list_find _ _) as [[i ?]|]; [|simplify_eq; by apply vector_ok_dev].
    destruct (ptp.phc_read _ _). simplify_eq. by apply vector_ok_dev. }
  cbn [or_fault mbind sum_bind]. assert (∀ f, fill_descs s1 pkt id (Z.to_nat (num_descs (sub s) pkt)) = inl f → f = Engine) as Hf.
  { generalize (Z.to_nat (num_descs (sub s) pkt)). intros m. revert s1 pkt Hne Hlen Hv1. clear. intros s1 pkt _ _ _. revert s1 pkt.
    induction m as [|m IH]; intros s1 pkt f E; cbn [fill_descs] in E; [done|]. destruct (dcache _); [by simplify_eq|].
    assert (∀ s0 p part last i g, ctx_packet_received s0 p part last i = inl g → g = Engine) as Hc.
    { intros s0 p part last i g. unfold ctx_packet_received, get. destruct (ctx s0 p); cbn; congruence. }
    destruct m as [|m]; [by eapply Hc|]. destruct (ctx_packet_received _ _ _ _ _) eqn:E1; [cbn in E; simplify_eq; by eapply Hc|].
    by eapply IH. }
  destruct (fill_descs _ _ _ _) as [f|s'] eqn:E; [by apply Hf|]. apply fill_descs_lan in E. unfold vector_ok in *. by rewrite E.
Qed.

(** ** The guarantee *)

Lemma rx_start_mem ring (q : queue_base) (r : lan_queue_rx) :
  rx_start q r → mem_inv (N := len q) ring (base q) (desc_len q) (dbuff_size r) 0 [] [] (MkQs q r [] []).
Proof.
  intros Hst. pose proof (rx_start_inv q r Hst) as Hr. pose proof Hst as ((_ & _ & Hpos & _ & Hcnt & _) & _ & Hfi & _).
  split; [exact Hr| |done|cbn; by rewrite Hfi].
  destruct Hr as ((h & w & k & I & _) & _). exists h, w, k. split; [exact I|].
  pose proof (inv_cnt _ _ _ _ _ _ I) as (Hw & Hk & _). pose proof (inv_idx _ _ _ _ _ _ I) as [Hh _].
  pose proof (inv_tail _ _ _ _ _ _ I) as [_ HT]. cbn [que] in Hk, HT. rewrite Hcnt in Hk, HT. assert (h = 0) as -> by lia. assert (w = 0) as -> by lia.
  split; cbn [que sub]; rewrite ?Hfi, ?Hpos, ?Hcnt; try done; try (intros; cbn [length] in *; lia).
  by intros p a l ?%elem_of_nil.
Qed.

Lemma rx_run_clean ring (db T : Z) {N : RingLen} B dl es : ∀ T ps tr s,
  16 ≤ dl → 0 ≤ B → B + ring_len * dl ≤ 2 ^ 64 → (∀ n, Z.of_nat (length (ring n)) = dl) →
  mem_inv ring B dl db T ps tr s → vector_ok (sub s) → host_run ring T s es → ∃ s', rx_run s es = inr s'.
Proof.
  induction es as [|e es IH]; intros T' ps tr s H1 H2 H3 H4 M Hv Hh; [by exists s|]. cbn [rx_run host_run] in *.
  destruct Hh as [He Hh]. pose proof (mi_rx _ _ _ _ _ _ _ _ M) as Hr.
  assert (∃ s1, rx_step s e = inr s1 ∧ vector_ok (sub s1)) as (s1 & E1 & Hv1).
  { destruct e as [n|i payload|pkt]; cbn [rx_step host_event] in *.
    - pose proof (engine_clean s (EvPost n) ltac:(done) Hv) as Hc. pose proof (post_inv T' s n (proj1 Hr) He) as Hp.
      destruct (step s (EvPost n)) as [f|s1]; [cbn in Hc, Hp; congruence|by exists s1].
    - pose proof (engine_clean s (EvDone i payload) ltac:(done) Hv) as Hc. pose proof (completion_inv T' s i payload (proj1 Hr) (proj1 He)) as Hp.
      destruct (step s (EvDone i payload)) as [f|s1]; [cbn in Hc, Hp; congruence|by exists s1].
    - pose proof (rx_packet_inv T' ps s pkt Hr (proj1 He)) as Hp. destruct Hr as (_ & Hdb & _).
      pose proof (packet_clean s pkt ltac:(lia) He Hv) as Hc. destruct (packet_received s pkt) as [f|s1]; [cbn in Hp; congruence|by exists s1]. }
  rewrite E1 in Hh |- *. cbn [mbind sum_bind].
  destruct (mem_step ring B dl H1 H2 H3 H4 db T' ps tr s e s1 M He E1) as (new & _ & M1). by eapply IH.
Qed.

(** C11: a receive queue that has just been enabled delivers.  The ring has a power of two of
    entries and lies in the address space, the interrupt vector of the queue exists, packets are
    not empty (and hold a PTP header while time stamping is enabled), the driver posts no more than
    the free entries, and reads of the ring return what it has posted.  Then, in whatever order the
    driver posts, DMA operations complete and packets arrive, the queue never fails; the [n]-th
    write of packet data goes to the buffer of the [n]-th descriptor that was posted, and is no
    longer than a buffer; the [n]-th descriptor written back goes to ring entry [n] modulo its
    length, once the write of its data has completed; and what a driver reassembles from the bytes
    written (by the lengths and end-of-packet bits in the descriptors) is a prefix of the packets
    that found enough descriptors, in order -- all of them, and nothing else, whenever no DMA
    operation is in flight. *)
Theorem rx_delivers_in_order (ring : Z → bytes) (q : queue_base) (r : lan_queue_rx) (es : list rx_event) :
  rx_start q r → vector_ok r → ring_fits ring q → host_run ring 0 (MkQs q r [] []) es →
  ∃ s, rx_run (MkQs q r [] []) es = inr s ∧
    let tr := rx_trace (MkQs q r [] []) es in
    let D := desc_writes (desc_len q) tr in
    let W := data_writes tr in
    let ps := accepted (MkQs q r [] []) es in
    W.*1 = (λ n, field (ring n) 0 8) <$> seqZ 0 (Z.of_nat (length W)) ∧
    Forall (λ x, Z.of_nat (length x.2) ≤ dbuff_size r) W ∧
    D.*1 = (λ n, base q + n mod len q * desc_len q) <$> seqZ 0 (Z.of_nat (length D)) ∧
    (length D + length (data_writes (issued s)) ≤ length W)%nat ∧ Z.of_nat (length W) ≤ rx_posted es ∧
    (reassemble [] (driver_view D W)).1 `prefix_of` ps ∧
    (issued s = [] → reassemble [] (driver_view D W) = (ps, [])).
Proof.
  intros Hst Hv (HB & HBl & Hring) Hh. pose (N := len q : RingLen).
  assert (16 ≤ desc_len q) as Hdl by (destruct Hst as ((_ & _ & _ & _ & _ & _ & _ & ? & _) & _); done).
  pose proof (rx_start_mem ring q r Hst) as M.
  destruct (rx_run_clean ring (dbuff_size r) 0 (base q) (desc_len q) es 0 [] [] _ Hdl HB HBl Hring M Hv Hh) as [s E].
  exists s. split; [done|].
  pose proof (mem_run ring (base q) (desc_len q) Hdl HB HBl Hring (dbuff_size r) es 0 [] [] _ s M Hh E) as M'.
  exact (mem_inv_spec ring (base q) (desc_len q) Hdl HB HBl Hring _ _ _ _ _ M').
Qed.

(** ** An example *)

Definition read_okb (ring : Z → bytes) (T : Z) (q : queue_base) (op : dma_op) (payload : bytes) : bool :=
  match op with
  | dma_fetch _ a l =>
      forallb (λ j, bool_decide (slice payload (Z.to_nat (j * desc_len q)) (Z.to_nat (desc_len q)) =
                                 ring_entry ring (len q) T ((a - base q) / desc_len q + j)))
        (seqZ 0 (l / desc_len q))
  | _ => true
  end.

Definition host_eventb (ring : Z → bytes) (T : Z) s (e : rx_event) : bool :=
  match e with
  | RxPost n => validb s (EvPost n)
  | RxDone i payload =>
      validb s (EvDone i payload) &&
      match issued s !! i with Some op => read_okb ring T (que s) op payload | None => true end
  | RxPacket pkt =>
      match pkt with [] => false | _ => true end &&
      ((Z.land (prtsyn_ctl_1 (dev (rx_lan (sub s)))) (Z.shiftl 1 31) =? 0) || (63 <=? length pkt)%nat)
  end.

Fixpoint host_runb (ring : Z → bytes) (T : Z) s (es : list rx_event) : bool :=
  match es with
  | [] => true
  | e :: es =>
      host_eventb ring T s e &&
      match rx_step s e with inr s' => host_runb ring (T + posts e) s' es | inl _ => true end
  end.

Lemma read_okb_sound ring T q op payload : read_okb ring T q op payload = true → read_ok ring T q op payload.
Proof.
  destruct op; try done. cbn. intros Hb j Hj. rewrite forallb_forall in Hb.
  apply (bool_decide_eq_true_1 _), Hb. apply list_elem_of_In, elem_of_seqZ. lia.
Qed.

Lemma host_eventb_sound ring T s e : host_eventb ring T s e = true → host_event ring T s e.
Proof.
  destruct e as [n|i payload|pkt]; cbn [host_eventb host_event]; [by apply validb_sound|..].
  - intros [H1 H2]%andb_true_iff. split; [by apply validb_sound|]. intros op Hop. rewrite Hop in H2. by apply read_okb_sound.
  - intros [H1 H2]%andb_true_iff. split; [by destruct pkt|]. apply orb_true_iff in H2 as [?%Z.eqb_eq|?%Nat.leb_le]; [by left|by right].
Qed.

Lemma host_runb_sound ring es : ∀ T s, host_runb ring T s es = true → host_run ring T s es.
Proof.
  induction es as [|e es IH]; intros T s Hv; [done|]. cbn [host_runb host_run] in *. apply andb_true_iff in Hv as [He Hv].
  split; [by apply host_eventb_sound|]. destruct (rx_step s e); [done|]. by apply IH.
Qed.

(** Eight descriptors are posted; a packet of 300 bytes takes three of them, one of 900 bytes finds
    only five; all operations complete, in another order than they were issued. *)
Definition demo_ring (n : Z) : bytes := le 8 (65536 + n * 4096) ++ le 8 0.

Definition demo_rx : list rx_event :=
  [RxPost 8; RxDone 0 (concat (demo_ring <$> seqZ 0 8)); RxPacket (replicate 300 1); RxPacket (replicate 900 2);
   RxDone 1 []; RxPacket (replicate 10 3); RxDone 2 []; RxDone 0 []; RxDone 0 []; RxDone 0 []; RxDone 0 []].

Example demo_rx_runs :
  (λ s, (length (issued s))) <$> match rx_run (MkQs ring_64 idle_rx [] []) demo_rx with inr s => Some s | inl _ => None end = Some 0%nat ∧
  data_writes (rx_trace (MkQs ring_64 idle_rx [] []) demo_rx) =
    [(65536, replicate 128 1); (69632, replicate 128 1); (73728, replicate 44 1); (77824, replicate 10 3)] ∧
  (desc_writes 16 (rx_trace (MkQs ring_64 idle_rx [] []) demo_rx)).*1 = [4096; 4112; 4128; 4144].
Proof. by vm_compute. Qed.

Lemma demo_rx_host : host_run demo_ring 0 (MkQs ring_64 idle_rx [] []) demo_rx.
Proof. apply host_runb_sound. by vm_compute. Qed.

Lemma rx_delivers_in_order_witness :
  ∃ s, rx_run (MkQs ring_64 idle_rx [] []) demo_rx = inr s ∧
    let tr := rx_trace (MkQs ring_64 idle_rx [] []) demo_rx in
    let D := desc_writes 16 tr in
    let W := data_writes tr in
    let ps := accepted (MkQs ring_64 idle_rx [] []) demo_rx in
    W.*1 = (λ n, field (demo_ring n) 0 8) <$> seqZ 0 (Z.of_nat (length W)) ∧
    Forall (λ x, Z.of_nat (length x.2) ≤ 128) W ∧
    D.*1 = (λ n, 4096 + n mod 64 * 16) <$> seqZ 0 (Z.of_nat (length D)) ∧
    (length D + length (data_writes (issued s)) ≤ length W)%nat ∧ Z.of_nat (length W) ≤ 8 ∧
    (reassemble [] (driver_view D W)).1 `prefix_of` ps ∧
    (issued s = [] → reassemble [] (driver_view D W) = (ps, [])).
Proof.
  refine (rx_delivers_in_order demo_ring ring_64 idle_rx demo_rx _ _ _ demo_rx_host).
  - split; [apply ring_64_fresh|done].
  - left. reflexivity.
  - split; [done|]. split; [done|]. intros n. cbn [desc_len ring_64]. unfold demo_ring. rewrite length_app, !length_le. reflexivity.
Defined.

End rx_mem.
