(* ===== verification/I40eTx.v ===== *)
(** * Transmit queues of the i40e model

    Translation of [lan_queue_tx] in sims/nic/i40e_bm/i40e_lan.cc.  Processed descriptors are
    kept in [ready_segments] until a whole packet is there (the descriptor with EOP); its data
    is gathered in [pktbuf], checksums are filled in and the packet is sent, or, for TCP
    segmentation, one packet per MSS of payload.  The class keeps the laws of
    I40eQueueInv.v. *)

From S2P Require Import Prelude I40ePtp I40eXsum I40eQueue I40eQueueInv I40eQueueRun I40eLan.

Module tx.
Import queue queue_inv queue_run lan.

(** ** State *)

Definition MTU : Z := 9024.

(** The part of the queue that assembles packets. *)
Record txbuf := MkBuf { pktbuf : bytes; tso_off : Z; tso_len : Z }.

(** [ready_segments] holds positions of contexts. *)
Record lan_queue_tx := MkTx {
  tx_lan : lan_queue_base;
  buf : txbuf;
  ready_segments : list Z;
  hwb : bool;
  hwb_addr : Z
}.

Definition set_lan (q : lan_queue_tx) (b : lan_queue_base) : lan_queue_tx :=
  MkTx b (buf q) (ready_segments q) (hwb q) (hwb_addr q).
Definition set_buf (q : lan_queue_tx) (b : txbuf) : lan_queue_tx :=
  MkTx (tx_lan q) b (ready_segments q) (hwb q) (hwb_addr q).
Definition set_ready (q : lan_queue_tx) (r : list Z) : lan_queue_tx :=
  MkTx (tx_lan q) (buf q) r (hwb q) (hwb_addr q).

Implicit Types s : qstate lan_queue_tx.

Definition update s (q : lan_queue_tx) : qstate lan_queue_tx := MkQs (que s) q (issued s) (log s).
Definition update_dev s (d : lan_dev) : qstate lan_queue_tx :=
  update s (set_lan (sub s) (set_dev (tx_lan (sub s)) d)).

(** ** Initialisation and reset *)

(** [initialize] decodes the 128-byte queue context. *)
Definition tx_initialize s (ctx : bytes) : option (qstate lan_queue_tx) :=
  head ← xsums.peek ctx 0 2;
  base_w ← xsums.peek ctx 4 8;
  hwb_qlen ← xsums.peek ctx 20 2;
  hwb_a ← xsums.peek ctx 24 8;
  let q := que s in
  Some (MkQs
    (MkQueue (desc_ctxs q) (active_first_pos q) (active_first_idx q) (active_cnt q)
       (u64 (Z.land base_w (Z.ones 57) * 128)) (bits hwb_qlen 1 13) (Z.land head (Z.ones 13))
       (reg_tail q) (enabled q) (desc_len q))
    (MkTx (tx_lan (sub s)) (buf (sub s)) (ready_segments (sub s))
       (negb (Z.land hwb_qlen 1 =? 0)) hwb_a)
    (issued s) (log s)).

#[export] Instance tx_lan_queue : LanQueue lan_queue_tx := {|
  lan_of := tx_lan; with_lan := set_lan; lan.initialize := tx_initialize |}.

(** [lan_queue_tx::reset] *)
Definition tx_reset s : qstate lan_queue_tx :=
  base_reset (update s (set_ready (set_buf (sub s) (MkBuf (pktbuf (buf (sub s))) 0 0)) [])).

(** ** Descriptors *)

Definition DTYPE_DATA : Z := 0.
Definition DTYPE_CONTEXT : Z := 1.
Definition DTYPE_DESC_DONE : Z := 15.
Definition L4T_EOFT_TCP : Z := 0x100.
Definition L4T_EOFT_UDP : Z := 0x300.

(** [cmd_type_offset_bsz], the second word, and its fields. *)
Definition qword1 (c : desc_ctx) : Z := field (desc c) 8 8.
Definition dtype (d1 : Z) : Z := bits d1 0 4.
Definition cmd (d1 : Z) : Z := bits d1 4 10.
Definition is_eop (d1 : Z) : bool := Z.testbit (cmd d1) 0.
Definition l4t (d1 : Z) : Z := Z.land (cmd d1) 0x300.
Definition maclen (d1 : Z) : Z := bits (bits d1 16 18) 0 7 * 2.
Definition iplen (d1 : Z) : Z := bits (bits d1 16 18) 7 7 * 4.
Definition l4len (d1 : Z) : Z := bits (bits d1 16 18) 14 4 * 4.
Definition buf_sz (d1 : Z) : Z := bits d1 34 14.

(** The fields of a context descriptor. *)
Definition ctx_tso (d1 : Z) : bool := Z.testbit (bits d1 4 16) 0.
Definition ctx_tsyn (d1 : Z) : bool := Z.testbit (bits d1 4 16) 1.
Definition ctx_mss (d1 : Z) : Z := bits d1 50 14.

(** ** Assembling a packet *)

(** What [trigger_tx_packet] reads from the descriptors of a packet. *)
Record tx_unit := MkUnit {
  u_tso : bool;
  u_tsyn : bool;
  u_mss : Z;
  u_skip : nat;
  u_eop : Z;        (* the second word of the EOP descriptor *)
  u_total : Z
}.

(** The search for the EOP descriptor: [None] is [abort()], [Some None] a packet that is not
    complete yet. *)
Fixpoint find_eop (segs : list desc_ctx) (total_len : Z) : option (option (Z * Z)) :=
  match segs with
  | [] => Some None
  | c :: segs =>
      let d1 := qword1 c in
      if negb (dtype d1 =? DTYPE_DATA) then None
      else
        let total_len := u32 (total_len + buf_sz d1) in
        if is_eop d1 then Some (Some (d1, total_len)) else find_eop segs total_len
  end.

Definition scan (segs : list desc_ctx) : option (option tx_unit) :=
  match segs with
  | [] => Some None
  | c :: rest =>
      let d1 := qword1 c in
      if dtype d1 =? DTYPE_CONTEXT then
        e ← find_eop rest 0;
        Some ('(eop, total) ← e; Some (MkUnit (ctx_tso d1) (ctx_tsyn d1) (ctx_mss d1) 1 eop total))
      else
        e ← find_eop segs 0;
        Some ('(eop, total) ← e; Some (MkUnit false false 0 0 eop total))
  end.

Definition hdrlen (u : tx_unit) : Z := maclen (u_eop u) + iplen (u_eop u) + l4len (u_eop u).

Definition data_limit (u : tx_unit) (off : Z) : Z :=
  if u_tso u then
    let l := if off =? 0 then u32 (hdrlen u + u_mss u) else u32 (off + u_mss u) in
    if u_total u <? l then u_total u else l
  else u_total u.

(** [memcpy(pktbuf + tso_len, rd->data + from, n)]; [None] if it leaves one of the buffers. *)
Definition append (b : txbuf) (data_ : bytes) (from n : Z) : option bytes :=
  if decide (from + n ≤ Z.of_nat (length data_)) then
    xsums.poke (pktbuf b) (Z.to_nat (tso_len b)) (slice data_ (Z.to_nat from) (Z.to_nat n))
  else None.

(** The loop that copies the data of this packet; it returns [dcnt] too. *)
Fixpoint copy_segs (segs : list desc_ctx) (off limit : Z) (b : txbuf) (dcnt : nat) :
    option (txbuf * nat) :=
  match segs with
  | [] => Some (b, dcnt)
  | c :: segs =>
      if off <? limit then
        let pkt_len := buf_sz (qword1 c) in
        b ← (if (off <=? tso_off b) && (tso_off b <? u32 (off + pkt_len)) then
               let start := tso_off b in
               let end_ := u32 (off + pkt_len) in
               let end_ := if limit <? end_ then limit else end_ in
               pb ← append b (data c) (u32 (start - off)) (u32 (end_ - start));
               Some (MkBuf pb end_ (u32 (tso_len b + (end_ - start))))
             else Some b);
        copy_segs segs (u32 (off + pkt_len)) limit b (S dcnt)
      else Some (b, dcnt)
  end.

(** Checksum offload: [f] on the packet from [off]. *)
Definition at_offset (p : bytes) (off : Z) (f : bytes → option bytes) : option bytes :=
  if decide (off ≤ Z.of_nat (length p)) then
    p' ← f (drop (Z.to_nat off) p); Some (take (Z.to_nat off) p ++ p')
  else None.

(** A packet that is not segmented; [None]: a length that wraps or leaves the buffer. *)
Definition l4_offload (u : tx_unit) (b : txbuf) : option bytes :=
  let off := maclen (u_eop u) + iplen (u_eop u) in
  if l4t (u_eop u) =? L4T_EOFT_TCP then
    at_offset (pktbuf b) off (λ p, xsums.xsum_tcp p (u64 (tso_len b - off)))
  else if l4t (u_eop u) =? L4T_EOFT_UDP then
    at_offset (pktbuf b) off (λ p, xsums.xsum_udp p (u64 (tso_len b - off)))
  else Some (pktbuf b).

(** ** Sending *)

Definition frame (pb : bytes) (n : Z) : bytes := take (Z.to_nat n) pb.

Definition send s (f : bytes) : qstate lan_queue_tx :=
  update_dev s (call (dev (tx_lan (sub s))) (EthSend f)).

(** The transmit time stamp. *)
Definition tx_timestamp (d : lan_dev) : option lan_dev :=
  let '(t, p) := ptp.phc_read (ptp d) (time_ps d) in
  let d := MkDev (pfint_icr0 d) (pfint_icr0_ena d) (pfint_dyn_ctl0 d) (pfint_itr0 d) (pfint_itrn d)
             (prtsyn_ctl_0 d) (prtsyn_ctl_1 d) (Z.lor (prtsyn_stat_0 d) (Z.shiftl 1 4))
             (prtsyn_stat_1 d) (prtsyn_rxtime_lock d) (prtsyn_rxtime d) t p (intevs d)
             (int_msix_en d) (time_ps d) (calls d) in
  if negb (Z.land (prtsyn_ctl_0 d) (Z.shiftl 1 1) =? 0) &&
     negb (Z.land (pfint_icr0_ena d) ICR0_TIMESYNC_MASK =? 0)
  then SignalInterrupt (set_icr0 d (Z.lor (pfint_icr0 d) (Z.lor ICR0_INTEVENT_MASK ICR0_TIMESYNC_MASK))) 0 0
  else Some d.

(** [tx_desc_ctx::processed] *)
Definition tx_processed s (pos : Z) : result (qstate lan_queue_tx) :=
  c ← get s pos;
  processed (put s pos (MkCtx (state c) (index c)
    (take 8 (desc c) ++ le 8 (Z.shiftl DTYPE_DESC_DONE 0) ++ drop 16 (desc c)) (data c))) pos.

(** [while (dcnt-- > 0)]: the descriptors of the packet are done. *)
Fixpoint finish s (n : nat) : result (qstate lan_queue_tx) :=
  match n with
  | O => inr s
  | Datatypes.S n =>
      match ready_segments (sub s) with
      | [] => inl Engine
      | pos :: r =>
          s ← tx_processed s pos;
          finish (update s (set_ready (sub s) r)) n
      end
  end.

(** The end of [trigger_tx_packet], once the last packet of the unit has been sent. *)
Definition complete_unit s (u : tx_unit) (dcnt : nat) : result (qstate lan_queue_tx) :=
  s ← (if u_tsyn u
       then d ← or_fault (tx_timestamp (dev (tx_lan (sub s)))) Derived; inr (update_dev s d)
       else inr s);
  s ← finish s dcnt;
  inr (update s (set_buf (sub s) (MkBuf (pktbuf (buf (sub s))) 0 0))).

(** [lan_queue_tx::trigger_tx_packet] *)
Definition trigger_tx_packet s : result (bool * qstate lan_queue_tx) :=
  segs ← or_fault (mapM (ctx s) (ready_segments (sub s))) Engine;
  ou ← or_fault (scan segs) Derived;
  match ou with
  | None => inr (false, s)
  | Some u =>
      if negb (u_tso u) && (MTU <? u_total u) then inl Derived
      else
        '(b, dcnt) ← or_fault (copy_segs (drop (u_skip u) segs) 0
                          (data_limit u (tso_off (buf (sub s)))) (buf (sub s)) (u_skip u)) Derived;
        if MTU <? tso_len b then inl Derived
        else if negb (u_tso u) then
          pb ← or_fault (l4_offload u b) Derived;
          let s := update s (set_buf (sub s) (MkBuf pb (tso_off b) (tso_len b))) in
          s ← complete_unit (send s (frame pb (tso_len b))) u dcnt;
          inr (true, s)
        else
          let paylen := u32 (tso_len b - hdrlen u) in
          let paylen := if u_mss u <? paylen then u_mss u else paylen in
          let il := u8 (iplen (u_eop u)) in
          let ll := u8 (l4len (u_eop u)) in
          pb ← or_fault (at_offset (pktbuf b) (maclen (u_eop u))
                           (λ p, xsums.xsum_tcpip_tso p il ll (u16 paylen))) Derived;
          let s := send s (frame pb (tso_len b)) in
          pb' ← or_fault (at_offset pb (maclen (u_eop u))
                            (λ p, xsums.tso_postupdate_header p il ll (u16 paylen))) Derived;
          if tso_off b <? u_total u then
            inr (true, update s (set_buf (sub s) (MkBuf pb' (tso_off b) (hdrlen u))))
          else
            s ← complete_unit (update s (set_buf (sub s) (MkBuf pb' (tso_off b) (tso_len b)))) u dcnt;
            inr (true, s)
  end.

(** [trigger_tx]: [None] if the fuel does not suffice. *)
Fixpoint tx_loop (fuel : nat) s : option (result (qstate lan_queue_tx)) :=
  match fuel with
  | O => None
  | Datatypes.S fuel =>
      match trigger_tx_packet s with
      | inl f => Some (inl f)
      | inr (true, s) => tx_loop fuel s
      | inr (false, s) => Some (inr s)
      end
  end.

(** Every round takes a descriptor or sends at least one byte of data (see
    [tx_loop_terminates]). *)
Definition weight (c : desc_ctx) : Z := 1 + buf_sz (qword1 c).
Definition tx_fuel s : nat :=
  match mapM (ctx s) (ready_segments (sub s)) with
  | Some segs => S (Z.to_nat (foldr (λ c n, weight c + n) 0 segs))
  | None => 1
  end.

(** A loop that does not end is a fault of the class. *)
Definition trigger_tx s : result (qstate lan_queue_tx) :=
  match tx_loop (tx_fuel s) s with Some r => r | None => inl Derived end.

(** ** The virtual methods *)

(** [tx_desc_ctx::prepare] *)
Definition tx_prepare s (pos : Z) : result (qstate lan_queue_tx) :=
  c ← get s pos;
  let d1 := qword1 c in
  if dtype d1 =? DTYPE_DATA then data_fetch s pos (field (desc c) 0 8) (buf_sz d1)
  else if dtype d1 =? DTYPE_CONTEXT then prepared s pos
  else inl Derived.

(** [tx_desc_ctx::process] *)
Definition tx_process s (pos : Z) : result (qstate lan_queue_tx) :=
  trigger_tx (update s (set_ready (sub s) (ready_segments (sub s) ++ [pos]))).

(** [lan_queue_tx::do_writeback] *)
Definition tx_do_writeback s (first_idx first_pos cnt : Z) : result (qstate lan_queue_tx) :=
  if negb (hwb (sub s)) then base_do_writeback s first_idx first_pos cnt
  else if len (que s) =? 0 then inl Engine
  else inr (IssueDma s (dma_hwb first_pos cnt (u32 (first_idx + cnt) mod len (que s))
                          (hwb_addr (sub s)))).

#[export] Instance tx_class : QueueClass lan_queue_tx := {|
  prepare := tx_prepare;
  process := tx_process;
  do_writeback := tx_do_writeback;
  interrupt := lan_queue_interrupt |}.

(** ** The laws *)

(** The queue holds the descriptors that wait, each once, and never writes data. *)
Definition tx_ok s : Prop :=
  NoDup (ready_segments (sub s)) ∧ Forall (λ p, ∃ i, held s p i) (ready_segments (sub s)) ∧
  writes s = [].

(** Processing that starts no DMA. *)
Definition quiet s s' : Prop :=
  que s' = set_ctxs (que s) (desc_ctxs (que s')) ∧ full s' ∧ log s' = log s ∧
  issued s' = issued s ∧
  ∀ p c, is_pos p → ctx s p = Some c → ∃ c', ctx s' p = Some c' ∧
    (c' = c ∨
     (state c = DESC_PROCESSING ∧ index c' = index c ∧ length (desc c') = length (desc c) ∧
      state c' = DESC_PROCESSED)).

Lemma quiet_proc_step s s' : writes s = [] → quiet s s' → proc_step s s'.
Proof.
  intros Hw (Hq & Hf & Hl & Hi & Hc). split; [done|]. split; [done|]. split; [done|].
  rewrite Hi, Hw. split.
  - exists []. rewrite app_nil_r. split; [done|]. split; [by constructor|apply NoDup_nil_2].
  - intros p c Hp Hcp. destruct (Hc p c Hp Hcp) as (c' & Hc' & Hor). exists c'. split; [done|].
    destruct Hor as [?|(? & ? & ? & ?)]; [by left|]. right. split_and!; [done..|]. right.
    split; [done|apply not_elem_of_nil].
Qed.

Lemma quiet_refl s s' :
  full s → que s' = que s → log s' = log s → issued s' = issued s → quiet s s'.
Proof.
  intros Hf Eq El Ei. unfold quiet, full, ctx. rewrite Eq. split; [by destruct (que s)|].
  split_and!; try done. intros p c _ Hc. exists c. auto.
Qed.

Lemma quiet_trans s1 s2 s3 : quiet s1 s2 → quiet s2 s3 → quiet s1 s3.
Proof.
  intros (Q1 & F1 & L1 & I1 & C1) (Q2 & F2 & L2 & I2 & C2).
  split; [by rewrite Q2, Q1|]. split; [done|]. split; [congruence|]. split; [congruence|].
  intros p c Hp Hc. destruct (C1 p c Hp Hc) as (c2 & Hc2 & H2).
  destruct (C2 p c2 Hp Hc2) as (c3 & Hc3 & H3). exists c3. split; [done|].
  destruct H3 as [->|(S3 & ? & ? & ?)]; [done|]. right.
  destruct H2 as [->|(? & ? & ? & S2)]; [done|]. congruence.
Qed.

(** Only contexts in [DESC_PROCESSING] and data writes matter. *)
Lemma tx_ok_frame s s' :
  ready_segments (sub s') = ready_segments (sub s) → writes s' = writes s →
  (∀ p c, is_pos p → p ∈ ready_segments (sub s) → ctx s p = Some c → state c = DESC_PROCESSING →
     ctx s' p = Some c) →
  tx_ok s → tx_ok s'.
Proof.
  intros Er Ew Hc (Hnd & Hall & Hw). unfold tx_ok. rewrite Er, Ew. split; [done|].
  split; [|done]. rewrite Forall_forall in Hall |- *. intros p Hp.
  destruct (Hall p Hp) as [i Hi]. exists i. eapply held_frame; [|done]. intros c.
  apply Hc; [apply Hi|done].
Qed.

(** The first descriptor is done. *)
Lemma tx_processed_spec s pos r :
  full s → tx_ok s → ready_segments (sub s) = pos :: r →
  ∃ s', tx_processed s pos = inr s' ∧
    let s'' := update s' (set_ready (sub s') r) in
    quiet s s'' ∧ tx_ok s'' ∧ sub s'' = set_ready (sub s) r ∧
    (∃ c, ctx s'' pos = Some c ∧ state c = DESC_PROCESSED ∧ dtype (qword1 c) = DTYPE_DESC_DONE) ∧
    ∀ p, is_pos p → p ≠ pos → ctx s'' p = ctx s p.
Proof.
  intros Hf (Hnd & Hall & Hw) Er. rewrite Er in Hnd, Hall.
  apply NoDup_cons in Hnd as [Hnin Hnd]. apply Forall_cons in Hall as [[i (Hp & c & Hc & Hst & Hi & Hl)] Hall].
  unfold tx_processed. rewrite (get_ctx _ _ _ Hc). cbn [mbind sum_bind].
  set (c1 := MkCtx _ _ _ _). unfold processed, transition.
  assert (ctx (put s pos c1) pos = Some c1) as Hc1 by (by rewrite ctx_put, decide_True).
  rewrite (get_ctx _ _ _ Hc1). cbn [mbind sum_bind]. rewrite decide_True by done.
  set (c2 := set_state c1 DESC_PROCESSED). set (s' := put _ _ c2).
  exists s'. split; [done|]. set (s'' := update s' _).
  assert (∀ p, is_pos p → ctx s'' p = if decide (pos = p) then Some c2 else ctx s p) as Hc2.
  { intros p Hpp. change (ctx s'' p) with (ctx s' p). unfold s'.
    rewrite ctx_put by (done || by apply full_put). case_decide; [done|].
    by rewrite ctx_put, decide_False. }
  assert (length (desc c2) = length (desc c)) as Hd.
  { cbn [c2 c1 set_state desc]. rewrite !length_app, length_take, length_le, length_drop. lia. }
  split_and!.
  - split; [done|]. split; [by do 2 apply full_put|]. split; [done|]. split; [done|].
    intros p c0 Hpp Hc0. rewrite Hc2 by done. case_decide as E; [subst p|by eexists; eauto].
    simplify_eq. exists c2. split; [done|]. by right.
  - split; [done|]. split; [|done]. cbn [s'' sub update set_ready ready_segments].
    rewrite Forall_forall in Hall |- *. intros p Hin. destruct (Hall p Hin) as [j Hj].
    exists j. eapply held_frame; [|exact Hj]. intros c0 Hc0 _. rewrite Hc2 by apply Hj.
    assert (pos ≠ p) by (intros ->; done). by rewrite decide_False.
  - done.
  - exists c2. rewrite Hc2, decide_True by done. split; [done|]. split; [done|].
    unfold qword1. cbn [c2 c1 set_state desc]. unfold field.
    rewrite slice_app_r by (rewrite length_take; lia). rewrite length_take.
    replace (8 - _)%nat with 0%nat by lia. by rewrite slice_app_l.
  - intros p Hpp Hne. by rewrite Hc2, decide_False.
Qed.

(** The descriptors at the positions [ps] have been handed back. *)
Definition done_at s (ps : list Z) : Prop :=
  Forall (λ p, ∃ c, ctx s p = Some c ∧ state c = DESC_PROCESSED ∧
            dtype (qword1 c) = DTYPE_DESC_DONE) ps.

Lemma finish_spec n : ∀ s,
  full s → tx_ok s → (n ≤ length (ready_segments (sub s)))%nat →
  ∃ s', finish s n = inr s' ∧ quiet s s' ∧ tx_ok s' ∧
    sub s' = set_ready (sub s) (drop n (ready_segments (sub s))) ∧
    done_at s' (take n (ready_segments (sub s))).
Proof.
  induction n as [|n IH]; intros s Hf Hok Hn; cbn [finish].
  { exists s. split; [done|]. split; [by apply quiet_refl|]. split; [done|].
    split; [by destruct s as [? []]|constructor]. }
  destruct (ready_segments (sub s)) as [|pos r] eqn:Er; [cbn in Hn; lia|].
  destruct (tx_processed_spec s pos r Hf Hok Er) as (s1 & -> & Q1 & O1 & S1 & D1 & C1).
  cbn [mbind sum_bind]. set (s2 := update s1 _) in *.
  destruct (IH s2) as (s' & E & Q2 & O2 & S2 & D2); [apply Q1|done|rewrite S1; cbn in Hn |- *; lia|].
  exists s'. split; [done|]. split; [by eapply quiet_trans|]. split; [done|].
  rewrite S1 in S2, D2. split; [done|]. constructor; [|done].
  destruct D1 as (c & Hc & Hst & Hdt). exists c. destruct Q2 as (_ & _ & _ & _ & HC).
  assert (is_pos pos) as Hp.
  { destruct Hok as (_ & Hall & _). rewrite Er in Hall. apply Forall_cons in Hall as [[i Hi] _].
    apply Hi. }
  destruct (HC pos c Hp Hc) as (c' & Hc' & [->|(? & _)]); [done|congruence].
Qed.

Lemma copy_segs_dcnt segs : ∀ off limit b n b' n',
  copy_segs segs off limit b n = Some (b', n') → (n ≤ n' ≤ n + length segs)%nat.
Proof.
  induction segs as [|c segs IH]; intros off limit b n b' n' E; cbn [copy_segs] in E.
  { simplify_eq. cbn. lia. }
  destruct (off <? limit); [|simplify_eq; cbn; lia].
  apply bind_Some in E as (b1 & _ & E). apply IH in E. cbn. lia.
Qed.

(** What a complete packet does to the queue, whatever is sent. *)
Lemma complete_unit_spec s u dcnt :
  full s → tx_ok s → (dcnt ≤ length (ready_segments (sub s)))%nat →
  match complete_unit s u dcnt with
  | inr s' => quiet s s' ∧ tx_ok s' ∧
      ready_segments (sub s') = drop dcnt (ready_segments (sub s)) ∧
      tso_off (buf (sub s')) = 0 ∧ tso_len (buf (sub s')) = 0 ∧
      pktbuf (buf (sub s')) = pktbuf (buf (sub s)) ∧
      done_at s' (take dcnt (ready_segments (sub s))) ∧
      (u_tsyn u = false → tx_lan (sub s') = tx_lan (sub s))
  | inl f => f = Derived ∧ u_tsyn u = true
  end.
Proof.
  intros Hf Hok Hn. unfold complete_unit.
  assert (∀ s1, que s1 = que s → log s1 = log s → issued s1 = issued s → full s1 ∧ quiet s s1) as H1.
  { intros s1 Eq El Ei. split; [unfold full; by rewrite Eq|by apply quiet_refl]. }
  assert (∀ s1, que s1 = que s → log s1 = log s → issued s1 = issued s →
    ready_segments (sub s1) = ready_segments (sub s) → buf (sub s1) = buf (sub s) →
    ∃ s2, finish s1 dcnt = inr s2 ∧
    let s' := update s2 (set_buf (sub s2) (MkBuf (pktbuf (buf (sub s2))) 0 0)) in
      quiet s s' ∧ tx_ok s' ∧
      ready_segments (sub s') = drop dcnt (ready_segments (sub s)) ∧
      pktbuf (buf (sub s')) = pktbuf (buf (sub s)) ∧
      done_at s' (take dcnt (ready_segments (sub s))) ∧ tx_lan (sub s') = tx_lan (sub s1)) as H2.
  { intros s1 Eq El Ei Er Eb. destruct (H1 s1 Eq El Ei) as [Hf1 Q1].
    destruct (finish_spec dcnt s1) as (s2 & E & Q2 & O2 & S2 & D2); [done| |by rewrite Er|].
    { eapply tx_ok_frame; [done|by rewrite Ei| |done]. intros p c _ _ Hc _. unfold ctx. by rewrite Eq. }
    exists s2. split; [done|]. cbn zeta. split_and!.
    - eapply quiet_trans; [exact Q1|]. eapply quiet_trans; [exact Q2|].
      apply quiet_refl; try done. apply Q2.
    - by eapply tx_ok_frame; [..|exact O2].
    - cbn. by rewrite S2, <- Er.
    - cbn. by rewrite S2, <- Eb.
    - by rewrite <- Er.
    - cbn. by rewrite S2. }
  destruct (u_tsyn u).
  - destruct (tx_timestamp _) as [d|]; [|done]. cbn [or_fault mbind sum_bind].
    destruct (H2 (update_dev s d)) as (s2 & -> & Q & O & R & B & D & L); try done.
  - cbn [mbind sum_bind]. destruct (H2 s) as (s2 & -> & Q & O & R & B & D & L); try done.
Qed.

(** The contexts that wait. *)
Lemma ready_ctxs s :
  full s → tx_ok s → ∃ segs, mapM (ctx s) (ready_segments (sub s)) = Some segs ∧
    length segs = length (ready_segments (sub s)).
Proof.
  intros Hf (_ & Hall & _). induction Hall as [|p ps [i (_ & c & Hc & _)] _ (segs & E & El)].
  - by exists [].
  - exists (c :: segs). cbn. rewrite Hc. cbn. rewrite E. cbn. by rewrite El.
Qed.

Lemma scan_skip segs u : scan segs = Some (Some u) → (u_skip u ≤ length segs)%nat.
Proof.
  destruct segs as [|c segs]; [done|]. unfold scan.
  case_match; intros (e & _ & E)%bind_Some; (destruct e as [[eop total]|]; [|done]);
    injection E as <-; cbn; lia.
Qed.

(** [s'] differs from [s] in the device and the packet buffer only. *)
Definition same_queue s s' : Prop :=
  que s' = que s ∧ log s' = log s ∧ issued s' = issued s ∧
  ready_segments (sub s') = ready_segments (sub s).

Lemma same_queue_ok s s' : full s → tx_ok s → same_queue s s' → quiet s s' ∧ tx_ok s' ∧ full s'.
Proof.
  intros Hf Hok (Eq & El & Ei & Er). split; [by apply quiet_refl|]. split.
  - eapply tx_ok_frame; [done|by rewrite Ei| |done]. intros p c _ _ Hc _. unfold ctx. by rewrite Eq.
  - unfold full. by rewrite Eq.
Qed.

Lemma complete_unit_law s s1 u dcnt :
  full s → tx_ok s → same_queue s s1 → (dcnt ≤ length (ready_segments (sub s)))%nat →
  match complete_unit s1 u dcnt with
  | inr s' => quiet s s' ∧ tx_ok s'
  | inl f => f = Derived
  end.
Proof.
  intros Hf Hok Hsq Hn. destruct (same_queue_ok s s1 Hf Hok Hsq) as (Q1 & O1 & F1).
  destruct Hsq as (_ & _ & _ & Er).
  pose proof (complete_unit_spec s1 u dcnt F1 O1) as Hc. rewrite Er in Hc. specialize (Hc Hn).
  destruct (complete_unit s1 u dcnt) as [f|s']; [apply Hc|]. destruct Hc as (Q2 & O2 & _).
  split; [by eapply quiet_trans|done].
Qed.

Lemma trigger_tx_packet_law s :
  full s → tx_ok s →
  match trigger_tx_packet s with
  | inr (_, s') => quiet s s' ∧ tx_ok s'
  | inl f => f = Derived
  end.
Proof.
  intros Hf Hok. unfold trigger_tx_packet.
  destruct (ready_ctxs s Hf Hok) as (segs & -> & El). cbn [or_fault mbind sum_bind].
  destruct (scan segs) as [[u|]|] eqn:Es; cbn [or_fault mbind sum_bind]; [| |done].
  2:{ split; [by apply quiet_refl|done]. }
  apply scan_skip in Es. destruct (_ && _); [done|].
  destruct (copy_segs _ _ _ _ _) as [[b dcnt]|] eqn:Ec; cbn [or_fault mbind sum_bind]; [|done].
  apply copy_segs_dcnt in Ec. rewrite length_drop in Ec.
  destruct (_ <? _); [done|]. destruct (negb _).
  - destruct (l4_offload u b) as [pb|]; cbn [or_fault mbind sum_bind]; [|done].
    pose proof (complete_unit_law s (send (update s (set_buf (sub s)
      (MkBuf pb (tso_off b) (tso_len b)))) (frame pb (tso_len b))) u dcnt) as Hc.
    destruct (complete_unit _ u dcnt); cbn [mbind sum_bind]; apply Hc; (done || lia).
  - cbn zeta. destruct (at_offset (pktbuf b) _ _) as [pb|]; cbn [or_fault mbind sum_bind]; [|done].
    destruct (at_offset pb _ _) as [pb'|]; cbn [or_fault mbind sum_bind]; [|done].
    set (s1 := send s (frame pb (tso_len b))). destruct (tso_off b <? u_total u).
    + destruct (same_queue_ok s (update s1 (set_buf (sub s1) (MkBuf pb' (tso_off b) (hdrlen u)))))
        as (? & ? & _); done.
    + pose proof (complete_unit_law s (update s1 (set_buf (sub s1)
        (MkBuf pb' (tso_off b) (tso_len b)))) u dcnt) as Hc.
      destruct (complete_unit _ u dcnt); cbn [mbind sum_bind]; apply Hc; (done || lia).
Qed.

Lemma tx_loop_law fuel : ∀ s,
  full s → tx_ok s →
  match tx_loop fuel s with
  | Some (inr s') => quiet s s' ∧ tx_ok s'
  | Some (inl f) => f = Derived
  | None => True
  end.
Proof.
  induction fuel as [|fuel IH]; intros s Hf Hok; [done|]. cbn [tx_loop].
  pose proof (trigger_tx_packet_law s Hf Hok) as Hl.
  destruct (trigger_tx_packet s) as [f|[[] s1]]; [done| |done].
  destruct Hl as [Q1 O1]. specialize (IH s1 ltac:(apply Q1) O1).
  destruct (tx_loop fuel s1) as [[f|s']|]; [done| |done].
  destruct IH as [Q2 O2]. split; [by eapply quiet_trans|done].
Qed.

Lemma tx_process_law s p c :
  full s → is_pos p → ctx s p = Some c → state c = DESC_PREPARED → tx_ok s →
  16 ≤ Z.of_nat (length (desc c)) →
  let s1 := note (put s p (set_state c DESC_PROCESSING)) (index c) in
  match tx_process s1 p with inr s' => proc_step s1 s' ∧ tx_ok s' | inl f => f = Derived end.
Proof.
  intros Hf Hp Hc Hst (Hnd & Hall & Hw) Hl s1. unfold tx_process, trigger_tx.
  set (s2 := update s1 _). assert (full s1) as Hf1 by by apply full_put.
  assert (∀ p', is_pos p' → ctx s2 p' = if decide (p = p') then Some (set_state c DESC_PROCESSING)
                                        else ctx s p') as Hc1.
  { intros p' Hp'. by apply ctx_put. }
  assert (p ∉ ready_segments (sub s)) as Hnin.
  { intros Hin. rewrite Forall_forall in Hall. destruct (Hall p Hin) as (i & _ & c' & Hc' & Hst' & _).
    congruence. }
  assert (tx_ok s2) as Hok2.
  { split; [|split; [|done]]; cbn [s2 s1 note put with_que update sub set_ready ready_segments].
    - apply NoDup_app. split; [done|]. split; [|apply NoDup_singleton].
      intros p' Hin ->%list_elem_of_singleton. done.
    - apply Forall_app. split; [|constructor; [|done]].
      + eapply Forall_impl; [exact Hall|]. intros p' [i Hi]. exists i.
        eapply held_frame; [|exact Hi]. intros c' Hc' Hst'. rewrite Hc1 by apply Hi.
        rewrite decide_False; [done|]. intros ->. congruence.
      + exists (index c). split; [done|]. exists (set_state c DESC_PROCESSING).
        by rewrite Hc1, decide_True. }
  pose proof (tx_loop_law (tx_fuel s2) s2 Hf1 Hok2) as Hlaw.
  destruct (tx_loop _ s2) as [[f|s']|]; [done| |done]. destruct Hlaw as [Q O]. split; [|done].
  apply (quiet_proc_step s2 s' Hw) in Q. done.
Qed.

Lemma tx_prepare_law s p c :
  ctx s p = Some c → state c = DESC_PREPARING →
  match tx_prepare s p with inr s' => prep_step s s' p | inl f => f = Derived end.
Proof.
  intros Hc Hst. unfold tx_prepare. rewrite (get_ctx _ _ _ Hc). cbn [mbind sum_bind].
  destruct (dtype (qword1 c) =? DTYPE_DATA).
  - destruct (data_fetch_step s p c (field (desc c) 0 8) (buf_sz (qword1 c)) Hc Hst)
      as (s' & -> & ?); [|done].
    unfold buf_sz, bits. rewrite Z.land_ones by done. by apply Z.mod_pos_bound.
  - destruct (_ =? _); [|done]. by destruct (prepared_step s p c Hc Hst) as (s' & -> & ?).
Qed.

#[export, refine] Instance tx_laws : QueueLaws lan_queue_tx := {| sub_ok := tx_ok |}.
Proof.
  - intros s s' _ _ Es _ Ew Hc _. apply tx_ok_frame; rewrite ?Es; try done. eauto.
  - intros s s' p l1 l2 _ _ _ _ _ Ew _ _ _ _ (_ & _ & Hw). rewrite Hw in Ew. by destruct l1.
  - intros s p c _ _. apply tx_prepare_law.
  - intros s p c Hf Hp Hc Hst Hok Hl _. by apply tx_process_law.
  - intros s idx pos n Hf Hp Hn Hdl Hlen Hall. cbn [do_writeback tx_class]. unfold tx_do_writeback.
    destruct (negb (hwb (sub s))).
    + destruct (base_do_writeback_law s idx pos n Hf Hp Hn Hdl Hall) as (a & d & -> & E).
      by exists (dma_wb pos a d).
    + destruct (Z.eqb_spec (len (que s)) 0); [lia|]. by eexists.
  - intros s. cbn. unfold lan_queue_interrupt.
    destruct (lan_interrupt _ _); [|done]. cbn. split_and!; [done..|]. by apply tx_ok_frame.
Defined.

End tx.
