(* ===== verification/I40eTxData.v ===== *)
(** * What the transmit queue sends

    The functional part of the transmit queue of I40eTx.v: the packet that leaves is the data
    of its descriptors with the checksums filled in; a segmentation unit leaves as the packets
    of a reference segmentation, which carry the whole payload under valid headers; and the
    loop over packets ends when no descriptor is empty. *)

From S2P Require Import Prelude I40ePtp I40eXsum I40eQueue I40eQueueInv I40eQueueRun I40eLan I40eTx.

Module tx_data.
Import queue queue_inv queue_run lan tx.

Implicit Types s : qstate lan_queue_tx.

(** ** Gathering the data *)

Lemma poke_app (p p1 p2 l1 l2 : bytes) o :
  xsums.poke p o l1 = Some p1 → xsums.poke p1 (o + length l1) l2 = Some p2 →
  xsums.poke p o (l1 ++ l2) = Some p2.
Proof.
  unfold xsums.poke. intros E1 E2. destruct (decide _) as [H1|] in E1; [|done]. injection E1 as <-.
  destruct (decide _) as [H2|] in E2; [|done]. injection E2 as <-. rewrite !length_app, length_take, length_drop in H2.
  rewrite decide_True by (rewrite length_app; lia). f_equal.
  rewrite (app_assoc _ l1), take_app_length' by (rewrite length_app, length_take; lia).
  rewrite length_app, Nat.add_assoc, <- !app_assoc. do 3 f_equal.
  rewrite app_assoc, drop_app_ge by (rewrite length_app, length_take; lia).
  rewrite drop_drop, length_app, length_take. f_equal. lia.
Qed.

Lemma poke_nil (p : bytes) o : (o ≤ length p)%nat → xsums.poke p o [] = Some p.
Proof.
  intros. unfold xsums.poke. rewrite decide_True by (cbn; lia). cbn [length app].
  by rewrite Nat.add_0_r, take_drop.
Qed.

Lemma slice_app_cut (l k : bytes) o n :
  (o ≤ length l)%nat → (length l ≤ o + n)%nat →
  slice (l ++ k) o n = slice l o (length l - o) ++ slice k 0 (o + n - length l).
Proof.
  intros. unfold slice. rewrite drop_app_le by lia. rewrite take_app, length_drop.
  rewrite (take_ge (drop o l) n), (take_ge (drop o l)) by (rewrite length_drop; lia).
  rewrite drop_0. f_equal. f_equal. lia.
Qed.

Lemma slice_app_in (l k : bytes) o n :
  (o + n ≤ length l)%nat → slice (l ++ k) o n = slice l o n.
Proof.
  intros. unfold slice. rewrite drop_app_le by lia. apply take_app_le. rewrite length_drop. lia.
Qed.

(** The data of a descriptor, and of a list of them; [filled]: the buffer has been fetched. *)
Definition seg_data (c : desc_ctx) : bytes := take (Z.to_nat (buf_sz (qword1 c))) (data c).
Definition stream (segs : list desc_ctx) : bytes := concat (seg_data <$> segs).
Definition filled (c : desc_ctx) : Prop := buf_sz (qword1 c) ≤ Z.of_nat (length (data c)).

Lemma buf_sz_bound d1 : 0 ≤ buf_sz d1 < 2 ^ 14.
Proof. unfold buf_sz, bits. rewrite Z.land_ones by done. by apply Z.mod_pos_bound. Qed.

Lemma length_seg_data c : filled c → Z.of_nat (length (seg_data c)) = buf_sz (qword1 c).
Proof. unfold filled, seg_data. pose proof (buf_sz_bound (qword1 c)). rewrite length_take. lia. Qed.

Lemma copy_segs_spec segs : ∀ off b limit n,
  Forall filled segs → 0 ≤ off ≤ tso_off b →
  tso_off b ≤ limit ≤ off + Z.of_nat (length (stream segs)) →
  0 ≤ tso_len b → tso_len b + (limit - tso_off b) ≤ Z.of_nat (length (pktbuf b)) →
  Z.of_nat (length (pktbuf b)) < 2 ^ 32 → off + Z.of_nat (length (stream segs)) < 2 ^ 32 →
  ∃ pb n', copy_segs segs off limit b n =
      Some (MkBuf pb limit (tso_len b + (limit - tso_off b)), n') ∧
    xsums.poke (pktbuf b) (Z.to_nat (tso_len b))
      (slice (stream segs) (Z.to_nat (tso_off b - off)) (Z.to_nat (limit - tso_off b))) = Some pb.
Proof.
  induction segs as [|c segs IH]; intros off b limit n Hfill Hoff Hlim Hlen Hpb Hw1 Hw2; cbn [copy_segs].
  { cbn in Hlim. exists (pktbuf b), n. assert (limit = tso_off b) as -> by lia.
    rewrite Z.sub_diag, Z.add_0_r. split; [by destruct b|]. unfold slice. cbn [stream fmap list_fmap concat]. rewrite drop_nil, take_nil.
    apply poke_nil. lia. }
  apply Forall_cons in Hfill as [Hc Hfill]. pose proof (length_seg_data c Hc) as HL.
  change (stream (c :: segs)) with (seg_data c ++ stream segs) in *. rewrite length_app in *.
  pose proof (buf_sz_bound (qword1 c)). set (L := buf_sz (qword1 c)) in *.
  destruct (Z.ltb_spec off limit).
  2:{ exists (pktbuf b), n. assert (limit = tso_off b) as -> by lia. assert (off = tso_off b) as -> by lia.
      rewrite Z.sub_diag, Z.add_0_r. split; [by destruct b|]. apply poke_nil. lia. }
  rewrite (wrap_id 32 (off + L)) by (unfold fits; lia).
  destruct (Z.leb_spec off (tso_off b)); [|lia]. cbn [andb].
  destruct (Z.ltb_spec (tso_off b) (off + L)).
  - set (e := if limit <? off + L then limit else off + L).
    assert (e = limit `min` (off + L)) as Ee by (unfold e; destruct (Z.ltb_spec limit (off + L)); lia).
    rewrite (wrap_id 32 (tso_off b - off)), (wrap_id 32 (e - tso_off b)) by (unfold fits; lia).
    unfold append. rewrite decide_True by (unfold filled in Hc; fold L in Hc; lia).
    set (l := slice (data c) _ _).
    assert (l = slice (seg_data c ++ stream segs) (Z.to_nat (tso_off b - off)) (Z.to_nat (e - tso_off b))) as El.
    { rewrite slice_app_in by lia. unfold seg_data. rewrite xsums.slice_take; [done|]. fold L. lia. }
    assert (length l = Z.to_nat (e - tso_off b)) as Hl.
    { rewrite El, length_slice; [done|]. rewrite length_app. lia. }
    destruct (xsums.poke (pktbuf b) (Z.to_nat (tso_len b)) l) as [p1|] eqn:E1.
    2:{ unfold xsums.poke in E1. rewrite decide_True in E1 by lia. done. }
    cbn [mbind option_bind]. rewrite (wrap_id 32) by (unfold fits; lia).
    destruct (decide (limit ≤ off + L)) as [Hlast|Hmore].
    + exists p1, (S n). replace e with limit in * by lia. split; [|by rewrite <- El].
      destruct segs as [|c' segs]; cbn [copy_segs]; [done|].
      by destruct (Z.ltb_spec (off + L) limit); [lia|].
    + replace e with (off + L) in * by lia.
      assert (length p1 = length (pktbuf b)) as Hp1.
      { unfold xsums.poke in E1. case_decide; [|done]. simplify_eq.
        rewrite !length_app, length_take, length_drop. lia. }
      destruct (IH (off + L) (MkBuf p1 (off + L) (tso_len b + (off + L - tso_off b))) limit (S n))
        as (pb & n' & -> & Hp); cbn [tso_off tso_len pktbuf] in *; try done; try lia.
      exists pb, n'. split; [do 3 f_equal; lia|]. rewrite slice_app_cut by lia.
      eapply poke_app; [rewrite <- E1; f_equal; rewrite El, slice_app_in by lia; f_equal; lia|].
      rewrite Z.sub_diag in Hp. rewrite <- Hp. f_equal; [|f_equal; lia].
      rewrite length_slice by lia. lia.
  - cbn [mbind option_bind]. destruct (IH (off + L) b limit (S n)) as (pb & n' & -> & Hp); try done; try lia.
    exists pb, n'. split; [done|]. rewrite <- Hp. f_equal.
    rewrite slice_app_r by lia. f_equal; lia.
Qed.

(** How many descriptors the copy loop passes. *)
Fixpoint count_segs (segs : list desc_ctx) (off limit : Z) : nat :=
  match segs with
  | [] => 0
  | c :: segs =>
      if off <? limit then S (count_segs segs (u32 (off + buf_sz (qword1 c))) limit) else 0
  end.

Lemma copy_segs_count segs : ∀ off limit b n b' n',
  copy_segs segs off limit b n = Some (b', n') → n' = (n + count_segs segs off limit)%nat.
Proof.
  induction segs as [|c segs IH]; intros off limit b n b' n' E; cbn [copy_segs count_segs] in *.
  { simplify_eq. lia. }
  destruct (off <? limit); [|simplify_eq; lia].
  apply bind_Some in E as (b1 & _ & E). apply IH in E. lia.
Qed.

(** The descriptors of one packet: [last] is the only one with EOP, and it is not empty. *)
Definition size (segs : list desc_ctx) : Z := foldr (λ c n, buf_sz (qword1 c) + n) 0 segs.

Record packet (pre : list desc_ctx) (last : desc_ctx) : Prop := Packet {
  pk_pre : Forall (λ c, dtype (qword1 c) = DTYPE_DATA ∧ is_eop (qword1 c) = false) pre;
  pk_last : dtype (qword1 last) = DTYPE_DATA ∧ is_eop (qword1 last) = true;
  pk_some : 0 < buf_sz (qword1 last);
  pk_size : size (pre ++ [last]) < 2 ^ 32
}.

Lemma size_app l k : size (l ++ k) = size l + size k.
Proof. induction l as [|c l IH]; [done|]. cbn. unfold size in *. lia. Qed.

Lemma size_pos segs : 0 ≤ size segs.
Proof.
  induction segs as [|c segs IH]; [done|]. cbn. pose proof (buf_sz_bound (qword1 c)).
  unfold size in *. lia.
Qed.

Lemma size_stream segs : Forall filled segs → Z.of_nat (length (stream segs)) = size segs.
Proof.
  induction 1 as [|c segs Hc _ IH]; [done|]. change (stream (c :: segs)) with (seg_data c ++ stream segs).
  rewrite length_app. pose proof (length_seg_data c Hc). unfold size in *. cbn. lia.
Qed.

Lemma size_cons c segs : size (c :: segs) = buf_sz (qword1 c) + size segs.
Proof. done. Qed.

Lemma find_eop_packet pre last post : ∀ total,
  packet pre last → 0 ≤ total → total + size (pre ++ [last]) < 2 ^ 32 →
  find_eop (pre ++ last :: post) total = Some (Some (qword1 last, total + size (pre ++ [last]))).
Proof.
  intros total [Hpre [Hd He] _ _]. revert total. pose proof (buf_sz_bound (qword1 last)).
  induction Hpre as [|c pre [Hdc Hec] _ IH]; intros total Ht Hs;
    cbn [app find_eop]; cbn [app] in Hs; rewrite size_cons in *;
    rewrite ?Hd, ?Hdc, ?He, ?Hec; cbn [Z.eqb negb DTYPE_DATA].
  - change (size []) with 0 in *. by rewrite Z.add_0_r, (wrap_id 32) by (unfold fits; lia).
  - pose proof (buf_sz_bound (qword1 c)). pose proof (size_pos (pre ++ [last])).
    rewrite (wrap_id 32) by (unfold fits; lia). rewrite IH by lia. by rewrite Z.add_assoc.
Qed.

Lemma count_packet pre last post : ∀ off,
  0 < buf_sz (qword1 last) → 0 ≤ off → off + size (pre ++ [last]) < 2 ^ 32 →
  count_segs (pre ++ last :: post) off (off + size (pre ++ [last])) = S (length pre).
Proof.
  induction pre as [|c pre IH]; intros off Hl Hoff Hs; cbn [app count_segs length];
    cbn [app] in Hs; rewrite size_cons in *.
  - change (size []) with 0 in *. set (z := buf_sz (qword1 last)) in *. rewrite Z.add_0_r in *.
    destruct (Z.ltb_spec off (off + z)); [|lia]. f_equal.
    rewrite (wrap_id 32) by (unfold fits; lia). destruct post as [|c post]; [done|]. cbn [count_segs].
    by destruct (Z.ltb_spec (off + z) (off + z)); [lia|].
  - pose proof (buf_sz_bound (qword1 c)). pose proof (size_pos pre).
    assert (0 < size (pre ++ [last])).
    { rewrite size_app, size_cons. change (size []) with 0. lia. }
    destruct (Z.ltb_spec off (off + (buf_sz (qword1 c) + size (pre ++ [last])))); [|lia]. f_equal.
    rewrite (wrap_id 32) by (unfold fits; lia). rewrite Z.add_assoc in Hs |- *. apply IH; lia.
Qed.

(** ** Offload looks at the packet only

    The packet buffer is longer than the packet; what lies behind it plays no part. *)

Definition local (f : bytes → option bytes) : Prop :=
  ∀ p r, f p = Some r → length r = length p ∧ ∀ t, f (p ++ t) = Some (r ++ t).

Lemma poke_local o l : local (λ p, xsums.poke p o l).
Proof.
  intros p r E. unfold xsums.poke in *. destruct (decide _) as [H|] in E; [|done]. injection E as <-.
  split; [rewrite !length_app, length_take, length_drop; lia|]. intros t.
  rewrite decide_True by (rewrite length_app; lia). f_equal.
  rewrite take_app_le, drop_app_le by lia. by rewrite <- !app_assoc.
Qed.

Lemma peek_local (p t : bytes) o n v :
  xsums.peek p o n = Some v → xsums.peek (p ++ t) o n = Some v.
Proof.
  unfold xsums.peek. destruct (decide _) as [H|]; [|done].
  rewrite decide_True by (rewrite length_app; lia). unfold field. by rewrite slice_app_in.
Qed.

Lemma cksum_local (p t : bytes) n v :
  xsums.rte_raw_cksum p n = Some v → xsums.rte_raw_cksum (p ++ t) n = Some v.
Proof.
  unfold xsums.rte_raw_cksum. destruct (decide _) as [H|]; [|done].
  rewrite decide_True by (rewrite length_app; lia). by rewrite take_app_le by lia.
Qed.

Lemma phdr_local (p t : bytes) v :
  xsums.rte_ipv4_phdr_cksum p = Some v → xsums.rte_ipv4_phdr_cksum (p ++ t) = Some v.
Proof.
  unfold xsums.rte_ipv4_phdr_cksum. intros E.
  repeat (let H := fresh in apply bind_Some in E as (? & H & E);
          rewrite (peek_local _ t _ _ _ H); cbn [mbind option_bind]).
  done.
Qed.

Lemma bind_local {A} (m : bytes → option A) (k : A → bytes → option bytes) :
  (∀ p t v, m p = Some v → m (p ++ t) = Some v) → (∀ a, local (k a)) →
  local (λ p, a ← m p; k a p).
Proof.
  intros Hm Hk p r (a & E & Ek)%bind_Some. destruct (Hk a p r Ek) as [Hl Ht]. split; [done|].
  intros t. rewrite (Hm p t a E). apply Ht.
Qed.

Lemma comp_local (f g : bytes → option bytes) : local f → local g → local (λ p, q ← f p; g q).
Proof.
  intros Hf Hg p r (q & Ef & Eg)%bind_Some. destruct (Hf p q Ef) as [Hl Ht].
  destruct (Hg q r Eg) as [Hl' Ht']. split; [congruence|]. intros t. by rewrite Ht; cbn; rewrite Ht'.
Qed.

Lemma xsum_tcp_local n : local (λ p, xsums.xsum_tcp p n).
Proof. apply bind_local; [intros; by apply cksum_local|intros; apply poke_local]. Qed.

Lemma xsum_udp_local n : local (λ p, xsums.xsum_udp p n).
Proof. apply bind_local; [intros; by apply cksum_local|intros; apply poke_local]. Qed.

Lemma xsum_tso_local il ll pl : local (λ p, xsums.xsum_tcpip_tso p il ll pl).
Proof.
  unfold xsums.xsum_tcpip_tso. apply (comp_local (λ p, xsums.poke p _ _)); [apply poke_local|].
  apply (comp_local (λ p, xsums.poke p _ _)); [apply poke_local|].
  apply bind_local; [intros; by apply cksum_local|intros c].
  apply (comp_local (λ p, xsums.poke p _ _)); [apply poke_local|].
  intros p r (q & Ep & E)%bind_Some. destruct (poke_local _ _ p q Ep) as [Hl Ht].
  assert (Z.to_nat il ≤ length q)%nat as Hil.
  { unfold xsums.poke in Ep. destruct (decide _) as [H|] in Ep; [|done]. rewrite length_le in H. lia. }
  apply bind_Some in E as (c1 & E1 & E). apply bind_Some in E as (c2 & E2 & E).
  destruct (poke_local _ _ q r E) as [Hl' Ht']. split; [congruence|]. intros t.
  rewrite Ht. cbn [mbind option_bind]. rewrite drop_app_le by done.
  rewrite (cksum_local _ t _ _ E1). cbn [mbind option_bind]. rewrite (phdr_local _ t _ E2). apply Ht'.
Qed.

Lemma postupdate_local il ll pl : local (λ p, xsums.tso_postupdate_header p il ll pl).
Proof.
  unfold xsums.tso_postupdate_header. apply bind_local; [intros; by apply peek_local|intros seq].
  apply (comp_local (λ p, xsums.poke p _ _)); [apply poke_local|].
  apply bind_local; [intros; by apply peek_local|intros id]. apply poke_local.
Qed.

Lemma at_offset_local off f : local f → local (λ p, at_offset p off f).
Proof.
  intros Hf p r E. unfold at_offset in *. destruct (decide _) as [H|] in E; [|done].
  apply bind_Some in E as (q & Eq & E). injection E as <-. destruct (Hf _ q Eq) as [Hl Ht].
  split; [rewrite length_app, length_take, Hl, length_drop; lia|]. intros t.
  rewrite decide_True by (rewrite length_app; lia). rewrite take_app_le, drop_app_le by lia.
  rewrite Ht. cbn [mbind option_bind]. by rewrite app_assoc.
Qed.

Lemma l4_offload_local u n o : local (λ p, l4_offload u (MkBuf p o n)).
Proof.
  unfold l4_offload. cbn [pktbuf tso_len]. destruct (_ =? _).
  { apply at_offset_local, xsum_tcp_local. }
  destruct (_ =? _); [apply at_offset_local, xsum_udp_local|].
  intros p r [= ->]. done.
Qed.

(** ** One packet *)

Abbreviation waiting s := (mapM (ctx s) (ready_segments (sub s))).
Abbreviation sent s := (calls (dev (tx_lan (sub s)))).

Lemma stream_app l k : stream (l ++ k) = stream l ++ stream k.
Proof. unfold stream. by rewrite fmap_app, concat_app. Qed.

(** At most 128 descriptors wait, of less than 16 KiB each. *)
Lemma waiting_size s segs : tx_ok s → waiting s = Some segs → size segs ≤ 2 ^ 21.
Proof.
  intros (Hnd & Hall & _) Hw. assert (length (ready_segments (sub s)) ≤ 128)%nat as Hl.
  { change 128%nat with (length (seqZ 0 128)). apply submseteq_length, NoDup_submseteq; [done|].
    intros p Hp. rewrite Forall_forall in Hall. destruct (Hall p Hp) as (i & Hpos & _).
    apply elem_of_seqZ. lia. }
  apply mapM_Some, Forall2_length in Hw. assert (∀ l, size l ≤ Z.of_nat (length l) * 2 ^ 14) as Hs.
  { induction l as [|c l IH]; [done|]. rewrite size_cons. pose proof (buf_sz_bound (qword1 c)).
    cbn [length]. lia. }
  specialize (Hs segs). lia.
Qed.

Lemma scan_packet pre last post :
  packet pre last →
  scan (pre ++ last :: post) =
  Some (Some (MkUnit false false 0 0 (qword1 last) (size (pre ++ [last])))).
Proof.
  intros Hpk. pose proof Hpk as [Hpre [Hd _] _ Hs].
  assert (∃ c rest, pre ++ last :: post = c :: rest ∧ dtype (qword1 c) = DTYPE_DATA) as (c & rest & E & Hc).
  { destruct Hpre as [|c pre [? _] _]; [by exists last, post|]. by exists c, (pre ++ last :: post). }
  unfold scan. rewrite E, Hc. cbn [Z.eqb DTYPE_DATA DTYPE_CONTEXT]. rewrite <- E.
  by rewrite find_eop_packet.
Qed.

(** The data of a packet, from [o] to [limit], is put at [tso_len]. *)
Lemma copy_packet pre last post b limit n :
  packet pre last → Forall filled (pre ++ last :: post) → size (pre ++ last :: post) < 2 ^ 32 →
  0 ≤ tso_off b ≤ limit → limit ≤ size (pre ++ [last]) →
  0 ≤ tso_len b → tso_len b + (limit - tso_off b) ≤ Z.of_nat (length (pktbuf b)) →
  Z.of_nat (length (pktbuf b)) < 2 ^ 32 →
  ∃ pb n', copy_segs (pre ++ last :: post) 0 limit b n =
      Some (MkBuf pb limit (tso_len b + (limit - tso_off b)), n') ∧
    xsums.poke (pktbuf b) (Z.to_nat (tso_len b))
      (slice (stream (pre ++ [last])) (Z.to_nat (tso_off b)) (Z.to_nat (limit - tso_off b))) = Some pb ∧
    (limit = size (pre ++ [last]) → n' = (n + S (length pre))%nat).
Proof.
  intros Hpk Hfill Hsz Ho Hlim Hl Hpb Hw.
  pose proof (size_stream _ Hfill) as Hst. pose proof (pk_size _ _ Hpk).
  assert (Forall filled (pre ++ [last])) as Hfill'.
  { rewrite cons_middle, app_assoc in Hfill. by apply Forall_app in Hfill as [? _]. }
  pose proof (size_stream _ Hfill') as Hst'.
  assert (stream (pre ++ last :: post) = stream (pre ++ [last]) ++ stream post) as Es.
  { by rewrite cons_middle, app_assoc, stream_app. }
  rewrite Es, length_app in Hst.
  destruct (copy_segs_spec (pre ++ last :: post) 0 b limit n) as (pb & n' & E & Hp);
    rewrite ?Es, ?length_app; try done; try lia.
  rewrite Z.sub_0_r, Es, slice_app_in in Hp by lia. exists pb, n'. split; [done|].
  split; [done|]. intros ->. apply copy_segs_count in E. rewrite E. f_equal.
  apply (count_packet pre last post 0); [apply Hpk|lia|lia].
Qed.

Lemma packet_stream pre last post :
  Forall filled (pre ++ last :: post) →
  Z.of_nat (length (stream (pre ++ [last]))) = size (pre ++ [last]).
Proof.
  rewrite cons_middle, app_assoc. intros [Hf _]%Forall_app. by apply size_stream.
Qed.

(** The packet at the start of the buffer. *)
Lemma poke_all (pb r X : bytes) n :
  xsums.poke pb 0 (slice X 0 (Z.to_nat n)) = Some r → Z.of_nat (length X) = n →
  ∃ t, r = X ++ t ∧ (length X + length t = length pb)%nat.
Proof.
  intros E Hn. rewrite slice_all in E by lia. unfold xsums.poke in E.
  destruct (decide _) as [H|] in E; [|done]. injection E as <-.
  exists (drop (length X) pb). split; [done|]. rewrite length_drop. cbn in H. lia.
Qed.

Lemma frame_app (f t : bytes) n : Z.of_nat (length f) = n → frame (f ++ t) n = f.
Proof. intros <-. unfold frame. by rewrite Nat2Z.id, take_app_length. Qed.

(** *** The checksum a packet asks for *)

(** Bits 12 and 13 of the second word of the EOP descriptor name the protocol whose checksum is
    to be filled in; the field is at byte 16 of a TCP header and byte 6 of a UDP header. *)
Definition checksum_field (d1 : Z) : option nat :=
  match Z.testbit d1 12, Z.testbit d1 13 with
  | true, false => Some 16%nat
  | true, true => Some 6%nat
  | false, _ => None
  end.

Definition l4_start (d1 : Z) : nat := Z.to_nat (maclen d1 + iplen d1).

(** [f] is the data [X] with the checksum filled in: only the field differs, and the sum a
    receiver takes over the segment, with what the driver had put into the field (the sum of the
    pseudo header), comes out right. *)
Definition checksummed (d1 : Z) (X f : bytes) : Prop :=
  match checksum_field d1 with
  | None => f = X
  | Some k =>
      let o := (l4_start d1 + k)%nat in
      length f = length X ∧
      (∀ i n, (i + n ≤ o ∨ o + 2 ≤ i)%nat → slice f i n = slice X i n) ∧
      xsums.checks (xsums.word_sum (drop (l4_start d1) f) + field X o 2)
  end.

Lemma land_0x300 x : Z.land x 0x300 = (if Z.testbit x 8 then 0x100 else 0) + (if Z.testbit x 9 then 0x200 else 0).
Proof.
  transitivity (Z.lor (if Z.testbit x 8 then 2 ^ 8 else 0) (if Z.testbit x 9 then 2 ^ 9 else 0));
    [|by destruct (Z.testbit x 8), (Z.testbit x 9)].
  apply Z.bits_inj'. intros n Hn. rewrite Z.land_spec, Z.lor_spec. change 0x300 with (Z.lor (2 ^ 8) (2 ^ 9)). rewrite Z.lor_spec.
  assert (∀ (b : bool) m, 0 ≤ m → Z.testbit (if b then 2 ^ m else 0) n = b && (n =? m)) as Hb.
  { intros [] m Hm; [|by rewrite Z.bits_0]. rewrite Z.pow2_bits_eqb by done. apply Z.eqb_sym. }
  rewrite !Hb by lia. rewrite !Z.pow2_bits_eqb by lia. rewrite !(Z.eqb_sym _ n).
  destruct (Z.eqb_spec n 8) as [->|H8]; [by destruct (Z.testbit x 8); rewrite ?andb_false_r|].
  destruct (Z.eqb_spec n 9) as [->|H9]; [by destruct (Z.testbit x 9); rewrite ?andb_false_r|].
  by rewrite !andb_false_r.
Qed.

Lemma l4t_bits d1 : l4t d1 = (if Z.testbit d1 12 then 0x100 else 0) + (if Z.testbit d1 13 then 0x200 else 0).
Proof.
  unfold l4t, cmd, bits. rewrite land_0x300. rewrite !Z.land_spec, !Z.shiftr_spec, !Z.ones_spec_low by lia. by rewrite !andb_true_r.
Qed.

Lemma l4_offload_ok u (X : bytes) n :
  is_bytes X → n = Z.of_nat (length X) → Z.of_nat (length X) ≤ MTU →
  (∀ k, checksum_field (u_eop u) = Some k → (l4_start (u_eop u) + k + 2 ≤ length X)%nat) →
  ∃ f, l4_offload u (MkBuf X 0 n) = Some f ∧ checksummed (u_eop u) X f.
Proof.
  intros HX -> HM Hroom. set (d1 := u_eop u) in *.
  assert (∀ k (xs : bytes → Z → option bytes), Nat.Even k → (l4_start d1 + k + 2 ≤ length X)%nat →
    (∀ p m, xs p m = (c ← xsums.rte_raw_cksum p m; xsums.poke p k (le 2 (xsums.complement16 c)))) →
    ∃ f, at_offset X (maclen d1 + iplen d1) (λ p, xs p (u64 (Z.of_nat (length X) - (maclen d1 + iplen d1)))) = Some f ∧
      length f = length X ∧
      (∀ i m, (i + m ≤ l4_start d1 + k ∨ l4_start d1 + k + 2 ≤ i)%nat → slice f i m = slice X i m) ∧
      xsums.checks (xsums.word_sum (drop (l4_start d1) f) + field X (l4_start d1 + k) 2)) as Hgen.
  { intros k xs Hev Hk Hxs. assert (0 ≤ maclen d1 + iplen d1) as Hpos.
    { unfold maclen, iplen, bits. rewrite !Z.land_ones by done.
      pose proof (Z.mod_pos_bound (Z.shiftr (Z.shiftr d1 16 mod 2 ^ 18) 0) (2 ^ 7)).
      pose proof (Z.mod_pos_bound (Z.shiftr (Z.shiftr d1 16 mod 2 ^ 18) 7) (2 ^ 7)). lia. }
    unfold l4_start in *. set (o := maclen d1 + iplen d1) in *. unfold MTU in HM.
    rewrite (wrap_id 64) by (unfold fits; lia). set (Y := drop (Z.to_nat o) X).
    assert (length Y = length X - Z.to_nat o)%nat as HY by (apply length_drop).
    destruct (xsums.xsum_at_spec k Y (Z.of_nat (length X) - o)) as (c & Y' & Hc & Hp & Hck);
      [by apply is_bytes_drop|done|lia|lia|].
    unfold at_offset. rewrite decide_True by lia. fold Y. rewrite Hxs, Hc. cbn [mbind option_bind]. rewrite Hp. cbn [mbind option_bind].
    pose proof (xsums.poke_length _ _ _ _ Hp) as HY'. eexists. split; [done|].
    assert (length (take (Z.to_nat o) X) = Z.to_nat o) as Ht by (rewrite length_take; lia).
    assert (xsums.poke X (Z.to_nat o + k) (le 2 (xsums.complement16 c)) = Some (take (Z.to_nat o) X ++ Y')) as HpX.
    { unfold xsums.poke in Hp |- *. rewrite length_le in *. destruct (decide _) in Hp; [|done]. injection Hp as <-.
      rewrite decide_True by lia. f_equal. unfold Y.
      rewrite <- take_take_drop, <- app_assoc. do 3 f_equal. rewrite drop_drop. f_equal. cbn. lia. }
    split_and!.
    - rewrite length_app, Ht, HY', HY. lia.
    - intros i m Him. eapply xsums.poke_slice_other; [exact HpX|]. rewrite length_le. lia.
    - rewrite drop_app_length' by done. rewrite take_ge in Hck by lia.
      replace (field X (Z.to_nat o + k) 2) with (field Y k 2); [done|]. unfold field, Y. by rewrite xsums.slice_drop. }
  unfold l4_offload, checksummed. cbn [pktbuf tso_len]. fold d1. rewrite l4t_bits. unfold checksum_field in *.
  destruct (Z.testbit d1 12), (Z.testbit d1 13); cbn [Z.add Z.eqb Pos.eqb L4T_EOFT_TCP L4T_EOFT_UDP].
  - apply (Hgen 6%nat xsums.xsum_udp); [by exists 3%nat|by apply Hroom|done].
  - apply (Hgen 16%nat xsums.xsum_tcp); [by exists 8%nat|by apply Hroom|done].
  - by exists X.
  - by exists X.
Qed.

(** C17: A packet whose descriptors have all arrived, without segmentation and of at most [MTU]
    bytes, leaves in one piece: what is sent is the data of its descriptors, in order, in which, if
    the EOP descriptor asks for a TCP or UDP checksum, exactly the checksum field of that protocol
    behind the MAC and IP headers has been replaced, so that a receiver's sum comes out right when
    the driver had left the sum of the pseudo header there; its descriptors and no others are marked
    done and handed back; and the queue is ready for the next packet.  The EOP descriptor is not
    empty, and the packet is long enough for the checksum field. *)
Theorem tx_packet_sent s pre last post :
  let X := stream (pre ++ [last]) in
  let d1 := qword1 last in
  full s → tx_ok s → waiting s = Some (pre ++ last :: post) →
  packet pre last → Forall filled (pre ++ last :: post) → size (pre ++ [last]) ≤ MTU →
  Z.of_nat (length (pktbuf (buf (sub s)))) = MTU →
  tso_off (buf (sub s)) = 0 → tso_len (buf (sub s)) = 0 →
  is_bytes X → (∀ k, checksum_field d1 = Some k → (l4_start d1 + k + 2 ≤ length X)%nat) →
  ∃ f s', trigger_tx_packet s = inr (true, s') ∧ checksummed d1 X f ∧ sent s' = sent s ++ [EthSend f] ∧
    ready_segments (sub s') = drop (S (length pre)) (ready_segments (sub s)) ∧
    done_at s' (take (S (length pre)) (ready_segments (sub s))) ∧
    tso_off (buf (sub s')) = 0 ∧ tso_len (buf (sub s')) = 0 ∧
    length (pktbuf (buf (sub s'))) = length (pktbuf (buf (sub s))).
Proof.
  intros X d1 Hf Hok Hw Hpk Hfill Hmtu Hpb Ho Hl HX Hroom.
  assert (Z.of_nat (length X) = size (pre ++ [last])) as HXl by (by eapply packet_stream).
  destruct (l4_offload_ok (MkUnit false false 0 0 d1 (size (pre ++ [last]))) X (size (pre ++ [last])) HX) as (f & Hoff & Hf0);
    [done|rewrite HXl; done|done|]. cbn [u_eop] in Hf0. unfold trigger_tx_packet.
  rewrite Hw. cbn [or_fault mbind sum_bind]. rewrite scan_packet by done. cbn [or_fault mbind sum_bind].
  set (u := MkUnit _ _ _ _ _ _) in *. set (n := size (pre ++ [last])) in *. cbn [u_tso u u_total negb andb].
  destruct (Z.ltb_spec MTU n); [lia|]. cbn [u_skip u]. rewrite drop_0.
  change (data_limit u _) with n.
  destruct (copy_packet pre last post (buf (sub s)) n 0) as (pb & dcnt & E & Hp & Hd);
    try done; try lia; try (pose proof (waiting_size s _ Hok Hw); unfold MTU in *; lia).
  rewrite E. cbn [or_fault mbind sum_bind tso_len]. rewrite Ho, Hl, Z.sub_0_r, Z.add_0_l in *.
  destruct (Z.ltb_spec MTU n); [lia|]. specialize (Hd eq_refl) as ->.
  apply poke_all in Hp as (t & -> & Ht); [|by eapply packet_stream].
  destruct (l4_offload_local u n 0 _ _ Hoff) as [Hfl Hloc]. specialize (Hloc t).
  change (l4_offload u (MkBuf (stream (pre ++ [last]) ++ t) n n) = Some (f ++ t)) in Hloc.
  rewrite Hloc. cbn [or_fault mbind sum_bind]. rewrite frame_app by (rewrite Hfl; by eapply packet_stream).
  set (s1 := send _ f). rewrite Nat.add_0_l.
  assert (length (ready_segments (sub s)) = length (pre ++ last :: post)) as Hlen.
  { by apply mapM_Some, Forall2_length in Hw. }
  rewrite length_app in Hlen. cbn [length] in Hlen.
  pose proof (complete_unit_spec s1 u (S (length pre)) Hf) as Hc.
  destruct (complete_unit s1 u (S (length pre))) as [e|s'].
  { destruct Hc as [_ [=]]; [by eapply tx_ok_frame|]. cbn [s1 send update_dev update set_lan set_buf sub ready_segments].
    rewrite Hlen. lia. }
  destruct Hc as (Q & O & R & T1 & T2 & B & D & L); [by eapply tx_ok_frame| |].
  { cbn [s1 send update_dev update set_lan set_buf sub ready_segments]. rewrite Hlen. lia. }
  exists f, s'. cbn [mbind sum_bind]. split_and!; try done.
  - by rewrite L.
  - rewrite B. change (length (f ++ t) = length (pktbuf (buf (sub s)))). by rewrite length_app, Hfl.
Qed.

(** ** Segmentation *)

Lemma take_length_take (l : bytes) m : take (length (take m l)) l = take m l.
Proof.
  rewrite length_take. destruct (Nat.le_ge_cases m (length l)).
  - by rewrite Nat.min_l.
  - rewrite Nat.min_r by done. by rewrite !take_ge.
Qed.

(** The reference: every packet is the header and the next [mss] bytes of the payload, with
    lengths and checksums filled in; the header of the next one is that of the last with the
    sequence number and the identification moved on. *)
Fixpoint tso_frames (u : tx_unit) (hdr pay : bytes) (n : nat) : option (list bytes) :=
  match n with
  | O => None
  | S n =>
      let chunk := take (Z.to_nat (u_mss u)) pay in
      let pl := Z.of_nat (length chunk) in
      let il := u8 (iplen (u_eop u)) in
      let ll := u8 (l4len (u_eop u)) in
      p ← at_offset (hdr ++ chunk) (maclen (u_eop u)) (λ p, xsums.xsum_tcpip_tso p il ll pl);
      p' ← at_offset p (maclen (u_eop u)) (λ p, xsums.tso_postupdate_header p il ll pl);
      if decide (length pay ≤ Z.to_nat (u_mss u))%nat then Some [p]
      else
        rest ← tso_frames u (take (length hdr) p') (drop (Z.to_nat (u_mss u)) pay) n;
        Some (p :: rest)
  end.

Section tso.
Context (c0 last : desc_ctx) (pre post : list desc_ctx) (payload : bytes).

Definition tso_unit : tx_unit :=
  MkUnit true false (ctx_mss (qword1 c0)) 1 (qword1 last) (size (pre ++ [last])).

(** A context descriptor that asks for segmentation, and a packet of at least its headers. *)
Record tso_packet : Prop := TsoPacket {
  tp_ctx : dtype (qword1 c0) = DTYPE_CONTEXT ∧ ctx_tso (qword1 c0) = true ∧
           ctx_tsyn (qword1 c0) = false;
  tp_mss : 0 < ctx_mss (qword1 c0) ∧ hdrlen tso_unit + ctx_mss (qword1 c0) ≤ MTU;
  tp_packet : packet pre last;
  tp_filled : Forall filled (pre ++ last :: post);
  tp_hdr : ∃ h0, stream (pre ++ [last]) = h0 ++ payload ∧ Z.of_nat (length h0) = hdrlen tso_unit
}.

Lemma scan_tso : tso_packet → scan (c0 :: pre ++ last :: post) = Some (Some tso_unit).
Proof.
  intros [(Hd & Ht & Hy) _ Hpk _ _]. unfold scan. rewrite Hd. cbn [Z.eqb DTYPE_CONTEXT Pos.eqb].
  rewrite find_eop_packet by (done || apply Hpk). cbn [mbind option_bind].
  by rewrite Ht, Hy, Z.add_0_l.
Qed.

(** Between two packets of the unit, with [q] bytes of the payload sent and the header of the
    next packet in [hdr]. *)
Record at_round s (hdr : bytes) (q : Z) : Prop := AtRound {
  ar_full : full s;
  ar_ok : tx_ok s;
  ar_waiting : waiting s = Some (c0 :: pre ++ last :: post);
  ar_buf : Z.of_nat (length (pktbuf (buf (sub s)))) = MTU;
  ar_hdr : Z.of_nat (length hdr) = hdrlen tso_unit;
  ar_pos :
    (q = 0 ∧ tso_off (buf (sub s)) = 0 ∧ tso_len (buf (sub s)) = 0 ∧
       stream (pre ++ [last]) = hdr ++ payload) ∨
    (0 < q < Z.of_nat (length payload) ∧ tso_off (buf (sub s)) = hdrlen tso_unit + q ∧
       tso_len (buf (sub s)) = hdrlen tso_unit ∧ take (length hdr) (pktbuf (buf (sub s))) = hdr)
}.

(** The copy loop of one round leaves the header and the next chunk in the buffer. *)
Lemma copy_round s hdr q :
  tso_packet → at_round s hdr q →
  let chunk := take (Z.to_nat (u_mss tso_unit)) (drop (Z.to_nat q) payload) in
  ∃ t n, copy_segs (pre ++ last :: post) 0 (data_limit tso_unit (tso_off (buf (sub s))))
      (buf (sub s)) 1 =
    Some (MkBuf (hdr ++ chunk ++ t) (hdrlen tso_unit + q + Z.of_nat (length chunk))
            (hdrlen tso_unit + Z.of_nat (length chunk)), n) ∧
    Z.of_nat (length (hdr ++ chunk ++ t)) = MTU ∧
    (hdrlen tso_unit + q + Z.of_nat (length chunk) = u_total tso_unit →
       n = (1 + S (length pre))%nat).
Proof.
  intros [_ [Hm HM] Hpk Hfill (h0 & Hx & Hh0)] [Hf Hok Hw Hpb Hh Hpos] chunk.
  change (ctx_mss (qword1 c0)) with (u_mss tso_unit) in *.
  set (u := tso_unit) in *. set (h := hdrlen u) in *. set (m := u_mss u) in *.
  pose proof (packet_stream pre last post Hfill) as Hsz. change (size (pre ++ [last])) with (u_total u) in Hsz.
  pose proof (waiting_size s _ Hok Hw) as Hsize. rewrite size_cons in Hsize.
  rewrite cons_middle, app_assoc, size_app in Hsize. pose proof (size_pos post).
  change (size (pre ++ [last])) with (u_total u) in Hsize.
  pose proof (buf_sz_bound (qword1 c0)). set (N := u_total u) in *.
  assert (N = h + Z.of_nat (length payload)) as HN by (rewrite <- Hsz, Hx, length_app; lia).
  assert (0 ≤ q < Z.of_nat (length payload) ∨ q = 0) as Hq by (destruct Hpos as [?|?]; lia).
  assert (0 ≤ h) by lia.
  assert (Z.of_nat (length chunk) = m `min` (Z.of_nat (length payload) - q)) as Hc.
  { unfold chunk. rewrite length_take, length_drop. lia. }
  assert (data_limit u (tso_off (buf (sub s))) = h + q + Z.of_nat (length chunk)) as Hlim.
  { unfold data_limit. change (u_tso u) with true. cbv iota. fold h m N. unfold MTU in *.
    destruct Hpos as [(-> & -> & _)|(Hq' & -> & _)].
    - cbn [Z.eqb]. rewrite (wrap_id 32) by (unfold fits; lia). destruct (Z.ltb_spec N (h + m)); lia.
    - destruct (Z.eqb_spec (h + q) 0); [lia|]. rewrite (wrap_id 32) by (unfold fits; lia).
      destruct (Z.ltb_spec N (h + q + m)); lia. }
  rewrite Hlim. set (lim := h + q + _) in *.
  assert (0 ≤ tso_off (buf (sub s)) ≤ lim ∧ 0 ≤ tso_len (buf (sub s)) ∧
    tso_len (buf (sub s)) + (lim - tso_off (buf (sub s))) ≤ MTU) as (Hb1 & Hb2 & Hb3).
  { destruct Hpos as [(? & -> & -> & _)|(? & -> & -> & _)]; lia. }
  assert (size (pre ++ last :: post) < 2 ^ 32).
  { rewrite cons_middle, app_assoc, size_app. change (size (pre ++ [last])) with N. lia. }
  assert (lim ≤ size (pre ++ [last])) by (change (size (pre ++ [last])) with N; lia).
  destruct (copy_packet pre last post (buf (sub s)) lim 1) as (pb & n & -> & Hp & Hn);
    try done; unfold MTU in *; try lia.
  destruct Hpos as [(Eq & Eo & El & Ex)|(Hq' & Eo & El & Eh)]; rewrite Eo, El in *.
  - subst q. assert (slice (stream (pre ++ [last])) (Z.to_nat 0) (Z.to_nat (lim - 0)) = hdr ++ chunk) as Es.
    { rewrite Ex. unfold slice. change (Z.to_nat 0) with 0%nat. rewrite drop_0, take_app, take_ge by lia.
      f_equal. replace (_ - _)%nat with (length chunk) by lia. unfold chunk at 1.
      change (Z.to_nat 0) with 0%nat. by rewrite drop_0, take_length_take. }
    rewrite Es in Hp. unfold xsums.poke in Hp. destruct (decide _) as [Hd|] in Hp; [|done].
    injection Hp as <-. exists (drop (length (hdr ++ chunk)) (pktbuf (buf (sub s)))), n.
    rewrite length_app in Hd. cbn in Hd. split; [|split].
    + do 2 f_equal. f_equal; [cbn; by rewrite <- app_assoc|lia].
    + rewrite app_assoc, length_app, length_drop, length_app. lia.
    + intros E. apply Hn. change (size (pre ++ [last])) with N. lia.
  - assert (slice (stream (pre ++ [last])) (Z.to_nat (h + q)) (Z.to_nat (lim - (h + q))) = chunk) as Es.
    { rewrite Hx, slice_app_r by lia. unfold slice. replace (_ - _)%nat with (Z.to_nat q) by lia.
      replace (Z.to_nat _) with (length chunk) by lia. unfold chunk. by rewrite take_length_take. }
    rewrite Es in Hp. unfold xsums.poke in Hp. destruct (decide _) as [Hd|] in Hp; [|done].
    apply (inj Some) in Hp. replace (Z.to_nat h) with (length hdr) in Hp, Hd by lia.
    rewrite Eh in Hp. subst pb.
    exists (drop (length hdr + length chunk) (pktbuf (buf (sub s)))), n. split; [|split].
    + do 2 f_equal. f_equal; lia.
    + rewrite !length_app, length_drop. lia.
    + intros E. apply Hn. change (size (pre ++ [last])) with N. lia.
Qed.

(** The unit has been sent and its descriptors handed back. *)
Definition unit_done s s' (frames : list bytes) : Prop :=
  sent s' = sent s ++ (EthSend <$> frames) ∧
  ready_segments (sub s') = drop (2 + length pre) (ready_segments (sub s)) ∧
  done_at s' (take (2 + length pre) (ready_segments (sub s))) ∧
  tso_off (buf (sub s')) = 0 ∧ tso_len (buf (sub s')) = 0.

Lemma tso_round s hdr q p p' :
  tso_packet → at_round s hdr q →
  let u := tso_unit in
  let pay := drop (Z.to_nat q) payload in
  let chunk := take (Z.to_nat (u_mss u)) pay in
  let pl := Z.of_nat (length chunk) in
  let il := u8 (iplen (u_eop u)) in
  let ll := u8 (l4len (u_eop u)) in
  at_offset (hdr ++ chunk) (maclen (u_eop u)) (λ p, xsums.xsum_tcpip_tso p il ll pl) = Some p →
  at_offset p (maclen (u_eop u)) (λ p, xsums.tso_postupdate_header p il ll pl) = Some p' →
  ∃ s', trigger_tx_packet s = inr (true, s') ∧
    if decide (length pay ≤ Z.to_nat (u_mss u))%nat then unit_done s s' [p]
    else sent s' = sent s ++ [EthSend p] ∧ ready_segments (sub s') = ready_segments (sub s) ∧
         at_round s' (take (length hdr) p') (q + u_mss u).
Proof.
  intros Hp Har u pay chunk pl il ll Ex Ep.
  destruct (copy_round s hdr q Hp Har) as (t & n & Ec & Hlen & Hn). fold u pay chunk pl in Ec, Hlen, Hn.
  pose proof Hp as [_ [Hm HM] Hpk Hfill (h0 & Hx & Hh0)]. pose proof Har as [Hf Hok Hw Hpb Hh Hpos].
  change (ctx_mss (qword1 c0)) with (u_mss u) in *. fold u in Hh0, HM, Hh, Hpos.
  set (h := hdrlen u) in *. set (m := u_mss u) in *.
  assert (Z.of_nat (length payload) = u_total u - h) as HN.
  { pose proof (packet_stream pre last post Hfill) as Hsz. rewrite Hx, length_app in Hsz.
    change (size (pre ++ [last])) with (u_total u) in Hsz. lia. }
  assert (0 ≤ q ≤ Z.of_nat (length payload)) as Hq by (destruct Hpos as [(? & _)|(? & _)]; lia).
  assert (pl = m `min` (Z.of_nat (length payload) - q)) as Hpl.
  { unfold pl, chunk, pay. rewrite length_take, length_drop. lia. }
  unfold trigger_tx_packet. rewrite Hw. cbn [or_fault mbind sum_bind].
  rewrite (scan_tso Hp). fold u. cbn [or_fault mbind sum_bind].
  change (u_tso u) with true. cbn [negb andb]. change (drop (u_skip u) _) with (pre ++ last :: post).
  change (u_skip u) with 1%nat. rewrite Ec. cbn [or_fault mbind sum_bind tso_len tso_off pktbuf].
  destruct (Z.ltb_spec MTU (h + pl)); [lia|]. fold h m. rewrite (wrap_id 32) by (unfold fits, MTU in *; lia).
  replace (h + pl - h) with pl by lia. destruct (Z.ltb_spec m pl); [lia|].
  rewrite (wrap_id 16) by (unfold fits, MTU in *; lia). fold il ll.
  destruct (at_offset_local _ _ (xsum_tso_local il ll pl) _ _ Ex) as [Lp Hp1].
  destruct (at_offset_local _ _ (postupdate_local il ll pl) _ _ Ep) as [Lp' Hp2].
  rewrite app_assoc, Hp1. cbn [or_fault mbind sum_bind]. rewrite Hp2. cbn [or_fault mbind sum_bind].
  rewrite frame_app by (rewrite Lp, length_app; lia).
  set (s1 := send s p). destruct (Z.ltb_spec (h + q + pl) (u_total u)) as [Hmore|Hlast].
  - eexists. split; [done|]. rewrite decide_False by (unfold pay; rewrite length_drop; lia).
    split; [done|]. split; [done|].
    assert (pl = m) by lia. replace (q + m) with (q + pl) by lia.
    assert (length (p' ++ t) = length ((hdr ++ chunk) ++ t)) as Hpt by (rewrite !(length_app _ t), Lp', Lp; lia).
    rewrite <- app_assoc in Hpt. split; try done.
    + cbn. lia.
    + rewrite length_take, Lp', Lp, length_app. change (hdrlen tso_unit) with h. lia.
    + right. split; [lia|]. split; [cbn; change (hdrlen tso_unit) with h; lia|]. split; [done|].
      cbn [update sub set_buf buf pktbuf]. rewrite length_take, Nat.min_l by (rewrite Lp', Lp, length_app; lia).
      rewrite take_app_le; [done|]. rewrite Lp', Lp, length_app. lia.
  - rewrite Hn by lia. set (s2 := update s1 _).
    assert (length (ready_segments (sub s)) = length (c0 :: pre ++ last :: post)) as Hl
      by (by apply mapM_Some, Forall2_length in Hw).
    cbn [length] in Hl. rewrite length_app in Hl. cbn [length] in Hl.
    pose proof (complete_unit_spec s2 u (1 + S (length pre)) Hf) as Hc.
    destruct (complete_unit s2 u (1 + S (length pre))) as [e|s'].
    { destruct Hc as [_ [=]]; [by eapply tx_ok_frame|]. change (ready_segments (sub s2)) with (ready_segments (sub s)). lia. }
    destruct Hc as (Q & O & R & T1 & T2 & B & D & L); [by eapply tx_ok_frame| |].
    { change (ready_segments (sub s2)) with (ready_segments (sub s)). lia. }
    exists s'. split; [done|]. rewrite decide_True by (unfold pay; rewrite length_drop; lia).
    split_and!; try done. by rewrite L.
Qed.

(** All rounds of the unit. *)
Lemma tso_rounds n : ∀ s hdr q frames k,
  tso_packet → at_round s hdr q →
  tso_frames tso_unit hdr (drop (Z.to_nat q) payload) n = Some frames →
  ∃ s', tx_loop (length frames + k) s = tx_loop k s' ∧ unit_done s s' frames.
Proof.
  induction n as [|n IH]; intros s hdr q frames k Hp Har E; [done|]. cbn [tso_frames] in E.
  apply bind_Some in E as (p & Ex & E). apply bind_Some in E as (p' & Ep & E).
  destruct (tso_round s hdr q p p' Hp Har Ex Ep) as (s1 & E1 & Hs1).
  case_decide as Hd.
  - injection E as <-. exists s1. cbn [length Nat.add tx_loop]. by rewrite E1.
  - apply bind_Some in E as (rest & Er & E). injection E as <-.
    destruct Hs1 as (Hsent & Hrd & Har1). pose proof Hp as [_ [Hm _] _ _ _].
    assert (0 ≤ q) by (destruct Har as [_ _ _ _ _ [(? & _)|(? & _)]]; lia).
    rewrite drop_drop in Er.
    replace (Z.to_nat q + Z.to_nat (u_mss tso_unit))%nat with (Z.to_nat (q + u_mss tso_unit)) in Er
      by (change (u_mss tso_unit) with (ctx_mss (qword1 c0)); lia).
    destruct (IH s1 _ _ rest k Hp Har1 Er) as (s' & El & D1 & D2 & D3 & D4).
    exists s'. split; [cbn [length Nat.add tx_loop]; by rewrite E1|].
    rewrite Hsent, Hrd in *. split_and!; try done; [|apply D4..].
    rewrite D1, <- app_assoc. done.
Qed.

End tso.

(** ** The reference carries the payload *)

Lemma maclen_bound d1 : 0 ≤ maclen d1 ≤ 254.
Proof.
  unfold maclen, bits. rewrite !Z.land_ones by done.
  assert (0 ≤ Z.shiftr (Z.shiftr d1 16 mod 2 ^ 18) 0 mod 2 ^ 7 < 2 ^ 7) by (by apply Z.mod_pos_bound). lia.
Qed.

Lemma l4len_bound d1 : 0 ≤ l4len d1 ≤ 60.
Proof.
  unfold l4len, bits. rewrite !Z.land_ones by done.
  assert (0 ≤ Z.shiftr (Z.shiftr d1 16 mod 2 ^ 18) 14 mod 2 ^ 4 < 2 ^ 4) by (by apply Z.mod_pos_bound). lia.
Qed.

(** TCP over IPv4 without IP options. *)
Record tcp4_header (u : tx_unit) (hdr : bytes) : Prop := Tcp4Header {
  th_bytes : is_bytes hdr;
  th_len : Z.of_nat (length hdr) = hdrlen u;
  th_ip : iplen (u_eop u) = 20;
  th_tcp : 20 ≤ l4len (u_eop u)
}.

(** The IP packet in a frame, and its TCP sequence number. *)
Definition ip_of (u : tx_unit) (f : bytes) : bytes := drop (Z.to_nat (maclen (u_eop u))) f.
Definition tcp_seq (u : tx_unit) (f : bytes) : Z :=
  xsums.bswap32 (field (ip_of u f) (20 + xsums.tcp_sent_seq) 4).

(** What a receiver wants of a frame. *)
Definition good_frame (u : tx_unit) (hdr f : bytes) (seq : Z) : Prop :=
  let ip := ip_of u f in
  take (Z.to_nat (maclen (u_eop u))) f = take (Z.to_nat (maclen (u_eop u))) hdr ∧
  field ip xsums.ip_total_length 2 = xsums.bswap16 (Z.of_nat (length ip)) ∧
  xsums.checks (xsums.word_sum (take 20 ip)) ∧
  xsums.checks (xsums.word_sum (drop 20 ip) +
                xsums.word_sum (xsums.pseudo_header ip (Z.of_nat (length ip) - 20))) ∧
  tcp_seq u f = seq.

Lemma at_offset_ok (a b b' : bytes) off f :
  off = Z.of_nat (length a) → f b = Some b' → at_offset (a ++ b) off f = Some (a ++ b').
Proof.
  intros -> E. unfold at_offset. rewrite decide_True by (rewrite length_app; lia).
  rewrite Nat2Z.id, drop_app_length, E. cbn. by rewrite take_app_length.
Qed.

(** One round of the reference. *)
Lemma tso_one u eth ip chunk :
  let hdr := eth ++ ip in
  tcp4_header u hdr → maclen (u_eop u) = Z.of_nat (length eth) → is_bytes chunk →
  Z.of_nat (length chunk) < 2 ^ 14 →
  let pl := Z.of_nat (length chunk) in
  let il := u8 (iplen (u_eop u)) in
  let ll := u8 (l4len (u_eop u)) in
  ∃ p ip',
    at_offset (hdr ++ chunk) (maclen (u_eop u)) (λ p, xsums.xsum_tcpip_tso p il ll pl) = Some (p ++ chunk) ∧
    at_offset (p ++ chunk) (maclen (u_eop u)) (λ p, xsums.tso_postupdate_header p il ll pl) =
      Some ((eth ++ ip') ++ chunk) ∧
    length p = length hdr ∧ good_frame u hdr (p ++ chunk) (tcp_seq u hdr) ∧
    tcp4_header u (eth ++ ip') ∧ length ip' = length ip ∧
    tcp_seq u (eth ++ ip') = u32 (tcp_seq u hdr + pl).
Proof.
  intros hdr [Hb Hl Hi Ht] He Hc Hmax pl il ll.
  assert (il = 20) as -> by (unfold il; by rewrite Hi). pose proof (l4len_bound (u_eop u)).
  assert (ll = l4len (u_eop u)) as -> by (apply wrap_id; unfold fits; lia). set (L := l4len (u_eop u)) in *.
  unfold hdr in *. apply is_bytes_app in Hb as [Hb1 Hb2]. unfold hdrlen in Hl. rewrite Hi in Hl. fold L in Hl.
  rewrite length_app in Hl. assert (Z.of_nat (length ip) = 20 + L) as Hip by lia.
  destruct (xsums.tso_headers_ok (ip ++ chunk) L pl) as (q & Eq & Lq & Bq & Q1 & Q2 & Q3 & Q4);
    [by apply is_bytes_app|lia|lia|lia|rewrite length_app; lia|].
  destruct (xsums.tso_next_segment q 20 L pl) as (q' & Eq' & Lq' & Bq' & R1 & _ & R2);
    [done|lia|rewrite Lq, length_app; lia|].
  change (Z.to_nat 20 + xsums.tcp_sent_seq)%nat with 24%nat in R1, R2. unfold xsums.ip_packet_id in R2.
  rewrite length_app in Lq. set (k := length ip) in *.
  assert (drop k q = chunk) as Dq.
  { pose proof (Q4 k (length chunk) ltac:(lia)) as E. unfold slice in E.
    rewrite (take_ge (drop k q)) in E by (rewrite length_drop; lia).
    rewrite E. unfold k. rewrite drop_app_length. by rewrite take_ge. }
  assert (drop k q' = chunk) as Dq'.
  { pose proof (R2 k (length chunk) ltac:(lia)) as E. unfold slice in E.
    rewrite !take_ge in E by (rewrite length_drop; lia). congruence. }
  exists (eth ++ take k q), (take k q').
  assert (take k q ++ chunk = q) as Jq by (by rewrite <- Dq, take_drop).
  assert (take k q' ++ chunk = q') as Jq' by (by rewrite <- Dq', take_drop).
  assert (∀ x, ip_of u (eth ++ x) = x) as Hipof.
  { intros x. unfold ip_of. by rewrite He, Nat2Z.id, drop_app_length. }
  assert (field (take k q) 24 4 = field q 24 4) as Fq by (unfold field; rewrite xsums.slice_take; [done|lia]).
  assert (field (take k q') 24 4 = field q' 24 4) as Fq' by (unfold field; rewrite xsums.slice_take; [done|lia]).
  assert (field q 24 4 = field ip 24 4) as Fip.
  { unfold field. rewrite (Q4 24%nat 4%nat) by lia. rewrite slice_app_in; [done|lia]. }
  split_and!.
  - rewrite <- !app_assoc, Jq. by apply at_offset_ok.
  - rewrite <- !app_assoc, Jq, Jq'. by apply at_offset_ok.
  - rewrite !length_app, length_take. fold k. lia.
  - unfold good_frame, tcp_seq. rewrite <- app_assoc, !Hipof, Jq.
    change (20 + xsums.tcp_sent_seq)%nat with 24%nat. split_and!.
    + rewrite He, Nat2Z.id, !take_app_length. done.
    + rewrite Q1. f_equal. lia.
    + done.
    + replace (Z.of_nat (length q) - 20) with (L + pl) by lia.
      replace (drop 20 q) with (slice q 20 (Z.to_nat (L + pl))); [done|].
      unfold slice. rewrite take_ge; [done|]. rewrite length_drop. lia.
    + by rewrite Fip.
  - split; [|rewrite length_app, length_take; unfold hdrlen; rewrite Hi; fold L; lia|done|done].
    apply is_bytes_app. split; [done|]. by apply is_bytes_take.
  - rewrite length_take. lia.
  - unfold tcp_seq. rewrite !Hipof. change (20 + xsums.tcp_sent_seq)%nat with 24%nat.
    rewrite Fq', R1, Fip. done.
Qed.

Lemma tcp_seq_fits u hdr : is_bytes hdr → fits 32 (tcp_seq u hdr).
Proof.
  intros Hb. unfold tcp_seq. apply xsums.bswap32_parts, field_fits; [done|].
  by apply is_bytes_drop.
Qed.

Lemma tso_frames_spec u n : ∀ eth ip pay,
  let hdr := eth ++ ip in
  (length pay < n)%nat → tcp4_header u hdr → maclen (u_eop u) = Z.of_nat (length eth) →
  is_bytes pay → 0 < u_mss u < 2 ^ 14 →
  ∃ frames, tso_frames u hdr pay n = Some frames ∧
    concat (drop (length hdr) <$> frames) = pay ∧
    ∀ i f, frames !! i = Some f →
      Z.of_nat (length f) ≤ Z.of_nat (length hdr) + u_mss u ∧
      good_frame u hdr f (u32 (tcp_seq u hdr + Z.of_nat i * u_mss u)).
Proof.
  induction n as [|n IH]; intros eth ip pay hdr Hn Hh He Hp Hm; [lia|]. cbn [tso_frames].
  set (m := Z.to_nat (u_mss u)). set (chunk := take m pay).
  destruct (tso_one u eth ip chunk) as (p & ip' & E1 & E2 & Lp & Hg & Hh' & Lip & Hseq);
    [done|done|by apply is_bytes_take|unfold chunk, m; rewrite length_take; lia|].
  fold hdr in E1, Lp, Hg, Hseq. rewrite E1. cbn [mbind option_bind]. rewrite E2. cbn [mbind option_bind].
  assert (drop (length hdr) (p ++ chunk) = chunk) as Hd by (rewrite <- Lp; apply drop_app_length).
  assert (Z.of_nat (length (p ++ chunk)) ≤ Z.of_nat (length hdr) + u_mss u) as Hlen.
  { rewrite length_app. unfold chunk, m. rewrite length_take. lia. }
  assert (tcp_seq u hdr = u32 (tcp_seq u hdr + Z.of_nat 0 * u_mss u)) as H0.
  { rewrite Z.mul_0_l, Z.add_0_r, (wrap_id 32); [done|]. apply tcp_seq_fits, Hh. }
  case_decide as Hlast.
  - eexists. split; [done|]. cbn [fmap list_fmap concat]. rewrite Hd. split.
    + rewrite app_nil_r. by apply take_ge.
    + intros [|i] f Hf; [|done]. injection Hf as <-. by rewrite <- H0.
  - assert (take (length hdr) ((eth ++ ip') ++ chunk) = eth ++ ip') as ->.
    { apply take_app_length'. unfold hdr. rewrite !length_app. lia. }
    destruct (IH eth ip' (drop m pay)) as (rest & Er & Hc & Hall);
      [rewrite length_drop; unfold m; lia|done|done|by apply is_bytes_drop|done|].
    rewrite Er. cbn [mbind option_bind]. eexists. split; [done|].
    assert (length (eth ++ ip') = length hdr) as Hl by (unfold hdr; rewrite !length_app; lia).
    rewrite fmap_cons. cbn [concat]. rewrite Hd. rewrite Hl in Hc, Hall. split.
    + rewrite Hc. apply take_drop.
    + intros [|i] f Hf; [injection Hf as <-; by rewrite <- H0|].
      destruct (Hall i f Hf) as [Hfl Hfg]. split; [done|].
      assert (length chunk = m) as Hcl by (unfold chunk; rewrite length_take; lia).
      rewrite Hseq, Hcl in Hfg. unfold wrap in Hfg. rewrite Zplus_mod_idemp_l in Hfg.
      replace (tcp_seq u hdr + Z.of_nat (S i) * u_mss u)
        with (tcp_seq u hdr + Z.of_nat m + Z.of_nat i * u_mss u) by (unfold m; lia).
      unfold good_frame in *. unfold hdr. rewrite He, Nat2Z.id, take_app_length in *. exact Hfg.
Qed.

(** Segmentation loses nothing and stays valid: for TCP over IPv4, the packets of the
    reference carry the payload, in order and at most [mss] bytes each; every one has the
    Ethernet header of the unit, its own length in the IP header, IP and TCP checksums that a
    receiver accepts, and a sequence number that counts the payload sent before it, modulo
    2^32. *)
Lemma tso_segments_ok u hdr pay :
  tcp4_header u hdr → is_bytes pay → 0 < u_mss u < 2 ^ 14 →
  ∃ frames, tso_frames u hdr pay (S (length pay)) = Some frames ∧
    concat (drop (length hdr) <$> frames) = pay ∧
    ∀ i f, frames !! i = Some f →
      Z.of_nat (length f) ≤ Z.of_nat (length hdr) + u_mss u ∧
      good_frame u hdr f (u32 (tcp_seq u hdr + Z.of_nat i * u_mss u)).
Proof.
  intros Hh Hp Hm. set (M := Z.to_nat (maclen (u_eop u))). pose proof (maclen_bound (u_eop u)).
  pose proof (l4len_bound (u_eop u)). pose proof (th_len _ _ Hh) as Hl. pose proof (th_ip _ _ Hh) as Hi.
  unfold hdrlen in Hl. rewrite Hi in Hl. rewrite <- (take_drop M hdr) in Hh |- *.
  apply tso_frames_spec; try done; [lia|]. rewrite length_take. unfold M. lia.
Qed.

(** C15: a segmentation unit of TCP over IPv4 that has arrived completely is sent, one packet per
    round of the loop, if its IP header has no options, the TCP header length is at least 20, no
    time stamp is asked for, the MSS is positive, headers and MSS together are at most [MTU], and
    the EOP descriptor is not empty: the packets carry the whole payload, in order and at most
    [mss] bytes each; every one has the Ethernet header of the unit, its own length in the IP
    header, IP and TCP checksums that a receiver accepts, and a sequence number that counts the
    payload sent before it, modulo 2^32. Then all descriptors of the unit, the context descriptor
    included, are marked done and handed back, and the queue is ready for the next packet. *)
Theorem tso_unit_sent s c0 last pre post hdr payload k :
  full s → tx_ok s → waiting s = Some (c0 :: pre ++ last :: post) →
  Z.of_nat (length (pktbuf (buf (sub s)))) = MTU →
  tso_off (buf (sub s)) = 0 → tso_len (buf (sub s)) = 0 →
  tso_packet c0 last pre post payload →
  stream (pre ++ [last]) = hdr ++ payload → is_bytes payload →
  let u := tso_unit c0 last pre in
  tcp4_header u hdr →
  ∃ frames s', tx_loop (length frames + k) s = tx_loop k s' ∧
    sent s' = sent s ++ (EthSend <$> frames) ∧
    concat (drop (length hdr) <$> frames) = payload ∧
    (∀ i f, frames !! i = Some f →
      Z.of_nat (length f) ≤ Z.of_nat (length hdr) + u_mss u ∧
      good_frame u hdr f (u32 (tcp_seq u hdr + Z.of_nat i * u_mss u))) ∧
    ready_segments (sub s') = drop (2 + length pre) (ready_segments (sub s)) ∧
    done_at s' (take (2 + length pre) (ready_segments (sub s))) ∧
    tso_off (buf (sub s')) = 0 ∧ tso_len (buf (sub s')) = 0.
Proof.
  intros Hf Hok Hw Hb Ho Hl Hp Hx Hpay u Hh.
  destruct (tso_segments_ok u hdr payload) as (frames & Hfr & Hc & Hg); [done|done| |].
  { split; [apply Hp|]. unfold u, tso_unit, ctx_mss, bits. cbn [u_mss]. rewrite Z.land_ones by done.
    by apply Z.mod_pos_bound. }
  destruct (tso_rounds c0 last pre post payload (S (length payload)) s hdr 0 frames k Hp)
    as (s' & E & H1 & H2 & H3 & H4 & H5); [|done|].
  { split; try done; [apply Hh|]. by left. }
  exists frames, s'. by split_and!.
Qed.

End tx_data.
