(* ===== verification/I40eTxTerm.v ===== *)
(** * The transmit loop ends

    [trigger_tx] of I40eTx.v calls [trigger_tx_packet] until it returns false.  It ends if no
    data descriptor is empty and no segmentation has an MSS of zero: every round takes
    descriptors away or sends more data of the unit at hand.  With an empty EOP descriptor it
    does not end (I40eTxExample.v). *)

From S2P Require Import Prelude I40ePtp I40eXsum I40eQueue I40eQueueInv I40eQueueRun I40eLan I40eTx.
From S2P Require Import I40eTxData.

Module tx_term.
Import queue queue_inv queue_run lan tx tx_data.

Implicit Types s : qstate lan_queue_tx.

(** The descriptors a driver posts. *)
Definition lively (c : desc_ctx) : Prop :=
  (dtype (qword1 c) = DTYPE_DATA → 0 < buf_sz (qword1 c)) ∧
  (dtype (qword1 c) = DTYPE_CONTEXT → ctx_tso (qword1 c) = true → 0 < ctx_mss (qword1 c)).

Definition total_weight (segs : list desc_ctx) : Z := foldr (λ c n, weight c + n) 0 segs.

Lemma total_weight_app l k : total_weight (l ++ k) = total_weight l + total_weight k.
Proof. induction l as [|c l IH]; [done|]. cbn. unfold total_weight in *. lia. Qed.

Lemma weight_pos c : 1 ≤ weight c.
Proof. unfold weight. pose proof (buf_sz_bound (qword1 c)). lia. Qed.

Lemma total_weight_size l : size l + Z.of_nat (length l) = total_weight l.
Proof. induction l as [|c l IH]; [done|]. rewrite size_cons. cbn -[Z.of_nat]. unfold total_weight in *. unfold weight at 1. lia. Qed.

Lemma hdrlen_bound u : 0 ≤ hdrlen u < 2 ^ 16.
Proof.
  unfold hdrlen. pose proof (maclen_bound (u_eop u)). pose proof (l4len_bound (u_eop u)).
  assert (0 ≤ iplen (u_eop u) < 2 ^ 9); [|lia]. unfold iplen, bits. rewrite !Z.land_ones by done.
  assert (0 ≤ Z.shiftr (Z.shiftr (u_eop u) 16 mod 2 ^ 18) 7 mod 2 ^ 7 < 2 ^ 7) by (by apply Z.mod_pos_bound).
  lia.
Qed.

Lemma tx_loop_more n : ∀ s r k, tx_loop n s = Some r → tx_loop (n + k) s = Some r.
Proof.
  induction n as [|n IH]; intros s r k E; [done|]. cbn [Nat.add tx_loop] in *.
  destruct (trigger_tx_packet s) as [f|[[] s']]; [done| |done]. by apply IH.
Qed.

(** ** What a complete unit looks like *)

Lemma find_eop_Some segs : ∀ total e tot,
  find_eop segs total = Some (Some (e, tot)) → Forall lively segs → 0 ≤ total →
  total + size segs < 2 ^ 32 →
  ∃ pre last post, segs = pre ++ last :: post ∧ packet pre last ∧ e = qword1 last ∧
    tot = total + size (pre ++ [last]).
Proof.
  induction segs as [|c segs IH]; intros total e tot E Hl Ht Hs; [done|]. cbn [find_eop] in E.
  apply Forall_cons in Hl as [[Hc _] Hl]. rewrite size_cons in Hs. pose proof (buf_sz_bound (qword1 c)).
  pose proof (size_pos segs). destruct (Z.eqb_spec (dtype (qword1 c)) DTYPE_DATA) as [Hd|]; [|done].
  cbn [negb] in E. rewrite (wrap_id 32) in E by (unfold fits; lia).
  destruct (is_eop (qword1 c)) eqn:Ee.
  - injection E as <- <-. exists [], c, segs. split; [done|]. rewrite app_nil_l, size_cons.
    change (size []) with 0. split; [|by rewrite Z.add_0_r].
    split; [done|done|by apply Hc|rewrite app_nil_l, size_cons; change (size []) with 0; lia].
  - apply IH in E as (pre & last & post & -> & [P1 P2 P3 P4] & -> & ->); [|done|lia|lia].
    exists (c :: pre), last, post. split; [done|]. rewrite <- app_comm_cons, size_cons.
    split; [|by rewrite Z.add_assoc].
    split; [by constructor|done|done|]. rewrite <- app_comm_cons, size_cons.
    rewrite cons_middle, app_assoc, size_app in Hs. pose proof (size_pos post). lia.
Qed.

Lemma scan_Some segs u :
  scan segs = Some (Some u) → Forall lively segs → size segs < 2 ^ 32 →
  ∃ pre last post, drop (u_skip u) segs = pre ++ last :: post ∧ packet pre last ∧
    (u_skip u ≤ length segs)%nat ∧ u_total u = size (pre ++ [last]) ∧ u_eop u = qword1 last ∧
    (u_tso u = true → u_skip u = 1%nat ∧ 0 < u_mss u < 2 ^ 14).
Proof.
  destruct segs as [|c segs]; [done|]. unfold scan. intros E Hl Hs. rewrite size_cons in Hs.
  pose proof (buf_sz_bound (qword1 c)). pose proof Hl as [[_ Hc] Hl']%Forall_cons.
  destruct (Z.eqb_spec (dtype (qword1 c)) DTYPE_CONTEXT) as [Hd|];
    apply bind_Some in E as ([[e tot]|] & E & Eu); try done; injection Eu as <-;
    apply find_eop_Some in E as (pre & last & post & Eseg & Hp & -> & ->); try done;
    try lia; try (rewrite size_cons; lia);
    exists pre, last, post; cbn [u_skip u_total u_eop u_tso u_mss].
  - split; [done|]. split; [done|]. split; [cbn; lia|]. split; [done|]. split; [done|].
    intros Ht. split; [done|]. split; [by apply Hc|]. unfold ctx_mss, bits. rewrite Z.land_ones by done.
    by apply Z.mod_pos_bound.
  - rewrite drop_0. split; [done|]. split; [done|]. split; [lia|]. done.
Qed.

Lemma unit_size segs k pre last post :
  drop k segs = pre ++ last :: post →
  size segs = size (take k segs) + size (pre ++ [last]) + size post.
Proof.
  intros Ed. rewrite <- (take_drop k segs) at 1.
  rewrite size_app, Ed, cons_middle, app_assoc, size_app. lia.
Qed.

(** If the copies stay in bounds, the data up to the limit has been passed. *)
Lemma copy_segs_off segs : ∀ off limit b n b' n',
  copy_segs segs off limit b n = Some (b', n') → 0 ≤ off ≤ tso_off b →
  tso_off b ≤ limit ≤ off + size segs → off + size segs < 2 ^ 32 → tso_off b' = limit.
Proof.
  induction segs as [|c segs IH]; intros off limit b n b' n' E Ho Hl Hs; cbn [copy_segs] in E.
  { simplify_eq. change (size []) with 0 in Hl. lia. }
  rewrite size_cons in *. pose proof (buf_sz_bound (qword1 c)). pose proof (size_pos segs).
  set (L := buf_sz (qword1 c)) in *. destruct (Z.ltb_spec off limit); [|simplify_eq; lia].
  apply bind_Some in E as (b1 & E1 & E). rewrite (wrap_id 32 (off + L)) in E, E1 by (unfold fits; lia).
  destruct (Z.leb_spec off (tso_off b)); [|lia]. cbn [andb] in E1.
  destruct (Z.ltb_spec (tso_off b) (off + L)).
  - apply bind_Some in E1 as (pb & _ & E1). injection E1 as <-. cbn [tso_off] in *.
    destruct (Z.ltb_spec limit (off + L)).
    + destruct segs as [|c' segs]; cbn [copy_segs] in E; [by simplify_eq|].
      destruct (Z.ltb_spec (off + L) limit); [lia|]. by simplify_eq.
    + apply IH in E; cbn [tso_off]; lia.
  - injection E1 as <-. apply IH in E; lia.
Qed.

(** ** Progress *)

(** In the middle of a unit only if it is a segmentation with data left. *)
Definition in_unit s (segs : list desc_ctx) : Prop :=
  0 ≤ tso_off (buf (sub s)) ∧
  (0 < tso_off (buf (sub s)) → ∃ u, scan segs = Some (Some u) ∧ u_tso u = true ∧
     tso_off (buf (sub s)) < u_total u).

Definition measure s (segs : list desc_ctx) : Z := total_weight segs - tso_off (buf (sub s)).

(** The contexts that still wait are those that waited. *)
Lemma waiting_drop s s' segs n :
  waiting s = Some segs → full s → tx_ok s → quiet s s' → tx_ok s' →
  ready_segments (sub s') = drop n (ready_segments (sub s)) → waiting s' = Some (drop n segs).
Proof.
  intros Hw Hf (_ & Hall & _) (_ & _ & _ & _ & Hq) (_ & Hall' & _) Er.
  apply mapM_Some. apply mapM_Some in Hw. apply (Forall2_drop _ _ _ n) in Hw. rewrite <- Er in Hw.
  eapply Forall2_impl_elem; [exact Hw|]. intros p c Hin Hc.
  rewrite Forall_forall in Hall'. destruct (Hall' p Hin) as (i & Hp & c' & Hc' & Hst & _).
  destruct (Hq p c Hp Hc) as (c2 & Hc2 & [->|(_ & _ & _ & Hst2)]); [done|]. congruence.
Qed.

(** Finishing a unit: what is taken away outweighs what had been sent of it. *)
Lemma complete_progress s s1 u segs dcnt s' :
  full s → tx_ok s → waiting s = Some segs → same_queue s s1 → (0 < dcnt ≤ length segs)%nat →
  tso_off (buf (sub s)) < total_weight (take dcnt segs) → Forall lively segs →
  complete_unit s1 u dcnt = inr s' →
  ∃ segs', full s' ∧ tx_ok s' ∧ waiting s' = Some segs' ∧ Forall lively segs' ∧
    in_unit s' segs' ∧ measure s' segs' < measure s segs.
Proof.
  intros Hf Hok Hw Hsq Hd Ht Hl E. destruct (same_queue_ok s s1 Hf Hok Hsq) as (Q1 & O1 & F1).
  pose proof Hsq as (_ & _ & _ & Er).
  assert (length (ready_segments (sub s)) = length segs) as Hlen by (by apply mapM_Some, Forall2_length in Hw).
  pose proof (complete_unit_spec s1 u dcnt F1 O1 ltac:(rewrite Er; lia)) as Hc. rewrite E in Hc.
  destruct Hc as (Q2 & O2 & R & T & _). rewrite Er in R. exists (drop dcnt segs).
  pose proof (quiet_trans _ _ _ Q1 Q2) as Q. split_and!; try done.
  - apply Q.
  - by eapply waiting_drop.
  - by apply Forall_drop.
  - split; rewrite T; lia.
  - unfold measure. rewrite T. rewrite <- (take_drop dcnt segs) at 2. rewrite total_weight_app. lia.
Qed.

(** Every round that returns true makes progress. *)
Lemma round_progress s segs s' :
  full s → tx_ok s → waiting s = Some segs → Forall lively segs → in_unit s segs →
  trigger_tx_packet s = inr (true, s') →
  ∃ segs', full s' ∧ tx_ok s' ∧ waiting s' = Some segs' ∧ Forall lively segs' ∧
    in_unit s' segs' ∧ measure s' segs' < measure s segs.
Proof.
  intros Hf Hok Hw Hl [Ho Hu] E. unfold trigger_tx_packet in E. rewrite Hw in E.
  cbn [or_fault mbind sum_bind] in E.
  destruct (scan segs) as [[u|]|] eqn:Es; cbn [or_fault mbind sum_bind] in E; [|done|done].
  pose proof (waiting_size s segs Hok Hw) as Hsz.
  destruct (scan_Some segs u Es Hl) as (pre & last & post & Ed & Hpk & Hsk & Htot & Heop & Htso); [lia|].
  rewrite Ed in E. set (o := tso_off (buf (sub s))) in *.
  pose proof (unit_size segs _ _ _ _ Ed) as Hsize. rewrite <- Htot in Hsize.
  pose proof (size_pos (take (u_skip u) segs)). pose proof (size_pos post).
  pose proof (pk_some _ _ Hpk) as Hpos. assert (0 < u_total u) as Htp.
  { rewrite Htot, size_app, size_cons. pose proof (size_pos pre). change (size []) with 0. lia. }
  assert (o = 0 ∨ u_tso u = true ∧ o < u_total u) as Hou.
  { destruct (decide (o = 0)) as [|Hne]; [by left|]. right.
    destruct Hu as (u' & Eu & ? & ?); [lia|]. by simplify_eq. }
  destruct (negb (u_tso u) && (MTU <? u_total u)); [done|].
  pose proof (hdrlen_bound u) as Hh.
  assert (o < data_limit u o ≤ u_total u) as Hlim.
  { unfold data_limit. destruct (u_tso u); [|destruct Hou as [?|[? _]]; [lia|done]].
    destruct (Htso eq_refl) as [_ Hm]. destruct (Z.eqb_spec o 0).
    - rewrite (wrap_id 32) by (unfold fits; lia). destruct (Z.ltb_spec (u_total u) (hdrlen u + u_mss u)); lia.
    - rewrite (wrap_id 32) by (unfold fits; lia). destruct (Z.ltb_spec (u_total u) (o + u_mss u)); lia. }
  destruct (copy_segs _ _ _ _ _) as [[b dcnt]|] eqn:Ec; cbn [or_fault mbind sum_bind] in E; [|done].
  assert (size (pre ++ last :: post) = u_total u + size post) as Hdata.
  { by rewrite cons_middle, app_assoc, size_app, Htot. }
  pose proof (copy_segs_off _ _ _ _ _ _ _ Ec ltac:(lia) ltac:(lia) ltac:(lia)) as Hb.
  pose proof (copy_segs_count _ _ _ _ _ _ _ Ec) as Hcnt.
  pose proof (copy_segs_dcnt _ _ _ _ _ _ _ Ec) as Hd. rewrite <- Ed, length_drop in Hd.
  assert (data_limit u o = u_total u → dcnt = (u_skip u + S (length pre))%nat) as Hall.
  { intros El. rewrite Hcnt, El, Htot. f_equal.
    apply (count_packet pre last post 0); [done|lia|rewrite <- Htot; lia]. }
  assert (data_limit u o = u_total u →
    (0 < dcnt ≤ length segs)%nat ∧ o < total_weight (take dcnt segs)) as Hfin.
  { intros El. rewrite (Hall El) in *. split; [lia|]. rewrite <- take_take_drop, Ed.
    rewrite cons_middle, app_assoc, take_app_length' by (rewrite length_app; cbn; lia).
    rewrite total_weight_app, <- !total_weight_size, <- Htot. rewrite length_app. cbn. lia. }
  destruct (MTU <? tso_len b); [done|]. destruct (u_tso u) eqn:Et; cbn [negb] in E; cbn zeta in E.
  - destruct (at_offset (pktbuf b) _ _) as [pb|]; cbn [or_fault mbind sum_bind] in E; [|done].
    destruct (at_offset pb _ _) as [pb'|]; cbn [or_fault mbind sum_bind] in E; [|done].
    destruct (Z.ltb_spec (tso_off b) (u_total u)).
    + injection E as <-. set (s1 := update _ _).
      destruct (same_queue_ok s s1 Hf Hok) as (Q1 & O1 & F1); [done|]. exists segs.
      assert (tso_off (buf (sub s1)) = tso_off b) as Eo by done.
      split; [done|]. split; [done|]. split; [done|]. split; [done|]. split.
      * unfold in_unit. rewrite Eo. split; [lia|]. intros _. by exists u.
      * unfold measure. rewrite Eo. fold o. lia.
    + apply bind_inr in E as (s2 & E & Es2). injection Es2 as <-.
      destruct Hfin as [Hk Hwt]; [lia|]. eapply complete_progress; [done..| |done|done|done|exact E]. done.
  - destruct (l4_offload u b) as [pb|]; cbn [or_fault mbind sum_bind] in E; [|done].
    apply bind_inr in E as (s2 & E & Es2). injection Es2 as <-.
    destruct Hfin as [Hk Hwt]; [unfold data_limit; by rewrite Et|].
    eapply complete_progress; [done..| |done|done|done|exact E]. done.
Qed.

Lemma loop_ends n : ∀ s segs,
  full s → tx_ok s → waiting s = Some segs → Forall lively segs → in_unit s segs →
  measure s segs < Z.of_nat n → is_Some (tx_loop n s).
Proof.
  induction n as [|n IH]; intros s segs Hf Hok Hw Hl Hu Hm.
  { destruct Hu as [Ho Hu]. unfold measure in Hm. exfalso.
    pose proof (total_weight_size segs). pose proof (size_pos segs).
    destruct (decide (0 < tso_off (buf (sub s)))) as [Hp|]; [|lia].
    destruct (Hu Hp) as (u & Es & _ & Ht).
    destruct (scan_Some segs u Es Hl) as (pre & last & post & Ed & _ & _ & Htot & _);
      [pose proof (waiting_size s segs Hok Hw); lia|].
    pose proof (unit_size segs _ _ _ _ Ed) as Hsize.
    pose proof (size_pos post). pose proof (size_pos (take (u_skip u) segs)). lia. }
  cbn [tx_loop]. destruct (trigger_tx_packet s) as [f|[[] s']] eqn:E; [by eexists| |by eexists].
  destruct (round_progress s segs s' Hf Hok Hw Hl Hu E) as (segs' & Hf' & Hok' & Hw' & Hl' & Hu' & Hm').
  apply (IH s' segs'); try done. lia.
Qed.

(** C18: The transmit loop ends: if no waiting data descriptor is empty and no segmentation has
    an MSS of zero, the rounds that [tx_fuel] allows suffice, and more make no difference. *)
Theorem tx_loop_terminates s segs :
  full s → tx_ok s → waiting s = Some segs → Forall lively segs → tso_off (buf (sub s)) = 0 →
  ∃ r, tx_loop (tx_fuel s) s = Some r ∧ ∀ k, tx_loop (tx_fuel s + k) s = Some r.
Proof.
  intros Hf Hok Hw Hl Ho.
  assert (is_Some (tx_loop (tx_fuel s) s)) as [r Hr].
  { apply (loop_ends _ s segs); try done; [split; lia|]. unfold measure, tx_fuel. rewrite Hw, Ho.
    pose proof (total_weight_size segs). pose proof (size_pos segs). fold (total_weight segs). lia. }
  exists r. split; [done|]. intros k. by apply tx_loop_more.
Qed.

End tx_term.
