(* ===== verification/I40eTxExample.v ===== *)
(** * Transmit queues at work

    Concrete transmit queues: a packet from the post of its descriptor to the write-back, a
    packet in two buffers, a segmentation; and a descriptor with which the transmit loop does not
    end. *)

From S2P Require Import Prelude I40ePtp I40eXsum I40eQueue I40eQueueInv I40eQueueRun I40eLan I40eTx.
From S2P Require Import I40eTxData I40eTxTerm.

Module tx_example.
Import queue queue_inv queue_run lan tx tx_data tx_term.

Definition device : lan_dev :=
  MkDev 0 0 0 [0; 0; 0] [] 0 0 0 0 [false; false; false; false] [0; 0; 0; 0] 0
    (I40ePtp.ptp.MkPtp 0 0 0 0 false 0) [] false 0 [].

Definition txq (d : lan_dev) (ready : list Z) : lan_queue_tx :=
  MkTx (MkLanQ d false 0 1 0 0 128) (MkBuf (replicate 9024 0) 0 0) ready false 0.

Definition empty_ctx : desc_ctx := MkCtx DESC_EMPTY 0 (replicate 16 0) [].

Definition ring : queue_base := MkQueue (replicate 128 empty_ctx) 0 0 0 4096 64 0 0 true 16.

(** A data descriptor of [n] bytes, with the header lengths in the units of the hardware. *)
Definition data_desc (n : Z) (eop : bool) (mac2 ip4 l4 : Z) : bytes :=
  le 8 0x1000 ++
  le 8 (n * 2 ^ 34 + (mac2 + ip4 * 2 ^ 7 + l4 * 2 ^ 14) * 2 ^ 16 + (if eop then 2 ^ 4 else 0)).

(** ** From post to write-back *)

Definition one_packet : list (event (S:=lan_queue_tx)) :=
  [EvPost 1; EvDone 0 (data_desc 60 true 0 0 0); EvDone 0 (replicate 60 7); EvDone 0 []].

Definition start : qstate lan_queue_tx := MkQs ring (txq device []) [] [].

Lemma ring_fresh : fresh ring.
Proof.
  split; [done|]. split; [by apply Forall_replicate|]. repeat (split; [done|]). by exists 6.
Qed.

Lemma start_ok : tx_ok start.
Proof. split; [apply NoDup_nil_2|]. by split; [constructor|]. Qed.

Lemma one_packet_valid : valid_run start one_packet.
Proof. apply ring_runb_sound. by vm_compute. Qed.

Lemma ring_in_order_witness :
  match run start one_packet with
  | inr s => ∃ n, 0 ≤ n ≤ total_posted one_packet ∧ log s = (λ i, i mod len ring) <$> seqZ 0 n
  | inl f => f = Derived
  end.
Proof.
  apply (ring_in_order ring (txq device []) one_packet);
    [apply ring_fresh|apply start_ok|apply one_packet_valid].
Defined.

(** The state after the run. *)
Definition after : qstate lan_queue_tx :=
  match run start one_packet with inr s => s | inl _ => start end.

Lemma after_quiescent : quiescent after.
Proof.
  split; [by vm_compute|].
  assert (Forall (λ c, state c ≠ DESC_PROCESSING) (desc_ctxs (que after))) as Hall.
  { apply (bool_decide_unpack _). by vm_compute. }
  intros p c _ Hc. rewrite Forall_forall in Hall. apply Hall. by eapply list_elem_of_lookup_2.
Qed.

Lemma ring_never_stalls_witness :
  log after = (λ i, i mod len ring) <$> seqZ 0 (total_posted one_packet) ∧
  active_first_idx (que after) = reg_tail (que after).
Proof.
  apply (ring_never_stalls ring (txq device []) one_packet after);
    [apply ring_fresh|apply start_ok|apply one_packet_valid|by vm_compute|apply after_quiescent].
Defined.

(** ** A packet in two buffers *)

Definition at_ctx (i : Z) (d data_ : bytes) : desc_ctx := MkCtx DESC_PROCESSING i d data_.

(** A queue whose first contexts are [cs], all ready. *)
Definition ready_queue (d : lan_dev) (cs : list desc_ctx) : qstate lan_queue_tx :=
  MkQs (set_ctxs ring (cs ++ replicate (128 - length cs) empty_ctx))
    (txq d (seqZ 0 (Z.of_nat (length cs)))) [] [].

Definition first_part : desc_ctx := at_ctx 0 (data_desc 3 false 0 0 0) [1; 2; 3].
Definition last_part : desc_ctx := at_ctx 1 (data_desc 2 true 0 0 0) [4; 5].

(** What the lemmas ask of a queue, computed. *)
Definition okb (s : qstate lan_queue_tx) : bool :=
  bool_decide (NoDup (ready_segments (sub s))) &&
  forallb (λ p, (0 <=? p) && (p <? 128) &&
             match ctx s p with
             | Some c => bool_decide (state c = DESC_PROCESSING) && (16 <=? Z.of_nat (length (desc c)))
             | None => false
             end) (ready_segments (sub s)) &&
  match writes s with [] => true | _ => false end.

Lemma okb_sound (s : qstate lan_queue_tx) : okb s = true → tx_ok s.
Proof.
  unfold okb. intros [[Hn Hf]%andb_true_iff Hw]%andb_true_iff.
  split; [by apply bool_decide_eq_true in Hn|]. split; [|by destruct (writes s)].
  rewrite Forall_forall. intros p Hp. rewrite forallb_forall in Hf.
  specialize (Hf p). rewrite <- list_elem_of_In in Hf. apply Hf in Hp.
  apply andb_true_iff in Hp as [[H0 H1]%andb_true_iff Hc].
  destruct (ctx s p) as [c|] eqn:E; [|done]. apply andb_true_iff in Hc as [Hst Hl].
  apply bool_decide_eq_true in Hst. exists (index c). split; [lia|]. exists c.
  split_and!; try done. lia.
Qed.

Definition filledb (c : desc_ctx) : bool := buf_sz (qword1 c) <=? Z.of_nat (length (data c)).
Lemma filledb_sound cs : forallb filledb cs = true → Forall filled cs.
Proof.
  rewrite forallb_forall, Forall_forall. intros H c Hc. apply Z.leb_le, H.
  by apply list_elem_of_In.
Qed.

(** A UDP packet in two buffers, whose EOP descriptor asks for the checksum. *)
Definition udp_first : desc_ctx := at_ctx 0 (data_desc 40 false 0 0 0) (seqZ 1 40).
Definition udp_last : desc_ctx :=
  at_ctx 1 (le 8 0x1000 ++ le 8 (4 * 2 ^ 34 + (7 + 5 * 2 ^ 7) * 2 ^ 16 + 2 ^ 13 + 2 ^ 12 + 2 ^ 4)) [41; 42; 43; 44].

Lemma udp_packet : packet [udp_first] udp_last.
Proof. split; [|by vm_compute..]. constructor; [by vm_compute|constructor]. Qed.

Lemma tx_packet_sent_witness :
  let s := ready_queue device [udp_first; udp_last] in
  ∃ f s', trigger_tx_packet s = inr (true, s') ∧
    checksummed (qword1 udp_last) (seqZ 1 44) f ∧ sent s' = sent s ++ [EthSend f] ∧
    ready_segments (sub s') = drop 2 (ready_segments (sub s)) ∧
    done_at s' (take 2 (ready_segments (sub s))) ∧
    tso_off (buf (sub s')) = 0 ∧ tso_len (buf (sub s')) = 0 ∧
    length (pktbuf (buf (sub s'))) = length (pktbuf (buf (sub s))).
Proof.
  change (seqZ 1 44) with (stream ([udp_first] ++ [udp_last])).
  apply (tx_packet_sent _ [udp_first] udp_last []).
  - by vm_compute.
  - apply okb_sound. by vm_compute.
  - by vm_compute.
  - apply udp_packet.
  - apply filledb_sound. by vm_compute.
  - by vm_compute.
  - by vm_compute.
  - done.
  - done.
  - apply is_bytesb_sound. by vm_compute.
  - intros k E. vm_compute in E. injection E as <-. apply Nat.leb_le. by vm_compute.
Defined.

Lemma tx_loop_terminates_witness :
  let s := ready_queue device [first_part; last_part] in
  ∃ r, tx_loop (tx_fuel s) s = Some r ∧ ∀ k, tx_loop (tx_fuel s + k) s = Some r.
Proof.
  apply (tx_loop_terminates _ [first_part; last_part]).
  - by vm_compute.
  - apply okb_sound. by vm_compute.
  - by vm_compute.
  - repeat constructor; by vm_compute.
  - done.
Defined.

(** ** A segmentation: six bytes of payload under 54 bytes of headers, in packets of four *)

Definition tso_desc (mss : Z) : desc_ctx := at_ctx 0 (le 8 0 ++ le 8 (mss * 2 ^ 50 + 2 ^ 4 + 1)) [].
Definition headers : bytes := replicate 12 9 ++ [8; 0] ++ take 40 xsums.demo_segment.
Definition body : bytes := drop 40 xsums.demo_segment.
Definition tso_data : desc_ctx := at_ctx 1 (data_desc 60 true 7 5 5) (headers ++ body).
Definition unit_4 : tx_unit := tso_unit (tso_desc 4) tso_data [].

Lemma headers_tcp4 : tcp4_header unit_4 headers.
Proof. split; [by apply is_bytesb_sound|by vm_compute|by vm_compute|by vm_compute]. Qed.

Lemma tso_unit_sent_witness :
  let s := ready_queue device [tso_desc 4; tso_data] in
  ∃ frames s', tx_loop (length frames + 1) s = tx_loop 1 s' ∧
    sent s' = sent s ++ (EthSend <$> frames) ∧
    concat (drop (length headers) <$> frames) = body ∧
    (∀ i f, frames !! i = Some f →
      Z.of_nat (length f) ≤ Z.of_nat (length headers) + u_mss unit_4 ∧
      good_frame unit_4 headers f (u32 (tcp_seq unit_4 headers + Z.of_nat i * u_mss unit_4))) ∧
    ready_segments (sub s') = drop 2 (ready_segments (sub s)) ∧
    done_at s' (take 2 (ready_segments (sub s))) ∧
    tso_off (buf (sub s')) = 0 ∧ tso_len (buf (sub s')) = 0.
Proof.
  apply (tso_unit_sent (ready_queue device [tso_desc 4; tso_data]) (tso_desc 4) tso_data [] []
           headers body 1).
  - by vm_compute.
  - apply okb_sound. by vm_compute.
  - by vm_compute.
  - by vm_compute.
  - done.
  - done.
  - split.
    + by vm_compute.
    + by vm_compute.
    + split; [constructor|by vm_compute|by vm_compute|by vm_compute].
    + apply filledb_sound. by vm_compute.
    + exists headers. by vm_compute.
  - by vm_compute.
  - by apply is_bytesb_sound.
  - apply headers_tcp4.
Defined.

(** Two packets, of four and two bytes, leave the queue. *)
Lemma two_segments :
  ∃ f g, match trigger_tx (ready_queue device [tso_desc 4; tso_data]) with
         | inr s' => sent s' = [EthSend f; EthSend g]
         | inl _ => False
         end ∧ length f = 58%nat ∧ length g = 56%nat.
Proof. eexists _, _. split; [by vm_compute|]. by vm_compute. Qed.

(** ** A loop that does not end

    With an empty EOP descriptor, the copy loop stops before it, no descriptor is taken away
    and an empty packet is sent for ever. *)

Definition empty_eop : desc_ctx := at_ctx 0 (data_desc 0 true 0 0 0) [].

Lemma empty_eop_round d :
  trigger_tx_packet (ready_queue d [empty_eop]) =
  inr (true, ready_queue (call d (EthSend [])) [empty_eop]).
Proof. by vm_compute. Qed.

Theorem empty_eop_never_ends d n : tx_loop n (ready_queue d [empty_eop]) = None.
Proof. revert d. induction n as [|n IH]; intros d; [done|]. cbn [tx_loop]. by rewrite empty_eop_round. Qed.

End tx_example.
