(* ===== verification/I40eAdminq.v ===== *)
(** * The admin queue of the i40e model

    Translation of [queue_admin_tx] in sims/nic/i40e_bm/i40e_adminq.cc: the queue on which the
    driver sends commands to the firmware.  A command is a descriptor of 32 bytes, with a
    buffer in host memory if it is indirect; the model of the firmware answers in the same
    descriptor and buffer.  The queue is an instance of the classes of I40eQueue.v and
    I40eQueueInv.v. *)

From S2P Require Import Prelude I40eQueue I40eQueueInv I40eQueueRun.

Module adminq.
Import queue queue_inv queue_run.

(** ** Descriptors ([struct i40e_aq_desc]) *)

Definition get16 (d : bytes) (off : nat) : Z := u16 (field d off 2).
Definition get32 (d : bytes) (off : nat) : Z := u32 (field d off 4).
Definition put8 (d : bytes) (off : nat) (v : Z) : bytes := patch d off (le 1 v).
Definition put16 (d : bytes) (off : nat) (v : Z) : bytes := patch d off (le 2 v).
Definition put32 (d : bytes) (off : nat) (v : Z) : bytes := patch d off (le 4 v).

Definition aq_flags (d : bytes) : Z := get16 d 0.
Definition aq_opcode (d : bytes) : Z := get16 d 2.
Definition aq_datalen (d : bytes) : Z := get16 d 4.
Definition aq_retval (d : bytes) : Z := get16 d 6.

(** [params.raw] starts at 16; [addr_high] and [addr_low] end the descriptor. *)
Definition aq_addr (d : bytes) : Z := Z.lor (get32 d 28) (Z.shiftl (get32 d 24) 32).

Definition FLAG_DD : Z := 1.
Definition FLAG_CMP : Z := 2.
Definition FLAG_ERR : Z := 4.
Definition FLAG_RD : Z := 0x400.
Definition RC_ENOMEM : Z := 9.

(** ** State *)

(** The device register the commands change, the MAC address of the runner, and what the stack
    holds where [struct i40e_aqc_mac_address_read_data] is not initialised. *)
Record queue_admin_tx := MkAdmin { gllan_rctl_0 : Z; mac_addr : Z; stale : bytes }.

Implicit Types s : qstate queue_admin_tx.

(** How a command ends: at once, or with a write to the buffer of the driver. *)
Inductive reply :=
| Direct (d : bytes)
| Indirect (d : bytes) (addr : Z) (buf : bytes).

Definition reply_desc (r : reply) : bytes := match r with Direct d | Indirect d _ _ => d end.

Definition desc_compl_prepare (d : bytes) (retval extra_flags : Z) : bytes :=
  let d := put16 d 0 (Z.land (aq_flags d) (Z.lnot 0x1ff)) in
  let d := put16 d 0 (Z.lor (aq_flags d) (Z.lor (Z.lor FLAG_DD FLAG_CMP) extra_flags)) in
  let d := if retval =? 0 then d else put16 d 0 (Z.lor (aq_flags d) FLAG_ERR) in
  put16 d 6 retval.

Definition desc_complete (d : bytes) (retval : Z) : reply :=
  Direct (desc_compl_prepare d retval 0).

(** [None]: [abort()] *)
Definition desc_complete_indir (d : bytes) (retval : Z) (buf : bytes) (ignore_datalen : bool) :
    option reply :=
  if negb ignore_datalen && (aq_datalen d <? Z.of_nat (length buf)) then None
  else
    let d := put16 d 4 (Z.of_nat (length buf)) in
    let d := desc_compl_prepare d retval 0 in
    Some (Indirect d (aq_addr d) buf).

(** ** Commands *)

Definition opc_get_version : Z := 0x0001.
Definition opc_request_resource : Z := 0x0008.
Definition opc_release_resource : Z := 0x0009.
Definition opc_list_func_capabilities : Z := 0x000A.
Definition opc_list_dev_capabilities : Z := 0x000B.
Definition opc_mac_address_read : Z := 0x0107.
Definition opc_clear_pxe_mode : Z := 0x0110.
Definition opc_get_switch_config : Z := 0x0200.
Definition opc_set_switch_config : Z := 0x0205.
Definition opc_update_vsi_parameters : Z := 0x0211.
Definition opc_get_vsi_parameters : Z := 0x0212.
Definition opc_remove_macvlan : Z := 0x0251.
Definition opc_set_dcb_parameters : Z := 0x0303.
Definition opc_configure_vsi_bw_limit : Z := 0x0400.
Definition opc_query_vsi_bw_config : Z := 0x0408.
Definition opc_query_vsi_ets_sla_config : Z := 0x040A.
Definition opc_get_phy_abilities : Z := 0x0600.
Definition opc_get_link_status : Z := 0x0607.
Definition opc_lldp_stop : Z := 0x0A05.

Definition NUM_QUEUES : Z := 1536.
Definition NUM_PFINTS : Z := 128.
Definition NUM_VSIS : Z := 384.
Definition MAX_MTU : Z := 2048.

Definition get_version (d : bytes) : bytes :=
  let d := put32 d 16 0 in
  let d := put32 d 20 0 in
  let d := put16 d 24 6 in
  let d := put16 d 26 0 in
  let d := put16 d 28 1 in
  put16 d 30 0xA.

(** [struct i40e_aqc_list_capabilities_element_resp] *)
Definition cap (id number logical_id phys_id : Z) : bytes :=
  le 2 id ++ le 1 1 ++ le 1 0 ++ le 4 number ++ le 4 logical_id ++ le 4 phys_id ++
  replicate 16 0.

Definition caps : list bytes :=
  [cap 0x40 512 6 0; cap 0x41 NUM_QUEUES 0 0; cap 0x42 NUM_QUEUES 0 0; cap 0x43 NUM_PFINTS 0 0;
   cap 0x17 NUM_VSIS 0 0; cap 0x18 1 1 1].

Definition list_capabilities (d : bytes) : option reply :=
  let buf := concat caps in
  if Z.of_nat (length buf) <=? aq_datalen d then
    desc_complete_indir (put32 d 20 (Z.of_nat (length caps))) 0 buf false
  else Some (desc_complete (put16 d 4 (Z.of_nat (length buf))) RC_ENOMEM).

Definition mac_address_read (a : queue_admin_tx) (d : bytes) : option reply :=
  let ard := le 6 (mac_addr a) ++ take 6 (stale a ++ replicate 12 0) ++
             le 6 (mac_addr a) ++ take 6 (drop 6 (stale a ++ replicate 12 0)) in
  desc_complete_indir (put16 d 16 (Z.lor 0x10 0x40)) 0 ard false.

(** [struct i40e_aq_get_phy_abilities_resp] has 0x218 bytes. *)
Definition phy_abilities : bytes :=
  le 4 (Z.shiftl 1 0xA) ++ le 1 (Z.shiftl 1 4) ++ le 1 (Z.lor 0x08 0x10) ++ replicate 530 0.

Definition get_phy_abilities (d : bytes) : option reply :=
  desc_complete_indir (put32 (put32 d 16 0) 20 0) 0 phy_abilities true.

Definition get_link_status (d : bytes) : bytes :=
  let d := put16 d 16 (Z.land (get16 d 16) 1) in
  let d := put8 d 18 0xA in
  let d := put8 d 19 (Z.shiftl 1 4) in
  let d := put8 d 20 (Z.lor (Z.lor (Z.lor 0x01 0x20) 0x40) 0x80) in
  let d := put8 d 21 (Z.lor 0x01 0x02) in
  let d := put8 d 22 0 in
  let d := put8 d 23 (Z.shiftl 0x03 6) in
  let d := put16 d 24 MAX_MTU in
  put8 d 26 0x04.

(** The elements of the internal switch: [seid] and the image of the struct. *)
Definition els : list (Z * bytes) :=
  [(512, le 1 19 ++ le 1 1 ++ le 2 512 ++ le 2 2 ++ le 2 16 ++ replicate 3 0 ++ le 1 1 ++
         le 2 0 ++ le 2 0)].

(** The first element whose [seid] is not below the one asked for. *)
Fixpoint first_el (es : list (Z * bytes)) (seid : Z) : nat :=
  match es with
  | [] => 0
  | (x, _) :: es => if x <? seid then S (first_el es seid) else 0
  end.

(** [els[first + report]] is in range where it is read; [None] otherwise. *)
Definition get_switch_config (d : bytes) : option reply :=
  let cnt := length els in
  let first := first_el els (get16 d 16) in
  let max := u64 (aq_datalen d - 16) / 16 in
  '(report, seid) ←
    (if max <? Z.of_nat (cnt - first)
     then el ← els !! (first + Z.to_nat max)%nat; Some (Z.to_nat max, el.1)
     else Some ((cnt - first)%nat, 0));
  let hr := le 2 (Z.of_nat report) ++ le 2 (Z.of_nat cnt) ++ replicate 12 0 in
  desc_complete_indir (put16 d 16 seid) 0 (hr ++ concat (take report (drop first els.*2))) false.

Definition get_vsi_parameters (d : bytes) : option reply :=
  desc_complete_indir d 0
    (le 2 (Z.lor (Z.lor (Z.lor 0x0001 0x0040) 0x0080) 0x0200) ++ replicate 126 0) false.

Definition query_vsi_bw_config (d : bytes) : option reply :=
  desc_complete_indir d 0
    (replicate 16 0 ++ (replicate 8 0xffff ≫= le 2) ++ replicate 32 0) false.

Definition query_vsi_ets_sla_config (d : bytes) : option reply :=
  desc_complete_indir d 0 (replicate 4 0 ++ replicate 8 127 ++ replicate 20 0) false.

(** [rve[i].error_code = I40E_AQC_REMOVE_MACVLAN_SUCCESS] for [n] elements of 16 bytes; [None]:
    outside the buffer. *)
Fixpoint clear_errors (data : bytes) (i : nat) (n : nat) : option bytes :=
  match n with
  | O => Some data
  | S n => if (16 * i + 12 <? length data)%nat
           then clear_errors (patch data (16 * i + 12) [0]) (S i) n else None
  end.

Definition remove_macvlan (d data : bytes) : option (reply * bytes) :=
  data ← clear_errors data 0 (Z.to_nat (get16 d 16));
  if Z.of_nat (length data) <? aq_datalen d then None
  else r ← desc_complete_indir d 0 (take (Z.to_nat (aq_datalen d)) data) false; Some (r, data).

(** [admin_desc_ctx::process]: the answer, and the buffer and the device afterwards. *)
Definition answer (a : queue_admin_tx) (d data : bytes) : option (reply * bytes * queue_admin_tx) :=
  let opc := aq_opcode d in
  let same r := Some (r, data, a) in
  if opc =? opc_get_version then same (desc_complete (get_version d) 0)
  else if opc =? opc_request_resource then same (desc_complete (put32 d 20 180000) 0)
  else if opc =? opc_release_resource then same (desc_complete d 0)
  else if opc =? opc_clear_pxe_mode then
    Some (desc_complete d 0, data,
          MkAdmin (Z.land (gllan_rctl_0 a) (Z.lnot 1)) (mac_addr a) (stale a))
  else if (opc =? opc_list_func_capabilities) || (opc =? opc_list_dev_capabilities) then
    r ← list_capabilities d; same r
  else if opc =? opc_lldp_stop then same (desc_complete d 0)
  else if opc =? opc_mac_address_read then r ← mac_address_read a d; same r
  else if opc =? opc_get_phy_abilities then r ← get_phy_abilities d; same r
  else if opc =? opc_get_link_status then same (desc_complete (get_link_status d) 0)
  else if opc =? opc_get_switch_config then r ← get_switch_config d; same r
  else if opc =? opc_set_switch_config then same (desc_complete d 0)
  else if opc =? opc_get_vsi_parameters then r ← get_vsi_parameters d; same r
  else if opc =? opc_update_vsi_parameters then same (desc_complete d 0)
  else if opc =? opc_set_dcb_parameters then same (desc_complete d 0)
  else if opc =? opc_configure_vsi_bw_limit then same (desc_complete d 0)
  else if opc =? opc_query_vsi_bw_config then r ← query_vsi_bw_config d; same r
  else if opc =? opc_query_vsi_ets_sla_config then r ← query_vsi_ets_sla_config d; same r
  else if opc =? opc_remove_macvlan then '(r, data) ← remove_macvlan d data; Some (r, data, a)
  else same (desc_complete d 0).

(** ** The virtual methods *)

Definition update s (a : queue_admin_tx) : qstate queue_admin_tx := MkQs (que s) a (issued s) (log s).

Definition admin_process s (pos : Z) : result (qstate queue_admin_tx) :=
  c ← get s pos;
  if (length (desc c) <? 32)%nat then inl Derived
  else
    '(r, data_, a) ← or_fault (answer (sub s) (desc c) (data c)) Derived;
    let s := put (update s a) pos (MkCtx (state c) (index c) (reply_desc r) data_) in
    match r with
    | Direct _ => processed s pos
    | Indirect _ addr buf => inr (data_write s pos addr buf)
    end.

Definition admin_prepare s (pos : Z) : result (qstate queue_admin_tx) :=
  c ← get s pos;
  if negb (Z.land (aq_flags (desc c)) FLAG_RD =? 0)
  then data_fetch s pos (aq_addr (desc c)) (aq_datalen (desc c))
  else prepared s pos.

#[export] Instance admin_class : QueueClass queue_admin_tx := {|
  prepare := admin_prepare;
  process := admin_process;
  do_writeback := base_do_writeback;
  interrupt s := inr s |}.

(** ** Registers *)

Definition ATQLEN_MASK : Z := 0x3FF.
Definition ATQENABLE_SHIFT : Z := 31.

(** [queue_admin_tx::reg_updated]; the references are to [pf_atqba], [pf_atqlen], [pf_atqh] and
    [pf_atqt]. *)
Definition admin_reg_updated s (reg_base reg_len head tail : Z) : result (qstate queue_admin_tx) :=
  let q := que s in
  let ena := Z.testbit reg_len ATQENABLE_SHIFT in
  let en := if negb (enabled q) && ena then true
            else if enabled q && negb ena then false
            else enabled q in
  reg_updated (with_que s (MkQueue (desc_ctxs q) (active_first_pos q) (active_first_idx q)
    (active_cnt q) reg_base (Z.land reg_len ATQLEN_MASK) head tail en (desc_len q))).

(** ** Stores into a descriptor *)

Lemma get16_put16 d off v : (off + 2 ≤ length d)%nat → get16 (put16 d off v) off = u16 v.
Proof.
  intros. unfold get16, put16, field. rewrite slice_patch_same by (rewrite length_le; done || lia).
  rewrite le_val_le. apply (wrap_wrap 16).
Qed.

(** [slices] reads through stores elsewhere. *)
Ltac in_range := repeat (rewrite ?length_le, ?length_patch); try lia.
Ltac slices :=
  unfold put8, put16, put32;
  repeat first
    [ rewrite slice_patch_before by in_range
    | rewrite slice_patch_after by in_range
    | rewrite slice_patch_same by in_range ].

(** ** Answers *)

(** Flags, opcode and cookies are as in the command; [params] and the other words may differ. *)
Definition same_header (d d' : bytes) : Prop :=
  length d' = length d ∧ slice d' 0 2 = slice d 0 2 ∧ slice d' 2 2 = slice d 2 2 ∧
  slice d' 8 8 = slice d 8 8.

(** What the driver checks in a descriptor that was written back for the command [d]. *)
Definition completes (d d' : bytes) : Prop :=
  length d' = length d ∧ slice d' 2 2 = slice d 2 2 ∧ slice d' 8 8 = slice d 8 8 ∧
  aq_flags d' = Z.lor (Z.land (aq_flags d) 0xFE00)
    (if aq_retval d' =? 0 then Z.lor FLAG_DD FLAG_CMP else Z.lor (Z.lor FLAG_DD FLAG_CMP) FLAG_ERR).

Lemma same_header_refl d : same_header d d.
Proof. done. Qed.

Lemma same_header_patch d d' off l :
  (32 ≤ length d)%nat →
  off = 4%nat ∧ length l = 2%nat ∨ (16 ≤ off)%nat ∧ (off + length l ≤ 32)%nat →
  same_header d d' → same_header d (patch d' off l).
Proof.
  intros Hd Ho (Hl & E0 & E1 & E2). unfold same_header.
  assert (off + length l ≤ length d')%nat by lia. split_and!.
  - by rewrite length_patch.
  - by rewrite slice_patch_before by lia.
  - by rewrite slice_patch_before by lia.
  - destruct Ho as [[-> ?]|[? ?]]; [rewrite slice_patch_after by lia|rewrite slice_patch_before by lia]; done.
Qed.

Lemma u16_land x m : 0 ≤ m < 2 ^ 16 → u16 (Z.land x m) = Z.land (u16 x) m.
Proof.
  intros Hm. apply Z.bits_inj'. intros i Hi. unfold wrap. rewrite <- !Z.land_ones, !Z.land_spec by lia.
  destruct (Z.testbit x i), (Z.testbit m i), (Z.testbit (Z.ones 16) i); done.
Qed.

Lemma u16_lor x y : u16 (Z.lor x y) = Z.lor (u16 x) (u16 y).
Proof. unfold wrap. rewrite <- !Z.land_ones by lia. apply Z.land_lor_distr_l. Qed.

Lemma compl_prepare_spec d0 d retval :
  same_header d0 d → (32 ≤ length d0)%nat → retval ∈u 16 →
  let d' := desc_compl_prepare d retval 0 in
  completes d0 d' ∧ aq_retval d' = retval ∧ slice d' 4 2 = slice d 4 2 ∧
  slice d' 16 16 = slice d 16 16.
Proof.
  intros (Hl & E0 & E1 & E2) Hd Hr. unfold desc_compl_prepare, aq_flags.
  set (x := Z.land (get16 d 0) (Z.lnot 0x1ff)). set (dx := put16 d 0 x).
  assert (length dx = length d) as Hlx by (unfold dx, put16; in_range).
  set (y := Z.lor (get16 dx 0) _). set (dy := put16 dx 0 y).
  assert (length dy = length d) as Hly by (unfold dy, put16; in_range).
  set (z := Z.lor (get16 dy 0) FLAG_ERR). set (dz := put16 dy 0 z).
  assert (length dz = length d) as Hlz by (unfold dz, put16; in_range).
  set (dr := if retval =? 0 then dy else dz).
  assert (length dr = length d) as Hlr by (unfold dr; by case_match).
  assert (∀ o n, (2 ≤ o)%nat → slice dr o n = slice d o n) as Hsl.
  { intros o n Ho. unfold dr, dz, dy, dx; case_match; slices; done. }
  assert (get16 d0 0 = get16 d 0) as Hfl by (unfold get16, field; by rewrite E0).
  assert (get16 dr 0 = Z.lor (Z.land (get16 d 0) 0xFE00)
    (if retval =? 0 then 3 else 7)) as Hflags.
  { assert (u16 x = Z.land (get16 d 0) 0xFE00) as Ex.
    { unfold x, wrap. by rewrite <- Z.land_ones, <- Z.land_assoc by lia. }
    assert (get16 dy 0 = Z.lor (Z.land (get16 d 0) 0xFE00) 3) as Ey.
    { unfold dy. rewrite get16_put16 by lia. unfold y. rewrite u16_lor. unfold dx.
      rewrite get16_put16, wrap_wrap, Ex by lia. done. }
    unfold dr. destruct (retval =? 0); [done|]. unfold dz. rewrite get16_put16 by lia. unfold z.
    rewrite Ey, !u16_lor, u16_land, <- Z.lor_assoc by lia. unfold get16. by rewrite wrap_wrap. }
  assert (get16 (put16 dr 6 retval) 6 = retval) as Hret
    by (rewrite get16_put16, (wrap_id 16) by (done || lia); done).
  unfold completes, aq_retval, aq_flags. rewrite Hret. split_and!; try done.
  - unfold put16. in_range.
  - slices. by rewrite Hsl, E1 by lia.
  - slices. by rewrite Hsl, E2 by lia.
  - rewrite Hfl. unfold get16, field. slices. fold (field dr 0 2). fold (get16 dr 0).
    by rewrite Hflags.
  - slices. by rewrite Hsl by lia.
  - slices. by rewrite Hsl by lia.
Qed.

Lemma get16_slice d d' o : slice d' o 2 = slice d o 2 → get16 d' o = get16 d o.
Proof. unfold get16, field. by intros ->. Qed.

Lemma aq_addr_slice d d' : slice d' 24 8 = slice d 24 8 → aq_addr d' = aq_addr d.
Proof.
  intros E. assert (∀ x : bytes, slice x 24 4 = take 4 (slice x 24 8)) as E1.
  { intros x. unfold slice. by rewrite take_take. }
  assert (∀ x : bytes, slice x 28 4 = slice (slice x 24 8) 4 4) as E2.
  { intros x. unfold slice. by rewrite skipn_firstn_comm, drop_drop, take_take. }
  unfold aq_addr, get32, field. by rewrite !E1, !E2, E.
Qed.

(** A good answer to the command [d]: the descriptor says done, with the error flag exactly if
    there is an error code, which is none or, with the size that is needed, out of memory; data
    goes to the buffer of the command, as much as the descriptor says and, but for one command,
    no more than the buffer holds. *)
Definition reply_ok (d : bytes) (r : reply) : Prop :=
  completes d (reply_desc r) ∧
  match r with
  | Direct d' => aq_retval d' = 0 ∨ aq_retval d' = RC_ENOMEM ∧ aq_datalen d < aq_datalen d'
  | Indirect d' addr buf =>
      addr = aq_addr d ∧ aq_retval d' = 0 ∧ aq_datalen d' = Z.of_nat (length buf) ∧
      (aq_opcode d ≠ opc_get_phy_abilities → Z.of_nat (length buf) ≤ aq_datalen d)
  end.

(** The commands the model gives up on: their buffer is too short, or the number of elements is
    larger than what was fetched. *)
Definition needs (opc : Z) : Z :=
  if opc =? opc_mac_address_read then 24
  else if opc =? opc_get_switch_config then 16
  else if opc =? opc_get_vsi_parameters then 128
  else if opc =? opc_query_vsi_bw_config then 64
  else if opc =? opc_query_vsi_ets_sla_config then 32
  else 0.

Definition refused (d data : bytes) : Prop :=
  aq_datalen d < needs (aq_opcode d) ∨
  aq_opcode d = opc_remove_macvlan ∧
  (Z.of_nat (length data) < aq_datalen d ∨ Z.of_nat (length data) < 16 * get16 d 16 - 3).

Lemma direct_ok d0 d : same_header d0 d → (32 ≤ length d0)%nat → reply_ok d0 (desc_complete d 0).
Proof.
  intros Hh Hd. destruct (compl_prepare_spec d0 d 0 Hh Hd) as (? & ? & _); [done|].
  split; [done|]. by left.
Qed.

Lemma indir_cases d0 d buf ign :
  same_header d0 d → (32 ≤ length d0)%nat → slice d 4 2 = slice d0 4 2 →
  slice d 24 8 = slice d0 24 8 → Z.of_nat (length buf) < 2 ^ 16 →
  (ign = true → aq_opcode d0 = opc_get_phy_abilities) →
  match desc_complete_indir d 0 buf ign with
  | Some r => reply_ok d0 r ∧ (ign = false → Z.of_nat (length buf) ≤ aq_datalen d0)
  | None => aq_datalen d0 < Z.of_nat (length buf)
  end.
Proof.
  intros Hh Hd E4 E24 Hb Hign. unfold desc_complete_indir.
  replace (aq_datalen d) with (aq_datalen d0) by (symmetry; by apply get16_slice).
  destruct (negb ign && _) eqn:E.
  { apply andb_true_iff in E as [_ E]. by apply Z.ltb_lt in E. }
  assert (ign = false → Z.of_nat (length buf) ≤ aq_datalen d0) as Hle.
  { intros ->. cbn in E. by apply Z.ltb_ge in E. }
  split; [|exact Hle]. set (d1 := put16 d 4 _).
  assert (same_header d0 d1) as Hh1.
  { apply same_header_patch; [done| |done]. left. by rewrite length_le. }
  assert (length d = length d0) as Hl by apply Hh.
  destruct (compl_prepare_spec d0 d1 0 Hh1 Hd) as (Hc & Hr & Hs4 & Hs16); [done|].
  set (d' := desc_compl_prepare d1 0 0) in *. split; [done|]. cbn [reply_desc].
  assert (slice d' 24 8 = slice d0 24 8) as E'.
  { assert (∀ x : bytes, slice x 24 8 = slice (slice x 16 16) 8 8) as Eq.
    { intros x. unfold slice. by rewrite skipn_firstn_comm, drop_drop, take_take. }
    rewrite Eq, Hs16, <- Eq, <- E24. unfold d1. by slices. }
  split_and!; [by apply aq_addr_slice|done| |].
  - unfold aq_datalen. rewrite (get16_slice d1 d' 4 Hs4). unfold d1. rewrite get16_put16 by lia.
    apply (wrap_id 16). unfold fits. lia.
  - intros Hne. apply Hle. destruct ign; [by destruct Hne, Hign|done].
Qed.

Lemma length_clear_errors n : ∀ data i,
  match clear_errors data i n with
  | Some data' => length data' = length data ∧
      (n = 0%nat ∨ (16 * (i + n) - 3 ≤ length data)%nat)
  | None => (length data < 16 * (i + n) - 3)%nat
  end.
Proof.
  induction n as [|n IH]; intros data i; cbn [clear_errors]; [by auto|].
  destruct (Nat.ltb_spec (16 * i + 12) (length data)) as [Hlt|]; [|lia].
  specialize (IH (patch data (16 * i + 12) [0]) (S i)).
  rewrite length_patch in IH by (cbn; lia). case_match; [|lia].
  destruct IH as [-> [->|?]]; (split; [done|]); right; lia.
Qed.

Lemma get16_fits d o : get16 d o ∈u 16.
Proof. unfold get16. by apply wrap_fits. Qed.

Ltac headers :=
  unfold put8, put16, put32;
  repeat (apply same_header_patch; [done|rewrite ?length_le; lia|]); apply same_header_refl.

Definition verdict (d data : bytes) (o : option reply) : Prop :=
  match o with Some r => reply_ok d r ∧ ¬ refused d data | None => refused d data end.

Lemma accepted_opcode d data opc :
  aq_opcode d = opc → needs opc = 0 → opc ≠ opc_remove_macvlan → ¬ refused d data.
Proof.
  intros E Hn Hr [H|[H _]]; [|congruence]. pose proof (get16_fits d 4).
  unfold aq_datalen in H. rewrite E, Hn in H. unfold fits in *. lia.
Qed.

(** A command that answers with a fixed buffer. *)
Lemma fixed_buffer d d1 data buf :
  (32 ≤ length d)%nat → same_header d d1 → slice d1 4 2 = slice d 4 2 →
  slice d1 24 8 = slice d 24 8 → Z.of_nat (length buf) < 2 ^ 16 →
  needs (aq_opcode d) = Z.of_nat (length buf) → aq_opcode d ≠ opc_remove_macvlan →
  verdict d data (desc_complete_indir d1 0 buf false).
Proof.
  intros Hd Hh E4 E24 Hb Hn Hne.
  pose proof (indir_cases d d1 buf false Hh Hd E4 E24 Hb ltac:(done)) as Hc.
  unfold verdict, refused. rewrite Hn. destruct (desc_complete_indir _ _ _ _).
  - destruct Hc as [? Hle]. split; [done|]. specialize (Hle eq_refl). intros [?|[? _]]; [lia|done].
  - by left.
Qed.

Lemma list_capabilities_ok d data :
  (32 ≤ length d)%nat →
  aq_opcode d = opc_list_func_capabilities ∨ aq_opcode d = opc_list_dev_capabilities →
  verdict d data (list_capabilities d).
Proof.
  intros Hd Ho. assert (¬ refused d data) as Hnr
    by (destruct Ho as [E|E]; by apply (accepted_opcode _ _ _ E)).
  unfold list_capabilities. change (Z.of_nat (length (concat caps))) with 192.
  destruct (Z.leb_spec 192 (aq_datalen d)) as [Hle|Hgt].
  - set (d1 := put32 d 20 _). pose proof (indir_cases d d1 (concat caps) false) as Hc.
    change (Z.of_nat (length (concat caps))) with 192 in Hc.
    destruct (desc_complete_indir _ _ _ _); cbn [verdict].
    + split; [|done]. apply Hc; try done; try (unfold d1; by slices). unfold d1. headers.
    + exfalso. cut (aq_datalen d < 192); [lia|]. apply Hc; try done; try (unfold d1; by slices).
      unfold d1. headers.
  - split; [|done]. set (d1 := put16 d 4 192).
    assert (same_header d d1) as Hh by (unfold d1; headers).
    destruct (compl_prepare_spec d d1 RC_ENOMEM Hh Hd) as (Hc & Hr & Hs4 & _); [done|].
    split; [exact Hc|]. right. split; [exact Hr|]. unfold aq_datalen.
    rewrite (get16_slice _ _ 4 Hs4). unfold d1. rewrite get16_put16 by lia. exact Hgt.
Qed.

Lemma first_el_cases x : first_el els x = 0%nat ∨ first_el els x = 1%nat.
Proof. cbn. case_match; auto. Qed.

Lemma get_switch_config_ok d data :
  (32 ≤ length d)%nat → aq_opcode d = opc_get_switch_config → verdict d data (get_switch_config d).
Proof.
  intros Hd Ho. unfold get_switch_config.
  pose proof (get16_fits d 4) as Hf. fold (aq_datalen d) in Hf. unfold fits in Hf.
  assert (refused d data ↔ aq_datalen d < 16) as Href.
  { unfold refused. rewrite Ho. change (needs _) with 16. split; [intros [?|[? _]]; done|by left]. }
  assert (∀ seid report, (report ≤ 1 - first_el els (get16 d 16))%nat →
    (16 ≤ aq_datalen d → 16 + 16 * Z.of_nat report ≤ aq_datalen d) →
    verdict d data (desc_complete_indir (put16 d 16 seid) 0
      ((le 2 (Z.of_nat report) ++ le 2 (Z.of_nat (length els)) ++ replicate 12 0) ++
       concat (take report (drop (first_el els (get16 d 16)) els.*2))) false)) as Hind.
  { intros seid report Hrep Hfits. set (buf := _ ++ concat _).
    assert (Z.of_nat (length buf) = 16 + 16 * Z.of_nat report) as Hb.
    { unfold buf. clear -Hrep. destruct (first_el_cases (get16 d 16)) as [E|E]; rewrite E in *.
      - destruct report as [|[|]]; [done|done|lia].
      - by replace report with 0%nat by lia. }
    pose proof (indir_cases d (put16 d 16 seid) buf false) as Hc. unfold verdict.
    destruct (desc_complete_indir _ _ _ _).
    - destruct Hc as [? Hle]; try done; [headers|by slices|by slices|lia|].
      split; [done|]. specialize (Hle eq_refl). rewrite Href. lia.
    - rewrite Href. cut (aq_datalen d < Z.of_nat (length buf)); [lia|].
      apply Hc; try done; [headers|by slices|by slices|lia]. }
  change (length els) with 1%nat in *. set (f := first_el els (get16 d 16)) in *.
  assert (16 ≤ aq_datalen d → u64 (aq_datalen d - 16) / 16 = (aq_datalen d - 16) / 16) as Hmax.
  { intros. rewrite (wrap_id 64); [done|]. unfold fits. lia. }
  pose proof (wrap_fits 64 (aq_datalen d - 16) ltac:(lia)) as [Hu _].
  set (m := u64 (aq_datalen d - 16) / 16) in *.
  assert (0 ≤ m) by (apply Z.div_pos; lia).
  destruct (Z.ltb_spec m (Z.of_nat (1 - f))) as [Hlt|Hge].
  - assert (f = 0%nat ∧ m = 0) as [Ef Em] by (unfold f in *; destruct (first_el_cases (get16 d 16)); lia).
    pose proof (Hind 512 0%nat ltac:(lia) ltac:(lia)) as Hv. rewrite Em, Ef in *. exact Hv.
  - cbn [mbind option_bind]. apply Hind; [lia|]. intros H16. specialize (Hmax H16).
    assert (m * 16 ≤ aq_datalen d - 16) by (rewrite Hmax; Z.div_mod_to_equations; lia). lia.
Qed.

Lemma remove_macvlan_ok d data :
  (32 ≤ length d)%nat → aq_opcode d = opc_remove_macvlan →
  verdict d data (fst <$> remove_macvlan d data).
Proof.
  intros Hd Ho. unfold remove_macvlan. pose proof (get16_fits d 16) as Hf. unfold fits in Hf.
  pose proof (get16_fits d 4) as Hf4. fold (aq_datalen d) in Hf4. unfold fits in Hf4.
  pose proof (length_clear_errors (Z.to_nat (get16 d 16)) data 0) as Hl.
  assert (refused d data ↔ Z.of_nat (length data) < aq_datalen d ∨
    Z.of_nat (length data) < 16 * get16 d 16 - 3) as Href.
  { unfold refused. rewrite Ho. change (needs _) with 0.
    split; [intros [?|[_ ?]]; [lia|done]|by right]. }
  destruct (clear_errors _ _ _) as [data'|]; cbn [mbind option_bind].
  2:{ cbn. rewrite Href. right. lia. }
  destruct Hl as [El Hn]. rewrite El.
  destruct (Z.ltb_spec (Z.of_nat (length data)) (aq_datalen d)) as [|Hge].
  { cbn. rewrite Href. by left. }
  set (buf := take _ data').
  assert (Z.of_nat (length buf) = aq_datalen d) as Hb by (unfold buf; rewrite length_take; lia).
  pose proof (indir_cases d d buf false (same_header_refl d) Hd eq_refl eq_refl ltac:(lia) ltac:(done)) as Hc.
  destruct (desc_complete_indir _ _ _ _); cbn [mbind option_bind fmap option_fmap option_map fst verdict]; [|lia].
  destruct Hc as [? _]. split; [done|]. rewrite Href. lia.
Qed.

Lemma answer_verdict a d data :
  (32 ≤ length d)%nat → verdict d data ((λ x, x.1.1) <$> answer a d data).
Proof.
  intros Hd. unfold answer.
  assert (∀ d1, same_header d d1 → ¬ refused d data → verdict d data (Some (desc_complete d1 0)))
    as Hdir by (intros; split; [by apply direct_ok|done]).
  assert (∀ o : option reply, (λ x : reply * bytes * queue_admin_tx, x.1.1) <$>
    (r ← o; Some (r, data, a)) = o) as Hsame by (by intros []).
  repeat match goal with
  | |- verdict _ _ (_ <$> (if aq_opcode d =? ?k then _ else _)) =>
      destruct (Z.eqb_spec (aq_opcode d) k) as [Ho|?];
      [try (apply Hdir; [try (unfold get_version, get_link_status); headers|by apply (accepted_opcode _ _ _ Ho)]);
       rewrite ?Hsame|]
  | |- verdict _ _ (_ <$> (if (aq_opcode d =? ?k) || (aq_opcode d =? ?l) then _ else _)) =>
      destruct (Z.eqb_spec (aq_opcode d) k) as [Ho|?];
      [cbn [orb]; rewrite Hsame; apply list_capabilities_ok; by auto|];
      destruct (Z.eqb_spec (aq_opcode d) l) as [Ho|?]; cbn [orb];
      [rewrite Hsame; apply list_capabilities_ok; by auto|]
  end.
  - apply fixed_buffer; rewrite ?Ho; try done; [headers|by slices|by slices| |].
    all: rewrite !length_app, !length_le, !length_take, length_drop, length_app, length_replicate.
    + lia.
    + change (needs opc_mac_address_read) with 24. lia.
  - pose proof (indir_cases d (put32 (put32 d 16 0) 20 0) phy_abilities true) as Hc.
    unfold get_phy_abilities.
    destruct (desc_complete_indir _ _ _ _) eqn:E; [|done]. split; [|by apply (accepted_opcode _ _ _ Ho)].
    apply Hc; try done; [headers|by slices|by slices].
  - by apply get_switch_config_ok.
  - apply fixed_buffer; rewrite ?Ho; done || apply same_header_refl.
  - apply fixed_buffer; rewrite ?Ho; done || apply same_header_refl.
  - apply fixed_buffer; rewrite ?Ho; done || apply same_header_refl.
  - pose proof (remove_macvlan_ok d data Hd Ho) as Hv.
    by destruct (remove_macvlan d data) as [[]|].
  - apply Hdir; [apply same_header_refl|]. unfold refused, needs. pose proof (get16_fits d 4) as Hf.
    repeat match goal with H : aq_opcode d ≠ ?k |- _ => rewrite (proj2 (Z.eqb_neq _ k) H) end.
    fold (aq_datalen d) in Hf. intros [Hx|[? _]]; [|done]. clear -Hx Hf. unfold fits in Hf. lia.
Qed.

(** ** The laws *)

(** The commands that are being processed are those that wait for the write of their answer. *)
Definition admin_ok s : Prop := ∀ p, p ∈ writes s ↔ is_pos p ∧ processing s p.

Lemma admin_prepare_law s p c :
  ctx s p = Some c → state c = DESC_PREPARING →
  match admin_prepare s p with inr s' => prep_step s s' p | inl f => f = Derived end.
Proof.
  intros Hc Hst. unfold admin_prepare. rewrite (get_ctx _ _ _ Hc). cbn [mbind sum_bind].
  destruct (negb _).
  - destruct (data_fetch_step s p c (aq_addr (desc c)) (aq_datalen (desc c)) Hc Hst)
      as (s' & -> & ?); [|done]. pose proof (get16_fits (desc c) 4) as [? _]. done.
  - by destruct (prepared_step s p c Hc Hst) as (s' & -> & ?).
Qed.

Lemma answer_length a d data r data' a' :
  (32 ≤ length d)%nat → answer a d data = Some (r, data', a') → length (reply_desc r) = length d.
Proof.
  intros Hd E. pose proof (answer_verdict a d data Hd) as Hv. rewrite E in Hv.
  destruct Hv as [[[Hl _] _] _]. exact Hl.
Qed.

Lemma admin_process_law s p c :
  full s → is_pos p → ctx s p = Some c → state c = DESC_PREPARED → admin_ok s →
  NoDup (writes s) →
  let s1 := note (put s p (set_state c DESC_PROCESSING)) (index c) in
  match admin_process s1 p with
  | inr s' => proc_step s1 s' ∧ admin_ok s'
  | inl f => f = Derived
  end.
Proof.
  intros Hf Hp Hc Hst Hok Hnd s1. unfold admin_process.
  assert (full s1) as Hf1 by by apply full_put.
  assert (∀ p', is_pos p' → ctx s1 p' = if decide (p = p') then Some (set_state c DESC_PROCESSING)
                                        else ctx s p') as Hc1 by (intros; by apply ctx_put).
  assert (p ∉ writes s) as Hnin.
  { intros (_ & c0 & Hc0 & ?)%Hok. congruence. }
  rewrite (get_ctx s1 p (set_state c DESC_PROCESSING)) by (by rewrite Hc1, decide_True).
  cbn [mbind sum_bind set_state desc data state index].
  destruct (Nat.ltb_spec (length (desc c)) 32) as [|Hd]; [done|].
  destruct (answer _ _ _) as [[[r data_] a]|] eqn:Ea; [|done]. cbn [or_fault mbind sum_bind].
  pose proof (answer_length _ _ _ _ _ _ Hd Ea) as Hlen.
  set (c2 := MkCtx DESC_PROCESSING (index c) (reply_desc r) data_).
  set (s2 := put (update s1 a) p c2).
  assert (∀ p', is_pos p' → ctx s2 p' = if decide (p = p') then Some c2 else ctx s p') as Hc2.
  { intros p' Hp'. unfold s2. rewrite ctx_put by done. case_decide; [done|].
    change (ctx s1 p' = ctx s p'). by rewrite Hc1, decide_False. }
  assert (full s2) as Hf2 by by apply full_put.
  destruct r as [d'|d' addr buf].
  - unfold processed, transition. rewrite (get_ctx s2 p c2) by (by rewrite Hc2, decide_True).
    cbn [mbind sum_bind c2 state]. rewrite decide_True by done.
    set (c3 := set_state _ _). set (s3 := put s2 p c3).
    assert (∀ p', is_pos p' → ctx s3 p' = if decide (p = p') then Some c3 else ctx s p') as Hc3.
    { intros p' Hp'. unfold s3. rewrite ctx_put by done. case_decide; [done|].
      by rewrite Hc2, decide_False. }
    split.
    + split; [by destruct s as [[]]|]. split; [by apply full_put|]. split; [done|]. split.
      * exists []. rewrite app_nil_r. split; [done|]. split; [by constructor|exact Hnd].
      * intros p' c' Hp' Hc'. rewrite Hc3 by done. rewrite Hc1 in Hc' by done.
        case_decide as E; [|by exists c'; auto]. simplify_eq. exists c3. split; [done|].
        right. by split_and!; [| | |right].
    + intros p'. change (writes s3) with (writes s). rewrite (Hok p').
      split; intros (Hp' & c' & Hc' & Hst'); (split; [done|]); exists c'.
      * rewrite Hc3, decide_False by (done || congruence). done.
      * rewrite Hc3 in Hc' by done. case_decide; by simplify_eq.
  - set (s3 := data_write s2 p addr buf).
    assert (writes s3 = writes s ++ [p]) as Ew.
    { change (writes s3) with ((issued s ++ [dma_data_wb p addr buf]) ≫= data_wb_pos). by rewrite bind_snoc. }
    assert (∀ p', is_pos p' → ctx s3 p' = if decide (p = p') then Some c2 else ctx s p') as Hc3
      by exact Hc2.
    split.
    + split; [by destruct s as [[]]|]. split; [exact Hf2|]. split; [done|]. split.
      * exists [dma_data_wb p addr buf]. split; [done|]. split.
        -- constructor; [|constructor]. exists p, addr, buf. split_and!; try done; try lia.
           exists c2. by rewrite Hc3, decide_True.
        -- rewrite Ew. apply NoDup_app. split_and!; [done| |apply NoDup_singleton].
           by intros x Hx ->%list_elem_of_singleton.
      * intros p' c' Hp' Hc'. rewrite Hc3 by done. rewrite Hc1 in Hc' by done.
        case_decide as E; [|by exists c'; auto]. simplify_eq. exists c2. split; [done|].
        right. by split_and!; [| | |left].
    + intros p'. rewrite Ew, elem_of_app, list_elem_of_singleton, (Hok p'). split.
      * intros [(Hp' & c' & Hc' & Hst')| ->]; (split; [done|]).
        -- exists c'. rewrite Hc3, decide_False by (done || congruence). done.
        -- exists c2. by rewrite Hc3, decide_True.
      * intros (Hp' & c' & Hc' & Hst'). rewrite Hc3 in Hc' by done.
        case_decide; [by right|]. left. split; [done|]. by exists c'.
Qed.

Lemma admin_ok_frame s s' :
  writes s' = writes s →
  (∀ p c, is_pos p → ctx s p = Some c → state c = DESC_PROCESSING → ctx s' p = Some c) →
  (∀ p, is_pos p → processing s' p → processing s p) → admin_ok s → admin_ok s'.
Proof.
  intros Ew Hc Hback Hok p. rewrite Ew, (Hok p). split; intros [Hp Hx]; (split; [done|]).
  - destruct Hx as (c & ? & ?). exists c. auto.
  - by apply Hback.
Qed.

Lemma admin_ok_written s s' p l1 l2 :
  writes s = l1 ++ p :: l2 → writes s' = l1 ++ l2 → NoDup (writes s) →
  (∀ p' c, is_pos p' → p' ≠ p → ctx s p' = Some c → state c = DESC_PROCESSING →
     ctx s' p' = Some c) →
  (∀ p', is_pos p' → processing s' p' → p' ≠ p ∧ processing s p') → admin_ok s → admin_ok s'.
Proof.
  intros Ew Ew' Hnd Hc Hback Hok p'. rewrite Ew in Hnd. specialize (Hok p').
  rewrite Ew in Hok. rewrite Ew'. apply NoDup_app in Hnd as (_ & Hd & [Hn _]%NoDup_cons).
  rewrite elem_of_app in *. rewrite elem_of_cons in Hok. split.
  - intros Hin. destruct Hok as [[Hp (c & Hcp & Hst)] _]; [tauto|]. split; [done|]. exists c.
    split; [|done]. apply Hc; [done| |done|done]. intros ->. destruct Hin as [Hin|?]; [|done].
    apply (Hd p Hin). by left.
  - intros [Hp [Hne Hx]%Hback]; [|done]. destruct Hok as [_ [?|[?|?]]]; [done|by left|done|by right].
Qed.

#[export, refine] Instance admin_laws : QueueLaws queue_admin_tx := {| sub_ok := admin_ok |}.
Proof.
  - intros s s' _ _ _ _. apply admin_ok_frame.
  - intros s s' p l1 l2 _ _ _ _ _ Ew Ew' Hnd Hc Hb. by apply (admin_ok_written s s' p l1 l2).
  - intros s p c _ _. apply admin_prepare_law.
  - intros s p c Hf Hp Hc Hst Hok _. by apply admin_process_law.
  - intros s idx pos n Hf Hp Hn Hdl _ Hall. cbn [do_writeback admin_class].
    destruct (base_do_writeback_law s idx pos n Hf Hp Hn Hdl Hall) as (a & d & -> & E).
    by exists (dma_wb pos a d).
  - intros s. cbn. by split_and!.
Defined.

(** ** Theorems *)

(** C19: Whatever descriptor the driver posts, the answer of the firmware model is sound: opcode
    and cookies are those of the command, the done and completion flags are set and the error
    flag exactly with an error code, the reserved flags are kept; a direct answer succeeds or
    says how large the buffer must be; an indirect answer writes as many bytes as the
    descriptor says, to the address of the command and, but for the PHY abilities, within its
    buffer.  The model gives up exactly on the commands of [refused]. *)
Theorem admin_answers (a : queue_admin_tx) (d data : bytes) :
  (32 ≤ length d)%nat →
  match answer a d data with
  | Some (r, _, _) => reply_ok d r ∧ ¬ refused d data
  | None => refused d data
  end.
Proof.
  intros Hd. pose proof (answer_verdict a d data Hd) as Hv.
  by destruct (answer a d data) as [[[r ?] ?]|].
Qed.

(** Every admin command is answered: under every order of completions no assertion of the
    engine fails, and whenever no DMA is in flight, all commands posted have been processed, in
    order, and the head register is at the tail, which is what the driver waits for. *)
Theorem admin_completes_all (q : queue_base) (a : queue_admin_tx) es :
  fresh q → valid_run (MkQs q a [] []) es →
  match run (MkQs q a [] []) es with
  | inr s =>
      issued s = [] →
      log s = (λ i, i mod len q) <$> seqZ 0 (total_posted es) ∧
      active_first_idx (que s) = reg_tail (que s)
  | inl f => f = Derived
  end.
Proof.
  intros Hq Hv. pose (N := len q : RingLen).
  assert (sub_ok (MkQs q a [] [])) as Hs.
  { intros p. split; [by intros ?%not_elem_of_nil|]. intros (Hp & c & Hc & Hst).
    destruct Hq as (_ & Hall & _). rewrite Forall_forall in Hall.
    destruct (Hall c) as [? _]; [by eapply list_elem_of_lookup_2|congruence]. }
  pose proof (ring_run_inv es 0 _ (fresh_ring_inv q a Hq eq_refl Hs) Hv) as Hr.
  destruct (run _ es) as [f|s]; [exact Hr|]. intros Hi.
  apply (quiescent_done _ s Hr). destruct Hr as (_ & _ & _ & _ & Hok & _).
  split; [done|]. intros p c Hp Hc Hst.
  assert (p ∈ writes s) as Hin by (apply Hok; split; [done|by exists c]).
  rewrite Hi in Hin. by apply not_elem_of_nil in Hin.
Qed.

(** ** Examples *)

Definition command (flags opcode datalen : Z) (addr : Z) : bytes :=
  le 2 flags ++ le 2 opcode ++ le 2 datalen ++ le 2 0 ++ le 4 0xAAAA ++ le 4 0xBBBB ++
  le 8 0 ++ le 4 (Z.shiftr addr 32) ++ le 4 addr.

Definition list_caps_command : bytes := command 0x3000 opc_list_func_capabilities 4096 0x1234567800.

Lemma admin_answers_witness :
  let r := answer (MkAdmin 1 0 []) list_caps_command [] in
  match r with Some (Indirect _ a buf, _, _) => a = 0x1234567800 ∧ length buf = 192%nat | _ => False end ∧
  match r with
  | Some (r, _, _) => reply_ok list_caps_command r ∧ ¬ refused list_caps_command []
  | None => refused list_caps_command []
  end.
Proof.
  split; [by vm_compute|]. apply (admin_answers (MkAdmin 1 0 []) list_caps_command []).
  apply Nat.leb_le. by vm_compute.
Defined.

Definition admin_ring : queue_base :=
  MkQueue (replicate 128 (MkCtx DESC_EMPTY 0 (replicate 32 0) [])) 0 0 0 4096 32 0 0 true 32.

(** A direct command, one with a buffer that is fetched, and one that answers with data: the
    writes and fetches complete out of order. *)
Definition admin_example : list (event (S:=queue_admin_tx)) :=
  [EvPost 3;
   EvDone 0 (command 0x2000 opc_get_version 0 0 ++ command 0x3400 opc_remove_macvlan 32 0x5000 ++
             list_caps_command);
   EvDone 0 (replicate 32 0xFF); EvDone 1 []; EvDone 1 []; EvDone 0 []; EvDone 0 []].

Lemma admin_ring_fresh : fresh admin_ring.
Proof.
  split; [done|]. split; [by apply Forall_replicate|]. repeat (split; [done|]). by exists 5.
Qed.

Lemma admin_completes_all_witness :
  match run (MkQs admin_ring (MkAdmin 1 0 []) [] []) admin_example with
  | inr s =>
      issued s = [] ∧ log s = [0; 1; 2] ∧
      (issued s = [] →
       log s = (λ i, i mod len admin_ring) <$> seqZ 0 (total_posted admin_example) ∧
       active_first_idx (que s) = reg_tail (que s))
  | inl f => f = Derived ∧ False
  end.
Proof.
  pose proof (admin_completes_all admin_ring (MkAdmin 1 0 []) admin_example admin_ring_fresh) as Ht.
  assert (valid_run (MkQs admin_ring (MkAdmin 1 0 []) [] []) admin_example) as Hv
    by (apply ring_runb_sound; by vm_compute).
  specialize (Ht Hv). revert Ht. vm_compute. tauto.
Defined.

(** ** Limits of the model *)

(** The PHY abilities are written whatever the size of the buffer: here, none. *)
Theorem phy_abilities_overrun :
  match answer (MkAdmin 0 0 []) (command 0x1000 opc_get_phy_abilities 0 0x5000) [] with
  | Some (Indirect _ addr buf, _, _) => addr = 0x5000 ∧ length buf = 536%nat
  | _ => False
  end.
Proof. by vm_compute. Qed.

(** Disabling the queue does not bring it back to the start of the ring: after one command, a
    driver that disables it and sets up the ring again, with head and tail at 0, finds the 31
    entries from index 1 fetched, none of which it has posted. *)
Definition after_one : qstate queue_admin_tx :=
  MkQs (MkQueue (desc_ctxs admin_ring) 1 1 0 4096 32 1 1 true 32) (MkAdmin 0 0 []) [] [].

Theorem reenabled_queue_runs_ahead :
  ∃ s1 s2, admin_reg_updated after_one 0 0 0 0 = inr s1 ∧
    admin_reg_updated s1 4096 (Z.lor (Z.shiftl 1 31) 32) 0 0 = inr s2 ∧
    issued s2 = [dma_fetch 1 (4096 + 32) (31 * 32)].
Proof. do 2 eexists. split; [by vm_compute|]. split; by vm_compute. Qed.

End adminq.
