(* ===== verification/I40eRegs.v ===== *)
(** * Device registers of the i40e model

    Translation of [i40e_regs], [reg_mem_read32], [reg_mem_write32] and [shadow_ram] in
    sims/nic/i40e_bm/{i40e_bm.h,i40e_bm.cc}: the registers of the device, and how reads and
    writes of the memory BAR are decoded.  The chains of ranges and the [switch]es of the code
    are tables here, in the order of the source.  What a write makes the rest of the device do
    is returned as an [effect]; I40eDev.v carries it out. *)

From S2P Require Import Prelude I40ePtp.

Module regs.

(** ** The registers ([struct i40e_regs]) *)

Inductive reg :=
| glgen_rstctl | glgen_stat | gllan_rctl_0 | pfint_lnklst0 | pfint_icr0_ena | pfint_icr0
| pfint_itr0 | pfint_itrn | pfint_stat_ctl0 | pfint_dyn_ctl0 | pfint_dyn_ctln | pfint_lnklstn
| pfint_raten | gllan_txpre_qdis | glnvm_srctl | glnvm_srdata
| qint_tqctl | qtx_ena | qtx_tail | qtx_ctl | qint_rqctl | qrx_ena | qrx_tail
| glhmc_lantxbase | glhmc_lantxcnt | glhmc_lanrxbase | glhmc_lanrxcnt
| pfhmc_sdcmd | pfhmc_sddatalow | pfhmc_sddatahigh | pfhmc_pdinv | pfhmc_errorinfo
| pfhmc_errordata
| pf_atqba | pf_atqlen | pf_atqh | pf_atqt | pf_arqba | pf_arqlen | pf_arqh | pf_arqt
| pfqf_ctl_0 | pfqf_hkey | pfqf_hlut
| prtdcb_fccfg | prtdcb_mflcn | prt_l2tagsen | prtqf_ctl_0
| glrpb_ghw | glrpb_glw | glrpb_phw | glrpb_plw
| prtsyn_ctl_0 | prtsyn_ctl_1 | prtsyn_aux_0 | prtsyn_stat_0 | prtsyn_stat_1
| prtsyn_inc | prtsyn_inc_l | prtsyn_inc_h | prtsyn_time_l | prtsyn_time_h
| prtsyn_rxtime_lock | prtsyn_rxtime | prtsyn_rxtime_h | prtsyn_txtime | prtsyn_txtime_h.

Scheme Equality for reg.

#[export] Instance reg_eq_decision : EqDecision reg := reg_eq_dec.

Definition NUM_QUEUES : nat := N.to_nat 1536.
Definition NUM_PFINTS : nat := 128.

(** The number of elements; [pfint_itrn] has three rows of [NUM_PFINTS]. *)
Definition reg_size (f : reg) : nat :=
  match f with
  | pfint_itr0 => 3
  | pfint_itrn => 3 * NUM_PFINTS
  | pfint_dyn_ctln | pfint_lnklstn | pfint_raten => NUM_PFINTS - 1
  | gllan_txpre_qdis => 12
  | qint_tqctl | qtx_ena | qtx_tail | qtx_ctl | qint_rqctl | qrx_ena | qrx_tail => NUM_QUEUES
  | glhmc_lantxbase | glhmc_lantxcnt | glhmc_lanrxbase | glhmc_lanrxcnt => 16
  | pfqf_hkey => 13
  | pfqf_hlut => 128
  | prtsyn_rxtime_lock | prtsyn_rxtime | prtsyn_rxtime_h => 4
  | _ => 1
  end.

(** The contents: element [i] of register [f]. *)
Definition i40e_regs : Type := reg → nat → Z.

Implicit Types r : i40e_regs.

Definition upd r (f : reg) (i : nat) (v : Z) : i40e_regs :=
  λ g j, if decide (g = f ∧ j = i) then v else r g j.

(** An index outside the array is undefined. *)
Definition load r (f : reg) (i : nat) : option Z :=
  if (i <? reg_size f)%nat then Some (r f i) else None.
Definition store r (f : reg) (i : nat) (v : Z) : option i40e_regs :=
  if (i <? reg_size f)%nat then Some (upd r f i v) else None.

(** ** Addresses (i40e_register.h) *)

Definition I40E_PFINT_DYN_CTLN (i : Z) : Z := 0x00034800 + i * 4.
Definition I40E_PFINT_LNKLSTN (i : Z) : Z := 0x00035000 + i * 4.
Definition I40E_PFINT_RATEN (i : Z) : Z := 0x00035800 + i * 4.
Definition I40E_GLLAN_TXPRE_QDIS (i : Z) : Z := 0x000e6500 + i * 4.
Definition I40E_QINT_TQCTL (i : Z) : Z := 0x0003C000 + i * 4.
Definition I40E_QTX_ENA (i : Z) : Z := 0x00100000 + i * 4.
Definition I40E_QTX_TAIL (i : Z) : Z := 0x00108000 + i * 4.
Definition I40E_QTX_CTL (i : Z) : Z := 0x00104000 + i * 4.
Definition I40E_QINT_RQCTL (i : Z) : Z := 0x0003A000 + i * 4.
Definition I40E_QRX_ENA (i : Z) : Z := 0x00120000 + i * 4.
Definition I40E_QRX_TAIL (i : Z) : Z := 0x00128000 + i * 4.
Definition I40E_GLHMC_LANTXBASE (i : Z) : Z := 0x000C6200 + i * 4.
Definition I40E_GLHMC_LANTXCNT (i : Z) : Z := 0x000C6300 + i * 4.
Definition I40E_GLHMC_LANRXBASE (i : Z) : Z := 0x000C6400 + i * 4.
Definition I40E_GLHMC_LANRXCNT (i : Z) : Z := 0x000C6500 + i * 4.
Definition I40E_PFQF_HKEY (i : Z) : Z := 0x00244800 + i * 128.
Definition I40E_PFQF_HLUT (i : Z) : Z := 0x00240000 + i * 128.
Definition I40E_PFINT_ITRN (i n : Z) : Z := 0x00030000 + (i * 2048 + n * 4).
Definition I40E_PFINT_ITR0 (i : Z) : Z := 0x00038000 + i * 128.
Definition I40E_PRTTSYN_RXTIME_H (i : Z) : Z := 0x00085040 + i * 32.
Definition I40E_PRTTSYN_RXTIME_L (i : Z) : Z := 0x000850C0 + i * 32.

Definition I40E_PFGEN_CTRL : Z := 0x00092400.
Definition I40E_GL_FWSTS : Z := 0x00083048.
Definition I40E_GLGEN_RSTCTL : Z := 0x000B8180.
Definition I40E_GLGEN_STAT : Z := 0x000B612C.
Definition I40E_GLVFGEN_TIMER : Z := 0x000881BC.
Definition I40E_GLLAN_RCTL_0 : Z := 0x0012A500.
Definition I40E_GLNVM_SRCTL : Z := 0x000B6110.
Definition I40E_GLNVM_SRDATA : Z := 0x000B6114.
Definition I40E_PFINT_LNKLST0 : Z := 0x00038500.
Definition I40E_PFINT_ICR0_ENA : Z := 0x00038800.
Definition I40E_PFINT_ICR0 : Z := 0x00038780.
Definition I40E_PFINT_STAT_CTL0 : Z := 0x00038400.
Definition I40E_PFINT_DYN_CTL0 : Z := 0x00038480.
Definition I40E_PFHMC_SDCMD : Z := 0x000C0000.
Definition I40E_PFHMC_SDDATALOW : Z := 0x000C0100.
Definition I40E_PFHMC_SDDATAHIGH : Z := 0x000C0200.
Definition I40E_PFHMC_PDINV : Z := 0x000C0300.
Definition I40E_PFHMC_ERRORINFO : Z := 0x000C0400.
Definition I40E_PFHMC_ERRORDATA : Z := 0x000C0500.
Definition I40E_PF_ATQBAL : Z := 0x00080000.
Definition I40E_PF_ATQBAH : Z := 0x00080100.
Definition I40E_PF_ATQLEN : Z := 0x00080200.
Definition I40E_PF_ATQH : Z := 0x00080300.
Definition I40E_PF_ATQT : Z := 0x00080400.
Definition I40E_PF_ARQBAL : Z := 0x00080080.
Definition I40E_PF_ARQBAH : Z := 0x00080180.
Definition I40E_PF_ARQLEN : Z := 0x00080280.
Definition I40E_PF_ARQH : Z := 0x00080380.
Definition I40E_PF_ARQT : Z := 0x00080480.
Definition I40E_PFQF_CTL_0 : Z := 0x001C0AC0.
Definition I40E_PRTDCB_FCCFG : Z := 0x001E4640.
Definition I40E_PRTDCB_MFLCN : Z := 0x001E2400.
Definition I40E_PRT_L2TAGSEN : Z := 0x001C0B20.
Definition I40E_PRTQF_CTL_0 : Z := 0x00256E60.
Definition I40E_GLRPB_GHW : Z := 0x000AC830.
Definition I40E_GLRPB_GLW : Z := 0x000AC834.
Definition I40E_GLRPB_PHW : Z := 0x000AC844.
Definition I40E_GLRPB_PLW : Z := 0x000AC848.
Definition I40E_PRTTSYN_CTL0 : Z := 0x001E4200.
Definition I40E_PRTTSYN_CTL1 : Z := 0x00085020.
Definition I40E_PRTTSYN_AUX_0 (i : Z) : Z := 0x001E42A0 + i * 32.
Definition I40E_PRTTSYN_STAT_0 : Z := 0x001E4220.
Definition I40E_PRTTSYN_STAT_1 : Z := 0x00085140.
Definition I40E_PRTTSYN_ADJ : Z := 0x001E4280.
Definition I40E_PRTTSYN_INC_L : Z := 0x001E4040.
Definition I40E_PRTTSYN_INC_H : Z := 0x001E4060.
Definition I40E_PRTTSYN_TIME_L : Z := 0x001E4100.
Definition I40E_PRTTSYN_TIME_H : Z := 0x001E4120.
Definition I40E_PRTTSYN_TXTIME_L : Z := 0x001E41C0.
Definition I40E_PRTTSYN_TXTIME_H : Z := 0x001E41E0.
Definition I40E_GLPCI_CAPSUP : Z := 0x000BE4A8.
Definition I40E_GLPCI_CNF2 : Z := 0x000BE494.
Definition I40E_GLNVM_ULD : Z := 0x000B6008.
Definition I40E_GLNVM_GENS : Z := 0x000B6100.
Definition I40E_GLNVM_FLA : Z := 0x000B6108.
Definition I40E_PFLAN_QALLOC : Z := 0x001C0400.
Definition I40E_PF_VT_PFALLOC : Z := 0x001C0500.
Definition I40E_PFGEN_PORTNUM : Z := 0x001C0480.
Definition I40E_GLHMC_LANTXOBJSZ : Z := 0x000C2004.
Definition I40E_GLHMC_LANQMAX : Z := 0x000C2008.
Definition I40E_GLHMC_LANRXOBJSZ : Z := 0x000C200c.
Definition I40E_GLHMC_FCOEMAX : Z := 0x000C2014.
Definition I40E_GLHMC_FCOEDDPOBJSZ : Z := 0x000C2010.
Definition I40E_GLHMC_FCOEFMAX : Z := 0x000C20D0.
Definition I40E_GLHMC_FCOEFOBJSZ : Z := 0x000C2018.
Definition I40E_PRTMAC_LINKSTA : Z := 0x001E2420.
Definition I40E_PRTMAC_MACC : Z := 0x001E24E0.

(** ** Effects *)

Inductive effect :=
| Nop
| QenaUpdated (idx : nat) (rx : bool)
| TailUpdated (idx : nat) (rx : bool)
| RssKeyUpdated
| DoReset
| HmcUpdated (addr : Z)
| AtqUpdated
| AdjSet (val : Z)
| IncSet (val : Z)
| PhcWrite (val : Z).

(** ** Ranges *)

(** Addresses from [r_lo] to [r_hi], which belongs to the range unless [r_strict]; the element
    of [r_reg] is [r_off] plus the distance in units of [r_stride]. *)
Record range := MkRange {
  r_lo : Z; r_hi : Z; r_strict : bool; r_stride : Z; r_reg : reg; r_off : nat;
  r_eff : nat → effect
}.

Definition in_range (x : range) (addr : Z) : bool :=
  (r_lo x <=? addr) && (if r_strict x then addr <? r_hi x else addr <=? r_hi x).

Definition range_index (x : range) (addr : Z) : nat :=
  (r_off x + Z.to_nat ((addr - r_lo x) / r_stride x))%nat.

Fixpoint find_range (t : list range) (addr : Z) : option range :=
  match t with
  | [] => None
  | x :: t => if in_range x addr then Some x else find_range t addr
  end.

(** [addr >= A(0) && addr <= A(last)] *)
Definition upto (a : Z → Z) (last : Z) (f : reg) (e : nat → effect) : range :=
  MkRange (a 0) (a last) false 4 f 0 e.
(** [addr >= A(0) && addr < A(last)] *)
Definition below (a : Z → Z) (last : Z) (f : reg) (e : nat → effect) : range :=
  MkRange (a 0) (a last) true 4 f 0 e.
(** The registers that are 128 bytes apart. *)
Definition spread (a : Z → Z) (last : Z) (f : reg) (e : nat → effect) : range :=
  MkRange (a 0) (a last) false 128 f 0 e.
(** A row of [pfint_itrn]. *)
Definition row (i : nat) : range :=
  MkRange (I40E_PFINT_ITRN (Z.of_nat i) 0) (I40E_PFINT_ITRN (Z.of_nat i) (Z.of_nat NUM_PFINTS - 1))
    false 4 pfint_itrn (i * NUM_PFINTS) (λ _, Nop).

Definition last_q : Z := 1535.
Definition last_int : Z := 127.
Definition nop (_ : nat) : effect := Nop.

(** The chain of [reg_mem_read32]. *)
Definition read_ranges : list range :=
  [below I40E_PFINT_DYN_CTLN last_int pfint_dyn_ctln nop;
   upto I40E_PFINT_LNKLSTN last_int pfint_lnklstn nop;
   upto I40E_PFINT_RATEN last_int pfint_raten nop;
   below I40E_GLLAN_TXPRE_QDIS 12 gllan_txpre_qdis nop;
   upto I40E_QINT_TQCTL last_q qint_tqctl nop;
   upto I40E_QTX_ENA last_q qtx_ena nop;
   upto I40E_QTX_TAIL last_q qtx_tail nop;
   upto I40E_QTX_CTL last_q qtx_ctl nop;
   upto I40E_QINT_RQCTL last_q qint_rqctl nop;
   upto I40E_QRX_ENA last_q qrx_ena nop;
   upto I40E_QRX_TAIL last_q qrx_tail nop;
   upto I40E_GLHMC_LANTXBASE 15 glhmc_lantxbase nop;
   upto I40E_GLHMC_LANTXCNT 15 glhmc_lantxcnt nop;
   upto I40E_GLHMC_LANRXBASE 15 glhmc_lanrxbase nop;
   upto I40E_GLHMC_LANRXCNT 15 glhmc_lanrxcnt nop;
   spread I40E_PFQF_HKEY 12 pfqf_hkey nop;
   spread I40E_PFQF_HLUT 127 pfqf_hlut nop;
   row 0; row 1; row 2].

(** The chain of [reg_mem_write32]. *)
Definition write_ranges : list range :=
  [upto I40E_PFINT_DYN_CTLN last_int pfint_dyn_ctln nop;
   upto I40E_PFINT_LNKLSTN last_int pfint_lnklstn nop;
   upto I40E_PFINT_RATEN last_int pfint_raten nop;
   upto I40E_GLLAN_TXPRE_QDIS 11 gllan_txpre_qdis nop;
   upto I40E_QINT_TQCTL last_q qint_tqctl nop;
   upto I40E_QTX_ENA last_q qtx_ena (λ idx, QenaUpdated idx false);
   upto I40E_QTX_TAIL last_q qtx_tail (λ idx, TailUpdated idx false);
   upto I40E_QTX_CTL last_q qtx_ctl nop;
   upto I40E_QINT_RQCTL last_q qint_rqctl nop;
   upto I40E_QRX_ENA last_q qrx_ena (λ idx, QenaUpdated idx true);
   upto I40E_QRX_TAIL last_q qrx_tail (λ idx, TailUpdated idx true);
   upto I40E_GLHMC_LANTXBASE 15 glhmc_lantxbase nop;
   upto I40E_GLHMC_LANTXCNT 15 glhmc_lantxcnt nop;
   upto I40E_GLHMC_LANRXBASE 15 glhmc_lanrxbase nop;
   upto I40E_GLHMC_LANRXCNT 15 glhmc_lanrxcnt nop;
   spread I40E_PFQF_HKEY 12 pfqf_hkey (λ _, RssKeyUpdated);
   spread I40E_PFQF_HLUT 127 pfqf_hlut nop;
   row 0; row 1; row 2].

(** ** Switches *)

Fixpoint assoc {A} (addr : Z) (l : list (Z * A)) : option A :=
  match l with [] => None | (k, a) :: l => if addr =? k then Some a else assoc addr l end.

(** What a [case] of [reg_mem_read32] does. *)
Inductive rcase :=
| Const (v : Z)                       (* val = v *)
| Field (f : reg) (i : nat)           (* val = regs.f[i] *)
| Clear (f : reg)                     (* val = regs.f; regs.f = 0 *)
| High (f : reg)                      (* val = regs.f >> 32 *)
| Timer                               (* val = runner_->TimePs() / 1000000 *)
| Latch (f h : reg) (i : nat)         (* regs.h[i] = regs.f[i] >> 32; val = regs.f[i] *)
| Adj                                 (* val = ptp.adj_get() *)
| TimeLow                             (* phc_read(), with regs.prtsyn_time_h latched *)
| RxTimeHigh (i : nat).               (* val = regs.prtsyn_rxtime_h[i], which is unlocked *)

(** From [I40E_PFGEN_CTRL] to [I40E_GLNVM_SRDATA]. *)
Definition read_switch_general : list (Z * rcase) :=
  [(I40E_PFGEN_CTRL, Const 0);
   (I40E_GL_FWSTS, Const 0);
   (I40E_GLPCI_CAPSUP, Const 0);
   (I40E_GLNVM_ULD, Const 0xffffffff);
   (I40E_GLNVM_GENS, Const (Z.lor 1 (Z.shiftl 6 5)));
   (I40E_GLNVM_FLA, Const (Z.shiftl 1 6));
   (I40E_GLGEN_RSTCTL, Field glgen_rstctl 0);
   (I40E_GLGEN_STAT, Field glgen_stat 0);
   (I40E_GLVFGEN_TIMER, Timer);
   (I40E_PFINT_LNKLST0, Field pfint_lnklst0 0);
   (I40E_PFINT_ICR0_ENA, Field pfint_icr0_ena 0);
   (I40E_PFINT_ICR0, Clear pfint_icr0);
   (I40E_PFINT_STAT_CTL0, Field pfint_stat_ctl0 0);
   (I40E_PFINT_DYN_CTL0, Field pfint_dyn_ctl0 0);
   (I40E_PFINT_ITR0 0, Field pfint_itr0 0);
   (I40E_PFINT_ITR0 1, Field pfint_itr0 1);
   (I40E_PFINT_ITR0 2, Field pfint_itr0 2);
   (I40E_GLPCI_CNF2, Const (Z.lor (Z.shiftl (128 - 2) 2) (Z.shiftl 2 13)));
   (I40E_GLNVM_SRCTL, Field glnvm_srctl 0);
   (I40E_GLNVM_SRDATA, Field glnvm_srdata 0)].

(** From [I40E_PFLAN_QALLOC] to [I40E_PFHMC_ERRORDATA]. *)
Definition read_switch_hmc : list (Z * rcase) :=
  [(I40E_PFLAN_QALLOC,
    Const (Z.lor (Z.lor (Z.shiftl 0 0) (Z.shiftl (1536 - 1) 16)) (Z.shiftl 1 31)));
   (I40E_PF_VT_PFALLOC, Const 0);
   (I40E_PFGEN_PORTNUM, Const (Z.shiftl 0 0));
   (I40E_GLLAN_RCTL_0, Field gllan_rctl_0 0);
   (I40E_GLHMC_LANTXOBJSZ, Const 7);
   (I40E_GLHMC_LANQMAX, Const 1536);
   (I40E_GLHMC_LANRXOBJSZ, Const 5);
   (I40E_GLHMC_FCOEMAX, Const 0);
   (I40E_GLHMC_FCOEDDPOBJSZ, Const 0);
   (I40E_GLHMC_FCOEFMAX, Const (Z.shiftl 0x1000 0));
   (I40E_GLHMC_FCOEFOBJSZ, Const 0);
   (I40E_PFHMC_SDCMD, Field pfhmc_sdcmd 0);
   (I40E_PFHMC_SDDATALOW, Field pfhmc_sddatalow 0);
   (I40E_PFHMC_SDDATAHIGH, Field pfhmc_sddatahigh 0);
   (I40E_PFHMC_PDINV, Field pfhmc_pdinv 0);
   (I40E_PFHMC_ERRORINFO, Field pfhmc_errorinfo 0);
   (I40E_PFHMC_ERRORDATA, Field pfhmc_errordata 0)].

(** From [I40E_PF_ATQBAL] to [I40E_GLRPB_PLW]. *)
Definition read_switch_queues : list (Z * rcase) :=
  [(I40E_PF_ATQBAL, Field pf_atqba 0);
   (I40E_PF_ATQBAH, High pf_atqba);
   (I40E_PF_ATQLEN, Field pf_atqlen 0);
   (I40E_PF_ATQH, Field pf_atqh 0);
   (I40E_PF_ATQT, Field pf_atqt 0);
   (I40E_PF_ARQBAL, Field pf_arqba 0);
   (I40E_PF_ARQBAH, High pf_arqba);
   (I40E_PF_ARQLEN, Field pf_arqlen 0);
   (I40E_PF_ARQH, Field pf_arqh 0);
   (I40E_PF_ARQT, Field pf_arqt 0);
   (I40E_PRTMAC_LINKSTA, Const (Z.lor 0x40000080 0x18000000));
   (I40E_PRTMAC_MACC, Const 0);
   (I40E_PFQF_CTL_0, Field pfqf_ctl_0 0);
   (I40E_PRTDCB_FCCFG, Field prtdcb_fccfg 0);
   (I40E_PRTDCB_MFLCN, Field prtdcb_mflcn 0);
   (I40E_PRT_L2TAGSEN, Field prt_l2tagsen 0);
   (I40E_PRTQF_CTL_0, Field prtqf_ctl_0 0);
   (I40E_GLRPB_GHW, Field glrpb_ghw 0);
   (I40E_GLRPB_GLW, Field glrpb_glw 0);
   (I40E_GLRPB_PHW, Field glrpb_phw 0);
   (I40E_GLRPB_PLW, Field glrpb_plw 0)].

(** From [I40E_PRTTSYN_CTL0] to [I40E_PRTTSYN_TXTIME_H]. *)
Definition read_switch_time : list (Z * rcase) :=
  [(I40E_PRTTSYN_CTL0, Field prtsyn_ctl_0 0);
   (I40E_PRTTSYN_CTL1, Field prtsyn_ctl_1 0);
   (I40E_PRTTSYN_AUX_0 0, Field prtsyn_aux_0 0);
   (I40E_PRTTSYN_STAT_0, Clear prtsyn_stat_0);
   (I40E_PRTTSYN_STAT_1, Field prtsyn_stat_1 0);
   (I40E_PRTTSYN_ADJ, Adj);
   (I40E_PRTTSYN_INC_L, Latch prtsyn_inc prtsyn_inc_h 0);
   (I40E_PRTTSYN_INC_H, Field prtsyn_inc_h 0);
   (I40E_PRTTSYN_TIME_L, TimeLow);
   (I40E_PRTTSYN_TIME_H, Field prtsyn_time_h 0);
   (I40E_PRTTSYN_RXTIME_L 0, Latch prtsyn_rxtime prtsyn_rxtime_h 0);
   (I40E_PRTTSYN_RXTIME_L 1, Latch prtsyn_rxtime prtsyn_rxtime_h 1);
   (I40E_PRTTSYN_RXTIME_L 2, Latch prtsyn_rxtime prtsyn_rxtime_h 2);
   (I40E_PRTTSYN_RXTIME_L 3, Latch prtsyn_rxtime prtsyn_rxtime_h 3);
   (I40E_PRTTSYN_RXTIME_H 0, RxTimeHigh 0);
   (I40E_PRTTSYN_RXTIME_H 1, RxTimeHigh 1);
   (I40E_PRTTSYN_RXTIME_H 2, RxTimeHigh 2);
   (I40E_PRTTSYN_RXTIME_H 3, RxTimeHigh 3);
   (I40E_PRTTSYN_TXTIME_L, Latch prtsyn_txtime prtsyn_txtime_h 0);
   (I40E_PRTTSYN_TXTIME_H, Field prtsyn_txtime_h 0)].

Definition read_switch : list (Z * rcase) :=
  read_switch_general ++ read_switch_hmc ++ read_switch_queues ++ read_switch_time.

(** What a [case] of [reg_mem_write32] does. *)
Inductive wcase :=
| Reset                                    (* if (val & PFSWR) reset(true) *)
| Ignored
| PxeMode                                  (* clears regs.gllan_rctl_0 *)
| Shadow (f : reg)                         (* regs.f = val; shram.reg_updated() *)
| Set_ (f : reg) (i : nat) (e : effect)    (* regs.f[i] = val; e *)
| SetLow (f g : reg) (e : effect)          (* regs.f = val | (regs.g & 0xffffffff00000000) *)
| SetHigh (f : reg) (e : effect)           (* regs.f = val << 32 | (regs.f & 0xffffffff) *)
| SetAdj                                   (* ptp.adj_set(val) *)
| SetInc                                   (* regs.prtsyn_inc = val << 32 | regs.prtsyn_inc_l *)
| SetTime.                                 (* ptp.phc_write(val << 32 | regs.prtsyn_time_l) *)

(** From [I40E_PFGEN_CTRL] to [I40E_PFHMC_PDINV]. *)
Definition write_switch_general : list (Z * wcase) :=
  [(I40E_PFGEN_CTRL, Reset);
   (I40E_GL_FWSTS, Ignored);
   (I40E_GLGEN_RSTCTL, Set_ glgen_rstctl 0 Nop);
   (I40E_GLLAN_RCTL_0, PxeMode);
   (I40E_GLNVM_SRCTL, Shadow glnvm_srctl);
   (I40E_GLNVM_SRDATA, Shadow glnvm_srdata);
   (I40E_PFINT_LNKLST0, Set_ pfint_lnklst0 0 Nop);
   (I40E_PFINT_ICR0_ENA, Set_ pfint_icr0_ena 0 Nop);
   (I40E_PFINT_ICR0, Set_ pfint_icr0 0 Nop);
   (I40E_PFINT_STAT_CTL0, Set_ pfint_stat_ctl0 0 Nop);
   (I40E_PFINT_DYN_CTL0, Set_ pfint_dyn_ctl0 0 Nop);
   (I40E_PFINT_ITR0 0, Set_ pfint_itr0 0 Nop);
   (I40E_PFINT_ITR0 1, Set_ pfint_itr0 1 Nop);
   (I40E_PFINT_ITR0 2, Set_ pfint_itr0 2 Nop);
   (I40E_PFHMC_SDCMD, Set_ pfhmc_sdcmd 0 (HmcUpdated I40E_PFHMC_SDCMD));
   (I40E_PFHMC_SDDATALOW, Set_ pfhmc_sddatalow 0 (HmcUpdated I40E_PFHMC_SDDATALOW));
   (I40E_PFHMC_SDDATAHIGH, Set_ pfhmc_sddatahigh 0 (HmcUpdated I40E_PFHMC_SDDATAHIGH));
   (I40E_PFHMC_PDINV, Set_ pfhmc_pdinv 0 (HmcUpdated I40E_PFHMC_PDINV))].

(** From [I40E_PF_ATQBAL] to [I40E_GLRPB_PLW].  [I40E_PF_ARQBAL] takes its high half from the
    base of the other queue. *)
Definition write_switch_queues : list (Z * wcase) :=
  [(I40E_PF_ATQBAL, SetLow pf_atqba pf_atqba AtqUpdated);
   (I40E_PF_ATQBAH, SetHigh pf_atqba AtqUpdated);
   (I40E_PF_ATQLEN, Set_ pf_atqlen 0 AtqUpdated);
   (I40E_PF_ATQH, Set_ pf_atqh 0 AtqUpdated);
   (I40E_PF_ATQT, Set_ pf_atqt 0 AtqUpdated);
   (I40E_PF_ARQBAL, SetLow pf_arqba pf_atqba Nop);
   (I40E_PF_ARQBAH, SetHigh pf_arqba Nop);
   (I40E_PF_ARQLEN, Set_ pf_arqlen 0 Nop);
   (I40E_PF_ARQH, Set_ pf_arqh 0 Nop);
   (I40E_PF_ARQT, Set_ pf_arqt 0 Nop);
   (I40E_PFQF_CTL_0, Set_ pfqf_ctl_0 0 Nop);
   (I40E_PRTDCB_FCCFG, Set_ prtdcb_fccfg 0 Nop);
   (I40E_PRTDCB_MFLCN, Set_ prtdcb_mflcn 0 Nop);
   (I40E_PRT_L2TAGSEN, Set_ prt_l2tagsen 0 Nop);
   (I40E_PRTQF_CTL_0, Set_ prtqf_ctl_0 0 Nop);
   (I40E_GLRPB_GHW, Set_ glrpb_ghw 0 Nop);
   (I40E_GLRPB_GLW, Set_ glrpb_glw 0 Nop);
   (I40E_GLRPB_PHW, Set_ glrpb_phw 0 Nop);
   (I40E_GLRPB_PLW, Set_ glrpb_plw 0 Nop)].

(** From [I40E_PRTTSYN_CTL0] to [I40E_PRTTSYN_TIME_H]. *)
Definition write_switch_time : list (Z * wcase) :=
  [(I40E_PRTTSYN_CTL0, Set_ prtsyn_ctl_0 0 Nop);
   (I40E_PRTTSYN_CTL1, Set_ prtsyn_ctl_1 0 Nop);
   (I40E_PRTTSYN_AUX_0 0, Set_ prtsyn_aux_0 0 Nop);
   (I40E_PRTTSYN_ADJ, SetAdj);
   (I40E_PRTTSYN_INC_L, Set_ prtsyn_inc_l 0 Nop);
   (I40E_PRTTSYN_INC_H, SetInc);
   (I40E_PRTTSYN_TIME_L, Set_ prtsyn_time_l 0 Nop);
   (I40E_PRTTSYN_TIME_H, SetTime)].

Definition write_switch : list (Z * wcase) :=
  write_switch_general ++ write_switch_queues ++ write_switch_time.

(** ** Shadow RAM *)

Definition SRCTL_ADDR_SHIFT : Z := 14.
Definition SRCTL_WRITE_SHIFT : Z := 29.
Definition SRCTL_START_SHIFT : Z := 30.
Definition SRCTL_DONE_SHIFT : Z := 31.

(** [shadow_ram::read]: the words the driver looks at. *)
Definition shadow_read (addr : Z) : Z :=
  if addr =? 0x00 then Z.shiftl 1 6
  else if addr =? 0x3F then 0xbaba
  else 0.

(** [shadow_ram::reg_updated]; writes have no effect. *)
Definition shadow_updated r : i40e_regs :=
  let val := r glnvm_srctl 0%nat in
  if negb (Z.testbit val SRCTL_START_SHIFT) then r
  else
    let addr := u16 (Z.land (Z.shiftr val SRCTL_ADDR_SHIFT) 0x7FFF) in
    let r := if Z.testbit val SRCTL_WRITE_SHIFT then r
             else upd r glnvm_srdata 0
                    (Z.lor (Z.land (r glnvm_srdata 0%nat) 0xFFFF) (Z.shiftl (shadow_read addr) 16)) in
    upd r glnvm_srctl 0
      (Z.lor (Z.clearbit (r glnvm_srctl 0%nat) SRCTL_START_SHIFT) (Z.shiftl 1 SRCTL_DONE_SHIFT)).

(** ** Reads and writes *)

Definition read_case r (p : ptp.ptpmgr) (now : Z) (c : rcase) : option (Z * i40e_regs * ptp.ptpmgr) :=
  match c with
  | Const v => Some (v, r, p)
  | Field f i => v ← load r f i; Some (u32 v, r, p)
  | Clear f => Some (r f 0%nat, upd r f 0 0, p)
  | High f => Some (u32 (Z.shiftr (r f 0%nat) 32), r, p)
  | Timer => Some (u32 (now / 1000000), r, p)
  | Latch f h i =>
      v ← load r f i; r' ← store r h i (u32 (Z.shiftr v 32));
      Some (u32 v, r', p)
  | Adj => let '(v, p) := ptp.adj_get p now in Some (v, r, p)
  | TimeLow =>
      let '(phc, p) := ptp.phc_read p now in
      Some (u32 phc, upd r prtsyn_time_h 0 (u32 (Z.shiftr phc 32)), p)
  | RxTimeHigh i =>
      v ← load r prtsyn_rxtime_h i; r ← store r prtsyn_rxtime_lock i 0;
      Some (v, upd r prtsyn_stat_1 0 (Z.clearbit (r prtsyn_stat_1 0%nat) (Z.of_nat i)), p)
  end.

(** [reg_mem_read32]; [None]: an index outside a register array.  An address that is not in the
    tables reads 0. *)
Definition reg_mem_read32 r (p : ptp.ptpmgr) (now addr : Z) : option (Z * i40e_regs * ptp.ptpmgr) :=
  match find_range read_ranges addr with
  | Some x => v ← load r (r_reg x) (range_index x addr); Some (u32 v, r, p)
  | None =>
      match assoc addr read_switch with
      | Some c => read_case r p now c
      | None => Some (0, r, p)
      end
  end.

Definition write_case r (val : Z) (c : wcase) : option (i40e_regs * effect) :=
  match c with
  | Reset => Some (r, if Z.land val 1 =? 1 then DoReset else Nop)
  | Ignored => Some (r, Nop)
  | PxeMode =>
      Some (if Z.land val 1 =? 0 then r
            else upd r gllan_rctl_0 0 (Z.clearbit (r gllan_rctl_0 0%nat) 0), Nop)
  | Shadow f => Some (shadow_updated (upd r f 0 val), Nop)
  | Set_ f i e => r ← store r f i val; Some (r, e)
  | SetLow f g e => Some (upd r f 0 (Z.lor val (Z.land (r g 0%nat) 0xffffffff00000000)), e)
  | SetHigh f e =>
      Some (upd r f 0 (Z.lor (u64 (Z.shiftl val 32)) (Z.land (r f 0%nat) 0xffffffff)), e)
  | SetAdj => Some (r, AdjSet val)
  | SetInc =>
      let inc := Z.lor (u64 (Z.shiftl val 32)) (r prtsyn_inc_l 0%nat) in
      Some (upd r prtsyn_inc 0 inc, IncSet inc)
  | SetTime => Some (r, PhcWrite (Z.lor (u64 (Z.shiftl val 32)) (r prtsyn_time_l 0%nat)))
  end.

(** [reg_mem_write32] as far as the registers go. *)
Definition reg_mem_write32 r (addr val : Z) : option (i40e_regs * effect) :=
  match find_range write_ranges addr with
  | Some x =>
      let idx := range_index x addr in
      r ← store r (r_reg x) idx val; Some (r, r_eff x idx)
  | None =>
      match assoc addr write_switch with
      | Some c => write_case r val c
      | None => Some (r, Nop)
      end
  end.

(** ** Reset *)

Definition default_hkey : list Z :=
  [0xda565a6d; 0xc20e5b25; 0x3d256741; 0xb08fa343; 0xcb2bcad0; 0xb4307bae; 0xa32dcb77; 0x0cf23080;
   0x3bb7426a; 0xfa01acbe; 0; 0; 0].

(** The registers after [i40e_bm::reset]. *)
Definition reset_regs (indicate_done : bool) : i40e_regs := λ f i,
  match f, i with
  | glnvm_srctl, O => if indicate_done then Z.shiftl 1 SRCTL_DONE_SHIFT else 0
  | pfqf_hkey, i => nth i default_hkey 0
  | glrpb_ghw, O => 0xF2000
  | glrpb_phw, O => 0x1246
  | glrpb_plw, O => 0x0846
  | prtsyn_ctl_1, O => Z.lor (Z.shiftl 1 8) (Z.shiftl 1 20)
  | _, _ => 0
  end.

(** ** Decoding *)

Lemma upd_same r f i v : upd r f i v f i = v.
Proof. unfold upd. by rewrite decide_True. Qed.

Lemma upd_other r f i v g j : (g, j) ≠ (f, i) → upd r f i v g j = r g j.
Proof. intros Hne. unfold upd. rewrite decide_False; [done|]. intros [-> ->]. done. Qed.

Lemma assoc_elem {A} addr (l : list (Z * A)) a : assoc addr l = Some a → (addr, a) ∈ l.
Proof.
  induction l as [|[k b] l IH]; [done|]. cbn. destruct (Z.eqb_spec addr k) as [->|_].
  - intros [= ->]. left.
  - intros. right. auto.
Qed.

Lemma find_range_elem t addr x : find_range t addr = Some x → x ∈ t ∧ in_range x addr = true.
Proof.
  induction t as [|y t IH]; [done|]. cbn. destruct (in_range y addr) eqn:E.
  - intros [= ->]. split; [left|done].
  - intros [? ?]%IH. split; [by right|done].
Qed.

(** The element a read returns unchanged, and the one a write stores to. *)
Definition read_target (addr : Z) : option (reg * nat) :=
  match find_range read_ranges addr with
  | Some x => Some (r_reg x, range_index x addr)
  | None => match assoc addr read_switch with Some (Field f i) => Some (f, i) | _ => None end
  end.

Definition write_target (addr : Z) : option (reg * nat * effect) :=
  match find_range write_ranges addr with
  | Some x => let idx := range_index x addr in Some (r_reg x, idx, r_eff x idx)
  | None => match assoc addr write_switch with Some (Set_ f i e) => Some (f, i, e) | _ => None end
  end.

(** Registers that read differently from what is written: reading clears one, and the low
    halves of two pairs are held back until the high half is written. *)
Definition latched (f : reg) : bool :=
  match f with pfint_icr0 | prtsyn_inc_l | prtsyn_time_l => true | _ => false end.

(** The chains of reads and writes agree, entry by entry, on aligned addresses; where they do
    not, the write is outside its array. *)
Definition agree (x y : range) : Prop :=
  r_reg x = r_reg y ∧ (∀ addr, range_index x addr = range_index y addr) ∧
  ∀ addr, addr mod 4 = 0 → in_range x addr = in_range y addr ∨
    in_range x addr = true ∧ in_range y addr = false ∧
    (reg_size (r_reg x) ≤ range_index x addr)%nat.

Lemma agree_refl x y :
  r_lo x = r_lo y → r_hi x = r_hi y → r_strict x = r_strict y → r_stride x = r_stride y →
  r_reg x = r_reg y → r_off x = r_off y → agree x y.
Proof.
  intros E1 E2 E3 E4 E5 E6. unfold agree, range_index, in_range.
  rewrite E1, E2, E3, E4, E5, E6. auto.
Qed.

Lemma ranges_agree : Forall2 agree write_ranges read_ranges.
Proof.
  unfold write_ranges, read_ranges. constructor; [|constructor; [|constructor; [|constructor]]].
  4: { split; [done|]. split; [done|]. intros addr Ha. left.
       unfold in_range. cbn [upto below r_lo r_hi r_strict].
       unfold I40E_GLLAN_TXPRE_QDIS.
       f_equal. apply eq_true_iff_eq. rewrite Z.leb_le, Z.ltb_lt. Z.div_mod_to_equations. lia. }
  1: { split; [done|]. split; [done|]. intros addr Ha.
       unfold in_range, range_index. cbn [upto below r_lo r_hi r_strict r_off r_stride r_reg reg_size].
       unfold I40E_PFINT_DYN_CTLN, last_int, NUM_PFINTS.
       destruct (Z.leb_spec (0x34800 + 0 * 4) addr); [|by left]. cbn [andb].
       destruct (Z.leb_spec addr (0x34800 + 127 * 4)), (Z.ltb_spec addr (0x34800 + 127 * 4));
         try lia; try by left.
       right. split_and!; try done. replace addr with (0x34800 + 127 * 4) by lia. by apply Nat.leb_le. }
  all: try by apply agree_refl. by repeat (constructor; [by apply agree_refl|]).
Qed.

Lemma find_range_agree tw tr addr :
  Forall2 agree tw tr → addr mod 4 = 0 →
  match find_range tw addr with
  | Some x => (range_index x addr < reg_size (r_reg x))%nat →
      ∃ y, find_range tr addr = Some y ∧ r_reg y = r_reg x ∧ range_index y addr = range_index x addr
  | None => find_range tr addr = None
  end.
Proof.
  intros Hall Ha. induction Hall as [|x y tw tr (Hr & Hi & Hin) Hall IH]; [done|]. cbn.
  destruct (Hin addr Ha) as [<-|(Ex & Ey & Ho)].
  - destruct (in_range x addr); [|exact IH]. intros _. by exists y.
  - rewrite Ex. intros. lia.
Qed.

Definition field_read_back (c : Z * wcase) : bool :=
  match c with
  | (k, Set_ f i _) =>
      latched f ||
      match assoc k read_switch with
      | Some (Field g j) => bool_decide (f = g ∧ i = j)
      | _ => false
      end
  | _ => true
  end.

Lemma fields_read_back : forallb field_read_back write_switch = true.
Proof. by vm_compute. Qed.

(** An aligned write can be read back at the same address. *)
Lemma targets_agree addr f i e :
  addr mod 4 = 0 → write_target addr = Some (f, i, e) → (i < reg_size f)%nat → latched f = false →
  read_target addr = Some (f, i).
Proof.
  intros Ha Hw Hi Hl. unfold write_target in Hw. unfold read_target.
  pose proof (find_range_agree _ _ addr ranges_agree Ha) as Hr.
  destruct (find_range write_ranges addr) as [x|].
  - simplify_eq. destruct (Hr Hi) as (y & -> & -> & ->). done.
  - rewrite Hr. destruct (assoc addr write_switch) as [c|] eqn:Ec; [|done].
    apply assoc_elem in Ec. pose proof fields_read_back as Hf.
    rewrite forallb_forall in Hf. specialize (Hf _ (proj1 (list_elem_of_In _ _) Ec)).
    destruct c; try done. simplify_eq. cbn [field_read_back] in Hf. rewrite Hl in Hf.
    cbn [orb] in Hf. destruct (assoc addr read_switch) as [[]|]; try done.
    apply bool_decide_eq_true in Hf as [-> ->]. done.
Qed.

(** ** Distinct registers *)

(** The first address of the register at [addr]: registers are 4 bytes wide, and those that are
    128 bytes apart answer at every address up to the next. *)
Definition cell (addr : Z) : Z :=
  match find_range write_ranges addr with
  | Some x => addr - (addr - r_lo x) mod r_stride x
  | None => addr
  end.

Definition last_index (x : range) : nat := range_index x (r_hi x).

Definition no_clash (x y : range) : bool :=
  bool_decide (r_reg x ≠ r_reg y) ||
  bool_decide (r_lo x = r_lo y ∧ r_stride x = r_stride y ∧ r_off x = r_off y) ||
  (last_index x <? r_off y)%nat || (last_index y <? r_off x)%nat.

Definition in_ranges (f : reg) : bool := existsb (λ x, bool_decide (r_reg x = f)) write_ranges.

(** Of two stores of the [switch], only the same case has the same target, and none has the
    target of a range. *)
Definition no_clash_case (c d : Z * wcase) : bool :=
  match c, d with
  | (k, Set_ f i _), (l, Set_ g j _) =>
      negb (in_ranges f) && ((k =? l) || bool_decide ((f, i) ≠ (g, j)))
  | _, _ => true
  end.

Lemma no_clashes :
  forallb (λ x, forallb (no_clash x) write_ranges) write_ranges = true ∧
  forallb (λ x, (0 <? r_stride x) && negb (r_strict x)) write_ranges = true ∧
  forallb (λ c, forallb (no_clash_case c) write_switch) write_switch = true.
Proof. by vm_compute. Qed.

Lemma forallb_elem {A} (p : A → bool) l x : forallb p l = true → x ∈ l → p x = true.
Proof. rewrite forallb_forall. intros Hp Hx. by apply Hp, list_elem_of_In. Qed.

Lemma range_clash x y : x ∈ write_ranges → y ∈ write_ranges → no_clash x y = true.
Proof. intros Hx Hy. exact (forallb_elem _ _ _ (forallb_elem _ _ _ (proj1 no_clashes) Hx) Hy). Qed.

Lemma case_clash c d : c ∈ write_switch → d ∈ write_switch → no_clash_case c d = true.
Proof.
  intros Hc Hd. exact (forallb_elem _ _ _ (forallb_elem _ _ _ (proj2 (proj2 no_clashes)) Hc) Hd).
Qed.

Lemma range_index_bounds x addr :
  x ∈ write_ranges → in_range x addr = true →
  (r_off x ≤ range_index x addr ≤ last_index x)%nat ∧ r_lo x ≤ addr ∧ 0 < r_stride x.
Proof.
  intros Hx Hin. destruct no_clashes as (_ & Hs & _). pose proof (forallb_elem _ _ _ Hs Hx) as Hp.
  apply andb_true_iff in Hp as [Hp Hst]. apply Z.ltb_lt in Hp. apply negb_true_iff in Hst.
  unfold in_range in Hin. rewrite Hst in Hin. apply andb_true_iff in Hin as [Hlo Hhi].
  apply Z.leb_le in Hlo, Hhi. unfold last_index, range_index.
  assert ((addr - r_lo x) / r_stride x ≤ (r_hi x - r_lo x) / r_stride x)
    by (apply Z.div_le_mono; lia). lia.
Qed.

(** Two addresses with the same target are in the same register. *)
Lemma write_target_inj a b f i e e' :
  write_target a = Some (f, i, e) → write_target b = Some (f, i, e') → cell a = cell b.
Proof.
  unfold write_target, cell.
  assert (∀ k c, assoc k write_switch = Some c → match c with Set_ f i _ => in_ranges f = false | _ => True end)
    as Hsw.
  { intros k c Hk%assoc_elem. destruct c; try done.
    pose proof (case_clash _ _ Hk Hk) as Hp. cbn in Hp.
    by apply andb_true_iff in Hp as [Hp%negb_true_iff _]. }
  assert (∀ addr x, find_range write_ranges addr = Some x → in_ranges (r_reg x) = true) as Hra.
  { intros addr x [Hx _]%find_range_elem. apply existsb_exists. exists x.
    split; [by apply list_elem_of_In|by apply bool_decide_eq_true]. }
  destruct (find_range write_ranges a) as [x|] eqn:Ex, (find_range write_ranges b) as [y|] eqn:Ey.
  - intros [= <- <- _] [= Er Ei _]. apply find_range_elem in Ex as [Hx Hxa], Ey as [Hy Hyb].
    destruct (range_index_bounds x a Hx Hxa) as (Bx & Lx & Sx).
    destruct (range_index_bounds y b Hy Hyb) as (By & Ly & Sy).
    pose proof (range_clash _ _ Hx Hy) as Hp. unfold no_clash in Hp.
    rewrite !orb_true_iff, !bool_decide_eq_true, !Nat.ltb_lt in Hp.
    destruct Hp as [[[Hp|(E1 & E2 & E3)]|Hp]|Hp]; [by destruct Hp| |lia|lia].
    unfold range_index in Ei. rewrite <- E1, <- E2, <- E3 in *.
    pose proof (Z.div_pos (a - r_lo x) (r_stride x)). pose proof (Z.div_pos (b - r_lo x) (r_stride x)).
    assert ((a - r_lo x) / r_stride x = (b - r_lo x) / r_stride x) as Ed by lia.
    pose proof (Z.div_mod (a - r_lo x) (r_stride x)). pose proof (Z.div_mod (b - r_lo x) (r_stride x)). lia.
  - intros [= <- _ _]. destruct (assoc b write_switch) as [c|] eqn:E; [|done].
    specialize (Hsw _ _ E). destruct c; try done. intros [= -> _ _]. by rewrite (Hra _ _ Ex) in Hsw.
  - destruct (assoc a write_switch) as [c|] eqn:E; [|done].
    specialize (Hsw _ _ E). destruct c; try done. intros [= -> _ _] [= <- _ _].
    by rewrite (Hra _ _ Ey) in Hsw.
  - destruct (assoc a write_switch) as [c|] eqn:E; [|done].
    destruct (assoc b write_switch) as [d|] eqn:E'; [|by destruct c].
    destruct c; try done. intros [= -> -> _]. destruct d; try done. intros [= -> -> _].
    apply assoc_elem in E, E'.
    pose proof (case_clash _ _ E E') as Hp. cbn in Hp.
    apply andb_true_iff in Hp as [_ Hp]. rewrite orb_true_iff, Z.eqb_eq, bool_decide_eq_true in Hp.
    by destruct Hp.
Qed.

(** Conversely, the addresses of a register have one target. *)
Definition no_overlap (x y : range) : bool :=
  bool_decide (r_reg x = r_reg y ∧ r_lo x = r_lo y ∧ r_stride x = r_stride y ∧ r_off x = r_off y) ||
  (r_hi x <? r_lo y) || (r_hi y <? r_lo x).

Lemma range_overlap x y : x ∈ write_ranges → y ∈ write_ranges → no_overlap x y = true.
Proof.
  assert (forallb (λ x, forallb (no_overlap x) write_ranges) write_ranges = true) as H by (by vm_compute).
  intros Hx Hy. exact (forallb_elem _ _ _ (forallb_elem _ _ _ H Hx) Hy).
Qed.

(** The start of the register lies in its range and has its index. *)
Lemma cell_in_range x a :
  x ∈ write_ranges → in_range x a = true →
  let c := a - (a - r_lo x) mod r_stride x in
  in_range x c = true ∧ r_lo x ≤ c ≤ r_hi x ∧ (a - r_lo x) / r_stride x = (c - r_lo x) / r_stride x.
Proof.
  intros Hx Hin c. destruct (range_index_bounds x a Hx Hin) as (_ & Hlo & Hst).
  destruct no_clashes as (_ & Hs & _). pose proof (forallb_elem _ _ _ Hs Hx) as Hp. clear Hs.
  apply andb_true_iff in Hp as [_ Hstr]. apply negb_true_iff in Hstr.
  assert (a ≤ r_hi x) as Hhi.
  { unfold in_range in Hin. rewrite Hstr in Hin. apply andb_true_iff in Hin as [_ ?%Z.leb_le]. done. }
  pose proof (Z.mod_pos_bound (a - r_lo x) (r_stride x) Hst).
  pose proof (Z.div_mod (a - r_lo x) (r_stride x) ltac:(lia)) as Hdm.
  assert (c - r_lo x = (a - r_lo x) / r_stride x * r_stride x) as Ec by (unfold c; lia).
  assert (0 ≤ (a - r_lo x) / r_stride x) by (apply Z.div_pos; lia).
  assert (r_lo x ≤ c ≤ r_hi x) as Hc by nia.
  split_and!; try lia.
  - unfold in_range. rewrite Hstr. apply andb_true_iff. split; apply Z.leb_le; lia.
  - by rewrite Ec, Z.div_mul by lia.
Qed.

Lemma in_range_found x t a : x ∈ t → in_range x a = true → find_range t a ≠ None.
Proof.
  intros Hx Hin. induction t as [|y t IH]; [by apply not_elem_of_nil in Hx|]. cbn.
  apply elem_of_cons in Hx as [->|Hx]; [by rewrite Hin|]. destruct (in_range y a); [done|auto].
Qed.

Lemma write_target_cell a b f i e g j e' :
  write_target a = Some (f, i, e) → write_target b = Some (g, j, e') → cell a = cell b →
  f = g ∧ i = j.
Proof.
  unfold write_target, cell.
  destruct (find_range write_ranges a) as [x|] eqn:Ex, (find_range write_ranges b) as [y|] eqn:Ey.
  - intros [= <- <- _] [= <- <- _] Ec. apply find_range_elem in Ex as [Hx Hxa], Ey as [Hy Hyb].
    destruct (cell_in_range x a Hx Hxa) as (_ & Bx & Dx).
    destruct (cell_in_range y b Hy Hyb) as (_ & By & Dy). rewrite Ec in Bx, Dx.
    pose proof (range_overlap x y Hx Hy) as Hp. unfold no_overlap in Hp.
    rewrite !orb_true_iff, bool_decide_eq_true, !Z.ltb_lt in Hp.
    destruct Hp as [[(E1 & E2 & E3 & E4)|Hp]|Hp]; [|lia|lia]. split; [done|].
    unfold range_index. rewrite Dx, Dy, E2, E3, E4. done.
  - intros _ _ Ec. apply find_range_elem in Ex as [Hx Hxa].
    destruct (cell_in_range x a Hx Hxa) as (Hin & _). rewrite Ec in Hin.
    by destruct (in_range_found x write_ranges b Hx Hin).
  - intros _ _ Ec. apply find_range_elem in Ey as [Hy Hyb].
    destruct (cell_in_range y b Hy Hyb) as (Hin & _). rewrite <- Ec in Hin.
    by destruct (in_range_found y write_ranges a Hy Hin).
  - intros Ea Eb ->. rewrite Ea in Eb. by simplify_eq.
Qed.

(** Which writes reset the device. *)
Definition is_reset (addr val : Z) : bool := (addr =? I40E_PFGEN_CTRL) && (Z.land val 1 =? 1).

Lemma write_reset r addr val r' e :
  reg_mem_write32 r addr val = Some (r', e) → e = DoReset ↔ is_reset addr val = true.
Proof.
  unfold reg_mem_write32, is_reset. destruct (find_range write_ranges addr) as [x|] eqn:Ex.
  - destruct (store _ _ _ _); [|done]. cbn. intros [= <- <-].
    apply find_range_elem in Ex as [Hx Hin]. split.
    + assert (Forall (λ y, ∀ i, r_eff y i ≠ DoReset) write_ranges) as Hall by (by repeat constructor).
      rewrite Forall_forall in Hall. intros E. by apply Hall in E.
    + intros [->%Z.eqb_eq _]%andb_true_iff. exfalso.
      assert (existsb (λ y, in_range y I40E_PFGEN_CTRL) write_ranges = false) as Hno by (by vm_compute).
      assert (existsb (λ y, in_range y I40E_PFGEN_CTRL) write_ranges = true) as Hyes.
      { apply existsb_exists. exists x. split; [by apply list_elem_of_In|done]. }
      congruence.
  - destruct (assoc addr write_switch) as [c|] eqn:Ec.
    + assert (forallb (λ c : Z * wcase, match c with
        | (k, Reset) => k =? I40E_PFGEN_CTRL
        | (k, Set_ _ _ DoReset) | (k, SetLow _ _ DoReset) | (k, SetHigh _ DoReset) => false
        | (k, _) => negb (k =? I40E_PFGEN_CTRL) end) write_switch = true) as Hall by (by vm_compute).
      apply assoc_elem, (forallb_elem _ _ _ Hall) in Ec. clear Hall.
      destruct c; cbn [write_case] in *; try (apply negb_true_iff in Ec; rewrite Ec; cbn [andb]);
        try (by intros [= <- <-]).
      * rewrite Ec. intros [= <- <-]. cbn [andb]. by destruct (_ =? 1).
      * destruct (store _ _ _ _); [|done]. cbn. intros [= <- <-].
        destruct e0; try done; by apply negb_true_iff in Ec; rewrite Ec.
      * intros [= <- <-]. destruct e0; try done; by apply negb_true_iff in Ec; rewrite Ec.
      * intros [= <- <-]. destruct e0; try done; by apply negb_true_iff in Ec; rewrite Ec.
    + intros [= <- <-]. split; [done|]. intros [->%Z.eqb_eq _]%andb_true_iff. by vm_compute in Ec.
Qed.

End regs.
