(* ===== verification/I40eDev.v ===== *)
(** * The i40e device

    Translation of [i40e_bm] in sims/nic/i40e_bm/i40e_bm.{h,cc} and of [lan] in i40e_lan.cc:
    register accesses, packets, DMA completions, interrupts and reset, composed of the models
    of the register file, the admin queue, the receive and transmit queues, the host memory
    cache, the hash and the clock.

    The queues of the code hold references to device registers and to the device.  Here each
    queue carries copies: [attach] loads them before a method of the queue runs, [detach] stores
    them back after it. *)

From S2P Require Import Prelude I40ePtp I40eRss I40eXsum I40eHmc I40eQueue I40eQueueInv I40eQueueRun.
From S2P Require Import I40eLan I40eRx I40eTx I40eAdminq I40eRegs.

Module i40e_dev.
Import queue queue_run.

#[local] Existing Instances rx.rx_lan_queue rx.rx_class rx.rx_laws.
#[local] Existing Instances tx.tx_lan_queue tx.tx_class tx.tx_laws.
#[local] Existing Instances adminq.admin_class adminq.admin_laws.

(** ** State *)

(** A read of a queue context in flight: receive or transmit, the queue, address and length. *)
Record ctx_fetch := MkFetch { cf_rx : bool; cf_idx : nat; cf_addr : Z; cf_len : Z }.

(** [out] is what the runner was called with, in order. *)
Record i40e_bm := MkBm {
  bm_regs : regs.i40e_regs;
  pf_atq : qstate adminq.queue_admin_tx;
  segs : list hmc.segment;
  rss_kc : rss.rss_key_cache;
  rxqs : list (qstate rx.lan_queue_rx);
  txqs : list (qstate tx.lan_queue_tx);
  clock : ptp.ptpmgr;
  intevs : list lan.int_ev;
  msix_en : bool;
  fetches : list ctx_fetch;
  out : list lan.runner_call
}.

Implicit Types (b : i40e_bm) (now : Z).

Definition set_regs b (r : regs.i40e_regs) : i40e_bm :=
  MkBm r (pf_atq b) (segs b) (rss_kc b) (rxqs b) (txqs b) (clock b) (intevs b) (msix_en b)
       (fetches b) (out b).
Definition set_atq b (q : qstate adminq.queue_admin_tx) : i40e_bm :=
  MkBm (bm_regs b) q (segs b) (rss_kc b) (rxqs b) (txqs b) (clock b) (intevs b) (msix_en b)
       (fetches b) (out b).
Definition set_segs b (s : list hmc.segment) : i40e_bm :=
  MkBm (bm_regs b) (pf_atq b) s (rss_kc b) (rxqs b) (txqs b) (clock b) (intevs b) (msix_en b)
       (fetches b) (out b).
Definition set_kc b (k : rss.rss_key_cache) : i40e_bm :=
  MkBm (bm_regs b) (pf_atq b) (segs b) k (rxqs b) (txqs b) (clock b) (intevs b) (msix_en b)
       (fetches b) (out b).
Definition set_rxqs b (l : list (qstate rx.lan_queue_rx)) : i40e_bm :=
  MkBm (bm_regs b) (pf_atq b) (segs b) (rss_kc b) l (txqs b) (clock b) (intevs b) (msix_en b)
       (fetches b) (out b).
Definition set_txqs b (l : list (qstate tx.lan_queue_tx)) : i40e_bm :=
  MkBm (bm_regs b) (pf_atq b) (segs b) (rss_kc b) (rxqs b) l (clock b) (intevs b) (msix_en b)
       (fetches b) (out b).
Definition set_clock b (p : ptp.ptpmgr) : i40e_bm :=
  MkBm (bm_regs b) (pf_atq b) (segs b) (rss_kc b) (rxqs b) (txqs b) p (intevs b) (msix_en b)
       (fetches b) (out b).
Definition set_fetches b (l : list ctx_fetch) : i40e_bm :=
  MkBm (bm_regs b) (pf_atq b) (segs b) (rss_kc b) (rxqs b) (txqs b) (clock b) (intevs b)
       (msix_en b) l (out b).
Definition set_runner b (p : ptp.ptpmgr) (l : list lan.int_ev) (o : list lan.runner_call) : i40e_bm :=
  MkBm (bm_regs b) (pf_atq b) (segs b) (rss_kc b) (rxqs b) (txqs b) p l (msix_en b)
       (fetches b) o.

(** ** References *)

(** [n] elements of a register array. *)
Definition array (r : regs.i40e_regs) (f : regs.reg) (from n : nat) : list Z := r f <$> seq from n.

(** The device as the LAN queues see it. *)
Definition lan_view b now : lan.lan_dev :=
  let r := bm_regs b in
  lan.MkDev (r regs.pfint_icr0 0%nat) (r regs.pfint_icr0_ena 0%nat) (r regs.pfint_dyn_ctl0 0%nat)
    (array r regs.pfint_itr0 0 3)
    ((λ i, array r regs.pfint_itrn (i * regs.NUM_PFINTS) regs.NUM_PFINTS) <$> seq 0 3)
    (r regs.prtsyn_ctl_0 0%nat) (r regs.prtsyn_ctl_1 0%nat) (r regs.prtsyn_stat_0 0%nat)
    (r regs.prtsyn_stat_1 0%nat)
    ((λ x, negb (x =? 0)) <$> array r regs.prtsyn_rxtime_lock 0 4)
    (array r regs.prtsyn_rxtime 0 4) (r regs.prtsyn_txtime 0%nat)
    (clock b) (intevs b) (msix_en b) now (out b).

(** A whole array stored. *)
Fixpoint upd_array (r : regs.i40e_regs) (f : regs.reg) (i : nat) (l : list Z) : regs.i40e_regs :=
  match l with [] => r | v :: l => upd_array (regs.upd r f i v) f (S i) l end.

(** What the LAN queues change in the device. *)
Definition store_lan b (d : lan.lan_dev) : i40e_bm :=
  let r := bm_regs b in
  let r := regs.upd r regs.pfint_icr0 0 (lan.pfint_icr0 d) in
  let r := regs.upd r regs.prtsyn_stat_0 0 (lan.prtsyn_stat_0 d) in
  let r := regs.upd r regs.prtsyn_stat_1 0 (lan.prtsyn_stat_1 d) in
  let r := upd_array r regs.prtsyn_rxtime_lock 0 ((λ x : bool, if x then 1 else 0) <$> lan.prtsyn_rxtime_lock d) in
  let r := upd_array r regs.prtsyn_rxtime 0 (lan.prtsyn_rxtime d) in
  let r := regs.upd r regs.prtsyn_txtime 0 (lan.prtsyn_txtime d) in
  set_runner (set_regs b r) (lan.ptp d) (lan.intevs d) (lan.calls d).

Definition tail_reg (rx : bool) : regs.reg := if rx then regs.qrx_tail else regs.qtx_tail.
Definition ena_reg (rx : bool) : regs.reg := if rx then regs.qrx_ena else regs.qtx_ena.
Definition intqctl_reg (rx : bool) : regs.reg := if rx then regs.qint_rqctl else regs.qint_tqctl.
Definition fpmbase_reg (rx : bool) : regs.reg := if rx then regs.glhmc_lanrxbase else regs.glhmc_lantxbase.

Section lan_queues.
Context {S : Type} `{!lan.LanQueue S}.

(** The references of queue [i], as the constructor of [lan] sets them. *)
Definition attach b now (rx : bool) (i : nat) (s : qstate S) : qstate S :=
  let l := lan.lan_of (sub s) in
  let r := bm_regs b in
  lan.update_lan (with_que s (set_tail (que s) (r (tail_reg rx) i)))
    (lan.MkLanQ (lan_view b now) (lan.enabling l) (lan.idx l) (r (ena_reg rx) i)
       (r (fpmbase_reg rx) 0%nat) (r (intqctl_reg rx) i) (lan.ctx_size l)).

Definition detach b (rx : bool) (i : nat) (s : qstate S) : i40e_bm :=
  let l := lan.lan_of (sub s) in
  let b := store_lan b (lan.dev l) in
  set_regs b (regs.upd (bm_regs b) (ena_reg rx) i (lan.reg_ena l)).

End lan_queues.

(** A method of a receive, transmit or admin queue. *)
Definition on_rx b now (i : nat) (f : qstate rx.lan_queue_rx → result (qstate rx.lan_queue_rx)) :
    result i40e_bm :=
  s ← or_fault (rxqs b !! i) Engine;
  s ← f (attach b now true i s);
  inr (set_rxqs (detach b true i s) (<[i := s]> (rxqs b))).

Definition on_tx b now (i : nat) (f : qstate tx.lan_queue_tx → result (qstate tx.lan_queue_tx)) :
    result i40e_bm :=
  s ← or_fault (txqs b !! i) Engine;
  s ← f (attach b now false i s);
  inr (set_txqs (detach b false i s) (<[i := s]> (txqs b))).

Definition on_atq b (f : qstate adminq.queue_admin_tx → result (qstate adminq.queue_admin_tx)) :
    result i40e_bm :=
  let r := bm_regs b in
  let s := pf_atq b in
  let q := que s in
  let a := sub s in
  let s := MkQs (set_tail (set_active q (active_first_pos q) (active_first_idx q) (active_cnt q)
                             (r regs.pf_atqh 0%nat)) (r regs.pf_atqt 0%nat))
             (adminq.MkAdmin (r regs.gllan_rctl_0 0%nat) (adminq.mac_addr a) (adminq.stale a))
             (issued s) (log s) in
  s ← f s;
  let r := regs.upd r regs.pf_atqh 0 (reg_head (que s)) in
  let r := regs.upd r regs.gllan_rctl_0 0 (adminq.gllan_rctl_0 (sub s)) in
  inr (set_atq (set_regs b r) s).

(** ** Register effects *)

(** [host_mem_cache::issue_mem_op] for a queue context. *)
Definition issue_fetch b (rx : bool) (i : nat) (op : option (Z * Z)) : result i40e_bm :=
  match op with
  | None => inr b
  | Some (a, n) =>
      match hmc.issue_mem_op (segs b) a n with
      | hmc.MemIssued dma_addr => inr (set_fetches b (fetches b ++ [MkFetch rx i dma_addr n]))
      | hmc.MemFailed => inr b
      | hmc.MemAbort => inl Derived
      end
  end.

(** [lan::qena_updated] *)
Definition lan_qena_updated b now (i : nat) (rx : bool) : result i40e_bm :=
  if rx then
    s ← or_fault (rxqs b !! i) Engine;
    let '(s, op) := lan.qena_updated (attach b now true i s) (bm_regs b regs.qrx_ena i) in
    issue_fetch (set_rxqs (detach b true i s) (<[i := s]> (rxqs b))) true i op
  else
    s ← or_fault (txqs b !! i) Engine;
    let '(s, op) := lan.qena_updated (attach b now false i s) (bm_regs b regs.qtx_ena i) in
    issue_fetch (set_txqs (detach b false i s) (<[i := s]> (txqs b))) false i op.

(** [lan::tail_updated] *)
Definition lan_tail_updated b now (i : nat) (rx : bool) : result i40e_bm :=
  if rx then on_rx b now i (λ s, lan.tail_updated s (bm_regs b regs.qrx_tail i))
  else on_tx b now i (λ s, lan.tail_updated s (bm_regs b regs.qtx_tail i)).

(** [host_mem_cache::reg_updated] *)
Definition hmc_updated b (addr : Z) : result i40e_bm :=
  let r := bm_regs b in
  '(sg, h) ← or_fault (hmc.reg_updated (segs b)
    (hmc.MkRegs (r regs.pfhmc_sdcmd 0%nat) (r regs.pfhmc_sddatalow 0%nat) (r regs.pfhmc_sddatahigh 0%nat))
    addr) Engine;
  let r := regs.upd r regs.pfhmc_sddatalow 0 (hmc.pfhmc_sddatalow h) in
  let r := regs.upd r regs.pfhmc_sddatahigh 0 (hmc.pfhmc_sddatahigh h) in
  inr (set_segs (set_regs b r) sg).

(** The loop over [intevs] in [reset]. *)
Definition cancel_all (l : list lan.int_ev) : list lan.runner_call :=
  imap (λ i e, if lan.armed e then [lan.EventCancel (Z.of_nat i)] else []) l ≫= id.

(** [i40e_bm::reset] *)
Definition reset b (indicate_done : bool) : i40e_bm :=
  let s := pf_atq b in
  MkBm (regs.reset_regs indicate_done)
    (MkQs (queue.reset (que s)) (sub s) (issued s) (log s))
    hmc.reset (rss.set_dirty (rss_kc b))
    (rx.rx_reset <$> rxqs b) (tx.tx_reset <$> txqs b)
    (clock b) ((λ _, lan.MkIntEv false 0) <$> intevs b) (msix_en b) (fetches b)
    (out b ++ cancel_all (intevs b)).

Definition do_effect b now (e : regs.effect) : result i40e_bm :=
  match e with
  | regs.Nop => inr b
  | regs.QenaUpdated i rx => lan_qena_updated b now i rx
  | regs.TailUpdated i rx => lan_tail_updated b now i rx
  | regs.RssKeyUpdated => inr (set_kc b (rss.set_dirty (rss_kc b)))
  | regs.DoReset => inr (reset b true)
  | regs.HmcUpdated addr => hmc_updated b addr
  | regs.AtqUpdated =>
      on_atq b (λ s, adminq.admin_reg_updated s (bm_regs b regs.pf_atqba 0%nat)
        (bm_regs b regs.pf_atqlen 0%nat) (reg_head (que s)) (reg_tail (que s)))
  | regs.AdjSet val => inr (set_clock b (ptp.adj_set (clock b) now val))
  | regs.IncSet val => inr (set_clock b (ptp.inc_set (clock b) now val))
  | regs.PhcWrite val => inr (set_clock b (ptp.phc_write (clock b) now val))
  end.

(** ** Register accesses *)

Definition BAR_REGS : Z := 0.
Definition BAR_IO : Z := 2.

Definition reg_mem_write32 b now (addr val : Z) : result i40e_bm :=
  '(r, e) ← or_fault (regs.reg_mem_write32 (bm_regs b) addr val) Engine;
  do_effect (set_regs b r) now e.

Definition reg_mem_read32 b now (addr : Z) : result (Z * i40e_bm) :=
  '(v, r, p) ← or_fault (regs.reg_mem_read32 (bm_regs b) (clock b) now addr) Engine;
  inr (v, set_clock (set_regs b r) p).

(** The I/O BAR reads 0 and ignores writes; other BARs abort. *)
Definition RegWrite32 b now (bar addr val : Z) : result i40e_bm :=
  if bar =? BAR_REGS then reg_mem_write32 b now addr val
  else if bar =? BAR_IO then inr b
  else inl Derived.

Definition RegRead32 b now (bar addr : Z) : result (Z * i40e_bm) :=
  if bar =? BAR_REGS then reg_mem_read32 b now addr
  else if bar =? BAR_IO then inr (0, b)
  else inl Derived.

(** Accesses of 4 or 8 bytes. *)
Definition RegWrite b now (bar addr : Z) (src : bytes) : result i40e_bm :=
  if (length src =? 4)%nat then RegWrite32 b now bar addr (field src 0 4)
  else if (length src =? 8)%nat then
    b ← RegWrite32 b now bar addr (field src 0 4);
    RegWrite32 b now bar (addr + 4) (field src 4 4)
  else inl Derived.

Definition RegRead b now (bar addr len : Z) : result (bytes * i40e_bm) :=
  if len =? 4 then '(v, b) ← RegRead32 b now bar addr; inr (le 4 v, b)
  else if len =? 8 then
    '(v, b) ← RegRead32 b now bar addr;
    '(w, b) ← RegRead32 b now bar (addr + 4);
    inr (le 4 v ++ le 4 w, b)
  else inl Derived.

(** ** Packets, completions and timers *)

(** [lan::packet_received] *)
Definition steered b (pkt : bytes) : option (Z * Z * rss.rss_key_cache) :=
  let r := bm_regs b in
  lan.steer (array r regs.pfqf_hkey 0 13) (array r regs.pfqf_hlut 0 128)
    (r regs.pfqf_ctl_0 0%nat) (rss_kc b) pkt.

Definition EthRx b now (pkt : bytes) : result i40e_bm :=
  '(q, _, kc) ← or_fault (steered b pkt) Derived;
  on_rx (set_kc b kc) now (Z.to_nat q) (λ s, rx.packet_received s pkt).

Definition Timed b now (vec : Z) : result i40e_bm :=
  d ← or_fault (lan.Timed (lan_view b now) vec) Derived;
  inr (store_lan b d).

(** Which queue an operation belongs to. *)
Inductive owner := Admin | Rx (i : nat) | Tx (i : nat).

(** [DmaComplete] for operation [j] of those a queue has in flight. *)
Definition DmaComplete b now (o : owner) (j : nat) (payload : bytes) : result i40e_bm :=
  match o with
  | Admin => on_atq b (λ s, step s (EvDone j payload))
  | Rx i => on_rx b now i (λ s, step s (EvDone j payload))
  | Tx i => on_tx b now i (λ s, step s (EvDone j payload))
  end.

(** [DmaComplete] for a queue context. *)
Definition ctx_done b now (j : nat) (ctx : bytes) : result i40e_bm :=
  match fetches b !! j with
  | None => inr b
  | Some f =>
      let b := set_fetches b (delete j (fetches b)) in
      if cf_rx f then on_rx b now (cf_idx f) (λ s, lan.ctx_fetched s ctx)
      else on_tx b now (cf_idx f) (λ s, lan.ctx_fetched s ctx)
  end.

(** ** Runs *)

Inductive dev_event :=
| DevWrite (addr val : Z)
| DevRead (addr : Z)
| DevEth (pkt : bytes)
| DevDma (o : owner) (j : nat) (payload : bytes)
| DevCtx (j : nat) (ctx : bytes)
| DevTimed (vec : Z).

Definition dev_step b now (e : dev_event) : result i40e_bm :=
  match e with
  | DevWrite addr val => reg_mem_write32 b now addr val
  | DevRead addr => '(_, b) ← reg_mem_read32 b now addr; inr b
  | DevEth pkt => EthRx b now pkt
  | DevDma o j payload => DmaComplete b now o j payload
  | DevCtx j ctx => ctx_done b now j ctx
  | DevTimed vec => Timed b now vec
  end.

Fixpoint dev_run b (es : list (Z * dev_event)) : result i40e_bm :=
  match es with
  | [] => inr b
  | (now, e) :: es => b ← dev_step b now e; dev_run b es
  end.

End i40e_dev.
