(* ===== verification/I40eDevInv.v ===== *)
(** * Guarantees of the i40e device

    The configuration registers of the whole device are memory: whatever packets arrive, DMA
    operations complete, timers fire and other registers are written, a register reads what was
    last written to it.  And what I40eRxMem.v shows of one receive queue holds of every receive
    queue of the device. *)

From S2P Require Import Prelude I40ePtp I40eRss I40eXsum I40eHmc I40eQueue I40eQueueInv I40eQueueRun.
From S2P Require Import I40eLan I40eRx I40eRxMem I40eTx I40eAdminq I40eRegs I40eDev.

Module i40e_dev_inv.
Import queue queue_inv queue_run i40e_dev.

#[local] Existing Instances rx.rx_lan_queue rx.rx_class rx.rx_laws.
#[local] Existing Instances tx.tx_lan_queue tx.tx_class tx.tx_laws.
#[local] Existing Instances adminq.admin_class adminq.admin_laws regs.reg_eq_decision.

Implicit Types (b : i40e_bm) (now : Z) (f g : regs.reg).

(** ** Registers that only stores change *)

(** Registers the device changes by itself, or in which a write is not stored as it is. *)
Definition volatile f : bool :=
  match f with
  | regs.pfint_icr0 | regs.gllan_rctl_0 | regs.glnvm_srctl | regs.glnvm_srdata | regs.qtx_ena
  | regs.qrx_ena | regs.pfhmc_sddatalow | regs.pfhmc_sddatahigh | regs.pf_atqba | regs.pf_atqh
  | regs.pf_arqba | regs.prtsyn_stat_0 | regs.prtsyn_stat_1 | regs.prtsyn_inc
  | regs.prtsyn_inc_l | regs.prtsyn_inc_h | regs.prtsyn_time_l | regs.prtsyn_time_h
  | regs.prtsyn_rxtime_lock | regs.prtsyn_rxtime | regs.prtsyn_rxtime_h | regs.prtsyn_txtime
  | regs.prtsyn_txtime_h => true
  | _ => false
  end.

Lemma upd_volatile r f i v g j :
  volatile f = true → volatile g = false → regs.upd r f i v g j = r g j.
Proof. intros Hf Hg. apply regs.upd_other. intros [= -> _]. congruence. Qed.

Lemma upd_array_volatile f g j l : ∀ r i,
  volatile f = true → volatile g = false → upd_array r f i l g j = r g j.
Proof.
  induction l as [|v l IH]; intros r i Hf Hg; [done|]. cbn. by rewrite IH, upd_volatile.
Qed.

(** [keeps b b']: the stable registers of [b'] are those of [b]. *)
Definition keeps b b' : Prop :=
  ∀ f i, volatile f = false → bm_regs b' f i = bm_regs b f i.

Lemma keeps_trans b1 b2 b3 : keeps b1 b2 → keeps b2 b3 → keeps b1 b3.
Proof. intros H1 H2 f i Hf. by rewrite H2, H1. Qed.

Lemma store_lan_keeps b d : keeps b (store_lan b d).
Proof.
  intros f i Hf. unfold store_lan. cbn [bm_regs set_runner set_regs].
  by rewrite !upd_volatile, !upd_array_volatile, !upd_volatile by done.
Qed.

Lemma detach_keeps {S} `{!lan.LanQueue S} b rx i (s : qstate S) : keeps b (detach b rx i s).
Proof.
  eapply keeps_trans; [apply store_lan_keeps|]. intros f j Hf. unfold detach.
  cbn [bm_regs set_regs]. by rewrite upd_volatile by (by destruct rx).
Qed.

Lemma on_rx_keeps b now i h b' : on_rx b now i h = inr b' → keeps b b'.
Proof.
  unfold on_rx. destruct (rxqs b !! i); [|done]. cbn. destruct (h _); [done|]. cbn.
  intros [= <-]. apply detach_keeps.
Qed.

Lemma on_tx_keeps b now i h b' : on_tx b now i h = inr b' → keeps b b'.
Proof.
  unfold on_tx. destruct (txqs b !! i); [|done]. cbn. destruct (h _); [done|]. cbn.
  intros [= <-]. apply detach_keeps.
Qed.

Lemma on_atq_keeps b h b' : on_atq b h = inr b' → keeps b b'.
Proof.
  unfold on_atq. destruct (h _); [done|]. cbn. intros [= <-] f i Hf. cbn. by rewrite !upd_volatile.
Qed.

Lemma issue_fetch_regs b rx i op b' : issue_fetch b rx i op = inr b' → bm_regs b' = bm_regs b.
Proof.
  unfold issue_fetch. destruct op as [[a n]|]; [|by intros [= <-]].
  destruct (hmc.issue_mem_op _ _ _); by intros [= <-].
Qed.

Lemma qena_keeps b now i rx b' : lan_qena_updated b now i rx = inr b' → keeps b b'.
Proof.
  unfold lan_qena_updated. destruct rx.
  - destruct (rxqs b !! i); [|done]. cbn. destruct (lan.qena_updated _ _) as [s op].
    intros E%issue_fetch_regs f j Hf. rewrite E. by apply detach_keeps.
  - destruct (txqs b !! i); [|done]. cbn. destruct (lan.qena_updated _ _) as [s op].
    intros E%issue_fetch_regs f j Hf. rewrite E. by apply detach_keeps.
Qed.

Lemma do_effect_keeps b now e b' : do_effect b now e = inr b' → e ≠ regs.DoReset → keeps b b'.
Proof.
  intros E He. destruct e as [|i rx|i rx| | |addr| | | |]; cbn [do_effect] in E; try by simplify_eq.
  - by eapply qena_keeps.
  - unfold lan_tail_updated in E. destruct rx; [by eapply on_rx_keeps|by eapply on_tx_keeps].
  - unfold hmc_updated in E. destruct (hmc.reg_updated _ _ _) as [[sg h]|]; [|done].
    cbn in E. simplify_eq. intros f i Hf. cbn. by rewrite !upd_volatile.
  - by eapply on_atq_keeps.
Qed.

(** ** Writes *)

(** The value a write stores into element [i] of [f], if that is its target. *)
Definition stores_to (addr : Z) f (i : nat) : bool :=
  match regs.write_target addr with
  | Some (g, j, _) => bool_decide (g = f ∧ j = i)
  | None => false
  end.

Lemma shadow_updated_keeps r f i : volatile f = false → regs.shadow_updated r f i = r f i.
Proof.
  intros Hf. unfold regs.shadow_updated. case_match; [done|]. rewrite upd_volatile by done.
  case_match; [done|]. by rewrite upd_volatile.
Qed.

Lemma store_Some r f i v r' : regs.store r f i v = Some r' → r' = regs.upd r f i v.
Proof. unfold regs.store. case_match; naive_solver. Qed.

Lemma upd_lookup r f i v g j :
  regs.upd r f i v g j = if bool_decide (f = g ∧ i = j) then v else r g j.
Proof.
  case_bool_decide as E; [destruct E as [-> ->]; apply regs.upd_same|].
  apply regs.upd_other. intros [= -> ->]. naive_solver.
Qed.

Definition special (c : Z * regs.wcase) : bool :=
  match c.2 with
  | regs.Shadow f | regs.SetHigh f _ => volatile f
  | regs.SetLow f _ _ => volatile f
  | _ => true
  end.

Lemma specials_volatile : forallb special regs.write_switch = true.
Proof. by vm_compute. Qed.

Lemma write_lookup r addr val r' e f i :
  regs.reg_mem_write32 r addr val = Some (r', e) → volatile f = false →
  r' f i = if stores_to addr f i then val else r f i.
Proof.
  intros E Hf. unfold regs.reg_mem_write32 in E. unfold stores_to, regs.write_target.
  destruct (regs.find_range _ _) as [x|].
  - destruct (regs.store _ _ _ _) as [r1|] eqn:Es; [|done]. cbn in E. simplify_eq.
    apply store_Some in Es as ->. apply upd_lookup.
  - destruct (regs.assoc _ _) as [c|] eqn:Ec; [|by simplify_eq].
    apply regs.assoc_elem in Ec. pose proof (regs.forallb_elem _ _ _ specials_volatile Ec) as Hs.
    clear Ec. destruct c; cbn [regs.write_case special snd] in E, Hs; simplify_eq; try done.
    + destruct (_ =? _); [done|]. by rewrite upd_volatile.
    + by rewrite shadow_updated_keeps, upd_volatile.
    + destruct (regs.store _ _ _ _) as [r1|] eqn:Es; [|done]. cbn in E. simplify_eq.
      apply store_Some in Es as ->. apply upd_lookup.
    + by rewrite upd_volatile.
    + by rewrite upd_volatile.
    + by rewrite upd_volatile.
Qed.

Lemma read_keeps r p now addr v r' p' :
  regs.reg_mem_read32 r p now addr = Some (v, r', p') → ∀ f i, volatile f = false → r' f i = r f i.
Proof.
  intros E f i Hf. unfold regs.reg_mem_read32 in E.
  destruct (regs.find_range _ _) as [x|].
  - destruct (regs.load _ _ _); [|done]. cbn in E. by simplify_eq.
  - destruct (regs.assoc _ _) as [c|] eqn:Ec; [|by simplify_eq].
    apply regs.assoc_elem in Ec.
    assert (forallb (λ c : Z * regs.rcase, match c.2 with
      | regs.Clear f => volatile f | regs.Latch _ h _ => volatile h | _ => true end)
      regs.read_switch = true) as Hall by (by vm_compute).
    apply (regs.forallb_elem _ _ _ Hall) in Ec as Hs. clear Hall Ec.
    destruct c; cbn [regs.read_case snd] in E, Hs; simplify_eq; try done.
    + destruct (regs.load _ _ _); [|done]. cbn in E. by simplify_eq.
    + by rewrite upd_volatile.
    + destruct (regs.load _ _ _); [|done]. cbn in E.
      destruct (regs.store _ _ _ _) as [r1|] eqn:Es; [|done]. cbn in E. simplify_eq.
      apply store_Some in Es as ->. by rewrite upd_volatile.
    + destruct (ptp.adj_get _ _). by simplify_eq.
    + destruct (ptp.phc_read _ _). simplify_eq. by rewrite upd_volatile.
    + destruct (regs.load _ _ _); [|done]. cbn in E.
      destruct (regs.store _ _ _ _) as [r1|] eqn:Es; [|done]. cbn in E. simplify_eq.
      apply store_Some in Es as ->. by rewrite !upd_volatile.
Qed.

(** ** The register file *)

(** The register at [a], element [i] of [f], as a memory cell: a write to one of its addresses
    sets it, a reset gives it its initial value, and nothing else changes it. *)
Definition reg_spec (a : Z) f (i : nat) (cur : Z) (x : Z * dev_event) : Z :=
  match x.2 with
  | DevWrite addr val =>
      if regs.is_reset addr val then regs.reset_regs true f i
      else if bool_decide (is_Some (regs.write_target addr)) && (regs.cell addr =? regs.cell a)
      then val else cur
  | _ => cur
  end.

Lemma stores_to_cell a addr f i e :
  regs.write_target a = Some (f, i, e) →
  stores_to addr f i =
  bool_decide (is_Some (regs.write_target addr)) && (regs.cell addr =? regs.cell a).
Proof.
  intros Ha. unfold stores_to. destruct (regs.write_target addr) as [[[g j] e']|] eqn:E; [|done].
  rewrite (bool_decide_true (is_Some _)) by done. cbn [andb].
  apply eq_true_iff_eq. rewrite bool_decide_eq_true, Z.eqb_eq. split.
  - intros [-> ->]. by eapply regs.write_target_inj.
  - intros Hc. by eapply regs.write_target_cell.
Qed.

Lemma dev_step_reg a f i e b now ev b' :
  regs.write_target a = Some (f, i, e) → volatile f = false → dev_step b now ev = inr b' →
  bm_regs b' f i = reg_spec a f i (bm_regs b f i) (now, ev).
Proof.
  intros Ha Hf E. destruct ev as [addr val|addr|pkt|o j payload|j ctx|vec]; cbn [dev_step] in E;
    cbn [reg_spec snd].
  - unfold reg_mem_write32 in E.
    destruct (regs.reg_mem_write32 _ _ _) as [[r e']|] eqn:Ew; [|done]. cbn in E.
    rewrite <- (stores_to_cell a addr f i e Ha). pose proof (regs.write_reset _ _ _ _ _ Ew) as Hr.
    destruct (regs.is_reset addr val).
    + destruct Hr as [_ Hr]. rewrite (Hr eq_refl) in E. cbn in E. by simplify_eq.
    + rewrite <- (write_lookup _ _ _ _ _ _ i Ew Hf).
      eapply do_effect_keeps in E; [|by intros ->; destruct Hr as [Hr _]; discriminate (Hr eq_refl)].
      by rewrite E.
  - unfold reg_mem_read32 in E.
    destruct (regs.reg_mem_read32 _ _ _ _) as [[[v r] p]|] eqn:Er; [|done]. cbn in E. simplify_eq.
    cbn. by eapply read_keeps.
  - unfold EthRx in E. destruct (steered b pkt) as [[[q ?] kc]|]; [|done]. cbn in E.
    by apply on_rx_keeps in E as ->.
  - destruct o; cbn [DmaComplete] in E;
      [apply on_atq_keeps in E|apply on_rx_keeps in E|apply on_tx_keeps in E]; by rewrite E.
  - unfold ctx_done in E. destruct (fetches b !! j); [|by simplify_eq].
    destruct (cf_rx _); [apply on_rx_keeps in E|apply on_tx_keeps in E]; by rewrite E.
  - unfold Timed in E. destruct (lan.Timed _ _); [|done]. cbn in E. simplify_eq.
    by rewrite store_lan_keeps.
Qed.

Lemma dev_run_reg a f i e es : ∀ b b',
  regs.write_target a = Some (f, i, e) → volatile f = false → dev_run b es = inr b' →
  bm_regs b' f i = foldl (reg_spec a f i) (bm_regs b f i) es.
Proof.
  induction es as [|[now ev] es IH]; intros b b' Ha Hf E; cbn [dev_run] in E; [by simplify_eq|].
  destruct (dev_step b now ev) as [|b1] eqn:E1; [done|]. cbn [foldl].
  rewrite <- (dev_step_reg a f i e b now ev b1 Ha Hf E1). by apply IH.
Qed.

(** C13: The configuration registers of the device are memory.  After any sequence of register
    reads and writes, packets, DMA completions and timers, an aligned read of a register that
    the device does not change by itself returns the value last written to an address of that
    register, or its initial value after a reset; no other write reaches it. *)
Theorem registers_are_memory b es b' a f i e now :
  a mod 4 = 0 → regs.write_target a = Some (f, i, e) → (i < regs.reg_size f)%nat →
  volatile f = false → dev_run b es = inr b' →
  ∃ b'', reg_mem_read32 b' now a = inr (u32 (foldl (reg_spec a f i) (bm_regs b f i) es), b'').
Proof.
  intros Ha Hw Hi Hf Hrun. rewrite <- (dev_run_reg a f i e es b b' Hw Hf Hrun).
  assert (regs.read_target a = Some (f, i)) as Hr.
  { eapply regs.targets_agree; [done..|]. by destruct f. }
  unfold reg_mem_read32, regs.reg_mem_read32. unfold regs.read_target in Hr.
  assert (regs.load (bm_regs b') f i = Some (bm_regs b' f i)) as Hl.
  { unfold regs.load. by rewrite (proj2 (Nat.ltb_lt _ _) Hi). }
  destruct (regs.find_range _ a) as [x|].
  - simplify_eq. rewrite Hl. cbn. by eexists.
  - destruct (regs.assoc a _) as [[]|]; simplify_eq. cbn [regs.read_case]. rewrite Hl. cbn. by eexists.
Qed.

(** ** Receive queues *)

(** What a register write makes the queues do is what its target says. *)
Definition effect_target (e : regs.effect) : option (regs.reg * nat) :=
  match e with
  | regs.QenaUpdated i rx => Some (ena_reg rx, i)
  | regs.TailUpdated i rx => Some (tail_reg rx, i)
  | _ => None
  end.

Definition effect_here f (i : nat) (e : regs.effect) : bool :=
  match effect_target e with
  | Some (g, j) => bool_decide (g = f ∧ j = i)
  | None => negb (bool_decide (f = regs.qrx_tail ∨ f = regs.qrx_ena))
  end.

Lemma ranges_effect : Forall (λ x, ∀ k, effect_here (regs.r_reg x) k (regs.r_eff x k) = true) regs.write_ranges.
Proof.
  repeat (constructor; [intros k; first [by vm_compute|unfold effect_here; cbn; by apply bool_decide_eq_true]|]).
  constructor.
Qed.

Lemma write_effect r addr val r' e :
  regs.reg_mem_write32 r addr val = Some (r', e) →
  match regs.write_target addr with
  | Some (f, i, _) => effect_here f i e = true
  | None => effect_target e = None
  end.
Proof.
  unfold regs.reg_mem_write32, regs.write_target.
  destruct (regs.find_range _ _) as [x|] eqn:Ex.
  - destruct (regs.store _ _ _ _); [|done]. cbn. intros [= <- <-].
    apply regs.find_range_elem in Ex as [Hx _].
    pose proof ranges_effect as Hall. rewrite Forall_forall in Hall. by apply Hall.
  - destruct (regs.assoc _ _) as [c|] eqn:Ec; [|by intros [= <- <-]].
    assert (forallb (λ c : Z * regs.wcase, match c.2 with
      | regs.Set_ f i e => effect_here f i e
      | regs.SetLow _ _ e | regs.SetHigh _ e => match effect_target e with None => true | _ => false end
      | _ => true end) regs.write_switch = true) as Hall by (by vm_compute).
    apply regs.assoc_elem, (regs.forallb_elem _ _ _ Hall) in Ec. clear Hall. cbn [snd] in Ec.
    destruct c; cbn [regs.write_case]; try (by intros [= <- <-]).
    + intros [= <- <-]. by destruct (_ =? _).
    + destruct (regs.store _ _ _ _); [|done]. cbn. by intros [= <- <-].
    + intros [= <- <-]. by destruct (effect_target _).
    + intros [= <- <-]. by destruct (effect_target _).
Qed.

(** Methods of other queues leave a receive queue alone. *)
Lemma detach_rxqs {S} `{!lan.LanQueue S} b rx i (s : qstate S) : rxqs (detach b rx i s) = rxqs b.
Proof. done. Qed.

Lemma on_rx_other b now i h b' j : on_rx b now i h = inr b' → j ≠ i → rxqs b' !! j = rxqs b !! j.
Proof.
  unfold on_rx. destruct (rxqs b !! i); [|done]. cbn. destruct (h _); [done|]. cbn.
  intros [= <-] Hne. cbn. by apply list_lookup_insert_ne.
Qed.

Lemma on_tx_rxqs b now i h b' : on_tx b now i h = inr b' → rxqs b' = rxqs b.
Proof.
  unfold on_tx. destruct (txqs b !! i); [|done]. cbn. destruct (h _); [done|]. cbn. by intros [= <-].
Qed.

Lemma on_atq_rxqs b h b' : on_atq b h = inr b' → rxqs b' = rxqs b.
Proof. unfold on_atq. destruct (h _); [done|]. cbn. by intros [= <-]. Qed.

Lemma issue_fetch_rxqs b rx i op b' : issue_fetch b rx i op = inr b' → rxqs b' = rxqs b.
Proof.
  unfold issue_fetch. destruct op as [[a n]|]; [|by intros [= <-]].
  destruct (hmc.issue_mem_op _ _ _); by intros [= <-].
Qed.

Lemma do_effect_other b now e b' i :
  do_effect b now e = inr b' → e ≠ regs.DoReset →
  (∀ rx j, e = regs.QenaUpdated j rx → rx = true → j ≠ i) →
  (∀ rx j, e = regs.TailUpdated j rx → rx = true → j ≠ i) → rxqs b' !! i = rxqs b !! i.
Proof.
  intros E He Hq Ht. destruct e as [|j rx|j rx| | |addr| | | |]; cbn [do_effect] in E; try by simplify_eq.
  - specialize (Hq rx j eq_refl). unfold lan_qena_updated in E. destruct rx.
    + destruct (rxqs b !! j); [|done]. cbn in E. destruct (lan.qena_updated _ _) as [s op].
      apply issue_fetch_rxqs in E. rewrite E. cbn. apply list_lookup_insert_ne. auto.
    + destruct (txqs b !! j); [|done]. cbn in E. destruct (lan.qena_updated _ _) as [s op].
      apply issue_fetch_rxqs in E. by rewrite E.
  - specialize (Ht rx j eq_refl). unfold lan_tail_updated in E. destruct rx.
    + eapply on_rx_other; [done|]. intros ->. by apply Ht.
    + by rewrite (on_tx_rxqs _ _ _ _ _ E).
  - unfold hmc_updated in E. destruct (hmc.reg_updated _ _ _) as [[sg h]|]; [|done].
    cbn in E. by simplify_eq.
  - by rewrite (on_atq_rxqs _ _ _ E).
Qed.

(** The invariant of a receive queue does not depend on its copies of device state. *)
Lemma ring_inv_copy {N : RingLen} T (s s' : qstate rx.lan_queue_rx) :
  que s' = que s → issued s' = issued s → log s' = log s → (rx.rx_ok s → rx.rx_ok s') →
  ring_inv T s → ring_inv T s'.
Proof.
  destruct s as [q d iss lg], s' as [q' d' iss' lg']. cbn. intros -> -> -> Hok.
  intros (h & w & k & I & Hs & Hset). exists h, w, k. split; [by eapply inv_same; [| |exact I]|].
  split; [by apply Hok|exact Hset].
Qed.

Section attach.
Context {N : RingLen} (ring : Z → bytes) (B dl : Z).
Context (Hdl : 16 ≤ dl) (HB : 0 ≤ B) (HBl : B + ring_len * dl ≤ 2 ^ 64) (Hring : ∀ n, Z.of_nat (length (ring n)) = dl).

(** The same for what the host sees of it. *)
Lemma mem_inv_copy db T ps tr (s s' : qstate rx.lan_queue_rx) :
  que s' = que s → issued s' = issued s → log s' = log s → (rx.rx_ok s → rx.rx_ok s') →
  rx.fills (sub s') = rx.fills (sub s) → rx.dbuff_size (sub s') = rx.dbuff_size (sub s) →
  rx_mem.mem_inv ring B dl db T ps tr s → rx_mem.mem_inv ring B dl db T ps tr s'.
Proof using All.
  intros Eq Ei El Hok Ef Ed [(Hr & Hdb & Hc) (h & w & k & I & C) Hd Hp]. split.
  - split; [by eapply ring_inv_copy; [..|exact Hr]|]. by rewrite Ef, Ed.
  - exists h, w, k. rewrite Ei. split; [by apply (inv_same _ _ _ s)|].
    by eapply (rx_mem.content_frame ring B dl Hdl HB HBl Hring _ _ _ _ s); try done; rewrite Eq.
  - by rewrite Ed.
  - by rewrite Ef.
Qed.

Lemma mem_inv_attach db T ps tr b now i s :
  rx_mem.mem_inv ring B dl db T ps tr s → bm_regs b regs.qrx_tail i = reg_tail (que s) →
  rx_mem.mem_inv ring B dl db T ps tr (attach b now true i s).
Proof using All.
  intros M Ht. eapply mem_inv_copy; [..|exact M]; try done.
  cbn [attach lan.update_lan que with_que tail_reg]. rewrite Ht. by destruct (que s).
Qed.

End attach.

(** What the driver and the host do with queue [i]: the tail is moved within the ring, over free
    entries; reads return what was asked for, those of the ring what was posted, [ring n] being
    the [n]-th of [T] descriptors; the queue is not enabled or disabled and the device not reset. *)
Definition queue_event (ring : Z → bytes) (T : Z) (i : nat) b (e : dev_event) : Prop :=
  match e with
  | DevWrite addr val =>
      regs.is_reset addr val = false ∧
      match regs.write_target addr with
      | Some (f, j, _) =>
          (f = regs.qrx_ena → j ≠ i) ∧
          (f = regs.qrx_tail → j = i → ∀ s, rxqs b !! i = Some s →
             0 ≤ val < len (que s) ∧
             valid_event s (EvPost ((val - reg_tail (que s)) mod len (que s))))
      | None => True
      end
  | DevEth pkt => pkt ≠ []
  | DevDma (Rx j) k payload =>
      j = i → ∀ s, rxqs b !! i = Some s → rx_mem.host_event ring T s (rx.RxDone k payload)
  | DevCtx k _ => ∀ c, fetches b !! k = Some c → cf_rx c = true → cf_idx c ≠ i
  | _ => True
  end.

(** The packets that are steered to queue [i] and find enough descriptors there. *)
Definition taken (i : nat) b (e : dev_event) : list bytes :=
  match e with
  | DevEth pkt =>
      match steered b pkt, rxqs b !! i with
      | Some (q, _, _), Some s =>
          if bool_decide (Z.to_nat q = i) && rx.accepts s pkt then [pkt] else []
      | _, _ => []
      end
  | _ => []
  end.

Fixpoint queue_taken (i : nat) b (es : list (Z * dev_event)) : list bytes :=
  match es with
  | [] => []
  | (now, e) :: es =>
      taken i b e ++ match dev_step b now e with inr b' => queue_taken i b' es | inl _ => [] end
  end.

(** The descriptors posted to queue [i]. *)
Definition posts (i : nat) b (e : dev_event) : Z :=
  match e with
  | DevWrite addr val =>
      match regs.write_target addr, rxqs b !! i with
      | Some (f, j, _), Some s =>
          if bool_decide (f = regs.qrx_tail ∧ j = i)
          then (val - reg_tail (que s)) mod len (que s) else 0
      | _, _ => 0
      end
  | _ => 0
  end.

Fixpoint queue_posted (i : nat) b (es : list (Z * dev_event)) : Z :=
  match es with
  | [] => 0
  | (now, e) :: es =>
      posts i b e + match dev_step b now e with inr b' => queue_posted i b' es | inl _ => 0 end
  end.

Fixpoint queue_run (ring : Z → bytes) (T : Z) (i : nat) b (es : list (Z * dev_event)) : Prop :=
  match es with
  | [] => True
  | (now, e) :: es =>
      queue_event ring T i b e ∧
      match dev_step b now e with inr b' => queue_run ring (T + posts i b e) i b' es | inl _ => True end
  end.

(** The operations queue [i] passes to the DMA engine, in order. *)
Definition in_flight (i : nat) (e : dev_event) (ops : list dma_op) : list dma_op :=
  match e with
  | DevDma (Rx j) k _ => if decide (j = i) then delete k ops else ops
  | _ => ops
  end.

Definition queue_issued (i : nat) b : list dma_op :=
  match rxqs b !! i with Some s => issued s | None => [] end.

Fixpoint queue_trace (i : nat) b (es : list (Z * dev_event)) : list dma_op :=
  match es with
  | [] => []
  | (now, e) :: es =>
      match dev_step b now e with
      | inr b' => drop (length (in_flight i e (queue_issued i b))) (queue_issued i b') ++ queue_trace i b' es
      | inl _ => []
      end
  end.

Section one_queue.
Context {N : RingLen} (i : nat) (ring : Z → bytes) (B dl db : Z).
Context (Hdl : 16 ≤ dl) (HB : 0 ≤ B) (HBl : B + ring_len * dl ≤ 2 ^ 64) (Hring : ∀ n, Z.of_nat (length (ring n)) = dl).

Abbreviation mem_inv := (rx_mem.mem_inv ring B dl db).

Definition dev_inv (T : Z) (ps : list bytes) (tr : list dma_op) b : Prop :=
  ∃ s, rxqs b !! i = Some s ∧ mem_inv T ps tr s ∧ bm_regs b regs.qrx_tail i = T mod ring_len.

(** After an event that leaves [old] of the operations in flight. *)
Definition dev_next (T : Z) (ps : list bytes) (tr old : list dma_op) b : Prop :=
  ∃ new, queue_issued i b = old ++ new ∧ dev_inv T ps (tr ++ new) b.

Lemma mem_inv_tail T ps tr (s : qstate rx.lan_queue_rx) :
  mem_inv T ps tr s → reg_tail (que s) = T mod ring_len ∧ len (que s) = ring_len ∧ 0 < ring_len ∧
    enabled (que s) = true.
Proof using All.
  intros [((h & w & k & I & _) & _) _ _ _]. destruct (inv_cnt _ _ _ _ _ _ I) as (_ & _ & El).
  destruct (inv_tail _ _ _ _ _ _ I) as [-> _]. destruct (inv_len _ _ _ _ _ _ I) as [Hl _].
  pose proof (inv_enabled _ _ _ _ _ _ I). rewrite El in *. split_and!; try done; lia.
Qed.

(** A method of queue [i] that keeps its invariant. *)
Lemma on_rx_inv T' ps' tr old b now h b' s :
  rxqs b !! i = Some s → on_rx b now i h = inr b' →
  bm_regs b regs.qrx_tail i = T' mod ring_len →
  (∀ s', h (attach b now true i s) = inr s' → ∃ new, issued s' = old ++ new ∧ mem_inv T' ps' (tr ++ new) s') →
  dev_next T' ps' tr old b'.
Proof using All.
  intros Hs E Ht Hh. pose proof (on_rx_keeps _ _ _ _ _ E regs.qrx_tail i eq_refl) as Hk.
  unfold on_rx in E. rewrite Hs in E. cbn in E. destruct (h _) as [|s']; [done|].
  cbn in E. simplify_eq. destruct (Hh s' eq_refl) as (new & Hi & M).
  match goal with |- dev_next _ _ _ _ ?bx => assert (rxqs bx !! i = Some s') as Hs' end.
  { cbn. apply list_lookup_insert_eq. by eapply lookup_lt_Some. }
  exists new. unfold queue_issued. rewrite Hs'. split; [done|]. exists s'. split_and!; [done|done|by rewrite Hk].
Qed.

Lemma dev_inv_other T ps tr b b' :
  dev_inv T ps tr b → rxqs b' !! i = rxqs b !! i →
  bm_regs b' regs.qrx_tail i = bm_regs b regs.qrx_tail i → dev_next T ps tr (queue_issued i b) b'.
Proof using All.
  intros (s & Hs & I & Ht) E1 E2. exists []. unfold queue_issued. rewrite E1, !app_nil_r. split; [done|].
  exists s. by rewrite E1, E2.
Qed.

(** The tail register of the queue is written. *)
Lemma tail_inv T ps tr b now val b' s :
  rxqs b !! i = Some s → mem_inv T ps tr s → bm_regs b regs.qrx_tail i = val →
  0 ≤ val < len (que s) → valid_event s (EvPost ((val - reg_tail (que s)) mod len (que s))) →
  lan_tail_updated b now i true = inr b' →
  dev_next (T + (val - reg_tail (que s)) mod len (que s)) ps tr (issued s) b'.
Proof using All.
  intros Hs I Hr Hv Hpost E. destruct (mem_inv_tail _ _ _ _ I) as (Ht & El & Hl & He).
  set (n := (val - reg_tail (que s)) mod len (que s)) in *.
  assert ((reg_tail (que s) + n) mod len (que s) = val) as Ev.
  { unfold n. rewrite Zplus_mod_idemp_r. replace (reg_tail (que s) + (val - reg_tail (que s))) with val by lia.
    apply Z.mod_small. lia. }
  unfold lan_tail_updated in E. eapply on_rx_inv; [exact Hs|exact E| |].
  { rewrite Hr, <- Ev, Ht, El. by rewrite Zplus_mod_idemp_l. }
  rewrite Hr. set (s1 := attach b now true i s).
  assert (mem_inv T ps tr (with_que s1 (que s))) as I0.
  { eapply (mem_inv_copy ring B dl Hdl HB HBl Hring); [..|exact I]; done. }
  intros s' Es. destruct (rx_mem.mem_step ring B dl Hdl HB HBl Hring db T ps tr (with_que s1 (que s)) (rx.RxPost n) s') as (new & Hi & M);
    [exact I0|exact Hpost| |exists new; by rewrite app_nil_r in M].
  cbn [rx.rx_step step que with_que]. rewrite Ev. unfold lan.tail_updated in Es.
  assert (with_que s1 (set_tail (que s1) val) = with_que (with_que s1 (que s)) (set_tail (que s) val)) as Eq.
  { unfold s1. cbn. by destruct (que s). }
  rewrite Eq in Es. cbn [que with_que set_tail enabled] in Es. rewrite He in Es. exact Es.
Qed.

Lemma rx_dma_inv T ps tr b now k payload s b' :
  dev_inv T ps tr b → rxqs b !! i = Some s → rx_mem.host_event ring T s (rx.RxDone k payload) →
  on_rx b now i (λ s, step s (EvDone k payload)) = inr b' → dev_next T ps tr (delete k (issued s)) b'.
Proof using All.
  intros (s0 & Hs0 & I & Ht) Hs Hv E. assert (s0 = s) as -> by congruence.
  eapply on_rx_inv; [exact Hs0|exact E|done|].
  assert (bm_regs b regs.qrx_tail i = reg_tail (que s)) as Hrt
    by (destruct (mem_inv_tail _ _ _ _ I) as (-> & _); done).
  pose proof (mem_inv_attach ring B dl Hdl HB HBl Hring db T ps tr b now i s I Hrt) as I1.
  intros s' Es. destruct (rx_mem.mem_step ring B dl Hdl HB HBl Hring db T ps tr _ (rx.RxDone k payload) s' I1) as (new & Hi & M); [|exact Es|].
  - destruct Hv as [Hv1 Hv2]. split; [exact Hv1|]. intros op Hop. specialize (Hv2 op Hop). by destruct op.
  - exists new. rewrite app_nil_r in M. cbn [rx_mem.posts] in M. rewrite Z.add_0_r in M. by split.
Qed.

Lemma rx_eth_inv T ps tr b now pkt b' :
  dev_inv T ps tr b → pkt ≠ [] → EthRx b now pkt = inr b' →
  dev_next T (ps ++ taken i b (DevEth pkt)) tr (queue_issued i b) b'.
Proof using All.
  intros Hd Hne E. unfold EthRx in E. cbn [taken].
  destruct (steered b pkt) as [[[q ?] kc]|]; [|done]. cbn in E.
  pose proof Hd as (s & Hs & I & Ht). rewrite Hs.
  destruct (bool_decide_reflect (Z.to_nat q = i)) as [Hq|Hq]; cbn [andb].
  - rewrite Hq in E. unfold queue_issued. rewrite Hs. eapply (on_rx_inv _ _ _ _ (set_kc b kc)); [exact Hs|exact E|done|].
    assert (bm_regs b regs.qrx_tail i = reg_tail (que s)) as Hrt
      by (destruct (mem_inv_tail _ _ _ _ I) as (-> & _); done).
    pose proof (mem_inv_attach ring B dl Hdl HB HBl Hring db T ps tr (set_kc b kc) now i s I Hrt) as I1. intros s' Es.
    exact (rx_mem.mem_packet ring B dl Hdl HB HBl Hring db T ps tr _ pkt s' I1 Hne Es).
  - rewrite app_nil_r. apply dev_inv_other; [exact Hd| |].
    + apply (on_rx_other _ _ _ _ _ i) in E; [exact E|]. by intros ->.
    + by rewrite (on_rx_keeps _ _ _ _ _ E).
Qed.

Lemma rx_write_inv T ps tr b now addr val b' :
  dev_inv T ps tr b → queue_event ring T i b (DevWrite addr val) → reg_mem_write32 b now addr val = inr b' →
  dev_next (T + posts i b (DevWrite addr val)) ps tr (queue_issued i b) b'.
Proof using All.
  intros Hd [Hnr Hev] E. unfold reg_mem_write32 in E.
  destruct (regs.reg_mem_write32 _ _ _) as [[r e]|] eqn:Ew; [|done]. cbn in E.
  pose proof (write_effect _ _ _ _ _ Ew) as He. pose proof (regs.write_reset _ _ _ _ _ Ew) as Hr.
  assert (e ≠ regs.DoReset) as Hne by (intros ->; destruct Hr as [Hr _]; rewrite Hr in Hnr; done).
  pose proof (write_lookup _ _ _ _ _ regs.qrx_tail i Ew eq_refl) as Hl. unfold stores_to in Hl.
  pose proof Hd as (s & Hs & I & Ht). cbn [posts]. rewrite Hs.
  destruct (regs.write_target addr) as [[[f j] e0]|].
  - destruct Hev as [Hena Htail].
    destruct (bool_decide_reflect (f = regs.qrx_tail ∧ j = i)) as [[-> ->]|Hno].
    + destruct (Htail eq_refl eq_refl s Hs) as [Hv Hpost].
      assert (e = regs.TailUpdated i true) as ->.
      { unfold effect_here in He. destruct e as [|? []|? []| | | | | | |]; cbn in He;
          try (by apply bool_decide_eq_true in He as [? ?]); try done.
        by apply bool_decide_eq_true in He as [_ ->]. }
      unfold queue_issued. rewrite Hs.
      eapply (tail_inv _ _ _ (set_regs b r)); [exact Hs|exact I|exact Hl|done|done|exact E].
    + rewrite Z.add_0_r.
      assert (∀ rx j', e = regs.QenaUpdated j' rx ∨ e = regs.TailUpdated j' rx → rx = true → j' ≠ i) as Hother.
      { intros rx j' [-> | ->] -> ->; unfold effect_here in He; cbn in He;
          apply bool_decide_eq_true in He as [<- <-]; [by apply Hena|by destruct Hno]. }
      apply dev_inv_other; [exact Hd| |].
      * apply (do_effect_other _ _ _ _ i E Hne); eauto.
      * rewrite (do_effect_keeps _ _ _ _ E Hne) by done. exact Hl.
  - rewrite Z.add_0_r. apply dev_inv_other; [exact Hd| |].
    + apply (do_effect_other _ _ _ _ i E Hne); by intros rx j ->.
    + rewrite (do_effect_keeps _ _ _ _ E Hne) by done. exact Hl.
Qed.

Lemma dev_step_inv T ps tr b now e b' :
  dev_inv T ps tr b → queue_event ring T i b e → dev_step b now e = inr b' →
  dev_next (T + posts i b e) (ps ++ taken i b e) tr (in_flight i e (queue_issued i b)) b'.
Proof using All.
  intros Hd Hv E. destruct e as [addr val|addr|pkt|o j payload|j ctx|vec]; cbn [dev_step] in E.
  - cbn [taken]. rewrite app_nil_r. by eapply rx_write_inv.
  - cbn [taken posts]. rewrite app_nil_r, Z.add_0_r. unfold reg_mem_read32 in E.
    destruct (regs.reg_mem_read32 _ _ _ _) as [[[v r] p]|] eqn:Er; [|done]. cbn in E. simplify_eq.
    apply dev_inv_other; [exact Hd|done|]. cbn. by rewrite (read_keeps _ _ _ _ _ _ _ Er).
  - cbn [posts]. rewrite Z.add_0_r. by eapply rx_eth_inv.
  - cbn [taken posts]. rewrite app_nil_r, Z.add_0_r. destruct o as [|j'|j']; cbn [DmaComplete in_flight] in *.
    + apply dev_inv_other; [exact Hd|by rewrite (on_atq_rxqs _ _ _ E)|by rewrite (on_atq_keeps _ _ _ E)].
    + destruct (decide (j' = i)) as [->|Hne].
      * pose proof Hd as (s & Hs & _). unfold queue_issued. rewrite Hs. eapply rx_dma_inv; [exact Hd|exact Hs| |exact E]. by apply Hv.
      * apply dev_inv_other; [exact Hd|by eapply on_rx_other|by rewrite (on_rx_keeps _ _ _ _ _ E)].
    + apply dev_inv_other; [exact Hd|by rewrite (on_tx_rxqs _ _ _ _ _ E)|by rewrite (on_tx_keeps _ _ _ _ _ E)].
  - cbn [taken posts]. rewrite app_nil_r, Z.add_0_r. unfold ctx_done in E. cbn in Hv.
    destruct (fetches b !! j) as [c|]; [|simplify_eq; by apply dev_inv_other]. specialize (Hv c eq_refl).
    destruct (cf_rx c).
    + apply dev_inv_other; [exact Hd| |by rewrite (on_rx_keeps _ _ _ _ _ E)].
      apply (on_rx_other _ _ _ _ _ i) in E; [exact E|]. intros ->. by apply Hv.
    + apply dev_inv_other; [exact Hd|by rewrite (on_tx_rxqs _ _ _ _ _ E)|by rewrite (on_tx_keeps _ _ _ _ _ E)].
  - cbn [taken posts]. rewrite app_nil_r, Z.add_0_r. unfold Timed in E.
    destruct (lan.Timed _ _); [|done]. cbn in E. simplify_eq.
    apply dev_inv_other; [exact Hd|done|]. by rewrite store_lan_keeps.
Qed.

Lemma dev_run_inv es : ∀ T ps tr b b',
  dev_inv T ps tr b → queue_run ring T i b es → dev_run b es = inr b' →
  dev_inv (T + queue_posted i b es) (ps ++ queue_taken i b es) (tr ++ queue_trace i b es) b'.
Proof using All.
  induction es as [|[now e] es IH]; intros T ps tr b b' Hd Hv E; cbn [queue_posted queue_taken queue_trace dev_run] in *.
  { simplify_eq. by rewrite Z.add_0_r, !app_nil_r. }
  destruct Hv as [He Hv]. destruct (dev_step b now e) as [|b1] eqn:E1; [done|].
  destruct (dev_step_inv _ _ _ _ _ _ _ Hd He E1) as (new & Hi & Hd1). rewrite Hi, drop_app_length.
  rewrite Z.add_assoc, !app_assoc. by apply IH.
Qed.

End one_queue.

(** C12: on the whole device, every receive queue delivers what is steered to it.  Let queue [i]
    have just been enabled, with a ring of a power of two of entries.  Whatever else happens to the
    device without a failure -- register accesses, packets, DMA completions of any queue in any
    order, interrupts, other queues being enabled, but no reset and no enabling or disabling of
    queue [i] itself, whose driver posts only free entries -- the data queue [i] writes goes to the
    buffers in the order they were posted and fits them, its descriptors go back to ring entries
    0, 1, 2, ... modulo its length, each once its data is written, and what a driver reassembles
    from the bytes written is a prefix of the packets whose hash chose queue [i] and that found
    enough descriptors -- all of them whenever the queue has no DMA operation in flight. *)
Theorem device_rx_delivers (ring : Z → bytes) (i : nat) b es b' q r :
  rxqs b !! i = Some (MkQs q r [] []) → rx.rx_start q r → rx_mem.ring_fits ring q →
  bm_regs b regs.qrx_tail i = 0 → queue_run ring 0 i b es → dev_run b es = inr b' →
  let tr := queue_trace i b es in
  let D := rx_mem.desc_writes (desc_len q) tr in
  let W := rx_mem.data_writes tr in
  W.*1 = (λ n, field (ring n) 0 8) <$> seqZ 0 (Z.of_nat (length W)) ∧
  Forall (λ x, Z.of_nat (length x.2) ≤ rx.dbuff_size r) W ∧
  D.*1 = (λ n, base q + n mod len q * desc_len q) <$> seqZ 0 (Z.of_nat (length D)) ∧
  (length D + length (rx_mem.data_writes (queue_issued i b')) ≤ length W)%nat ∧
  Z.of_nat (length W) ≤ queue_posted i b es ∧
  (rx.reassemble [] (rx_mem.driver_view D W)).1 `prefix_of` queue_taken i b es ∧
  (queue_issued i b' = [] → rx.reassemble [] (rx_mem.driver_view D W) = (queue_taken i b es, [])).
Proof.
  intros Hs Hst (HB & HBl & Hring) Ht Hv Hrun. pose (N := len q : RingLen).
  assert (16 ≤ desc_len q) as Hdl by (destruct Hst as ((_ & _ & _ & _ & _ & _ & _ & ? & _) & _); done).
  assert (dev_inv i ring (base q) (desc_len q) (rx.dbuff_size r) 0 [] [] b) as Hd.
  { exists (MkQs q r [] []). split; [done|]. split; [by apply rx_mem.rx_start_mem|]. by rewrite Ht. }
  destruct (dev_run_inv i ring (base q) (desc_len q) _ Hdl HB HBl Hring es 0 [] [] b b' Hd Hv Hrun) as (s & Hs' & M & _).
  pose proof (rx_mem.mem_inv_spec ring (base q) (desc_len q) Hdl HB HBl Hring _ _ _ _ _ M) as H.
  unfold queue_issued. rewrite Hs'. exact H.
Qed.

(** ** An example *)

Definition queue_eventb (ring : Z → bytes) (T : Z) (i : nat) b (e : dev_event) : bool :=
  match e with
  | DevWrite addr val =>
      negb (regs.is_reset addr val) &&
      match regs.write_target addr, rxqs b !! i with
      | Some (f, j, _), Some s =>
          negb (bool_decide (f = regs.qrx_ena ∧ j = i)) &&
          (negb (bool_decide (f = regs.qrx_tail ∧ j = i)) ||
           bool_decide (0 ≤ val < len (que s)) &&
           validb s (EvPost ((val - reg_tail (que s)) mod len (que s))))
      | None, _ => true
      | _, None => false
      end
  | DevEth pkt => match pkt with [] => false | _ => true end
  | DevDma (Rx j) k payload =>
      negb (bool_decide (j = i)) ||
      match rxqs b !! i with Some s => rx_mem.host_eventb ring T s (rx.RxDone k payload) | None => true end
  | DevCtx k _ =>
      match fetches b !! k with
      | Some c => negb (cf_rx c && bool_decide (cf_idx c = i))
      | None => true
      end
  | _ => true
  end.

Lemma queue_eventb_sound ring T i b e : queue_eventb ring T i b e = true → queue_event ring T i b e.
Proof.
  destruct e as [addr val|addr|pkt|o j payload|j ctx|vec]; cbn [queue_eventb queue_event]; try done.
  - intros [Hr Hw]%andb_true_iff. split; [by apply negb_true_iff|].
    destruct (regs.write_target addr) as [[[f j] e]|]; [|done].
    destruct (rxqs b !! i) as [s|]; [|done].
    apply andb_true_iff in Hw as [H1%negb_true_iff%bool_decide_eq_false H2]. split; [naive_solver|].
    intros -> -> s' [= <-]. rewrite bool_decide_true in H2 by done. cbn [negb orb] in H2.
    apply andb_true_iff in H2 as [?%bool_decide_eq_true ?%validb_sound]. done.
  - by destruct pkt.
  - destruct o as [|j'|]; try done. intros Hv -> s Hs. rewrite bool_decide_true, Hs in Hv by done.
    by apply rx_mem.host_eventb_sound.
  - intros Hv c Hc Hrx. rewrite Hc, Hrx in Hv. by apply negb_true_iff, bool_decide_eq_false in Hv.
Qed.

Fixpoint queue_runb (ring : Z → bytes) (T : Z) (i : nat) b (es : list (Z * dev_event)) : bool :=
  match es with
  | [] => true
  | (now, e) :: es =>
      queue_eventb ring T i b e &&
      match dev_step b now e with inr b' => queue_runb ring (T + posts i b e) i b' es | inl _ => true end
  end.

Lemma queue_runb_sound ring i es : ∀ T b, queue_runb ring T i b es = true → queue_run ring T i b es.
Proof.
  induction es as [|[now e] es IH]; intros T b Hv; [done|]. cbn [queue_runb queue_run] in *.
  apply andb_true_iff in Hv as [He Hv]. split; [by apply queue_eventb_sound|].
  destruct (dev_step b now e); [done|]. by apply IH.
Qed.

Definition idle_tx : qstate tx.lan_queue_tx :=
  MkQs (queue.reset rx.ring_64)
    (tx.MkTx (lan.MkLanQ rx.idle_dev false 0 0 0 0 128) (tx.MkBuf (replicate 64 0) 0 0) [] false 0) [] [].

(** A device with two queues of each kind, the receive queues enabled. *)
Definition demo_bm : i40e_bm :=
  MkBm (regs.reset_regs false)
    (MkQs adminq.admin_ring (adminq.MkAdmin 0 0 []) [] []) [] (rss.new_rss_key_cache [])
    (replicate 2 (MkQs rx.ring_64 rx.idle_rx [] [])) (replicate 2 idle_tx)
    ptp.new_ptpmgr (replicate 128 (lan.MkIntEv false 0)) true [] [].

(** Descriptors are posted to both queues, an interrupt register is set, and two packets that
    are not IP arrive, the second too large for what is left. *)
Definition demo_events : list (Z * dev_event) :=
  [(0, DevWrite (regs.I40E_QRX_TAIL 0) 4); (0, DevWrite (regs.I40E_QRX_TAIL 1) 2);
   (10, DevWrite (regs.I40E_QINT_RQCTL 1) 7);
   (20, DevDma (Rx 1) 0 (replicate 32 9)); (30, DevDma (Rx 0) 0 (concat (rx_mem.demo_ring <$> seqZ 0 4)));
   (40, DevEth (replicate 300 1)); (50, DevRead regs.I40E_PFINT_ICR0);
   (60, DevEth (replicate 200 2)); (70, DevDma (Rx 0) 1 []); (80, DevEth (replicate 50 3))].

Lemma demo_runs : match dev_run demo_bm demo_events with inr _ => true | inl _ => false end = true.
Proof. by vm_compute. Qed.

Lemma device_rx_delivers_witness :
  queue_taken 0 demo_bm demo_events = [replicate 300 1; replicate 50 3] ∧
  ∃ b', dev_run demo_bm demo_events = inr b' ∧
  let tr := queue_trace 0 demo_bm demo_events in
  let D := rx_mem.desc_writes 16 tr in
  let W := rx_mem.data_writes tr in
  W.*1 = (λ n, field (rx_mem.demo_ring n) 0 8) <$> seqZ 0 (Z.of_nat (length W)) ∧
  Forall (λ x, Z.of_nat (length x.2) ≤ 128) W ∧
  D.*1 = (λ n, 4096 + n mod 64 * 16) <$> seqZ 0 (Z.of_nat (length D)) ∧
  (length D + length (rx_mem.data_writes (queue_issued 0 b')) ≤ length W)%nat ∧
  Z.of_nat (length W) ≤ queue_posted 0 demo_bm demo_events ∧
  (rx.reassemble [] (rx_mem.driver_view D W)).1 `prefix_of` queue_taken 0 demo_bm demo_events ∧
  (queue_issued 0 b' = [] →
   rx.reassemble [] (rx_mem.driver_view D W) = (queue_taken 0 demo_bm demo_events, [])).
Proof.
  split; [by vm_compute|]. pose proof demo_runs as Hr.
  destruct (dev_run demo_bm demo_events) as [|b'] eqn:E; [done|]. exists b'. split; [done|].
  refine (device_rx_delivers rx_mem.demo_ring 0 demo_bm demo_events b' rx.ring_64 rx.idle_rx eq_refl _ _ eq_refl _ E).
  - clear. split; [apply rx.ring_64_fresh|done].
  - clear. split; [done|]. split; [done|]. intros n. cbn [desc_len rx.ring_64]. unfold rx_mem.demo_ring.
    rewrite length_app, !length_le. reflexivity.
  - clear. apply queue_runb_sound. by vm_compute.
Defined.

Lemma registers_are_memory_witness :
  ∃ b' b'', dev_run demo_bm demo_events = inr b' ∧
    reg_mem_read32 b' 100 (regs.I40E_QINT_RQCTL 1) = inr (7, b'').
Proof.
  pose proof demo_runs as Hr. destruct (dev_run demo_bm demo_events) as [|b'] eqn:E; [done|].
  exists b'. destruct (registers_are_memory demo_bm demo_events b' (regs.I40E_QINT_RQCTL 1)
    regs.qint_rqctl 1 regs.Nop 100 eq_refl eq_refl) as (b'' & Hb).
  - clear. apply Nat.ltb_lt. by vm_compute.
  - reflexivity.
  - exact E.
  - exists b''. split; [reflexivity|]. rewrite Hb. clear. by do 2 f_equal.
Defined.

End i40e_dev_inv.
